(* ===== verification/_CoqProject ===== *)
-Q . S2P
Prelude.v
GoLib.v
Fence.v
Errors.v
Grant.v
Ledger.v
LedgerFacts.v
LedgerSteps.v
LedgerLinks.v
LedgerSafety.v
Revoked.v
Health.v
AuditLog.v
AuditFacts.v
Runtime.v
Core.v
Clone.v
Verbs.v
Boot.v
Pool.v
CoreRefines.v
CoreThreads.v
Sandbox.v
CoreHome.v
CoreSweep.v
CloneFacts.v
VerbFacts.v
BootFacts.v
LoopFacts.v
Encoding.v
GoText.v
Sni.v
Router.v
RouterFacts.v
RouterServe.v
Proto.v
Token.v
TokenFacts.v
Keyring.v
Jwks.v
JwksFacts.v
DeviceGuard.v
GuardFacts.v
ReadyGate.v
ScopeLoss.v
GrantDir.v
Record.v
IdRange.v
Seal.v
SealFacts.v
Parity.v
Sign.v
Mobility.v
MobilityFacts.v
Fetch.v
FetchFacts.v
HealthPoll.v
KubeHome.v
KubeHomeFacts.v
Rpc.v
RpcFacts.v
Threads.v
Host.v
HostInv.v
HostSteps.v
HostRuns.v
HostBirths.v
HostFacts.v
HostLimits.v
ParentStore.v
ParentFacts.v
Engine.v
EngineFacts.v
Images.v
ImageFacts.v
Registry.v
Wsfs.v
WsfsBudget.v
WsfsTree.v
WsfsUpload.v
