(* ===== verification/Prelude.v ===== *)
(** * fiberd: a verification development

    fiberd runs fibers, small sandboxed processes, on a home (a node).  An
    issuer signs grants, each a budget of fibers for one tenant and template;
    a home admits a grant, warms its template, and a caller's Clone then
    attaches to, resumes or creates a fiber in milliseconds.  A session may be
    parked into a delta, a checkpoint less the template's pages, and resumed
    here or on another home.  Every incarnation of a fiber carries a fence
    (grant, epoch, sequence number); a revocation or an epoch bump must leave
    nothing running that an old fence names.

    The parts and how they meet: tokens (pkg/grant) and the home's deliveries
    (pkg/home) feed the core (pkg/core), which keeps the ledger of grants,
    sessions and fibers and serves the verbs of the gRPC front (pkg/rpc); the
    core asks a runtime to clone, park and release, and the host runtime
    (pkg/runtime/host) does so with ports, sockets, pools of sandboxes, a parent
    store, a device engine, sealed and signed artifacts (pkg/artifact) and a
    backend (pkg/backend); a handoff listener (pkg/handoff) routes connections
    to fibers.

    ** The core (src/pkg/core)

    - [Prelude] (this file): notations, the state monad, tactics, counting
      lemmas.  [GoLib], [GoText], [Encoding]: what the code uses of Go: uint64
      with its wrap-around, time, strings, strconv, binary64, base64 and hex,
      encoding/json as a class with its law.
    - [Fence] (fence.go, writefile.go): fences, their text and order; the epoch
      store and the atomic file replacement over a file system whose calls may
      each fail.
    - [Errors] (errors.go, StatusCode and RemoteMiss of core.go): sentinels and
      wrapping; errors.Is and errors.As.
    - [Grant] (grant.go, validate.go, tier_parse.go, parts of runtime.go and
      core.go): Grant and Policy, the enumerations with their parsers and
      printers, Validate with its regular expressions, session domains, what a
      refresh may change.
    - [Ledger] (ledger.go, restoreParked of snapshot.go): one definition per
      method.  The entries live at addresses of a heap, so that a revoked and
      re-admitted UID is another entry, as it is another pointer in Go.  The
      closures resolveHeld returns are [commit] and [unlock] on a [ticket].
      [LedgerFacts]: what each operation does.  [LedgerSteps]: concurrent
      callers as a transition system; a thread waits for a session's gate,
      holds it, flies (has resolved), and lets it go; each step is one hold of
      the ledger's lock.  [LedgerLinks], [LedgerSafety]: invariants by
      induction on runs, and the claims.
    - [Revoked] (revoked.go), [Health] (health.go, ratelimit.go): the deny-list
      with its file, the issuer's staleness with hysteresis, the token bucket.
    - [AuditLog], [AuditFacts] (audit.go): the hash-chained spool with torn and
      failed writes, gaps, checkpoints, the scan at open, VerifySpool, and the
      group commit of fsync.  SHA-256 and ed25519 are parameters.
    - [Runtime] (runtime.go, the types of core.go): what Core is wired to, as
      the class [Env] of operations on a state [E].  [Core] (core.go, helpers
      of snapshot.go and pool.go): [World], the mutable part of the Core
      struct, and the helpers and Admit.  [Clone]: the warm path and OnExit.
      [Verbs] (core.go, discard.go, drain.go, Sweep): the other verbs.  [Boot]
      (snapshot.go): the snapshot store and Reconcile.  [Pool] (pool.go,
      pressure.go): the refill pass and the pressure ladder.
    - [CoreRefines], [CoreThreads], [CoreHome]: a program logic for the verbs,
      and the proof that any run of a home is a run of the ledger's transition
      system.  [CoreSweep], [CloneFacts], [VerbFacts], [BootFacts],
      [LoopFacts]: what each verb promises.  [Sandbox]: a concrete
      home the witnesses run on; it models no code.

    ** Around the core

    - Tokens (pkg/grant): [Proto] the grant on the wire, [Token] signing and
      verifying, [Keyring] key rings and their store, [Jwks] the key cache with
      its refreshes and the verifier over it; [TokenFacts], [JwksFacts].  JOSE,
      JSON and HTTP are parameters with their laws; the end of [Token] is a
      concrete instance for the witnesses.
    - Deliveries (pkg/home): the end of [Verbs] the deliveries into Core,
      [GrantDir] the grant directory, [ReadyGate] and [ScopeLoss] the readiness gate and the
      scope-loss queue, [HealthPoll] the health poll, [Fetch] and [KubeHome] the
      grant fetch and the rounds of the Kubernetes home; [FetchFacts],
      [KubeHomeFacts].
    - Handoff (pkg/handoff): [Sni] the ClientHello parser, [Router] the routing
      table, the peek and the accept loop; [RouterFacts], [RouterServe].
    - The front (pkg/rpc): [Rpc] status mapping, callers, admission, the
      handlers over the verbs, the file calls; [RpcFacts].
    - Artifacts (pkg/artifact): [Seal], [SealFacts] the sealed stream and the
      artifacts in it; [Sign] signatures and the checks of signed manifests;
      [Parity] platform parity.  [Registry] (fileregistry.go): the file registry,
      each operation a program of file-system calls that any number of processes
      run at once.  [Mobility], [MobilityFacts] (mobility_linux.go
      of pkg/runtime/host): publish, find, claim, owned, retire and return of a
      session's tag, as registry calls that interleave between homes.
    - Guards and records: [DeviceGuard], [GuardFacts] (pkg/sys/cgroup) the eBPF
      program that refuses the GPU, with an interpreter; [Record]
      (pkg/backend/record.go) the records on a fiber's channel; [IdRange]
      (pkg/backend/runc/idrange.go) user namespace ranges.

    ** The host runtime (src/pkg/runtime/host)

    [Threads] is generic: a goroutine is a program of holds of a lock, calls
    outside it and waits, a home a pool of them under any scheduler, and a logic
    of tokens proves an invariant of the shared state over all of its runs.

    - [Host] (host_linux.go, pool_linux.go): Clone, start, resume, Park, Release,
      the end of a fiber, exits, pools, ports and sockets, each hold of r.mu a
      step.  [HostInv] the invariant, [HostSteps], [HostRuns], [HostBirths] that
      each hold and each operation keeps it, [HostFacts] the jobs of a home and
      the claims.  [HostLimits] (config.go): saturating budgets, ceilings, the
      -template flag.
    - [Engine], [EngineFacts] (engine_linux.go, enginerelay_linux.go): the
      device engine's protocol, its three locks, exchanges, restarts, and an
      engine process that may say anything and break at any write.
    - [ParentStore], [ParentFacts] (parents_linux.go): the sections that use the
      store of template checkpoints and the pruner that scans without a lock.
    - [Images], [ImageFacts] (images.go of pkg/sys/criu): CRIU's pagemaps as
      bytes, parents, and the delta of a checkpoint computed and merged over a
      directory whose writes and renames may fail.
    - [Wsfs] (pkg/runtime/host/wsfs): a fiber's workspace as the
      inodes of a file system; paths, the budget, uploads, downloads, the park
      archive and its unpacking as programs of system calls, between any two of
      which other calls and the fiber run.  [WsfsBudget] the accounts over all
      interleavings, [WsfsTree] Capture and Unpack as one simulation,
      [WsfsUpload] what an upload leaves.

    ** How interaction and concurrency are modelled

    Core calls its collaborators through interfaces, which are fields of [Env];
    an optional Go interface is an [option].  Nothing is assumed of them but
    [names_by_fence], that the runtime's Clone names a fiber by its fence, where
    it is stated; [HostFacts.Clone_named] shows it of the host runtime.  A verb
    is a function of the [World]; where it waits for a gate, for another
    admission or for the runtime's Clone, Park or Release, an arbitrary function
    [others] runs.  [CoreRefines.waiting] marks each wait in the trace with the
    worlds before and after it ([EvWait]), so that a call is cut at its waits into
    stretches; [CoreHome.interleaves] is any sequence of stretches, of any number
    of calls, in which each call's own come in order, and
    [home_runs_are_ledger_runs] is about all of these: calls that overlap without
    being nested, and calls that wait on one another's gates, included.  Between
    two waits a call runs through: it is cut where it waits, not at each hold of
    the ledger's lock.  A wait that no one ends is recorded as [EvBlocked].
    [w_trace] is a ghost record of what was asked of the runtime, the verifier
    and the auditor.  The router, the audit's group commit, the readiness gate,
    session mobility, the parent store, the file registry and the host are
    transition systems of their own, each step one hold of the code's lock or one
    call.

    ** What the theorems show

    - The ledger, over all interleavings: fibers.max bounds the fibers and
      reservations of an entry while no grant is re-admitted with fibers of its
      former life still running (and a run where it is, overshooting), one
      fiber per session, fences strictly newer, no commit past a revocation or
      an epoch bump; Statuses and the fiber lists are exact.
    - Core refines it: [home_runs_are_ledger_runs].
    - The verbs: a fiber that was born is acked and recorded or released; no
      ack before its audit record; a draining home starts nothing; BumpEpoch
      and Yield leave nothing of what they end; Park follows the runtime; Admit
      is all or nothing; Drain ends and counts every fiber; a boot admits only
      what its verifier accepts.
    - The host: ports and sockets have one live holder where no delta of a
      running fiber is discarded or resumed, deaths are reported exactly once
      unless a Release or a park asked for them, no name leaks but a parked fiber's port; the engine that
      runs was told exactly the mappings fiberd keeps, replies wake one exchange
      once, slices are counted of mapped fibers only; the prune spares what is
      named or held where its manifest reads, and alone it ends with exactly that; a checkpoint survives
      its delta, page for page, and the delta is exactly what the parent lacks;
      a workspace's budget is never overdrawn, nor released below zero, a tree
      that parks resumes as it was, and an upload is all or nothing,
      whichever of its calls fail.
    - The stores: epochs strictly increase over crashes (and over a counter that
      is lost, given a clock that outruns the writes), replacement is atomic,
      a removed grant stays denied over restarts, Persist covers its caller, a
      verified audit log binds its records, an honest one verifies, a Sync
      append that returns nil is durable; and how a lost gap record breaks the
      chain.
    - Tokens and keys: what is signed is read back, and only what was signed; a
      ring that is read is well formed; what an issuer mints its homes accept;
      an outage is told from a bad token; refreshes are paced.
    - Artifacts and mobility: what is sealed opens to the same bytes and only
      what was sealed opens, whole; a home takes only deltas a trusted home
      parked for that session; between two claims of a session
      there is a publish.  In a file
      registry what is pulled is what was pushed, and a reference is taken as
      often as it was placed.
    - Homes and fronts: the Pod's lease does not lapse while the controller
      answers and the token file can be written; scope losses are exact; ServerName decides once; no connection
      holds its slot for ever and the router's caps hold; a caller learns
      nothing of a fiber it does not hold; an acknowledged upload is the file
      declared; the guard's program refuses exactly the GPU.
    - The pure parts: fence text and order, validation patterns, quotas that do
      not wrap, session domains that separate tenants, refresh rules, enums,
      staleness, the rate limit's burst, the ladder's rungs, the refill turns,
      channel records, id ranges, parity.
    - Where the code departs from its comments, a lemma runs the departure:
      [lost_gap_breaks_chain], [failed_park_leaks_port],
      [discard_frees_live_port], [resume_steals_from_birth], [block_max_wraps],
      [late_reply_answers_next], [restored_slice_of_dead_engine],
      [failed_delta_loses_parent], [unread_manifest_loses_parent],
      [failed_rename_loses_checkpoint], [shared_staging_loses_file],
      [push_during_delete_dangles], [unlisted_tags_lose_content],
      [longest_directory_not_resumed], [inode_reuse_keeps_bytes] and others.

    ** Bounds, fuel and hypotheses

    [drainLoop] has fuel, and [Drain_terminates] shows one more than the number
    of fibers is enough.  Other fuel is a length that bounds the recursion: of
    the text (fields, the sealed stream's chunks, plus one, a pagemap's
    messages), ten bytes of a varint, of the eBPF program
    (its interpreter), the entry ceiling (the walk of a workspace, plus one), of
    the port range (the search for a free port), of the
    messages left (uploads, plus two), of the timeout in seconds (the start of
    the Kubernetes home, plus one), of the bytes a peek may read (the router);
    each has a lemma that it suffices or its length is the code's own loop
    bound.  Theorems on fences assume fewer than 2^64 fences were minted, those on
    epochs and audit records that their counters stay below 2^64, and storeUses
    is a counter that does not wrap.  Cryptography is assumed unforgeable where a
    theorem says so.  encoding/json is assumed to give back text that is UTF-8
    ([headerText], [stdText], [cnfText]), and claims up to re-encoding.  The store
    under an upload reads until it is told the end ([asksToEnd], shown of the
    host's).  A home's jobs are those the core may start ([may], [emay]): new
    fences for births, one park of a fiber at a time, deltas discarded or resumed
    that are of no running fiber here, one round of the engine's run.  Contexts
    that end are inputs.

    ** What is not modelled

    The goroutine and channels of Run and Watch (they call the verbs), logging,
    locks that only guard one map (each hold is one step), the report of
    devicereport.go.  Outside the core: the backends but for records and id
    ranges, mounts, owners and times of workspace files, the relay's splice, cgroups, the criu
    process and namespaces, the engine's process (system calls and files); the
    certificates of handoff identities, OCI pushes and pulls, the Kubernetes
    client, grpc and protojson (libraries the sources call); the author images
    of the parent store and the sweeps at start (file removals); URL parsing of
    endpoints; the daemon's wiring and flags, commands, SDKs, examples and
    generated code.  Between the check of a grant's fixed fields and its
    admission Admit holds the UID's slot, so that stretch is one step.

    Next: the engine's facts in a delta's annotations, export and import of
    deltas, the relay, the process backend's protocol. *)

From Stdlib Require Export ZArith NArith Lia.
From stdpp Require Export base tactics numbers option list gmap strings sorting.
From stdpp Require Import options.

(** ** Scope and notations *)

Declare Scope fiberd_scope.
Delimit Scope fiberd_scope with fiberd.

(** Boolean equality of two values with decidable equality, as Go's [==]. *)
Notation "a ==? b" := (bool_decide (a = b)) (at level 70, no associativity) : fiberd_scope.
Notation "a <>? b" := (negb (bool_decide (a = b))) (at level 70, no associativity) : fiberd_scope.
Open Scope fiberd_scope.

(** ** The state monad the verbs are written in

    [St S A] is a computation that reads and writes a state [S].  The bind and
    return are stdpp's overloaded ones, so a verb reads [x ← c; k]. *)

Definition St (S A : Type) : Type := S → A * S.

#[export] Instance St_ret S : MRet (St S) := λ A a s, (a, s).
#[export] Instance St_bind S : MBind (St S) := λ A B f m s, let r := m s in f r.1 r.2.

Definition gets {S A} (f : S → A) : St S A := λ s, (f s, s).
Definition modify {S} (f : S → S) : St S unit := λ s, (tt, f s).

Lemma St_bind_run {S A B} (c : St S A) (k : A → St S B) s : (c ≫= k) s = k (c s).1 (c s).2.
Proof. done. Qed.

(** Run [f] on every element in order. *)
Fixpoint for_each {S A} (f : A → St S unit) (xs : list A) : St S unit :=
  match xs with
  | [] => mret tt
  | x :: xs' => _ ← f x; for_each f xs'
  end.

(** ** Tactics *)

(** Case analysis on every boolean test or match of the goal, then clean up. *)
Ltac case_all :=
  repeat (case_match; simplify_eq).

(** Turn [bool_decide], [&&], [||], [negb] hypotheses into propositions. *)
Ltac breflect :=
  repeat match goal with
  | H : bool_decide _ = true |- _ => apply bool_decide_eq_true_1 in H
  | H : bool_decide _ = false |- _ => apply bool_decide_eq_false_1 in H
  | H : negb _ = true |- _ => apply negb_true_iff in H
  | H : negb _ = false |- _ => apply negb_false_iff in H
  | H : _ && _ = true |- _ => apply andb_true_iff in H; destruct H
  | H : _ || _ = false |- _ => apply orb_false_iff in H; destruct H
  | H : (_ <? _)%Z = true |- _ => apply Z.ltb_lt in H
  | H : (_ <? _)%Z = false |- _ => apply Z.ltb_ge in H
  | H : (_ <=? _)%Z = true |- _ => apply Z.leb_le in H
  | H : (_ <=? _)%Z = false |- _ => apply Z.leb_gt in H
  | H : (_ <? _)%N = true |- _ => apply N.ltb_lt in H
  | H : (_ <? _)%N = false |- _ => apply N.ltb_ge in H
  | H : (_ <=? _)%N = true |- _ => apply N.leb_le in H
  | H : (_ <=? _)%N = false |- _ => apply N.leb_gt in H
  end.

(** ** Counting the entries of a map that satisfy a predicate *)

Section counting.
Context {K A : Type} `{Countable K}.
Implicit Types (m : gmap K A) (P : K → A → bool).

(** Go's [for range m] with a counter. *)
Definition count P m : nat :=
  size (filter (λ kv, P kv.1 kv.2 = true) m).

Lemma count_empty P : count P ∅ = 0.
Proof. unfold count. by rewrite map_filter_empty, map_size_empty. Qed.

Lemma count_insert_new P m k x :
  m !! k = None → count P (<[k:=x]> m) = (if P k x then 1 else 0) + count P m.
Proof.
  intros Hk. unfold count. destruct (P k x) eqn:E.
  - rewrite map_filter_insert_True by done.
    rewrite map_size_insert_None; [done|].
    apply map_lookup_filter_None. by left.
  - rewrite map_filter_insert_False by (simpl; congruence).
    by rewrite delete_id.
Qed.

Lemma count_delete P m k x :
  m !! k = Some x → count P m = (if P k x then 1 else 0) + count P (delete k m).
Proof.
  intros Hk. rewrite <- (insert_id m k x Hk) at 1.
  rewrite <- insert_delete_eq.
  apply count_insert_new, lookup_delete_eq.
Qed.

Lemma count_delete_none P m k : m !! k = None → count P (delete k m) = count P m.
Proof. intros. by rewrite delete_id. Qed.

Lemma count_insert P m k x y :
  m !! k = Some y →
  (if P k y then 1 else 0) + count P (<[k:=x]> m) = (if P k x then 1 else 0) + count P m.
Proof.
  intros Hk. rewrite (count_delete P m k y Hk).
  rewrite <- insert_delete_eq, count_insert_new by apply lookup_delete_eq. lia.
Qed.

Lemma count_ext P Q m :
  (∀ k x, m !! k = Some x → P k x = Q k x) → count P m = count Q m.
Proof.
  intros HPQ. unfold count. f_equal. apply map_filter_ext.
  intros k x Hk. simpl. by rewrite (HPQ k x Hk).
Qed.

Lemma count_zero P m :
  count P m = 0 ↔ ∀ k x, m !! k = Some x → P k x = false.
Proof.
  unfold count. rewrite map_size_empty_iff. split.
  - intros E k x Hk. destruct (P k x) eqn:EP; [|done].
    assert (filter (λ kv, P kv.1 kv.2 = true) m !! k = Some x) as Hf
      by (apply map_lookup_filter_Some; done).
    rewrite E in Hf. done.
  - intros HP. apply map_empty. intros k. apply map_lookup_filter_None. right.
    intros x Hk. simpl. by rewrite (HP k x Hk).
Qed.

Lemma count_pos P m k x : m !! k = Some x → P k x = true → 0 < count P m.
Proof. intros Hk HP. rewrite (count_delete P m k x Hk), HP. lia. Qed.
End counting.

Create HintDb fiberd discriminated.
#[export] Hint Resolve lookup_insert_eq lookup_delete_eq : fiberd.
