(* ===== verification/GoLib.v ===== *)
(** * The parts of Go's language and standard library the sources use

    Machine integers ([uint64] as [N] with its wrap-around, [int] as [Z]),
    [time.Time] and [time.Duration], [strings], [strconv] and IEEE binary64
    arithmetic.  A Go string is a sequence of bytes, which is what Rocq's
    [string] of 8-bit [ascii] characters is. *)

From Stdlib Require Import Ascii DecimalString DecimalN SpecFloat.
From S2P Require Import Prelude.
From stdpp Require Import options.

(** ** uint64 *)

Module U64.
Definition modulus : N := (2 ^ 64)%N.
Definition max : N := (2 ^ 64 - 1)%N.
(** The wrap-around every [uint64] operation ends in. *)
Definition wrap (n : N) : N := (n mod modulus)%N.
Definition add (a b : N) : N := wrap (a + b).
Definition mul (a b : N) : N := wrap (a * b).
Definition succ (a : N) : N := add a 1.
(** A conversion from [int]. *)
Definition of_int (z : Z) : N := Z.to_N (z mod 2 ^ 64)%Z.

Lemma wrap_small n : (n < modulus)%N → wrap n = n.
Proof. apply N.mod_small. Qed.

Lemma wrap_lt n : (wrap n < modulus)%N.
Proof. by apply N.mod_lt. Qed.

Lemma succ_small n : (n < max)%N → succ n = (n + 1)%N.
Proof. intros. unfold succ, add. apply wrap_small. unfold max, modulus in *. lia. Qed.

Lemma of_int_small z : (0 ≤ z < 2 ^ 64)%Z → of_int z = Z.to_N z.
Proof. intros. unfold of_int. by rewrite Z.mod_small. Qed.
End U64.

(** ** Integer conversions *)

(** [uint32(z)] and [int32(z)] of an [int]. *)
Definition to_uint32 (z : Z) : Z := (z mod 2 ^ 32)%Z.
Definition to_int32 (z : Z) : Z := ((z + 2 ^ 31) mod 2 ^ 32 - 2 ^ 31)%Z.

Lemma to_uint32_small z : (0 ≤ z < 2 ^ 32)%Z → to_uint32 z = z.
Proof. apply Z.mod_small. Qed.
Lemma to_int32_small z : (- 2 ^ 31 ≤ z < 2 ^ 31)%Z → to_int32 z = z.
Proof. intros H. unfold to_int32. rewrite Z.mod_small by lia. lia. Qed.

(** ** time.Time and time.Duration

    An instant is the number of nanoseconds since Go's zero time, so the zero
    time is [0].  A duration is a number of nanoseconds in an [int64]. *)

Module Time.
Definition t := Z.
Definition duration := Z.
Definition maxDuration : duration := (2 ^ 63 - 1)%Z.
Definition minDuration : duration := (- 2 ^ 63)%Z.
Definition Nanosecond : duration := 1%Z.
Definition Millisecond : duration := 1000000%Z.
Definition Second : duration := 1000000000%Z.
Definition Minute : duration := (60 * Second)%Z.
Definition Hour : duration := (60 * Minute)%Z.

Definition zero : t := 0%Z.
Definition IsZero (a : t) : bool := (a =? 0)%Z.
Definition Before (a b : t) : bool := (a <? b)%Z.
Definition After (a b : t) : bool := (b <? a)%Z.
Definition Equal (a b : t) : bool := (a =? b)%Z.
Definition Add (a : t) (d : duration) : t := (a + d)%Z.
(** [Sub] saturates at the ends of [int64]. *)
Definition Sub (a b : t) : duration := Z.max minDuration (Z.min maxDuration (a - b)).
(** [Truncate] rounds down to a multiple of [d] since the zero time. *)
Definition Truncate (a : t) (d : duration) : t :=
  if (d <=? 0)%Z then a else (a - a mod d)%Z.
(** The zero time is at -62135596800 s of the Unix epoch. *)
Definition unixToInternal : Z := 62135596800%Z.
Definition Unix (a : t) : Z := (a / Second - unixToInternal)%Z.
End Time.

(** ** strings *)

Fixpoint str_take (n : nat) (s : string) : string :=
  match n, s with
  | S n', String c s' => String c (str_take n' s')
  | _, _ => ""
  end.

Fixpoint str_drop (n : nat) (s : string) : string :=
  match n, s with
  | S n', String _ s' => str_drop n' s'
  | _, _ => s
  end.

(** [strings.LastIndexByte], [None] for -1. *)
Fixpoint LastIndexByte (s : string) (c : ascii) : option nat :=
  match s with
  | "" => None
  | String d s' =>
      match LastIndexByte s' c with
      | Some i => Some (S i)
      | None => if c ==? d then Some 0 else None
      end
  end.

(** [strings.HasPrefix]. *)
Definition HasPrefix (s p : string) : bool := String.prefix p s.

(** [strings.TrimPrefix]. *)
Definition TrimPrefix (s p : string) : string :=
  if HasPrefix s p then str_drop (String.length p) s else s.

(** [strings.HasSuffix]. *)
Definition HasSuffix (s p : string) : bool :=
  (String.length p <=? String.length s)%nat
  && (str_drop (String.length s - String.length p) s ==? p).

(** [strings.CutSuffix], [None] for a missing suffix. *)
Definition CutSuffix (s p : string) : option string :=
  if HasSuffix s p then Some (str_take (String.length s - String.length p) s) else None.

(** [strings.TrimSuffix]. *)
Definition TrimSuffix (s p : string) : string := default s (CutSuffix s p).

Definition in_range (lo hi c : ascii) : bool :=
  (N_of_ascii lo <=? N_of_ascii c)%N && (N_of_ascii c <=? N_of_ascii hi)%N.

Definition byte (n : N) : ascii := ascii_of_N n.

Definition upper_char (c : ascii) : ascii :=
  if in_range "a" "z" c then byte (N_of_ascii c - 32) else c.
Definition lower_char (c : ascii) : ascii :=
  if in_range "A" "Z" c then byte (N_of_ascii c + 32) else c.

(** [strings.ToUpper] on ASCII text and on the two runes outside ASCII whose
    upper case is ASCII, U+0131 and U+017F.  Every other rune stays outside
    ASCII under ToUpper and is left as it is here, so the result equals an
    ASCII literal exactly when Go's does. *)
Fixpoint ToUpper (s : string) : string :=
  match s with
  | "" => ""
  | String c s' =>
      match s' with
      | String d s'' =>
          if (c ==? byte 196) && (d ==? byte 177) then String "I" (ToUpper s'')
          else if (c ==? byte 197) && (d ==? byte 191) then String "S" (ToUpper s'')
          else String (upper_char c) (ToUpper s')
      | "" => String (upper_char c) ""
      end
  end.

(** [strings.ToLower], likewise: U+212A (the Kelvin sign) and U+0130 are the
    runes outside ASCII whose lower case is or starts with ASCII. *)
Fixpoint ToLower (s : string) : string :=
  match s with
  | "" => ""
  | String c s' =>
      match s' with
      | String d ((String e s''') as s'') =>
          if (c ==? byte 226) && (d ==? byte 132) && (e ==? byte 170) then String "k" (ToLower s''')
          else if (c ==? byte 196) && (d ==? byte 176) then String "i" (ToLower s'')
          else String (lower_char c) (ToLower s')
      | String d "" =>
          if (c ==? byte 196) && (d ==? byte 176) then "i"
          else String (lower_char c) (ToLower s')
      | "" => String (lower_char c) ""
      end
  end.

(** The length of the white-space rune [s] starts with, by [unicode.IsSpace]
    over UTF-8, [0] when it starts with none. *)
Definition space_len (s : string) : nat :=
  match s with
  | "" => 0
  | String a s1 =>
      let a := N_of_ascii a in
      if ((9 <=? a) && (a <=? 13) || (a =? 32))%N then 1 else
      match s1 with
      | "" => 0
      | String b s2 =>
          let b := N_of_ascii b in
          if ((a =? 194) && ((b =? 133) || (b =? 160)))%N then 2 else
          match s2 with
          | "" => 0
          | String c _ =>
              let c := N_of_ascii c in
              if ((a =? 225) && (b =? 154) && (c =? 128)
                  || (a =? 226) && (b =? 128) && ((128 <=? c) && (c <=? 138) || (c =? 168) || (c =? 169) || (c =? 175))
                  || (a =? 226) && (b =? 129) && (c =? 159)
                  || (a =? 227) && (b =? 128) && (c =? 128))%N then 3 else 0
          end
      end
  end.

(** [strings.ContainsFunc s unicode.IsSpace]. *)
Fixpoint contains_space (s : string) : bool :=
  (0 <? space_len s)%nat || match s with "" => false | String _ s' => contains_space s' end.

(** [strings.ContainsRune] for an ASCII rune. *)
Fixpoint contains_char (c : ascii) (s : string) : bool :=
  match s with "" => false | String d s' => (c ==? d) || contains_char c s' end.

Fixpoint trim_left (fuel : nat) (s : string) : string :=
  match fuel with
  | 0 => s
  | S f => let n := space_len s in if (n =? 0)%nat then s else trim_left f (str_drop n s)
  end.

(** The string without its trailing white space: the shortest prefix whose
    remainder is white space only. *)
Fixpoint trim_right (s : string) : string :=
  if trim_left (String.length s) s ==? "" then ""
  else match s with "" => "" | String c s' => String c (trim_right s') end.

(** [strings.TrimSpace]. *)
Definition TrimSpace (s : string) : string := trim_right (trim_left (String.length s) s).

(** ** strconv *)

(** [strconv.FormatUint v 10]. *)
Definition FormatUint (v : N) : string := NilZero.string_of_uint (N.to_uint v).

Inductive numError := ErrSyntax | ErrRange.

(** [strconv.ParseUint s 10 64]: digits only, at least one, below 2^64. *)
Definition ParseUint (s : string) : N + numError :=
  match NilZero.uint_of_string s with
  | None => inr ErrSyntax
  | Some u => if (N.of_uint u <? U64.modulus)%N then inl (N.of_uint u) else inr ErrRange
  end.

(** [strconv.Itoa]. *)
Definition Itoa (z : Z) : string :=
  if (z <? 0)%Z then "-" +:+ FormatUint (Z.to_N (- z)) else FormatUint (Z.to_N z).

(** ** float64

    IEEE binary64 as the standard library specifies it, without axioms. *)

Module F64.
Definition prec : Z := 53%Z.
Definition emax : Z := 1024%Z.
Definition t := spec_float.
Definition add : t → t → t := SFadd prec emax.
Definition sub : t → t → t := SFsub prec emax.
Definition mul : t → t → t := SFmul prec emax.
Definition div : t → t → t := SFdiv prec emax.
(** Go's [<], [<=], [>], [>=] and [==]: every comparison with a NaN is false. *)
Definition ltb : t → t → bool := SFltb.
Definition leb : t → t → bool := SFleb.
Definition gtb (a b : t) : bool := SFltb b a.
Definition geb (a b : t) : bool := SFleb b a.
Definition eqb : t → t → bool := SFeqb.
(** The conversion from an integer, rounded to nearest even. *)
Definition of_Z (z : Z) : t := binary_normalize prec emax z 0 false.
Definition zero : t := S754_zero false.
Definition one : t := of_Z 1.
Definition is_nan (f : t) : bool := match f with S754_nan => true | _ => false end.

(** The integer part, toward zero; [None] for an infinity or a NaN. *)
Definition trunc (f : t) : option Z :=
  match f with
  | S754_zero _ => Some 0%Z
  | S754_finite s m e =>
      let a := if (0 <=? e)%Z then (Z.pos m * 2 ^ e)%Z else (Z.pos m / 2 ^ (- e))%Z in
      Some (if s then (- a)%Z else a)
  | _ => None
  end.

#[global] Instance eq_dec : EqDecision t.
Proof. solve_decision. Defined.
End F64.

(** [Duration.Seconds]: whole seconds plus the fraction, as Go computes it. *)
Definition Seconds (d : Time.duration) : F64.t :=
  F64.add (F64.of_Z (Z.quot d Time.Second))
          (F64.div (F64.of_Z (Z.rem d Time.Second)) (F64.of_Z 1000000000)).

(** ** Lemmas *)

Lemma str_app_nil_l (b : string) : "" +:+ b = b.
Proof. done. Qed.
Lemma str_app_cons c (a b : string) : String c a +:+ b = String c (a +:+ b).
Proof. done. Qed.
Lemma str_length_app (a b : string) : String.length (a +:+ b) = String.length a + String.length b.
Proof. induction a as [|c a IH]; [done|]. rewrite str_app_cons. cbn. by rewrite IH. Qed.
Lemma str_app_nil_r (a : string) : a +:+ "" = a.
Proof. induction a as [|c a IH]; [done|]. by rewrite str_app_cons, IH. Qed.
Lemma str_app_assoc (a b c : string) : (a +:+ b) +:+ c = a +:+ (b +:+ c).
Proof. induction a as [|d a IH]; [done|]. by rewrite !str_app_cons, IH. Qed.

Lemma str_take_app (a b : string) : str_take (String.length a) (a +:+ b) = a.
Proof. induction a as [|c a IH]; [by destruct b|]. rewrite str_app_cons. simpl. by rewrite IH. Qed.

Lemma str_drop_app (a b : string) : str_drop (String.length a) (a +:+ b) = b.
Proof. induction a as [|c a IH]; [by destruct b|]. rewrite str_app_cons. simpl. apply IH. Qed.

Lemma str_drop_app_cons (a b : string) c :
  str_drop (S (String.length a)) (a +:+ String c b) = b.
Proof. induction a as [|d a IH]; [by destruct b|]. rewrite str_app_cons. exact IH. Qed.

Lemma str_take_drop n (s : string) : str_take n s +:+ str_drop n s = s.
Proof.
  revert s. induction n as [|n IH]; intros [|c s]; simpl; try done.
  by rewrite str_app_cons, IH.
Qed.

Lemma LastIndexByte_None s c : LastIndexByte s c = None ↔ contains_char c s = false.
Proof.
  induction s as [|d s IH]; simpl; [done|].
  destruct (LastIndexByte s c); destruct (bool_decide (c = d)); simpl;
    destruct (contains_char c s); intuition congruence.
Qed.

Lemma LastIndexByte_app a b c :
  contains_char c b = false → LastIndexByte (a +:+ String c b) c = Some (String.length a).
Proof.
  intros Hb. apply LastIndexByte_None in Hb. induction a as [|d a IH].
  - rewrite str_app_nil_l. simpl. rewrite Hb. by rewrite bool_decide_eq_true_2.
  - rewrite str_app_cons. simpl. by rewrite IH.
Qed.

Lemma LastIndexByte_Some s c i :
  LastIndexByte s c = Some i →
  s = str_take i s +:+ String c (str_drop (S i) s) ∧ contains_char c (str_drop (S i) s) = false.
Proof.
  revert i. induction s as [|d s IH]; intros i; [done|]. cbn [LastIndexByte].
  destruct (LastIndexByte s c) as [j|] eqn:E.
  - intros [= <-]. destruct (IH j eq_refl) as [H1 H2]. split; [|done].
    change (String d s = String d (str_take j s) +:+ String c (str_drop (S j) s)).
    rewrite str_app_cons. by f_equal.
  - case_bool_decide; [|done]. intros [= <-]. subst. split; [by destruct s|].
    apply LastIndexByte_None. by destruct s.
Qed.

Lemma contains_char_app c a b : contains_char c (a +:+ b) = contains_char c a || contains_char c b.
Proof. induction a as [|d a IH]; [done|]. rewrite str_app_cons. simpl. by rewrite IH, orb_assoc. Qed.

(** A slash-free prefix is determined by where the first slash is. *)
Lemma cut_first_inj c (a b x y : string) :
  contains_char c a = false → contains_char c b = false →
  a +:+ String c x = b +:+ String c y → a = b ∧ x = y.
Proof.
  revert b. induction a as [|d a IH]; intros [|e b]; simpl; intros Ha Hb;
    rewrite ?str_app_cons, ?str_app_nil_l; intros Heq; simplify_eq.
  - done.
  - by rewrite bool_decide_eq_true_2 in Hb.
  - by rewrite bool_decide_eq_true_2 in Ha.
  - breflect. destruct (IH b) as [-> ->]; done.
Qed.

(** ** strconv: decimal round trip *)

Lemma to_uint_nonnil v : N.to_uint v ≠ Decimal.Nil.
Proof. destruct v as [|p]; [done|]. apply DecimalPos.Unsigned.to_uint_nonnil. Qed.

Lemma ParseUint_FormatUint v : (v < U64.modulus)%N → ParseUint (FormatUint v) = inl v.
Proof.
  intros Hv. unfold ParseUint, FormatUint.
  rewrite NilZero.usu by apply to_uint_nonnil.
  rewrite DecimalN.Unsigned.of_to. by rewrite (proj2 (N.ltb_lt _ _) Hv).
Qed.

Lemma ParseUint_bound s v : ParseUint s = inl v → (v < U64.modulus)%N.
Proof. unfold ParseUint. intros. case_all. by apply N.ltb_lt. Qed.

Lemma ParseUint_empty : ParseUint "" = inr ErrSyntax.
Proof. done. Qed.

(** A decimal numeral holds digits only. *)
Definition is_digit (c : ascii) : bool := in_range "0" "9" c.

Lemma NilEmpty_no_char u c :
  is_digit c = false → contains_char c (NilEmpty.string_of_uint u) = false.
Proof.
  intros Hc. induction u; simpl; rewrite ?IHu; try done;
    (case_bool_decide; [subst; discriminate|done]).
Qed.

Lemma FormatUint_no_char v c : is_digit c = false → contains_char c (FormatUint v) = false.
Proof.
  intros Hc. pose proof (NilEmpty_no_char (N.to_uint v) c Hc) as Hu.
  pose proof (to_uint_nonnil v). unfold FormatUint, NilZero.string_of_uint.
  by destruct (N.to_uint v).
Qed.

Lemma FormatUint_inj v w : FormatUint v = FormatUint w → v = w.
Proof.
  unfold FormatUint. intros E. apply (f_equal NilZero.uint_of_string) in E.
  rewrite !NilZero.usu in E by apply to_uint_nonnil.
  apply (f_equal (option_map N.of_uint)) in E. simpl in E.
  rewrite !DecimalN.Unsigned.of_to in E. congruence.
Qed.

(** ** float64: the comparisons the code branches on *)

Lemma F64_ltb_irrefl a : F64.ltb a a = false.
Proof.
  unfold F64.ltb, SFltb, SFcompare.
  destruct a as [[]|[]| |[] m e]; try done; rewrite Z.compare_refl;
    change (Pos.compare_cont Eq m m) with (m ?= m)%positive; by rewrite Pos.compare_refl.
Qed.

Lemma F64_ltb_leb a b : F64.ltb a b = true → F64.leb a b = true.
Proof. unfold F64.ltb, F64.leb, SFltb, SFleb. by destruct (SFcompare a b) as [[]|]. Qed.

Lemma SFcompare_nan a b :
  SFcompare a b = None ↔ F64.is_nan a = true ∨ F64.is_nan b = true.
Proof.
  destruct a as [[]|[]| |[] m e], b as [[]|[]| |[] m' e']; simpl;
    try (destruct (e ?= e')%Z); intuition discriminate.
Qed.

(** On numbers, not less is greater or equal; a NaN breaks it. *)
Lemma F64_not_ltb a b :
  F64.is_nan a = false → F64.is_nan b = false → F64.ltb a b = negb (F64.geb a b).
Proof.
  intros Ha Hb. unfold F64.ltb, F64.geb, SFltb, SFleb.
  assert (SFcompare b a = CompOpp <$> SFcompare a b) as ->.
  { destruct a as [[]|[]| |[] m e], b as [[]|[]| |[] m' e']; simpl; try done;
      rewrite (Z.compare_antisym e e'); destruct (e ?= e')%Z; simpl; try done;
      rewrite (Pos.compare_cont_antisym m m'); simpl; rewrite ?CompOpp_involutive; done. }
  destruct (SFcompare a b) as [[]|] eqn:E; try done.
  apply SFcompare_nan in E. destruct E; congruence.
Qed.

(** ** Character classes and white space *)

Fixpoint all_chars (p : ascii → bool) (s : string) : bool :=
  match s with "" => true | String c s' => p c && all_chars p s' end.

Lemma all_chars_contains p c s :
  p c = false → all_chars p s = true → contains_char c s = false.
Proof.
  intros Hc. induction s as [|d s IH]; simpl; [done|]. intros H. breflect.
  rewrite IH by done. case_bool_decide; [congruence|done].
Qed.

Lemma all_chars_impl (p q : ascii → bool) s :
  (∀ c, p c = true → q c = true) → all_chars p s = true → all_chars q s = true.
Proof.
  intros Hpq. induction s as [|d s IH]; simpl; [done|]. intros H. breflect.
  rewrite (Hpq d), IH by done. done.
Qed.

Lemma all_chars_app p a b : all_chars p (a +:+ b) = all_chars p a && all_chars p b.
Proof. induction a as [|d a IH]; [done|]. rewrite str_app_cons. simpl. by rewrite IH, andb_assoc. Qed.

(** Printable ASCII above the space starts no white-space rune. *)
Definition is_graphic (c : ascii) : bool := in_range "!" "~" c.

Lemma space_len_graphic c s : is_graphic c = true → space_len (String c s) = 0.
Proof.
  intros Hc. unfold is_graphic, in_range in Hc. breflect.
  change (N_of_ascii "!") with 33%N in *. change (N_of_ascii "~") with 126%N in *.
  cbn [space_len]. set (a := N_of_ascii c) in *.
  repeat match goal with
  | |- context [(?x <=? ?y)%N] => first [rewrite (proj2 (N.leb_gt x y)) by lia | destruct (x <=? y)%N eqn:?]
  | |- context [(a =? ?y)%N] => rewrite (proj2 (N.eqb_neq a y)) by lia
  end; simpl; breflect; try lia; by repeat case_match.
Qed.

Lemma contains_space_graphic s : all_chars is_graphic s = true → contains_space s = false.
Proof.
  induction s as [|c s IH]; [done|]. cbn [all_chars]. intros H. breflect.
  cbn [contains_space]. rewrite space_len_graphic by done. simpl. by apply IH.
Qed.

Lemma trim_left_graphic n s : all_chars is_graphic s = true → trim_left n s = s.
Proof.
  destruct n; [done|]. destruct s as [|c s]; [done|]. cbn [all_chars]. intros H. breflect.
  cbn [trim_left]. by rewrite space_len_graphic.
Qed.

Lemma trim_right_graphic s : all_chars is_graphic s = true → trim_right s = s.
Proof.
  induction s as [|c s IH]; [done|]. intros H. cbn [trim_right].
  rewrite trim_left_graphic by done. cbn [all_chars] in H. breflect. simpl. by rewrite IH.
Qed.

Lemma TrimSpace_graphic s : all_chars is_graphic s = true → TrimSpace s = s.
Proof.
  intros H. unfold TrimSpace. rewrite trim_left_graphic by done. by apply trim_right_graphic.
Qed.

Lemma TrimSpace_line d : all_chars is_graphic d = true → d ≠ "" → TrimSpace (d +:+ String (byte 10) "") = d.
Proof.
  intros Hd Hne. assert (∀ c s n, is_graphic c = true → trim_left n (String c s) = String c s) as Hl.
  { intros c s [|n] Hc; [done|]. cbn [trim_left]. by rewrite space_len_graphic. }
  unfold TrimSpace. destruct d as [|c d]; [done|]. cbn [all_chars] in Hd. breflect. rewrite str_app_cons, Hl by done. clear Hne.
  assert (∀ d, all_chars is_graphic d = true → trim_right (d +:+ String (byte 10) "") = d) as Hr.
  { clear -Hl. intros d. induction d as [|c d IH]; [done|]. cbn [all_chars]. intros Hd. breflect. rewrite str_app_cons. cbn [trim_right].
    rewrite Hl by done. rewrite bool_decide_eq_false_2 by done. by rewrite IH. }
  cbn [trim_right]. rewrite Hl by done. rewrite bool_decide_eq_false_2 by done. by rewrite Hr.
Qed.

Lemma FormatUint_digits v : all_chars is_digit (FormatUint v) = true.
Proof.
  unfold FormatUint, NilZero.string_of_uint.
  assert (∀ u, all_chars is_digit (NilEmpty.string_of_uint u) = true) as H.
  { intros u. by induction u. }
  pose proof (H (N.to_uint v)). by destruct (N.to_uint v).
Qed.

Lemma is_digit_graphic c : is_digit c = true → is_graphic c = true.
Proof.
  unfold is_digit, is_graphic, in_range. intros H. breflect.
  change (N_of_ascii "0") with 48%N in *. change (N_of_ascii "9") with 57%N in *.
  change (N_of_ascii "!") with 33%N. change (N_of_ascii "~") with 126%N.
  apply andb_true_iff. split; apply N.leb_le; lia.
Qed.

Lemma TrimSpace_FormatUint v : TrimSpace (FormatUint v) = FormatUint v.
Proof.
  apply TrimSpace_graphic. eapply all_chars_impl; [apply is_digit_graphic|].
  apply FormatUint_digits.
Qed.

(** ** encoding/json

    What the code relies on of a JSON document: [Marshal] may fail, and
    [Unmarshal] reads back what [Marshal] wrote.  A document is used through
    this interface, so the theorems hold for every encoding that round trips;
    [countable_json] is one. *)

Class JSON (A : Type) := {
  Marshal : A → option string;
  Unmarshal : string → option A;
  Unmarshal_Marshal : ∀ a b, Marshal a = Some b → Unmarshal b = Some a;
}.

(** An executable instance for witnesses: the decimal of stdpp's code. *)
Definition countable_json (A : Type) `{Countable A} : JSON A.
Proof.
  refine {|
    Marshal a := Some (FormatUint (N.pos (encode a)));
    Unmarshal b :=
      match NilZero.uint_of_string b with
      | Some u => match N.of_uint u with N.pos p => decode p | N0 => None end
      | None => None
      end
  |}.
  intros a b [= <-]. unfold FormatUint. rewrite NilZero.usu by apply to_uint_nonnil.
  rewrite DecimalN.Unsigned.of_to. apply decode_encode.
Defined.

Lemma FormatUint_ne v : FormatUint v ≠ "".
Proof.
  unfold FormatUint. pose proof (to_uint_nonnil v). destruct (N.to_uint v); simpl; try done.
Qed.

(** ** Events spaced in time

    Instants, newest first, at least so far apart: what a rate limit leaves of
    its attempts, and how many of them fall between two bounds. *)

(** Attempts at least [m] apart, newest first. *)
Fixpoint spaced (m : Time.duration) (l : list Time.t) : Prop :=
  match l with
  | [] => True
  | a :: l' => match l' with [] => True | b :: _ => (b + m ≤ a)%Z end ∧ spaced m l'
  end.

(** Between two bounds, attempts so far apart are few. *)
Lemma spaced_head m a l : (0 < m)%Z → spaced m (a :: l) → Forall (λ b, (b + m ≤ a)%Z) l ∧ spaced m l.
Proof.
  intros Hm. revert a. induction l as [|b l IH]; intros a [Hb Hs]; [done|]. split; [|done].
  constructor; [done|]. destruct (IH b Hs) as [Hf _]. eapply Forall_impl; [exact Hf|]. cbn. lia.
Qed.

(** How many of them are between [t] and [hi]. *)
Fixpoint countIn (t hi : Time.t) (l : list Time.t) : Z :=
  match l with
  | [] => 0
  | a :: l' => (if ((t <=? a) && (a <=? hi))%Z then 1 else 0) + countIn t hi l'
  end.

Lemma countIn_cut t hi hi' l : Forall (λ b, (b ≤ hi')%Z) l → (countIn t hi l ≤ countIn t hi' l)%Z.
Proof.
  induction 1 as [|b l Hb _ IH]; [done|]. cbn [countIn].
  destruct ((t <=? b) && (b <=? hi))%Z eqn:E; [|destruct ((t <=? b) && (b <=? hi'))%Z; lia].
  apply andb_true_iff in E as [-> _]. rewrite (proj2 (Z.leb_le b hi')) by done. cbn. lia.
Qed.
Lemma countIn_none t hi l : Forall (λ b, (b < t)%Z) l → countIn t hi l = 0%Z.
Proof.
  induction 1 as [|b l Hb _ IH]; [done|]. cbn [countIn]. rewrite (proj2 (Z.leb_gt t b)) by lia. cbn. lia.
Qed.

Lemma spaced_count m l t : (0 < m)%Z → ∀ hi, spaced m l → (t ≤ hi)%Z → (countIn t hi l ≤ (hi - t) / m + 1)%Z.
Proof.
  intros Hm. induction l as [|a l IH]; intros hi Hs Hh.
  { cbn. pose proof (Z.div_pos (hi - t) m). lia. }
  destruct (spaced_head m a l Hm Hs) as [Hf Hs']. cbn [countIn].
  destruct ((t <=? a) && (a <=? hi))%Z eqn:E; [|specialize (IH hi Hs' Hh); lia]. breflect.
  destruct (decide (t ≤ a - m)%Z) as [Hlt|Hge].
  - specialize (IH (a - m)%Z Hs' Hlt).
    assert (countIn t hi l ≤ countIn t (a - m) l)%Z by (apply countIn_cut; eapply Forall_impl; [exact Hf|]; cbn; lia).
    assert ((a - m - t) / m + 1 ≤ (hi - t) / m)%Z; [|lia].
    replace ((a - m - t) / m + 1)%Z with ((a - t) / m)%Z; [apply Z.div_le_mono; lia|].
    replace (a - m - t)%Z with (a - t + (-1) * m)%Z by lia. rewrite Z.div_add by lia. lia.
  - rewrite countIn_none by (eapply Forall_impl; [exact Hf|]; cbn; lia). pose proof (Z.div_pos (hi - t) m). lia.
Qed.
