(* ===== verification/Fence.v ===== *)
(** * Fences and epochs (pkg/core/fence.go, pkg/core/writefile.go)

    A fence names one incarnation of a fiber.  Its string form is the fiber ID
    on the wire.  The epoch store persists fiberd's incarnation counter. *)

From Stdlib Require Import Ascii.
From S2P Require Import Prelude GoLib.
From stdpp Require Import options.

(** ** Fence *)

Record Fence := mkFence {
  GrantUID : string;
  Epoch : N;   (** fiberd run, raised on every start *)
  Seq : N;     (** fiber incarnation within (grant, epoch) *)
}.

#[export] Instance Fence_eq_dec : EqDecision Fence.
Proof. solve_decision. Defined.

(** Go's zero value of a fence. *)
Definition zeroFence : Fence := mkFence "" 0 0.

(** Both numbers fit in the [uint64] the code keeps them in. *)
Definition Fence_wf (f : Fence) : Prop :=
  (Epoch f < U64.modulus)%N ∧ (Seq f < U64.modulus)%N.

(** [func (f Fence) String() string] *)
Definition Fence_String (f : Fence) : string :=
  GrantUID f +:+ "/" +:+ FormatUint (Epoch f) +:+ "/" +:+ FormatUint (Seq f).

Inductive fenceError := WantGrantEpochSeq | BadEpoch (e : numError) | BadSeq (e : numError) | EmptyGrant.

(** [func ParseFence(s string) (Fence, error)] *)
Definition ParseFence (s : string) : Fence + fenceError :=
  match LastIndexByte s "/" with
  | None => inr WantGrantEpochSeq
  | Some i =>
      match LastIndexByte (str_take i s) "/" with
      | None => inr WantGrantEpochSeq
      | Some j =>
          match ParseUint (str_drop (S j) (str_take i s)) with
          | inr e => inr (BadEpoch e)
          | inl epoch =>
              match ParseUint (str_drop (S i) s) with
              | inr e => inr (BadSeq e)
              | inl seq =>
                  if str_take j s ==? "" then inr EmptyGrant
                  else inl (mkFence (str_take j s) epoch seq)
              end
          end
      end
  end.

(** [func (f Fence) Newer(o Fence) bool] *)
Definition Newer (f o : Fence) : bool :=
  if GrantUID f <>? GrantUID o then false
  else if Epoch f <>? Epoch o then (Epoch o <? Epoch f)%N
  else (Seq o <? Seq f)%N.

(** ** Files

    The directory fiberd keeps its state in, as the contents of its files.
    [writeFileAtomic] is the sequence of system calls of the source, each of
    which may fail; [sys] says which did. *)

Notation FS := (gmap string string).

Record sysOutcomes := {
  create_ok : bool; chmod_ok : bool; write_ok : bool; sync_ok : bool;
  close_ok : bool; rename_ok : bool; remove_ok : bool;
  opendir_ok : bool; syncdir_ok : bool; closedir_ok : bool;
}.

Definition all_ok : sysOutcomes :=
  {| create_ok := true; chmod_ok := true; write_ok := true; sync_ok := true;
     close_ok := true; rename_ok := true; remove_ok := true;
     opendir_ok := true; syncdir_ok := true; closedir_ok := true |}.

(** [syncDir], true for a nil error. *)
Definition syncDir (sys : sysOutcomes) : bool :=
  opendir_ok sys && syncdir_ok sys && closedir_ok sys.

(** [func writeFileAtomic(path string, data []byte, perm os.FileMode) error].
    [tmp] is the temporary name [os.CreateTemp] chose and [part] what a failed
    write left in it.  Returns whether the error is nil, and the files. *)
Definition writeFileAtomic (sys : sysOutcomes) (tmp part path data : string) (fs : FS) : bool * FS :=
  if negb (create_ok sys) then (false, fs) else
  let fs := <[tmp := ""]> fs in
  let ok := chmod_ok sys in
  let '(ok, fs) :=
    if ok then (write_ok sys, <[tmp := if write_ok sys then data else part]> fs) else (ok, fs) in
  let ok := if ok then sync_ok sys else ok in
  let ok := ok && close_ok sys in
  let '(ok, fs) :=
    if ok then
      if rename_ok sys then (true, <[path := data]> (delete tmp fs)) else (false, fs)
    else (ok, fs) in
  if negb ok then (false, if remove_ok sys then delete tmp fs else fs)
  else (syncDir sys, fs).

(** ** EpochStore *)

Record EpochStore := mkEpochStore { es_path : string; es_epoch : N }.

Inductive readError := NotANumber (e : numError) | IOError.

(** [func (s *EpochStore) read() (uint64, error)].  [readable] is false when
    the file exists and [os.ReadFile] fails. *)
Definition es_read (readable : bool) (path : string) (fs : FS) : N + readError :=
  match fs !! path with
  | None => inl 0%N
  | Some b =>
      if readable then
        match ParseUint (TrimSpace b) with inl v => inl v | inr e => inr (NotANumber e) end
      else inr IOError
  end.

(** [func (s *EpochStore) write(v uint64) error] *)
Definition es_write (sys : sysOutcomes) (tmp part path : string) (v : N) (fs : FS) : bool * FS :=
  writeFileAtomic sys tmp part path (FormatUint v) fs.

(** [func OpenEpochStore(dir string) ( *EpochStore, error)].  [now] is the time
    at the call; [None] is the persist error. *)
Definition OpenEpochStore (sys : sysOutcomes) (tmp part path : string) (readable : bool)
    (now : Time.t) (fs : FS) : option EpochStore * FS :=
  let next :=
    match es_read readable path fs with
    | inl prev => U64.succ prev
    | inr _ => U64.of_int (Time.Unix now)
    end in
  let '(ok, fs) := es_write sys tmp part path next fs in
  if ok then (Some (mkEpochStore path next), fs) else (None, fs).

Definition es_Current (s : EpochStore) : N := es_epoch s.

(** [func (s *EpochStore) Bump() (uint64, error)] *)
Definition es_Bump (sys : sysOutcomes) (tmp part : string) (s : EpochStore) (fs : FS)
    : option N * EpochStore * FS :=
  let next := U64.succ (es_epoch s) in
  let '(ok, fs) := es_write sys tmp part (es_path s) next fs in
  if ok then (Some next, mkEpochStore (es_path s) next, fs) else (None, s, fs).

(** ** Fences: properties *)

Lemma slash_not_digit : is_digit "/" = false.
Proof. done. Qed.

(** The two cuts [ParseFence] makes in a fence's string. *)
Lemma Fence_String_cuts f :
  let s := Fence_String f in
  let a := GrantUID f +:+ "/" +:+ FormatUint (Epoch f) in
  LastIndexByte s "/" = Some (String.length a) ∧
  str_take (String.length a) s = a ∧
  str_drop (S (String.length a)) s = FormatUint (Seq f) ∧
  LastIndexByte a "/" = Some (String.length (GrantUID f)) ∧
  str_drop (S (String.length (GrantUID f))) a = FormatUint (Epoch f) ∧
  str_take (String.length (GrantUID f)) s = GrantUID f.
Proof.
  intros s a.
  assert (s = a +:+ String "/" (FormatUint (Seq f))) as Hs.
  { unfold s, a, Fence_String. by rewrite !str_app_assoc. }
  assert (a = GrantUID f +:+ String "/" (FormatUint (Epoch f))) as Ha by done.
  pose proof slash_not_digit.
  split_and!.
  - rewrite Hs. apply LastIndexByte_app. by apply FormatUint_no_char.
  - rewrite Hs. apply str_take_app.
  - rewrite Hs. apply str_drop_app_cons.
  - rewrite Ha. apply LastIndexByte_app. by apply FormatUint_no_char.
  - rewrite Ha. apply str_drop_app_cons.
  - unfold s, Fence_String. apply str_take_app.
Qed.

(** Distinct fences have distinct fiber IDs. *)
Lemma Fence_String_inj f g : Fence_String f = Fence_String g → f = g.
Proof.
  intros E.
  destruct (Fence_String_cuts f) as (F1 & F2 & F3 & F4 & F5 & F6).
  destruct (Fence_String_cuts g) as (G1 & G2 & G3 & G4 & G5 & G6).
  cbn zeta in *. rewrite E in *.
  rewrite F1 in G1. injection G1 as G1. rewrite G1 in F2, F3. rewrite F2 in G2.
  rewrite F3 in G3. rewrite G2 in F4, F5. rewrite F4 in G4. injection G4 as G4.
  rewrite G4 in F5, F6. rewrite F5 in G5. rewrite F6 in G6.
  apply FormatUint_inj in G3, G5. destruct f, g; simpl in *; congruence.
Qed.

(** Fence strings round trip.  For every fence with a grant UID (one that
    contains slashes included) and 64-bit numbers, [ParseFence] returns exactly
    the fence [String] printed, so a fiber ID on the wire determines its
    grant, epoch and sequence number. *)
Theorem ParseFence_String f :
  GrantUID f ≠ "" → Fence_wf f → ParseFence (Fence_String f) = inl f.
Proof.
  intros Hne [He Hq].
  destruct (Fence_String_cuts f) as (F1 & F2 & F3 & F4 & F5 & F6). cbn zeta in *.
  unfold ParseFence. rewrite F1, F2, F4, F5, F3, F6, !ParseUint_FormatUint by done.
  rewrite bool_decide_eq_false_2 by done. by destruct f.
Qed.

Lemma ParseFence_String_witness :
  ParseFence (Fence_String (mkFence "team-a/x" 3 18446744073709551615))
  = inl (mkFence "team-a/x" 3 18446744073709551615).
Proof.
  apply (ParseFence_String (mkFence "team-a/x" 3 18446744073709551615)); [discriminate|].
  split; vm_compute; reflexivity.
Defined.

(** What [ParseFence] accepts is a well-formed fence with a grant UID. *)
Lemma ParseFence_sound s f : ParseFence s = inl f → Fence_wf f ∧ GrantUID f ≠ "".
Proof.
  unfold ParseFence. destruct (LastIndexByte s "/") as [i|]; [|done].
  destruct (LastIndexByte (str_take i s) "/") as [j|]; [|done].
  destruct (ParseUint (str_drop (S j) (str_take i s))) eqn:E1; [|done].
  destruct (ParseUint (str_drop (S i) s)) eqn:E2; [|done].
  case_bool_decide; [done|]. intros [= <-].
  apply ParseUint_bound in E1, E2. done.
Qed.

(** [Newer] is a strict order that decides between any two distinct fences
    of one grant: irreflexive, transitive and total, so of two holders of one
    grant's fences exactly one is detectably stale. *)
Theorem Newer_strict_total_order :
  (∀ f, Newer f f = false) ∧
  (∀ f g h, Newer f g = true → Newer g h = true → Newer f h = true) ∧
  (∀ f g, GrantUID f = GrantUID g → f ≠ g → Newer f g = negb (Newer g f)).
Proof.
  unfold Newer. split_and!.
  - intros f. rewrite !bool_decide_eq_true_2 by done. simpl. apply N.ltb_irrefl.
  - intros [u e s] [u' e' s'] [u'' e'' s'']; simpl.
    repeat case_bool_decide; simplify_eq/=; intros; breflect; try apply N.ltb_lt; lia.
  - intros [u e s] [u' e' s'] Hu Hne; simpl in *. subst.
    rewrite !(bool_decide_eq_true_2 (u' = u')) by done. simpl.
    destruct (decide (e = e')) as [->|He].
    + rewrite !(bool_decide_eq_true_2 (e' = e')) by done. simpl.
      assert (s ≠ s') by congruence.
      destruct (N.ltb_spec s s'), (N.ltb_spec s' s); simpl; lia.
    + rewrite !bool_decide_eq_false_2 by congruence. simpl.
      destruct (N.ltb_spec e e'), (N.ltb_spec e' e); simpl; lia.
Qed.

(** ** Atomic file replacement *)

Lemma writeFileAtomic_reads sys tmp part path data fs :
  tmp ≠ path →
  let '(ok, fs') := writeFileAtomic sys tmp part path data fs in
  (fs' !! path = fs !! path ∨ fs' !! path = Some data) ∧
  (ok = true → fs' !! path = Some data).
Proof.
  intros Hne. unfold writeFileAtomic.
  destruct sys as [[] [] [] [] [] [] [] od sd cd]; simpl;
    split_and!; intros; simplify_map_eq; auto.
Qed.

(** [writeFileAtomic] is atomic on every failure path.  Whatever system
    calls fail, a reader of [path] finds the old content or the whole new
    content, every other file but the temporary one is untouched, a nil error
    means the new content is in place, and the temporary file is gone unless
    removing it failed too. *)
Theorem writeFileAtomic_atomic sys tmp part path data fs :
  tmp ≠ path → fs !! tmp = None →
  let '(ok, fs') := writeFileAtomic sys tmp part path data fs in
  (fs' !! path = fs !! path ∨ fs' !! path = Some data) ∧
  (ok = true → fs' !! path = Some data) ∧
  (∀ p, p ≠ path → p ≠ tmp → fs' !! p = fs !! p) ∧
  (remove_ok sys = true → fs' !! tmp = None).
Proof.
  intros Hne Htmp. unfold writeFileAtomic.
  destruct sys as [[] [] [] [] [] [] [] od sd cd]; simpl;
    split_and!; intros; simplify_map_eq; auto.
Qed.

Lemma writeFileAtomic_atomic_witness :
  let sys := {| create_ok := true; chmod_ok := true; write_ok := false; sync_ok := true;
     close_ok := true; rename_ok := true; remove_ok := true;
     opendir_ok := true; syncdir_ok := true; closedir_ok := true |} in
  writeFileAtomic sys "epoch.1.tmp" "1" "epoch" "12" {["epoch" := "11"]} = (false, {["epoch" := "11"]}) ∧
  (delete "epoch.1.tmp" (<["epoch.1.tmp" := "1"]> (<["epoch.1.tmp" := ""]> {["epoch" := "11"]})) : FS) !! "epoch.1.tmp" = None.
Proof.
  split; [vm_compute; reflexivity|].
  pose proof (writeFileAtomic_atomic
    {| create_ok := true; chmod_ok := true; write_ok := false; sync_ok := true;
       close_ok := true; rename_ok := true; remove_ok := true;
       opendir_ok := true; syncdir_ok := true; closedir_ok := true |}
    "epoch.1.tmp" "1" "epoch" "12" {["epoch" := "11"]}) as H.
  apply H; [discriminate|reflexivity|reflexivity].
Defined.

(** ** The epoch across restarts, bumps, crashes and failed writes

    A run of the store: [live] is the store of the process that runs now, if
    any, and [issued] every epoch a store has returned, newest first.  The
    clock is followed from jump to jump: [jumped] is the time the last jump
    took (0, the start of Unix time, before the first) and [writes] how often
    the counter was written, or tried, since. *)

Record run := mkRun {
  run_fs : FS; run_live : option EpochStore; run_issued : list N; run_jumped : N; run_writes : N;
}.

Section EpochRuns.
Variable path : string.

Inductive run_step : run → run → Prop :=
| run_boot sys tmp part readable now v fs fs' store live issued jumped writes :
    tmp ≠ path → fs !! tmp = None →
    es_read readable path fs = inl v → (v < U64.max)%N →
    OpenEpochStore sys tmp part path readable now fs = (store, fs') →
    run_step (mkRun fs live issued jumped writes)
             (mkRun fs' store (match store with Some s => es_Current s :: issued | None => issued end) jumped (writes + 1))
| run_jump sys tmp part readable now e fs fs' store live issued jumped writes :
    tmp ≠ path → fs !! tmp = None →
    es_read readable path fs = inr e →
    (** Since the last jump the clock has gained more seconds than the counter
        was written. *)
    (Z.of_N jumped + Z.of_N writes < Time.Unix now < 2 ^ 64)%Z →
    OpenEpochStore sys tmp part path readable now fs = (store, fs') →
    run_step (mkRun fs live issued jumped writes)
             (mkRun fs' store (match store with Some s => es_Current s :: issued | None => issued end)
                    (Z.to_N (Time.Unix now)) 0)
| run_bump sys tmp part fs fs' s s' r issued jumped writes :
    tmp ≠ path → fs !! tmp = None → (es_epoch s < U64.max)%N →
    es_Bump sys tmp part s fs = (r, s', fs') →
    run_step (mkRun fs (Some s) issued jumped writes)
             (mkRun fs' (Some s') (match r with Some v => v :: issued | None => issued end) jumped (writes + 1))
| run_crash fs live issued jumped writes :
    run_step (mkRun fs live issued jumped writes) (mkRun fs None issued jumped writes)
| run_corrupt fs b e live issued jumped writes :
    ParseUint (TrimSpace b) = inr e →
    run_step (mkRun fs live issued jumped writes) (mkRun (<[path := b]> fs) None issued jumped writes).

Definition run_init : run := mkRun ∅ None [] 0 0.
Definition run_reachable (r : run) : Prop := rtc run_step run_init r.

(** The file holds a counter at or past everything issued (or is missing with
    nothing issued, or does not parse), the live store is the newest, and no
    counter is past the last jump by more than the writes since. *)
Definition run_inv (r : run) : Prop :=
  (∀ s, run_live r = Some s → es_path s = path ∧ head (run_issued r) = Some (es_epoch s)) ∧
  (∀ v, es_read true path (run_fs r) = inl v →
     Forall (λ e, (e ≤ v)%N) (run_issued r) ∧ (v ≤ run_jumped r + run_writes r)%N) ∧
  StronglySorted (λ a b, (b < a)%N) (run_issued r) ∧
  Forall (λ e, (e ≤ run_jumped r + run_writes r)%N) (run_issued r).

Lemma es_write_reads sys tmp part v fs ok fs' :
  tmp ≠ path → fs !! tmp = None → (v < U64.modulus)%N →
  es_write sys tmp part path v fs = (ok, fs') →
  (ok = true → es_read true path fs' = inl v) ∧
  (es_read true path fs' = es_read true path fs ∨ es_read true path fs' = inl v).
Proof.
  intros Hne Htmp Hv E. unfold es_write in E.
  pose proof (writeFileAtomic_reads sys tmp part path (FormatUint v) fs Hne) as H.
  rewrite E in H. destruct H as [Hold Hnew].
  assert (fs' !! path = Some (FormatUint v) → es_read true path fs' = inl v) as Hr.
  { unfold es_read. intros ->. by rewrite TrimSpace_FormatUint, ParseUint_FormatUint. }
  split; [by auto|]. destruct Hold as [Hold|]; [|by auto].
  left. unfold es_read. by rewrite Hold.
Qed.

Lemma issued_le_head l e : StronglySorted (λ a b, (b < a)%N) l → head l = Some e →
  Forall (λ x, (x ≤ e)%N) l.
Proof.
  intros Hs He. destruct l as [|x l]; [done|]. injection He as ->.
  apply StronglySorted_inv in Hs as [_ Hall].
  constructor; [done|]. eapply Forall_impl; [done|]. simpl. lia.
Qed.

(** A write of a counter past everything issued, up to the bound. *)
Lemma issued_fresh sys tmp part v fs ok fs' issued (bound : N) :
  tmp ≠ path → fs !! tmp = None → (v < U64.modulus)%N →
  Forall (λ e, (e < v)%N) issued → (v ≤ bound)%N →
  (∀ w, es_read true path fs = inl w → Forall (λ e, (e ≤ w)%N) issued ∧ (w ≤ bound)%N) →
  es_write sys tmp part path v fs = (ok, fs') →
  (∀ w, es_read true path fs' = inl w →
        Forall (λ e, (e ≤ w)%N) (if ok then v :: issued else issued) ∧ (w ≤ bound)%N).
Proof.
  intros Hne Htmp Hv Hlt Hb Hold E w Hw.
  destruct (es_write_reads _ _ _ _ _ _ _ Hne Htmp Hv E) as [Hok Hor].
  assert (Forall (λ e, (e ≤ v)%N) issued) by (eapply Forall_impl; [done|]; simpl; lia).
  destruct ok.
  - rewrite (Hok eq_refl) in Hw. injection Hw as <-. split; [constructor; [lia|done]|done].
  - destruct Hor as [Hor|Hor]; rewrite Hor in Hw; [by auto|]. by injection Hw as <-.
Qed.

(** The three writers at once: a store, or none, that wrote [v]. *)
Lemma run_inv_written sys tmp part v fs fs' ok live issued jumped writes jumped' writes' :
  tmp ≠ path → fs !! tmp = None → (v < U64.modulus)%N →
  Forall (λ e, (e < v)%N) issued →
  (v ≤ jumped' + writes')%N → (jumped + writes ≤ jumped' + writes')%N →
  es_write sys tmp part path v fs = (ok, fs') →
  (∀ s, live = Some s → es_path s = path ∧ head (if ok then v :: issued else issued) = Some (es_epoch s)) →
  run_inv (mkRun fs None issued jumped writes) →
  run_inv (mkRun fs' live (if ok then v :: issued else issued) jumped' writes').
Proof.
  intros Hne Htmp Hv Hlt Hb Hmono E Hlive (_ & Hread & Hsort & Hall). cbn in Hread, Hsort, Hall.
  split_and!; cbn; [done| | |].
  - eapply (issued_fresh sys tmp part v fs ok fs' issued); [done..| |done].
    intros w Hw. destruct (Hread w Hw). split; [done|lia].
  - destruct ok; [by constructor|done].
  - assert (Forall (λ e, (e ≤ jumped' + writes')%N) issued) by (eapply Forall_impl; [exact Hall|]; simpl; lia).
    destruct ok; [by constructor|done].
Qed.

Lemma run_inv_open sys tmp part readable now fs fs' store next live issued jumped writes jumped' writes' :
  tmp ≠ path → fs !! tmp = None →
  next = match es_read readable path fs with
         | inl prev => U64.succ prev | inr _ => U64.of_int (Time.Unix now) end →
  (next < U64.modulus)%N → Forall (λ e, (e < next)%N) issued →
  (next ≤ jumped' + writes')%N → (jumped + writes ≤ jumped' + writes')%N →
  OpenEpochStore sys tmp part path readable now fs = (store, fs') →
  run_inv (mkRun fs live issued jumped writes) →
  run_inv (mkRun fs' store (match store with Some s => es_Current s :: issued | None => issued end) jumped' writes').
Proof.
  intros Hne Htmp Hn Hlt Hall Hb Hmono E (_ & Hinv). unfold OpenEpochStore in E. rewrite <- Hn in E.
  destruct (es_write sys tmp part path next fs) as [ok fs''] eqn:Ew.
  assert (run_inv (mkRun fs None issued jumped writes)) as Hnone by (split; [done|exact Hinv]).
  destruct ok; injection E as <- <-;
    [apply (run_inv_written sys tmp part next fs fs'' true _ issued jumped writes)|apply (run_inv_written sys tmp part next fs fs'' false _ issued jumped writes)]; try done.
  intros s [= <-]. done.
Qed.

Lemma run_inv_boot sys tmp part readable now v fs fs' store live issued jumped writes :
  tmp ≠ path → fs !! tmp = None →
  es_read readable path fs = inl v → (v < U64.max)%N →
  OpenEpochStore sys tmp part path readable now fs = (store, fs') →
  run_inv (mkRun fs live issued jumped writes) →
  run_inv (mkRun fs' store (match store with Some s => es_Current s :: issued | None => issued end) jumped (writes + 1)).
Proof.
  intros Hne Htmp Er Hmax E Hinv. pose proof Hinv as (_ & Hread & _). cbn in Hread.
  assert (es_read true path fs = inl v) as Ht.
  { unfold es_read in *. destruct (fs !! path); [|done]. by destruct readable. }
  destruct (Hread v Ht) as [Hall Hb].
  apply (run_inv_open sys tmp part readable now fs fs' store (U64.succ v) live issued jumped writes); try done.
  - by rewrite Er.
  - apply U64.wrap_lt.
  - eapply Forall_impl; [exact Hall|]. simpl. intros x ?. rewrite U64.succ_small by done. lia.
  - rewrite U64.succ_small by done. lia.
  - lia.
Qed.

Lemma run_inv_jump sys tmp part readable now e fs fs' store live issued jumped writes :
  tmp ≠ path → fs !! tmp = None →
  es_read readable path fs = inr e →
  (Z.of_N jumped + Z.of_N writes < Time.Unix now < 2 ^ 64)%Z →
  OpenEpochStore sys tmp part path readable now fs = (store, fs') →
  run_inv (mkRun fs live issued jumped writes) →
  run_inv (mkRun fs' store (match store with Some s => es_Current s :: issued | None => issued end)
                 (Z.to_N (Time.Unix now)) 0).
Proof.
  intros Hne Htmp Er Hnow E Hinv. pose proof Hinv as (_ & _ & _ & Hall). cbn in Hall.
  apply (run_inv_open sys tmp part readable now fs fs' store (Z.to_N (Time.Unix now)) live issued jumped writes); try done.
  - rewrite Er. rewrite U64.of_int_small by lia. done.
  - unfold U64.modulus. lia.
  - eapply Forall_impl; [exact Hall|]. simpl. lia.
  - lia.
  - lia.
Qed.

Lemma run_inv_bump sys tmp part fs fs' s s' r issued jumped writes :
  tmp ≠ path → fs !! tmp = None → (es_epoch s < U64.max)%N →
  es_Bump sys tmp part s fs = (r, s', fs') →
  run_inv (mkRun fs (Some s) issued jumped writes) →
  run_inv (mkRun fs' (Some s') (match r with Some v => v :: issued | None => issued end) jumped (writes + 1)).
Proof.
  intros Hne Htmp Hmax E (Hlive & Hinv). unfold es_Bump in E.
  destruct (Hlive s eq_refl) as [Hp Hh]. pose proof Hinv as (_ & Hsort & Hall). cbn in Hh, Hsort, Hall.
  assert (es_epoch s ≤ jumped + writes)%N as Hs.
  { destruct issued as [|x issued]; [done|]. injection Hh as ->. by apply Forall_cons in Hall as [? _]. }
  rewrite Hp in E.
  assert (run_inv (mkRun fs None issued jumped writes)) as Hnone by (split; [done|exact Hinv]).
  assert (Forall (λ e, (e < U64.succ (es_epoch s))%N) issued) as Hlt.
  { eapply Forall_impl; [by eapply issued_le_head|]. simpl. intros x ?.
    rewrite U64.succ_small by done. lia. }
  assert (U64.succ (es_epoch s) ≤ jumped + (writes + 1))%N as Hb by (rewrite U64.succ_small by done; lia).
  destruct (es_write sys tmp part path (U64.succ (es_epoch s)) fs) as [ok fs''] eqn:Ew.
  destruct ok; injection E as <- <- <-;
    [apply (run_inv_written sys tmp part (U64.succ (es_epoch s)) fs fs'' true _ issued jumped writes)|apply (run_inv_written sys tmp part (U64.succ (es_epoch s)) fs fs'' false _ issued jumped writes)];
    try exact Ew; try done; try apply U64.wrap_lt; try lia; by intros ? [= <-].
Qed.

Lemma run_inv_reachable r : run_reachable r → run_inv r.
Proof.
  intros Hr. unfold run_reachable in Hr.
  refine (rtc_ind_r (λ r, run_inv r) run_init _ _ r Hr).
  { split_and!; [done| |apply SSorted_nil|apply Forall_nil_2]. intros v [= <-]. split; [apply Forall_nil_2|done]. }
  intros r1 r2 _ Hstep Hinv. destruct Hstep.
  - by eapply run_inv_boot.
  - by eapply run_inv_jump.
  - by eapply run_inv_bump.
  - destruct Hinv as (_ & ? & ? & ?). split_and!; done.
  - destruct Hinv as (_ & ? & ? & ?). split_and!; try done. simpl.
    intros v. unfold es_read. rewrite lookup_insert_eq. by rewrite H.
Qed.

(** C34: no epoch is ever used twice.  Over any history of restarts, bumps,
    crashes, failed or half-finished epoch writes, reads that fail and files
    corrupted to what is no number, the epochs handed out are strictly
    increasing, so a fence minted before a restart never equals one minted
    after it.  The counter is assumed to stay below 2^64 - 1.  Of the clock only
    this is asked, and only where a boot cannot read the counter and jumps to the time:
    that since the last jump (since 1970, for the first) it has gained more
    seconds than the counter was written.  A clock set back breaks it
    ([clock_set_back_reissues]). *)
Theorem epochs_strictly_increase r :
  run_reachable r → StronglySorted (λ newer older, (older < newer)%N) (run_issued r).
Proof. intros Hr. by apply run_inv_reachable in Hr as (_ & _ & ? & _). Qed.
End EpochRuns.

(** Two boots with a bump between them, the file then corrupted, a boot at the
    900th second, and one more bump. *)
Definition second900 : Time.t := ((Time.unixToInternal + 900) * Time.Second)%Z.
Lemma run_example :
  run_reachable "epoch" (mkRun {["epoch" := "901"]} (Some (mkEpochStore "epoch" 901)) [901%N; 900%N; 3%N; 2%N; 1%N] 900 1).
Proof.
  unfold run_reachable, run_init.
  eapply rtc_l; [eapply (run_boot "epoch" all_ok "epoch.1.tmp" "" true Time.zero)|].
  { discriminate. } { reflexivity. } { reflexivity. } { reflexivity. } { vm_compute. reflexivity. }
  eapply rtc_l; [eapply (run_bump "epoch" all_ok "epoch.2.tmp" "")|].
  { discriminate. } { reflexivity. } { reflexivity. } { vm_compute. reflexivity. }
  eapply rtc_l; [apply run_crash|].
  eapply rtc_l; [eapply (run_boot "epoch" all_ok "epoch.3.tmp" "" true Time.zero)|].
  { discriminate. } { reflexivity. } { vm_compute. reflexivity. } { reflexivity. } { vm_compute. reflexivity. }
  eapply rtc_l; [eapply (run_corrupt "epoch" _ "x"); vm_compute; reflexivity|].
  eapply rtc_l; [eapply (run_jump "epoch" all_ok "epoch.4.tmp" "" true second900)|].
  { discriminate. } { reflexivity. } { vm_compute. reflexivity. } { split; reflexivity. } { vm_compute. reflexivity. }
  eapply rtc_l; [eapply (run_bump "epoch" all_ok "epoch.5.tmp" "")|].
  { discriminate. } { reflexivity. } { reflexivity. } { vm_compute. reflexivity. }
  apply rtc_refl.
Qed.

Lemma epochs_strictly_increase_witness :
  StronglySorted (λ newer older, (older < newer)%N) [901%N; 900%N; 3%N; 2%N; 1%N].
Proof. exact (epochs_strictly_increase "epoch" _ run_example). Defined.

(** A clock set back to the second of the last jump: the counter, corrupted
    again, is issued a second time. *)
Lemma clock_set_back_reissues :
  let boot fs := OpenEpochStore all_ok "epoch.1.tmp" "" "epoch" true second900 fs in
  let '(first, fs) := boot {["epoch" := "x"]} in
  let '(second, _) := boot (<["epoch" := "x"]> fs) in
  es_Current <$> first = Some 900%N ∧ second = first.
Proof. vm_compute. split; reflexivity. Qed.
