(* ===== verification/Errors.v ===== *)
(** * Errors and outcomes (pkg/core/errors.go, the status codes of pkg/core/core.go)

    A Go error is a tree of wrapped errors.  What the code asks of one is
    [errors.Is] against a sentinel, and [errors.As] for a [*RemoteMiss].  The
    text of a message is not modelled. *)

From S2P Require Import Prelude GoLib.
From stdpp Require Import options.

(** The sentinels the modelled code returns or tests for. *)
Inductive Sentinel :=
| ErrPayloadTooLarge | ErrDeadline | ErrWrongAudience | ErrNotReady | ErrDraining
| ErrVerifyUnavailable | ErrDeltaTooLarge | ErrIncompatible | ErrNeedsDevice
| ErrDeviceMismatch | ErrNeedsIsolation | ErrNeedsHandoff | ErrNeedsWorkspace
| ErrNoWorkspace | ErrDeltaQuota | ErrCallerMismatch | ErrUnboundGrant
| ErrHandoffUnbound | ErrNoTenant | ErrAnonymousPark | ErrSessionRunning
| ErrSessionUnknown | ErrNoPool | ErrYielded
(* Audit errors. *)
| ErrAudit | ErrAuditChain
(* Ledger errors. *)
| ErrGrantUnknown | ErrGrantExpired | ErrGrantRevoked | ErrGrantChanged
| ErrNeedsTier | ErrGrantFull | ErrFiberUnknown
(* Declared beside the code that returns them. *)
| ErrPressure | ErrRateLimit | errSessionHeld | errNoSession | errSpoolClosed
(* context.DeadlineExceeded and context.Canceled. *)
| DeadlineExceeded | Canceled.

#[export] Instance Sentinel_eq_dec : EqDecision Sentinel.
Proof. solve_decision. Defined.

(** [EWrap] is [fmt.Errorf] with one [%w] verb per element, [ERemote] a
    [*RemoteMiss], [EOther] an error no sentinel stands for. *)
Inductive error :=
| ESentinel (s : Sentinel)
| EWrap (es : list error)
| ERemote (err : error) (preferredHome : string)
| EOther (what : string).

(** [errors.Is(e, s)] *)
Fixpoint Is (e : error) (s : Sentinel) : bool :=
  match e with
  | ESentinel s' => s' ==? s
  | EWrap es => existsb (λ e', Is e' s) es
  | ERemote e' _ => Is e' s
  | EOther _ => false
  end.

(** [errors.As(e, &rm)]: the preferred home of the first [*RemoteMiss]. *)
Fixpoint AsRemote (e : error) : option string :=
  match e with
  | ESentinel _ | EOther _ => None
  | EWrap es =>
      (fix go es := match es with
                    | [] => None
                    | e' :: es' => match AsRemote e' with Some h => Some h | None => go es' end
                    end) es
  | ERemote _ home => Some home
  end.

(** [fmt.Errorf("%w: ...", s)] and [fmt.Errorf("%w: %w", s, e)]. *)
Definition wrap1 (s : Sentinel) : error := EWrap [ESentinel s].
Definition wrap2 (s : Sentinel) (e : error) : error := EWrap [ESentinel s; e].

(** [StatusCode], the transport-agnostic outcome. *)
Inductive StatusCode :=
| OK | DeferredFallback | Shed | Invalid | Unauthenticated | NeedsTier
| NotFound | NoWorkspace | OverBudget | Internal.

#[export] Instance StatusCode_eq_dec : EqDecision StatusCode.
Proof. solve_decision. Defined.
