(* ===== verification/Grant.v ===== *)
(** * The capacity grant (pkg/core/grant.go, validate.go, tier_parse.go, and the
    grant rules of runtime.go and core.go)

    Tier, Durability, Isolation and EndpointMode are Go integer types whose
    values come unchecked from the signed message, so each is a [Z] with the
    named constants of the source. *)

From Stdlib Require Import Ascii.
From S2P Require Import Prelude GoLib Errors.
From stdpp Require Import options.

(** ** Enumerations *)

Notation Durability := Z (only parsing).
Definition DurabilityUnspecified : Durability := 0%Z.
Definition BestEffort : Durability := 1%Z.
Definition Sync : Durability := 2%Z.

Notation Isolation := Z (only parsing).
Definition IsolationUnspecified : Isolation := 0%Z.
Definition Untrusted : Isolation := 1%Z.
Definition Trusted : Isolation := 2%Z.

(** [func (i Isolation) Untrusted() bool] *)
Definition isUntrusted (i : Isolation) : bool := i <>? Trusted.

(** [func ParseIsolation(s string) (Isolation, error)] *)
Definition ParseIsolation (s : string) : option Isolation :=
  let u := ToUpper s in
  if u ==? "UNTRUSTED" then Some Untrusted
  else if u ==? "TRUSTED" then Some Trusted
  else if (u ==? "") || (u ==? "ISOLATION_UNSPECIFIED") || (u ==? "UNSPECIFIED")
  then Some IsolationUnspecified
  else None.

(** [func (i Isolation) String() string] *)
Definition Isolation_String (i : Isolation) : string :=
  if i ==? Untrusted then "UNTRUSTED"
  else if i ==? Trusted then "TRUSTED"
  else "ISOLATION_UNSPECIFIED".

Notation EndpointMode := Z (only parsing).
Definition EndpointDirect : EndpointMode := 0%Z.
Definition EndpointHandoff : EndpointMode := 1%Z.

(** [func (m EndpointMode) String() string] *)
Definition EndpointMode_String (m : EndpointMode) : string :=
  if m ==? EndpointHandoff then "HANDOFF" else "DIRECT".

(** [func ParseEndpointMode(s string) (EndpointMode, error)] *)
Definition ParseEndpointMode (s : string) : option EndpointMode :=
  let u := ToUpper s in
  if (u ==? "") || (u ==? "DIRECT") then Some EndpointDirect
  else if u ==? "HANDOFF" then Some EndpointHandoff
  else None.

Notation Tier := Z (only parsing).
Definition TierUnspecified : Tier := 0%Z.
Definition TierBasic : Tier := 1%Z.
Definition TierWarm : Tier := 2%Z.
Definition TierCheckpoint : Tier := 3%Z.
Definition TierSnapshot : Tier := 4%Z.

(** [func (t Tier) String() string] *)
Definition Tier_String (t : Tier) : string :=
  if t ==? TierBasic then "FIBER_BASIC"
  else if t ==? TierWarm then "FIBER_WARM"
  else if t ==? TierCheckpoint then "FIBER_CHECKPOINT"
  else if t ==? TierSnapshot then "FIBER_SNAPSHOT"
  else "TIER_UNSPECIFIED".

(** [func ParseTier(s string) (Tier, error)] *)
Definition ParseTier (s : string) : option Tier :=
  let u := ToUpper (TrimPrefix (ToUpper s) "FIBER_") in
  if u ==? "BASIC" then Some TierBasic
  else if u ==? "WARM" then Some TierWarm
  else if u ==? "CHECKPOINT" then Some TierCheckpoint
  else if u ==? "SNAPSHOT" then Some TierSnapshot
  else if (u ==? "") || (u ==? "TIER_UNSPECIFIED") || (u ==? "UNSPECIFIED")
  then Some TierUnspecified
  else None.

(** ** Grant *)

Record Policy := mkPolicy {
  PDurability : Durability;
  SessionClass : string;
  AuditClass : string;
  PSISomeAvg10Shed : F64.t;
  PSISomeAvg10Park : F64.t;
  PIsolation : Isolation;
  PEndpointMode : EndpointMode;
}.

Record DeviceBudget := mkDeviceBudget { DBytes : N; DClass : string }.

Record Grant := mkGrant {
  UID : string;
  Issuer : string;
  Audience : string;
  TemplateDigest : string;
  Tenant : string;
  FiberMax : Z;          (** at most 0 means unlimited *)
  FiberWarm : Z;
  WBudgetBytes : N;      (** 0 means unlimited *)
  MinTier : Tier;
  LeaseExpiry : Time.t;  (** zero means no expiry *)
  GPolicy : Policy;
  GDeviceBudget : DeviceBudget;
  DiskBudgetBytes : N;
  CallerThumbprint : string;
  Token : string;
}.

#[export] Instance Policy_eq_dec : EqDecision Policy.
Proof. solve_decision. Defined.
#[export] Instance DeviceBudget_eq_dec : EqDecision DeviceBudget.
Proof. solve_decision. Defined.
#[export] Instance Grant_eq_dec : EqDecision Grant.
Proof. solve_decision. Defined.

Definition zeroPolicy : Policy := mkPolicy 0 "" "" F64.zero F64.zero 0 0.
Definition zeroGrant : Grant :=
  mkGrant "" "" "" "" "" 0 0 0 0 Time.zero zeroPolicy (mkDeviceBudget 0 "") 0 "" "".

Definition with_Token (t : string) (g : Grant) : Grant :=
  mkGrant (UID g) (Issuer g) (Audience g) (TemplateDigest g) (Tenant g) (FiberMax g) (FiberWarm g)
    (WBudgetBytes g) (MinTier g) (LeaseExpiry g) (GPolicy g) (GDeviceBudget g) (DiskBudgetBytes g)
    (CallerThumbprint g) t.
Definition with_LeaseExpiry (t : Time.t) (g : Grant) : Grant :=
  mkGrant (UID g) (Issuer g) (Audience g) (TemplateDigest g) (Tenant g) (FiberMax g) (FiberWarm g)
    (WBudgetBytes g) (MinTier g) t (GPolicy g) (GDeviceBudget g) (DiskBudgetBytes g)
    (CallerThumbprint g) (Token g).
Definition with_CallerThumbprint (t : string) (g : Grant) : Grant :=
  mkGrant (UID g) (Issuer g) (Audience g) (TemplateDigest g) (Tenant g) (FiberMax g) (FiberWarm g)
    (WBudgetBytes g) (MinTier g) (LeaseExpiry g) (GPolicy g) (GDeviceBudget g) (DiskBudgetBytes g)
    t (Token g).

(** [func (g Grant) Expired(now time.Time) bool] *)
Definition Expired (g : Grant) (now : Time.t) : bool :=
  negb (Time.IsZero (LeaseExpiry g)) && negb (Time.Before now (LeaseExpiry g)).

(** [func (g Grant) SessionDomain() (string, error)] *)
Definition SessionDomain (g : Grant) : string + error :=
  if Tenant g ==? "" then inr (wrap1 ErrNoTenant)
  else if SessionClass (GPolicy g) <>? "" then inl (Tenant g +:+ "/" +:+ SessionClass (GPolicy g))
  else inl (Tenant g +:+ "/" +:+ TemplateDigest g).

(** [func DeviceFits(asked, class string, capacity uint64) error] *)
Definition DeviceFits (asked class : string) (capacity : N) : option error :=
  if (capacity =? 0)%N then Some (wrap1 ErrNeedsDevice)
  else if (asked <>? "") && (asked <>? class) then Some (wrap1 ErrNeedsDevice)
  else None.

(** [func renewsLease(held, g Grant) bool] *)
Definition renewsLease (held g : Grant) : bool :=
  if Time.IsZero (LeaseExpiry held) then false
  else Time.IsZero (LeaseExpiry g) || Time.Before (LeaseExpiry held) (LeaseExpiry g).

(** Go's [==] on the two structs: floats compare as IEEE numbers, so a NaN
    watermark equals nothing, and the lease compares as the value it is. *)
Definition Policy_eqb (p q : Policy) : bool :=
  (PDurability p ==? PDurability q) && (SessionClass p ==? SessionClass q)
  && (AuditClass p ==? AuditClass q)
  && F64.eqb (PSISomeAvg10Shed p) (PSISomeAvg10Shed q)
  && F64.eqb (PSISomeAvg10Park p) (PSISomeAvg10Park q)
  && (PIsolation p ==? PIsolation q) && (PEndpointMode p ==? PEndpointMode q).

Definition Grant_eqb (g h : Grant) : bool :=
  (UID g ==? UID h) && (Issuer g ==? Issuer h) && (Audience g ==? Audience h)
  && (TemplateDigest g ==? TemplateDigest h) && (Tenant g ==? Tenant h)
  && (FiberMax g ==? FiberMax h) && (FiberWarm g ==? FiberWarm h)
  && (WBudgetBytes g ==? WBudgetBytes h) && (MinTier g ==? MinTier h)
  && (LeaseExpiry g ==? LeaseExpiry h) && Policy_eqb (GPolicy g) (GPolicy h)
  && (GDeviceBudget g ==? GDeviceBudget h) && (DiskBudgetBytes g ==? DiskBudgetBytes h)
  && (CallerThumbprint g ==? CallerThumbprint h) && (Token g ==? Token h).

(** [func changesFixedFields(held, g Grant) bool] *)
Definition changesFixedFields (held g : Grant) : bool :=
  let g := with_LeaseExpiry (LeaseExpiry held) g in
  let g := with_CallerThumbprint (CallerThumbprint held) g in
  let g := with_Token (Token held) g in
  negb (Grant_eqb g held).

(** ** Patterns (the regular expressions of validate.go)

    The patterns are given as syntax with their standard meaning, beside the
    boolean functions the model evaluates; [uid_matches], [tenant_matches] and
    [thumbprint_matches] below prove the two agree. *)

Inductive re :=
| RChr (p : ascii → bool)        (** one character of a class *)
| RCat (r1 r2 : re)
| RRep (lo hi : nat) (r : re)    (** r{lo,hi} *)
| ROpt (r : re).                 (** r? *)

Inductive Matches : re → string → Prop :=
| MChr p c : p c = true → Matches (RChr p) (String c "")
| MCat r1 r2 a b : Matches r1 a → Matches r2 b → Matches (RCat r1 r2) (a +:+ b)
| MRep lo hi r l : lo ≤ length l ≤ hi → Forall (Matches r) l →
    Matches (RRep lo hi r) (foldr String.append "" l)
| MOptNone r : Matches (ROpt r) ""
| MOptSome r a : Matches r a → Matches (ROpt r) a.

Definition lower_or_digit (c : ascii) : bool := in_range "a" "z" c || in_range "0" "9" c.
Definition alnum (c : ascii) : bool := lower_or_digit c || in_range "A" "Z" c.
Definition uid_char (c : ascii) : bool := lower_or_digit c || (c ==? "-"%char).
Definition tenant_char (c : ascii) : bool :=
  alnum c || (c ==? "."%char) || (c ==? "_"%char) || (c ==? "-"%char).
Definition base64url_char (c : ascii) : bool := alnum c || (c ==? "_"%char) || (c ==? "-"%char).

(** [^[a-z0-9]([a-z0-9-]{0,61}[a-z0-9])?$] *)
Definition UIDPattern : re :=
  RCat (RChr lower_or_digit) (ROpt (RCat (RRep 0 61 (RChr uid_char)) (RChr lower_or_digit))).
(** [^[A-Za-z0-9][A-Za-z0-9._-]{0,252}$] *)
Definition TenantPattern : re := RCat (RChr alnum) (RRep 0 252 (RChr tenant_char)).
(** [^[A-Za-z0-9_-]{43}$] *)
Definition CallerThumbprintPattern : re := RRep 43 43 (RChr base64url_char).

Definition last_char (s : string) : option ascii :=
  match String.length s with 0 => None | S n => String.get n s end.

Definition uidRE (s : string) : bool :=
  match s with
  | "" => false
  | String c s' =>
      lower_or_digit c && all_chars uid_char s' && (String.length s' <=? 62)%nat
      && match last_char s with Some d => lower_or_digit d | None => false end
  end.

Definition tenantRE (s : string) : bool :=
  match s with
  | "" => false
  | String c s' => alnum c && all_chars tenant_char s' && (String.length s' <=? 252)%nat
  end.

Definition callerThumbprintRE (s : string) : bool :=
  all_chars base64url_char s && (String.length s =? 43)%nat.

(** ** Validate *)

Inductive fault :=
| UIDRequired | UIDFault | TenantFault
| FiberMaxNegative | FiberMaxTooLarge
| FiberWarmNegative | FiberWarmTooLarge | FiberWarmAboveMax
| BudgetProduct | LeaseFraction | TemplateDigestFault | CallerThumbprintFault.

Definition MaxUint32 : N := (2 ^ 32 - 1)%N.

(** [func (g Grant) Validate() error]: every fault at once, none for nil. *)
Definition Validate (g : Grant) : list fault :=
  (if UID g ==? "" then [UIDRequired]
   else if negb (uidRE (UID g)) then [UIDFault] else [])
  ++ (if (Tenant g <>? "") && negb (tenantRE (Tenant g)) then [TenantFault] else [])
  ++ (if (FiberMax g <? 0)%Z then [FiberMaxNegative]
      else if (MaxUint32 <? U64.of_int (FiberMax g))%N then [FiberMaxTooLarge] else [])
  ++ (if (FiberWarm g <? 0)%Z then [FiberWarmNegative]
      else if (MaxUint32 <? U64.of_int (FiberWarm g))%N then [FiberWarmTooLarge]
      else if (0 <? FiberMax g)%Z && (FiberMax g <? FiberWarm g)%Z then [FiberWarmAboveMax] else [])
  ++ (if (0 <? FiberMax g)%Z && (0 <? WBudgetBytes g)%N then
        let product := (U64.of_int (FiberMax g) * WBudgetBytes g)%N in
        let hi := (product / U64.modulus)%N in
        let lo := (product mod U64.modulus)%N in
        if negb (hi =? 0)%N || (U64.max / 4 <? lo)%N then [BudgetProduct] else []
      else [])
  ++ (if negb (Time.IsZero (LeaseExpiry g))
         && negb (Time.Equal (LeaseExpiry g) (Time.Truncate (LeaseExpiry g) Time.Second))
      then [LeaseFraction] else [])
  ++ (if (TemplateDigest g <>? "")
         && (contains_space (TemplateDigest g) || contains_char "=" (TemplateDigest g))
      then [TemplateDigestFault] else [])
  ++ (if (CallerThumbprint g <>? "") && negb (callerThumbprintRE (CallerThumbprint g))
      then [CallerThumbprintFault] else []).

(** ** Lemmas on the patterns *)

Lemma Matches_chr p s : Matches (RChr p) s ↔ ∃ c, s = String c "" ∧ p c = true.
Proof.
  split; [inversion 1; eauto|]. intros (c & -> & Hc). by constructor.
Qed.

Lemma chars_of_string p s :
  all_chars p s = true →
  ∃ l, s = foldr String.append "" l ∧ length l = String.length s ∧ Forall (Matches (RChr p)) l.
Proof.
  induction s as [|c s IH]; simpl; intros H.
  - by exists [].
  - breflect. destruct (IH H0) as (l & -> & Hl & Hf). exists (String c "" :: l).
    split; [done|]. split; [simpl; by rewrite Hl|]. constructor; [by constructor|done].
Qed.

Lemma string_of_chars p l :
  Forall (Matches (RChr p)) l →
  all_chars p (foldr String.append "" l) = true ∧ String.length (foldr String.append "" l) = length l.
Proof.
  induction 1 as [|a l Ha Hl [IH1 IH2]]; [done|]. apply Matches_chr in Ha as (c & -> & Hc).
  cbn [foldr]. rewrite str_app_cons, str_app_nil_l. simpl. by rewrite Hc, IH1, IH2.
Qed.

Lemma Matches_rep lo hi p s :
  Matches (RRep lo hi (RChr p)) s ↔ all_chars p s = true ∧ lo ≤ String.length s ≤ hi.
Proof.
  split.
  - inversion 1; subst. destruct (string_of_chars p l) as [? ->]; done.
  - intros [Hp Hl]. destruct (chars_of_string p s Hp) as (l & -> & Hlen & Hf).
    constructor; [by rewrite Hlen|done].
Qed.

Lemma last_char_snoc a d : last_char (a +:+ String d "") = Some d.
Proof.
  unfold last_char. rewrite str_length_app. cbn [String.length]. rewrite Nat.add_1_r.
  induction a as [|c a IH]; [done|]. rewrite str_app_cons. simpl. exact IH.
Qed.

Lemma snoc_inv s : s ≠ "" → ∃ a d, s = a +:+ String d "".
Proof.
  induction s as [|c s IH]; [done|]. intros _. destruct (decide (s = "")) as [->|Hne].
  - by exists "", c.
  - destruct (IH Hne) as (a & d & ->). by exists (String c a), d.
Qed.

Lemma lower_or_digit_uid c : lower_or_digit c = true → uid_char c = true.
Proof. unfold uid_char. by intros ->. Qed.

Lemma uid_matches s : uidRE s = true ↔ Matches UIDPattern s.
Proof.
  unfold UIDPattern. split.
  - destruct s as [|c s]; [done|]. cbn [uidRE]. intros H. breflect.
    change (String c s) with (String c "" +:+ s). constructor; [by constructor|].
    destruct (decide (s = "")) as [->|Hne]; [constructor|].
    destruct (snoc_inv s Hne) as (a & d & ->). apply MOptSome. constructor.
    + apply Matches_rep. rewrite all_chars_app in *. breflect. split; [done|].
      rewrite str_length_app in *. simpl in *. apply Nat.leb_le in H1. lia.
    + constructor. change (String c (a +:+ String d "")) with (String c a +:+ String d "") in H0.
      by rewrite last_char_snoc in H0.
  - inversion 1 as [|r1 r2 a b Ha Hb|?|?|?]; subst. apply Matches_chr in Ha as (c & -> & Hc).
    rewrite str_app_cons, str_app_nil_l. inversion Hb as [|?|?|?|? ? Hb']; subst; simpl; rewrite Hc.
    { done. }
    inversion Hb' as [|? ? m z Hm Hz|?|?|?]; subst.
    apply Matches_chr in Hz as (d & -> & Hd). apply Matches_rep in Hm as [Hm Hl].
    rewrite all_chars_app, Hm. simpl. rewrite lower_or_digit_uid by done.
    change (String c (m +:+ String d "")) with (String c m +:+ String d "").
    rewrite last_char_snoc, Hd, str_length_app. simpl. rewrite andb_true_r. apply Nat.leb_le. lia.
Qed.

Lemma tenant_matches s : tenantRE s = true ↔ Matches TenantPattern s.
Proof.
  unfold TenantPattern. split.
  - destruct s as [|c s]; [done|]. cbn [tenantRE]. intros H. breflect.
    change (String c s) with (String c "" +:+ s). constructor; [by constructor|].
    apply Matches_rep. apply Nat.leb_le in H0. split; [done|lia].
  - inversion 1 as [|r1 r2 a b Ha Hb|?|?|?]; subst. apply Matches_chr in Ha as (c & -> & Hc).
    apply Matches_rep in Hb as [Hb Hl]. rewrite str_app_cons, str_app_nil_l. simpl.
    rewrite Hc, Hb. simpl. apply Nat.leb_le. lia.
Qed.

Lemma thumbprint_matches s : callerThumbprintRE s = true ↔ Matches CallerThumbprintPattern s.
Proof.
  unfold CallerThumbprintPattern, callerThumbprintRE. rewrite Matches_rep, andb_true_iff, Nat.eqb_eq.
  intuition lia.
Qed.

Lemma uid_no_slash s : uidRE s = true → contains_char "/" s = false.
Proof.
  destruct s as [|c s]; [done|]. cbn [uidRE]. intros H. breflect.
  apply (all_chars_contains uid_char); [done|]. cbn [all_chars]. by rewrite lower_or_digit_uid.
Qed.

Lemma tenant_no_slash s : tenantRE s = true → contains_char "/" s = false.
Proof.
  destruct s as [|c s]; [done|]. cbn [tenantRE]. intros H. breflect.
  apply (all_chars_contains tenant_char); [done|]. cbn [all_chars].
  unfold tenant_char at 1. by rewrite H.
Qed.

(** ** Properties *)

(** The three pattern checks decide exactly the regular expressions of the
    source, so a UID, tenant or thumbprint passes iff the pattern matches it. *)
Theorem patterns_decided s :
  (uidRE s = true ↔ Matches UIDPattern s) ∧
  (tenantRE s = true ↔ Matches TenantPattern s) ∧
  (callerThumbprintRE s = true ↔ Matches CallerThumbprintPattern s).
Proof. split_and!; [apply uid_matches|apply tenant_matches|apply thumbprint_matches]. Qed.

Ltac validate_parts H :=
  unfold Validate in H;
  repeat (apply app_eq_nil in H as [? H]).

Lemma Validate_UID g : Validate g = [] → uidRE (UID g) = true.
Proof. intros H. validate_parts H. case_all; by breflect. Qed.

Lemma Validate_Tenant g : Validate g = [] → Tenant g ≠ "" → tenantRE (Tenant g) = true.
Proof.
  intros H Hne. validate_parts H. destruct (tenantRE (Tenant g)); [done|].
  rewrite bool_decide_eq_false_2 in * by done. done.
Qed.

Lemma Validate_FiberMax g : Validate g = [] → (0 ≤ FiberMax g < 2 ^ 63)%Z → (0 ≤ FiberMax g < 2 ^ 32)%Z.
Proof.
  intros H Hr. validate_parts H. split; [lia|].
  destruct (FiberMax g <? 0)%Z eqn:E; [breflect; lia|].
  rewrite U64.of_int_small in * by lia.
  destruct (MaxUint32 <? Z.to_N (FiberMax g))%N eqn:E2; [done|]. breflect.
  unfold MaxUint32 in E2. lia.
Qed.

(** A validated grant's parked-delta quota does not overflow.  The home
    sizes it as [4 * FiberMax * WBudgetBytes] in uint64; for every grant
    [Validate] accepts that machine product is the true product. *)
Theorem Validate_quota_fits g :
  Validate g = [] → (0 < FiberMax g < 2 ^ 63)%Z → (0 < WBudgetBytes g < U64.modulus)%N →
  U64.mul (U64.mul 4 (U64.of_int (FiberMax g))) (WBudgetBytes g)
  = (4 * Z.to_N (FiberMax g) * WBudgetBytes g)%N.
Proof.
  intros H Hm Hw. pose proof (Validate_FiberMax g H) as Hm32. specialize (Hm32 ltac:(lia)).
  validate_parts H. clear -H1 H4 Hm Hw Hm32 H3 H5 H2 H0.
  match goal with H : (if (0 <? FiberMax g)%Z && _ then _ else _) = [] |- _ => rename H into Hb end.
  rewrite (proj2 (Z.ltb_lt _ _)) in Hb by lia. rewrite (proj2 (N.ltb_lt _ _)) in Hb by lia.
  rewrite U64.of_int_small in * by lia. simpl in Hb.
  set (a := Z.to_N (FiberMax g)) in *. set (p := (a * WBudgetBytes g)%N) in *.
  destruct (negb _ || _) eqn:E in Hb; [done|]. apply orb_false_iff in E as [E1 E2].
  apply negb_false_iff, N.eqb_eq in E1. apply N.ltb_ge in E2.
  assert (p < U64.modulus)%N as Hp by (apply N.div_small_iff in E1; [done|by vm_compute]).
  rewrite N.mod_small in E2 by done. unfold U64.mul.
  assert (a < 2 ^ 32)%N as Ha by (unfold a; lia).
  rewrite (U64.wrap_small (4 * a)) by (unfold U64.modulus; lia).
  rewrite U64.wrap_small; [done|].
  change (U64.max / 4)%N with 4611686018427387903%N in E2. unfold U64.modulus, p in *. lia.
Qed.

(** A grant every field of which is set, as an issuer would mint it. *)
Definition sampleGrant : Grant :=
  mkGrant "g-1" "https://issuer" "home-a" "sha256:conform" "team-a" 2 1 (64 * 2 ^ 20) TierWarm
    (1000 * Time.Second)%Z (mkPolicy Sync "" "" F64.zero F64.zero Trusted EndpointDirect)
    (mkDeviceBudget 0 "") 0 "" "tok".

Lemma Validate_quota_fits_witness :
  U64.mul (U64.mul 4 (U64.of_int (FiberMax sampleGrant))) (WBudgetBytes sampleGrant)
  = (4 * Z.to_N (FiberMax sampleGrant) * WBudgetBytes sampleGrant)%N.
Proof.
  apply (Validate_quota_fits sampleGrant);
    [vm_compute; reflexivity|vm_compute; split; reflexivity|vm_compute; split; reflexivity].
Defined.

(** Two validated grants share a session domain only within one tenant.
    The domain a parked session is filed under splits at its first slash, so
    another tenant's grant, whatever its class or template, never finds it. *)
Theorem SessionDomain_separates_tenants g h d :
  Validate g = [] → Validate h = [] →
  SessionDomain g = inl d → SessionDomain h = inl d →
  Tenant g = Tenant h.
Proof.
  unfold SessionDomain. intros Hg Hh Eg Eh.
  destruct (decide (Tenant g = "")) as [|Ng]; [by rewrite bool_decide_eq_true_2 in Eg|].
  destruct (decide (Tenant h = "")) as [|Nh]; [by rewrite bool_decide_eq_true_2 in Eh|].
  rewrite bool_decide_eq_false_2 in Eg, Eh by done.
  apply Validate_Tenant in Hg, Hh; [|done..]. apply tenant_no_slash in Hg, Hh.
  assert (∀ g d, (if SessionClass (GPolicy g) <>? "" then inl (Tenant g +:+ "/" +:+ SessionClass (GPolicy g))
                 else inl (Tenant g +:+ "/" +:+ TemplateDigest g)) = @inl string error d →
               ∃ rest, d = Tenant g +:+ String "/" rest) as Hcut.
  { clear. intros g' d'. case_bool_decide; simpl; intros [= <-]; eauto. }
  apply Hcut in Eg as [x ->]. apply Hcut in Eh as [y Hy].
  by apply cut_first_inj in Hy as [-> _].
Qed.

Lemma SessionDomain_separates_tenants_witness :
  SessionDomain sampleGrant = inl "team-a/sha256:conform" ∧ Tenant sampleGrant = Tenant sampleGrant.
Proof.
  split; [vm_compute; reflexivity|].
  apply (SessionDomain_separates_tenants sampleGrant sampleGrant "team-a/sha256:conform");
    vm_compute; reflexivity.
Defined.

(** [renewsLease] is exactly "the new lease outlives the held one": it
    holds iff there is a time at which the held grant has expired and the
    delivered one has not. *)
Theorem renewsLease_iff held g :
  renewsLease held g = true ↔ ∃ now, Expired held now = true ∧ Expired g now = false.
Proof.
  unfold renewsLease, Expired, Time.IsZero, Time.Before.
  destruct (LeaseExpiry held =? 0)%Z eqn:E1; simpl.
  { split; [done|]. intros (now & [=] & _). }
  destruct (LeaseExpiry g =? 0)%Z eqn:E2; simpl.
  { split; [|done]. intros _. exists (LeaseExpiry held). by rewrite Z.ltb_irrefl. }
  split.
  - intros H. exists (LeaseExpiry held). by rewrite Z.ltb_irrefl, H.
  - intros (now & H1 & H2). breflect. apply Z.ltb_lt. lia.
Qed.

(** What a re-delivery [changesFixedFields] lets through has in common with
    the admitted grant. *)
Lemma changesFixedFields_keeps held g :
  changesFixedFields held g = false →
  UID g = UID held ∧ Tenant g = Tenant held ∧ TemplateDigest g = TemplateDigest held ∧
  FiberMax g = FiberMax held ∧ FiberWarm g = FiberWarm held ∧ WBudgetBytes g = WBudgetBytes held ∧
  MinTier g = MinTier held ∧ DiskBudgetBytes g = DiskBudgetBytes held ∧
  GDeviceBudget g = GDeviceBudget held ∧ Audience g = Audience held ∧ Issuer g = Issuer held.
Proof.
  unfold changesFixedFields, Grant_eqb. intros H. simpl in H. breflect. done.
Qed.

Lemma F64_eqb_refl f : F64.eqb f f = negb (F64.is_nan f).
Proof.
  unfold F64.eqb, SpecFloat.SFeqb, SpecFloat.SFcompare.
  destruct f as [[]|[]| |[] m e]; try done; rewrite Z.compare_refl;
    change (Pos.compare_cont Eq m m) with (m ?= m)%positive; by rewrite Pos.compare_refl.
Qed.

(** A re-delivery that moves only the lease, the caller and the token is
    accepted as a refresh, unless a pressure watermark is a NaN, which no
    grant equals: such a grant can never be refreshed in place. *)
Theorem changesFixedFields_refresh held lease caller token :
  changesFixedFields held
    (with_Token token (with_CallerThumbprint caller (with_LeaseExpiry lease held)))
  = F64.is_nan (PSISomeAvg10Shed (GPolicy held)) || F64.is_nan (PSISomeAvg10Park (GPolicy held)).
Proof.
  destruct held. unfold changesFixedFields, Grant_eqb, Policy_eqb. simpl.
  rewrite !bool_decide_eq_true_2 by done. rewrite !F64_eqb_refl. simpl.
  by destruct (F64.is_nan _), (F64.is_nan _).
Qed.

(** Printed tiers, isolation classes and endpoint modes parse back to
    themselves, in any letter case the parser lower-cases or upper-cases. *)
Theorem enums_round_trip :
  (∀ t, (0 ≤ t ≤ 4)%Z → ParseTier (Tier_String t) = Some t ∧ ParseTier (ToLower (Tier_String t)) = Some t) ∧
  (∀ i, (0 ≤ i ≤ 2)%Z → ParseIsolation (Isolation_String i) = Some i) ∧
  (∀ m, (0 ≤ m ≤ 1)%Z → ParseEndpointMode (EndpointMode_String m) = Some m).
Proof.
  split_and!; intros z Hz.
  - assert (z = 0 ∨ z = 1 ∨ z = 2 ∨ z = 3 ∨ z = 4)%Z as [->|[->|[->|[->| ->]]]] by lia;
      vm_compute; auto.
  - assert (z = 0 ∨ z = 1 ∨ z = 2)%Z as [->|[->| ->]] by lia; reflexivity.
  - assert (z = 0 ∨ z = 1)%Z as [->| ->] by lia; reflexivity.
Qed.
