(* ===== verification/Ledger.v ===== *)
(** * The ledger (pkg/core/ledger.go, and the ledger side of snapshot.go)

    The home-authoritative record of grants and sessions.  Every operation
    below is one hold of [l.mu] in the source, so it is one atomic step here.
    The code compares grant entries by pointer; entries therefore live in a
    heap, and [l_grants] maps a UID to the address of its entry. *)

From S2P Require Import Prelude GoLib Fence Errors Grant.
From stdpp Require Import options.

(** ** Data *)

Inductive SessionState := StateRunning | StateParked.

#[export] Instance SessionState_eq_dec : EqDecision SessionState.
Proof. solve_decision. Defined.

Record FiberHandle := mkHandle { HID : string; HEndpoint : string; HPooled : bool }.
Definition zeroHandle : FiberHandle := mkHandle "" "" false.

Record Session := mkSession {
  SName : string;
  SGrantUID : string;
  SState : SessionState;
  SFence : Fence;
  SHandle : FiberHandle;   (** valid when running *)
  SDeltaRef : string;      (** the parked delta, or the one resumed from *)
}.

Inductive Action := ActCreate | ActAttach | ActResume.

(** [func (a Action) String() string] *)
Definition Action_String (a : Action) : string :=
  match a with ActAttach => "attach" | ActResume => "resume" | ActCreate => "create" end.

Record Status := mkStatus {
  StGrantUID : string;
  StRunning : Z;
  StParked : Z;
  StPooled : Z;
  StWUsedBytes : N;
  StLatest : Fence;
}.

(** [type grantEntry struct] *)
Record grantEntry := mkEntry {
  ge_grant : Grant;
  ge_nextSeq : N;
  ge_live : Z;     (** running fibers, reserved at resolve *)
  ge_pooled : Z;
}.

(** [type fiberRef struct] *)
Record fiberRef := mkRef {
  fr_grantUID : string;
  fr_sessionKey : string;  (** "" for anonymous fibers *)
  fr_fence : Fence;
  fr_wUsed : N;
}.

(** [type sessionGate struct]: its mutex and how many hold or wait for it. *)
Record sessionGate := mkGate { sg_locked : bool; sg_refs : Z }.

Record FiberInfo := mkFiberInfo { FID : string; FSession : string; FWUsed : N }.

(** [type Ledger struct].  [l_next] is the next free entry address. *)
Record Ledger := mkLedger {
  l_epoch : N;
  l_heap : gmap nat grantEntry;
  l_next : nat;
  l_grants : gmap string nat;
  l_sessions : gmap string Session;
  l_fibers : gmap string fiberRef;
  l_perSession : gmap string sessionGate;
  l_seqHigh : gmap string N;
}.

#[export] Instance FiberHandle_eq_dec : EqDecision FiberHandle.
Proof. solve_decision. Defined.
#[export] Instance Session_eq_dec : EqDecision Session.
Proof. solve_decision. Defined.
#[export] Instance Action_eq_dec : EqDecision Action.
Proof. solve_decision. Defined.

(** Field updates. *)
Definition set_epoch e l := mkLedger e (l_heap l) (l_next l) (l_grants l) (l_sessions l) (l_fibers l) (l_perSession l) (l_seqHigh l).
Definition set_heap h l := mkLedger (l_epoch l) h (l_next l) (l_grants l) (l_sessions l) (l_fibers l) (l_perSession l) (l_seqHigh l).
Definition set_sessions s l := mkLedger (l_epoch l) (l_heap l) (l_next l) (l_grants l) s (l_fibers l) (l_perSession l) (l_seqHigh l).
Definition set_fibers f l := mkLedger (l_epoch l) (l_heap l) (l_next l) (l_grants l) (l_sessions l) f (l_perSession l) (l_seqHigh l).
Definition set_perSession p l := mkLedger (l_epoch l) (l_heap l) (l_next l) (l_grants l) (l_sessions l) (l_fibers l) p (l_seqHigh l).

Definition entry_set_grant (g : Grant) (e : grantEntry) := mkEntry g (ge_nextSeq e) (ge_live e) (ge_pooled e).
Definition entry_mint (e : grantEntry) := mkEntry (ge_grant e) (U64.succ (ge_nextSeq e)) (ge_live e) (ge_pooled e).
Definition entry_live (d : Z) (e : grantEntry) := mkEntry (ge_grant e) (ge_nextSeq e) (ge_live e + d)%Z (ge_pooled e).
Definition entry_pooled (n : Z) (e : grantEntry) := mkEntry (ge_grant e) (ge_nextSeq e) (ge_live e) n.

(** The entry a UID maps to, with its address. *)
Definition entryOf (l : Ledger) (uid : string) : option (nat * grantEntry) :=
  a ← l_grants l !! uid; e ← l_heap l !! a; Some (a, e).

(** The session key, [grantUID + "/" + session]. *)
Definition sessionKey (uid session : string) : string := uid +:+ "/" +:+ session.

(** ** Grants *)

(** [func NewLedger(epoch uint64) *Ledger] *)
Definition NewLedger (epoch : N) : Ledger := mkLedger epoch ∅ 0 ∅ ∅ ∅ ∅ ∅.

(** [func (l *Ledger) BumpEpoch(epoch uint64)] *)
Definition LBumpEpoch (epoch : N) (l : Ledger) : Ledger :=
  if (l_epoch l <? epoch)%N then set_epoch epoch l else l.

(** [func (l *Ledger) AdmitGrant(g Grant)] *)
Definition AdmitGrant (g : Grant) (l : Ledger) : Ledger :=
  match entryOf l (UID g) with
  | Some (a, e) => set_heap (<[a := entry_set_grant g e]> (l_heap l)) l
  | None =>
      mkLedger (l_epoch l)
        (<[l_next l := mkEntry g (default 0%N (l_seqHigh l !! UID g)) 0 0]> (l_heap l)) (S (l_next l))
        (<[UID g := l_next l]> (l_grants l)) (l_sessions l) (l_fibers l) (l_perSession l) (l_seqHigh l)
  end.

(** [func (l *Ledger) Grant(uid string) (Grant, bool)] *)
Definition LGrant (uid : string) (l : Ledger) : option Grant := ge_grant ∘ snd <$> entryOf l uid.

(** [func (l *Ledger) GrantBoundTo(uid, thumbprint string) bool] *)
Definition GrantBoundTo (uid thumbprint : string) (l : Ledger) : bool :=
  match LGrant uid l with Some g => CallerThumbprint g ==? thumbprint | None => false end.

(** [func (l *Ledger) RevokeGrant(uid string)] *)
Definition RevokeGrant (uid : string) (l : Ledger) : Ledger :=
  mkLedger (l_epoch l) (l_heap l) (l_next l) (delete uid (l_grants l)) (l_sessions l) (l_fibers l)
    (l_perSession l)
    (match entryOf l uid with
     | Some (_, e) => <[uid := ge_nextSeq e]> (l_seqHigh l)
     | None => l_seqHigh l
     end).

(** ** Session gates *)

(** [acquireSession] up to the gate's mutex: the hold of [l.mu]. *)
Definition gateEnter (key : string) (l : Ledger) : Ledger :=
  let g := default (mkGate false 0) (l_perSession l !! key) in
  set_perSession (<[key := mkGate (sg_locked g) (sg_refs g + 1)]> (l_perSession l)) l.

(** [gate.mu.Lock()], which blocks ([None]) while another holds it. *)
Definition gateLock (key : string) (l : Ledger) : option Ledger :=
  match l_perSession l !! key with
  | Some (mkGate false refs) => Some (set_perSession (<[key := mkGate true refs]> (l_perSession l)) l)
  | _ => None
  end.

(** [gate.mu.Unlock()], the first step of [releaseSession]. *)
Definition gateUnlock (key : string) (l : Ledger) : Ledger :=
  match l_perSession l !! key with
  | Some g => set_perSession (<[key := mkGate false (sg_refs g)]> (l_perSession l)) l
  | None => l
  end.

(** The hold of [l.mu] that ends [releaseSession]. *)
Definition gateDrop (key : string) (l : Ledger) : Ledger :=
  match l_perSession l !! key with
  | Some g =>
      if (sg_refs g - 1 =? 0)%Z then set_perSession (delete key (l_perSession l)) l
      else set_perSession (<[key := mkGate (sg_locked g) (sg_refs g - 1)]> (l_perSession l)) l
  | None => l
  end.

(** ** Resolve, commit, unlock *)

(** What the closures [commit] and [unlock] of [resolveHeld] capture: the entry
    by address, the session key, and their two flags. *)
Record ticket := mkTicket {
  t_addr : nat;
  t_uid : string;
  t_key : string;
  t_reserved : bool;
  t_committed : bool;
}.

Inductive resolved :=
| ResolveErr (e : Sentinel)
| Resolved (act : Action) (fence : Fence) (ref : string) (t : ticket).

(** [func (l *Ledger) resolveHeld(...)].  [reserve] then [mint] run on the
    entry; an error has reserved nothing. *)
Definition resolveHeld (now : Time.t) (uid session : string) (tier : Tier) (l : Ledger)
    : resolved * Ledger :=
  let key := sessionKey uid session in
  match entryOf l uid with
  | None => (ResolveErr ErrGrantUnknown, l)
  | Some (a, e) =>
      if Expired (ge_grant e) now then (ResolveErr ErrGrantExpired, l) else
      if (tier <? MinTier (ge_grant e))%Z then (ResolveErr ErrNeedsTier, l) else
      let reserve_mint (act : Action) (ref : string) :=
        if (0 <? FiberMax (ge_grant e))%Z && (FiberMax (ge_grant e) <=? ge_live e)%Z
        then (ResolveErr ErrGrantFull, l)
        else
          let e' := entry_mint (entry_live 1 e) in
          (Resolved act (mkFence uid (l_epoch l) (ge_nextSeq e')) ref (mkTicket a uid key true false),
           set_heap (<[a := e']> (l_heap l)) l) in
      match (if session <>? "" then l_sessions l !! key else None) with
      | Some s =>
          match SState s with
          | StateRunning =>
              (Resolved ActAttach (SFence s) (HEndpoint (SHandle s)) (mkTicket a uid key false false), l)
          | StateParked =>
              if (tier <? TierCheckpoint)%Z then (ResolveErr ErrNeedsTier, l)
              else reserve_mint ActResume (SDeltaRef s)
          end
      | None => reserve_mint ActCreate ""
      end
  end.

(** The [commit] closure.  [refuse] is the answer of Core's [Draining], asked
    under the same hold of [l.mu]. *)
Definition commit (refuse : bool) (t : ticket) (s : Session) (l : Ledger) : bool * ticket * Ledger :=
  if (l_grants l !! t_uid t <>? Some (t_addr t)) || (Epoch (SFence s) <>? l_epoch l) then (false, t, l)
  else if refuse then (false, t, l)
  else
    let t' := mkTicket (t_addr t) (t_uid t) (t_key t) (t_reserved t) true in
    let ref := mkRef (t_uid t) (if SName s <>? "" then t_key t else "") (SFence s) 0 in
    let l := if HID (SHandle s) <>? "" then set_fibers (<[HID (SHandle s) := ref]> (l_fibers l)) l else l in
    let l := if SName s <>? "" then set_sessions (<[t_key t := s]> (l_sessions l)) l else l in
    (true, t', l).

(** The [unlock] closure up to [hold.release()]: it returns an uncommitted
    reservation to the entry it was taken from, admitted or not. *)
Definition unlock (t : ticket) (l : Ledger) : Ledger :=
  if t_reserved t && negb (t_committed t)
  then set_heap (alter (entry_live (-1)) (t_addr t) (l_heap l)) l
  else l.

(** ** Pool counters *)

(** [func (l *Ledger) SetPooled(grantUID string, n int) bool] *)
Definition SetPooled (uid : string) (n : Z) (l : Ledger) : bool * Ledger :=
  match entryOf l uid with
  | Some (a, e) =>
      if (ge_pooled e =? n)%Z then (false, l)
      else (true, set_heap (<[a := entry_pooled n e]> (l_heap l)) l)
  | None => (false, l)
  end.

(** [func (l *Ledger) PoolRoom(grantUID string) int] *)
Definition PoolRoom (uid : string) (l : Ledger) : Z :=
  match entryOf l uid with
  | None => 0
  | Some (_, e) =>
      let room := (FiberWarm (ge_grant e) - ge_pooled e)%Z in
      let room := if (0 <? FiberMax (ge_grant e))%Z
                  then Z.min room (FiberMax (ge_grant e) - ge_live e - ge_pooled e) else room in
      Z.max room 0
  end%Z.

(** ** Sessions and fibers *)

(** [func (l *Ledger) SessionState(grantUID, session string)] *)
Definition LSessionState (uid session : string) (l : Ledger) : option (SessionState * string) :=
  s ← l_sessions l !! sessionKey uid session; Some (SState s, SDeltaRef s).

(** [func (l *Ledger) ForgetSession(grantUID, session string)] *)
Definition ForgetSession (uid session : string) (l : Ledger) : Ledger :=
  match l_sessions l !! sessionKey uid session with
  | Some s =>
      match SState s with
      | StateParked => set_sessions (delete (sessionKey uid session) (l_sessions l)) l
      | StateRunning => l
      end
  | None => l
  end.

(** [func (l *Ledger) Fiber(fiberID string) (Fence, bool)] *)
Definition LFiber (id : string) (l : Ledger) : option Fence := fr_fence <$> l_fibers l !! id.

(** [func (l *Ledger) FiberSession(fiberID string) string] *)
Definition FiberSession (id : string) (l : Ledger) : string :=
  match l_fibers l !! id with
  | Some ref =>
      if fr_sessionKey ref ==? "" then ""
      else match l_sessions l !! fr_sessionKey ref with Some s => SName s | None => "" end
  | None => ""
  end.

Definition fiberInfo (l : Ledger) (kv : string * fiberRef) : FiberInfo :=
  mkFiberInfo kv.1
    (if fr_sessionKey kv.2 <>? ""
     then match l_sessions l !! fr_sessionKey kv.2 with Some s => SName s | None => "" end
     else "")
    (fr_wUsed kv.2).

Definition by_id (a b : FiberInfo) : Prop := String.le (FID a) (FID b).
#[export] Instance by_id_dec : RelDecision by_id.
Proof. intros a b. unfold by_id. apply _. Defined.

(** [func (l *Ledger) FibersOf(grantUID string) []FiberInfo] *)
Definition FibersOf (uid : string) (l : Ledger) : list FiberInfo :=
  merge_sort by_id
    (fiberInfo l <$> map_to_list (filter (λ kv, fr_grantUID kv.2 = uid) (l_fibers l))).

(** [func (l *Ledger) RunningFibers() []string] *)
Definition RunningFibers (l : Ledger) : list string :=
  merge_sort String.le (fst <$> map_to_list (l_fibers l)).

(** [func (l *Ledger) SetFiberW(fiberID string, bytes uint64)] *)
Definition SetFiberW (id : string) (bytes : N) (l : Ledger) : Ledger :=
  set_fibers (alter (λ r, mkRef (fr_grantUID r) (fr_sessionKey r) (fr_fence r) bytes) id (l_fibers l)) l.

(** Free one running slot of the grant, if it is admitted. *)
Definition freeSlot (uid : string) (l : Ledger) : Ledger :=
  match entryOf l uid with
  | Some (a, e) => set_heap (<[a := entry_live (-1) e]> (l_heap l)) l
  | None => l
  end.

(** [func (l *Ledger) OnPark(fiberID, deltaRef string) (session, superseded string)] *)
Definition OnPark (id deltaRef : string) (l : Ledger) : (string * string) * Ledger :=
  match l_fibers l !! id with
  | None => (("", ""), l)
  | Some ref =>
      let l := set_fibers (delete id (l_fibers l)) l in
      let l := freeSlot (fr_grantUID ref) l in
      if fr_sessionKey ref <>? "" then
        match l_sessions l !! fr_sessionKey ref with
        | Some s =>
            ((SName s, SDeltaRef s),
             set_sessions (<[fr_sessionKey ref :=
               mkSession (SName s) (SGrantUID s) StateParked (SFence s) zeroHandle deltaRef]> (l_sessions l)) l)
        | None => (("", ""), l)
        end
      else (("", ""), l)
  end.

(** [func (l *Ledger) onGone(fiberID string) (fence Fence, name, deltaRef string, ok bool)] *)
Definition onGone (id : string) (l : Ledger) : option (Fence * string * string) * Ledger :=
  match l_fibers l !! id with
  | None => (None, l)
  | Some ref =>
      let l := set_fibers (delete id (l_fibers l)) l in
      let l := freeSlot (fr_grantUID ref) l in
      if fr_sessionKey ref <>? "" then
        let '(name, deltaRef) :=
          match l_sessions l !! fr_sessionKey ref with
          | Some s => (SName s, SDeltaRef s)
          | None => ("", "")
          end in
        (Some (fr_fence ref, name, deltaRef), set_sessions (delete (fr_sessionKey ref) (l_sessions l)) l)
      else (Some (fr_fence ref, "", ""), l)
  end.

(** [func (l *Ledger) OnRelease(fiberID string) (session, deltaRef string)] *)
Definition OnRelease (id : string) (l : Ledger) : (string * string) * Ledger :=
  let '(r, l) := onGone id l in
  (match r with Some (_, name, deltaRef) => (name, deltaRef) | None => ("", "") end, l).

(** [func (l *Ledger) OnFiberExit(fiberID string)] *)
Definition OnFiberExit (id : string) (l : Ledger) : option (Fence * string * string) * Ledger :=
  onGone id l.

(** ** Status *)

Definition status_addW (w : N) (s : Status) : Status :=
  mkStatus (StGrantUID s) (StRunning s) (StParked s) (StPooled s) (U64.add (StWUsedBytes s) w) (StLatest s).
Definition status_park (s : Status) : Status :=
  mkStatus (StGrantUID s) (StRunning s) (StParked s + 1) (StPooled s) (StWUsedBytes s) (StLatest s).

Definition by_uid (a b : Status) : Prop := String.le (StGrantUID a) (StGrantUID b).
#[export] Instance by_uid_dec : RelDecision by_uid.
Proof. intros a b. unfold by_uid. apply _. Defined.

(** The slots of [Statuses] before the two passes. *)
Definition statusSlots (l : Ledger) : gmap string Status :=
  map_imap (λ uid a, e ← l_heap l !! a;
    Some (mkStatus uid (ge_live e) 0 (ge_pooled e) 0 (mkFence uid (l_epoch l) (ge_nextSeq e))))
    (l_grants l).

(** One pass over the fibers and one over the sessions. *)
Definition addFibers (l : Ledger) (slots : gmap string Status) : gmap string Status :=
  map_fold (λ _ ref acc, alter (status_addW (fr_wUsed ref)) (fr_grantUID ref) acc) slots (l_fibers l).
Definition addParked (l : Ledger) (slots : gmap string Status) : gmap string Status :=
  map_fold (λ _ s acc,
    match SState s with StateParked => alter status_park (SGrantUID s) acc | StateRunning => acc end)
    slots (l_sessions l).

(** [func (l *Ledger) Statuses() []Status] *)
Definition Statuses (l : Ledger) : list Status :=
  merge_sort by_uid (snd <$> map_to_list (addParked l (addFibers l (statusSlots l)))).

(** ** Parked sessions from a snapshot or another home (snapshot.go) *)

Record SessionSnapshot := mkSessionSnapshot {
  ss_Name : string; ss_GrantUID : string; ss_State : SessionState;
  ss_Fence : Fence; ss_DeltaRef : string; ss_FiberID : string;
}.

(** [func (l *Ledger) restoreParked(s SessionSnapshot) error] *)
Definition restoreParked (s : SessionSnapshot) (l : Ledger) : option Sentinel * Ledger :=
  match l_grants l !! ss_GrantUID s with
  | None => (Some ErrGrantUnknown, l)
  | Some _ =>
      let key := sessionKey (ss_GrantUID s) (ss_Name s) in
      match l_sessions l !! key with
      | Some _ => (Some errSessionHeld, l)
      | None =>
          (None, set_sessions (<[key := mkSession (ss_Name s) (ss_GrantUID s) StateParked (ss_Fence s)
                                          zeroHandle (ss_DeltaRef s)]> (l_sessions l)) l)
      end
  end.

(** [func (l *Ledger) RestoreParked(s SessionSnapshot) bool] *)
Definition RestoreParked (s : SessionSnapshot) (l : Ledger) : bool * Ledger :=
  let '(e, l) := restoreParked s l in (match e with None => true | Some _ => false end, l).
