(* ===== verification/LedgerFacts.v ===== *)
(** * The ledger: well-formedness and the behaviour of each operation

    [ledger_wf] is the shape every operation keeps: an admitted UID points to
    an allocated entry that holds a grant of that UID.  The lemmas say what
    each operation does to the entries, the sequence counters, the fibers and
    the sessions, and are the base of the interleaving proofs and of Core. *)

From S2P Require Import Prelude GoLib Fence Errors Grant Ledger.
From stdpp Require Import options.

Record ledger_wf (l : Ledger) : Prop := {
  wf_grant : ∀ uid a, l_grants l !! uid = Some a →
    ∃ e, l_heap l !! a = Some e ∧ UID (ge_grant e) = uid;
  wf_next : ∀ a e, l_heap l !! a = Some e → a < l_next l;
}.

(** ** Entries *)

Lemma entryOf_Some l uid a e :
  entryOf l uid = Some (a, e) ↔ l_grants l !! uid = Some a ∧ l_heap l !! a = Some e.
Proof.
  unfold entryOf. split.
  - intros H. destruct (l_grants l !! uid) as [a'|]; simpl in H; [|done].
    destruct (l_heap l !! a') eqn:E; simpl in H; [|done]. by simplify_eq.
  - intros [H1 H2]. rewrite H1. simpl. by rewrite H2.
Qed.

Lemma entryOf_None l uid : ledger_wf l → entryOf l uid = None ↔ l_grants l !! uid = None.
Proof.
  intros [Hg _]. unfold entryOf. split.
  - destruct (l_grants l !! uid) as [a|] eqn:E; [|done]. destruct (Hg _ _ E) as (e & He & _).
    simpl. by rewrite He.
  - by intros ->.
Qed.

Lemma entryOf_UID l uid a e : ledger_wf l → entryOf l uid = Some (a, e) → UID (ge_grant e) = uid.
Proof.
  intros [Hg _] [H1 H2]%entryOf_Some. destruct (Hg _ _ H1) as (e' & ? & ?). by simplify_eq.
Qed.

Lemma entryOf_inj l uid uid' a e e' :
  ledger_wf l → entryOf l uid = Some (a, e) → entryOf l uid' = Some (a, e') → uid = uid' ∧ e = e'.
Proof.
  intros Hwf H1 H2.
  assert (e = e') as ->. { apply entryOf_Some in H1, H2. naive_solver. }
  split; [|done]. rewrite <- (entryOf_UID l uid a e') by done. by eapply entryOf_UID.
Qed.

(** Writing the entry of [uid] changes no other grant's entry. *)
Lemma entryOf_set_heap l uid a e e' uid' :
  ledger_wf l → entryOf l uid = Some (a, e) →
  entryOf (set_heap (<[a := e']> (l_heap l)) l) uid' =
  (if decide (uid' = uid) then Some (a, e') else entryOf l uid').
Proof.
  intros Hwf He. pose proof He as [Hg Hh]%entryOf_Some. unfold entryOf at 1. simpl.
  case_decide as Hu.
  - subst. rewrite Hg. simpl. by rewrite lookup_insert_eq.
  - unfold entryOf. destruct (l_grants l !! uid') as [a'|] eqn:Eg'; simpl; [|done].
    rewrite lookup_insert_ne; [done|]. intros <-.
    destruct Hwf as [Hw _]. destruct (Hw _ _ Eg') as (e1 & ? & ?), (Hw _ _ Hg) as (e2 & ? & ?).
    simplify_eq.
Qed.

Lemma wf_set_heap l uid a e e' :
  ledger_wf l → entryOf l uid = Some (a, e) → UID (ge_grant e') = UID (ge_grant e) →
  ledger_wf (set_heap (<[a := e']> (l_heap l)) l).
Proof.
  intros [Hg Hn] [H1 H2]%entryOf_Some HU. split; simpl.
  - intros uid' a' Ha'. destruct (Hg _ _ Ha') as (e1 & He1 & HU1).
    destruct (decide (a = a')) as [<-|].
    + exists e'. rewrite lookup_insert_eq. split; [done|]. congruence.
    + exists e1. by rewrite lookup_insert_ne.
  - intros a' e1. rewrite lookup_insert_Some. intros [[<- _]|[_ ?]]; eauto.
Qed.

(** An operation that leaves the heap and the grants alone keeps the shape. *)
Lemma wf_same l l' :
  l_heap l' = l_heap l → l_grants l' = l_grants l → l_next l' = l_next l →
  ledger_wf l → ledger_wf l'.
Proof. intros E1 E2 E3 [Hg Hn]. split; rewrite E1, ?E2, ?E3; done. Qed.

Lemma entryOf_same l l' uid :
  l_heap l' = l_heap l → l_grants l' = l_grants l → entryOf l' uid = entryOf l uid.
Proof. intros E1 E2. unfold entryOf. by rewrite E1, E2. Qed.

Lemma wf_NewLedger e : ledger_wf (NewLedger e).
Proof. by split. Qed.

Lemma wf_BumpEpoch e l : ledger_wf l → ledger_wf (LBumpEpoch e l).
Proof. unfold LBumpEpoch. case_match; [|done]. by apply wf_same. Qed.

Lemma wf_AdmitGrant g l : ledger_wf l → ledger_wf (AdmitGrant g l).
Proof.
  intros Hwf. unfold AdmitGrant. destruct (entryOf l (UID g)) as [[a e]|] eqn:E.
  - eapply wf_set_heap; [done..|]. simpl. by rewrite (entryOf_UID l (UID g) a e).
  - destruct Hwf as [Hg Hn]. split; simpl.
    + intros uid a. rewrite lookup_insert_Some. intros [[<- <-]|[Hne Ha]].
      * eexists. by rewrite lookup_insert_eq.
      * destruct (Hg _ _ Ha) as (e & He & HU). exists e. split; [|done].
        apply Hn in He as Hlt. by rewrite lookup_insert_ne by lia.
    + intros a e. rewrite lookup_insert_Some. intros [[<- _]|[_ He]]; [lia|]. apply Hn in He. lia.
Qed.

Lemma wf_RevokeGrant uid l : ledger_wf l → ledger_wf (RevokeGrant uid l).
Proof.
  intros [Hg Hn]. split; simpl; [|done]. intros uid' a. rewrite lookup_delete_Some. naive_solver.
Qed.

Lemma wf_freeSlot uid l : ledger_wf l → ledger_wf (freeSlot uid l).
Proof.
  intros Hwf. unfold freeSlot. destruct (entryOf l uid) as [[a e]|] eqn:E; [|done].
  by eapply wf_set_heap.
Qed.

(** A single field of an entry changes in place, wherever the entry is. *)
Lemma wf_alter_live a d l : ledger_wf l → ledger_wf (set_heap (alter (entry_live d) a (l_heap l)) l).
Proof.
  intros [Hg Hn]. split; simpl.
  - intros uid a' Ha'. destruct (Hg _ _ Ha') as (e & He & HU).
    rewrite lookup_alter. case_decide; subst; rewrite He; simpl; eauto.
  - intros a' e. rewrite lookup_alter. case_decide; subst; [|by apply Hn].
    destruct (l_heap l !! a') eqn:E; simpl; [|done]. intros _. eauto.
Qed.

Lemma wf_unlock t l : ledger_wf l → ledger_wf (unlock t l).
Proof. intros. unfold unlock. case_match; [|done]. by apply wf_alter_live. Qed.

Lemma wf_resolveHeld now uid session tier l r l' :
  ledger_wf l → resolveHeld now uid session tier l = (r, l') → ledger_wf l'.
Proof.
  intros Hwf. unfold resolveHeld. destruct (entryOf l uid) as [[a e]|] eqn:E; [|naive_solver].
  repeat case_match; intros [= <- <-]; try done; by eapply wf_set_heap.
Qed.

Lemma wf_commit refuse t s l ok t' l' :
  ledger_wf l → commit refuse t s l = (ok, t', l') → ledger_wf l'.
Proof.
  intros Hwf. unfold commit. destruct (_ || _); [naive_solver|]. destruct refuse; [naive_solver|].
  intros [= <- <- <-]. repeat case_match; by apply (wf_same l).
Qed.

Lemma wf_OnPark id ref l : ledger_wf l → ledger_wf (OnPark id ref l).2.
Proof.
  intros Hwf. unfold OnPark. destruct (l_fibers l !! id) as [r|]; [|done].
  assert (ledger_wf (freeSlot (fr_grantUID r) (set_fibers (delete id (l_fibers l)) l))) as Hf
    by (apply wf_freeSlot; by apply (wf_same l)).
  repeat case_match; simpl; try done; simple refine (wf_same _ _ _ _ _ Hf); done.
Qed.

Lemma wf_onGone id l : ledger_wf l → ledger_wf (onGone id l).2.
Proof.
  intros Hwf. unfold onGone. destruct (l_fibers l !! id) as [r|]; [|done].
  assert (ledger_wf (freeSlot (fr_grantUID r) (set_fibers (delete id (l_fibers l)) l))) as Hf
    by (apply wf_freeSlot; by apply (wf_same l)).
  repeat case_match; simpl; try done; simple refine (wf_same _ _ _ _ _ Hf); done.
Qed.

Lemma wf_SetPooled uid n l : ledger_wf l → ledger_wf (SetPooled uid n l).2.
Proof.
  intros Hwf. unfold SetPooled. destruct (entryOf l uid) as [[a e]|] eqn:E; [|done].
  case_match; [done|]. by eapply wf_set_heap.
Qed.

Lemma wf_ForgetSession uid s l : ledger_wf l → ledger_wf (ForgetSession uid s l).
Proof. unfold ForgetSession. repeat case_match; try done; by apply wf_same. Qed.

Lemma wf_restoreParked s l : ledger_wf l → ledger_wf (restoreParked s l).2.
Proof. unfold restoreParked. repeat case_match; try done; by apply wf_same. Qed.

Lemma wf_gateEnter k l : ledger_wf l → ledger_wf (gateEnter k l).
Proof. by apply wf_same. Qed.
Lemma wf_gateLock k l l' : gateLock k l = Some l' → ledger_wf l → ledger_wf l'.
Proof. unfold gateLock. intros. case_all. by apply (wf_same l). Qed.
Lemma wf_gateUnlock k l : ledger_wf l → ledger_wf (gateUnlock k l).
Proof. unfold gateUnlock. case_match; [|done]. by apply wf_same. Qed.
Lemma wf_gateDrop k l : ledger_wf l → ledger_wf (gateDrop k l).
Proof. unfold gateDrop. repeat case_match; try done; by apply wf_same. Qed.

#[export] Hint Resolve wf_NewLedger wf_BumpEpoch wf_AdmitGrant wf_RevokeGrant wf_freeSlot wf_unlock
  wf_resolveHeld wf_commit wf_OnPark wf_onGone wf_SetPooled wf_ForgetSession wf_restoreParked
  wf_gateEnter wf_gateLock wf_gateUnlock wf_gateDrop : fiberd.

(** ** The sequence counter

    The last sequence number minted under a UID in this process: the entry's
    counter while the grant is admitted, the saved one after a revocation. *)
Definition highSeq (l : Ledger) (uid : string) : N :=
  match entryOf l uid with
  | Some (_, e) => ge_nextSeq e
  | None => default 0%N (l_seqHigh l !! uid)
  end.

Lemma highSeq_same l l' uid :
  l_heap l' = l_heap l → l_grants l' = l_grants l → l_seqHigh l' = l_seqHigh l →
  highSeq l' uid = highSeq l uid.
Proof. intros E1 E2 E3. unfold highSeq. by rewrite (entryOf_same l l'), E3. Qed.

(** Re-delivery and re-admission keep every counter. *)
Lemma highSeq_AdmitGrant g l uid : ledger_wf l → highSeq (AdmitGrant g l) uid = highSeq l uid.
Proof.
  intros Hwf. unfold AdmitGrant, highSeq. destruct (entryOf l (UID g)) as [[a e]|] eqn:E.
  - rewrite (entryOf_set_heap l (UID g) a e) by done. case_decide; subst; by rewrite ?E.
  - unfold entryOf at 1. simpl. destruct (decide (uid = UID g)) as [->|Hne].
    + rewrite lookup_insert_eq. simpl. rewrite lookup_insert_eq. simpl. by rewrite E.
    + rewrite lookup_insert_ne by done. unfold entryOf.
      destruct (l_grants l !! uid) as [a|] eqn:Eg; simpl; [|done].
      destruct Hwf as [Hg Hn]. destruct (Hg _ _ Eg) as (e & He & _).
      pose proof (Hn _ _ He). by rewrite lookup_insert_ne by lia.
Qed.

Lemma highSeq_RevokeGrant uid l uid' : ledger_wf l → highSeq (RevokeGrant uid l) uid' = highSeq l uid'.
Proof.
  intros Hwf. unfold highSeq. unfold entryOf at 1, RevokeGrant. simpl.
  destruct (decide (uid' = uid)) as [->|Hne].
  - rewrite lookup_delete_eq. simpl. destruct (entryOf l uid) as [[a e]|]; [|done].
    by rewrite lookup_insert_eq.
  - rewrite lookup_delete_ne by done. fold (entryOf l uid').
    destruct (entryOf l uid') as [[a' e']|]; [done|].
    destruct (entryOf l uid) as [[a e]|]; [|done]. by rewrite lookup_insert_ne.
Qed.

Lemma highSeq_set_heap l uid a e e' uid' :
  ledger_wf l → entryOf l uid = Some (a, e) → ge_nextSeq e' = ge_nextSeq e →
  highSeq (set_heap (<[a := e']> (l_heap l)) l) uid' = highSeq l uid'.
Proof.
  intros Hwf He Hn. unfold highSeq. rewrite (entryOf_set_heap l uid a e) by done.
  case_decide; [|done]. subst. by rewrite He.
Qed.

Lemma highSeq_freeSlot uid l uid' : ledger_wf l → highSeq (freeSlot uid l) uid' = highSeq l uid'.
Proof.
  intros. unfold freeSlot. destruct (entryOf l uid) as [[a e]|] eqn:E; [|done].
  by apply (highSeq_set_heap l uid a e).
Qed.

Lemma highSeq_unlock t l uid : ledger_wf l → highSeq (unlock t l) uid = highSeq l uid.
Proof.
  intros Hwf. unfold unlock. case_match; [|done]. unfold highSeq, entryOf. simpl.
  destruct (l_grants l !! uid) as [a|]; simpl; [|done].
  rewrite lookup_alter. case_decide; subst; [|done]. by destruct (l_heap l !! t_addr t).
Qed.

(** ** What resolve decides *)

Lemma room_left (m v : Z) : (0 <? m)%Z && (m <=? v)%Z = false → (0 < m)%Z → (v < m)%Z.
Proof. intros H Hm. apply Z.ltb_lt in Hm. rewrite Hm in H. by apply Z.leb_gt in H. Qed.

Lemma resolveHeld_inv now uid session tier l act f ref t l' :
  resolveHeld now uid session tier l = (Resolved act f ref t, l') →
  ∃ a e, entryOf l uid = Some (a, e) ∧ Expired (ge_grant e) now = false ∧
    (MinTier (ge_grant e) ≤ tier)%Z ∧
    t = mkTicket a uid (sessionKey uid session) (bool_decide (act ≠ ActAttach)) false ∧
    match act with
    | ActAttach => l' = l ∧ session ≠ "" ∧
        ∃ s, l_sessions l !! sessionKey uid session = Some s ∧ SState s = StateRunning ∧
             f = SFence s ∧ ref = HEndpoint (SHandle s)
    | ActCreate | ActResume =>
        l' = set_heap (<[a := entry_mint (entry_live 1 e)]> (l_heap l)) l ∧
        f = mkFence uid (l_epoch l) (U64.succ (ge_nextSeq e)) ∧
        ((0 < FiberMax (ge_grant e))%Z → (ge_live e < FiberMax (ge_grant e))%Z) ∧
        match (if session <>? "" then l_sessions l !! sessionKey uid session else None) with
        | None => act = ActCreate ∧ ref = ""
        | Some s => SState s = StateParked ∧ act = ActResume ∧ ref = SDeltaRef s ∧ (TierCheckpoint ≤ tier)%Z
        end
    end.
Proof.
  unfold resolveHeld. destruct (entryOf l uid) as [[a e]|] eqn:E; [|done].
  destruct (Expired (ge_grant e) now) eqn:Ex; [done|].
  destruct (tier <? MinTier (ge_grant e))%Z eqn:Et; [done|]. apply Z.ltb_ge in Et.
  case_bool_decide as Hs; simpl.
  - subst. destruct (_ && _) eqn:Hf; [done|]. intros [= <- <- <- <- <-].
    exists a, e. rewrite bool_decide_eq_true_2 by done. split_and!; try done.
    by apply room_left.
  - destruct (l_sessions l !! sessionKey uid session) as [s|] eqn:Es.
    + destruct (SState s) eqn:Est.
      * intros [= <- <- <- <- <-]. exists a, e. split_and!; eauto 10.
      * destruct (tier <? TierCheckpoint)%Z eqn:Ec; [done|]. apply Z.ltb_ge in Ec.
        destruct (_ && _) eqn:Hf; [done|]. intros [= <- <- <- <- <-].
        exists a, e. rewrite bool_decide_eq_true_2 by done. split_and!; try done.
        by apply room_left.
    + destruct (_ && _) eqn:Hf; [done|]. intros [= <- <- <- <- <-].
      exists a, e. rewrite bool_decide_eq_true_2 by done. split_and!; try done.
      by apply room_left.
Qed.

(** An error leaves the ledger alone: nothing reserved, nothing minted. *)
Lemma resolveHeld_err now uid session tier l e l' :
  resolveHeld now uid session tier l = (ResolveErr e, l') → l' = l.
Proof. unfold resolveHeld. repeat case_match; intros [= <- <-]; done. Qed.

(** ** What commit does *)

Lemma commit_false refuse t s l t' l' : commit refuse t s l = (false, t', l') → t' = t ∧ l' = l.
Proof. unfold commit. repeat case_match; by intros [= <- <-]. Qed.

Lemma commit_true refuse t s l t' l' :
  commit refuse t s l = (true, t', l') →
  l_grants l !! t_uid t = Some (t_addr t) ∧ Epoch (SFence s) = l_epoch l ∧ refuse = false ∧
  t' = mkTicket (t_addr t) (t_uid t) (t_key t) (t_reserved t) true ∧
  l_heap l' = l_heap l ∧ l_grants l' = l_grants l ∧ l_next l' = l_next l ∧ l_epoch l' = l_epoch l ∧
  l_perSession l' = l_perSession l ∧ l_seqHigh l' = l_seqHigh l ∧
  l_fibers l' = (if HID (SHandle s) <>? ""
    then <[HID (SHandle s) := mkRef (t_uid t) (if SName s <>? "" then t_key t else "") (SFence s) 0]> (l_fibers l)
    else l_fibers l) ∧
  l_sessions l' = (if SName s <>? "" then <[t_key t := s]> (l_sessions l) else l_sessions l).
Proof.
  unfold commit. destruct (_ || _) eqn:E; [done|]. breflect. destruct refuse; [done|].
  intros [= <- <-]. split_and!; try done; by repeat case_bool_decide.
Qed.

(** ** What the ledger reports: Statuses, FibersOf, RunningFibers

    The two-pass [Statuses] against its definition by grant, and the ledger's
    sorted views. *)

#[export] Instance by_uid_trans : Transitive by_uid.
Proof. intros a b c. unfold by_uid. apply transitivity. Qed.
#[export] Instance by_uid_total : Total by_uid.
Proof. intros a b. unfold by_uid. apply total, _. Qed.
#[export] Instance by_id_trans : Transitive by_id.
Proof. intros a b c. unfold by_id. apply transitivity. Qed.
#[export] Instance by_id_total : Total by_id.
Proof. intros a b. unfold by_id. apply total, _. Qed.

(** ** The status of one grant, by definition *)

(** The W its running fibers have dirtied, as a uint64 sum. *)
Definition usedW (uid : string) (l : Ledger) : N :=
  foldr (λ kv acc, if fr_grantUID kv.2 ==? uid then U64.add acc (fr_wUsed kv.2) else acc) 0%N
    (map_to_list (l_fibers l)).

Definition parkedOf (uid : string) (l : Ledger) : nat :=
  length (filter (λ kv, SState kv.2 = StateParked ∧ SGrantUID kv.2 = uid) (map_to_list (l_sessions l))).

Definition statusOf (l : Ledger) (uid : string) (e : grantEntry) : Status :=
  mkStatus uid (ge_live e) (Z.of_nat (parkedOf uid l)) (ge_pooled e) (usedW uid l)
    (mkFence uid (l_epoch l) (ge_nextSeq e)).

Lemma addFibers_lookup l slots uid :
  (∀ st, slots !! uid = Some st → StWUsedBytes st = 0%N) →
  addFibers l slots !! uid =
  (λ st, mkStatus (StGrantUID st) (StRunning st) (StParked st) (StPooled st) (usedW uid l) (StLatest st))
    <$> slots !! uid.
Proof.
  intros H0. unfold addFibers, usedW. rewrite map_fold_foldr.
  induction (map_to_list (l_fibers l)) as [|[id r] fs IH]; simpl.
  - destruct (slots !! uid) as [[]|]; [|done]. specialize (H0 _ eq_refl). simpl in *. by subst.
  - rewrite lookup_alter. destruct (decide (fr_grantUID r = uid)) as [Hu|Hu].
    + subst uid. rewrite bool_decide_eq_true_2, IH by done. by destruct (slots !! fr_grantUID r).
    + by rewrite bool_decide_eq_false_2.
Qed.

Lemma addParked_lookup l slots uid :
  (∀ st, slots !! uid = Some st → StParked st = 0%Z) →
  addParked l slots !! uid =
  (λ st, mkStatus (StGrantUID st) (StRunning st) (Z.of_nat (parkedOf uid l)) (StPooled st) (StWUsedBytes st) (StLatest st))
    <$> slots !! uid.
Proof.
  intros H0. unfold addParked, parkedOf. rewrite map_fold_foldr.
  induction (map_to_list (l_sessions l)) as [|[k s] fs IH]; simpl.
  - destruct (slots !! uid) as [[]|]; [|done]. specialize (H0 _ eq_refl). simpl in *. by subst.
  - rewrite filter_cons. simpl. destruct (SState s) eqn:Es.
    + rewrite decide_False by naive_solver. done.
    + rewrite lookup_alter. destruct (decide (SGrantUID s = uid)) as [Hu|Hu].
      * subst uid. rewrite decide_True by done. rewrite IH. destruct (slots !! SGrantUID s) as [st|]; [|done]. simpl.
        unfold status_park. simpl. do 2 f_equal. lia.
      * rewrite decide_False by naive_solver. done.
Qed.

Lemma statusSlots_lookup l uid :
  statusSlots l !! uid =
  (λ ae, mkStatus uid (ge_live ae.2) 0 (ge_pooled ae.2) 0 (mkFence uid (l_epoch l) (ge_nextSeq ae.2))) <$> entryOf l uid.
Proof.
  unfold statusSlots, entryOf. rewrite map_lookup_imap.
  destruct (l_grants l !! uid) as [a|]; simpl; [|done]. by destruct (l_heap l !! a).
Qed.

Lemma statuses_lookup l uid :
  addParked l (addFibers l (statusSlots l)) !! uid = (λ ae, statusOf l uid ae.2) <$> entryOf l uid.
Proof.
  rewrite addParked_lookup, addFibers_lookup, statusSlots_lookup.
  - by destruct (entryOf l uid).
  - intros st. rewrite statusSlots_lookup. destruct (entryOf l uid); naive_solver.
  - intros st. rewrite addFibers_lookup, statusSlots_lookup by
      (intros st'; rewrite statusSlots_lookup; destruct (entryOf l uid); naive_solver).
    destruct (entryOf l uid); naive_solver.
Qed.

Lemma Statuses_NoDup l : NoDup (StGrantUID <$> Statuses l).
Proof.
  unfold Statuses. rewrite merge_sort_Permutation. rewrite <- list_fmap_compose.
  erewrite (list_fmap_ext _ fst); [apply NoDup_fst_map_to_list|].
  intros i [uid st] H%list_elem_of_lookup_2. apply elem_of_map_to_list in H. rewrite statuses_lookup in H.
  simpl. destruct (entryOf l uid) as [[a e]|]; simpl in H; [|done]. by injection H as <-.
Qed.
Lemma Statuses_elem l st :
  st ∈ Statuses l ↔ ∃ a e, entryOf l (StGrantUID st) = Some (a, e) ∧ st = statusOf l (StGrantUID st) e.
Proof.
  unfold Statuses. rewrite merge_sort_Permutation, list_elem_of_fmap. split.
  - intros ([uid st'] & -> & H). apply elem_of_map_to_list in H. rewrite statuses_lookup in H. simpl.
    destruct (entryOf l uid) as [[a e]|] eqn:E; simpl in H; [|done]. injection H as <-. simpl. eauto.
  - intros (a & e & He & Hst). exists (StGrantUID st, st). split; [done|].
    apply elem_of_map_to_list. rewrite statuses_lookup, He. simpl. by rewrite <- Hst.
Qed.

(** Statuses reports one status per admitted grant, in UID order, and
    each is the grant's own: its slots, its parked sessions, its pooled
    members, the sum of its fibers' W and its last fence. *)
Theorem Statuses_correct l :
  StronglySorted by_uid (Statuses l) ∧ NoDup (StGrantUID <$> Statuses l) ∧
  ∀ st, st ∈ Statuses l ↔ ∃ a e, entryOf l (StGrantUID st) = Some (a, e) ∧ st = statusOf l (StGrantUID st) e.
Proof.
  split_and!; [apply StronglySorted_merge_sort; apply _|apply Statuses_NoDup|apply Statuses_elem].
Qed.

Lemma FibersOf_elem l uid id :
  id ∈ FID <$> FibersOf uid l ↔ ∃ r, l_fibers l !! id = Some r ∧ fr_grantUID r = uid.
Proof.
  unfold FibersOf. rewrite merge_sort_Permutation, <- list_fmap_compose, list_elem_of_fmap. split.
  - intros ([id' r] & -> & H). apply elem_of_map_to_list, map_lookup_filter_Some in H as [? ?]. simpl in *. eauto.
  - intros (r & Hr & HU). exists (id, r). split; [done|]. apply elem_of_map_to_list, map_lookup_filter_Some. done.
Qed.
Lemma RunningFibers_elem l id : id ∈ RunningFibers l ↔ is_Some (l_fibers l !! id).
Proof.
  unfold RunningFibers. rewrite merge_sort_Permutation, list_elem_of_fmap. split.
  - intros ([id' r] & -> & H). apply elem_of_map_to_list in H. eauto.
  - intros [r Hr]. exists (id, r). split; [done|]. by apply elem_of_map_to_list.
Qed.
Lemma FibersOf_NoDup l uid : NoDup (FID <$> FibersOf uid l).
Proof. unfold FibersOf. rewrite merge_sort_Permutation, <- list_fmap_compose. apply NoDup_fst_map_to_list. Qed.

(** The fibers the ledger lists for a grant are exactly the ones it
    accounts to it, each once, in ID order; and [RunningFibers] is every fiber. *)
Theorem fiber_views_correct l uid :
  StronglySorted by_id (FibersOf uid l) ∧
  (∀ id, id ∈ FID <$> FibersOf uid l ↔ ∃ r, l_fibers l !! id = Some r ∧ fr_grantUID r = uid) ∧
  NoDup (FID <$> FibersOf uid l) ∧
  StronglySorted String.le (RunningFibers l) ∧ NoDup (RunningFibers l) ∧
  (∀ id, id ∈ RunningFibers l ↔ is_Some (l_fibers l !! id)).
Proof.
  split_and!.
  - apply StronglySorted_merge_sort; apply _.
  - apply FibersOf_elem.
  - apply FibersOf_NoDup.
  - apply StronglySorted_merge_sort; apply _.
  - unfold RunningFibers. rewrite merge_sort_Permutation. apply NoDup_fst_map_to_list.
  - apply RunningFibers_elem.
Qed.
