(* ===== verification/LedgerSteps.v ===== *)
(** * The ledger under interleaving

    fiberd serves clones, parks, exits, revocations, deliveries and epoch bumps
    concurrently.  Each takes [l.mu] several times with runtime work between,
    and a named clone also holds its session's gate.  This file is the
    transition system of those atomic sections, in any order, and the
    invariants every reachable state has. *)

From S2P Require Import Prelude GoLib Fence Errors Grant Ledger LedgerFacts.
From stdpp Require Import options.

(** ** Threads

    A thread is a call in flight that holds or waits for a session gate, or a
    clone between its resolve and its unlock. *)
Inductive thread :=
| TWait (uid session : string)    (** entered, waiting for the gate's mutex *)
| THold (uid session : string)    (** the gate is held *)
| TFlight (act : Action) (fence : Fence) (ref session : string) (t : ticket)
    (** resolved; the gate is held when [session] is not empty *)
| TDrop (uid session : string).   (** the mutex is released, the reference not yet *)

(** The ledger, the threads, and (a ghost) every fence minted, newest first. *)
Record sys := mkSys { led : Ledger; thr : gmap nat thread; minted : list Fence }.

(** The session a commit of the flight records (Core.Clone, step 7). *)
Definition flightSession (fence : Fence) (ref session uid : string) (h : FiberHandle) : Session :=
  mkSession session uid StateRunning fence h ref.

Section Steps.
(** Which deliveries the home makes: [Adm g l] when [g] may be admitted at [l]. *)
Variable Adm : Grant → Ledger → Prop.

Inductive step : sys → sys → Prop :=
| step_admit g l th m : Adm g l → step (mkSys l th m) (mkSys (AdmitGrant g l) th m)
| step_revoke uid l th m : step (mkSys l th m) (mkSys (RevokeGrant uid l) th m)
| step_bump e l th m : step (mkSys l th m) (mkSys (LBumpEpoch e l) th m)
| step_enter i uid session l th m :
    th !! i = None → session ≠ "" →
    step (mkSys l th m) (mkSys (gateEnter (sessionKey uid session) l) (<[i := TWait uid session]> th) m)
| step_lock i uid session l l' th m :
    th !! i = Some (TWait uid session) → gateLock (sessionKey uid session) l = Some l' →
    step (mkSys l th m) (mkSys l' (<[i := THold uid session]> th) m)
| step_resolve i uid session now tier act f ref t l l' th m :
    th !! i = Some (THold uid session) →
    resolveHeld now uid session tier l = (Resolved act f ref t, l') →
    step (mkSys l th m)
         (mkSys l' (<[i := TFlight act f ref session t]> th)
            (match act with ActAttach => m | _ => f :: m end))
| step_resolve_anon i uid now tier act f ref t l l' th m :
    th !! i = None →
    resolveHeld now uid "" tier l = (Resolved act f ref t, l') →
    step (mkSys l th m)
         (mkSys l' (<[i := TFlight act f ref "" t]> th)
            (match act with ActAttach => m | _ => f :: m end))
| step_commit i act f ref session t refuse h ok t' l l' th m :
    th !! i = Some (TFlight act f ref session t) → act ≠ ActAttach → t_committed t = false →
    (** The runtime names a fiber by its fence. *)
    HID h = Fence_String f →
    commit refuse t (flightSession f ref session (t_uid t) h) l = (ok, t', l') →
    step (mkSys l th m) (mkSys l' (<[i := TFlight act f ref session t']> th) m)
| step_finish i act f ref session t l th m :
    th !! i = Some (TFlight act f ref session t) →
    step (mkSys l th m)
         (mkSys (unlock t l) (if session ==? "" then delete i th else <[i := THold (t_uid t) session]> th) m)
| step_gate_unlock i uid session l th m :
    th !! i = Some (THold uid session) →
    step (mkSys l th m) (mkSys (gateUnlock (sessionKey uid session) l) (<[i := TDrop uid session]> th) m)
| step_gate_drop i uid session l th m :
    th !! i = Some (TDrop uid session) →
    step (mkSys l th m) (mkSys (gateDrop (sessionKey uid session) l) (delete i th) m)
(** A claim, a stale copy dropped, a park, a release or an exit may come from
    any caller at any time. *)
| step_forget uid session l th m : step (mkSys l th m) (mkSys (ForgetSession uid session l) th m)
| step_restore s l th m : step (mkSys l th m) (mkSys (restoreParked s l).2 th m)
| step_park id ref l th m : step (mkSys l th m) (mkSys (OnPark id ref l).2 th m)
| step_gone id l th m : step (mkSys l th m) (mkSys (onGone id l).2 th m)
| step_setW id w l th m : step (mkSys l th m) (mkSys (SetFiberW id w l) th m)
| step_pooled uid n l th m : step (mkSys l th m) (mkSys (SetPooled uid n l).2 th m).

Definition init (epoch : N) : sys := mkSys (NewLedger epoch) ∅ [].
Definition reachable (epoch : N) (s : sys) : Prop := rtc step (init epoch) s.

(** ** Gates: at most one holder per session *)

Definition th_key (th : thread) : option string :=
  match th with
  | TWait uid session | THold uid session | TDrop uid session => Some (sessionKey uid session)
  | TFlight _ _ _ session t => if session ==? "" then None else Some (t_key t)
  end.

Definition th_holds (th : thread) : option string :=
  match th with
  | THold uid session => Some (sessionKey uid session)
  | TFlight _ _ _ session t => if session ==? "" then None else Some (t_key t)
  | _ => None
  end.

Definition users (k : string) (th : gmap nat thread) : nat := count (λ _ x, th_key x ==? Some k) th.
Definition holders (k : string) (th : gmap nat thread) : nat := count (λ _ x, th_holds x ==? Some k) th.

(** A flight's ticket names the session the thread resolved, and only named
    sessions have gates. *)
Definition th_wf (x : thread) : Prop :=
  match x with
  | TFlight act f ref session t => t_key t = sessionKey (t_uid t) session
  | TWait _ session | THold _ session | TDrop _ session => session ≠ ""
  end.
Definition threads_wf (th : gmap nat thread) : Prop := ∀ i x, th !! i = Some x → th_wf x.

Definition gate_ok (k : string) (l : Ledger) (th : gmap nat thread) : Prop :=
  match l_perSession l !! k with
  | Some g => sg_refs g = Z.of_nat (users k th) ∧ 0 < users k th ∧
              holders k th = (if sg_locked g then 1 else 0)
  | None => users k th = 0
  end.

Definition gate_inv (s : sys) : Prop :=
  threads_wf (thr s) ∧ ∀ k, gate_ok k (led s) (thr s).

Lemma holds_uses x k : th_holds x = Some k → th_key x = Some k.
Proof. destruct x; simpl; congruence. Qed.

Lemma users_zero_holders k th : users k th = 0 → holders k th = 0.
Proof.
  unfold users, holders. rewrite !count_zero. intros H i x Hx. specialize (H i x Hx).
  apply bool_decide_eq_false_2. intros Hh%holds_uses.
  by rewrite Hh, bool_decide_eq_true_2 in H.
Qed.

(** Threads that keep their key and hold status change no gate count. *)
Lemma count_replace (P : nat → thread → bool) th i x y :
  th !! i = Some x → P i x = P i y → count P (<[i := y]> th) = count P th.
Proof. intros Hx HP. pose proof (count_insert P th i y x Hx). rewrite HP in H. lia. Qed.

Lemma gate_ok_replace k l th i x y :
  th !! i = Some x → th_key x = th_key y → th_holds x = th_holds y →
  gate_ok k l th → gate_ok k l (<[i := y]> th).
Proof.
  intros Hx Hk Hh. unfold gate_ok, users, holders.
  rewrite !(count_replace _ th i x y) by (rewrite ?Hk, ?Hh; done). done.
Qed.

Lemma gate_ok_new k l th i y :
  th !! i = None → th_key y = None → gate_ok k l th → gate_ok k l (<[i := y]> th).
Proof.
  intros Hi Hy. assert (th_holds y = None) as Hh.
  { destruct (th_holds y) eqn:E; [|done]. apply holds_uses in E. congruence. }
  unfold gate_ok, users, holders. rewrite !count_insert_new by done.
  rewrite Hy, Hh, !bool_decide_eq_false_2 by done. done.
Qed.

Lemma gate_ok_delete k l th i x :
  th !! i = Some x → th_key x = None → gate_ok k l th → gate_ok k l (delete i th).
Proof.
  intros Hx Hy. assert (th_holds x = None) as Hh.
  { destruct (th_holds x) eqn:E; [|done]. apply holds_uses in E. congruence. }
  unfold gate_ok, users, holders. rewrite !(count_delete _ th i x Hx).
  rewrite Hy, Hh, !bool_decide_eq_false_2 by done. done.
Qed.

Lemma gate_ok_same k l l' th :
  l_perSession l' = l_perSession l → gate_ok k l th → gate_ok k l' th.
Proof. intros E. unfold gate_ok. by rewrite E. Qed.

Lemma threads_wf_insert th i y : th_wf y → threads_wf th → threads_wf (<[i := y]> th).
Proof. intros Hy Hf j x. rewrite lookup_insert_Some. intros [[_ <-]|[_ ?]]; eauto. Qed.

Lemma threads_wf_delete th i : threads_wf th → threads_wf (delete i th).
Proof. intros Hf j x. rewrite lookup_delete_Some. intros [_ ?]; eauto. Qed.

(** The gate map moves only in the gate operations. *)
Lemma perSession_frame l :
  (∀ g, l_perSession (AdmitGrant g l) = l_perSession l) ∧
  (∀ e, l_perSession (LBumpEpoch e l) = l_perSession l) ∧
  (∀ uid session, l_perSession (ForgetSession uid session l) = l_perSession l) ∧
  (∀ s, l_perSession (restoreParked s l).2 = l_perSession l) ∧
  (∀ uid, l_perSession (freeSlot uid l) = l_perSession l) ∧
  (∀ t, l_perSession (unlock t l) = l_perSession l) ∧
  (∀ uid n, l_perSession (SetPooled uid n l).2 = l_perSession l).
Proof.
  unfold AdmitGrant, LBumpEpoch, ForgetSession, restoreParked, freeSlot, unlock, SetPooled.
  split_and!; intros; by repeat case_match.
Qed.

Lemma perSession_OnPark id ref l : l_perSession (OnPark id ref l).2 = l_perSession l.
Proof.
  unfold OnPark. destruct (l_fibers l !! id) as [r|]; [|done].
  pose proof (perSession_frame (set_fibers (delete id (l_fibers l)) l)) as (_ & _ & _ & _ & Hf & _).
  by repeat case_match; simpl; rewrite Hf.
Qed.

Lemma perSession_onGone id l : l_perSession (onGone id l).2 = l_perSession l.
Proof.
  unfold onGone. destruct (l_fibers l !! id) as [r|]; [|done].
  pose proof (perSession_frame (set_fibers (delete id (l_fibers l)) l)) as (_ & _ & _ & _ & Hf & _).
  by repeat case_match; simpl; rewrite Hf.
Qed.

Lemma perSession_resolve now uid session tier l r l' :
  resolveHeld now uid session tier l = (r, l') → l_perSession l' = l_perSession l.
Proof. unfold resolveHeld. repeat case_match; by intros [= <- <-]. Qed.

Lemma perSession_commit refuse t s l ok t' l' :
  commit refuse t s l = (ok, t', l') → l_perSession l' = l_perSession l.
Proof. destruct ok; [by intros (?&?&?&?&?&?&?&?&?&?)%commit_true|by intros [_ ->]%commit_false]. Qed.

Lemma gate_ok_enter k uid session i l th :
  th !! i = None → gate_ok k l th →
  gate_ok k (gateEnter (sessionKey uid session) l) (<[i := TWait uid session]> th).
Proof.
  intros Hi Hok. set (key := sessionKey uid session). unfold gate_ok, gateEnter, users, holders in *. simpl.
  rewrite !count_insert_new by done. simpl. fold key. destruct (decide (key = k)) as [<-|Hne].
  - rewrite lookup_insert_eq. simpl. rewrite bool_decide_eq_true_2 by done.
    pose proof (users_zero_holders key th) as Hz. unfold users, holders in Hz.
    destruct (l_perSession l !! key) as [g|]; simpl.
    + destruct Hok as (-> & ? & ->). split_and!; lia.
    + rewrite Hz by done. split_and!; lia.
  - rewrite lookup_insert_ne by done. rewrite bool_decide_eq_false_2 by congruence. done.
Qed.

Lemma gate_ok_lock k uid session i l l' th :
  th !! i = Some (TWait uid session) → gateLock (sessionKey uid session) l = Some l' →
  gate_ok k l th → gate_ok k l' (<[i := THold uid session]> th).
Proof.
  set (key := sessionKey uid session). intros Hi Hl. unfold gateLock in Hl.
  destruct (l_perSession l !! key) as [[[] refs]|] eqn:E; try done. injection Hl as <-.
  unfold gate_ok, users, holders. simpl.
  rewrite (count_replace (λ _ x, th_key x ==? Some k) th i _ _ Hi) by done.
  pose proof (count_insert (λ _ x, th_holds x ==? Some k) th i (THold uid session) _ Hi) as Hc.
  simpl in Hc. fold key in Hc. destruct (decide (key = k)) as [<-|Hne].
  - rewrite lookup_insert_eq, E. simpl. intros (-> & ? & H0). rewrite H0 in Hc.
    rewrite bool_decide_eq_true_2 in Hc by done. split_and!; lia.
  - rewrite lookup_insert_ne by done. rewrite (bool_decide_eq_false_2 (Some key = Some k)) in Hc by congruence.
    simpl in Hc. rewrite Hc. done.
Qed.

Lemma gate_ok_unlock k uid session i l th :
  th !! i = Some (THold uid session) → gate_ok k l th →
  gate_ok k (gateUnlock (sessionKey uid session) l) (<[i := TDrop uid session]> th).
Proof.
  set (key := sessionKey uid session). intros Hi. unfold gate_ok, gateUnlock, users, holders. fold key.
  rewrite (count_replace (λ _ x, th_key x ==? Some k) th i _ _ Hi) by done.
  pose proof (count_insert (λ _ x, th_holds x ==? Some k) th i (TDrop uid session) _ Hi) as Hc.
  simpl in Hc. fold key in Hc. destruct (decide (key = k)) as [<-|Hne].
  - destruct (l_perSession l !! key) as [g|] eqn:E; simpl.
    + rewrite lookup_insert_eq. simpl. rewrite bool_decide_eq_true_2 in Hc by done.
      intros (-> & ? & H0). rewrite H0 in Hc. destruct (sg_locked g); split_and!; lia.
    + by rewrite E.
  - rewrite (bool_decide_eq_false_2 (Some key = Some k)) in Hc by congruence. simpl in Hc. rewrite Hc.
    destruct (l_perSession l !! key) as [g|]; simpl; [by rewrite lookup_insert_ne|done].
Qed.

Lemma gate_ok_drop k uid session i l th :
  th !! i = Some (TDrop uid session) → gate_ok k l th →
  gate_ok k (gateDrop (sessionKey uid session) l) (delete i th).
Proof.
  set (key := sessionKey uid session). intros Hi. unfold gate_ok, gateDrop, users, holders. fold key.
  rewrite (count_delete (λ _ x, th_key x ==? Some k) th i _ Hi).
  rewrite (count_delete (λ _ x, th_holds x ==? Some k) th i _ Hi). simpl. fold key.
  destruct (decide (key = k)) as [<-|Hne].
  - rewrite bool_decide_eq_true_2 by done. destruct (l_perSession l !! key) as [g|] eqn:E; simpl; [|lia].
    intros (Hr & ? & Hh). destruct (sg_refs g - 1 =? 0)%Z eqn:Er; simpl.
    + rewrite lookup_delete_eq. apply Z.eqb_eq in Er. lia.
    + rewrite lookup_insert_eq. simpl. apply Z.eqb_neq in Er. split_and!; [lia|lia|done].
  - rewrite (bool_decide_eq_false_2 (Some key = Some k)) by congruence. simpl.
    destruct (l_perSession l !! key) as [g|]; simpl; [|done].
    destruct (sg_refs g - 1 =? 0)%Z; simpl; by rewrite ?lookup_delete_ne, ?lookup_insert_ne.
Qed.

Lemma gate_inv_step s s' : step s s' → gate_inv s → gate_inv s'.
Proof.
  intros Hstep [Hwf Hok]. destruct Hstep; simpl in *;
    (split; simpl; [|intros k; specialize (Hok k)]);
    try solve [ done | eapply gate_ok_same; [|done]; first
      [ apply perSession_frame | apply perSession_OnPark | apply perSession_onGone | done ] ].
  - by apply threads_wf_insert.
  - by apply gate_ok_enter.
  - apply threads_wf_insert; [|done]. by apply (Hwf _ _ H).
  - by eapply gate_ok_lock.
  - apply threads_wf_insert; [|done]. apply resolveHeld_inv in H0 as (a & e & ? & ? & ? & -> & ?). done.
  - eapply gate_ok_same; [by eapply perSession_resolve|]. eapply gate_ok_replace; [done|..|done];
      apply Hwf in H; apply resolveHeld_inv in H0 as (a & e & ? & ? & ? & -> & ?); simpl in *;
      by rewrite bool_decide_eq_false_2.
  - apply threads_wf_insert; [|done]. apply resolveHeld_inv in H0 as (a & e & ? & ? & ? & -> & ?). done.
  - eapply gate_ok_same; [by eapply perSession_resolve|]. by apply gate_ok_new.
  - apply threads_wf_insert; [|done]. apply Hwf in H. destruct ok.
    + apply commit_true in H3 as (?&?&?&->&_). done.
    + apply commit_false in H3 as [-> _]. done.
  - eapply gate_ok_same; [by eapply perSession_commit|]. eapply gate_ok_replace; [done|..|done];
      (destruct ok; [apply commit_true in H3 as (?&?&?&->&_)|apply commit_false in H3 as [-> _]]); done.
  - case_bool_decide; [by apply threads_wf_delete|]. by apply threads_wf_insert.
  - eapply gate_ok_same; [apply perSession_frame|]. apply Hwf in H as Hk. simpl in Hk. case_bool_decide.
    + eapply gate_ok_delete; [done|simpl; by rewrite bool_decide_eq_true_2|done].
    + eapply gate_ok_replace; [done|..|done]; simpl; by rewrite bool_decide_eq_false_2, Hk.
  - apply threads_wf_insert; [|done]. by apply (Hwf _ _ H).
  - by apply gate_ok_unlock.
  - by apply threads_wf_delete.
  - by apply gate_ok_drop.
Qed.

Lemma gate_inv_init e : gate_inv (init e).
Proof. split; [done|]. intros k. unfold gate_ok, users. simpl. by rewrite count_empty. Qed.

(** Two threads that hold one session's gate are the same thread. *)
Lemma holder_unique s i j x y k :
  gate_inv s → thr s !! i = Some x → thr s !! j = Some y →
  th_holds x = Some k → th_holds y = Some k → i = j.
Proof.
  intros [_ Hok] Hi Hj Hx Hy. specialize (Hok k). destruct (decide (i = j)) as [|Hne]; [done|exfalso].
  assert (2 ≤ holders k (thr s)).
  { unfold holders. rewrite (count_delete _ _ i x Hi), Hx, bool_decide_eq_true_2 by done.
    rewrite (count_delete _ _ j y) by (by rewrite lookup_delete_ne).
    rewrite Hy, bool_decide_eq_true_2 by done. lia. }
  unfold gate_ok in Hok. destruct (l_perSession (led s) !! k) as [g|].
  - destruct Hok as (_ & _ & Hh). rewrite Hh in *. destruct (sg_locked g); lia.
  - apply users_zero_holders in Hok. lia.
Qed.

(** ** Fences: every mint is newer than all before it *)

Definition newer_on_grant (new old : Fence) : Prop :=
  GrantUID new = GrantUID old → Newer new old = true.

Record fence_inv (s : sys) : Prop := {
  fi_wf : ledger_wf (led s);
  fi_bound : ∀ uid, (highSeq (led s) uid ≤ N.of_nat (length (minted s)))%N;
  fi_seq : ∀ f, f ∈ minted s →
    (Seq f ≤ highSeq (led s) (GrantUID f))%N ∧ (Epoch f ≤ l_epoch (led s))%N;
  fi_sorted : StronglySorted newer_on_grant (minted s);
}.

(** What an operation that mints nothing does to the counters. *)
Definition mints_nothing (l l' : Ledger) : Prop :=
  (ledger_wf l → ledger_wf l') ∧ (ledger_wf l → ∀ uid, highSeq l' uid = highSeq l uid) ∧
  (l_epoch l ≤ l_epoch l')%N.

Lemma mints_nothing_same l l' :
  l_heap l' = l_heap l → l_grants l' = l_grants l → l_next l' = l_next l →
  l_seqHigh l' = l_seqHigh l → l_epoch l' = l_epoch l → mints_nothing l l'.
Proof.
  intros. split_and!; [by apply wf_same|intros; by apply highSeq_same|lia].
Qed.

Lemma mints_nothing_trans l1 l2 l3 : mints_nothing l1 l2 → mints_nothing l2 l3 → mints_nothing l1 l3.
Proof.
  intros (A1 & A2 & A3) (B1 & B2 & B3). split_and!; [auto| |lia].
  intros Hwf uid. rewrite B2, A2; auto.
Qed.

Lemma mints_nothing_freeSlot uid l : mints_nothing l (freeSlot uid l).
Proof.
  split_and!; [apply wf_freeSlot|intros; by apply highSeq_freeSlot|].
  unfold freeSlot. case_match; [|done]. by case_match.
Qed.

Lemma mints_nothing_OnPark id ref l : mints_nothing l (OnPark id ref l).2.
Proof.
  unfold OnPark. destruct (l_fibers l !! id) as [r|]; [|by apply mints_nothing_same].
  assert (mints_nothing l (freeSlot (fr_grantUID r) (set_fibers (delete id (l_fibers l)) l))) as Hf.
  { eapply mints_nothing_trans; [|apply mints_nothing_freeSlot]. by apply mints_nothing_same. }
  repeat case_match; simpl; try done; (eapply mints_nothing_trans; [exact Hf|]);
    by apply mints_nothing_same.
Qed.

Lemma mints_nothing_onGone id l : mints_nothing l (onGone id l).2.
Proof.
  unfold onGone. destruct (l_fibers l !! id) as [r|]; [|by apply mints_nothing_same].
  assert (mints_nothing l (freeSlot (fr_grantUID r) (set_fibers (delete id (l_fibers l)) l))) as Hf.
  { eapply mints_nothing_trans; [|apply mints_nothing_freeSlot]. by apply mints_nothing_same. }
  repeat case_match; simpl; try done; (eapply mints_nothing_trans; [exact Hf|]);
    by apply mints_nothing_same.
Qed.

Lemma mints_nothing_ops l :
  (∀ g, mints_nothing l (AdmitGrant g l)) ∧ (∀ uid, mints_nothing l (RevokeGrant uid l)) ∧
  (∀ e, mints_nothing l (LBumpEpoch e l)) ∧ (∀ t, mints_nothing l (unlock t l)) ∧
  (∀ uid n, mints_nothing l (SetPooled uid n l).2).
Proof.
  split_and!; intros; (split_and!; [eauto with fiberd|intros Hwf uid'|]).
  - by apply highSeq_AdmitGrant.
  - unfold AdmitGrant. case_match; [by case_match|done].
  - by apply highSeq_RevokeGrant.
  - done.
  - unfold LBumpEpoch. case_match; [|done]. by apply highSeq_same.
  - unfold LBumpEpoch. case_match; simpl; [|done]. breflect. lia.
  - by apply highSeq_unlock.
  - unfold unlock. by case_match.
  - unfold SetPooled. destruct (entryOf l uid) as [[a e]|] eqn:E; [|done]. case_match; [done|].
    by apply (highSeq_set_heap l uid a e).
  - unfold SetPooled. by repeat case_match.
Qed.

Lemma mints_nothing_commit refuse t x l ok t' l' :
  commit refuse t x l = (ok, t', l') → mints_nothing l l'.
Proof.
  destruct ok.
  - intros (_&_&_&_&?&?&?&?&?&?&_&_)%commit_true. by apply mints_nothing_same.
  - intros [_ ->]%commit_false. by apply mints_nothing_same.
Qed.

Lemma mints_nothing_gates l k :
  mints_nothing l (gateEnter k l) ∧ (∀ l', gateLock k l = Some l' → mints_nothing l l') ∧
  mints_nothing l (gateUnlock k l) ∧ mints_nothing l (gateDrop k l).
Proof.
  split_and!; [by apply mints_nothing_same| | |].
  - unfold gateLock. intros. case_all. by apply mints_nothing_same.
  - unfold gateUnlock. case_match; by apply mints_nothing_same.
  - unfold gateDrop. repeat case_match; by apply mints_nothing_same.
Qed.

Lemma mints_nothing_sessions l :
  (∀ uid session, mints_nothing l (ForgetSession uid session l)) ∧
  (∀ x, mints_nothing l (restoreParked x l).2).
Proof.
  split; intros; unfold ForgetSession, restoreParked; repeat case_match; by apply mints_nothing_same.
Qed.

Lemma fence_inv_frame l l' th th' m :
  mints_nothing l l' → fence_inv (mkSys l th m) → fence_inv (mkSys l' th' m).
Proof.
  intros (H1 & H2 & H3) [Hwf Hb Hs Hsort]. simpl in *. split; simpl; [auto| |..|done].
  - intros uid. by rewrite H2.
  - intros f Hf. destruct (Hs f Hf). rewrite H2 by done. split; [done|lia].
Qed.

(** A mint: the counter moves up by one and nothing else moves. *)
Lemma highSeq_mint l uid a e uid' :
  ledger_wf l → entryOf l uid = Some (a, e) →
  highSeq (set_heap (<[a := entry_mint (entry_live 1 e)]> (l_heap l)) l) uid' =
  (if decide (uid' = uid) then U64.succ (highSeq l uid) else highSeq l uid').
Proof.
  intros Hwf He. unfold highSeq. rewrite (entryOf_set_heap l uid a e) by done.
  case_decide; [|done]. by rewrite He.
Qed.

Lemma fence_inv_resolve now uid session tier act f ref t l l' th th' m :
  resolveHeld now uid session tier l = (Resolved act f ref t, l') →
  (act ≠ ActAttach → (N.of_nat (length m) < U64.max)%N) →
  fence_inv (mkSys l th m) →
  fence_inv (mkSys l' th' (match act with ActAttach => m | _ => f :: m end)).
Proof.
  intros Hr Hlen [Hwf Hb Hs Hsort]. simpl in *.
  pose proof (wf_resolveHeld _ _ _ _ _ _ _ Hwf Hr) as Hwf'.
  apply resolveHeld_inv in Hr as (a & e & He & _ & _ & _ & Hact).
  assert (act = ActAttach ∨
    (l' = set_heap (<[a := entry_mint (entry_live 1 e)]> (l_heap l)) l ∧
     f = mkFence uid (l_epoch l) (U64.succ (ge_nextSeq e)) ∧ act ≠ ActAttach)) as [->|(-> & -> & Hna)].
  { destruct act; naive_solver. }
  { destruct Hact as (-> & _). by split. }
  clear Hact. specialize (Hlen Hna). assert (ge_nextSeq e = highSeq l uid) as Hh by (unfold highSeq; by rewrite He).
  assert (U64.succ (ge_nextSeq e) = (highSeq l uid + 1)%N) as Hsucc.
  { rewrite Hh. apply U64.succ_small. specialize (Hb uid). lia. }
  replace (match act with ActAttach => m | _ => _ end)
    with (mkFence uid (l_epoch l) (U64.succ (ge_nextSeq e)) :: m) by (by destruct act).
  split; cbn [led minted length]; [done|..].
  - intros uid'. rewrite (highSeq_mint l uid) by done. pose proof (Hb uid') as Hb'. pose proof (Hb uid).
    destruct (decide (uid' = uid)); [|lia]. rewrite <- Hh, Hsucc. lia.
  - intros f Hf. rewrite (highSeq_mint l uid) by done. apply elem_of_cons in Hf as [->|Hf]; simpl.
    + rewrite decide_True by done. rewrite <- Hh. lia.
    + destruct (Hs f Hf). destruct (decide (GrantUID f = uid)) as [Hd|]; [|done].
      rewrite <- Hh, Hsucc, <- Hd. lia.
  - constructor; [done|]. apply Forall_forall. intros f Hf HU. simpl in HU.
    destruct (Hs f Hf) as [Hq He']. unfold Newer. simpl. rewrite <- HU in Hq.
    rewrite HU, bool_decide_eq_true_2 by done. simpl. case_bool_decide; simpl; apply N.ltb_lt; lia.
Qed.

Lemma minted_mono s s' : step s s' → length (minted s) ≤ length (minted s').
Proof. destruct 1; simpl; try destruct act; simpl; lia. Qed.

Lemma fence_inv_step s s' :
  step s s' → (N.of_nat (length (minted s')) ≤ U64.max)%N → fence_inv s → fence_inv s'.
Proof.
  intros Hstep Hlen Hinv. destruct Hstep;
    try solve [eapply fence_inv_frame; [|exact Hinv]; first
      [ apply mints_nothing_ops | apply mints_nothing_gates | by eapply mints_nothing_gates
      | apply mints_nothing_sessions | apply mints_nothing_OnPark | apply mints_nothing_onGone
      | by eapply mints_nothing_commit | by apply mints_nothing_same ]].
  all: eapply fence_inv_resolve; [done| |exact Hinv]; intros; destruct act; cbn [minted length] in Hlen; try done; lia.
Qed.

Lemma fence_inv_init e : fence_inv (init e).
Proof.
  split; simpl; [apply wf_NewLedger| |..].
  - intros uid. unfold highSeq, entryOf. simpl. by rewrite !lookup_empty.
  - intros f Hf. by apply elem_of_nil in Hf.
  - constructor.
Qed.
End Steps.
