(* ===== verification/LedgerLinks.v ===== *)
(** * The ledger under interleaving: fibers, sessions and clones in flight

    [link_inv] ties the three maps together in every reachable state: a fiber
    is named by the fence it was minted, a named fiber's session is running on
    it, a running session has its fiber, and a clone still in flight has the
    fence and the session to itself. *)

From S2P Require Import Prelude GoLib Fence Errors Grant Ledger LedgerFacts LedgerSteps.
From stdpp Require Import options.

Lemma sessionKey_ne uid session : sessionKey uid session ≠ "".
Proof. unfold sessionKey. by destruct uid. Qed.

Lemma Fence_String_ne f : Fence_String f ≠ "".
Proof. unfold Fence_String. by destruct (GrantUID f). Qed.

(** ** The maps at rest *)

Notation fibers_t := (gmap string fiberRef) (only parsing).
Notation sessions_t := (gmap string Session) (only parsing).

Definition running (S : sessions_t) (k id : string) : Prop :=
  ∃ s, S !! k = Some s ∧ SState s = StateRunning ∧ HID (SHandle s) = id.

Record maps_ok (F : fibers_t) (S : sessions_t) (m : list Fence) : Prop := {
  mo_id : ∀ id r, F !! id = Some r →
    id = Fence_String (fr_fence r) ∧ fr_fence r ∈ m ∧ GrantUID (fr_fence r) = fr_grantUID r;
  mo_run : ∀ id r, F !! id = Some r → fr_sessionKey r ≠ "" → running S (fr_sessionKey r) id;
  mo_back : ∀ k id, running S k id → k ≠ "" ∧ ∃ r, F !! id = Some r ∧ fr_sessionKey r = k;
}.

(** At most one fiber per session. *)
Lemma maps_ok_unique F S m id id' r r' :
  maps_ok F S m → F !! id = Some r → F !! id' = Some r' →
  fr_sessionKey r = fr_sessionKey r' → fr_sessionKey r ≠ "" → id = id'.
Proof.
  intros Hok Hr Hr' E Hne. destruct (mo_run _ _ _ Hok _ _ Hr Hne) as (s & Hs & _ & <-).
  rewrite E in Hne. destruct (mo_run _ _ _ Hok _ _ Hr' Hne) as (s' & Hs' & _ & <-).
  rewrite E in Hs. by simplify_eq.
Qed.

(** A fiber leaves: its session, if it has one, is no longer running. *)
Lemma maps_ok_leave F S S' m id r :
  maps_ok F S m → F !! id = Some r →
  (∀ k x, running S' k x ↔ running S k x ∧ k ≠ fr_sessionKey r) →
  maps_ok (delete id F) S' m.
Proof.
  intros Hok Hr HS. split.
  - intros id' r' [_ H]%lookup_delete_Some. by apply (mo_id _ _ _ Hok).
  - intros id' r' [Hne H]%lookup_delete_Some Hk. apply HS. split; [by apply (mo_run _ _ _ Hok)|].
    intros E. apply Hne. eapply maps_ok_unique; [done..|by rewrite <- E].
  - intros k x [H Hk]%HS. destruct (mo_back _ _ _ Hok _ _ H) as (? & r' & Hr' & <-).
    split; [done|]. exists r'. split; [|done]. rewrite lookup_delete_ne; [done|]. intros <-. congruence.
Qed.

Lemma maps_ok_mint F S m f : maps_ok F S m → maps_ok F S (f :: m).
Proof.
  intros [A B C]. split; [|done..]. intros id r H. destruct (A _ _ H) as (? & ? & ?).
  split_and!; [done|by right|done].
Qed.

Lemma maps_ok_sessions F S S' m :
  (∀ k x, running S' k x ↔ running S k x) → maps_ok F S m → maps_ok F S' m.
Proof.
  intros HS [A B C]. split; [done| |].
  - intros. apply HS. eauto.
  - intros k x H%HS. eauto.
Qed.

Lemma running_insert S k s k' x :
  running (<[k := s]> S) k' x ↔
  (k' = k ∧ SState s = StateRunning ∧ HID (SHandle s) = x) ∨ (k' ≠ k ∧ running S k' x).
Proof.
  unfold running. setoid_rewrite lookup_insert_Some. naive_solver.
Qed.

Lemma running_delete S k k' x : running (delete k S) k' x ↔ k' ≠ k ∧ running S k' x.
Proof. unfold running. setoid_rewrite lookup_delete_Some. naive_solver. Qed.

Lemma maps_ok_setW F S m id w :
  maps_ok F S m →
  maps_ok (alter (λ r, mkRef (fr_grantUID r) (fr_sessionKey r) (fr_fence r) w) id F) S m.
Proof.
  intros [A B C]. split.
  - intros id' r H. apply lookup_alter_Some in H as [(<- & r' & H & ->)|[_ H]]; simpl; eauto.
  - intros id' r H. apply lookup_alter_Some in H as [(<- & r' & H & ->)|[_ H]]; simpl; eauto.
  - intros k x H. destruct (C _ _ H) as (? & r & Hr & Hk). split; [done|]. destruct (decide (id = x)) as [<-|].
    + rewrite lookup_alter_eq, Hr. simpl. eauto.
    + rewrite lookup_alter_ne by done. eauto.
Qed.

Lemma freeSlot_maps uid l :
  l_fibers (freeSlot uid l) = l_fibers l ∧ l_sessions (freeSlot uid l) = l_sessions l.
Proof. unfold freeSlot. case_match; [|done]. by case_match. Qed.

(** What a park and a departure do to the two maps. *)
Lemma OnPark_maps id ref l r :
  l_fibers l !! id = Some r →
  l_fibers (OnPark id ref l).2 = delete id (l_fibers l) ∧
  l_sessions (OnPark id ref l).2 =
    (if fr_sessionKey r <>? "" then
       alter (λ s, mkSession (SName s) (SGrantUID s) StateParked (SFence s) zeroHandle ref)
         (fr_sessionKey r) (l_sessions l)
     else l_sessions l).
Proof.
  intros Hr. unfold OnPark. rewrite Hr.
  destruct (freeSlot_maps (fr_grantUID r) (set_fibers (delete id (l_fibers l)) l)) as [E1 E2].
  rewrite E2. simpl. case_bool_decide; simpl; [by rewrite E1, E2|].
  destruct (l_sessions l !! fr_sessionKey r) as [s|] eqn:Es; simpl; rewrite E1, ?E2; simpl; split; try done.
  - apply map_eq. intros k. destruct (decide (fr_sessionKey r = k)) as [<-|].
    + by rewrite lookup_insert_eq, lookup_alter_eq, Es.
    + by rewrite lookup_insert_ne, lookup_alter_ne.
  - apply map_eq. intros k. destruct (decide (fr_sessionKey r = k)) as [<-|].
    + by rewrite lookup_alter_eq, Es.
    + by rewrite lookup_alter_ne.
Qed.

Lemma onGone_maps id l r :
  l_fibers l !! id = Some r →
  l_fibers (onGone id l).2 = delete id (l_fibers l) ∧
  l_sessions (onGone id l).2 =
    (if fr_sessionKey r <>? "" then delete (fr_sessionKey r) (l_sessions l) else l_sessions l).
Proof.
  intros Hr. unfold onGone. rewrite Hr.
  destruct (freeSlot_maps (fr_grantUID r) (set_fibers (delete id (l_fibers l)) l)) as [E1 E2].
  rewrite E2. simpl. case_bool_decide; simpl; [by rewrite E1, E2|].
  case_match; simpl; by rewrite E1.
Qed.

Lemma running_alter_park S k d k' x :
  running (alter (λ s, mkSession (SName s) (SGrantUID s) StateParked (SFence s) zeroHandle d) k S) k' x ↔
  k' ≠ k ∧ running S k' x.
Proof.
  unfold running. setoid_rewrite lookup_alter_Some. split.
  - intros (s & [(<- & s' & _ & ->)|[? ?]] & ? & ?); simpl in *; [done|]. naive_solver.
  - naive_solver.
Qed.

Lemma maps_ok_park id ref l m :
  maps_ok (l_fibers l) (l_sessions l) m →
  maps_ok (l_fibers (OnPark id ref l).2) (l_sessions (OnPark id ref l).2) m.
Proof.
  intros Hok. destruct (l_fibers l !! id) as [r|] eqn:Hr; [|unfold OnPark; by rewrite Hr].
  destruct (OnPark_maps id ref l r Hr) as [-> ->]. eapply maps_ok_leave; [done..|]. intros k x.
  case_bool_decide as Hk; simpl; [|rewrite running_alter_park; tauto].
  split; [|tauto]. intros H. split; [done|]. rewrite Hk. by apply (mo_back _ _ _ Hok _ _ H).
Qed.

Lemma maps_ok_gone id l m :
  maps_ok (l_fibers l) (l_sessions l) m →
  maps_ok (l_fibers (onGone id l).2) (l_sessions (onGone id l).2) m.
Proof.
  intros Hok. destruct (l_fibers l !! id) as [r|] eqn:Hr; [|unfold onGone; by rewrite Hr].
  destruct (onGone_maps id l r Hr) as [-> ->]. eapply maps_ok_leave; [done..|]. intros k x.
  case_bool_decide as Hk; simpl; [|rewrite running_delete; tauto].
  split; [|tauto]. intros H. split; [done|]. rewrite Hk. by apply (mo_back _ _ _ Hok _ _ H).
Qed.

Lemma running_forget uid session l k x :
  running (l_sessions (ForgetSession uid session l)) k x ↔ running (l_sessions l) k x.
Proof.
  unfold ForgetSession. destruct (l_sessions l !! _) as [s|] eqn:Es; [|done].
  destruct (SState s) eqn:Est; [done|]. simpl. rewrite running_delete. split; [tauto|].
  intros H. split; [|done]. intros ->. destruct H as (s' & ? & ? & ?). simplify_eq. congruence.
Qed.

Lemma running_restore s l k x :
  running (l_sessions (restoreParked s l).2) k x ↔ running (l_sessions l) k x.
Proof.
  unfold restoreParked. destruct (l_grants l !! ss_GrantUID s); [|done].
  destruct (l_sessions l !! sessionKey _ _) as [s'|] eqn:Es; [done|]. simpl.
  rewrite running_insert. simpl. split; [naive_solver|]. intros H. right. split; [|done].
  intros ->. destruct H as (s' & ? & ? & ?). congruence.
Qed.

(** ** Clones in flight *)

(** What a clone that minted [f] relies on until it commits. *)
Definition flight_ok (F : fibers_t) (S : sessions_t) (m : list Fence)
    (f : Fence) (session : string) (t : ticket) : Prop :=
  t_reserved t = true ∧ f ∈ m ∧ GrantUID f = t_uid t ∧
  (t_committed t = false →
     F !! Fence_String f = None ∧ (session ≠ "" → ∀ x, ¬ running S (t_key t) x)).

Record flights_ok (F : fibers_t) (S : sessions_t) (th : gmap nat thread) (m : list Fence) : Prop := {
  fl_ok : ∀ i act f ref session t, th !! i = Some (TFlight act f ref session t) → act ≠ ActAttach →
    flight_ok F S m f session t;
  fl_distinct : ∀ i j act act' f ref ref' session session' t t',
    th !! i = Some (TFlight act f ref session t) → act ≠ ActAttach →
    th !! j = Some (TFlight act' f ref' session' t') → act' ≠ ActAttach → i = j;
}.

(** Steps that add no fiber and start no session keep every flight's claim. *)
Lemma flights_ok_shrink F S F' S' th m :
  (∀ id, F !! id = None → F' !! id = None) →
  (∀ k x, running S' k x → running S k x) →
  flights_ok F S th m → flights_ok F' S' th m.
Proof.
  intros HF HS [Hok Hd]. split; [|done]. intros i act f ref session t Hi Ha.
  destruct (Hok _ _ _ _ _ _ Hi Ha) as (? & ? & ? & Hu). split_and!; try done.
  intros Hc. destruct (Hu Hc) as [? Hr]. split; [auto|]. intros ? x Hx. apply (Hr ltac:(done) x). auto.
Qed.

(** A thread moves between states that are not flights. *)
Definition is_flight (x : thread) : bool :=
  match x with TFlight _ _ _ _ _ => true | _ => false end.

Lemma flights_ok_other F S th i x m :
  is_flight x = false → flights_ok F S th m → flights_ok F S (<[i := x]> th) m.
Proof.
  intros Hx [Hok Hd]. split.
  - intros j act f ref session t [[_ ->]|[_ Hj]]%lookup_insert_Some; [done|eauto].
  - intros j k act act' f ref ref' session session' t t'
      [[_ ->]|[_ Hj]]%lookup_insert_Some; [done|].
    intros Ha [[_ ->]|[_ Hk]]%lookup_insert_Some; [done|eauto].
Qed.

Lemma flights_ok_delete F S th i m :
  flights_ok F S th m → flights_ok F S (delete i th) m.
Proof.
  intros [Hok Hd]. split.
  - intros j act f ref session t [_ Hj]%lookup_delete_Some. eauto.
  - intros j k act act' f ref ref' session session' t t' [_ Hj]%lookup_delete_Some Ha
      [_ Hk]%lookup_delete_Some. eauto.
Qed.

(** A flight takes the place of thread [i]; its fence is its own. *)
Lemma flights_ok_flight F S th i act f ref session t m m' :
  (∀ g, g ∈ m → g ∈ m') →
  (act ≠ ActAttach → flight_ok F S m' f session t) →
  (act ≠ ActAttach → ∀ j act' ref' session' t', th !! j = Some (TFlight act' f ref' session' t') →
     act' ≠ ActAttach → j = i) →
  flights_ok F S th m → flights_ok F S (<[i := TFlight act f ref session t]> th) m'.
Proof.
  intros Hm Hf Hu [Hok Hd]. split.
  - intros j act' f' ref' session' t' [[<- [= <- <- <- <- <-]]|[_ Hj]]%lookup_insert_Some Ha; [auto|].
    destruct (Hok _ _ _ _ _ _ Hj Ha) as (? & ? & ? & ?). by split_and!; auto.
  - intros j k act1 act2 g ref1 ref2 session1 session2 t1 t2.
    rewrite !lookup_insert_Some. intros [[<- [= -> -> -> -> ->]]|[Nj Hj]] A1 [[<- E]|[Nk Hk]] A2.
    + done.
    + symmetry. by eapply Hu.
    + injection E as -> -> -> -> ->. by eapply Hu.
    + by eapply Hd.
Qed.

Definition link_inv (s : sys) : Prop :=
  maps_ok (l_fibers (led s)) (l_sessions (led s)) (minted s) ∧
  flights_ok (l_fibers (led s)) (l_sessions (led s)) (thr s) (minted s).

Lemma link_inv_frame l l' th m :
  l_fibers l' = l_fibers l → l_sessions l' = l_sessions l →
  link_inv (mkSys l th m) → link_inv (mkSys l' th m).
Proof. intros E1 E2. unfold link_inv. simpl. by rewrite E1, E2. Qed.

Lemma link_inv_thread l th th' m :
  (flights_ok (l_fibers l) (l_sessions l) th m → flights_ok (l_fibers l) (l_sessions l) th' m) →
  link_inv (mkSys l th m) → link_inv (mkSys l th' m).
Proof. intros H [? ?]. split; [done|]. by apply H. Qed.

(** The operations that move neither fibers nor sessions. *)
Lemma fibers_AdmitGrant g l : l_fibers (AdmitGrant g l) = l_fibers l.
Proof. unfold AdmitGrant. by repeat case_match. Qed.
Lemma sessions_AdmitGrant g l : l_sessions (AdmitGrant g l) = l_sessions l.
Proof. unfold AdmitGrant. by repeat case_match. Qed.
Lemma fibers_LBumpEpoch e l : l_fibers (LBumpEpoch e l) = l_fibers l.
Proof. unfold LBumpEpoch. by repeat case_match. Qed.
Lemma sessions_LBumpEpoch e l : l_sessions (LBumpEpoch e l) = l_sessions l.
Proof. unfold LBumpEpoch. by repeat case_match. Qed.
Lemma fibers_unlock t l : l_fibers (unlock t l) = l_fibers l.
Proof. unfold unlock. by repeat case_match. Qed.
Lemma sessions_unlock t l : l_sessions (unlock t l) = l_sessions l.
Proof. unfold unlock. by repeat case_match. Qed.
Lemma fibers_SetPooled uid n l : l_fibers (SetPooled uid n l).2 = l_fibers l.
Proof. unfold SetPooled. by repeat case_match. Qed.
Lemma sessions_SetPooled uid n l : l_sessions (SetPooled uid n l).2 = l_sessions l.
Proof. unfold SetPooled. by repeat case_match. Qed.
Lemma fibers_gateUnlock k l : l_fibers (gateUnlock k l) = l_fibers l.
Proof. unfold gateUnlock. by repeat case_match. Qed.
Lemma sessions_gateUnlock k l : l_sessions (gateUnlock k l) = l_sessions l.
Proof. unfold gateUnlock. by repeat case_match. Qed.
Lemma fibers_gateDrop k l : l_fibers (gateDrop k l) = l_fibers l.
Proof. unfold gateDrop. by repeat case_match. Qed.
Lemma sessions_gateDrop k l : l_sessions (gateDrop k l) = l_sessions l.
Proof. unfold gateDrop. by repeat case_match. Qed.
Lemma maps_gateLock k l l' :
  gateLock k l = Some l' → l_fibers l' = l_fibers l ∧ l_sessions l' = l_sessions l.
Proof. unfold gateLock. intros. by case_all. Qed.
Lemma maps_resolve now uid session tier l r l' :
  resolveHeld now uid session tier l = (r, l') → l_fibers l' = l_fibers l ∧ l_sessions l' = l_sessions l.
Proof. unfold resolveHeld. repeat case_match; by intros [= <- <-]. Qed.

#[export] Hint Rewrite fibers_AdmitGrant sessions_AdmitGrant fibers_LBumpEpoch sessions_LBumpEpoch fibers_unlock sessions_unlock fibers_SetPooled sessions_SetPooled fibers_gateUnlock sessions_gateUnlock fibers_gateDrop sessions_gateDrop : ledger.

Lemma link_inv_init e : link_inv (init e).
Proof.
  split; split; simpl.
  1-2: intros ??; by rewrite lookup_empty.
  - intros k x (s & H & _). by rewrite lookup_empty in H.
  - intros i act f ref session t. by rewrite lookup_empty.
  - intros i j act act' f ref ref' session session' t t'. by rewrite lookup_empty.
Qed.

(** A resolve mints a fence nobody holds, for a session that is not running. *)
Lemma link_inv_resolve now uid session tier act f ref t l l' i th m :
  resolveHeld now uid session tier l = (Resolved act f ref t, l') →
  fence_inv (mkSys l' th (match act with ActAttach => m | _ => f :: m end)) →
  link_inv (mkSys l th m) →
  link_inv (mkSys l' (<[i := TFlight act f ref session t]> th) (match act with ActAttach => m | _ => f :: m end)).
Proof.
  intros Hr Hf [Hm Hfl]. simpl in *.
  destruct (maps_resolve _ _ _ _ _ _ _ Hr) as [EF ES].
  apply resolveHeld_inv in Hr as (a & e & _ & _ & _ & Ht & Hact).
  destruct (decide (act = ActAttach)) as [->|Ha].
  { split; simpl; rewrite EF, ES; [done|]. by apply (flights_ok_flight _ _ _ _ _ _ _ _ _ m). }
  assert (match act with ActAttach => m | _ => f :: m end = f :: m) as Em by (by destruct act).
  rewrite Em in *. assert (f ∉ m) as Hnew.
  { destruct Hf as [_ _ _ Hs]. apply StronglySorted_inv in Hs as [_ Hs]. rewrite Forall_forall in Hs.
    intros Hin%Hs. specialize (Hin eq_refl). unfold Newer in Hin.
    rewrite !bool_decide_eq_true_2 in Hin by done. simpl in Hin. apply N.ltb_lt in Hin. lia. }
  split; simpl; rewrite EF, ES; [by apply maps_ok_mint|].
  apply (flights_ok_flight _ _ _ _ _ _ _ _ _ m); [by right| | |done].
  - intros _. subst t. rewrite bool_decide_eq_true_2 by done.
    split_and!; simpl; [done|by left|by destruct act; [|done|]; destruct Hact as (_ & -> & _)|].
    intros _. split.
    + destruct (l_fibers l !! Fence_String f) as [r|] eqn:Er; [|done].
      destruct (mo_id _ _ _ Hm _ _ Er) as (E & Hin & _). apply Fence_String_inj in E. by subst.
    + intros Hne x (s & Hs & Hrun & _).
      destruct act; [| done |]; destruct Hact as (_ & _ & _ & Hact);
        rewrite bool_decide_eq_false_2 in Hact by done; simpl in Hact; rewrite Hs in Hact;
        destruct Hact as (? & _); congruence.
  - intros _ j act' ref' session' t' Hj Ha'.
    destruct (fl_ok _ _ _ _ Hfl _ _ _ _ _ _ Hj Ha') as (_ & ? & _). done.
Qed.

Lemma link_inv_commit act f ref session t refuse h ok t' l l' i th m :
  th !! i = Some (TFlight act f ref session t) → act ≠ ActAttach → t_committed t = false →
  HID h = Fence_String f →
  commit refuse t (flightSession f ref session (t_uid t) h) l = (ok, t', l') →
  gate_inv (mkSys l th m) → link_inv (mkSys l th m) →
  link_inv (mkSys l' (<[i := TFlight act f ref session t']> th) m).
Proof.
  intros Hi Ha Hc Hid Hcm Hg Hl. destruct ok; [|apply commit_false in Hcm as [-> ->]; by rewrite insert_id].
  apply commit_true in Hcm as (_&_&_&->&_&_&_&_&_&_&EF&ES). simpl in *.
  destruct Hl as [Hm Hfl]. simpl in *.
  destruct (fl_ok _ _ _ _ Hfl _ _ _ _ _ _ Hi Ha) as (Hres & Hin & HU & Hun).
  destruct (Hun Hc) as [Hnone Hrun].
  pose proof (proj1 Hg _ _ Hi) as Hkey. simpl in Hkey.
  assert (t_key t ≠ "") as Hkne by (rewrite Hkey; apply sessionKey_ne).
  rewrite Hid, bool_decide_eq_false_2 in EF by apply Fence_String_ne. simpl in EF.
  set (r := mkRef _ _ _ _) in EF.
  assert (∀ k x, running (l_sessions l') k x ↔
    (session ≠ "" ∧ k = t_key t ∧ x = Fence_String f) ∨ running (l_sessions l) k x) as HS.
  { intros k x. rewrite ES. case_bool_decide as Hs; simpl; [naive_solver|].
    rewrite running_insert. simpl. rewrite Hid. split; [naive_solver|].
    intros [(_ & -> & ->)|H]; [naive_solver|]. right. split; [|done]. intros ->. by apply (Hrun Hs x). }
  split; simpl.
  - split.
    + intros id' r' H. rewrite EF in H. apply lookup_insert_Some in H as [[<- <-]|[_ H]]; [done|].
      by apply (mo_id _ _ _ Hm).
    + intros id' r' H. rewrite EF in H. apply lookup_insert_Some in H as [[<- <-]|[_ H]].
      * simpl. case_bool_decide; [done|]. intros _. apply HS. by left.
      * intros Hne. apply HS. right. by apply (mo_run _ _ _ Hm).
    + intros k x Hx. rewrite EF. apply HS in Hx as [(Hs & -> & ->)|Hx].
      * split; [done|]. exists r. rewrite lookup_insert_eq. simpl. by rewrite bool_decide_eq_false_2.
      * destruct (mo_back _ _ _ Hm _ _ Hx) as (? & r' & Hr' & ?). split; [done|]. exists r'.
        rewrite lookup_insert_ne; [done|]. intros <-. congruence.
  - split.
    + intros j act' f' ref' session' u [[<- [= <- <- <- <- <-]]|[Hne Hj]]%lookup_insert_Some Ha'; [done|].
      destruct (fl_ok _ _ _ _ Hfl _ _ _ _ _ _ Hj Ha') as (? & ? & ? & Hu). split_and!; try done.
      intros Hcu. destruct (Hu Hcu) as [Hn Hr]. split.
      * rewrite EF, lookup_insert_ne; [done|]. intros ->%Fence_String_inj. apply Hne.
        by eapply (fl_distinct _ _ _ _ Hfl).
      * intros Hs' x [(Hs & Hk & _)|Hx]%HS; [|by eapply Hr].
        apply Hne. eapply (holder_unique (mkSys l th m)); [done|exact Hi|exact Hj|..]; simpl;
          rewrite bool_decide_eq_false_2 by done; by rewrite ?Hk.
    + apply (fl_distinct (l_fibers l) (l_sessions l) _ m).
      apply (flights_ok_flight _ _ _ _ _ _ _ _ _ m m); [done|done| |done].
      intros _ j act' ref' session' u Hj Ha'. by eapply (fl_distinct _ _ _ _ Hfl).
Qed.

Lemma link_inv_step Adm s s' :
  step Adm s s' → gate_inv s → fence_inv s' → link_inv s → link_inv s'.
Proof.
  intros Hstep Hg Hf Hl. destruct Hstep.
  - eapply link_inv_frame; [by autorewrite with ledger..|done].
  - exact (link_inv_frame l _ th m eq_refl eq_refl Hl).
  - eapply link_inv_frame; [by autorewrite with ledger..|done].
  - eapply link_inv_thread; [|exact (link_inv_frame l (gateEnter _ l) th m eq_refl eq_refl Hl)].
    by apply flights_ok_other.
  - destruct (maps_gateLock _ _ _ H0) as [E1 E2].
    eapply link_inv_thread; [|exact (link_inv_frame l l' th m E1 E2 Hl)].
    by apply flights_ok_other.
  - eapply link_inv_resolve; [done|by destruct Hf|done].
  - eapply link_inv_resolve; [done|by destruct Hf|done].
  - by eapply link_inv_commit.
  - eapply link_inv_thread; [|eapply link_inv_frame; [by autorewrite with ledger..|done]].
    case_bool_decide; [apply flights_ok_delete|by apply flights_ok_other].
  - eapply link_inv_thread; [|eapply link_inv_frame; [by autorewrite with ledger..|done]].
    by apply flights_ok_other.
  - eapply link_inv_thread; [|eapply link_inv_frame; [by autorewrite with ledger..|done]].
    apply flights_ok_delete.
  - destruct Hl as [Hm Hfl]. assert (l_fibers (ForgetSession uid session l) = l_fibers l) as EF.
    { unfold ForgetSession. by repeat case_match. }
    split; simpl in *; rewrite EF.
    + eapply maps_ok_sessions; [|done]. intros. apply running_forget.
    + eapply flights_ok_shrink; [done| |done]. intros k x. apply running_forget.
  - destruct Hl as [Hm Hfl]. assert (l_fibers (restoreParked s l).2 = l_fibers l) as EF.
    { unfold restoreParked. by repeat case_match. }
    split; simpl in *; rewrite EF.
    + eapply maps_ok_sessions; [|done]. intros. apply running_restore.
    + eapply flights_ok_shrink; [done| |done]. intros k x. apply running_restore.
  - destruct Hl as [Hm Hfl]. split; simpl in *; [by apply maps_ok_park|].
    destruct (l_fibers l !! id) as [r|] eqn:Hr; [|unfold OnPark; by rewrite Hr].
    destruct (OnPark_maps id ref l r Hr) as [-> ->]. eapply flights_ok_shrink; [..|done].
    + intros. rewrite lookup_delete_None. by right.
    + intros k x. case_bool_decide; simpl; [done|]. rewrite running_alter_park. tauto.
  - destruct Hl as [Hm Hfl]. split; simpl in *; [by apply maps_ok_gone|].
    destruct (l_fibers l !! id) as [r|] eqn:Hr; [|unfold onGone; by rewrite Hr].
    destruct (onGone_maps id l r Hr) as [-> ->]. eapply flights_ok_shrink; [..|done].
    + intros. rewrite lookup_delete_None. by right.
    + intros k x. case_bool_decide; simpl; [done|]. rewrite running_delete. tauto.
  - destruct Hl as [Hm Hfl]. split; simpl in *; [by apply maps_ok_setW|].
    eapply flights_ok_shrink; [| |done]; [|done]. intros id' Hid. by rewrite lookup_alter_None.
  - eapply link_inv_frame; [by autorewrite with ledger..|done].
Qed.

(** ** Every reachable state *)

Definition ledger_inv (s : sys) : Prop := gate_inv s ∧ fence_inv s ∧ link_inv s.

Lemma ledger_inv_step Adm s s' :
  step Adm s s' → (N.of_nat (length (minted s')) ≤ U64.max)%N → ledger_inv s → ledger_inv s'.
Proof.
  intros Hs Hlen (Hg & Hf & Hl).
  assert (fence_inv s') by (by eapply fence_inv_step).
  split_and!; [by eapply gate_inv_step|done|by eapply link_inv_step].
Qed.

Lemma ledger_inv_init e : ledger_inv (init e).
Proof. split_and!; [apply gate_inv_init|apply fence_inv_init|apply link_inv_init]. Qed.

(** An invariant proved step by step beside [ledger_inv] holds wherever fewer
    fences than a uint64 counts have been minted. *)
Lemma reachable_ind Adm e (P : sys → Prop) :
  P (init e) →
  (∀ s s', ledger_inv s → ledger_inv s' → P s → step Adm s s' → P s') →
  ∀ s, reachable Adm e s → (N.of_nat (length (minted s)) ≤ U64.max)%N → ledger_inv s ∧ P s.
Proof.
  intros HP0 HPs.
  apply (rtc_ind_r (λ s, (N.of_nat (length (minted s)) ≤ U64.max)%N → ledger_inv s ∧ P s)).
  - intros _. split; [apply ledger_inv_init|done].
  - intros s s' Hr Hs IH Hlen. destruct IH as [Hi HP]; [pose proof (minted_mono _ _ _ Hs); lia|].
    assert (ledger_inv s') as Hi' by (by eapply ledger_inv_step). split; [done|].
    exact (HPs s s' Hi Hi' HP Hs).
Qed.

Lemma reachable_inv Adm e s :
  reachable Adm e s → (N.of_nat (length (minted s)) ≤ U64.max)%N → ledger_inv s.
Proof. intros Hr Hlen. by apply (reachable_ind Adm e (λ _, True)). Qed.
