(* ===== verification/LedgerSafety.v ===== *)
(** * What the ledger promises, in every interleaving

    Capacity: the running fibers of a grant and its clones in flight never
    exceed [fibers.max].  Sealing: after a revocation or an epoch bump nothing
    of the old incarnation commits.  Fences: every fence is newer than those
    minted before it under its grant.  Sessions: no session runs twice. *)

From S2P Require Import Prelude GoLib Fence Errors Grant Ledger LedgerFacts LedgerSteps LedgerLinks.
From stdpp Require Import options.

(** ** Capacity *)

Definition fibersOn (uid : string) (F : gmap string fiberRef) : nat :=
  count (λ _ r, fr_grantUID r ==? uid) F.

(** A clone that holds a reservation on the entry at [a]. *)
Definition reserves (a : nat) (x : thread) : bool :=
  match x with
  | TFlight _ _ _ _ t => t_reserved t && negb (t_committed t) && (t_addr t ==? a)
  | _ => false
  end.
Definition reservedAt (a : nat) (th : gmap nat thread) : nat := count (λ _ x, reserves a x) th.

(** A delivery the home makes to a quiet grant: a refresh keeps the fixed
    fields (Core.Admit refuses any other), and a re-admission finds no fiber
    of the grant still running. *)
Definition quiet_admit (g : Grant) (l : Ledger) : Prop :=
  match entryOf l (UID g) with
  | Some (_, e) => changesFixedFields (ge_grant e) g = false
  | None => fibersOn (UID g) (l_fibers l) = 0
  end.

Definition entry_cap (F : gmap string fiberRef) (th : gmap nat thread) (uid : string) (a : nat) (e : grantEntry) : Prop :=
  ge_live e = Z.of_nat (fibersOn uid F + reservedAt a th) ∧
  ((0 < FiberMax (ge_grant e))%Z → (ge_live e ≤ FiberMax (ge_grant e))%Z).

Definition cap_inv (s : sys) : Prop :=
  (∀ uid a e, entryOf (led s) uid = Some (a, e) → entry_cap (l_fibers (led s)) (thr s) uid a e) ∧
  (∀ i act f ref session t, thr s !! i = Some (TFlight act f ref session t) → t_addr t < l_next (led s)).

(** *** Bookkeeping of the two counts *)

Lemma fibersOn_leave uid F id r :
  F !! id = Some r →
  fibersOn uid F = (if fr_grantUID r ==? uid then 1 else 0) + fibersOn uid (delete id F).
Proof. intros H. by apply (count_delete (λ _ r, fr_grantUID r ==? uid)). Qed.

Lemma fibersOn_join uid F id r :
  F !! id = None →
  fibersOn uid (<[id := r]> F) = (if fr_grantUID r ==? uid then 1 else 0) + fibersOn uid F.
Proof. intros H. by apply (count_insert_new (λ _ r, fr_grantUID r ==? uid)). Qed.

Lemma fibersOn_setW uid F id w :
  fibersOn uid (alter (λ r, mkRef (fr_grantUID r) (fr_sessionKey r) (fr_fence r) w) id F) = fibersOn uid F.
Proof.
  destruct (F !! id) as [r|] eqn:E; [|by rewrite alter_id by congruence].
  rewrite (fibersOn_leave uid F id r E), <- (insert_id F id r E) at 1. rewrite alter_insert_eq.
  rewrite <- insert_delete_eq. by rewrite fibersOn_join by apply lookup_delete_eq.
Qed.

Lemma reservedAt_swap a th i x y :
  th !! i = Some x →
  (if reserves a x then 1 else 0) + reservedAt a (<[i := y]> th) =
  (if reserves a y then 1 else 0) + reservedAt a th.
Proof. intros H. by apply (count_insert (λ _ x, reserves a x)). Qed.

Lemma reservedAt_start a th i y :
  th !! i = None → reservedAt a (<[i := y]> th) = (if reserves a y then 1 else 0) + reservedAt a th.
Proof. intros H. by apply (count_insert_new (λ _ x, reserves a x)). Qed.

Lemma reservedAt_end a th i x :
  th !! i = Some x → reservedAt a th = (if reserves a x then 1 else 0) + reservedAt a (delete i th).
Proof. intros H. by apply (count_delete (λ _ x, reserves a x)). Qed.

(** No clone in flight names an address not yet allocated. *)
Lemma reservedAt_fresh l th m :
  cap_inv (mkSys l th m) → reservedAt (l_next l) th = 0.
Proof.
  intros [_ Hn]. apply count_zero. intros i x Hx. destruct x as [| |act f ref session t|]; simpl; try done.
  specialize (Hn i act f ref session t Hx). simpl in Hn.
  rewrite (bool_decide_eq_false_2 (t_addr t = _)) by lia. apply andb_false_r.
Qed.

Definition addrs_ok (n : nat) (th : gmap nat thread) : Prop :=
  ∀ i act f ref session t, th !! i = Some (TFlight act f ref session t) → t_addr t < n.

Lemma addrs_ok_insert n th i x :
  addrs_ok n th → (∀ act f ref session t, x = TFlight act f ref session t → t_addr t < n) →
  addrs_ok n (<[i := x]> th).
Proof. intros H Hx j act f ref session t [[_ ->]|[_ Hj]]%lookup_insert_Some; eauto. Qed.

Lemma addrs_ok_delete n th i : addrs_ok n th → addrs_ok n (delete i th).
Proof. intros H j act f ref session t [_ Hj]%lookup_delete_Some; eauto. Qed.

(** A step that moves no entry, no fiber and no reservation. *)
Lemma cap_inv_frame l l' th th' m m' :
  l_heap l' = l_heap l → l_grants l' = l_grants l → l_next l' = l_next l →
  (∀ uid, fibersOn uid (l_fibers l') = fibersOn uid (l_fibers l)) →
  (∀ a, reservedAt a th' = reservedAt a th) → (addrs_ok (l_next l) th → addrs_ok (l_next l) th') →
  cap_inv (mkSys l th m) → cap_inv (mkSys l' th' m').
Proof.
  intros E1 E2 E3 HF HR HA [Hc Hn]. split; simpl in *.
  - intros uid a e. rewrite (entryOf_same l l') by done. intros H%Hc.
    unfold entry_cap in *. by rewrite HF, HR.
  - rewrite E3. by apply HA.
Qed.

(** *** One lemma per operation that moves a slot *)

Lemma cap_inv_admit g l th m :
  ledger_wf l → quiet_admit g l → cap_inv (mkSys l th m) → cap_inv (mkSys (AdmitGrant g l) th m).
Proof.
  intros Hwf Hq Hcap. pose proof (reservedAt_fresh _ _ _ Hcap) as Hfresh. destruct Hcap as [Hc Hn].
  unfold quiet_admit in Hq. unfold AdmitGrant. destruct (entryOf l (UID g)) as [[a e]|] eqn:E; split; simpl in *.
  - intros uid a' e'. rewrite (entryOf_set_heap l (UID g) a e) by done.
    case_decide as Hu; [|by apply Hc]. intros [= <- <-]. subst uid.
    destruct (Hc _ _ _ E) as [Hl Hm]. apply changesFixedFields_keeps in Hq as (_&_&_&HFM&_).
    split; simpl; [done|]. by rewrite HFM.
  - done.
  - intros uid a e. unfold entryOf. simpl. destruct (decide (UID g = uid)) as [<-|Hne].
    + rewrite lookup_insert_eq. simpl. rewrite lookup_insert_eq. simpl. intros [= <- <-].
      split; simpl; [|lia]. by rewrite Hq, Hfresh.
    + rewrite lookup_insert_ne by done. destruct (l_grants l !! uid) as [a'|] eqn:Eg; [|done]. simpl.
      destruct (wf_grant l Hwf _ _ Eg) as (e' & He' & _). pose proof (wf_next l Hwf _ _ He').
      rewrite lookup_insert_ne by lia. rewrite He'. intros [= <- <-]. apply Hc. by apply entryOf_Some.
  - intros i act f ref session t Hi. specialize (Hn _ _ _ _ _ _ Hi). lia.
Qed.

Lemma cap_inv_revoke uid l th m : cap_inv (mkSys l th m) → cap_inv (mkSys (RevokeGrant uid l) th m).
Proof.
  intros [Hc Hn]. split; simpl in *; [|done]. intros uid' a e [H1 H2]%entryOf_Some. simpl in *.
  apply lookup_delete_Some in H1 as [_ H1]. apply Hc. by apply entryOf_Some.
Qed.

(** A fiber leaves: its slot comes back to the grant, if it is admitted. *)
Lemma cap_inv_leave l l' th m id r :
  ledger_wf l → l_fibers l !! id = Some r →
  l_heap l' = l_heap (freeSlot (fr_grantUID r) l) → l_grants l' = l_grants l → l_next l' = l_next l →
  l_fibers l' = delete id (l_fibers l) →
  cap_inv (mkSys l th m) → cap_inv (mkSys l' th m).
Proof.
  intros Hwf Hr E1 E2 E3 EF [Hc Hn]. split; simpl in *; [|by rewrite E3].
  intros uid a e. rewrite (entryOf_same (freeSlot (fr_grantUID r) l) l' uid), EF; [|done|].
  2: { rewrite E2. unfold freeSlot. by repeat case_match. }
  pose proof (fibersOn_leave uid _ _ _ Hr) as HF. unfold freeSlot.
  destruct (entryOf l (fr_grantUID r)) as [[a0 e0]|] eqn:E0.
  - rewrite (entryOf_set_heap l (fr_grantUID r) a0 e0) by done.
    destruct (decide (uid = fr_grantUID r)) as [Hu|Hu].
    + subst uid. intros [= <- <-]. destruct (Hc _ _ _ E0) as [Hl Hm].
      rewrite bool_decide_eq_true_2 in HF by done. split; simpl; [|intros; specialize (Hm ltac:(done)); lia]. lia.
    + rewrite bool_decide_eq_false_2 in HF by congruence. simpl in HF. intros H%Hc.
      unfold entry_cap in *. by rewrite <- HF.
  - intros H. rewrite bool_decide_eq_false_2 in HF by congruence. simpl in HF. apply Hc in H.
    unfold entry_cap in *. by rewrite <- HF.
Qed.

Lemma freeSlot_set_fibers uid F l : freeSlot uid (set_fibers F l) = set_fibers F (freeSlot uid l).
Proof. unfold freeSlot. change (entryOf (set_fibers F l) uid) with (entryOf l uid). by repeat case_match. Qed.

Lemma freeSlot_grants uid l :
  l_grants (freeSlot uid l) = l_grants l ∧ l_next (freeSlot uid l) = l_next l.
Proof. unfold freeSlot. by repeat case_match. Qed.

Lemma cap_inv_park id ref l th m :
  ledger_wf l → cap_inv (mkSys l th m) → cap_inv (mkSys (OnPark id ref l).2 th m).
Proof.
  intros Hwf Hc. destruct (l_fibers l !! id) as [r|] eqn:Hr; [|unfold OnPark; by rewrite Hr].
  refine (cap_inv_leave l _ th m id r Hwf Hr _ _ _ _ Hc); [..|by apply (OnPark_maps id ref l r Hr)].
  all: unfold OnPark; rewrite Hr, freeSlot_set_fibers; simpl; repeat case_match; simpl;
    by rewrite ?(proj1 (freeSlot_grants _ l)), ?(proj2 (freeSlot_grants _ l)).
Qed.

Lemma cap_inv_gone id l th m :
  ledger_wf l → cap_inv (mkSys l th m) → cap_inv (mkSys (onGone id l).2 th m).
Proof.
  intros Hwf Hc. destruct (l_fibers l !! id) as [r|] eqn:Hr; [|unfold onGone; by rewrite Hr].
  refine (cap_inv_leave l _ th m id r Hwf Hr _ _ _ _ Hc); [..|by apply (onGone_maps id l r Hr)].
  all: unfold onGone; rewrite Hr, freeSlot_set_fibers; simpl; repeat case_match; simpl;
    by rewrite ?(proj1 (freeSlot_grants _ l)), ?(proj2 (freeSlot_grants _ l)).
Qed.

(** A resolve takes one slot and holds one reservation. *)
Lemma cap_inv_resolve now uid session tier act f ref t l l' i th m m' :
  ledger_wf l → resolveHeld now uid session tier l = (Resolved act f ref t, l') →
  (∀ x a, th !! i = Some x → reserves a x = false) →
  cap_inv (mkSys l th m) → cap_inv (mkSys l' (<[i := TFlight act f ref session t]> th) m').
Proof.
  intros Hwf Hr Hi [Hc Hn]. apply resolveHeld_inv in Hr as (a & e & He & _ & _ & -> & Hact).
  assert (∀ a', reservedAt a' (<[i := TFlight act f ref session
      (mkTicket a uid (sessionKey uid session) (bool_decide (act ≠ ActAttach)) false)]> th) =
    (if bool_decide (act ≠ ActAttach) && (a ==? a') then 1 else 0) + reservedAt a' th) as HR.
  { intros a'. destruct (th !! i) as [x|] eqn:Ei.
    - pose proof (reservedAt_swap a' th i x (TFlight act f ref session
        (mkTicket a uid (sessionKey uid session) (bool_decide (act ≠ ActAttach)) false)) Ei) as Hs.
      rewrite (Hi x a' eq_refl) in Hs. simpl in Hs. rewrite andb_true_r in Hs. exact Hs.
    - rewrite reservedAt_start by done. simpl. by rewrite andb_true_r. }
  assert (a < l_next l) as Ha. { apply entryOf_Some in He as [_ He]. by eapply wf_next. }
  destruct (decide (act = ActAttach)) as [->|Hna].
  - destruct Hact as (-> & _). split; simpl in *.
    + intros uid' a' e' H%Hc. unfold entry_cap. by rewrite HR.
    + apply addrs_ok_insert; [done|]. by intros ????? [= <- <- <- <- <-].
  - assert (l' = set_heap (<[a := entry_mint (entry_live 1 e)]> (l_heap l)) l ∧
      ((0 < FiberMax (ge_grant e))%Z → (ge_live e < FiberMax (ge_grant e))%Z)) as [-> Hroom].
    { destruct act; [|done|]; destruct Hact as (? & _ & ? & _); done. }
    clear Hact. rewrite bool_decide_eq_true_2 in HR by done. simpl in HR. split; simpl in *.
    + intros uid' a' e'. rewrite (entryOf_set_heap l uid a e) by done.
      destruct (decide (uid' = uid)) as [->|Hne].
      * intros [= <- <-]. destruct (Hc _ _ _ He) as [Hl Hm].
        split; simpl; [|intros; specialize (Hroom ltac:(done)); lia].
        rewrite bool_decide_eq_true_2 by done. rewrite HR, bool_decide_eq_true_2 by done. lia.
      * intros H. specialize (Hc _ _ _ H). unfold entry_cap in *.
        rewrite (bool_decide_eq_true_2 (act ≠ ActAttach)) by done.
        rewrite HR, bool_decide_eq_false_2; [done|]. intros <-.
        by destruct (entryOf_inj l uid uid' a e e' Hwf He H).
    + apply addrs_ok_insert; [done|]. by intros ????? [= <- <- <- <- <-].
Qed.

(** A commit turns the reservation into a fiber. *)
Lemma cap_inv_commit act f ref session t refuse h ok t' l l' i th m :
  ledger_wf l → th !! i = Some (TFlight act f ref session t) → t_reserved t = true → t_committed t = false →
  HID h = Fence_String f → l_fibers l !! Fence_String f = None →
  commit refuse t (flightSession f ref session (t_uid t) h) l = (ok, t', l') →
  cap_inv (mkSys l th m) → cap_inv (mkSys l' (<[i := TFlight act f ref session t']> th) m).
Proof.
  intros Hwf Hi Hres Hunc Hid Hnone Hcm Hcap.
  destruct ok; [|apply commit_false in Hcm as [-> ->]; by rewrite insert_id].
  apply commit_true in Hcm as (Hg&_&_&->&E1&E2&E3&_&_&_&EF&_). simpl in *.
  rewrite Hid, bool_decide_eq_false_2 in EF by apply Fence_String_ne. simpl in EF.
  destruct Hcap as [Hc Hn]. split; simpl in *.
  - intros uid a e. rewrite (entryOf_same l l') by done. intros H. destruct (Hc _ _ _ H) as [Hl Hm].
    split; [|done]. rewrite Hl, EF, (fibersOn_join _ _ _ _ Hnone). simpl.
    pose proof (reservedAt_swap a th i _ (TFlight act f ref session
      (mkTicket (t_addr t) (t_uid t) (t_key t) (t_reserved t) true)) Hi) as Hs.
    simpl in Hs. rewrite Hres, Hunc in Hs. simpl in Hs. rewrite Hres.
    assert (t_uid t = uid ↔ t_addr t = a) as Hiff.
    { apply entryOf_Some in H as [H1 H2]. split; [intros <-; congruence|].
      intros <-. destruct (wf_grant l Hwf _ _ H1) as (? & ? & <-), (wf_grant l Hwf _ _ Hg) as (? & ? & <-).
      congruence. }
    rewrite (bool_decide_ext _ _ Hiff). lia.
  - rewrite E3. apply addrs_ok_insert; [done|]. intros ????? [= <- <- <- <- <-]. simpl. by eapply Hn.
Qed.

(** An unlock returns the reservation of a clone that did not commit. *)
Lemma cap_inv_finish act f ref session t l i th m (th' : gmap nat thread) :
  th !! i = Some (TFlight act f ref session t) →
  th' = delete i th ∨ (∃ x, th' = <[i := x]> th ∧ is_flight x = false) →
  cap_inv (mkSys l th m) → cap_inv (mkSys (unlock t l) th' m).
Proof.
  intros Hi Hth [Hc Hn]. set (h := t_reserved t && negb (t_committed t)).
  assert (∀ a, (if h && (t_addr t ==? a) then 1 else 0) + reservedAt a th' = reservedAt a th) as HR.
  { intros a. destruct Hth as [->|(x & -> & Hx)].
    - symmetry. exact (reservedAt_end a th i _ Hi).
    - pose proof (reservedAt_swap a th i _ x Hi) as Hs. destruct x; try done; exact Hs. }
  split; simpl in *.
  - intros uid a e. unfold unlock. fold h. destruct h; simpl in HR.
    + intros [H1 H2]%entryOf_Some. simpl in *. apply lookup_alter_Some in H2 as [(<- & e0 & He & ->)|[Hne He]].
      * destruct (Hc uid (t_addr t) e0) as [Hl Hm]; [by apply entryOf_Some|].
        specialize (HR (t_addr t)). rewrite bool_decide_eq_true_2 in HR by done.
        split; simpl; [lia|]. intros Hp. specialize (Hm Hp). lia.
      * destruct (Hc uid a e) as [Hl Hm]; [by apply entryOf_Some|].
        specialize (HR a). rewrite bool_decide_eq_false_2 in HR by done. split; [|done]. lia.
    + intros H%Hc. unfold entry_cap in *. by rewrite (HR a : _ = _).
  - assert (l_next (unlock t l) = l_next l) as -> by (unfold unlock; by case_match).
    destruct Hth as [->|(x & -> & Hx)]; [by apply addrs_ok_delete|].
    apply addrs_ok_insert; [done|]. by intros ????? ->.
Qed.

Lemma gate_frame l :
  (∀ k, l_heap (gateUnlock k l) = l_heap l ∧ l_grants (gateUnlock k l) = l_grants l ∧ l_next (gateUnlock k l) = l_next l) ∧
  (∀ k, l_heap (gateDrop k l) = l_heap l ∧ l_grants (gateDrop k l) = l_grants l ∧ l_next (gateDrop k l) = l_next l) ∧
  (∀ k l', gateLock k l = Some l' → l_heap l' = l_heap l ∧ l_grants l' = l_grants l ∧ l_next l' = l_next l ∧ l_fibers l' = l_fibers l).
Proof. unfold gateUnlock, gateDrop, gateLock. split_and!; intros; case_all; done. Qed.

(** A thread that holds no reservation is replaced by another such. *)
Lemma reservedAt_idle a th i x y :
  th !! i = Some x → is_flight x = false → is_flight y = false →
  reservedAt a (<[i := y]> th) = reservedAt a th.
Proof.
  intros Hi Hx Hy. pose proof (reservedAt_swap a th i x y Hi). by destruct x, y.
Qed.

Lemma addrs_ok_idle n th i y : is_flight y = false → addrs_ok n th → addrs_ok n (<[i := y]> th).
Proof. intros Hy H. apply addrs_ok_insert; [done|]. by intros ????? ->. Qed.

Lemma cap_inv_step s s' :
  step quiet_admit s s' → ledger_inv s → cap_inv s → cap_inv s'.
Proof.
  intros Hstep (Hg & Hf & Hl) Hc. pose proof (fi_wf _ Hf) as Hwf. destruct Hstep; simpl in Hwf.
  - by apply cap_inv_admit.
  - by apply cap_inv_revoke.
  - revert Hc. unfold LBumpEpoch. case_match; [|done]. by apply cap_inv_frame.
  - revert Hc. apply cap_inv_frame; try done; [|by apply addrs_ok_idle]. intros a. by rewrite reservedAt_start.
  - destruct (proj2 (proj2 (gate_frame l)) _ _ H0) as (? & ? & ? & HF). revert Hc.
    apply cap_inv_frame; try done; [by intros; rewrite HF| |by apply addrs_ok_idle].
    intros a. by eapply reservedAt_idle.
  - eapply cap_inv_resolve; [done..| |done]. intros x a Hx. by simplify_eq.
  - eapply cap_inv_resolve; [done..| |done]. intros x a Hx. by simplify_eq.
  - destruct (fl_ok _ _ _ _ (proj2 Hl) _ _ _ _ _ _ H H0) as (? & ? & ? & Hu).
    eapply cap_inv_commit; try done. by apply Hu.
  - eapply cap_inv_finish; [done| |done]. case_bool_decide; [by left|right; by eexists].
  - revert Hc. apply cap_inv_frame; [apply gate_frame..| | |by apply addrs_ok_idle].
    + intros. by autorewrite with ledger.
    + intros a. by eapply reservedAt_idle.
  - revert Hc. apply cap_inv_frame; [apply gate_frame..| | |by apply addrs_ok_delete].
    + intros. by autorewrite with ledger.
    + intros a. by rewrite (reservedAt_end a th i _ H).
  - revert Hc. unfold ForgetSession. repeat case_match; try done; by apply cap_inv_frame.
  - revert Hc. unfold restoreParked. repeat case_match; try done; by apply cap_inv_frame.
  - by apply cap_inv_park.
  - by apply cap_inv_gone.
  - revert Hc. apply cap_inv_frame; try done. intros. apply fibersOn_setW.
  - unfold SetPooled. destruct (entryOf l uid) as [[a e]|] eqn:E; [|done]. case_match; [done|].
    destruct Hc as [Hc Hn]. split; simpl in *; [|done]. intros uid' a' e'.
    rewrite (entryOf_set_heap l uid a e) by done. destruct (decide (uid' = uid)) as [->|]; [|by apply Hc].
    intros [= <- <-]. by apply Hc in E.
Qed.

Lemma cap_inv_init e : cap_inv (init e).
Proof.
  split; simpl.
  - intros uid a x. unfold entryOf. simpl. by rewrite lookup_empty.
  - intros i act f ref session t. by rewrite lookup_empty.
Qed.

Lemma reachable_cap epoch s :
  reachable quiet_admit epoch s → (N.of_nat (length (minted s)) ≤ U64.max)%N → cap_inv s.
Proof.
  intros Hr Hlen. eapply (reachable_ind quiet_admit epoch cap_inv); [apply cap_inv_init| |done..].
  intros x x' Hi _ Hc Hs. by eapply cap_inv_step.
Qed.

(** C2: capacity.  In every interleaving of clones, parks, releases, exits,
    revocations, refreshes and epoch bumps, as long as a revoked grant is
    admitted again only once none of its fibers runs, the running fibers of an
    admitted grant plus its clones in flight never exceed [fibers.max], and
    the [Running] count the ledger reports is exactly that sum. *)
Theorem capacity_respected epoch s uid a e :
  reachable quiet_admit epoch s → (N.of_nat (length (minted s)) ≤ U64.max)%N →
  entryOf (led s) uid = Some (a, e) →
  ge_live e = Z.of_nat (fibersOn uid (l_fibers (led s)) + reservedAt a (thr s)) ∧
  ((0 < FiberMax (ge_grant e))%Z →
     (Z.of_nat (fibersOn uid (l_fibers (led s)) + reservedAt a (thr s)) ≤ FiberMax (ge_grant e))%Z).
Proof.
  intros Hr Hlen He. destruct (reachable_cap _ _ Hr Hlen) as [Hc _].
  destruct (Hc _ _ _ He) as [Hl Hm]. split; [done|]. intros Hp. rewrite <- Hl. auto.
Qed.

(** ** A run: one named clone, from the delivery of its grant to its commit *)

Definition demo_f : Fence := mkFence "g-1" 1 1.
Definition demo_t : ticket := mkTicket 0 "g-1" "g-1/s" true false.
Definition demo_h : FiberHandle := mkHandle "g-1/1/1" "10.0.0.2:80" false.
Definition demo_l1 : Ledger := gateEnter "g-1/s" (AdmitGrant sampleGrant (NewLedger 1)).
Definition demo_l2 : Ledger := default demo_l1 (gateLock "g-1/s" demo_l1).
Definition demo_l3 : Ledger := (resolveHeld 0%Z "g-1" "s" TierWarm demo_l2).2.
Definition demo_l4 : Ledger := (commit false demo_t (flightSession demo_f "" "s" "g-1" demo_h) demo_l3).2.
Definition demo_sys : sys :=
  mkSys demo_l4 (<[0 := TFlight ActCreate demo_f "" "s" (mkTicket 0 "g-1" "g-1/s" true true)]>
    (<[0 := TFlight ActCreate demo_f "" "s" demo_t]> (<[0 := THold "g-1" "s"]> (<[0 := TWait "g-1" "s"]> ∅)))) [demo_f].

Lemma demo_reachable Adm :
  Adm sampleGrant (NewLedger 1) → reachable Adm 1 demo_sys.
Proof.
  intros HA. unfold reachable, init.
  eapply rtc_l; [by apply (step_admit Adm sampleGrant)|].
  eapply rtc_l; [by apply (step_enter Adm 0 "g-1" "s")|].
  eapply rtc_l. { apply (step_lock Adm 0 "g-1" "s") with (l' := demo_l2); vm_compute; reflexivity. }
  eapply rtc_l. { apply (step_resolve Adm 0 "g-1" "s" 0%Z TierWarm ActCreate demo_f "" demo_t demo_l2 demo_l3); vm_compute; reflexivity. }
  eapply rtc_l; [|reflexivity].
  apply (step_commit Adm 0 ActCreate demo_f "" "s" demo_t false demo_h true); try done; vm_compute; reflexivity.
Qed.

Lemma capacity_respected_witness :
  fibersOn "g-1" (l_fibers (led demo_sys)) = 1 ∧
  (Z.of_nat (fibersOn "g-1" (l_fibers (led demo_sys)) + reservedAt 0 (thr demo_sys)) ≤ 2)%Z.
Proof.
  split; [vm_compute; reflexivity|].
  refine (proj2 (capacity_respected 1 demo_sys "g-1" 0
    (mkEntry sampleGrant 1 1 0) (demo_reachable quiet_admit _) _ _) _); vm_compute; try reflexivity; congruence.
Defined.

(** ** Re-admission while fibers of the old incarnation still run *)

Definition oneFiberGrant : Grant :=
  mkGrant "g-1" "https://issuer" "home-a" "sha256:conform" "team-a" 1 0 (64 * 2 ^ 20) TierWarm
    (1000 * Time.Second)%Z (mkPolicy Sync "" "" F64.zero F64.zero Trusted EndpointDirect)
    (mkDeviceBudget 0 "") 0 "" "tok".

(** One anonymous clone, resolved and committed, then unlocked. *)
Definition anon_clone (l : Ledger) : Ledger :=
  match resolveHeld 0%Z "g-1" "" TierWarm l with
  | (Resolved act f ref t, l1) =>
      let '(_, t', l2) := commit false t (flightSession f ref "" "g-1" (mkHandle (Fence_String f) "" false)) l1 in
      unlock t' l2
  | (_, l1) => l1
  end.

Lemma anon_clone_steps Adm act f ref t t' l l1 l2 th m :
  th !! 0 = None →
  resolveHeld 0%Z "g-1" "" TierWarm l = (Resolved act f ref t, l1) → act ≠ ActAttach →
  t_committed t = false → t_uid t = "g-1" →
  commit false t (flightSession f ref "" "g-1" (mkHandle (Fence_String f) "" false)) l1 = (true, t', l2) →
  rtc (step Adm) (mkSys l th m) (mkSys (unlock t' l2) th (f :: m)).
Proof.
  intros Hi Hr Ha Hc Hu Hcm. rewrite <- Hu in Hcm.
  eapply rtc_l; [by eapply (step_resolve_anon Adm 0)|].
  eapply rtc_l; [eapply (step_commit Adm 0 act f ref "" t false (mkHandle (Fence_String f) "" false)); [apply lookup_insert_eq|done..|exact Hcm]|].
  eapply rtc_l; [eapply (step_finish Adm 0); apply lookup_insert_eq|].
  rewrite bool_decide_eq_true_2, delete_insert_eq, delete_insert_id by done.
  by destruct act.
Qed.

Definition readmitted : Ledger :=
  anon_clone (onGone "g-1/1/1" (anon_clone (AdmitGrant oneFiberGrant
    (RevokeGrant "g-1" (anon_clone (AdmitGrant oneFiberGrant (NewLedger 1))))))).2.

(** The capacity bound needs the quiet re-admission.  [onGone] frees the
    slot by UID: a grant with [fibers.max] 1 that is revoked and delivered
    again before the release of its first fiber lands counts that release
    against the new entry, and the new incarnation then runs two fibers. *)
Theorem readmission_overshoots :
  ∃ s, reachable (λ g _, Validate g = []) 1 s ∧
    ∃ a e, entryOf (led s) "g-1" = Some (a, e) ∧ FiberMax (ge_grant e) = 1%Z ∧
      fibersOn "g-1" (l_fibers (led s)) = 2 ∧ ge_live e = 1%Z.
Proof.
  exists (mkSys readmitted ∅ [mkFence "g-1" 1 3; mkFence "g-1" 1 2; mkFence "g-1" 1 1]). split.
  - unfold reachable, init.
    eapply rtc_l; [apply (step_admit _ oneFiberGrant); vm_compute; reflexivity|].
    etrans; [eapply anon_clone_steps; [done|vm_compute; reflexivity|done|done|done|vm_compute; reflexivity]|].
    eapply rtc_l; [apply (step_revoke _ "g-1")|].
    eapply rtc_l; [apply (step_admit _ oneFiberGrant); vm_compute; reflexivity|].
    etrans; [eapply anon_clone_steps; [done|vm_compute; reflexivity|done|done|done|vm_compute; reflexivity]|].
    eapply rtc_l; [apply (step_gone _ "g-1/1/1")|].
    etrans; [eapply anon_clone_steps; [done|vm_compute; reflexivity|done|done|done|vm_compute; reflexivity]|].
    match goal with |- rtc _ ?x ?y => replace x with y by (vm_compute; reflexivity) end. reflexivity.
  - exists 1, (mkEntry oneFiberGrant 3 1 0). split_and!; vm_compute; reflexivity.
Qed.

(** ** Fences and sessions *)

(** C8: fencing.  Whatever the home delivers, revokes or bumps, in any
    interleaving, the fences minted under one grant are strictly newer the
    later they are minted, across re-admissions and epochs, none is minted
    twice, and every running fiber is named by the one it was minted. *)
Theorem fences_strictly_newer Adm epoch s :
  reachable Adm epoch s → (N.of_nat (length (minted s)) ≤ U64.max)%N →
  StronglySorted newer_on_grant (minted s) ∧ NoDup (minted s) ∧
  ∀ id r, l_fibers (led s) !! id = Some r → id = Fence_String (fr_fence r) ∧ fr_fence r ∈ minted s.
Proof.
  intros Hr Hlen. destruct (reachable_inv _ _ _ Hr Hlen) as (_ & Hf & [Hm _]).
  pose proof (fi_sorted _ Hf) as Hs. split_and!; [done| |].
  - clear -Hs. induction Hs as [|f m Hs IH Hall]; constructor; [|done].
    rewrite Forall_forall in Hall. intros Hin%Hall. specialize (Hin eq_refl). unfold Newer in Hin.
    rewrite !bool_decide_eq_true_2 in Hin by done. apply N.ltb_lt in Hin. lia.
  - intros id r H. by destruct (mo_id _ _ _ Hm _ _ H) as (? & ? & _).
Qed.

Lemma fences_strictly_newer_witness : NoDup (minted demo_sys).
Proof.
  apply (fences_strictly_newer (λ _ _, True) 1 demo_sys);
    [by apply demo_reachable|vm_compute; congruence].
Defined.

(** C3: a session runs at most once.  Two fibers of one session are one
    fiber, and the session it names is running on it; a running session has
    its fiber.  The gate a clone holds from its resolve to its commit is what
    makes it so. *)
Theorem session_runs_once Adm epoch s :
  reachable Adm epoch s → (N.of_nat (length (minted s)) ≤ U64.max)%N →
  (∀ id id' r r', l_fibers (led s) !! id = Some r → l_fibers (led s) !! id' = Some r' →
     fr_sessionKey r = fr_sessionKey r' → fr_sessionKey r ≠ "" → id = id') ∧
  (∀ k id, running (l_sessions (led s)) k id ↔
     k ≠ "" ∧ ∃ r, l_fibers (led s) !! id = Some r ∧ fr_sessionKey r = k).
Proof.
  intros Hr Hlen. destruct (reachable_inv _ _ _ Hr Hlen) as (_ & _ & [Hm _]). split.
  - intros. by eapply maps_ok_unique.
  - intros k id. split; [apply (mo_back _ _ _ Hm)|]. intros (Hk & r & Hr' & <-). by apply (mo_run _ _ _ Hm).
Qed.

Lemma session_runs_once_witness :
  running (l_sessions (led demo_sys)) "g-1/s" "g-1/1/1".
Proof.
  refine (proj2 (proj2 (session_runs_once (λ _ _, True) 1 demo_sys _ _) "g-1/s" "g-1/1/1") _).
  - by apply demo_reachable.
  - vm_compute; congruence.
  - split; [done|]. eexists. split; [vm_compute; reflexivity|reflexivity].
Defined.

(** ** Sealing *)

(** A fiber the ledger did not know before a step was committed in it, under
    an admitted grant and at the ledger's epoch. *)
Lemma step_new_fiber Adm s s' id r :
  step Adm s s' → l_fibers (led s') !! id = Some r →
  (∃ r0, l_fibers (led s) !! id = Some r0 ∧ fr_grantUID r0 = fr_grantUID r ∧ fr_fence r0 = fr_fence r) ∨
  (is_Some (l_grants (led s) !! fr_grantUID r) ∧ Epoch (fr_fence r) = l_epoch (led s)).
Proof.
  intros Hs Hr. destruct Hs; simpl in *;
    autorewrite with ledger in Hr; try solve [left; by exists r].
  - left. exists r. split; [|done]. by rewrite <- (proj1 (maps_gateLock _ _ _ H0)).
  - left. exists r. split; [|done]. by rewrite <- (proj1 (maps_resolve _ _ _ _ _ _ _ H0)).
  - left. exists r. split; [|done]. by rewrite <- (proj1 (maps_resolve _ _ _ _ _ _ _ H0)).
  - destruct ok; [|apply commit_false in H3 as [-> ->]; left; by exists r].
    apply commit_true in H3 as (Hg&He&_&->&_&_&_&_&_&_&EF&_). simpl in *.
    rewrite EF in Hr. case_bool_decide; simpl in Hr; [left; by exists r|].
    apply lookup_insert_Some in Hr as [[<- <-]|[_ Hr]]; [right; simpl; eauto|left; by exists r].
  - left. exists r. split; [|done]. revert Hr. unfold ForgetSession. by repeat case_match.
  - left. exists r. split; [|done]. revert Hr. unfold restoreParked. by repeat case_match.
  - left. exists r. split; [|done]. destruct (l_fibers l !! id0) as [r1|] eqn:E.
    + rewrite (proj1 (OnPark_maps id0 ref l r1 E)) in Hr. by apply lookup_delete_Some in Hr as [_ ?].
    + revert Hr. unfold OnPark. by rewrite E.
  - left. exists r. split; [|done]. destruct (l_fibers l !! id0) as [r1|] eqn:E.
    + rewrite (proj1 (onGone_maps id0 l r1 E)) in Hr. by apply lookup_delete_Some in Hr as [_ ?].
    + revert Hr. unfold onGone. by rewrite E.
  - left. apply lookup_alter_Some in Hr as [(<- & r0 & ? & ->)|[_ ?]]; [by exists r0|by exists r].
Qed.

(** The grants map moves only by admission and revocation. *)
Lemma step_grants Adm s s' uid a :
  step Adm s s' → l_grants (led s') !! uid = Some a →
  l_grants (led s) !! uid = Some a ∨
  (∃ g, Adm g (led s) ∧ UID g = uid ∧ entryOf (led s) uid = None ∧ a = l_next (led s)).
Proof.
  intros Hs Ha. destruct Hs; simpl in *; try solve [by left].
  - unfold AdmitGrant in Ha. destruct (entryOf l (UID g)) as [[a' e']|] eqn:E; [by left|]. simpl in Ha.
    apply lookup_insert_Some in Ha as [[<- <-]|[_ ?]]; [right; eauto|by left].
  - apply lookup_delete_Some in Ha as [_ ?]. by left.
  - left. revert Ha. unfold LBumpEpoch. by case_match.
  - left. revert Ha. unfold gateLock in H0. by case_all.
  - left. revert Ha. apply resolveHeld_inv in H0 as (? & ? & _ & _ & _ & _ & Hx). destruct act; by destruct Hx as (-> & _).
  - left. revert Ha. apply resolveHeld_inv in H0 as (? & ? & _ & _ & _ & _ & Hx). destruct act; by destruct Hx as (-> & _).
  - left. revert Ha. destruct ok; [|by apply commit_false in H3 as [-> ->]].
    by apply commit_true in H3 as (_&_&_&_&_&->&_).
  - left. revert Ha. unfold unlock. by case_match.
  - left. revert Ha. unfold gateUnlock. by repeat case_match.
  - left. revert Ha. unfold gateDrop. by repeat case_match.
  - left. revert Ha. unfold ForgetSession. by repeat case_match.
  - left. revert Ha. unfold restoreParked. by repeat case_match.
  - left. revert Ha. unfold OnPark, freeSlot. by repeat case_match.
  - left. revert Ha. unfold onGone, freeSlot. by repeat case_match.
  - left. revert Ha. unfold SetPooled. by repeat case_match.
Qed.

(** C9: revocation seals.  From the instant a grant is revoked, and until the
    home delivers it again, no clone of it commits, however far it had got:
    every fiber of the grant that runs later ran already.  A clone asked for
    in that time is refused as unknown. *)
Theorem revoke_seals uid s s' :
  rtc (step (λ g _, UID g ≠ uid)) (mkSys (RevokeGrant uid (led s)) (thr s) (minted s)) s' →
  (∀ id r, l_fibers (led s') !! id = Some r → fr_grantUID r = uid →
     ∃ r0, l_fibers (led s) !! id = Some r0 ∧ fr_grantUID r0 = uid) ∧
  (∀ now session tier, resolveHeld now uid session tier (led s') = (ResolveErr ErrGrantUnknown, led s')).
Proof.
  intros Hr.
  assert (l_grants (led s') !! uid = None ∧ ∀ id r, l_fibers (led s') !! id = Some r → fr_grantUID r = uid →
     ∃ r0, l_fibers (led s) !! id = Some r0 ∧ fr_grantUID r0 = uid) as [Hg HF].
  { revert s' Hr. refine (rtc_ind_r _ _ _ _); simpl.
    - split; [apply lookup_delete_eq|]. eauto.
    - intros y z _ Hs [Hg HF]. split.
      + destruct (l_grants (led z) !! uid) as [a|] eqn:E; [|done].
        apply (step_grants _ _ _ _ _ Hs) in E as [E|(g & Hne & HU & _)]; congruence.
      + intros id r Hz HU. destruct (step_new_fiber _ _ _ _ _ Hs Hz) as [(r0 & H0 & E & _)|[[a Ha] _]].
        * apply (HF id r0 H0). congruence.
        * rewrite HU in Ha. congruence. }
  split; [done|]. intros now session tier. unfold resolveHeld, entryOf. by rewrite Hg.
Qed.

Lemma revoke_seals_witness :
  resolveHeld 0%Z "g-1" "t" TierWarm (RevokeGrant "g-1" (led demo_sys)) =
  (ResolveErr ErrGrantUnknown, RevokeGrant "g-1" (led demo_sys)).
Proof. apply (revoke_seals "g-1" demo_sys (mkSys (RevokeGrant "g-1" (led demo_sys)) (thr demo_sys) (minted demo_sys))). reflexivity. Defined.

Lemma step_epoch Adm s s' : step Adm s s' → (l_epoch (led s) ≤ l_epoch (led s'))%N.
Proof.
  intros Hs. destruct Hs; simpl; try done;
    first [ apply mints_nothing_ops | apply mints_nothing_gates | by eapply mints_nothing_gates
          | apply mints_nothing_sessions | apply mints_nothing_OnPark | apply mints_nothing_onGone
          | by eapply mints_nothing_commit | idtac ].
  all: apply resolveHeld_inv in H0 as (? & ? & _ & _ & _ & _ & Hx); destruct act; by destruct Hx as (-> & _).
Qed.

(** Over a run the epoch grows, and a fiber it adds is of the epoch it started
    at or a later one. *)
Lemma run_new_fiber Adm s s' :
  rtc (step Adm) s s' →
  (l_epoch (led s) ≤ l_epoch (led s'))%N ∧
  ∀ id r, l_fibers (led s') !! id = Some r →
    (∃ r0, l_fibers (led s) !! id = Some r0 ∧ fr_grantUID r0 = fr_grantUID r ∧ fr_fence r0 = fr_fence r) ∨
    (l_epoch (led s) ≤ Epoch (fr_fence r) ≤ l_epoch (led s'))%N.
Proof.
  revert s'. refine (rtc_ind_r _ _ _ _).
  - split; [done|]. intros id r Hr. left. by exists r.
  - intros y z _ Hs [He HF]. pose proof (step_epoch _ _ _ Hs). split; [lia|].
    intros id r Hz. destruct (step_new_fiber _ _ _ _ _ Hs Hz) as [(r0 & H0 & HU & <-)|[_ ->]]; [|right; lia].
    destruct (HF _ _ H0) as [(r1 & ? & ? & ?)|?]; [left; exists r1; by rewrite <- HU|right; lia].
Qed.

(** C10: an epoch bump seals.  Every fiber that is not in the ledger when the
    epoch is [e] and is in it later was fenced at [e] or after: a clone that
    resolved before the bump never commits after it. *)
Theorem bump_seals Adm s s' id r :
  rtc (step Adm) s s' → l_fibers (led s') !! id = Some r → l_fibers (led s) !! id = None →
  (l_epoch (led s) ≤ Epoch (fr_fence r) ≤ l_epoch (led s'))%N.
Proof.
  intros Hr Hid Hnone. destruct (run_new_fiber _ _ _ Hr) as [_ HF].
  destruct (HF _ _ Hid) as [(r0 & ? & _)|?]; [congruence|done].
Qed.

Lemma bump_seals_witness : (1 ≤ Epoch demo_f ≤ 1)%N.
Proof.
  apply (bump_seals (λ _ _, True) (init 1) demo_sys "g-1/1/1" (mkRef "g-1" "g-1/s" demo_f 0)).
  - by apply demo_reachable.
  - vm_compute; reflexivity.
  - vm_compute; reflexivity.
Defined.

(** An address no UID maps to any more is never mapped to again. *)
Definition dead (a : nat) (l : Ledger) : Prop := a < l_next l ∧ ∀ uid, l_grants l !! uid ≠ Some a.

Lemma step_next Adm s s' : step Adm s s' → l_next (led s) ≤ l_next (led s').
Proof.
  intros Hs. destruct Hs; simpl; try done.
  all: try solve [unfold AdmitGrant, LBumpEpoch, ForgetSession, restoreParked, OnPark, onGone, freeSlot, unlock,
    gateUnlock, gateDrop, SetPooled; repeat case_match; simpl; lia].
  - unfold gateLock in H0. by case_all.
  - apply resolveHeld_inv in H0 as (? & ? & _ & _ & _ & _ & Hx). destruct act; by destruct Hx as (-> & _).
  - apply resolveHeld_inv in H0 as (? & ? & _ & _ & _ & _ & Hx). destruct act; by destruct Hx as (-> & _).
  - destruct ok; [|by apply commit_false in H3 as [-> ->]]. by apply commit_true in H3 as (_&_&_&_&_&_&->&_).
Qed.

Lemma dead_step Adm s s' a : step Adm s s' → dead a (led s) → dead a (led s').
Proof.
  intros Hs [Hn Hd]. split; [pose proof (step_next _ _ _ Hs); lia|].
  intros uid Ha. destruct (step_grants _ _ _ _ _ Hs Ha) as [?|(_ & _ & _ & _ & ?)]; [by eapply Hd|lia].
Qed.

(** C7: a reservation dies with its grant.  A clone that resolved under an
    incarnation a revocation then ended is refused at commit at every later
    point, however often the grant has been delivered again: the entry is
    compared by identity, not by UID. *)
Theorem stale_ticket_never_commits Adm s s' uid t refuse x :
  ledger_wf (led s) → l_grants (led s) !! uid = Some (t_addr t) →
  rtc (step Adm) (mkSys (RevokeGrant uid (led s)) (thr s) (minted s)) s' →
  commit refuse t x (led s') = (false, t, led s').
Proof.
  intros Hwf Ha Hr. assert (dead (t_addr t) (led s')) as [_ Hd].
  { revert s' Hr. refine (rtc_ind_r _ _ _ _); simpl.
    - destruct (wf_grant _ Hwf _ _ Ha) as (e & He & HU). split; [exact (wf_next _ Hwf _ _ He)|].
      simpl. intros uid' [Hne H']%lookup_delete_Some. destruct (wf_grant _ Hwf _ _ H') as (e' & ? & ?). congruence.
    - intros y z _ Hs Hd. by eapply dead_step. }
  unfold commit. by rewrite (bool_decide_eq_false_2 _ (Hd (t_uid t))).
Qed.

Lemma stale_ticket_never_commits_witness :
  (commit false demo_t (flightSession demo_f "" "s" "g-1" demo_h)
    (AdmitGrant sampleGrant (RevokeGrant "g-1" demo_l3))).1.1 = false.
Proof.
  rewrite (stale_ticket_never_commits (λ _ _, True) (mkSys demo_l3 ∅ []) (mkSys (AdmitGrant sampleGrant (RevokeGrant "g-1" demo_l3)) ∅ []) "g-1").
  - reflexivity.
  - simpl. eapply wf_resolveHeld; [|apply surjective_pairing].
    assert (gateLock "g-1/s" demo_l1 = Some demo_l2) as E by (vm_compute; reflexivity).
    eapply wf_gateLock; [exact E|]. apply wf_gateEnter, wf_AdmitGrant, wf_NewLedger.
  - vm_compute; reflexivity.
  - eapply rtc_l; [by apply (step_admit _ sampleGrant)|]. reflexivity.
Defined.
