(* ===== verification/Revoked.v ===== *)
(** * The deny-list of removed grants (pkg/core/revoked.go)

    Its entries, the file it is saved to, and that a removed grant stays
    denied over restarts, failed writes and re-presented tokens. *)

From S2P Require Import Prelude GoLib Fence.
From stdpp Require Import options.

Section Revoked.
Context `{!JSON (gmap string Time.t)}.

(** [const DefaultRevokeTTL] *)
Definition DefaultRevokeTTL : Time.duration := (24 * Time.Hour)%Z.

(** [type Revoked struct] *)
Record Revoked := mkRevoked {
  rv_path : string;
  rv_ttl : Time.duration;
  rv_until : gmap string Time.t;   (** the zero time means never *)
}.

Definition set_until (m : gmap string Time.t) (r : Revoked) : Revoked := mkRevoked (rv_path r) (rv_ttl r) m.

(** [func outlasts(a, b time.Time) bool] *)
Definition outlasts (a b : Time.t) : bool :=
  negb (Time.IsZero b) && (Time.IsZero a || Time.After a b).

(** [func (r *Revoked) save() error], true for nil. *)
Definition rv_save (sys : sysOutcomes) (tmp part : string) (r : Revoked) (fs : FS) : bool * FS :=
  match Marshal (rv_until r) with
  | None => (false, fs)
  | Some b => writeFileAtomic sys tmp part (rv_path r) b fs
  end.

(** [func OpenRevoked(path string, ttl time.Duration, now time.Time) ( *Revoked, error)].
    [readable] is false when the file exists and does not read. *)
Definition OpenRevoked (path : string) (ttl : Time.duration) (now : Time.t) (readable : bool) (fs : FS)
    : option Revoked :=
  let ttl := if (ttl <=? 0)%Z then DefaultRevokeTTL else ttl in
  match fs !! path with
  | None => Some (mkRevoked path ttl ∅)
  | Some b =>
      if readable then
        match Unmarshal b with
        | None => None
        | Some until =>
            Some (mkRevoked path ttl
              (filter (λ kv, negb (negb (Time.IsZero kv.2) && negb (Time.Before now kv.2)) = true) until))
        end
      else None
  end.

(** [func (r *Revoked) Add(uid string, lease, now time.Time) error] *)
Definition rv_Add (sys : sysOutcomes) (tmp part : string) (uid : string) (lease now : Time.t)
    (r : Revoked) (fs : FS) : bool * Revoked * FS :=
  let until :=
    if negb (Time.IsZero lease) && Time.After (Time.Add now (rv_ttl r)) lease
    then Time.Add now (rv_ttl r) else lease in
  let r :=
    match rv_until r !! uid with
    | Some old => if outlasts until old then set_until (<[uid := until]> (rv_until r)) r else r
    | None => set_until (<[uid := until]> (rv_until r)) r
    end in
  let '(ok, fs) := rv_save sys tmp part r fs in
  (ok, r, fs).

(** [func (r *Revoked) Denied(uid string, lease, now time.Time) bool].  A save
    that fails is logged. *)
Definition rv_Denied (sys : sysOutcomes) (tmp part : string) (uid : string) (lease now : Time.t)
    (r : Revoked) (fs : FS) : bool * Revoked * FS :=
  match rv_until r !! uid with
  | None => (false, r, fs)
  | Some until =>
      if negb (Time.IsZero until) && negb (Time.Before now until) then
        let r := set_until (delete uid (rv_until r)) r in
        (false, r, (rv_save sys tmp part r fs).2)
      else if outlasts lease until then
        let r := set_until (<[uid := lease]> (rv_until r)) r in
        (true, r, (rv_save sys tmp part r fs).2)
      else (true, r, fs)
  end.

(** [func (r *Revoked) Clear(uid string) (bool, error)] *)
Definition rv_Clear (sys : sysOutcomes) (tmp part : string) (uid : string) (r : Revoked) (fs : FS)
    : (bool * bool) * Revoked * FS :=
  match rv_until r !! uid with
  | None => (false, true, r, fs)
  | Some _ =>
      let r := set_until (delete uid (rv_until r)) r in
      let '(ok, fs) := rv_save sys tmp part r fs in
      (true, ok, r, fs)
  end.

(** ** The order on denial ends *)

(** [end_] has not come: denial until [end_] is in force at [now]. *)
Definition in_force (end_ now : Time.t) : Prop := end_ = 0%Z ∨ (now < end_)%Z.

Lemma outlasts_false a b : outlasts a b = false ↔ b = 0%Z ∨ (a ≠ 0 ∧ a ≤ b)%Z.
Proof.
  unfold outlasts, Time.IsZero, Time.After. destruct (Z.eqb_spec b 0), (Z.eqb_spec a 0); simpl.
  1-2: naive_solver.
  - split; [done|lia].
  - rewrite Z.ltb_ge. naive_solver.
Qed.

Lemma outlasts_true a b : outlasts a b = true ↔ b ≠ 0%Z ∧ (a = 0 ∨ b < a)%Z.
Proof.
  unfold outlasts, Time.IsZero, Time.After. destruct (Z.eqb_spec b 0), (Z.eqb_spec a 0); simpl.
  1-2: naive_solver.
  - split; [auto|done].
  - rewrite Z.ltb_lt. naive_solver.
Qed.

(** The entry of [uid] runs at least until [end_]. *)
Definition covers (uid : string) (end_ : Time.t) (m : gmap string Time.t) : Prop :=
  ∃ u, m !! uid = Some u ∧ outlasts end_ u = false.

Lemma covers_in_force uid end_ now m u :
  covers uid end_ m → in_force end_ now → m !! uid = Some u →
  negb (Time.IsZero u) && negb (Time.Before now u) = false.
Proof.
  intros (u' & Hu' & Ho%outlasts_false) Hf Hu. rewrite Hu in Hu'. injection Hu' as <-. unfold Time.IsZero, Time.Before, in_force in *.
  destruct (Z.eqb_spec u 0); [done|]. destruct (Z.ltb_spec now u); [done|]. lia.
Qed.

Lemma covers_insert uid end_ uid' u m :
  (uid' = uid → outlasts end_ u = false) → covers uid end_ m → covers uid end_ (<[uid' := u]> m).
Proof.
  intros Hu (v & Hv & Ho). unfold covers. destruct (decide (uid' = uid)) as [->|].
  - exists u. rewrite lookup_insert_eq. auto.
  - exists v. by rewrite lookup_insert_ne.
Qed.

(** ** Every history of the list

    The process that holds the list, if one runs, and its directory. *)

Definition list_state : Type := option Revoked * FS.

(** What happens while a denial of [uid] until [end_] is in force: removals and
    presentations of any grant, the home lifting another grant's entry, crashes
    and restarts.  Any save may fail at any system call. *)
Inductive list_step (path uid : string) (end_ : Time.t) : list_state → list_state → Prop :=
| ls_add sys tmp part uid' lease now r fs ok r' fs' :
    tmp ≠ path → rv_Add sys tmp part uid' lease now r fs = (ok, r', fs') →
    list_step path uid end_ (Some r, fs) (Some r', fs')
| ls_denied sys tmp part uid' lease now r fs b r' fs' :
    tmp ≠ path → in_force end_ now → rv_Denied sys tmp part uid' lease now r fs = (b, r', fs') →
    list_step path uid end_ (Some r, fs) (Some r', fs')
| ls_clear sys tmp part uid' r fs res r' fs' :
    tmp ≠ path → uid' ≠ uid → rv_Clear sys tmp part uid' r fs = (res, r', fs') →
    list_step path uid end_ (Some r, fs) (Some r', fs')
| ls_crash r fs : list_step path uid end_ (Some r, fs) (None, fs)
| ls_boot ttl now readable fs :
    in_force end_ now →
    list_step path uid end_ (None, fs) (OpenRevoked path ttl now readable fs, fs).

Definition file_covers (path uid : string) (end_ : Time.t) (fs : FS) : Prop :=
  ∃ b m, fs !! path = Some b ∧ Unmarshal b = Some m ∧ covers uid end_ m.

Definition list_inv (path uid : string) (end_ : Time.t) (w : list_state) : Prop :=
  file_covers path uid end_ w.2 ∧
  ∀ r, w.1 = Some r → rv_path r = path ∧ covers uid end_ (rv_until r).

Lemma save_covers sys tmp part path uid end_ r fs :
  tmp ≠ path → rv_path r = path → covers uid end_ (rv_until r) →
  let '(ok, fs') := rv_save sys tmp part r fs in
  (ok = true → file_covers path uid end_ fs') ∧
  (file_covers path uid end_ fs → file_covers path uid end_ fs').
Proof.
  intros Ht <- Hc. unfold rv_save. destruct (Marshal (rv_until r)) as [b|] eqn:E; [|naive_solver].
  pose proof (writeFileAtomic_reads sys tmp part (rv_path r) b fs Ht) as H.
  destruct (writeFileAtomic _ _ _ _ _ _) as [ok fs']. destruct H as [H Hok].
  assert (fs' !! rv_path r = Some b → file_covers (rv_path r) uid end_ fs') as Hb.
  { intros. exists b, (rv_until r). split_and!; [done|by apply Unmarshal_Marshal|done]. }
  split; [auto|]. intros (b' & m & Hb' & Hm & Hcm). destruct H as [H|H]; [|auto].
  exists b', m. by rewrite H.
Qed.

Lemma list_inv_save sys tmp part path uid end_ r fs ok fs' :
  tmp ≠ path → rv_path r = path → covers uid end_ (rv_until r) → file_covers path uid end_ fs →
  rv_save sys tmp part r fs = (ok, fs') → list_inv path uid end_ (Some r, fs').
Proof.
  intros Ht Hp Hc Hf E. pose proof (save_covers sys tmp part path uid end_ r fs Ht Hp Hc) as H.
  rewrite E in H. split; simpl; [by apply H|]. by intros ? [= <-].
Qed.

Lemma list_inv_mem path uid end_ r fs :
  list_inv path uid end_ (Some r, fs) → rv_path r = path ∧ covers uid end_ (rv_until r) ∧ file_covers path uid end_ fs.
Proof. intros [Hf Hr]. destruct (Hr r eq_refl). done. Qed.

(** Extending an entry keeps what it covers. *)
Lemma covers_extend uid end_ uid' u old m :
  m !! uid' = Some old → outlasts u old = true → covers uid end_ m → covers uid end_ (<[uid' := u]> m).
Proof.
  intros Ho Hx Hc. apply covers_insert; [|done]. intros ->. destruct Hc as (v & Hv & Hvo). simplify_eq.
  apply outlasts_false in Hvo. apply outlasts_true in Hx. apply outlasts_false. lia.
Qed.

Lemma covers_delete uid end_ uid' m : uid' ≠ uid → covers uid end_ m → covers uid end_ (delete uid' m).
Proof. intros Hne (v & ? & ?). exists v. by rewrite lookup_delete_ne. Qed.

Lemma list_inv_Add sys tmp part path uid end_ uid' lease now r fs ok r' fs' :
  tmp ≠ path → rv_Add sys tmp part uid' lease now r fs = (ok, r', fs') →
  list_inv path uid end_ (Some r, fs) → list_inv path uid end_ (Some r', fs').
Proof.
  intros Ht E (Hp & Hc & Hf)%list_inv_mem. unfold rv_Add in E. cbv zeta in E.
  match type of E with context[rv_save _ _ _ ?x _] => set (rn := x) in E end.
  destruct (rv_save sys tmp part rn fs) as [ok' fsn] eqn:Es. injection E as <- <- <-.
  assert (rv_path rn = path ∧ covers uid end_ (rv_until rn)) as [Hp' Hc']; [|by eapply list_inv_save].
  unfold rn. destruct (rv_until r !! uid') as [old|] eqn:Eo; [destruct (outlasts _ old) eqn:Ex|]; simpl;
    try done; (split; [done|]).
  - by eapply covers_extend.
  - apply covers_insert; [|done]. intros ->. destruct Hc as (v & Hv & _). congruence.
Qed.

Lemma list_inv_Denied sys tmp part path uid end_ uid' lease now r fs b r' fs' :
  tmp ≠ path → in_force end_ now → rv_Denied sys tmp part uid' lease now r fs = (b, r', fs') →
  list_inv path uid end_ (Some r, fs) → list_inv path uid end_ (Some r', fs') ∧ (uid' = uid → b = true).
Proof.
  intros Ht Hn E Hi. pose proof Hi as (Hp & Hc & Hf)%list_inv_mem. unfold rv_Denied in E.
  destruct (rv_until r !! uid') as [u|] eqn:Eu.
  2: { injection E as <- <- <-. split; [done|]. intros ->. destruct Hc as (v & Hv & _). congruence. }
  destruct (negb _ && negb _) eqn:El; [|destruct (outlasts lease u) eqn:Eo].
  - assert (uid' ≠ uid) as Hne. { intros ->. by rewrite (covers_in_force uid end_ now _ _ Hc Hn Eu) in El. }
    injection E as <- <- <-. split; [|done].
    eapply list_inv_save; [exact Ht|exact Hp|by apply covers_delete|exact Hf|apply surjective_pairing].
  - injection E as <- <- <-. split; [|done].
    eapply list_inv_save; [exact Ht|exact Hp|by eapply covers_extend|exact Hf|apply surjective_pairing].
  - by injection E as <- <- <-.
Qed.

Lemma list_inv_Clear sys tmp part path uid end_ uid' r fs res r' fs' :
  tmp ≠ path → uid' ≠ uid → rv_Clear sys tmp part uid' r fs = (res, r', fs') →
  list_inv path uid end_ (Some r, fs) → list_inv path uid end_ (Some r', fs').
Proof.
  intros Ht Hne E Hi. pose proof Hi as (Hp & Hc & Hf)%list_inv_mem. unfold rv_Clear in E.
  destruct (rv_until r !! uid') as [u|]; [|by injection E as <- <- <-].
  destruct (rv_save _ _ _ _ _) as [ok fsn] eqn:Es. injection E as <- <- <-.
  eapply list_inv_save; [exact Ht| | |exact Hf|exact Es]; [done|by apply covers_delete].
Qed.

Lemma list_inv_boot path uid end_ ttl now readable fs :
  in_force end_ now → file_covers path uid end_ fs →
  list_inv path uid end_ (OpenRevoked path ttl now readable fs, fs).
Proof.
  intros Hn Hf. split; simpl; [done|]. intros r. unfold OpenRevoked. destruct Hf as (b & m & -> & Hm & Hc).
  destruct readable; [|done]. rewrite Hm. intros [= <-]. split; [done|]. simpl.
  destruct Hc as (u & Hu & Ho). exists u. split; [|done]. apply map_lookup_filter_Some. split; [done|]. simpl.
  rewrite (covers_in_force uid end_ now m u); [done| |done|done]. by exists u.
Qed.

Lemma list_inv_step path uid end_ w w' :
  list_step path uid end_ w w' → list_inv path uid end_ w → list_inv path uid end_ w'.
Proof.
  destruct 1; [by eapply list_inv_Add| |by eapply list_inv_Clear|by intros [? ?]|].
  - intros Hi. by eapply list_inv_Denied.
  - intros [Hf _]. by apply list_inv_boot.
Qed.

Lemma list_inv_rtc path uid end_ w w' :
  rtc (list_step path uid end_) w w' → list_inv path uid end_ w → list_inv path uid end_ w'.
Proof. induction 1; eauto using list_inv_step. Qed.

(** A saved [Add] covers the denial it was asked for. *)
Lemma list_inv_start sys tmp part path uid lease now r fs r' fs' :
  tmp ≠ path → rv_path r = path →
  rv_Add sys tmp part uid lease now r fs = (true, r', fs') →
  list_inv path uid (if Time.IsZero lease then 0 else Z.max lease (now + rv_ttl r))%Z (Some r', fs').
Proof.
  intros Ht Hp E. unfold rv_Add in E. cbv zeta in E.
  match type of E with context[rv_save _ _ _ ?x _] => set (rn := x) in E end.
  destruct (rv_save sys tmp part rn fs) as [ok fsn] eqn:Es. injection E as -> <- <-.
  set (end_ := (if Time.IsZero lease then 0 else Z.max lease (now + rv_ttl r))%Z).
  assert (rv_path rn = path ∧ covers uid end_ (rv_until rn)) as [Hp' Hc'].
  { assert (∀ u, outlasts u u = false) as Hrefl by (intros u; apply outlasts_false; lia).
    set (u := if negb (Time.IsZero lease) && Time.After (Time.Add now (rv_ttl r)) lease
              then Time.Add now (rv_ttl r) else lease) in rn.
    assert (u = end_) as Hu.
    { unfold u, end_, Time.IsZero, Time.After, Time.Add. destruct (Z.eqb_spec lease 0); simpl; [done|].
      destruct (Z.ltb_spec lease (now + rv_ttl r)); lia. }
    unfold rn, covers. rewrite <- Hu.
    destruct (rv_until r !! uid) as [old|] eqn:Eo; [destruct (outlasts u old) eqn:Ex|]; simpl; (split; [done|]);
      rewrite ?lookup_insert_eq, ?Eo; eauto. }
  pose proof (save_covers sys tmp part path uid end_ rn fs Ht Hp' Hc') as H. rewrite Es in H.
  split; simpl; [by apply (proj1 H)|]. by intros ? [= <-].
Qed.

(** C33: a removed grant stays denied.  Once [Add] has saved a denial of [uid],
    every presentation of a token for it is refused until the later of the
    lease and the ttl past the removal, or for good when the grant had no
    lease, over any crashes, restarts, failed saves, removals and denials in
    between, until the home lifts the entry.  An entry is never shortened and
    a restart reads it back. *)
Theorem revoked_stays_denied sys tmp part path uid lease now r fs r' fs' end_ w :
  tmp ≠ path → rv_path r = path →
  rv_Add sys tmp part uid lease now r fs = (true, r', fs') →
  end_ = (if Time.IsZero lease then 0 else Z.max lease (now + rv_ttl r))%Z →
  rtc (list_step path uid end_) (Some r', fs') w →
  ∀ rw, w.1 = Some rw → ∀ sys' tmp' part' lease' now',
    tmp' ≠ path → in_force end_ now' → (rv_Denied sys' tmp' part' uid lease' now' rw w.2).1.1 = true.
Proof.
  intros Ht Hp HA -> Hr rw Hw sys' tmp' part' lease' now' Ht' Hn.
  pose proof (list_inv_rtc _ _ _ _ _ Hr (list_inv_start _ _ _ _ _ _ _ _ _ _ _ Ht Hp HA)) as Hi.
  destruct w as [? fsw]. simpl in Hw. subst. simpl.
  destruct (rv_Denied _ _ _ _ _ _ _ _) as [[b r2] fs2] eqn:E. simpl.
  by eapply list_inv_Denied in E as [_ E]; [apply E| | |].
Qed.
End Revoked.

(** The list of one home: grant [g-1] is removed at noon of day 2, its lease an
    hour later and the ttl a day; the process restarts and the token comes. *)
Lemma revoked_stays_denied_witness :
  let J := countable_json (gmap string Time.t) in
  let r := mkRevoked "revoked.json" (24 * Time.Hour)%Z ∅ in
  let '(_, _, fs') := rv_Add all_ok "r.tmp" "" "g-1" (37 * Time.Hour)%Z (36 * Time.Hour)%Z r ∅ in
  match OpenRevoked "revoked.json" (24 * Time.Hour)%Z (40 * Time.Hour)%Z true fs' with
  | Some rw => (rv_Denied all_ok "r2.tmp" "" "g-1" (50 * Time.Hour)%Z (59 * Time.Hour)%Z rw fs').1.1 = true
  | None => False
  end.
Proof.
  intros J r. destruct (rv_Add _ _ _ _ _ _ _ _) as [[ok r'] fs'] eqn:E.
  assert (ok = true) as -> by (vm_compute in E; congruence).
  destruct (OpenRevoked _ _ _ _ _) as [rw|] eqn:Eo.
  - apply (revoked_stays_denied all_ok "r.tmp" "" "revoked.json" "g-1" (37 * Time.Hour)%Z (36 * Time.Hour)%Z r ∅ r' fs'
      (60 * Time.Hour)%Z (Some rw, fs')); try done.
    + eapply rtc_l; [apply ls_crash|]. eapply rtc_l; [|reflexivity]. rewrite <- Eo. apply ls_boot. right. done.
    + right. done.
  - exfalso. revert Eo. vm_compute in E. injection E as <- <-. vm_compute. done.
Defined.
