(* ===== verification/Health.v ===== *)
(** * Issuer health and the clone rate limit (pkg/core/health.go, pkg/core/ratelimit.go) *)

From Stdlib Require Import SpecFloat.
From S2P Require Import Prelude GoLib Errors.
From stdpp Require Import options.

(** ** SourceHealth *)

(** The int64 wrap-around of [UnixNano]. *)
Definition int64 (z : Z) : Z := ((z + 2 ^ 63) mod 2 ^ 64 - 2 ^ 63)%Z.
Definition UnixNano (t : Time.t) : Z := int64 (t - Time.unixToInternal * Time.Second)%Z.
(** [time.Unix(0, n)] *)
Definition fromUnixNano (n : Z) : Time.t := (n + Time.unixToInternal * Time.Second)%Z.

(** [type SourceHealth struct] *)
Record SourceHealth := mkHealth {
  h_stale : Time.duration; h_recover : Time.duration; h_lastSync : Z; h_degraded : bool;
}.

(** [func NewSourceHealth(stale time.Duration, now time.Time) *SourceHealth] *)
Definition NewSourceHealth (stale : Time.duration) (now : Time.t) : SourceHealth :=
  mkHealth stale (Z.quot stale 2) (UnixNano now) false.

(** [func (h *SourceHealth) MarkSync(now time.Time)] *)
Definition MarkSync (now : Time.t) (h : SourceHealth) : SourceHealth :=
  mkHealth (h_stale h) (h_recover h) (UnixNano now) (h_degraded h).

Definition h_age (now : Time.t) (h : SourceHealth) : Time.duration := Time.Sub now (fromUnixNano (h_lastSync h)).

(** [func (h *SourceHealth) Healthy(now time.Time) bool] *)
Definition Healthy (now : Time.t) (h : SourceHealth) : bool * SourceHealth :=
  let age := h_age now h in
  let degraded :=
    if (h_stale h <=? age)%Z then true
    else if (age <? h_recover h)%Z then false
    else h_degraded h in
  (negb degraded, mkHealth (h_stale h) (h_recover h) (h_lastSync h) degraded).

(** A history: syncs and questions, each at its time, oldest first. *)
Inductive health_op := OpSync (now : Time.t) | OpAsk (now : Time.t).

(** The state after a history, and the ages every question saw, newest first. *)
Definition health_apply (h : SourceHealth) (op : health_op) : SourceHealth :=
  match op with OpSync now => MarkSync now h | OpAsk now => (Healthy now h).2 end.
Definition health_run (h : SourceHealth) (ops : list health_op) : SourceHealth := foldl health_apply h ops.

Fixpoint ages_seen (h : SourceHealth) (ops : list health_op) (acc : list Time.duration) : list Time.duration :=
  match ops with
  | [] => acc
  | op :: ops' =>
      ages_seen (health_apply h op) ops'
        (match op with OpAsk now => h_age now h :: acc | OpSync _ => acc end)
  end.

(** The hysteresis rule, declaratively: the newest age outside the band decides. *)
Fixpoint degraded_by (stale recover : Time.duration) (ages : list Time.duration) : bool :=
  match ages with
  | [] => false
  | a :: older =>
      if (stale <=? a)%Z then true else if (a <? recover)%Z then false else degraded_by stale recover older
  end.

Lemma health_run_degraded h ops acc :
  h_degraded h = degraded_by (h_stale h) (h_recover h) acc →
  h_degraded (health_run h ops) = degraded_by (h_stale h) (h_recover h) (ages_seen h ops acc).
Proof.
  revert h acc. induction ops as [|[now|now] ops IH]; intros h acc H; simpl; [done|..].
  - by apply (IH (MarkSync now h) acc).
  - apply (IH (Healthy now h).2 (h_age now h :: acc)). simpl. by rewrite H.
Qed.

(** The health of the issuer is hysteretic.  After any history of syncs and
    questions since boot, a question at age [a] is answered unhealthy when [a]
    reaches the lease TTL, healthy when it is under half of it, and otherwise
    as the newest earlier question outside that band was; a home that never saw
    a stale age is healthy. *)
Theorem Healthy_hysteresis stale boot ops now :
  let h := health_run (NewSourceHealth stale boot) ops in
  (Healthy now h).1 =
  negb (degraded_by stale (Z.quot stale 2)
          (h_age now h :: ages_seen (NewSourceHealth stale boot) ops [])).
Proof.
  intros h. assert (h_stale h = stale ∧ h_recover h = Z.quot stale 2) as [Es Er].
  { unfold h. generalize (NewSourceHealth stale boot) (eq_refl : h_stale (NewSourceHealth stale boot) = stale)
      (eq_refl : h_recover (NewSourceHealth stale boot) = Z.quot stale 2).
    induction ops as [|[t|t] ops IH]; intros h0 E1 E2; simpl; [done|..]; by apply IH. }
  pose proof (health_run_degraded (NewSourceHealth stale boot) ops [] eq_refl) as Hd. fold h in Hd. simpl in Hd.
  simpl. rewrite Es, Er, Hd. done.
Qed.

(** ** RateLimit *)

Definition DefaultBaseRate : F64.t := F64.of_Z 200.
Definition DefaultRefW : F64.t := F64.of_Z (256 * 2 ^ 20).

(** [type RateLimit struct] *)
Record RateLimit := mkRate {
  rl_base : F64.t; rl_refW : F64.t; rl_w : F64.t; rl_tokens : F64.t; rl_burst : F64.t; rl_last : Time.t;
}.

(** [func NewRateLimit(baseClonesPerSec, refWBytes float64) *RateLimit] *)
Definition NewRateLimit (base refW : F64.t) (now : Time.t) : RateLimit :=
  mkRate base refW F64.zero base base now.

(** [func (b *RateLimit) ObserveWorkingSet(bytes float64)] *)
Definition ObserveWorkingSet (bytes : F64.t) (b : RateLimit) : RateLimit :=
  mkRate (rl_base b) (rl_refW b) bytes (rl_tokens b) (rl_burst b) (rl_last b).

(** [func (b *RateLimit) rateLocked() float64] *)
Definition rateLocked (b : RateLimit) : F64.t :=
  if F64.leb (rl_refW b) F64.zero then rl_base b
  else F64.div (rl_base b) (F64.add F64.one (F64.div (rl_w b) (rl_refW b))).

(** [func (b *RateLimit) Take() error], true for nil. *)
Definition Take (now : Time.t) (b : RateLimit) : bool * RateLimit :=
  let tokens := F64.add (rl_tokens b) (F64.mul (Seconds (Time.Sub now (rl_last b))) (rateLocked b)) in
  let tokens := if F64.gtb tokens (rl_burst b) then rl_burst b else tokens in
  if F64.ltb tokens F64.one
  then (false, mkRate (rl_base b) (rl_refW b) (rl_w b) tokens (rl_burst b) now)
  else (true, mkRate (rl_base b) (rl_refW b) (rl_w b) (F64.sub tokens F64.one) (rl_burst b) now).

(** [n] takes at one instant, and how many were let through. *)
Fixpoint takes (n : nat) (now : Time.t) (b : RateLimit) : nat * RateLimit :=
  match n with
  | 0 => (0, b)
  | S n' =>
      let '(ok, b') := Take now b in
      let '(k, b'') := takes n' now b' in
      ((if ok then S k else k), b'')
  end.

Definition finite (f : F64.t) : Prop := match f with S754_zero _ | S754_finite _ _ _ => True | _ => False end.

(** The token count [Take] sees is never above the burst, whatever the clock,
    the estimate or the count were. *)
Lemma cap_le tokens burst :
  F64.gtb (if F64.gtb tokens burst then burst else tokens) burst = false.
Proof. destruct (F64.gtb tokens burst) eqn:E; [apply F64_ltb_irrefl|done]. Qed.

(** No time passed: the refill is a zero, for any finite rate. *)
Lemma refill_zero r : finite r → ∃ s, F64.mul (Seconds 0%Z) r = S754_zero s.
Proof. change (Seconds 0%Z) with (S754_zero false). destruct r; try done; intros _; eexists; reflexivity. Qed.

Definition bucket (base refW w : F64.t) (k : Z) (now : Time.t) : RateLimit :=
  mkRate base refW w (F64.of_Z k) (F64.of_Z 200) now.

(** One take from a bucket of [k] whole tokens, [0 <= k <= 200]. *)
Definition take_ok (k : nat) (s : bool) : bool :=
  let tokens := F64.add (F64.of_Z (Z.of_nat k)) (S754_zero s) in
  let tokens := if F64.gtb tokens (F64.of_Z 200) then F64.of_Z 200 else tokens in
  bool_decide (tokens = F64.of_Z (Z.of_nat k)) &&
  (if decide (k = 0) then F64.ltb tokens F64.one
   else negb (F64.ltb tokens F64.one) && bool_decide (F64.sub tokens F64.one = F64.of_Z (Z.of_nat k - 1))).

Lemma take_ok_all : forallb (λ k, take_ok k true && take_ok k false) (seq 0 201) = true.
Proof. vm_compute. reflexivity. Qed.

Lemma Take_bucket base refW w k now :
  finite (rateLocked (bucket base refW w k now)) → (0 ≤ k ≤ 200)%Z →
  Take now (bucket base refW w k now) =
  (bool_decide (0 < k)%Z, bucket base refW w (if decide (0 < k)%Z then k - 1 else k)%Z now).
Proof.
  intros Hr Hk. unfold Take, bucket in *. cbn [rl_base rl_refW rl_w rl_tokens rl_burst rl_last] in *. cbv zeta.
  unfold Time.Sub. rewrite Z.sub_diag. change (Z.max _ _) with 0%Z.
  destruct (refill_zero _ Hr) as [s ->].
  assert (take_ok (Z.to_nat k) s = true) as H.
  { pose proof take_ok_all as Ha. rewrite forallb_forall in Ha.
    specialize (Ha (Z.to_nat k)). rewrite in_seq in Ha. specialize (Ha ltac:(lia)).
    apply andb_true_iff in Ha as [? ?]. by destruct s. }
  unfold take_ok in H. rewrite Z2Nat.id in H by lia. apply andb_true_iff in H as [E%bool_decide_eq_true H].
  cbv zeta in E, H. rewrite E in *. case_decide as H0.
  - assert (k = 0)%Z as -> by lia. rewrite H. rewrite bool_decide_eq_false_2 by lia. done.
  - breflect. rewrite H, bool_decide_eq_true_2 by lia. rewrite decide_True by lia.
    by rewrite H1.
Qed.

Lemma takes_bucket base refW w now n : ∀ k,
  finite (F64.div base (F64.add F64.one (F64.div w refW))) → finite base → (0 ≤ k ≤ 200)%Z →
  (takes n now (bucket base refW w k now)).1 = Nat.min n (Z.to_nat k).
Proof.
  induction n as [|n IH]; intros k Hr Hb Hk; [done|]. simpl takes. rewrite Take_bucket; [|by unfold rateLocked; simpl; case_match|done].
  specialize (IH (if decide (0 < k)%Z then k - 1 else k)%Z Hr Hb ltac:(case_decide; lia)).
  destruct (takes n now _) as [c b''] eqn:E. cbn [fst] in *. subst c.
  destruct (decide (0 < k)%Z); [rewrite bool_decide_eq_true_2 by done|rewrite bool_decide_eq_false_2 by done]; lia.
Qed.

(** The burst.  A bucket at its default base that has not been drawn from
    lets through exactly 200 clones at one instant and refuses every further
    one, whatever working set it has observed, as long as the rate it computes
    from it is a finite number. *)
Theorem burst_is_base refW w now n :
  finite (F64.div DefaultBaseRate (F64.add F64.one (F64.div w refW))) →
  (takes n now (ObserveWorkingSet w (NewRateLimit DefaultBaseRate refW now))).1 = Nat.min n 200.
Proof.
  intros Hf. apply (takes_bucket DefaultBaseRate refW w now n 200%Z Hf); [done|lia].
Qed.

Lemma burst_is_base_witness :
  (takes 1000 0%Z (ObserveWorkingSet (F64.of_Z (2 ^ 30)) (NewRateLimit DefaultBaseRate DefaultRefW 0%Z))).1 = 200.
Proof. rewrite burst_is_base; [reflexivity|vm_compute; exact I]. Defined.
