(* ===== verification/AuditLog.v ===== *)
(** * The audit spool (pkg/core/audit.go)

    The hash-chained, sequence-numbered log.  The file is its non-blank lines
    and whether it ends in a newline; a line parses to a record or does not.
    A write fails before any byte, after the leading newline, inside the
    record, or just before the trailing newline.  The hash of a record and the
    checkpoint signature are parameters. *)

From Stdlib Require Import Ascii.
From S2P Require Import Prelude GoLib Fence Errors.
From stdpp Require Import options.

(** ** Records *)

Record SeqRange := mkRange { From : N; To : N }.

(** [type AuditRecord struct] *)
Record AuditRecord := mkAudit {
  ar_Seq : N; ar_Time : Time.t; ar_Event : string; ar_Fence : Fence;
  ar_Session : string; ar_FiberID : string; ar_Detail : string;
  ar_Scope : list (string * string); ar_Lost : option SeqRange;
  ar_Signer : string; ar_Signature : string; ar_PrevHash : string; ar_Hash : string;
}.

#[export] Instance SeqRange_eq_dec : EqDecision SeqRange.
Proof. solve_decision. Defined.
#[export] Instance AuditRecord_eq_dec : EqDecision AuditRecord.
Proof. solve_decision. Defined.

Definition EventGap : string := "gap".
Definition EventCheckpoint : string := "checkpoint".
Definition DefaultCheckpointEvery : Z := 256.
Definition checkpointContext : string := "fiberd-audit-v1" +:+ String "010"%char "".

(** A record with the fields most callers set. *)
Definition event (e : string) (f : Fence) (session fiber detail : string) : AuditRecord :=
  mkAudit 0 Time.zero e f session fiber detail [] None "" "" "" "".

Definition with_chain (seq : N) (now : Time.t) (prev : string) (r : AuditRecord) : AuditRecord :=
  mkAudit seq (if Time.IsZero (ar_Time r) then now else ar_Time r) (ar_Event r) (ar_Fence r) (ar_Session r)
    (ar_FiberID r) (ar_Detail r) (ar_Scope r) (ar_Lost r) (ar_Signer r) (ar_Signature r) prev "".
Definition with_hash (h : string) (r : AuditRecord) : AuditRecord :=
  mkAudit (ar_Seq r) (ar_Time r) (ar_Event r) (ar_Fence r) (ar_Session r) (ar_FiberID r) (ar_Detail r)
    (ar_Scope r) (ar_Lost r) (ar_Signer r) (ar_Signature r) (ar_PrevHash r) h.
Definition gapRecord (lost : option SeqRange) (detail : string) : AuditRecord :=
  mkAudit 0 Time.zero EventGap zeroFence "" "" detail [] lost "" "" "" "".
Definition cpRecord (signer sig : string) : AuditRecord :=
  mkAudit 0 Time.zero EventCheckpoint zeroFence "" "" "" [] None signer sig "" "".

(** ** The file *)

Inductive fline := LRec (r : AuditRecord) | LBad.

Record sfile := mkFile { f_lines : list fline; f_nl : bool }.

(** How a write of one record ends. *)
Inductive woutcome :=
| WOk
| WNone (err : string)        (** no byte reached the file *)
| WNewline (err : string)     (** only the newline put first *)
| WTorn (err : string)        (** some of the record *)
| WNoNewline (err : string).  (** all of it but the last byte *)

(** The bytes of a line after the end of the file: a new line if the file ends
    in a newline, or else more of the last one, which no longer parses. *)
Definition join (x : fline) (nl : bool) (f : sfile) : sfile :=
  if f_nl f then mkFile (f_lines f ++ [x]) nl
  else mkFile (removelast (f_lines f) ++ [LBad]) nl.

(** [s.f.Write] of the record, with a newline first when [newline] is set. *)
Definition put (newline : bool) (out : woutcome) (r : AuditRecord) (f : sfile) : sfile :=
  let start := if newline then mkFile (f_lines f) true else f in
  match out with
  | WOk => join (LRec r) true start
  | WNone _ => f
  | WNewline _ => start
  | WTorn _ => join LBad false start
  | WNoNewline _ => join (LRec r) false start
  end.

Definition w_ok (out : woutcome) : bool := match out with WOk => true | _ => false end.
Definition w_err (out : woutcome) : string :=
  match out with WOk => "" | WNone e | WNewline e | WTorn e | WNoNewline e => e end.

Record Checkpoints := mkCheckpoints { KeyID : string; Key : string; Every : Z }.

(** [type Spool struct], without the group commit, which [AuditFacts.group] models. *)
Record Spool := mkSpool {
  sp_f : sfile; sp_seq : N; sp_prev : string; sp_newline : bool;
  sp_lost : option SeqRange; sp_lostErr : string;
  sp_cp : option Checkpoints; sp_since : Z; sp_written : N; sp_closed : bool;
}.

Section Spool.
(** SHA-256 over the record's JSON ([None] when it does not marshal), signing
    with an Ed25519 key and checking a signature, both in base64url. *)
Variable hashJSON : AuditRecord → option string.
Variable signB64 : string → string → string.
Variable verifyB64 : string → string → string → bool.

(** [func recordHash(rec AuditRecord) (string, error)] *)
Definition recordHash (r : AuditRecord) : option string := hashJSON (with_hash "" r).

(** [func checkpointPayload(seq uint64, hash string) []byte] *)
Definition checkpointPayload (seq : N) (hash : string) : string :=
  checkpointContext +:+ FormatUint seq +:+ " " +:+ hash.

(** [func (s *Spool) write(rec *AuditRecord) error], true for nil. *)
Definition sp_write (out : woutcome) (now : Time.t) (rec : AuditRecord) (s : Spool) : bool * Spool :=
  let seq := U64.succ (sp_seq s) in
  let rec := with_chain seq now (sp_prev s) rec in
  let fail (err : string) (f : sfile) :=
    (false, mkSpool f seq (sp_prev s) true
      (Some (mkRange (match sp_lost s with None => seq | Some l => From l end) seq))
      (match sp_lost s with None => err | Some _ => sp_lostErr s end)
      (sp_cp s) (sp_since s) (sp_written s) (sp_closed s)) in
  match recordHash rec with
  | None => fail "marshal" (sp_f s)
  | Some h =>
      let rec := with_hash h rec in
      if w_ok out then
        (true, mkSpool (put (sp_newline s) WOk rec (sp_f s)) seq h false (sp_lost s) (sp_lostErr s)
          (sp_cp s) (sp_since s + 1) (U64.succ (sp_written s)) (sp_closed s))
      else fail (w_err out) (put (sp_newline s) out rec (sp_f s))
  end.

Definition set_lost (l : option SeqRange) (s : Spool) : Spool :=
  mkSpool (sp_f s) (sp_seq s) (sp_prev s) (sp_newline s) l (sp_lostErr s) (sp_cp s) (sp_since s) (sp_written s) (sp_closed s).
Definition set_since (n : Z) (s : Spool) : Spool :=
  mkSpool (sp_f s) (sp_seq s) (sp_prev s) (sp_newline s) (sp_lost s) (sp_lostErr s) (sp_cp s) n (sp_written s) (sp_closed s).
Definition set_closed (s : Spool) : Spool :=
  mkSpool (sp_f s) (sp_seq s) (sp_prev s) (sp_newline s) (sp_lost s) (sp_lostErr s) (sp_cp s) (sp_since s) (sp_written s) true.

(** [func (s *Spool) writeGap()] *)
Definition writeGap (out : woutcome) (now : Time.t) (s : Spool) : Spool :=
  match sp_lost s with
  | None => s
  | Some lost =>
      let '(ok, s) := sp_write out now (gapRecord (Some lost) (sp_lostErr s)) (set_lost None s) in
      if ok then s
      else set_lost (match sp_lost s with Some l => Some (mkRange (From lost) (To l)) | None => None end) s
  end.

(** [func (s *Spool) checkpoint()] *)
Definition checkpoint (out : woutcome) (now : Time.t) (s : Spool) : Spool :=
  match sp_cp s with
  | None => s
  | Some cp =>
      let sig := signB64 (Key cp) (checkpointPayload (sp_seq s) (sp_prev s)) in
      let '(ok, s) := sp_write out now (cpRecord (KeyID cp) sig) s in
      if ok then set_since 0 s else s
  end.

(** The outcomes of the writes one call makes. *)
Record outcomes := mkOutcomes { o_gap : woutcome; o_rec : woutcome; o_cp : woutcome }.

(** [func (s *Spool) Append], up to the wait for an fsync.  [inl n] is the
    watermark a Sync caller waits for. *)
Definition sp_Append (o : outcomes) (now : Time.t) (rec : AuditRecord) (s : Spool) : (N + error) * Spool :=
  if sp_closed s then (inr (wrap2 ErrAudit (ESentinel errSpoolClosed)), s)
  else
    let s := writeGap (o_gap o) now s in
    let '(ok, s) := sp_write (o_rec o) now rec s in
    if negb ok then (inr (wrap2 ErrAudit (EOther (w_err (o_rec o)))), s)
    else
      let s := match sp_cp s with
               | Some cp => if (Every cp <=? sp_since s)%Z then checkpoint (o_cp o) now s else s
               | None => s
               end in
      (inl (sp_written s), s).

(** [func (s *Spool) Close] up to its fsync; [None] is errSpoolClosed. *)
Definition sp_Close (o : outcomes) (now : Time.t) (s : Spool) : option N * Spool :=
  if sp_closed s then (None, s)
  else
    let s := writeGap (o_gap o) now (set_closed s) in
    let s := match sp_cp s with
             | Some _ => if (0 <? sp_since s)%Z then checkpoint (o_cp o) now s else s
             | None => s
             end in
    (Some (sp_written s), s).

(** [type spoolEnd struct] and [func scanSpool], a fold over the lines.  The
    offset of the torn line goes only into a message. *)
Record spoolEnd := mkEnd { e_seq : N; e_hash : string; e_torn : bool }.

Definition scan_step (e : spoolEnd) (x : fline) : spoolEnd :=
  match x with
  | LBad => mkEnd (e_seq e) (e_hash e) true
  | LRec r => mkEnd (N.max (e_seq e) (ar_Seq r)) (ar_Hash r) false
  end.
Definition scanSpool (f : sfile) : spoolEnd := foldl scan_step (mkEnd 0 "" false) (f_lines f).

(** [func OpenSpool(dir string, cp *Checkpoints) ( *Spool, error)] of a file
    that opens and reads.  [None] when the gap for a torn line does not write;
    the file is then as that write left it. *)
Definition OpenSpool (out : woutcome) (now : Time.t) (detail : string) (cp : option Checkpoints) (f : sfile)
    : option Spool * sfile :=
  let e := scanSpool f in
  let cp := match cp with
            | Some c => if (Every c <=? 0)%Z then Some (mkCheckpoints (KeyID c) (Key c) DefaultCheckpointEvery) else Some c
            | None => None
            end in
  let s := mkSpool f (e_seq e) (e_hash e) (negb (f_nl f)) None "" cp 0 0 false in
  if e_torn e then
    let '(ok, s) := sp_write out now (gapRecord None detail) s in
    if ok then (Some s, sp_f s) else (None, sp_f s)
  else (Some s, f).

(** ** VerifySpool *)

Record SpoolReport := mkReport {
  rp_Records : Z; rp_Unchained : Z; rp_Gaps : list AuditRecord; rp_Checkpoints : Z;
  rp_SignedSeq : N; rp_Unsigned : Z;
}.

Record vstate := mkV { v_rep : SpoolReport; v_prev : option AuditRecord; v_torn : bool }.

Inductive vfault :=
| NotChained | HashMismatch | StartsMidChain | DoesNotFollow | BadGap | BadSeqNo | NoGapAfterTorn
| SignsNothing | UntrustedSigner | BadSignature.

Definition rep_unchained (p : SpoolReport) : SpoolReport :=
  mkReport (rp_Records p) (rp_Unchained p + 1) (rp_Gaps p) (rp_Checkpoints p) (rp_SignedSeq p) (rp_Unsigned p).

(** The sequence check of one record against the last: [None] is no fault. *)
Definition seqFault (prev : option AuditRecord) (r : AuditRecord) : option vfault :=
  match prev with
  | None => if ar_PrevHash r <>? "" then Some StartsMidChain else None
  | Some p =>
      if ar_PrevHash r <>? ar_Hash p then Some DoesNotFollow else
      let want := U64.succ (ar_Seq p) in
      match (if ar_Event r ==? EventGap then ar_Lost r else None) with
      | Some l =>
          if (From l <>? want) || (To l <? From l)%N then Some BadGap
          else if ar_Seq r <>? U64.succ (To l) then Some BadSeqNo else None
      | None => if ar_Seq r <>? want then Some BadSeqNo else None
      end
  end.

(** What the event of a record does to the report. *)
Definition eventStep (trust : gmap string string) (prev : option AuditRecord) (r : AuditRecord) (p : SpoolReport)
    : SpoolReport + vfault :=
  if ar_Event r ==? EventGap then
    inl (mkReport (rp_Records p + 1) (rp_Unchained p) (rp_Gaps p ++ [r]) (rp_Checkpoints p) (rp_SignedSeq p) (rp_Unsigned p + 1))
  else if ar_Event r ==? EventCheckpoint then
    match prev with
    | None => inr SignsNothing
    | Some q =>
        match trust !! ar_Signer r with
        | None => inr UntrustedSigner
        | Some pub =>
            if verifyB64 pub (checkpointPayload (ar_Seq q) (ar_Hash q)) (ar_Signature r)
            then inl (mkReport (rp_Records p + 1) (rp_Unchained p) (rp_Gaps p) (rp_Checkpoints p + 1) (ar_Seq r) 0)
            else inr BadSignature
        end
    end
  else inl (mkReport (rp_Records p + 1) (rp_Unchained p) (rp_Gaps p) (rp_Checkpoints p) (rp_SignedSeq p) (rp_Unsigned p + 1)).

(** One line of the loop of [VerifySpool]. *)
Definition verifyLine (trust : gmap string string) (v : vstate) (x : fline) : vstate + vfault :=
  match x with
  | LBad =>
      match v_prev v with
      | None => inl (mkV (rep_unchained (v_rep v)) None (v_torn v))
      | Some _ => inl (mkV (v_rep v) (v_prev v) true)
      end
  | LRec r =>
      if ar_Hash r ==? "" then
        match v_prev v with
        | Some _ => inr NotChained
        | None => inl (mkV (rep_unchained (v_rep v)) None (v_torn v))
        end
      else if recordHash r <>? Some (ar_Hash r) then inr HashMismatch
      else match seqFault (v_prev v) r with
           | Some e => inr e
           | None =>
               if v_torn v && (ar_Event r <>? EventGap) then inr NoGapAfterTorn
               else match eventStep trust (v_prev v) r (v_rep v) with
                    | inr e => inr e
                    | inl p => inl (mkV p (Some r) false)
                    end
           end
  end.

Fixpoint verifyLines (trust : gmap string string) (v : vstate) (xs : list fline) : vstate + vfault :=
  match xs with
  | [] => inl v
  | x :: xs' => match verifyLine trust v x with inl v' => verifyLines trust v' xs' | inr e => inr e end
  end.

Definition v0 : vstate := mkV (mkReport 0 0 [] 0 0 0) None false.

(** [func VerifySpool(path, trust)]: the report and TornTail, or the fault. *)
Definition VerifySpool (trust : gmap string string) (f : sfile) : (SpoolReport * bool) + vfault :=
  match verifyLines trust v0 (f_lines f) with
  | inl v => inl (v_rep v, v_torn v)
  | inr e => inr e
  end.
End Spool.
