(* ===== verification/AuditFacts.v ===== *)
(** * The audit spool: the honest log verifies, and a log binds its records *)

From Stdlib Require Import Ascii.
From S2P Require Import Prelude GoLib Fence Errors AuditLog.
From stdpp Require Import options.

Section Facts.
Context (hashJSON : AuditRecord → option string).
Context (signB64 : string → string → string) (verifyB64 : string → string → string → bool).
Context (trust : gmap string string).
(** A SHA-256 in hex is 64 characters, never none. *)
Hypothesis hash_nonempty : ∀ r h, hashJSON r = Some h → h ≠ "".

Notation recordHash := (recordHash hashJSON).
Notation sp_write := (sp_write hashJSON).
Notation writeGap := (writeGap hashJSON).
Notation checkpoint := (checkpoint hashJSON signB64).
Notation sp_Append := (sp_Append hashJSON signB64).
Notation sp_Close := (sp_Close hashJSON signB64).
Notation OpenSpool := (OpenSpool hashJSON).
Notation verifyLine := (verifyLine hashJSON verifyB64 trust).
Notation verifyLines := (verifyLines hashJSON verifyB64 trust).
Notation VerifySpool := (VerifySpool hashJSON verifyB64 trust).

Lemma verifyLines_snoc v xs x :
  verifyLines v (xs ++ [x]) = match verifyLines v xs with inl v' => verifyLine v' x | inr e => inr e end.
Proof.
  revert v. induction xs as [|y xs IH]; intros v; simpl.
  - by destruct (verifyLine v x).
  - destruct (verifyLine v y); [apply IH|done].
Qed.

(** ** The log binds its records *)

Fixpoint chained (xs : list fline) : list AuditRecord :=
  match xs with
  | LRec r :: xs' => if ar_Hash r ==? "" then chained xs' else r :: chained xs'
  | LBad :: xs' => chained xs'
  | [] => []
  end.

Lemma chained_app xs ys : chained (xs ++ ys) = chained xs ++ chained ys.
Proof. induction xs as [|[r|] xs IH]; simpl; [done| |done]. case_bool_decide; simpl; by rewrite IH. Qed.

(** A chain in reverse: each record hashes to its Hash and names the hash of
    the one before it. *)
Inductive chain : list AuditRecord → Prop :=
| chain_nil : chain []
| chain_cons r rs :
    chain rs → ar_Hash r ≠ "" → recordHash r = Some (ar_Hash r) →
    ar_PrevHash r = match rs with [] => "" | p :: _ => ar_Hash p end → chain (r :: rs).

Lemma verify_chain xs v :
  verifyLines v0 xs = inl v → chain (reverse (chained xs)) ∧ v_prev v = head (reverse (chained xs)).
Proof.
  revert v. induction xs as [|x xs IH] using rev_ind; intros v.
  { intros [= <-]. split; [constructor|done]. }
  rewrite verifyLines_snoc, chained_app, reverse_app. destruct (verifyLines v0 xs) as [v'|] eqn:E; [|done].
  destruct (IH v' eq_refl) as [Hc Hp]. destruct x as [r|]; simpl.
  - case_bool_decide as Hh; simpl.
    { destruct (v_prev v') eqn:Ep; [done|]. intros [= <-]. simpl. by rewrite <- Hp. }
    destruct (bool_decide (recordHash r = Some (ar_Hash r))) eqn:Er; simpl; [|done].
    apply bool_decide_eq_true_1 in Er.
    destruct (seqFault (v_prev v') r) eqn:Es; [done|]. destruct (_ && _); [done|].
    destruct (eventStep _ _ _ _ _) as [p|]; [|done]. intros [= <-]. simpl. split; [|done].
    constructor; try done. unfold seqFault in Es. rewrite Hp in Es.
    destruct (reverse (chained xs)) as [|q rs]; simpl in *.
    + by destruct (bool_decide (ar_PrevHash r = "")) eqn:Eb; [apply bool_decide_eq_true_1 in Eb|].
    + by destruct (bool_decide (ar_PrevHash r = ar_Hash q)) eqn:Eb; [apply bool_decide_eq_true_1 in Eb|].
  - destruct (v_prev v') eqn:Ep; intros [= <-]; simpl; by rewrite <- Hp.
Qed.

(** No two records have one hash. *)
Definition collision_free : Prop :=
  ∀ a b h, hashJSON a = Some h → hashJSON b = Some h → a = b.

Lemma record_by_hash r r' :
  collision_free → recordHash r = Some (ar_Hash r) → recordHash r' = Some (ar_Hash r') →
  ar_Hash r = ar_Hash r' → r = r'.
Proof.
  intros Hcf Hr Hr' E. unfold AuditLog.recordHash in *. rewrite <- E in Hr'.
  pose proof (Hcf _ _ _ Hr Hr') as Hw. clear Hr Hr'. destruct r, r'. simpl in *.
  unfold with_hash in Hw. simpl in Hw. injection Hw. intros. by subst.
Qed.

Lemma chain_binds rs rs' :
  collision_free → chain rs → chain rs' → ar_Hash <$> head rs = ar_Hash <$> head rs' → rs = rs'.
Proof.
  intros Hcf Hc. revert rs'. induction Hc as [|r rs Hc IH Hne Hr Hp]; intros rs' Hc' E.
  - by destruct rs'.
  - destruct Hc' as [|r' rs' Hc' Hne' Hr' Hp']; [done|]. simpl in E. injection E as E.
    pose proof (record_by_hash _ _ Hcf Hr Hr' E) as <-. f_equal. apply IH; [done|].
    rewrite Hp in Hp'. destruct rs as [|p rs], rs' as [|p' rs']; simpl in *; try done.
    + inversion Hc'; congruence.
    + inversion Hc; congruence.
    + congruence.
Qed.

(** C28: a verified log binds every record in it.  If two files verify and end in
    records with the same hash, which is what a checkpoint signs, they hold the
    same chained records in the same order, as long as no two records collide:
    no edit, removal, insertion or reordering goes unnoticed. *)
Theorem verified_log_binds f f' v v' p p' :
  collision_free →
  verifyLines v0 (f_lines f) = inl v → verifyLines v0 (f_lines f') = inl v' →
  v_prev v = Some p → v_prev v' = Some p' → ar_Hash p = ar_Hash p' →
  chained (f_lines f) = chained (f_lines f').
Proof.
  intros Hcf Hv Hv' Hp Hp' E. apply verify_chain in Hv as [Hc Hh], Hv' as [Hc' Hh'].
  apply (inj reverse). apply chain_binds; [done..|]. rewrite <- Hh, <- Hh', Hp, Hp'. simpl. congruence.
Qed.

(** ** The honest log verifies *)

(** The last chained record and the scan of a file agree. *)
Record lines_at (xs : list fline) (v : vstate) : Prop := {
  la_verify : verifyLines v0 xs = inl v;
  la_scan : match v_prev v with
    | Some p => foldl scan_step (mkEnd 0 "" false) xs = mkEnd (ar_Seq p) (ar_Hash p) (v_torn v)
    | None => e_hash (foldl scan_step (mkEnd 0 "" false) xs) = "" ∧ v_torn v = false
    end;
}.

(** Every prefix of the lines is such a file, so a crash that keeps only a
    prefix leaves one. *)
Definition lines_ok (xs : list fline) : Prop := ∀ k, ∃ v, lines_at (take k xs) v.

Lemma lines_ok_snoc xs x v : lines_ok xs → lines_at (xs ++ [x]) v → lines_ok (xs ++ [x]).
Proof.
  intros Hok Hx k. destruct (decide (k ≤ length xs)).
  - rewrite take_app_le by done. apply Hok.
  - exists v. rewrite take_ge; [done|]. rewrite length_app. simpl. lia.
Qed.

Lemma lines_ok_at xs : lines_ok xs → ∃ v, lines_at xs v.
Proof. intros H. specialize (H (length xs)). by rewrite take_ge in H. Qed.

(** A torn line after a good file. *)
Definition tear (v : vstate) : vstate :=
  match v_prev v with
  | None => mkV (rep_unchained (v_rep v)) None (v_torn v)
  | Some _ => mkV (v_rep v) (v_prev v) true
  end.

Lemma lines_at_torn xs v : lines_at xs v → lines_at (xs ++ [LBad]) (tear v).
Proof.
  intros [Hv Hs]. unfold tear. split.
  - rewrite verifyLines_snoc, Hv. simpl. by destruct (v_prev v).
  - rewrite foldl_app. simpl. destruct (v_prev v) as [p|] eqn:E; simpl; rewrite ?E; [|done]. by rewrite Hs.
Qed.

Lemma lines_at_rec xs v r p :
  lines_at xs v → ar_Hash r ≠ "" → recordHash r = Some (ar_Hash r) → seqFault (v_prev v) r = None →
  (v_torn v = true → ar_Event r = EventGap) →
  eventStep verifyB64 trust (v_prev v) r (v_rep v) = inl p →
  (e_seq (foldl scan_step (mkEnd 0 "" false) xs) ≤ ar_Seq r)%N →
  lines_at (xs ++ [LRec r]) (mkV p (Some r) false).
Proof.
  intros [Hv Hs] Hne Hr Hq Ht He Hm. split.
  - rewrite verifyLines_snoc, Hv. simpl. rewrite bool_decide_eq_false_2 by done.
    rewrite Hr, bool_decide_eq_true_2, Hq by done. simpl. rewrite He.
    destruct (v_torn v); simpl; [|done]. by rewrite bool_decide_eq_true_2 by auto.
  - rewrite foldl_app. simpl. by rewrite N.max_r.
Qed.

(** The keys the checkpoints are signed with verify. *)
Definition cp_trusted (cp : option Checkpoints) : Prop :=
  ∀ c, cp = Some c → ∃ pub, trust !! KeyID c = Some pub ∧
    ∀ payload, verifyB64 pub payload (signB64 (Key c) payload) = true.

(** The spool in memory and its file. *)
Record spool_at (s : Spool) (v : vstate) : Prop := {
  sa_lines : lines_ok (f_lines (sp_f s));
  sa_at : lines_at (f_lines (sp_f s)) v;
  sa_nl : f_nl (sp_f s) = false → sp_newline s = true;
  sa_prev : sp_prev s = match v_prev v with Some p => ar_Hash p | None => "" end;
  sa_seq : (e_seq (foldl scan_step (mkEnd 0 "" false) (f_lines (sp_f s))) ≤ sp_seq s)%N;
  sa_since : (0 < sp_since s)%Z → is_Some (v_prev v);
  sa_cp : cp_trusted (sp_cp s);
}.

(** The numbers assigned and not written are the lost range, and a torn line is
    always followed by a gap. *)
Definition lost_ok (s : Spool) (v : vstate) : Prop :=
  match sp_lost s with
  | None => v_torn v = false ∧ ∀ p, v_prev v = Some p → sp_seq s = ar_Seq p
  | Some l => To l = sp_seq s ∧ (From l ≤ To l)%N ∧ ∀ p, v_prev v = Some p → From l = (ar_Seq p + 1)%N
  end.
Definition spool_ok (s : Spool) : Prop := ∃ v, spool_at s v ∧ lost_ok s v.

(** Room for the three writes of a call before the counter wraps. *)
Definition seq_room (k : N) (s : Spool) : Prop := (sp_seq s + k ≤ U64.max)%N.

Definition clean_write (out : woutcome) : Prop := match out with WNoNewline _ => False | _ => True end.

(** What a write that fails leaves in the file. *)
Lemma put_fail nl out r f v :
  clean_write out → w_ok out = false → (f_nl f = false → nl = true) → lines_ok (f_lines f) → lines_at (f_lines f) v →
  ∃ v', lines_ok (f_lines (put nl out r f)) ∧ lines_at (f_lines (put nl out r f)) v' ∧ v_prev v' = v_prev v ∧
    (v_prev v = None → v_torn v' = v_torn v) ∧
    e_seq (foldl scan_step (mkEnd 0 "" false) (f_lines (put nl out r f))) =
    e_seq (foldl scan_step (mkEnd 0 "" false) (f_lines f)).
Proof.
  intros Hc Ho Hnl Hok Hat. destruct out as [|e|e|e|e]; try done; simpl.
  - by exists v.
  - exists v. by destruct nl.
  - assert (f_lines (join LBad false (if nl then mkFile (f_lines f) true else f)) = f_lines f ++ [LBad]) as ->.
    { unfold join. destruct nl; simpl; [done|]. destruct (f_nl f) eqn:E; [done|]. by specialize (Hnl eq_refl). }
    exists (tear v). pose proof (lines_at_torn _ _ Hat) as Ht. split_and!; [by eapply lines_ok_snoc|done|..].
    + unfold tear. by destruct (v_prev v) eqn:E; simpl; rewrite ?E.
    + unfold tear. by intros ->.
    + by rewrite foldl_app.
Qed.

Lemma put_ok nl r f :
  (f_nl f = false → nl = true) → f_lines (put nl WOk r f) = f_lines f ++ [LRec r] ∧ f_nl (put nl WOk r f) = true.
Proof.
  intros Hnl. unfold put, join. destruct nl; simpl; [done|].
  destruct (f_nl f) eqn:E; simpl; [done|]. by specialize (Hnl eq_refl).
Qed.

(** The two ways a write ends. *)
Lemma write_fails out now rec s s' v :
  spool_at s v → clean_write out → seq_room 1 s → sp_write out now rec s = (false, s') →
  ∃ v', spool_at s' v' ∧ v_prev v' = v_prev v ∧ (v_prev v = None → v_torn v' = v_torn v) ∧
    sp_seq s' = (sp_seq s + 1)%N ∧ sp_since s' = sp_since s ∧
    sp_lost s' = Some (mkRange (match sp_lost s with None => sp_seq s + 1 | Some l => From l end) (sp_seq s + 1))%N.
Proof.
  intros [Hl Ha Hn Hp Hq Hs Hc] Hout Hroom. unfold AuditLog.sp_write. unfold seq_room in Hroom.
  rewrite U64.succ_small by lia. destruct (recordHash _) as [h|]; [destruct (w_ok out) eqn:Ho; [done|]|]; intros [= <-].
  - destruct (put_fail (sp_newline s) out (with_hash h (with_chain (sp_seq s + 1) now (sp_prev s) rec)) (sp_f s) v
      Hout Ho Hn Hl Ha) as (v' & Hl' & Ha' & Hv' & Ht' & He').
    exists v'. split_and!; try done. split; simpl; try done; [by rewrite Hv'|rewrite He'; lia|by rewrite Hv'].
  - exists v. split_and!; try done. split; simpl; try done. lia.
Qed.

Lemma write_succeeds out now rec s s' v p :
  spool_at s v → seq_room 1 s → sp_write out now rec s = (true, s') →
  let r := with_chain (sp_seq s + 1) now (sp_prev s) rec in
  (∀ h, seqFault (v_prev v) (with_hash h r) = None) → (v_torn v = true → ar_Event rec = EventGap) →
  (∀ h, eventStep verifyB64 trust (v_prev v) (with_hash h r) (v_rep v) = inl (p h)) →
  ∃ h, spool_at s' (mkV (p h) (Some (with_hash h r)) false) ∧ sp_seq s' = (sp_seq s + 1)%N ∧
    sp_lost s' = sp_lost s ∧ sp_cp s' = sp_cp s.
Proof using hash_nonempty.
  intros [Hl Ha Hn Hp Hq Hs Hc] Hroom E r Hf Ht He. unfold AuditLog.sp_write in E. unfold seq_room in Hroom.
  rewrite U64.succ_small in E by lia. cbv zeta in E. fold r in E.
  destruct (recordHash r) as [h|] eqn:Eh; [|done].
  destruct (w_ok out) eqn:Ho; [|done]. apply (f_equal snd) in E. cbn [snd] in E. subst s'. exists h.
  destruct (put_ok (sp_newline s) (with_hash h r) (sp_f s) Hn) as [El En].
  assert (lines_at (f_lines (sp_f s) ++ [LRec (with_hash h r)]) (mkV (p h) (Some (with_hash h r)) false)) as Hat.
  { eapply lines_at_rec; [exact Ha| | |apply Hf|exact Ht|apply He|simpl; lia].
    - exact (hash_nonempty _ _ Eh).
    - exact Eh. }
  split_and!; try reflexivity. split; cbn [sp_f sp_seq sp_prev sp_newline sp_since sp_cp v_prev].
  - rewrite El. by eapply lines_ok_snoc.
  - by rewrite El.
  - by rewrite En.
  - reflexivity.
  - rewrite El, foldl_app. simpl. lia.
  - eauto.
  - exact Hc.
Qed.

(** A gap that names the lost range always fits. *)
Lemma writeGap_ok out now s :
  clean_write out → seq_room 1 s → spool_ok s →
  spool_ok (writeGap out now s) ∧ (sp_seq (writeGap out now s) ≤ sp_seq s + 1)%N.
Proof using hash_nonempty.
  intros Hout Hroom (v & Hat & Hlost). unfold AuditLog.writeGap. destruct (sp_lost s) as [l|] eqn:El; [|split; [by exists v|lia]].
  unfold lost_ok in Hlost. rewrite El in Hlost. destruct Hlost as (Hto & Hle & Hfrom).
  assert (spool_at (set_lost None s) v) as Hat' by (by destruct Hat; split).
  destruct (sp_write _ _ _ _) as [[] s'] eqn:Ew.
  - destruct (write_succeeds _ _ _ _ _ v (λ h, mkReport (rp_Records (v_rep v) + 1) (rp_Unchained (v_rep v))
      (rp_Gaps (v_rep v) ++ [with_hash h (with_chain (sp_seq s + 1) now (sp_prev s) (gapRecord (Some l) (sp_lostErr s)))])
      (rp_Checkpoints (v_rep v)) (rp_SignedSeq (v_rep v)) (rp_Unsigned (v_rep v) + 1)) Hat' Hroom Ew)
      as (h & Hat2 & Hq2 & Hl2 & _); try done.
    + intros h. unfold seqFault. simpl. rewrite (sa_prev _ _ Hat).
      destruct (v_prev v) as [q|] eqn:Eq; [|done]. rewrite bool_decide_eq_true_2 by done. simpl.
      assert ((ar_Seq q < U64.max)%N ∧ (To l < U64.max)%N) as [? ?].
      { unfold seq_room in Hroom. pose proof (Hfrom q eq_refl). lia. }
      rewrite !U64.succ_small by done. rewrite (Hfrom q eq_refl), bool_decide_eq_true_2 by done. simpl.
      destruct (N.ltb_spec (To l) (ar_Seq q + 1)); [pose proof (Hfrom q eq_refl); lia|].
      by rewrite bool_decide_eq_true_2 by lia.
    + split; [|simpl in *; lia]. eexists. split; [exact Hat2|]. unfold lost_ok. rewrite Hl2. simpl.
      split; [done|]. intros ? [= <-]. simpl. done.
  - destruct (write_fails _ _ _ _ _ v Hat' Hout Hroom Ew) as (v' & Hat2 & Hp2 & _ & Hq2 & _ & Hl2).
    simpl in Hl2, Hq2. split; [|simpl; lia]. exists v'. split; [by destruct Hat2; split|].
    unfold lost_ok. simpl. rewrite Hl2. simpl. rewrite Hp2. split_and!; [lia|lia|done].
Qed.

(** A record a caller appends: an event of its own, not one of the spool's. *)
Definition client_record (r : AuditRecord) : Prop :=
  ar_Event r ≠ EventGap ∧ ar_Event r ≠ EventCheckpoint.

(** With nothing lost, a caller's record follows the last one. *)
Lemma write_client out now rec s s' ok :
  clean_write out → seq_room 1 s → client_record rec → sp_lost s = None ∨ w_ok out = false →
  spool_ok s → sp_write out now rec s = (ok, s') →
  spool_ok s' ∧ (sp_seq s' ≤ sp_seq s + 1)%N ∧ (ok = true → sp_lost s' = None ∧ ∃ v, spool_at s' v ∧ is_Some (v_prev v)).
Proof using hash_nonempty.
  intros Hout Hroom [Hg Hc] Hor (v & Hat & Hlost) Ew. destruct ok.
  - assert (sp_lost s = None) as El.
    { destruct Hor as [|Hf]; [done|]. unfold AuditLog.sp_write in Ew. rewrite Hf in Ew. by case_match. }
    unfold lost_ok in Hlost. rewrite El in Hlost. destruct Hlost as [Htorn Hseq].
    destruct (write_succeeds _ _ _ _ _ v (λ _, mkReport (rp_Records (v_rep v) + 1) (rp_Unchained (v_rep v)) (rp_Gaps (v_rep v))
      (rp_Checkpoints (v_rep v)) (rp_SignedSeq (v_rep v)) (rp_Unsigned (v_rep v) + 1)) Hat Hroom Ew)
      as (h & Hat2 & Hq2 & Hl2 & _).
    + intros h. unfold seqFault. simpl. rewrite (sa_prev _ _ Hat). destruct (v_prev v) as [q|] eqn:Eq; [|done].
      rewrite bool_decide_eq_true_2 by done. simpl. rewrite bool_decide_eq_false_2 by done.
      rewrite <- (Hseq q eq_refl), U64.succ_small by (unfold seq_room in Hroom; lia).
      by rewrite bool_decide_eq_true_2.
    + congruence.
    + intros h. unfold eventStep. simpl. by rewrite !bool_decide_eq_false_2.
    + split_and!; [|lia|].
      * eexists. split; [exact Hat2|]. unfold lost_ok. rewrite Hl2, El. simpl. split; [done|]. by intros ? [= <-].
      * intros _. split; [congruence|]. eexists. split; [exact Hat2|]. by eexists.
  - destruct (write_fails _ _ _ _ _ v Hat Hout Hroom Ew) as (v' & Hat2 & Hp2 & _ & Hq2 & _ & Hl2).
    split_and!; [|lia|done]. exists v'. split; [done|]. unfold lost_ok in *. rewrite Hl2, Hp2. simpl.
    destruct (sp_lost s) as [l|]; [destruct Hlost as (? & ? & ?)|destruct Hlost as (? & Hseq)].
    + split_and!; [lia|lia|done].
    + split_and!; [lia|lia|]. intros q Hq. by rewrite (Hseq q Hq).
Qed.

(** A checkpoint after a record that was written. *)
Lemma checkpoint_ok out now s v :
  clean_write out → seq_room 1 s → spool_at s v → lost_ok s v → is_Some (v_prev v) →
  sp_lost s = None ∨ w_ok out = false →
  spool_ok (checkpoint out now s) ∧ (sp_seq (checkpoint out now s) ≤ sp_seq s + 1)%N.
Proof using hash_nonempty.
  intros Hout Hroom Hat Hlost [q Hq] Hor. unfold AuditLog.checkpoint.
  destruct (sp_cp s) as [cp|] eqn:Ecp; [|split; [by exists v|lia]].
  destruct (sa_cp _ _ Hat cp Ecp) as (pub & Hpub & Hver).
  destruct (sp_write _ _ _ _) as [[] s'] eqn:Ew.
  - assert (sp_lost s = None) as El.
    { destruct Hor as [|Hf]; [done|]. unfold AuditLog.sp_write in Ew. rewrite Hf in Ew. by case_match. }
    unfold lost_ok in Hlost. rewrite El in Hlost. destruct Hlost as [Htorn Hseq]. pose proof (Hseq q Hq) as Hsq.
    destruct (write_succeeds _ _ _ _ _ v (λ _, mkReport (rp_Records (v_rep v) + 1) (rp_Unchained (v_rep v)) (rp_Gaps (v_rep v))
      (rp_Checkpoints (v_rep v) + 1) (sp_seq s + 1)%N 0) Hat Hroom Ew) as (h & Hat2 & Hq2 & Hl2 & _).
    + intros h. unfold seqFault. simpl. rewrite (sa_prev _ _ Hat), Hq, bool_decide_eq_true_2 by done. simpl.
      rewrite <- Hsq, U64.succ_small by (unfold seq_room in Hroom; lia). by rewrite bool_decide_eq_true_2.
    + congruence.
    + intros h. unfold eventStep. simpl. rewrite Hq, Hpub.
      rewrite Hsq, (sa_prev _ _ Hat), Hq, Hver. done.
    + split; [|simpl; lia]. eexists. split.
      * destruct Hat2 as [? ? ? ? ? ? ?]. by split.
      * unfold lost_ok. simpl. rewrite Hl2, El. split; [done|]. by intros ? [= <-].
  - destruct (write_fails _ _ _ _ _ v Hat Hout Hroom Ew) as (v' & Hat2 & Hp2 & _ & Hq2 & _ & Hl2).
    split; [|lia]. exists v'. split; [done|]. unfold lost_ok in *. rewrite Hl2, Hp2. simpl.
    destruct (sp_lost s) as [l|]; [destruct Hlost as (? & ? & ?)|destruct Hlost as (? & Hseq)].
    + split_and!; [lia|lia|done].
    + split_and!; [lia|lia|]. intros q' Hq'. by rewrite (Hseq q' Hq').
Qed.

(** *** Whole calls *)

(** The gap for lost records is on disk before the next record is: a gap that
    does not write means the record does not either. *)
Definition gap_first (out out' : woutcome) (now : Time.t) (s : Spool) : Prop :=
  sp_lost (writeGap out now s) = None ∨ w_ok out' = false.

Definition clean (o : outcomes) : Prop :=
  clean_write (o_gap o) ∧ clean_write (o_rec o) ∧ clean_write (o_cp o).

Lemma Append_ok o now rec s r s' :
  clean o → client_record rec → seq_room 3 s → gap_first (o_gap o) (o_rec o) now s →
  spool_ok s → sp_Append o now rec s = (r, s') → spool_ok s'.
Proof using hash_nonempty.
  intros (C1 & C2 & C3) Hrec Hroom Hgap Hok. unfold AuditLog.sp_Append. unfold seq_room in *.
  destruct (sp_closed s); [by intros [= _ <-]|].
  destruct (writeGap_ok (o_gap o) now s C1) as [Hok1 Hq1]; [unfold seq_room; lia|done|].
  set (s1 := writeGap (o_gap o) now s) in *. cbv zeta. destruct (sp_write (o_rec o) now rec s1) as [ok s2] eqn:Ew.
  destruct (write_client (o_rec o) now rec s1 s2 ok C2) as (Hok2 & Hq2 & Hw); [unfold seq_room; lia|done..|].
  destruct ok; simpl; [|by intros [= _ <-]]. destruct (Hw eq_refl) as (Hlost & v & Hat & Hsome).
  destruct (sp_cp s2) as [cp|]; [|by intros [= _ <-]].
  destruct (Every cp <=? sp_since s2)%Z; intros [= _ <-]; [|done].
  destruct Hok2 as (v2 & Hat2 & Hl2). assert (v2 = v) as ->.
  { pose proof (la_verify _ _ (sa_at _ _ Hat)). pose proof (la_verify _ _ (sa_at _ _ Hat2)). congruence. }
  eapply (checkpoint_ok (o_cp o) now s2 v); [done|unfold seq_room; lia|done|done|done|by left].
Qed.

Lemma Close_ok o now s r s' :
  clean o → seq_room 3 s → gap_first (o_gap o) (o_cp o) now (set_closed s) →
  spool_ok s → sp_Close o now s = (r, s') → spool_ok s'.
Proof using hash_nonempty.
  intros (C1 & C2 & C3) Hroom Hgap Hok. unfold AuditLog.sp_Close. unfold seq_room in *.
  destruct (sp_closed s); [by intros [= _ <-]|].
  assert (spool_ok (set_closed s)) as Hokc by (destruct Hok as (v & [] & ?); by exists v).
  destruct (writeGap_ok (o_gap o) now (set_closed s) C1) as [Hok1 Hq1]; [unfold seq_room; simpl; lia|done|].
  simpl in Hq1. set (s1 := writeGap (o_gap o) now (set_closed s)) in *. cbv zeta.
  destruct (sp_cp s1) as [cp|]; [|by intros [= _ <-]].
  destruct (0 <? sp_since s1)%Z eqn:Es; intros [= _ <-]; [|done]. apply Z.ltb_lt in Es.
  destruct Hok1 as (v & Hat & Hl).
  eapply (checkpoint_ok (o_cp o) now s1 v); [done|unfold seq_room; lia|done|done|by apply (sa_since _ _ Hat)|done].
Qed.

Lemma Open_ok out now detail cp f r f' :
  clean_write out → cp_trusted cp → (e_seq (scanSpool f) + 1 ≤ U64.max)%N → lines_ok (f_lines f) →
  OpenSpool out now detail cp f = (r, f') →
  lines_ok (f_lines f') ∧ ∀ s, r = Some s → spool_ok s ∧ sp_f s = f'.
Proof using hash_nonempty.
  intros Hout Hcp Hroom Hl. unfold AuditLog.OpenSpool. destruct (lines_ok_at _ Hl) as (v & Hat).
  set (cp' := match cp with Some c => _ | None => _ end).
  assert (cp_trusted cp') as Hcp'.
  { intros c Hc. destruct cp as [c0|]; [|done]. unfold cp' in Hc. destruct (Hcp c0 eq_refl) as (pub & ? & ?).
    destruct (Every c0 <=? 0)%Z; injection Hc as <-; by exists pub. }
  set (s0 := mkSpool f (e_seq (scanSpool f)) (e_hash (scanSpool f)) (negb (f_nl f)) None "" cp' 0 0 false).
  assert (spool_at s0 v) as Hs0.
  { split; simpl; try done; [by intros ->|]. destruct Hat as [_ Hs]. unfold scanSpool. destruct (v_prev v) as [p|].
    - by rewrite Hs.
    - by destruct Hs. }
  destruct (e_torn (scanSpool f)) eqn:Et.
  - destruct (sp_write out now (gapRecord None detail) s0) as [[] s'] eqn:Ew; intros [= <- <-].
    + destruct (write_succeeds _ _ _ _ _ v (λ h, mkReport (rp_Records (v_rep v) + 1) (rp_Unchained (v_rep v))
        (rp_Gaps (v_rep v) ++ [with_hash h (with_chain (sp_seq s0 + 1) now (sp_prev s0) (gapRecord None detail))])
        (rp_Checkpoints (v_rep v)) (rp_SignedSeq (v_rep v)) (rp_Unsigned (v_rep v) + 1)) Hs0 Hroom Ew)
        as (h & Hat2 & Hq2 & Hl2 & _); try done.
      * intros h. unfold seqFault. simpl. destruct Hat as [_ Hs]. unfold scanSpool.
        destruct (v_prev v) as [q|] eqn:Eq; [|by destruct Hs as [-> _]]. rewrite Hs. simpl.
        rewrite bool_decide_eq_true_2 by done. simpl. unfold scanSpool in Hroom. rewrite Hs in Hroom. simpl in Hroom.
        rewrite U64.succ_small by lia. by rewrite bool_decide_eq_true_2.
      * split; [apply (sa_lines _ _ Hat2)|]. intros ? [= <-]. split; [|done]. eexists. split; [exact Hat2|].
        unfold lost_ok. rewrite Hl2. simpl. split; [done|]. by intros ? [= <-].
    + destruct (write_fails _ _ _ _ _ v Hs0 Hout Hroom Ew) as (v' & Hat2 & _).
      split; [apply (sa_lines _ _ Hat2)|done].
  - intros [= <- <-]. split; [done|]. intros ? [= <-]. split; [|done]. exists v. split; [done|].
    unfold lost_ok. simpl. destruct Hat as [_ Hs]. unfold scanSpool in *. destruct (v_prev v) as [p|].
    + rewrite Hs in *. simpl in *. split; [done|]. by intros ? [= <-].
    + by destruct Hs.
Qed.

(** *** Every history of the log

    The spool of the process that runs, if any, and the file. *)
Inductive log_step : option Spool * sfile → option Spool * sfile → Prop :=
| lg_open out now detail cp f r f' :
    clean_write out → cp_trusted cp → (e_seq (scanSpool f) + 1 ≤ U64.max)%N →
    OpenSpool out now detail cp f = (r, f') → log_step (None, f) (r, f')
| lg_append o now rec s r s' f :
    clean o → client_record rec → seq_room 3 s → gap_first (o_gap o) (o_rec o) now s →
    sp_Append o now rec s = (r, s') → log_step (Some s, f) (Some s', sp_f s')
| lg_close o now s r s' f :
    clean o → seq_room 3 s → gap_first (o_gap o) (o_cp o) now (set_closed s) →
    sp_Close o now s = (r, s') → log_step (Some s, f) (Some s', sp_f s')
(** The process ends; a crash of the machine may keep any prefix of the lines,
    and part of the next one. *)
| lg_crash s k (torn nl : bool) f :
    log_step (Some s, f) (None, mkFile (take k (f_lines f) ++ (if torn then [LBad] else [])) nl).

Definition log_ok (w : option Spool * sfile) : Prop :=
  lines_ok (f_lines w.2) ∧ ∀ s, w.1 = Some s → spool_ok s ∧ sp_f s = w.2.

Lemma log_ok_spool s : spool_ok s → log_ok (Some s, sp_f s).
Proof. intros Hok. destruct Hok as (v & Hat & Hl). split; [apply (sa_lines _ _ Hat)|]. intros ? [= <-]. split; [by exists v|done]. Qed.

Lemma log_step_ok w w' : log_step w w' → log_ok w → log_ok w'.
Proof using hash_nonempty.
  intros Hs [Hl Hsp]. destruct Hs; simpl in *.
  - by eapply Open_ok.
  - apply log_ok_spool. eapply Append_ok; try done. by apply Hsp.
  - apply log_ok_spool. eapply Close_ok; try done. by apply Hsp.
  - split; [|done]. simpl. assert (lines_ok (take k (f_lines f))) as Hk.
    { intros j. rewrite take_take. apply Hl. }
    destruct torn; [|by rewrite app_nil_r]. destruct (lines_ok_at _ Hk) as (v & Hv).
    eapply lines_ok_snoc; [done|]. by apply lines_at_torn.
Qed.

(** Records from before the chain: no hash, or no record at all. *)
Definition unchained (x : fline) : Prop := match x with LBad => True | LRec r => ar_Hash r = "" end.

Lemma lines_ok_legacy xs : Forall unchained xs → lines_ok xs.
Proof.
  intros Hall k. assert (Forall unchained (take k xs)) as Hk by (by apply Forall_take). revert Hk. clear Hall. generalize (take k xs). clear k xs. intros xs Hall.
  cut (∃ rep, lines_at xs (mkV rep None false)); [intros [rep H]; by exists (mkV rep None false)|].
  induction xs as [|x xs IH] using rev_ind.
  - exists (mkReport 0 0 [] 0 0 0). by split.
  - apply Forall_app in Hall as [Hall Hx]. destruct (IH Hall) as [rep [Hv Hs]]. simpl in Hs.
    exists (rep_unchained rep). split; simpl.
    + rewrite verifyLines_snoc, Hv. destruct x as [r|]; simpl; [|done].
      apply Forall_inv in Hx. simpl in Hx. by rewrite bool_decide_eq_true_2.
    + rewrite foldl_app. simpl. apply Forall_inv in Hx. destruct x; simpl in *; by destruct Hs.
Qed.

(** The honest log verifies.  From any file of unchained lines, over any
    opens, appends, failed and torn writes, closes and crashes that keep a
    prefix, [VerifySpool] accepts the file at every point, as long as the gap
    that names lost records is written before the record after them and no
    write fails exactly between a record and its newline. *)
Theorem honest_log_verifies xs nl w :
  Forall unchained xs → rtc log_step (None, mkFile xs nl) w → ∃ r, VerifySpool w.2 = inl r.
Proof using hash_nonempty.
  intros Hall Hr. assert (log_ok w) as [Hl _].
  { assert (log_ok (None, mkFile xs nl)) as H0 by (split; [by apply lines_ok_legacy|done]).
    clear Hall. induction Hr; eauto using log_step_ok. }
  destruct (lines_ok_at _ Hl) as (v & Hv & _). exists (v_rep v, v_torn v). unfold AuditLog.VerifySpool. by rewrite Hv.
Qed.
End Facts.

(** ** Witnesses and the two gaps of the chain *)

Definition demo_hash (r : AuditRecord) : option string :=
  Some ("h" +:+ FormatUint (ar_Seq r) +:+ ar_Event r +:+ ar_PrevHash r).
Definition demo_sign (key payload : string) : string := key +:+ payload.
Definition demo_verify (pub payload sig : string) : bool := sig ==? (pub +:+ payload).
Definition demo_trust : gmap string string := {["k" := "K"]}.
Definition demo_cp : option Checkpoints := Some (mkCheckpoints "k" "K" 2).
Definition demo_rec : AuditRecord := event "clone" (mkFence "g-1" 1 1) "s" "g-1/1/1" "".
Definition all_w : outcomes := mkOutcomes WOk WOk WOk.
Definition demo_open : Spool := mkSpool (mkFile [] true) 0 "" false None "" demo_cp 0 0 false.
Definition demo_append (o : outcomes) (s : Spool) : Spool := (sp_Append demo_hash demo_sign o 7%Z demo_rec s).2.
Definition torn_w : outcomes := mkOutcomes WOk (WTorn "disk full") WOk.

(** Two records, one lost to a full disk, the gap, a record, a checkpoint. *)
Definition demo_log : Spool := demo_append all_w (demo_append torn_w (demo_append all_w demo_open)).

Lemma honest_log_verifies_witness :
  ∃ r, VerifySpool demo_hash demo_verify demo_trust (Some demo_log, sp_f demo_log).2 = inl r.
Proof.
  apply (honest_log_verifies demo_hash demo_sign demo_verify demo_trust ltac:(by intros ? ? [= <-])
    [] true (Some demo_log, sp_f demo_log)); [constructor|].
  unfold demo_log.
  assert (∀ o s, clean o → client_record demo_rec → seq_room 3 s → gap_first demo_hash (o_gap o) (o_rec o) 7%Z s →
    log_step demo_hash demo_sign demo_verify demo_trust (Some s, sp_f s) (Some (demo_append o s), sp_f (demo_append o s))) as Hap.
  { intros o s H1 H2 H3 H4. eapply lg_append; [exact H1|exact H2|exact H3|exact H4|]. apply surjective_pairing. }
  eapply rtc_l.
  { apply (lg_open _ _ _ _ WOk 7%Z "" demo_cp _ (Some demo_open) (mkFile [] true)); [exact I| |vm_compute; congruence|reflexivity].
    intros c [= <-]. exists "K". split; [reflexivity|]. intros. unfold demo_verify, demo_sign. by rewrite bool_decide_eq_true_2. }
  assert (client_record demo_rec) as Hcr by (split; discriminate).
  eapply rtc_l; [apply (Hap all_w demo_open); [done|done|vm_compute; discriminate|left; reflexivity]|].
  eapply rtc_l; [apply (Hap torn_w); [done|done|vm_compute; discriminate|left; reflexivity]|].
  eapply rtc_l; [apply (Hap all_w); [done|done|vm_compute; discriminate|left; vm_compute; reflexivity]|].
  apply rtc_refl.
Defined.

(** Identity-like hash for the collision-free hypothesis: a code of the record. *)
#[export] Instance SeqRange_countable : Countable SeqRange.
Proof. refine (inj_countable' (λ r, (From r, To r)) (λ x, mkRange x.1 x.2) _). by intros []. Defined.
#[export] Instance Fence_countable : Countable Fence.
Proof. refine (inj_countable' (λ f, (GrantUID f, Epoch f, Seq f)) (λ x, mkFence x.1.1 x.1.2 x.2) _). by intros []. Defined.
#[export] Instance AuditRecord_countable : Countable AuditRecord.
Proof.
  refine (inj_countable'
    (λ r, ((ar_Seq r, ar_Time r : Z, ar_Event r, ar_Fence r, ar_Session r, ar_FiberID r, ar_Detail r),
           (ar_Scope r, ar_Lost r, ar_Signer r, ar_Signature r, ar_PrevHash r, ar_Hash r)))
    (λ x, let '((a, b, c, d, e, f, g), (h, i, j, k, l, m)) := x in mkAudit a b c d e f g h i j k l m) _).
  by intros [].
Defined.

Definition inj_hash (r : AuditRecord) : option string := Some (FormatUint (N.pos (encode r))).

Lemma inj_hash_collision_free : collision_free inj_hash.
Proof. intros a b h [= <-] [= E%FormatUint_inj]. injection E as E%(inj encode). done. Qed.

Definition inj_rec : AuditRecord :=
  let r := with_chain 1 7%Z "" demo_rec in with_hash (default "" (recordHash inj_hash r)) r.
Definition inj_file : sfile := mkFile [LRec inj_rec] true.

Lemma inj_rec_verifies v :
  v_prev v = None → v_torn v = false →
  verifyLine inj_hash demo_verify demo_trust v (LRec inj_rec) =
  inl (mkV (mkReport (rp_Records (v_rep v) + 1) (rp_Unchained (v_rep v)) (rp_Gaps (v_rep v)) (rp_Checkpoints (v_rep v))
    (rp_SignedSeq (v_rep v)) (rp_Unsigned (v_rep v) + 1)) (Some inj_rec) false).
Proof.
  intros Hp Ht.
  assert (recordHash inj_hash inj_rec = Some (ar_Hash inj_rec)) as Hh by reflexivity.
  assert (ar_Hash inj_rec ≠ "") as Hne by (unfold inj_rec, inj_hash; simpl; apply FormatUint_ne).
  assert (ar_PrevHash inj_rec = "") as Hph by reflexivity.
  assert (ar_Event inj_rec = "clone") as He by reflexivity.
  unfold verifyLine. rewrite (bool_decide_eq_false_2 _ Hne), Hh, (bool_decide_eq_true_2 _ eq_refl). simpl negb. cbv iota.
  unfold seqFault, eventStep. rewrite Hp, Ht, Hph, He. done.
Qed.

Lemma verified_log_binds_witness :
  chained (f_lines inj_file) = chained (f_lines (mkFile (LBad :: f_lines inj_file) true)).
Proof.
  refine (verified_log_binds inj_hash demo_verify demo_trust inj_file (mkFile (LBad :: f_lines inj_file) true)
    (mkV (mkReport 1 0 [] 0 0 1) (Some inj_rec) false) (mkV (mkReport 1 1 [] 0 0 1) (Some inj_rec) false)
    inj_rec inj_rec inj_hash_collision_free _ _ eq_refl eq_refl eq_refl).
  - change (f_lines inj_file) with [LRec inj_rec]. cbn [verifyLines]. by rewrite inj_rec_verifies.
  - change (f_lines (mkFile (LBad :: f_lines inj_file) true)) with [LBad; LRec inj_rec]. cbn [verifyLines].
    change (verifyLine inj_hash demo_verify demo_trust v0 LBad) with (@inl vstate vfault (mkV (mkReport 0 1 [] 0 0 0) None false)).
    cbv iota. by rewrite inj_rec_verifies.
Defined.

(** A gap that is lost breaks the chain.  One record is written, the disk
    fills and a record is lost, then the write of the gap fails and the next
    record's succeeds: its number follows nothing, and [VerifySpool] refuses
    the log from then on, though nobody touched it.  So does a [Close] in place
    of that record: its checkpoint signs the last number assigned, which is the
    lost gap's, with the hash of the last record written. *)
Theorem lost_gap_breaks_chain :
  let full := WNone "no space left on device" in
  let s1 := demo_append all_w demo_open in
  let s2 := demo_append (mkOutcomes WOk full WOk) s1 in
  let s3 := demo_append (mkOutcomes full WOk WOk) s2 in
  let s4 := demo_append all_w s3 in
  let closed := (sp_Close demo_hash demo_sign (mkOutcomes full WOk WOk) 8%Z s2).2 in
  (∃ r, VerifySpool demo_hash demo_verify demo_trust (sp_f s2) = inl r) ∧
  VerifySpool demo_hash demo_verify demo_trust (sp_f s3) = inr BadSeqNo ∧
  VerifySpool demo_hash demo_verify demo_trust (sp_f s4) = inr BadSeqNo ∧
  VerifySpool demo_hash demo_verify demo_trust (sp_f closed) = inr BadSeqNo.
Proof. split_and!; [eexists; vm_compute; reflexivity|vm_compute; reflexivity..]. Qed.

(** ** Group commit

    The spool under concurrent callers.  Append and Close each write under the
    spool's lock and read the watermark there; a Sync caller then waits in
    syncThrough for an fsync that began after its write. *)

(** Where a caller of syncThrough stands. *)
Inductive told := Waiting | Nil | Failed.

(** A call in syncThrough: the record it appended (none for Close), the file
    before and after its hold of the lock, the watermark it took from it. *)
Record syncCall := mkCall {
  sc_rec : option AuditRecord; sc_before : list fline; sc_after : list fline; sc_n : N; sc_told : told;
}.

(** [g_syncing] is the fsync in flight: the watermark its leader read, and, once
    it has begun, what the file held then.  [g_durable] is what completed fsyncs
    have made durable. *)
Record group := mkGroup {
  g_spool : Spool; g_synced : N; g_syncing : option (N * option (list fline)); g_poison : bool;
  g_durable : list fline; g_calls : gmap nat syncCall;
}.

Definition linesOf (s : Spool) : list fline := f_lines (sp_f s).
Definition tell (x : told) (c : syncCall) : syncCall := mkCall (sc_rec c) (sc_before c) (sc_after c) (sc_n c) x.

(** A record as the spool wrote it: the caller's, with its place in the chain. *)
Definition inChain (rec r : AuditRecord) : Prop := ∃ seq now prev h, r = with_hash h (with_chain seq now prev rec).

Section Group.
Context (hashJSON : AuditRecord → option string) (signB64 : string → string → string).
Notation sp_write := (sp_write hashJSON).
Notation writeGap := (writeGap hashJSON).
Notation checkpoint := (checkpoint hashJSON signB64).
Notation sp_Append := (sp_Append hashJSON signB64).
Notation sp_Close := (sp_Close hashJSON signB64).

(** The holds of the spool's lock by Append and Close, and
    [func (s *Spool) syncThrough(n uint64) error] as the turns of its loop
    between the holds of [syncMu].  The counter of records stays below 2^64. *)
Inductive group_step : group → group → Prop :=
| gs_append i o now rec n s s' sy sg po du cs :
    cs !! i = None → (sp_written s + 3 ≤ U64.max)%N →
    sp_Append o now rec s = (inl n, s') →
    group_step (mkGroup s sy sg po du cs)
               (mkGroup s' sy sg po du (<[i := mkCall (Some rec) (linesOf s) (linesOf s') n Waiting]> cs))
| gs_unsynced o now rec r s s' sy sg po du cs :
    (** a BestEffort append, or one that fails *)
    (sp_written s + 3 ≤ U64.max)%N →
    sp_Append o now rec s = (r, s') →
    group_step (mkGroup s sy sg po du cs) (mkGroup s' sy sg po du cs)
| gs_close i o now n s s' sy sg po du cs :
    cs !! i = None → (sp_written s + 3 ≤ U64.max)%N →
    sp_Close o now s = (Some n, s') →
    group_step (mkGroup s sy sg po du cs)
               (mkGroup s' sy sg po du (<[i := mkCall None (linesOf s) (linesOf s') n Waiting]> cs))
| gs_covered i c s sy sg po du cs :
    cs !! i = Some c → sc_told c = Waiting → (sc_n c ≤ sy)%N →
    group_step (mkGroup s sy sg po du cs) (mkGroup s sy sg po du (<[i := tell Nil c]> cs))
| gs_refused i c s sy sg du cs :
    cs !! i = Some c → sc_told c = Waiting → (sy < sc_n c)%N →
    group_step (mkGroup s sy sg true du cs) (mkGroup s sy sg true du (<[i := tell Failed c]> cs))
| gs_lead i c s sy du cs :
    cs !! i = Some c → sc_told c = Waiting → (sy < sc_n c)%N →
    group_step (mkGroup s sy None false du cs) (mkGroup s sy (Some (sp_written s, None)) false du cs)
| gs_begin upto s sy po du cs :
    group_step (mkGroup s sy (Some (upto, None)) po du cs) (mkGroup s sy (Some (upto, Some (linesOf s))) po du cs)
| gs_synced upto ls s sy po du cs :
    group_step (mkGroup s sy (Some (upto, Some ls)) po du cs) (mkGroup s (N.max sy upto) None po ls cs)
| gs_failed upto ls s sy po du cs :
    group_step (mkGroup s sy (Some (upto, Some ls)) po du cs) (mkGroup s sy None true du cs).

Definition group_init (s : Spool) : group := mkGroup s 0 None false [] ∅.

(** *** One hold of the lock: the file only fileGrows *)

(** A file that does not end in a newline is continued on a new line. *)
Definition nl_ok (s : Spool) : Prop := f_nl (sp_f s) = false → sp_newline s = true.

Definition fileGrows (k : N) (s s' : Spool) : Prop :=
  nl_ok s' ∧ linesOf s `prefix_of` linesOf s' ∧ (sp_written s ≤ sp_written s' ≤ sp_written s + k)%N.

Lemma fileGrows_refl k s : nl_ok s → fileGrows k s s.
Proof. intros ?. split_and!; try done; lia. Qed.
Lemma fileGrows_trans k l s1 s2 s3 : fileGrows k s1 s2 → fileGrows l s2 s3 → fileGrows (k + l) s1 s3.
Proof. intros (_ & P1 & W1) (N2 & P2 & W2). split_and!; [done|by trans (linesOf s2)|lia..]. Qed.
Lemma fileGrows_le k l s s' : fileGrows k s s' → (k ≤ l)%N → fileGrows l s s'.
Proof. intros (? & ? & ?) ?. split_and!; try done; lia. Qed.

Lemma put_grows s out r :
  nl_ok s → f_lines (sp_f s) `prefix_of` f_lines (put (sp_newline s) out r (sp_f s)).
Proof.
  unfold nl_ok. destruct (sp_f s) as [ls nl]. destruct (sp_newline s), nl; cbn; intros H;
    try (discriminate (H eq_refl)); destruct out; cbn; try done; by apply prefix_app_r.
Qed.

Lemma sp_write_grows out now rec s ok s' :
  nl_ok s → (sp_written s < U64.max)%N → sp_write out now rec s = (ok, s') →
  fileGrows 1 s s' ∧ sp_cp s' = sp_cp s ∧
  (ok = true → sp_written s' = (sp_written s + 1)%N ∧ ∃ r, inChain rec r ∧ linesOf s' = linesOf s ++ [LRec r]).
Proof.
  intros Hn Hr. unfold AuditLog.sp_write. destruct (recordHash _ _) as [h|].
  - destruct (w_ok out) eqn:Eo; intros [= <- <-].
    + assert (linesOf (mkSpool (put (sp_newline s) WOk (with_hash h (with_chain (U64.succ (sp_seq s)) now (sp_prev s) rec)) (sp_f s))
        (U64.succ (sp_seq s)) h false (sp_lost s) (sp_lostErr s) (sp_cp s) (sp_since s + 1) (U64.succ (sp_written s)) (sp_closed s))
        = linesOf s ++ [LRec (with_hash h (with_chain (U64.succ (sp_seq s)) now (sp_prev s) rec))]
        ∧ f_nl (put (sp_newline s) WOk (with_hash h (with_chain (U64.succ (sp_seq s)) now (sp_prev s) rec)) (sp_f s)) = true) as [El Enl].
      { unfold linesOf, nl_ok in *. cbn [sp_f]. destruct (sp_f s) as [ls nl]. destruct (sp_newline s), nl; cbn in *; try done.
        discriminate (Hn eq_refl). }
      assert (U64.succ (sp_written s) = sp_written s + 1)%N as Ew by (by rewrite U64.succ_small).
      split; [|split; [done|]].
      * split_and!; [intros Hf; discriminate (eq_trans (eq_sym Enl) Hf)|exists [LRec (with_hash h (with_chain (U64.succ (sp_seq s)) now (sp_prev s) rec))]; exact El|cbn [sp_written]; rewrite Ew; lia..].
      * intros _. split; [exact Ew|]. eexists. split; [by repeat eexists|exact El].
    + split; [|done]. split_and!; [done|by apply put_grows|cbn; lia..].
  - intros [= <- <-]. split; [|done]. split_and!; [done|done|cbn; lia..].
Qed.

Lemma set_lost_grows k l s s' : fileGrows k s s' → fileGrows k s (set_lost l s').
Proof. done. Qed.

Lemma writeGap_grows out now s :
  nl_ok s → (sp_written s < U64.max)%N → fileGrows 1 s (writeGap out now s).
Proof.
  intros Hn Hr. unfold AuditLog.writeGap. destruct (sp_lost s) as [l|]; [|by apply fileGrows_refl].
  destruct (sp_write _ _ _ _) as [ok s'] eqn:E.
  destruct (sp_write_grows _ _ _ (set_lost None s) _ _ Hn Hr E) as [Hg _].
  destruct ok; exact Hg.
Qed.

Lemma checkpoint_grows out now s :
  nl_ok s → (sp_written s < U64.max)%N → fileGrows 1 s (checkpoint out now s).
Proof.
  intros Hn Hr. unfold AuditLog.checkpoint. destruct (sp_cp s) as [cp|]; [|by apply fileGrows_refl].
  destruct (sp_write _ _ _ _) as [ok s'] eqn:E.
  destruct (sp_write_grows _ _ _ s _ _ Hn Hr E) as [Hg _]. destruct ok; exact Hg.
Qed.

(** The checkpoint a call makes when it is due. *)
Lemma due_grows (b : bool) out now s :
  nl_ok s → (sp_written s < U64.max)%N → fileGrows 1 s (if b then checkpoint out now s else s).
Proof. intros ??. destruct b; [by apply checkpoint_grows|by apply fileGrows_refl]. Qed.

(** The line a call wrote for its own record. *)
Definition ownLine (rec : AuditRecord) (before after : list fline) : Prop :=
  ∃ k own, (length before ≤ k)%nat ∧ inChain rec own ∧ after !! k = Some (LRec own).

Lemma sp_Append_grows o now rec s r s' :
  nl_ok s → (sp_written s + 3 ≤ U64.max)%N → sp_Append o now rec s = (r, s') →
  fileGrows 3 s s' ∧
  ∀ n, r = inl n → n = sp_written s' ∧ (sp_written s < n)%N ∧ ownLine rec (linesOf s) (linesOf s').
Proof.
  intros Hn Hr. unfold AuditLog.sp_Append. destruct (sp_closed s).
  { intros [= <- <-]. split; [by apply fileGrows_refl|by intros ?]. }
  pose proof (writeGap_grows (o_gap o) now s Hn ltac:(lia)) as G1.
  set (s1 := writeGap (o_gap o) now s) in *. destruct G1 as (N1 & P1 & W1).
  destruct (sp_write (o_rec o) now rec s1) as [ok s2] eqn:Ew.
  destruct (sp_write_grows _ _ _ _ _ _ N1 ltac:(lia) Ew) as (G2 & _ & Hown).
  pose proof (fileGrows_trans 1 1 s s1 s2 (conj N1 (conj P1 W1)) G2) as G12.
  destruct ok; cbn [negb].
  2:{ intros [= <- <-]. split; [eapply fileGrows_le; [exact G12|lia]|by intros ?]. }
  destruct Hown as (Hw & own & Hch & El); [done|]. destruct G2 as (N2 & P2 & W2).
  match goal with |- (inl (sp_written ?x), ?x) = _ → _ => assert (fileGrows 1 s2 x) as G3 end.
  { destruct (sp_cp s2) as [cp|]; [|by apply fileGrows_refl]. apply due_grows; [done|]. lia. }
  intros [= <- <-]. match goal with |- fileGrows 3 s ?x ∧ _ => set (s3 := x) in * end.
  split; [eapply fileGrows_le; [eapply fileGrows_trans; [exact G12|exact G3]|lia]|].
  intros n [= <-]. destruct G3 as (_ & P3 & W3). split; [done|]. split; [lia|].
  exists (length (linesOf s1)), own. split; [by apply prefix_length|]. split; [done|].
  eapply prefix_lookup_Some; [|exact P3]. rewrite El. rewrite lookup_app_r, Nat.sub_diag by lia. done.
Qed.

Lemma sp_Close_grows o now s r s' :
  nl_ok s → (sp_written s + 3 ≤ U64.max)%N → sp_Close o now s = (r, s') →
  fileGrows 3 s s' ∧ ∀ n, r = Some n → n = sp_written s'.
Proof.
  intros Hn Hr. unfold AuditLog.sp_Close. destruct (sp_closed s).
  { intros [= <- <-]. split; [by apply fileGrows_refl|done]. }
  assert (fileGrows 0 s (set_closed s)) as G0 by (split_and!; cbn; try done; lia).
  pose proof (writeGap_grows (o_gap o) now (set_closed s) Hn ltac:(cbn; lia)) as G1.
  set (s1 := writeGap (o_gap o) now (set_closed s)) in *.
  pose proof (fileGrows_trans _ _ _ _ _ G0 G1) as G01. pose proof G01 as (N1 & _ & W1).
  match goal with |- (Some (sp_written ?x), ?x) = _ → _ => assert (fileGrows 1 s1 x) as G2 end.
  { destruct (sp_cp s1) as [cp|]; [|by apply fileGrows_refl]. apply due_grows; [done|]. lia. }
  intros [= <- <-]. split; [eapply fileGrows_le; [eapply fileGrows_trans; [exact G01|exact G2]|lia]|].
  by intros n [= <-].
Qed.

(** *** The invariant of the group *)

(** An append whose watermark is in [upto] has all it wrote in [ls]. *)
Definition coveredBy (upto : N) (ls : list fline) (c : syncCall) : Prop :=
  (sc_n c ≤ upto)%N → sc_after c `prefix_of` ls.

Record call_ok (g : group) (c : syncCall) (rec : AuditRecord) : Prop := {
  co_owns : ownLine rec (sc_before c) (sc_after c);
  co_file : sc_after c `prefix_of` linesOf (g_spool g);
  co_synced : coveredBy (g_synced g) (g_durable g) c;
  co_syncing : ∀ upto ls, g_syncing g = Some (upto, Some ls) → coveredBy upto ls c;
}.

Record group_inv (g : group) : Prop := {
  gi_nl : nl_ok (g_spool g);
  gi_file : g_durable g `prefix_of` linesOf (g_spool g);
  gi_synced : (g_synced g ≤ sp_written (g_spool g))%N;
  gi_syncing : ∀ upto o, g_syncing g = Some (upto, o) →
    (upto ≤ sp_written (g_spool g))%N ∧ g_poison g = false ∧
    ∀ ls, o = Some ls → g_durable g `prefix_of` ls ∧ ls `prefix_of` linesOf (g_spool g);
  gi_told : ∀ i c, g_calls g !! i = Some c → sc_told c = Nil → (sc_n c ≤ g_synced g)%N;
  gi_calls : ∀ i c rec, g_calls g !! i = Some c → sc_rec c = Some rec → call_ok g c rec;
}.

(** A hold of the lock that leaves the callers as they are. *)
Lemma group_inv_grows k s s' sy sg po du cs :
  fileGrows k s s' → group_inv (mkGroup s sy sg po du cs) → group_inv (mkGroup s' sy sg po du cs).
Proof.
  intros (Hn & Hp & Hw) [I1 I2 I3 I4 I5 I6]. cbn in *. split; cbn; try done; [by trans (linesOf s)|lia| |].
  - intros upto o E. destruct (I4 upto o E) as (? & ? & Hls). split; [lia|]. split; [done|].
    intros ls El. destruct (Hls ls El). split; [done|]. by trans (linesOf s).
  - intros i c rec Hc Hr. destruct (I6 i c rec Hc Hr) as [J1 J2 J3 J4]. cbn in *.
    split; cbn; try done. by trans (linesOf s).
Qed.

(** A new caller, whose watermark no fsync so far coveredBy, unless it is Close. *)
Lemma group_inv_arrive i s sy sg po du cs orec before n :
  (∀ rec, orec = Some rec → ownLine rec before (linesOf s) ∧ (sy < n)%N ∧
     ∀ upto o, sg = Some (upto, o) → (upto < n)%N) →
  group_inv (mkGroup s sy sg po du cs) →
  group_inv (mkGroup s sy sg po du (<[i := mkCall orec before (linesOf s) n Waiting]> cs)).
Proof.
  intros Hnew [I1 I2 I3 I4 I5 I6]. cbn in *. split; cbn; try done.
  - intros j c [[_ <-]|[_ ?]]%lookup_insert_Some; [done|by eauto].
  - intros j c rec [[_ <-]|[_ Hj]]%lookup_insert_Some Hr; [|destruct (I6 j c rec Hj Hr); by split].
    destruct (Hnew rec Hr) as (Ho & Hs & Hu). split; cbn; [done|done|unfold coveredBy; cbn; lia|].
    intros upto ls E. unfold coveredBy. cbn. specialize (Hu _ _ E). lia.
Qed.

Lemma group_inv_tell i c x s sy sg po du cs :
  cs !! i = Some c → (x = Nil → (sc_n c ≤ sy)%N) →
  group_inv (mkGroup s sy sg po du cs) → group_inv (mkGroup s sy sg po du (<[i := tell x c]> cs)).
Proof.
  intros Hc Hx [I1 I2 I3 I4 I5 I6]. cbn in *. split; cbn; try done.
  - intros j c' [[_ <-]|[_ ?]]%lookup_insert_Some; [exact Hx|by eauto].
  - intros j c' rec [[_ <-]|[_ Hj]]%lookup_insert_Some Hr; [|destruct (I6 j c' rec Hj Hr); by split].
    destruct (I6 i c rec Hc Hr) as [J1 J2 J3 J4]. by split.
Qed.

Lemma group_inv_step g g' : group_step g g' → group_inv g → group_inv g'.
Proof.
  intros Hs HI. destruct Hs as [i o now rec n s s' sy sg po du cs Hi Hr E|o now rec r s s' sy sg po du cs Hr E
    |i o now n s s' sy sg po du cs Hi Hr E|i c s sy sg po du cs Hc Ht Hle|i c s sy sg du cs Hc Ht Hlt
    |i c s sy du cs Hc Ht Hlt|upto s sy po du cs|upto ls s sy po du cs|upto ls s sy po du cs].
  - destruct (sp_Append_grows _ _ _ _ _ _ (gi_nl _ HI) Hr E) as [Hg Hn]. destruct (Hn n eq_refl) as (-> & Hlt & Ho).
    apply group_inv_arrive; [|by eapply group_inv_grows].
    intros rec' [= <-]. split; [done|]. pose proof (gi_synced _ HI). cbn in *. split; [lia|].
    intros upto o' Eo. destruct (gi_syncing _ HI upto o' Eo) as [? _]. cbn in *. lia.
  - destruct (sp_Append_grows _ _ _ _ _ _ (gi_nl _ HI) Hr E) as [Hg _]. by eapply group_inv_grows.
  - destruct (sp_Close_grows _ _ _ _ _ (gi_nl _ HI) Hr E) as [Hg _].
    apply group_inv_arrive; [done|by eapply group_inv_grows].
  - by apply group_inv_tell.
  - by apply group_inv_tell.
  - destruct HI as [I1 I2 I3 I4 I5 I6]. cbn in *. split; cbn; try done; [by intros ? ? [= <- <-]|].
    intros j c' rec Hj Hr'. destruct (I6 j c' rec Hj Hr'). by split.
  - destruct HI as [I1 I2 I3 I4 I5 I6]. cbn in *. destruct (I4 upto None eq_refl) as (? & ? & _). split; cbn; try done.
    + intros ? ? [= <- <-]. split_and!; try done. by intros ls [= <-].
    + intros j c' rec Hj Hr'. destruct (I6 j c' rec Hj Hr') as [J1 J2 J3 J4]. split; cbn; try done.
      intros ? ? [= <- <-] _. exact J2.
  - destruct HI as [I1 I2 I3 I4 I5 I6]. cbn in *. destruct (I4 upto (Some ls) eq_refl) as (? & ? & Hls).
    destruct (Hls ls eq_refl) as [Hd Hf]. split; cbn; try done; [lia| |].
    + intros j c' Hj Ht. specialize (I5 j c' Hj Ht). lia.
    + intros j c' rec Hj Hr'. destruct (I6 j c' rec Hj Hr') as [J1 J2 J3 J4]. split; cbn; try done.
      intros [Hle|Hle]%N.max_le; [trans du; [by apply J3|done]|by apply (J4 upto ls)].
  - destruct HI as [I1 I2 I3 I4 I5 I6]. cbn in *. split; cbn; try done.
    intros j c' rec Hj Hr'. destruct (I6 j c' rec Hj Hr'). by split.
Qed.

(** A spool just opened. *)
Lemma group_inv_open out now detail cp f s f' :
  OpenSpool hashJSON out now detail cp f = (Some s, f') → group_inv (group_init s).
Proof.
  intros E. assert (nl_ok s) as Hn.
  { unfold OpenSpool in E. destruct (e_torn (scanSpool f)).
    - destruct (sp_write _ _ _ _) as [[] s'] eqn:Ew; [|done]. injection E as <- _.
      apply sp_write_grows in Ew as [(? & _) _]; [done| |done]. unfold nl_ok. cbn. by intros ->.
    - injection E as <- _. unfold nl_ok. cbn. by intros ->. }
  split; cbn; try done; [apply prefix_nil|lia].
Qed.

(** C29: a Sync append that returns nil is durable.  The spool is opened, and
    any number of callers append to it, at most one closes it, with any write
    or fsync failing, and with fewer records than a uint64 counts; each hold of
    the lock and each turn of syncThrough is a step, in any order.  For every Sync append
    told nil, the line its own hold of the lock wrote for its record stands at
    its place in what completed fsyncs have made durable; and once an fsync has
    failed no other ever runs, so nothing is made durable, or reported so,
    after it. *)
Theorem sync_append_durable out now detail cp f s f' g :
  OpenSpool hashJSON out now detail cp f = (Some s, f') → rtc group_step (group_init s) g →
  (∀ i c rec, g_calls g !! i = Some c → sc_rec c = Some rec → sc_told c = Nil →
     ∃ k own, (length (sc_before c) ≤ k < length (sc_after c))%nat ∧ inChain rec own ∧
       sc_after c !! k = Some (LRec own) ∧ g_durable g !! k = Some (LRec own)) ∧
  (g_poison g = true → ∀ g', rtc group_step g g' →
     g_durable g' = g_durable g ∧ g_synced g' = g_synced g ∧ g_syncing g' = None ∧ g_poison g' = true).
Proof.
  intros Eo Hr. assert (group_inv g) as Hi.
  { pose proof (group_inv_open _ _ _ _ _ _ _ Eo) as H0. clear Eo. induction Hr; eauto using group_inv_step. }
  split.
  - intros i c rec Hc Hrec Ht. destruct (gi_calls _ Hi i c rec Hc Hrec) as [(k & own & Hk & Hch & Hl) _ Hcov _].
    exists k, own. split; [split; [done|by eapply lookup_lt_Some]|]. split; [done|]. split; [done|].
    eapply prefix_lookup_Some; [exact Hl|]. apply Hcov. by apply (gi_told _ Hi i).
  - intros Hp g' Hr'. assert (g_syncing g = None) as Hn.
    { destruct (g_syncing g) as [[u o]|] eqn:E; [|done]. destruct (gi_syncing _ Hi u o E) as (_ & ? & _). congruence. }
    clear Hr Hi Eo. induction Hr' as [|x y z Hs _ IH]; [done|].
    destruct Hs; simpl in *; try done; subst; by apply IH.
Qed.
End Group.

(** Two callers: the second's record is written after the first's fsync has
    read its watermark, so it leads another. *)
Definition demo_s1 : Spool := demo_append all_w demo_open.
Definition demo_s2 : Spool := demo_append all_w demo_s1.
Definition demo_call (s s' : Spool) (n : N) (x : told) : syncCall := mkCall (Some demo_rec) (linesOf s) (linesOf s') n x.
Definition demo_group : group :=
  mkGroup demo_s2 3 None false (linesOf demo_s2)
    (<[1 := demo_call demo_s1 demo_s2 3 Nil]> (<[0 := demo_call demo_open demo_s1 1 Nil]>
    (<[1 := demo_call demo_s1 demo_s2 3 Waiting]> (<[0 := demo_call demo_open demo_s1 1 Waiting]> ∅)))).

Lemma sync_append_durable_witness :
  ∃ k own, (length (linesOf demo_s1) ≤ k < length (linesOf demo_s2))%nat ∧ inChain demo_rec own ∧
    linesOf demo_s2 !! k = Some (LRec own) ∧ g_durable demo_group !! k = Some (LRec own).
Proof.
  refine (proj1 (sync_append_durable demo_hash demo_sign WOk 0%Z "" demo_cp (mkFile [] true) demo_open (mkFile [] true)
    demo_group eq_refl _) 1 (demo_call demo_s1 demo_s2 3 Nil) demo_rec eq_refl eq_refl eq_refl).
  eapply rtc_l; [eapply (gs_append _ _ 0 all_w 7%Z demo_rec 1); [reflexivity|vm_compute; discriminate|vm_compute; reflexivity]|].
  eapply rtc_l; [apply (gs_lead _ _ 0 (demo_call demo_open demo_s1 1 Waiting)); [reflexivity|reflexivity|vm_compute; reflexivity]|].
  eapply rtc_l; [apply gs_begin|].
  eapply rtc_l; [eapply (gs_append _ _ 1 all_w 7%Z demo_rec 3); [reflexivity|vm_compute; discriminate|vm_compute; reflexivity]|].
  eapply rtc_l; [apply gs_synced|].
  eapply rtc_l; [apply (gs_covered _ _ 0 (demo_call demo_open demo_s1 1 Waiting)); [reflexivity|reflexivity|vm_compute; discriminate]|].
  eapply rtc_l; [apply (gs_lead _ _ 1 (demo_call demo_s1 demo_s2 3 Waiting)); [reflexivity|reflexivity|vm_compute; reflexivity]|].
  eapply rtc_l; [apply gs_begin|].
  eapply rtc_l; [apply gs_synced|].
  eapply rtc_l; [apply (gs_covered _ _ 1 (demo_call demo_s1 demo_s2 3 Waiting)); [reflexivity|reflexivity|vm_compute; discriminate]|].
  apply rtc_refl.
Defined.
