(* ===== verification/Runtime.v ===== *)
(** * What Core is wired to (pkg/core/runtime.go, the types of pkg/core/core.go)

    The runtime, the verifier, the auditor, the snapshot store, the deny-list,
    the clock, the device provisioner: Core calls them through interfaces, and
    here they are the class [Env], operations on a state [E] nothing else
    touches.  An interface a runtime need not implement is an [option]. *)

From S2P Require Import Prelude GoLib Fence Errors Grant Ledger AuditLog.
From stdpp Require Import options.

(** [type CloneRequest struct] *)
Record CloneRequest := mkCloneRequest {
  cr_GrantJWT : string; cr_Session : string; cr_Deadline : Time.duration; cr_Payload : string;
  cr_CallerThumbprint : string; cr_CallerCert : string;
}.

(** [type CloneResponse struct] *)
Record CloneResponse := mkCloneResponse {
  rs_FiberID : string; rs_Endpoint : string; rs_Fence : Fence; rs_Kind : Action;
  rs_RoutingKey : string; rs_ServerKeySHA256 : string; rs_ServerCert : string;
}.
Definition zeroResponse : CloneResponse := mkCloneResponse "" "" zeroFence ActCreate "" "" "".

(** [type CloneSource int] *)
Inductive CloneSource := SourceZygote | SourceDelta.

(** [type CloneSpec struct] *)
Record CloneSpec := mkCloneSpec {
  cs_Grant : Grant; cs_Source : CloneSource; cs_Ref : string; cs_Fence : Fence;
  cs_Deadline : Time.duration; cs_Payload : string; cs_Session : string; cs_CallerCert : string;
}.

(** [type FiberExit struct] *)
Record FiberExit := mkFiberExit { fx_FiberID : string; fx_Reason : string; fx_Detail : string }.

(** [type DeviceChannel struct] *)
Record DeviceChannel := mkChannel { dc_Kind : string; dc_Devices : list string; dc_Detail : string }.
Definition zeroChannel : DeviceChannel := mkChannel "" [] "".

(** [type heldDevices struct]: the release closure by a name. *)
Record heldDevices := mkHeldDevices { hd_channel : DeviceChannel; hd_release : option nat }.
Definition zeroHeld : heldDevices := mkHeldDevices zeroChannel None.

(** [type RemoteDelta struct] *)
Record RemoteDelta := mkRemoteDelta { rd_WBytes : N; rd_Home : string; rd_Handle : string }.

(** [type Snapshot struct], without [unreadable], which [Load] returns beside it. *)
Record Snapshot := mkSnapshot {
  sn_Epoch : N; sn_SavedAt : Time.t; sn_Grants : list Grant; sn_Sessions : list SessionSnapshot;
}.

(** [type HandoffRouter interface] *)
Record HandoffRouter (E : Type) := mkHandoffRouter {
  HandsOff : E → bool;
  HandoffRoute : string → E → option (string * string * string);
}.
Arguments HandsOff {E}. Arguments HandoffRoute {E}.

(** [type DeltaFinder interface] *)
Record DeltaFinder (E : Type) := mkDeltaFinder {
  FindDelta : Grant → string → St E (RemoteDelta * bool * option error);
  ClaimDelta : Grant → string → RemoteDelta → St E (string + error);
  Owned : string → St E bool;
}.
Arguments FindDelta {E}. Arguments ClaimDelta {E}. Arguments Owned {E}.

(** [type Pooler interface], without the channel of deaths. *)
Record Pooler (E : Type) := mkPooler {
  Fill : Grant → Time.duration → St E (option error);
  PoolDrain : string → Z → St E Z;
  Pooled : string → E → Z;
}.
Arguments Fill {E}. Arguments PoolDrain {E}. Arguments Pooled {E}.

(** The deny-list as Core uses it. *)
Record DenyList (E : Type) := mkDenyList {
  Denied : string → Time.t → Time.t → St E bool;
  DenyAdd : string → Time.t → Time.t → St E (option error);
  DenyClear : string → St E (bool * option error);
}.
Arguments Denied {E}. Arguments DenyAdd {E}. Arguments DenyClear {E}.

(** [type Runtime interface] with the optional interfaces, and the other
    fields of Core that are interfaces or functions. *)
Class Env (E : Type) := {
  (* Runtime *)
  e_Tier : Tier;
  e_PrepareTemplate : Grant → St E (option error);
  e_Clone : CloneSpec → St E (FiberHandle + error);
  e_Park : string → bool → St E (string * option error);
  e_Release : string → bool → St E (option error);
  e_List : St E (list FiberHandle + error);
  e_Stats : string → St E (N + error);
  e_DefaultDeadlines : option (string → E → Time.duration * Time.duration);
  e_IsolatesTenants : option (E → bool);
  e_HoldsWorkspaces : option (E → bool);
  e_DeviceOffer : option (string → E → string * N);
  e_AttachDevices : option (string → DeviceChannel → St E unit);
  e_HandoffRouter : option (HandoffRouter E);
  e_PublishDelta : option (string → Grant → string → St E (string + error));
  e_RetireDelta : option (string → St E (option error));
  e_DiscardDelta : option (string → St E (option error));
  e_DeltaFinder : option (DeltaFinder E);
  e_DeleteDelta : option (Grant → string → string → St E (string * bool * option error));
  e_DropTemplate : option (string → St E unit);
  e_HasDelta : option (string → E → bool);
  e_SweepDeltas : option (list string → St E (Z * option error));
  e_Pooler : option (Pooler E);
  (* the other collaborators *)
  e_Now : St E Time.t;
  e_Verify : string → St E (Grant + error);
  e_Append : option (Durability → AuditRecord → St E (option error));
  e_Scope : option (St E (list (string * string)));
  e_Take : St E (option error);
  e_Shedding : string → E → bool;
  e_Healthy : St E bool;            (** true when Health is nil *)
  e_Revoked : option (DenyList E);
  e_Bump : option (St E (N + error));
  e_Persist : option (Snapshot → St E (option error));
  e_Devices : option (Grant → St E (DeviceChannel * option nat + error));
  e_ReleaseDevices : nat → St E unit;
}.

(** The fields of Core that are plain settings. *)
Record Config := mkConfig {
  NodeID : string;
  SelfAdmitUID : string;
  OwnGrant : option (option string);   (** nil, or the token it returns *)
  RequireBoundGrants : bool;
  MobilityBudget : option (Grant → N);
}.

(** [const MaxPayload] and the deadlines. *)
Definition MaxPayload : nat := 4096.
Definition DefaultCreateDeadline : Time.duration := (50 * Time.Millisecond)%Z.
Definition DefaultResumeDeadline : Time.duration := (2 * Time.Second)%Z.

(** [func GrantDeadlines(rt Runtime, grantUID string)] *)
Definition GrantDeadlines `{Env E} (uid : string) (e : E) : Time.duration * Time.duration :=
  match e_DefaultDeadlines with
  | Some adv =>
      let '(c, r) := adv uid e in
      if (0 <? c)%Z && (0 <? r)%Z then (c, r) else (DefaultCreateDeadline, DefaultResumeDeadline)
  | None => (DefaultCreateDeadline, DefaultResumeDeadline)
  end.
