(* ===== verification/Core.v ===== *)
(** * Core: state, helpers and admission (pkg/core/core.go, the helpers of
    snapshot.go and pool.go it calls)

    [World] is the Core struct's mutable part, the ledger, the state of what it
    is wired to, and [w_trace], a ghost record of what was asked of the runtime
    and the auditor, newest first.  A verb is a computation in [St World].
    Wherever a verb waits for another goroutine or for runtime work, [others]
    is what the rest of the home did meanwhile: any function of the world. *)

From S2P Require Import Prelude GoLib Fence Errors Grant Ledger AuditLog Runtime.
From stdpp Require Import options.

(** [type poolState struct] *)
Record poolState := mkPoolState { ps_backoff : Time.duration; ps_until : Time.t; ps_noPool : bool }.
Definition zeroPool : poolState := mkPoolState 0%Z Time.zero false.

(** [type heldGrant struct] *)
Record heldGrant := mkHeldGrant { hg_grant : Grant; hg_sessions : list SessionSnapshot }.

(** What was asked of the outside. *)
Inductive ev :=
| EvAudit (d : Durability) (rec : AuditRecord) (err : option error)
| EvPrepare (uid : string) (err : option error)
| EvClone (spec : CloneSpec) (r : FiberHandle + error)
| EvPark (id : string) (sync : bool) (ref : string)
| EvRelease (id : string) (discard : bool) (err : option error)
| EvPublish (ref : string) (ok : bool)
| EvRetire (ref : string) (err : option error)
| EvDiscard (ref : string) (err : option error)
| EvPersist (s : Snapshot)
| EvVerify (token : string) (r : Grant + error)     (** a stored token, verified again *)
| EvWait (before after : Ledger)    (** a wait of this call: the ledger it left and the one it came back to *)
| EvBlocked (key : string).     (** a wait for a session gate that never ended *)

(** The mutable part of [type Core struct]. *)
Record World (E : Type) := mkWorld {
  w_led : Ledger;
  w_env : E;
  w_pending : gmap string FiberExit;
  w_devices : gmap string heldDevices;
  w_held : gmap string heldGrant;
  w_pools : gmap string poolState;
  w_refill : bool;              (** a kick waits in the refill channel *)
  w_filling : bool;
  w_lastFill : string;
  w_draining : bool;
  w_changed : list bool;        (** per Watch subscriber, a wake-up waits *)
  w_trace : list ev;
}.
Arguments mkWorld {E}. Arguments w_led {E}. Arguments w_env {E}. Arguments w_pending {E}.
Arguments w_devices {E}. Arguments w_held {E}. Arguments w_pools {E}. Arguments w_refill {E}.
Arguments w_filling {E}. Arguments w_lastFill {E}. Arguments w_draining {E}. Arguments w_changed {E}.
Arguments w_trace {E}.

Section fields.
Context {E : Type}.
Definition put_led l (w : World E) : World E := mkWorld l (w_env w) (w_pending w) (w_devices w) (w_held w) (w_pools w) (w_refill w) (w_filling w) (w_lastFill w) (w_draining w) (w_changed w) (w_trace w).
Definition put_env e (w : World E) : World E := mkWorld (w_led w) e (w_pending w) (w_devices w) (w_held w) (w_pools w) (w_refill w) (w_filling w) (w_lastFill w) (w_draining w) (w_changed w) (w_trace w).
Definition put_pending p (w : World E) : World E := mkWorld (w_led w) (w_env w) p (w_devices w) (w_held w) (w_pools w) (w_refill w) (w_filling w) (w_lastFill w) (w_draining w) (w_changed w) (w_trace w).
Definition put_devices d (w : World E) : World E := mkWorld (w_led w) (w_env w) (w_pending w) d (w_held w) (w_pools w) (w_refill w) (w_filling w) (w_lastFill w) (w_draining w) (w_changed w) (w_trace w).
Definition put_held h (w : World E) : World E := mkWorld (w_led w) (w_env w) (w_pending w) (w_devices w) h (w_pools w) (w_refill w) (w_filling w) (w_lastFill w) (w_draining w) (w_changed w) (w_trace w).
Definition put_pools p (w : World E) : World E := mkWorld (w_led w) (w_env w) (w_pending w) (w_devices w) (w_held w) p (w_refill w) (w_filling w) (w_lastFill w) (w_draining w) (w_changed w) (w_trace w).
Definition put_refill b (w : World E) : World E := mkWorld (w_led w) (w_env w) (w_pending w) (w_devices w) (w_held w) (w_pools w) b (w_filling w) (w_lastFill w) (w_draining w) (w_changed w) (w_trace w).
Definition put_filling b u (w : World E) : World E := mkWorld (w_led w) (w_env w) (w_pending w) (w_devices w) (w_held w) (w_pools w) (w_refill w) b u (w_draining w) (w_changed w) (w_trace w).
Definition put_draining b (w : World E) : World E := mkWorld (w_led w) (w_env w) (w_pending w) (w_devices w) (w_held w) (w_pools w) (w_refill w) (w_filling w) (w_lastFill w) b (w_changed w) (w_trace w).
Definition put_changed c (w : World E) : World E := mkWorld (w_led w) (w_env w) (w_pending w) (w_devices w) (w_held w) (w_pools w) (w_refill w) (w_filling w) (w_lastFill w) (w_draining w) c (w_trace w).
Definition put_trace t (w : World E) : World E := mkWorld (w_led w) (w_env w) (w_pending w) (w_devices w) (w_held w) (w_pools w) (w_refill w) (w_filling w) (w_lastFill w) (w_draining w) (w_changed w) t.
End fields.

Section Core.
Context `{Env E} (cfg : Config) (others : World E → World E).
Local Notation M := (St (World E)).

(** Lifts: an operation on the environment, on the ledger, an event. *)
Definition env {A} (f : St E A) : M A := λ w, let r := f (w_env w) in (r.1, put_env r.2 w).
Definition asks {A} (f : E → A) : M A := gets (f ∘ w_env).
Definition led (f : Ledger → Ledger) : M unit := modify (λ w, put_led (f (w_led w)) w).
Definition ledger {A} (f : Ledger → A) : M A := gets (f ∘ w_led).
Definition ledR {A} (f : Ledger → A * Ledger) : M A := λ w, let r := f (w_led w) in (r.1, put_led r.2 w).
Definition log (e : ev) : M unit := modify (λ w, put_trace (e :: w_trace w) w).
Definition meanwhile : M unit := modify others.

(** [func (a *Core) notify()] *)
Definition notify : M unit := modify (λ w, put_changed ((λ _, true) <$> w_changed w) w).

(** [subscribe] and [unsubscribe]: a subscriber is a place in the list. *)
Definition subscribe : M nat := λ w, (length (w_changed w), put_changed (w_changed w ++ [false]) w).
Definition unsubscribe (i : nat) : M unit := modify (λ w, put_changed (take i (w_changed w) ++ drop (S i) (w_changed w)) w).

(** [func (a *Core) audit(ctx, d Durability, rec AuditRecord) error] *)
Definition audit (d : Durability) (rec : AuditRecord) : M (option error) :=
  match e_Append with
  | None => mret None
  | Some append =>
      let d := if (d =? DurabilityUnspecified)%Z then BestEffort else d in
      scope ← match e_Scope with
              | Some f => claims ← env f; mret (map_to_list (list_to_map (reverse claims) : gmap string string))
              | None => mret []
              end;
      let rec := mkAudit (ar_Seq rec) (ar_Time rec) (ar_Event rec) (ar_Fence rec) (ar_Session rec) (ar_FiberID rec)
                   (ar_Detail rec) scope (ar_Lost rec) (ar_Signer rec) (ar_Signature rec) (ar_PrevHash rec) (ar_Hash rec) in
      err ← env (append d rec);
      _ ← log (EvAudit d rec err);
      mret (if (d =? Sync)%Z then err else None)
  end.

(** [func (a *Core) durability(grantUID string) Durability] *)
Definition durability (uid : string) : M Durability :=
  g ← ledger (LGrant uid);
  mret (match g with Some g => PDurability (GPolicy g) | None => BestEffort end).

(** [func (l *Ledger) Snapshot() Snapshot], with its grants and sessions in
    some order, as Go ranges over a map. *)
Definition LSnapshot (now : Time.t) (l : Ledger) : Snapshot :=
  mkSnapshot (l_epoch l) now
    (omap (λ kv, ge_grant <$> l_heap l !! kv.2) (map_to_list (l_grants l)))
    ((λ kv, mkSessionSnapshot (SName kv.2) (SGrantUID kv.2) (SState kv.2) (SFence kv.2) (SDeltaRef kv.2)
              (match SState kv.2 with StateRunning => HID (SHandle kv.2) | StateParked => "" end))
     <$> map_to_list (l_sessions l)).

(** [func (a *Core) snapshot() Snapshot], from the ledger's and what boot held. *)
Definition heldSnapshot (held : gmap string heldGrant) (s : Snapshot) : Snapshot :=
  let admitted := UID <$> sn_Grants s in
  let known := (λ x, sessionKey (ss_GrantUID x) (ss_Name x)) <$> sn_Sessions s in
  let uids := merge_sort String.le (fst <$> map_to_list held) in
  let extra := omap (λ uid, if decide (uid ∈ admitted) then None else held !! uid) uids in
  mkSnapshot (sn_Epoch s) (sn_SavedAt s) (sn_Grants s ++ (hg_grant <$> extra))
    (sn_Sessions s ++ filter (λ x, sessionKey (ss_GrantUID x) (ss_Name x) ∉ known) (extra ≫= hg_sessions)).

Definition snapshot : M Snapshot :=
  now ← env e_Now;
  gets (λ w, heldSnapshot (w_held w) (LSnapshot now (w_led w))).

(** [func (a *Core) persist()] *)
Definition persist : M unit :=
  match e_Persist with
  | None => mret tt
  | Some p => s ← snapshot; _ ← env (p s); log (EvPersist s)
  end.

(** [func (a *Core) missCode(err error) StatusCode] *)
Definition missCode (err : error) : M StatusCode :=
  if Is err ErrNeedsTier || Is err ErrNeedsDevice || Is err ErrDeviceMismatch || Is err ErrNeedsIsolation
     || Is err ErrNeedsHandoff || Is err ErrNeedsWorkspace || Is err ErrNoTenant
  then mret NeedsTier
  else healthy ← env e_Healthy; mret (if healthy : bool then DeferredFallback else Shed).

Definition miss (err : error) : M (StatusCode * option error) := c ← missCode err; mret (c, Some err).

(** ** The pool's side of admission and clone (pool.go) *)

(** [kickRefill]: one kick waiting is enough. *)
Definition kickRefill : M unit := modify (put_refill true).
(** [forgetPool] *)
Definition forgetPool (uid : string) : M unit := modify (λ w, put_pools (delete uid (w_pools w)) w).
(** [syncPooled] *)
Definition syncPooled (uid : string) : M unit :=
  match e_Pooler with
  | None => mret tt
  | Some p => n ← asks (Pooled p uid); ch ← ledR (SetPooled uid n); if ch : bool then notify else mret tt
  end.
(** [handedOut] *)
Definition handedOut (uid : string) : M unit := _ ← syncPooled uid; kickRefill.

(** ** Deltas *)

(** [func (a *Core) retireDelta(...)] *)
Definition retireDelta (fence : Fence) (session ref : string) : M unit :=
  match e_RetireDelta with
  | None => mret tt
  | Some rt =>
      err ← env (rt ref);
      _ ← log (EvRetire ref err);
      match err with
      | Some _ => mret tt
      | None => _ ← audit BestEffort (event "retire" fence session "" ref); mret tt
      end
  end.

(** [func (a *Core) discardDelta(...)] *)
Definition discardDelta (fence : Fence) (session ref : string) : M unit :=
  _ ← retireDelta fence session ref;
  match e_DiscardDelta with
  | None => mret tt
  | Some dd =>
      err ← env (dd ref);
      _ ← log (EvDiscard ref err);
      match err with
      | Some _ => mret tt
      | None => _ ← audit BestEffort (event "discard" fence session "" ref); mret tt
      end
  end.

(** ** Admission *)

Definition attachDevices (uid : string) (dc : DeviceChannel) : M unit :=
  match e_AttachDevices with Some f => env (f uid dc) | None => mret tt end.

Definition releaseHeld (h : heldDevices) : M unit :=
  match hd_release h with Some r => env (e_ReleaseDevices r) | None => mret tt end.

(** [func (a *Core) releaseDevices(grantUID string)] *)
Definition releaseDevices (uid : string) : M unit :=
  held ← gets (λ w, default zeroHeld (w_devices w !! uid));
  _ ← modify (λ w, put_devices (delete uid (w_devices w)) w);
  releaseHeld held.

(** [func (a *Core) restoreHeld(uid string)] *)
Definition restoreHeld (uid : string) : M unit :=
  h ← gets (λ w, w_held w !! uid);
  _ ← modify (λ w, put_held (delete uid (w_held w)) w);
  match h with
  | None => mret tt
  | Some h => for_each (λ s, _ ← ledR (RestoreParked s); mret tt) (hg_sessions h)
  end.

(** The [refuse] closure of Admit: the fresh channel goes back, the runtime
    keeps the one the admitted grant holds. *)
Definition admitRefuse (uid : string) (fresh : heldDevices) : M unit :=
  _ ← releaseHeld fresh;
  old ← gets (λ w, w_devices w !! uid);
  match old with Some h => attachDevices uid (hd_channel h) | None => mret tt end.

(** What the audit record says of a grant's devices. *)
Definition channelDetail (dc : DeviceChannel) : string :=
  if dc_Kind dc <>? ""
  then " devices=" +:+ dc_Kind dc +:+ " n=" +:+ Itoa (Z.of_nat (length (dc_Devices dc))) +:+ " " +:+ dc_Detail dc
  else "".

(** Admit once it holds the UID's slot in [admitting]. *)
Definition admitSlot (g : Grant) : M (StatusCode * option error) :=
  denied ← match e_Revoked with
           | Some d => now ← env e_Now; env (Denied d (UID g) (LeaseExpiry g) now)
           | None => mret false
           end;
  if denied : bool then c ← missCode (ESentinel ErrGrantRevoked); mret (c, Some (wrap1 ErrGrantRevoked)) else
  held ← ledger (LGrant (UID g));
  if match held with Some h => changesFixedFields h g | None => false end
  then mret (Invalid, Some (wrap1 ErrGrantChanged)) else
  fresh ← match e_Devices with
          | None => mret (inl zeroHeld)
          | Some devices =>
              r ← env (devices g);
              match r with
              | inr e => mret (inr e)
              | inl (fc, release) => _ ← attachDevices (UID g) fc; mret (inl (mkHeldDevices fc release))
              end
          end;
  match fresh with
  | inr e => c ← missCode (ESentinel ErrNotReady); mret (c, Some (wrap2 ErrNotReady e))
  | inl fresh =>
      perr ← env (e_PrepareTemplate g);
      _ ← log (EvPrepare (UID g) perr);
      match perr with
      | Some e =>
          _ ← admitRefuse (UID g) fresh;
          c ← missCode (ESentinel ErrNotReady); mret (c, Some (wrap2 ErrNotReady e))
      | None =>
          offer ← match e_DeviceOffer with Some f => asks (f (UID g)) | None => mret ("", 0%N) end;
          match (if (0 <? DBytes (GDeviceBudget g))%N then DeviceFits (DClass (GDeviceBudget g)) offer.1 offer.2 else None) with
          | Some e => _ ← admitRefuse (UID g) fresh; mret (NeedsTier, Some e)
          | None =>
              _ ← match e_Devices with
                  | None => mret tt
                  | Some _ =>
                      old ← gets (λ w, default zeroHeld (w_devices w !! UID g));
                      _ ← modify (λ w, put_devices (<[UID g := fresh]> (w_devices w)) w);
                      releaseHeld old
                  end;
              _ ← led (AdmitGrant g);
              _ ← restoreHeld (UID g);
              _ ← kickRefill;
              epoch ← ledger l_epoch;
              _ ← audit BestEffort (event "admit" (mkFence (UID g) epoch 0) "" ""
                    (TemplateDigest g +:+ channelDetail (hd_channel fresh)));
              _ ← persist;
              _ ← notify;
              mret (OK, None)
          end
      end
  end.

(** The wait for other admissions of the UID: for each in turn, [None] when it
    ended, [Some e] when this call's context did first. *)
Fixpoint admitWait (waits : list (option Sentinel)) (g : Grant) : M (option (StatusCode * option error)) :=
  match waits with
  | [] => mret None
  | Some e :: _ => _ ← meanwhile; mret (Some (DeferredFallback, Some (ESentinel e)))
  | None :: waits' =>
      _ ← meanwhile;
      held ← ledger (LGrant (UID g));
      if match held with
         | Some h => negb (renewsLease h g) && (CallerThumbprint h ==? CallerThumbprint g) && negb (changesFixedFields h g)
         | None => false
         end
      then mret (Some (OK, None)) else admitWait waits' g
  end.

(** [func (a *Core) Admit(ctx context.Context, g Grant) (StatusCode, error)] *)
Definition Admit (waits : list (option Sentinel)) (g : Grant) : M (StatusCode * option error) :=
  if (e_Tier <? MinTier g)%Z then mret (NeedsTier, Some (wrap1 ErrNeedsTier)) else
  iso ← asks (λ e, match e_IsolatesTenants with Some f => f e | None => false end);
  if isUntrusted (PIsolation (GPolicy g)) && negb iso then mret (NeedsTier, Some (wrap1 ErrNeedsIsolation)) else
  ho ← asks (λ e, match e_HandoffRouter with Some h => HandsOff h e | None => false end);
  if (PEndpointMode (GPolicy g) =? EndpointHandoff)%Z && negb ho then mret (NeedsTier, Some (wrap1 ErrNeedsHandoff)) else
  ws ← asks (λ e, match e_HoldsWorkspaces with Some f => f e | None => false end);
  if (0 <? DiskBudgetBytes g)%N && negb ws then mret (NeedsTier, Some (wrap1 ErrNeedsWorkspace)) else
  now ← env e_Now;
  if Expired g now then miss (ESentinel ErrGrantExpired) else
  early ← admitWait waits g;
  match early with Some r => mret r | None => admitSlot g end.

(** [func (a *Core) reverify(ctx, g Grant) (Grant, error)] (snapshot.go) *)
Definition reverify (g : Grant) : M (Grant + error) :=
  r ← env (e_Verify (Token g));
  _ ← log (EvVerify (Token g) r);
  mret (match r with
        | inr e => inr (EWrap [e])
        | inl vg =>
            if UID vg <>? UID g then inr (EOther "held token is for another grant")
            else if (NodeID cfg <>? "") && (Audience vg <>? NodeID cfg) then inr (wrap1 ErrWrongAudience)
            else inl (with_Token (Token g) vg)
        end).

(** [func (a *Core) ownGrant(ctx, g Grant) (Grant, error)] *)
Definition ownGrant (g : Grant) : M (Grant + error) :=
  now ← env e_Now;
  if Expired g now then mret (inr (ESentinel ErrGrantExpired)) else
  match default None (OwnGrant cfg) with
  | None => mret (inr (wrap1 ErrGrantUnknown))
  | Some tok =>
      r ← reverify (with_Token tok (mkGrant (UID g) "" "" "" "" 0 0 0 0%Z Time.zero zeroPolicy (mkDeviceBudget 0 "") 0 "" ""));
      mret (match r with inl own => inl own | inr e => inr (wrap2 ErrGrantUnknown e) end)
  end.
End Core.
