(* ===== verification/Clone.v ===== *)
(** * Clone, the warm path (pkg/core/core.go)

    Clone and what it calls: the session hold, [locate] for state parked
    elsewhere, the commit under [pendingMu], and [OnExit], which settles an exit
    that came before the commit. *)

From S2P Require Import Prelude GoLib Fence Errors Grant Ledger LedgerSteps AuditLog Runtime Core.
From stdpp Require Import options.

Section Clone.
Context `{Env E} (cfg : Config) (others : World E → World E).
Local Notation M := (St (World E)).

(** ** Holds, releases, exits *)

(** [func (l *Ledger) holdSession]: the gate is entered, others run until its
    mutex is free, then it is taken.  [EvBlocked] marks a run in which others
    did not free it, which the code never goes on from. *)
Definition holdSession (key : string) : M unit :=
  _ ← led (gateEnter key);
  _ ← meanwhile others;
  l' ← ledger (gateLock key);
  match l' with Some l' => led (λ _, l') | None => log (EvBlocked key) end.

(** [func (h *sessionHold) release()] *)
Definition releaseHold (key : string) : M unit := _ ← led (gateUnlock key); led (gateDrop key).

(** [a.Runtime.Release], and what the rest of the home does meanwhile *)
Definition release (id : string) (discard : bool) : M (option error) :=
  err ← env (e_Release id discard); _ ← log (EvRelease id discard err); _ ← meanwhile others; mret err.

(** [func (a *Core) OnExit(ctx context.Context, ex FiberExit)] *)
Definition OnExit (ex : FiberExit) : M unit :=
  r ← ledR (OnFiberExit (fx_FiberID ex));
  match r with
  | None => modify (λ w, put_pending (<[fx_FiberID ex := ex]> (w_pending w)) w)
  | Some (fence, session, ref) =>
      _ ← (if ref <>? "" then discardDelta fence session ref else mret tt);
      d ← durability (GrantUID fence);
      _ ← audit d (event (fx_Reason ex) fence session (fx_FiberID ex) (fx_Detail ex));
      notify
  end.

(** [func (a *Core) commitHeld(...)]: the commit and the held exit, if any. *)
Definition commitHeld (t : ticket) (s : Session) : M (bool * ticket * option FiberExit) :=
  draining ← gets w_draining;
  c ← ledR (commit draining t s);
  ex ← gets (λ w, w_pending w !! HID (SHandle s));
  _ ← modify (λ w, put_pending (delete (HID (SHandle s)) (w_pending w)) w);
  mret (c.1, c.2, ex).

(** [func (a *Core) swept(g Grant, fence Fence) (StatusCode, error)] *)
Definition swept (g : Grant) (fence : Fence) : M (StatusCode * option error) :=
  epoch ← ledger l_epoch;
  if epoch <>? Epoch fence then miss (wrap1 ErrFiberUnknown) else
  denied ← match e_Revoked with
           | Some d => now ← env e_Now; env (Denied d (UID g) (LeaseExpiry g) now)
           | None => mret false
           end;
  if denied : bool then miss (wrap1 ErrGrantRevoked) else miss (wrap1 ErrGrantUnknown).

(** [func (a *Core) routed(r CloneResponse) CloneResponse] *)
Definition routed (r : CloneResponse) : M CloneResponse :=
  match e_HandoffRouter with
  | None => mret r
  | Some hr =>
      route ← asks (HandoffRoute hr (rs_FiberID r));
      mret (match route with
            | Some (key, pin, cert) => mkCloneResponse (rs_FiberID r) (rs_Endpoint r) (rs_Fence r) (rs_Kind r) key pin cert
            | None => r
            end)
  end.

(** ** locate *)

Definition found_nothing : M (StatusCode * option error) := mret (OK, None).

(** [locate] once the session is not held here. *)
Definition locateRemote (finder : DeltaFinder E) (g : Grant) (session : string) : M (StatusCode * option error) :=
  f ← env (FindDelta finder g session);
  match f with
  | (_, _, Some e) => match AsRemote e with Some _ => miss e | None => found_nothing end
  | (_, false, None) => found_nothing
  | (rd, true, None) =>
      let budget := match MobilityBudget cfg with Some f => f g | None => WBudgetBytes g end in
      if (0 <? budget)%N && (budget <? rd_WBytes rd)%N
      then miss (ERemote (wrap1 ErrDeltaTooLarge) (rd_Home rd)) else
      c ← env (ClaimDelta finder g session rd);
      match c with
      | inr e => miss (ERemote (wrap2 ErrNotReady e) (rd_Home rd))
      | inl ref =>
          epoch ← ledger l_epoch;
          let fence := mkFence (UID g) epoch 0 in
          err ← ledR (restoreParked (mkSessionSnapshot session (UID g) StateParked zeroFence ref ""));
          match err with
          | Some errSessionHeld =>
              match e_DiscardDelta with
              | Some dd => err ← env (dd ref); _ ← log (EvDiscard ref err); found_nothing
              | None => found_nothing
              end
          | Some _ =>
              r ← swept g fence;
              _ ← audit BestEffort (event "migrate-in" fence session ""
                    ("from " +:+ rd_Home rd +:+ ", kept unregistered at " +:+ ref));
              mret r
          | None =>
              _ ← persist;
              aerr ← audit (PDurability (GPolicy g)) (event "migrate-in" fence session ""
                       ("from " +:+ rd_Home rd +:+ ", " +:+ FormatUint (rd_WBytes rd) +:+ " bytes"));
              match aerr with Some e => mret (Internal, Some e) | None => found_nothing end
          end
      end
  end.

(** [func (a *Core) locate(ctx, g Grant, session string) (StatusCode, error)] *)
Definition locate (g : Grant) (session : string) : M (StatusCode * option error) :=
  match e_DeltaFinder with
  | None => found_nothing
  | Some finder =>
      st ← ledger (LSessionState (UID g) session);
      match st with
      | Some (StateRunning, _) => found_nothing
      | Some (StateParked, ref) =>
          own ← env (Owned finder ref);
          if own : bool then found_nothing else
          _ ← led (ForgetSession (UID g) session);
          _ ← persist;
          epoch ← ledger l_epoch;
          let fence := mkFence (UID g) epoch 0 in
          _ ← discardDelta fence session ref;
          _ ← audit BestEffort (event "migrate-out" fence session "" "");
          locateRemote finder g session
      | None => locateRemote finder g session
      end
  end.

(** ** Clone *)

Definition answer : Type := CloneResponse * StatusCode * option error.
Definition refuse (c : StatusCode) (e : error) : answer := (zeroResponse, c, Some e).

(** Step 1: the frontend's checks of a verified token. *)
Definition frontFault (req : CloneRequest) (g : Grant) : option (StatusCode * error) :=
  if (NodeID cfg <>? "") && (Audience g <>? NodeID cfg) then Some (Unauthenticated, wrap1 ErrWrongAudience)
  else if (CallerThumbprint g <>? "") && (CallerThumbprint g <>? cr_CallerThumbprint req)
  then Some (Unauthenticated, ESentinel ErrCallerMismatch)
  else if (CallerThumbprint g ==? "") && RequireBoundGrants cfg then Some (Unauthenticated, ESentinel ErrUnboundGrant)
  else if (CallerThumbprint g ==? "") && (PEndpointMode (GPolicy g) =? EndpointHandoff)%Z
  then Some (Unauthenticated, ESentinel ErrHandoffUnbound)
  else if (cr_Session req <>? "") && (Tenant g ==? "") then Some (NeedsTier, wrap1 ErrNoTenant)
  else None.

(** Step 2: self-admission of a grant the home does not hold. *)
Definition selfAdmit (waits : list (option Sentinel)) (g : Grant) : M (option (StatusCode * error)) :=
  known ← ledger (LGrant (UID g));
  match known with
  | Some _ => mret None
  | None =>
      if (SelfAdmitUID cfg <>? "") && (UID g <>? SelfAdmitUID cfg) then mret (Some (Unauthenticated, wrap1 ErrWrongAudience)) else
      own ← match OwnGrant cfg with Some _ => ownGrant cfg g | None => mret (inl g) end;
      match own with
      | inr e => c ← missCode e; mret (Some (c, e))
      | inl adm =>
          r ← Admit others waits adm;
          mret (match r with (c, Some e) => Some (c, e) | (_, None) => None end)
      end
  end.

(** Steps 1 and 2: the grant the clone runs under, or the refusal. *)
Definition cloneFront (waits : list (option Sentinel)) (req : CloneRequest) : M (Grant + answer) :=
  if bool_decide (MaxPayload < String.length (cr_Payload req))%nat then mret (inr (refuse Invalid (ESentinel ErrPayloadTooLarge))) else
  v ← env (e_Verify (cr_GrantJWT req));
  match v with
  | inr e => mret (inr (refuse (if Is e ErrVerifyUnavailable then Shed else Unauthenticated) (EWrap [e])))
  | inl g =>
      draining ← gets w_draining;
      if draining : bool then mret (inr (refuse DeferredFallback (ESentinel ErrDraining))) else
      let g := with_Token (cr_GrantJWT req) g in
      match frontFault req g with
      | Some (c, e) => mret (inr (refuse c e))
      | None =>
          adm ← selfAdmit waits g;
          match adm with
          | Some (c, e) => mret (inr (refuse c e))
          | None =>
              held ← ledger (LGrant (UID g));
              match held with
              | None => c ← missCode (ESentinel ErrGrantUnknown); mret (inr (refuse c (wrap1 ErrGrantUnknown)))
              | Some held =>
                  if CallerThumbprint held <>? CallerThumbprint g
                  then mret (inr (refuse Unauthenticated (wrap1 ErrCallerMismatch)))
                  else mret (inl held)
              end
          end
      end
  end.

(** Step 7: commit, or release what the sweep missed. *)
Definition cloneCommit (req : CloneRequest) (g : Grant) (act : Action) (fence : Fence) (ref : string)
    (t : ticket) (h : FiberHandle) : M (ticket * answer) :=
  c ← commitHeld t (flightSession fence ref (cr_Session req) (UID g) h);
  let '(committed, t, ex) := c in
  if committed : bool then
    _ ← match act with
        | ActResume => _ ← (if cr_Session req <>? "" then retireDelta fence (cr_Session req) ref else mret tt); persist
        | _ => mret tt
        end;
    _ ← notify;
    _ ← match ex with Some ex => OnExit ex | None => mret tt end;
    r ← routed (mkCloneResponse (HID h) (HEndpoint h) fence act "" "" "");
    mret (t, (r, OK, None))
  else
    s ← swept g fence;
    draining ← gets w_draining;
    let '(code, cerr) := if draining : bool then (DeferredFallback, Some (ESentinel ErrDraining)) else s in
    _ ← release (HID h) false;
    _ ← audit BestEffort (event "release" fence (cr_Session req) (HID h) "");
    mret (t, (zeroResponse, code, cerr)).

(** Step 6: audit before commit and ack, and the roll-back when it fails. *)
Definition cloneAudit (req : CloneRequest) (g : Grant) (act : Action) (fence : Fence) (ref : string)
    (t : ticket) (h : FiberHandle) : M (ticket * answer) :=
  _ ← (if HPooled h then handedOut (UID g) else mret tt);
  aerr ← audit (PDurability (GPolicy g))
           (event (Action_String act) fence (cr_Session req) (HID h) (if HPooled h then "pooled" else ""));
  match aerr with
  | None => cloneCommit req g act fence ref t h
  | Some e =>
      rerr ← release (HID h) false;
      match rerr with
      | Some _ =>
          c ← commitHeld t (flightSession fence ref (cr_Session req) (UID g) h);
          let '(committed, t, ex) := c in
          _ ← match ex with Some ex => if committed : bool then OnExit ex else mret tt | None => mret tt end;
          mret (t, refuse Internal e)
      | None =>
          _ ← modify (λ w, put_pending (delete (HID h) (w_pending w)) w);
          mret (t, refuse Internal e)
      end
  end.

(** Steps 4 (attach), 5: the one runtime call, under its deadline. *)
Definition cloneWork (req : CloneRequest) (g : Grant) (shedding : bool) (act : Action) (fence : Fence)
    (ref : string) (t : ticket) : M (ticket * answer) :=
  match act with
  | ActAttach =>
      aerr ← audit (PDurability (GPolicy g)) (event "attach" fence (cr_Session req) "" "");
      match aerr with
      | Some e => mret (t, refuse Internal e)
      | None => r ← routed (mkCloneResponse (Fence_String fence) ref fence ActAttach "" "" ""); mret (t, (r, OK, None))
      end
  | _ =>
      if shedding then mret (t, refuse Shed (ESentinel ErrPressure)) else
      dl ← asks (GrantDeadlines (UID g));
      let deadline := if (0 <? cr_Deadline req)%Z then cr_Deadline req
                      else match act with ActResume => dl.2 | _ => dl.1 end in
      let spec := mkCloneSpec g (match act with ActResume => SourceDelta | _ => SourceZygote end)
                    (match act with ActResume => ref | _ => "" end) fence deadline (cr_Payload req) (cr_Session req)
                    (cr_CallerCert req) in
      r ← env (e_Clone spec);
      _ ← log (EvClone spec r);
      _ ← meanwhile others;
      match r with
      | inr e =>
          mret (t, if Is e DeadlineExceeded then refuse DeferredFallback (ESentinel ErrDeadline)
                   else if Is e ErrPressure then refuse Shed e else refuse DeferredFallback e)
      | inl h => cloneAudit req g act fence ref t h
      end
  end.

(** Steps 3 and 4: backpressure, the session hold, resolve; then the deferred
    unlock, on every path. *)
Definition cloneHeld (req : CloneRequest) (g : Grant) : M answer :=
  terr ← env e_Take;
  match terr with
  | Some e => mret (refuse Shed e)
  | None =>
      shedding ← asks (e_Shedding (UID g));
      let key := sessionKey (UID g) (cr_Session req) in
      let named := cr_Session req <>? "" in
      pre ← (if named then _ ← holdSession key; locate g (cr_Session req) else found_nothing);
      match pre with
      | (c, Some e) => _ ← (if named then releaseHold key else mret tt); mret (refuse c e)
      | (_, None) =>
          now ← env e_Now;
          r ← ledR (resolveHeld now (UID g) (cr_Session req) e_Tier);
          match r with
          | ResolveErr e =>
              _ ← (if named then releaseHold key else mret tt);
              c ← missCode (ESentinel e); mret (refuse c (ESentinel e))
          | Resolved act fence ref t =>
              ta ← cloneWork req g shedding act fence ref t;
              _ ← led (unlock ta.1);
              _ ← (if named then releaseHold key else mret tt);
              mret ta.2
          end
      end
  end.

(** [func (a *Core) Clone(ctx, req CloneRequest) (CloneResponse, StatusCode, error)] *)
Definition Clone (waits : list (option Sentinel)) (req : CloneRequest) : M answer :=
  f ← cloneFront waits req;
  match f with inr a => mret a | inl g => cloneHeld req g end.
End Clone.
