(* ===== verification/Verbs.v ===== *)
(** * The other verbs (pkg/core/core.go, discard.go, drain.go, Sweep of snapshot.go)

    Revoke, Yield, Remove, Redeliver, BumpEpoch, Park, Release, Discard, Drain,
    the W sampler and the lease reaper. *)

From S2P Require Import Prelude GoLib Fence Errors Grant Ledger LedgerSteps AuditLog Runtime Core Clone.
From stdpp Require Import options.

Section Verbs.
Context `{Env E} (cfg : Config) (others : World E → World E).
Local Notation M := (St (World E)).

(** [func (a *Core) Revoke(grantUID string)] *)
Definition Revoke (uid : string) : M unit :=
  _ ← led (RevokeGrant uid); _ ← releaseDevices uid; forgetPool uid.

(** One fiber of the loop of Yield. *)
Definition yieldFiber (reason : string) (f : FiberInfo) : M unit :=
  fence ← ledger (LFiber (FID f));
  match fence with
  | None => mret tt
  | Some fence =>
      _ ← release others (FID f) false;
      r ← ledR (OnRelease (FID f));
      _ ← (if r.2 <>? "" then discardDelta fence (FSession f) r.2 else mret tt);
      _ ← audit BestEffort (event "yield" fence (FSession f) (FID f) reason);
      mret tt
  end.

(** [func (a *Core) Yield(ctx, grantUID string, reason string)] *)
Definition Yield (uid reason : string) : M unit :=
  _ ← Revoke uid;
  fibers ← ledger (FibersOf uid);
  _ ← for_each (yieldFiber reason) fibers;
  _ ← match e_DropTemplate with Some f => env (f uid) | None => mret tt end;
  epoch ← ledger l_epoch;
  _ ← audit BestEffort (event "revoke" (mkFence uid epoch 0) "" "" reason);
  _ ← persist;
  notify.

(** [func (a *Core) Remove(ctx, grantUID string)].  [inflight]: an admission of
    the UID runs, and the yield waits for it. *)
Definition Remove (inflight : bool) (uid : string) : M unit :=
  _ ← match e_Revoked with
      | None => mret tt
      | Some d =>
          g ← ledger (LGrant uid);
          lease ← match g with Some g => mret (LeaseExpiry g) | None => env e_Now end;
          now ← env e_Now;
          _ ← env (DenyAdd d uid lease now);
          if inflight then meanwhile others else mret tt
      end;
  Yield uid "removed by the home".

(** [func (a *Core) Redeliver(ctx, grantUID string)] *)
Definition Redeliver (uid : string) : M unit :=
  match e_Revoked with
  | None => mret tt
  | Some d =>
      r ← env (DenyClear d uid);
      if r.1 : bool then
        epoch ← ledger l_epoch;
        _ ← audit BestEffort (event "redeliver" (mkFence uid epoch 0) "" "" "the home delivered the grant again");
        mret tt
      else mret tt
  end.

(** One fiber of the sweep of BumpEpoch. *)
Definition bumpFiber (next : N) (reason id : string) : M unit :=
  fence ← ledger (LFiber id);
  match fence with
  | None => mret tt
  | Some fence =>
      if (next <=? Epoch fence)%N then mret tt else
      _ ← release others id false;
      r ← ledR (OnRelease id);
      _ ← (if r.2 <>? "" then discardDelta fence r.1 r.2 else mret tt);
      d ← durability (GrantUID fence);
      _ ← audit d (event "scope-revoked" fence "" id reason);
      mret tt
  end.

(** [func (a *Core) BumpEpoch(ctx, reason string) (uint64, error)] *)
Definition BumpEpoch (reason : string) : M (N + error) :=
  match e_Bump with
  | None => mret (inr (EOther "fiberd: no epoch store to bump"))
  | Some bump =>
      r ← env bump;
      match r with
      | inr e => mret (inr e)
      | inl next =>
          _ ← led (LBumpEpoch next);
          ids ← ledger RunningFibers;
          _ ← for_each (bumpFiber next reason) ids;
          _ ← persist;
          _ ← notify;
          mret (inl next)
      end
  end.

(** [park] once the runtime has returned a ref. *)
Definition parked (id ref : string) (fence : Fence) (perr : option error) : M (string * bool * StatusCode * option error) :=
  r ← ledR (OnPark id ref);
  let '(session, superseded) := r in
  d ← durability (GrantUID fence);
  aerr ← audit d (event "park" fence session id ref);
  published ← match e_PublishDelta with
              | Some pub =>
                  if session <>? "" then
                    g ← ledger (λ l, default zeroGrant (LGrant (GrantUID fence) l));
                    p ← env (pub ref g session);
                    match p with
                    | inr _ => _ ← log (EvPublish ref false); mret false
                    | inl remote =>
                        _ ← log (EvPublish ref true);
                        _ ← audit BestEffort (event "publish" fence session "" remote);
                        mret true
                    end
                  else mret false
              | None => mret false
              end;
  _ ← (if (superseded <>? "") && (superseded <>? ref) then discardDelta fence session superseded else mret tt);
  _ ← persist;
  _ ← notify;
  mret (ref, published,
        match perr, aerr with None, None => OK | _, _ => Internal end,
        match perr with Some e => Some e | None => aerr end).

(** [func (a *Core) park(ctx, fiberID string, sync bool)] *)
Definition park (id : string) (sync : bool) : M (string * bool * StatusCode * option error) :=
  fence ← ledger (LFiber id);
  match fence with
  | None => mret ("", false, NotFound, Some (ESentinel ErrFiberUnknown))
  | Some fence =>
      session ← ledger (FiberSession id);
      if session ==? "" then mret ("", false, Invalid, Some (wrap1 ErrAnonymousPark)) else
      g ← ledger (LGrant (GrantUID fence));
      if match g with Some g => Tenant g ==? "" | None => false end
      then mret ("", false, NeedsTier, Some (wrap1 ErrNoTenant)) else
      let key := sessionKey (GrantUID fence) session in
      _ ← holdSession others key;
      p ← env (e_Park id sync);
      _ ← log (EvPark id sync p.1);
      _ ← meanwhile others;
      r ← (if p.1 ==? "" then
             mret ("", false,
               match p.2 with Some e => if Is e ErrDeltaQuota then Shed else Internal | None => Internal end,
               Some (default (EOther "park: the runtime returned no delta ref") p.2))
           else parked id p.1 fence p.2);
      _ ← releaseHold key;
      mret r
  end.

(** [func (a *Core) Park(ctx, fiberID string, sync bool)] *)
Definition Park (id : string) (sync : bool) : M (string * StatusCode * option error) :=
  r ← park id sync; let '(ref, _, code, err) := r in mret (ref, code, err).

(** [func (a *Core) Release(ctx, fiberID string, discard bool) (StatusCode, error)] *)
Definition Release (id : string) (discard : bool) : M (StatusCode * option error) :=
  fence ← ledger (LFiber id);
  match fence with
  | None => mret (NotFound, Some (ESentinel ErrFiberUnknown))
  | Some fence =>
      rerr ← release others id discard;
      match rerr with
      | Some e => mret (Internal, Some e)
      | None =>
          r ← ledR (OnRelease id);
          _ ← (if discard && (r.2 <>? "") then discardDelta fence r.1 r.2 else mret tt);
          d ← durability (GrantUID fence);
          aerr ← audit d (event "release" fence "" id "");
          _ ← notify;
          mret (match aerr with Some e => (Internal, Some e) | None => (OK, None) end)
      end
  end.

(** [func (a *Core) sample(ctx)], with the total it feeds the rate limit. *)
Fixpoint sampleLoop (ids : list string) (total : N) : M N :=
  match ids with
  | [] => mret total
  | id :: ids' =>
      st ← env (e_Stats id);
      match st with
      | inr _ => sampleLoop ids' total
      | inl w => _ ← led (SetFiberW id w); sampleLoop ids' (U64.add total w)
      end
  end.
Definition sample : M (option (N * nat)) :=
  ids ← ledger RunningFibers;
  total ← sampleLoop ids 0;
  mret (match ids with [] => None | _ => Some (total, length ids) end).

(** [func (a *Core) Sweep(ctx) int] (snapshot.go) *)
Fixpoint sweepLoop (now : Time.t) (sts : list Status) (n : Z) : M Z :=
  match sts with
  | [] => mret n
  | st :: sts' =>
      g ← ledger (LGrant (StGrantUID st));
      match g with
      | Some g => if Expired g now then _ ← Yield (UID g) "lease expired"; sweepLoop now sts' (n + 1)%Z else sweepLoop now sts' n
      | None => sweepLoop now sts' n
      end
  end.
Definition Sweep : M Z :=
  now ← env e_Now; sts ← ledger Statuses; sweepLoop now sts 0.

(** ** Discard (discard.go) *)

(** [type DiscardRequest struct] *)
Record DiscardRequest := mkDiscardRequest {
  dr_GrantJWT : string; dr_Session : string; dr_CallerThumbprint : string;
}.

(** [func (a *Core) authenticate(ctx, token []byte, thumbprint string)] *)
Definition authenticate (token thumbprint : string) : M (Grant + (StatusCode * error)) :=
  v ← env (e_Verify token);
  match v with
  | inr e => mret (inr (if Is e ErrVerifyUnavailable then Shed else Unauthenticated, EWrap [e]))
  | inl g =>
      if (NodeID cfg <>? "") && (Audience g <>? NodeID cfg) then mret (inr (Unauthenticated, wrap1 ErrWrongAudience))
      else if (CallerThumbprint g <>? "") && (CallerThumbprint g <>? thumbprint)
      then mret (inr (Unauthenticated, ESentinel ErrCallerMismatch))
      else if (CallerThumbprint g ==? "") && RequireBoundGrants cfg then mret (inr (Unauthenticated, ESentinel ErrUnboundGrant))
      else
        held ← ledger (LGrant (UID g));
        own ← match held, OwnGrant cfg with
              | None, Some _ =>
                  if UID g ==? SelfAdmitUID cfg then
                    o ← ownGrant cfg g;
                    match o with
                    | inr e => c ← missCode e; mret (inr (c, e))
                    | inl own => mret (inl (Some own))
                    end
                  else mret (inl None)
              | _, _ => mret (inl held)
              end;
        mret (match own with
              | inr f => inr f
              | inl None => inl g
              | inl (Some h) =>
                  if CallerThumbprint h <>? CallerThumbprint g then inr (Unauthenticated, wrap1 ErrCallerMismatch) else inl h
              end)
  end.

(** [func (a *Core) discardParked(...)] *)
Definition discardParked (g : Grant) (fence : Fence) (session ref : string) : M (StatusCode * option error) :=
  rerr ← match e_RetireDelta with
         | Some rt => err ← env (rt ref); _ ← log (EvRetire ref err); mret err
         | None => mret None
         end;
  match rerr with
  | Some e => mret (Internal, Some (EWrap [e]))
  | None =>
      derr ← match e_DiscardDelta with
             | Some dd => err ← env (dd ref); _ ← log (EvDiscard ref err); mret err
             | None => mret None
             end;
      _ ← led (ForgetSession (UID g) session);
      _ ← persist;
      aerr ← audit (PDurability (GPolicy g)) (event "discard" fence session "" ref);
      _ ← notify;
      mret (match derr, aerr with
            | Some e, _ => (Internal, Some (EWrap [e]))
            | None, Some e => (Internal, Some e)
            | None, None => (OK, None)
            end)
  end.

(** [func (a *Core) discardRemote(...)] *)
Definition discardRemote (g : Grant) (fence : Fence) (session : string) : M (StatusCode * option error) :=
  match e_DeltaFinder, e_DeleteDelta with
  | Some finder, Some delete =>
      f ← env (FindDelta finder g session);
      match f with
      | (_, false, Some e) => mret (Internal, Some (EWrap [e]))
      | (_, false, None) => mret (NotFound, Some (wrap1 ErrSessionUnknown))
      | (rd, true, err) =>
          if rd_Handle rd ==? "" then mret (Internal, Some (EWrap [default (EOther "the store named no digest") err])) else
          d ← env (delete g session (rd_Handle rd));
          match d with
          | (_, _, Some e) => mret (Internal, Some (EWrap [e]))
          | (_, false, None) => mret (NotFound, Some (wrap1 ErrSessionUnknown))
          | (remote, true, None) =>
              aerr ← audit (PDurability (GPolicy g)) (event "discard" fence session "" remote);
              mret (match aerr with Some e => (Internal, Some e) | None => (OK, None) end)
          end
      end
  | _, _ => mret (NotFound, Some (wrap1 ErrSessionUnknown))
  end.

(** Discard under the session's gate. *)
Definition discardHeld (g : Grant) (session : string) : M (StatusCode * option error) :=
  epoch ← ledger l_epoch;
  let fence := mkFence (UID g) epoch 0 in
  st ← ledger (LSessionState (UID g) session);
  match st with
  | Some (StateRunning, _) => mret (Invalid, Some (wrap1 ErrSessionRunning))
  | Some (StateParked, ref) =>
      own ← match e_DeltaFinder with Some finder => env (Owned finder ref) | None => mret true end;
      if own : bool then discardParked g fence session ref else
      _ ← led (ForgetSession (UID g) session);
      _ ← persist;
      _ ← discardDelta fence session ref;
      _ ← audit BestEffort (event "migrate-out" fence session "" "");
      _ ← notify;
      discardRemote g fence session
  | None => discardRemote g fence session
  end.

(** [func (a *Core) Discard(ctx, req DiscardRequest) (StatusCode, error)] *)
Definition Discard (req : DiscardRequest) : M (StatusCode * option error) :=
  if dr_Session req ==? "" then mret (Invalid, Some (ESentinel errNoSession)) else
  a ← authenticate (dr_GrantJWT req) (dr_CallerThumbprint req);
  match a with
  | inr (c, e) => mret (c, Some e)
  | inl g =>
      now ← env e_Now;
      if Expired g now then miss (ESentinel ErrGrantExpired)
      else if Tenant g ==? "" then mret (NeedsTier, Some (wrap1 ErrNoTenant))
      else
        let key := sessionKey (UID g) (dr_Session req) in
        _ ← holdSession others key;
        r ← discardHeld g (dr_Session req);
        _ ← releaseHold key;
        mret r
  end.

(** ** Drain (drain.go) *)

(** [type DrainReport struct] and [add] *)
Record DrainReport := mkDrainReport { dp_Parked : Z; dp_Published : Z; dp_Shed : Z; dp_Failed : Z; dp_Left : Z }.
Definition zeroDrain : DrainReport := mkDrainReport 0 0 0 0 0.
Definition drain_add (r o : DrainReport) : DrainReport :=
  mkDrainReport (dp_Parked r + dp_Parked o) (dp_Published r + dp_Published o) (dp_Shed r + dp_Shed o)
    (dp_Failed r + dp_Failed o) (dp_Left r + dp_Left o).

(** [func (a *Core) drainOne(ctx, f FiberInfo) DrainReport] *)
Definition drainOne (f : FiberInfo) : M DrainReport :=
  if FSession f ==? "" then
    r ← Release (FID f) false;
    match r.1 with
    | NotFound => mret zeroDrain
    | OK => mret (mkDrainReport 0 0 1 0 0)
    | _ =>
        running ← ledger (LFiber (FID f));
        mret (match running with Some _ => mkDrainReport 0 0 0 1 0 | None => mkDrainReport 0 0 1 0 0 end)
    end
  else
    r ← park (FID f) true;
    let '(ref, published, code, _) := r in
    mret (if bool_decide (code = NotFound) then zeroDrain
          else if ref ==? "" then mkDrainReport 0 0 0 1 0
          else if published : bool then mkDrainReport 1 1 0 0 0 else mkDrainReport 1 0 0 0 0).

(** [func (a *Core) drainList(tried map[string]bool) []FiberInfo] *)
Definition drainList (tried : gset string) (l : Ledger) : list FiberInfo :=
  let all := Statuses l ≫= λ st, FibersOf (StGrantUID st) l in
  let new := filter (λ f, FID f ∉ tried) all in
  filter (λ f, FSession f ≠ "") new ++ filter (λ f, FSession f = "") new.

(** [func (a *Core) drainBatch]: the fibers in order; [ends] is how many were
    started before the context ended.  The workers' calls are independent
    verbs, run here one after another. *)
Fixpoint drainBatch (ends : nat) (batch : list FiberInfo) (rep : DrainReport) : M DrainReport :=
  match batch, ends with
  | [], _ => mret rep
  | _, 0 => mret (drain_add rep (mkDrainReport 0 0 0 0 (Z.of_nat (length batch))))
  | f :: batch', S ends' => o ← drainOne f; drainBatch ends' batch' (drain_add rep o)
  end.

(** The loop of Drain.  [ends] is how many fibers are started before the
    context ends, and [fuel] bounds the lists drawn up. *)
Fixpoint drainLoop (fuel ends : nat) (tried : gset string) (rep : DrainReport) : M (option DrainReport) :=
  match fuel with
  | 0 => mret None
  | S fuel' =>
      batch ← ledger (drainList tried);
      match batch with
      | [] => mret (Some rep)
      | _ =>
          if bool_decide (ends = 0)
          then mret (Some (drain_add rep (mkDrainReport 0 0 0 0 (Z.of_nat (length batch)))))
          else
            rep ← drainBatch ends batch rep;
            drainLoop fuel' (ends - length batch) (tried ∪ list_to_set (FID <$> batch)) rep
      end
  end.

(** [func (a *Core) Drain(ctx) DrainReport] *)
Definition Drain (fuel ends : nat) : M (option DrainReport) :=
  _ ← modify (put_draining true);
  rep ← drainLoop fuel ends ∅ zeroDrain;
  _ ← persist;
  _ ← notify;
  mret rep.
End Verbs.

(** ** Drive: the home's deliveries into Core (pkg/home/home.go)

    A delivered grant is verified, its denial lifted and the grant admitted; a
    removed one is removed.  What the home publishes is the answer; its own
    error is dropped, as the source drops it. *)
(** [EventKind] and [GrantEvent]: each kind with the field that it carries. *)
Inductive GrantEvent := GrantAdded (token : string) | GrantRemoved (uid : string).
#[global] Instance GrantEvent_eq_dec : EqDecision GrantEvent. Proof. solve_decision. Defined.

Section Drive.
Context `{Env E} (others : World E → World E).
Local Notation M := (St (World E)).

(** One turn of the loop of Drive: what it publishes ([PublishReady]'s
    arguments), if it does.  [waits] are those of Admit, [inflight] that of
    Remove. *)
Definition driveEvent (waits : list (option Sentinel)) (inflight : bool) (ev : GrantEvent) : M (option (string * bool)) :=
  match ev with
  | GrantAdded token =>
      v ← env (e_Verify token);
      match v with
      | inr _ => mret None
      | inl g =>
          _ ← Redeliver (UID g);
          r ← Admit others waits (with_Token token g);
          match r with
          | (_, Some _) => mret None
          | (_, None) => mret (Some (UID g, true))
          end
      end
  | GrantRemoved uid =>
      _ ← Remove others inflight uid;
      mret (Some (uid, false))
  end.

(** [func Drive(ctx, h, a)], until the delivery closes or ctx ends after these
    events; between two of them it waits at its channel. *)
Fixpoint Drive (evs : list (list (option Sentinel) * bool * GrantEvent)) : M (list (string * bool)) :=
  match evs with
  | [] => mret []
  | (waits, inflight, ev) :: evs =>
      p ← driveEvent waits inflight ev;
      _ ← meanwhile others;
      ps ← Drive evs;
      mret (option_list p ++ ps)
  end.
End Drive.
