(* ===== verification/Boot.v ===== *)
(** * Boot: the snapshot store and Reconcile (pkg/core/snapshot.go)

    What a restart reads back, and what it re-admits, restores, kills and
    sweeps. *)

From S2P Require Import Prelude GoLib Fence Errors Grant Ledger LedgerSteps AuditLog Runtime Core Clone Verbs.
From stdpp Require Import options.

(** ** SnapshotStore *)

Section Store.
Context `{!JSON Snapshot}.

(** [type SnapshotStore struct]: the file, the calls so far, what the last
    write covered and its result. *)
Record SnapshotStore := mkStore { st_Path : string; st_asked : N; st_covered : N; st_lastErr : bool }.

(** [func (st *SnapshotStore) write(s Snapshot) error], true for nil. *)
Definition st_write (sys : sysOutcomes) (tmp part : string) (path : string) (s : Snapshot) (fs : FS) : bool * FS :=
  match Marshal s with
  | None => (false, fs)
  | Some b => writeFileAtomic sys tmp part path b fs
  end.

(** Persist up to its lock: the call takes its number. *)
Definition persistAsk (st : SnapshotStore) : N * SnapshotStore :=
  (U64.succ (st_asked st), mkStore (st_Path st) (U64.succ (st_asked st)) (st_covered st) (st_lastErr st)).

(** Persist under its lock, for the call numbered [n]; [s] is what the ledger
    is at that point. *)
Definition persistLocked (sys : sysOutcomes) (tmp part : string) (n : N) (s : Snapshot) (st : SnapshotStore) (fs : FS)
    : bool * SnapshotStore * FS :=
  if (n <=? st_covered st)%N then (st_lastErr st, st, fs)
  else
    let '(ok, fs) := st_write sys tmp part (st_Path st) s fs in
    (ok, mkStore (st_Path st) (st_asked st) (st_asked st) ok, fs).

(** [func (st *SnapshotStore) Load() (Snapshot, error)]: the snapshot and
    whether it was unreadable; [None] is a read error. *)
Definition st_Load (readable : bool) (st : SnapshotStore) (fs : FS) : option (Snapshot * bool) :=
  match fs !! st_Path st with
  | None => Some (mkSnapshot 0 Time.zero [] [], false)
  | Some b =>
      if readable then
        match Unmarshal b with
        | Some s => Some (s, false)
        | None => Some (mkSnapshot 0 Time.zero [] [], true)
        end
      else None
  end.
End Store.

(** ** Reconcile *)

(** [type ReconcileReport struct] *)
Record ReconcileReport := mkReconcile {
  rr_Readmitted : Z; rr_Expired : Z; rr_Unverified : Z; rr_Unavailable : Z;
  rr_Restored : Z; rr_Dropped : Z; rr_Held : Z; rr_Orphans : Z; rr_Swept : Z;
}.
Definition zeroReconcile : ReconcileReport := mkReconcile 0 0 0 0 0 0 0 0 0.

Inductive tally := TReadmitted | TExpired | TUnverified | TUnavailable | TNone.
Definition tally_grant (t : tally) (r : ReconcileReport) : ReconcileReport :=
  match t with
  | TReadmitted => mkReconcile (rr_Readmitted r + 1) (rr_Expired r) (rr_Unverified r) (rr_Unavailable r) (rr_Restored r) (rr_Dropped r) (rr_Held r) (rr_Orphans r) (rr_Swept r)
  | TExpired => mkReconcile (rr_Readmitted r) (rr_Expired r + 1) (rr_Unverified r) (rr_Unavailable r) (rr_Restored r) (rr_Dropped r) (rr_Held r) (rr_Orphans r) (rr_Swept r)
  | TUnverified => mkReconcile (rr_Readmitted r) (rr_Expired r) (rr_Unverified r + 1) (rr_Unavailable r) (rr_Restored r) (rr_Dropped r) (rr_Held r) (rr_Orphans r) (rr_Swept r)
  | TUnavailable => mkReconcile (rr_Readmitted r) (rr_Expired r) (rr_Unverified r) (rr_Unavailable r + 1) (rr_Restored r) (rr_Dropped r) (rr_Held r) (rr_Orphans r) (rr_Swept r)
  | TNone => r
  end.
Definition tally_sessions (restored dropped held : Z) (r : ReconcileReport) : ReconcileReport :=
  mkReconcile (rr_Readmitted r) (rr_Expired r) (rr_Unverified r) (rr_Unavailable r) (rr_Restored r + restored) (rr_Dropped r + dropped) (rr_Held r + held) (rr_Orphans r) (rr_Swept r).
Definition tally_boot (orphans swept : Z) (r : ReconcileReport) : ReconcileReport :=
  mkReconcile (rr_Readmitted r) (rr_Expired r) (rr_Unverified r) (rr_Unavailable r) (rr_Restored r) (rr_Dropped r) (rr_Held r) (rr_Orphans r + orphans) (rr_Swept r + swept).

Section Boot.
Context `{Env E} (cfg : Config).
Local Notation M := (St (World E)).

(** [func (a *Core) hold(g Grant)] *)
Definition hold (g : Grant) : M unit :=
  modify (λ w, put_held (<[UID g := mkHeldGrant g []]> (w_held w)) w).

(** [func (a *Core) holdParked(s SessionSnapshot) bool] *)
Definition holdParked (s : SessionSnapshot) : M bool :=
  λ w, match w_held w !! ss_GrantUID s with
       | Some h => (true, put_held (<[ss_GrantUID s := mkHeldGrant (hg_grant h) (hg_sessions h ++ [s])]> (w_held w)) w)
       | None => (false, w)
       end.

(** One grant of the snapshot.  Boot opens no warm path yet, so no other
    admission runs. *)
Definition reconcileGrant (now : Time.t) (g : Grant) : M tally :=
  epoch ← ledger l_epoch;
  let fence := mkFence (UID g) epoch 0 in
  if Expired g now then _ ← audit BestEffort (event "expire" fence "" "" "at boot"); mret TExpired
  else if Token g ==? "" then mret TUnverified
  else
    v ← reverify cfg g;
    match v with
    | inr e =>
        if Is e ErrVerifyUnavailable then _ ← hold g; mret TUnavailable
        else _ ← audit BestEffort (event "refuse" fence "" "" "at boot"); mret TUnverified
    | inl vg =>
        r ← Admit id [] vg;
        mret (match r with (_, Some _) => TNone | (_, None) => TReadmitted end)
    end.

(** One session of the snapshot. *)
Definition reconcileSession (s : SessionSnapshot) (r : ReconcileReport) : M ReconcileReport :=
  if negb (bool_decide (ss_State s = StateParked)) || (ss_DeltaRef s ==? "") then mret r else
  has ← asks (λ e, match e_HasDelta with Some f => f (ss_DeltaRef s) e | None => true end);
  if negb has then mret (tally_sessions 0 1 0 r) else
  heldp ← holdParked s;
  if heldp : bool then mret (tally_sessions 0 0 1 r) else
  ok ← ledR (RestoreParked s);
  mret (if ok : bool then tally_sessions 1 0 0 r else tally_sessions 0 1 0 r).

(** One fiber the runtime still reports. *)
Definition reconcileFiber (h : FiberHandle) : M Z :=
  epoch ← ledger l_epoch;
  let fence := ParseFence (HID h) in
  if match fence with inl f => (epoch <=? Epoch f)%N | inr _ => false end then mret 0%Z else
  err ← release id (HID h) false;
  match err with
  | Some _ => mret 0%Z
  | None =>
      _ ← audit BestEffort (event "orphan" (match fence with inl f => f | inr _ => zeroFence end) "" (HID h)
            "killed at boot: prior epoch");
      mret 1%Z
  end.

Fixpoint fold_m {A B} (f : A → B → M B) (xs : list A) (b : B) : M B :=
  match xs with [] => mret b | x :: xs' => b' ← f x b; fold_m f xs' b' end.

(** [func (a *Core) sweepDeltas(ctx, snap Snapshot) int] *)
Definition sweepDeltas (unreadable : bool) : M Z :=
  match e_SweepDeltas with
  | None => mret 0%Z
  | Some sw =>
      if unreadable then mret 0%Z else
      s ← snapshot;
      r ← env (sw (omap (λ x, if bool_decide (ss_State x = StateParked) && (ss_DeltaRef x <>? "") then Some (ss_DeltaRef x) else None)
                     (sn_Sessions s)));
      mret r.1
  end.

(** [func (a *Core) Reconcile(ctx, snap Snapshot) (ReconcileReport, error)] *)
Definition Reconcile (snap : Snapshot) (unreadable : bool) : M (ReconcileReport * option error) :=
  now ← env e_Now;
  rep ← fold_m (λ g r, t ← reconcileGrant now g; mret (tally_grant t r)) (sn_Grants snap) zeroReconcile;
  rep ← fold_m reconcileSession (sn_Sessions snap) rep;
  running ← env e_List;
  match running with
  | inr e => mret (rep, Some (EWrap [e]))
  | inl hs =>
      orphans ← fold_m (λ h n, k ← reconcileFiber h; mret (n + k)%Z) hs 0%Z;
      _ ← for_each (λ s, if bool_decide (ss_State s = StateRunning) && (ss_DeltaRef s <>? "")
                         then discardDelta (ss_Fence s) (ss_Name s) (ss_DeltaRef s) else mret tt) (sn_Sessions snap);
      swept ← sweepDeltas unreadable;
      _ ← persist;
      _ ← notify;
      mret (tally_boot orphans swept rep, None)
  end.
End Boot.
