(* ===== verification/Pool.v ===== *)
(** * The refill loop of the sandbox pool (pkg/core/pool.go) *)

From S2P Require Import Prelude GoLib Fence Errors Grant Ledger AuditLog Runtime Core Clone.
From stdpp Require Import options.

Definition refillBackoffMin : Time.duration := (100 * Time.Millisecond)%Z.
Definition refillBackoffMax : Time.duration := (30 * Time.Second)%Z.
Definition fillDeadlineFactor : Z := 4.

(** [func (s *poolState) delay()] at [now] *)
Definition delay (now : Time.t) (s : poolState) : poolState :=
  let b := if (ps_backoff s =? 0)%Z then refillBackoffMin
           else if (ps_backoff s <? refillBackoffMax)%Z then Z.min (ps_backoff s * 2) refillBackoffMax
           else ps_backoff s in
  mkPoolState b (Time.Add now b) (ps_noPool s).

Section Pool.
Context `{Env E}.
Local Notation M := (St (World E)).

(** [func (a *Core) poolState(grantUID string) *poolState] *)
Definition getPool (uid : string) : M poolState :=
  λ w, match w_pools w !! uid with
       | Some s => (s, w)
       | None => (zeroPool, put_pools (<[uid := zeroPool]> (w_pools w)) w)
       end.
Definition setPool (uid : string) (s : poolState) : M unit := modify (λ w, put_pools (<[uid := s]> (w_pools w)) w).

(** [func (a *Core) pooledDied(grantUID string)] *)
Definition pooledDied (uid : string) : M unit :=
  s ← getPool uid; now ← env e_Now; _ ← setPool uid (delay now s); syncPooled uid.

(** [func (a *Core) DrainPool(grantUID string, n int) int] *)
Definition DrainPool (uid : string) (n : Z) : M Z :=
  match e_Pooler with
  | None => mret 0%Z
  | Some p => went ← env (PoolDrain p uid n); _ ← (if (0 <? went)%Z then syncPooled uid else mret tt); mret went
  end.

(** What one grant's turn in a pass decides. *)
Inductive turn := Skip | HoldUntil (t : Time.t) | StartFill.

Definition refillTurn (busy : bool) (g : Grant) : M turn :=
  if (FiberWarm g <=? 0)%Z then mret Skip else
  _ ← syncPooled (UID g);
  shed ← asks (e_Shedding (UID g));
  if shed : bool then mret Skip else
  ps ← getPool (UID g);
  if ps_noPool ps || busy then mret Skip else
  now ← env e_Now;
  if Time.Before now (ps_until ps) then mret (HoldUntil (ps_until ps)) else
  room ← ledger (PoolRoom (UID g));
  if (room <=? 0)%Z then mret Skip else
  terr ← env e_Take;
  match terr with
  | Some _ =>
      now ← env e_Now;
      _ ← setPool (UID g) (delay now ps); mret (HoldUntil (ps_until (delay now ps)))
  | None => _ ← modify (put_filling true (UID g)); mret StartFill
  end.

Definition earlier (next t : Time.t) : Time.t := if Time.IsZero next || Time.Before t next then t else next.

(** The loop over the statuses, in turn order; the grants whose fills start. *)
Fixpoint refillTurns (busy : bool) (next : Time.t) (started : list Grant) (sts : list Status) : M (Time.t * list Grant) :=
  match sts with
  | [] => mret (next, started)
  | st :: sts' =>
      g ← ledger (LGrant (StGrantUID st));
      match g with
      | None => refillTurns busy next started sts'
      | Some g =>
          t ← refillTurn busy g;
          match t with
          | Skip => refillTurns busy next started sts'
          | HoldUntil u => refillTurns busy (earlier next u) started sts'
          | StartFill => refillTurns true next (started ++ [g]) sts'
          end
      end
  end.

(** The statuses from the first UID above the last one filled, then the rest. *)
Definition rotate (last : string) (sts : list Status) : list Status :=
  match list_find (λ st, negb (bool_decide (String.le (StGrantUID st) last)) = true) sts with
  | Some (i, _) => drop i sts ++ take i sts
  | None => sts
  end.

(** [func (a *Core) refillPass(ctx) time.Time], and the grants whose fill it
    starts. *)
Definition refillPass : M (Time.t * list Grant) :=
  draining ← gets w_draining;
  match e_Pooler with
  | None => mret (Time.zero, [])
  | Some _ =>
      if draining : bool then mret (Time.zero, []) else
      sts ← ledger Statuses;
      last ← gets w_lastFill;
      busy ← gets w_filling;
      refillTurns busy Time.zero [] (rotate last sts)
  end.

(** [func (a *Core) fill(ctx, p Pooler, g Grant)] *)
Definition fill (g : Grant) : M unit :=
  match e_Pooler with
  | None => mret tt
  | Some p =>
      dl ← asks (GrantDeadlines (UID g));
      err ← env (Fill p g (fillDeadlineFactor * dl.1)%Z);
      _ ← modify (λ w, put_filling false (w_lastFill w) w);
      ps ← gets (λ w, w_pools w !! UID g);
      now ← env e_Now;
      _ ← match ps with
          | None => mret tt
          | Some s =>
              setPool (UID g)
                (match err with
                 | None => mkPoolState 0%Z (ps_until s) (ps_noPool s)
                 | Some e => if Is e ErrNoPool then mkPoolState (ps_backoff s) (ps_until s) true else delay now s
                 end)
          end;
      _ ← syncPooled (UID g);
      kickRefill
  end.
End Pool.

(** ** The pressure ladder (pkg/core/pressure.go)
*)
(** [func (m MaxPressure) Pressure(grantUID string) (float64, error)]: each
    source's reading, in order. *)
Fixpoint maxPressureLoop (rs : list (F64.t + error)) (best : F64.t) (got : bool) (lastErr : option error)
    : F64.t + error :=
  match rs with
  | [] => if got then inl best else inr (default (EOther "pressure: no source") lastErr)
  | inr e :: rs' => maxPressureLoop rs' best got (Some e)
  | inl v :: rs' => maxPressureLoop rs' (if F64.gtb v best then v else best) true lastErr
  end.
Definition MaxPressure (rs : list (F64.t + error)) : F64.t + error := maxPressureLoop rs F64.zero false None.

Definition DefaultPSIShed : F64.t := F64.of_Z 10.
Definition DefaultPSIPark : F64.t := F64.of_Z 25.
Definition yieldAfter : Z := 3.

(** The controller's own state: [shedding] and [stuck]. *)
Record ladder := mkLadder { la_shedding : gmap string bool; la_stuck : gmap string Z }.

(** [func (c *PressureController) Shedding(grantUID string) bool] *)
Definition Shedding (uid : string) (c : ladder) : bool := default false (la_shedding c !! uid).
(** [setShedding], [bumpStuck], [resetStuck] *)
Definition setShedding (uid : string) (v : bool) (c : ladder) : ladder :=
  if bool_decide (Shedding uid c = v) then c else mkLadder (<[uid := v]> (la_shedding c)) (la_stuck c).
Definition bumpStuck (uid : string) (c : ladder) : Z * ladder :=
  let n := (default 0 (la_stuck c !! uid) + 1)%Z in (n, mkLadder (la_shedding c) (<[uid := n]> (la_stuck c))).
Definition resetStuck (uid : string) (c : ladder) : ladder := mkLadder (la_shedding c) (delete uid (la_stuck c)).

(** [func (c *PressureController) watermarks(g Grant) (shed, park float64)] *)
Definition watermarks (g : Grant) : F64.t * F64.t :=
  let shed := if F64.leb (PSISomeAvg10Shed (GPolicy g)) F64.zero then DefaultPSIShed else PSISomeAvg10Shed (GPolicy g) in
  let park := if F64.leb (PSISomeAvg10Park (GPolicy g)) F64.zero then DefaultPSIPark else PSISomeAvg10Park (GPolicy g) in
  (shed, if F64.ltb park shed then shed else park).

(** What the controller asks of Core, in order. *)
Inductive rung := RDrain (uid : string) | RPark (id : string) | RRelease (id : string) | RYield (uid : string).

(** The verbs the controller is given ([None] for a nil field) and their
    answers at this tick; [pick] is what the sort put first. *)
Record actions := mkActions {
  ac_Drain : option (string → Z);           (** how many sandboxes went *)
  ac_Park : option (string → bool);         (** true for a nil error *)
  ac_Release : option (string → bool);
  ac_Yield : bool;                          (** Yield is set *)
}.

(** [func (c *PressureController) reclaim(ctx, grantUID string) bool].  The sort
    by W is not stable, so any fiber of largest W may come first: [v]. *)
Definition reclaim (ac : actions) (uid : string) (fibers : list FiberInfo) (v : FiberInfo) : bool * list rung :=
  let drained := match ac_Drain ac with Some f => (0 <? f uid)%Z | None => false end in
  let asked := match ac_Drain ac with Some _ => [RDrain uid] | None => [] end in
  if drained then (true, asked)
  else match fibers with
       | [] => (false, asked)
       | _ =>
           let release (asked : list rung) :=
             match ac_Release ac with
             | Some f => (f (FID v), asked ++ [RRelease (FID v)])
             | None => (false, asked)
             end in
           match ac_Park ac with
           | Some f =>
               if FSession v <>? "" then
                 if f (FID v) then (true, asked ++ [RPark (FID v)]) else release (asked ++ [RPark (FID v)])
               else release asked
           | None => release asked
           end
       end.

(** [func (c *PressureController) evaluate(ctx, g Grant, psi float64)] *)
Definition evaluate (ac : actions) (g : Grant) (psi : F64.t) (fibers : list FiberInfo) (v : FiberInfo) (c : ladder)
    : list rung * ladder :=
  let '(shed, park) := watermarks g in
  if F64.geb psi park then
    let c := setShedding (UID g) true c in
    let '(ok, asked) := reclaim ac (UID g) fibers v in
    if ok then (asked, resetStuck (UID g) c)
    else
      let '(n, c) := bumpStuck (UID g) c in
      if (yieldAfter <=? n)%Z && ac_Yield ac then (asked ++ [RYield (UID g)], resetStuck (UID g) c) else (asked, c)
  else if F64.geb psi shed then ([], setShedding (UID g) true (resetStuck (UID g) c))
  else ([], setShedding (UID g) false (resetStuck (UID g) c)).

(** One grant at one tick: the reading, if its source answered, the verbs'
    answers and the ledger it sees. *)
Record tick := mkTick { tk_psi : F64.t + error; tk_acts : actions; tk_led : Ledger; tk_victim : FiberInfo }.

(** [func (c *PressureController) Tick(ctx)], for the grant [uid]: the verbs of
    one grant's evaluation may change the ledger the next one reads. *)
Definition tickGrant (uid : string) (t : tick) (c : ladder) : list rung * ladder :=
  match LGrant uid (tk_led t), tk_psi t with
  | Some g, inl psi => evaluate (tk_acts t) g psi (FibersOf (UID g) (tk_led t)) (tk_victim t) c
  | _, _ => ([], c)
  end.
