(* ===== verification/CoreRefines.v ===== *)
(** * Core's verbs are threads of the ledger's transition system

    A small program logic over [St World].  A call's waits are in its trace
    ([EvWait]): the ledger it left and the ledger it came back to, whatever the
    rest of the home made of it in between.  [triple P c Q] says that each
    stretch of [c] between two waits is a run of [step] by the call's own thread,
    and relates the thread and the ledger before and after.  Every verb
    satisfies one, so what LedgerSafety proves of all runs holds of Core. *)

From S2P Require Import Prelude GoLib Fence Errors Grant Ledger LedgerFacts LedgerSteps AuditLog Runtime Core Clone Verbs.
From stdpp Require Import options.

(** What Core.Admit lets through: a refresh keeps the fixed fields. *)
Definition core_admit (g : Grant) (l : Ledger) : Prop :=
  match entryOf l (UID g) with
  | Some (_, e) => changesFixedFields (ge_grant e) g = false
  | None => True
  end.

(** The rest of the home runs in a wait: any function of the world.  The trace
    is this call's own. *)
Definition waiting {E} (others : World E → World E) (w : World E) : World E :=
  let w' := others w in put_trace (EvWait (w_led w) (w_led w') :: w_trace w) w'.

Section Refines.
Context `{Env E} (i : nat) (X : gset nat).
Local Notation M := (St (World E)).

(** Neither a wait, nor one that never ended, nor the end of a fiber. *)
Definition plain (e : ev) : Prop := match e with EvWait _ _ | EvBlocked _ | EvRelease _ _ _ => False | _ => True end.

Definition lsteps (l : Ledger) (th : gmap nat thread) (m : list Fence) (l' : Ledger) (th' : gmap nat thread) (m' : list Fence) : Prop :=
  rtc (step core_admit) (mkSys l th m) (mkSys l' th' m').

(** The threads of [X], the other calls', do not move. *)
Definition frame (th th' : gmap nat thread) : Prop := ∀ k, k ∈ X → th' !! k = th !! k.

(** From thread [x] and ledger [l], through the events of [t], oldest first, to
    [l'] and a thread of [K]: between waits only steps of this thread.  A call
    whose wait for a gate never ended ([EvBlocked]) does not go on from there. *)
Fixpoint goes (x : option thread) (l : Ledger) (t : list ev) (l' : Ledger) (K : option thread → Prop) : Prop :=
  match t with
  | [] => ∀ th m, th !! i = x → ∃ th' m', lsteps l th m l' th' m' ∧ frame th th' ∧ K (th' !! i)
  | EvWait y r :: t => ∀ th m, th !! i = x → ∃ th' m', lsteps l th m y th' m' ∧ frame th th' ∧ goes (th' !! i) r t l' K
  | EvBlocked _ :: _ => True
  | _ :: t => goes x l t l' K
  end.

Definition triple {A} (P : option thread → Ledger → Prop) (c : M A) (Q : A → option thread → Ledger → Prop) : Prop :=
  ∀ w, ∃ t, w_trace (c w).2 = reverse t ++ w_trace w ∧
    ∀ x, P x (w_led w) → goes x (w_led w) t (w_led (c w).2) (λ y, Q (c w).1 y (w_led (c w).2)).

(** The thread does not move. *)
Definition silent {A} (c : M A) : Prop := ∀ x, triple (λ y _, y = x) c (λ _ y _, y = x).

(** The ledger does not move, and the call does not wait. *)
Definition keeps {A} (c : M A) : Prop :=
  ∀ w, w_led (c w).2 = w_led w ∧ ∃ t, w_trace (c w).2 = reverse t ++ w_trace w ∧ Forall plain t.

(** One stretch after another; where the first ends may depend on the threads. *)
Lemma goes_own x l t l' (K : option thread → Prop) l0 :
  (∀ th m, th !! i = x → ∃ th' m', lsteps l0 th m l th' m' ∧ frame th th' ∧ goes (th' !! i) l t l' K) → goes x l0 t l' K.
Proof.
  induction t as [|e t IH]; cbn [goes].
  - intros Hg th m Hx. destruct (Hg th m Hx) as (th1 & m1 & H1 & F1 & Hg1). destruct (Hg1 th1 m1 eq_refl) as (th2 & m2 & H2 & F2 & HK).
    exists th2, m2. split; [unfold lsteps in *; by etrans|]. split; [|done]. intros k Hk. by rewrite F2, F1.
  - destruct e; try exact IH; [|done]. intros Hg th m Hx.
    destruct (Hg th m Hx) as (th1 & m1 & H1 & F1 & Hg1). destruct (Hg1 th1 m1 eq_refl) as (th2 & m2 & H2 & F2 & HK).
    exists th2, m2. split; [unfold lsteps in *; by etrans|]. split; [|done]. intros k Hk. by rewrite F2, F1.
Qed.
Lemma goes_app t1 t2 l1 l2 (K : option thread → Prop) : ∀ x l, goes x l t1 l1 (λ y, goes y l1 t2 l2 K) → goes x l (t1 ++ t2) l2 K.
Proof.
  induction t1 as [|e t1 IH]; intros x l; [apply goes_own|]. destruct e; cbn [goes app]; try apply IH; [|done].
  intros Hg th m Hx. destruct (Hg th m Hx) as (th1 & m1 & H1 & F1 & Hg1). exists th1, m1. split_and!; [done..|]. by apply IH.
Qed.
Lemma goes_mono t l' (K K' : option thread → Prop) : (∀ y, K y → K' y) → ∀ x l, goes x l t l' K → goes x l t l' K'.
Proof.
  intros HK. induction t as [|e t IH]; intros x l; cbn [goes].
  - intros Hg th m Hx. destruct (Hg th m Hx) as (th' & m' & ? & ? & ?). eauto 10.
  - destruct e; try apply IH; [|done]. intros Hg th m Hx. destruct (Hg th m Hx) as (th' & m' & ? & ? & ?). eauto 10.
Qed.
(** Where the ledger stays and nothing waits, every thread stays. *)
Lemma goes_stay t l (K : option thread → Prop) x : Forall plain t → K x → goes x l t l K.
Proof.
  intros Ht HK. induction Ht as [|e t He _ IH]; cbn [goes].
  - intros th m Hx. exists th, m. split; [apply rtc_refl|]. by rewrite Hx.
  - by destruct e.
Qed.
(** A computation that adds nothing to the trace: one stretch. *)
Lemma triple_stretch {A} P (c : M A) Q :
  (∀ w, w_trace (c w).2 = w_trace w) →
  (∀ w th m, P (th !! i) (w_led w) → ∃ th' m', lsteps (w_led w) th m (w_led (c w).2) th' m' ∧ frame th th' ∧ Q (c w).1 (th' !! i) (w_led (c w).2)) →
  triple P c Q.
Proof.
  intros Ht Hs w. exists []. split; [by rewrite Ht|]. intros x HP. cbn [goes]. intros th m Hx. apply Hs. by rewrite Hx.
Qed.

Lemma triple_ret {A} (a : A) (Q : A → option thread → Ledger → Prop) : triple (Q a) (mret a) Q.
Proof. intros w. exists []. split; [done|]. intros x HP. by apply goes_stay. Qed.

Lemma triple_bind {A B} P (c : M A) Q (k : A → M B) R :
  triple P c Q → (∀ a, triple (Q a) (k a) R) → triple P (c ≫= k) R.
Proof.
  intros Hc Hk w. destruct (Hc w) as (t1 & E1 & G1). rewrite St_bind_run. destruct (c w) as [a w1]. cbn [fst snd] in *.
  destruct (Hk a w1) as (t2 & E2 & G2). exists (t1 ++ t2). split; [by rewrite E2, E1, reverse_app, app_assoc|].
  intros x HP. apply (goes_app _ _ (w_led w1)). eapply goes_mono; [exact G2|by apply G1].
Qed.

Lemma triple_conseq {A} (P P' : option thread → Ledger → Prop) (c : M A) (Q Q' : A → option thread → Ledger → Prop) :
  triple P c Q → (∀ y l, P' y l → P y l) → (∀ a y l, Q a y l → Q' a y l) → triple P' c Q'.
Proof.
  intros Hc HP HQ w. destruct (Hc w) as (t & E1 & G1). exists t. split; [done|]. intros x H'. eapply goes_mono; [|by apply G1, HP]. cbn. auto.
Qed.

(** A computation that leaves the ledger alone keeps every assertion. *)
Lemma keeps_triple {A} (c : M A) P : keeps c → triple P c (λ _, P).
Proof.
  intros Hc w. destruct (Hc w) as (El & t & Et & Ht). exists t. split; [done|]. intros x HP. rewrite El. by apply goes_stay.
Qed.

Lemma keeps_silent {A} (c : M A) : keeps c → silent c.
Proof. intros Hc x. by apply (keeps_triple c (λ y _, y = x)). Qed.

Lemma silent_released id d err : silent (log (EvRelease id d err)).
Proof. intros x w. exists [EvRelease id d err]. split; [done|]. intros y ->. by apply (goes_stay [] (w_led w) (λ y, y = x)). Qed.

Lemma silent_ret {A} (a : A) : silent (mret a).
Proof. intros x. apply (triple_ret a (λ _ y _, y = x)). Qed.

Lemma silent_bind {A B} (c : M A) (k : A → M B) : silent c → (∀ a, silent (k a)) → silent (c ≫= k).
Proof. intros Hc Hk x. eapply triple_bind; [apply Hc|]. intros a. apply Hk. Qed.

(** A wait: the thread stays, whatever the others do. *)
Lemma silent_waiting others : silent (meanwhile (waiting others)).
Proof.
  intros x w. exists [EvWait (w_led w) (w_led (others w))]. split; [done|]. intros y ->. cbn [goes].
  intros th m Hx. exists th, m. split; [apply rtc_refl|]. split; [done|]. intros th' m' Hx'. exists th', m'.
  split; [apply rtc_refl|]. split; [done|]. congruence.
Qed.

(** A ledger operation that is one step of the system, whoever runs it. *)
Lemma silent_ledR {A} (f : Ledger → A * Ledger) :
  (∀ l th m, step core_admit (mkSys l th m) (mkSys (f l).2 th m)) → silent (ledR f).
Proof. intros Hf x. apply triple_stretch; [done|]. intros w th m HP. exists th, m. split; [|done]. apply rtc_once, Hf. Qed.
Lemma silent_led (f : Ledger → Ledger) :
  (∀ l th m, step core_admit (mkSys l th m) (mkSys (f l) th m)) → silent (led f).
Proof. intros Hf x. apply triple_stretch; [done|]. intros w th m HP. exists th, m. split; [|done]. apply rtc_once, Hf. Qed.

(** ** What keeps the ledger *)

Lemma keeps_plain {A} (c : M A) : (∀ w, w_led (c w).2 = w_led w ∧ w_trace (c w).2 = w_trace w) → keeps c.
Proof. intros Hc w. destruct (Hc w) as [E1 E2]. split; [done|]. exists []. by split; [|constructor]. Qed.
Lemma keeps_ret {A} (a : A) : keeps (mret a).
Proof. by apply keeps_plain. Qed.
Lemma keeps_bind {A B} (c : M A) (k : A → M B) : keeps c → (∀ a, keeps (k a)) → keeps (c ≫= k).
Proof.
  intros Hc Hk w. destruct (Hc w) as (E1 & t1 & T1 & F1). destruct (Hk (c w).1 (c w).2) as (E2 & t2 & T2 & F2). rewrite St_bind_run.
  split; [by rewrite E2|]. exists (t1 ++ t2). split; [by rewrite T2, T1, reverse_app, app_assoc|by apply Forall_app].
Qed.
Lemma keeps_env {A} (f : St E A) : keeps (env f).
Proof. by apply keeps_plain. Qed.
Lemma keeps_gets {A} (f : World E → A) : keeps (gets f).
Proof. by apply keeps_plain. Qed.
Lemma keeps_log e : plain e → keeps (log e).
Proof. intros He w. split; [done|]. exists [e]. split; [done|]. by constructor. Qed.
Lemma keeps_modify (f : World E → World E) :
  (∀ w, w_led (f w) = w_led w ∧ w_trace (f w) = w_trace w) → keeps (modify f).
Proof. intros Hf. apply keeps_plain. apply Hf. Qed.
Lemma keeps_if {A} (b : bool) (c d : M A) : keeps c → keeps d → keeps (if b then c else d).
Proof. by destruct b. Qed.
Lemma keeps_opt {A B} (o : option A) (f : A → M B) (d : M B) :
  (∀ a, keeps (f a)) → keeps d → keeps (match o with Some a => f a | None => d end).
Proof. by destruct o. Qed.
End Refines.

(** [keep] settles a computation made of lifts that leave the ledger alone. *)
Create HintDb keeps discriminated.
#[export] Hint Resolve keeps_ret keeps_env keeps_gets : keeps.
#[export] Hint Extern 1 (keeps (log _)) => apply keeps_log; exact I : keeps.
Ltac keep :=
  repeat first
    [ solve [auto with keeps]
    | apply keeps_bind; [|intros ?]
    | apply keeps_modify; by intros
    | match goal with |- keeps (match ?x with _ => _ end) => destruct x end
    | match goal with |- keeps (let _ := _ in _) => cbv zeta end ].
(** [quiet] settles one whose ledger operations are steps of anyone. *)
Create HintDb quiet discriminated.
#[export] Hint Resolve silent_released : quiet.
Ltac quiet :=
  repeat first
    [ solve [auto with quiet]
    | solve [apply keeps_silent; keep]
    | apply silent_bind; [|intros ?]
    | match goal with |- silent _ _ (match ?x with _ => _ end) => destruct x end
    | match goal with |- silent _ _ (let _ := _ in _) => cbv zeta end ].

Section Helpers.
Context `{Env E} (cfg : Config).

Lemma keeps_notify : keeps (notify (E:=E)).
Proof. unfold notify. keep. Qed.
Lemma keeps_audit d r : keeps (audit (E:=E) d r).
Proof. unfold audit. keep. Qed.
Lemma keeps_persist : keeps (persist (E:=E)).
Proof. unfold persist, snapshot. keep. Qed.
Lemma keeps_missCode e : keeps (missCode (E:=E) e).
Proof. unfold missCode. keep. Qed.
Hint Resolve keeps_notify keeps_audit keeps_persist keeps_missCode : keeps.
Lemma keeps_miss e : keeps (miss (E:=E) e).
Proof. unfold miss. keep. Qed.
Lemma keeps_durability uid : keeps (durability (E:=E) uid).
Proof. unfold durability, ledger. keep. Qed.
Lemma keeps_retire f s r : keeps (retireDelta (E:=E) f s r).
Proof. unfold retireDelta. keep. Qed.
Hint Resolve keeps_retire : keeps.
Lemma keeps_discard f s r : keeps (discardDelta (E:=E) f s r).
Proof. unfold discardDelta. keep. Qed.
Lemma keeps_attach u c : keeps (attachDevices (E:=E) u c).
Proof. unfold attachDevices. keep. Qed.
Lemma keeps_releaseHeld h : keeps (releaseHeld (E:=E) h).
Proof. unfold releaseHeld. keep. Qed.
Hint Resolve keeps_attach keeps_releaseHeld : keeps.
Lemma keeps_releaseDevices u : keeps (releaseDevices (E:=E) u).
Proof. unfold releaseDevices. keep. Qed.
Lemma keeps_admitRefuse u f : keeps (admitRefuse (E:=E) u f).
Proof. unfold admitRefuse. keep. Qed.
Lemma keeps_reverify g : keeps (reverify (E:=E) cfg g).
Proof. unfold reverify. keep. Qed.
Hint Resolve keeps_reverify : keeps.
Lemma keeps_ownGrant g : keeps (ownGrant (E:=E) cfg g).
Proof. unfold ownGrant. keep. Qed.
Lemma keeps_routed r : keeps (routed (E:=E) r).
Proof. unfold routed, asks. keep. Qed.
Lemma keeps_kick : keeps (kickRefill (E:=E)).
Proof. unfold kickRefill. keep. Qed.
Lemma keeps_forgetPool u : keeps (forgetPool (E:=E) u).
Proof. unfold forgetPool. keep. Qed.
Hint Resolve keeps_miss : keeps.
Lemma keeps_swept g f : keeps (swept (E:=E) g f).
Proof. unfold swept, ledger. keep. Qed.
End Helpers.
#[export] Hint Resolve keeps_notify keeps_audit keeps_persist keeps_missCode keeps_miss keeps_durability
  keeps_retire keeps_discard keeps_attach keeps_releaseHeld keeps_releaseDevices keeps_admitRefuse
  keeps_reverify keeps_ownGrant keeps_routed keeps_kick keeps_forgetPool keeps_swept : keeps.

(** ** Verbs that hold no gate *)

Section Silent.
Context `{Env E} (cfg : Config) (others : World E → World E) (i : nat) (X : gset nat).
Hypothesis others_silent : silent i X (meanwhile others).

Lemma silent_forEach {A} (f : A → St (World E) unit) xs : (∀ x, silent i X (f x)) → silent i X (for_each f xs).
Proof. intros Hf. induction xs; simpl; quiet. Qed.

Lemma silent_restore s : silent i X (ledR (E:=E) (RestoreParked s)).
Proof.
  apply silent_ledR. intros l th m. unfold RestoreParked.
  pose proof (step_restore core_admit s l th m) as Hs. by destruct (restoreParked s l).
Qed.
Lemma silent_restore' s : silent i X (ledR (E:=E) (restoreParked s)).
Proof. apply silent_ledR. intros. apply step_restore. Qed.
Lemma silent_onRelease id : silent i X (ledR (E:=E) (OnRelease id)).
Proof.
  apply silent_ledR. intros l th m. unfold OnRelease.
  pose proof (step_gone core_admit id l th m) as Hs. by destruct (onGone id l).
Qed.
Lemma silent_onExit id : silent i X (ledR (E:=E) (OnFiberExit id)).
Proof. apply silent_ledR. intros. apply step_gone. Qed.
Lemma silent_setPooled u n : silent i X (ledR (E:=E) (SetPooled u n)).
Proof. apply silent_ledR. intros. apply step_pooled. Qed.
Lemma silent_setW id n : silent i X (led (E:=E) (SetFiberW id n)).
Proof. apply silent_led. intros. apply step_setW. Qed.
Lemma silent_revokeGrant u : silent i X (led (E:=E) (RevokeGrant u)).
Proof. apply silent_led. intros. apply step_revoke. Qed.
Lemma silent_bumpEpoch e : silent i X (led (E:=E) (LBumpEpoch e)).
Proof. apply silent_led. intros. apply step_bump. Qed.
Lemma silent_forget u s : silent i X (led (E:=E) (ForgetSession u s)).
Proof. apply silent_led. intros. apply step_forget. Qed.
Lemma silent_park id ref : silent i X (ledR (E:=E) (OnPark id ref)).
Proof. apply silent_ledR. intros. apply step_park. Qed.
Hint Resolve silent_restore silent_restore' silent_onRelease silent_onExit silent_setPooled silent_setW
  silent_revokeGrant silent_bumpEpoch silent_forget silent_park : quiet.

Hint Resolve others_silent : quiet.
Lemma silent_release id d : silent i X (release (E:=E) others id d).
Proof using others_silent. unfold release. quiet. Qed.
Hint Resolve silent_release : quiet.
Lemma silent_syncPooled u : silent i X (syncPooled (E:=E) u).
Proof. unfold syncPooled, asks. quiet. Qed.
Hint Resolve silent_syncPooled : quiet.
Lemma silent_handedOut u : silent i X (handedOut (E:=E) u).
Proof. unfold handedOut. quiet. Qed.
Lemma silent_restoreHeld u : silent i X (restoreHeld (E:=E) u).
Proof. unfold restoreHeld. quiet. apply silent_forEach. intros. quiet. Qed.
Lemma silent_OnExit ex : silent i X (OnExit (E:=E) ex).
Proof. unfold OnExit. quiet. Qed.
Lemma silent_Revoke u : silent i X (Revoke (E:=E) u).
Proof. unfold Revoke. quiet. Qed.
Lemma silent_yieldFiber r f : silent i X (yieldFiber (E:=E) others r f).
Proof using others_silent. unfold yieldFiber, ledger. quiet. Qed.
Hint Resolve silent_handedOut silent_restoreHeld silent_OnExit silent_Revoke silent_yieldFiber silent_forEach : quiet.
Lemma silent_Yield u r : silent i X (Yield (E:=E) others u r).
Proof using others_silent. unfold Yield, ledger. quiet. Qed.
Hint Resolve silent_Yield : quiet.
Lemma silent_Redeliver u : silent i X (Redeliver (E:=E) u).
Proof. unfold Redeliver, ledger. quiet. Qed.
Lemma silent_Remove b u : silent i X (Remove (E:=E) others b u).
Proof using others_silent. unfold Remove, ledger. quiet. Qed.
Lemma silent_bumpFiber n r id : silent i X (bumpFiber (E:=E) others n r id).
Proof using others_silent. unfold bumpFiber, ledger. quiet. Qed.
Hint Resolve silent_bumpFiber : quiet.
Lemma silent_BumpEpoch r : silent i X (BumpEpoch (E:=E) others r).
Proof using others_silent. unfold BumpEpoch, ledger. quiet. Qed.
Lemma silent_Release id d : silent i X (Release (E:=E) others id d).
Proof using others_silent. unfold Release, ledger. quiet. Qed.
Lemma silent_sampleLoop ids : ∀ n, silent i X (sampleLoop (E:=E) ids n).
Proof. induction ids; intros n; simpl; quiet. Qed.
Hint Resolve silent_sampleLoop : quiet.
Lemma silent_sample : silent i X (sample (E:=E)).
Proof. unfold sample, ledger. quiet. Qed.
Lemma silent_sweepLoop now sts : ∀ n, silent i X (sweepLoop (E:=E) others now sts n).
Proof using others_silent. induction sts; intros n; simpl; unfold ledger; quiet. Qed.
Hint Resolve silent_sweepLoop : quiet.
Lemma silent_Sweep : silent i X (Sweep (E:=E) others).
Proof using others_silent. unfold Sweep, ledger. quiet. Qed.

(** *** Admission *)

Lemma triple_ledger {A} (f : Ledger → A) (P : option thread → Ledger → Prop) :
  triple i X P (ledger (E:=E) f) (λ a y l, P y l ∧ a = f l).
Proof. apply triple_stretch; [done|]. intros w th m HP. exists th, m. split_and!; [apply rtc_refl|done|done..]. Qed.

Lemma triple_admitGrant g x :
  triple i X (λ y l, y = x ∧ core_admit g l) (led (E:=E) (AdmitGrant g)) (λ _ y _, y = x).
Proof.
  apply triple_stretch; [done|]. intros w th m [Hx HA]. exists th, m. split; [|done]. apply rtc_once. by apply step_admit.
Qed.

Lemma core_admit_checked g l :
  match LGrant (UID g) l with Some h => changesFixedFields h g | None => false end = false → core_admit g l.
Proof. unfold LGrant, core_admit. by destruct (entryOf l (UID g)) as [[a e]|]. Qed.

(** The rest of an admission once its template is warm and its devices fit. *)
Lemma silent_admitTail g fresh (devices : option (Grant → St E (DeviceChannel * option nat + error))) x :
  triple i X (λ y l, y = x ∧ core_admit g l)
    (_ ← match devices with
         | None => mret tt
         | Some _ =>
             old ← gets (λ w : World E, default zeroHeld (w_devices w !! UID g));
             _ ← modify (λ w, put_devices (<[UID g := fresh]> (w_devices w)) w);
             releaseHeld old
         end;
     _ ← led (AdmitGrant g);
     _ ← restoreHeld (UID g);
     _ ← kickRefill;
     epoch ← ledger l_epoch;
     _ ← audit BestEffort (event "admit" (mkFence (UID g) epoch 0) "" "" (TemplateDigest g +:+ channelDetail (hd_channel fresh)));
     _ ← persist; _ ← notify; mret (OK, None : option error)) (λ _ y _, y = x).
Proof.
  eapply triple_bind; [apply keeps_triple; keep|intros ?].
  eapply triple_bind; [apply triple_admitGrant|intros ?].
  revert x. change (silent i X (_ ← restoreHeld (UID g); _ ← kickRefill; epoch ← ledger (E:=E) l_epoch;
    _ ← audit BestEffort (event "admit" (mkFence (UID g) epoch 0) "" "" (TemplateDigest g +:+ channelDetail (hd_channel fresh)));
    _ ← persist; _ ← notify; mret (OK, None : option error))). unfold ledger. quiet.
Qed.

Lemma silent_admitSlot g : silent i X (admitSlot (E:=E) g).
Proof.
  intros x. unfold admitSlot.
  eapply triple_bind; [apply keeps_triple; keep|intros denied].
  destruct denied; [apply (keeps_triple _ _ _ (λ y _, y = x)); keep|].
  eapply triple_bind; [apply triple_ledger|intros held]. simpl.
  destruct (match held with Some h => changesFixedFields h g | None => false end) eqn:Ec.
  { eapply triple_conseq; [apply (triple_ret i X _ (λ _ y _, y = x))|by intros y l [? _]|done]. }
  eapply (triple_conseq i X (λ y l, y = x ∧ core_admit g l) _ _ (λ _ y _, y = x)); [| |done].
  2: { intros y l [-> ->]. split; [done|]. by apply core_admit_checked. }
  eapply triple_bind; [apply keeps_triple; keep|intros [fresh|e]].
  2: { eapply triple_conseq; [apply (keeps_triple _ _ _ (λ y _, y = x)); keep|by intros y l [? _]|done]. }
  eapply triple_bind; [apply keeps_triple; keep|intros perr].
  eapply triple_bind; [apply keeps_triple; keep|intros ?].
  destruct perr as [e|].
  { eapply triple_conseq; [apply (keeps_triple _ _ _ (λ y _, y = x)); keep|by intros y l [? _]|done]. }
  eapply triple_bind; [apply keeps_triple; unfold asks; keep|intros offer].
  destruct (if (0 <? DBytes (GDeviceBudget g))%N then _ else _) as [e|].
  { eapply triple_conseq; [apply (keeps_triple _ _ _ (λ y _, y = x)); keep|by intros y l [? _]|done]. }
  apply silent_admitTail.
Qed.
Hint Resolve silent_admitSlot : quiet.

Lemma silent_admitWait waits g : silent i X (admitWait (E:=E) others waits g).
Proof using others_silent. induction waits as [|[e|] waits IH]; simpl; unfold ledger; quiet. Qed.
Hint Resolve silent_admitWait : quiet.

Lemma silent_Admit waits g : silent i X (Admit (E:=E) others waits g).
Proof using others_silent. unfold Admit, asks. quiet. Qed.

Lemma silent_locateRemote finder g session : silent i X (locateRemote (E:=E) cfg finder g session).
Proof. unfold locateRemote, found_nothing, ledger. quiet. Qed.
Hint Resolve silent_locateRemote : quiet.
Lemma silent_locate g session : silent i X (locate (E:=E) cfg g session).
Proof. unfold locate, found_nothing, ledger. quiet. Qed.
Hint Resolve silent_Admit : quiet.
Lemma silent_selfAdmit waits g : silent i X (selfAdmit (E:=E) cfg others waits g).
Proof using others_silent. unfold selfAdmit, ledger. quiet. Qed.
Hint Resolve silent_selfAdmit : quiet.
Lemma silent_cloneFront waits req : silent i X (cloneFront (E:=E) cfg others waits req).
Proof using others_silent. unfold cloneFront, ledger. quiet. Qed.
End Silent.
#[export] Hint Resolve silent_restore silent_restore' silent_onRelease silent_onExit silent_setPooled silent_setW
  silent_revokeGrant silent_bumpEpoch silent_forget silent_park silent_release silent_syncPooled silent_handedOut silent_restoreHeld
  silent_OnExit silent_Revoke silent_yieldFiber silent_forEach silent_Yield silent_Redeliver silent_Remove
  silent_BumpEpoch silent_Release silent_Sweep silent_Admit silent_locate silent_cloneFront : quiet.
