(* ===== verification/CoreThreads.v ===== *)
(** * Core's verbs that hold a session's gate are threads of the ledger's system

    Park, Discard and Clone, each as one thread: it enters the gate, holds it,
    for a clone resolves, commits and unlocks, and lets the gate go. *)

From S2P Require Import Prelude GoLib Fence Errors Grant Ledger LedgerFacts LedgerSteps AuditLog Runtime Core Clone Verbs CoreRefines.
From stdpp Require Import options.

(** The runtime names a fiber by its fence: what Attach answers with, and what
    Reconcile parses back. *)
Definition names_by_fence (E : Type) `{Env E} : Prop :=
  ∀ spec e h e', e_Clone spec e = (inl h, e') → HID h = Fence_String (cs_Fence spec).

Section Threads.
Context `{Env E} (cfg : Config) (others : World E → World E) (i : nat) (X : gset nat).
Hypothesis fresh : i ∉ X.
Hypothesis others_silent : silent i X (meanwhile others).
Hypothesis runtime_names : names_by_fence E.

Definition at_ (x : option thread) : option thread → Ledger → Prop := λ y _, y = x.
Local Notation to_ x := (λ _, at_ x).

Lemma at_ret {A} (a : A) x : triple i X (at_ x) (mret (M:=St (World E)) a) (to_ x).
Proof. apply (triple_ret i X a (to_ x)). Qed.

Lemma silent_at {A} (c : St (World E) A) x : silent i X c → triple i X (at_ x) c (to_ x).
Proof. intros Hc. apply Hc. Qed.

(** Only this thread moves. *)
Definition stay (th th' : gmap nat thread) : Prop := ∀ j, j ≠ i → th' !! j = th !! j.
Lemma stay_frame th th' : stay th th' → frame X th th'.
Proof using fresh. intros Hs j Hj. apply Hs. by intros ->. Qed.
Lemma stay_insert th t : stay th (<[i := t]> th).
Proof. intros j Hj. by rewrite lookup_insert_ne. Qed.
Lemma stay_delete th : stay th (delete i th).
Proof. intros j Hj. by rewrite lookup_delete_ne. Qed.

(** A ledger operation that is a step of this thread. *)
Lemma triple_ledR_step {A} (f : Ledger → A * Ledger) (P : option thread → Ledger → Prop) (Q : A → option thread → Ledger → Prop) :
  (∀ l th m, P (th !! i) l → ∃ th' m', step core_admit (mkSys l th m) (mkSys (f l).2 th' m') ∧ stay th th' ∧ Q (f l).1 (th' !! i) (f l).2) →
  triple i X P (ledR (E:=E) f) Q.
Proof using fresh.
  intros Hf. apply triple_stretch; [done|]. intros w th m HP. destruct (Hf (w_led w) th m HP) as (th' & m' & Hs & Hst & HQ).
  exists th', m'. split_and!; [by apply rtc_once|by apply stay_frame|done].
Qed.
Lemma triple_led_step (f : Ledger → Ledger) (P : option thread → Ledger → Prop) x :
  (∀ l th m, P (th !! i) l → ∃ th' m', step core_admit (mkSys l th m) (mkSys (f l) th' m') ∧ stay th th' ∧ th' !! i = x) →
  triple i X P (led (E:=E) f) (to_ x).
Proof using fresh.
  intros Hf. apply triple_stretch; [done|]. intros w th m HP. destruct (Hf (w_led w) th m HP) as (th' & m' & Hs & Hst & HQ).
  exists th', m'. split_and!; [by apply rtc_once|by apply stay_frame|done].
Qed.

Lemma triple_hold uid session :
  session ≠ "" → triple i X (at_ None) (holdSession (E:=E) others (sessionKey uid session)) (to_ (Some (THold uid session))).
Proof using fresh others_silent.
  intros Hs. unfold holdSession.
  eapply triple_bind; [apply (triple_led_step _ _ (Some (TWait uid session)))|intros []].
  { intros l th m Hn. eexists _, m. split; [by apply (step_enter _ i uid session)|split; [apply stay_insert|apply lookup_insert_eq]]. }
  eapply triple_bind; [apply silent_at, others_silent|intros []].
  eapply triple_bind; [apply triple_ledger|intros [l'|]]; simpl.
  - apply triple_led_step. intros l th m [Hy Hl]. eexists _, m. split; [by apply (step_lock _ i uid session)|split; [apply stay_insert|apply lookup_insert_eq]].
  - intros w. exists [EvBlocked (sessionKey uid session)]. by split.
Qed.

Lemma triple_releaseHold uid session :
  triple i X (at_ (Some (THold uid session))) (releaseHold (E:=E) (sessionKey uid session)) (to_ None).
Proof using fresh.
  unfold releaseHold. eapply triple_bind; [apply (triple_led_step _ _ (Some (TDrop uid session)))|intros []].
  - intros l th m Hy. eexists _, m. split; [by apply (step_gate_unlock _ i uid session)|split; [apply stay_insert|apply lookup_insert_eq]].
  - apply triple_led_step. intros l th m Hy. eexists _, m. split; [by apply (step_gate_drop _ i uid session)|split; [apply stay_delete|apply lookup_delete_eq]].
Qed.

(** A verb under the gate that is silent inside it. *)
Lemma triple_gated {A} uid session (c : St (World E) A) :
  session ≠ "" → silent i X c →
  triple i X (at_ None) (_ ← holdSession others (sessionKey uid session); r ← c; _ ← releaseHold (sessionKey uid session); mret r) (to_ None).
Proof using fresh others_silent.
  intros Hs Hc. eapply triple_bind; [by apply triple_hold|intros ?].
  eapply triple_bind; [apply silent_at, Hc|intros r].
  eapply triple_bind; [apply triple_releaseHold|intros ?]. apply at_ret.
Qed.

Lemma silent_parked id ref fence perr : silent i X (parked (E:=E) id ref fence perr).
Proof. unfold parked, ledger. quiet. Qed.
Hint Resolve silent_parked : quiet.

Lemma park_thread id sync : triple i X (at_ None) (park (E:=E) others id sync) (to_ None).
Proof using fresh others_silent.
  unfold park. eapply triple_bind; [apply (silent_at _ None); unfold ledger; quiet|intros [fence|]]; [|apply at_ret].
  eapply triple_bind; [apply (silent_at _ None); unfold ledger; quiet|intros session].
  case_bool_decide as Hs; [apply at_ret|].
  eapply triple_bind; [apply (silent_at _ None); unfold ledger; quiet|intros g].
  destruct (match g with Some g => _ | None => _ end); [apply at_ret|].
  eapply triple_bind; [by apply triple_hold|intros ?].
  eapply triple_bind; [apply (silent_at _ (Some (THold (GrantUID fence) session))); quiet|intros p].
  eapply triple_bind; [apply (silent_at _ (Some (THold (GrantUID fence) session))); quiet|intros ?].
  eapply triple_bind; [apply silent_at, others_silent|intros ?].
  eapply triple_bind; [apply (silent_at _ (Some (THold (GrantUID fence) session))); quiet|intros r].
  eapply triple_bind; [apply triple_releaseHold|intros ?]. apply at_ret.
Qed.

Lemma silent_discardHeld g session : silent i X (discardHeld (E:=E) g session).
Proof. unfold discardHeld, discardParked, discardRemote, ledger. quiet. Qed.
Hint Resolve silent_discardHeld : quiet.

Lemma discard_thread req : triple i X (at_ None) (Discard (E:=E) cfg others req) (to_ None).
Proof using fresh others_silent.
  unfold Discard. case_bool_decide as Hs; [apply at_ret|].
  eapply triple_bind; [apply (silent_at _ None); unfold authenticate, ledger; quiet|intros [g|[c e]]]; [|apply at_ret].
  eapply triple_bind; [apply (silent_at _ None); quiet|intros now].
  destruct (Expired g now); [apply (silent_at _ None); quiet|].
  case_bool_decide; [apply at_ret|]. by apply triple_gated; [|quiet].
Qed.

(** ** Clone *)

Definition flight (act : Action) (f : Fence) (ref session : string) (t : ticket) : option thread :=
  Some (TFlight act f ref session t).

(** The thread is the flight of the ticket the computation returns. *)
Definition flies (act : Action) (f : Fence) (ref session uid : string) (t : ticket) : option thread → Ledger → Prop :=
  λ y _, y = flight act f ref session t ∧ t_uid t = uid.

Lemma triple_commitHeld act f ref session uid t h :
  act ≠ ActAttach → t_committed t = false → HID h = Fence_String f →
  triple i X (flies act f ref session uid t) (commitHeld (E:=E) t (flightSession f ref session uid h))
    (λ c, flies act f ref session uid c.1.2).
Proof using fresh.
  intros Ha Hc Hid. unfold commitHeld.
  eapply triple_bind; [apply keeps_triple; keep|intros draining].
  eapply (triple_bind _ _ _ _ (λ c, flies act f ref session uid c.2)); [apply triple_ledR_step|intros c].
  - intros l th m [Hy HU]. destruct (commit draining t (flightSession f ref session uid h) l) as [[ok t'] l'] eqn:Ec. simpl.
    exists (<[i := TFlight act f ref session t']> th), m. split_and!; [|apply stay_insert|].
    + apply (step_commit core_admit i act f ref session t draining h ok); try done. by rewrite HU.
    + split; [by rewrite lookup_insert_eq|]. destruct ok; [by apply commit_true in Ec as (_&_&_&->&_)|by apply commit_false in Ec as [-> _]].
  - eapply triple_bind; [apply keeps_triple; keep|intros ex].
    eapply triple_bind; [apply keeps_triple; keep|intros ?].
    apply (triple_ret i X (c.1, c.2, ex) (λ c, flies act f ref session uid c.1.2)).
Qed.

(** A silent computation keeps the flight. *)
Lemma flies_silent {A} act f ref session uid t (c : St (World E) A) :
  silent i X c → triple i X (flies act f ref session uid t) c (λ _, flies act f ref session uid t).
Proof.
  intros Hc w. destruct (Hc (flight act f ref session t) w) as (tr & Et & Hs). exists tr. split; [done|].
  intros x [Hy HU]. eapply goes_mono; [|by apply Hs]. intros y ->. by split.
Qed.

Lemma flies_ret act f ref session uid (ta : ticket * answer) :
  triple i X (flies act f ref session uid ta.1) (mret (M:=St (World E)) ta) (λ ta, flies act f ref session uid ta.1).
Proof. apply (triple_ret i X ta (λ ta, flies act f ref session uid ta.1)). Qed.

Lemma clone_commit req g act f ref t h :
  act ≠ ActAttach → t_committed t = false → HID h = Fence_String f →
  triple i X (flies act f ref (cr_Session req) (UID g) t) (cloneCommit (E:=E) others req g act f ref t h)
    (λ ta, flies act f ref (cr_Session req) (UID g) ta.1).
Proof using fresh others_silent.
  intros Ha Hc Hid. unfold cloneCommit.
  eapply triple_bind; [by apply triple_commitHeld|intros [[committed t'] ex]]. simpl. destruct committed.
  - eapply triple_bind; [apply flies_silent; quiet|intros ?].
    eapply triple_bind; [apply flies_silent; quiet|intros ?].
    eapply triple_bind; [apply flies_silent; quiet|intros ?].
    eapply triple_bind; [apply flies_silent; quiet|intros r]. apply flies_ret.
  - eapply triple_bind; [apply flies_silent; quiet|intros s].
    eapply triple_bind; [apply flies_silent; quiet|intros draining].
    destruct (if draining then _ else _) as [code cerr].
    eapply triple_bind; [apply flies_silent; quiet|intros ?].
    eapply triple_bind; [apply flies_silent; quiet|intros ?]. apply flies_ret.
Qed.

Lemma clone_audit req g act f ref t h :
  act ≠ ActAttach → t_committed t = false → HID h = Fence_String f →
  triple i X (flies act f ref (cr_Session req) (UID g) t) (cloneAudit (E:=E) others req g act f ref t h)
    (λ ta, flies act f ref (cr_Session req) (UID g) ta.1).
Proof using fresh others_silent.
  intros Ha Hc Hid. unfold cloneAudit.
  eapply triple_bind; [apply flies_silent; quiet|intros ?].
  eapply triple_bind; [apply flies_silent; quiet|intros [e|]]; [|by apply clone_commit].
  eapply triple_bind; [apply flies_silent; quiet|intros [rerr|]].
  - eapply triple_bind; [by apply triple_commitHeld|intros [[committed t'] ex]]. simpl.
    eapply triple_bind; [apply flies_silent; quiet|intros ?]. apply flies_ret.
  - eapply triple_bind; [apply flies_silent; quiet|intros ?]. apply flies_ret.
Qed.

(** The one runtime call: its handle carries the fence. *)
Lemma triple_runtime_clone spec P :
  triple i X P (env (e_Clone spec)) (λ r y l, P y l ∧ ∀ h, r = inl h → HID h = Fence_String (cs_Fence spec)).
Proof using fresh runtime_names.
  apply triple_stretch; [done|]. intros w th m HP. exists th, m. split_and!; [apply rtc_refl|done|done|].
  intros h Hh. unfold env in Hh. simpl in Hh. destruct (e_Clone spec (w_env w)) as [r e'] eqn:Er. simpl in Hh. subst r.
  by eapply runtime_names.
Qed.

(** A fact about a value, carried to where it is used. *)
Definition grows {A} (c : St (World E) A) : Prop := ∀ w, ∃ t, w_trace (c w).2 = reverse t ++ w_trace w.
Lemma grows_bind {A B} (c : St (World E) A) (k : A → St (World E) B) : grows c → (∀ a, grows (k a)) → grows (c ≫= k).
Proof.
  intros Hc Hk w. destruct (Hc w) as [t1 E1], (Hk (c w).1 (c w).2) as [t2 E2]. exists (t1 ++ t2). rewrite St_bind_run.
  by rewrite E2, E1, reverse_app, app_assoc.
Qed.
Lemma grows_same {A} (c : St (World E) A) : (∀ w, w_trace (c w).2 = w_trace w) → grows c.
Proof. intros Hc w. exists []. apply Hc. Qed.
Lemma silent_grows {A} (c : St (World E) A) : silent i X c → grows c.
Proof. intros Hc w. destruct (Hc None w) as (t & Et & _). by exists t. Qed.
Lemma triple_pure {A} (φ : Prop) P (c : St (World E) A) Q :
  grows c → (φ → triple i X P c Q) → triple i X (λ y l, P y l ∧ φ) c Q.
Proof.
  intros Hg Hc w. destruct (Hg w) as [t Et]. exists t. split; [done|]. intros x [HP Hφ]. destruct (Hc Hφ w) as (t' & Et' & Hs).
  assert (t' = t) as ->; [|by apply Hs]. apply (inj reverse), (app_inv_tail (w_trace w)). by rewrite <- Et, Et'.
Qed.

Lemma grows_commitHeld t s : grows (commitHeld (E:=E) t s).
Proof. by apply grows_same. Qed.

Ltac grow :=
  repeat first [ apply grows_commitHeld | simple apply grows_bind; [|intros ?]
               | match goal with |- grows (match ?x with _ => _ end) => destruct x end
               | match goal with |- grows (let _ := _ in _) => cbv zeta end
               | solve [apply silent_grows; quiet] ].

Lemma grows_cloneCommit req g act f ref t h : grows (cloneCommit (E:=E) others req g act f ref t h).
Proof using others_silent. unfold cloneCommit. grow. Qed.

Lemma grows_cloneAudit req g act f ref t h : grows (cloneAudit (E:=E) others req g act f ref t h).
Proof using others_silent. unfold cloneAudit. grow; apply grows_cloneCommit. Qed.

Lemma grows_cloneWork req g shedding act f ref t : grows (cloneWork (E:=E) others req g shedding act f ref t).
Proof using others_silent. unfold cloneWork, asks. grow; apply grows_cloneAudit. Qed.

(** The runtime work of a clone: the call, and what happens meanwhile. *)
Lemma clone_run req g act f ref t spec :
  act ≠ ActAttach → t_committed t = false → cs_Fence spec = f →
  triple i X (flies act f ref (cr_Session req) (UID g) t)
    (r ← env (e_Clone spec); _ ← log (EvClone spec r); _ ← meanwhile others;
     match r with
     | inr e => mret (t, if Is e DeadlineExceeded then refuse DeferredFallback (ESentinel ErrDeadline)
                         else if Is e ErrPressure then refuse Shed e else refuse DeferredFallback e)
     | inl h => cloneAudit others req g act f ref t h
     end)
    (λ ta, flies act f ref (cr_Session req) (UID g) ta.1).
Proof using fresh others_silent runtime_names.
  intros Ha Hc Hf. eapply triple_bind; [apply triple_runtime_clone|intros r]. simpl. rewrite Hf.
  apply triple_pure.
  - grow; apply grows_cloneAudit.
  - intros Hh. eapply triple_bind; [apply flies_silent; quiet|intros ?].
    eapply triple_bind; [apply flies_silent, others_silent|intros ?].
    destruct r as [h|e]; [|apply flies_ret]. apply clone_audit; [done|done|by apply Hh].
Qed.

Lemma clone_work req g shedding act f ref t :
  t_committed t = false →
  triple i X (flies act f ref (cr_Session req) (UID g) t) (cloneWork (E:=E) others req g shedding act f ref t)
    (λ ta, flies act f ref (cr_Session req) (UID g) ta.1).
Proof using fresh others_silent runtime_names.
  intros Hc. unfold cloneWork. destruct act.
  2: { eapply triple_bind; [apply flies_silent; quiet|intros [e|]]; [apply flies_ret|].
       eapply triple_bind; [apply flies_silent; quiet|intros r]. apply flies_ret. }
  all: destruct shedding; [apply flies_ret|].
  all: eapply triple_bind; [apply flies_silent; unfold asks; quiet|intros dl]; cbv zeta.
  all: by apply clone_run.
Qed.

(** Resolve turns the thread into a flight, or leaves it as it was. *)
Lemma triple_resolve now uid session tier :
  triple i X (at_ (if session ==? "" then None else Some (THold uid session)))
    (ledR (E:=E) (resolveHeld now uid session tier))
    (λ r y l, match r with
              | Resolved act f ref t => flies act f ref session uid t y l ∧ t_committed t = false
              | ResolveErr _ => at_ (if session ==? "" then None else Some (THold uid session)) y l
              end).
Proof using fresh.
  apply triple_stretch; [done|]. intros w th m Hy. simpl.
  destruct (resolveHeld now uid session tier (w_led w)) as [[e|act f ref t] l'] eqn:Er; simpl.
  - apply resolveHeld_err in Er. subst. exists th, m. split_and!; [apply rtc_refl|done|done].
  - pose proof Er as (a & e & _ & _ & _ & -> & _)%resolveHeld_inv.
    eexists _, _. split; [|split; [apply stay_frame, stay_insert|split; [split; [apply lookup_insert_eq|done]|done]]].
    apply rtc_once. unfold at_ in Hy. destruct (decide (session = "")) as [->|Hs].
    + by apply (step_resolve_anon core_admit i uid now tier act f ref).
    + rewrite bool_decide_eq_false_2 in Hy by done. by apply (step_resolve core_admit i uid session now tier act f ref).
Qed.

(** The deferred unlock. *)
Lemma triple_unlock act f ref session uid t :
  triple i X (flies act f ref session uid t) (led (E:=E) (unlock t)) (to_ (if session ==? "" then None else Some (THold uid session))).
Proof using fresh.
  apply triple_led_step. intros l th m [Hy <-]. eexists _, m.
  split; [by apply (step_finish core_admit i act f ref session t)|].
  destruct (session ==? ""); (split; [(apply stay_delete || apply stay_insert)|(apply lookup_delete_eq || apply lookup_insert_eq)]).
Qed.

Lemma triple_end uid session :
  triple i X (at_ (if session ==? "" then None else Some (THold uid session)))
    (if session <>? "" then releaseHold (E:=E) (sessionKey uid session) else mret tt) (to_ None).
Proof using fresh. case_bool_decide; simpl; [apply at_ret|apply triple_releaseHold]. Qed.

Lemma clone_held req g : triple i X (at_ None) (cloneHeld (E:=E) cfg others req g) (to_ None).
Proof using fresh others_silent runtime_names.
  unfold cloneHeld. set (held := if cr_Session req ==? "" then None else Some (THold (UID g) (cr_Session req))).
  eapply triple_bind; [apply (silent_at _ None); quiet|intros [e|]]; [apply at_ret|].
  eapply triple_bind; [apply (silent_at _ None); unfold asks; quiet|intros shedding]. cbv zeta.
  eapply (triple_bind _ _ _ _ (to_ held)).
  { unfold held. case_bool_decide as Hs; simpl; [apply at_ret|].
    eapply triple_bind; [by apply triple_hold|intros ?]. apply silent_at. quiet. }
  intros [c [e|]].
  { eapply triple_bind; [apply triple_end|intros ?]. apply at_ret. }
  eapply triple_bind; [apply (silent_at _ held); quiet|intros now].
  eapply triple_bind; [apply triple_resolve|intros [e|act f ref t]].
  - eapply triple_bind; [apply triple_end|intros ?].
    eapply triple_bind; [apply (silent_at _ None); quiet|intros ?]. apply at_ret.
  - apply triple_pure.
    { apply grows_bind; [apply grows_cloneWork|intros ta]. apply grows_bind; [by apply grows_same|intros ?].
      apply grows_bind; [case_bool_decide; by apply grows_same|intros ?; by apply grows_same]. }
    intros Hc. eapply triple_bind; [by apply clone_work|intros ta].
    eapply triple_bind; [apply triple_unlock|intros ?].
    eapply triple_bind; [apply triple_end|intros ?]. apply at_ret.
Qed.

Lemma clone_thread waits req : triple i X (at_ None) (Clone (E:=E) cfg others waits req) (to_ None).
Proof using fresh others_silent runtime_names.
  unfold Clone. eapply triple_bind; [apply (silent_at _ None); quiet|intros [g|a]]; [apply clone_held|apply at_ret].
Qed.
End Threads.
