(* ===== verification/Sandbox.v ===== *)
(** * A concrete home, for the witnesses

    An in-memory runtime, verifier, auditor, snapshot store and deny-list, so
    that the verbs run by evaluation.  It models no code of the repository: it
    is one thing Core may be wired to. *)

From S2P Require Import Prelude GoLib Fence Errors Grant Ledger AuditLog Runtime Core Clone.
From stdpp Require Import options.

(** The clock, the fibers that run, whether the auditor is down, the tokens the
    verifier accepts, the grants denied, the epoch counter. *)
Record box := mkBox {
  bx_now : Time.t; bx_live : list string; bx_auditDown : bool;
  bx_tokens : list (string * Grant); bx_denied : list string; bx_epoch : N;
}.

Definition bx_set_live (l : list string) (b : box) : box :=
  mkBox (bx_now b) l (bx_auditDown b) (bx_tokens b) (bx_denied b) (bx_epoch b).

#[export] Instance boxEnv : Env box := {|
  e_Tier := TierWarm;
  e_PrepareTemplate _ := mret None;
  e_Clone spec b := let id := Fence_String (cs_Fence spec) in (inl (mkHandle id "10.0.0.2:80" false), bx_set_live (id :: bx_live b) b);
  e_Park id _ b := if decide (id ∈ bx_live b) then (("delta-" +:+ id, None), bx_set_live (filter (.≠ id) (bx_live b)) b)
                   else (("", Some (EOther "no such fiber")), b);
  e_Release id _ b := (None, bx_set_live (filter (.≠ id) (bx_live b)) b);
  e_List b := (inl ((λ id, mkHandle id "10.0.0.2:80" false) <$> bx_live b), b);
  e_Stats _ := mret (inl 4096%N);
  e_DefaultDeadlines := None; e_IsolatesTenants := None; e_HoldsWorkspaces := None; e_DeviceOffer := None;
  e_AttachDevices := None; e_HandoffRouter := None; e_PublishDelta := None; e_RetireDelta := None;
  e_DiscardDelta := None; e_DeltaFinder := None; e_DeleteDelta := None; e_DropTemplate := None;
  e_HasDelta := None; e_SweepDeltas := None; e_Pooler := None;
  e_Now := gets bx_now;
  e_Verify tok := gets (λ b, match list_to_map (M:=gmap string Grant) (bx_tokens b) !! tok with
                             | Some g => inl g | None => inr (EOther "bad token") end);
  e_Append := Some (λ _ _, gets (λ b, if bx_auditDown b then Some (EOther "spool full") else None));
  e_Scope := None;
  e_Take := mret None;
  e_Shedding _ _ := false;
  e_Healthy := mret true;
  e_Revoked := Some (mkDenyList box (λ uid _ _, gets (λ b, bool_decide (uid ∈ bx_denied b)))
    (λ uid _ _ b, (None, mkBox (bx_now b) (bx_live b) (bx_auditDown b) (bx_tokens b) (uid :: bx_denied b) (bx_epoch b)))
    (λ uid b, ((bool_decide (uid ∈ bx_denied b), None),
               mkBox (bx_now b) (bx_live b) (bx_auditDown b) (bx_tokens b) (filter (.≠ uid) (bx_denied b)) (bx_epoch b))));
  e_Bump := Some (λ b, (inl (bx_epoch b + 1)%N,
                        mkBox (bx_now b) (bx_live b) (bx_auditDown b) (bx_tokens b) (bx_denied b) (bx_epoch b + 1)));
  e_Persist := Some (λ _, mret None);
  e_Devices := None;
  e_ReleaseDevices _ := mret tt;
|}.

Definition box0 : box := mkBox 0%Z [] false [("tok", sampleGrant)] [] 1.
Definition boxCfg : Config := mkConfig "home-a" "" None false None.
(** A home that just booted at epoch 1. *)
Definition world0 : World box := mkWorld (NewLedger 1) box0 ∅ ∅ ∅ ∅ false false "" false [] [].
Definition boxReq (session : string) : CloneRequest := mkCloneRequest "tok" session 0%Z "" "" "".

(** A named clone, which admits its own grant. *)
Definition world1 : World box := (Clone boxCfg id [] (boxReq "s") world0).2.
(** An anonymous one more. *)
Definition world2 : World box := (Clone boxCfg id [] (boxReq "") world1).2.

Example world1_runs : (Clone boxCfg id [] (boxReq "s") world0).1 =
  (mkCloneResponse "g-1/1/1" "10.0.0.2:80" (mkFence "g-1" 1 1) ActCreate "" "" "", OK, None).
Proof. vm_compute. reflexivity. Qed.
