(* ===== verification/CoreHome.v ===== *)
(** * Any run of a home is a run of the ledger's transition system

    [verb] lists what a home's goroutines do: the frontend's and the control
    plane's verbs, the exit callback, the reaper, the sampler, the drain, the
    refill loop, the boot and the home's deliveries.  A call of one is a list of
    stretches, each from the ledger a wait came back to, to the ledger at the
    next wait; [interleaves] runs the stretches of any number of calls in any
    order in which each starts at the ledger the one before left.  Whatever a
    home does from an empty ledger, its ledger is one the transition system of
    LedgerSteps reaches. *)

From S2P Require Import Prelude GoLib Fence Errors Grant Ledger LedgerFacts LedgerSteps LedgerLinks AuditLog Runtime Core Clone Verbs Boot Pool CoreRefines CoreThreads Sandbox.
From stdpp Require Import options.

(** ** The loops of boot, pool and drain *)

Section More.
Context `{Env E} (cfg : Config) (others : World E → World E) (i : nat) (X : gset nat).
Hypothesis others_silent : silent i X (meanwhile others).
Local Notation M := (St (World E)).

Lemma silent_outside (f : World E → World E) :
  (∀ w, w_led (f w) = w_led w ∧ w_trace (f w) = w_trace w) → silent i X (meanwhile f).
Proof. intros Hf. apply keeps_silent. by apply keeps_modify. Qed.
Hint Resolve silent_outside : quiet.

Lemma silent_fold {A B} (f : A → B → M B) xs : (∀ a b, silent i X (f a b)) → ∀ b, silent i X (fold_m f xs b).
Proof. intros Hf. induction xs; intros b; simpl; quiet. Qed.

Lemma silent_idle : silent i X (meanwhile (id : World E → World E)).
Proof. by apply silent_outside. Qed.
Hint Resolve silent_idle : quiet.

Lemma silent_reconcileGrant now g : silent i X (reconcileGrant (E:=E) cfg now g).
Proof. unfold reconcileGrant, hold, ledger. quiet. Qed.
Lemma silent_reconcileSession s r : silent i X (reconcileSession (E:=E) s r).
Proof.
  unfold reconcileSession, asks. quiet. apply keeps_silent, keeps_plain. intros w. unfold holdParked. by destruct (w_held w !! _).
Qed.
Lemma silent_reconcileFiber h : silent i X (reconcileFiber (E:=E) h).
Proof. unfold reconcileFiber, ledger. quiet. Qed.
Hint Resolve silent_reconcileGrant silent_reconcileSession silent_reconcileFiber silent_fold : quiet.
Lemma silent_Reconcile snap b : silent i X (Reconcile (E:=E) cfg snap b).
Proof.
  unfold Reconcile, sweepDeltas, snapshot. quiet.
  - apply silent_fold. intros. quiet.
  - apply silent_fold. intros. quiet.
  - apply silent_forEach. intros. quiet.
Qed.

Lemma keeps_getPool u : keeps (getPool (E:=E) u).
Proof. apply keeps_plain. intros w. unfold getPool. by destruct (w_pools w !! u). Qed.
Hint Resolve keeps_getPool : keeps.
Lemma silent_pooledDied u : silent i X (pooledDied (E:=E) u).
Proof. unfold pooledDied, setPool. quiet. Qed.
Lemma silent_DrainPool u n : silent i X (DrainPool (E:=E) u n).
Proof. unfold DrainPool. quiet. Qed.
Lemma silent_refillTurn b g : silent i X (refillTurn (E:=E) b g).
Proof. unfold refillTurn, setPool, asks, ledger. quiet. Qed.
Hint Resolve silent_refillTurn : quiet.
Lemma silent_refillTurns sts : ∀ b n s, silent i X (refillTurns (E:=E) b n s sts).
Proof. induction sts; intros b n s; simpl; unfold ledger; quiet. Qed.
Hint Resolve silent_refillTurns : quiet.
Lemma silent_refillPass : silent i X (refillPass (E:=E)).
Proof. unfold refillPass, ledger. quiet. Qed.
Lemma silent_fill g : silent i X (fill (E:=E) g).
Proof. unfold fill, setPool, asks. quiet. Qed.

Lemma silent_driveEvent waits b ev : silent i X (driveEvent (E:=E) others waits b ev).
Proof using others_silent. destruct ev; unfold driveEvent; quiet. Qed.
Hint Resolve silent_driveEvent : quiet.
Lemma silent_Drive evs : silent i X (Drive (E:=E) others evs).
Proof using others_silent. induction evs as [|[[ws b] ev] evs IH]; simpl; quiet. Qed.

Hypothesis fresh : i ∉ X.
Lemma thread_drainOne f : triple i X (at_ None) (drainOne (E:=E) others f) (λ _, at_ None).
Proof using others_silent fresh.
  unfold drainOne. destruct (FSession f ==? "").
  - apply silent_at. unfold ledger. quiet.
  - eapply triple_bind; [by apply park_thread|intros [[[ref p] c] e]]. apply at_ret.
Qed.
Lemma thread_drainBatch batch : ∀ ends rep, triple i X (at_ None) (drainBatch (E:=E) others ends batch rep) (λ _, at_ None).
Proof using others_silent fresh.
  induction batch as [|f batch IH]; intros [|ends] rep; simpl; try apply at_ret.
  eapply triple_bind; [apply thread_drainOne|intros o]. apply IH.
Qed.
Lemma thread_drainLoop fuel : ∀ ends tried rep, triple i X (at_ None) (drainLoop (E:=E) others fuel ends tried rep) (λ _, at_ None).
Proof using others_silent fresh.
  induction fuel as [|fuel IH]; intros ends tried rep; simpl; [apply at_ret|].
  eapply triple_bind; [apply (silent_at _ _ _ None); unfold ledger; quiet|intros [|f batch]]; [apply at_ret|].
  destruct (bool_decide (ends = 0)); [apply at_ret|].
  eapply triple_bind; [apply (thread_drainBatch (f :: batch))|intros rep']. apply IH.
Qed.
Lemma thread_Drain fuel ends : triple i X (at_ None) (Drain (E:=E) others fuel ends) (λ _, at_ None).
Proof using others_silent fresh.
  unfold Drain. eapply triple_bind; [apply (silent_at _ _ _ None); quiet|intros ?].
  eapply triple_bind; [apply thread_drainLoop|intros r]. apply silent_at. quiet.
Qed.
End More.

(** ** A home *)

Section Home.
Context `{Env E} (cfg : Config).
Local Notation W := (World E).
Definition run {A} (c : St W A) : W → W := λ w, (c w).2.

(** One call, with what happens in its waits. *)
Inductive verb (others : W → W) : (W → W) → Prop :=
| v_clone waits req : verb others (run (Clone cfg others waits req))
| v_admit waits g : verb others (run (Admit others waits g))
| v_remove inflight uid : verb others (run (Remove others inflight uid))
| v_redeliver uid : verb others (run (Redeliver uid))
| v_yield uid reason : verb others (run (Yield others uid reason))
| v_revoke uid : verb others (run (Revoke uid))
| v_bump reason : verb others (run (BumpEpoch others reason))
| v_park id sync : verb others (run (Park others id sync))
| v_release id discard : verb others (run (Release others id discard))
| v_discard req : verb others (run (Discard cfg others req))
| v_exit ex : verb others (run (OnExit ex))
| v_sweep : verb others (run (Sweep others))
| v_sample : verb others (run sample)
| v_drain fuel ends : verb others (run (Drain others fuel ends))
| v_reconcile snap unreadable : verb others (run (Reconcile cfg snap unreadable))
| v_pooled_died uid : verb others (run (pooledDied uid))
| v_drain_pool uid n : verb others (run (DrainPool uid n))
| v_refill : verb others (run refillPass)
| v_fill g : verb others (run (fill g))
| v_drive evs : verb others (run (Drive others evs)).

Hypothesis runtime_names : names_by_fence E.

Lemma silent_thread {A} (i : nat) (X : gset nat) (c : St W A) :
  silent i X c → triple i X (at_ None) c (λ _, at_ None).
Proof. intros Hc. apply Hc. Qed.

(** Every verb is a thread, fresh before and gone after. *)
Lemma verb_thread others v j X :
  j ∉ X → silent j X (meanwhile others) → verb others v → triple j X (at_ None) (meanwhile v) (λ _, at_ None).
Proof using runtime_names.
  intros Hj Ho Hv.
  assert (Hrun : ∀ A (c : St W A), triple j X (at_ None) c (λ _, at_ None) →
    triple j X (at_ None) (meanwhile (run c)) (λ _, at_ None)) by (intros A c Hc; exact Hc).
  destruct Hv; apply Hrun.
  1: by apply clone_thread.
  7: { unfold Park. eapply triple_bind; [by apply park_thread|intros [[[ref p] c] e]]. apply at_ret. }
  8: by apply discard_thread.
  11: by apply thread_Drain.
  all: apply silent_thread.
  - by apply silent_Admit.
  - by apply silent_Remove.
  - by apply silent_Redeliver.
  - by apply silent_Yield.
  - by apply silent_Revoke.
  - by apply silent_BumpEpoch.
  - by apply silent_Release.
  - by apply silent_OnExit.
  - by apply silent_Sweep.
  - by apply silent_sample.
  - by apply silent_Reconcile.
  - by apply silent_pooledDied.
  - by apply silent_DrainPool.
  - by apply silent_refillPass.
  - by apply silent_fill.
  - by apply silent_Drive.
Qed.

End Home.

(** ** Calls and their interleavings *)

(** The stretches of a call that starts at [l] and ends at [l'], read off its
    trace, oldest first; a call whose wait for a gate never ended stops there. *)
Fixpoint stretches (l : Ledger) (t : list ev) (l' : Ledger) : list (Ledger * Ledger) :=
  match t with
  | [] => [(l, l')]
  | EvWait y r :: t => (l, y) :: stretches r t l'
  | EvBlocked _ :: _ => []
  | _ :: t => stretches l t l'
  end.
(** The stretches of [v] from [w]. *)
Definition stretchesOf {E} (v : World E → World E) (w : World E) : list (Ledger * Ledger) :=
  stretches (w_led w) (reverse (w_trace (v w))) (w_led (v w)).

(** A call of a verb, from any world, with anything in its waits. *)
Definition isCall `{Env E} (cfg : Config) (s : list (Ledger * Ledger)) : Prop :=
  ∃ (others : World E → World E) v w, verb cfg (waiting others) v ∧ w_trace w = [] ∧ s = stretchesOf v w.

(** The calls' stretches still to come and the ledger, before and after: any call
    whose next stretch starts at the present ledger may run it. *)
Inductive interleaves : list (list (Ledger * Ledger)) → Ledger → list (list (Ledger * Ledger)) → Ledger → Prop :=
| il_stop cs l : interleaves cs l cs l
| il_run j cs l l1 rest cs' l' :
    cs !! j = Some ((l, l1) :: rest) → interleaves (<[j := rest]> cs) l1 cs' l' → interleaves cs l cs' l'.

Section Able.
Context (i : nat) (X : gset nat).
(** The thread can take each of these stretches when its turn comes. *)
Fixpoint able (x : option thread) (s : list (Ledger * Ledger)) : Prop :=
  match s with
  | [] => True
  | (l, y) :: s => ∀ th m, th !! i = x → ∃ th' m', lsteps l th m y th' m' ∧ frame X th th' ∧ able (th' !! i) s
  end.
Lemma goes_able t l' K : ∀ x l, goes i X x l t l' K → able x (stretches l t l').
Proof.
  induction t as [|e t IH]; intros x l; cbn [goes stretches able].
  - intros Hg th m Hx. destruct (Hg th m Hx) as (th' & m' & ? & ? & ?). eauto.
  - destruct e; try apply IH; [|done]. cbn [able]. intros Hg th m Hx. destruct (Hg th m Hx) as (th' & m' & ? & ? & ?). eauto 10.
Qed.
End Able.

(** The other calls of [n]. *)
Definition rest_of (n j : nat) : gset nat := set_seq 0 n ∖ {[j]}.
(** Every call can go on from its thread. *)
Definition allAble (cs : list (list (Ledger * Ledger))) (th : gmap nat thread) : Prop :=
  ∀ j s, cs !! j = Some s → able j (rest_of (length cs) j) (th !! j) s.

Lemma calls_able `{Env E} cfg cs : names_by_fence E → Forall (isCall (E:=E) cfg) cs → allAble cs ∅.
Proof.
  intros Hn Hcs j s Hj. rewrite lookup_empty. rewrite Forall_lookup in Hcs. destruct (Hcs j s Hj) as (others & v & w & Hv & Ht & ->).
  assert (j ∉ rest_of (length cs) j) as Hf by (unfold rest_of; set_solver).
  destruct (verb_thread cfg Hn (waiting others) v j _ Hf (silent_waiting j _ others) Hv w) as (t & Et & Hs).
  unfold stretchesOf. change (v w) with (meanwhile v w).2. rewrite Et, Ht, app_nil_r, reverse_involutive.
  eapply goes_able. by apply Hs.
Qed.

(** One stretch of call [j]: steps of the system, and everyone can go on. *)
Lemma allAble_run cs j l l1 rest th m :
  allAble cs th → cs !! j = Some ((l, l1) :: rest) →
  ∃ th' m', lsteps l th m l1 th' m' ∧ allAble (<[j := rest]> cs) th'.
Proof.
  intros Ha Hj. destruct (Ha j _ Hj th m eq_refl) as (th' & m' & Hs & Hf & Hr). exists th', m'. split; [done|].
  pose proof (lookup_lt_Some _ _ _ Hj) as Hlt. intros k s. rewrite length_insert.
  destruct (decide (k = j)) as [->|Hne]; [rewrite list_lookup_insert_eq by done; by intros [= <-]|].
  rewrite list_lookup_insert_ne by done. intros Hk. rewrite (Hf k); [by apply Ha|].
  apply lookup_lt_Some in Hk. unfold rest_of. apply elem_of_difference. split; [apply elem_of_set_seq; lia|set_solver].
Qed.

Lemma interleaves_steps cs l cs' l' : interleaves cs l cs' l' → ∀ th m, allAble cs th → ∃ th' m', lsteps l th m l' th' m' ∧ allAble cs' th'.
Proof.
  induction 1 as [cs l|j cs l l1 rest cs' l' Hj _ IH]; intros th m Ha; [exists th, m; split; [apply rtc_refl|done]|].
  destruct (allAble_run cs j l l1 rest th m Ha Hj) as (th1 & m1 & H1 & Ha1). destruct (IH th1 m1 Ha1) as (th2 & m2 & H2 & Ha2).
  exists th2, m2. split; [|done]. unfold lsteps in *. by etrans.
Qed.

(** C1: A home's ledger follows its transition system.  Take any number of calls
    of any of a home's verbs, and run them interleaved in any order, switching
    at their waits (for a session's gate, for an admission under way, for the
    runtime's clone, park or release): two clones may both resolve before
    either commits, and a call may wait for a gate while its holder goes on.
    Starting from the empty ledger of a boot, and whatever happens outside the
    ledger meanwhile, the ledger at every switch is one that the steps of
    LedgerSteps reach, with admissions that keep the fixed fields; so every
    invariant of those runs (one fiber per session, fences strictly newer, no
    commit past a revoke) holds of Core.  The runtime names a fiber by its
    fence. *)
Theorem home_runs_are_ledger_runs (E : Type) (HE : Env E) (cfg : Config) (e : N) cs cs' l :
  names_by_fence E → Forall (isCall (E:=E) cfg) cs → interleaves cs (NewLedger e) cs' l →
  ∃ th m, reachable core_admit e (mkSys l th m).
Proof.
  intros Hn Hcs Hi. destruct (interleaves_steps _ _ _ _ Hi ∅ [] (calls_able cfg cs Hn Hcs)) as (th & m & Hs & _).
  by exists th, m.
Qed.

Lemma boxNames : names_by_fence box.
Proof. intros spec b h b' Hc. simpl in Hc. by injection Hc as <- _. Qed.

(** What the waits of a call of the sandbox find, one ledger after another. *)
Definition isWait (e : ev) : bool := match e with EvWait _ _ => true | _ => false end.
Definition finds (ls : list Ledger) (w : World box) : World box :=
  put_led (default (w_led w) (ls !! length (List.filter isWait (w_trace w)))) w.
Definition boxClone (session : string) (ls : list Ledger) : World box → World box :=
  run (Clone boxCfg (waiting (finds ls)) [] (boxReq session)).
Definition boxAt (l : Ledger) : World box := put_led l world0.
(** The ledger at the [n]-th wait of a call, or at its end. *)
Definition ledgerAt (n : nat) (s : list (Ledger * Ledger)) : Ledger := default (NewLedger 1) (snd <$> s !! n).

(** A clones "s", B clones without a session, C clones "s" too.  C enters the
    gate behind A; A resolves, B resolves, A commits and lets the gate go, B
    commits, C attaches. *)
Definition lA1 : Ledger := ledgerAt 0 (stretchesOf (boxClone "s" []) world0).
Definition lC1 : Ledger := ledgerAt 0 (stretchesOf (boxClone "s" []) (boxAt lA1)).
Definition lA2 : Ledger := ledgerAt 1 (stretchesOf (boxClone "s" [lC1]) world0).
Definition lB1 : Ledger := ledgerAt 0 (stretchesOf (boxClone "" []) (boxAt lA2)).
Definition callA : list (Ledger * Ledger) := stretchesOf (boxClone "s" [lC1; lB1]) world0.
Definition callB : list (Ledger * Ledger) := stretchesOf (boxClone "" [ledgerAt 2 callA]) (boxAt lA2).
Definition callC : list (Ledger * Ledger) := stretchesOf (boxClone "s" [ledgerAt 1 callB]) (boxAt lA1).

Lemma il_pick j cs l s cs' l' :
  cs !! j = Some s → fst <$> head s = Some l → interleaves (<[j := tail s]> cs) (from_option snd l (head s)) cs' l' → interleaves cs l cs' l'.
Proof. destruct s as [|[l0 l1] s]; [done|]. cbn. intros Hj [= ->]. by apply il_run. Qed.

Lemma boxClone_call session ls l : isCall (E:=box) boxCfg (stretchesOf (boxClone session ls) (boxAt l)).
Proof. exists (finds ls), (boxClone session ls), (boxAt l). split; [apply v_clone|]. by split. Qed.

Lemma crossing : interleaves [callA; callB; callC] (NewLedger 1) [[]; []; []] (ledgerAt 1 callC).
Proof.
  apply (il_pick 0 _ _ callA); [reflexivity|vm_compute; reflexivity|].
  apply (il_pick 2 _ _ callC); [reflexivity|vm_compute; reflexivity|].
  apply (il_pick 0 _ _ (tail callA)); [reflexivity|vm_compute; reflexivity|].
  apply (il_pick 1 _ _ callB); [reflexivity|vm_compute; reflexivity|].
  apply (il_pick 0 _ _ (tail (tail callA))); [reflexivity|vm_compute; reflexivity|].
  apply (il_pick 1 _ _ (tail callB)); [reflexivity|vm_compute; reflexivity|].
  apply (il_pick 2 _ _ (tail callC)); [reflexivity|vm_compute; reflexivity|].
  vm_compute. apply il_stop.
Qed.

Lemma home_runs_are_ledger_runs_witness :
  RunningFibers (ledgerAt 1 callC) = ["g-1/1/1"; "g-1/1/2"] ∧ ∃ th m, reachable core_admit 1 (mkSys (ledgerAt 1 callC) th m).
Proof.
  split; [vm_compute; reflexivity|].
  apply (home_runs_are_ledger_runs box boxEnv boxCfg 1 [callA; callB; callC] [[]; []; []] (ledgerAt 1 callC) boxNames); [|exact crossing].
  repeat constructor; apply boxClone_call.
Defined.
