(* ===== verification/CoreSweep.v ===== *)
(** * What a sweep leaves behind

    [hoare P c Q]: a computation from a world of [P] ends in one of [Q].  Yield
    and BumpEpoch list the fibers, then release them one by one while the rest
    of the home goes on; what they leave is stated for any such rest, given what
    their waits came back to. *)

From S2P Require Import Prelude GoLib Fence Errors Grant Ledger LedgerFacts LedgerSteps LedgerLinks LedgerSafety AuditLog Runtime Core Clone Verbs Boot Pool CoreRefines CoreThreads Sandbox CoreHome.
From stdpp Require Import options.

Section Hoare.
Context `{Env E}.
Local Notation M := (St (World E)).

Definition hoare {A} (P : World E → Prop) (c : M A) (Q : A → World E → Prop) : Prop := ∀ w, P w → Q (c w).1 (c w).2.

Lemma hoare_ret {A} (a : A) (Q : A → World E → Prop) : hoare (Q a) (mret a) Q.
Proof. by intros w. Qed.
Lemma hoare_bind {A B} P (c : M A) Q (k : A → M B) R :
  hoare P c Q → (∀ a, hoare (Q a) (k a) R) → hoare P (c ≫= k) R.
Proof. intros Hc Hk w HP. by apply Hk, Hc. Qed.
Lemma hoare_conseq {A} (P P' : World E → Prop) (c : M A) (Q Q' : A → World E → Prop) :
  hoare P c Q → (∀ w, P' w → P w) → (∀ a w, Q a w → Q' a w) → hoare P' c Q'.
Proof. intros Hc HP HQ w HP'. by apply HQ, Hc, HP. Qed.
Lemma hoare_ledger {A} (f : Ledger → A) P : hoare P (ledger (E:=E) f) (λ a w, P w ∧ a = f (w_led w)).
Proof. intros w HP. by split. Qed.

(** A fact of the arguments, carried to where it is used. *)
Lemma hoare_pure {A} (φ : Prop) P (c : M A) Q : (φ → hoare P c Q) → hoare (λ w, P w ∧ φ) c Q.
Proof. intros Hc w [HP Hφ]. by apply Hc. Qed.

(** [on_led Φ]: the ledger satisfies [Φ]. *)
Definition on_led (Φ : Ledger → Prop) (w : World E) : Prop := Φ (w_led w).
Lemma hoare_keeps {A} (c : M A) Φ : keeps c → hoare (on_led Φ) c (λ _, on_led Φ).
Proof. intros Hc w. unfold on_led. by rewrite (proj1 (Hc w)). Qed.

(** The call held no gate in vain, and the ledger satisfies [J] if each wait so
    far moved the ledger by [R]. *)
Definition fine (R : Ledger → Ledger → Prop) (e : ev) : Prop := match e with EvWait y r => R y r | _ => True end.
Definition unblocked (e : ev) : Prop := match e with EvBlocked _ => False | _ => True end.
Definition held (R : Ledger → Ledger → Prop) (J : Ledger → Prop) (w : World E) : Prop :=
  Forall unblocked (w_trace w) ∧ (Forall (fine R) (w_trace w) → J (w_led w)).

Lemma plain_all (P : ev → Prop) t : (∀ e, plain e → P e) → Forall plain t → Forall P (reverse t).
Proof. intros HP Ht. apply Forall_reverse. by eapply Forall_impl. Qed.
Lemma held_keeps {A} (c : M A) R J : keeps c → hoare (held R J) c (λ _, held R J).
Proof.
  intros Hc w [Hb HJ]. destruct (Hc w) as (El & t & Et & Ht). unfold held. rewrite El, Et. split.
  - apply Forall_app. split; [|done]. apply plain_all; [|done]. by intros [].
  - intros [_ Hf]%Forall_app. auto.
Qed.
Lemma held_log e R J : unblocked e → fine R e → hoare (held R J) (log e) (λ _, held R J).
Proof. intros He Hr w [Hb HJ]. split; [by constructor|]. intros Hf. apply Forall_cons in Hf as [_ Hf]. auto. Qed.
Lemma held_ledR {A} (f : Ledger → A * Ledger) R (J J' : Ledger → Prop) :
  (∀ l, J l → J' (f l).2) → hoare (held R J) (ledR (E:=E) f) (λ _, held R J').
Proof. intros Hf w [Hb HJ]. split; [done|]. intros Hw. by apply Hf, HJ. Qed.
Lemma held_waiting others (R : Ledger → Ledger → Prop) (J : Ledger → Prop) :
  (∀ y r, R y r → J y → J r) → hoare (held R J) (meanwhile (waiting others)) (λ _, held R J).
Proof.
  intros HR w [Hb HJ]. unfold held. cbn. split; [by constructor|]. intros Hf. apply Forall_cons in Hf as [Hr Hf]. by apply (HR (w_led w)), HJ.
Qed.
End Hoare.

(** ** One release after another *)

Section Sweep.
Context `{Env E} (others : World E → World E) (R : Ledger → Ledger → Prop) (J : list string → Ledger → Prop).
Hypothesis others_left : ∀ ids y r, R y r → J ids y → J ids r.
Hypothesis gone_left : ∀ id ids l, J (id :: ids) l → J ids (OnRelease id l).2.
Local Notation left_ ids := (held R (J ids)).

Lemma left_release ids id d : hoare (left_ ids) (release (waiting others) id d) (λ _, left_ ids).
Proof using others_left.
  unfold release. eapply hoare_bind; [apply held_keeps; keep|intros err].
  eapply hoare_bind; [by apply held_log|intros ?].
  eapply hoare_bind; [apply held_waiting, others_left|intros ?]. apply held_keeps. keep.
Qed.

Lemma left_one {A} ids id d (k : string * string → St (World E) A) :
  (∀ r, keeps (k r)) →
  hoare (left_ (id :: ids)) (_ ← release (waiting others) id d; r ← ledR (OnRelease id); k r) (λ _, left_ ids).
Proof using others_left gone_left.
  intros Hk. eapply hoare_bind; [apply left_release|intros ?].
  eapply hoare_bind; [apply held_ledR, gone_left|intros r]. by apply held_keeps.
Qed.

(** An entry that need not be released is passed over. *)
Definition passed (id : string) (l : Ledger) : Prop := ∀ ids, J (id :: ids) l → J ids l.
Lemma left_pass ids id (w : World E) : passed id (w_led w) → left_ (id :: ids) w → left_ ids w.
Proof. intros Hp [Hb HJ]. split; [done|]. intros Hf. by apply Hp, HJ. Qed.

Lemma left_yield ids reason f :
  (∀ l, LFiber (FID f) l = None → passed (FID f) l) →
  hoare (left_ (FID f :: ids)) (yieldFiber (waiting others) reason f) (λ _, left_ ids).
Proof using others_left gone_left.
  intros Hp. unfold yieldFiber. eapply hoare_bind; [apply hoare_ledger|intros [fence|]].
  - eapply hoare_conseq; [apply (left_one ids (FID f) false); intros r; keep|by intros w [? _]|done].
  - intros w [HJ En]. apply (left_pass ids (FID f) w); [|exact HJ]. by apply Hp.
Qed.

Lemma left_bump next ids reason id :
  (∀ l, (∀ fence, LFiber id l = Some fence → (next ≤ Epoch fence)%N) → passed id l) →
  hoare (left_ (id :: ids)) (bumpFiber (waiting others) next reason id) (λ _, left_ ids).
Proof using others_left gone_left.
  intros Hp. unfold bumpFiber. eapply hoare_bind; [apply hoare_ledger|intros [fence|]].
  - destruct (next <=? Epoch fence)%N eqn:El.
    + intros w [HJ En]. apply (left_pass ids id w); [|exact HJ]. apply Hp. intros f'. rewrite <- En. intros [= <-]. by apply N.leb_le.
    + eapply hoare_conseq; [apply (left_one ids id false); intros r; keep|by intros w [? _]|done].
  - intros w [HJ En]. apply (left_pass ids id w); [|exact HJ]. apply Hp. intros f'. by rewrite <- En.
Qed.

Lemma left_each {A} (key : A → string) (f : A → St (World E) unit) xs :
  (∀ x ids, hoare (left_ (key x :: ids)) (f x) (λ _, left_ ids)) →
  hoare (left_ (key <$> xs)) (for_each f xs) (λ _, left_ []).
Proof.
  intros Hf. induction xs as [|x xs IH]; simpl; [by intros w|].
  eapply hoare_bind; [apply Hf|intros ?]. exact IH.
Qed.
End Sweep.

(** ** Yield *)

(** The fibers of the grant are among [ids]. *)
Definition among (S : fiberRef → Prop) (ids : list string) (l : Ledger) : Prop :=
  ∀ id r, l_fibers l !! id = Some r → S r → id ∈ ids.

Lemma fibers_OnRelease id l : l_fibers (OnRelease id l).2 = delete id (l_fibers l).
Proof.
  unfold OnRelease. destruct (l_fibers l !! id) as [r|] eqn:Er.
  - pose proof (onGone_maps id l r Er) as [Hg _]. by destruct (onGone id l).
  - unfold onGone. rewrite Er. simpl. by rewrite delete_id.
Qed.

Lemma among_gone S id ids l : among S (id :: ids) l → among S ids (OnRelease id l).2.
Proof.
  intros HJ id' r. rewrite fibers_OnRelease. intros [Hne Hr]%lookup_delete_Some HS.
  specialize (HJ _ _ Hr HS). set_solver.
Qed.

Lemma among_absent S id l : l_fibers l !! id = None → ∀ ids, among S (id :: ids) l → among S ids l.
Proof. intros Hn ids HJ id' r Hr HS. specialize (HJ _ _ Hr HS). set_solver. Qed.

Local Notation on uid := (λ r, fr_grantUID r = uid).
(** No fiber of the grant was born between the two ledgers. *)
Definition unborn (uid : string) (l l' : Ledger) : Prop :=
  ∀ id r, l_fibers l' !! id = Some r → fr_grantUID r = uid → ∃ r0, l_fibers l !! id = Some r0 ∧ fr_grantUID r0 = uid.

Lemma Yield_left `{Env E} (others : World E → World E) uid reason :
  hoare (λ w, w_trace w = []) (Yield (waiting others) uid reason) (λ _, held (unborn uid) (among (on uid) [])).
Proof.
  unfold Yield.
  eapply (hoare_bind _ _ (λ _, held (unborn uid) (λ _, True))).
  { unfold Revoke. eapply (hoare_bind _ _ (λ _, held (unborn uid) (λ _, True))); [intros w Hw; unfold held; simpl; by rewrite Hw|intros ?].
    apply held_keeps. keep. }
  intros ?.
  eapply hoare_bind; [apply hoare_ledger|intros fs].
  eapply (hoare_bind _ _ (λ _, held (unborn uid) (among (on uid) []))).
  - eapply hoare_conseq; [apply (left_each (unborn uid) (among (on uid)) FID (yieldFiber (waiting others) reason) fs)| |done].
    + intros f ids. apply (left_yield others (unborn uid) (among (on uid))); [|apply among_gone|].
      * intros ids' y r Hu HJ id x Hx HU. destruct (Hu id x Hx HU) as (r0 & H0 & HU0). by eapply HJ.
      * intros l Hn ids'. apply among_absent. unfold LFiber in Hn. by destruct (l_fibers l !! FID f).
    + intros w [[Hb _] ->]. split; [done|]. intros _ id r Hr HU. apply FibersOf_elem. eauto.
  - intros ?. apply held_keeps. unfold ledger. keep.
Qed.

(** A yield ends every fiber of its grant.  Whatever else the home does
    while the fibers are released one by one, as long as it starts none under
    the grant, the ledger lists no fiber of it when Yield returns. *)
Theorem Yield_ends_fibers (E : Type) (HE : Env E) (others : World E → World E) uid reason w :
  w_trace w = [] → (∀ y r, EvWait y r ∈ w_trace (Yield (waiting others) uid reason w).2 → unborn uid y r) →
  FibersOf uid (w_led (Yield (waiting others) uid reason w).2) = [].
Proof.
  intros Hw Hu. destruct (Yield_left others uid reason w Hw) as [_ Hl].
  specialize (Hl ltac:(apply Forall_forall; intros [] He; try done; by apply Hu)).
  destruct (FibersOf uid _) as [|f fs] eqn:Ef; [done|]. exfalso.
  assert (FID f ∈ FID <$> FibersOf uid (w_led (Yield (waiting others) uid reason w).2)) as (r & Hr & HU)%FibersOf_elem
    by (rewrite Ef; left).
  by apply (Hl _ _ Hr), not_elem_of_nil in HU.
Qed.

Lemma Yield_ends_fibers_witness :
  FibersOf "g-1" (w_led world2) <> [] /\ FibersOf "g-1" (w_led (Yield (waiting id) "g-1" "test" (put_trace [] world2)).2) = [].
Proof.
  split; [vm_compute; congruence|].
  apply (Yield_ends_fibers box boxEnv id "g-1" "test" (put_trace [] world2) eq_refl).
  intros y r Hin.
  assert (Forall (λ e, match e with EvWait y r => y = r | _ => True end) (w_trace (Yield (waiting (E:=box) id) "g-1" "test" (put_trace [] world2)).2)) as Hf
    by (vm_compute; by repeat constructor).
  rewrite Forall_forall in Hf. specialize (Hf _ Hin). simpl in Hf. subst. intros i x Hx HU. eauto.
Defined.

(** ** BumpEpoch *)

Local Notation stale next := (λ r, (Epoch (fr_fence r) < next)%N).
(** The epoch is at least [next], and what runs from before it is listed. *)
Definition swept_but (next : N) (ids : list string) (l : Ledger) : Prop :=
  (next ≤ l_epoch l)%N ∧ among (stale next) ids l.
(** Threads of the system, of any calls in flight, moved the ledger. *)
Definition moved (l l' : Ledger) : Prop := ∃ th m th' m', lsteps l th m l' th' m'.

Lemma swept_moved next ids l l' : moved l l' → swept_but next ids l → swept_but next ids l'.
Proof.
  intros (th & m & th' & m' & Hr) [He HJ]. destruct (run_new_fiber _ _ _ Hr) as [He' HF]. simpl in *. split; [simpl; lia|].
  intros id r Hr' Hst. destruct (HF _ _ Hr') as [(r0 & H0 & _ & Hf)|?]; [|simpl in *; lia].
  apply (HJ id r0 H0). by rewrite Hf.
Qed.

Lemma epoch_OnRelease id l : (l_epoch l ≤ l_epoch (OnRelease id l).2)%N.
Proof.
  unfold OnRelease. pose proof (mints_nothing_onGone id l) as (_ & _ & Hm). by destruct (onGone id l).
Qed.

Lemma BumpEpoch_left `{Env E} (others : World E → World E) reason :
  hoare (λ w, w_trace w = []) (BumpEpoch (waiting others) reason)
    (λ r w, match r with inl next => held moved (swept_but next []) w | inr _ => True end).
Proof.
  unfold BumpEpoch. destruct e_Bump as [bump|]; [|by intros w].
  eapply (hoare_bind _ _ (λ _ w, w_trace w = [])); [by intros w|intros [next|e]]; [|by intros w].
  eapply (hoare_bind _ _ (λ _ w, w_trace w = [] ∧ (next ≤ l_epoch (w_led w))%N)).
  { intros w Hw. split; [done|]. simpl. unfold LBumpEpoch. destruct (l_epoch (w_led w) <? next)%N eqn:El; simpl; [done|by apply N.ltb_ge]. }
  intros ?. eapply hoare_bind; [apply hoare_ledger|intros ids].
  eapply (hoare_bind _ _ (λ _, held moved (swept_but next []))).
  - eapply hoare_conseq; [apply (left_each moved (swept_but next) id (bumpFiber (waiting others) next reason) ids)| |done].
    + intros i ids'. apply (left_bump others moved (swept_but next)); [apply swept_moved| |].
      * intros id ids0 l [He HJ]. split; [etrans; [exact He|apply epoch_OnRelease]|by apply among_gone].
      * intros l Hf ids0 [He HJ]. split; [done|]. intros i' r Hr Hst. specialize (HJ _ _ Hr Hst).
        apply elem_of_cons in HJ as [->|]; [|done]. specialize (Hf (fr_fence r)). unfold LFiber in Hf.
        unfold id in Hf. rewrite Hr in Hf. specialize (Hf eq_refl). lia.
    + intros w [[Hw He] ->]. unfold held. rewrite Hw. split; [done|]. intros _. split; [done|]. rewrite list_fmap_id.
      intros i r Hr _. apply RunningFibers_elem. eauto.
  - intros ?. eapply hoare_bind; [apply held_keeps; keep|intros ?].
    eapply hoare_bind; [apply held_keeps; keep|intros ?].
    apply (hoare_ret (inl next : N + error)
             (λ r w, match r with inl n => held moved (swept_but n []) w | inr _ => True end)).
Qed.

(** ** What the waits of an interleaved call come back to *)

(** The calls' stretches follow one another: between two of them only threads
    of the system moved the ledger, from [y] on. *)
Fixpoint follows (y : Ledger) (s : list (Ledger * Ledger)) : Prop :=
  match s with [] => True | (r, y') :: s => moved y r ∧ follows y' s end.

Lemma interleaves_follows cs l cs' l' : interleaves cs l cs' l' → ∀ j s th0 m0 y th m,
  allAble cs th → lsteps y th0 m0 l th m → cs !! j = Some s → cs' !! j = Some [] → follows y s.
Proof.
  induction 1 as [cs l|k cs l l1 rest cs' l' Hk Hi IH]; intros j s th0 m0 y th m Ha Hl Hj Hend; [by assert (s = []) as -> by congruence|].
  destruct (allAble_run cs k l l1 rest th m Ha Hk) as (th1 & m1 & H1 & Ha1). pose proof (lookup_lt_Some _ _ _ Hk) as Hlt.
  destruct (decide (k = j)) as [->|Hne].
  - assert (s = (l, l1) :: rest) as -> by congruence. split; [by exists th0, m0, th, m|].
    apply (IH j rest th1 m1 l1 th1 m1 Ha1); [apply rtc_refl|by rewrite list_lookup_insert_eq|done].
  - apply (IH j s th0 m0 y th1 m1 Ha1); [unfold lsteps in *; by etrans|by rewrite list_lookup_insert_ne|done].
Qed.

Lemma follows_moved y t l' : ∀ l, Forall unblocked t → follows y (stretches l t l') → moved y l.
Proof.
  induction t as [|e t IH]; intros l Ht; [by intros [? _]|]. apply Forall_cons in Ht as [He Ht].
  destruct e; cbn [stretches]; try (by apply IH); [by intros [? _]|done].
Qed.
Lemma follows_fine t l' : ∀ y l, Forall unblocked t → follows y (stretches l t l') → Forall (fine moved) t.
Proof.
  induction t as [|e t IH]; intros y l Ht Hf; [constructor|]. apply Forall_cons in Ht as [He Ht].
  destruct e; cbn [stretches follows] in Hf; try (constructor; [done|]; exact (IH y _ Ht Hf)); [|done].
  destruct Hf as [_ Hf]. constructor; [by eapply follows_moved|by eapply IH].
Qed.

(** C5: an epoch bump leaves nothing of an older epoch running.  Take any calls
    of a home's verbs, interleaved at their waits, one of them a BumpEpoch that
    returns the new epoch [next] while the others may be anywhere, a clone
    between its resolve and its commit included: when it returns, every fiber
    of the ledger was fenced at [next] or later.  The runtime names a fiber by
    its fence. *)
Theorem BumpEpoch_ends_older (E : Type) (HE : Env E) cfg e cs cs' l j (others : World E → World E) reason next w :
  names_by_fence E → Forall (isCall (E:=E) cfg) cs → interleaves cs (NewLedger e) cs' l →
  cs !! j = Some (stretchesOf (run (BumpEpoch (waiting others) reason)) w) → cs' !! j = Some [] → w_trace w = [] →
  (BumpEpoch (waiting others) reason w).1 = inl next →
  ∀ id r, l_fibers (w_led (BumpEpoch (waiting others) reason w).2) !! id = Some r → (next ≤ Epoch (fr_fence r))%N.
Proof.
  intros Hn Hcs Hi Hj Hend Hw Hr id r Hid. pose proof (BumpEpoch_left others reason w Hw) as Hl. rewrite Hr in Hl. destruct Hl as [Hb Hl].
  pose proof (interleaves_follows _ _ _ _ Hi j _ ∅ [] (NewLedger e) ∅ [] (calls_able cfg cs Hn Hcs) (rtc_refl _ _) Hj Hend) as Hf.
  unfold stretchesOf, run in Hf. apply (follows_fine _ _ _ _ (proj2 (Forall_reverse _ _) Hb)) in Hf.
  specialize (Hl ltac:(rewrite <- (reverse_involutive (w_trace _)); by apply Forall_reverse)). destruct Hl as [_ Hl].
  destruct (N.le_gt_cases next (Epoch (fr_fence r))) as [|Hlt]; [done|].
  by apply (Hl _ _ Hid), not_elem_of_nil in Hlt.
Qed.

(** A runs "s" at epoch 1.  B clones without a session; between its resolve and
    its commit the epoch is bumped, and while the bump waits for the release of
    A's fiber, B comes to its commit, which is refused, and D clones anew, at
    epoch 2. *)
Definition boxBump (ls : list Ledger) : World box → World box := run (BumpEpoch (waiting (finds ls)) "drill").
Definition bumpA : list (Ledger * Ledger) := stretchesOf (boxClone "s" []) world0.
Definition bumpB1 : Ledger := ledgerAt 0 (stretchesOf (boxClone "" []) (boxAt (ledgerAt 2 bumpA))).
Definition bumpE1 : Ledger := ledgerAt 0 (stretchesOf (boxBump []) (boxAt bumpB1)).
Definition bumpB : list (Ledger * Ledger) := stretchesOf (boxClone "" [bumpE1]) (boxAt (ledgerAt 2 bumpA)).
Definition bumpD : list (Ledger * Ledger) := stretchesOf (boxClone "" []) (boxAt (ledgerAt 2 bumpB)).
Definition bumpE : list (Ledger * Ledger) := stretchesOf (boxBump [ledgerAt 1 bumpD]) (boxAt bumpB1).

Lemma bump_crossing : interleaves [bumpA; bumpB; bumpD; bumpE] (NewLedger 1) [[]; []; []; []] (ledgerAt 1 bumpE).
Proof.
  apply (il_pick 0 _ _ bumpA); [reflexivity|vm_compute; reflexivity|].
  apply (il_pick 0 _ _ (tail bumpA)); [reflexivity|vm_compute; reflexivity|].
  apply (il_pick 0 _ _ (tail (tail bumpA))); [reflexivity|vm_compute; reflexivity|].
  apply (il_pick 1 _ _ bumpB); [reflexivity|vm_compute; reflexivity|].
  apply (il_pick 3 _ _ bumpE); [reflexivity|vm_compute; reflexivity|].
  apply (il_pick 1 _ _ (tail bumpB)); [reflexivity|vm_compute; reflexivity|].
  apply (il_pick 1 _ _ (tail (tail bumpB))); [reflexivity|vm_compute; reflexivity|].
  apply (il_pick 2 _ _ bumpD); [reflexivity|vm_compute; reflexivity|].
  apply (il_pick 2 _ _ (tail bumpD)); [reflexivity|vm_compute; reflexivity|].
  apply (il_pick 3 _ _ (tail bumpE)); [reflexivity|vm_compute; reflexivity|].
  vm_compute. apply il_stop.
Qed.

Lemma BumpEpoch_ends_older_witness :
  RunningFibers (ledgerAt 2 bumpA) = ["g-1/1/1"] ∧ RunningFibers (ledgerAt 1 bumpE) = ["g-1/2/3"] ∧
  ∀ id r, l_fibers (w_led (boxBump [ledgerAt 1 bumpD] (boxAt bumpB1))) !! id = Some r → (2 ≤ Epoch (fr_fence r))%N.
Proof.
  split; [vm_compute; reflexivity|]. split; [vm_compute; reflexivity|].
  apply (BumpEpoch_ends_older box boxEnv boxCfg 1 [bumpA; bumpB; bumpD; bumpE] [[]; []; []; []] (ledgerAt 1 bumpE) 3
           (finds [ledgerAt 1 bumpD]) "drill" 2 (boxAt bumpB1) boxNames).
  - repeat constructor; [apply boxClone_call..|].
    exists (finds [ledgerAt 1 bumpD]), (boxBump [ledgerAt 1 bumpD]), (boxAt bumpB1). split; [apply v_bump|]. by split.
  - exact bump_crossing.
  - reflexivity.
  - reflexivity.
  - reflexivity.
  - vm_compute. reflexivity.
Defined.
