(* ===== verification/CloneFacts.v ===== *)
(** * What a Clone promises about the fiber it started

    From the runtime's answer on: an acked fiber is in the ledger, a fiber that
    is not acked was released, and under a grant's durability the record of the
    birth is written before the ack.  [calm] is the frame all the helpers
    satisfy. *)

From S2P Require Import Prelude GoLib Fence Errors Grant Ledger LedgerFacts LedgerSteps LedgerLinks LedgerSafety AuditLog Runtime Core Clone Verbs CoreRefines CoreThreads Sandbox CoreHome CoreSweep.
From stdpp Require Import options.

Section Calm.
Context `{Env E}.
Local Notation M := (St (World E)).

(** The fibers, the sessions, the held exits and the drain flag are as they
    were, and the trace only grows. *)
Record calmly (w w' : World E) : Prop := {
  ca_fibers : l_fibers (w_led w') = l_fibers (w_led w);
  ca_sessions : l_sessions (w_led w') = l_sessions (w_led w);
  ca_pending : w_pending w' = w_pending w;
  ca_draining : w_draining w' = w_draining w;
  ca_trace : w_trace w `suffix_of` w_trace w';
}.
#[export] Instance calmly_preorder : PreOrder calmly.
Proof.
  split; [by intros w|]. intros w1 w2 w3 [] []. split; try congruence. by etrans.
Qed.
Definition calm {A} (c : M A) : Prop := ∀ w, calmly w (c w).2.

Lemma calm_ret {A} (a : A) : calm (mret a).
Proof. by intros w. Qed.
Lemma calm_bind {A B} (c : M A) (k : A → M B) : calm c → (∀ a, calm (k a)) → calm (c ≫= k).
Proof. intros Hc Hk w. etrans; [apply Hc|apply Hk]. Qed.
Lemma calm_env {A} (f : St E A) : calm (env f).
Proof. by intros w. Qed.
Lemma calm_gets {A} (f : World E → A) : calm (gets f).
Proof. by intros w. Qed.
Lemma calm_log e : calm (log e).
Proof. intros w. split; try done. by apply suffix_cons_r. Qed.
Lemma calm_modify (f : World E → World E) : (∀ w, calmly w (f w)) → calm (modify f).
Proof. intros Hf w. apply Hf. Qed.
Lemma calm_setPooled u n : calm (ledR (E:=E) (SetPooled u n)).
Proof. intros w. split; simpl; autorewrite with ledger; done. Qed.
End Calm.

Create HintDb calm discriminated.
#[export] Hint Resolve calm_ret calm_env calm_gets calm_log calm_setPooled : calm.
Ltac calms :=
  repeat first
    [ solve [auto with calm]
    | apply calm_bind; [|intros ?]
    | apply calm_modify; by intros
    | match goal with |- calm (match ?x with _ => _ end) => destruct x end
    | match goal with |- calm (let _ := _ in _) => cbv zeta end ].

Section Helpers.
Context `{Env E} (others : World E → World E).

Lemma calm_notify : calm (notify (E:=E)).
Proof. unfold notify. calms. Qed.
Lemma calm_audit d r : calm (audit (E:=E) d r).
Proof. unfold audit. calms. Qed.
Lemma calm_persist : calm (persist (E:=E)).
Proof. unfold persist, snapshot. calms. Qed.
Hint Resolve calm_notify calm_audit calm_persist : calm.
Lemma calm_miss e : calm (miss (E:=E) e).
Proof. unfold miss, missCode. calms. Qed.
Lemma calm_retire f s r : calm (retireDelta (E:=E) f s r).
Proof. unfold retireDelta. calms. Qed.
Lemma calm_handedOut u : calm (handedOut (E:=E) u).
Proof. unfold handedOut, syncPooled, kickRefill, asks. calms. Qed.
Lemma calm_routed r : calm (routed (E:=E) r).
Proof. unfold routed, asks. calms. Qed.
Hint Resolve calm_miss : calm.
Lemma calm_swept g f : calm (swept (E:=E) g f).
Proof. unfold swept, ledger. calms. Qed.
End Helpers.
#[export] Hint Resolve calm_notify calm_audit calm_persist calm_miss calm_retire calm_handedOut calm_routed calm_swept : calm.

(** ** The fiber the runtime answered with *)

Section Born.
Context `{Env E} (others : World E → World E).
Hypothesis others_trace : ∀ w, w_trace w `suffix_of` w_trace (others w).

(** A release of the fiber was asked for. *)
Definition released (id : string) (w : World E) : Prop := ∃ err, EvRelease id false err ∈ w_trace w.

Lemma released_grows id w w' : released id w → w_trace w `suffix_of` w_trace w' → released id w'.
Proof. intros [err Hin] [tr Htr]. exists err. rewrite Htr. apply elem_of_app. by right. Qed.

Lemma release_asks id w : released id (release others id false w).2 ∧ w_trace w `suffix_of` w_trace (release others id false w).2.
Proof using others_trace.
  set (r := e_Release id false (w_env w)). set (w1 := (log (EvRelease id false r.1) (put_env r.2 w)).2).
  change (release others id false w).2 with (others w1). pose proof (others_trace w1) as Hs. split.
  - eapply released_grows; [|exact Hs]. exists r.1. left.
  - etrans; [|exact Hs]. by apply suffix_cons_r.
Qed.

(** The outcome of a clone whose fiber was born: acked and recorded under its
    fence, or its release was asked for. *)
Definition accounted (f : Fence) (key : string) (h : FiberHandle) (w0 : World E) (ta : ticket * answer) (w : World E) : Prop :=
  match ta.2 with
  | (r, c, None) =>
      c = OK ∧ rs_FiberID r = HID h ∧ rs_Fence r = f ∧ t_committed ta.1 = true ∧
      (w_pending w0 !! HID h = None →
       ∃ ref, l_fibers (w_led w) !! HID h = Some ref ∧ fr_fence ref = f ∧ fr_sessionKey ref = key)
  | (_, _, Some _) => released (HID h) w
  end.

Lemma routed_same r w : rs_FiberID (routed (E:=E) r w).1 = rs_FiberID r ∧ rs_Fence (routed (E:=E) r w).1 = rs_Fence r
  ∧ rs_Kind (routed (E:=E) r w).1 = rs_Kind r.
Proof.
  unfold routed, asks. destruct e_HandoffRouter as [hr|]; [|done]. simpl. unfold compose.
  by destruct (HandoffRoute hr (rs_FiberID r) (w_env w)) as [[[? ?] ?]|].
Qed.

Lemma swept_misses g f w : is_Some (swept (E:=E) g f w).1.2.
Proof.
  unfold swept, mbind, St_bind. destruct (_ <>? _); [by eexists|].
  match goal with |- is_Some (snd (fst ((if ?b then _ else _) _))) => destruct b end; by eexists.
Qed.

Lemma commitHeld_run t x w :
  commitHeld (E:=E) t x w =
  let c := commit (w_draining w) t x (w_led w) in
  ((c.1.1, c.1.2, w_pending w !! HID (SHandle x)), put_pending (delete (HID (SHandle x)) (w_pending w)) (put_led c.2 w)).
Proof. done. Qed.

(** Once committed, nothing in Clone takes the fiber out again but its own
    exit, held since before the commit. *)
Lemma cloneCommit_accounted req g act f ref t h w0 :
  HID h ≠ "" →
  accounted f (if cr_Session req <>? "" then t_key t else "") h w0 (cloneCommit others req g act f ref t h w0).1
    (cloneCommit others req g act f ref t h w0).2.
Proof using others_trace.
  intros Hh. unfold cloneCommit. rewrite St_bind_run, commitHeld_run. cbn [fst snd].
  destruct (commit _ _ _ _) as [[[] t'] l'] eqn:Ec; cbn [fst snd].
  - apply commit_true in Ec as (_ & _ & _ & -> & _ & _ & _ & _ & _ & _ & Hf & _). cbn [SHandle flightSession] in Hf.
    rewrite bool_decide_eq_false_2 in Hf by done. cbn [negb] in Hf.
    set (w1 := put_pending _ _). rewrite St_bind_run. set (rest := match act with ActResume => _ | _ => _ end).
    assert (Hrest : calm rest) by (subst rest; calms).
    rewrite 3!St_bind_run. set (w2 := (notify (rest w1).2).2).
    assert (H2 : calmly w1 w2) by (etrans; [apply Hrest|apply calm_notify]).
    set (w3 := (match w_pending w0 !! HID h with Some ex => OnExit ex | None => mret tt end w2).2).
    destruct (routed_same (mkCloneResponse (HID h) (HEndpoint h) f act "" "" "") w3) as (R1 & R2 & _).
    unfold accounted. cbn [fst snd mret St_ret]. split_and!; [done|done|done|done|]. intros Hn.
    exists (mkRef (t_uid t) (if cr_Session req <>? "" then t_key t else "") f 0). split; [|done].
    rewrite (ca_fibers _ _ (calm_routed _ w3)). subst w3. rewrite Hn.
    change (l_fibers (w_led w2) !! HID h = Some (mkRef (t_uid t) (if cr_Session req <>? "" then t_key t else "") f 0)).
    rewrite (ca_fibers _ _ H2). subst w1. cbn [w_led put_pending put_led]. rewrite Hf. apply lookup_insert_eq.
  - set (w1 := put_pending _ _). destruct (swept_misses g f w1) as [e He].
    rewrite St_bind_run. destruct (swept g f w1) as [[code cerr] w2]. cbn [fst snd] in *. subst cerr.
    rewrite St_bind_run. cbn [gets fst snd]. destruct (w_draining w2); rewrite 2!St_bind_run; unfold accounted; cbn [fst snd mret St_ret refuse].
    all: eapply released_grows; [apply release_asks|apply calm_audit].
Qed.

Lemma accounted_start f key h w0 w1 ta w : w_pending w1 = w_pending w0 → accounted f key h w1 ta w → accounted f key h w0 ta w.
Proof. unfold accounted. by intros ->. Qed.

Lemma OnExit_trace ex w : w_trace w `suffix_of` w_trace (OnExit (E:=E) ex w).2.
Proof.
  unfold OnExit. rewrite St_bind_run. destruct (ledR _ w) as [[[[fence session] ref]|] w1] eqn:El; cbn [fst snd].
  - assert (Ht : w_trace w1 = w_trace w) by (by injection El as _ <-). rewrite <- Ht.
    apply ca_trace. assert (Hc : calm (E:=E) (_ ← (if ref <>? "" then discardDelta fence session ref else mret tt);
      d ← durability (GrantUID fence); _ ← audit d (event (fx_Reason ex) fence session (fx_FiberID ex) (fx_Detail ex)); notify)).
    { unfold discardDelta, durability, ledger. calms. }
    apply Hc.
  - injection El as _ <-. done.
Qed.

Lemma cloneAudit_accounted req g act f ref t h w0 :
  HID h ≠ "" →
  accounted f (if cr_Session req <>? "" then t_key t else "") h w0 (cloneAudit others req g act f ref t h w0).1
    (cloneAudit others req g act f ref t h w0).2.
Proof using others_trace.
  intros Hh. unfold cloneAudit. rewrite 2!St_bind_run.
  set (w1 := ((if HPooled h then handedOut (UID g) else mret tt) w0).2).
  assert (H1 : calmly w0 w1) by (subst w1; destruct (HPooled h); [apply calm_handedOut|done]).
  set (rec := event _ _ _ _ _). pose proof (calm_audit (PDurability (GPolicy g)) rec w1) as H2.
  destruct (audit (PDurability (GPolicy g)) rec w1) as [[e|] w2]; cbn [fst snd] in *.
  - rewrite St_bind_run. destruct (release_asks (HID h) w2) as [Hr _].
    destruct (release others (HID h) false w2) as [[rerr|] w3]; cbn [fst snd] in *.
    + rewrite St_bind_run, commitHeld_run. cbn [fst snd].
      destruct (commit _ _ _ _) as [[ok t'] l']. cbn [fst snd]. rewrite St_bind_run. unfold accounted. cbn [fst snd mret St_ret refuse].
      destruct (w_pending w3 !! _) as [ex|]; [|exact Hr]. destruct ok; [|exact Hr].
      eapply released_grows; [|apply OnExit_trace]. exact Hr.
    + exact Hr.
  - apply (accounted_start _ _ _ _ w2); [by rewrite (ca_pending _ _ H2), (ca_pending _ _ H1)|by apply cloneCommit_accounted].
Qed.
End Born.

(** C4: no clone loses a fiber.  Once the runtime has answered a clone with a
    fiber, either the caller is told OK with that fiber and its fence, the
    ticket is committed, and the ledger holds the fiber under that fence and
    session (unless the fiber's own exit, held since before the commit, settled
    it), or the caller is told an error and the runtime was asked to release
    the fiber.  This covers a failed audit, a failed roll-back, a revocation,
    an epoch bump and a drain that came while the runtime worked. *)
Theorem born_fiber_accounted (E : Type) (HE : Env E) (others : World E → World E) req g act f ref t h w :
  (∀ w, w_trace w `suffix_of` w_trace (others w)) → HID h ≠ "" →
  let '(ta, w') := cloneAudit others req g act f ref t h w in
  match ta.2 with
  | (r, c, None) =>
      c = OK ∧ rs_FiberID r = HID h ∧ rs_Fence r = f ∧ t_committed ta.1 = true ∧
      (w_pending w !! HID h = None →
       ∃ ref, l_fibers (w_led w') !! HID h = Some ref ∧ fr_fence ref = f ∧
         fr_sessionKey ref = (if cr_Session req <>? "" then t_key t else ""))
  | (_, _, Some _) => ∃ err, EvRelease (HID h) false err ∈ w_trace w'
  end.
Proof.
  intros Ht Hh. pose proof (cloneAudit_accounted others Ht req g act f ref t h w Hh) as Ha.
  by destruct (cloneAudit others req g act f ref t h w) as [ta w'].
Qed.

(** The audit is down: the fiber born is released. *)
Definition boxDown : box := mkBox 0%Z ["g-1/1/1"] true [("tok", sampleGrant)] [] 1.
Definition downWorld : World box := mkWorld demo_l3 boxDown ∅ ∅ ∅ ∅ false false "" false [] [].

Lemma born_fiber_accounted_witness :
  (cloneAudit (E:=box) id (boxReq "s") sampleGrant ActCreate demo_f "" demo_t demo_h downWorld).1.2 =
    refuse Internal (EOther "spool full") ∧
  ∃ err, EvRelease "g-1/1/1" false err ∈
    w_trace (cloneAudit (E:=box) id (boxReq "s") sampleGrant ActCreate demo_f "" demo_t demo_h downWorld).2.
Proof.
  split; [vm_compute; reflexivity|].
  exact (born_fiber_accounted box boxEnv id (boxReq "s") sampleGrant ActCreate demo_f "" demo_t demo_h downWorld
    (λ w, reflexivity (w_trace w)) ltac:(done)).
Defined.

(** ** The record before the ack *)

Section Longer.
Context `{Env E}.
Local Notation M := (St (World E)).
(** The trace only grows. *)
Definition longer {A} (c : M A) : Prop := ∀ w, w_trace w `suffix_of` w_trace (c w).2.
Lemma longer_calm {A} (c : M A) : calm c → longer c.
Proof. intros Hc w. apply (Hc w). Qed.
Lemma longer_bind {A B} (c : M A) (k : A → M B) : longer c → (∀ a, longer (k a)) → longer (c ≫= k).
Proof. intros Hc Hk w. etrans; [apply Hc|apply Hk]. Qed.
Lemma longer_led f : longer (led (E:=E) f).
Proof. by intros w. Qed.
Lemma longer_ledR {A} (f : Ledger → A * Ledger) : longer (ledR (E:=E) f).
Proof. by intros w. Qed.
Lemma longer_modify (f : World E → World E) : (∀ w, w_trace (f w) = w_trace w) → longer (modify f).
Proof. intros Hf w. simpl. by rewrite Hf. Qed.
End Longer.
Create HintDb longer discriminated.
#[export] Hint Resolve longer_led longer_ledR OnExit_trace : longer.
Ltac longers :=
  repeat first
    [ solve [auto with longer]
    | solve [apply longer_calm; calms]
    | apply longer_bind; [|intros ?]
    | apply longer_modify; by intros
    | match goal with |- longer (match ?x with _ => _ end) => destruct x end ].

Section Ack.
Context `{Env E} (cfg : Config) (others : World E → World E).
Hypothesis others_trace : ∀ w, w_trace w `suffix_of` w_trace (others w).

Lemma longer_meanwhile : longer (meanwhile others).
Proof using others_trace. exact others_trace. Qed.
Lemma longer_OnExit ex : longer (OnExit (E:=E) ex).
Proof. intros w. apply OnExit_trace. Qed.
Hint Resolve longer_meanwhile longer_OnExit : longer.
Lemma longer_release id d : longer (release others id d).
Proof using others_trace. unfold release. longers. Qed.
Hint Resolve longer_release : longer.
Lemma longer_cloneCommit req g act f ref t h : longer (cloneCommit others req g act f ref t h).
Proof using others_trace. unfold cloneCommit, commitHeld. longers. Qed.

(** The trace has the record of the ack, durable if the grant says Sync. *)
Definition recorded (g : Grant) (session : string) (f : Fence) (act : Action) (w : World E) : Prop :=
  ∃ rec err,
    EvAudit (if (PDurability (GPolicy g) =? DurabilityUnspecified)%Z then BestEffort else PDurability (GPolicy g)) rec err ∈ w_trace w ∧
    ar_Event rec = Action_String act ∧ ar_Fence rec = f ∧ ar_Session rec = session ∧
    (PDurability (GPolicy g) = Sync → err = None).

Lemma recorded_longer g session f act w w' :
  w_trace w `suffix_of` w_trace w' → recorded g session f act w → recorded g session f act w'.
Proof.
  intros [tr Htr] (rec & err & Hin & Hrest). exists rec, err. split; [|done]. rewrite Htr. apply elem_of_app. by right.
Qed.

Lemma audit_records g session f act id detail w :
  is_Some (e_Append (E:=E)) →
  (audit (E:=E) (PDurability (GPolicy g)) (event (Action_String act) f session id detail) w).1 = None →
  recorded g session f act (audit (E:=E) (PDurability (GPolicy g)) (event (Action_String act) f session id detail) w).2.
Proof.
  intros [append Ha]. unfold audit. rewrite Ha. cbv zeta. set (d := if (_ =? _)%Z then _ else _).
  rewrite 3!St_bind_run. set (rec := mkAudit _ _ _ _ _ _ _ _ _ _ _ _ _). cbn [log modify fst snd mret St_ret].
  intros Herr. eexists rec, _. split; [left|]. split_and!; [done|done|done|].
  intros Hs. revert Herr. subst d. by rewrite Hs.
Qed.

(** The post-condition of the steps after the resolve. *)
Definition acks (g : Grant) (req : CloneRequest) (a : answer) (w : World E) : Prop :=
  match a with
  | (r, _, None) => recorded g (cr_Session req) (rs_Fence r) (rs_Kind r) w
  | (_, _, Some _) => True
  end.

Lemma cloneCommit_answer req g act f ref t h w r c :
  (cloneCommit others req g act f ref t h w).1.2 = (r, c, None) → rs_Fence r = f ∧ rs_Kind r = act.
Proof.
  unfold cloneCommit. rewrite St_bind_run, commitHeld_run. cbn [fst snd].
  destruct (commit _ _ _ _) as [[[] t'] l']; cbn [fst snd].
  - rewrite 4!St_bind_run. cbn [fst snd mret St_ret]. intros [= <- _]. apply routed_same.
  - set (w1 := put_pending _ _). destruct (swept_misses g f w1) as [e He].
    rewrite St_bind_run. destruct (swept g f w1) as [[code cerr] w2]. cbn [fst snd] in *. subst cerr.
    rewrite St_bind_run. cbn [gets fst snd]. by destruct (w_draining w2).
Qed.

Lemma cloneAudit_acks req g act f ref t h :
  is_Some (e_Append (E:=E)) →
  hoare (λ _, True) (cloneAudit others req g act f ref t h) (λ ta w, acks g req ta.2 w).
Proof using others_trace.
  intros Ha w _. unfold cloneAudit. rewrite 2!St_bind_run.
  set (w1 := ((if HPooled h then handedOut (UID g) else mret tt) w).2). pose proof (audit_records g (cr_Session req) f act (HID h) (if HPooled h then "pooled" else "") w1 Ha) as Hr.
  destruct (audit _ _ w1) as [[e|] w2]; cbn [fst snd] in *.
  - rewrite St_bind_run. destruct (release others (HID h) false w2) as [[rerr|] w3]; cbn [fst snd]; [|done].
    rewrite St_bind_run. by destruct (commitHeld _ _ w3) as [[[ok t'] ex] w4].
  - specialize (Hr eq_refl). pose proof (longer_cloneCommit req g act f ref t h w2) as Hl.
    pose proof (cloneCommit_answer req g act f ref t h w2) as Hc.
    destruct (cloneCommit others req g act f ref t h w2) as [[t' [[r c] [e|]]] w3]; cbn [fst snd] in *; [done|].
    destruct (Hc r c eq_refl) as [Hf Hk]. unfold acks. rewrite Hf, Hk. by eapply recorded_longer.
Qed.

Lemma cloneWork_acks req g shedding act f ref t :
  is_Some (e_Append (E:=E)) →
  hoare (λ _, True) (cloneWork others req g shedding act f ref t) (λ ta w, acks g req ta.2 w).
Proof using others_trace.
  intros Ha. assert (Hrun : ∀ act', hoare (λ _, True)
    (if shedding then mret (t, refuse Shed (ESentinel ErrPressure)) else
      dl ← asks (GrantDeadlines (UID g));
      let deadline := if (0 <? cr_Deadline req)%Z then cr_Deadline req else match act' with ActResume => dl.2 | _ => dl.1 end in
      let spec := mkCloneSpec g (match act' with ActResume => SourceDelta | _ => SourceZygote end)
                    (match act' with ActResume => ref | _ => "" end) f deadline (cr_Payload req) (cr_Session req)
                    (cr_CallerCert req) in
      r ← env (e_Clone spec); _ ← log (EvClone spec r); _ ← meanwhile others;
      match r with
      | inr e =>
          mret (t, if Is e DeadlineExceeded then refuse DeferredFallback (ESentinel ErrDeadline)
                   else if Is e ErrPressure then refuse Shed e else refuse DeferredFallback e)
      | inl h => cloneAudit others req g act' f ref t h
      end) (λ ta w, acks g req ta.2 w)).
  { intros act'. destruct shedding; [by intros w|]. intros w _. rewrite St_bind_run. cbv zeta. rewrite 3!St_bind_run.
    destruct (env _ _) as [[h|e] w1]; cbn [fst snd]; [by apply cloneAudit_acks|].
    cbn [mret St_ret fst snd]. by destruct (Is e DeadlineExceeded), (Is e ErrPressure). }
  unfold cloneWork. destruct act; [apply Hrun| |apply Hrun].
  intros w _. rewrite St_bind_run. pose proof (audit_records g (cr_Session req) f ActAttach "" "" w Ha) as Hr.
  change (Action_String ActAttach) with "attach" in Hr.
  destruct (audit _ _ w) as [[e|] w2]; cbn [fst snd] in *; [done|]. rewrite St_bind_run. cbn [fst snd mret St_ret].
  destruct (routed_same (mkCloneResponse (Fence_String f) ref f ActAttach "" "" "") w2) as (_ & R2 & R3).
  unfold acks. rewrite R2, R3. eapply recorded_longer; [|by apply Hr]. apply longer_calm, calm_routed.
Qed.

(** The frontend refuses with an error. *)
Lemma cloneFront_refuses waits req w :
  match (cloneFront cfg others waits req w).1 with inr a => is_Some a.2 | inl _ => True end.
Proof.
  assert (Hr : hoare (λ _, True) (cloneFront cfg others waits req)
    (λ f _, match f with inr a => is_Some a.2 | inl _ => True end)); [|by apply Hr].
  unfold cloneFront, refuse. destruct (bool_decide _); [intros ? _; by eexists|].
  eapply (hoare_bind _ _ (λ _ _, True)); [by intros ?|intros [g|e]]; [|intros ? _; by eexists].
  eapply (hoare_bind _ _ (λ _ _, True)); [by intros ?|intros []]; [intros ? _; by eexists|]. cbv zeta.
  destruct (frontFault _ _ _) as [[c e]|]; [intros ? _; by eexists|].
  eapply (hoare_bind _ _ (λ _ _, True)); [by intros ?|intros [[c e]|]]; [intros ? _; by eexists|].
  eapply (hoare_bind _ _ (λ _ _, True)); [by intros ?|intros [held|]].
  - destruct (_ <>? _); [intros ? _; by eexists|by intros ?].
  - eapply (hoare_bind _ _ (λ _ _, True)); [by intros ?|intros ?]. intros ? _; by eexists.
Qed.

Lemma acks_longer g req a w w' : w_trace w `suffix_of` w_trace w' → acks g req a w → acks g req a w'.
Proof. intros Hl. destruct a as [[r c] [e|]]; [done|]. by apply recorded_longer. Qed.

Lemma cloneHeld_acks req g :
  is_Some (e_Append (E:=E)) → hoare (λ _, True) (cloneHeld cfg others req g) (λ a w, acks g req a w).
Proof using others_trace.
  intros Ha w _. unfold cloneHeld. rewrite St_bind_run. destruct (env e_Take w) as [[e|] w1]; cbn [fst snd]; [done|].
  rewrite St_bind_run. cbv zeta. rewrite St_bind_run. set (shedding := (asks _ w1).1).
  destruct (if cr_Session req <>? "" then _ else _) as [[c [e|]] w2]; cbn [fst snd]; [done|].
  rewrite 2!St_bind_run. destruct (ledR _ _) as [[e|act f ref t] w3]; cbn [fst snd]; [done|].
  rewrite St_bind_run. pose proof (cloneWork_acks req g shedding act f ref t Ha w3 I) as Hw.
  destruct (cloneWork others req g shedding act f ref t w3) as [ta w4]; cbn [fst snd] in *.
  rewrite 2!St_bind_run. eapply acks_longer; [|exact Hw].
  assert (Hl : longer (E:=E) (_ ← led (unlock ta.1);
    if cr_Session req <>? "" then releaseHold (sessionKey (UID g) (cr_Session req)) else mret tt)) by (unfold releaseHold; longers).
  apply Hl.
Qed.
End Ack.

(** C6: no ack without its record.  When Clone says OK, for an attach as for a
    create or a resume, the audit was asked before to write the record of that
    very act, with the fence and the session of the answer, at the durability
    of the grant the home admitted; and under Sync that write had succeeded. *)
Theorem ack_after_audit (E : Type) (HE : Env E) cfg (others : World E → World E) waits req r c w w' :
  (∀ w, w_trace w `suffix_of` w_trace (others w)) → is_Some e_Append →
  Clone cfg others waits req w = ((r, c, None), w') →
  ∃ g rec err, (cloneFront cfg others waits req w).1 = inl g ∧
    EvAudit (if (PDurability (GPolicy g) =? DurabilityUnspecified)%Z then BestEffort else PDurability (GPolicy g)) rec err ∈ w_trace w' ∧
    ar_Event rec = Action_String (rs_Kind r) ∧ ar_Fence rec = rs_Fence r ∧ ar_Session rec = cr_Session req ∧
    (PDurability (GPolicy g) = Sync → err = None).
Proof.
  intros Ht Ha. unfold Clone. rewrite St_bind_run.
  pose proof (cloneFront_refuses cfg others waits req w) as Hf.
  destruct (cloneFront cfg others waits req w) as [[g|a] w1]; cbn [fst snd] in *.
  - intros Hc. pose proof (cloneHeld_acks cfg others Ht req g Ha w1 I) as Hr. rewrite Hc in Hr.
    destruct Hr as (rec & err & Hr). by exists g, rec, err.
  - intros [= -> <-]. by destruct Hf.
Qed.

Lemma ack_after_audit_witness :
  ∃ g rec err, (cloneFront (E:=box) boxCfg id [] (boxReq "s") world0).1 = inl g ∧
    EvAudit (if (PDurability (GPolicy g) =? DurabilityUnspecified)%Z then BestEffort else PDurability (GPolicy g)) rec err ∈ w_trace world1 ∧
    ar_Event rec = Action_String ActCreate ∧ ar_Fence rec = demo_f ∧ ar_Session rec = "s" ∧
    (PDurability (GPolicy g) = Sync → err = None).
Proof.
  apply (ack_after_audit box boxEnv boxCfg id [] (boxReq "s")
    (mkCloneResponse "g-1/1/1" "10.0.0.2:80" demo_f ActCreate "" "" "") OK world0 world1).
  - intros w. reflexivity.
  - eexists. reflexivity.
  - vm_compute. reflexivity.
Defined.

(** ** Draining *)

(** A draining home starts nothing.  Clone refuses with an error before it
    touches the ledger or the runtime, a verified token with DeferredFallback
    and ErrDraining; and a clone that was already in flight when the drain
    began is not committed: it is refused the same way and its fiber is
    released. *)
Theorem draining_refuses (E : Type) (HE : Env E) cfg (others : World E → World E) waits req w :
  w_draining w = true →
  (let '((r, c, err), w') := Clone cfg others waits req w in
   r = zeroResponse ∧ c ≠ OK ∧ is_Some err ∧ w_led w' = w_led w ∧ w_trace w' = w_trace w ∧
   (∀ g e, (String.length (cr_Payload req) ≤ MaxPayload)%nat → e_Verify (cr_GrantJWT req) (w_env w) = (inl g, e) →
      c = DeferredFallback ∧ err = Some (ESentinel ErrDraining))) ∧
  (∀ g act f ref t h, (∀ w, w_trace w `suffix_of` w_trace (others w)) →
     let '((t', a), w') := cloneCommit others req g act f ref t h w in
     t' = t ∧ a = refuse DeferredFallback (ESentinel ErrDraining) ∧ ∃ err, EvRelease (HID h) false err ∈ w_trace w').
Proof.
  intros Hd. split.
  - unfold Clone. rewrite St_bind_run. unfold cloneFront. case_bool_decide as Hp.
    { cbn. split_and!; [done|done|by eexists|done|done|lia]. }
    rewrite St_bind_run. cbn [env fst snd]. destruct (e_Verify (cr_GrantJWT req) (w_env w)) as [[g|e] w1]; cbn [fst snd].
    + rewrite St_bind_run. cbn. rewrite Hd. cbn. split_and!; [done|done|by eexists|done|done|done].
    + cbn. split_and!; [done|by destruct (Is _ _)|by eexists|done|done|done].
  - intros g act f ref t h Ht. unfold cloneCommit. rewrite St_bind_run, commitHeld_run. rewrite Hd.
    destruct (commit true _ _ _) as [[ok t'] l'] eqn:Ec. destruct ok; [by apply commit_true in Ec as (_ & _ & [=] & _)|].
    apply commit_false in Ec as [-> ->]. cbn [fst snd]. rewrite St_bind_run. set (w1 := put_pending _ _).
    pose proof (ca_draining _ _ (calm_swept g f w1)) as Hd'. destruct (swept g f w1) as [[code cerr] w2]. cbn [fst snd] in *.
    rewrite St_bind_run. cbn [gets fst snd]. rewrite Hd'. subst w1. cbn [w_draining put_pending put_led]. rewrite Hd.
    rewrite 2!St_bind_run. cbn [mret St_ret fst snd]. split_and!; [done|done|].
    eapply (released_grows (HID h)); [by apply release_asks|apply calm_audit].
Qed.

Definition drainWorld : World box := put_draining true world1.

Lemma drainWorld_draining : w_draining drainWorld = true.
Proof. reflexivity. Qed.

Lemma draining_refuses_witness :
  (Clone (E:=box) boxCfg id [] (boxReq "s") drainWorld).1 = refuse DeferredFallback (ESentinel ErrDraining) ∧
  let '((t', a), w') := cloneCommit (E:=box) id (boxReq "s") sampleGrant ActCreate demo_f "" demo_t demo_h drainWorld in
  t' = demo_t ∧ a = refuse DeferredFallback (ESentinel ErrDraining) ∧ ∃ err, EvRelease (HID demo_h) false err ∈ w_trace w'.
Proof.
  split; [vm_compute; reflexivity|].
  destruct (draining_refuses box boxEnv boxCfg id [] (boxReq "s") drainWorld drainWorld_draining) as [_ Hc].
  apply Hc. intros w. reflexivity.
Defined.
