(* ===== verification/VerbFacts.v ===== *)
(** * Park and Admit

    Park follows the runtime: the ledger moves exactly when the runtime gave a
    delta, whatever else fails.  Admit either holds the grant it was given or
    leaves the ledger alone. *)

From S2P Require Import Prelude GoLib Fence Errors Grant Ledger LedgerFacts LedgerSteps LedgerLinks LedgerSafety AuditLog Runtime Core Clone Verbs Boot CoreRefines CoreThreads Sandbox CoreHome CoreSweep CloneFacts.
From stdpp Require Import options.

Section Park.
Context `{Env E} (others : World E → World E).
Hypothesis others_calm : calm (meanwhile others).

Lemma calm_led (f : Ledger → Ledger) :
  (∀ l, l_fibers (f l) = l_fibers l ∧ l_sessions (f l) = l_sessions l) → calm (led (E:=E) f).
Proof. intros Hf w. by split; try apply Hf. Qed.

Lemma calm_hold key : calm (holdSession others key).
Proof using others_calm.
  intros w. unfold holdSession. rewrite 3!St_bind_run.
  set (w1 := (led (gateEnter key) w).2). assert (H1 : calmly w w1) by by split.
  set (w2 := (meanwhile others w1).2). assert (H2 : calmly w1 w2) by apply others_calm.
  etrans; [exact H1|]. etrans; [exact H2|]. cbn [ledger gets fst snd].
  change ((gateLock key ∘ w_led) w2) with (gateLock key (w_led w2)).
  destruct (gateLock key (w_led w2)) as [l'|] eqn:El; [|apply calm_log].
  apply maps_gateLock in El as [Ef Es]. by split.
Qed.
Lemma calm_drop key : calm (releaseHold (E:=E) key).
Proof.
  unfold releaseHold. apply calm_bind; [|intros ?]; apply calm_led; intros l; split; by autorewrite with ledger.
Qed.
Lemma calm_discard f s r : calm (discardDelta (E:=E) f s r).
Proof. unfold discardDelta. calms. Qed.
Hint Resolve calm_discard : calm.

Lemma elem_of_suffix {A} (x : A) l l' : l `suffix_of` l' → x ∈ l → x ∈ l'.
Proof. intros [k ->] Hx. apply elem_of_app. by right. Qed.
Lemma alter_at {A} (f : A → A) (m : gmap string A) k x : m !! k = Some x → alter f k m = <[k := f x]> m.
Proof. intros Hx. by rewrite <- (insert_id m k x Hx) at 1; rewrite alter_insert_eq. Qed.

(** What a park with the delta [ref] makes of the ledger. *)
Definition parks (id key ref : string) (s : Session) (l l' : Ledger) : Prop :=
  l_fibers l' = delete id (l_fibers l) ∧
  l_sessions l' = <[key := mkSession (SName s) (SGrantUID s) StateParked (SFence s) zeroHandle ref]> (l_sessions l).

Lemma parked_parks id ref fence perr r s w :
  l_fibers (w_led w) !! id = Some r → fr_sessionKey r ≠ "" → l_sessions (w_led w) !! fr_sessionKey r = Some s →
  let '((ref', pub, code, err), w') := parked (E:=E) id ref fence perr w in
  ref' = ref ∧ parks id (fr_sessionKey r) ref s (w_led w) (w_led w') ∧ w_trace w `suffix_of` w_trace w' ∧ (code = OK ↔ err = None).
Proof.
  intros Hr Hk Hs. unfold parked. rewrite St_bind_run. set (w1 := (ledR (OnPark id ref) w).2).
  assert (H1 : parks id (fr_sessionKey r) ref s (w_led w) (w_led w1)).
  { unfold parks. subst w1. cbn. pose proof (OnPark_maps id ref _ _ Hr) as [Hf Hse]. rewrite Hf, Hse.
    rewrite bool_decide_eq_false_2 by done. cbn. split; [done|]. by rewrite (alter_at _ _ _ s Hs). }
  assert (Ht : w_trace w1 = w_trace w) by done.
  destruct ((ledR (OnPark id ref) w).1) as [session superseded].
  match goal with |- context [mbind ?k (durability ?u)] => set (tail := mbind k (durability u)) end.
  assert (Hcalm : calm tail) by (subst tail; unfold durability, ledger; calms).
  assert (Hres : hoare (λ _, True) tail (λ q _, q.1.1.1 = ref ∧ (q.1.2 = OK ↔ q.2 = None))).
  { subst tail. do 6 (eapply (hoare_bind _ _ (λ _ _, True)); [by intros ?|intros ?]).
    intros ? _. cbn. split; [done|]. destruct perr, a0; cbn; split; congruence. }
  specialize (Hres w1 I). destruct (Hcalm w1) as [Cf Cs _ _ Ct]. destruct (tail w1) as [[[[ref' pub] code] err] w2].
  cbn [fst snd] in *. destruct Hres as [-> Hc]. unfold parks. rewrite Cf, Cs, <- Ht. by split_and!; [|apply H1|apply H1| |].
Qed.

Lemma ledger_run {A B} (f : Ledger → A) (k : A → St (World E) B) w : (ledger f ≫= k) w = k (f (w_led w)) w.
Proof. done. Qed.

(** The runtime's answer decides. *)
Lemma park_follows id sync r s w :
  l_fibers (w_led w) !! id = Some r → fr_sessionKey r ≠ "" → l_sessions (w_led w) !! fr_sessionKey r = Some s → SName s ≠ "" →
  match LGrant (GrantUID (fr_fence r)) (w_led w) with Some g => Tenant g ≠ "" | None => True end →
  let '((ref, pub, code, err), w') := park others id sync w in
  (if ref ==? "" then l_fibers (w_led w') = l_fibers (w_led w) ∧ l_sessions (w_led w') = l_sessions (w_led w)
   else parks id (fr_sessionKey r) ref s (w_led w) (w_led w')) ∧
  EvPark id sync ref ∈ w_trace w' ∧ (code = OK ↔ err = None) ∧ (code = OK → ref ≠ "").
Proof using others_calm.
  intros Hr Hk Hs Hn Hg. unfold park.
  assert (Hfib : LFiber id (w_led w) = Some (fr_fence r)) by (unfold LFiber; by rewrite Hr).
  assert (Hsess : FiberSession id (w_led w) = SName s).
  { unfold FiberSession. rewrite Hr, bool_decide_eq_false_2 by done. by rewrite Hs. }
  rewrite ledger_run, Hfib. rewrite ledger_run, Hsess. rewrite (bool_decide_eq_false_2 (SName s = "")) by done.
  rewrite ledger_run.
  assert (Hten : match LGrant (GrantUID (fr_fence r)) (w_led w) with Some g => Tenant g ==? "" | None => false end = false).
  { destruct (LGrant _ _); [|done]. by apply bool_decide_eq_false_2. }
  rewrite Hten. cbv zeta. rewrite 5!St_bind_run.
  set (w1 := (holdSession others _ w).2). assert (H1 : calmly w w1) by apply calm_hold.
  destruct (env (e_Park id sync) w1) as [[ref perr] w2] eqn:Ep. cbn [fst snd].
  assert (H2 : calmly w1 w2) by (replace w2 with (env (e_Park id sync) w1).2 by (by rewrite Ep); apply calm_env).
  set (w3 := (log (EvPark id sync ref) w2).2). assert (H3 : calmly w2 w3) by apply calm_log.
  set (w4 := (meanwhile others w3).2). assert (H4 : calmly w3 w4) by apply others_calm.
  assert (H14 : calmly w w4) by (do 3 (etrans; [eassumption|]); done).
  assert (Hin : EvPark id sync ref ∈ w_trace w4).
  { destruct (ca_trace _ _ H4) as [tr ->]. apply elem_of_app. right. left. }
  clearbody w4. clear Ep H1 H2 H3 H4. destruct H14 as [Cf Cs _ _ _].
  case_bool_decide as Href.
  - subst ref. rewrite St_bind_run. cbn [fst snd mret St_ret]. destruct (calm_drop (sessionKey (GrantUID (fr_fence r)) (SName s)) w4) as [Df Ds _ _ Dt].
    rewrite (bool_decide_eq_true_2 ("" = "")) by done.
    split_and!; [by rewrite Df|by rewrite Ds|by eapply elem_of_suffix| |]; destruct perr as [e|]; try destruct (Is e ErrDeltaQuota); cbn; naive_solver.
  - rewrite St_bind_run. pose proof (parked_parks id ref (fr_fence r) perr r s w4) as Hp. rewrite Cf, Cs in Hp. specialize (Hp Hr Hk Hs).
    destruct (parked id ref (fr_fence r) perr w4) as [[[[ref' pub] code] err] w5]. destruct Hp as (-> & Hp & Ht & Hc).
    cbn [fst snd mret St_ret]. destruct (calm_drop (sessionKey (GrantUID (fr_fence r)) (SName s)) w5) as [Df Ds _ _ Dt].
    rewrite bool_decide_eq_false_2 by done. unfold parks in *. rewrite Df, Ds. rewrite Cf, Cs in Hp.
    split_and!; [apply Hp|apply Hp| |done|done]. eapply elem_of_suffix; [etrans; [exact Ht|exact Dt]|done].
Qed.
End Park.

(** A park follows the runtime.  For a running named session under a grant
    with a tenant, the fiber leaves the ledger and the session is parked with
    the delta exactly when the runtime returned a delta, even when the audit
    record, the publish or the runtime's own error makes Park report a failure;
    with no delta the fibers and sessions are untouched and Park reports an
    error.  The answer is OK only without an error and with a delta. *)
Theorem Park_follows_runtime (E : Type) (HE : Env E) (others : World E → World E) id sync r s w :
  (∀ w, calmly w (others w)) →
  l_fibers (w_led w) !! id = Some r → fr_sessionKey r ≠ "" → l_sessions (w_led w) !! fr_sessionKey r = Some s → SName s ≠ "" →
  match LGrant (GrantUID (fr_fence r)) (w_led w) with Some g => Tenant g ≠ "" | None => True end →
  let '((ref, code, err), w') := Park others id sync w in
  EvPark id sync ref ∈ w_trace w' ∧ (code = OK ↔ err = None) ∧ (code = OK → ref ≠ "") ∧
  (if ref ==? "" then l_fibers (w_led w') = l_fibers (w_led w) ∧ l_sessions (w_led w') = l_sessions (w_led w)
   else
     l_fibers (w_led w') = delete id (l_fibers (w_led w)) ∧
     l_sessions (w_led w') = <[fr_sessionKey r := mkSession (SName s) (SGrantUID s) StateParked (SFence s) zeroHandle ref]> (l_sessions (w_led w))).
Proof.
  intros Ho Hr Hk Hs Hn Hg. pose proof (park_follows others Ho id sync r s w Hr Hk Hs Hn Hg) as Hp.
  unfold Park. rewrite St_bind_run. destruct (park others id sync w) as [[[[ref pub] code] err] w']. cbn [fst snd mret St_ret].
  destruct Hp as (Hm & He & Hc & Ho'). by split_and!.
Qed.

(** With the auditor down the session is parked all the same. *)
Definition parkWorld : World box := mkWorld demo_l4 boxDown ∅ ∅ ∅ ∅ false false "" false [] [].

Lemma Park_follows_runtime_witness :
  (Park (E:=box) id "g-1/1/1" true parkWorld).1 = ("delta-g-1/1/1", Internal, Some (EOther "spool full")) ∧
  let '((ref, code, err), w') := Park (E:=box) id "g-1/1/1" true parkWorld in
  EvPark "g-1/1/1" true ref ∈ w_trace w' ∧ (code = OK ↔ err = None) ∧ (code = OK → ref ≠ "") ∧
  (if ref ==? "" then l_fibers (w_led w') = l_fibers (w_led parkWorld) ∧ l_sessions (w_led w') = l_sessions (w_led parkWorld)
   else
     l_fibers (w_led w') = delete "g-1/1/1" (l_fibers (w_led parkWorld)) ∧
     l_sessions (w_led w') = <["g-1/s" := mkSession "s" "g-1" StateParked demo_f zeroHandle ref]> (l_sessions (w_led parkWorld))).
Proof.
  split; [vm_compute; reflexivity|].
  apply (Park_follows_runtime box boxEnv id "g-1/1/1" true (mkRef "g-1" "g-1/s" demo_f 0)
    (mkSession "s" "g-1" StateRunning demo_f demo_h "") parkWorld); try (vm_compute; congruence).
  intros w. reflexivity.
Defined.

(** ** Admit *)

(** At a world whose ledger is given. *)
Ltac at_led := intros ?w ?Hl; match goal with Hl : on_led (eq _) _ |- _ => red in Hl; subst end.

Section Admit.
Context `{Env E} (others : World E → World E).

Lemma missCode_ne e w : (missCode (E:=E) e w).1 ≠ OK.
Proof.
  unfold missCode. destruct (_ || _); [done|]. rewrite St_bind_run. cbn [mret St_ret fst snd].
  by destruct (env e_Healthy w).1.
Qed.

(** The grants and fibers of [l], and at least its sessions. *)
Definition like (l l' : Ledger) : Prop :=
  l_heap l' = l_heap l ∧ l_grants l' = l_grants l ∧ l_next l' = l_next l ∧ l_epoch l' = l_epoch l ∧ l_fibers l' = l_fibers l ∧
  ∀ k x, l_sessions l !! k = Some x → l_sessions l' !! k = Some x.

(** The outcome of an admission from the ledger [l]. *)
Definition admit_outcome (g : Grant) (l : Ledger) (r : StatusCode * option error) (w : World E) : Prop :=
  match r with
  | (c, None) =>
      c = OK ∧ (∀ h, LGrant (UID g) l = Some h → changesFixedFields h g = false) ∧ like (AdmitGrant g l) (w_led w)
  | (c, Some _) => c ≠ OK ∧ w_led w = l
  end.

Lemma restore_frame s l : like l (RestoreParked s l).2.
Proof.
  unfold RestoreParked, restoreParked. destruct (l_grants l !! ss_GrantUID s); [|done].
  destruct (l_sessions l !! _) eqn:Ek; [done|]. unfold like. cbn. split_and!; try done.
  intros k x Hx. rewrite lookup_insert_ne; [done|]. congruence.
Qed.
Lemma like_trans l1 l2 l3 : like l1 l2 → like l2 l3 → like l1 l3.
Proof. unfold like. intros (? & ? & ? & ? & ? & ?) (? & ? & ? & ? & ? & ?). split_and!; try congruence. eauto. Qed.

Lemma restoreHeld_frame uid l : hoare (on_led (like l)) (restoreHeld (E:=E) uid) (λ _, on_led (like l)).
Proof.
  unfold restoreHeld. eapply hoare_bind; [apply hoare_keeps; keep|intros h].
  eapply hoare_bind; [apply hoare_keeps; keep|intros ?].
  destruct h as [h|]; [|apply hoare_keeps; keep]. induction (hg_sessions h) as [|s ss IH]; [by intros w|].
  simpl. eapply hoare_bind; [|intros ?; exact IH]. intros w Hl. change (like l (RestoreParked s (w_led w)).2).
  eapply like_trans; [exact Hl|apply restore_frame].
Qed.

(** A refusal: the ledger is as it was. *)
Lemma admit_refuses (g : Grant) (l : Ledger) (c : St (World E) StatusCode) (e : error) :
  keeps c → (∀ w, (c w).1 ≠ OK) → hoare (on_led (eq l)) (k ← c; mret (k, Some e)) (admit_outcome g l).
Proof. intros Hk Hne w Hl. rewrite St_bind_run. split; [apply Hne|]. symmetry. exact (hoare_keeps c (eq l) Hk w Hl). Qed.

(** From the template on. *)
Lemma admitTail_outcome g l fresh :
  (∀ h, LGrant (UID g) l = Some h → changesFixedFields h g = false) →
  hoare (on_led (eq l))
    (_ ← match e_Devices with
         | None => mret tt
         | Some _ =>
             old ← gets (λ w : World E, default zeroHeld (w_devices w !! UID g));
             _ ← modify (λ w, put_devices (<[UID g := fresh]> (w_devices w)) w);
             releaseHeld old
         end;
     _ ← led (AdmitGrant g);
     _ ← restoreHeld (UID g);
     _ ← kickRefill;
     epoch ← ledger l_epoch;
     _ ← audit BestEffort (event "admit" (mkFence (UID g) epoch 0) "" "" (TemplateDigest g +:+ channelDetail (hd_channel fresh)));
     _ ← persist; _ ← notify; mret (OK, None : option error)) (admit_outcome g l).
Proof.
  intros Hfix. eapply hoare_bind; [apply hoare_keeps; keep|intros ?].
  eapply (hoare_bind _ _ (λ _, on_led (like (AdmitGrant g l)))); [by at_led|intros ?].
  eapply hoare_bind; [apply restoreHeld_frame|intros ?].
  eapply hoare_bind; [apply hoare_keeps; keep|intros ?].
  eapply hoare_bind; [apply hoare_keeps; unfold ledger; keep|intros epoch].
  eapply hoare_bind; [apply hoare_keeps; keep|intros ?].
  eapply hoare_bind; [apply hoare_keeps; keep|intros ?].
  eapply hoare_bind; [apply hoare_keeps; keep|intros ?].
  by intros w Hl.
Qed.

Lemma admitSlot_outcome g l : hoare (on_led (eq l)) (admitSlot (E:=E) g) (admit_outcome g l).
Proof.
  unfold admitSlot. eapply hoare_bind; [apply hoare_keeps; keep|intros []].
  { apply admit_refuses; [keep|intros; apply missCode_ne]. }
  eapply hoare_bind; [apply hoare_ledger|intros held]. simpl.
  destruct (match held with Some h => changesFixedFields h g | None => false end) eqn:Ec.
  { intros w [Hl _]; red in Hl; by subst. }
  eapply (hoare_conseq (λ w, on_led (eq l) w ∧ held = LGrant (UID g) l)); [|intros w [Hl ->]; red in Hl; by subst|done].
  apply hoare_pure. intros ->.
  assert (Hfix : ∀ h, LGrant (UID g) l = Some h → changesFixedFields h g = false) by (intros h Hh; by rewrite Hh in Ec).
  eapply hoare_bind; [apply hoare_keeps; keep|intros [fresh|e]].
  2: { apply admit_refuses; [keep|intros; apply missCode_ne]. }
  eapply hoare_bind; [apply hoare_keeps; keep|intros perr].
  eapply hoare_bind; [apply hoare_keeps; keep|intros ?].
  destruct perr as [e|].
  { eapply hoare_bind; [apply hoare_keeps; keep|intros ?]. apply admit_refuses; [keep|intros; apply missCode_ne]. }
  eapply hoare_bind; [apply hoare_keeps; unfold asks; keep|intros offer].
  destruct (if (0 <? DBytes (GDeviceBudget g))%N then _ else _) as [e|]; [|by apply admitTail_outcome].
  eapply hoare_bind; [apply hoare_keeps; keep|intros ?]. by at_led.
Qed.

Lemma Admit_outcome g l : hoare (on_led (eq l)) (Admit others [] g) (admit_outcome g l).
Proof.
  unfold Admit, asks. destruct (_ <? _)%Z; [by at_led|].
  eapply hoare_bind; [apply hoare_keeps; keep|intros iso]. destruct (_ && _); [by at_led|].
  eapply hoare_bind; [apply hoare_keeps; keep|intros ho]. destruct (_ && _); [by at_led|].
  eapply hoare_bind; [apply hoare_keeps; keep|intros ws]. destruct (_ && _); [by at_led|].
  eapply hoare_bind; [apply hoare_keeps; keep|intros now].
  destruct (Expired g now); [apply admit_refuses; [keep|intros; apply missCode_ne]|].
  eapply (hoare_bind _ _ (λ r w, on_led (eq l) w ∧ r = None)); [by intros w|intros r].
  apply hoare_pure. intros ->. apply admitSlot_outcome.
Qed.

Lemma LGrant_AdmitGrant g l uid :
  ledger_wf l → LGrant uid (AdmitGrant g l) = if decide (uid = UID g) then Some g else LGrant uid l.
Proof.
  intros Hwf. unfold LGrant, AdmitGrant. destruct (entryOf l (UID g)) as [[a e]|] eqn:Ee.
  - rewrite (entryOf_set_heap l (UID g) a e _ uid Hwf Ee). by destruct (decide (uid = UID g)).
  - unfold entryOf at 1. cbn. destruct (decide (uid = UID g)) as [->|Hne].
    + rewrite lookup_insert_eq. cbn. by rewrite lookup_insert_eq.
    + rewrite lookup_insert_ne by done. unfold entryOf. destruct (l_grants l !! uid) as [a|] eqn:Ha; [|done]. cbn.
      destruct (wf_grant _ Hwf _ _ Ha) as (e & He & _). pose proof (wf_next _ Hwf _ _ He).
      rewrite lookup_insert_ne by lia. by rewrite He.
Qed.

(** What the deny-list answers when Admit asks it, from the environment [e] Admit
    starts in: the clock is read for the lease, then again for the question. *)
Definition deniedNow (d : DenyList E) (g : Grant) (e : E) : bool :=
  let n1 := e_Now e in let n2 := e_Now n1.2 in (Denied d (UID g) (LeaseExpiry g) n2.1 n2.2).1.

(** A denied UID is refused. *)
Lemma Admit_denied d g w : e_Revoked = Some d → deniedNow d g (w_env w) = true → is_Some (Admit others [] g w).1.2.
Proof.
  intros Ed Hd. unfold Admit, asks. destruct (_ <? _)%Z; [by eexists|].
  rewrite St_bind_run. cbn [gets fst snd]. destruct (_ && _); [by eexists|].
  rewrite St_bind_run. cbn [gets fst snd]. destruct (_ && _); [by eexists|].
  rewrite St_bind_run. cbn [gets fst snd]. destruct (_ && _); [by eexists|].
  rewrite St_bind_run. unfold env at 1. cbn [fst snd]. destruct (Expired g _); [by eexists|].
  rewrite St_bind_run. cbn [admitWait mret St_ret fst snd]. unfold admitSlot. rewrite Ed, St_bind_run.
  match goal with |- context[if ?x.1 then _ else _] => assert (x.1 = true) as -> by exact Hd end. by eexists.
Qed.
End Admit.

(** C31: an admission is all or nothing.  With no other admission of the UID
    under way, Admit answers OK and the ledger holds exactly the delivered
    grant, having refused any change of the fixed fields, with every other
    grant, every fiber and every session as they were (sessions held since boot
    may join); or it answers an error and the ledger is untouched.  Where the
    deny-list, asked at this admission, denies the UID, the answer is an
    error. *)
Theorem Admit_all_or_nothing (E : Type) (HE : Env E) (others : World E → World E) g w :
  ledger_wf (w_led w) →
  let '((c, err), w') := Admit others [] g w in
  match err with
  | None =>
      c = OK ∧ (∀ uid, LGrant uid (w_led w') = if decide (uid = UID g) then Some g else LGrant uid (w_led w)) ∧
      (∀ h, LGrant (UID g) (w_led w) = Some h → changesFixedFields h g = false) ∧
      l_fibers (w_led w') = l_fibers (w_led w) ∧
      (∀ k s, l_sessions (w_led w) !! k = Some s → l_sessions (w_led w') !! k = Some s)
  | Some _ => c ≠ OK ∧ w_led w' = w_led w
  end ∧
  (∀ d, e_Revoked = Some d → deniedNow d g (w_env w) = true → is_Some err).
Proof.
  intros Hwf. pose proof (Admit_outcome others g (w_led w) w eq_refl) as Ho.
  pose proof (λ d Ed Hd, Admit_denied others d g w Ed Hd) as Hd.
  destruct (Admit others [] g w) as [[c [e|]] w']; cbn [fst snd] in *; (split; [|exact Hd]); [exact Ho|].
  destruct Ho as (-> & Hfix & Hh & Hg & _ & _ & Hf & Hs). split_and!; [done| |done| |].
  - intros uid. rewrite <- LGrant_AdmitGrant by done. unfold LGrant. by rewrite (entryOf_same (AdmitGrant g (w_led w))).
  - rewrite Hf. by autorewrite with ledger.
  - intros k s Hk. apply Hs. by autorewrite with ledger.
Qed.

(** The empty home whose deny-list holds the grant's UID. *)
Definition deniedWorld : World box := put_env (mkBox (bx_now box0) [] false (bx_tokens box0) ["g-1"] 1) world0.
Lemma Admit_all_or_nothing_witness :
  LGrant "g-1" (w_led (Admit (E:=box) id [] sampleGrant world0).2) = Some sampleGrant ∧
  is_Some (Admit (E:=box) id [] sampleGrant deniedWorld).1.2 ∧ w_led (Admit (E:=box) id [] sampleGrant deniedWorld).2 = w_led world0.
Proof.
  split.
  - generalize (Admit_all_or_nothing box boxEnv id sampleGrant world0 (wf_NewLedger 1)).
    assert ((Admit (E:=box) id [] sampleGrant world0).1.2 = None) as Hn by (vm_compute; reflexivity).
    destruct (Admit (E:=box) id [] sampleGrant world0) as [[c err] w']. cbn [fst snd] in *. subst err. intros [(_ & Hg & _) _].
    rewrite (Hg "g-1"). by rewrite decide_True.
  - generalize (Admit_all_or_nothing box boxEnv id sampleGrant deniedWorld (wf_NewLedger 1)).
    destruct (Admit (E:=box) id [] sampleGrant deniedWorld) as [[c err] w']. cbn [fst snd]. intros [Ho Hd].
    destruct (Hd _ eq_refl) as [x ->]; [vm_compute; reflexivity|]. split; [by eexists|]. exact (proj2 Ho).
Defined.

(** ** Drain returns, and accounts for every fiber it listed *)

(** Only the fiber [id] may leave, and the same grants are admitted. *)
Record touches (id : string) (l l' : Ledger) : Prop := {
  to_other : ∀ j, j ≠ id → l_fibers l' !! j = l_fibers l !! j;
  to_own : l_fibers l' !! id = None ∨ l_fibers l' !! id = l_fibers l !! id;
  to_grants : ∀ uid, is_Some (entryOf l' uid) ↔ is_Some (entryOf l uid);
}.
#[export] Instance touches_preorder id : PreOrder (touches id).
Proof.
  split; [by intros l; split; auto|]. intros l1 l2 l3 [A1 B1 C1] [A2 B2 C2]. split.
  - intros j Hj. by rewrite A2, A1.
  - destruct B2 as [?| ->]; auto.
  - intros uid. by rewrite C2.
Qed.

Lemma touches_same id l l' :
  l_fibers l' = l_fibers l → l_heap l' = l_heap l → l_grants l' = l_grants l → touches id l l'.
Proof. intros E1 E2 E3. split; rewrite ?E1; auto. intros uid. by rewrite (entryOf_same l l'). Qed.

Lemma is_Some_entryOf l uid :
  is_Some (entryOf l uid) ↔ ∃ a, l_grants l !! uid = Some a ∧ is_Some (l_heap l !! a).
Proof.
  split.
  - intros [[a e] [Ha He]%entryOf_Some]. exists a. eauto.
  - intros (a & Ha & e & He). exists (a, e). by apply entryOf_Some.
Qed.

Lemma touches_freeSlot id uid l : touches id l (freeSlot uid l).
Proof.
  destruct (freeSlot_maps uid l) as [Ef _]. split; rewrite ?Ef; auto. intros u. rewrite !is_Some_entryOf.
  unfold freeSlot. destruct (entryOf l uid) as [[a e]|] eqn:Ee; [|done]. cbn.
  apply entryOf_Some in Ee as [_ He]. split; intros (a' & Ha & Hs); exists a'; (split; [done|]);
    destruct (decide (a' = a)) as [->|Hne]; rewrite ?lookup_insert_eq, ?lookup_insert_ne in * by done; eauto.
Qed.

Lemma touches_leave id uid l : touches id l (freeSlot uid (set_fibers (delete id (l_fibers l)) l)).
Proof.
  etrans; [|apply touches_freeSlot]. split; cbn; [|left; apply lookup_delete_eq|done].
  intros j Hj. by rewrite lookup_delete_ne.
Qed.

Lemma touches_OnRelease id l : touches id l (OnRelease id l).2.
Proof.
  unfold OnRelease, onGone. destruct (l_fibers l !! id) as [r|]; [|reflexivity].
  destruct (fr_sessionKey r <>? ""); [|apply touches_leave].
  destruct (match l_sessions _ !! _ with Some _ => _ | None => _ end). cbn.
  etrans; [apply touches_leave|]. by apply touches_same.
Qed.
Lemma touches_OnPark id ref l : touches id l (OnPark id ref l).2.
Proof.
  unfold OnPark. destruct (l_fibers l !! id) as [r|]; [|reflexivity].
  destruct (fr_sessionKey r <>? ""); [|apply touches_leave].
  destruct (l_sessions _ !! _); [|apply touches_leave].
  etrans; [apply touches_leave|]. by apply touches_same.
Qed.
Lemma touches_gates id key l :
  touches id l (gateEnter key l) ∧ touches id l (gateUnlock key l) ∧ touches id l (gateDrop key l) ∧
  ∀ l', gateLock key l = Some l' → touches id l l'.
Proof.
  split_and!; [by apply touches_same| | |].
  - unfold gateUnlock. destruct (l_perSession l !! key); by apply touches_same.
  - unfold gateDrop. destruct (l_perSession l !! key); [|reflexivity]. cbv zeta. by case_match; apply touches_same.
  - unfold gateLock. intros l'. destruct (l_perSession l !! key) as [[[] n]|]; [done| |done].
    intros [= <-]. by apply touches_same.
Qed.

(** ** One fiber *)

Section One.
Context `{Env E} (others : World E → World E).
Local Notation M := (St (World E)).
Definition touch {A} (id : string) (c : M A) : Prop := ∀ w, touches id (w_led w) (w_led (c w).2).

Lemma touch_bind {A B} id (c : M A) (k : A → M B) : touch id c → (∀ a, touch id (k a)) → touch id (c ≫= k).
Proof. intros Hc Hk w. etrans; [apply Hc|apply Hk]. Qed.
Lemma touch_keeps {A} id (c : M A) : keeps c → touch id c.
Proof. intros Hc w. by rewrite (proj1 (Hc w)). Qed.
Lemma touch_log id e : touch id (log (E:=E) e).
Proof. by intros w. Qed.
Lemma touch_release_led id : touch id (ledR (E:=E) (OnRelease id)).
Proof. intros w. apply touches_OnRelease. Qed.
Lemma touch_park_led id ref : touch id (ledR (E:=E) (OnPark id ref)).
Proof. intros w. apply touches_OnPark. Qed.
Lemma touch_drop id key : touch id (releaseHold (E:=E) key).
Proof. apply touch_bind; [|intros ?]; intros w; apply touches_gates. Qed.

Hypothesis others_keep : ∀ w, w_led (others w) = w_led w.
Lemma touch_others id : touch id (meanwhile others).
Proof using others_keep. intros w. cbn. by rewrite others_keep. Qed.
Lemma touch_hold id key : touch id (holdSession others key).
Proof using others_keep.
  unfold holdSession. apply touch_bind; [intros w; apply touches_gates|intros ?].
  apply touch_bind; [apply touch_others|intros ?]. intros w. rewrite St_bind_run. cbn [ledger gets fst snd].
  unfold compose. destruct (gateLock key (w_led w)) as [l'|] eqn:El; [|reflexivity].
  by apply (touches_gates id key (w_led w)).
Qed.
Lemma touch_release id j d : touch id (release others j d).
Proof using others_keep.
  unfold release. apply touch_bind; [apply touch_keeps; keep|intros ?].
  apply touch_bind; [apply touch_log|intros ?]. apply touch_bind; [apply touch_others|intros ?].
  apply touch_keeps; keep.
Qed.
End One.

Create HintDb touch discriminated.
#[export] Hint Resolve touch_log touch_release_led touch_park_led touch_drop touch_others touch_hold touch_release : touch.
Ltac touching :=
  repeat first
    [ solve [auto with touch]
    | solve [apply touch_keeps; unfold ledger; keep]
    | apply touch_bind; [|intros ?]
    | match goal with |- touch _ (match ?x with _ => _ end) => destruct x end
    | match goal with |- touch _ (let _ := _ in _) => cbv zeta end ].

(** What a report counts. *)
Definition total (r : DrainReport) : Z := (dp_Parked r + dp_Shed r + dp_Failed r + dp_Left r)%Z.

Section Verbs.
Context `{Env E} (others : World E → World E).
Hypothesis others_keep : ∀ w, w_led (others w) = w_led w.

Lemma touch_Release id d : touch id (Release others id d).
Proof using others_keep. unfold Release. touching. Qed.
Lemma touch_park id sync : touch id (park others id sync).
Proof using others_keep. unfold park, parked. touching. Qed.
Lemma touch_drainOne f : touch (FID f) (drainOne others f).
Proof using others_keep. unfold drainOne. touching. Qed.

(** The verbs answer NotFound only for a fiber that is not in the ledger. *)
Lemma Release_found id d w : is_Some (l_fibers (w_led w) !! id) → (Release others id d w).1.1 ≠ NotFound.
Proof.
  intros [r Hr]. unfold Release. rewrite ledger_run. unfold LFiber. rewrite Hr. cbn [fmap option_fmap option_map].
  rewrite St_bind_run. destruct (release others id d w) as [[e|] w1]; cbn [fst snd]; [done|].
  rewrite 5!St_bind_run. cbn [mret St_ret fst snd]. by destruct (audit _ _ _).1.
Qed.

Lemma parked_code id ref fence perr w : (parked (E:=E) id ref fence perr w).1.1.2 ≠ NotFound.
Proof.
  unfold parked. rewrite St_bind_run. destruct (ledR (OnPark id ref) w).1 as [session superseded].
  rewrite 6!St_bind_run. cbn [mret St_ret fst snd]. destruct perr; [done|].
  match goal with |- context [audit ?d ?x ?y] => by destruct (audit d x y).1 end.
Qed.

Lemma park_found id sync w : is_Some (l_fibers (w_led w) !! id) → (park others id sync w).1.1.2 ≠ NotFound.
Proof.
  intros [r Hr]. unfold park. rewrite ledger_run. unfold LFiber. rewrite Hr. cbn [fmap option_fmap option_map].
  rewrite ledger_run. destruct (FiberSession id (w_led w) ==? ""); [done|].
  rewrite ledger_run. destruct (match LGrant _ _ with Some _ => _ | None => _ end); [done|]. cbv zeta.
  rewrite 6!St_bind_run. cbn [mret St_ret fst snd]. set (p := (env (e_Park id sync) _).1). set (w1 := (meanwhile others _).2).
  destruct (p.1 ==? ""); [|apply parked_code]. cbn [fst snd mret St_ret]. clearbody p w1. destruct p as [ref [e|]]; cbn [fst snd]; [by destruct (Is e ErrDeltaQuota)|done].
Qed.

(** Each listed fiber is counted once. *)
Lemma drainOne_counts f w :
  is_Some (l_fibers (w_led w) !! FID f) →
  total (drainOne others f w).1 = 1%Z ∧ dp_Left (drainOne others f w).1 = 0%Z ∧
  (0 ≤ dp_Published (drainOne others f w).1 ≤ dp_Parked (drainOne others f w).1)%Z.
Proof.
  intros Hin. unfold drainOne. destruct (FSession f ==? "").
  - rewrite St_bind_run. pose proof (Release_found (FID f) false w Hin) as Hne.
    destruct (Release others (FID f) false w) as [[c e] w1]. cbn [fst snd] in *.
    destruct c; try done; rewrite ledger_run; by destruct (LFiber (FID f) (w_led w1)).
  - rewrite St_bind_run. pose proof (park_found (FID f) true w Hin) as Hne.
    destruct (park others (FID f) true w) as [[[[ref pub] c] e] w1]. cbn [fst snd mret St_ret] in *.
    rewrite bool_decide_eq_false_2 by done. destruct (ref ==? ""); [done|]. by destruct pub.
Qed.
End Verbs.

(** ** The list of a drain *)

Definition listed (tried : gset string) (l : Ledger) (id : string) : Prop :=
  id ∉ tried ∧ ∃ r, l_fibers l !! id = Some r ∧ is_Some (entryOf l (fr_grantUID r)).

Lemma all_elem l id :
  id ∈ FID <$> (Statuses l ≫= λ st, FibersOf (StGrantUID st) l) ↔
  ∃ r, l_fibers l !! id = Some r ∧ is_Some (entryOf l (fr_grantUID r)).
Proof.
  rewrite list_elem_of_fmap. split.
  - intros (f & -> & Hf). apply list_elem_of_bind in Hf as (st & Hf & Hst).
    apply (list_elem_of_fmap_2 FID), FibersOf_elem in Hf as (r & Hr & HU).
    apply Statuses_elem in Hst as (a & e & He & _). exists r. split; [done|]. rewrite HU. eauto.
  - intros (r & Hr & [a e] & He).
    assert (id ∈ FID <$> FibersOf (fr_grantUID r) l) as (f & -> & Hf)%list_elem_of_fmap by (apply FibersOf_elem; eauto).
    exists f. split; [done|]. apply list_elem_of_bind. exists (statusOf l (fr_grantUID r) e). split; [done|].
    apply Statuses_elem. eauto.
Qed.

Lemma bind_NoDup l sts :
  NoDup (StGrantUID <$> sts) → NoDup (FID <$> (sts ≫= λ st, FibersOf (StGrantUID st) l)).
Proof.
  induction sts as [|st sts IH]; [constructor|]. cbn. intros [Hn Hd]%NoDup_cons.
  rewrite fmap_app. apply NoDup_app. split_and!; [apply FibersOf_NoDup| |by apply IH].
  intros id (r & Hr & HU)%FibersOf_elem Hin. apply Hn. apply list_elem_of_fmap in Hin as (f & -> & Hf).
  apply list_elem_of_bind in Hf as (st' & Hf & Hst').
  apply (list_elem_of_fmap_2 FID), FibersOf_elem in Hf as (r' & Hr' & HU'). simplify_eq.
  apply list_elem_of_fmap. exists st'. split; [congruence|done].
Qed.

Lemma drainList_perm tried l :
  drainList tried l ≡ₚ filter (λ f, FID f ∉ tried) (Statuses l ≫= λ st, FibersOf (StGrantUID st) l).
Proof.
  unfold drainList. set (xs := filter (λ f, FID f ∉ tried) _). clearbody xs.
  induction xs as [|x xs IH]; [done|]. rewrite !filter_cons.
  destruct (decide (FSession x = "")) as [e|e].
  - rewrite decide_False by naive_solver. rewrite <- Permutation_middle. by rewrite IH.
  - rewrite decide_True by done. cbn. by rewrite IH.
Qed.

Lemma drainList_elem tried l id : id ∈ FID <$> drainList tried l ↔ listed tried l id.
Proof.
  rewrite drainList_perm, list_elem_of_fmap. unfold listed. rewrite <- all_elem, list_elem_of_fmap. split.
  - intros (f & -> & [Hn Hf]%list_elem_of_filter). eauto.
  - intros (Hn & f & -> & Hf). exists f. split; [done|]. by apply list_elem_of_filter.
Qed.

Lemma drainList_NoDup tried l : NoDup (FID <$> drainList tried l).
Proof.
  rewrite drainList_perm. eapply sublist_NoDup; [apply (bind_NoDup l (Statuses l)), Statuses_NoDup|].
  apply fmap_sublist, sublist_filter.
Qed.

(** ** The whole drain *)

Section Drain.
Context `{Env E} (others : World E → World E).
Hypothesis others_keep : ∀ w, w_led (others w) = w_led w.

(** Fibers only leave, and the same grants are admitted. *)
Definition shrunk (l l' : Ledger) : Prop :=
  l_fibers l' ⊆ l_fibers l ∧ ∀ uid, is_Some (entryOf l' uid) ↔ is_Some (entryOf l uid).
Lemma touches_shrunk id l l' : touches id l l' → shrunk l l'.
Proof.
  intros [A B C]. split; [|done]. apply map_subseteq_spec. intros j r Hj.
  destruct (decide (j = id)) as [->|Hne]; [destruct B as [B|B]; congruence|by rewrite <- A].
Qed.
Lemma shrunk_trans l1 l2 l3 : shrunk l1 l2 → shrunk l2 l3 → shrunk l1 l3.
Proof. intros [A1 B1] [A2 B2]. split; [by etrans|]. intros uid. by rewrite B2. Qed.

Lemma drainBatch_counts batch : ∀ ends rep w,
  NoDup (FID <$> batch) → (∀ id, id ∈ FID <$> batch → is_Some (l_fibers (w_led w) !! id)) →
  let '(rep', w') := drainBatch others ends batch rep w in
  total rep' = (total rep + Z.of_nat (length batch))%Z ∧
  dp_Left rep' = (dp_Left rep + Z.of_nat (length batch - ends))%Z ∧
  (dp_Parked rep - dp_Published rep ≤ dp_Parked rep' - dp_Published rep')%Z ∧
  shrunk (w_led w) (w_led w').
Proof using others_keep.
  induction batch as [|f batch IH]; intros [|ends] rep w Hnd Hin; try (unfold total; cbn; split_and!; [lia|lia|lia|by split]).
  cbn [fmap list_fmap] in Hnd. apply NoDup_cons in Hnd as [Hf Hnd].
  change (drainBatch others (S ends) (f :: batch) rep w) with
    (drainBatch others ends batch (drain_add rep (drainOne others f w).1) (drainOne others f w).2).
  destruct (drainOne_counts others f w) as (T1 & L1 & P1); [apply Hin; left|].
  pose proof (touch_drainOne others others_keep f w) as Ht. destruct (drainOne others f w) as [o w1]. cbn [fst snd] in *.
  specialize (IH ends (drain_add rep o) w1 Hnd). destruct (drainBatch others ends batch (drain_add rep o) w1) as [rep' w'].
  destruct IH as (T & L & P & S).
  { intros id Hid. rewrite (to_other _ _ _ Ht); [apply Hin; by right|]. by intros ->. }
  unfold total, drain_add in *. cbn in *. split_and!; [lia|lia|lia|].
  eapply shrunk_trans; [by eapply touches_shrunk|done].
Qed.

(** After one round every listed fiber has been tried. *)
Lemma drained_empty l l' : shrunk l l' → drainList (∅ ∪ list_to_set (FID <$> drainList ∅ l)) l' = [].
Proof.
  intros [Hf He]. destruct (drainList _ l') as [|f fs] eqn:El; [done|]. exfalso.
  assert (Hin : FID f ∈ FID <$> drainList (∅ ∪ list_to_set (FID <$> drainList ∅ l)) l') by (rewrite El; left).
  apply drainList_elem in Hin as (Hn & r & Hr & Hg). apply Hn. apply elem_of_union_r, elem_of_list_to_set, drainList_elem.
  split; [apply not_elem_of_empty|]. exists r. split; [by eapply lookup_weaken|by apply He].
Qed.

Lemma drainLoop_counts fuel ends w :
  (2 ≤ fuel)%nat →
  match (drainLoop others fuel ends ∅ zeroDrain w).1 with
  | Some rep =>
      total rep = Z.of_nat (length (drainList ∅ (w_led w))) ∧ dp_Left rep = Z.of_nat (length (drainList ∅ (w_led w)) - ends) ∧
      (dp_Published rep ≤ dp_Parked rep)%Z
  | None => False
  end.
Proof using others_keep.
  destruct fuel as [|[|fuel]]; [lia|lia|]. intros _. set (n := S fuel). cbn [drainLoop]. subst n. rewrite ledger_run.
  pose proof (drained_empty (w_led w)) as Hempty.
  pose proof (drainBatch_counts (drainList ∅ (w_led w)) ends zeroDrain w (drainList_NoDup ∅ (w_led w))) as Hb.
  assert (Hin : ∀ id, id ∈ FID <$> drainList ∅ (w_led w) → is_Some (l_fibers (w_led w) !! id)).
  { intros id (_ & r & Hr & _)%drainList_elem. eauto. }
  specialize (Hb Hin). destruct (drainList ∅ (w_led w)) as [|f batch] eqn:El; [done|].
  case_bool_decide as He; [subst ends; unfold total; cbn; lia|].
  rewrite St_bind_run. destruct (drainBatch others ends (f :: batch) zeroDrain w) as [rep w1].
  destruct Hb as (T & L & P & S). cbn [fst snd drainLoop]. rewrite ledger_run, (Hempty _ S).
  cbn [mret St_ret fst snd]. unfold total, zeroDrain in *. cbn [dp_Parked dp_Published dp_Shed dp_Failed dp_Left] in *. lia.
Qed.
End Drain.

(** A drain accounts for every fiber.  When nothing else moves the ledger,
    Drain draws up its list once, returns, and its report counts each fiber of
    an admitted grant exactly once, as parked, shed, failed or left; what it
    leaves is what was not started before the context ended, and it publishes
    at most what it parks. *)
Theorem Drain_accounts (E : Type) (HE : Env E) (others : World E → World E) fuel ends w :
  (∀ w, w_led (others w) = w_led w) → (2 ≤ fuel)%nat →
  ∃ rep, (Drain others fuel ends w).1 = Some rep ∧
    (dp_Parked rep + dp_Shed rep + dp_Failed rep + dp_Left rep = Z.of_nat (length (drainList ∅ (w_led w))))%Z ∧
    dp_Left rep = Z.of_nat (length (drainList ∅ (w_led w)) - ends) ∧ (dp_Published rep ≤ dp_Parked rep)%Z ∧
    NoDup (FID <$> drainList ∅ (w_led w)) ∧
    ∀ id, id ∈ FID <$> drainList ∅ (w_led w) ↔ ∃ r, l_fibers (w_led w) !! id = Some r ∧ is_Some (LGrant (fr_grantUID r) (w_led w)).
Proof.
  intros Ho Hfuel. pose proof (drainLoop_counts others Ho fuel ends (put_draining true w) Hfuel) as Hl.
  unfold Drain. rewrite 4!St_bind_run. cbn [modify fst snd mret St_ret].
  destruct (drainLoop others fuel ends ∅ zeroDrain (put_draining true w)) as [[rep|] w1]; cbn [fst snd] in *; [|done].
  exists rep. destruct Hl as (T & L & P). split_and!; [done|exact T|exact L|exact P|apply drainList_NoDup|].
  intros id. rewrite drainList_elem. unfold listed, LGrant. setoid_rewrite fmap_is_Some. set_solver.
Qed.

Lemma Drain_accounts_witness :
  (Drain (E:=box) id 2 2 world2).1 = Some (mkDrainReport 1 0 1 0 0) ∧
  ∃ rep, (Drain (E:=box) id 2 2 world2).1 = Some rep ∧
    (dp_Parked rep + dp_Shed rep + dp_Failed rep + dp_Left rep = Z.of_nat (length (drainList ∅ (w_led world2))))%Z ∧
    dp_Left rep = Z.of_nat (length (drainList ∅ (w_led world2)) - 2) ∧ (dp_Published rep ≤ dp_Parked rep)%Z ∧
    NoDup (FID <$> drainList ∅ (w_led world2)) ∧
    ∀ id, id ∈ FID <$> drainList ∅ (w_led world2) ↔ ∃ r, l_fibers (w_led world2) !! id = Some r ∧ is_Some (LGrant (fr_grantUID r) (w_led world2)).
Proof.
  split; [vm_compute; reflexivity|]. apply (Drain_accounts box boxEnv id 2 2 world2); [done|lia].
Defined.

(** ** Termination while the home goes on *)

Section Shrinks.
Context `{Env E} (F : gset string).
Local Notation M := (St (World E)).
(** The fibers stay within [F]. *)
Definition within (w : World E) : Prop := dom (l_fibers (w_led w)) ⊆ F.
Definition shrinks {A} (c : M A) : Prop := hoare within c (λ _, within).
Lemma shrinks_bind {A B} (c : M A) (k : A → M B) : shrinks c → (∀ a, shrinks (k a)) → shrinks (c ≫= k).
Proof. intros Hc Hk. eapply hoare_bind; [apply Hc|apply Hk]. Qed.
Lemma shrinks_touch {A} id (c : M A) : touch id c → shrinks c.
Proof.
  intros Hc w Hw. unfold within in *. destruct (touches_shrunk id _ _ (Hc w)) as [Hs _].
  etrans; [apply subseteq_dom, Hs|done].
Qed.
End Shrinks.
Ltac shrinking id :=
  repeat first
    [ assumption
    | match goal with Hk : ∀ _, shrinks _ _ |- _ => apply Hk end
    | solve [apply (shrinks_touch _ id); auto with touch]
    | solve [apply (shrinks_touch _ id), touch_keeps; unfold ledger; keep]
    | apply shrinks_bind; [|intros ?]
    | match goal with |- shrinks _ (match ?x with _ => _ end) => destruct x end
    | match goal with |- shrinks _ (let _ := _ in _) => cbv zeta end ].

Section Terminates.
Context `{Env E} (others : World E → World E) (F : gset string).
Hypothesis no_births : shrinks F (meanwhile others).

Lemma shrinks_release id d : shrinks F (release others id d).
Proof using no_births. unfold release. shrinking id. Qed.
Lemma shrinks_Release id d : shrinks F (Release others id d).
Proof using no_births. pose proof (shrinks_release id d). unfold Release. shrinking id. Qed.
Lemma shrinks_hold key : shrinks F (holdSession others key).
Proof using no_births.
  unfold holdSession. apply shrinks_bind; [apply (shrinks_touch _ ""); intros w; apply touches_gates|intros ?].
  apply shrinks_bind; [done|intros ?]. apply (shrinks_touch _ ""). intros w. rewrite St_bind_run. cbn [ledger gets fst snd].
  unfold compose. destruct (gateLock key (w_led w)) as [l'|] eqn:El; [|reflexivity].
  by apply (touches_gates "" key (w_led w)).
Qed.
Lemma shrinks_park id sync : shrinks F (park others id sync).
Proof using no_births.
  pose proof shrinks_hold as Hold. unfold park, parked. shrinking id.
Qed.
Lemma shrinks_drainOne f : shrinks F (drainOne others f).
Proof using no_births.
  pose proof (shrinks_Release (FID f) false). pose proof (shrinks_park (FID f) true). unfold drainOne. shrinking (FID f).
Qed.
Lemma shrinks_drainBatch batch : ∀ ends rep, shrinks F (drainBatch others ends batch rep).
Proof using no_births.
  induction batch as [|f batch IH]; intros [|ends] rep; try by intros w.
  cbn [drainBatch]. apply shrinks_bind; [apply shrinks_drainOne|intros o]. apply IH.
Qed.

(** Every round tries a fiber of [F] that was not tried before. *)
Lemma drainLoop_returns fuel : ∀ ends tried rep w,
  within F w → (size (F ∖ tried) < fuel)%nat → is_Some (drainLoop others fuel ends tried rep w).1.
Proof using no_births.
  induction fuel as [|fuel IH]; intros ends tried rep w Hw Hsz; [lia|]. cbn [drainLoop]. rewrite ledger_run.
  destruct (drainList tried (w_led w)) as [|f batch] eqn:El; [by eexists|].
  destruct (bool_decide (ends = 0)); [by eexists|]. rewrite St_bind_run. apply IH.
  - by apply shrinks_drainBatch.
  - assert (Hin : FID f ∈ FID <$> drainList tried (w_led w)) by (rewrite El; left).
    apply drainList_elem in Hin as (Hn & r & Hr & _).
    assert (HF : FID f ∈ F) by (apply Hw, elem_of_dom; eauto).
    assert (F ∖ (tried ∪ list_to_set (FID <$> f :: batch)) ⊂ F ∖ tried) as Hs%subset_size; [|lia].
    split; [set_solver|]. intros Hsub. specialize (Hsub (FID f)). rewrite elem_of_difference in Hsub. set_solver.
Qed.
End Terminates.

(** C32: a drain ends.  However the rest of the home goes on meanwhile, exits
    included, as long as it starts no fiber (a draining home does not), Drain
    returns after at most one round more than there are fibers: each round
    tries one that was not tried before. *)
Theorem Drain_terminates (E : Type) (HE : Env E) (others : World E → World E) fuel ends w :
  (∀ w, dom (l_fibers (w_led (others w))) ⊆ dom (l_fibers (w_led w))) →
  (size (l_fibers (w_led w)) < fuel)%nat →
  is_Some (Drain others fuel ends w).1.
Proof.
  intros Ho Hf. unfold Drain. rewrite 4!St_bind_run. cbn [modify fst snd mret St_ret].
  apply (drainLoop_returns others (dom (l_fibers (w_led w)))); [|unfold within; reflexivity|].
  - intros w' Hw'. unfold within in *. etrans; [apply Ho|done].
  - rewrite difference_empty_L, size_dom. done.
Qed.

Lemma Drain_terminates_witness :
  is_Some (Drain (E:=box) (run (OnExit (mkFiberExit "g-1/1/2" "oom" ""))) 3 5 world2).1.
Proof.
  apply (Drain_terminates box boxEnv (run (OnExit (mkFiberExit "g-1/1/2" "oom" ""))) 3 5 world2).
  - intros w. unfold run, OnExit. rewrite St_bind_run. change (fx_FiberID _) with "g-1/1/2".
    pose proof (fibers_OnRelease "g-1/1/2" (w_led w)) as Hf. unfold OnRelease in Hf.
    cbn [ledR fst snd]. unfold OnFiberExit. destruct (onGone "g-1/1/2" (w_led w)) as [[[[fence s] ref]|] l'] eqn:Eg; cbn [fst snd] in *.
    + assert (Hk : keeps (E:=box) (_ ← (if ref <>? "" then discardDelta fence s ref else mret tt); d ← durability (GrantUID fence);
        _ ← audit d (event "oom" fence s "g-1/1/2" ""); notify)) by keep.
      pose proof (proj1 (Hk (put_led l' w))) as El.
      match goal with |- dom (l_fibers (w_led ?x)) ⊆ _ => change (w_led x) with (w_led ((_ ← (if ref <>? "" then discardDelta fence s ref else mret tt); d ← durability (E:=box) (GrantUID fence);
        _ ← audit d (event "oom" fence s "g-1/1/2" ""); notify) (put_led l' w)).2) end.
      rewrite El. cbn. rewrite Hf. set_solver.
    + cbn. rewrite Hf. set_solver.
  - vm_compute. lia.
Defined.
