(* ===== verification/BootFacts.v ===== *)
(** * What a boot trusts, and what a saved snapshot covers *)

From S2P Require Import Prelude GoLib Fence Errors Grant Ledger LedgerFacts LedgerSteps LedgerLinks LedgerSafety AuditLog Runtime Core Clone Verbs Boot CoreRefines CoreThreads Sandbox CoreHome CoreSweep CloneFacts VerbFacts.
From stdpp Require Import options.

(** ** What a computation writes to the trace *)

Section Tame.
Context `{Env E}.
Local Notation M := (St (World E)).
(** The trace grows, by no wait and no release. *)
Definition tame {A} (c : M A) : Prop := ∀ w, ∃ t, w_trace (c w).2 = reverse t ++ w_trace w ∧ Forall plain t.

Lemma tame_keeps {A} (c : M A) : keeps c → tame c.
Proof. intros Hc w. exact (proj2 (Hc w)). Qed.
Lemma tame_same {A} (c : M A) : (∀ w, w_trace (c w).2 = w_trace w) → tame c.
Proof. intros Hc w. exists []. by split; [|constructor]. Qed.
Lemma tame_bind {A B} (c : M A) (k : A → M B) : tame c → (∀ a, tame (k a)) → tame (c ≫= k).
Proof.
  intros Hc Hk w. destruct (Hc w) as (t1 & T1 & F1). destruct (Hk (c w).1 (c w).2) as (t2 & T2 & F2). rewrite St_bind_run.
  exists (t1 ++ t2). split; [by rewrite T2, T1, reverse_app, app_assoc|by apply Forall_app].
Qed.
Lemma tame_ledR {A} (f : Ledger → A * Ledger) : tame (ledR (E:=E) f).
Proof. by apply tame_same. Qed.
Lemma tame_led (f : Ledger → Ledger) : tame (Core.led (E:=E) f).
Proof. by apply tame_same. Qed.
Lemma tame_each {A} (f : A → M unit) xs : (∀ x, tame (f x)) → tame (for_each f xs).
Proof. intros Hf. induction xs as [|x xs IH]; simpl; [by apply tame_same|]. apply tame_bind; [apply Hf|by intros ?]. Qed.
End Tame.
Ltac taming :=
  repeat first
    [ apply tame_ledR | apply tame_led
    | solve [apply tame_keeps; unfold ledger, asks; keep]
    | apply tame_bind; [|intros ?]
    | match goal with |- tame (match ?x with _ => _ end) => destruct x end
    | match goal with |- tame (let _ := _ in _) => cbv zeta end ].

Section Reconcile.
Context `{Env E} (cfg : Config).
Local Notation M := (St (World E)).

Lemma tame_Admit g : tame (Admit (E:=E) id [] g).
Proof. unfold Admit, admitWait, admitSlot. taming. all: apply tame_each; intros; taming. Qed.

(** Among the events of [t], the verifier accepted the token a snapshot entry
    carries, for that entry's UID and this home, and [h] is what it said. *)
Definition vouched (t : list ev) (g h : Grant) : Prop :=
  Token g ≠ "" ∧ ∃ vg, EvVerify (Token g) (inl vg) ∈ t ∧ UID vg = UID g ∧
    (NodeID cfg ≠ "" → Audience vg = NodeID cfg) ∧ h = with_Token (Token g) vg.
(** The fiber is of an epoch before [epoch], or of none. *)
Definition prior (epoch : N) (id : string) : Prop := ∀ f, ParseFence id = inl f → (Epoch f < epoch)%N.

(** Since the trace was [t0]: every grant admitted was vouched for, and only
    fibers of prior epochs were released. *)
Record booted (gs : list Grant) (epoch : N) (t0 t : list ev) (w : World E) : Prop := mkBooted {
  bt_trace : w_trace w = t ++ t0;
  bt_epoch : l_epoch (w_led w) = epoch;
  bt_wf : ledger_wf (w_led w);
  bt_grants : ∀ uid h, LGrant uid (w_led w) = Some h → ∃ g, g ∈ gs ∧ vouched t g h;
  bt_released : ∀ id d err, EvRelease id d err ∈ t → prior epoch id;
}.
Definition boots (gs : list Grant) (epoch : N) (t0 : list ev) (w : World E) : Prop := ∃ t, booted gs epoch t0 t w.

Lemma vouched_more t t' g h : vouched t g h → vouched (t' ++ t) g h.
Proof. intros (Ht & vg & Hin & Hrest). split; [done|]. exists vg. split; [apply elem_of_app; by right|done]. Qed.

(** A step that is tame and leaves the grants as they were. *)
Lemma boots_tame {A} gs epoch t0 (c : M A) : tame c → (∀ w, like (w_led w) (w_led (c w).2)) →
  hoare (boots gs epoch t0) c (λ _, boots gs epoch t0).
Proof.
  intros Hc Hl w (t & [Ht He Hw Hg Hr]). destruct (Hc w) as (u & Eu & Hu). destruct (Hl w) as (Hh & Hgr & Hn & Hep & _).
  exists (reverse u ++ t). split; [by rewrite Eu, Ht, app_assoc|congruence|by apply (wf_same (w_led w))| |].
  - intros uid h. unfold LGrant. rewrite (entryOf_same (w_led w)) by done. intros Hh'. destruct (Hg uid h Hh') as (g & Hin & Hv).
    exists g. split; [done|by apply vouched_more].
  - intros i d err [Hin|Hin]%elem_of_app; [|by eapply Hr]. rewrite elem_of_reverse in Hin.
    rewrite Forall_forall in Hu. by destruct (Hu _ Hin).
Qed.
Lemma boots_keeps {A} gs epoch t0 (c : M A) : keeps c → hoare (boots gs epoch t0) c (λ _, boots gs epoch t0).
Proof. intros Hc. apply boots_tame; [by apply tame_keeps|]. intros w. by rewrite (proj1 (Hc w)). Qed.

Lemma reverify_vouches gs epoch t0 g w vg : Token g ≠ "" →
  boots gs epoch t0 w → (reverify (E:=E) cfg g w).1 = inl vg →
  ∃ t, booted gs epoch t0 t (reverify cfg g w).2 ∧ vouched t g vg.
Proof.
  intros Ht Hb. destruct (boots_keeps gs epoch t0 (reverify cfg g) ltac:(keep) w Hb) as (t & Hbt). exists t. split; [done|].
  destruct Hb as (t1 & Hb1). pose proof (bt_trace _ _ _ _ _ Hb1) as E1. pose proof (bt_trace _ _ _ _ _ Hbt) as E2. revert E2 H0.
  unfold reverify. rewrite !St_bind_run. cbn [env fst snd mret St_ret log modify w_trace put_trace put_env].
  destruct (e_Verify (Token g) (w_env w)) as [[v|e] e'] eqn:Ev; cbn [fst snd]; [|done]. intros E2.
  case_bool_decide as HU; cbn; [|done].
  destruct ((NodeID cfg <>? "") && (Audience v <>? NodeID cfg)) eqn:Ea; [done|]. intros [= <-].
  split; [done|]. exists v. split_and!; [|done| |done].
  - assert (t = EvVerify (Token g) (inl v) :: t1) as -> by (apply (app_inv_tail t0); rewrite <- E2, E1; done). left.
  - intros Hn. rewrite (bool_decide_eq_false_2 (NodeID cfg = "")) in Ea by done. cbn in Ea. by breflect.
Qed.

Lemma boots_admit gs epoch t0 t g vg w : g ∈ gs → vouched t g vg → booted gs epoch t0 t w → boots gs epoch t0 (Admit id [] vg w).2.
Proof.
  intros Hin Hv [Ht He Hw Hg Hr]. destruct (tame_Admit vg w) as (u & Eu & Hu). pose proof (Admit_outcome id vg (w_led w) w eq_refl) as Ho.
  assert (∀ i d err, EvRelease i d err ∈ reverse u ++ t → prior epoch i) as Hr'.
  { intros i d err [Hi|Hi]%elem_of_app; [|by eapply Hr]. rewrite elem_of_reverse in Hi. rewrite Forall_forall in Hu. by destruct (Hu _ Hi). }
  exists (reverse u ++ t). destruct (Admit id [] vg w) as [[c [e|]] w1]; cbn [fst snd] in *.
  - destruct Ho as [_ El]. split; [by rewrite Eu, Ht, app_assoc|congruence|by rewrite El| |done].
    intros uid h. rewrite El. intros Hh. destruct (Hg uid h Hh) as (g0 & ? & ?). exists g0. split; [done|by apply vouched_more].
  - destruct Ho as (_ & _ & Hh & Hgr & Hn & Hep & _). split; [by rewrite Eu, Ht, app_assoc| | | |done].
    + rewrite Hep. unfold AdmitGrant. by repeat case_match.
    + apply (wf_same (AdmitGrant vg (w_led w))); [done..|by apply wf_AdmitGrant].
    + intros uid h. unfold LGrant. rewrite (entryOf_same (AdmitGrant vg (w_led w))) by done.
      change (LGrant uid (AdmitGrant vg (w_led w)) = Some h → ∃ g, g ∈ gs ∧ vouched (reverse u ++ t) g h). rewrite LGrant_AdmitGrant by done.
      destruct (decide (uid = UID vg)); [intros [= <-]; exists g; split; [done|by apply vouched_more]|].
      intros Hh'. destruct (Hg uid h Hh') as (g0 & ? & ?). exists g0. split; [done|by apply vouched_more].
Qed.

Lemma reconcileGrant_boots gs epoch t0 now g :
  g ∈ gs → hoare (boots gs epoch t0) (reconcileGrant (E:=E) cfg now g) (λ _, boots gs epoch t0).
Proof.
  intros Hin. unfold reconcileGrant. eapply hoare_bind; [apply boots_keeps; unfold ledger; keep|intros ep]. cbv zeta.
  destruct (Expired g now); [apply boots_keeps; keep|]. case_bool_decide as Ht; [apply boots_keeps; keep|].
  eapply (hoare_bind _ _ (λ v w, boots gs epoch t0 w ∧ ∀ vg, v = inl vg → ∃ t, booted gs epoch t0 t w ∧ vouched t g vg)).
  { intros w Hw. split; [by apply boots_keeps; [keep|]|]. intros vg. by apply reverify_vouches. }
  intros [vg|e].
  - intros w [_ Hv]. destruct (Hv vg eq_refl) as (t & Hb & Hvg). rewrite St_bind_run.
    pose proof (boots_admit gs epoch t0 t g vg w Hin Hvg Hb) as Ha. by destruct (Admit id [] vg w) as [[c [e|]] w1].
  - apply (hoare_conseq (boots gs epoch t0) _ _ (λ _, boots gs epoch t0)); [|by intros w [Hw _]|done].
    destruct (Is e ErrVerifyUnavailable); apply boots_keeps; [unfold hold|]; keep.
Qed.

Lemma hoare_fold {A B} (P : World E → Prop) (f : A → B → M B) xs :
  (∀ a b, a ∈ xs → hoare P (f a b) (λ _, P)) → ∀ b, hoare P (fold_m f xs b) (λ _, P).
Proof.
  induction xs as [|x xs IH]; intros Hf b; [by intros w|]. cbn [fold_m].
  eapply hoare_bind; [apply Hf; left|intros b']. apply IH. intros. apply Hf. by right.
Qed.
Lemma hoare_each {A} (P : World E → Prop) (f : A → M unit) xs :
  (∀ a, hoare P (f a) (λ _, P)) → hoare P (for_each f xs) (λ _, P).
Proof.
  intros Hf. induction xs as [|x xs IH]; [by intros w|]. cbn [for_each]. eapply hoare_bind; [apply Hf|intros ?]. exact IH.
Qed.

Lemma reconcileSession_boots gs epoch t0 s r :
  hoare (boots gs epoch t0) (reconcileSession (E:=E) s r) (λ _, boots gs epoch t0).
Proof.
  unfold reconcileSession. destruct (_ || _); [by intros w|].
  eapply hoare_bind; [apply boots_keeps; unfold asks; keep|intros has]. destruct (negb has); [by intros w|].
  eapply hoare_bind; [apply boots_keeps, keeps_plain|intros []]; [|by intros w|].
  { intros w. unfold holdParked. by destruct (w_held w !! _). }
  eapply (hoare_bind _ _ (λ _, boots gs epoch t0)); [|intros ok; by intros w].
  apply boots_tame; [apply tame_ledR|]. intros w. apply restore_frame.
Qed.

(** A fiber is released only when its fence is of a prior epoch, or is none. *)
Lemma reconcileFiber_boots gs epoch t0 h :
  hoare (boots gs epoch t0) (reconcileFiber (E:=E) h) (λ _, boots gs epoch t0).
Proof.
  unfold reconcileFiber. eapply hoare_bind; [apply hoare_ledger|intros ep]. cbv zeta.
  destruct (match ParseFence (HID h) with inl f => _ | inr _ => false end) eqn:Ef.
  { eapply hoare_conseq; [apply (hoare_ret 0%Z (λ _, boots gs epoch t0))|by intros w [? _]|done]. }
  eapply (hoare_bind _ _ (λ _, boots gs epoch t0)).
  - intros w [(t & [Ht He Hw Hg Hr]) ->]. unfold release. rewrite !St_bind_run. cbn [fst snd mret St_ret meanwhile modify id].
    eexists (EvRelease (HID h) false _ :: t). split; cbn; [by rewrite Ht|done|done| |].
    + intros uid x Hx. destruct (Hg uid x Hx) as (g & ? & ?). exists g. split; [done|by apply (vouched_more t [_])].
    + intros i d err [[= -> -> ->]|Hin]%elem_of_cons; [|by eapply Hr]. intros f Hf. rewrite Hf in Ef. apply N.leb_gt in Ef. lia.
  - intros [e|]; [by intros w|]. apply boots_keeps. keep.
Qed.

Lemma Reconcile_boots epoch t0 snap unreadable :
  hoare (boots (sn_Grants snap) epoch t0) (Reconcile (E:=E) cfg snap unreadable) (λ _, boots (sn_Grants snap) epoch t0).
Proof.
  unfold Reconcile. eapply hoare_bind; [apply boots_keeps; keep|intros now].
  eapply hoare_bind.
  { apply hoare_fold. intros g r Hin. eapply hoare_bind; [by apply reconcileGrant_boots|intros t; by intros w]. }
  intros rep. eapply hoare_bind; [apply hoare_fold; intros; apply reconcileSession_boots|intros rep'].
  eapply hoare_bind; [apply boots_keeps; keep|intros [hs|e]]; [|by intros w].
  eapply hoare_bind.
  { apply hoare_fold. intros h n _. eapply hoare_bind; [apply reconcileFiber_boots|intros k; by intros w]. }
  intros orphans. eapply hoare_bind.
  { apply hoare_each. intros s. apply boots_keeps. keep. }
  intros ?. apply boots_keeps. unfold sweepDeltas, snapshot. keep.
Qed.
End Reconcile.

(** C30: a boot trusts signatures, not its own file.  From an empty ledger at the
    home's epoch, whatever the snapshot says and the runtime lists, [t] being
    what this call of Reconcile asked of the outside: every grant it leaves
    admitted is that of an entry whose stored token the verifier was asked
    about and accepted during the call, for that entry's UID and this home, and
    it is admitted with the verifier's claims, not the file's; and no fiber
    whose ID parses as a fence of the home's epoch or a later one is released. *)
Theorem Reconcile_trusts_tokens (E : Type) (HE : Env E) cfg snap unreadable epoch (w : World E) :
  w_led w = NewLedger epoch →
  let w' := (Reconcile cfg snap unreadable w).2 in
  ∃ t, w_trace w' = t ++ w_trace w ∧
    (∀ uid h, LGrant uid (w_led w') = Some h →
       ∃ g vg, g ∈ sn_Grants snap ∧ Token g ≠ "" ∧ EvVerify (Token g) (inl vg) ∈ t ∧ UID vg = UID g ∧
         (NodeID cfg ≠ "" → Audience vg = NodeID cfg) ∧ h = with_Token (Token g) vg) ∧
    (∀ id discard err f, EvRelease id discard err ∈ t → ParseFence id = inl f → (Epoch f < epoch)%N).
Proof.
  intros Hw. assert (boots cfg (sn_Grants snap) epoch (w_trace w) w) as Hb.
  { exists []. split; rewrite ?Hw; [done|done|apply wf_NewLedger|done|by intros ? ? ? ?%elem_of_nil]. }
  destruct (Reconcile_boots cfg epoch (w_trace w) snap unreadable w Hb) as (t & [Ht _ _ Hg Hr]). exists t. split; [done|]. split.
  - intros uid h Hh. destruct (Hg uid h Hh) as (g & Hin & Htok & vg & Hv & HU & Ha & ->). by exists g, vg.
  - intros id d err f Hin Hf. exact (Hr id d err Hin f Hf).
Qed.

(** A snapshot with a signed grant and one without a token. *)
Definition bootSnap : Snapshot := mkSnapshot 1 0%Z [sampleGrant; with_Token "" sampleGrant] [].

(** The runtime still runs a fiber of epoch 0 and one of epoch 1. *)
Definition bootWorld : World box := put_env (bx_set_live ["g-1/0/7"; "g-1/1/1"] box0) world0.

Lemma Reconcile_trusts_tokens_witness :
  let w' := (Reconcile (E:=box) boxCfg bootSnap false bootWorld).2 in
  LGrant "g-1" (w_led w') = Some sampleGrant ∧ bx_live (w_env w') = ["g-1/1/1"] ∧
  ∃ g vg, g ∈ sn_Grants bootSnap ∧ EvVerify (Token g) (inl vg) ∈ w_trace w' ∧ sampleGrant = with_Token (Token g) vg.
Proof.
  cbv zeta. assert (LGrant "g-1" (w_led (Reconcile (E:=box) boxCfg bootSnap false bootWorld).2) = Some sampleGrant) as Hg by (vm_compute; reflexivity).
  split; [exact Hg|]. split; [vm_compute; reflexivity|].
  destruct (Reconcile_trusts_tokens box boxEnv boxCfg bootSnap false 1 bootWorld eq_refl) as (t & Ht & Hv & _).
  destruct (Hv "g-1" sampleGrant Hg) as (g & vg & Hin & _ & Hev & _ & _ & Eg). exists g, vg. split; [exact Hin|]. split; [|exact Eg].
  rewrite Ht. apply elem_of_app. by left.
Defined.

(** ** The snapshot on disk

    Concurrent calls of Persist: [version] counts the changes of the ledger,
    [snap v] is the snapshot of version [v], and [p_calls] holds each call that
    has taken its number, with the version it found. *)

Section Persist.
Context `{!JSON Snapshot} (snap : nat → Snapshot).

Record pstate := mkPState { p_store : SnapshotStore; p_fs : FS; p_version : nat; p_calls : gmap N nat }.

(** A call that returned: the version it found, and whether its error is nil. *)
Inductive pstep : pstate → option (nat * bool) → pstate → Prop :=
| pstep_change st fs v cs : pstep (mkPState st fs v cs) None (mkPState st fs (S v) cs)
| pstep_ask st fs v cs :
    (st_asked st < U64.max)%N →
    pstep (mkPState st fs v cs) None
      (mkPState (persistAsk st).2 fs v (<[(persistAsk st).1 := v]> cs))
| pstep_lock sys tmp part n v0 st fs v cs :
    cs !! n = Some v0 → tmp ≠ st_Path st →
    pstep (mkPState st fs v cs) (Some (v0, (persistLocked sys tmp part n (snap v) st fs).1.1))
      (mkPState (persistLocked sys tmp part n (snap v) st fs).1.2 (persistLocked sys tmp part n (snap v) st fs).2 v (delete n cs)).

Inductive pruns (path : string) : pstate → Prop :=
| pruns_open fs v : pruns path (mkPState (mkStore path 0 0 true) fs v ∅)
| pruns_step s r s' : pruns path s → pstep s r s' → pruns path s'.

(** The file holds the snapshot of some version from [v0] on. *)
Definition saved (path : string) (v0 : nat) (s : pstate) : Prop :=
  ∃ v b, (v0 ≤ v ≤ p_version s)%nat ∧ Marshal (snap v) = Some b ∧ p_fs s !! path = Some b.

Record pinv (path : string) (s : pstate) : Prop := {
  pi_path : st_Path (p_store s) = path;
  pi_count : (st_covered (p_store s) ≤ st_asked (p_store s) ≤ U64.max)%N;
  pi_calls : ∀ n v0, p_calls s !! n = Some v0 → (1 ≤ n ≤ st_asked (p_store s))%N ∧ (v0 ≤ p_version s)%nat;
  pi_saved : ∀ n v0, p_calls s !! n = Some v0 → (n ≤ st_covered (p_store s))%N → st_lastErr (p_store s) = true → saved path v0 s;
}.

Lemma saved_later path v0 st fs v cs st' v' cs' :
  (v ≤ v')%nat → saved path v0 (mkPState st fs v cs) → saved path v0 (mkPState st' fs v' cs').
Proof. intros Hv (v1 & b & ? & ? & ?). exists v1, b. cbn in *. split_and!; [lia|lia|done|done]. Qed.

Lemma st_write_saves sys tmp part path s fs :
  tmp ≠ path → (st_write sys tmp part path s fs).1 = true →
  ∃ b, Marshal s = Some b ∧ (st_write sys tmp part path s fs).2 !! path = Some b.
Proof.
  intros Hne. unfold st_write. destruct (Marshal s) as [b|]; [|done].
  pose proof (writeFileAtomic_reads sys tmp part path b fs Hne) as Hw.
  destruct (writeFileAtomic sys tmp part path b fs) as [ok fs']. intros Hok. exists b. split; [done|]. by apply Hw.
Qed.

Lemma pinv_step path s r s' :
  pinv path s → pstep s r s' → pinv path s' ∧ match r with Some (v0, true) => saved path v0 s' | _ => True end.
Proof.
  intros [Hp Hc Hn Hs] Hst. destruct Hst as [st fs v cs|st fs v cs Hm|sys tmp part n v0 st fs v cs Hcall Hne]; cbn in *.
  - split; [|done]. split; cbn; [done|done| |].
    + intros n v0 Hl. destruct (Hn _ _ Hl). split; [done|lia].
    + intros n v0 Hl Hle Hok. eapply (saved_later path v0 st fs v cs); [lia|eauto].
  - split; [|done]. unfold persistAsk. cbn. rewrite U64.succ_small by lia. split; cbn; [done|lia| |].
    + intros n v0 [[<- <-]|[_ Hl]]%lookup_insert_Some; [split; lia|]. destruct (Hn _ _ Hl). split; lia.
    + intros n v0 [[<- <-]|[_ Hl]]%lookup_insert_Some Hle Hok; [lia|].
      eapply (saved_later path v0 st fs v cs); [lia|eauto].
  - unfold persistLocked. destruct (n <=? st_covered st)%N eqn:El.
    + apply N.leb_le in El. cbn. split.
      * split; cbn; [done|done| |].
        -- intros n' v0' [_ Hl]%lookup_delete_Some. by apply Hn in Hl.
        -- intros n' v0' [_ Hl]%lookup_delete_Some Hle Hok. eapply (saved_later path v0' st fs v cs); [lia|eauto].
      * destruct (st_lastErr st) eqn:Eok; [|done]. eapply (saved_later path v0 st fs v cs); [lia|]. by apply (Hs n).
    + rewrite <- Hp in *. pose proof (st_write_saves sys tmp part (st_Path st) (snap v) fs Hne) as Hw.
      destruct (st_write sys tmp part (st_Path st) (snap v) fs) as [ok fs']. cbn in *.
      assert (Hall : ok = true → ∀ v0', (v0' ≤ v)%nat → saved (st_Path st) v0' (mkPState (mkStore (st_Path st) (st_asked st) (st_asked st) ok) fs' v (delete n cs))).
      { intros Hok v0' Hv. destruct (Hw Hok) as (b & Hb & Hf). exists v, b. cbn. by split_and!. }
      split.
      * split; cbn; [done|lia| |].
        -- intros n' v0' [_ Hl]%lookup_delete_Some. by apply Hn in Hl.
        -- intros n' v0' [_ Hl]%lookup_delete_Some _ Hok. apply Hall; [done|apply (Hn _ _ Hl)].
      * destruct ok; [|done]. apply Hall; [done|]. apply (Hn _ _ Hcall).
Qed.

Lemma pruns_pinv path s : pruns path s → pinv path s.
Proof.
  induction 1 as [fs v|s r s' _ IH Hst].
  - split; cbn; [done|split; [lia|]|done|done]. vm_compute. congruence.
  - by apply (pinv_step path s r s').
Qed.
End Persist.

(** A Persist that returns nil has saved what its caller saw.  Calls may
    overlap in any order, share one write, and meet failing writes; the ledger
    may change at any point.  When a call returns without an error, the file is
    a whole snapshot, of the ledger at the call or of a later one, and Load
    reads that snapshot back. *)
Theorem Persist_covers (J : JSON Snapshot) (snap : nat → Snapshot) path s v0 s' :
  pruns snap path s → pstep snap s (Some (v0, true)) s' →
  ∃ v, (v0 ≤ v ≤ p_version s')%nat ∧ st_Load true (p_store s') (p_fs s') = Some (snap v, false).
Proof.
  intros Hr Hst. destruct (pinv_step snap path s _ s' (pruns_pinv snap path s Hr) Hst) as [Hi (v & b & Hv & Hb & Hf)].
  exists v. split; [done|]. unfold st_Load. rewrite (pi_path _ _ _ Hi), Hf. by rewrite (Unmarshal_Marshal _ _ Hb).
Qed.

(** A codec for the snapshots of a home that holds nothing. *)
Definition emptySnap (e : N) : Snapshot := mkSnapshot e 0%Z [] [].
Definition boxJSON : JSON Snapshot.
Proof.
  refine {|
    Marshal s := match s with
                 | mkSnapshot e 0%Z [] [] => if (e <=? U64.max)%N then Some (FormatUint e) else None
                 | _ => None
                 end;
    Unmarshal b := match ParseUint b with inl e => Some (emptySnap e) | inr _ => None end;
  |}.
  intros [e [|?|?] [|? ?] [|? ?]] b; try done. destruct (e <=? U64.max)%N eqn:El; [|done]. intros [= <-].
  apply N.leb_le in El. rewrite ParseUint_FormatUint; [done|]. unfold U64.max, U64.modulus in *. lia.
Defined.

Definition boxStore : SnapshotStore := mkStore "snapshot.json" 0 0 true.
Definition boxSnap (v : nat) : Snapshot := emptySnap (N.of_nat v).

Lemma Persist_covers_witness :
  ∃ v, (0 ≤ v ≤ 1)%nat ∧
    @st_Load boxJSON true (mkStore "snapshot.json" 1 1 true) {["snapshot.json" := "1"]} = Some (boxSnap v, false).
Proof.
  refine (Persist_covers boxJSON boxSnap "snapshot.json" (mkPState (mkStore "snapshot.json" 1 0 true) ∅ 1 {[1%N := 0]}) 0
    (mkPState (mkStore "snapshot.json" 1 1 true) {["snapshot.json" := "1"]} 1 ∅) _ _).
  - eapply pruns_step; [|apply pstep_change]. eapply pruns_step; [apply (pruns_open boxSnap "snapshot.json" ∅ 0)|].
    exact (@pstep_ask boxJSON boxSnap boxStore ∅ 0 ∅ ltac:(vm_compute; reflexivity)).
  - assert (Hl := @pstep_lock boxJSON boxSnap all_ok "tmp" "" 1 0 (mkStore "snapshot.json" 1 0 true) ∅ 1 {[1%N := 0]} eq_refl ltac:(done)).
    exact Hl.
Defined.
