(* ===== verification/LoopFacts.v ===== *)
(** * The background loops: the pressure ladder and the refill pass *)

From S2P Require Import Prelude GoLib Fence Errors Grant Ledger LedgerSafety AuditLog Runtime Core Clone Pool CoreRefines CoreThreads Sandbox CoreHome CoreSweep.
From stdpp Require Import options.

(** ** The ladder *)

(** The ticks of one grant, each with what it asked for, oldest first. *)
Definition ladder_run (uid : string) (c : ladder) (ts : list tick) : list (tick * list rung) * ladder :=
  fold_left (λ hc t, let r := tickGrant uid t hc.2 in (hc.1 ++ [(t, r.1)], r.2)) ts ([], c).

(** The grant was admitted and its source answered. *)
Definition reading (uid : string) (t : tick) : option (Grant * F64.t) :=
  match LGrant uid (tk_led t), tk_psi t with Some g, inl psi => Some (g, psi) | _, _ => None end.
Definition live (uid : string) (t : tick) : bool := match reading uid t with Some _ => true | None => false end.
(** The reading is at the park watermark and nothing could be reclaimed. *)
Definition stuck (uid : string) (t : tick) : Prop :=
  ∃ g psi, reading uid t = Some (g, psi) ∧ F64.geb psi (watermarks g).2 = true ∧
    (reclaim (tk_acts t) (UID g) (FibersOf (UID g) (tk_led t)) (tk_victim t)).1 = false.
Definition own_uid (uid : string) (t : tick) : Prop := ∀ g, LGrant uid (tk_led t) = Some g → UID g = uid.

Lemma reclaim_no_yield ac uid fs v u : RYield u ∉ (reclaim ac uid fs v).2.
Proof.
  unfold reclaim. destruct (ac_Drain ac) as [f|]; cbn.
  - destruct (0 <? f uid)%Z; cbn; [set_solver|]. destruct fs; cbn; [set_solver|].
    destruct (ac_Park ac) as [p|], (ac_Release ac) as [r|]; cbn;
      try destruct (negb _); try destruct (p _); cbn; set_solver.
  - destruct fs; cbn; [set_solver|].
    destruct (ac_Park ac) as [p|], (ac_Release ac) as [r|]; cbn;
      try destruct (negb _); try destruct (p _); cbn; set_solver.
Qed.

Definition stuckCount (uid : string) (c : ladder) : Z := default 0%Z (la_stuck c !! uid).

Lemma stuck_setShedding uid v c : la_stuck (setShedding uid v c) = la_stuck c.
Proof. unfold setShedding. by destruct (bool_decide _). Qed.
Lemma Shedding_set uid v c : Shedding uid (setShedding uid v c) = v.
Proof.
  unfold setShedding. case_bool_decide as E; [done|]. unfold Shedding. cbn. by rewrite lookup_insert_eq.
Qed.

(** One tick: the count of the grant, whether it yields, and the shedding it
    leaves. *)
Lemma tick_cases uid t c :
  own_uid uid t →
  let '(out, c') := tickGrant uid t c in
  match reading uid t with
  | None => out = [] ∧ c' = c
  | Some (g, psi) =>
      Shedding uid c' = (F64.geb psi (watermarks g).2 || F64.geb psi (watermarks g).1) ∧
      ((stuckCount uid c' = 0%Z ∧ (RYield uid ∈ out → stuck uid t ∧ (2 ≤ stuckCount uid c)%Z)) ∨
       (stuck uid t ∧ RYield uid ∉ out ∧ stuckCount uid c' = (stuckCount uid c + 1)%Z))
  end.
Proof.
  intros Hu. unfold tickGrant, stuck, reading. unfold own_uid in Hu.
  destruct (LGrant uid (tk_led t)) as [g|]; [|done]. destruct (tk_psi t) as [psi|e]; [|done].
  specialize (Hu g eq_refl). unfold evaluate. destruct (watermarks g) as [shed park] eqn:Ew. cbn [fst snd].
  destruct (F64.geb psi park) eqn:Ep; cbn [orb].
  - pose proof (reclaim_no_yield (tk_acts t) (UID g) (FibersOf (UID g) (tk_led t)) (tk_victim t) uid) as Hy.
    destruct (reclaim _ _ _ _) as [ok asked] eqn:Er. cbn [fst snd] in *. rewrite Hu in *. destruct ok.
    + split; [apply Shedding_set|]. left. split; [|set_solver]. unfold stuckCount, resetStuck. cbn. by rewrite lookup_delete_eq.
    + assert (Hst : ∃ g0 psi0, Some (g, psi) = Some (g0, psi0) ∧ F64.geb psi0 (watermarks g0).2 = true ∧
        (reclaim (tk_acts t) (UID g0) (FibersOf (UID g0) (tk_led t)) (tk_victim t)).1 = false).
      { exists g, psi. rewrite Ew, Hu. cbn. by rewrite Er. }
      unfold bumpStuck. rewrite stuck_setShedding. set (n := (default 0 (la_stuck c !! uid) + 1)%Z). cbn zeta.
      destruct ((yieldAfter <=? n)%Z && ac_Yield (tk_acts t)) eqn:Ey.
      * split; [apply Shedding_set|]. left. split; [unfold stuckCount, resetStuck; cbn; by rewrite lookup_delete_eq|].
        intros _. split; [done|]. apply andb_true_iff in Ey as [Ey%Z.leb_le _]. unfold stuckCount, yieldAfter in *. lia.
      * split; [apply Shedding_set|]. right. split_and!; [done|done|]. unfold stuckCount. cbn. by rewrite lookup_insert_eq.
  - rewrite Hu. destruct (F64.geb psi shed); (split; [apply Shedding_set|]); left; (split; [|set_solver]);
      unfold stuckCount; rewrite stuck_setShedding; unfold resetStuck; cbn; by rewrite lookup_delete_eq.
Qed.

(** The count is the length of a run of stuck readings with no yield. *)
Definition streak (uid : string) (h : list (tick * list rung)) (n : Z) : Prop :=
  ∃ pre suf, filter (λ x, live uid x.1 = true) h = pre ++ suf ∧ Z.of_nat (length suf) = n ∧
    Forall (λ x, stuck uid x.1 ∧ RYield uid ∉ x.2) suf.

Lemma ladder_run_streak uid c ts :
  stuckCount uid c = 0%Z → Forall (own_uid uid) ts →
  streak uid (ladder_run uid c ts).1 (stuckCount uid (ladder_run uid c ts).2).
Proof.
  intros H0. induction ts as [|t ts IH] using rev_ind; intros Hu.
  - change (streak uid [] (stuckCount uid c)). rewrite H0. by exists [], [].
  - apply Forall_app in Hu as [Hu Ht%Forall_inv]. specialize (IH Hu). unfold ladder_run in *. rewrite fold_left_app. cbn [fold_left].
    destruct (fold_left _ ts ([], c)) as [h c1]. cbn [fst snd] in *. pose proof (tick_cases uid t c1 Ht) as Hc.
    destruct (tickGrant uid t c1) as [out c2]. cbn [fst snd]. destruct IH as (pre & suf & Hf & Hn & Hall).
    destruct (reading uid t) as [[g psi]|] eqn:Er.
    + assert (Hfil : filter (λ x, live uid x.1 = true) (h ++ [(t, out)]) = pre ++ suf ++ [(t, out)]).
      { rewrite filter_app, Hf, filter_cons, decide_True; [by rewrite app_assoc|]. unfold live. cbn. by rewrite Er. }
      destruct Hc as [_ [[Hz _]|(Hst & Hy & Hn')]].
      * exists (pre ++ suf ++ [(t, out)]), []. split_and!; [by rewrite app_nil_r|by rewrite Hz|done].
      * exists pre, (suf ++ [(t, out)]). split_and!; [done|rewrite length_app; cbn; lia|]. apply Forall_app. by repeat constructor.
    + destruct Hc as [-> ->]. exists pre, suf. split_and!; [|done|done].
      rewrite filter_app, Hf, filter_cons, decide_False; [by rewrite app_nil_r|]. unfold live. cbn. by rewrite Er.
Qed.

(** The pressure ladder climbs one rung at a time.  A grant is yielded only
    at a reading at its park watermark from which nothing could be reclaimed,
    and only when the two readings before it were the same and were not
    answered by a yield; a tick without a reading changes nothing; and after
    each reading the grant sheds new clones exactly when the reading is at its
    shed or its park watermark. *)
Theorem ladder_yields_last uid c ts t :
  la_stuck c !! uid = None → Forall (own_uid uid) (ts ++ [t]) →
  let '(h, c1) := ladder_run uid c ts in
  let '(out, c2) := tickGrant uid t c1 in
  (RYield uid ∈ out →
     stuck uid t ∧ ∃ h' x y, filter (λ x, live uid x.1 = true) h = h' ++ [x; y] ∧
       stuck uid x.1 ∧ stuck uid y.1 ∧ RYield uid ∉ x.2 ∧ RYield uid ∉ y.2) ∧
  match reading uid t with
  | Some (g, psi) => Shedding uid c2 = (F64.geb psi (watermarks g).2 || F64.geb psi (watermarks g).1)
  | None => out = [] ∧ c2 = c1
  end.
Proof.
  intros H0 [Hu Ht%Forall_inv]%Forall_app.
  assert (Hc0 : stuckCount uid c = 0%Z) by (unfold stuckCount; by rewrite H0).
  pose proof (ladder_run_streak uid c ts Hc0 Hu) as (pre & suf & Hf & Hn & Hall).
  destruct (ladder_run uid c ts) as [h c1]. cbn [fst snd] in *. pose proof (tick_cases uid t c1 Ht) as Hc.
  destruct (tickGrant uid t c1) as [out c2]. destruct (reading uid t) as [[g psi]|].
  - destruct Hc as [Hs Hc]. split; [|done]. intros Hy. destruct Hc as [[_ Hc]|(_ & Hny & _)]; [|done].
    destruct (Hc Hy) as [Hst H2]. split; [done|].
    destruct suf as [|y suf _] using rev_ind; [cbn in Hn; lia|]. destruct suf as [|x suf _] using rev_ind; [cbn in Hn; lia|].
    apply Forall_app in Hall as [[_ Hx%Forall_inv]%Forall_app Hy'%Forall_inv].
    exists (pre ++ suf), x, y. rewrite Hf, <- !app_assoc. by destruct Hx, Hy'.
  - destruct Hc as [-> ->]. split; [set_solver|done].
Qed.

(** Readings over the park watermark that reclaim nothing: the third yields. *)
Definition hot : tick :=
  mkTick (inl (F64.of_Z 40)) (mkActions None None None true) demo_l4 (mkFiberInfo "g-1/1/1" "s" 0).

Lemma ladder_yields_last_witness :
  (tickGrant "g-1" hot (ladder_run "g-1" (mkLadder ∅ ∅) [hot; hot]).2).1 = [RYield "g-1"] ∧
  let '(h, c1) := ladder_run "g-1" (mkLadder ∅ ∅) [hot; hot] in
  let '(out, c2) := tickGrant "g-1" hot c1 in
  (RYield "g-1" ∈ out →
     stuck "g-1" hot ∧ ∃ h' x y, filter (λ x, live "g-1" x.1 = true) h = h' ++ [x; y] ∧
       stuck "g-1" x.1 ∧ stuck "g-1" y.1 ∧ RYield "g-1" ∉ x.2 ∧ RYield "g-1" ∉ y.2) ∧
  match reading "g-1" hot with
  | Some (g, psi) => Shedding "g-1" c2 = (F64.geb psi (watermarks g).2 || F64.geb psi (watermarks g).1)
  | None => out = [] ∧ c2 = c1
  end.
Proof.
  split; [vm_compute; reflexivity|].
  apply (ladder_yields_last "g-1" (mkLadder ∅ ∅) [hot; hot] hot); [done|].
  assert (own_uid "g-1" hot) by (intros g; vm_compute; by intros [= <-]). by repeat constructor.
Defined.

(** ** The refill pass *)

Section Refill.
Context `{Env E}.

Lemma refillTurn_busy g w : (refillTurn (E:=E) true g w).1 ≠ StartFill.
Proof.
  assert (Hb : hoare (λ _, True) (refillTurn (E:=E) true g) (λ t _, t ≠ StartFill)); [|by apply Hb].
  unfold refillTurn. destruct (_ <=? _)%Z; [by intros ?|].
  eapply (hoare_bind _ _ (λ _ _, True)); [by intros ?|intros ?].
  eapply (hoare_bind _ _ (λ _ _, True)); [by intros ?|intros []]; [by intros ?|].
  eapply (hoare_bind _ _ (λ _ _, True)); [by intros ?|intros ps]. rewrite orb_true_r. by intros ?.
Qed.

(** A turn that starts a fill marks it. *)
Lemma refillTurn_marks g w :
  (refillTurn (E:=E) false g w).1 = StartFill →
  w_filling (refillTurn (E:=E) false g w).2 = true ∧ w_lastFill (refillTurn (E:=E) false g w).2 = UID g ∧ (0 < FiberWarm g)%Z.
Proof.
  assert (Hb : hoare (λ _, True) (refillTurn (E:=E) false g)
    (λ t w, t = StartFill → w_filling w = true ∧ w_lastFill w = UID g ∧ (0 < FiberWarm g)%Z)); [|by apply Hb].
  unfold refillTurn. destruct (FiberWarm g <=? 0)%Z eqn:Ew; [by intros ?|]. apply Z.leb_gt in Ew.
  eapply (hoare_bind _ _ (λ _ _, True)); [by intros ?|intros ?].
  eapply (hoare_bind _ _ (λ _ _, True)); [by intros ?|intros []]; [by intros ?|].
  eapply (hoare_bind _ _ (λ _ _, True)); [by intros ?|intros ps]. destruct (_ || _); [by intros ?|].
  eapply (hoare_bind _ _ (λ _ _, True)); [by intros ?|intros now]. destruct (Time.Before _ _); [by intros ?|].
  eapply (hoare_bind _ _ (λ _ _, True)); [by intros ?|intros room]. destruct (_ <=? _)%Z; [by intros ?|].
  eapply (hoare_bind _ _ (λ _ _, True)); [by intros ?|intros [e|]].
  - do 2 (eapply (hoare_bind _ _ (λ _ _, True)); [by intros ?|intros ?]). by intros ?.
  - intros w' _ _. by split_and!.
Qed.

(** Of a pass's turns at most one starts a fill, and none if one runs. *)
Lemma refillTurns_one sts : ∀ busy next started w,
  ∃ new, (refillTurns (E:=E) busy next started sts w).1.2 = started ++ new ∧
    (length new ≤ if busy then 0 else 1)%nat.
Proof.
  induction sts as [|st sts IH]; intros busy next started w; [exists []; by rewrite app_nil_r; destruct busy; split; cbn; try lia|].
  cbn [refillTurns]. rewrite St_bind_run. destruct ((ledger (LGrant (StGrantUID st)) w).1) as [g|]; [|apply IH].
  rewrite St_bind_run. destruct busy.
  - pose proof (refillTurn_busy g (ledger (LGrant (StGrantUID st)) w).2) as Hb.
    destruct (refillTurn true g _) as [[|u|] w1]; cbn [fst snd] in *; [apply IH|apply IH|done].
  - destruct (refillTurn false g _) as [[|u|] w1]; cbn [fst snd]; [apply IH|apply IH|].
    destruct (IH true next (started ++ [g]) w1) as (new & -> & Hl). exists (g :: new). rewrite <- app_assoc. split; [done|cbn in *; lia].
Qed.
End Refill.

Lemma rotate_perm last sts : rotate last sts ≡ₚ sts.
Proof.
  unfold rotate. destruct (list_find _ sts) as [[i st]|]; [|done]. rewrite Permutation_app_comm. by rewrite take_drop.
Qed.

(** The turns start right after the last grant filled. *)
Lemma rotate_next last sts i st :
  list_find (λ st, negb (bool_decide (String.le (StGrantUID st) last)) = true) sts = Some (i, st) →
  head (rotate last sts) = Some st ∧ ~ String.le (StGrantUID st) last.
Proof.
  unfold rotate. intros Hf. rewrite Hf. apply list_find_Some in Hf as (Hi & Hn & _). split.
  - by rewrite (drop_S _ _ _ Hi).
  - by apply negb_true_iff, bool_decide_eq_false_1 in Hn.
Qed.

Definition backoff_ok (s : poolState) : Prop :=
  ps_backoff s = 0%Z ∨ (refillBackoffMin ≤ ps_backoff s ≤ refillBackoffMax)%Z.

(** The refill loop is polite.  A pass starts at most one fill, none while
    one runs and none while the home drains; it gives every grant one turn,
    starting right after the grant filled last; and failures back off between
    100 ms and 30 s, doubling, from the moment they are seen. *)
Theorem refill_discipline (E : Type) (HE : Env E) (w : World E) :
  (length (refillPass w).1.2 ≤ if w_filling w || w_draining w then 0 else 1)%nat ∧
  (∀ last sts, rotate last sts ≡ₚ sts) ∧
  (∀ last sts i st, list_find (λ st, negb (bool_decide (String.le (StGrantUID st) last)) = true) sts = Some (i, st) →
     head (rotate last sts) = Some st ∧ ~ String.le (StGrantUID st) last) ∧
  (∀ g w, (refillTurn false g w).1 = StartFill →
     w_filling (refillTurn false g w).2 = true ∧ w_lastFill (refillTurn false g w).2 = UID g ∧ (0 < FiberWarm g)%Z) ∧
  (∀ now s, backoff_ok s →
     (refillBackoffMin ≤ ps_backoff (delay now s) ≤ refillBackoffMax)%Z ∧ backoff_ok (delay now s) ∧
     ps_backoff (delay now s) = Z.max refillBackoffMin (Z.min (2 * ps_backoff s) refillBackoffMax) ∧
     ps_until (delay now s) = (now + ps_backoff (delay now s))%Z ∧ ps_noPool (delay now s) = ps_noPool s).
Proof.
  split_and!.
  - unfold refillPass. rewrite St_bind_run. cbn [gets fst snd]. destruct e_Pooler; [|cbn; lia].
    destruct (w_draining w); [cbn; lia|]. rewrite 3!St_bind_run. cbn [gets fst snd ledger].
    destruct (refillTurns_one (rotate (w_lastFill w) ((Statuses ∘ w_led) w)) (w_filling w) Time.zero [] w) as (new & -> & Hl).
    cbn [app]. by destruct (w_filling w).
  - apply rotate_perm.
  - apply rotate_next.
  - intros g w'. apply refillTurn_marks.
  - intros now s Hs. unfold backoff_ok, delay, refillBackoffMin, refillBackoffMax, Time.Add in *. cbn [ps_backoff ps_until ps_noPool].
    unfold Time.Millisecond, Time.Second in *.
    destruct (ps_backoff s =? 0)%Z eqn:E0; [apply Z.eqb_eq in E0; rewrite E0; split_and!; try lia; done|].
    apply Z.eqb_neq in E0. destruct (ps_backoff s <? _)%Z eqn:El; [apply Z.ltb_lt in El|apply Z.ltb_ge in El]; split_and!; try lia; done.
Qed.
