(* ===== verification/Encoding.v ===== *)
(** * Byte encodings of Go's standard library

    encoding/base32 and encoding/base64 without padding, and encoding/hex, as
    one scheme: the bits of the bytes, most significant first, in groups of
    [k], each group a character of an alphabet, the last filled with zeros. *)

From Stdlib Require Import Ascii Strings.Byte.
From S2P Require Import Prelude GoLib.
From stdpp Require Import options.

Notation bytes := (list Byte.byte) (only parsing).
Definition u8 (b : Byte.byte) : N := Byte.to_N b.

Definition byteBits (b : Byte.byte) : list bool :=
  (λ i, N.testbit (u8 b) (N.of_nat i)) <$> [7; 6; 5; 4; 3; 2; 1; 0].
Definition bitsN (bs : list bool) : N := foldl (λ n b, (2 * n + N.b2n b)%N) 0%N bs.

(** The groups of [k] bits, the last one filled up. *)
Fixpoint groups (fuel k : nat) (bs : list bool) : list (list bool) :=
  match fuel, bs with
  | S fuel', _ :: _ => take k (bs ++ repeat false k) :: groups fuel' k (drop k bs)
  | _, _ => []
  end.

Definition alphabetChar (alphabet : string) (n : N) : ascii := default "A"%char (String.get (N.to_nat n) alphabet).
Definition encodeBits (k : nat) (alphabet : string) (b : bytes) : string :=
  let bs := b ≫= byteBits in
  foldr (λ g s, String (alphabetChar alphabet (bitsN g)) s) "" (groups (length bs) k bs).

(** [base32.StdEncoding.WithPadding(base32.NoPadding)] *)
Definition base32Alphabet : string := "ABCDEFGHIJKLMNOPQRSTUVWXYZ234567".
Definition base32 : bytes → string := encodeBits 5 base32Alphabet.
(** [base64.RawURLEncoding] *)
Definition base64urlAlphabet : string := "ABCDEFGHIJKLMNOPQRSTUVWXYZabcdefghijklmnopqrstuvwxyz0123456789-_".
Definition base64url : bytes → string := encodeBits 6 base64urlAlphabet.
(** [hex.EncodeToString] *)
Definition hexAlphabet : string := "0123456789abcdef".
Definition hex : bytes → string := encodeBits 4 hexAlphabet.

(** ** What the encodings promise *)

Lemma get_all_chars p s n c : all_chars p s = true → String.get n s = Some c → p c = true.
Proof.
  revert n. induction s as [|d s IH]; intros [|n]; cbn; try done; intros H; breflect; [congruence|]. by apply IH.
Qed.
Lemma encodeBits_chars p k alphabet b :
  p "A"%char = true → all_chars p alphabet = true → all_chars p (encodeBits k alphabet b) = true.
Proof.
  intros Ha Hp. unfold encodeBits. cbv zeta. induction (groups _ k _) as [|g gs IH]; [done|]. cbn. rewrite IH.
  unfold alphabetChar. destruct (String.get _ alphabet) eqn:E; cbn; rewrite ?Ha; [|done]. by rewrite (get_all_chars p _ _ _ Hp E).
Qed.

Lemma byteBits_inj a b : byteBits a = byteBits b → a = b.
Proof.
  unfold byteBits. cbn. intros [= H7 H6 H5 H4 H3 H2 H1 H0]. assert (u8 a = u8 b) as E.
  { apply N.bits_inj. intros i. destruct (decide (i < 8)%N) as [Hi|Hi].
    - assert (i = 0 ∨ i = 1 ∨ i = 2 ∨ i = 3 ∨ i = 4 ∨ i = 5 ∨ i = 6 ∨ i = 7)%N as Hc by lia.
      destruct Hc as [->|[->|[->|[->|[->|[->|[->| ->]]]]]]]; done.
    - rewrite !N.bits_above_log2; [done| |]; unfold u8;
        (match goal with |- (N.log2 (Byte.to_N ?x) < _)%N => pose proof (Byte.to_N_bounded x); destruct (decide (Byte.to_N x = 0)%N) as [->|]; [cbn; lia|];
           apply N.lt_le_trans with 8%N; [apply N.log2_lt_pow2; [lia|change (2 ^ 8)%N with 256%N; lia]|lia] end). }
  unfold u8 in E. apply (f_equal Byte.of_N) in E. rewrite !Byte.of_to_N in E. congruence.
Qed.

Lemma length_byteBits b : length (b ≫= byteBits) = (8 * length b)%nat.
Proof. induction b as [|x b IH]; [done|]. rewrite bind_cons, length_app, IH. cbn. lia. Qed.

Lemma bytesBits_inj a : ∀ b, a ≫= byteBits = b ≫= byteBits → a = b.
Proof.
  induction a as [|x a IH]; intros [|y b] E.
  - done.
  - by apply (f_equal length) in E.
  - by apply (f_equal length) in E.
  - rewrite !bind_cons in E. apply app_inj_1 in E as [E1%byteBits_inj E2%IH]; [congruence|done].
Qed.

Lemma bitsN_foldl bs n : foldl (λ n b, (2 * n + N.b2n b)%N) n bs = (n * 2 ^ N.of_nat (length bs) + bitsN bs)%N.
Proof.
  unfold bitsN. revert n. induction bs as [|b bs IH]; intros n; cbn [foldl length]; [cbn; lia|].
  rewrite IH, (IH (2 * 0 + N.b2n b)%N). rewrite Nat2N.inj_succ, N.pow_succ_r'. lia.
Qed.
Lemma bitsN_cons b bs : bitsN (b :: bs) = (N.b2n b * 2 ^ N.of_nat (length bs) + bitsN bs)%N.
Proof. unfold bitsN at 1. cbn [foldl]. rewrite bitsN_foldl. by destruct b. Qed.
Lemma bitsN_lt bs : (bitsN bs < 2 ^ N.of_nat (length bs))%N.
Proof.
  induction bs as [|b bs IH]; [cbn; lia|]. rewrite bitsN_cons. cbn [length]. rewrite Nat2N.inj_succ, N.pow_succ_r'.
  destruct b; cbn [N.b2n]; lia.
Qed.
Lemma bitsN_inj a : ∀ b, length a = length b → bitsN a = bitsN b → a = b.
Proof.
  induction a as [|x a IH]; intros [|y b] Hl E; try done. injection Hl as Hl.
  rewrite !bitsN_cons, Hl in E. pose proof (bitsN_lt a) as H1. pose proof (bitsN_lt b) as H2. rewrite Hl in H1.
  destruct x, y; cbn [N.b2n] in E; try lia; f_equal; apply IH; [done|lia|done|lia].
Qed.

(** An alphabet of [2^k] different characters. *)
Definition alphabetOK (k : nat) (alphabet : string) : Prop :=
  String.length alphabet = (2 ^ k)%nat ∧ NoDup (String.list_ascii_of_string alphabet).

Lemma get_lookup s n : String.get n s = String.list_ascii_of_string s !! n.
Proof. revert n. induction s as [|c s IH]; intros [|n]; cbn; done || apply IH. Qed.
Lemma length_list_ascii s : length (String.list_ascii_of_string s) = String.length s.
Proof. induction s as [|c s IH]; [done|]. cbn. by rewrite IH. Qed.

Lemma alphabetChar_inj k alphabet m n : alphabetOK k alphabet → (m < 2 ^ N.of_nat k)%N → (n < 2 ^ N.of_nat k)%N →
  alphabetChar alphabet m = alphabetChar alphabet n → m = n.
Proof.
  intros [Hl Hd] Hm Hn. unfold alphabetChar. rewrite !get_lookup.
  assert (∀ x, (x < 2 ^ N.of_nat k)%N → is_Some (String.list_ascii_of_string alphabet !! N.to_nat x)) as Hs.
  { intros x Hx. apply lookup_lt_is_Some. rewrite length_list_ascii, Hl.
    replace (2 ^ k)%nat with (N.to_nat (2 ^ N.of_nat k)%N); [lia|]. by rewrite N2Nat.inj_pow, Nat2N.id. }
  destruct (Hs m Hm) as [c Ec], (Hs n Hn) as [d Ed]. rewrite Ec, Ed. cbn. intros <-.
  apply N2Nat.inj. by eapply NoDup_lookup.
Qed.

Definition padded (k : nat) (l : list bool) : list bool := take k (l ++ repeat false k).
Lemma length_padded k l : length (padded k l) = k.
Proof. unfold padded. rewrite length_take, length_app, repeat_length. lia. Qed.
Lemma padded_inj k a b : length a = length b → padded k a = padded k b → take k a = take k b.
Proof.
  intros Hl. unfold padded. rewrite !take_app. intros E. apply app_inj_1 in E; [by destruct E|]. by rewrite !length_take, Hl.
Qed.

Lemma groups_inj k alphabet fuel : (0 < k)%nat → alphabetOK k alphabet → ∀ a b, length a = length b → (length a ≤ fuel)%nat →
  foldr (λ g s, String (alphabetChar alphabet (bitsN g)) s) "" (groups fuel k a) =
  foldr (λ g s, String (alphabetChar alphabet (bitsN g)) s) "" (groups fuel k b) → a = b.
Proof.
  intros Hk Hal. induction fuel as [|fuel IH]; intros [|x a] [|y b] Hl Hf; try done; [cbn in Hf; lia|].
  cbn [groups foldr]. intros E. injection E as Hc Hr.
  change (take k _) with (padded k (x :: a)) in Hc at 1. change (take k (y :: b ++ _)) with (padded k (y :: b)) in Hc.
  assert (∀ l, (bitsN (padded k l) < 2 ^ N.of_nat k)%N) as Hb.
  { intros l. rewrite <- (length_padded k l) at 2. apply bitsN_lt. }
  apply (alphabetChar_inj k) in Hc; [|done|apply Hb..].
  apply bitsN_inj, padded_inj in Hc; [|done|by rewrite !length_padded].
  apply IH in Hr; [|by rewrite !length_drop, Hl|rewrite length_drop; cbn in Hf |- *; lia].
  by rewrite <- (take_drop k (x :: a)), <- (take_drop k (y :: b)), Hc, Hr.
Qed.

(** Different bytes of one length have different texts. *)
Lemma encodeBits_inj k alphabet a b : (0 < k)%nat → alphabetOK k alphabet → length a = length b →
  encodeBits k alphabet a = encodeBits k alphabet b → a = b.
Proof.
  intros Hk Hal Hl. unfold encodeBits. cbv zeta. rewrite !length_byteBits, Hl. intros E.
  apply bytesBits_inj. apply (groups_inj k alphabet (8 * length b)%nat); [done|done|rewrite !length_byteBits; lia|rewrite !length_byteBits; lia|done].
Qed.

Lemma base32_OK : alphabetOK 5 base32Alphabet.
Proof. split; [done|]. apply (bool_decide_unpack _). by vm_compute. Qed.
Lemma base64url_OK : alphabetOK 6 base64urlAlphabet.
Proof. split; [done|]. apply (bool_decide_unpack _). by vm_compute. Qed.
Lemma hex_OK : alphabetOK 4 hexAlphabet.
Proof. split; [done|]. apply (bool_decide_unpack _). by vm_compute. Qed.
