(* ===== verification/GoText.v ===== *)
(** * More of Go's strings, strconv and encoding/hex

    What the parsers of records, pools and files use: splitting at a byte,
    cutting, hexadecimal text and numbers narrower than 64 bits. *)

From Stdlib Require Import Ascii.
From S2P Require Import Prelude GoLib.
From stdpp Require Import options.

(** [strings.Split] and [bytes.Split] at a one-byte separator. *)
Fixpoint Split (sep : ascii) (s : string) : list string :=
  match s with
  | "" => [""]
  | String c s' =>
      if c ==? sep then "" :: Split sep s'
      else match Split sep s' with l :: ls => String c l :: ls | [] => [String c ""] end
  end.

(** [strings.Cut] at a one-byte separator; [None] when it is not there. *)
Fixpoint Cut (sep : ascii) (s : string) : option (string * string) :=
  match s with
  | "" => None
  | String c s' => if c ==? sep then Some ("", s') else '(a, b) ← Cut sep s'; Some (String c a, b)
  end.

(** [strconv.ParseUint(s, 10, bits)]; [None] is its error *)
Definition ParseUintW (bits : N) (s : string) : option N :=
  match ParseUint s with inl n => if (n <? 2 ^ bits)%N then Some n else None | inr _ => None end.

(** ** encoding/hex *)

Definition hexChar (n : N) : ascii := if (n <? 10)%N then byte (48 + n) else byte (87 + n).
(** [hex.EncodeToString] *)
Fixpoint hexEncode (s : string) : string :=
  match s with
  | "" => ""
  | String c s' => String (hexChar (N_of_ascii c / 16)) (String (hexChar (N_of_ascii c mod 16)) (hexEncode s'))
  end.
(** [fromHexChar]: both cases *)
Definition hexVal (c : ascii) : option N :=
  let n := N_of_ascii c in
  if in_range "0" "9" c then Some (n - 48)%N
  else if in_range "a" "f" c then Some (n - 87)%N
  else if in_range "A" "F" c then Some (n - 55)%N
  else None.
(** [hex.DecodeString]; [None] is its error *)
Fixpoint hexDecode (s : string) : option string :=
  match s with
  | "" => Some ""
  | String a (String b s') => x ← hexVal a; y ← hexVal b; r ← hexDecode s'; Some (String (byte (16 * x + y)) r)
  | String _ "" => None
  end.

(** ** unicode/utf8 *)

(** [utf8.ValidString]: no byte outside a well-formed sequence, no surrogate, no
    overlong form, nothing above U+10FFFF.  encoding/json writes U+FFFD for
    what is not, so only such a text is read back as it was. *)
Fixpoint ValidUTF8 (s : string) : bool :=
  let cont c := let n := N_of_ascii c in (128 <=? n)%N && (n <=? 191)%N in
  let within lo hi c := let n := N_of_ascii c in (lo <=? n)%N && (n <=? hi)%N in
  match s with
  | "" => true
  | String a s1 =>
      if within 0%N 127%N a then ValidUTF8 s1 else
      match s1 with
      | "" => false
      | String b s2 =>
          if within 194%N 223%N a then cont b && ValidUTF8 s2 else
          match s2 with
          | "" => false
          | String c s3 =>
              let three lo hi := within lo hi b && cont c && ValidUTF8 s3 in
              if within 224%N 224%N a then three 160%N 191%N
              else if within 237%N 237%N a then three 128%N 159%N
              else if within 225%N 239%N a then three 128%N 191%N
              else match s3 with
              | "" => false
              | String d s4 =>
                  let four lo hi := within lo hi b && cont c && cont d && ValidUTF8 s4 in
                  if within 240%N 240%N a then four 144%N 191%N
                  else if within 241%N 243%N a then four 128%N 191%N
                  else within 244%N 244%N a && four 128%N 143%N
              end
          end
      end
  end.
Lemma ascii_ValidUTF8 s : all_chars (λ c, (N_of_ascii c <? 128)%N) s = true → ValidUTF8 s = true.
Proof.
  induction s as [|c s IH]; [done|]. cbn [all_chars]. intros [Hc Hs]%andb_true_iff. cbn [ValidUTF8].
  rewrite (proj2 (N.leb_le 0 _)) by lia. rewrite (proj2 (N.leb_le _ 127)) by (apply N.ltb_lt in Hc; lia). by apply IH.
Qed.

(** ** Appending *)

Lemma str_get_app (a : string) c b : String.get (String.length a) (a +:+ String c b) = Some c.
Proof. induction a as [|d a IH]; [done|]. rewrite str_app_cons. exact IH. Qed.
Lemma str_take_all n (s : string) : (String.length s ≤ n)%nat → str_take n s = s.
Proof. revert n. induction s as [|c s IH]; intros [|n] H; cbn in H |- *; [done..|lia|]. by rewrite IH by lia. Qed.
Lemma str_drop_all n (s : string) : (String.length s ≤ n)%nat → str_drop n s = "".
Proof. revert n. induction s as [|c s IH]; intros [|n] H; cbn in H |- *; [done..|lia|]. by rewrite IH by lia. Qed.
Lemma str_length_take n (s : string) : String.length (str_take n s) = Nat.min n (String.length s).
Proof. revert s. induction n as [|n IH]; intros [|c s]; cbn; [done..|]. by rewrite IH. Qed.
Lemma str_length_drop n (s : string) : String.length (str_drop n s) = (String.length s - n)%nat.
Proof. revert s. induction n as [|n IH]; intros [|c s]; cbn; [done..|]. by rewrite IH. Qed.
Lemma str_take_app_eq n (a b : string) : n = String.length a → str_take n (a +:+ b) = a.
Proof. intros ->. apply str_take_app. Qed.
Lemma str_drop_app_eq n (a b : string) : n = String.length a → str_drop n (a +:+ b) = b.
Proof. intros ->. apply str_drop_app. Qed.
Lemma str_length_0 (s : string) : String.length s = 0 → s = "".
Proof. by destruct s. Qed.
Lemma str_app_inj_l (a b x y : string) : String.length a = String.length b → a +:+ x = b +:+ y → a = b ∧ x = y.
Proof.
  revert b. induction a as [|c a IH]; intros [|d b] Hl; try done. rewrite !str_app_cons.
  injection Hl as Hl. intros [= -> E]. by destruct (IH b Hl E) as [-> ->].
Qed.
Lemma str_app_inj_r (a x y : string) : a +:+ x = a +:+ y → x = y.
Proof. intros E. by destruct (str_app_inj_l a a x y eq_refl E). Qed.

Lemma prefix_split p s : HasPrefix s p = true → s = p +:+ str_drop (String.length p) s.
Proof.
  unfold HasPrefix. revert s. induction p as [|c p IH]; intros s; [done|]. destruct s as [|d s]; [done|]. simpl.
  destruct (ascii_dec c d) as [->|]; [|done]. intros H. rewrite str_app_cons. f_equal. by apply IH.
Qed.
Lemma HasPrefix_app (a s : string) : HasPrefix (a +:+ s) a = true.
Proof. unfold HasPrefix. induction a as [|c a IH]; [by destruct s|]. rewrite str_app_cons. simpl. by destruct (ascii_dec c c). Qed.

(** ** Splitting *)

Lemma Split_nonempty sep s : Split sep s ≠ [].
Proof. destruct s as [|c s]; [done|]. cbn. destruct (bool_decide _); [done|]. by destruct (Split sep s). Qed.

Lemma Split_none sep s : contains_char sep s = false → Split sep s = [s].
Proof.
  induction s as [|c s IH]; [done|]. cbn. intros H. breflect. rewrite bool_decide_eq_false_2 by congruence. by rewrite IH.
Qed.
Lemma Split_app sep a b : contains_char sep a = false → Split sep (a +:+ String sep b) = a :: Split sep b.
Proof.
  induction a as [|c a IH]; intros H; [rewrite str_app_nil_l; cbn; by rewrite bool_decide_eq_true_2|].
  rewrite str_app_cons. cbn in H |- *. breflect. rewrite bool_decide_eq_false_2 by congruence. by rewrite IH.
Qed.
Lemma Split_parts sep s f : f ∈ Split sep s → contains_char sep f = false.
Proof.
  revert f. induction s as [|c s IH]; intros f; cbn.
  - by intros ->%list_elem_of_singleton.
  - case_bool_decide as Hc; [intros [->|?]%elem_of_cons; eauto|]. destruct (Split sep s) as [|l ls]; [intros ->%list_elem_of_singleton; cbn; by rewrite bool_decide_eq_false_2 by congruence|].
    intros [->|Hf]%elem_of_cons; [cbn|apply IH; by right]. rewrite bool_decide_eq_false_2 by congruence. apply IH. by left.
Qed.

Lemma Cut_Some sep s a b : Cut sep s = Some (a, b) → s = a +:+ String sep b ∧ contains_char sep a = false.
Proof.
  revert a b. induction s as [|c s IH]; intros a b; cbn; [done|]. case_bool_decide as Hc; [intros [= <- <-]; by subst|].
  intros H. destruct (Cut sep s) as [[x y]|]; [|done]. cbn in H. simplify_eq.
  destruct (IH x b eq_refl) as [-> Hx]. rewrite str_app_cons. split; [done|]. cbn. by rewrite bool_decide_eq_false_2 by congruence.
Qed.
Lemma Cut_app sep a b : contains_char sep a = false → Cut sep (a +:+ String sep b) = Some (a, b).
Proof.
  induction a as [|c a IH]; intros H; [rewrite str_app_nil_l; cbn; by rewrite bool_decide_eq_true_2|].
  rewrite str_app_cons. cbn in H |- *. breflect. rewrite bool_decide_eq_false_2 by congruence. by rewrite IH.
Qed.

Lemma ParseUintW_bound bits s n : ParseUintW bits s = Some n → (n < 2 ^ bits)%N.
Proof. unfold ParseUintW. intros. case_all. by apply N.ltb_lt. Qed.

(** ** Hexadecimal *)

Lemma hexVal_hexChar n : (n < 16)%N → hexVal (hexChar n) = Some n.
Proof.
  intros Hn. assert (∃ k, (k < 16)%nat ∧ n = N.of_nat k) as (k & Hk & ->) by (exists (N.to_nat n); lia).
  do 16 (destruct k as [|k]; [reflexivity|]). lia.
Qed.
Lemma byte_N_of_ascii c : byte (N_of_ascii c) = c.
Proof. apply ascii_N_embedding. Qed.

Lemma hexDecode_hexEncode s : hexDecode (hexEncode s) = Some s.
Proof.
  induction s as [|c s IH]; [done|]. cbn [hexEncode hexDecode]. pose proof (N_ascii_bounded c) as Hc.
  rewrite !hexVal_hexChar, IH by (apply N.mod_lt || apply N.Div0.div_lt_upper_bound; lia). cbn.
  by rewrite <- N.Div0.div_mod, byte_N_of_ascii.
Qed.
Definition is_hex (c : ascii) : bool := match hexVal c with Some _ => true | None => false end.
Lemma hexEncode_chars s : all_chars is_hex (hexEncode s) = true.
Proof.
  induction s as [|c s IH]; [done|]. cbn [hexEncode all_chars]. pose proof (N_ascii_bounded c) as Hc. unfold is_hex at 1 2.
  by rewrite !hexVal_hexChar, IH by (apply N.mod_lt || apply N.Div0.div_lt_upper_bound; lia).
Qed.
Lemma length_hexEncode s : String.length (hexEncode s) = 2 * String.length s.
Proof. induction s as [|c s IH]; [done|]. cbn. rewrite IH. lia. Qed.
Lemma hexEncode_no_char c s : is_hex c = false → contains_char c (hexEncode s) = false.
Proof. intros H. eapply all_chars_contains; [exact H|apply hexEncode_chars]. Qed.
Lemma length_hexDecode s : ∀ t, hexDecode s = Some t → String.length s = 2 * String.length t.
Proof.
  assert (∀ n s t, (String.length s ≤ n)%nat → hexDecode s = Some t → String.length s = 2 * String.length t) as H.
  { induction n as [|n IH]; intros [|a [|b u]] t Hn E; cbn in Hn; try lia; try (by injection E as <-); try done.
    cbn in E. destruct (hexVal a), (hexVal b); cbn in E; try done. destruct (hexDecode u) as [r|] eqn:Er; [|done]. injection E as <-.
    cbn. rewrite (IH u r) by (done || lia). lia. }
  intros t. by apply (H (String.length s)).
Qed.
