(* ===== verification/Sni.v ===== *)
(** * The server name of a ClientHello (pkg/handoff/sni.go)

    [ServerName] over byte lists.  The two loops take fuel, which the claims
    show to be enough: [ServerName] always answers.  [hello] writes a
    ClientHello, the reference the parser is checked against. *)

From Stdlib Require Import Strings.Byte.
From S2P Require Import Prelude GoLib Encoding.
From stdpp Require Import options.

(** [binary.BigEndian.Uint16] of two bytes *)
Definition be16 (a b : Byte.byte) : N := (u8 a * 256 + u8 b)%N.

(** [const MaxHello] *)
Definition MaxHello : N := 5 + 16384.

(** errors.go *)
Inductive sniError := ErrShort | ErrNotTLS | ErrMalformed | ErrNoServerName.
#[global] Instance sniError_eq_dec : EqDecision sniError. Proof. solve_decision. Defined.

(** ** The parser: a read returns what it took and the rest *)

(** [func (p *parser) skip(n int) bool] *)
Definition skip (n : nat) (p : bytes) : option bytes :=
  if (length p <? n)%nat then None else Some (drop n p).

(** [func (p *parser) u16() (uint16, bool)] *)
Definition u16 (p : bytes) : option (N * bytes) :=
  match p with a :: b :: p' => Some (be16 a b, p') | _ => None end.

(** [func (p *parser) vec(lenBytes int) (parser, bool)], for 1 and 2 *)
Definition vec (lenBytes : nat) (p : bytes) : option (bytes * bytes) :=
  if (length p <? lenBytes)%nat then None
  else
    let n := N.to_nat (match lenBytes, p with
                       | 2, a :: b :: _ => be16 a b
                       | _, a :: _ => u8 a
                       | _, [] => 0%N
                       end) in
    let p := drop lenBytes p in
    if (length p <? n)%nat then None else Some (take n p, drop n p).

(** [func (p *parser) skipVec(lenBytes int) bool] *)
Definition skipVec (lenBytes : nat) (p : bytes) : option bytes := snd <$> vec lenBytes p.

(** ** ServerName *)

(** The loop over the names of the extension; [None] is out of fuel. *)
Fixpoint nameLoop (fuel : nat) (list : bytes) : option (bytes + sniError) :=
  match fuel with
  | 0 => None
  | S fuel' =>
      match list with
      | [] => Some (inr ErrNoServerName)
      | nameType :: rest =>
          match vec 2 rest with
          | None => Some (inr ErrMalformed)
          | Some (name, rest') =>
              if (u8 nameType =? 0)%N
              then Some (match name with [] => inr ErrMalformed | _ => inl name end)
              else nameLoop fuel' rest'
          end
      end
  end.

(** The loop over the extensions. *)
Fixpoint extLoop (fuel : nat) (exts : bytes) : option (bytes + sniError) :=
  match fuel with
  | 0 => None
  | S fuel' =>
      match exts with
      | [] => Some (inr ErrNoServerName)
      | _ =>
          match u16 exts with
          | None => Some (inr ErrMalformed)
          | Some (typ, exts1) =>
              match vec 2 exts1 with
              | None => Some (inr ErrMalformed)
              | Some (data, exts2) =>
                  if (typ =? 0)%N then
                    match vec 2 data with
                    | None => Some (inr ErrMalformed)
                    | Some (names, _) => nameLoop (S (length names)) names
                    end
                  else extLoop fuel' exts2
              end
          end
      end
  end.

(** The body of the ClientHello. *)
Definition helloBody (p : bytes) : option (bytes + sniError) :=
  match (p1 ← skip 34 p; p2 ← skipVec 1 p1; p3 ← skipVec 2 p2; skipVec 1 p3) with
  | None => Some (inr ErrMalformed)
  | Some [] => Some (inr ErrNoServerName)
  | Some p =>
      match vec 2 p with
      | None => Some (inr ErrMalformed)
      | Some (exts, _) => extLoop (S (length exts)) exts
      end
  end.

(** The handshake message in the record. *)
Definition handshake (rec : bytes) : option (bytes + sniError) :=
  match rec with
  | t :: a :: b :: c :: body =>
      if negb (u8 t =? 1)%N then Some (inr ErrNotTLS)
      else
        let hsLen := N.to_nat (u8 a * 65536 + u8 b * 256 + u8 c) in
        if (length body <? hsLen)%nat then Some (inr ErrMalformed) else helloBody (take hsLen body)
  | _ => Some (inr ErrNotTLS)
  end.

(** [func ServerName(b []byte) (string, error)] *)
Definition ServerName (b : bytes) : option (bytes + sniError) :=
  match b with
  | t :: v :: _ :: l1 :: l2 :: rest =>
      if negb (u8 t =? 22)%N || negb (u8 v =? 3)%N then Some (inr ErrNotTLS)
      else
        let recLen := be16 l1 l2 in
        if (MaxHello - 5 <? recLen)%N then Some (inr ErrMalformed)
        else if (length rest <? N.to_nat recLen)%nat then Some (inr ErrShort)
        else handshake (take (N.to_nat recLen) rest)
  | t :: _ => Some (inr (if (u8 t =? 22)%N then ErrShort else ErrNotTLS))
  | [] => Some (inr ErrShort)
  end.

(** ** The parser always answers *)

Lemma vec_length n p v r : vec n p = Some (v, r) → (length v + length r + n = length p)%nat.
Proof.
  unfold vec. destruct (length p <? n)%nat eqn:E1; [done|]. apply Nat.ltb_ge in E1.
  set (k := N.to_nat _). clearbody k. destruct (length (drop n p) <? k)%nat eqn:E2; [done|]. apply Nat.ltb_ge in E2.
  intros [= <- <-]. rewrite length_take, !length_drop in *. lia.
Qed.

(** An answer, and not that the bytes are too few. *)
Definition decides (r : option (bytes + sniError)) : Prop := is_Some r ∧ r ≠ Some (inr ErrShort).
Lemma decides_some r : r ≠ inr ErrShort → decides (Some r).
Proof. intros Hr. split; [by eexists|]. congruence. Qed.

Lemma nameLoop_decides fuel : ∀ l, (length l < fuel)%nat → decides (nameLoop fuel l).
Proof.
  induction fuel as [|fuel IH]; intros l Hl; [lia|]. cbn [nameLoop]. destruct l as [|t rest]; [by apply decides_some|].
  destruct (vec 2 rest) as [[name rest']|] eqn:Ev; [|by apply decides_some]. apply vec_length in Ev. cbn in Hl.
  destruct (u8 t =? 0)%N; [destruct name; by apply decides_some|]. apply IH. lia.
Qed.

Lemma extLoop_decides fuel : ∀ l, (length l < fuel)%nat → decides (extLoop fuel l).
Proof.
  induction fuel as [|fuel IH]; intros l Hl; [lia|]. cbn [extLoop]. destruct l as [|a [|b l]]; [by apply decides_some..|].
  cbn [u16]. destruct (vec 2 l) as [[data rest]|] eqn:Ev; [|by apply decides_some]. apply vec_length in Ev. cbn in Hl.
  destruct (be16 a b =? 0)%N; [|apply IH; lia].
  destruct (vec 2 data) as [[names ?]|]; [|by apply decides_some]. apply nameLoop_decides. lia.
Qed.

Lemma helloBody_decides p : decides (helloBody p).
Proof.
  unfold helloBody. destruct (p1 ← skip 34 p; _) as [[|a q]|]; [by apply decides_some| |by apply decides_some].
  destruct (vec 2 (a :: q)) as [[exts ?]|]; [|by apply decides_some]. apply extLoop_decides. lia.
Qed.

Lemma handshake_decides rec : decides (handshake rec).
Proof.
  unfold handshake. destruct rec as [|t [|a [|b [|c body]]]]; [by apply decides_some..|].
  destruct (negb _); [by apply decides_some|]. cbv zeta. destruct (_ <? _)%nat; [by apply decides_some|apply helloBody_decides].
Qed.

Lemma ServerName_total b : is_Some (ServerName b).
Proof.
  unfold ServerName. destruct b as [|t [|v [|y [|l1 [|l2 rest]]]]]; [by eexists..|].
  destruct (_ || _); [by eexists|]. cbv zeta. destruct (_ <? _)%N; [by eexists|]. destruct (_ <? _)%nat; [by eexists|].
  apply handshake_decides.
Qed.

(** Any answer but "short" is final. *)
Lemma ServerName_stable b x : ServerName b ≠ Some (inr ErrShort) → ServerName (b ++ x) = ServerName b.
Proof.
  unfold ServerName. destruct b as [|t [|v [|y [|l1 [|l2 rest]]]]]; cbn [app length]; [done| | | | |].
  1-4: destruct x as [|? [|? [|? [|? [|? ?]]]]]; cbn [app]; destruct (u8 t =? 22)%N; cbn; done.
  destruct (_ || _); [done|]. cbv zeta. destruct (_ <? be16 l1 l2)%N; [done|].
  destruct (length rest <? N.to_nat (be16 l1 l2))%nat eqn:El; [done|]. apply Nat.ltb_ge in El. intros _.
  rewrite (proj2 (Nat.ltb_ge _ _)) by (rewrite length_app; lia). by rewrite take_app_le.
Qed.

(** The record's header says how many bytes decide. *)
Lemma ServerName_short b :
  ServerName b = Some (inr ErrShort) →
  (length b < 5)%nat ∨ ∃ t v y l1 l2 rest, b = t :: v :: y :: l1 :: l2 :: rest ∧
    (length rest < N.to_nat (be16 l1 l2))%nat ∧ (be16 l1 l2 ≤ MaxHello - 5)%N.
Proof.
  unfold ServerName. destruct b as [|t [|v [|y [|l1 [|l2 rest]]]]]; cbn [length]; [left; lia..|].
  destruct (_ || _); [done|]. cbv zeta. destruct (_ <? be16 l1 l2)%N eqn:Em; [done|]. apply N.ltb_ge in Em.
  destruct (length rest <? N.to_nat (be16 l1 l2))%nat eqn:El.
  - apply Nat.ltb_lt in El. intros _. right. by exists t, v, y, l1, l2, rest.
  - intros E. by destruct (handshake_decides (take (N.to_nat (be16 l1 l2)) rest)) as [_ []].
Qed.

(** The routing decision is made once, and on time.  ServerName always
    answers; any answer but "short" is final, whatever bytes follow it, so the
    fiber chosen from a peeked prefix is the one the whole stream names; and
    MaxHello bytes are always enough to decide. *)
Theorem ServerName_decides b :
  is_Some (ServerName b) ∧
  (∀ x, ServerName b ≠ Some (inr ErrShort) → ServerName (b ++ x) = ServerName b) ∧
  ((N.to_nat MaxHello ≤ length b)%nat → ServerName b ≠ Some (inr ErrShort)).
Proof.
  split; [apply ServerName_total|]. split; [intros x; apply ServerName_stable|].
  intros Hl [Hs|(t & v & y & l1 & l2 & rest & -> & Hr & Hm)]%ServerName_short; unfold MaxHello in *; cbn in *; lia.
Qed.

(** ** Writing a ClientHello *)

Definition enc8 (n : N) : Byte.byte := default Byte.x00 (Byte.of_N (n mod 256)).
Definition enc16 (n : N) : bytes := [enc8 (n / 256); enc8 n].
Definition enc24 (n : N) : bytes := [enc8 (n / 65536); enc8 (n / 256); enc8 n].
Definition len (v : bytes) : N := N.of_nat (length v).
Definition vec8 (v : bytes) : bytes := enc8 (len v) :: v.
Definition vec16 (v : bytes) : bytes := enc16 (len v) ++ v.
Definition extension (e : N * bytes) : bytes := enc16 e.1 ++ vec16 e.2.
Definition serverNameExt (name : bytes) : N * bytes := (0%N, vec16 (Byte.x00 :: vec16 name)).

Record helloFields := mkHello {
  hf_versionRandom : bytes; hf_sessionID : bytes; hf_ciphers : bytes; hf_compression : bytes;
  hf_before : list (N * bytes); hf_after : bytes;
}.
Definition helloBytes (f : helloFields) (name : bytes) : bytes :=
  hf_versionRandom f ++ vec8 (hf_sessionID f) ++ vec16 (hf_ciphers f) ++ vec8 (hf_compression f) ++
  vec16 (concat (extension <$> hf_before f) ++ extension (serverNameExt name) ++ hf_after f).
(** One record with one ClientHello. *)
Definition hello (minor : Byte.byte) (f : helloFields) (name : bytes) : bytes :=
  [Byte.x16; Byte.x03; minor] ++ vec16 (Byte.x01 :: enc24 (len (helloBytes f name)) ++ helloBytes f name).

Lemma u8_enc8 n : u8 (enc8 n) = (n mod 256)%N.
Proof.
  unfold u8, enc8. assert (n mod 256 < 256)%N as Hlt by (apply N.mod_lt; lia).
  destruct (Byte.of_N (n mod 256)) as [b|] eqn:E.
  - by apply Byte.to_of_N in E.
  - apply Byte.of_N_None_iff in E. lia.
Qed.
Lemma be16_enc n : (n < 65536)%N → be16 (enc8 (n / 256)) (enc8 n) = n.
Proof.
  intros Hn. unfold be16. rewrite !u8_enc8. rewrite (N.mod_small (n / 256)) by (apply N.Div0.div_lt_upper_bound; lia).
  pose proof (N.div_mod' n 256). lia.
Qed.

Lemma vec_vec16 v x : (len v < 65536)%N → vec 2 (vec16 v ++ x) = Some (v, x).
Proof.
  intros Hv. unfold vec, vec16, enc16. cbn [app drop]. rewrite (proj2 (Nat.ltb_ge (length (_ :: _ :: _)) 2)) by (cbn; lia). cbv zeta.
  rewrite be16_enc by done. unfold len. rewrite Nat2N.id, drop_0.
  rewrite (proj2 (Nat.ltb_ge (length (v ++ x)) (length v))) by (rewrite length_app; lia).
  by rewrite take_app_length, drop_app_length.
Qed.
Lemma vec_vec8 v x : (len v < 256)%N → vec 1 (vec8 v ++ x) = Some (v, x).
Proof.
  intros Hv. unfold vec, vec8. cbn [app drop]. rewrite (proj2 (Nat.ltb_ge (length (_ :: _)) 1)) by (cbn; lia). cbv zeta.
  rewrite u8_enc8, N.mod_small by done. unfold len. rewrite Nat2N.id, drop_0.
  rewrite (proj2 (Nat.ltb_ge (length (v ++ x)) (length v))) by (rewrite length_app; lia).
  by rewrite take_app_length, drop_app_length.
Qed.

Lemma extLoop_extension fuel typ data x :
  (typ < 65536)%N → (len data < 65536)%N →
  extLoop (S fuel) (extension (typ, data) ++ x) =
    if (typ =? 0)%N then
      match vec 2 data with
      | None => Some (inr ErrMalformed)
      | Some (names, _) => nameLoop (S (length names)) names
      end
    else extLoop fuel x.
Proof.
  intros Ht Hd. unfold extension. cbn [fst snd]. unfold enc16 at 1. rewrite <- app_assoc.
  cbn [app extLoop u16]. by rewrite vec_vec16, be16_enc.
Qed.

(** A name the extension can carry: not empty, and short enough for the
    length fields around it. *)
Definition carried (name : bytes) : Prop := name ≠ [] ∧ (len name < 65531)%N.

Lemma nameLoop_name fuel name : carried name → nameLoop (S fuel) (Byte.x00 :: vec16 name) = Some (inl name).
Proof.
  intros [Hn Hl]. cbn [nameLoop]. rewrite <- (app_nil_r (vec16 name)), vec_vec16 by lia.
  cbn. by destruct name.
Qed.

Lemma extLoop_serverName fuel name x :
  carried name → extLoop (S fuel) (extension (serverNameExt name) ++ x) = Some (inl name).
Proof.
  intros Hn. unfold serverNameExt. assert (length (Byte.x00 :: vec16 name) = 3 + length name)%nat as E by done.
  assert (len (Byte.x00 :: vec16 name) < 65534)%N as Hl by (unfold len in *; rewrite E; destruct Hn as [_ Hn]; unfold len in Hn; lia).
  rewrite extLoop_extension; [|done|unfold len, vec16 in *; rewrite length_app, E; cbn; lia].
  cbn [N.eqb]. rewrite <- (app_nil_r (vec16 _)), vec_vec16 by lia. by apply nameLoop_name.
Qed.

(** Extensions other than server_name, each within its length field. *)
Definition others (es : list (N * bytes)) : Prop := Forall (λ e, (1 ≤ e.1 < 65536)%N ∧ (len e.2 < 65536)%N) es.

Lemma extLoop_finds name x : carried name → ∀ es fuel,
  others es → (length es < fuel)%nat →
  extLoop fuel (concat (extension <$> es) ++ extension (serverNameExt name) ++ x) = Some (inl name).
Proof.
  intros Hn es. induction es as [|[typ data] es IH]; intros fuel Hes Hf.
  - destruct fuel as [|fuel]; [lia|]. by apply extLoop_serverName.
  - apply Forall_cons in Hes as [[Ht Hd] Hes]. cbn in Ht, Hd, Hf. destruct fuel as [|fuel]; [lia|].
    cbn [fmap list_fmap concat]. rewrite <- app_assoc, extLoop_extension by lia.
    rewrite (proj2 (N.eqb_neq typ 0)) by lia. apply IH; [done|lia].
Qed.

Lemma length_extensions es : (length es ≤ length (concat (extension <$> es)))%nat.
Proof.
  induction es as [|[t d] es IH]; [done|]. rewrite fmap_cons. cbn [concat length]. rewrite length_app.
  change (length (extension (t, d))) with (4 + length d)%nat. lia.
Qed.

(** The fields a ClientHello may have, each within its length field. *)
Record fits (f : helloFields) : Prop := {
  fits_versionRandom : length (hf_versionRandom f) = 34%nat;
  fits_sessionID : (len (hf_sessionID f) < 256)%N;
  fits_ciphers : (len (hf_ciphers f) < 65536)%N;
  fits_compression : (len (hf_compression f) < 256)%N;
  fits_before : others (hf_before f);
}.

Lemma skip_app v x : skip (length v) (v ++ x) = Some x.
Proof. unfold skip. rewrite length_app, (proj2 (Nat.ltb_ge _ _)) by lia. by rewrite drop_app_length. Qed.

Lemma helloBody_helloBytes f name :
  fits f → carried name → (len (helloBytes f name) < 65536)%N → helloBody (helloBytes f name) = Some (inl name).
Proof.
  intros [Hv Hs Hc Hm Hb] Hn Hl. unfold helloBytes in *. unfold helloBody.
  rewrite <- Hv, skip_app. cbn [mbind option_bind]. unfold skipVec. rewrite vec_vec8 by done. cbn [fmap option_fmap option_map snd mbind option_bind].
  rewrite vec_vec16 by done. cbn [fmap option_fmap option_map snd mbind option_bind]. rewrite vec_vec8 by done.
  cbn [fmap option_fmap option_map snd mbind option_bind]. set (exts := concat _ ++ _) in *.
  assert (len exts < 65536)%N as He.
  { unfold len, vec16, vec8, enc16 in *. rewrite !length_app in Hl. cbn [length] in Hl. rewrite ?length_app in Hl. lia. }
  change (vec16 exts) with (enc8 (len exts / 256) :: enc8 (len exts) :: exts). cbn [fmap option_fmap option_map snd].
  change (enc8 (len exts / 256) :: enc8 (len exts) :: exts) with (vec16 exts).
  rewrite <- (app_nil_r (vec16 exts)), vec_vec16 by done. apply extLoop_finds; [done..|].
  unfold exts. rewrite length_app. pose proof (length_extensions (hf_before f)). lia.
Qed.

Lemma u24_enc n : (n < 16777216)%N → (u8 (enc8 (n / 65536)) * 65536 + u8 (enc8 (n / 256)) * 256 + u8 (enc8 n) = n)%N.
Proof.
  intros Hn. rewrite !u8_enc8, (N.mod_small (n / 65536)) by (apply N.Div0.div_lt_upper_bound; lia).
  replace (n / 65536)%N with (n / 256 / 256)%N by (rewrite N.Div0.div_div; done).
  pose proof (N.div_mod' n 256). pose proof (N.div_mod' (n / 256) 256). lia.
Qed.

Lemma ServerName_hello_reads minor f name x :
  fits f → carried name → (len (helloBytes f name) ≤ 16380)%N →
  ServerName (hello minor f name ++ x) = Some (inl name).
Proof.
  intros Hf Hn Hl. set (body := helloBytes f name) in *. set (rec := Byte.x01 :: enc24 (len body) ++ body).
  assert (len rec = 4 + len body)%N as Er by (unfold rec, enc24, len; cbn [length app]; lia).
  assert (be16 (enc8 (len rec / 256)) (enc8 (len rec)) = len rec) as Eb by (apply be16_enc; lia).
  unfold hello. fold body. fold rec. change (vec16 rec) with (enc8 (len rec / 256) :: enc8 (len rec) :: rec).
  cbn [app ServerName negb orb]. change (negb (u8 Byte.x16 =? 22)%N || negb (u8 Byte.x03 =? 3)%N) with false. cbn match. cbv zeta.
  rewrite Eb, (proj2 (N.ltb_ge (MaxHello - 5) (len rec))) by (unfold MaxHello; lia).
  unfold len at 1 2. rewrite Nat2N.id, (proj2 (Nat.ltb_ge (length (rec ++ x)) (length rec))) by (rewrite length_app; lia).
  rewrite take_app_length. unfold rec, enc24. cbn [app handshake]. change (negb (u8 Byte.x01 =? 1)%N) with false. cbn match. cbv zeta.
  rewrite u24_enc by lia. unfold len at 1 2. rewrite Nat2N.id, Nat.ltb_irrefl, firstn_all.
  apply helloBody_helloBytes; [done..|]. fold body. lia.
Qed.

(** The parser reads what a client writes.  For every ClientHello in one
    record of at most 16384 bytes (any version, random, session id, cipher
    suites, compression methods, any extensions before and any bytes after the
    server_name extension, any bytes after the record), ServerName returns
    exactly the server name the client wrote. *)
Theorem ServerName_hello minor f name x :
  fits f → carried name → (len (helloBytes f name) ≤ 16380)%N →
  ServerName (hello minor f name ++ x) = Some (inl name).
Proof. apply ServerName_hello_reads. Qed.

(** A ClientHello for k.fiberd with one extension before server_name. *)
Definition exampleHello : helloFields :=
  mkHello (repeat Byte.x03 34) [Byte.x07] [Byte.x13; Byte.x01] [Byte.x00] [(43%N, [Byte.x02; Byte.x03; Byte.x04])] [Byte.x00; Byte.x17].
Definition exampleName : bytes := String.list_byte_of_string "k.fiberd".
Lemma ServerName_hello_witness : ServerName (hello Byte.x01 exampleHello exampleName ++ [Byte.x42]) = Some (inl exampleName).
Proof.
  apply (ServerName_hello Byte.x01 exampleHello exampleName [Byte.x42]).
  - split; [reflexivity..|]. apply Forall_singleton. repeat split; discriminate.
  - split; [discriminate|reflexivity].
  - vm_compute. discriminate.
Defined.
