(* ===== verification/Router.v ===== *)
(** * The handoff router (pkg/handoff/router.go)

    The routing table, one connection's route (the peek loop over [ServerName],
    the lookup and the delivery), and Serve as a transition system: the
    acceptor and one goroutine per connection, each step one hold of the
    router's lock, one channel operation or one atomic add. *)

From Stdlib Require Import Ascii Strings.Byte.
From S2P Require Import Prelude GoLib Encoding Sni.
From stdpp Require Import options.

(** ** Constants *)

Definition DefaultHelloTimeout : Time.duration := Time.Second.
Definition DefaultMaxPending : Z := 1024%Z.
Definition maxPendingPerIP : Z := 32%Z.
Definition acceptBackoffMin : Time.duration := (5 * Time.Millisecond)%Z.
Definition acceptBackoffMax : Time.duration := Time.Second.
Definition helloBackoff : Time.duration := (5 * Time.Millisecond)%Z.
(** identity.go *)
Definition Suffix : string := ".fiberd".

(** ** The table *)

Record Router := mkRouter {
  r_keys : gmap string string;     (** routing key -> fiber id *)
  r_byFiber : gmap string string;  (** fiber id -> routing key *)
  r_perIP : gmap string Z;         (** source IP -> connections pending *)
  r_routed : N; r_refused : N;
}.
#[global] Instance Router_inhabited : Inhabited Router := populate (mkRouter ∅ ∅ ∅ 0 0).

Definition set_table (ks bf : gmap string string) (r : Router) : Router :=
  mkRouter ks bf (r_perIP r) (r_routed r) (r_refused r).
Definition set_perIP (m : gmap string Z) (r : Router) : Router :=
  mkRouter (r_keys r) (r_byFiber r) m (r_routed r) (r_refused r).

(** The key of the random bytes [Add] drew: keyEncoding is base32 without
    padding. *)
Definition routingKey (b : bytes) : string := ToLower (base32 b).

(** [func (r *Router) Add(fiberID string) (string, error)]; [rand] is what
    rand.Read filled the 16 bytes with, [None] its error. *)
Definition Add (rand : option bytes) (fiberID : string) (r : Router) : option string * Router :=
  match rand with
  | None => (None, r)
  | Some b =>
      let key := routingKey b in
      let keys := match r_byFiber r !! fiberID with Some old => delete old (r_keys r) | None => r_keys r end in
      (Some key, set_table (<[key := fiberID]> keys) (<[fiberID := key]> (r_byFiber r)) r)
  end.

(** [func (r *Router) Remove(fiberID string)] *)
Definition Remove (fiberID : string) (r : Router) : Router :=
  match r_byFiber r !! fiberID with
  | Some key => set_table (delete key (r_keys r)) (delete fiberID (r_byFiber r)) r
  | None => r
  end.

(** [func (r *Router) Key(fiberID string) (string, bool)] *)
Definition Key (fiberID : string) (r : Router) : option string := r_byFiber r !! fiberID.

(** [func (r *Router) lookup(serverName string) (string, bool)] *)
Definition lookupName (serverName : string) (r : Router) : option string :=
  key ← CutSuffix (ToLower serverName) Suffix; r_keys r !! key.

(** [func (r *Router) hold(ip string) bool] *)
Definition hold (ip : string) (r : Router) : bool * Router :=
  let n := default 0%Z (r_perIP r !! ip) in
  if (maxPendingPerIP <=? n)%Z then (false, r) else (true, set_perIP (<[ip := (n + 1)%Z]> (r_perIP r)) r).

(** [func (r *Router) release(ip string)] *)
Definition release (ip : string) (r : Router) : Router :=
  let n := (default 0%Z (r_perIP r !! ip) - 1)%Z in
  set_perIP (if (n <=? 0)%Z then delete ip (r_perIP r) else <[ip := n]> (r_perIP r)) r.

(** ** One connection *)

(** What one wait and MSG_PEEK of the socket gives: an error of the poller or of
    recvfrom, or the bytes that have arrived, none when the peer closed. *)
Inductive peeked := PollErr | RecvErr | Arrived (b : bytes).

Inductive routeError :=
  | RouteSni (e : sniError)       (** the hello was refused *)
  | RouteClosed                   (** closed before the ClientHello; wraps ErrShort *)
  | RoutePoll | RouteRecv         (** the socket failed *)
  | RouteDeadline                 (** os.ErrDeadlineExceeded *)
  | RouteNotTCP | RouteSyscall    (** not a TCP connection; a socket call failed *)
  | ErrUnknownRoute
  | RouteDeliver.                 (** the fiber refused the socket *)

(** A connection as the router sees it: what ends each wait for its socket and
    when, if anything ever does, and the time at the [k]-th reading of the clock
    in the peek loop.  An accepted connection has no read deadline. *)
Record conn := mkConn {
  c_isTCP : bool;
  c_setDeadline : bool;           (** SetReadDeadline succeeds *)
  c_syscallConn : bool;
  c_peek : nat → option (Time.t * peeked);   (** [None]: the peer stays silent *)
  c_readDeadline : option Time.t;
  c_start : Time.t;               (** the clock when route begins *)
  c_now : nat → Time.t;
  c_file : bool;                  (** tc.File succeeds *)
  c_nonblock : bool;              (** SetNonblock succeeds *)
}.

(** [func (c *TCPConn) SetReadDeadline(t time.Time) error], [None] its error. *)
Definition SetReadDeadline (d : Time.t) (c : conn) : option conn :=
  if c_setDeadline c
  then Some (mkConn (c_isTCP c) (c_setDeadline c) (c_syscallConn c) (c_peek c) (Some d) (c_start c) (c_now c)
                    (c_file c) (c_nonblock c))
  else None.

(** The [i]-th [rc.Read] of the loop: the poller waits until the socket has
    something or the read deadline passes.  Without a deadline a silent peer
    keeps it waiting for ever, which is [None]. *)
Definition waitPeek (c : conn) (i : nat) : option (peeked + routeError) :=
  match c_peek c i, c_readDeadline c with
  | Some (t, p), Some d => Some (if Time.After t d then inr RouteDeadline else inl p)
  | None, Some _ => Some (inr RouteDeadline)
  | Some (_, p), None => Some (inl p)
  | None, None => None
  end.

(** The loop of [peekServerName]: [i] peeks and [k] sleeps were made; [size] is
    len(buf).  [None] is a wait that never ends, or out of fuel. *)
Fixpoint peekLoop (fuel : nat) (c : conn) (deadline : Time.t) (i k size : nat) : option (bytes + routeError) :=
  match fuel with
  | 0 => None
  | S fuel' =>
      match waitPeek c i with
      | None => None
      | Some (inr e) => Some (inr e)
      | Some (inl PollErr) => Some (inr RoutePoll)
      | Some (inl RecvErr) => Some (inr RouteRecv)
      | Some (inl (Arrived a)) =>
          let b := take size a in
          if (length b =? 0)%nat then Some (inr RouteClosed)
          else
            match ServerName b with
            | None => None
            | Some (inl name) => Some (inl name)
            | Some (inr ErrShort) =>
                if (length b =? 5)%nat && (size =? 5)%nat then
                  match b with
                  | [_; _; _; l1; l2] => peekLoop fuel' c deadline (S i) k (5 + N.to_nat (be16 l1 l2))
                  | _ => None
                  end
                else if Time.After (Time.Add (c_now c k) helloBackoff) deadline then Some (inr RouteDeadline)
                else peekLoop fuel' c deadline (S i) (S k) size
            | Some (inr e) => Some (inr (RouteSni e))
            end
      end
  end.

(** [func peekServerName(tc *net.TCPConn, deadline time.Time) (string, error)] *)
Definition peekServerName (fuel : nat) (c : conn) (deadline : Time.t) : option (bytes + routeError) :=
  if c_syscallConn c then peekLoop fuel c deadline 0 0 5 else Some (inr RouteSyscall).

(** [Router]'s configuration: HelloTimeout, MaxPending and Deliver. *)
Record routerConfig := mkRouterConfig {
  rc_HelloTimeout : Time.duration;
  rc_MaxPending : Z;
  rc_Deliver : option (string → bool);   (** nil, or whether passing the socket to this fiber works *)
}.

Definition helloTimeout (cfg : routerConfig) : Time.duration :=
  if (rc_HelloTimeout cfg <=? 0)%Z then DefaultHelloTimeout else rc_HelloTimeout cfg.

(** [func (r *Router) route(c net.Conn) error]: the fiber the socket was
    passed to, or the error.  [r] is the table when the name was read. *)
Definition route (cfg : routerConfig) (fuel : nat) (c : conn) (r : Router) : option (string + routeError) :=
  if negb (c_isTCP c) then Some (inr RouteNotTCP)
  else
    let deadline := Time.Add (c_start c) (helloTimeout cfg) in
    match SetReadDeadline deadline c with
    | None => Some (inr RouteSyscall)
    | Some c =>
      match peekServerName fuel c deadline with
      | None => None
      | Some (inr e) => Some (inr e)
      | Some (inl name) =>
          match lookupName (String.string_of_list_byte name) r with
          | None => Some (inr ErrUnknownRoute)
          | Some fiberID =>
              if negb (c_file c) || negb (c_nonblock c) then Some (inr RouteSyscall)
              else match rc_Deliver cfg with
                   | None => Some (inr ErrUnknownRoute)
                   | Some deliver => Some (if deliver fiberID then inl fiberID else inr RouteDeliver)
                   end
          end
      end
    end.

(** ** Serve *)

(** A connection's goroutine: in route; after its counter, before the
    deferred receive from [pending]; between that and [release]. *)
Inductive phase := Routing | Counted | Unslotted.
(** The accept loop: in Accept; after [hold]; about to count a refusal. *)
Inductive acceptor := Accepting | Held (ip : string) | Refusing.
#[global] Instance phase_eq_dec : EqDecision phase. Proof. solve_decision. Defined.
#[global] Instance acceptor_eq_dec : EqDecision acceptor. Proof. solve_decision. Defined.

Record serving := mkServing {
  sv_router : Router;
  sv_pending : nat;                       (** tokens in the channel *)
  sv_acceptor : acceptor;
  sv_backoff : Time.duration;
  sv_conns : gmap nat (string * phase);   (** the goroutines, by a name of their own *)
  sv_accepted : N;                        (** ghost: connections accepted *)
}.

(** The channel's capacity. *)
Definition maxPending (cfg : routerConfig) : nat :=
  Z.to_nat (if (rc_MaxPending cfg <=? 0)%Z then DefaultMaxPending else rc_MaxPending cfg).

(** The pause after a failed accept. *)
Definition nextBackoff (backoff : Time.duration) : Time.duration :=
  let b := Z.min (2 * backoff)%Z acceptBackoffMax in if (b =? 0)%Z then acceptBackoffMin else b.

Definition count_routed (r : Router) : Router :=
  mkRouter (r_keys r) (r_byFiber r) (r_perIP r) (U64.succ (r_routed r)) (r_refused r).
Definition count_refused (r : Router) : Router :=
  mkRouter (r_keys r) (r_byFiber r) (r_perIP r) (r_routed r) (U64.succ (r_refused r)).

(** One step of the acceptor, of a goroutine, or of another thread on the table. *)
Inductive action :=
  | AcceptErr                     (** Accept failed; the loop sleeps *)
  | Accept (ip : string)          (** Accept returned, and hold *)
  | Spawn (id : nat)              (** the select: a slot, and a goroutine named [id]; or no slot, and release *)
  | CountRefusal
  | Routed (id : nat) (ok : bool) (** route returned, and the counter *)
  | Unslot (id : nat)             (** the deferred receive *)
  | Finish (id : nat)             (** release *)
  | TableAdd (rand : option bytes) (fiberID : string)
  | TableRemove (fiberID : string).

Definition serveStep (cfg : routerConfig) (a : action) (s : serving) : option serving :=
  let '(mkServing r p acc bo cs n) := s in
  match a, acc with
  | AcceptErr, Accepting => Some (mkServing r p Accepting (nextBackoff bo) cs n)
  | Accept ip, Accepting =>
      let '(ok, r') := hold ip r in
      Some (mkServing r' p (if ok then Held ip else Refusing) 0%Z cs (n + 1)%N)
  | Spawn id, Held ip =>
      if (p <? maxPending cfg)%nat
      then match cs !! id with
           | None => Some (mkServing r (S p) Accepting bo (<[id := (ip, Routing)]> cs) n)
           | Some _ => None
           end
      else Some (mkServing (release ip r) p Refusing bo cs n)
  | CountRefusal, Refusing => Some (mkServing (count_refused r) p Accepting bo cs n)
  | Routed id ok, _ =>
      match cs !! id with
      | Some (ip, Routing) =>
          Some (mkServing (if ok then count_routed r else count_refused r) p acc bo (<[id := (ip, Counted)]> cs) n)
      | _ => None
      end
  | Unslot id, _ =>
      match cs !! id with
      | Some (ip, Counted) => Some (mkServing r (pred p) acc bo (<[id := (ip, Unslotted)]> cs) n)
      | _ => None
      end
  | Finish id, _ =>
      match cs !! id with
      | Some (ip, Unslotted) => Some (mkServing (release ip r) p acc bo (delete id cs) n)
      | _ => None
      end
  | TableAdd rand f, _ => Some (mkServing (Add rand f r).2 p acc bo cs n)
  | TableRemove f, _ => Some (mkServing (Remove f r) p acc bo cs n)
  | _, _ => None
  end.

(** A fresh listener on a router no connection has reached. *)
Definition served0 (r : Router) : serving := mkServing (set_perIP ∅ (mkRouter (r_keys r) (r_byFiber r) ∅ 0 0)) 0 Accepting 0%Z ∅ 0.

Fixpoint serveRun (cfg : routerConfig) (l : list action) (s : serving) : option serving :=
  match l with
  | [] => Some s
  | a :: l' => s' ← serveStep cfg a s; serveRun cfg l' s'
  end.
