(* ===== verification/RouterServe.v ===== *)
(** * Serve's limits over every interleaving (pkg/handoff/router.go)

    An invariant of the transition system of [Router], by induction on runs. *)

From Stdlib Require Import Strings.Byte.
From S2P Require Import Prelude GoLib Encoding Sni Router.
From stdpp Require Import options.

(** ** The map of held slots as a counting function *)

(** [m] has [n] at the addresses that hold [n > 0] slots, and nothing else. *)
Definition tallies (m : gmap string Z) (h : string → nat) : Prop :=
  ∀ ip, m !! ip = if (h ip =? 0)%nat then None else Some (Z.of_nat (h ip)).

Lemma tallies_default m h ip : tallies m h → default 0%Z (m !! ip) = Z.of_nat (h ip).
Proof. intros Ht. rewrite Ht. destruct (h ip =? 0)%nat eqn:E; [|done]. apply Nat.eqb_eq in E. by rewrite E. Qed.

(** [h'] is [h] with one more at [ip]. *)
Definition oneMore (ip : string) (h h' : string → nat) : Prop :=
  h' ip = S (h ip) ∧ ∀ ip', ip' ≠ ip → h' ip' = h ip'.

Lemma hold_tallies ip r ok r' h : hold ip r = (ok, r') → tallies (r_perIP r) h →
  (ok = false ∧ r' = r ∧ (32 ≤ h ip)%nat) ∨
  (ok = true ∧ (h ip < 32)%nat ∧ r_routed r' = r_routed r ∧ r_refused r' = r_refused r ∧ ∀ h', oneMore ip h h' → tallies (r_perIP r') h').
Proof.
  unfold hold. intros Hh Ht. rewrite (tallies_default _ _ _ Ht) in Hh. unfold maxPendingPerIP in Hh.
  destruct (32 <=? Z.of_nat (h ip))%Z eqn:E; injection Hh as <- <-; breflect; [left; split; [done|]; split; [done|lia]|right].
  split; [done|]. split; [lia|]. split; [done|]. split; [done|]. intros h' [H1 H2] ip'. cbn. destruct (decide (ip' = ip)) as [->|Hne].
  - rewrite lookup_insert_eq, H1. cbn. f_equal. lia.
  - rewrite lookup_insert_ne by done. by rewrite Ht, H2.
Qed.

Lemma release_tallies ip r h h' : tallies (r_perIP r) h → oneMore ip h' h → tallies (r_perIP (release ip r)) h'.
Proof.
  intros Ht [H1 H2] ip'. unfold release. rewrite (tallies_default _ _ _ Ht), H1. cbn [r_perIP set_perIP].
  destruct (Z.of_nat (S (h' ip)) - 1 <=? 0)%Z eqn:E; breflect; destruct (decide (ip' = ip)) as [->|Hne].
  - rewrite lookup_delete_eq. by rewrite (proj2 (Nat.eqb_eq (h' ip) 0)) by lia.
  - rewrite lookup_delete_ne by done. by rewrite Ht, H2.
  - rewrite lookup_insert_eq, (proj2 (Nat.eqb_neq (h' ip) 0)) by lia. f_equal. lia.
  - rewrite lookup_insert_ne by done. by rewrite Ht, H2.
Qed.

(** ** The invariant *)

Definition of_ip (ip : string) (_ : nat) (c : string * phase) : bool := c.1 ==? ip.
Definition samePhase (p q : phase) : bool :=
  match p, q with Routing, Routing | Counted, Counted | Unslotted, Unslotted => true | _, _ => false end.
Definition in_phase (p : phase) (_ : nat) (c : string * phase) : bool := samePhase c.2 p.
Definition heldBy (acc : acceptor) (ip : string) : nat := if acc ==? Held ip then 1 else 0.

(** The slots an address holds: its goroutines, and the acceptor's own. *)
Definition heldSlots (s : serving) (ip : string) : nat := heldBy (sv_acceptor s) ip + count (of_ip ip) (sv_conns s).
Definition inPhase (p : phase) (s : serving) : nat := count (in_phase p) (sv_conns s).
(** Connections accepted and not counted yet. *)
Definition uncounted (s : serving) : nat := inPhase Routing s + match sv_acceptor s with Accepting => 0 | _ => 1 end.

Lemma Add_counters rand f r : r_perIP (Add rand f r).2 = r_perIP r ∧ r_routed (Add rand f r).2 = r_routed r ∧ r_refused (Add rand f r).2 = r_refused r.
Proof. by destruct rand. Qed.
Lemma Remove_counters f r : r_perIP (Remove f r) = r_perIP r ∧ r_routed (Remove f r) = r_routed r ∧ r_refused (Remove f r) = r_refused r.
Proof. unfold Remove. by destruct (r_byFiber r !! f). Qed.

Lemma wrap_succ_l a b c : U64.wrap (U64.succ a + b + c) = U64.wrap (a + b + c + 1).
Proof.
  unfold U64.succ, U64.add, U64.wrap. rewrite <- N.add_assoc, N.Div0.add_mod_idemp_l. f_equal. lia.
Qed.
Lemma wrap_succ_r a b c : U64.wrap (a + U64.succ b + c) = U64.wrap (a + b + c + 1).
Proof. rewrite (N.add_comm a), wrap_succ_l. f_equal. lia. Qed.

(** A goroutine moves to the next phase. *)
Lemma move_phase cs id ip p q : cs !! id = Some (ip, p) →
  (∀ ip', count (of_ip ip') (<[id := (ip, q)]> cs) = count (of_ip ip') cs) ∧
  ∀ x, ((if samePhase p x then 1 else 0) + count (in_phase x) (<[id := (ip, q)]> cs) = (if samePhase q x then 1 else 0) + count (in_phase x) cs)%nat.
Proof.
  intros E. split.
  - intros ip'. pose proof (count_insert (of_ip ip') cs id (ip, q) (ip, p) E) as H. unfold of_ip at 1 3 in H. cbn in H. lia.
  - intros x. apply (count_insert (in_phase x) cs id (ip, q) (ip, p) E).
Qed.

Lemma heldBy_eq ip ip' : heldBy (Held ip) ip' = if ip' ==? ip then 1 else 0.
Proof. unfold heldBy. repeat case_bool_decide; congruence. Qed.
Lemma of_ip_eq ip ip' id p : of_ip ip' id (ip, p) = (ip' ==? ip).
Proof. unfold of_ip. cbn. repeat case_bool_decide; congruence. Qed.
Lemma oneMore_at ip (h h' : string → nat) : (∀ ip', h' ip' = (if ip' ==? ip then 1 else 0) + h ip')%nat → oneMore ip h h'.
Proof.
  intros H. split; [by rewrite H, bool_decide_eq_true_2|]. intros ip' Hne. by rewrite H, bool_decide_eq_false_2.
Qed.

(** The slots: the map counts what is held, at most 32 each. *)
Definition slotsOK (s : serving) : Prop :=
  tallies (r_perIP (sv_router s)) (heldSlots s) ∧ ∀ ip, (heldSlots s ip ≤ 32)%nat.

Lemma slotsOK_same s s' : slotsOK s → r_perIP (sv_router s') = r_perIP (sv_router s) →
  (∀ ip, heldSlots s' ip = heldSlots s ip) → slotsOK s'.
Proof.
  intros [Ht Hl] E Hh. split; [|intros ip; by rewrite Hh]. intros ip. by rewrite E, Hh.
Qed.
Lemma slotsOK_release s s' ip : slotsOK s → sv_router s' = release ip (sv_router s) →
  (∀ ip', heldSlots s ip' = (if ip' ==? ip then 1 else 0) + heldSlots s' ip')%nat → slotsOK s'.
Proof.
  intros [Ht Hl] E Hh. split.
  - rewrite E. apply (release_tallies _ _ _ _ Ht). by apply oneMore_at.
  - intros ip'. specialize (Hl ip'). rewrite Hh in Hl. lia.
Qed.

Lemma serveStep_slotsOK cfg a s s' : slotsOK s → serveStep cfg a s = Some s' → slotsOK s'.
Proof.
  destruct s as [r p acc bo cs n]. intros HI. destruct a as [|ip|id| |id ok|id|id|rand f|f]; cbn [serveStep].
  - destruct acc; try done. intros [= <-]. by apply (slotsOK_same _ _ HI).
  - destruct acc; try done. destruct (hold ip r) as [ok r'] eqn:Eh.
    destruct (hold_tallies _ _ _ _ _ Eh (proj1 HI)) as [(-> & -> & _)|(-> & Hlt & _ & _ & Hh)]; intros [= <-].
    + by apply (slotsOK_same _ _ HI).
    + assert (∀ ip', heldSlots (mkServing r' p (Held ip) 0%Z cs (n + 1)) ip' =
        (if ip' ==? ip then 1 else 0) + heldSlots (mkServing r p Accepting bo cs n) ip')%nat as Hs.
      { intros ip'. unfold heldSlots. cbn. by rewrite heldBy_eq. }
      split; [by apply Hh, oneMore_at|]. intros ip'. rewrite Hs. case_bool_decide; subst; [lia|apply HI].
  - destruct acc as [|ip|]; try done. destruct (_ <? _)%nat.
    + destruct (cs !! id) eqn:E; [done|]. intros [= <-]. apply (slotsOK_same _ _ HI); [done|]. intros ip'.
      unfold heldSlots. cbn. by rewrite count_insert_new, heldBy_eq, of_ip_eq.
    + intros [= <-]. apply (slotsOK_release _ _ ip HI); [done|]. intros ip'. unfold heldSlots. cbn. by rewrite heldBy_eq.
  - destruct acc; try done. intros [= <-]. by apply (slotsOK_same _ _ HI).
  - destruct (cs !! id) as [[ip []]|] eqn:E; try done. intros [= <-]. apply (slotsOK_same _ _ HI); [by destruct ok|].
    intros ip'. unfold heldSlots. cbn. by rewrite (proj1 (move_phase cs id ip _ _ E)).
  - destruct (cs !! id) as [[ip []]|] eqn:E; try done. intros [= <-]. apply (slotsOK_same _ _ HI); [done|].
    intros ip'. unfold heldSlots. cbn. by rewrite (proj1 (move_phase cs id ip _ _ E)).
  - destruct (cs !! id) as [[ip []]|] eqn:E; try done. intros [= <-]. apply (slotsOK_release _ _ ip HI); [done|]. intros ip'.
    unfold heldSlots. cbn. rewrite (count_delete (of_ip ip') cs id _ E), of_ip_eq. lia.
  - intros [= <-]. apply (slotsOK_same _ _ HI); [apply Add_counters|done].
  - intros [= <-]. apply (slotsOK_same _ _ HI); [apply Remove_counters|done].
Qed.

(** The channel: one token per goroutine before its deferred receive. *)
Definition channelOK (cfg : routerConfig) (s : serving) : Prop :=
  (sv_pending s = inPhase Routing s + inPhase Counted s ∧ sv_pending s ≤ maxPending cfg)%nat.

Ltac phases E :=
  let H := fresh in pose proof (proj2 (move_phase _ _ _ _ Counted E)) as H;
  pose proof (H Routing); pose proof (H Counted); pose proof (H Unslotted); clear H;
  let H := fresh in pose proof (proj2 (move_phase _ _ _ _ Unslotted E)) as H;
  pose proof (H Routing); pose proof (H Counted); pose proof (H Unslotted); clear H; cbn in *.

Lemma serveStep_channelOK cfg a s s' : channelOK cfg s → serveStep cfg a s = Some s' → channelOK cfg s'.
Proof.
  destruct s as [r p acc bo cs n]. unfold channelOK, inPhase. intros [Hp Hm].
  destruct a as [|ip|id| |id ok|id|id|rand f|f]; cbn [serveStep].
  1,4: destruct acc; try done; intros [= <-]; done.
  - destruct acc; try done. destruct (hold ip r). by intros [= <-].
  - destruct acc as [|ip|]; try done. destruct (_ <? _)%nat eqn:El; [|by intros [= <-]]. apply Nat.ltb_lt in El.
    destruct (cs !! id) eqn:E; [done|]. intros [= <-]. cbn in *. rewrite !count_insert_new by done. cbn. lia.
  - destruct (cs !! id) as [[ip []]|] eqn:E; try done. phases E. intros [= <-]. cbn. lia.
  - destruct (cs !! id) as [[ip []]|] eqn:E; try done. phases E. intros [= <-]. cbn. lia.
  - destruct (cs !! id) as [[ip []]|] eqn:E; try done. intros [= <-]. cbn in *.
    rewrite (count_delete (in_phase Routing) cs id _ E), (count_delete (in_phase Counted) cs id _ E) in Hp. cbn in *. lia.
  - by intros [= <-].
  - by intros [= <-].
Qed.

(** The counters: every connection accepted is counted once, routed or refused. *)
Definition countersOK (s : serving) : Prop :=
  U64.wrap (r_routed (sv_router s) + r_refused (sv_router s) + N.of_nat (uncounted s)) = U64.wrap (sv_accepted s).

Lemma serveStep_countersOK cfg a s s' : countersOK s → serveStep cfg a s = Some s' → countersOK s'.
Proof.
  destruct s as [r p acc bo cs n]. unfold countersOK, uncounted, inPhase. intros Hc.
  destruct a as [|ip|id| |id ok|id|id|rand f|f]; cbn [serveStep].
  - destruct acc; try done. by intros [= <-].
  - destruct acc; try done. assert (r_routed (hold ip r).2 = r_routed r ∧ r_refused (hold ip r).2 = r_refused r) as [E1 E2].
    { unfold hold. by destruct (_ <=? _)%Z. }
    destruct (hold ip r) as [ok r']. cbn in E1, E2. intros [= <-]. cbn in *. rewrite E1, E2.
    assert (match (if ok then Held ip else Refusing) with Accepting => 0 | _ => 1 end = 1)%nat as -> by (by destruct ok).
    unfold U64.wrap in *. rewrite <- (N.Div0.add_mod_idemp_l n 1), <- Hc, N.Div0.add_mod_idemp_l. f_equal. lia.
  - destruct acc as [|ip|]; try done. destruct (_ <? _)%nat; [|by intros [= <-]].
    destruct (cs !! id) eqn:E; [done|]. intros [= <-]. cbn in *. rewrite count_insert_new by done. cbn.
    rewrite <- Hc. f_equal. lia.
  - destruct acc; try done. intros [= <-]. cbn in *. rewrite wrap_succ_r, <- Hc. f_equal. lia.
  - destruct (cs !! id) as [[ip []]|] eqn:E; try done. phases E. intros [= <-]. cbn.
    destruct ok; cbn; rewrite ?wrap_succ_l, ?wrap_succ_r, <- Hc; f_equal; lia.
  - destruct (cs !! id) as [[ip []]|] eqn:E; try done. phases E. intros [= <-]. cbn. rewrite <- Hc. f_equal. lia.
  - destruct (cs !! id) as [[ip []]|] eqn:E; try done. intros [= <-]. cbn in *.
    rewrite (count_delete (in_phase Routing) cs id _ E) in Hc. exact Hc.
  - intros [= <-]. cbn in *. destruct (Add_counters rand f r) as (_ & -> & ->). done.
  - intros [= <-]. cbn in *. destruct (Remove_counters f r) as (_ & -> & ->). done.
Qed.

(** ** Runs *)

Lemma serveRun_ind cfg (P : serving → Prop) : (∀ a s s', P s → serveStep cfg a s = Some s' → P s') →
  ∀ l s s', P s → serveRun cfg l s = Some s' → P s'.
Proof.
  intros Hstep l. induction l as [|a l IH]; intros s s' Hs; cbn; [by intros [= <-]|].
  rewrite bind_Some. intros (s1 & H1 & H2). eauto.
Qed.

Definition servingOK (cfg : routerConfig) (s : serving) : Prop := slotsOK s ∧ channelOK cfg s ∧ countersOK s.

Lemma serveRun_OK cfg l s s' : servingOK cfg s → serveRun cfg l s = Some s' → servingOK cfg s'.
Proof.
  apply serveRun_ind. intros a s1 s2 (H1 & H2 & H3) Hs.
  split_and!; eauto using serveStep_slotsOK, serveStep_channelOK, serveStep_countersOK.
Qed.

Lemma served0_OK cfg r : servingOK cfg (served0 r).
Proof.
  assert (∀ ip, heldSlots (served0 r) ip = 0%nat) as Hh by (intros ip; apply count_empty).
  split_and!; [split| |done].
  - intros ip. by rewrite Hh.
  - intros ip. rewrite Hh. lia.
  - split; cbn; [done|lia].
Qed.

Lemma reachable_OK cfg r l s : serveRun cfg l (served0 r) = Some s → servingOK cfg s.
Proof. apply serveRun_OK, served0_OK. Qed.

(** Serve's limits hold at every instant of every interleaving of its
    accept loop, its goroutines and the callers of Add and Remove: at most
    MaxPending connections wait for their ClientHello, no address holds more
    than 32 slots, and the perIP map says exactly how many each one holds, with
    no entry left at zero. *)
Theorem Serve_bounded cfg r l s :
  serveRun cfg l (served0 r) = Some s →
  (inPhase Routing s ≤ maxPending cfg)%nat ∧
  ∀ ip, (heldSlots s ip ≤ 32)%nat ∧
    r_perIP (sv_router s) !! ip = if (heldSlots s ip =? 0)%nat then None else Some (Z.of_nat (heldSlots s ip)).
Proof. intros ([Ht Hl] & [Hp Hm] & _)%reachable_OK. split; [lia|]. intros ip. split; [apply Hl|apply Ht]. Qed.

(** ** Every slot comes back *)

(** The steps that need no new connection. *)
Definition finishing (a : action) : Prop :=
  match a with Spawn _ | CountRefusal | Routed _ _ | Unslot _ | Finish _ => True | _ => False end.

(** The finishing steps that are left. *)
Definition work (s : serving) : nat :=
  3 * inPhase Routing s + 2 * inPhase Counted s + inPhase Unslotted s +
  match sv_acceptor s with Held _ => 4 | Refusing => 1 | Accepting => 0 end.

Lemma finishing_work cfg a s s' : finishing a → serveStep cfg a s = Some s' → (work s' < work s)%nat.
Proof.
  destruct s as [r p acc bo cs n]. unfold work, inPhase. destruct a as [|ip|id| |id ok|id|id|rand f|f]; try done; intros _; cbn [serveStep].
  - destruct acc as [|ip|]; try done. destruct (_ <? _)%nat; [|intros [= <-]; cbn; lia].
    destruct (cs !! id) eqn:E; [done|]. intros [= <-]. cbn. rewrite !count_insert_new by done. cbn. lia.
  - destruct acc; try done. intros [= <-]. cbn. lia.
  - destruct (cs !! id) as [[ip []]|] eqn:E; try done. phases E. intros [= <-]. cbn. lia.
  - destruct (cs !! id) as [[ip []]|] eqn:E; try done. phases E. intros [= <-]. cbn. lia.
  - destruct (cs !! id) as [[ip []]|] eqn:E; try done. intros [= <-]. cbn.
    rewrite (count_delete (in_phase Routing) cs id _ E), (count_delete (in_phase Counted) cs id _ E),
      (count_delete (in_phase Unslotted) cs id _ E). cbn. lia.
Qed.

Lemma finishing_run cfg l : Forall finishing l → ∀ s s', serveRun cfg l s = Some s' → (length l + work s' ≤ work s)%nat.
Proof.
  induction 1 as [|a l Ha _ IH]; intros s s'; cbn [serveRun length]; [by intros [= <-]|]. rewrite bind_Some.
  intros (s1 & H1 & H2%IH). apply finishing_work in H1; [lia|done].
Qed.

Lemma stuck_idle cfg s : (∀ a, finishing a → serveStep cfg a s = None) → sv_conns s = ∅ ∧ sv_acceptor s = Accepting.
Proof.
  destruct s as [r p acc bo cs n]. intros Hst. cbn. split.
  - apply map_empty. intros id. destruct (cs !! id) as [[ip ph]|] eqn:E; [|done].
    destruct ph; [specialize (Hst (Routed id true) I)|specialize (Hst (Unslot id) I)|specialize (Hst (Finish id) I)];
      cbn in Hst; rewrite E in Hst; done.
  - destruct acc as [|ip|]; [done| |by specialize (Hst CountRefusal I)].
    specialize (Hst (Spawn (fresh (dom cs))) I). cbn [serveStep] in Hst. destruct (_ <? _)%nat; [|done].
    assert (cs !! fresh (dom cs) = None) as E by (apply not_elem_of_dom, is_fresh). by rewrite E in Hst.
Qed.

(** Every slot comes back.  From any reachable state of Serve, however its
    threads interleave, at most [work s] steps can be taken without another
    accept, so connections cannot keep it busy; and when none is left to take,
    no goroutine runs, no address holds a slot, the channel is empty, and
    every connection accepted was counted as routed or refused exactly once
    (modulo 2^64). *)
Theorem Serve_drains cfg r l s :
  serveRun cfg l (served0 r) = Some s →
  (∀ l' s', Forall finishing l' → serveRun cfg l' s = Some s' → (length l' ≤ work s)%nat) ∧
  ∀ l' s', Forall finishing l' → serveRun cfg l' s = Some s' → (∀ a, finishing a → serveStep cfg a s' = None) →
    sv_conns s' = ∅ ∧ r_perIP (sv_router s') = ∅ ∧ sv_pending s' = 0%nat ∧ sv_acceptor s' = Accepting ∧
    U64.wrap (r_routed (sv_router s') + r_refused (sv_router s')) = U64.wrap (sv_accepted s').
Proof.
  intros HI%reachable_OK. split.
  - intros l' s' Hf Hr. pose proof (finishing_run cfg l' Hf s s' Hr). lia.
  - intros l' s' _ Hr Hst. apply stuck_idle in Hst as [E1 E2].
    destruct (serveRun_OK _ _ _ _ HI Hr) as ([Ht _] & [Hp _] & Hc).
    unfold inPhase, countersOK, uncounted, inPhase, heldSlots in *. rewrite E1, E2 in *. split; [done|]. split.
    + apply map_empty. intros ip. rewrite Ht. by rewrite count_empty.
    + split; [by rewrite Hp, !count_empty|]. split; [done|]. rewrite <- Hc, count_empty. f_equal. cbn. lia.
Qed.

(** A run: one address takes a slot, is routed and finishes; a second one is
    turned away by a channel of one slot. *)
Definition oneSlot : routerConfig := mkRouterConfig 0%Z 1%Z None.
Definition exampleRun : list action :=
  [Accept "10.0.0.1"; Spawn 0; AcceptErr; Accept "10.0.0.2"; Routed 0 true; Spawn 1].
Definition exampleRest : list action := [CountRefusal; Unslot 0; Finish 0].
Definition exampleServing : serving := default (served0 inhabitant) (serveRun oneSlot exampleRun (served0 inhabitant)).
Definition exampleIdle : serving := default (served0 inhabitant) (serveRun oneSlot exampleRest exampleServing).

Lemma Serve_bounded_witness :
  (inPhase Routing exampleServing ≤ 1)%nat ∧ r_perIP (sv_router exampleServing) !! "10.0.0.1" = Some 1%Z.
Proof.
  destruct (Serve_bounded oneSlot inhabitant exampleRun exampleServing) as [H1 H2]; [vm_compute; reflexivity|].
  split; [exact H1|]. rewrite (proj2 (H2 "10.0.0.1")). vm_compute. reflexivity.
Defined.

Lemma Serve_drains_witness :
  (length exampleRest ≤ work exampleServing)%nat ∧
  U64.wrap (r_routed (sv_router exampleIdle) + r_refused (sv_router exampleIdle)) = U64.wrap (sv_accepted exampleIdle).
Proof.
  destruct (Serve_drains oneSlot inhabitant exampleRun exampleServing) as [H1 H2]; [vm_compute; reflexivity|].
  assert (Forall finishing exampleRest) as Hf by (repeat constructor).
  assert (serveRun oneSlot exampleRest exampleServing = Some exampleIdle) as Hr by (vm_compute; reflexivity).
  split; [exact (H1 _ _ Hf Hr)|]. apply (H2 _ _ Hf Hr). intros a Ha.
  assert (exampleIdle = mkServing (sv_router exampleIdle) 0 Accepting 0%Z ∅ 2) as -> by (vm_compute; reflexivity).
  destruct a; cbn in Ha; try contradiction; reflexivity.
Defined.
