(* ===== verification/Proto.v ===== *)
(** * The grant on the wire (pkg/grant/convert.go, the messages of api/grant/v1)

    The generated message types as records, a nil submessage as [None], and the
    conversions to and from the core type with Go's integer and float
    conversions written out.  protobuf's Timestamp is used through the class
    [Timestamps]. *)

From S2P Require Import Prelude GoLib Errors Grant.
From stdpp Require Import options.

(** ** Go's float conversions *)

(** [float32(f)]: rounded to binary32, to nearest even.  Every binary32 value
    is a binary64 value, so [float64] of the result is exact. *)
Module F32.
Definition round (f : F64.t) : F64.t :=
  match f with
  | SpecFloat.S754_finite s m e => SpecFloat.binary_normalize 24 128 (if s then Z.neg m else Z.pos m) e s
  | _ => f
  end.
End F32.

(** ** timestamppb *)

Class Timestamps := {
  Timestamp : Type;
  ts_New : Time.t → Timestamp;
  ts_IsValid : Timestamp → bool;
  ts_AsTime : Timestamp → Time.t;
}.
(** What protobuf documents: [AsTime] inverts [New], and the instants of the
    years 1 to 9999 are valid. *)
Definition maxTimestamp : Time.t := ((253402300800 + Time.unixToInternal) * Time.Second)%Z.
Class TimestampLaws (T : Timestamps) : Prop := {
  ts_AsTime_New t : ts_AsTime (ts_New t) = t;
  ts_New_valid t : (0 ≤ t < maxTimestamp)%Z → ts_IsValid (ts_New t) = true;
}.

(** ** The messages *)

Record FiberLimits := mkFiberLimits { fl_Max : Z; fl_Warm : Z }.
Record PPolicy := mkPPolicy {
  pp_Durability : Z; pp_SessionClass : string; pp_AuditClass : string;
  pp_PsiShed : F64.t; pp_PsiPark : F64.t; pp_Isolation : Z; pp_EndpointMode : Z;
}.
Record PDeviceBudget := mkPDeviceBudget { pd_Bytes : N; pd_Class : string }.

Section conversion.
Context `{TS : Timestamps}.

Record CapacityGrant := mkCapacityGrant {
  cg_GrantUid : string; cg_Issuer : string; cg_Audience : string; cg_TemplateDigest : string;
  cg_Fibers : option FiberLimits; cg_WBudgetBytes : N; cg_MinTier : Z;
  cg_LeaseExpiry : option Timestamp; cg_Policy : option PPolicy;
  cg_DeviceBudget : option PDeviceBudget; cg_Tenant : string; cg_DiskBudgetBytes : N;
}.

(** [func FromProto(p *grantv1.CapacityGrant) core.Grant] *)
Definition FromProto (p : CapacityGrant) : Grant :=
  mkGrant (cg_GrantUid p) (cg_Issuer p) (cg_Audience p) (cg_TemplateDigest p) (cg_Tenant p)
    (from_option fl_Max 0%Z (cg_Fibers p)) (from_option fl_Warm 0%Z (cg_Fibers p))
    (cg_WBudgetBytes p) (cg_MinTier p)
    (match cg_LeaseExpiry p with
     | Some ts => if ts_IsValid ts then ts_AsTime ts else Time.zero
     | None => Time.zero
     end)
    (match cg_Policy p with
     | Some pol => mkPolicy (pp_Durability pol) (pp_SessionClass pol) (pp_AuditClass pol) (pp_PsiShed pol)
                     (pp_PsiPark pol) (pp_Isolation pol) (pp_EndpointMode pol)
     | None => zeroPolicy
     end)
    (match cg_DeviceBudget p with
     | Some d => mkDeviceBudget (pd_Bytes d) (pd_Class d)
     | None => mkDeviceBudget 0 ""
     end)
    (cg_DiskBudgetBytes p) "" "".

(** [func ToProto(g core.Grant) *grantv1.CapacityGrant] *)
Definition ToProto (g : Grant) : CapacityGrant :=
  let pol := GPolicy g in
  mkCapacityGrant (UID g) (Issuer g) (Audience g) (TemplateDigest g)
    (Some (mkFiberLimits (to_uint32 (FiberMax g)) (to_uint32 (FiberWarm g))))
    (WBudgetBytes g) (to_int32 (MinTier g))
    (if Time.IsZero (LeaseExpiry g) then None else Some (ts_New (LeaseExpiry g)))
    (Some (mkPPolicy (to_int32 (PDurability pol)) (SessionClass pol) (AuditClass pol)
             (F32.round (PSISomeAvg10Shed pol)) (F32.round (PSISomeAvg10Park pol))
             (to_int32 (PIsolation pol)) (to_int32 (PEndpointMode pol))))
    (if (0 <? DBytes (GDeviceBudget g))%N || (DClass (GDeviceBudget g) <>? "")
     then Some (mkPDeviceBudget (DBytes (GDeviceBudget g)) (DClass (GDeviceBudget g))) else None)
    (Tenant g) (DiskBudgetBytes g).

(** [func Deadline(ts *timestamppb.Timestamp, now time.Time) (time.Duration, bool)] *)
Definition Deadline (ts : option Timestamp) (now : Time.t) : option Time.duration :=
  match ts with
  | Some ts => if ts_IsValid ts then Some (Time.Sub (ts_AsTime ts) now) else None
  | None => None
  end.
End conversion.
#[global] Arguments CapacityGrant {TS}.

(** ** The round trip *)

(** The enumerations a grant carries are within int32. *)
Record enumsFit (g : Grant) : Prop := {
  fit_tier : (- 2 ^ 31 ≤ MinTier g < 2 ^ 31)%Z;
  fit_durability : (- 2 ^ 31 ≤ PDurability (GPolicy g) < 2 ^ 31)%Z;
  fit_isolation : (- 2 ^ 31 ≤ PIsolation (GPolicy g) < 2 ^ 31)%Z;
  fit_endpoint : (- 2 ^ 31 ≤ PEndpointMode (GPolicy g) < 2 ^ 31)%Z;
}.

(** A grant as the message carries it: without caller and token, which travel
    beside it, and with its two watermarks rounded to binary32. *)
Definition onWire (g : Grant) : Grant :=
  let pol := GPolicy g in
  mkGrant (UID g) (Issuer g) (Audience g) (TemplateDigest g) (Tenant g) (FiberMax g) (FiberWarm g)
    (WBudgetBytes g) (MinTier g) (LeaseExpiry g)
    (mkPolicy (PDurability pol) (SessionClass pol) (AuditClass pol) (F32.round (PSISomeAvg10Shed pol))
       (F32.round (PSISomeAvg10Park pol)) (PIsolation pol) (PEndpointMode pol))
    (GDeviceBudget g) (DiskBudgetBytes g) "" "".

Lemma FromProto_ToProto `{TS : Timestamps} {TL : TimestampLaws TS} g :
  (0 ≤ FiberMax g < 2 ^ 32)%Z → (0 ≤ FiberWarm g < 2 ^ 32)%Z → enumsFit g →
  (0 ≤ LeaseExpiry g < maxTimestamp)%Z →
  FromProto (ToProto g) = onWire g.
Proof.
  intros Hm Hw [H1 H2 H3 H4] Hl. unfold FromProto, ToProto, onWire. cbn.
  rewrite !to_uint32_small, !to_int32_small by done.
  assert (match (if Time.IsZero (LeaseExpiry g) then None else Some (ts_New (LeaseExpiry g))) with
          | Some ts => if ts_IsValid ts then ts_AsTime ts else Time.zero | None => Time.zero end = LeaseExpiry g) as ->.
  { unfold Time.IsZero. destruct (LeaseExpiry g =? 0)%Z eqn:E; [by apply Z.eqb_eq in E|].
    by rewrite ts_New_valid, ts_AsTime_New. }
  f_equal. destruct (GDeviceBudget g) as [b c]. cbn. destruct (0 <? b)%N eqn:Eb; cbn; [done|].
  case_bool_decide as Ec; cbn; [|done]. apply N.ltb_ge in Eb. subst. f_equal. lia.
Qed.

Lemma Validate_FiberWarm g : Validate g = [] → (0 ≤ FiberWarm g < 2 ^ 63)%Z → (0 ≤ FiberWarm g < 2 ^ 32)%Z.
Proof.
  intros H Hr. validate_parts H. split; [lia|].
  destruct (FiberWarm g <? 0)%Z eqn:E; [breflect; lia|].
  rewrite (U64.of_int_small (FiberWarm g)) in * by lia.
  destruct (MaxUint32 <? Z.to_N (FiberWarm g))%N eqn:E2; [done|]. breflect. unfold MaxUint32 in E2. lia.
Qed.
