(* ===== verification/Token.v ===== *)
(** * Grant tokens (pkg/grant: jwt.go, keys.go, issuer.go, errors.go)

    Signing, parsing and verifying a grant token, minting and renewing one.
    go-jose and protojson are used through the class [Jose]; [JoseLaws] states
    what their documentation promises of a signed token. *)

From Stdlib Require Import Strings.Byte.
From S2P Require Import Prelude GoLib GoText Encoding Errors Grant Proto.
From stdpp Require Import options.

(** errors.go, and the error of a failed step of which no sentinel tells. *)
Inductive tokenError :=
| ErrNoKID | ErrClaimMismatch | ErrTokenAudience | ErrWrongIssuer | ErrMissingGrant | ErrKeyMismatchAlg
| ErrTokenTooLarge | ErrLeaseTooLong | ErrEmptyGrant | ErrBadUID | ErrBadTenant
| ErrUnknownKey | ErrNeverLoaded | ErrJWKSStale
| VerifyUnavailable (e : tokenError)   (** core.ErrVerifyUnavailable wrapping [e] *)
| TokenFault (what : string).
#[global] Instance tokenError_eq_dec : EqDecision tokenError.
Proof. solve_decision. Defined.

(** Results with an error, and the early return on it. *)
Definition rbind {A B E} (m : A + E) (k : A → B + E) : B + E := match m with inl a => k a | inr e => inr e end.
Notation "'try' x := m ; k" := (rbind m (λ x, k)) (at level 90, x binder, m at level 89, k at level 90, right associativity).
Definition need {E} (b : bool) (e : E) : unit + E := if b then inl tt else inr e.
Definition orFail {A E} (o : option A) (e : E) : A + E := match o with Some a => inl a | None => inr e end.

Lemma rbind_inl {A B E} (m : A + E) (k : A → B + E) b : rbind m k = inl b ↔ ∃ a, m = inl a ∧ k a = inl b.
Proof. destruct m; cbn; naive_solver. Qed.
Lemma need_inl {E} b (e : E) u : need b e = inl u ↔ b = true.
Proof. destruct b, u; cbn; naive_solver. Qed.
Lemma orFail_inl {A E} (o : option A) (e : E) a : orFail o e = inl a ↔ o = Some a.
Proof. destruct o; cbn; naive_solver. Qed.

(** ** go-jose *)

(** What a key's [Key] field holds, as checkRingKey tells it apart. *)
Inductive keyKind := Ed25519Private | EcdsaPrivate (p256 : bool) | OtherKey.

Record header := mkHeader { h_KeyID : string; h_Algorithm : string }.
Record cnfClaim := mkCnf { cnf_JKT : string; cnf_X5tS256 : string }.

Class Jose := {
  key : Type;
  kind : key → keyKind;
  date : Type;                              (** jwt.NumericDate *)
  NewNumericDate : Time.t → option date;    (** nil for the zero time *)
  dateTime : date → Time.t;
  jwtoken : Type;                           (** a parsed *jwt.JSONWebToken *)
}.

Section jose.
Context `{J : Jose}.

(** [jose.JSONWebKey]; a nil Key is [None]. *)
Record JWK := mkJWK { k_Key : option key; k_KeyID : string; k_Algorithm : string; k_Use : string }.

(** [jwt.Claims] *)
Record stdClaims := mkStd {
  s_ID : string; s_Issuer : string; s_Audience : list string;
  s_Expiry : option date; s_IssuedAt : option date;
}.
(** [grantClaim]; an absent member is the empty message. *)
Record grantClaim := mkGrantClaim { gc_Grant : string; gc_Cnf : string }.
End jose.

Definition EdDSA : string := "EdDSA".
Definition ES256 : string := "ES256".
Definition AllowedAlgorithms : list string := [EdDSA; ES256].
(** [func allowed(alg jose.SignatureAlgorithm) bool] *)
Definition allowed (alg : string) : bool := existsb (λ a, a ==? alg) AllowedAlgorithms.

(** The operations of the library on these. *)
Class JoseOps `{J : Jose} `{TS : Timestamps} := {
  Valid : JWK → bool;
  IsPublic : JWK → bool;
  Public : JWK → JWK;
  ParseSigned : string → option jwtoken;             (** with AllowedAlgorithms *)
  Headers : jwtoken → list header;
  Claims : jwtoken → JWK → option (stdClaims * grantClaim);  (** checks the signature *)
  UnsafeClaims : jwtoken → option stdClaims;
  NewSigner : JWK → bool;
  Serialize : JWK → stdClaims → grantClaim → option string;
  protojson :: JSON CapacityGrant;
  cnfMarshal : cnfClaim → option string;             (** go-jose's json *)
  cnfUnmarshal : string → option cnfClaim;
}.

(** The registered claims' strings are valid UTF-8: JSON replaces other bytes. *)
Definition stdText `{J : Jose} (std : stdClaims) : Prop :=
  ValidUTF8 (s_ID std) = true ∧ ValidUTF8 (s_Issuer std) = true ∧ Forall (λ a, ValidUTF8 a = true) (s_Audience std).
(** A cnf claim as Sign writes it, the thumbprint a text. *)
Definition cnfText (c : cnfClaim) : Prop := ValidUTF8 (cnf_JKT c) = true ∧ cnf_X5tS256 c = "".
(** Serialize merges the claims and encodes them again, so the raw members of
    [gc] come back as other texts of the same JSON values: the grant reads as
    the message that was marshalled, the cnf as the claim that was, and is
    there only if it was. *)
Record sameClaim `{O : JoseOps} (gc gc' : grantClaim) : Prop := {
  sc_grant : ∀ p : CapacityGrant, Marshal p = Some (gc_Grant gc) → gc_Grant gc' ≠ "" ∧ Unmarshal (gc_Grant gc') = Some p;
  sc_none : gc_Cnf gc = "" → gc_Cnf gc' = "";
  sc_cnf : ∀ c, cnfText c → cnfMarshal c = Some (gc_Cnf gc) → gc_Cnf gc' ≠ "" ∧ cnfUnmarshal (gc_Cnf gc') = Some c;
}.

(** What the documentation promises: a token that was serialized under an
    allowed algorithm, its kid and registered claims of valid UTF-8, parses to
    one with one header, which carries the key's id and algorithm, and its
    claims are read back under the public half of the key, and without a key,
    the raw ones by value; the public half keeps id and algorithm, or is the
    empty key; a whole second of a date is kept.  A message that marshals has
    strings of valid UTF-8. *)
Class JoseLaws `{J : Jose} {TS : Timestamps} {O : JoseOps} : Prop := {
  law_parse k std gc token : Serialize k std gc = Some token →
    allowed (k_Algorithm k) = true → ValidUTF8 (k_KeyID k) = true → stdText std →
    ∃ tok gc', ParseSigned token = Some tok ∧ Headers tok = [mkHeader (k_KeyID k) (k_Algorithm k)] ∧
      Claims tok (Public k) = Some (std, gc') ∧ UnsafeClaims tok = Some std ∧ sameClaim gc gc';
  law_public k : (k_KeyID (Public k) = k_KeyID k ∧ k_Algorithm (Public k) = k_Algorithm k) ∨ Public k = mkJWK None "" "" "";
  law_date_zero : NewNumericDate Time.zero = None;
  law_date t : t ≠ 0%Z → ∃ d, NewNumericDate t = Some d ∧ dateTime d = Time.Truncate t Time.Second;
  law_protojson (p : CapacityGrant) b : Marshal p = Some b →
    ValidUTF8 (cg_GrantUid p) = true ∧ ValidUTF8 (cg_Issuer p) = true ∧ ValidUTF8 (cg_Audience p) = true;
}.

Definition MaxTokenBytes : nat := 8 * 1024.

(** [func checkUID(uid string) error] *)
Definition checkUID (uid : string) : unit + tokenError :=
  if uid ==? "" then inr ErrEmptyGrant else need (uidRE uid) ErrBadUID.
(** [func checkTenant(tenant string) error] *)
Definition checkTenant (tenant : string) : unit + tokenError :=
  need (negb ((tenant <>? "") && negb (tenantRE tenant))) ErrBadTenant.

Section token.
Context `{O : JoseOps}.

(** [func Sign(g core.Grant, key *jose.JSONWebKey, now time.Time) (string, error)] *)
Definition Sign (g : Grant) (k : option JWK) (now : Time.t) : string + tokenError :=
  try _ := need (negb ((UID g ==? "") || (Issuer g ==? "") || (Audience g ==? ""))) (TokenFault "required");
  try _ := checkUID (UID g);
  try _ := checkTenant (Tenant g);
  try k := orFail k (TokenFault "private key");
  try _ := need (negb (IsPublic k)) (TokenFault "private key");
  try _ := need (allowed (k_Algorithm k)) (TokenFault "alg");
  try _ := need (NewSigner k) (TokenFault "signer");
  try body := orFail (Marshal (ToProto g)) (TokenFault "protojson");
  let std := mkStd (UID g) (Issuer g) [Audience g]
               (if Time.IsZero (LeaseExpiry g) then None else NewNumericDate (LeaseExpiry g)) (NewNumericDate now) in
  try cnf := (if CallerThumbprint g <>? ""
              then orFail (cnfMarshal (mkCnf (CallerThumbprint g) "")) (TokenFault "cnf") else inl "");
  orFail (Serialize k std (mkGrantClaim body cnf)) (TokenFault "serialize").

(** [func parse(token string) ( *jwt.JSONWebToken, error)], with the one header *)
Definition parse (token : string) : (jwtoken * header) + tokenError :=
  if (MaxTokenBytes <? String.length token)%nat then inr ErrTokenTooLarge
  else
    try tok := orFail (ParseSigned token) (TokenFault "parse");
    match Headers tok with
    | [h] => inl (tok, h)
    | _ => inr (TokenFault "one signature")
    end.

(** [type VerifyOptions struct] *)
Record VerifyOptions := mkOpts { o_Audience : string; o_Issuer : string; o_MaxLease : Time.duration }.

(** The cnf claim of [verifyParsed]: the thumbprint it binds the grant to. *)
Definition readCnf (raw : string) : string + tokenError :=
  if raw ==? "" then inl ""
  else
    try cnf := orFail (cnfUnmarshal raw) (TokenFault "decode cnf");
    try _ := need (cnf_X5tS256 cnf ==? "") (TokenFault "x5t#S256");
    try _ := need (cnf_JKT cnf <>? "") (TokenFault "no jkt");
    inl (cnf_JKT cnf).

(** The cross-check of the registered claims against the grant. *)
Definition claimsAgree (std : stdClaims) (g : Grant) : bool :=
  (s_ID std ==? UID g) && (s_Issuer std ==? Issuer g) &&
  match s_Audience std with [a] => a ==? Audience g | _ => false end.
Definition expiryAgrees (std : stdClaims) (g : Grant) : bool :=
  match s_Expiry std with
  | None => Time.IsZero (LeaseExpiry g)
  | Some d => negb (Time.IsZero (LeaseExpiry g)) && Time.Equal (dateTime d) (Time.Truncate (LeaseExpiry g) Time.Second)
  end.
(** The bound on the signed lifetime. *)
Definition leaseFits (max : Time.duration) (std : stdClaims) : bool :=
  if (0 <? max)%Z then
    match s_Expiry std, s_IssuedAt std with
    | Some e, Some i => (Time.Sub (dateTime e) (dateTime i) <=? max)%Z
    | _, _ => false
    end
  else true.

(** [func verifyParsed(tok, pub, opts) (core.Grant, error)] *)
Definition verifyParsed (tok : jwtoken) (h : header) (pub : option JWK) (opts : VerifyOptions) : Grant + tokenError :=
  try pub := orFail pub (TokenFault "no key");
  try _ := need (negb ((k_Algorithm pub <>? "") && (k_Algorithm pub <>? h_Algorithm h))) ErrKeyMismatchAlg;
  try '(std, gc) := orFail (Claims tok pub) (TokenFault "signature");
  try _ := need (gc_Grant gc <>? "") ErrMissingGrant;
  try p := orFail (Unmarshal (A := CapacityGrant) (gc_Grant gc)) (TokenFault "decode grant");
  let g := FromProto p in
  try jkt := readCnf (gc_Cnf gc);
  let g := with_CallerThumbprint jkt g in
  try _ := checkUID (UID g);
  try _ := checkTenant (Tenant g);
  try _ := need (claimsAgree std g) ErrClaimMismatch;
  try _ := need (expiryAgrees std g) ErrClaimMismatch;
  try _ := need (negb ((o_Audience opts ==? "") || (Audience g <>? o_Audience opts))) ErrTokenAudience;
  try _ := need (negb ((o_Issuer opts <>? "") && (Issuer g <>? o_Issuer opts))) ErrWrongIssuer;
  try _ := need (leaseFits (o_MaxLease opts) std) ErrLeaseTooLong;
  inl g.

(** [func Verify(token string, pub *jose.JSONWebKey, opts VerifyOptions) (core.Grant, error)] *)
Definition Verify (token : string) (pub : option JWK) (opts : VerifyOptions) : Grant + tokenError :=
  try '(tok, h) := parse token; verifyParsed tok h pub opts.

(** insecure.go: [func (InsecureJSONVerifier) Verify] *)
Definition InsecureVerify (token : string) : Grant + tokenError :=
  try p := orFail (Unmarshal (A := CapacityGrant) token) (TokenFault "decode json grant");
  let g := FromProto p in
  try _ := checkUID (UID g);
  try _ := checkTenant (Tenant g);
  inl g.

(** ** Key rings (keyring.go), as far as the issuer uses them *)

Record StoredKey := mkStored { sk_JWK : JWK; sk_SignedUntil : option Time.t }.

(** [func (k StoredKey) retired() bool] *)
Definition retired (k : StoredKey) : bool :=
  match sk_SignedUntil k with Some t => negb (Time.IsZero t) | None => false end.

(** [func checkRingKey(k *jose.JSONWebKey) error] *)
Definition checkRingKey (k : JWK) : unit + tokenError :=
  try _ := need (Valid k) (TokenFault "not a valid JWK");
  try _ := need (negb (IsPublic k)) (TokenFault "no private key");
  try _ := need (k_KeyID k <>? "") (TokenFault "no kid");
  try _ := need (negb ((k_Use k <>? "") && (k_Use k <>? "sig"))) (TokenFault "use");
  try _ := need (allowed (k_Algorithm k)) (TokenFault "alg");
  need (match kind <$> k_Key k with
        | Some Ed25519Private => k_Algorithm k ==? EdDSA
        | Some (EcdsaPrivate p256) => (k_Algorithm k ==? ES256) && p256
        | _ => false
        end) (TokenFault "key does not match its alg").

(** [func (r KeyRing) Signing() ( *jose.JSONWebKey, error)] *)
Definition Signing (r : list StoredKey) : JWK + tokenError :=
  match r with
  | [] => inr (TokenFault "no signing key")
  | first :: _ =>
      try _ := need (negb (retired first)) (TokenFault "retired");
      try _ := checkRingKey (sk_JWK first);
      inl (sk_JWK first)
  end.

(** [func (r KeyRing) Public() jose.JSONWebKeySet] *)
Definition RingPublic (r : list StoredKey) : list JWK :=
  k ← r;
  if negb (Valid (sk_JWK k)) then []
  else let pub := Public (sk_JWK k) in match k_Key pub with Some _ => [pub] | None => [] end.

(** [func PublicJWKS(keys ...*jose.JSONWebKey) jose.JSONWebKeySet] *)
Definition PublicJWKS (keys : list JWK) : list JWK := Public <$> keys.

(** ** The issuer (issuer.go) *)

Record IssuerT := mkIssuer { i_Key : option JWK; i_Ring : list StoredKey; i_URL : string }.

(** [func (i *Issuer) signingKey() ( *jose.JSONWebKey, error)] *)
Definition signingKey (i : IssuerT) : option JWK + tokenError :=
  match i_Key i, i_Ring i with
  | None, [] => inr (TokenFault "needs a key and a URL")
  | k, r =>
      if i_URL i ==? "" then inr (TokenFault "needs a key and a URL")
      else match r with [] => inl k | _ => try s := Signing r; inl (Some s) end
  end.

Definition with_Issuer (u : string) (g : Grant) : Grant :=
  mkGrant (UID g) u (Audience g) (TemplateDigest g) (Tenant g) (FiberMax g) (FiberWarm g)
    (WBudgetBytes g) (MinTier g) (LeaseExpiry g) (GPolicy g) (GDeviceBudget g) (DiskBudgetBytes g)
    (CallerThumbprint g) (Token g).

(** [func (i *Issuer) Mint(g core.Grant) (string, error)] *)
Definition Mint (i : IssuerT) (g : Grant) (now : Time.t) : string + tokenError :=
  try _ := need (Validate g ==? []) (TokenFault "invalid grant");
  try k := signingKey i;
  Sign (with_Issuer (i_URL i) g) k now.

(** [func (i *Issuer) JWKS() jose.JSONWebKeySet] *)
Definition JWKS (i : IssuerT) : list JWK :=
  match i_Ring i with
  | [] => match i_Key i with None => [] | Some k => PublicJWKS [k] end
  | r => RingPublic r
  end.

(** [set.Key(kid)] of go-jose: the keys with this id. *)
Definition setKey (set : list JWK) (kid : string) : list JWK := filter (λ k, k_KeyID k = kid) set.

(** [func (i *Issuer) Renew(previous string, now time.Time) (string, error)] *)
Definition Renew (i : IssuerT) (previous : string) (now : Time.t) : string + tokenError :=
  try k := signingKey i;
  try '(tok, h) := parse previous;
  try _ := need (h_KeyID h <>? "") ErrNoKID;
  try pub := orFail (head (setKey (JWKS i) (h_KeyID h))) ErrUnknownKey;
  try std := orFail (UnsafeClaims tok) (TokenFault "parse claims");
  let aud := match s_Audience std with [a] => a | _ => "" end in
  try g := verifyParsed tok h (Some pub) (mkOpts aud (i_URL i) 0%Z);
  try '(e, iat) := match s_Expiry std, s_IssuedAt std with
                   | Some e, Some iat => inl (e, iat) | _, _ => inr (TokenFault "needs exp and iat") end;
  let lease := Time.Sub (dateTime e) (dateTime iat) in
  try _ := need (0 <? lease)%Z (TokenFault "positive lease");
  let at_ := Time.Truncate now Time.Second in
  let g := with_LeaseExpiry (Time.Add at_ lease) g in
  try _ := need (Validate g ==? []) (TokenFault "invalid grant");
  Sign g k at_.

(** [func PeekUID(token string) (string, error)] *)
Definition PeekUID (token : string) : string + tokenError :=
  try '(tok, _) := parse token;
  try std := orFail (UnsafeClaims tok) (TokenFault "claims");
  inl (s_ID std).

(** [func PeekExpiry(token string) (time.Time, error)] *)
Definition PeekExpiry (token : string) : Time.t + tokenError :=
  try '(tok, _) := parse token;
  try std := orFail (UnsafeClaims tok) (TokenFault "claims");
  match s_Expiry std with
  | None => inr (TokenFault "no exp")
  | Some d => inl (dateTime d)
  end.
End token.

(** ** An executable token library for the witnesses

    A small concrete instance of [Jose], [JoseOps] and [Timestamps] with proofs
    of their laws: texts are positions in a finite book of the values that are
    written.  It models no code; it shows that the laws can hold. *)
#[export] Instance nanoTimestamps : Timestamps :=
  {| Timestamp := Z; ts_New t := t; ts_IsValid t := (0 <=? t)%Z && (t <? maxTimestamp)%Z; ts_AsTime t := t |}.
#[export] Instance nanoTimestamps_laws : TimestampLaws nanoTimestamps.
Proof. split; [done|]. intros t [H1 H2]. cbn. by rewrite (proj2 (Z.leb_le _ _) H1), (proj2 (Z.ltb_lt _ _) H2). Qed.

(** A value's text is its position in the book. *)
Section book.
Context {A : Type} {dec : EqDecision A}.
Definition bookMarshal (l : list A) (a : A) : option string := (λ p, FormatUint (N.of_nat p.1)) <$> list_find (a =.) l.
Definition bookUnmarshal (l : list A) (b : string) : option A :=
  match ParseUint b with inl n => l !! N.to_nat n | inr _ => None end.

Lemma book_round l a b : (N.of_nat (length l) < U64.modulus)%N → bookMarshal l a = Some b → bookUnmarshal l b = Some a.
Proof.
  intros Hl. unfold bookMarshal, bookUnmarshal. rewrite fmap_Some. intros ([i x] & Hf & ->). cbn.
  apply list_find_Some in Hf as (Hi & <- & _). pose proof (lookup_lt_Some _ _ _ Hi).
  rewrite ParseUint_FormatUint by lia. by rewrite Nat2N.id.
Qed.
Lemma book_ne l a b : bookMarshal l a = Some b → b ≠ "".
Proof. unfold bookMarshal. rewrite fmap_Some. intros ([i x] & _ & ->). apply FormatUint_ne. Qed.

Definition bookJSON (l : list A) : JSON A.
Proof using dec.
  refine {| Marshal := bookMarshal (take 100 l); Unmarshal := bookUnmarshal (take 100 l) |}.
  intros a b. apply book_round. rewrite length_take. unfold U64.modulus. lia.
Defined.
End book.

(** Keys are named secrets; a token is what was signed and the secret it was
    signed with. *)
Record bookKey := mkBookKey { bk_private : bool; bk_secret : string }.
#[export] Instance bookKey_eq_dec : EqDecision bookKey. Proof. solve_decision. Defined.
#[export] Instance header_eq_dec : EqDecision header. Proof. solve_decision. Defined.
#[export] Instance cnfClaim_eq_dec : EqDecision cnfClaim. Proof. solve_decision. Defined.
#[export] Instance grantClaim_eq_dec : EqDecision grantClaim. Proof. solve_decision. Defined.

(** The registered claims of a book's token. *)
Record bookStd := mkBookStd { b_ID : string; b_Issuer : string; b_Audience : list string; b_Expiry : option Z; b_IssuedAt : option Z }.
#[export] Instance bookStd_eq_dec : EqDecision bookStd. Proof. solve_decision. Defined.
Record bookToken := mkBookToken { bt_header : header; bt_secret : string; bt_std : bookStd; bt_gc : grantClaim }.
#[export] Instance bookToken_eq_dec : EqDecision bookToken. Proof. solve_decision. Defined.

#[export] Instance bookJose : Jose :=
  {| key := bookKey; kind k := if bk_private k then Ed25519Private else OtherKey; date := Z;
     NewNumericDate t := if Time.IsZero t then None else Some (t / Time.Second)%Z;
     dateTime d := (d * Time.Second)%Z; jwtoken := bookToken |}.

Definition toBookStd (s : stdClaims) : bookStd := mkBookStd (s_ID s) (s_Issuer s) (s_Audience s) (s_Expiry s) (s_IssuedAt s).
Definition ofBookStd (s : bookStd) : stdClaims := mkStd (b_ID s) (b_Issuer s) (b_Audience s) (b_Expiry s) (b_IssuedAt s).

#[export] Instance CapacityGrant_eq_dec : EqDecision (@CapacityGrant nanoTimestamps).
Proof.
  assert (EqDecision (@Timestamp nanoTimestamps)) by (unfold Timestamp; cbn; apply _).
  assert (EqDecision FiberLimits) by solve_decision. assert (EqDecision PPolicy) by solve_decision.
  assert (EqDecision PDeviceBudget) by solve_decision. solve_decision.
Defined.

Definition messageText (p : CapacityGrant) : Prop :=
  ValidUTF8 (cg_GrantUid p) = true ∧ ValidUTF8 (cg_Issuer p) = true ∧ ValidUTF8 (cg_Audience p) = true.
#[export] Instance messageText_dec p : Decision (messageText p).
Proof. unfold messageText. apply _. Defined.
Lemma bookMarshal_in {A} `{EqDecision A} (l : list A) a b : bookMarshal l a = Some b → a ∈ l.
Proof. unfold bookMarshal. rewrite fmap_Some. intros ([i x] & Hf & _). apply list_find_Some in Hf as (Hi & <- & _). by eapply list_elem_of_lookup_2. Qed.

Definition secretOf (k : JWK) : string := from_option bk_secret "" (k_Key k).

Section ops.
(** The books: the messages, cnf claims and tokens that are written. *)
Context (messages : list CapacityGrant) (cnfs : list cnfClaim) (tokens : list bookToken).

Definition bookOps : JoseOps :=
  {| Valid k := bool_decide (is_Some (k_Key k)); IsPublic k := from_option (λ x, negb (bk_private x)) true (k_Key k);
     Public k := match k_Key k with
                 | Some x => mkJWK (Some (mkBookKey false (bk_secret x))) (k_KeyID k) (k_Algorithm k) (k_Use k)
                 | None => mkJWK None "" "" "" end;
     ParseSigned := bookUnmarshal (take 100 tokens);
     Headers t := [bt_header t];
     Claims t k := if bt_secret t ==? secretOf k then Some (ofBookStd (bt_std t), bt_gc t) else None;
     UnsafeClaims t := Some (ofBookStd (bt_std t));
     NewSigner k := true;
     Serialize k std gc := bookMarshal (take 100 tokens) (mkBookToken (mkHeader (k_KeyID k) (k_Algorithm k)) (secretOf k) (toBookStd std) gc);
     protojson := bookJSON (filter messageText messages);
     cnfMarshal := bookMarshal (take 100 cnfs); cnfUnmarshal := bookUnmarshal (take 100 cnfs) |}.

Lemma bookOps_laws : JoseLaws (O := bookOps).
Proof.
  assert (∀ {A} (l : list A), (N.of_nat (length (take 100 l)) < U64.modulus)%N) as Hlen by (intros; rewrite length_take; unfold U64.modulus; lia).
  split.
  - intros k std gc token Hs _ _ _. cbn [Serialize bookOps] in Hs. apply book_round in Hs; [|apply Hlen].
    eexists _, gc. split; [exact Hs|]. split; [done|]. split; [|split; [cbn; by destruct std|]].
    + destruct k as [[x|] kid alg use]; cbn; rewrite bool_decide_eq_true_2 by done; by destruct std.
    + split; [|done|]; intros a.
      * intros Hm. split; [exact (book_ne _ _ _ Hm)|]. by apply Unmarshal_Marshal.
      * intros _ Hm. cbn [cnfMarshal cnfUnmarshal bookOps] in *. split; [exact (book_ne _ _ _ Hm)|]. by apply book_round.
  - intros k. cbn. destruct (k_Key k); [by left|by right].
  - done.
  - intros t Ht. cbn. unfold Time.IsZero. rewrite (proj2 (Z.eqb_neq t 0)) by done. eexists. split; [done|]. unfold Time.Truncate. cbn.
    pose proof (Z.div_mod t Time.Second). unfold Time.Second in *. lia.
  - intros p b Hm%bookMarshal_in. apply (Forall_forall messageText (filter messageText messages)); [apply Forall_forall; by intros x [? _]%list_elem_of_filter|].
    apply elem_of_take in Hm as (i & Hi & _). by eapply list_elem_of_lookup_2.
Qed.
End ops.

(** ** A book with one grant and its renewal *)

Definition bookSigner : JWK := mkJWK (Some (mkBookKey true "s1")) "k1" EdDSA "sig".
Definition bookGrant : Grant := with_CallerThumbprint "abcdefghijklmnopqrstuvwxyzABCDEFGHIJKLMNOPQ" sampleGrant.
Definition bookNow : Time.t := (900 * Time.Second + 5)%Z.
Definition bookLater : Time.t := (2000 * Time.Second + 7)%Z.
Definition bookCnf : cnfClaim := mkCnf (CallerThumbprint bookGrant) "".
(** The grant a renewal of it signs. *)
Definition bookRenewed : Grant := with_LeaseExpiry (2100 * Time.Second)%Z (with_Token "" bookGrant).
Definition bookMessages : list CapacityGrant := [ToProto bookGrant; ToProto bookRenewed].
Definition bookHeader : header := mkHeader "k1" EdDSA.
Definition bookTokens : list bookToken :=
  [mkBookToken bookHeader "s1" (mkBookStd "g-1" "https://issuer" ["home-a"] (Some 1000%Z) (Some 900%Z)) (mkGrantClaim "0" "0");
   mkBookToken bookHeader "s1" (mkBookStd "g-1" "https://issuer" ["home-a"] (Some 2100%Z) (Some 2000%Z)) (mkGrantClaim "1" "0")].
#[export] Instance exampleOps : JoseOps := bookOps bookMessages [bookCnf] bookTokens.
#[export] Instance exampleLaws : JoseLaws := bookOps_laws bookMessages [bookCnf] bookTokens.
Definition bookIssuer : IssuerT := mkIssuer (Some bookSigner) [] "https://issuer".
