(* ===== verification/TokenFacts.v ===== *)
(** * What grant tokens promise (pkg/grant: jwt.go, issuer.go)

    An accepted token says what was signed, and the signed one is accepted: the
    round trips of Sign, Mint and Renew through Verify. *)

From S2P Require Import Prelude GoLib GoText Encoding Errors Grant Proto Token.
From stdpp Require Import options.

Lemma checkUID_inl uid u : checkUID uid = inl u ↔ uidRE uid = true.
Proof. unfold checkUID. case_bool_decide; [subst; cbn; by split|apply need_inl]. Qed.
Lemma checkTenant_inl t u : checkTenant t = inl u ↔ (t = "" ∨ tenantRE t = true).
Proof.
  unfold checkTenant. rewrite need_inl, negb_true_iff, andb_false_iff, !negb_false_iff, bool_decide_eq_true. done.
Qed.

(** Split a successful result into its steps. *)
Ltac tries H :=
  repeat match type of H with
  | rbind _ _ = inl _ =>
      let a := fresh "v" in let E := fresh "E" in
      apply rbind_inl in H as (a & E & H); cbv beta zeta in H;
      lazymatch type of E with
      | need _ _ = _ => apply need_inl in E
      | orFail _ _ = _ => apply orFail_inl in E
      | checkUID _ = _ => apply checkUID_inl in E
      | checkTenant _ = _ => apply checkTenant_inl in E
      | _ => idtac
      end
  end.

Section facts.
Context `{O : JoseOps}.

Lemma readCnf_inl raw jkt : readCnf raw = inl jkt →
  raw = "" ∧ jkt = "" ∨ raw ≠ "" ∧ jkt ≠ "" ∧ cnfUnmarshal raw = Some (mkCnf jkt "").
Proof.
  unfold readCnf. case_bool_decide; [intros [= <-]; by left|]. intros H1. tries H1. injection H1 as <-. breflect. right.
  split; [done|]. split; [done|]. destruct v as [j x]. cbn in *. congruence.
Qed.

(** A token's checks, in full. *)
Record accepted (tok : jwtoken) (h : header) (pub : JWK) (opts : VerifyOptions) (g : Grant)
    (std : stdClaims) (gc : grantClaim) (p : CapacityGrant) (jkt : string) : Prop := {
  ac_claims : Claims tok pub = Some (std, gc);
  ac_alg : k_Algorithm pub = "" ∨ k_Algorithm pub = h_Algorithm h;
  ac_message : Unmarshal (gc_Grant gc) = Some p;
  ac_grant : g = with_CallerThumbprint jkt (FromProto p);
  ac_cnf : gc_Cnf gc = "" ∧ jkt = "" ∨ jkt ≠ "" ∧ cnfUnmarshal (gc_Cnf gc) = Some (mkCnf jkt "");
  ac_uid : uidRE (UID g) = true;
  ac_tenant : Tenant g = "" ∨ tenantRE (Tenant g) = true;
  ac_registered : s_ID std = UID g ∧ s_Issuer std = Issuer g ∧ s_Audience std = [Audience g];
  ac_expiry : match s_Expiry std with
              | None => LeaseExpiry g = 0%Z
              | Some d => LeaseExpiry g ≠ 0%Z ∧ dateTime d = Time.Truncate (LeaseExpiry g) Time.Second
              end;
  ac_audience : o_Audience opts ≠ "" ∧ Audience g = o_Audience opts;
  ac_issuer : o_Issuer opts = "" ∨ Issuer g = o_Issuer opts;
  ac_lease : (0 < o_MaxLease opts)%Z → ∃ e i, s_Expiry std = Some e ∧ s_IssuedAt std = Some i ∧
    (Time.Sub (dateTime e) (dateTime i) ≤ o_MaxLease opts)%Z;
}.

Lemma claimsAgree_true std g : claimsAgree std g = true → s_ID std = UID g ∧ s_Issuer std = Issuer g ∧ s_Audience std = [Audience g].
Proof.
  unfold claimsAgree. intros H. breflect. destruct (s_Audience std) as [|a [|]]; try done. breflect. by subst.
Qed.
Lemma expiryAgrees_true std g : expiryAgrees std g = true ↔
  match s_Expiry std with
  | None => LeaseExpiry g = 0%Z
  | Some d => LeaseExpiry g ≠ 0%Z ∧ dateTime d = Time.Truncate (LeaseExpiry g) Time.Second
  end.
Proof.
  unfold expiryAgrees, Time.IsZero, Time.Equal. destruct (s_Expiry std); [|apply Z.eqb_eq].
  by rewrite andb_true_iff, negb_true_iff, Z.eqb_neq, Z.eqb_eq.
Qed.
Lemma leaseFits_true max std : leaseFits max std = true → (0 < max)%Z →
  ∃ e i, s_Expiry std = Some e ∧ s_IssuedAt std = Some i ∧ (Time.Sub (dateTime e) (dateTime i) ≤ max)%Z.
Proof.
  unfold leaseFits. intros H Hm. rewrite (proj2 (Z.ltb_lt _ _) Hm) in H.
  destruct (s_Expiry std) as [e|], (s_IssuedAt std) as [i|]; try done. apply Z.leb_le in H. eauto.
Qed.

Lemma verifyParsed_accepted tok h pub opts g : verifyParsed tok h pub opts = inl g →
  ∃ k std gc p jkt, pub = Some k ∧ accepted tok h k opts g std gc p jkt.
Proof.
  unfold verifyParsed. intros H. tries H. destruct v1 as [std gc]. tries H. injection H as <-. subst.
  match goal with E : readCnf _ = inl _ |- _ => apply readCnf_inl in E end.
  eexists _, std, gc, _, _. split; [done|]. split; try done.
  - apply negb_true_iff, andb_false_iff in E0 as [E0|E0]; breflect; auto.
  - naive_solver.
  - by apply claimsAgree_true.
  - by apply expiryAgrees_true.
  - apply negb_true_iff, orb_false_iff in E9 as [? ?]. by breflect.
  - apply negb_true_iff, andb_false_iff in E10 as [?|?]; breflect; auto.
  - by apply leaseFits_true.
Qed.

(** What makes a grant fit its message: quotas within uint32, enumerations
    within int32, a lease of the years 1 to 9999; and a caller binding of valid
    UTF-8, which a thumbprint's base64 is. *)
Record wireOK (g : Grant) : Prop := {
  wire_max : (0 ≤ FiberMax g < 2 ^ 32)%Z;
  wire_warm : (0 ≤ FiberWarm g < 2 ^ 32)%Z;
  wire_enums : enumsFit g;
  wire_lease : (0 ≤ LeaseExpiry g < maxTimestamp)%Z;
  wire_caller : ValidUTF8 (CallerThumbprint g) = true;
}.

(** The registered claims Sign writes. *)
Definition signedClaims (g : Grant) (now : Time.t) : stdClaims :=
  mkStd (UID g) (Issuer g) [Audience g]
    (if Time.IsZero (LeaseExpiry g) then None else NewNumericDate (LeaseExpiry g)) (NewNumericDate now).

Lemma Sign_inl g k now token : Sign g k now = inl token →
  ∃ k' body cnf, k = Some k' ∧ uidRE (UID g) = true ∧ (Tenant g = "" ∨ tenantRE (Tenant g) = true) ∧ Audience g ≠ "" ∧
    IsPublic k' = false ∧ allowed (k_Algorithm k') = true ∧ Marshal (ToProto g) = Some body ∧
    (CallerThumbprint g = "" ∧ cnf = "" ∨ CallerThumbprint g ≠ "" ∧ cnfMarshal (mkCnf (CallerThumbprint g) "") = Some cnf) ∧
    Serialize k' (signedClaims g now) (mkGrantClaim body cnf) = Some token.
Proof.
  unfold Sign. intros H. tries H. apply orFail_inl in H. subst. breflect.
  eexists _, _, _. split_and!; try done. destruct (decide (CallerThumbprint g = "")) as [Ec|Ec];
    [rewrite (bool_decide_eq_true_2 _ Ec) in *; left|rewrite (bool_decide_eq_false_2 _ Ec) in *; right]; cbn in *.
  - split; [done|congruence].
  - split; [done|]. match goal with E : orFail _ _ = inl _ |- _ => by apply orFail_inl in E end.
Qed.

Context {L : JoseLaws} {TL : TimestampLaws TS}.

Lemma readCnf_signed t gc gc' : ValidUTF8 t = true → sameClaim gc gc' →
  (t = "" ∧ gc_Cnf gc = "" ∨ t ≠ "" ∧ cnfMarshal (mkCnf t "") = Some (gc_Cnf gc)) → readCnf (gc_Cnf gc') = inl t.
Proof using L.
  unfold readCnf. intros Hv [_ Hn Hc] [[-> E]|[Ht Hm]]; [by rewrite (Hn E)|]. destruct (Hc (mkCnf t "") (conj Hv eq_refl) Hm) as [Hne Hu].
  rewrite (bool_decide_eq_false_2 (gc_Cnf gc' = "")) by done. rewrite Hu. cbn. by rewrite (bool_decide_eq_false_2 (t = "")).
Qed.

Lemma expiryAgrees_signed g h now : LeaseExpiry h = LeaseExpiry g → expiryAgrees (signedClaims g now) h = true.
Proof using L.
  intros E. apply expiryAgrees_true. rewrite E. cbn. unfold Time.IsZero. destruct (LeaseExpiry g =? 0)%Z eqn:Ez; [by apply Z.eqb_eq in Ez|].
  apply Z.eqb_neq in Ez. destruct (law_date _ Ez) as (d & -> & Hd). done.
Qed.

(** The bound a home puts on a lease, as the signed dates have it. *)
Definition leaseWithin (max : Time.duration) (g : Grant) (now : Time.t) : Prop :=
  (max ≤ 0)%Z ∨ LeaseExpiry g ≠ 0%Z ∧ now ≠ 0%Z ∧
    (Time.Sub (Time.Truncate (LeaseExpiry g) Time.Second) (Time.Truncate now Time.Second) ≤ max)%Z.

Lemma leaseFits_signed max g now : leaseWithin max g now → leaseFits max (signedClaims g now) = true.
Proof using L.
  unfold leaseFits. intros [Hm|(He & Hn & Hle)]; [by rewrite (proj2 (Z.ltb_ge 0 max) Hm)|].
  destruct (0 <? max)%Z; [|done]. cbn. unfold Time.IsZero. rewrite (proj2 (Z.eqb_neq _ _) He).
  destruct (law_date _ He) as (e & -> & ->), (law_date _ Hn) as (i & -> & ->). by apply Z.leb_le.
Qed.

(** The grant a home reads from a token of [g]. *)
Definition received (g : Grant) : Grant := with_CallerThumbprint (CallerThumbprint g) (onWire g).

Lemma parse_signed g k now token : Sign g (Some k) now = inl token → (String.length token ≤ MaxTokenBytes)%nat →
  ValidUTF8 (k_KeyID k) = true → ValidUTF8 (CallerThumbprint g) = true →
  ∃ tok body cnf, parse token = inl (tok, mkHeader (k_KeyID k) (k_Algorithm k)) ∧
    Claims tok (Public k) = Some (signedClaims g now, mkGrantClaim body cnf) ∧ UnsafeClaims tok = Some (signedClaims g now) ∧
    body ≠ "" ∧ Unmarshal body = Some (ToProto g) ∧ readCnf cnf = inl (CallerThumbprint g).
Proof using L.
  intros (k' & body & cnf & [= <-] & _ & _ & _ & _ & Hal & Hb & Hc & Hs)%Sign_inl Hl Hkid Hjkt.
  destruct (law_protojson _ _ Hb) as (H1 & H2 & H3).
  destruct (law_parse _ _ _ _ Hs Hal Hkid) as (tok & [body' cnf'] & Hp & Hh & Hcl & Hu & Hsame).
  { split; [done|]. split; [done|]. by repeat constructor. }
  exists tok, body', cnf'. split_and!; [|done|done|apply (sc_grant _ _ Hsame _ Hb)..|by eapply (readCnf_signed _ _ _ Hjkt Hsame)].
  unfold parse. rewrite (proj2 (Nat.ltb_ge _ _)) by done. by rewrite Hp; cbn; rewrite Hh.
Qed.

Lemma verifyParsed_signed g k now token tok body cnf opts :
  Sign g (Some k) now = inl token → wireOK g →
  Claims tok (Public k) = Some (signedClaims g now, mkGrantClaim body cnf) →
  body ≠ "" → Unmarshal body = Some (ToProto g) → readCnf cnf = inl (CallerThumbprint g) →
  o_Audience opts = Audience g → (o_Issuer opts = "" ∨ o_Issuer opts = Issuer g) → leaseWithin (o_MaxLease opts) g now →
  verifyParsed tok (mkHeader (k_KeyID k) (k_Algorithm k)) (Some (Public k)) opts = inl (received g).
Proof using L TL.
  intros Hs [Hm Hw He Hle _] Hcl Hne Hb Hc Ha Hi Hfit.
  apply Sign_inl in Hs as (k' & body' & cnf' & [= <-] & Hu & Ht & Hna & _ & _ & _ & _ & _).
  unfold verifyParsed. cbn [orFail rbind].
  assert (negb ((k_Algorithm (Public k) <>? "") && (k_Algorithm (Public k) <>? k_Algorithm k)) = true) as Ealg.
  { destruct (law_public k) as [[_ ->]| ->]; [rewrite (bool_decide_eq_true_2 (k_Algorithm k = k_Algorithm k)) by done; apply negb_true_iff, andb_false_r|done]. }
  cbn [h_Algorithm]. rewrite Ealg, Hcl. cbn [need orFail rbind gc_Grant gc_Cnf].
  rewrite (bool_decide_eq_false_2 (body = "")) by done. cbn [negb need rbind]. rewrite Hb. cbn [orFail rbind]. rewrite Hc. cbn [rbind].
  rewrite FromProto_ToProto by done. fold (received g).
  change (UID (received g)) with (UID g). change (Tenant (received g)) with (Tenant g).
  rewrite (proj2 (checkUID_inl (UID g) tt) Hu), (proj2 (checkTenant_inl (Tenant g) tt) Ht). cbn [rbind].
  assert (claimsAgree (signedClaims g now) (received g) = true) as -> by (unfold claimsAgree; cbn; by rewrite !bool_decide_eq_true_2).
  rewrite expiryAgrees_signed by done. rewrite leaseFits_signed by done. cbn [need rbind].
  change (Audience (received g)) with (Audience g). change (Issuer (received g)) with (Issuer g). rewrite Ha.
  rewrite (bool_decide_eq_false_2 (Audience g = "")), (bool_decide_eq_true_2 (Audience g = Audience g)) by done. cbn [negb orb need rbind].
  assert (negb ((o_Issuer opts <>? "") && (Issuer g <>? o_Issuer opts)) = true) as ->; [|done].
  destruct Hi as [-> | ->]; [done|]. rewrite (bool_decide_eq_true_2 (_ = Issuer g)) by done. apply negb_true_iff, andb_false_r.
Qed.

Lemma Verify_signed g k now token opts :
  Sign g (Some k) now = inl token → (String.length token ≤ MaxTokenBytes)%nat → wireOK g → ValidUTF8 (k_KeyID k) = true →
  o_Audience opts = Audience g → (o_Issuer opts = "" ∨ o_Issuer opts = Issuer g) → leaseWithin (o_MaxLease opts) g now →
  Verify token (Some (Public k)) opts = inl (received g).
Proof using L TL.
  intros Hs Hl Hw Hkid Ha Hi Hfit. destruct (parse_signed g k now token Hs Hl Hkid (wire_caller _ Hw)) as (tok & body & cnf & Hp & Hcl & _ & Hne & Hb & Hc).
  unfold Verify. rewrite Hp. cbn [rbind]. by eapply verifyParsed_signed.
Qed.

(** What is signed is what a home reads.  A grant that Sign turned into a
    token of at most 8 KiB, by a key whose kid is valid UTF-8, is accepted under the key's public half, by a home
    of its audience that trusts its issuer and allows its lease, and the grant
    read back is the one signed, caller binding included; only the two
    pressure watermarks are rounded to float32, and the token text is not part
    of it. *)
Theorem Sign_Verify g k now token opts :
  Sign g (Some k) now = inl token → (String.length token ≤ MaxTokenBytes)%nat → wireOK g → ValidUTF8 (k_KeyID k) = true →
  o_Audience opts = Audience g → (o_Issuer opts = "" ∨ o_Issuer opts = Issuer g) → leaseWithin (o_MaxLease opts) g now →
  Verify token (Some (Public k)) opts = inl (received g).
Proof using L TL. apply Verify_signed. Qed.

(** C22: a token is accepted only for what its signer signed.  When Verify
    returns a grant, the token's claims were read under the given key, whose
    algorithm, where it names one, is the header's (a key that names none is
    used whatever the header names); the grant is the signed message, bound to the
    caller key of the cnf claim exactly when the token has one (never an
    x5t#S256, never an empty jkt); its UID and tenant fit their patterns; the
    registered claims agree with it (jti, iss, one aud, exp to the second); it
    is addressed to this home, comes from the expected issuer, and with a
    lease bound its exp and iat are there and within it. *)
Theorem Verify_sound token pub opts g :
  Verify token pub opts = inl g →
  ∃ tok h k std gc p jkt, parse token = inl (tok, h) ∧ (String.length token ≤ MaxTokenBytes)%nat ∧ pub = Some k ∧
    accepted tok h k opts g std gc p jkt.
Proof.
  unfold Verify. intros H. tries H. destruct v as [tok h]. apply verifyParsed_accepted in H as (k & std & gc & p & jkt & Hk & Hacc).
  exists tok, h, k, std, gc, p, jkt. split; [done|]. split; [|done].
  unfold parse in E. destruct (_ <? _)%nat eqn:El; [done|]. by apply Nat.ltb_ge in El.
Qed.

(** ** Renewal *)

(** The grant a renewal at [now] signs, for a token of [g] issued at [iat]: the
    same grant, with a lease of the same length from the present second. *)
Definition renewed (g : Grant) (iat now : Time.t) : Grant :=
  with_LeaseExpiry
    (Time.Truncate now Time.Second + (Time.Truncate (LeaseExpiry g) Time.Second - Time.Truncate iat Time.Second))%Z (received g).

Lemma Sub_exact a b : (0 < a - b ≤ Time.maxDuration)%Z → Time.Sub a b = (a - b)%Z.
Proof. unfold Time.Sub, Time.minDuration, Time.maxDuration. lia. Qed.

Lemma Renew_signs i g k iat token now token' :
  Sign g (Some k) iat = inl token → (String.length token ≤ MaxTokenBytes)%nat → wireOK g → ValidUTF8 (k_KeyID k) = true → Issuer g = i_URL i →
  head (setKey (JWKS i) (k_KeyID k)) = Some (Public k) →
  (Time.Truncate (LeaseExpiry g) Time.Second - Time.Truncate iat Time.Second ≤ Time.maxDuration)%Z →
  Renew i token now = inl token' →
  ∃ k', signingKey i = inl (Some k') ∧ Sign (renewed g iat now) (Some k') (Time.Truncate now Time.Second) = inl token'.
Proof using L TL.
  intros Hs Hl Hw Hkid Hiss Hhead Hdur. destruct (parse_signed g k iat token Hs Hl Hkid (wire_caller _ Hw)) as (tok & body & cnf & Hp & Hcl & Hun & Hne & Hb & Hc).
  unfold Renew. intros H. apply rbind_inl in H as (ko & Hk & H). rewrite Hp in H. cbn [rbind] in H.
  apply rbind_inl in H as (u & _ & H). cbn [h_KeyID] in H. rewrite Hhead in H. cbn [orFail rbind] in H.
  rewrite Hun in H. cbn [orFail rbind signedClaims s_Audience] in H.
  rewrite (verifyParsed_signed g k iat token tok body cnf) in H; [|done..|by right|by left]. cbn [rbind] in H.
  apply rbind_inl in H as ([e d] & Hd & H). cbn [signedClaims s_Expiry s_IssuedAt] in Hd.
  destruct (Time.IsZero (LeaseExpiry g)) eqn:Ez; [done|]. apply Z.eqb_neq in Ez.
  destruct (law_date _ Ez) as (e' & He & Het). rewrite He in Hd.
  destruct (decide (iat = 0%Z)) as [->|Hi].
  { change 0%Z with Time.zero in Hd. by rewrite law_date_zero in Hd. }
  destruct (law_date _ Hi) as (d' & Hd' & Hdt). rewrite Hd' in Hd. injection Hd as <- <-. rewrite Het, Hdt in H.
  apply rbind_inl in H as (u' & Hpos & H). apply need_inl, Z.ltb_lt in Hpos.
  assert (Time.Sub (Time.Truncate (LeaseExpiry g) Time.Second) (Time.Truncate iat Time.Second) =
    Time.Truncate (LeaseExpiry g) Time.Second - Time.Truncate iat Time.Second)%Z as Hsub.
  { apply Sub_exact. split; [|done]. unfold Time.Sub, Time.minDuration in Hpos. lia. }
  rewrite Hsub in H. apply rbind_inl in H as (u2 & _ & H). unfold Time.Add in H. fold (renewed g iat now) in H.
  destruct (Sign_inl _ _ _ _ H) as (k' & _ & _ & -> & _). eauto.
Qed.

Lemma Renew_verifies i g k iat token now token' opts :
  Sign g (Some k) iat = inl token → (String.length token ≤ MaxTokenBytes)%nat → wireOK g → ValidUTF8 (k_KeyID k) = true → Issuer g = i_URL i →
  head (setKey (JWKS i) (k_KeyID k)) = Some (Public k) →
  (Time.Truncate (LeaseExpiry g) Time.Second - Time.Truncate iat Time.Second ≤ Time.maxDuration)%Z →
  Renew i token now = inl token' → (String.length token' ≤ MaxTokenBytes)%nat → wireOK (renewed g iat now) →
  (∀ k', signingKey i = inl (Some k') → ValidUTF8 (k_KeyID k') = true) →
  o_Audience opts = Audience g → o_Issuer opts = i_URL i → (o_MaxLease opts ≤ 0)%Z →
  ∃ k', signingKey i = inl (Some k') ∧ Verify token' (Some (Public k')) opts = inl (received (renewed g iat now)).
Proof using L TL.
  intros Hs Hl Hw Hkid Hiss Hhead Hdur Hr Hl' Hw' Hkid' Ha Hi Hm.
  destruct (Renew_signs i g k iat token now token' Hs Hl Hw Hkid Hiss Hhead Hdur Hr) as (k' & Hk & Hs').
  exists k'. split; [done|]. apply (Verify_signed _ _ _ _ _ Hs' Hl' Hw' (Hkid' k' Hk)); [done| |by left]. right. cbn. congruence.
Qed.
End facts.

(** ** One grant, its token and its renewal *)

Definition bookOpts : VerifyOptions := mkOpts "home-a" "https://issuer" (100 * Time.Second)%Z.
Definition bookOptsAnyLease : VerifyOptions := mkOpts "home-a" "https://issuer" 0%Z.

Lemma bookGrant_wireOK : wireOK bookGrant.
Proof. repeat split; vm_compute; congruence. Qed.
Lemma bookRenewed_wireOK : wireOK (renewed bookGrant bookNow bookLater).
Proof. repeat split; vm_compute; congruence. Qed.

Lemma Sign_Verify_witness : Verify "0" (Some (Public bookSigner)) bookOpts = inl (received bookGrant).
Proof.
  apply (Sign_Verify bookGrant bookSigner bookNow "0" bookOpts).
  - vm_compute. reflexivity.
  - apply Nat.leb_le. vm_compute. reflexivity.
  - apply bookGrant_wireOK.
  - reflexivity.
  - reflexivity.
  - right. reflexivity.
  - right. split; [vm_compute; discriminate|]. split; [vm_compute; discriminate|]. vm_compute. discriminate.
Defined.

Lemma Verify_sound_witness : ∃ tok h k std gc p jkt, accepted tok h k bookOpts (received bookGrant) std gc p jkt.
Proof.
  destruct (Verify_sound "0" (Some (Public bookSigner)) bookOpts (received bookGrant)) as (tok & h & k & std & gc & p & jkt & _ & _ & _ & H);
    [vm_compute; reflexivity|]. exists tok, h, k, std, gc, p, jkt. exact H.
Defined.

