(* ===== verification/Keyring.v ===== *)
(** * Key rings and their store (pkg/grant: keyring.go, keys.go)

    Reading a stored ring, generating one, and LoadOrCreate run by any number
    of replicas against one store, each store call one step. *)

From Stdlib Require Import Strings.Byte.
From S2P Require Import Prelude GoLib GoText Encoding Errors Grant Proto Token TokenFacts.
From stdpp Require Import options.

Section keyring.
Context `{O : JoseOps} {RJ : JSON (list StoredKey)}.

(** The loop of [decodeKeyRing]: [kids] were seen, [prev] is the entry before. *)
Fixpoint checkRing (kids : list string) (prev : option StoredKey) (r : list StoredKey) : unit + tokenError :=
  match r with
  | [] => inl tt
  | k :: r' =>
      let kid := k_KeyID (sk_JWK k) in
      try _ := checkRingKey (sk_JWK k);
      try _ := need (negb (bool_decide (kid ∈ kids))) (TokenFault "repeats kid");
      try _ := match prev with
               | None => inl tt
               | Some p =>
                   try _ := need (retired k) (TokenFault "no signedUntil");
                   need (negb (retired p && Time.After (default 0%Z (sk_SignedUntil k)) (default 0%Z (sk_SignedUntil p))))
                        (TokenFault "newest first")
               end;
      checkRing (kids ++ [kid]) (Some k) r'
  end.

(** [func decodeKeyRing(raw []byte) (KeyRing, error)] *)
Definition decodeKeyRing (raw : string) : list StoredKey + tokenError :=
  if raw ==? "" then inr (TokenFault "empty")
  else
    try r := orFail (Unmarshal raw) (TokenFault "decode");
    match r with
    | [] => inr (TokenFault "holds no key")
    | _ => try _ := checkRing [] None r; inl r
    end.

(** [func (r KeyRing) Encode() ([]byte, error)] *)
Definition Encode (r : list StoredKey) : string + tokenError := orFail (Marshal r) (TokenFault "encode key ring").

(** [func GenerateKey(alg jose.SignatureAlgorithm) ( *jose.JSONWebKey, error)]:
    [draw] is the private key the generator of the algorithm made, [thumbprint]
    the JWK's SHA-256 thumbprint; each may fail. *)
Definition GenerateKey (draw : string → option key) (thumbprint : JWK → option bytes) (alg : string) : JWK + tokenError :=
  if (alg ==? EdDSA) || (alg ==? ES256) then
    try priv := orFail (draw alg) (TokenFault "generate");
    let jwk := mkJWK (Some priv) "" alg "sig" in
    try tp := orFail (thumbprint jwk) (TokenFault "thumbprint");
    inl (mkJWK (Some priv) (base64url tp) alg "sig")
  else inr (TokenFault "unsupported algorithm").

(** [func NewKeyRing(alg jose.SignatureAlgorithm) (KeyRing, error)] *)
Definition NewKeyRing (draw : string → option key) (thumbprint : JWK → option bytes) (alg : string) : list StoredKey + tokenError :=
  try jwk := GenerateKey draw thumbprint alg; inl [mkStored jwk None].

(** ** What a stored ring is *)

(** Newest first: an entry retired after another one comes before it. *)
Definition untilOf (k : StoredKey) : Z := default 0%Z (sk_SignedUntil k).
Definition notLater (p k : StoredKey) : Prop := retired k = true ∧ (retired p = true → (untilOf k ≤ untilOf p)%Z).

(** A private signing key: a JWK the library finds valid and not public, with a
    kid, for signatures or for no stated use, that is an Ed25519 private key
    under EdDSA or an ECDSA private key on P-256 under ES256. *)
Record ringKey (k : JWK) : Prop := {
  rk_valid : Valid k = true;
  rk_private : IsPublic k = false;
  rk_kid : k_KeyID k ≠ "";
  rk_use : k_Use k = "" ∨ k_Use k = "sig";
  rk_alg : ∃ x, k_Key k = Some x ∧
    (k_Algorithm k = "EdDSA" ∧ kind x = Ed25519Private ∨ k_Algorithm k = "ES256" ∧ kind x = EcdsaPrivate true);
}.
Lemma checkRingKey_spec k : checkRingKey k = inl tt ↔ ringKey k.
Proof.
  unfold checkRingKey. split.
  - intros H. tries H. apply need_inl in H. breflect. split; try done.
    + match goal with E : _ && _ = false |- _ => apply andb_false_iff in E as [?|?] end; breflect; auto.
    + destruct (k_Key k) as [x|]; [|done]. exists x. split; [done|]. cbn in H. destruct (kind x) as [|[]|]; breflect; auto; try done.
  - intros [Hv Hp Hk Hu (x & Hx & Ha)]. rewrite Hv, Hp. cbn [need rbind negb]. rewrite (bool_decide_eq_false_2 _ Hk). cbn [need rbind negb].
    assert (negb ((k_Use k <>? "") && (k_Use k <>? "sig")) = true) as ->.
    { destruct Hu as [-> | ->]; done. }
    cbn [need rbind]. rewrite Hx. cbn [fmap option_fmap option_map]. destruct Ha as [[-> ->]|[-> ->]]; reflexivity.
Qed.

Record ringOK (r : list StoredKey) : Prop := {
  ring_ne : r ≠ [];
  ring_keys : Forall (λ k, ringKey (sk_JWK k)) r;
  ring_kids : NoDup ((λ k, k_KeyID (sk_JWK k)) <$> r);
  ring_order : StronglySorted notLater r;
}.

Lemma notLater_trans p k l : notLater p k → notLater k l → notLater p l.
Proof. intros [H1 H2] [H3 H4]. split; [done|]. intros Hp. specialize (H2 Hp). specialize (H4 H1). lia. Qed.

Definition kidOf (k : StoredKey) : string := k_KeyID (sk_JWK k).

Lemma checkRing_spec r : ∀ kids prev,
  checkRing kids prev r = inl tt ↔
  Forall (λ k, ringKey (sk_JWK k)) r ∧ NoDup (kidOf <$> r) ∧ (∀ k, k ∈ r → kidOf k ∉ kids) ∧
  StronglySorted notLater r ∧ from_option (λ p, Forall (notLater p) r) True prev.
Proof.
  induction r as [|k r IH]; intros kids prev; cbn [checkRing].
  { split; [intros _|done]. split_and!; [apply Forall_nil_2|apply NoDup_nil_2|by intros k ?%elem_of_nil|apply SSorted_nil|destruct prev; [apply Forall_nil_2|done]]. }
  rewrite rbind_inl. split.
  - intros ([] & Hk%checkRingKey_spec & H). apply rbind_inl in H as (u & Hkid & H). apply need_inl, negb_true_iff, bool_decide_eq_false_1 in Hkid.
    apply rbind_inl in H as ([] & Hprev & H). apply IH in H as (Hf & Hn & Hnot & Hs & Hall). cbn in Hall.
    assert (from_option (λ p, notLater p k) True prev) as Hpk.
    { destruct prev as [p|]; [|done]. apply rbind_inl in Hprev as (u' & Hr & Hp). apply need_inl in Hr, Hp. split; [done|].
      intros Hpr. rewrite Hpr in Hp. cbn in Hp. apply negb_true_iff, Z.ltb_ge in Hp. done. }
    split_and!.
    + by constructor.
    + rewrite fmap_cons. apply NoDup_cons. split; [|done]. intros (x & E & Hx)%list_elem_of_fmap. apply (Hnot x Hx). unfold kidOf in *. rewrite <- E. set_solver.
    + intros x [->|Hx]%elem_of_cons; [done|]. intros Hin. apply (Hnot x Hx). set_solver.
    + by constructor.
    + destruct prev as [p|]; [|done]. cbn in Hpk |- *. constructor; [done|]. eapply Forall_impl; [exact Hall|].
      intros x Hx. by eapply notLater_trans.
  - intros (Hf & Hn & Hnot & Hs & Hall). apply Forall_cons in Hf as [Hk Hf]. rewrite fmap_cons in Hn. apply NoDup_cons in Hn as [Hn1 Hn2].
    inversion Hs as [|? ? Hs1 Hs2]; subst. exists tt. split; [by apply checkRingKey_spec|].
    rewrite bool_decide_eq_false_2 by (apply (Hnot k); set_solver). cbn [negb need rbind].
    assert (match prev with None => inl tt | Some p => try _ := need (retired k) (TokenFault "no signedUntil");
        need (negb (retired p && Time.After (default 0%Z (sk_SignedUntil k)) (default 0%Z (sk_SignedUntil p)))) (TokenFault "newest first") end = inl tt) as ->.
    { destruct prev as [p|]; [|done]. cbn in Hall. apply Forall_cons in Hall as [[Hr Hp] _]. rewrite Hr. cbn [need rbind].
      apply need_inl, negb_true_iff. destruct (retired p); [|done]. cbn. apply Z.ltb_ge. by apply Hp. }
    cbn [rbind]. apply IH. split_and!; try done. intros x Hx [Hin|Hin]%elem_of_app; [by apply (Hnot x); [set_solver|]|].
    apply list_elem_of_singleton in Hin. apply Hn1, list_elem_of_fmap. eauto.
Qed.

Lemma decodeKeyRing_inl raw r : decodeKeyRing raw = inl r → raw ≠ "" ∧ Unmarshal raw = Some r ∧ ringOK r.
Proof.
  unfold decodeKeyRing. case_bool_decide as Er; [done|]. intros (r' & Hu%orFail_inl & H)%rbind_inl.
  destruct r' as [|k r']; [done|]. apply rbind_inl in H as ([] & Hc & [= <-]).
  apply checkRing_spec in Hc as (Hf & Hn & _ & Hs & _). by split_and!.
Qed.

(** ** Renewal from a ring *)

Context {L : JoseLaws} {TL : TimestampLaws TS}.

Lemma RingPublic_kid r x : x ∈ RingPublic r → ∃ k, k ∈ r ∧ Valid (sk_JWK k) = true ∧ x = Public (sk_JWK k) ∧ is_Some (k_Key x).
Proof.
  unfold RingPublic. rewrite list_elem_of_bind. intros (k & Hx & Hk). exists k. split; [done|].
  destruct (Valid (sk_JWK k)); cbn in Hx; [|by apply elem_of_nil in Hx]. split; [done|].
  destruct (k_Key (Public (sk_JWK k))) eqn:E; [|by apply elem_of_nil in Hx].
  apply list_elem_of_singleton in Hx as ->. split; [done|]. by rewrite E.
Qed.

Lemma ring_publishes r k : ringOK r → k ∈ r → is_Some (k_Key (Public (sk_JWK k))) →
  head (setKey (RingPublic r) (kidOf k)) = Some (Public (sk_JWK k)).
Proof using L.
  intros [_ Hf Hn _] Hk Hs. unfold setKey.
  assert (∀ k', is_Some (k_Key (Public (sk_JWK k'))) → k_KeyID (Public (sk_JWK k')) = kidOf k') as Hkid.
  { intros k' [x Hx]. destruct (law_public (sk_JWK k')) as [[-> _]|E]; [done|]. by rewrite E in Hx. }
  induction r as [|k0 r IH]; [by apply elem_of_nil in Hk|].
  apply Forall_cons in Hf as [Hk0 Hf]. rewrite fmap_cons in Hn. apply NoDup_cons in Hn as [Hn1 Hn2].
  unfold RingPublic. rewrite bind_cons. fold (RingPublic r).
  rewrite (rk_valid _ Hk0). cbn [negb].
  apply elem_of_cons in Hk as [->|Hk].
  - destruct Hs as [x Hx]. rewrite Hx. cbn [app]. rewrite filter_cons_True by (apply Hkid; by rewrite Hx). done.
  - destruct (k_Key (Public (sk_JWK k0))) eqn:E; [|by apply IH]. cbn [app]. rewrite filter_cons_False; [by apply IH|].
    rewrite Hkid by (by rewrite E). intros Eq. apply Hn1, list_elem_of_fmap. exists k. by split.
Qed.

(** A renewal continues the lease, across key rotations.  An issuer whose
    ring was read back by decodeKeyRing, its kids valid UTF-8, renews any token that the signing key
    or any retired key of the ring signed: the new token is accepted by homes
    under the ring's present signing key, for the same grant with the same
    caller binding, and its lease runs from the present second and is exactly
    as long as the one it continues, expired or not. *)
Theorem Renew_continues i raw k g iat token now token' opts :
  decodeKeyRing raw = inl (i_Ring i) → k ∈ i_Ring i → is_Some (k_Key (Public (sk_JWK k))) →
  Sign g (Some (sk_JWK k)) iat = inl token → (String.length token ≤ MaxTokenBytes)%nat → wireOK g → Forall (λ k, ValidUTF8 (kidOf k) = true) (i_Ring i) → Issuer g = i_URL i →
  (Time.Truncate (LeaseExpiry g) Time.Second - Time.Truncate iat Time.Second ≤ Time.maxDuration)%Z →
  Renew i token now = inl token' → (String.length token' ≤ MaxTokenBytes)%nat → wireOK (renewed g iat now) →
  o_Audience opts = Audience g → o_Issuer opts = i_URL i → (o_MaxLease opts ≤ 0)%Z →
  ∃ k' rest, i_Ring i = k' :: rest ∧ retired k' = false ∧
    Verify token' (Some (Public (sk_JWK k'))) opts = inl (received (renewed g iat now)).
Proof using L TL.
  intros (_ & _ & HR)%decodeKeyRing_inl Hk Hp Hs Hl Hw Hkids Hi Hd Hr Hl' Hw' Ha Ho Hm.
  destruct (i_Ring i) as [|k1 rest] eqn:Er; [by apply elem_of_nil in Hk|].
  assert (∀ k', signingKey i = inl (Some k') → k' = sk_JWK k1 ∧ retired k1 = false) as Hsign.
  { intros k'. unfold signingKey. rewrite Er. intros Hk'. assert (Signing (k1 :: rest) = inl k') as Hsign.
    { destruct (i_Key i), (i_URL i ==? ""); try done; apply rbind_inl in Hk' as (s & E & [= ->]); done. }
    unfold Signing in Hsign. apply rbind_inl in Hsign as (u & Hret & Hsign). apply need_inl, negb_true_iff in Hret.
    apply rbind_inl in Hsign as (u' & _ & [= ->]). done. }
  rewrite Forall_forall in Hkids.
  destruct (Renew_verifies i g (sk_JWK k) iat token now token' opts) as (k' & Hk' & Hv); try done.
  { by apply Hkids. }
  { unfold JWKS. rewrite Er. by apply ring_publishes. }
  { intros k' [-> _]%Hsign. apply Hkids. left. }
  exists k1, rest. split; [done|]. by destruct (Hsign _ Hk') as [-> ->].
Qed.

(** ** LoadOrCreate, by any number of replicas *)

(** [func loadKeyRing(ctx, store)] on what Load found. *)
Definition loadKeyRing (raw : string) : list StoredKey + tokenError := decodeKeyRing raw.

(** Where a replica is in LoadOrCreate: before its first Load; with its own ring
    ready to Create; told that a ring exists, before it reads again; done. *)
Inductive replica :=
| RStart
| RCreate (raw : string) (r : list StoredKey)
| RReload
| RDone (res : list StoredKey + tokenError).

(** Between the Load that found nothing and Create: generate, encode, and read
    the text back.  [generated] is what generate returned. *)
Definition prepare (generated : list StoredKey + tokenError) : replica :=
  match (try fresh := generated; try raw := Encode fresh; try r := decodeKeyRing raw; inl (raw, r)) with
  | inl (raw, r) => RCreate raw r
  | inr e => RDone (inr e)
  end.

(** What a store call does: it works, or fails, a Create with or without having
    stored its text. *)
Inductive storeCall := CallOK | CallFails (stored : bool).

(** One store call of a replica, with the store it leaves. *)
Definition replicaStep (generated : list StoredKey + tokenError) (call : storeCall) (store : option string) (p : replica)
  : replica * option string :=
  match p with
  | RStart =>
      match call, store with
      | CallFails _, _ => (RDone (inr (TokenFault "load key ring")), store)
      | CallOK, Some raw => (RDone (loadKeyRing raw), store)
      | CallOK, None => (prepare generated, store)
      end
  | RCreate raw r =>
      match call, store with
      | CallFails false, _ => (RDone (inr (TokenFault "create key ring")), store)
      | CallFails true, None => (RDone (inr (TokenFault "create key ring")), Some raw)
      | CallFails true, Some _ => (RDone (inr (TokenFault "create key ring")), store)
      | CallOK, None => (RDone (inl r), Some raw)
      | CallOK, Some _ => (RReload, store)
      end
  | RReload =>
      match call, store with
      | CallFails _, _ => (RDone (inr (TokenFault "load key ring")), store)
      | CallOK, Some raw => (RDone (loadKeyRing raw), store)
      | CallOK, None => (RDone (inr (TokenFault "stored but missing")), store)
      end
  | RDone _ => (p, store)
  end.

(** A schedule: which replica makes its next call, and how the call goes. *)
Record replicas := mkReplicas { rs_store : option string; rs_at : gmap nat replica }.
Definition replicasStep (gen : nat → list StoredKey + tokenError) (a : nat * storeCall) (s : replicas) : replicas :=
  let '(p, store) := replicaStep (gen a.1) a.2 (rs_store s) (default RStart (rs_at s !! a.1)) in
  mkReplicas store (<[a.1 := p]> (rs_at s)).
Definition runReplicas gen (l : list (nat * storeCall)) (s : replicas) : replicas := foldl (λ s a, replicasStep gen a s) s l.
(** LoadOrCreate's answer at a replica. *)
Definition answer (s : replicas) (n : nat) : option (list StoredKey) :=
  match rs_at s !! n with Some (RDone (inl r)) => Some r | _ => None end.

Definition replicasOK (s : replicas) : Prop :=
  ∀ n p, rs_at s !! n = Some p →
    match p with
    | RDone (inl r) => ∃ raw, rs_store s = Some raw ∧ decodeKeyRing raw = inl r
    | RCreate raw r => decodeKeyRing raw = inl r
    | _ => True
    end.

Lemma replicaStep_store gen call store p : store ≠ None → (replicaStep gen call store p).2 = store.
Proof. destruct store; [intros _|done]. destruct p, call as [|[]]; done. Qed.

Lemma prepare_OK gen raw r : prepare gen = RCreate raw r → decodeKeyRing raw = inl r.
Proof.
  unfold prepare. destruct (rbind _ _) as [[raw' r']|] eqn:E; [|done]. intros [= <- <-].
  apply rbind_inl in E as (fresh & _ & E). apply rbind_inl in E as (raw & _ & E). apply rbind_inl in E as (r & Hd & [= <- <-]). done.
Qed.
Lemma prepare_not_done gen r : prepare gen ≠ RDone (inl r).
Proof. unfold prepare. by destruct (rbind _ _) as [[? ?]|]. Qed.

Lemma replicasStep_OK gen a s : replicasOK s → replicasOK (replicasStep gen a s).
Proof.
  intros H. unfold replicasStep. set (p0 := default RStart (rs_at s !! a.1)).
  assert (match p0 with RCreate raw r => decodeKeyRing raw = inl r | RDone (inl r) => ∃ raw, rs_store s = Some raw ∧ decodeKeyRing raw = inl r | _ => True end) as H0.
  { unfold p0. destruct (rs_at s !! a.1) as [p|] eqn:E; [|done]. apply (H _ _ E) . }
  pose proof (replicaStep_store (gen a.1) a.2 (rs_store s) p0) as Hst.
  destruct (replicaStep _ _ _ p0) as [p store] eqn:E. cbn in Hst. intros n q. cbn.
  rewrite lookup_insert_Some. intros [[<- <-]|[_ Hq]].
  - revert E Hst H0. clear. destruct p0 as [|raw r| |res], a as [n call]; cbn.
    + destruct call, (rs_store s) as [raw|]; intros [= <- <-] _ _; try done.
      * unfold loadKeyRing. destruct (decodeKeyRing raw) eqn:Ed; [by exists raw|done].
      * destruct (prepare (gen n)) as [|raw r| |[r|]] eqn:Ep; try done; [by eapply prepare_OK|by apply prepare_not_done in Ep].
    + destruct call as [|[]], (rs_store s) as [raw'|]; intros [= <- <-] _ Hd; try done. by exists raw.
    + destruct call, (rs_store s) as [raw|]; intros [= <- <-] _ _; try done.
      unfold loadKeyRing. destruct (decodeKeyRing raw) eqn:Ed; [by exists raw|done].
    + intros [= <- <-] _ Hd. done.
  - specialize (H _ _ Hq). destruct q as [|raw r| |[r|]]; try done. destruct H as (raw & Hs & Hd). exists raw. split; [|done].
    rewrite Hst; [done|]. by rewrite Hs.
Qed.

Lemma runReplicas_OK gen l s : replicasOK s → replicasOK (runReplicas gen l s).
Proof. revert s. induction l as [|a l IH]; intros s Hs; [done|]. apply IH. by apply replicasStep_OK. Qed.

Lemma runReplicas_keeps gen l s : rs_store s ≠ None → rs_store (runReplicas gen l s) = rs_store s.
Proof.
  revert s. induction l as [|a l IH]; intros s Hs; [done|].
  change (runReplicas gen (a :: l) s) with (runReplicas gen l (replicasStep gen a s)).
  pose proof (replicaStep_store (gen a.1) a.2 (rs_store s) (default RStart (rs_at s !! a.1)) Hs) as E.
  assert (rs_store (replicasStep gen a s) = rs_store s) as Es.
  { unfold replicasStep. by destruct (replicaStep _ _ _ _) as [p store]. }
  rewrite IH; [done|]. by rewrite Es.
Qed.

(** Every replica signs with the same keys.  However the store calls of any
    number of replicas interleave, and whichever of them fail, with or without
    having stored: all the rings LoadOrCreate returns are equal, and are what
    the store's text reads as; and a text once stored is never replaced, so
    rings returned later are equal to those returned before. *)
Theorem LoadOrCreate_agree gen store l1 l2 m n r1 r2 :
  answer (runReplicas gen l1 (mkReplicas store ∅)) m = Some r1 →
  answer (runReplicas gen (l1 ++ l2) (mkReplicas store ∅)) n = Some r2 →
  r1 = r2 ∧ ringOK r1 ∧ ∃ raw, rs_store (runReplicas gen (l1 ++ l2) (mkReplicas store ∅)) = Some raw ∧ decodeKeyRing raw = inl r1.
Proof.
  assert (∀ l n r, answer (runReplicas gen l (mkReplicas store ∅)) n = Some r →
    ∃ raw, rs_store (runReplicas gen l (mkReplicas store ∅)) = Some raw ∧ decodeKeyRing raw = inl r) as Hans.
  { intros l n' r. unfold answer. destruct (rs_at _ !! n') as [[| | |[r'|]]|] eqn:E; try done. intros [= <-].
    refine (runReplicas_OK gen l (mkReplicas store ∅) _ _ _ E). intros ? ?. cbn. by rewrite lookup_empty. }
  intros (raw1 & Hs1 & Hd1)%Hans (raw2 & Hs2 & Hd2)%Hans.
  assert (rs_store (runReplicas gen (l1 ++ l2) (mkReplicas store ∅)) = Some raw1) as Hs.
  { unfold runReplicas. rewrite foldl_app. fold (runReplicas gen l1 (mkReplicas store ∅)).
    fold (runReplicas gen l2 (runReplicas gen l1 (mkReplicas store ∅))). rewrite runReplicas_keeps; rewrite Hs1; done. }
  split; [congruence|]. split; [|eauto]. by apply decodeKeyRing_inl in Hd1 as (_ & _ & ?).
Qed.

(** C37: a ring that was read back is well formed, and exactly the well-formed
    ones are.  decodeKeyRing accepts a text iff it reads as a ring that has a
    key, of private signing keys only (a valid JWK that holds a private key,
    with a kid, for signatures or no stated use, an Ed25519 key under EdDSA or a
    P-256 key under ES256), with different kids, newest first: every key but the
    first is retired, and none was retired after one before it. *)
Theorem decodeKeyRing_exact raw r :
  decodeKeyRing raw = inl r ↔ raw ≠ "" ∧ Unmarshal raw = Some r ∧ ringOK r.
Proof.
  split; [apply decodeKeyRing_inl|]. intros (Hraw & Hu & [Hne Hf Hn Hs]). unfold decodeKeyRing. rewrite bool_decide_eq_false_2 by done.
  apply rbind_inl. exists r. split; [by apply orFail_inl|]. destruct r as [|k r]; [done|].
  apply rbind_inl. exists tt. split; [|done]. apply checkRing_spec. split_and!; try done. intros x _ []%elem_of_nil.
Qed.
End keyring.

(** ** A ring of the book *)

#[export] Instance bookRingKey_eq_dec : EqDecision JWK.
Proof. solve_decision. Defined.
#[export] Instance StoredKey_eq_dec : EqDecision StoredKey.
Proof. solve_decision. Defined.
Definition bookOldSigner : JWK := mkJWK (Some (mkBookKey true "s0")) "k0" EdDSA "sig".
Definition bookRing : list StoredKey := [mkStored bookSigner None; mkStored bookOldSigner (Some (50 * Time.Second)%Z)].
Definition otherRing : list StoredKey := [mkStored bookOldSigner None].
#[export] Instance bookRingJSON : JSON (list StoredKey) := bookJSON [bookRing; otherRing].
Definition bookRingIssuer : IssuerT := mkIssuer None bookRing "https://issuer".

Lemma Renew_continues_witness : ∃ k' rest, i_Ring bookRingIssuer = k' :: rest ∧ retired k' = false ∧
  Verify "1" (Some (Public (sk_JWK k'))) bookOptsAnyLease = inl (received (renewed bookGrant bookNow bookLater)).
Proof.
  apply (Renew_continues bookRingIssuer "0" (mkStored bookSigner None) bookGrant bookNow "0" bookLater "1" bookOptsAnyLease).
  - reflexivity.
  - left.
  - eexists. reflexivity.
  - vm_compute. reflexivity.
  - apply Nat.leb_le. vm_compute. reflexivity.
  - apply bookGrant_wireOK.
  - by repeat constructor.
  - reflexivity.
  - vm_compute. discriminate.
  - vm_compute. reflexivity.
  - apply Nat.leb_le. vm_compute. reflexivity.
  - apply bookRenewed_wireOK.
  - reflexivity.
  - reflexivity.
  - vm_compute. discriminate.
Defined.

(** Two replicas start at once; the first to Create wins. *)
Definition bookGen (n : nat) : list StoredKey + tokenError := inl (if (n =? 0)%nat then bookRing else otherRing).
Lemma LoadOrCreate_agree_witness : otherRing = otherRing ∧ ringOK otherRing.
Proof.
  destruct (LoadOrCreate_agree bookGen None [(0, CallOK); (1, CallOK); (1, CallOK)] [(0, CallOK); (0, CallOK)] 1 0 otherRing otherRing)
    as (H1 & H2 & _); [reflexivity|reflexivity|]. split; [exact H1|exact H2].
Defined.

(** The book's ring is read back; a ring of a public key, of a key for another
    algorithm and of one that is out of order are not well formed. *)
Lemma decodeKeyRing_exact_witness : ringOK bookRing ∧ decodeKeyRing "0" = inl bookRing ∧
  ¬ ringOK [mkStored (Public bookSigner) None] ∧ ¬ ringOK [mkStored bookOldSigner None; mkStored bookSigner None].
Proof.
  assert (decodeKeyRing "0" = inl bookRing) as Hd by reflexivity.
  destruct (proj1 (decodeKeyRing_exact "0" bookRing) Hd) as (_ & _ & Hr). split; [exact Hr|]. split; [exact Hd|]. split.
  - intros [_ Hf _ _]. apply Forall_cons in Hf as [Hk _]. destruct (rk_private _ Hk). discriminate.
  - intros [_ _ _ Hs]. inversion Hs as [|? ? _ Ha]; subst. apply Forall_cons in Ha as [[Hr' _] _]. discriminate.
Defined.
