(* ===== verification/Jwks.v ===== *)
(** * The key cache and the verifier (pkg/grant: jwks.go, verifier.go)

    The cache's state with a clock, its refreshes, and Verify with the other
    threads run at each point where it holds no lock.  HTTP answers and URL
    parsing are inputs. *)

From S2P Require Import Prelude GoLib Encoding Errors Grant Proto Token TokenFacts.
From stdpp Require Import options.

(** An HTTP answer: its status and body. *)
Record response := mkResponse { rs_status : Z; rs_body : string }.
(** The discovery document. *)
Record discovery := mkDiscovery { d_Issuer : string; d_JWKSURI : string }.
(** What [url.Parse] gives: scheme and host. *)
Record parsedURL := mkURL { u_Scheme : string; u_Host : string }.

Section jwks.
Context `{O : JoseOps} {SJ : JSON (list JWK)} {DJ : JSON discovery} (urlParse : string → option parsedURL).

Record Cache := mkCache {
  ch_keys : gmap string JWK;
  ch_jwksURI : string;
  ch_lastRefresh : Time.t;
  ch_lastAttempt : Time.t;
}.
Record cacheConfig := mkCacheConfig { cc_IssuerURL : string; cc_MinRefresh : Time.duration }.
(** The cache and the clock; [cw_attempts], ghost, are the times of the
    refreshes attempted, newest first. *)
Record world := mkWorld { cw_cache : Cache; cw_now : Time.t; cw_attempts : list Time.t }.

(** [func (c *Cache) minRefresh() time.Duration] *)
Definition minRefresh (c : cacheConfig) : Time.duration := if (0 <? cc_MinRefresh c)%Z then cc_MinRefresh c else Time.Minute.

(** The body [io.LimitReader] lets through. *)
Definition maxBody : N := 2 ^ 20.
Definition limited (b : string) : string :=
  if (N.of_nat (String.length b) <=? maxBody)%N then b else str_take (N.to_nat maxBody) b.

(** [func (c *Cache) getJSON(ctx, url, dst) error]; [None] is a failed request. *)
Definition getJSON {A} `{JSON A} (resp : option response) : A + tokenError :=
  try r := orFail resp (TokenFault "request");
  try _ := need (negb ((300 <=? rs_status r)%Z && (rs_status r <? 400)%Z)) (TokenFault "redirect refused");
  try _ := need (rs_status r =? 200)%Z (TokenFault "http status");
  orFail (Unmarshal (limited (rs_body r))) (TokenFault "json").

(** [func checkJWKSURI(issuer, jwksURI string) error] *)
Definition checkJWKSURI (issuer jwksURI : string) : unit + tokenError :=
  match urlParse jwksURI with
  | None => inr (TokenFault "not an http(s) URL")
  | Some u =>
      try _ := need (negb ((u_Host u ==? "") || (u_Scheme u <>? "https") && (u_Scheme u <>? "http"))) (TokenFault "not an http(s) URL");
      need (negb (HasPrefix (ToLower issuer) "https://" && (u_Scheme u <>? "https"))) (TokenFault "not https")
  end.

(** The answers of the network to one refresh, and how long it took. *)
Record refreshIn := mkRefreshIn { ri_get : string → option response; ri_took : N }.

Definition wellKnown (issuer : string) : string := TrimSuffix issuer "/" +:+ "/.well-known/openid-configuration".

(** [func (c *Cache) discover(ctx) (string, error)] *)
Definition discover (c : cacheConfig) (net : string → option response) : string + tokenError :=
  try _ := need (cc_IssuerURL c <>? "") (TokenFault "no issuer URL");
  try d := getJSON (A := discovery) (net (wellKnown (cc_IssuerURL c)));
  try _ := need (TrimSuffix (d_Issuer d) "/" ==? TrimSuffix (cc_IssuerURL c) "/") (TokenFault "issuer does not match");
  try _ := need (d_JWKSURI d <>? "") (TokenFault "no jwks_uri");
  try _ := checkJWKSURI (cc_IssuerURL c) (d_JWKSURI d);
  inl (d_JWKSURI d).

(** The usable keys of a fetched set, by kid; a later one replaces an earlier. *)
Definition usable (k : JWK) : bool := negb ((k_KeyID k ==? "") || negb (IsPublic k) || negb (Valid k)).
Definition keyMap (set : list JWK) : gmap string JWK :=
  foldl (λ m k, if usable k then <[k_KeyID k := k]> m else m) ∅ set.

(** What [refresh] fetches: the keys and the URI they came from. *)
Definition fetchKeys (c : cacheConfig) (uri : string) (net : string → option response) : (gmap string JWK * string) + tokenError :=
  try uri := (if uri ==? "" then discover c net else inl uri);
  try set := getJSON (A := list JWK) (net uri);
  let keys := keyMap set in
  try _ := need (negb (bool_decide (keys = ∅))) (TokenFault "no usable public keys");
  inl (keys, uri).

(** [func (c *Cache) refresh(ctx) error], under the refreshing lock *)
Definition refresh (c : cacheConfig) (i : refreshIn) : St world (unit + tokenError) := λ w,
  let ch := cw_cache w in
  let attempted := mkCache (ch_keys ch) (ch_jwksURI ch) (ch_lastRefresh ch) (cw_now w) in
  let at_ := (cw_now w + Z.of_N (ri_took i))%Z in
  match fetchKeys c (ch_jwksURI ch) (ri_get i) with
  | inr e => (inr e, mkWorld attempted at_ (cw_now w :: cw_attempts w))
  | inl (keys, uri) => (inl tt, mkWorld (mkCache keys uri at_ (cw_now w)) at_ (cw_now w :: cw_attempts w))
  end.

(** [func (c *Cache) RefreshIfDue(ctx) (bool, error)], once it has the lock *)
Definition RefreshIfDue (c : cacheConfig) (i : refreshIn) : St world (bool * (unit + tokenError)) := λ w,
  if (minRefresh c <=? Time.Sub (cw_now w) (ch_lastAttempt (cw_cache w)))%Z
  then let '(e, w') := refresh c i w in ((true, e), w')
  else ((false, inl tt), w).

(** What the other threads do at a point of a call, and the network's answers
    to the refreshes the call itself makes there. *)
Record callIn := mkCallIn { ci_others : nat → world → world; ci_refresh : nat → refreshIn }.
Definition yield (x : callIn) (n : nat) : St world unit := modify (ci_others x n).

(** [func (c *Cache) Key(ctx, kid string) ( *jose.JSONWebKey, error)], at the
    points [n] and [n + 1] of its caller *)
Definition CacheKey (c : cacheConfig) (x : callIn) (n : nat) (kid : string) : St world (JWK + tokenError) :=
  k ← gets (λ w, ch_keys (cw_cache w) !! kid);
  match k with
  | Some k => mret (inl k)
  | None =>
      _ ← yield x n;
      _ ← RefreshIfDue c (ci_refresh x n);
      _ ← yield x (S n);
      ch ← gets cw_cache;
      match ch_keys ch !! kid with
      | Some k => mret (inl k)
      | None => mret (inr (if Time.IsZero (ch_lastRefresh ch) then ErrNeverLoaded else ErrUnknownKey))
      end
  end.

(** ** The verifier *)

Record verifierConfig := mkVerifierConfig {
  vc_cache : cacheConfig; vc_Audience : string; vc_MaxStale : Time.duration; vc_MaxLease : Time.duration;
}.
(** [func (v *Verifier) maxStale() time.Duration] *)
Definition maxStale (v : verifierConfig) : Time.duration := if (0 <? vc_MaxStale v)%Z then vc_MaxStale v else Time.Hour.

Definition stale (v : verifierConfig) (w : world) : bool :=
  (maxStale v <? Time.Sub (cw_now w) (ch_lastRefresh (cw_cache w)))%Z.

(** The key [Verify] checks the signature with.  Points: 0 and 1 in the first
    Key, 2 before the age is read, 3 and 4 around the retry, 5 and 6 in the
    second Key. *)
Definition pickKey (v : verifierConfig) (x : callIn) (kid : string) : St world (JWK + tokenError) :=
  r ← CacheKey (vc_cache v) x 0 kid;
  match r with
  | inr ErrNeverLoaded => mret (inr (VerifyUnavailable ErrNeverLoaded))
  | inr e => mret (inr e)
  | inl k =>
      _ ← yield x 2;
      old ← gets (stale v);
      if (old : bool) then
        _ ← yield x 3;
        _ ← RefreshIfDue (vc_cache v) (ci_refresh x 3);
        _ ← yield x 4;
        old ← gets (stale v);
        if (old : bool) then mret (inr (VerifyUnavailable ErrJWKSStale))
        else CacheKey (vc_cache v) x 5 kid
      else mret (inl k)
  end.

(** [func (v *Verifier) Verify(ctx, token []byte) (core.Grant, error)] *)
Definition VerifierVerify (v : verifierConfig) (x : callIn) (token : string) : St world (Grant + tokenError) :=
  match parse token with
  | inr e => mret (inr e)
  | inl (tok, h) =>
      if h_KeyID h ==? "" then mret (inr ErrNoKID)
      else
        r ← pickKey v x (h_KeyID h);
        mret (try k := r;
              verifyParsed tok h (Some k) (mkOpts (vc_Audience v) (cc_IssuerURL (vc_cache v)) (vc_MaxLease v)))
  end.
End jwks.
