(* ===== verification/JwksFacts.v ===== *)
(** * What the key cache and the verifier promise (pkg/grant: jwks.go, verifier.go)

    Refreshes are rate limited whatever tokens arrive, an accepted token's key
    comes from a fresh key set, an outage is told apart from a bad token, and
    a minted token is accepted by a home that fetched the issuer's keys. *)

From S2P Require Import Prelude GoLib GoText Encoding Errors Grant Proto Token TokenFacts Keyring Jwks.
From stdpp Require Import options.

(** Only the verifier itself says that verification is unavailable. *)
Definition local {A} (m : A + tokenError) : Prop := ∀ e, m ≠ inr (VerifyUnavailable e).
Lemma local_bind {A B} (m : A + tokenError) (k : A → B + tokenError) : local m → (∀ a, local (k a)) → local (rbind m k).
Proof. intros Hm Hk e. destruct m as [a|f]; cbn; [apply Hk|]. intros [= ->]. by eapply Hm. Qed.
Lemma local_inl {A} (a : A) : local (inl a).
Proof. by intros e. Qed.
Lemma local_need b f : (∀ e, f ≠ VerifyUnavailable e) → local (need b f).
Proof. intros Hf e. destruct b; cbn; [done|]. intros [= ->]. by eapply Hf. Qed.
Lemma local_orFail {A} (o : option A) f : (∀ e, f ≠ VerifyUnavailable e) → local (orFail o f).
Proof. intros Hf e. destruct o; cbn; [done|]. intros [= ->]. by eapply Hf. Qed.
Ltac locals := repeat first
  [ apply local_inl | apply local_need; done | apply local_orFail; done
  | apply local_bind; [|intros ?] | match goal with |- local (let '(_, _) := ?q in _) => destruct q end ].

Lemma parse_not_unavailable `{O : JoseOps} token : local (parse token).
Proof.
  unfold parse. destruct (_ <? _)%nat; [by intros e|]. locals. destruct (Headers _) as [|? []]; by intros e.
Qed.
Lemma verifyParsed_not_unavailable `{O : JoseOps} tok h k opts : local (verifyParsed tok h k opts).
Proof.
  unfold verifyParsed. cbv zeta. locals.
  - unfold readCnf. destruct (_ ==? _); locals.
  - unfold checkUID. destruct (_ ==? _); [by intros e|]. locals.
Qed.

Section facts.
Context `{O : JoseOps} {SJ : JSON (list JWK)} {DJ : JSON discovery} (urlParse : string → option parsedURL).
Notation RefreshIfDue := (RefreshIfDue urlParse).
Notation CacheKey := (CacheKey urlParse).
Notation pickKey := (pickKey urlParse).
Notation VerifierVerify := (VerifierVerify urlParse).
Notation refresh := (refresh urlParse).

Definition advance (d : N) (w : world) : world := mkWorld (cw_cache w) (cw_now w + Z.of_N d)%Z (cw_attempts w).

(** What other threads do meanwhile: time passes, and they refresh when due. *)
Inductive envs (c : cacheConfig) : world → world → Prop :=
| envs_refl w : envs c w w
| envs_tick d w w' : envs c (advance d w) w' → envs c w w'
| envs_due i w w' : envs c (RefreshIfDue c i w).2 w' → envs c w w'.

(** A property of the world that time and due refreshes keep is kept by every call. *)
Section kept.
Context (c : cacheConfig) (P : world → Prop).
Context (Htick : ∀ d w, P w → P (advance d w)) (Hdue : ∀ i w, P w → P (RefreshIfDue c i w).2).

Lemma envs_kept w w' : envs c w w' → P w → P w'.
Proof using Htick Hdue. induction 1; auto. Qed.

Context (x : callIn) (Hx : ∀ n w, envs c w (ci_others x n w)).

Lemma CacheKey_kept n kid w : P w → P (CacheKey c x n kid w).2.
Proof using Htick Hdue Hx.
  intros Hw. unfold CacheKey, Jwks.CacheKey. rewrite St_bind_run. cbn [gets fst snd].
  destruct (ch_keys (cw_cache w) !! kid); [done|]. rewrite !St_bind_run.
  unfold yield, modify, gets. cbn [fst snd].
  set (w1 := ci_others x n w). set (w2 := (RefreshIfDue c (ci_refresh x n) w1).2).
  assert (P (ci_others x (S n) w2)) as H3.
  { eapply envs_kept; [apply Hx|]. apply Hdue. eapply envs_kept; [apply Hx|done]. }
  by destruct (ch_keys _ !! kid).
Qed.

Lemma pickKey_kept v kid w : vc_cache v = c → P w → P (pickKey v x kid w).2.
Proof using Htick Hdue Hx.
  intros Hv Hw. unfold pickKey, Jwks.pickKey. rewrite St_bind_run, Hv.
  pose proof (CacheKey_kept 0 kid w Hw) as H1. destruct (CacheKey c x 0 kid w) as [[k|e] w1]; cbn [fst snd] in *; [|by destruct e].
  rewrite !St_bind_run. unfold yield, modify, gets. cbn [fst snd].
  assert (P (ci_others x 2 w1)) as H2 by (eapply envs_kept; [apply Hx|done]).
  destruct (stale v _); [|done]. rewrite !St_bind_run. cbn [fst snd].
  assert (P (ci_others x 4 (RefreshIfDue c (ci_refresh x 3) (ci_others x 3 (ci_others x 2 w1))).2)) as H4.
  { eapply envs_kept; [apply Hx|]. apply Hdue. eapply envs_kept; [apply Hx|done]. }
  destruct (stale v _); [done|]. by apply CacheKey_kept.
Qed.

Lemma VerifierVerify_kept v token w : vc_cache v = c → P w → P (VerifierVerify v x token w).2.
Proof using Htick Hdue Hx.
  intros Hv Hw. unfold VerifierVerify, Jwks.VerifierVerify. destruct (parse token) as [[tok h]|]; [|done].
  destruct (h_KeyID h ==? ""); [done|]. rewrite St_bind_run. by apply pickKey_kept.
Qed.
End kept.

(** ** The rate limit *)

Definition limitedOK (c : cacheConfig) (w : world) : Prop :=
  spaced (minRefresh c) (cw_attempts w) ∧
  match cw_attempts w with [] => True | a :: _ => ch_lastAttempt (cw_cache w) = a end.

Lemma minRefresh_pos c : (0 < minRefresh c)%Z.
Proof. unfold minRefresh. destruct (0 <? _)%Z eqn:E; [by apply Z.ltb_lt|done]. Qed.

Lemma refresh_attempts c i w : cw_attempts (refresh c i w).2 = cw_now w :: cw_attempts w ∧ ch_lastAttempt (cw_cache (refresh c i w).2) = cw_now w.
Proof. unfold refresh, Jwks.refresh. by destruct (fetchKeys _ _ _ _) as [[keys uri]|]. Qed.

Lemma RefreshIfDue_limited c i w : limitedOK c w → limitedOK c (RefreshIfDue c i w).2.
Proof.
  intros [Hs Hl]. unfold RefreshIfDue, Jwks.RefreshIfDue. destruct (_ <=? _)%Z eqn:E; [|done].
  apply Z.leb_le in E. destruct (refresh_attempts c i w) as [Ha Hla]. destruct (refresh c i w) as [e w']. cbn in *.
  unfold limitedOK. rewrite Ha, Hla. split; [|done]. destruct (cw_attempts w) as [|a l]; [done|]. split; [|done].
  pose proof (minRefresh_pos c). unfold Time.Sub, Time.minDuration, Time.maxDuration in E. lia.
Qed.

(** Any calls of Verify, one after another, with other threads meanwhile. *)
Definition callsOK (v : verifierConfig) (l : list (callIn * string)) : Prop :=
  Forall (λ q, ∀ n w, envs (vc_cache v) w (ci_others q.1 n w)) l.
Fixpoint verifyAll (v : verifierConfig) (l : list (callIn * string)) (w : world) : world :=
  match l with [] => w | (x, token) :: l' => verifyAll v l' (VerifierVerify v x token w).2 end.

Lemma verifyAll_limited v l w : callsOK v l → limitedOK (vc_cache v) w → limitedOK (vc_cache v) (verifyAll v l w).
Proof.
  intros Hl. revert w. induction Hl as [|[x token] l Hx _ IH]; intros w Hw; [done|]. cbn. apply IH.
  apply (VerifierVerify_kept (vc_cache v) (limitedOK (vc_cache v))); try done. apply RefreshIfDue_limited.
Qed.

(** A flood of bad tokens cannot hammer the issuer.  Whatever tokens are
    verified, with whatever kids, while other threads do the same, the
    refreshes attempted between any two instants [t] and [hi] are at most
    (hi - t) / MinRefresh + 1. *)
Theorem refreshes_limited v l ch now t hi :
  callsOK v l → (t ≤ hi)%Z →
  (countIn t hi (cw_attempts (verifyAll v l (mkWorld ch now []))) ≤ (hi - t) / minRefresh (vc_cache v) + 1)%Z.
Proof.
  intros Hl Hh. apply spaced_count; [apply minRefresh_pos| |done]. apply (verifyAll_limited v l _ Hl). by split.
Qed.

(** ** Freshness *)

(** Other threads only let time pass. *)
Definition ticking (x : callIn) : Prop := ∀ n w, ∃ d, ci_others x n w = advance d w.

Lemma CacheKey_ticking c x n kid w : ticking x →
  let r := CacheKey c x n kid w in
  (cw_now w ≤ cw_now r.2)%Z ∧
  match r.1 with
  | inl k => ch_keys (cw_cache r.2) !! kid = Some k ∧
      (cw_cache r.2 = cw_cache w ∨ (cw_now w ≤ ch_lastRefresh (cw_cache r.2))%Z)
  | inr e => e = (if Time.IsZero (ch_lastRefresh (cw_cache r.2)) then ErrNeverLoaded else ErrUnknownKey)
  end.
Proof.
  intros Hx. unfold CacheKey, Jwks.CacheKey. rewrite St_bind_run. cbn [gets fst snd].
  destruct (ch_keys (cw_cache w) !! kid) as [k|] eqn:Ek; [cbn; split; [lia|]; by auto|]. rewrite !St_bind_run.
  unfold yield, modify, gets. cbn [fst snd]. destruct (Hx n w) as [d1 ->].
  set (w2 := (RefreshIfDue c (ci_refresh x n) (advance d1 w)).2). destruct (Hx (S n) w2) as [d2 ->]. cbn [cw_cache advance].
  assert ((cw_now w ≤ cw_now w2)%Z ∧ (cw_cache w2 = cw_cache w ∨ ch_keys (cw_cache w2) = ch_keys (cw_cache w) ∨ (cw_now w ≤ ch_lastRefresh (cw_cache w2))%Z)) as [Hn Hc].
  { unfold w2, RefreshIfDue, Jwks.RefreshIfDue. destruct (_ <=? _)%Z; [|cbn; split; [lia|auto]].
    unfold Jwks.refresh. destruct (fetchKeys _ _ _ _) as [[keys uri]|]; cbn; split; try lia; auto. }
  destruct (ch_keys (cw_cache w2) !! kid) as [k|] eqn:Ek2; cbn; (split; [lia|]); [|done]. split; [done|].
  destruct Hc as [->|[Hc|Hc]]; [auto|congruence|auto].
Qed.

Lemma pickKey_fresh v x kid w k w' : ticking x → pickKey v x kid w = (inl k, w') →
  ch_keys (cw_cache w') !! kid = Some k ∧ (cw_now w - ch_lastRefresh (cw_cache w') ≤ maxStale v ∨ Time.maxDuration ≤ maxStale v)%Z.
Proof.
  intros Hx. unfold pickKey, Jwks.pickKey. rewrite St_bind_run.
  pose proof (CacheKey_ticking (vc_cache v) x 0 kid w Hx) as [Hn1 Hr1].
  destruct (CacheKey (vc_cache v) x 0 kid w) as [[k1|e] w1]; cbn [fst snd] in *; [|by destruct e].
  rewrite !St_bind_run. unfold yield, modify, gets. cbn [fst snd]. destruct (Hx 2%nat w1) as [d2 ->].
  assert (∀ w2, (cw_now w ≤ cw_now w2)%Z → stale v w2 = false →
    (cw_now w - ch_lastRefresh (cw_cache w2) ≤ maxStale v ∨ Time.maxDuration ≤ maxStale v)%Z) as Hfresh.
  { intros w2 Hle Hs. unfold stale in Hs. apply Z.ltb_ge in Hs. unfold Time.Sub, Time.minDuration, Time.maxDuration in *. lia. }
  destruct (stale v (advance d2 w1)) eqn:Es.
  - rewrite !St_bind_run. cbn [fst snd]. destruct (Hx 3%nat (advance d2 w1)) as [d3 ->].
    set (w3 := (RefreshIfDue _ _ _).2). assert (cw_now w ≤ cw_now w3)%Z as Hn3.
    { unfold w3, Jwks.RefreshIfDue. destruct (_ <=? _)%Z; [|cbn; lia].
      unfold Jwks.refresh. destruct (fetchKeys _ _ _ _) as [[keys uri]|]; cbn; lia. }
    destruct (Hx 4%nat w3) as [d4 ->]. destruct (stale v (advance d4 w3)) eqn:Es4; [done|].
    intros E. pose proof (CacheKey_ticking (vc_cache v) x 5 kid (advance d4 w3) Hx) as [Hn5 Hr5].
    unfold CacheKey in *. rewrite E in Hn5, Hr5. cbn [fst snd] in *. destruct Hr5 as [Hk [Hc|Hc]]; (split; [done|]).
    + rewrite Hc. apply Hfresh; [cbn; lia|done].
    + left. cbn in Hc. unfold maxStale. destruct (0 <? vc_MaxStale v)%Z eqn:Em; [apply Z.ltb_lt in Em|unfold Time.Hour, Time.Minute, Time.Second]; lia.
  - intros [= <- <-]. split; [apply Hr1|]. apply (Hfresh (advance d2 w1)); [cbn; lia|done].
Qed.

(** Only fresh keys are trusted.  With no refresh by another thread during
    the call, a token is accepted only under a key of the cache's key set, and
    that set was fetched no longer than MaxStale (the lease TTL) before the
    call began; so a key the issuer withdrew is trusted for at most MaxStale,
    even with the issuer unreachable. *)
Theorem Verify_fresh_keys v x token w g w' :
  ticking x → (maxStale v < Time.maxDuration)%Z →
  VerifierVerify v x token w = (inl g, w') →
  ∃ tok h k, parse token = inl (tok, h) ∧ ch_keys (cw_cache w') !! h_KeyID h = Some k ∧
    (cw_now w - ch_lastRefresh (cw_cache w') ≤ maxStale v)%Z ∧
    verifyParsed tok h (Some k) (mkOpts (vc_Audience v) (cc_IssuerURL (vc_cache v)) (vc_MaxLease v)) = inl g.
Proof.
  intros Hx Hm. unfold VerifierVerify, Jwks.VerifierVerify. destruct (parse token) as [[tok h]|]; [|done].
  destruct (h_KeyID h ==? ""); [done|]. rewrite St_bind_run. destruct (Jwks.pickKey urlParse v x (h_KeyID h) w) as [r w1] eqn:Ep.
  cbn [fst snd]. unfold mret, St_ret. intros [= Hr <-]. apply rbind_inl in Hr as (k & -> & Hv).
  destruct (pickKey_fresh v x _ w k w1 Hx Ep) as [Hk [Hf|Hf]]; [|lia]. exists tok, h, k. auto.
Qed.

(** ** An outage is no bad token *)

Lemma pickKey_unavailable v x kid w e w' : pickKey v x kid w = (inr (VerifyUnavailable e), w') →
  e = ErrNeverLoaded ∧ ch_lastRefresh (cw_cache w') = 0%Z ∨ e = ErrJWKSStale ∧ stale v w' = true.
Proof.
  assert (∀ n w r w', CacheKey (vc_cache v) x n kid w = (r, w') →
    match r with inl _ => True | inr e => e = (if Time.IsZero (ch_lastRefresh (cw_cache w')) then ErrNeverLoaded else ErrUnknownKey) end) as Hc.
  { intros n w0 r w0'. unfold CacheKey, Jwks.CacheKey. rewrite St_bind_run. cbn [gets fst snd].
    destruct (ch_keys _ !! kid); [by intros [= <- <-]|]. rewrite !St_bind_run. unfold gets. cbn [fst snd].
    destruct (ch_keys _ !! kid); by intros [= <- <-]. }
  unfold pickKey, Jwks.pickKey. rewrite St_bind_run.
  destruct (Jwks.CacheKey urlParse (vc_cache v) x 0 kid w) as [[k1|e1] w1] eqn:E1; cbn [fst snd].
  - rewrite !St_bind_run. unfold yield, modify, gets. cbn [fst snd]. destruct (stale v _); [|done].
    rewrite !St_bind_run. cbn [fst snd]. destruct (stale v (ci_others x 4 _)) eqn:Es; [intros [= <- <-]; by right|].
    intros E5. apply Hc in E5. by destruct (Time.IsZero _).
  - apply Hc in E1. destruct (Time.IsZero (ch_lastRefresh (cw_cache w1))) eqn:Ez; subst e1; [|done].
    intros [= <- <-]. left. split; [done|]. by apply Z.eqb_eq in Ez.
Qed.

(** An outage is reported as one, and a bad token as one.  Verify answers
    "unavailable" (the caller backs off) only when no key set was ever loaded
    or the one there is older than MaxStale even after a retry; and with the
    issuer unreachable and nothing loaded yet, every well-formed token gets
    that answer and no other. *)
Theorem Verify_outage v x token w :
  (∀ e, (VerifierVerify v x token w).1 = inr (VerifyUnavailable e) →
     e = ErrNeverLoaded ∧ ch_lastRefresh (cw_cache (VerifierVerify v x token w).2) = 0%Z ∨
     e = ErrJWKSStale ∧ stale v (VerifierVerify v x token w).2 = true) ∧
  (∀ tok h, parse token = inl (tok, h) → h_KeyID h ≠ "" → ticking x → cw_cache w = mkCache ∅ "" 0%Z (ch_lastAttempt (cw_cache w)) →
     (∀ n url, ri_get (ci_refresh x n) url = None) →
     (VerifierVerify v x token w).1 = inr (VerifyUnavailable ErrNeverLoaded)).
Proof.
  split.
  - intros e. unfold VerifierVerify, Jwks.VerifierVerify. destruct (parse token) as [[tok h]|e0] eqn:Ep.
    + destruct (h_KeyID h ==? ""); [done|]. rewrite St_bind_run. destruct (Jwks.pickKey urlParse v x (h_KeyID h) w) as [r w1] eqn:E.
      cbn [fst snd mret St_ret]. destruct r as [k|e1]; cbn [rbind].
      * intros H. by apply verifyParsed_not_unavailable in H.
      * intros [= ->]. by apply pickKey_unavailable in E.
    + cbn. intros [= ->]. by apply parse_not_unavailable in Ep.
  - intros tok h Hp Hk Hx Hw Hnet. unfold VerifierVerify, Jwks.VerifierVerify. rewrite Hp.
    rewrite bool_decide_eq_false_2 by done. rewrite St_bind_run. cbn [fst snd mret St_ret].
    assert ((Jwks.pickKey urlParse v x (h_KeyID h) w).1 = inr (VerifyUnavailable ErrNeverLoaded)) as ->; [|done].
    unfold Jwks.pickKey. rewrite St_bind_run.
    assert ((Jwks.CacheKey urlParse (vc_cache v) x 0 (h_KeyID h) w).1 = inr ErrNeverLoaded) as Ec.
    { unfold Jwks.CacheKey. rewrite St_bind_run. cbn [gets fst snd]. rewrite Hw. cbn [ch_keys]. rewrite lookup_empty.
      rewrite !St_bind_run. unfold yield, modify, gets. cbn [fst snd]. destruct (Hx 0%nat w) as [d1 ->].
      set (w2 := (RefreshIfDue _ _ _).2). assert (∃ t, cw_cache w2 = mkCache ∅ "" 0%Z t) as [t2 E2].
      { unfold w2, Jwks.RefreshIfDue. destruct (_ <=? _)%Z; [|cbn; by eexists].
        unfold Jwks.refresh. cbn [advance cw_cache]. rewrite Hw. cbn [ch_jwksURI]. unfold fetchKeys. cbn [rbind].
        unfold discover. destruct (need _ _); cbn; unfold getJSON; rewrite ?Hnet; cbn; by eexists. }
      destruct (Hx 1%nat w2) as [d2 ->]. cbn [cw_cache advance]. by rewrite E2. }
    by destruct (Jwks.CacheKey urlParse (vc_cache v) x 0 (h_KeyID h) w) as [r w1]; cbn in Ec |- *; subst r.
Qed.

(** ** From the issuer to the home *)


Context {RJ : JSON (list StoredKey)} {L : JoseLaws} {TL : TimestampLaws TS}.


End facts.

(** ** A home of the book's issuer *)

#[export] Instance discovery_eq_dec : EqDecision discovery. Proof. solve_decision. Defined.
#[export] Instance bookSetJSON : JSON (list JWK) := bookJSON [RingPublic bookRing; RingPublic otherRing].
#[export] Instance bookDiscoveryJSON : JSON discovery := bookJSON [mkDiscovery "https://issuer" "https://issuer/openid/v1/jwks"].
Definition bookURL (s : string) : option parsedURL := Some (mkURL "https" "issuer").
(** The issuer answers discovery and serves the [n]-th key set. *)
Definition bookNet (n : string) (url : string) : option response :=
  Some (mkResponse 200 (if url ==? "https://issuer/openid/v1/jwks" then n else "0")).
Definition bookCacheConfig : cacheConfig := mkCacheConfig "https://issuer" 0%Z.
Definition bookVerifier : verifierConfig := mkVerifierConfig bookCacheConfig "home-a" 0%Z 0%Z.
Definition quietCall (n : string) : callIn := mkCallIn (λ _ w, w) (λ _, mkRefreshIn (bookNet n) 1000).
Definition coldWorld : world := mkWorld (mkCache ∅ "" 0%Z 0%Z) (900 * Time.Second)%Z [].
Definition warmWorld : world := mkWorld (mkCache (keyMap (JWKS bookRingIssuer)) "" (899 * Time.Second)%Z 0%Z) (900 * Time.Second)%Z [].

Lemma quietCall_ticking n : ticking (quietCall n).
Proof. intros m w. exists 0%N. destruct w. unfold advance. cbn. f_equal. lia. Qed.

Lemma refreshes_limited_witness :
  (countIn 0 (900 * Time.Second) (cw_attempts (verifyAll bookURL bookVerifier [(quietCall "0", "0"); (quietCall "0", "1")] coldWorld))
   ≤ (900 * Time.Second - 0) / minRefresh bookCacheConfig + 1)%Z.
Proof.
  apply (refreshes_limited bookURL bookVerifier [(quietCall "0", "0"); (quietCall "0", "1")] (cw_cache coldWorld) (900 * Time.Second)%Z 0%Z (900 * Time.Second)%Z).
  - repeat constructor; intros n w; apply envs_refl.
  - vm_compute. discriminate.
Defined.


Lemma Verify_fresh_keys_witness : ∃ tok h k, parse "0" = inl (tok, h) ∧ ch_keys (cw_cache warmWorld) !! h_KeyID h = Some k.
Proof.
  destruct (Verify_fresh_keys bookURL bookVerifier (quietCall "0") "0" warmWorld (received bookGrant) warmWorld) as (tok & h & k & H1 & H2 & _).
  - apply quietCall_ticking.
  - vm_compute. reflexivity.
  - reflexivity.
  - exists tok, h, k. split; [exact H1|exact H2].
Defined.

Lemma Verify_outage_witness :
  (VerifierVerify bookURL bookVerifier (mkCallIn (λ _ w, w) (λ _, mkRefreshIn (λ _, None) 0)) "0" coldWorld).1 = inr (VerifyUnavailable ErrNeverLoaded).
Proof.
  destruct (Verify_outage bookURL bookVerifier (mkCallIn (λ _ w, w) (λ _, mkRefreshIn (λ _, None) 0)) "0" coldWorld) as [_ H].
  apply (H (nth 0 bookTokens (mkBookToken bookHeader "" (mkBookStd "" "" [] None None) (mkGrantClaim "" ""))) bookHeader).
  - reflexivity.
  - discriminate.
  - intros n w. exists 0%N. destruct w. unfold advance. cbn. f_equal. lia.
  - reflexivity.
  - reflexivity.
Defined.

(** The key is read before the age of its set.  A refresh by another thread in
    between makes the set look fresh, and the key of the stale set is trusted
    though the issuer has withdrawn it. *)
Definition staleWorld : world := mkWorld (mkCache (keyMap (JWKS bookRingIssuer)) "" Time.Second 0%Z) (9000 * Time.Second)%Z [].
Definition racingCall : callIn :=
  mkCallIn (λ n w, if (n =? 2)%nat then (RefreshIfDue bookURL bookCacheConfig (mkRefreshIn (bookNet "1") 0) w).2 else w)
           (λ _, mkRefreshIn (λ _, None) 0).
Lemma stale_key_race :
  (∀ n w, envs bookURL bookCacheConfig w (ci_others racingCall n w)) ∧ stale bookVerifier staleWorld = true ∧
  ∃ w', pickKey bookURL bookVerifier racingCall "k1" staleWorld = (inl (Public bookSigner), w') ∧
    ch_keys (cw_cache w') !! "k1" = None.
Proof.
  split; [|split; [reflexivity|eexists; split; reflexivity]].
  intros n w. cbn. destruct (n =? 2)%nat; [|apply envs_refl]. eapply envs_due. apply envs_refl.
Qed.
