(* ===== verification/DeviceGuard.v ===== *)
(** * The GPU guard (pkg/sys/cgroup/devprog_linux.go)

    The eBPF device program fiberd assembles, run by an interpreter of the
    instructions it uses, and the /proc/devices parser that chooses its majors.
    Kernel calls are inputs. *)

From Stdlib Require Import Ascii.
From S2P Require Import Prelude GoLib GoText.
From stdpp Require Import options.

(** ** strings.Split on a newline, strings.Fields, a narrow ParseUint *)

Definition newline : ascii := byte 10.
Definition SplitLines (s : string) : list string := Split newline s.

Fixpoint fieldsFrom (fuel : nat) (cur s : string) : list string :=
  let done := if cur ==? "" then [] else [cur] in
  match fuel, s with
  | S fuel', String c s' =>
      let n := space_len s in
      if (n =? 0)%nat then fieldsFrom fuel' (cur +:+ String c "") s' else done ++ fieldsFrom fuel' "" (str_drop n s)
  | _, _ => done
  end.
Definition Fields (s : string) : list string := fieldsFrom (String.length s) "" s.

(** [strconv.ParseUint(s, 10, 12)] *)
Definition ParseUint12 (s : string) : option N := ParseUintW 12 s.

(** ** The majors *)

(** [const nvidiaMajor] *)
Definition nvidiaMajor : N := 195.

(** The loop of [nvidiaMajorsOf] over trimmed lines: the section flag and the
    majors found. *)
Definition majorsLine (st : bool * list N) (line : string) : bool * list N :=
  let '(chars, majors) := st in
  let line := TrimSpace line in
  if line ==? "Character devices:" then (true, majors)
  else if line ==? "Block devices:" then (false, majors)
  else if negb chars then (chars, majors)
  else
    match Fields line with
    | [num; name] =>
        if negb (HasPrefix name "nvidia") then (chars, majors)
        else
          match ParseUint12 num with
          | None => (chars, majors)
          | Some n =>
              if (n =? nvidiaMajor)%N then (chars, majors)
              else if existsb (λ m, (m =? n)%N) majors then (chars, majors) else (chars, majors ++ [n])
          end
    | _ => (chars, majors)
    end.

(** [func nvidiaMajorsOf(text string) []uint32] *)
Definition nvidiaMajorsOf (text : string) : list N := (foldl majorsLine (false, [nvidiaMajor]) (SplitLines text)).2.

(** [func nvidiaMajors() ([]uint32, error)]; [None] is a /proc/devices that cannot be read *)
Definition nvidiaMajors (text : option string) : list N :=
  match text with None => [nvidiaMajor] | Some t => nvidiaMajorsOf t end.

(** [func nvidiaNamed(text string) bool] *)
Fixpoint nvidiaNamedFrom (chars : bool) (lines : list string) : bool :=
  match lines with
  | [] => false
  | line :: lines' =>
      let line := TrimSpace line in
      if line ==? "Character devices:" then nvidiaNamedFrom true lines'
      else if line ==? "Block devices:" then nvidiaNamedFrom false lines'
      else if chars && match Fields line with [_; name] => HasPrefix name "nvidia" | _ => false end then true
      else nvidiaNamedFrom chars lines'
  end.
Definition nvidiaNamed (text : string) : bool := nvidiaNamedFrom false (SplitLines text).
(** [func NVIDIAPresent() bool] *)
Definition NVIDIAPresent (text : option string) : bool := from_option nvidiaNamed false text.

(** ** The program *)

(** [type insn struct] *)
Record insn := mkInsn { i_code : N; i_regs : N; i_off : Z; i_imm : Z }.

(** Opcodes (golang.org/x/sys/unix, linux/bpf.h) *)
Definition BPF_LDX : N := 1.
Definition BPF_MEM : N := 96.
Definition BPF_W : N := 0.
Definition BPF_ALU64 : N := 7.
Definition BPF_AND : N := 80.
Definition BPF_MOV : N := 176.
Definition BPF_K : N := 0.
Definition BPF_JMP : N := 5.
Definition BPF_JNE : N := 80.
Definition BPF_JEQ : N := 16.
Definition BPF_EXIT : N := 144.

Definition r0 : N := 0.
Definition r1 : N := 1.
Definition r2 : N := 2.
Definition ctxAccessType : Z := 0.
Definition ctxMajor : Z := 4.
Definition devcgDevChar : Z := 2.

(** [int16(z)] *)
Definition to_int16 (z : Z) : Z := ((z + 2 ^ 15) mod 2 ^ 16 - 2 ^ 15)%Z.

(** One jump per major; [i] is its index. *)
Fixpoint jumps (n : Z) (i : nat) (majors : list N) : list insn :=
  match majors with
  | [] => []
  | m :: ms =>
      mkInsn (N.lor (N.lor BPF_JMP BPF_JEQ) BPF_K) r2 (to_int16 (to_int16 (n + 1) - to_int16 (Z.of_nat i))) (to_int32 (Z.of_N m))
      :: jumps n (S i) ms
  end.

(** [func deviceProgram(majors []uint32) []insn] *)
Definition deviceProgram (majors : list N) : list insn :=
  let n := to_int16 (Z.of_nat (length majors)) in
  [ mkInsn (N.lor (N.lor BPF_LDX BPF_MEM) BPF_W) (N.lor r2 (N.shiftl r1 4)) ctxAccessType 0;
    mkInsn (N.lor (N.lor BPF_ALU64 BPF_AND) BPF_K) r2 0 65535;
    mkInsn (N.lor (N.lor BPF_JMP BPF_JNE) BPF_K) r2 (to_int16 (n + 1)) devcgDevChar;
    mkInsn (N.lor (N.lor BPF_LDX BPF_MEM) BPF_W) (N.lor r2 (N.shiftl r1 4)) ctxMajor 0 ]
  ++ jumps n 0 majors ++
  [ mkInsn (N.lor (N.lor BPF_ALU64 BPF_MOV) BPF_K) r0 0 1;
    mkInsn (N.lor BPF_JMP BPF_EXIT) 0 0 0;
    mkInsn (N.lor (N.lor BPF_ALU64 BPF_MOV) BPF_K) r0 0 0;
    mkInsn (N.lor BPF_JMP BPF_EXIT) 0 0 0 ].

(** ** The machine (the eBPF instruction set, RFC 9669, as far as it is used)

    A register holds the context pointer or a 64-bit number; the context is
    struct bpf_cgroup_dev_ctx, read four bytes at a time.  [None] is a fault. *)

Inductive val := VCtx | VInt (n : N).
Record devCtx := mkDevCtx { dc_accessType : N; dc_major : N; dc_minor : N }.

Definition ctxLoad (c : devCtx) (off : Z) : option N :=
  if (off =? 0)%Z then Some (dc_accessType c)
  else if (off =? 4)%Z then Some (dc_major c)
  else if (off =? 8)%Z then Some (dc_minor c) else None.
(** An immediate, sign extended to 64 bits. *)
Definition imm64 (z : Z) : N := Z.to_N (z mod 2 ^ 64).

Inductive outcome := Next (regs : gmap N val) (pc : Z) | Exit (r : N).
Definition exec1 (c : devCtx) (i : insn) (regs : gmap N val) (pc : Z) : option outcome :=
  let dst := N.land (i_regs i) 15 in
  let src := N.shiftr (i_regs i) 4 in
  if (i_code i =? 97)%N then                      (* dst = *(u32 * )(src + off) *)
    match regs !! src with
    | Some VCtx => n ← ctxLoad c (i_off i); Some (Next (<[dst := VInt n]> regs) (pc + 1))
    | _ => None
    end
  else if (i_code i =? 87)%N then                 (* dst &= imm *)
    match regs !! dst with
    | Some (VInt n) => Some (Next (<[dst := VInt (N.land n (imm64 (i_imm i)))]> regs) (pc + 1))
    | _ => None
    end
  else if (i_code i =? 183)%N then                (* dst = imm *)
    Some (Next (<[dst := VInt (imm64 (i_imm i))]> regs) (pc + 1))
  else if (i_code i =? 85)%N || (i_code i =? 21)%N then   (* if dst != imm, if dst == imm *)
    match regs !! dst with
    | Some (VInt n) =>
        let taken := if (i_code i =? 21)%N then (n =? imm64 (i_imm i))%N else negb (n =? imm64 (i_imm i))%N in
        Some (Next regs (pc + 1 + (if taken then i_off i else 0))%Z)
    | _ => None
    end
  else if (i_code i =? 149)%N then                (* exit *)
    match regs !! r0 with Some (VInt n) => Some (Exit n) | _ => None end
  else None.

Fixpoint exec (fuel : nat) (c : devCtx) (p : list insn) (regs : gmap N val) (pc : Z) : option N :=
  match fuel with
  | 0 => None
  | S fuel' =>
      if (pc <? 0)%Z then None
      else i ← p !! Z.to_nat pc; o ← exec1 c i regs pc;
           match o with Exit r => Some r | Next regs' pc' => exec fuel' c p regs' pc' end
  end.
(** The verdict of a program on an access: 1 allows it, 0 refuses it. *)
Definition verdict (p : list insn) (c : devCtx) : option N := exec (length p) c p {[ r1 := VCtx ]} 0.

(** ** The guard's descriptor *)

Record GPUGuard := mkGuard { gg_progFD : Z; gg_id : N }.

(** What opening the cgroup directory and one bpf command answer. *)
Inductive opened := OpenOK | OpenGone | OpenErr.
Inductive errno := E0 | ENOENT | ENOSPC | EOTHER.
#[global] Instance errno_eq_dec : EqDecision errno. Proof. solve_decision. Defined.

(** [func (g *GPUGuard) Close() error]: whether it succeeded, and what was done *)
Inductive guardCall := CloseFD (fd : Z) | Detach (fd : Z).
Definition Close (o : opened) (detach : errno) (g : GPUGuard) : bool * list guardCall * GPUGuard :=
  if (gg_progFD g <? 0)%Z then (true, [], g)
  else
    let fd := gg_progFD g in
    let g' := mkGuard (-1) (gg_id g) in
    match o with
    | OpenGone => (true, [CloseFD fd], g')
    | OpenErr => (false, [CloseFD fd], g')
    | OpenOK => (bool_decide (detach = E0 ∨ detach = ENOENT), [Detach fd; CloseFD fd], g')
    end.
(** [func (g *GPUGuard) Release() error]; [ok] is what close(2) answers *)
Definition Release (ok : bool) (g : GPUGuard) : bool * list guardCall * GPUGuard :=
  if (gg_progFD g <? 0)%Z then (true, [], g)
  else (ok, [CloseFD (gg_progFD g)], mkGuard (-1) (gg_id g)).

(** One BPF_PROG_QUERY with room for [room] ids: errno, prog_cnt, the ids written. *)
Definition query := nat → errno * nat * list N.
(** The loop of [Covered]; [None] is out of fuel. *)
Fixpoint coveredLoop (fuel : nat) (q : query) (id : N) (room : nat) : option (bool + unit) :=
  match fuel with
  | 0 => None
  | S fuel' =>
      let '(e, cnt, ids) := q room in
      if e ==? ENOSPC then coveredLoop fuel' q id (cnt + 16)
      else if negb (e ==? E0) then Some (inr tt)
      else Some (inl (existsb (λ i, (i =? id)%N) (take (min cnt room) ids)))
  end.
(** [func (g *GPUGuard) Covered(leaf string) (bool, error)] *)
Definition Covered (fuel : nat) (o : opened) (q : query) (g : GPUGuard) : option (bool + unit) :=
  if (gg_progFD g <? 0)%Z then Some (inr tt)
  else match o with OpenOK => coveredLoop fuel q (gg_id g) 16 | _ => Some (inr tt) end.
