(* ===== verification/GuardFacts.v ===== *)
(** * What the GPU guard refuses (pkg/sys/cgroup/devprog_linux.go)

    The assembled program's verdict for every access, the majors the parser
    finds, and the two together. *)

From Stdlib Require Import Ascii.
From S2P Require Import Prelude GoLib GoText DeviceGuard.
From stdpp Require Import options.

(** ** The program *)

Lemma to_int16_small z : (- 2 ^ 15 ≤ z < 2 ^ 15)%Z → to_int16 z = z.
Proof. intros H. unfold to_int16. rewrite Z.mod_small by lia. lia. Qed.

(** Majors the program can carry: jumps within int16, immediates within int32. *)
Definition carries (majors : list N) : Prop := (Z.of_nat (length majors) ≤ 32000)%Z ∧ Forall (λ m, (m < 2 ^ 31)%N) majors.

Definition jump (n i : nat) (m : N) : insn := mkInsn 21 2 (Z.of_nat n + 1 - Z.of_nat i) (Z.of_N m).

Lemma jumps_lookup n majors i k m : (Z.of_nat n ≤ 32000)%Z → (i + length majors ≤ n)%nat → Forall (λ m, (m < 2 ^ 31)%N) majors →
  majors !! k = Some m → jumps (Z.of_nat n) i majors !! k = Some (jump n (i + k) m).
Proof.
  intros Hn. revert i k. induction majors as [|a ms IH]; intros i k Hi Hf Hk; [done|]. cbn in Hi. apply Forall_cons in Hf as [Ha Hf].
  destruct k as [|k]; cbn [jumps]; cbn in Hk.
  - injection Hk as <-. cbv beta in Ha. unfold jump. rewrite Nat.add_0_r. f_equal.
    assert (Z.of_N a < 2 ^ 31)%Z by (change (2 ^ 31)%Z with (Z.of_N (2 ^ 31)); lia). rewrite (to_int16_small (Z.of_nat n + 1)), (to_int16_small (Z.of_nat i)), to_int16_small, to_int32_small by lia. done.
  - rewrite lookup_cons. rewrite (IH (S i) k); [|lia|done|done]. by replace (S i + k)%nat with (i + S k)%nat by lia.
Qed.
Lemma length_jumps n i majors : length (jumps n i majors) = length majors.
Proof. revert i. induction majors as [|m ms IH]; intros i; [done|]. cbn. by rewrite IH. Qed.

Section program.
Context (majors : list N) (Hm : carries majors).
Let n := length majors.
Let p := deviceProgram majors.

Lemma program_shape : p =
  [mkInsn 97 18 0 0; mkInsn 87 2 0 65535; mkInsn 85 2 (Z.of_nat n + 1) 2; mkInsn 97 18 4 0] ++ jumps (Z.of_nat n) 0 majors ++
  [mkInsn 183 0 0 1; mkInsn 149 0 0 0; mkInsn 183 0 0 0; mkInsn 149 0 0 0].
Proof using Hm.
  destruct Hm as [Hl _]. unfold p, deviceProgram. rewrite (to_int16_small (Z.of_nat (length majors))) by lia.
  by rewrite to_int16_small by lia.
Qed.

Lemma program_jump k m : majors !! k = Some m → p !! (4 + k)%nat = Some (jump n k m).
Proof using Hm.
  intros Hk. rewrite program_shape, lookup_app_r by (cbn; lia). cbn [length]. replace (4 + k - 4)%nat with k by lia.
  rewrite lookup_app_l by (rewrite length_jumps; by eapply lookup_lt_Some).
  destruct Hm as [Hl Hf]. rewrite (jumps_lookup n majors 0 k m) by (unfold n in *; done || lia). done.
Qed.
Lemma program_end j : p !! (4 + n + j)%nat = [mkInsn 183 0 0 1; mkInsn 149 0 0 0; mkInsn 183 0 0 0; mkInsn 149 0 0 0] !! j.
Proof using Hm.
  rewrite program_shape, lookup_app_r by (cbn; lia). cbn [length]. replace (4 + n + j - 4)%nat with (n + j)%nat by lia.
  rewrite lookup_app_r by (rewrite length_jumps; unfold n; lia). rewrite length_jumps. f_equal. unfold n. lia.
Qed.

(** One step at a known instruction. *)
Lemma exec_step fuel c regs k i : p !! k = Some i →
  exec (S fuel) c p regs (Z.of_nat k) =
    (o ← exec1 c i regs (Z.of_nat k); match o with Exit r => Some r | Next regs' pc' => exec fuel c p regs' pc' end).
Proof.
  intros Hi. cbn [exec]. rewrite (proj2 (Z.ltb_ge _ _)) by lia. rewrite Nat2Z.id, Hi. done.
Qed.

(** From the label at [j]: 0 allows, 2 denies. *)
Lemma exec_verdict fuel c regs j v : (2 ≤ fuel)%nat → (j = 0%nat ∧ v = 1%N ∨ j = 2%nat ∧ v = 0%N) →
  exec fuel c p regs (Z.of_nat (4 + n + j)) = Some v.
Proof using Hm.
  intros Hf Hj. destruct fuel as [|[|fuel]]; try lia.
  assert (p !! (4 + n + j)%nat = Some (mkInsn 183 0 0 (Z.of_N v)) ∧ p !! (4 + n + S j)%nat = Some (mkInsn 149 0 0 0)) as [H1 H2].
  { rewrite !program_end. by destruct Hj as [[-> ->]|[-> ->]]. }
  rewrite (exec_step _ _ _ _ _ H1). cbn [exec1 i_code N.eqb Pos.eqb mbind option_bind i_regs i_imm orb].
  replace (Z.of_nat (4 + n + j) + 1)%Z with (Z.of_nat (4 + n + S j)) by lia.
  rewrite (exec_step _ _ _ _ _ H2). cbn [exec1 i_code N.eqb Pos.eqb orb i_regs].
  change (N.land 0 15) with r0. rewrite lookup_insert_eq. by destruct Hj as [[-> ->]|[-> ->]].
Qed.

(** From the [k]-th jump on, with the major in r2. *)
Lemma exec_scan c regs major : (major < 2 ^ 32)%N → regs !! r2 = Some (VInt major) →
  ∀ d k fuel, (k + d = n)%nat → (d + 2 ≤ fuel)%nat →
  exec fuel c p regs (Z.of_nat (4 + k)) = Some (if bool_decide (major ∈ drop k majors) then 0%N else 1%N).
Proof using Hm.
  intros Hmaj Hr d. induction d as [|d IH]; intros k fuel Hk Hf.
  - replace (4 + k)%nat with (4 + n + 0)%nat by lia. rewrite (exec_verdict fuel c regs 0 1) by (auto; lia).
    rewrite bool_decide_eq_false_2; [done|]. rewrite drop_ge by (fold n; lia). apply not_elem_of_nil.
  - destruct (lookup_lt_is_Some_2 majors k) as [m Em]; [fold n; lia|].
    destruct fuel as [|fuel]; [lia|]. rewrite (exec_step _ _ _ _ _ (program_jump k m Em)).
    cbn [exec1 jump i_code N.eqb Pos.eqb orb i_regs i_imm i_off]. change (N.land 2 15) with r2. rewrite Hr. cbn [mbind option_bind].
    assert (m < 2 ^ 31)%N as Hlt by (destruct Hm as [_ Hall]; by apply (Forall_lookup_1 _ _ _ _ Hall Em)).
    assert (imm64 (Z.of_N m) = m) as -> by (unfold imm64; rewrite Z.mod_small by lia; lia).
    rewrite (drop_S majors m k Em). destruct (major =? m)%N eqn:E.
    + apply N.eqb_eq in E as ->. rewrite bool_decide_eq_true_2 by (apply elem_of_cons; auto).
      replace (Z.of_nat (4 + k) + 1 + (Z.of_nat n + 1 - Z.of_nat k))%Z with (Z.of_nat (4 + n + 2)) by lia.
      apply exec_verdict; [lia|auto].
    + apply N.eqb_neq in E. replace (Z.of_nat (4 + k) + 1 + 0)%Z with (Z.of_nat (4 + S k)) by lia.
      assert (bool_decide (major ∈ m :: drop (S k) majors) = bool_decide (major ∈ drop (S k) majors)) as ->; [|apply IH; lia].
      apply bool_decide_ext. rewrite elem_of_cons. naive_solver.
Qed.

Lemma program_verdict c : (dc_accessType c < 2 ^ 32)%N → (dc_major c < 2 ^ 32)%N →
  verdict p c = Some (if bool_decide (N.land (dc_accessType c) 65535 = 2%N ∧ dc_major c ∈ majors) then 0%N else 1%N).
Proof using Hm.
  intros Ht Hmaj. unfold verdict. assert (length p = (8 + n)%nat) as ->.
  { rewrite program_shape, !length_app, length_jumps. cbn. unfold n. lia. }
  assert (p !! 0%nat = Some (mkInsn 97 18 0 0) ∧ p !! 1%nat = Some (mkInsn 87 2 0 65535) ∧
    p !! 2%nat = Some (mkInsn 85 2 (Z.of_nat n + 1) 2) ∧ p !! 3%nat = Some (mkInsn 97 18 4 0)) as (H0 & H1 & H2 & H3).
  { rewrite program_shape. done. }
  cbn [Nat.add]. change 0%Z with (Z.of_nat 0). rewrite (exec_step _ _ _ _ _ H0).
  cbn [exec1 i_code N.eqb Pos.eqb i_regs i_off]. change (N.shiftr 18 4) with r1. change (N.land 18 15) with r2.
  rewrite lookup_singleton_eq. cbn [ctxLoad Z.eqb mbind option_bind]. change (Z.of_nat 0 + 1)%Z with (Z.of_nat 1).
  rewrite (exec_step _ _ _ _ _ H1). cbn [exec1 i_code N.eqb Pos.eqb i_regs i_imm]. change (N.land 2 15) with r2.
  rewrite lookup_insert_eq. cbn [mbind option_bind]. change (Z.of_nat 1 + 1)%Z with (Z.of_nat 2). change (imm64 65535) with 65535%N.
  rewrite (exec_step _ _ _ _ _ H2). cbn [exec1 i_code N.eqb Pos.eqb i_regs i_imm i_off orb]. change (N.land 2 15) with r2.
  rewrite lookup_insert_eq. cbn [mbind option_bind]. change (imm64 2) with 2%N. set (ty := N.land (dc_accessType c) 65535).
  destruct (ty =? 2)%N eqn:E; cbn [negb].
  - apply N.eqb_eq in E. change (Z.of_nat 2 + 1 + 0)%Z with (Z.of_nat 3).
    rewrite (exec_step _ _ _ _ _ H3). cbn [exec1 i_code N.eqb Pos.eqb i_regs i_off]. change (N.shiftr 18 4) with r1. change (N.land 18 15) with r2.
    rewrite !lookup_insert_ne, lookup_singleton_eq by done. cbn [ctxLoad Z.eqb Pos.eqb mbind option_bind].
    change (Z.of_nat 3 + 1)%Z with (Z.of_nat (4 + 0)).
    rewrite (exec_scan c _ (dc_major c) Hmaj (lookup_insert_eq _ _ _) n 0) by lia. rewrite drop_0. f_equal.
    assert (bool_decide (dc_major c ∈ majors) = bool_decide (ty = 2%N ∧ dc_major c ∈ majors)) as -> by (apply bool_decide_ext; naive_solver). done.
  - apply N.eqb_neq in E. replace (Z.of_nat 2 + 1 + (Z.of_nat n + 1))%Z with (Z.of_nat (4 + n + 0)) by lia.
    rewrite (exec_verdict _ c _ 0 1) by (auto; lia). by rewrite bool_decide_eq_false_2 by naive_solver.
Qed.
End program.

(** ** The majors *)

Definition charHeader : string := "Character devices:".
Definition blockHeader : string := "Block devices:".
Definition isHeader (l : string) : Prop := l = charHeader ∨ l = blockHeader.
#[global] Instance isHeader_dec l : Decision (isHeader l).
Proof. unfold isHeader. apply _. Defined.

(** After these lines the last header seen is that of the character devices. *)
Definition inChars (lines : list string) : Prop := last (filter isHeader (TrimSpace <$> lines)) = Some charHeader.
(** The major a line gives an NVIDIA device. *)
Definition majorOf (line : string) : option N :=
  match Fields (TrimSpace line) with
  | [num; name] => if HasPrefix name "nvidia" then ParseUint12 num else None
  | _ => None
  end.
(** [text] lists [m] as a character major of the NVIDIA driver. *)
Definition listed (text : string) (m : N) : Prop :=
  ∃ pre line post, SplitLines text = pre ++ line :: post ∧ inChars pre ∧ ¬ isHeader (TrimSpace line) ∧ majorOf line = Some m.

Record majorsOK (lines : list string) (st : bool * list N) : Prop := {
  mo_section : st.1 = true ↔ inChars lines;
  mo_head : head st.2 = Some nvidiaMajor;
  mo_nodup : NoDup st.2;
  mo_small : Forall (λ m, (m < 4096)%N) st.2;
  mo_listed m : m ∈ st.2 ↔ m = nvidiaMajor ∨ ∃ pre line post, lines = pre ++ line :: post ∧ inChars pre ∧ ¬ isHeader (TrimSpace line) ∧ majorOf line = Some m;
}.

Lemma inChars_snoc lines l : inChars (lines ++ [l]) ↔ if decide (isHeader (TrimSpace l)) then TrimSpace l = charHeader else inChars lines.
Proof.
  unfold inChars. rewrite fmap_app, filter_app. change (TrimSpace <$> [l]) with [TrimSpace l]. rewrite filter_cons, filter_nil.
  destruct (decide (isHeader (TrimSpace l))); [rewrite last_snoc; split; congruence|by rewrite app_nil_r].
Qed.

Lemma snoc_split {A} (lines : list A) l (P : list A → A → Prop) :
  (∃ pre x post, lines ++ [l] = pre ++ x :: post ∧ P pre x) ↔ (∃ pre x post, lines = pre ++ x :: post ∧ P pre x) ∨ P lines l.
Proof.
  split.
  - intros (pre & x & post & E & HP). destruct post as [|y post _] using rev_ind.
    + apply app_inj_tail in E as [-> ->]. by right.
    + left. rewrite app_comm_cons, app_assoc in E. apply app_inj_tail in E as [-> _]. eauto.
  - intros [(pre & x & post & -> & HP)|HP].
    + exists pre, x, (post ++ [l]). split; [|done]. by rewrite <- app_assoc.
    + exists lines, l, []. done.
Qed.

Lemma existsb_mem n l : existsb (λ m, (m =? n)%N) l = true ↔ n ∈ l.
Proof.
  rewrite existsb_exists. split.
  - intros (m & Hm & E%N.eqb_eq). subst. by apply list_elem_of_In.
  - intros H. exists n. split; [by apply list_elem_of_In|apply N.eqb_refl].
Qed.
Lemma ParseUint12_small s n : ParseUint12 s = Some n → (n < 4096)%N.
Proof. apply (ParseUintW_bound 12). Qed.
Lemma majorOf_small l n : majorOf l = Some n → (n < 4096)%N.
Proof. unfold majorOf. repeat case_match; try done. apply ParseUint12_small. Qed.

(** One line: a header switches the section, an NVIDIA line of the character
    section adds its major once, any other line does nothing. *)
Lemma majorsLine_cases chars majors line :
  majorsLine (chars, majors) line =
    if decide (isHeader (TrimSpace line)) then (bool_decide (TrimSpace line = charHeader), majors)
    else (chars, match majorOf line with
                 | Some n => if chars && negb (bool_decide (n = nvidiaMajor ∨ n ∈ majors)) then majors ++ [n] else majors
                 | None => majors
                 end).
Proof.
  unfold majorsLine, majorOf. set (l := TrimSpace line). destruct (decide (isHeader l)) as [H|H].
  - by destruct H as [->| ->].
  - assert (l ≠ charHeader ∧ l ≠ blockHeader) as [H1 H2] by (split; intros E; apply H; [by left|by right]).
    unfold charHeader, blockHeader in H1, H2. rewrite (bool_decide_eq_false_2 _ H1), (bool_decide_eq_false_2 _ H2).
    destruct chars; cbn [negb andb]; [|by repeat case_match].
    destruct (Fields l) as [|num [|name [|? ?]]]; try done. destruct (HasPrefix name "nvidia"); cbn [negb]; [|done].
    destruct (ParseUint12 num) as [n|]; [|done].
    assert (bool_decide (n = nvidiaMajor ∨ n ∈ majors) = (n =? nvidiaMajor)%N || existsb (λ m, (m =? n)%N) majors) as ->.
    { apply Bool.eq_iff_eq_true. rewrite bool_decide_eq_true, orb_true_iff, N.eqb_eq, existsb_mem. done. }
    destruct (n =? nvidiaMajor)%N; [done|]. by destruct (existsb _ majors).
Qed.

Lemma majorsLine_OK lines st line : majorsOK lines st → majorsOK (lines ++ [line]) (majorsLine st line).
Proof.
  destruct st as [chars majors]. intros [Hs Hh Hn Hf Hl]. cbn in Hs, Hh, Hn, Hf, Hl. rewrite majorsLine_cases.
  pose proof (inChars_snoc lines line) as Hin. pose proof (snoc_split lines line) as Hsp.
  destruct (decide (isHeader (TrimSpace line))) as [H|H].
  - split; cbn; try done; [by rewrite bool_decide_eq_true, Hin|]. intros m. rewrite Hl.
    rewrite (Hsp (λ pre x, inChars pre ∧ ¬ isHeader (TrimSpace x) ∧ majorOf x = Some m)). naive_solver.
  - assert (∀ m, (m = nvidiaMajor ∨ ∃ pre x post, lines ++ [line] = pre ++ x :: post ∧ inChars pre ∧ ¬ isHeader (TrimSpace x) ∧ majorOf x = Some m) ↔
      m ∈ majors ∨ chars = true ∧ majorOf line = Some m) as Hnew.
    { intros m. rewrite Hl, Hs, (Hsp (λ pre x, inChars pre ∧ ¬ isHeader (TrimSpace x) ∧ majorOf x = Some m)). naive_solver. }
    assert (nvidiaMajor ∈ majors) as H195 by (destruct majors as [|? ?]; [done|]; injection Hh as ->; left).
    destruct (majorOf line) as [n|] eqn:E; [|split; cbn; [by rewrite Hs, Hin|done..|]; intros m; rewrite Hnew; naive_solver].
    destruct chars; cbn [andb]; [|split; cbn; [by rewrite Hs, Hin|done..|]; intros m; rewrite Hnew; naive_solver].
    case_bool_decide as Hd; cbn [negb].
    + split; cbn; [by rewrite Hs, Hin|done..|]. intros m. rewrite Hnew. naive_solver.
    + split; cbn; [by rewrite Hs, Hin| | | |].
      * by destruct majors.
      * apply NoDup_app. split; [done|]. split; [|apply NoDup_singleton]. intros x Hx ->%list_elem_of_singleton. auto.
      * apply Forall_app. split; [done|]. apply Forall_singleton. by eapply majorOf_small.
      * intros m. rewrite elem_of_app, list_elem_of_singleton, Hnew. naive_solver.
Qed.

Lemma nvidiaMajorsOf_OK text : majorsOK (SplitLines text) (foldl majorsLine (false, [nvidiaMajor]) (SplitLines text)).
Proof.
  generalize (SplitLines text) as lines. induction lines as [|line lines IH] using rev_ind.
  - split; cbn; try done; [apply NoDup_singleton|by apply Forall_singleton|]. intros m. rewrite list_elem_of_singleton.
    split; [by left|]. intros [->|(pre & x & post & E & _)]; [done|]. by destruct pre.
  - rewrite foldl_snoc. by apply majorsLine_OK.
Qed.

Lemma NoDup_small_length l : NoDup l → Forall (λ m, (m < 4096)%N) l → (Z.of_nat (length l) ≤ 4096)%Z.
Proof.
  intros Hn Hf. assert (length (N.to_nat <$> l) ≤ length (seq 0 (N.to_nat 4096)))%nat as Hle.
  { apply submseteq_length, NoDup_submseteq; [apply NoDup_fmap_2_strong; [intros x y _ _; apply N2Nat.inj|done]|].
    intros x (m & -> & Hm)%list_elem_of_fmap. apply elem_of_seq. rewrite Forall_forall in Hf. specialize (Hf m Hm). cbv beta in Hf. lia. }
  rewrite length_fmap, length_seq in Hle. lia.
Qed.

(** C36: the guard refuses exactly the GPU.  For every /proc/devices text and
    every access a process can make, the program fiberd assembles from it runs
    to its end without a fault and refuses the access iff it is to a character
    device of major 195 or of a major the text lists for an nvidia device in
    its character section; everything else, block devices included, is
    allowed. *)
Theorem guard_exact text c :
  (dc_accessType c < 2 ^ 32)%N → (dc_major c < 2 ^ 32)%N →
  ∃ v, verdict (deviceProgram (nvidiaMajorsOf text)) c = Some v ∧
    (v = 0%N ∨ v = 1%N) ∧
    (v = 0%N ↔ N.land (dc_accessType c) 65535 = 2%N ∧ (dc_major c = nvidiaMajor ∨ listed text (dc_major c))).
Proof.
  intros Ht Hm. destruct (nvidiaMajorsOf_OK text) as [_ _ Hn Hf Hl].
  assert (carries (nvidiaMajorsOf text)) as Hc.
  { split; [pose proof (NoDup_small_length _ Hn Hf) as H; unfold nvidiaMajorsOf; lia|]. eapply Forall_impl; [exact Hf|]. cbn. lia. }
  eexists. split; [by apply program_verdict|]. specialize (Hl (dc_major c)). fold (nvidiaMajorsOf text) in Hl.
  unfold listed. rewrite <- Hl. case_bool_decide; naive_solver.
Qed.

Definition exampleDevices : string := String.concat (String newline "") ["Character devices:"; "195 nvidia"; "510 nvidia-uvm"; ""; "Block devices:"; "511 nvidia-x"].
Lemma guard_exact_witness : ∃ v, verdict (deviceProgram (nvidiaMajorsOf exampleDevices)) (mkDevCtx 131074 510 0) = Some v.
Proof.
  destruct (guard_exact exampleDevices (mkDevCtx 131074 510 0)) as (v & Hv & _); [vm_compute; reflexivity|vm_compute; reflexivity|].
  exists v. exact Hv.
Defined.
Example guard_examples :
  nvidiaMajorsOf exampleDevices = [195; 510]%N ∧
  verdict (deviceProgram (nvidiaMajorsOf exampleDevices)) (mkDevCtx 131074 510 0) = Some 0%N ∧
  verdict (deviceProgram (nvidiaMajorsOf exampleDevices)) (mkDevCtx 131073 510 0) = Some 1%N.
Proof. split_and!; vm_compute; reflexivity. Qed.

(** ** Covered *)

(** The kernel holds these programs: a query without room for all of them says
    how many there are, one with room lists them. *)
Definition kernelHolds (q : query) (progs : list N) : Prop :=
  ∀ room, q room = if (room <? length progs)%nat then (ENOSPC, length progs, take room progs) else (E0, length progs, progs).

(** Covered answers by membership in the programs in effect, in at most two
    queries. *)
Lemma Covered_exact q progs g : kernelHolds q progs → (0 ≤ gg_progFD g)%Z →
  Covered 2 OpenOK q g = Some (inl (bool_decide (gg_id g ∈ progs))).
Proof.
  intros Hq Hg. unfold Covered. rewrite (proj2 (Z.ltb_ge _ _)) by lia.
  assert (∀ fuel room, (length progs ≤ room)%nat → coveredLoop (S fuel) q (gg_id g) room = Some (inl (bool_decide (gg_id g ∈ progs)))) as Hfull.
  { intros fuel room Hr. cbn [coveredLoop]. rewrite Hq, (proj2 (Nat.ltb_ge _ _)) by done. cbn.
    rewrite Nat.min_l, firstn_all by done. do 2 f_equal. apply Bool.eq_iff_eq_true. by rewrite existsb_mem, bool_decide_eq_true. }
  destruct (decide (length progs ≤ 16)%nat) as [H|H]; [by apply Hfull|].
  transitivity (coveredLoop 1 q (gg_id g) (length progs + 16)); [|apply Hfull; lia].
  unfold coveredLoop at 1. fold coveredLoop. rewrite (Hq 16%nat), (proj2 (Nat.ltb_lt _ _)) by lia. done.
Qed.
