(* ===== verification/ReadyGate.v ===== *)
(** * The readiness gate (pkg/home/readygate.go)

    ReadyGate with any number of callers: each step is one hold of its lock or
    one return of Publish.  The control plane's side is ghost state: what it
    holds, and the versions of the warm set it was sent. *)

From S2P Require Import Prelude GoLib.
From stdpp Require Import options.

Record gate := mkGate {
  g_warm : gset string;
  g_decided : bool;
  g_known : bool;
  g_published : bool;
  g_inFlight : bool;
  g_lastErr : string;
}.

(** Where a caller of flush is: at the top of its loop, or in Publish with the
    warm set it read, and its version. *)
Inductive flusher := Flushing | Publishing (warm : gset string) (version : nat).

Record gates := mkGates {
  gs_gate : gate;
  gs_callers : gmap nat flusher;
  gs_version : nat;               (** ghost: how often the warm set was set *)
  gs_plane : option bool;         (** ghost: what the control plane holds *)
  gs_sent : list (nat * bool);    (** ghost: what reached it, newest first *)
}.

(** What Publish answers; a failed one may have reached the control plane. *)
Inductive published := PubOK | PubErr (msg : string) (reached : bool).

(** [len(warm) > 0] *)
Definition anyWarm (w : gset string) : bool := bool_decide (w ≠ ∅).

(** The first hold of PublishReady. *)
Definition record (uid : string) (ready : bool) (g : gate) : gate :=
  mkGate (if ready then {[uid]} ∪ g_warm g else g_warm g ∖ {[uid]}) true (g_known g) (g_published g) (g_inFlight g) (g_lastErr g).

(** The check at the top of flush's loop: done, or the warm set to publish. *)
Definition flushCheck (g : gate) : option (gset string) * gate :=
  if g_inFlight g then (None, g)
  else
    let want := anyWarm (g_warm g) in
    if g_known g && eqb (g_published g) want then (None, g)
    else (Some (g_warm g), mkGate (g_warm g) (g_decided g) (g_known g) (g_published g) true (g_lastErr g)).

(** The hold after Publish returned, of a call that sent [want]: the gate,
    whether the outcome changed, and whether the loop goes on. *)
Definition flushReturn (want : bool) (r : published) (g : gate) : gate * bool * bool :=
  match r with
  | PubErr msg _ => (mkGate (g_warm g) (g_decided g) (g_known g) (g_published g) false msg, negb (msg ==? g_lastErr g), false)
  | PubOK => (mkGate (g_warm g) (g_decided g) true want false "", g_lastErr g <>? "", true)
  end.

(** [func (g *ReadyGate) Ready() bool] *)
Definition GateReady (g : gate) : bool := anyWarm (g_warm g).

Inductive gateAction :=
| PublishReady (t : nat) (uid : string) (ready : bool)   (** its first hold; caller [t] then flushes *)
| Republish (t : nat)
| FlushCheck (t : nat)
| FlushReturn (t : nat) (r : published).

Definition gateStep (a : gateAction) (s : gates) : option gates :=
  let '(mkGates g cs v plane sent) := s in
  match a with
  | PublishReady t uid ready =>
      match cs !! t with
      | None => Some (mkGates (record uid ready g) (<[t := Flushing]> cs) (S v) plane sent)
      | Some _ => None
      end
  | Republish t =>
      match cs !! t with
      | None => Some (if g_decided g then mkGates g (<[t := Flushing]> cs) v plane sent else s)
      | Some _ => None
      end
  | FlushCheck t =>
      match cs !! t with
      | Some Flushing =>
          let '(w, g') := flushCheck g in
          Some (mkGates g' (match w with Some w => <[t := Publishing w v]> cs | None => delete t cs end) v plane sent)
      | _ => None
      end
  | FlushReturn t r =>
      match cs !! t with
      | Some (Publishing w n) =>
          let want := anyWarm w in
          let '(g', _, again) := flushReturn want r g in
          let reached := match r with PubOK => true | PubErr _ b => b end in
          Some (mkGates g' (if again : bool then <[t := Flushing]> cs else delete t cs) v
                  (if reached then Some want else plane) (if reached then (n, want) :: sent else sent))
      | _ => None
      end
  end.

Definition gates0 : gates := mkGates (mkGate ∅ false false false false "") ∅ 0 None [].
Fixpoint gateRun (l : list gateAction) (s : gates) : option gates :=
  match l with [] => Some s | a :: l' => s' ← gateStep a s; gateRun l' s' end.

(** ** The invariant *)

(** The version a publisher read. *)
Definition readVersion (f : flusher) : option nat := match f with Publishing _ n => Some n | Flushing => None end.

Record gateInv (s : gates) : Prop := {
  (** one publish at a time *)
  gi_flight : ∀ t w n, gs_callers s !! t = Some (Publishing w n) →
    g_inFlight (gs_gate s) = true ∧ (n ≤ gs_version s)%nat ∧ (∀ t' w' n', gs_callers s !! t' = Some (Publishing w' n') → t' = t);
  (** a version is sent by a publisher that read no older one *)
  gi_fresh : ∀ t w n k b, gs_callers s !! t = Some (Publishing w n) → (k, b) ∈ gs_sent s → (k ≤ n)%nat;
  gi_bound : ∀ k b, (k, b) ∈ gs_sent s → (k ≤ gs_version s)%nat;
  gi_sorted : StronglySorted (λ p q, (q.1 ≤ p.1)%nat) (gs_sent s);
  (** someone is on the way to send a set that is not sent *)
  gi_owed : g_decided (gs_gate s) = true → g_lastErr (gs_gate s) = "" →
    g_known (gs_gate s) = true ∧ g_published (gs_gate s) = anyWarm (g_warm (gs_gate s)) ∨ gs_callers s ≠ ∅;
  (** in flight means someone is *)
  gi_flying : g_inFlight (gs_gate s) = true → ∃ t w n, gs_callers s !! t = Some (Publishing w n);
}.

(** Publish errors have a text. *)
Definition actionOK (a : gateAction) : Prop := match a with FlushReturn _ (PubErr msg _) => msg ≠ "" | _ => True end.

Lemma gates0_inv : gateInv gates0.
Proof.
  split; cbn; try done.
  - intros k b ?%elem_of_nil. done.
  - constructor.
Qed.

(** A caller joins, at the top of the loop. *)
Lemma gateInv_join g g' cs v v' plane sent t :
  gateInv (mkGates g cs v plane sent) → cs !! t = None → (v ≤ v')%nat → g_inFlight g' = g_inFlight g →
  gateInv (mkGates g' (<[t := Flushing]> cs) v' plane sent).
Proof.
  intros [Hf Hfr Hb Hs Ho Hy] Ht Hv Hi. cbn in *.
  assert (∀ t' w n, <[t := Flushing]> cs !! t' = Some (Publishing w n) → cs !! t' = Some (Publishing w n)) as Hin.
  { intros t' w n [[_ ?]|[_ ?]]%lookup_insert_Some; done. }
  split; cbn; try done.
  - intros t' w n H%Hin. destruct (Hf t' w n H) as (H1 & H2 & H3). split; [congruence|]. split; [lia|]. intros t2 w2 n2 H4%Hin. eauto.
  - intros t' w n k b H%Hin. eauto.
  - intros k b Hk. specialize (Hb k b Hk). lia.
  - intros _ _. right. apply insert_non_empty.
  - rewrite Hi. intros (t' & w & n & H)%Hy. exists t', w, n. rewrite lookup_insert_ne; [done|]. congruence.
Qed.

Lemma gateInv_check t s s' : gateInv s → gateStep (FlushCheck t) s = Some s' → gateInv s'.
Proof.
  destruct s as [g cs v plane sent]. intros [Hf Hfr Hb Hs Ho Hy]. cbn [gateStep]. cbn in *.
  destruct (cs !! t) as [[|]|] eqn:Et; try done. unfold flushCheck.
  assert (∀ t' w n, delete t cs !! t' = Some (Publishing w n) → cs !! t' = Some (Publishing w n)) as Hin by (intros ??? [_ ?]%lookup_delete_Some; done).
  destruct (g_inFlight g) eqn:Ei; [|destruct (_ && _) eqn:Ek]; intros [= <-].
  - destruct (Hy eq_refl) as (t' & w & n & Ht'). assert (delete t cs !! t' = Some (Publishing w n)) as Hd by (apply lookup_delete_Some; split; [congruence|done]).
    split; cbn; eauto.
    + intros t1 w1 n1 H1%Hin. destruct (Hf _ _ _ H1) as (H2 & H3 & H4). split; [done|]. split; [done|]. eauto.
    + intros _ _. right. intros E. by rewrite E, lookup_empty in Hd.
  - apply andb_true_iff in Ek as [Ek Ep%Bool.eqb_prop].
    split; cbn; try done; eauto; [|intros; congruence].
    intros t1 w1 n1 H1%Hin. destruct (Hf _ _ _ H1) as (H2 & _). congruence.
  - assert (∀ t' w n, cs !! t' ≠ Some (Publishing w n)) as Hno by (intros ??? H; destruct (Hf _ _ _ H) as [? _]; congruence).
    assert (∀ t' w n, <[t := Publishing (g_warm g) v]> cs !! t' = Some (Publishing w n) → t' = t ∧ n = v) as Hin'.
    { intros t' w n [[<- [= _ <-]]|[_ ?]]%lookup_insert_Some; [done|]. by edestruct Hno. }
    split; cbn; try done.
    + intros t1 w1 n1 [-> ->]%Hin'. split; [done|]. split; [done|]. by intros t2 w2 n2 [-> _]%Hin'.
    + intros t1 w1 n1 k b [_ ->]%Hin'. eauto.
    + intros _ _. right. apply insert_non_empty.
    + intros _. exists t, (g_warm g), v. by rewrite lookup_insert_eq.
Qed.

Lemma gateInv_return t r s s' : gateInv s → actionOK (FlushReturn t r) → gateStep (FlushReturn t r) s = Some s' → gateInv s'.
Proof.
  destruct s as [g cs v plane sent]. intros [Hf Hfr Hb Hs Ho Hy] Hr. cbn [gateStep]. cbn in *.
  destruct (cs !! t) as [[|w n]|] eqn:Et; try done. destruct (Hf _ _ _ Et) as (Hi & Hn & Hu).
  assert (∀ cs' : gmap nat flusher, (∀ t', t' ≠ t → cs' !! t' = cs !! t') → (∀ w n, cs' !! t ≠ Some (Publishing w n)) →
    ∀ t' w n, cs' !! t' ≠ Some (Publishing w n)) as Hnone.
  { intros cs' H1 H2 t' w' n' H. destruct (decide (t' = t)) as [->|Hne]; [by apply H2 in H|]. rewrite H1 in H by done. by apply Hu in H. }
  assert (∀ want, StronglySorted (λ p q, (q.1 ≤ p.1)%nat) ((n, want) :: sent)) as Hs'.
  { intros want. constructor; [done|]. apply Forall_forall. intros [k b] Hk. cbn. by eapply Hfr. }
  assert (∀ want k b, (k, b) ∈ (n, want) :: sent → (k ≤ v)%nat) as Hb'.
  { intros want k b [[= -> ->]|Hk]%elem_of_cons; eauto. }
  destruct r as [|msg reached]; cbn [flushReturn]; intros [= <-].
  - assert (∀ t' w n, <[t := Flushing]> cs !! t' ≠ Some (Publishing w n)) as Hno.
    { apply Hnone; [intros; by rewrite lookup_insert_ne|intros; by rewrite lookup_insert_eq]. }
    split; cbn; try done; eauto; [|by intros ????? ?%Hno|].
    + intros t' w' n' ?%Hno. done.
    + intros _ _. right. apply insert_non_empty.
  - assert (∀ t' w n, delete t cs !! t' ≠ Some (Publishing w n)) as Hno.
    { apply Hnone; [intros; by rewrite lookup_delete_ne|intros; by rewrite lookup_delete_eq]. }
    split; cbn; try done.
    + intros t' w' n' ?%Hno. done.
    + intros ????? ?%Hno. done.
    + destruct reached; eauto.
    + destruct reached; eauto.
Qed.

Lemma gateStep_inv a s s' : gateInv s → actionOK a → gateStep a s = Some s' → gateInv s'.
Proof.
  intros HI Ha. destruct a as [t uid ready|t|t|t r]; [| |apply (gateInv_check t _ _ HI)|apply (gateInv_return t r _ _ HI Ha)];
    destruct s as [g cs v plane sent]; cbn [gateStep]; destruct (cs !! t) eqn:Et; try done.
  - intros [= <-]. apply (gateInv_join _ _ _ _ _ _ _ _ HI Et); [lia|done].
  - intros [= <-]. destruct (g_decided g); [|done]. apply (gateInv_join _ _ _ _ _ _ _ _ HI Et); [lia|done].
Qed.

Lemma gateRun_ind (P : gates → Prop) l : (∀ a s s', a ∈ l → P s → gateStep a s = Some s' → P s') → ∀ s s', P s → gateRun l s = Some s' → P s'.
Proof.
  induction l as [|a l IH]; intros Hstep s s' Hs; cbn; [by intros [= <-]|]. rewrite bind_Some. intros (s1 & H1 & H2).
  apply (IH (λ a' s s' Hin, Hstep a' s s' (list_elem_of_further _ _ _ Hin)) s1); [|done]. by apply (Hstep a s); [left| |].
Qed.
Lemma gateRun_inv l s s' : Forall actionOK l → gateInv s → gateRun l s = Some s' → gateInv s'.
Proof. intros Hl. apply gateRun_ind. intros a s1 s2 Hin HI. apply gateStep_inv; [done|]. by eapply Forall_forall in Hl. Qed.

(** ** What the control plane sees *)

(** A failed publish did not reach the control plane. *)
Definition failsCleanly (a : gateAction) : Prop := match a with FlushReturn _ (PubErr _ reached) => reached = false | _ => True end.

Definition planeOK (s : gates) : Prop := g_known (gs_gate s) = true → gs_plane s = Some (g_published (gs_gate s)).
Lemma gateStep_plane a s s' : planeOK s → failsCleanly a → gateStep a s = Some s' → planeOK s'.
Proof.
  destruct s as [g cs v plane sent]. unfold planeOK. cbn. intros Hp Ha. destruct a as [t uid ready|t|t|t r]; cbn [gateStep];
    destruct (cs !! t) as [[|w n]|]; try done.
  - by intros [= <-].
  - destruct (g_decided g); by intros [= <-].
  - unfold flushCheck. destruct (g_inFlight g); [by intros [= <-]|]. destruct (_ && _); by intros [= <-].
  - destruct r as [|msg reached]; cbn; intros [= <-]; cbn; [done|]. cbn in Ha. by subst.
Qed.

(** The control plane never sees an older state after a newer one, and is
    never left behind.  Over every interleaving of PublishReady and Republish
    calls, with publishes that fail or succeed: at most one publish is in
    flight, and what reaches the control plane is in the order it was decided;
    and, as long as failed publishes do not reach it, once no call is under way
    and the last publish did not fail, it holds "some template is warm"
    exactly when one is. *)
Theorem gate_converges l s :
  Forall actionOK l → gateRun l gates0 = Some s →
  (∀ t1 w1 n1 t2 w2 n2, gs_callers s !! t1 = Some (Publishing w1 n1) → gs_callers s !! t2 = Some (Publishing w2 n2) → t1 = t2) ∧
  StronglySorted (λ p q, (q.1 ≤ p.1)%nat) (gs_sent s) ∧
  (Forall failsCleanly l → gs_callers s = ∅ → g_decided (gs_gate s) = true → g_lastErr (gs_gate s) = "" →
     gs_plane s = Some (GateReady (gs_gate s))).
Proof.
  intros Hl Hr. pose proof (gateRun_inv l _ _ Hl gates0_inv Hr) as [Hf _ _ Hs Ho _]. split; [|split; [done|]].
  - intros t1 w1 n1 t2 w2 n2 H1 H2. destruct (Hf _ _ _ H2) as (_ & _ & H). eauto.
  - intros Hc He Hd Hle. destruct (Ho Hd Hle) as [[Hk Hp]|]; [|done]. unfold GateReady. rewrite <- Hp.
    assert (planeOK s) as HP; [|by apply HP].
    apply (gateRun_ind planeOK l) with (s := gates0); [|done|exact Hr].
    intros a s1 s2 Hin H1. apply gateStep_plane; [done|]. by eapply Forall_forall in Hc.
Qed.

Definition exampleGateRun : list gateAction :=
  [PublishReady 1 "a" true; FlushCheck 1; PublishReady 2 "a" false; FlushCheck 2; FlushReturn 1 PubOK; FlushCheck 1; FlushReturn 1 PubOK; FlushCheck 1].
Lemma gate_converges_witness : ∃ s, gateRun exampleGateRun gates0 = Some s ∧ gs_plane s = Some (GateReady (gs_gate s)).
Proof.
  eexists. split; [vm_compute; reflexivity|].
  eapply (gate_converges exampleGateRun); [repeat constructor|vm_compute; reflexivity|repeat constructor|vm_compute; reflexivity..].
Defined.

(** A publish that failed after it reached the control plane leaves [published]
    as it was; if the template then goes cold, nothing more is sent, and the
    control plane keeps holding that one is warm. *)
Definition lostAckRun : list gateAction :=
  [PublishReady 1 "a" true; FlushCheck 1; FlushReturn 1 PubOK; FlushCheck 1;
   PublishReady 1 "a" false; FlushCheck 1; FlushReturn 1 PubOK; FlushCheck 1;
   PublishReady 1 "a" true; FlushCheck 1; FlushReturn 1 (PubErr "timeout" true);
   PublishReady 1 "a" false; FlushCheck 1; Republish 1; FlushCheck 1].
Lemma lost_ack_keeps_ready : ∃ s, gateRun lostAckRun gates0 = Some s ∧
  gs_callers s = ∅ ∧ GateReady (gs_gate s) = false ∧ gs_plane s = Some true.
Proof. eexists. split; [vm_compute; reflexivity|]. split_and!; vm_compute; reflexivity. Qed.
