(* ===== verification/ScopeLoss.v ===== *)
(** * The scope-loss queue (pkg/home/scopeloss.go)

    ScopeLossQueue with its one delivering goroutine: each step is one hold of
    the lock, one wake-up, or one call of the callback. *)

From S2P Require Import Prelude GoLib.
From stdpp Require Import options.

(** The goroutine: not started; at the top of deliver's loop; in the callback;
    waiting for a wake or the context; returned. *)
Inductive runner := NotRunning | Delivering | Calling (reason : string) | Waiting | Ended.

Record lossQueue := mkLossQueue {
  lq_seen : gset string;
  lq_todo : list string;
  lq_fn : bool;                   (** a callback is set *)
  lq_wake : bool;                 (** the wake channel holds its one token *)
  lq_runner : runner;
  lq_done : bool;                 (** Run's context has ended *)
  lq_detected : list string;      (** ghost: new reasons, in the order of Lose *)
  lq_delivered : list string;     (** ghost: reasons the callback was called with *)
}.

(** [func (q *ScopeLossQueue) Lose(reason string) bool] *)
Definition Lose (reason : string) (q : lossQueue) : bool * lossQueue :=
  if bool_decide (reason ∈ lq_seen q) then (false, q)
  else (true, mkLossQueue ({[reason]} ∪ lq_seen q) (lq_todo q ++ [reason]) (lq_fn q) true (lq_runner q) (lq_done q)
                (lq_detected q ++ [reason]) (lq_delivered q)).

(** [func (q *ScopeLossQueue) OnScopeLost(fn)]; [None] is a nil callback *)
Definition OnScopeLost (fn : bool) (q : lossQueue) : lossQueue :=
  if fn then mkLossQueue (lq_seen q) (lq_todo q) true true (lq_runner q) (lq_done q) (lq_detected q) (lq_delivered q) else q.

(** [func (q *ScopeLossQueue) Pending() int] *)
Definition Pending (q : lossQueue) : nat := length (lq_todo q).

Definition with_runner (r : runner) (q : lossQueue) : lossQueue :=
  mkLossQueue (lq_seen q) (lq_todo q) (lq_fn q) (lq_wake q) r (lq_done q) (lq_detected q) (lq_delivered q).

(** One step of the goroutine: the loop of [deliver] inside the loop of [Run].
    [None] when it has nothing to do but wait. *)
Definition runnerStep (q : lossQueue) : option lossQueue :=
  match lq_runner q with
  | NotRunning | Ended => None
  | Delivering =>
      if lq_done q then Some (with_runner Waiting q)
      else match lq_fn q, lq_todo q with
           | true, reason :: todo =>
               Some (mkLossQueue (lq_seen q) todo (lq_fn q) (lq_wake q) (Calling reason) (lq_done q) (lq_detected q) (lq_delivered q ++ [reason]))
           | _, _ => Some (with_runner Waiting q)
           end
  | Calling _ => Some (with_runner Delivering q)
  | Waiting =>
      if lq_done q then Some (with_runner Ended q)
      else if lq_wake q
      then Some (mkLossQueue (lq_seen q) (lq_todo q) (lq_fn q) false Delivering (lq_done q) (lq_detected q) (lq_delivered q))
      else None
  end.

Inductive lossAction := ALose (reason : string) | AOnScopeLost (fn : bool) | ARun | AContextEnds | ARunner.

Definition lossStep (a : lossAction) (q : lossQueue) : option lossQueue :=
  match a with
  | ALose reason => Some (Lose reason q).2
  | AOnScopeLost fn => Some (OnScopeLost fn q)
  | ARun => match lq_runner q with NotRunning => Some (with_runner Delivering q) | _ => None end
  | AContextEnds => Some (mkLossQueue (lq_seen q) (lq_todo q) (lq_fn q) (lq_wake q) (lq_runner q) true (lq_detected q) (lq_delivered q))
  | ARunner => runnerStep q
  end.
Definition lossQueue0 : lossQueue := mkLossQueue ∅ [] false false NotRunning false [] [].
Fixpoint lossRun (l : list lossAction) (q : lossQueue) : option lossQueue :=
  match l with [] => Some q | a :: l' => q' ← lossStep a q; lossRun l' q' end.

(** ** The invariant *)

Record lossInv (q : lossQueue) : Prop := {
  li_split : lq_detected q = lq_delivered q ++ lq_todo q;
  li_nodup : NoDup (lq_detected q);
  li_seen : ∀ r, r ∈ lq_seen q ↔ r ∈ lq_detected q;
  (** no wake-up is lost *)
  li_wake : lq_runner q = Waiting → lq_done q = false → lq_fn q = true → lq_todo q ≠ [] → lq_wake q = true;
}.

Lemma lossInv0 : lossInv lossQueue0.
Proof. split; cbn; try done; [apply NoDup_nil_2|set_solver]. Qed.

Lemma Lose_inv r q : lossInv q → lossInv (Lose r q).2.
Proof.
  intros [Hs Hn He Hw]. unfold Lose. case_bool_decide as Hr; [by split|]. split; cbn.
  - by rewrite Hs, app_assoc.
  - apply NoDup_app. split; [done|]. split; [|apply NoDup_singleton]. intros x Hx ->%list_elem_of_singleton. by apply Hr, He.
  - intros x. rewrite elem_of_union, elem_of_singleton, elem_of_app, list_elem_of_singleton, He. tauto.
  - done.
Qed.

Lemma runnerStep_inv q q' : lossInv q → runnerStep q = Some q' → lossInv q'.
Proof.
  destruct q as [seen todo fn wake r dn det del]. intros [Hs Hn He Hw]. cbn in *. unfold runnerStep. cbn.
  destruct r as [| |reason| |]; try done.
  - destruct dn; [intros [= <-]; split; cbn; done|]. destruct fn; [|intros [= <-]; split; cbn; done].
    destruct todo as [|reason todo]; intros [= <-]; split; cbn; try done. by rewrite <- app_assoc.
  - intros [= <-]. split; cbn; done.
  - destruct dn; [intros [= <-]; split; cbn; done|]. destruct wake; [|done]. intros [= <-]. split; cbn; done.
Qed.

Lemma lossStep_inv a q q' : lossInv q → lossStep a q = Some q' → lossInv q'.
Proof.
  intros HI. destruct a as [r|fn| | |]; cbn.
  - intros [= <-]. by apply Lose_inv.
  - intros [= <-]. destruct HI as [Hs Hn He Hw]. unfold OnScopeLost. destruct fn; [|by split]. by split.
  - destruct HI as [Hs Hn He Hw]. destruct (lq_runner q); try done. intros [= <-]. by split.
  - intros [= <-]. destruct HI as [Hs Hn He Hw]. by split.
  - by apply runnerStep_inv.
Qed.

Lemma lossRun_inv l : ∀ q q', lossInv q → lossRun l q = Some q' → lossInv q'.
Proof.
  induction l as [|a l IH]; intros q q' Hq; cbn; [by intros [= <-]|]. rewrite bind_Some. intros (q1 & H1 & H2).
  eauto using lossStep_inv.
Qed.

(** ** Delivery *)

(** The goroutine's own steps from here until it waits with nothing to do. *)
Definition lossWork (q : lossQueue) : nat :=
  2 * length (lq_todo q) + (if lq_wake q then 2 else 0) +
  match lq_runner q with Delivering => 1 | Calling _ => 2 | _ => 0 end.

Fixpoint runnerRun (fuel : nat) (q : lossQueue) : lossQueue :=
  match fuel with
  | 0 => q
  | S fuel' => match runnerStep q with Some q' => runnerRun fuel' q' | None => q end
  end.

Lemma runnerStep_work q q' : lq_done q = false → runnerStep q = Some q' →
  (lossWork q' < lossWork q)%nat ∧ lq_done q' = false ∧ lq_fn q' = lq_fn q ∧ lq_detected q' = lq_detected q ∧
  lq_runner q' ≠ NotRunning ∧ lq_runner q' ≠ Ended.
Proof.
  destruct q as [seen todo fn wake r dn det del]. unfold runnerStep, lossWork. cbn. intros ->.
  destruct r as [| |reason| |]; try done; cbn.
  - destruct fn, todo as [|x todo]; intros [= <-]; cbn; split_and!; done || lia.
  - intros [= <-]. cbn. split_and!; done || lia.
  - destruct wake; [|done]. intros [= <-]. cbn. split_and!; done || lia.
Qed.

Lemma runnerRun_delivers n : ∀ q, lossInv q → lq_done q = false → lq_fn q = true → lq_runner q ≠ NotRunning → lq_runner q ≠ Ended →
  (lossWork q ≤ n)%nat → lq_delivered (runnerRun n q) = lq_detected q ∧ lq_todo (runnerRun n q) = [].
Proof.
  induction n as [|n IH]; intros q HI Hd Hf H1 H2 Hw.
  - assert (runnerStep q = None ∧ lq_todo q = []) as [_ Ht].
    { destruct q as [seen todo fn wake r dn det del]. unfold lossWork, runnerStep in *. cbn in *. subst.
      destruct r, todo, wake; cbn in *; try done; lia. }
    cbn. split; [|done]. destruct HI as [Hs _ _ _]. by rewrite Hs, Ht, app_nil_r.
  - cbn. destruct (runnerStep q) as [q'|] eqn:E.
    + destruct (runnerStep_work q q' Hd E) as (Hlt & Hd' & Hf' & Hdet & H1' & H2').
      rewrite <- Hdet. apply IH; try done; [by eapply runnerStep_inv|congruence|lia].
    + assert (lq_todo q = []) as Ht.
      { destruct HI as [_ _ _ Hwk]. destruct q as [seen todo fn wake r dn det del]. unfold runnerStep in E. cbn in *. subst.
        destruct r as [| |reason| |]; try done; [by destruct todo|]. destruct wake; [done|]. destruct todo; [done|].
        by specialize (Hwk eq_refl eq_refl eq_refl ltac:(done)). }
      split; [|done]. destruct HI as [Hs _ _ _]. by rewrite Hs, Ht, app_nil_r.
Qed.

(** Every scope loss is delivered, once and in order.  Whatever losses are
    detected, by whichever goroutines, before or after the callback is set and
    Run started: the callback is called with each reason at most once, in the
    order they were detected; and while Run's context lasts and a callback is
    set, the delivering goroutine's next [lossWork q] steps deliver all of
    them: no wake-up is lost. *)
Theorem losses_delivered l q :
  lossRun l lossQueue0 = Some q →
  NoDup (lq_detected q) ∧ lq_delivered q `prefix_of` lq_detected q ∧
  (lq_done q = false → lq_fn q = true → lq_runner q ≠ NotRunning → lq_runner q ≠ Ended →
     lq_delivered (runnerRun (lossWork q) q) = lq_detected q).
Proof.
  intros Hr. pose proof (lossRun_inv l _ _ lossInv0 Hr) as HI. pose proof HI as [Hs Hn _ _].
  split; [done|]. split; [by exists (lq_todo q)|]. intros Hd Hf H1 H2. by apply runnerRun_delivers.
Qed.

Definition exampleLosses : list lossAction := [ALose "pod gone"; ARun; ARunner; ALose "pod gone"; ALose "claim deleted"; AOnScopeLost true].
Lemma losses_delivered_witness : ∃ q, lossRun exampleLosses lossQueue0 = Some q ∧
  lq_delivered (runnerRun (lossWork q) q) = ["pod gone"; "claim deleted"].
Proof.
  eexists. split; [vm_compute; reflexivity|].
  eapply (losses_delivered exampleLosses); [vm_compute; reflexivity|reflexivity|reflexivity|discriminate|discriminate].
Defined.
