(* ===== verification/GrantDir.v ===== *)
(** * Grants from a directory (pkg/home/grantdir/grantdir.go)

    One scan of the directory as a function of its listing and of what was
    seen; the events are what Drive (Verbs.v) feeds to Core. *)

From S2P Require Import Prelude GoLib Errors Grant Token Verbs.
From stdpp Require Import options.

(** ** The scan *)

Record fileInfo := mkInfo { fi_regular : bool; fi_size : Z; fi_mod : Time.t }.
(** A directory entry: what Stat and ReadFile answer for it, [None] an error. *)
Record dirFile := mkFile { df_name : string; df_stat : option fileInfo; df_read : option string }.
(** [type fileState struct] *)
Record fileState := mkState { fs_mod : Time.t; fs_size : Z; fs_uid : string }.

Section scan.
(** [grant.PeekUID]; "" for an error *)
Context (peekUID : string → string).

(** [filepath.Ext(name) == ".jwt"] of a name without a slash *)
Definition isJWT (name : string) : bool := HasSuffix name ".jwt".

(** The file is one the poll looks at. *)
Definition present (f : dirFile) : option fileInfo :=
  match df_stat f with
  | Some i => if fi_regular i && (fi_size i <=? Z.of_nat MaxTokenBytes)%Z then Some i else None
  | None => None
  end.

(** One file: what it delivers and is seen as, if that changes. *)
Definition fresh (seen : gmap string fileState) (f : dirFile) : option (string * fileState) :=
  match present f with
  | None => None
  | Some i =>
      let same := match seen !! df_name f with Some st => Time.Equal (fs_mod st) (fi_mod i) && (fs_size st =? fi_size i)%Z | None => false end in
      if same then None
      else if (fi_size i =? 0)%Z then None
      else match df_read f with
           | Some tok => if (Z.of_nat (String.length tok) =? fi_size i)%Z
                         then Some (tok, mkState (fi_mod i) (fi_size i) (peekUID tok)) else None
           | None => None
           end
  end.

Definition scanFile (st : list GrantEvent * gmap string fileState) (f : dirFile) : list GrantEvent * gmap string fileState :=
  match fresh st.2 f with
  | Some (tok, s) => (st.1 ++ [GrantAdded tok], <[df_name f := s]> st.2)
  | None => st
  end.

Definition nameLe (f g : dirFile) : Prop := String.le (df_name f) (df_name g).
#[global] Instance nameLe_dec : RelDecision nameLe.
Proof. intros f g. unfold nameLe. apply _. Defined.

(** [func scan(ctx, dir, seen, ch)]: the events in order, and what is seen
    after; [None] is a directory that cannot be listed.  The removals are in
    the order of Go's map, here that of the map's list. *)
Definition scan (entries : option (list dirFile)) (seen : gmap string fileState) : list GrantEvent * gmap string fileState :=
  match entries with
  | None => ([], seen)
  | Some entries =>
      let files := merge_sort nameLe (filter (λ f, isJWT (df_name f) = true) entries) in
      let '(added, seen) := foldl scanFile ([], seen) files in
      let here := filter (λ f, is_Some (present f)) files in
      let gone := filter (λ kv : string * fileState, kv.1 ∉ df_name <$> here) (map_to_list seen) in
      (added ++ (kv ← gone; if fs_uid kv.2 ==? "" then [] else [GrantRemoved (fs_uid kv.2)]),
       filter (λ kv, kv.1 ∈ df_name <$> here) seen)
  end.

(** ** What a scan delivers *)

Lemma foldl_scanFile files : NoDup (df_name <$> files) → ∀ ev seen,
  let r := foldl scanFile (ev, seen) files in
  (∃ added, r.1 = ev ++ added ∧ ∀ e, e ∈ added ↔ ∃ f tok s, f ∈ files ∧ fresh seen f = Some (tok, s) ∧ e = GrantAdded tok) ∧
  (∀ f, f ∈ files → r.2 !! df_name f = match fresh seen f with Some (_, s) => Some s | None => seen !! df_name f end) ∧
  (∀ name, name ∉ df_name <$> files → r.2 !! name = seen !! name).
Proof.
  induction files as [|f files IH]; intros Hn ev seen; cbn [foldl].
  { cbn. split; [|split; [by intros f ?%elem_of_nil|done]]. exists []. split; [by rewrite app_nil_r|].
    intros e. split; [by intros ?%elem_of_nil|]. intros (f & tok & s & ?%elem_of_nil & _). done. }
  rewrite fmap_cons in Hn. apply NoDup_cons in Hn as [Hf Hn].
  assert (∀ g, g ∈ files → df_name g ≠ df_name f) as Hne.
  { intros g Hg E. apply Hf, list_elem_of_fmap. eauto. }
  assert (scanFile (ev, seen) f = match fresh seen f with Some (tok, s) => (ev ++ [GrantAdded tok], <[df_name f := s]> seen) | None => (ev, seen) end) as -> by done.
  destruct (fresh seen f) as [[tok s]|] eqn:Ef.
  - specialize (IH Hn (ev ++ [GrantAdded tok]) (<[df_name f := s]> seen)).
    assert (∀ g, g ∈ files → fresh (<[df_name f := s]> seen) g = fresh seen g) as Hfr.
    { intros g Hg. unfold fresh. rewrite lookup_insert_ne; [done|]. intros E. by apply (Hne g). }
    destruct IH as ((added & -> & Hadd) & Hin & Hout). split; [|split].
    + exists (GrantAdded tok :: added). split; [by rewrite <- app_assoc|]. intros e. rewrite elem_of_cons, Hadd. split.
      * intros [->|(g & t & s' & Hg & E & ->)]; [exists f, tok, s; split; [left|done]|].
        exists g, t, s'. rewrite Hfr in E by done. split; [by right|done].
      * intros (g & t & s' & [->|Hg]%elem_of_cons & E & ->); [left; congruence|]. right. exists g, t, s'. by rewrite Hfr.
    + intros g [->|Hg]%elem_of_cons; [rewrite Ef, Hout by done; apply lookup_insert_eq|].
      rewrite Hin, Hfr by done. destruct (fresh seen g) as [[]|]; [done|]. rewrite lookup_insert_ne; [done|]. intros E. by apply (Hne g).
    + intros name [H1 H2]%not_elem_of_cons. rewrite Hout by done. by rewrite lookup_insert_ne.
  - specialize (IH Hn ev seen). destruct IH as ((added & -> & Hadd) & Hin & Hout). split; [|split].
    + exists added. split; [done|]. intros e. rewrite Hadd. split.
      * intros (g & t & s' & Hg & ?). exists g, t, s'. split; [by right|done].
      * intros (g & t & s' & [->|Hg]%elem_of_cons & E & ?); [congruence|]. eauto 10.
    + intros g [->|Hg]%elem_of_cons; [by rewrite Ef, Hout|by apply Hin].
    + intros name [H1 H2]%not_elem_of_cons. by apply Hout.
Qed.

(** The files of a listing, in the order of their names. *)
Definition grantFiles (entries : list dirFile) : list dirFile := merge_sort nameLe (filter (λ f, isJWT (df_name f) = true) entries).
Lemma elem_of_grantFiles f entries : f ∈ grantFiles entries ↔ f ∈ entries ∧ isJWT (df_name f) = true.
Proof. unfold grantFiles. rewrite merge_sort_Permutation, list_elem_of_filter. tauto. Qed.
Lemma NoDup_grantFiles entries : NoDup (df_name <$> entries) → NoDup (df_name <$> grantFiles entries).
Proof.
  intros H. unfold grantFiles. rewrite merge_sort_Permutation. induction entries as [|f l IH]; [done|].
  rewrite fmap_cons in H. apply NoDup_cons in H as [Hf Hn]. rewrite filter_cons. destruct (decide _); [|by apply IH].
  rewrite fmap_cons. apply NoDup_cons. split; [|by apply IH]. intros (g & E & [_ Hg]%list_elem_of_filter)%list_elem_of_fmap.
  apply Hf, list_elem_of_fmap. eauto.
Qed.

Lemma fresh_settles seen seen' f tok s : fresh seen f = Some (tok, s) → seen' !! df_name f = Some s → fresh seen' f = None.
Proof.
  unfold fresh. intros E E'. destruct (present f) as [i|]; [|done]. rewrite E'.
  destruct (match seen !! df_name f with Some _ => _ | None => _ end); [done|].
  destruct (fi_size i =? 0)%Z; [done|]. destruct (df_read f); [|done]. destruct (_ =? _)%Z; [|done].
  injection E as [= <- <-]. cbn. unfold Time.Equal. by rewrite !Z.eqb_refl.
Qed.
Lemma fresh_same seen seen' f : seen' !! df_name f = seen !! df_name f → fresh seen' f = fresh seen f.
Proof. unfold fresh. by intros ->. Qed.
Lemma fresh_present seen f x : fresh seen f = Some x → is_Some (present f).
Proof. unfold fresh. destruct (present f); [eauto|done]. Qed.

(** The names of the files a listing holds as grants. *)
Definition hereNames (entries : list dirFile) : list string := df_name <$> filter (λ f, is_Some (present f)) (grantFiles entries).
Lemma elem_of_hereNames entries name :
  name ∈ hereNames entries ↔ ∃ f, f ∈ entries ∧ isJWT (df_name f) = true ∧ is_Some (present f) ∧ df_name f = name.
Proof.
  clear peekUID. unfold hereNames. rewrite list_elem_of_fmap. setoid_rewrite list_elem_of_filter. setoid_rewrite elem_of_grantFiles. naive_solver.
Qed.

(** What scan answers, by the fold over the files. *)
Lemma scan_eq entries seen :
  let r := foldl scanFile ([], seen) (grantFiles entries) in
  scan (Some entries) seen =
    (r.1 ++ (kv ← filter (λ kv : string * fileState, kv.1 ∉ hereNames entries) (map_to_list r.2); if fs_uid kv.2 ==? "" then [] else [GrantRemoved (fs_uid kv.2)]),
     filter (λ kv, kv.1 ∈ hereNames entries) r.2).
Proof. cbv zeta. unfold scan. fold (grantFiles entries). by destruct (foldl _ _ _). Qed.

Section one.
Context (entries : list dirFile) (seen : gmap string fileState) (Hn : NoDup (df_name <$> entries)).
Let r := foldl scanFile ([], seen) (grantFiles entries).

Lemma added_events e : e ∈ r.1 ↔ ∃ f tok s, f ∈ grantFiles entries ∧ fresh seen f = Some (tok, s) ∧ e = GrantAdded tok.
Proof using Hn. destruct (foldl_scanFile _ (NoDup_grantFiles _ Hn) [] seen) as ((added & E & Hadd) & _). unfold r. rewrite E. apply Hadd. Qed.
Lemma seen_file f : f ∈ grantFiles entries → r.2 !! df_name f = match fresh seen f with Some (_, s) => Some s | None => seen !! df_name f end.
Proof using Hn. apply (foldl_scanFile _ (NoDup_grantFiles _ Hn) [] seen). Qed.
(** A name no file of the listing has as a grant is seen as it was. *)
Lemma seen_gone name : name ∉ hereNames entries → r.2 !! name = seen !! name.
Proof using Hn.
  intros Hh. destruct (decide (name ∈ df_name <$> grantFiles entries)) as [(f & -> & Hf)%list_elem_of_fmap|Hm].
  - rewrite seen_file by done. destruct (fresh seen f) eqn:E; [|done]. destruct Hh. apply list_elem_of_fmap. exists f. split; [done|].
    apply list_elem_of_filter. eauto using fresh_present.
  - by apply (foldl_scanFile _ (NoDup_grantFiles _ Hn) [] seen).
Qed.
Lemma removed_events uid :
  GrantRemoved uid ∈ (scan (Some entries) seen).1 ↔ uid ≠ "" ∧ ∃ name st, seen !! name = Some st ∧ fs_uid st = uid ∧ name ∉ hereNames entries.
Proof using Hn.
  rewrite scan_eq. cbn [fst]. fold r. rewrite elem_of_app. split.
  - intros [(f & tok & s & _ & _ & [=])%added_events|Hg]. apply list_elem_of_bind in Hg as ([name st] & Hu & [Hh Hin]%list_elem_of_filter).
    cbn in Hu, Hh. destruct (bool_decide_reflect (fs_uid st = "")); [by apply elem_of_nil in Hu|]. apply list_elem_of_singleton in Hu. simplify_eq.
    split; [done|]. exists name, st. apply elem_of_map_to_list in Hin. rewrite seen_gone in Hin by done. done.
  - intros (Hu & name & st & Hs & <- & Hh). right. apply list_elem_of_bind. exists (name, st). cbn.
    destruct (bool_decide_reflect (fs_uid st = "")); [done|]. split; [by left|]. apply list_elem_of_filter. split; [done|].
    apply elem_of_map_to_list. by rewrite seen_gone.
Qed.
Lemma fresh_after f : f ∈ grantFiles entries → fresh (filter (λ kv, kv.1 ∈ hereNames entries) r.2) f = None.
Proof using Hn.
  intros Hf. destruct (present f) as [i|] eqn:Ep; [|by unfold fresh; rewrite Ep].
  assert (filter (λ kv, kv.1 ∈ hereNames entries) r.2 !! df_name f = r.2 !! df_name f) as E.
  { rewrite map_lookup_filter. destruct (r.2 !! df_name f); [|done]. cbn. rewrite option_guard_True; [done|].
    apply list_elem_of_fmap. exists f. split; [done|]. apply list_elem_of_filter. split; [by rewrite Ep|done]. }
  pose proof (seen_file f Hf) as Es. destruct (fresh seen f) as [[tok s]|] eqn:Ef.
  - eapply fresh_settles; [done|]. by rewrite E.
  - rewrite <- Ef. apply fresh_same. by rewrite E.
Qed.
End one.

Lemma foldl_idle files ev seen : (∀ f, f ∈ files → fresh seen f = None) → foldl scanFile (ev, seen) files = (ev, seen).
Proof.
  revert ev seen. induction files as [|f l IH]; intros ev seen H; [done|]. cbn [foldl].
  assert (scanFile (ev, seen) f = (ev, seen)) as ->.
  { unfold scanFile. cbn. rewrite H by (left; done). done. }
  apply IH. intros g Hg. apply H. by right.
Qed.

(** A scan delivers exactly what changed.  For every listing and whatever
    was seen before: a token is delivered exactly when a regular *.jwt file of
    at most 8 KiB holds it, its time or size differs from what was seen, and it
    was read whole (so an empty file, or one that changed under the read,
    delivers nothing yet); a removal exactly when a file that was seen is no
    longer there, with the UID last read from it; a file that is there, even
    emptied to be rewritten, is never removed; and the next scan of an
    unchanged directory delivers nothing and changes nothing. *)
Theorem scan_exact entries seen :
  NoDup (df_name <$> entries) →
  let r := scan (Some entries) seen in
  let here name := ∃ f, f ∈ entries ∧ isJWT (df_name f) = true ∧ is_Some (present f) ∧ df_name f = name in
  (∀ tok, GrantAdded tok ∈ r.1 ↔ ∃ f s, f ∈ entries ∧ isJWT (df_name f) = true ∧ fresh seen f = Some (tok, s)) ∧
  (∀ uid, GrantRemoved uid ∈ r.1 ↔ uid ≠ "" ∧ ∃ name st, seen !! name = Some st ∧ fs_uid st = uid ∧ ¬ here name) ∧
  (∀ name, is_Some (r.2 !! name) → here name) ∧
  scan (Some entries) r.2 = ([], r.2).
Proof.
  intros Hn r here. unfold here. split_and!.
  - intros tok. unfold r. rewrite scan_eq. cbn [fst]. rewrite elem_of_app, added_events by done. setoid_rewrite elem_of_grantFiles. split.
    + intros [(f & t & s & [Hf Hj] & Ef & [= <-])|Hg]; [eauto 10|]. apply list_elem_of_bind in Hg as (kv & Hu & _).
      destruct (_ ==? _); [by apply elem_of_nil in Hu|by apply list_elem_of_singleton in Hu].
    + intros (f & s & Hf & Hj & Ef). left. eauto 10.
  - intros uid. unfold r. rewrite removed_events by done. by setoid_rewrite elem_of_hereNames.
  - intros name. unfold r. rewrite scan_eq. cbn [snd]. intros [x [_ Hx]%map_lookup_filter_Some]. by apply elem_of_hereNames.
  - unfold r. rewrite (scan_eq entries seen). cbn [snd]. rewrite scan_eq. cbv zeta. rewrite foldl_idle by (intros; by apply fresh_after). cbn [fst snd app].
    rewrite map_filter_filter_l by naive_solver. f_equal.
    replace (filter _ (map_to_list _)) with (@nil (string * fileState)); [done|]. symmetry. apply elem_of_nil_inv. intros [name st].
    rewrite list_elem_of_filter, elem_of_map_to_list, map_lookup_filter_Some. naive_solver.
Qed.
End scan.

(** A directory with a new token, one seen before, one that is being rewritten
    and a note; a fourth grant's file is gone. *)
Definition dirNow : list dirFile :=
  [mkFile "c.jwt" (Some (mkInfo true 3 50%Z)) (Some "ccc"); mkFile "a.jwt" (Some (mkInfo true 3 10%Z)) (Some "aaa");
   mkFile "b.jwt" (Some (mkInfo true 0 40%Z)) (Some ""); mkFile "note.txt" (Some (mkInfo true 5 40%Z)) (Some "hello")].
Definition dirSeen : gmap string fileState :=
  {["a.jwt" := mkState 10%Z 3 "ua"; "b.jwt" := mkState 20%Z 3 "ub"; "d.jwt" := mkState 30%Z 3 "ud"]}.

Lemma scan_exact_witness :
  (scan (λ tok, tok) (Some dirNow) dirSeen).1 = [GrantAdded "ccc"; GrantRemoved "ud"] ∧
  scan (λ tok, tok) (Some dirNow) (scan (λ tok, tok) (Some dirNow) dirSeen).2 = ([], (scan (λ tok, tok) (Some dirNow) dirSeen).2).
Proof.
  split; [vm_compute; reflexivity|]. apply (scan_exact (λ tok, tok) dirNow dirSeen).
  apply (bool_decide_unpack _). vm_compute. exact I.
Defined.

(** A rename is an addition under the new name and then a removal of the same
    grant, in this order. *)
Example renamed_file_is_removed :
  (scan (λ tok, tok) (Some [mkFile "new.jwt" (Some (mkInfo true 1 10%Z)) (Some "u")]) {["old.jwt" := mkState 10%Z 1 "u"]}).1
  = [GrantAdded "u"; GrantRemoved "u"].
Proof. reflexivity. Qed.
