(* ===== verification/Record.v ===== *)
(** * Channel records (pkg/backend/record.go)

    What a fiber learns at birth, framed as one packet of NUL-ended fields,
    and the parser that takes it apart.  Strings and byte slices are both
    [string]; a nil slice is the empty one. *)

From Stdlib Require Import Ascii.
From S2P Require Import Prelude GoLib GoText.
From stdpp Require Import options.

Definition NUL : ascii := byte 0.
Arguments NUL : simpl never.

(** ** Frames *)

Definition RecordIncarnation : ascii := "i".
Definition RecordClaim : ascii := "t".
Definition RecordAck : ascii := "a".
Definition RecordPark : ascii := "p".
Definition RecordQuiesce : ascii := "q".
Definition RecordCarryOn : ascii := "c".
Definition IncarnationFields : nat := 11.
Definition SeedBytes : nat := 32.
Definition RecordMax : Z := 65536.
Definition FenceMax : nat := 128.

(** The fields, each ended by NUL. *)
Definition frame (fields : list string) : string := foldr (λ f s, f +:+ String NUL s) "" fields.
(** [func Record(kind byte, fields ...string) []byte] *)
Definition Record (kind : ascii) (fields : list string) : string := String kind (frame fields).

(** The string without its last byte, and that byte. *)
Definition splitLast (s : string) : option (string * ascii) :=
  let n := String.length s - 1 in
  c ← String.get n s; Some (str_take n s, c).

(** [func ParseRecord(data []byte) (kind byte, fields []string, ok bool)] *)
Definition ParseRecord (data : string) : option (ascii * list string) :=
  match data with
  | String kind rest =>
      match splitLast rest with
      | Some (body, c) => if c ==? NUL then Some (kind, Split NUL body) else None
      | None => None
      end
  | "" => None
  end.

(** ** The incarnation record *)

(** [type Identity struct] *)
Record Identity := mkIdentity { KeyPEM : string; CertPEM : string; Caller : string; CallerPEM : string }.
(** [type Incarnation struct] *)
Record Incarnation := mkInc {
  Generation : Z; Kind : string; IFence : string; Endpoint : string;
  Payload : string; Session : string; IIdentity : option Identity; Seed : string }.

(** Why a record was not framed. *)
Inductive recordError :=
| BadGeneration | BadFence | BadKind | IdentityIncomplete | IdentityNUL (field : nat) | FieldNUL (name : string) | BadSeed | TooLong.
(** Why one was not taken apart: ErrRecord with the reason. *)
Inductive parseError :=
| NotIncarnation | WrongFields (n : nat) | EmptyField (i : nat) | PGeneration | PFence | PPayload | PSession | PSessionNUL | PIdentity | PSeed.

(** [func hexOrDash(b []byte) string] *)
Definition hexOrDash (b : string) : string := if b ==? "" then "-" else hexEncode b.
(** [func unhexField(s string) ([]byte, error)] *)
Definition unhexField (s : string) : option string := if s ==? "-" then Some "" else hexDecode s.

Definition identityFields (id : option Identity) : list string :=
  match id with None => ["-"; "-"; "-"; "-"] | Some id => [KeyPEM id; CertPEM id; Caller id; CallerPEM id] end.

(** The loop over the identity's fields. *)
Fixpoint checkIdentity (i : nat) (fields : list string) : option recordError :=
  match fields with
  | [] => None
  | v :: fields' =>
      if v ==? "" then Some IdentityIncomplete
      else if contains_char NUL v then Some (IdentityNUL i)
      else checkIdentity (S i) fields'
  end.
Fixpoint checkFields (fields : list (string * string)) : option recordError :=
  match fields with
  | [] => None
  | (name, v) :: fields' => if contains_char NUL v then Some (FieldNUL name) else checkFields fields'
  end.

Definition incFields (inc : Incarnation) : list string :=
  [Itoa (Generation inc); Kind inc; IFence inc; Endpoint inc; hexOrDash (Payload inc); hexOrDash (Session inc)]
  ++ identityFields (IIdentity inc) ++ [hexEncode (Seed inc)].

(** [func (inc Incarnation) Record() ([]byte, error)] *)
Definition IncRecord (inc : Incarnation) : string + recordError :=
  if (Generation inc <? 1)%Z then inr BadGeneration
  else if (IFence inc ==? "") || (FenceMax <=? String.length (IFence inc))%nat then inr BadFence
  else if (Kind inc ==? "") || (Endpoint inc ==? "") then inr BadKind
  else
    match (match IIdentity inc with None => None | Some _ => checkIdentity 0 (identityFields (IIdentity inc)) end) with
    | Some e => inr e
    | None =>
        match checkFields [("kind", Kind inc); ("fence", IFence inc); ("endpoint", Endpoint inc); ("session", Session inc)] with
        | Some e => inr e
        | None =>
            if negb (String.length (Seed inc) =? SeedBytes)%nat then inr BadSeed
            else
              let rec := Record RecordIncarnation (incFields inc) in
              if (RecordMax <? Z.of_nat (String.length rec))%Z then inr TooLong else inl rec
        end
    end.

Definition is_digits (s : string) : bool := all_chars is_digit s.
(** [func parseGeneration(s string) (int, error)] *)
Definition parseGeneration (s : string) : option Z :=
  match s with
  | "" => None
  | String c _ =>
      if c ==? "0"%char then None
      else if negb (is_digits s) then None
      else match ParseUint s with
           | inl n => if (Z.of_N n <? 2 ^ 63)%Z && (1 <=? Z.of_N n)%Z then Some (Z.of_N n) else None
           | inr _ => None
           end
  end.

Fixpoint firstEmpty (i : nat) (fields : list string) : option nat :=
  match fields with [] => None | f :: fields' => if f ==? "" then Some i else firstEmpty (S i) fields' end.

(** The four fields as an identity, all, none or an error. *)
Definition parseIdentity (fields : list string) : option (option Identity) :=
  match fields with
  | [k; c; r; p] =>
      let set := length (filter (λ f, f ≠ "-") fields) in
      if (set =? 0)%nat then Some None else if (set =? 4)%nat then Some (Some (mkIdentity k c r p)) else None
  | _ => None
  end.

(** [func ParseIncarnation(data []byte) (Incarnation, error)] *)
Definition ParseIncarnation (data : string) : Incarnation + parseError :=
  match ParseRecord data with
  | None => inr NotIncarnation
  | Some (kind, fields) =>
      if kind <>? RecordIncarnation then inr NotIncarnation
      else if negb (length fields =? IncarnationFields)%nat then inr (WrongFields (length fields))
      else
        match firstEmpty 0 fields with
        | Some i => inr (EmptyField i)
        | None =>
            match fields with
            | [gen; kind; fence; endpoint; payload; session; k; c; r; p; seed] =>
                match parseGeneration gen with
                | None => inr PGeneration
                | Some gen =>
                    if (FenceMax <=? String.length fence)%nat then inr PFence else
                    match unhexField payload with
                    | None => inr PPayload
                    | Some payload =>
                        match unhexField session with
                        | None => inr PSession
                        | Some session =>
                            if contains_char NUL session then inr PSessionNUL else
                            match parseIdentity [k; c; r; p] with
                            | None => inr PIdentity
                            | Some id =>
                                match hexDecode seed with
                                | Some seed =>
                                    if (String.length seed =? SeedBytes)%nat
                                    then inl (mkInc gen kind fence endpoint payload session id seed) else inr PSeed
                                | None => inr PSeed
                                end
                            end
                        end
                    end
                end
            | _ => inr (WrongFields (length fields))
            end
        end
  end.

(** ** Framing and taking apart are inverse *)

Lemma splitLast_app s c : splitLast (s +:+ String c "") = Some (s, c).
Proof.
  unfold splitLast. rewrite str_length_app. cbn [String.length]. replace (String.length s + 1 - 1) with (String.length s) by lia.
  by rewrite str_get_app, str_take_app.
Qed.

Lemma frame_body f fs : Forall (λ f, contains_char NUL f = false) (f :: fs) →
  ∃ body, frame (f :: fs) = body +:+ String NUL "" ∧ Split NUL body = f :: fs.
Proof.
  revert f. induction fs as [|g fs IH]; intros f [Hf Hfs]%Forall_cons.
  - exists f. split; [done|by apply Split_none].
  - destruct (IH g Hfs) as (body & E & Hs). exists (f +:+ String NUL body). split; [|by rewrite Split_app, Hs].
    change (frame (f :: g :: fs)) with (f +:+ String NUL (frame (g :: fs))). by rewrite E, str_app_assoc, str_app_cons.
Qed.
Lemma ParseRecord_Record kind fs : fs ≠ [] → Forall (λ f, contains_char NUL f = false) fs → ParseRecord (Record kind fs) = Some (kind, fs).
Proof.
  destruct fs as [|f fs]; [done|]. intros _ H. destruct (frame_body f fs H) as (body & E & Hs).
  unfold ParseRecord, Record. by rewrite E, splitLast_app, Hs, bool_decide_eq_true_2.
Qed.
Lemma ParseRecord_fields data kind fs : ParseRecord data = Some (kind, fs) → Forall (λ f, contains_char NUL f = false) fs.
Proof.
  unfold ParseRecord. intros H. case_all. apply Forall_forall. intros f. apply Split_parts.
Qed.

(** What a record may carry. *)
Definition okIdentity (id : option Identity) : Prop :=
  match id with
  | None => True
  | Some id => Forall (λ v, v ≠ "" ∧ v ≠ "-" ∧ contains_char NUL v = false) [KeyPEM id; CertPEM id; Caller id; CallerPEM id]
  end.
Record sendable (inc : Incarnation) : Prop := mkSendable {
  s_gen : (1 ≤ Generation inc < 2 ^ 63)%Z;
  s_kind : Kind inc ≠ "" ∧ contains_char NUL (Kind inc) = false;
  s_fence : IFence inc ≠ "" ∧ contains_char NUL (IFence inc) = false ∧ (String.length (IFence inc) < FenceMax)%nat;
  s_endpoint : Endpoint inc ≠ "" ∧ contains_char NUL (Endpoint inc) = false;
  s_session : contains_char NUL (Session inc) = false;
  s_identity : okIdentity (IIdentity inc);
  s_seed : String.length (Seed inc) = SeedBytes }.

Lemma hexOrDash_no_NUL b : contains_char NUL (hexOrDash b) = false.
Proof. unfold hexOrDash. case_bool_decide; [done|]. by apply hexEncode_no_char. Qed.
Lemma hexEncode_nil b : b ≠ "" → hexEncode b ≠ "".
Proof. by destruct b. Qed.
Lemma hexOrDash_ne b : hexOrDash b ≠ "".
Proof. unfold hexOrDash. case_bool_decide; [done|]. by apply hexEncode_nil. Qed.
Lemma hexEncode_ne_dash b : hexEncode b ≠ "-".
Proof. intros E. pose proof (length_hexEncode b) as H. rewrite E in H. cbn in H. lia. Qed.
Lemma unhex_hexOrDash b : unhexField (hexOrDash b) = Some b.
Proof.
  unfold unhexField, hexOrDash. destruct (bool_decide_reflect (b = "")) as [->|]; [done|]. rewrite bool_decide_eq_false_2 by apply hexEncode_ne_dash.
  apply hexDecode_hexEncode.
Qed.

Lemma no_leading_zero n s : (n ≠ 0)%N → FormatUint n ≠ String "0" s.
Proof.
  intros Hn E. destruct n as [|p]; [done|]. pose proof (DecimalPos.Unsigned.to_uint_nonzero p) as Hz.
  pose proof (DecimalPos.Unsigned.to_of (Pos.to_uint p)) as Hu. rewrite DecimalPos.Unsigned.of_to in Hu. cbn [N.to_uint] in Hu.
  unfold FormatUint in E. cbn [N.to_uint] in E. destruct (Pos.to_uint p); try done.
  unfold Decimal.unorm in Hu. cbn in Hu. destruct (Decimal.nzhead u) eqn:Eu; try discriminate.
  - by injection Hu as ->.
  - match type of Eu with _ = Decimal.D0 ?d => by destruct (DecimalFacts.nzhead_nonzero u d) end.
Qed.

Lemma parseGeneration_Itoa z : (1 ≤ z < 2 ^ 63)%Z → parseGeneration (Itoa z) = Some z.
Proof.
  intros Hz. unfold Itoa. destruct (z <? 0)%Z eqn:E; [breflect; lia|]. set (n := Z.to_N z).
  assert (Hn : (n ≠ 0)%N) by lia. assert (Z.of_N n = z) as Ez by lia.
  pose proof (FormatUint_digits n) as Hd. pose proof (ParseUint_FormatUint n ltac:(unfold U64.modulus; lia)) as Hp.
  destruct (FormatUint n) as [|c s] eqn:Es; [by destruct (FormatUint_ne n)|]. unfold parseGeneration, is_digits. rewrite Hd, Hp, Ez.
  rewrite bool_decide_eq_false_2 by (intros ->; by destruct (no_leading_zero n s)).
  by rewrite (proj2 (Z.ltb_lt _ _)), (proj2 (Z.leb_le _ _)) by lia.
Qed.
Lemma parseGeneration_bound s z : parseGeneration s = Some z → (1 ≤ z < 2 ^ 63)%Z.
Proof. unfold parseGeneration. intros. case_all. breflect. lia. Qed.

Lemma firstEmpty_None i fs : firstEmpty i fs = None ↔ Forall (λ f, f ≠ "") fs.
Proof.
  revert i. induction fs as [|f fs IH]; intros i; cbn; [done|]. case_bool_decide; rewrite Forall_cons, ?IH; intuition congruence.
Qed.
Lemma checkIdentity_None i fs : checkIdentity i fs = None ↔ Forall (λ v, v ≠ "" ∧ contains_char NUL v = false) fs.
Proof.
  revert i. induction fs as [|f fs IH]; intros i; cbn; [done|]. rewrite Forall_cons. case_bool_decide; [intuition congruence|].
  destruct (contains_char NUL f) eqn:E; rewrite ?IH; intuition congruence.
Qed.
Lemma checkFields_None fs : checkFields fs = None ↔ Forall (λ f, contains_char NUL f.2 = false) fs.
Proof.
  induction fs as [|[n f] fs IH]; cbn; [done|]. rewrite Forall_cons. cbn. destruct (contains_char NUL f) eqn:E; rewrite ?IH; intuition congruence.
Qed.

Lemma parseIdentity_fields id : okIdentity id → parseIdentity (identityFields id) = Some id.
Proof.
  destruct id as [[k c r p]|]; [|done]. unfold okIdentity, parseIdentity, identityFields. cbn [KeyPEM CertPEM Caller CallerPEM]. rewrite !Forall_cons. intros ((_ & Hk & _) & (_ & Hc & _) & (_ & Hr & _) & (_ & Hp & _) & _).
  by rewrite !filter_cons_True by done.
Qed.
Lemma identityFields_ok id : okIdentity id → Forall (λ f, f ≠ "" ∧ contains_char NUL f = false) (identityFields id).
Proof. destruct id as [id|]; cbn; [|intros _; by repeat constructor]. rewrite !Forall_cons. naive_solver. Qed.

Lemma Itoa_pos z : (1 ≤ z)%Z → Itoa z = FormatUint (Z.to_N z).
Proof. intros. unfold Itoa. destruct (z <? 0)%Z eqn:E; [breflect; lia|done]. Qed.
Lemma incFields_ok inc : sendable inc → Forall (λ f, f ≠ "" ∧ contains_char NUL f = false) (incFields inc).
Proof.
  intros [Hg Hk Hf He Hs Hi Hd]. unfold incFields. rewrite !Forall_app. split_and!.
  - rewrite Itoa_pos by lia. repeat (apply Forall_cons; split; [split|]); try done; try apply Hk; try apply Hf; try apply He;
      try apply hexOrDash_ne; try apply hexOrDash_no_NUL; [apply FormatUint_ne|by apply FormatUint_no_char].
  - by apply identityFields_ok.
  - repeat constructor; [|by apply hexEncode_no_char]. apply hexEncode_nil. intros E. by rewrite E in Hd.
Qed.

Lemma parse_frame inc : sendable inc → ParseIncarnation (Record RecordIncarnation (incFields inc)) = inl inc.
Proof.
  intros Hs. pose proof (incFields_ok inc Hs) as Hok. unfold ParseIncarnation. rewrite ParseRecord_Record; [|done|].
  2: { eapply Forall_impl; [exact Hok|]. by intros f [_ ?]. }
  rewrite bool_decide_eq_true_2 by done. assert (length (incFields inc) = IncarnationFields) as ->.
  { unfold incFields. rewrite !length_app. by destruct (IIdentity inc). }
  cbn [negb Nat.eqb IncarnationFields]. rewrite (proj2 (firstEmpty_None 0 _)).
  2: { eapply Forall_impl; [exact Hok|]. by intros f [? _]. }
  destruct Hs as [Hg Hk (Hf1 & Hf2 & Hf3) He Hs Hi Hd]. pose proof (parseIdentity_fields _ Hi) as Hp.
  unfold incFields. destruct (identityFields (IIdentity inc)) as [|k [|c [|r [|p [|]]]]] eqn:Ef; try (by destruct (IIdentity inc)).
  cbn [app]. rewrite parseGeneration_Itoa, !unhex_hexOrDash, Hp, hexDecode_hexEncode, Hd, Hs by done.
  rewrite (proj2 (Nat.leb_gt _ _)) by done. cbn [Nat.eqb]. by destruct inc.
Qed.

Lemma IncRecord_sendable inc : sendable inc → IncRecord inc = inl (Record RecordIncarnation (incFields inc)) ∨ IncRecord inc = inr TooLong.
Proof.
  intros [Hg [Hk1 Hk2] (Hf1 & Hf2 & Hf3) [He1 He2] Hs Hi Hd]. unfold IncRecord.
  rewrite (proj2 (Z.ltb_ge _ _)) by lia. rewrite (bool_decide_eq_false_2 (IFence inc = "")), (proj2 (Nat.leb_gt _ _)) by done.
  rewrite (bool_decide_eq_false_2 (Kind inc = "")), (bool_decide_eq_false_2 (Endpoint inc = "")) by done. cbn [orb].
  assert (match IIdentity inc with None => None | Some _ => checkIdentity 0 (identityFields (IIdentity inc)) end = None) as ->.
  { destruct (IIdentity inc); [|done]. apply checkIdentity_None. by apply identityFields_ok. }
  rewrite (proj2 (checkFields_None _)) by (rewrite !Forall_cons; done).
  rewrite Hd. cbn [Nat.eqb negb SeedBytes]. destruct (RecordMax <? _)%Z; auto.
Qed.

(** No field of the identity is the text that stands for none. *)
Definition noDash (id : option Identity) : Prop := match id with None => True | Some i => "-" ∉ identityFields (Some i) end.

Lemma IncRecord_inv inc rec : IncRecord inc = inl rec → (Generation inc < 2 ^ 63)%Z → noDash (IIdentity inc) →
  sendable inc ∧ rec = Record RecordIncarnation (incFields inc) ∧ (Z.of_nat (String.length rec) ≤ RecordMax)%Z.
Proof.
  unfold IncRecord. intros H Hg Hn.
  destruct (Generation inc <? 1)%Z eqn:E1; [done|]. destruct (_ || (FenceMax <=? _)%nat) eqn:E2; [done|].
  destruct ((Kind inc ==? "") || _) eqn:E3; [done|]. destruct (match IIdentity inc with None => _ | Some _ => _ end) eqn:E4; [done|].
  destruct (checkFields _) eqn:E5; [done|]. destruct (negb (String.length (Seed inc) =? SeedBytes)%nat) eqn:E6; [done|].
  destruct (RecordMax <? _)%Z eqn:E7; [done|]. injection H as <-. apply checkFields_None in E5. rewrite !Forall_cons in E5. cbn in E5.
  destruct E5 as (Hk & Hf & He & Hs & _). breflect. apply Nat.eqb_eq in E6.
  match goal with H : (FenceMax <=? _)%nat = false |- _ => apply Nat.leb_gt in H end. split; [|done].
  constructor; [lia|done|done|done|done| |done]. destruct (IIdentity inc) as [id|]; [|done]. apply checkIdentity_None in E4. cbn in E4, Hn |- *.
  rewrite !Forall_cons in E4 |- *. rewrite !not_elem_of_cons in Hn. naive_solver.
Qed.

Lemma parseIdentity_ok k c r p id : parseIdentity [k; c; r; p] = Some id → Forall (λ f, f ≠ "" ∧ contains_char NUL f = false) [k; c; r; p] → okIdentity id.
Proof.
  unfold parseIdentity. destruct (decide (k ≠ "-")) as [Hk|Hk]; [rewrite (filter_cons_True _ k) by done|rewrite (filter_cons_False _ k) by done];
  (destruct (decide (c ≠ "-")) as [Hc|Hc]; [rewrite (filter_cons_True _ c) by done|rewrite (filter_cons_False _ c) by done]);
  (destruct (decide (r ≠ "-")) as [Hr|Hr]; [rewrite (filter_cons_True _ r) by done|rewrite (filter_cons_False _ r) by done]);
  (destruct (decide (p ≠ "-")) as [Hp|Hp]; [rewrite (filter_cons_True _ p) by done|rewrite (filter_cons_False _ p) by done]); cbn; intros [= <-]; try done.
  rewrite !Forall_cons. intros (? & ? & ? & ? & _). cbn. rewrite !Forall_cons. naive_solver.
Qed.

Lemma Parse_sendable data inc : ParseIncarnation data = inl inc → sendable inc.
Proof.
  unfold ParseIncarnation. destruct (ParseRecord data) as [[kind fs]|] eqn:Ep; [|done]. pose proof (ParseRecord_fields _ _ _ Ep) as Hn.
  destruct (kind <>? _); [done|]. destruct (negb _); [done|]. destruct (firstEmpty 0 fs) eqn:Ef; [done|]. apply firstEmpty_None in Ef.
  destruct fs as [|gen [|knd [|fence [|ep [|pay [|ses [|k [|c [|r [|p [|seed [|]]]]]]]]]]]]; try done.
  destruct (parseGeneration gen) eqn:Eg; [|done]. destruct (FenceMax <=? _)%nat eqn:Efm; [done|].
  destruct (unhexField pay); [|done]. destruct (unhexField ses); [|done]. destruct (contains_char NUL _) eqn:Es; [done|].
  destruct (parseIdentity _) as [id|] eqn:Ei; [|done]. destruct (hexDecode seed); [|done]. destruct (_ =? SeedBytes)%nat eqn:El; [|done].
  intros [= <-]. rewrite !Forall_cons in Hn, Ef. destruct Hn as (_ & Hk & Hf & He & _ & _ & N1 & N2 & N3 & N4 & _).
  destruct Ef as (_ & Ek & Eff & Ee & _ & _ & M1 & M2 & M3 & M4 & _). constructor; cbn; try done.
  - by eapply parseGeneration_bound.
  - split; [done|]. split; [done|]. by apply Nat.leb_gt.
  - eapply parseIdentity_ok; [done|]. by rewrite !Forall_cons.
  - by apply Nat.eqb_eq.
Qed.

(** The birth record is a faithful wire format.  Whatever Record frames (a
    generation in int's range, no identity field the text that stands for
    none) is at most 64 KiB and ParseIncarnation gives exactly that incarnation
    back, payload, session and seed byte for byte; and whatever
    ParseIncarnation accepts, from any bytes, is an incarnation that Record
    would frame, unless it is too long, and that parses back to itself. *)
Theorem incarnation_round_trip :
  (∀ inc rec, IncRecord inc = inl rec → (Generation inc < 2 ^ 63)%Z → noDash (IIdentity inc) →
     ParseIncarnation rec = inl inc ∧ (Z.of_nat (String.length rec) ≤ RecordMax)%Z) ∧
  (∀ data inc, ParseIncarnation data = inl inc →
     IncRecord inc = inr TooLong ∨ ∃ rec, IncRecord inc = inl rec ∧ ParseIncarnation rec = inl inc).
Proof.
  split.
  - intros inc rec H Hg Hn. destruct (IncRecord_inv _ _ H Hg Hn) as (Hs & -> & Hl). split; [by apply parse_frame|done].
  - intros data inc H%Parse_sendable. destruct (IncRecord_sendable inc H) as [E|E]; [|by left]. right. eexists. split; [exact E|by apply parse_frame].
Qed.

(** A handoff fiber's record, with a payload that holds a NUL. *)
Definition aSeed : string := "0123456789abcdef0123456789abcdef".
Definition anInc (key : string) : Incarnation :=
  mkInc 7 "resume" "g-1/1/2" "tcp4:127.0.0.1:80" (String NUL "x") "s" (Some (mkIdentity key "C" "T" "P")) aSeed.
Example incarnation_parses : ∃ rec, IncRecord (anInc "K") = inl rec ∧ ParseIncarnation rec = inl (anInc "K").
Proof. eexists. split; [vm_compute; reflexivity|vm_compute; reflexivity]. Qed.
(** Record frames a key that reads "-", and the parser refuses the record. *)
Lemma dash_identity_dies : ∃ rec, IncRecord (anInc "-") = inl rec ∧ ParseIncarnation rec = inr PIdentity.
Proof. eexists. split; [vm_compute; reflexivity|vm_compute; reflexivity]. Qed.
