(* ===== verification/IdRange.v ===== *)
(** * User namespace id ranges (pkg/backend/runc/idrange.go)

    The pool of host ids, its check against /etc/subuid and /etc/subgid, the
    slot a range key hashes to and the claims on the slots of this home. *)

From Stdlib Require Import Ascii.
From S2P Require Import Prelude GoLib GoText.
From stdpp Require Import options.

Local Open Scope N_scope.

(** ** The pool *)

(** [const SlotIDs] *)
Definition SlotIDs : N := 65536.
Definition DefaultPool : string := "1073741824:49151".
(** [type IDPool struct]: two uint32 *)
Record IDPool := mkPool { Start : N; Slots : N }.
(** [type IDRange struct] *)
Record IDRange := mkRange { RStart : N; RCount : N }.

Definition u32 (n : N) : N := n mod 2 ^ 32.
(** [func (p IDPool) end() uint64]: in uint64 *)
Definition poolEnd (p : IDPool) : N := U64.add (Start p) (U64.mul (Slots p) SlotIDs).

Inductive poolError := WantPool | BadStart | BadSlots | NoSlots | HostIDs | PastIDs.

(** [func (p IDPool) Validate() error] *)
Definition Validate (p : IDPool) : option poolError :=
  if Slots p =? 0 then Some NoSlots
  else if Start p <? SlotIDs then Some HostIDs
  else if 2 ^ 32 - 2 <? poolEnd p then Some PastIDs
  else None.

(** [func ParsePool(s string) (IDPool, error)] *)
Definition ParsePool (s : string) : IDPool + poolError :=
  match Cut ":" (TrimSpace s) with
  | None => inr WantPool
  | Some (a, b) =>
      match ParseUintW 32 a with
      | None => inr BadStart
      | Some start =>
          match ParseUintW 32 b with
          | None => inr BadSlots
          | Some slots => let p := mkPool start slots in match Validate p with Some e => inr e | None => inl p end
          end
      end
  end.

(** ** The hash *)

(** hash/fnv's 64-bit FNV-1a *)
Definition fnvOffset : N := 14695981039346656037.
Definition fnvPrime : N := 1099511628211.
Fixpoint fnv1a (h : N) (s : string) : N :=
  match s with "" => h | String c s' => fnv1a (U64.mul (N.lxor h (N_of_ascii c)) fnvPrime) s' end.

(** [func (p IDPool) slot(key string) uint32] *)
Definition slot (p : IDPool) (key : string) : N := u32 (fnv1a fnvOffset key mod Slots p).
(** [func (p IDPool) Range(key string) IDRange]: in uint32 *)
Definition Range (p : IDPool) (key : string) : IDRange := mkRange (u32 (Start p + u32 (slot p key * SlotIDs))) SlotIDs.

(** ** The subordinate id files *)

(** The lines bufio.Scanner gives: without their newline and the carriage
    return before it, no last empty one.  It stops with an error at a line of
    64 KiB. *)
Definition dropCR (s : string) : string := TrimSuffix s (String (byte 13) "").
Definition scanTokens (text : string) : list string :=
  let ls := Split (byte 10) text in
  match last ls with Some "" => removelast ls | _ => ls end.
Definition maxToken : N := 65536.

Inductive subIDError := WantEntry (line : nat) | Overlaps (line : nat) | ReadErr.

(** One line; [None] is fine. *)
Definition checkLine (p : IDPool) (n : nat) (raw : string) : option subIDError :=
  let line := TrimSpace raw in
  if (line ==? "") || HasPrefix line "#" then None
  else
    match Split ":" line with
    | [_; a; b] =>
        match ParseUintW 32 a, ParseUintW 32 b with
        | Some start, Some count =>
            if (start <? poolEnd p) && (Start p <? start + count) then Some (Overlaps n) else None
        | _, _ => Some (WantEntry n)
        end
    | _ => Some (WantEntry n)
    end.
Fixpoint checkLines (p : IDPool) (n : nat) (lines : list string) : option subIDError :=
  match lines with
  | [] => None
  | raw :: lines' =>
      if maxToken <=? N.of_nat (String.length raw) then Some ReadErr
      else match checkLine p n (dropCR raw) with Some e => Some e | None => checkLines p (S n) lines' end
  end.
(** [func (p IDPool) checkSubIDFile(path, f) error] *)
Definition checkSubIDFile (p : IDPool) (text : string) : option subIDError := checkLines p 1 (scanTokens text).

(** What opening a file answers. *)
Inductive opened := NotExist | OpenErr | Text (text : string).
(** [func (p IDPool) CheckSubIDs(files ...string) error] *)
Fixpoint CheckSubIDs (p : IDPool) (files : list opened) : option subIDError :=
  match files with
  | [] => None
  | NotExist :: files' => CheckSubIDs p files'
  | OpenErr :: _ => Some ReadErr
  | Text t :: files' => match checkSubIDFile p t with Some e => Some e | None => CheckSubIDs p files' end
  end.

(** ** Claims *)

(** [type holder struct] *)
Record holder := mkHolder { h_warm : bool; h_fibers : nat }.
(** [type claim struct] *)
Record claim := mkClaim { c_key : string; c_grants : gmap string holder }.
(** [type claims struct] *)
Record claims := mkClaims { cl_pool : IDPool; cl_held : gmap N claim }.
#[global] Instance holder_eq_dec : EqDecision holder. Proof. solve_decision. Defined.

(** [func (h *holder) busy() bool] *)
Definition busy (h : holder) : bool := h_warm h || (0 <? h_fibers h)%nat.
(** [func newClaims(p IDPool) *claims] *)
Definition newClaims (p : IDPool) : claims := mkClaims p ∅.

(** [func (c *claims) find(key string) ( *claim, error)]; [inr] is ErrRangeCollision *)
Definition find (c : claims) (key : string) : option claim + unit :=
  match cl_held c !! slot (cl_pool c) key with
  | None => inl None
  | Some cl => if c_key cl <>? key then inr tt else inl (Some cl)
  end.
(** [func (c *claims) check(key string) error] *)
Definition check (c : claims) (key : string) : bool := match find c key with inl _ => true | inr _ => false end.

Definition addUser (warm : bool) (h : holder) : holder :=
  if warm then mkHolder true (h_fibers h) else mkHolder (h_warm h) (S (h_fibers h)).
Definition dropUser (warm : bool) (h : holder) : holder :=
  if warm then mkHolder false (h_fibers h) else mkHolder (h_warm h) (pred (h_fibers h)).
Definition none : holder := mkHolder false 0.

(** [func (c *claims) acquire(key, grantUID string, warm bool) error] *)
Definition acquire (key uid : string) (warm : bool) (c : claims) : bool * claims :=
  match find c key with
  | inr _ => (false, c)
  | inl cl =>
      let cl := default (mkClaim key ∅) cl in
      let h := default none (c_grants cl !! uid) in
      (true, mkClaims (cl_pool c) (<[slot (cl_pool c) key := mkClaim (c_key cl) (<[uid := addUser warm h]> (c_grants cl))]> (cl_held c)))
  end.

(** [func (c *claims) release(key, grantUID string, warm bool) (free bool)] *)
Definition release (key uid : string) (warm : bool) (c : claims) : bool * claims :=
  let s := slot (cl_pool c) key in
  match cl_held c !! s with
  | None => (false, c)
  | Some cl =>
      if c_key cl <>? key then (false, c) else
      match c_grants cl !! uid with
      | None => (false, c)
      | Some h =>
          let h := dropUser warm h in
          if busy h then (false, mkClaims (cl_pool c) (<[s := mkClaim (c_key cl) (<[uid := h]> (c_grants cl))]> (cl_held c)))
          else
            let grants := delete uid (c_grants cl) in
            (true, mkClaims (cl_pool c) (if bool_decide (grants = ∅) then delete s (cl_held c) else <[s := mkClaim (c_key cl) grants]> (cl_held c)))
      end
  end.

(** ** The ranges *)

Definition poolOK (p : IDPool) : Prop := Start p < 2 ^ 32 ∧ Slots p < 2 ^ 32 ∧ Validate p = None.

Lemma poolEnd_exact p : poolOK p → poolEnd p = Start p + Slots p * SlotIDs ∧ 0 < Slots p ∧ SlotIDs ≤ Start p ∧ poolEnd p ≤ 2 ^ 32 - 2.
Proof.
  intros (Hs & Hn & Hv). assert (poolEnd p = Start p + Slots p * SlotIDs) as E.
  { unfold poolEnd, U64.add, U64.mul. rewrite (U64.wrap_small (Slots p * SlotIDs)) by (unfold U64.modulus, SlotIDs; lia).
    apply U64.wrap_small. unfold U64.modulus, SlotIDs. lia. }
  unfold Validate in Hv. destruct (Slots p =? 0) eqn:E1; [done|]. destruct (Start p <? SlotIDs) eqn:E2; [done|].
  destruct (_ <? poolEnd p) eqn:E3; [done|]. apply N.eqb_neq in E1. breflect. split; [done|]. lia.
Qed.
Lemma slot_lt p key : poolOK p → slot p key < Slots p.
Proof.
  intros Hp. pose proof (poolEnd_exact p Hp) as (_ & H0 & _). destruct Hp as (_ & Hn & _). unfold slot, u32.
  rewrite N.mod_small; [apply N.mod_lt; lia|]. eapply N.lt_trans; [apply N.mod_lt; lia|done].
Qed.
Lemma Range_exact p key : poolOK p →
  Range p key = mkRange (Start p + slot p key * SlotIDs) SlotIDs ∧ Start p + slot p key * SlotIDs + SlotIDs ≤ poolEnd p.
Proof.
  intros Hp. pose proof (slot_lt p key Hp) as Hs. destruct (poolEnd_exact p Hp) as (E & H0 & H1 & H2). rewrite E in H2 |- *. split; [|nia].
  unfold Range, u32. rewrite (N.mod_small (slot p key * SlotIDs)) by (unfold SlotIDs in *; nia).
  rewrite N.mod_small by (unfold SlotIDs in *; nia). done.
Qed.

(** Ranges of host ids that share none. *)
Definition disjointIDs (a b : IDRange) : Prop := RStart a + RCount a ≤ RStart b ∨ RStart b + RCount b ≤ RStart a.
Lemma Range_disjoint p k1 k2 : poolOK p → slot p k1 ≠ slot p k2 → disjointIDs (Range p k1) (Range p k2).
Proof.
  intros Hp Hs. destruct (Range_exact p k1 Hp) as [-> _], (Range_exact p k2 Hp) as [-> _]. unfold disjointIDs, SlotIDs. cbn. lia.
Qed.

(** ** The claims against a plain table of users *)

Definition users := gmap (string * string) holder.
(** The abstract claim: the key's slot is no other key's. *)
Definition specAcquire (p : IDPool) (key uid : string) (warm : bool) (u : users) : bool * users :=
  if existsb (λ kv : (string * string) * holder, (slot p kv.1.1 =? slot p key) && (kv.1.1 <>? key)) (map_to_list u) then (false, u)
  else (true, <[(key, uid) := addUser warm (default none (u !! (key, uid)))]> u).
Definition specRelease (key uid : string) (warm : bool) (u : users) : bool * users :=
  match u !! (key, uid) with
  | None => (false, u)
  | Some h => let h := dropUser warm h in if busy h then (false, <[(key, uid) := h]> u) else (true, delete (key, uid) u)
  end.

Inductive claimOp := Acquire (key uid : string) (warm : bool) | Release (key uid : string) (warm : bool).
Definition claimStep (c : claims) (o : claimOp) : bool * claims :=
  match o with Acquire k u w => acquire k u w c | Release k u w => release k u w c end.
Definition specStep (p : IDPool) (u : users) (o : claimOp) : bool * users :=
  match o with Acquire k g w => specAcquire p k g w u | Release k g w => specRelease k g w u end.
(** What a list of calls answers, and the state after. *)
Fixpoint runOps {S} (step : S → claimOp → bool * S) (ops : list claimOp) (s : S) : list bool * S :=
  match ops with [] => ([], s) | o :: ops' => let r := step s o in let rs := runOps step ops' r.2 in (r.1 :: rs.1, rs.2) end.

Definition userOf (c : claims) (key uid : string) : option holder :=
  cl ← cl_held c !! slot (cl_pool c) key; if c_key cl ==? key then c_grants cl !! uid else None.

Record claimsOK (c : claims) : Prop := mkOK {
  ok_slot : ∀ s cl, cl_held c !! s = Some cl → slot (cl_pool c) (c_key cl) = s ∧ c_grants cl ≠ ∅;
  ok_busy : ∀ s cl uid h, cl_held c !! s = Some cl → c_grants cl !! uid = Some h → busy h = true }.
Definition claimsRel (c : claims) (u : users) : Prop := claimsOK c ∧ ∀ key uid, userOf c key uid = u !! (key, uid).

Lemma busy_addUser w h : busy (addUser w h) = true.
Proof. destruct w; unfold busy; cbn; [done|apply orb_true_r]. Qed.
Lemma claimsRel_new p : claimsRel (newClaims p) ∅.
Proof. split; [split; intros ??; cbn [newClaims cl_held]; by rewrite lookup_empty|]. intros. unfold userOf, newClaims. cbn [cl_held cl_pool]. by rewrite !lookup_empty. Qed.

(** A slot is held exactly when some key that hashes to it has a user. *)
Lemma collides c u key : claimsRel c u →
  existsb (λ kv : (string * string) * holder, (slot (cl_pool c) kv.1.1 =? slot (cl_pool c) key) && (kv.1.1 <>? key)) (map_to_list u) = true
  ↔ find c key = inr tt.
Proof.
  intros [Hok Hu]. rewrite existsb_exists. unfold find. split.
  - intros ([[k g] h] & Hin & H). cbn in H. breflect. apply N.eqb_eq in H. apply list_elem_of_In, elem_of_map_to_list in Hin.
    rewrite <- Hu in Hin. unfold userOf in Hin. rewrite H in Hin. destruct (cl_held c !! _) as [cl|]; [|done]. cbn in Hin.
    case_bool_decide as Hk; [|done]. rewrite bool_decide_eq_false_2 by congruence. done.
  - intros H. destruct (cl_held c !! _) as [cl|] eqn:E; [|done]. destruct (bool_decide_reflect (c_key cl = key)) as [|Hk]; [done|].
    destruct (ok_slot c Hok _ _ E) as [Hs Hg]. apply map_choose in Hg as (g & h & Hg). exists ((c_key cl, g), h). split.
    + apply list_elem_of_In, elem_of_map_to_list. rewrite <- Hu. unfold userOf. rewrite Hs, E. cbn. by rewrite bool_decide_eq_true_2.
    + cbn. rewrite Hs, N.eqb_refl. by rewrite bool_decide_eq_false_2.
Qed.

(** The table after one grant's entry of a key's slot is written. *)
Lemma userOf_insert c key uid g k u :
  (∀ cl, cl_held c !! slot (cl_pool c) key = Some cl → c_key cl = key) →
  let c' := mkClaims (cl_pool c) (<[slot (cl_pool c) key := mkClaim key (<[uid := g]> (default ∅ (c_grants <$> cl_held c !! slot (cl_pool c) key)))]> (cl_held c)) in
  userOf c' k u = if bool_decide ((key, uid) = (k, u)) then Some g else userOf c k u.
Proof.
  intros Hk. cbv zeta. unfold userOf. cbn [cl_pool cl_held]. destruct (decide (slot (cl_pool c) key = slot (cl_pool c) k)) as [Es|Es].
  - rewrite Es, lookup_insert_eq. cbn. rewrite Es in Hk. destruct (bool_decide_reflect (key = k)) as [->|Hne].
    + destruct (decide (uid = u)) as [->|Hu]; [by rewrite lookup_insert_eq, bool_decide_eq_true_2|].
      rewrite lookup_insert_ne by done. rewrite bool_decide_eq_false_2 by congruence.
      destruct (cl_held c !! _) as [cl|] eqn:E; cbn; [|apply lookup_empty]. by rewrite bool_decide_eq_true_2 by (by apply Hk).
    + rewrite bool_decide_eq_false_2 by congruence. destruct (cl_held c !! _) as [cl|] eqn:E; cbn; [|done].
      rewrite bool_decide_eq_false_2; [done|]. by rewrite (Hk cl).
  - rewrite lookup_insert_ne by done. rewrite bool_decide_eq_false_2 by congruence. done.
Qed.
Lemma claimsOK_insert c key cl' : claimsOK c → c_key cl' = key → c_grants cl' ≠ ∅ → (∀ uid h, c_grants cl' !! uid = Some h → busy h = true) →
  claimsOK (mkClaims (cl_pool c) (<[slot (cl_pool c) key := cl']> (cl_held c))).
Proof.
  intros Hok <- Hne Hb. split; cbn; intros s cl; [|intros uid h]; rewrite lookup_insert_Some; intros [[<- <-]|[_ Hs]].
  - done.
  - by apply (ok_slot c).
  - apply Hb.
  - by apply (ok_busy c Hok s).
Qed.

Lemma acquire_rel c u key uid w : claimsRel c u →
  (acquire key uid w c).1 = (specAcquire (cl_pool c) key uid w u).1 ∧
  cl_pool (acquire key uid w c).2 = cl_pool c ∧ claimsRel (acquire key uid w c).2 (specAcquire (cl_pool c) key uid w u).2.
Proof.
  intros Hr. pose proof (collides c u key Hr) as Hc. unfold acquire, specAcquire. destruct (existsb _ _).
  { rewrite (proj1 Hc eq_refl). done. }
  destruct (find c key) as [cl|[]] eqn:Ef; [|by discriminate (proj2 Hc eq_refl)]. clear Hc. split; [done|]. split; [done|].
  destruct Hr as [Hok Hu]. cbn [snd].
  assert (Hkey : ∀ cl, cl_held c !! slot (cl_pool c) key = Some cl → c_key cl = key).
  { intros x E. unfold find in Ef. rewrite E in Ef. by destruct (bool_decide_reflect (c_key x = key)). }
  assert (default (mkClaim key ∅) cl = mkClaim key (default ∅ (c_grants <$> cl_held c !! slot (cl_pool c) key))) as ->.
  { unfold find in Ef. destruct (cl_held c !! _) as [x|] eqn:E; [|by injection Ef as <-].
    destruct (bool_decide_reflect (c_key x = key)) as [<-|]; [|done]. injection Ef as <-. by destruct x. }
  cbn [c_key c_grants].
  assert (default none (default ∅ (c_grants <$> cl_held c !! slot (cl_pool c) key) !! uid) = default none (u !! (key, uid))) as ->.
  { rewrite <- Hu. unfold userOf. destruct (cl_held c !! _) as [x|] eqn:E; [|done]. cbn. by rewrite bool_decide_eq_true_2 by (by apply Hkey). }
  split.
  - apply claimsOK_insert; cbn; [done..|apply insert_non_empty|]. intros g h. rewrite lookup_insert_Some.
    intros [[<- <-]|[_ Hg]]; [apply busy_addUser|]. destruct (cl_held c !! _) as [x|] eqn:E; [by apply (ok_busy c Hok _ x g h E)|done].
  - intros k g. rewrite (userOf_insert c key uid _ k g) by done. rewrite Hu. destruct (bool_decide_reflect ((key, uid) = (k, g))) as [[= <- <-]|E]; [symmetry; apply lookup_insert_eq|symmetry; by apply lookup_insert_ne].
Qed.

(** The table after one grant's entry goes. *)
Lemma userOf_delete c key uid cl k u :
  cl_held c !! slot (cl_pool c) key = Some cl → c_key cl = key →
  let c' := mkClaims (cl_pool c) (if bool_decide (delete uid (c_grants cl) = ∅) then delete (slot (cl_pool c) key) (cl_held c)
     else <[slot (cl_pool c) key := mkClaim (c_key cl) (delete uid (c_grants cl))]> (cl_held c)) in
  userOf c' k u = if bool_decide ((key, uid) = (k, u)) then None else userOf c k u.
Proof.
  intros Hcl <-. cbv zeta. unfold userOf. cbn [cl_pool cl_held]. destruct (decide (slot (cl_pool c) (c_key cl) = slot (cl_pool c) k)) as [Es|Es].
  - rewrite Es in Hcl |- *. rewrite Hcl. case_bool_decide as Hempty.
    + rewrite lookup_delete_eq. cbn. destruct (bool_decide_reflect (c_key cl = k)) as [Hk|Hk]; [|by case_bool_decide].
      destruct (bool_decide_reflect ((c_key cl, uid) = (k, u))) as [|Hne]; [done|]. rewrite <- (lookup_delete_ne _ uid u) by congruence. by rewrite Hempty.
    + rewrite lookup_insert_eq. cbn. destruct (bool_decide_reflect (c_key cl = k)) as [Hk|Hk]; [|by case_bool_decide].
      destruct (bool_decide_reflect ((c_key cl, uid) = (k, u))) as [[= _ ->]|Hne]; [apply lookup_delete_eq|]. apply lookup_delete_ne. congruence.
  - rewrite (bool_decide_eq_false_2 ((c_key cl, uid) = (k, u))) by congruence.
    case_bool_decide; [by rewrite lookup_delete_ne|by rewrite lookup_insert_ne].
Qed.

Lemma release_rel c u key uid w : claimsRel c u →
  (release key uid w c).1 = (specRelease key uid w u).1 ∧
  cl_pool (release key uid w c).2 = cl_pool c ∧ claimsRel (release key uid w c).2 (specRelease key uid w u).2.
Proof.
  intros [Hok Hu]. unfold release, specRelease. pose proof (Hu key uid) as Hku. unfold userOf in Hku.
  destruct (cl_held c !! _) as [cl|] eqn:E; cbn in Hku; [|by rewrite <- Hku].
  destruct (bool_decide_reflect (c_key cl = key)) as [Hk|Hk]; [|by rewrite <- Hku]. rewrite <- Hku. cbn [negb].
  destruct (c_grants cl !! uid) as [h|] eqn:Eg; [|done]. destruct (busy (dropUser w h)) eqn:Eb; (split; [done|]; split; [done|]); cbn [snd].
  - split.
    + apply claimsOK_insert; cbn; [done..|apply insert_non_empty|]. intros g h'. rewrite lookup_insert_Some.
      intros [[<- <-]|[_ Hg]]; [done|]. by apply (ok_busy c Hok _ cl g h' E).
    + intros k g. pose proof (userOf_insert c key uid (dropUser w h) k g) as Hi. rewrite E in Hi. cbn in Hi. rewrite Hk, Hi by (by intros ? [= <-]).
      clear Hi. rewrite Hu. destruct (bool_decide_reflect ((key, uid) = (k, g))) as [[= <- <-]|Ek]; [symmetry; apply lookup_insert_eq|symmetry; by apply lookup_insert_ne].
  - split.
    + case_bool_decide as He.
      * split; cbn; intros s x; [|intros g h']; rewrite lookup_delete_Some; intros [_ Hs]; [by apply (ok_slot c)|by apply (ok_busy c Hok s)].
      * apply claimsOK_insert; cbn; [done..|]. intros g h'. rewrite lookup_delete_Some. intros [_ Hg]. by apply (ok_busy c Hok _ cl g h' E).
    + intros k g. rewrite (userOf_delete c key uid cl k g E Hk), Hu. destruct (bool_decide_reflect ((key, uid) = (k, g))) as [[= <- <-]|Ek]; [symmetry; apply lookup_delete_eq|symmetry; by apply lookup_delete_ne].
Qed.

Lemma claimStep_rel c u o : claimsRel c u →
  (claimStep c o).1 = (specStep (cl_pool c) u o).1 ∧ cl_pool (claimStep c o).2 = cl_pool c ∧ claimsRel (claimStep c o).2 (specStep (cl_pool c) u o).2.
Proof. destruct o; [apply acquire_rel|apply release_rel]. Qed.
Lemma runOps_rel ops : ∀ c u, claimsRel c u →
  (runOps claimStep ops c).1 = (runOps (specStep (cl_pool c)) ops u).1 ∧ cl_pool (runOps claimStep ops c).2 = cl_pool c ∧
  claimsRel (runOps claimStep ops c).2 (runOps (specStep (cl_pool c)) ops u).2.
Proof.
  induction ops as [|o ops IH]; intros c u Hr; [done|]. cbn. destruct (claimStep_rel c u o Hr) as (E1 & E2 & E3).
  destruct (IH _ _ E3) as (F1 & F2 & F3). rewrite E2 in F1, F2, F3. by rewrite E1, F1.
Qed.

Lemma users_exclusive c u k1 g1 k2 g2 : claimsRel c u → is_Some (u !! (k1, g1)) → is_Some (u !! (k2, g2)) → k1 ≠ k2 →
  slot (cl_pool c) k1 ≠ slot (cl_pool c) k2.
Proof.
  intros [_ Hu] H1 H2 Hne Es. rewrite <- Hu in H1, H2. unfold userOf in H1, H2. rewrite Es in H1.
  destruct (cl_held c !! _) as [cl|]; cbn in H1, H2; [|by destruct H1].
  destruct (bool_decide_reflect (c_key cl = k1)); [|by destruct H1]. destruct (bool_decide_reflect (c_key cl = k2)); [|by destruct H2]. congruence.
Qed.

(** ** What the checks at start give *)

Lemma ParsePool_OK s p : ParsePool s = inl p → poolOK p.
Proof.
  unfold ParsePool. destruct (Cut _ _) as [[a b]|]; [|done]. destruct (ParseUintW 32 a) eqn:Ea; [|done].
  destruct (ParseUintW 32 b) eqn:Eb; [|done]. cbv zeta. destruct (Validate _) eqn:Ev; [done|]. intros [= <-].
  split; [|split]; [by eapply ParseUintW_bound..|done].
Qed.

(** An entry of a subordinate id file: a line with three fields, the range in
    the last two. *)
Definition entry (text : string) (start count : N) : Prop :=
  ∃ raw name a b, raw ∈ scanTokens text ∧ HasPrefix (TrimSpace (dropCR raw)) "#" = false ∧ Split ":" (TrimSpace (dropCR raw)) = [name; a; b] ∧
    ParseUintW 32 a = Some start ∧ ParseUintW 32 b = Some count.

Lemma checkLines_None p lines : ∀ n, checkLines p n lines = None → ∀ raw, raw ∈ lines → ∃ m, checkLine p m (dropCR raw) = None.
Proof.
  induction lines as [|l lines IH]; intros n H raw Hr; [by apply elem_of_nil in Hr|]. cbn [checkLines] in H.
  destruct (maxToken <=? _); [done|]. destruct (checkLine p n _) eqn:E; [done|]. apply elem_of_cons in Hr as [->|Hr]; eauto.
Qed.
Lemma CheckSubIDs_entry p files text start count : CheckSubIDs p files = None → Text text ∈ files → entry text start count →
  poolEnd p ≤ start ∨ start + count ≤ Start p.
Proof.
  intros H Hin (raw & name & a & b & Hraw & Hpre & Hsplit & Ha & Hb). induction files as [|f files IH]; [by apply elem_of_nil in Hin|].
  cbn in H. apply elem_of_cons in Hin as [<-|Hin].
  2: { destruct f; [by apply IH|done|]. destruct (checkSubIDFile p text0); [done|by apply IH]. }
  destruct (checkSubIDFile p text) eqn:E; [done|]. destruct (checkLines_None p _ _ E raw Hraw) as [m Hm].
  unfold checkLine in Hm. rewrite Hpre, Hsplit, Ha, Hb, orb_false_r in Hm. case_bool_decide as He; [by rewrite He in Hsplit|].
  destruct (_ && _) eqn:Ec; [done|]. apply andb_false_iff in Ec as [Ec|Ec]; breflect; auto.
Qed.

(** No two session domains of a home ever share host ids.  Over any
    sequence of claims and releases the home answers exactly as a plain table
    of users per key and grant would (a claim is refused only while another key
    with users hashes to the slot; a release says "free" exactly when it ends
    the grant's last user).  And with a pool that ParsePool accepts and
    CheckSubIDs passes, the ranges of two different keys that hold users have
    no host id in common; each lies whole inside the pool, above the host's own
    ids, below the kernel's overflow id and apart from every range the host has
    handed out in a subordinate id file. *)
Theorem ranges_exclusive s p files ops :
  ParsePool s = inl p → CheckSubIDs p files = None →
  let c := runOps claimStep ops (newClaims p) in
  let u := runOps (specStep p) ops ∅ in
  c.1 = u.1 ∧
  (∀ key uid, userOf c.2 key uid = u.2 !! (key, uid)) ∧
  ∀ k1 g1 k2 g2, is_Some (userOf c.2 k1 g1) → is_Some (userOf c.2 k2 g2) →
    (k1 ≠ k2 → disjointIDs (Range p k1) (Range p k2)) ∧
    SlotIDs ≤ RStart (Range p k1) ∧ RStart (Range p k1) + RCount (Range p k1) ≤ 2 ^ 32 - 2 ∧
    ∀ text start count, Text text ∈ files → entry text start count → disjointIDs (Range p k1) (mkRange start count).
Proof.
  intros Hp%ParsePool_OK Hf. cbv zeta. destruct (runOps_rel ops (newClaims p) ∅ (claimsRel_new p)) as (E & Ep & Hr).
  cbn [newClaims cl_pool] in E, Ep, Hr. split; [done|]. split; [apply Hr|]. intros k1 g1 k2 g2 U1 U2.
  destruct Hr as [Hok Hu]. split.
  - intros Hne. apply Range_disjoint; [done|]. rewrite <- Ep. rewrite Hu in U1, U2. by eapply users_exclusive.
  - destruct (Range_exact p k1 Hp) as [-> Hend]. destruct (poolEnd_exact p Hp) as (_ & _ & Hs & Hm). cbn [RStart RCount].
    split; [lia|]. split; [lia|]. intros text start count Hin He. unfold disjointIDs. cbn [RStart RCount].
    destruct (CheckSubIDs_entry p files text start count Hf Hin He); lia.
Qed.

(** A pool of two slots beside one subordinate range. *)
Definition subFile : string := "# lent ranges" +:+ String (byte 10) ("user:300000:65536" +:+ String (byte 10) "").
Lemma ranges_exclusive_witness :
  (runOps claimStep [Acquire "a" "g1" true; Acquire "a" "g2" false; Acquire "b" "g3" true; Acquire "c" "g4" true; Release "a" "g1" true]
     (newClaims (mkPool 65536 2))).1 = [true; true; true; false; true] ∧
  disjointIDs (Range (mkPool 65536 2) "a") (Range (mkPool 65536 2) "b").
Proof.
  split; [vm_compute; reflexivity|].
  refine (proj1 (proj2 (proj2 (ranges_exclusive " 65536:2" (mkPool 65536 2) [NotExist; Text subFile] [Acquire "a" "g1" true; Acquire "b" "g3" true] _ _)) "a" "g1" "b" "g3" _ _) _);
    vm_compute; try reflexivity; eauto; congruence.
Defined.

(** The default pool is one that Validate accepts. *)
Example default_pool : ParsePool DefaultPool = inl (mkPool 1073741824 49151).
Proof. reflexivity. Qed.
