(* ===== verification/Seal.v ===== *)
(** * Sealed artifacts (pkg/artifact/seal.go, seal_parent.go, wrap.go)

    Tenant and template memory leave a home as sealed files: a header and a
    stream of chunks, each under AES-256-GCM with the header as its associated
    data.  AES-GCM, HKDF, HPKE, SHA-256, X25519 and the JSON of a header are
    the operations of [Crypto], and random bytes are inputs; the stream, the
    header, the contexts and the checks on them are the code's own.  Files are
    their bytes; the size of a chunk is a parameter, [sealChunk] in the code. *)

From Stdlib Require Import Ascii.
From S2P Require Import Prelude GoLib GoText Encoding.
From stdpp Require Import options.

(** ** Data *)

Definition sealMagic : string := "fiberd-seal-v1" +:+ String (byte 10) "".
Definition sealKeyID : string := "fiberd-seal-kid" +:+ String (byte 10) "".
(** [const sealChunk = 1 << 20] *)
Definition sealChunk : nat := N.to_nat 1048576.
Definition infoDelta : string := "fiberd-delta-v1 domain:".
Definition infoParent : string := "fiberd-parent-v1 ".
Definition infoWrap : string := "fiberd-template-wrap-v1".
Definition infoImages : string := "fiberd-images-v1 ".
Definition parentDomain : string := "parent:".
Definition imagesDomain : string := "images:".
Definition wrapKeyID : string := "fiberd-wrap-kid" +:+ String (byte 10) "".
Definition fileImages : string := "images.tar".

(** [type SealKey struct] *)
Record SealKey := mkSealKey { sk_ID : string; sk_Key : string }.
(** [type SealContext struct] *)
Record SealContext := mkContext { Domain : string; CSession : string; CFence : string; Expires : Time.t }.
(** [type wrapHeader struct] *)
Record wrapHeader := mkWrap { w_Enc : string; w_Wrapped : string }.
(** [type sealHeader struct] *)
Record sealHeader := mkHeader { h_Key : string; h_Salt : string; h_Context : SealContext; h_Wrap : option wrapHeader }.
#[global] Instance SealContext_eq_dec : EqDecision SealContext. Proof. solve_decision. Defined.
#[global] Instance wrapHeader_eq_dec : EqDecision wrapHeader. Proof. solve_decision. Defined.
#[global] Instance sealHeader_eq_dec : EqDecision sealHeader. Proof. solve_decision. Defined.

(** The errors, by their sentinel. *)
Inductive sealError := ErrSealed | ErrExpired | NoKey | NoExpiry | NotSHA256 | MarshalErr.
#[global] Instance sealError_eq_dec : EqDecision sealError. Proof. solve_decision. Defined.

(** What the code takes from Go's crypto and encoding/json. *)
Class Crypto := {
  hkdf : string → string → string → string;          (* secret, salt, info *)
  gcmSeal : string → string → string → string → string;          (* key, nonce, plaintext, associated data *)
  gcmOpen : string → string → string → string → option string;
  marshal : sealHeader → option string;
  unmarshal : string → option sealHeader;
  sha256hex : string → string;
  x25519Public : string → string;                    (* of a private key's seed *)
  kidOf : string → string;                           (* base64url of the first 12 bytes of the sha256 *)
  hpkeSeal : string → string → string → string → string * string;          (* randomness, public key, info, plaintext: enc and wrapped *)
  hpkeOpen : string → string → string → string → option string }.          (* private key, enc, info, wrapped *)

(** ** Big-endian numbers *)

(** [n] bytes of [v], most significant first *)
Fixpoint beBytes (n : nat) (v : N) : string :=
  match n with
  | O => ""
  | S n' => beBytes n' (v / 256) +:+ String (byte (v mod 256)) ""
  end.
Fixpoint beValue (acc : N) (s : string) : N :=
  match s with "" => acc | String c s' => beValue (256 * acc + N_of_ascii c) s' end.

(** [func chunkNonce(i uint64, last bool) []byte] *)
Definition chunkNonce (i : N) (last : bool) : string :=
  beBytes 3 0 +:+ beBytes 8 i +:+ String (byte (if last then 1 else 0)) "".

Definition gcmOverhead : nat := 16.

Section Seal.
Context {C : Crypto} (chunk : nat).

(** ** Keys *)

(** [func deltaKey(k *SealKey, domain string) ([]byte, error)] *)
Definition deltaKey (k : SealKey) (domain : string) : string := hkdf (sk_Key k) "" (infoDelta +:+ domain).
(** [func parentKey(k *SealKey, sha string) ([]byte, error)] *)
Definition parentKey (k : SealKey) (sha : string) : string := hkdf (sk_Key k) "" (infoParent +:+ parentDomain +:+ sha).
(** [func fileAEAD(dk []byte, name string, salt []byte)]: the file's key *)
Definition fileAEAD (dk name salt : string) : string := hkdf dk salt ("file:" +:+ name).
(** [func sealKID(k []byte) string] *)
Definition sealKID (k : string) : string := kidOf (sealKeyID +:+ k).
(** [func SealKeyFromJWK(jwk)]: the key's bytes, if it is symmetric, and its kid *)
Definition SealKeyFromJWK (key : option string) (kid : string) : option SealKey :=
  match key with
  | Some k => if negb (String.length k =? 32)%nat || (kid ==? "") then None else Some (mkSealKey kid k)
  | None => None
  end.
(** [func GenerateSealKey()] from 32 random bytes: the key and its kid *)
Definition GenerateSealKey (random : string) : string * string := (random, sealKID random).

(** ** One file *)

(** The loop of [sealFile] over what is left of the source. *)
Fixpoint sealLoop (fuel : nat) (fk prefix : string) (i : N) (rest : string) : string :=
  match fuel with
  | O => ""
  | S fuel' =>
      let buf := str_take chunk rest in
      let rest' := str_drop chunk rest in
      let last := (String.length buf <? chunk)%nat || (rest' ==? "") in
      let c := gcmSeal fk (chunkNonce i last) buf prefix in
      if last then c else c +:+ sealLoop fuel' fk prefix (U64.succ i) rest'
  end.

Definition prefixOf (hb : string) : string := sealMagic +:+ beBytes 4 (N.of_nat (String.length hb) mod 2 ^ 32) +:+ hb.

(** [func sealFile(src, dst, dk, name, h, sum)]: the sealed bytes, with a fresh
    salt in the header *)
Definition sealFile (salt src dk name : string) (h : sealHeader) : string + sealError :=
  let h := mkHeader (h_Key h) salt (h_Context h) (h_Wrap h) in
  match marshal h with
  | None => inr MarshalErr
  | Some hb =>
      let prefix := prefixOf hb in
      inl (prefix +:+ sealLoop (S (String.length src)) (fileAEAD dk name salt) prefix 0 src)
  end.

(** [func readSealHeader(r)]: the header, the prefix and what follows *)
Definition readSealHeader (s : string) : (sealHeader * string * string) + sealError :=
  let m := String.length sealMagic in
  let prefix := str_take (m + 4) s in
  if negb (String.length prefix =? m + 4)%nat || (str_take m prefix <>? sealMagic) then inr ErrSealed
  else
    let n := beValue 0 (str_drop m prefix) in
    if (65536 <? n)%N then inr ErrSealed
    else
      let r := str_drop (m + 4) s in
      let hb := str_take (N.to_nat n) r in
      if negb (N.of_nat (String.length hb) =? n)%N then inr ErrSealed
      else
        match unmarshal hb with
        | None => inr ErrSealed
        | Some h => inl (h, prefix +:+ hb, str_drop (N.to_nat n) r)
        end.

(** The loop of [openFile] over what is left of the sealed stream. *)
Fixpoint openLoop (fuel : nat) (fk prefix : string) (i : N) (rest : string) : option string :=
  match fuel with
  | O => None
  | S fuel' =>
      let size := (chunk + gcmOverhead)%nat in
      let buf := str_take size rest in
      let rest' := str_drop size rest in
      let last := (String.length buf <? size)%nat || (rest' ==? "") in
      match gcmOpen fk (chunkNonce i last) buf prefix with
      | None => None
      | Some p => if last then Some p else q ← openLoop fuel' fk prefix (U64.succ i) rest'; Some (p +:+ q)
      end
  end.

(** [func openFile(src, dst, name, keyFor, sum)]: the header and the plaintext *)
Definition openFile (src name : string) (keyFor : sealHeader → string + sealError) : (sealHeader * string) + sealError :=
  match readSealHeader src with
  | inr e => inr e
  | inl (h, prefix, r) =>
      match keyFor h with
      | inr e => inr e
      | inl dk =>
          match openLoop (S (String.length r)) (fileAEAD dk name (h_Salt h)) prefix 0 r with
          | None => inr ErrSealed
          | Some p => inl (h, p)
          end
      end
  end.

(** ** Directories: the pushable files by name, in order *)

(** [func sealDirWith(src, dst, dk, h)]; a salt is drawn for each file *)
Fixpoint sealDirWith (salts : list string) (files : list (string * string)) (dk : string) (h : sealHeader) : list (string * string) + sealError :=
  match files, salts with
  | (n, src) :: files', salt :: salts' =>
      match sealFile salt src dk n h with
      | inr e => inr e
      | inl c => match sealDirWith salts' files' dk h with inr e => inr e | inl cs => inl ((n, c) :: cs) end
      end
  | _, _ => inl []
  end.

(** [func sameSealContext(a, b SealContext) bool] *)
Definition sameSealContext (a b : SealContext) : bool :=
  (Domain a ==? Domain b) && (CSession a ==? CSession b) && (CFence a ==? CFence b) && Time.Equal (Expires a) (Expires b).

(** The loop of [openDirWith]: the context so far, and the files opened. *)
Fixpoint openLoopDir (keyFor : sealHeader → string + sealError) (got : option SealContext) (files : list (string * string)) :
    (option SealContext * list (string * string)) + sealError :=
  match files with
  | [] => inl (got, [])
  | (n, src) :: files' =>
      match openFile src n keyFor with
      | inr e => inr e
      | inl (h, p) =>
          if match got with Some g => negb (sameSealContext g (h_Context h)) | None => false end then inr ErrSealed
          else match openLoopDir keyFor (Some (h_Context h)) files' with
               | inr e => inr e
               | inl (g, ps) => inl (g, (n, p) :: ps)
               end
      end
  end.
(** [func openDirWith(dir, keyFor) (SealContext, error)]: the context and the
    plaintext of every file *)
Definition openDirWith (files : list (string * string)) (keyFor : sealHeader → string + sealError) : (SealContext * list (string * string)) + sealError :=
  match openLoopDir keyFor None files with
  | inr e => inr e
  | inl (None, _) => inr ErrSealed
  | inl (Some c, ps) => inl (c, ps)
  end.

(** [func SealDir(src, dst, k, c) error] *)
Definition SealDir (salts : list string) (files : list (string * string)) (k : option SealKey) (c : SealContext) : list (string * string) + sealError :=
  match k with
  | None => inr NoKey
  | Some k =>
      if Time.IsZero (Expires c) then inr NoExpiry
      else sealDirWith salts files (deltaKey k (Domain c)) (mkHeader (sk_ID k) "" c None)
  end.

(** keyFor of [OpenDir] *)
Definition deltaKeyFor (k : SealKey) (domain session : string) (now : Time.t) (h : sealHeader) : string + sealError :=
  if h_Key h <>? sk_ID k then inr ErrSealed
  else if match h_Wrap h with Some _ => true | None => false end then inr ErrSealed
  else if (Domain (h_Context h) <>? domain) || (CSession (h_Context h) <>? session) then inr ErrSealed
  else if Time.IsZero (Expires (h_Context h)) then inr ErrExpired
  else if negb (Time.Before now (Expires (h_Context h))) then inr ErrExpired
  else inl (deltaKey k domain).
(** [func OpenDir(dir, k, domain, session, now) (SealContext, error)] *)
Definition OpenDir (files : list (string * string)) (k : option SealKey) (domain session : string) (now : Time.t) :
    (SealContext * list (string * string)) + sealError :=
  match k with None => inr NoKey | Some k => openDirWith files (deltaKeyFor k domain session now) end.

(** ** Parents *)

(** [func ParentContext(sha string) SealContext] *)
Definition ParentContext (sha : string) : SealContext := mkContext (parentDomain +:+ sha) "" "" Time.zero.
(** [func checkSHA256Hex(what, sha string) error] *)
Definition checkSHA256Hex (sha : string) : bool :=
  (String.length sha =? 64)%nat && all_chars (λ c, in_range "0" "9" c || in_range "a" "f" c) sha.

(** [func SealParentDir(src, dst, k, sha) error] *)
Definition SealParentDir (salts : list string) (files : list (string * string)) (k : option SealKey) (sha : string) : list (string * string) + sealError :=
  match k with
  | None => inr NoKey
  | Some k =>
      if negb (checkSHA256Hex sha) then inr NotSHA256
      else sealDirWith salts files (parentKey k sha) (mkHeader (sk_ID k) "" (ParentContext sha) None)
  end.
Definition parentKeyFor (k : SealKey) (sha : string) (h : sealHeader) : string + sealError :=
  if h_Key h <>? sk_ID k then inr ErrSealed
  else if match h_Wrap h with Some _ => true | None => false end then inr ErrSealed
  else if negb (sameSealContext (h_Context h) (ParentContext sha)) then inr ErrSealed
  else inl (parentKey k sha).
(** [func OpenParentDir(dir, k, sha) error]: the plaintext of every file *)
Definition OpenParentDir (files : list (string * string)) (k : option SealKey) (sha : string) : list (string * string) + sealError :=
  match k with
  | None => inr NoKey
  | Some k =>
      if negb (checkSHA256Hex sha) then inr NotSHA256
      else match openDirWith files (parentKeyFor k sha) with inr e => inr e | inl (_, ps) => inl ps end
  end.

(** ** Author images *)

(** [type WrapKey struct]: the id and the private key's seed *)
Record WrapKey := mkWrapKey { wk_ID : string; wk_priv : string }.
(** [type WrapPublicKey struct] *)
Record WrapPublicKey := mkWrapPub { wp_ID : string; wp_pub : string }.
(** [type ImagesSeal struct] *)
Record ImagesSeal := mkImages { is_KeyID : string; is_Enc : string; is_Wrapped : string; is_SHA256 : string }.

(** [func wrapKID(pub []byte) string] *)
Definition wrapKID (pub : string) : string := kidOf (wrapKeyID +:+ pub).
(** [func DeriveWrapKey(k *SealKey) ( *WrapKey, error)] *)
Definition DeriveWrapKey (k : SealKey) : WrapKey :=
  let seed := hkdf (sk_Key k) "" infoWrap in mkWrapKey (wrapKID (x25519Public seed)) seed.
(** [func (w *WrapKey) Public() *WrapPublicKey] *)
Definition Public (w : WrapKey) : WrapPublicKey := mkWrapPub (wk_ID w) (x25519Public (wk_priv w)).
(** [func imagesContext(sha string) SealContext] *)
Definition imagesContext (sha : string) : SealContext := mkContext (imagesDomain +:+ sha) "" "" Time.zero.
(** [func imagesInfo(kid, sha string) []byte] *)
Definition imagesInfo (kid sha : string) : string := infoImages +:+ imagesDomain +:+ sha +:+ " key:" +:+ kid.

(** [func SealImages(src, dst, pub) (ImagesSeal, error)]: the content key, the
    salt and HPKE's randomness are drawn.  [again] is what the second read of
    the file gives. *)
Definition SealImages (ck salt random : string) (src again : string) (pub : WrapPublicKey) : (ImagesSeal * string) + sealError :=
  let sha := sha256hex src in
  let '(enc, wrapped) := hpkeSeal random (wp_pub pub) (imagesInfo (wp_ID pub) sha) ck in
  match sealFile salt again ck fileImages (mkHeader (wp_ID pub) "" (imagesContext sha) (Some (mkWrap enc wrapped))) with
  | inr e => inr e
  | inl c => if sha256hex again <>? sha then inr ErrSealed else inl (mkImages (wp_ID pub) enc wrapped sha, c)
  end.

(** keyFor of [OpenImages] *)
Definition imagesKeyFor (w : WrapKey) (s : ImagesSeal) (h : sealHeader) : string + sealError :=
  if h_Key h <>? is_KeyID s then inr ErrSealed
  else
    match h_Wrap h with
    | None => inr ErrSealed
    | Some wr =>
        if negb (sameSealContext (h_Context h) (imagesContext (is_SHA256 s))) then inr ErrSealed
        else if (w_Enc wr <>? is_Enc s) || (w_Wrapped wr <>? is_Wrapped s) then inr ErrSealed
        else match hpkeOpen (wk_priv w) (w_Enc wr) (imagesInfo (is_KeyID s) (is_SHA256 s)) (w_Wrapped wr) with
             | Some ck => if (String.length ck =? 32)%nat then inl ck else inr ErrSealed
             | None => inr ErrSealed
             end
    end.
(** [func OpenImages(src, dst, k, s) error]: the plaintext *)
Definition OpenImages (src : string) (k : option SealKey) (s : ImagesSeal) : string + sealError :=
  match k with
  | None => inr NoKey
  | Some k =>
      let w := DeriveWrapKey k in
      if negb (checkSHA256Hex (is_SHA256 s)) then inr NotSHA256
      else if is_KeyID s <>? wk_ID w then inr ErrSealed
      else
        match openFile src fileImages (imagesKeyFor w s) with
        | inr e => inr e
        | inl (_, p) => if sha256hex p <>? is_SHA256 s then inr ErrSealed else inl p
        end
  end.
End Seal.
