(* ===== verification/SealFacts.v ===== *)
(** * What a seal guarantees

    Round trips of the three kinds of sealed artifact, and the integrity of an
    opened directory from that of single chunks. *)

From Stdlib Require Import Ascii.
From S2P Require Import Prelude GoLib GoText Seal.
From stdpp Require Import options.

(** ** Numbers and nonces *)

Lemma length_beBytes n v : String.length (beBytes n v) = n.
Proof. revert v. induction n as [|n IH]; intros v; [done|]. cbn [beBytes]. rewrite str_length_app, IH. cbn. lia. Qed.
Lemma beValue_app acc a b : beValue acc (a +:+ b) = beValue (beValue acc a) b.
Proof. revert acc. induction a as [|c a IH]; intros acc; [done|]. rewrite str_app_cons. cbn. apply IH. Qed.
Lemma N_of_byte n : (n < 256)%N → N_of_ascii (byte n) = n.
Proof. intros. by apply N_ascii_embedding. Qed.
Lemma beValue_beBytes n v acc : beValue acc (beBytes n v) = (acc * 256 ^ N.of_nat n + v mod 256 ^ N.of_nat n)%N.
Proof.
  revert v acc. induction n as [|n IH]; intros v acc; [cbn; rewrite N.mod_1_r; lia|].
  cbn [beBytes]. rewrite beValue_app, IH. cbn [beValue]. rewrite N_of_byte by (apply N.mod_lt; lia).
  rewrite Nat2N.inj_succ, N.pow_succ_r'. rewrite (N.Div0.mod_mul_r v 256). lia.
Qed.
Lemma beBytes_inj n v w : (v < 256 ^ N.of_nat n)%N → (w < 256 ^ N.of_nat n)%N → beBytes n v = beBytes n w → v = w.
Proof.
  intros Hv Hw E. apply (f_equal (beValue 0)) in E. rewrite !beValue_beBytes in E. rewrite !N.mod_small in E by done. lia.
Qed.

Lemma beValue_acc s acc : beValue acc s = (acc * 256 ^ N.of_nat (String.length s) + beValue 0 s)%N.
Proof.
  revert acc. induction s as [|c s IH]; intros acc; [cbn; lia|]. cbn [beValue String.length]. rewrite IH, (IH (256 * 0 + _)%N).
  rewrite Nat2N.inj_succ, N.pow_succ_r'. lia.
Qed.
Lemma beValue_lt s : (beValue 0 s < 256 ^ N.of_nat (String.length s))%N.
Proof.
  induction s as [|c s IH]; [cbn; lia|]. cbn [beValue String.length]. rewrite beValue_acc, Nat2N.inj_succ, N.pow_succ_r'.
  pose proof (N_ascii_bounded c). nia.
Qed.
Lemma beValue_inj a : ∀ b, String.length a = String.length b → beValue 0 a = beValue 0 b → a = b.
Proof.
  induction a as [|c a IH]; intros [|d b] Hl E; try done. injection Hl as Hl. cbn [beValue] in E.
  rewrite (beValue_acc a), (beValue_acc b), Hl in E. pose proof (beValue_lt a) as Ha. pose proof (beValue_lt b) as Hb. rewrite Hl in Ha.
  assert (N_of_ascii c = N_of_ascii d) as Ec by nia. assert (beValue 0 a = beValue 0 b) as Ev by nia.
  f_equal; [|by apply IH]. rewrite <- (byte_N_of_ascii c), <- (byte_N_of_ascii d). by rewrite Ec.
Qed.

(** Two chunks of a file never share a nonce. *)
Lemma chunkNonce_inj i j a b : (i < U64.modulus)%N → (j < U64.modulus)%N → chunkNonce i a = chunkNonce j b → i = j ∧ a = b.
Proof.
  intros Hi Hj E. unfold chunkNonce in E. apply str_app_inj_r in E. apply str_app_inj_l in E as [E1 E2]; [|by rewrite !length_beBytes].
  split; [by apply (beBytes_inj 8)|]. destruct a, b; done.
Qed.

(** ** The stream *)

(** The chunks of a plaintext: index, whether it is the last, bytes. *)
Fixpoint chunksFrom (chunk fuel : nat) (i : N) (rest : string) : list (N * bool * string) :=
  match fuel with
  | O => []
  | S fuel' =>
      let buf := str_take chunk rest in
      let rest' := str_drop chunk rest in
      let last := (String.length buf <? chunk)%nat || (rest' ==? "") in
      (i, last, buf) :: if last then [] else chunksFrom chunk fuel' (U64.succ i) rest'
  end.

(** Whether the chunk at the front is the last, by what is left. *)
Lemma last_iff size rest : (0 < size)%nat →
  ((String.length (str_take size rest) <? size)%nat || (str_drop size rest ==? "")) = bool_decide (String.length rest ≤ size)%nat.
Proof.
  intros Hs. rewrite str_length_take. apply eq_bool_prop_intro. rewrite bool_decide_spec, orb_True, Is_true_true, Nat.ltb_lt, bool_decide_spec. split.
  - intros [H|H]; [lia|]. apply (f_equal String.length) in H. rewrite str_length_drop in H. cbn in H. lia.
  - intros H. right. by apply str_drop_all.
Qed.

Lemma readSealHeader_prefix `{Crypto} h hb body : unmarshal hb = Some h → (N.of_nat (String.length hb) ≤ 65536)%N →
  readSealHeader (prefixOf hb +:+ body) = inl (h, prefixOf hb, body).
Proof.
  intros Hu Hl. unfold readSealHeader, prefixOf. cbv zeta. rewrite N.mod_small by lia. set (n := N.of_nat (String.length hb)) in *.
  set (len := beBytes 4 n). assert (String.length len = 4) as Hlen by apply length_beBytes.
  replace ((sealMagic +:+ len +:+ hb) +:+ body) with ((sealMagic +:+ len) +:+ (hb +:+ body)) by (by rewrite !str_app_assoc).
  assert (String.length (sealMagic +:+ len) = (String.length sealMagic + 4)%nat) as Hm by (by rewrite str_length_app, Hlen).
  rewrite (str_take_app_eq _ (sealMagic +:+ len)), (str_drop_app_eq _ (sealMagic +:+ len)) by done. rewrite Hm, Nat.eqb_refl. rewrite str_take_app, bool_decide_eq_true_2 by done. cbn [negb orb].
  rewrite str_drop_app. unfold len. rewrite beValue_beBytes, N.mul_0_l, N.add_0_l, N.mod_small by (change (256 ^ N.of_nat 4)%N with 4294967296%N; lia).
  rewrite (proj2 (N.ltb_ge _ _)) by done. rewrite str_take_app_eq, str_drop_app_eq by lia. fold n. rewrite N.eqb_refl. cbn [negb]. rewrite Hu.
  by rewrite !str_app_assoc.
Qed.

Lemma prefixOf_inj a b : prefixOf a = prefixOf b → a = b.
Proof.
  intros E. unfold prefixOf in E. apply str_app_inj_r in E. apply str_app_inj_l in E as [_ E]; [done|by rewrite !length_beBytes].
Qed.
Lemma readSealHeader_inv `{Crypto} s h prefix r : readSealHeader s = inl (h, prefix, r) → ∃ hb, unmarshal hb = Some h ∧ prefix = prefixOf hb.
Proof.
  unfold readSealHeader. cbv zeta. set (pre := str_take _ s). destruct (negb _ || _) eqn:E1; [done|]. set (n := beValue 0 _).
  destruct (65536 <? n)%N eqn:E2; [done|]. destruct (negb (_ =? n)%N) eqn:E3; [done|].
  destruct (unmarshal _) eqn:Eu; [|done]. intros [= -> <- _]. eexists. split; [done|].
  apply orb_false_iff in E1 as [E0 E1]. apply negb_false_iff in E0, E1, E3. apply Nat.eqb_eq in E0. apply N.eqb_eq in E3.
  apply bool_decide_eq_true_1 in E1. apply N.ltb_ge in E2. unfold prefixOf. rewrite E3, N.mod_small by lia.
  assert (pre = sealMagic +:+ beBytes 4 n) as Hpre; [|by rewrite Hpre, str_app_assoc].
  rewrite <- (str_take_drop (String.length sealMagic) pre), E1. f_equal.
  apply beValue_inj; [by rewrite length_beBytes, str_length_drop, E0|].
  rewrite beValue_beBytes, N.mul_0_l, N.add_0_l, N.mod_small; [done|]. change (256 ^ N.of_nat 4)%N with 4294967296%N. lia.
Qed.

Lemma sameSealContext_refl c : sameSealContext c c = true.
Proof. unfold sameSealContext, Time.Equal. by rewrite !bool_decide_eq_true_2, Z.eqb_refl. Qed.
Lemma sameSealContext_eq a b : sameSealContext a b = true → a = b.
Proof. unfold sameSealContext, Time.Equal. intros H. breflect. apply Z.eqb_eq in H0. destruct a, b. cbn in *. congruence. Qed.
Lemma sameSealContext_trans a b c : sameSealContext a b = true → sameSealContext b c = true → sameSealContext a c = true.
Proof. by intros ->%sameSealContext_eq. Qed.

(** The strings of a header are valid UTF-8, which encoding/json reads back; salt,
    encapsulation and wrapped key are bytes, written in base64. *)
Definition headerText (h : sealHeader) : Prop :=
  ValidUTF8 (h_Key h) = true ∧ ValidUTF8 (Domain (h_Context h)) = true ∧ ValidUTF8 (CSession (h_Context h)) = true ∧ ValidUTF8 (CFence (h_Context h)) = true.

Section Facts.
Context {C : Crypto} (chunk : nat) (chunk_pos : (0 < chunk)%nat).

Section RoundTrip.
Context (open_seal : ∀ k n p a, gcmOpen k n (gcmSeal k n p a) a = Some p)
        (overhead : ∀ k n p a, String.length (gcmSeal k n p a) = (String.length p + gcmOverhead)%nat)
        (json : ∀ h b, headerText h → marshal h = Some b → unmarshal b = Some h).

Lemma open_sealLoop fk prefix fuel : ∀ fuel' i rest, (String.length rest < fuel)%nat → (String.length (sealLoop chunk fuel fk prefix i rest) < fuel')%nat →
  openLoop chunk fuel' fk prefix i (sealLoop chunk fuel fk prefix i rest) = Some rest.
Proof using open_seal overhead chunk_pos.
  induction fuel as [|fuel IH]; intros [|fuel'] i rest Hf Hf'; try lia. cbn [sealLoop openLoop] in *. rewrite (last_iff chunk rest) in Hf' |- * by done.
  case_bool_decide as Hl.
  - set (c := gcmSeal _ _ _ _) in *. rewrite last_iff by lia.
    assert (String.length c = (String.length rest + gcmOverhead)%nat) as Hc.
    { unfold c. rewrite overhead, str_take_all by done. done. }
    rewrite bool_decide_eq_true_2 by lia. rewrite str_take_all by lia. unfold c. rewrite open_seal. by rewrite str_take_all.
  - set (c := gcmSeal _ _ _ _) in *. set (cs := sealLoop _ _ _ _ _ _) in *. rewrite last_iff by lia.
    assert (String.length c = (chunk + gcmOverhead)%nat) as Hc.
    { unfold c. rewrite overhead, str_length_take. lia. }
    assert (0 < String.length cs)%nat as Hcs.
    { unfold cs. destruct fuel as [|fuel]; [lia|]. cbn [sealLoop]. destruct (_ || _); rewrite ?str_length_app, overhead; unfold gcmOverhead; lia. }
    rewrite str_length_app in Hf' |- *. rewrite bool_decide_eq_false_2 by lia.
    rewrite str_take_app_eq, str_drop_app_eq by done. unfold c at 1. rewrite open_seal. unfold cs. rewrite IH.
    + cbn. by rewrite str_take_drop.
    + rewrite str_length_drop. lia.
    + fold cs. unfold gcmOverhead in Hc. lia.
Qed.

(** The header a file was sealed with. *)
Definition withSalt (salt : string) (h : sealHeader) : sealHeader := mkHeader (h_Key h) salt (h_Context h) (h_Wrap h).

Lemma openFile_sealFile salt src dk name h c keyFor :
  sealFile chunk salt src dk name h = inl c → headerText h → (∀ b, marshal (withSalt salt h) = Some b → (N.of_nat (String.length b) ≤ 65536)%N) →
  keyFor (withSalt salt h) = inl dk → openFile chunk c name keyFor = inl (withSalt salt h, src).
Proof using open_seal overhead json chunk_pos.
  intros H Htext Hsmall Hk. unfold sealFile in H. fold (withSalt salt h) in H. destruct (marshal (withSalt salt h)) as [hb|] eqn:Em; [|done]. cbv zeta in H.
  match type of H with inl ?x = _ => assert (c = x) as -> by congruence end. clear H. unfold openFile. rewrite (readSealHeader_prefix (withSalt salt h)) by eauto. rewrite Hk. change (h_Salt (withSalt salt h)) with salt.
  cbv zeta. rewrite open_sealLoop by lia. done.
Qed.

Lemma openDir_sealDir keyFor dk h files : ∀ salts cs, length salts = length files → files ≠ [] →
  sealDirWith chunk salts files dk h = inl cs → headerText h →
  (∀ salt b, salt ∈ salts → marshal (withSalt salt h) = Some b → (N.of_nat (String.length b) ≤ 65536)%N) →
  (∀ salt, keyFor (withSalt salt h) = inl dk) →
  openDirWith chunk cs keyFor = inl (h_Context h, files).
Proof using open_seal overhead json chunk_pos.
  intros salts cs Hl Hne H Htext Hsmall Hk. unfold openDirWith.
  assert (∀ got, (got = None ∨ got = Some (h_Context h)) →
    openLoopDir chunk keyFor got cs = inl (match files with [] => got | _ => Some (h_Context h) end, files)) as Hloop.
  { clear Hne. revert salts cs Hl H Hsmall. induction files as [|[n src] files IH]; intros [|salt salts] cs Hl H Hsmall got Hg; try done.
    { by injection H as <-. }
    cbn [sealDirWith] in H. destruct (sealFile _ _ _ _ _ _) as [c|] eqn:Ec; [|done].
    destruct (sealDirWith _ _ _ _ _) as [cs'|] eqn:Es; [|done]. assert (cs = (n, c) :: cs') as -> by congruence. cbn [openLoopDir].
    rewrite (openFile_sealFile salt src dk n h c keyFor Ec) by (try (intros; eapply Hsmall; [by left|]); eauto).
    assert (match got with Some g => negb (sameSealContext g (h_Context (withSalt salt h))) | None => false end = false) as ->.
    { destruct Hg as [->| ->]; [done|]. unfold sameSealContext. cbn. rewrite !bool_decide_eq_true_2 by done. unfold Time.Equal. by rewrite Z.eqb_refl. }
    injection Hl as Hl. rewrite (IH salts cs' Hl Es) by (auto; intros ??? ; eapply Hsmall; by right). by destruct files. }
  rewrite Hloop by auto. by destruct files.
Qed.
End RoundTrip.

(** ** Integrity *)

(** A call of sealFile: the key, the name, the header with its salt, the bytes. *)
Record sealedFile := mkSealed { sf_dk : string; sf_name : string; sf_header : sealHeader; sf_plain : string }.
Definition fileKeyOf (f : sealedFile) : string := fileAEAD (sf_dk f) (sf_name f) (h_Salt (sf_header f)).
(** The chunks of a plaintext. *)
Definition chunksOf (f : sealedFile) : list (N * bool * string) := chunksFrom chunk (S (String.length (sf_plain f))) 0 (sf_plain f).

Lemma str_drop_drop a b (s : string) : str_drop a (str_drop b s) = str_drop (b + a) s.
Proof. clear. revert s. induction b as [|b IH]; intros s; [done|]. destruct s as [|c s]; [by destruct a|]. apply IH. Qed.

Lemma chunksFrom_spec fuel : ∀ i rest j last p, (String.length rest < fuel)%nat → (i + N.of_nat (String.length rest) < U64.modulus)%N →
  (j, last, p) ∈ chunksFrom chunk fuel i rest →
  let off := (N.to_nat (j - i) * chunk)%nat in
  (i ≤ j)%N ∧ (j < U64.modulus)%N ∧ (j = i ∨ (off < String.length rest)%nat) ∧
  p = str_take chunk (str_drop off rest) ∧ last = bool_decide (String.length rest - off ≤ chunk)%nat.
Proof using chunk_pos.
  induction fuel as [|fuel IH]; intros i rest j last p Hf Hi Hin; [lia|]. cbn [chunksFrom] in Hin.
  rewrite (last_iff chunk rest) in Hin by done. apply elem_of_cons in Hin as [Hin|Hin].
  - injection Hin as -> -> ->. cbv zeta. rewrite N.sub_diag. cbn [N.to_nat Nat.mul str_drop]. rewrite Nat.sub_0_r.
    split; [lia|]. split; [lia|]. split; [by left|]. by destruct rest.
  - case_bool_decide as Hl; [by apply elem_of_nil in Hin|].
    assert (U64.succ i = (i + 1)%N) as Es by (apply U64.succ_small; unfold U64.max, U64.modulus in *; lia). rewrite Es in Hin.
    apply IH in Hin; [|rewrite str_length_drop; lia|rewrite str_length_drop; lia].
    cbv zeta in Hin |- *. rewrite str_length_drop, str_drop_drop in Hin. destruct Hin as (H1 & H2 & H3 & H4 & H5).
    replace (N.to_nat (j - i) * chunk)%nat with (chunk + N.to_nat (j - (i + 1)) * chunk)%nat by (replace (j - i)%N with (N.succ (j - (i + 1)))%N by lia; rewrite N2Nat.inj_succ; lia).
    split; [lia|]. split; [done|]. split; [right; destruct H3 as [->|H3]; [rewrite N.sub_diag; cbn; lia|lia]|]. split; [done|].
    rewrite H5. apply bool_decide_ext. lia.
Qed.

Section Auth.
(** The honest calls of sealFile. *)
Context (log : list sealedFile) (secret : string → Prop).
Context (hkdf_inj : ∀ s a i s' a' i', String.length a = String.length a' → hkdf s a i = hkdf s' a' i' → s = s' ∧ a = a' ∧ i = i')
        (json : ∀ h b, headerText h → marshal h = Some b → unmarshal b = Some h)
        (texts : ∀ f, f ∈ log → headerText (sf_header f))
        (saltLen : ∀ f, f ∈ log → String.length (h_Salt (sf_header f)) = 32)
        (small : ∀ f, f ∈ log → (N.of_nat (String.length (sf_plain f)) < 2 ^ 63)%N)
        (salts : ∀ f g, f ∈ log → g ∈ log → h_Salt (sf_header f) = h_Salt (sf_header g) → f = g)
        (unforgeable : ∀ dk name salt n c a p, secret dk → gcmOpen (fileAEAD dk name salt) n c a = Some p →
           ∃ f hb i last, f ∈ log ∧ fileKeyOf f = fileAEAD dk name salt ∧ marshal (sf_header f) = Some hb ∧ a = prefixOf hb ∧
             n = chunkNonce i last ∧ (i, last, p) ∈ chunksOf f).

Lemma fileKey_inj f dk name salt : String.length (h_Salt (sf_header f)) = String.length salt →
  fileKeyOf f = fileAEAD dk name salt → sf_dk f = dk ∧ sf_name f = name ∧ h_Salt (sf_header f) = salt.
Proof using hkdf_inj. intros Hl (E1 & E2 & E3)%hkdf_inj; [|done]. by apply str_app_inj_r in E3. Qed.

(** A stream that opens is the rest of one sealed file. *)
Lemma openLoop_authentic dk name salt prefix fuel : secret dk → ∀ i rest plain, (i < U64.modulus)%N →
  openLoop chunk fuel (fileAEAD dk name salt) prefix i rest = Some plain →
  ∃ f hb, f ∈ log ∧ fileKeyOf f = fileAEAD dk name salt ∧ marshal (sf_header f) = Some hb ∧ prefix = prefixOf hb ∧
    plain = str_drop (N.to_nat i * chunk) (sf_plain f).
Proof using hkdf_inj salts saltLen unforgeable chunk_pos small.
  intros Hs. induction fuel as [|fuel IH]; intros i rest plain Hi H; [done|]. cbn [openLoop] in H.
  rewrite (last_iff (chunk + gcmOverhead) rest) in H by lia. destruct (gcmOpen _ _ _ _) as [p|] eqn:Eo; [|done].
  destruct (unforgeable _ _ _ _ _ _ _ Hs Eo) as (f & hb & j & last & Hf & Hk & Hm & Hp & Hn & Hin). exists f, hb. split_and!; try done.
  pose proof (small f Hf) as Hlen. apply chunksFrom_spec in Hin; [|lia|unfold U64.modulus; lia]. cbv zeta in Hin.
  rewrite N.sub_0_r in Hin. destruct Hin as (_ & Hj & Hoff & Hpp & Hlast).
  apply chunkNonce_inj in Hn as [<- Hl]; [|done..]. rewrite <- Hl in Hlast. case_bool_decide as Hr.
  - injection H as <-. symmetry in Hlast. apply bool_decide_eq_true_1 in Hlast. rewrite Hpp. apply str_take_all. rewrite str_length_drop. lia.
  - symmetry in Hlast. apply bool_decide_eq_false_1 in Hlast. assert (i < 2 ^ 63)%N as Hi63 by nia.
    assert (U64.succ i = (i + 1)%N) as Es by (apply U64.succ_small; unfold U64.max; lia). rewrite Es in H.
    destruct (openLoop _ _ _ _ _ _) as [q|] eqn:Eq; [|done]. cbn in H. injection H as <-.
    apply IH in Eq as (g & hb' & Hg & Hkg & _ & _ & ->); [|unfold U64.modulus; lia].
    assert (g = f) as ->.
    { apply salts; [done..|]. apply (fileKey_inj g (sf_dk f) (sf_name f)); [by rewrite !saltLen|]. by rewrite Hkg, <- Hk. }
    rewrite Hpp. replace (N.to_nat (i + 1) * chunk)%nat with (N.to_nat i * chunk + chunk)%nat by lia. rewrite <- str_drop_drop. apply str_take_drop.
Qed.

Lemma openFile_authentic src name keyFor h plain : (∀ h dk, keyFor h = inl dk → secret dk) →
  openFile chunk src name keyFor = inl (h, plain) →
  ∃ f, f ∈ log ∧ keyFor h = inl (sf_dk f) ∧ sf_name f = name ∧ sf_header f = h ∧ sf_plain f = plain.
Proof using hkdf_inj salts saltLen texts unforgeable chunk_pos small json.
  intros Hsec H. unfold openFile in H. destruct (readSealHeader src) as [[[h' prefix] r]|] eqn:Er; [|done].
  destruct (keyFor h') as [dk|] eqn:Ek; [|done]. destruct (openLoop _ _ _ _ _ _) as [p|] eqn:Eo; [|done]. injection H as -> ->.
  apply openLoop_authentic in Eo as (f & hb & Hf & Hk & Hm & Hp & Hplain); [|by eapply Hsec|done].
  apply readSealHeader_inv in Er as (hb' & Hu & Hp'). rewrite Hp' in Hp. apply prefixOf_inj in Hp as ->.
  apply json in Hm; [|by apply texts]. assert (sf_header f = h) as Hh by congruence.
  apply fileKey_inj in Hk as (Hdk & Hname & _); [|by rewrite Hh]. exists f. by split_and!; [|rewrite Hdk| | |rewrite Hplain].
Qed.

Lemma openDir_authentic keyFor files : (∀ h dk, keyFor h = inl dk → secret dk) → ∀ c ps, openDirWith chunk files keyFor = inl (c, ps) →
  files ≠ [] ∧ ps.*1 = files.*1 ∧
  (∃ h dk, keyFor h = inl dk ∧ h_Context h = c) ∧
  ∀ n p, (n, p) ∈ ps → ∃ f, f ∈ log ∧ keyFor (sf_header f) = inl (sf_dk f) ∧ sf_name f = n ∧ sf_plain f = p ∧
     sameSealContext (h_Context (sf_header f)) c = true.
Proof using hkdf_inj salts saltLen texts unforgeable chunk_pos small json.
  intros Hsec c ps H. unfold openDirWith in H. destruct (openLoopDir _ _ None files) as [[[g|] qs]|] eqn:E; try done. injection H as -> ->.
  assert (∀ files got g ps, openLoopDir chunk keyFor got files = inl (g, ps) →
    ps.*1 = files.*1 ∧ match g with None => got = None ∧ files = [] | Some c =>
      match files with [] => got = Some c | _ => ∃ h dk, keyFor h = inl dk ∧ h_Context h = c end ∧
      (∀ g0, got = Some g0 → sameSealContext g0 c = true) ∧
      ∀ n p, (n, p) ∈ ps → ∃ f, f ∈ log ∧ keyFor (sf_header f) = inl (sf_dk f) ∧ sf_name f = n ∧ sf_plain f = p ∧ sameSealContext (h_Context (sf_header f)) c = true end) as Hloop.
  { clear -hkdf_inj salts saltLen texts unforgeable chunk_pos small json Hsec. induction files as [|[n src] files IH]; intros got g ps H; cbn [openLoopDir] in H.
    - injection H as <- <-. split; [done|]. destruct got as [g0|]; [|done]. split; [done|]. split; [intros ? [= ->]; apply sameSealContext_refl|by intros ?? ?%elem_of_nil].
    - destruct (openFile _ _ _ _) as [[h p]|] eqn:Eo; [|done]. destruct (match got with Some _ => _ | None => _ end) eqn:Eg; [done|].
      destruct (openLoopDir _ _ _ files) as [[g' qs]|] eqn:El; [|done]. injection H as -> <-.
      apply openFile_authentic in Eo as (f & Hf & Hk & Hn & Hh & Hp); [|done]. apply IH in El as (Hfst & Hrest). cbn [fmap list_fmap fst]. split; [by rewrite <- Hfst|].
      destruct g as [c|]; [|by destruct Hrest]. destruct Hrest as (Hc & Hsame & Hps). pose proof (Hsame _ eq_refl) as Hhc. split; [|split].
      + destruct files; [|done]. injection Hc as <-. eauto.
      + intros g0 ->. apply negb_false_iff in Eg. by eapply sameSealContext_trans.
      + intros n' p' [[= -> ->]|Hin]%elem_of_cons; [|by apply Hps]. exists f. rewrite Hh. done. }
  destruct (Hloop _ _ _ _ E) as (Hfst & Hc & _ & Hps). destruct files as [|x files]; [done|]. done.
Qed.
End Auth.
End Facts.

(** ** The claims *)

(** What AES-GCM, HPKE and, of valid UTF-8, encoding/json promise. *)
Class CryptoLaws (C : Crypto) : Prop := {
  law_open_seal : ∀ k n p a, gcmOpen k n (gcmSeal k n p a) a = Some p;
  law_overhead : ∀ k n p a, String.length (gcmSeal k n p a) = (String.length p + gcmOverhead)%nat;
  law_json : ∀ h b, headerText h → marshal h = Some b → unmarshal b = Some h;
  law_hpke : ∀ r priv info p, let ew := hpkeSeal r (x25519Public priv) info p in hpkeOpen priv ew.1 info ew.2 = Some p }.

(** A header of text whose JSON, with any of these salts, is at most the 64 KiB
    that the reader takes. *)
Definition headerFits `{Crypto} (salts : list string) (h : sealHeader) : Prop :=
  headerText h ∧ ∀ salt b, salt ∈ salts → marshal (withSalt salt h) = Some b → (N.of_nat (String.length b) ≤ 65536)%N.

(** C21: what is sealed opens to the same bytes.  Under what AES-GCM, HPKE and
    JSON promise, where the header's key ID, domain, session and fence are valid
    UTF-8 (JSON replaces other bytes) and its JSON is at most 64 KiB, for every
    size of chunk, file sizes of zero and of exact multiples of a chunk included: a directory SealDir sealed for a domain and
    a session opens, before its expiry, to its context and every file byte for
    byte; a directory SealParentDir sealed as a checkpoint opens as that
    checkpoint; and a tar SealImages sealed to the public key derived from a
    master opens under that master with what SealImages returned. *)
Theorem seal_round_trip (C : Crypto) (L : CryptoLaws C) (chunk : nat) (k : SealKey) (salts : list string) (files : list (string * string)) :
  (0 < chunk)%nat → length salts = length files → files ≠ [] →
  (∀ c sealed now, SealDir chunk salts files (Some k) c = inl sealed → headerFits salts (mkHeader (sk_ID k) "" c None) →
     Time.Before now (Expires c) = true → OpenDir chunk sealed (Some k) (Domain c) (CSession c) now = inl (c, files)) ∧
  (∀ sha sealed, SealParentDir chunk salts files (Some k) sha = inl sealed → headerFits salts (mkHeader (sk_ID k) "" (ParentContext sha) None) →
     OpenParentDir chunk sealed (Some k) sha = inl files) ∧
  (∀ ck salt random src s sealed, String.length ck = 32 → checkSHA256Hex (sha256hex src) = true →
     SealImages chunk ck salt random src src (Public (DeriveWrapKey k)) = inl (s, sealed) →
     headerFits [salt] (mkHeader (is_KeyID s) "" (imagesContext (is_SHA256 s)) (Some (mkWrap (is_Enc s) (is_Wrapped s)))) →
     OpenImages chunk sealed (Some k) s = inl src).
Proof.
  intros Hc Hl Hne. split; [|split].
  - intros c sealed now H Hfit Hnow. unfold SealDir in H. destruct (Time.IsZero _) eqn:Ez; [done|]. unfold OpenDir.
    eapply (openDir_sealDir chunk Hc law_open_seal law_overhead law_json (deltaKeyFor k (Domain c) (CSession c) now)) in H; [exact H|done|done|exact (proj1 Hfit)|exact (proj2 Hfit)|].
    intros salt. unfold deltaKeyFor. cbn. rewrite !bool_decide_eq_true_2 by done. cbn. by rewrite Ez, Hnow.
  - intros sha sealed H Hfit. unfold SealParentDir in H. unfold OpenParentDir. destruct (negb (checkSHA256Hex sha)); [done|].
    eapply (openDir_sealDir chunk Hc law_open_seal law_overhead law_json (parentKeyFor k sha)) in H; [by rewrite H|done|done|exact (proj1 Hfit)|exact (proj2 Hfit)|].
    intros salt. unfold parentKeyFor. cbn [h_Key withSalt h_Wrap h_Context]. rewrite bool_decide_eq_true_2 by done. by rewrite sameSealContext_refl.
  - intros ck salt random src s sealed Hck Hsha H Hfit. unfold SealImages in H. cbn [Public wp_ID wp_pub] in H.
    set (w := DeriveWrapKey k) in *. pose proof (law_hpke random (wk_priv w) (imagesInfo (wk_ID w) (sha256hex src)) ck) as Hh. cbv zeta in Hh.
    destruct (hpkeSeal _ _ _ _) as [enc wrapped]. destruct (sealFile _ _ _ _ _ _) as [c|] eqn:Es; [|done].
    rewrite bool_decide_eq_true_2 in H by done. cbn [negb] in H. injection H as <- <-. cbn [is_KeyID is_Enc is_Wrapped is_SHA256] in Hfit.
    unfold OpenImages. fold w. cbn [is_KeyID is_SHA256]. rewrite Hsha, bool_decide_eq_true_2 by done. cbn [negb].
    rewrite (openFile_sealFile chunk Hc law_open_seal law_overhead law_json salt src ck fileImages _ c (imagesKeyFor w (mkImages (wk_ID w) enc wrapped (sha256hex src))) Es).
    + by rewrite bool_decide_eq_true_2.
    + exact (proj1 Hfit).
    + intros b. apply (proj2 Hfit). by left.
    + unfold imagesKeyFor. cbn [h_Key withSalt h_Wrap h_Context is_KeyID is_SHA256 is_Enc is_Wrapped w_Enc w_Wrapped]. cbn [fst snd] in Hh.
      rewrite !bool_decide_eq_true_2 by done. rewrite sameSealContext_refl. cbn [negb orb]. by rewrite Hh, Hck.
Qed.

(** Who has sealed what under a master: keys derived with salts of one length do
    not collide (HMAC pads a shorter key), headers are of text, a salt of 32
    bytes is drawn per file, and no chunk opens under a delta key but one that
    was sealed. *)
Record honest `{Crypto} (chunk : nat) (log : list sealedFile) (k : SealKey) : Prop := mkHonest {
  hn_hkdf : ∀ s a i s' a' i', String.length a = String.length a' → hkdf s a i = hkdf s' a' i' → s = s' ∧ a = a' ∧ i = i';
  hn_json : ∀ h b, headerText h → marshal h = Some b → unmarshal b = Some h;
  hn_text : ∀ f, f ∈ log → headerText (sf_header f);
  hn_saltLen : ∀ f, f ∈ log → String.length (h_Salt (sf_header f)) = 32;
  hn_small : ∀ f, f ∈ log → (N.of_nat (String.length (sf_plain f)) < 2 ^ 63)%N;
  hn_salts : ∀ f g, f ∈ log → g ∈ log → h_Salt (sf_header f) = h_Salt (sf_header g) → f = g;
  hn_unforgeable : ∀ dk name salt n c a p, (∃ domain, dk = deltaKey k domain) → gcmOpen (fileAEAD dk name salt) n c a = Some p →
    ∃ f hb i last, f ∈ log ∧ fileKeyOf f = fileAEAD dk name salt ∧ marshal (sf_header f) = Some hb ∧ a = prefixOf hb ∧
      n = chunkNonce i last ∧ (i, last, p) ∈ chunksOf chunk f }.

Lemma deltaKeyFor_inv `{Crypto} k domain session now h dk : deltaKeyFor k domain session now h = inl dk →
  dk = deltaKey k domain ∧ h_Key h = sk_ID k ∧ h_Wrap h = None ∧ Domain (h_Context h) = domain ∧ CSession (h_Context h) = session ∧
  Time.IsZero (Expires (h_Context h)) = false ∧ Time.Before now (Expires (h_Context h)) = true.
Proof. unfold deltaKeyFor. intros. case_all. breflect. destruct (h_Wrap h); [done|]. done. Qed.

(** A parent's files are sealed under no delta's key, whatever the domain. *)
Lemma kinds_apart `{Crypto} (k : SealKey) domain sha :
  (∀ s a i s' a' i', String.length a = String.length a' → hkdf s a i = hkdf s' a' i' → s = s' ∧ a = a' ∧ i = i') → deltaKey k domain ≠ parentKey k sha.
Proof. intros Hh (_ & _ & E)%Hh; [|done]. by injection E. Qed.

(** C20: an opened delta is one that was sealed, whole.  If no chunk opens under
    a key of the master but one that was sealed under it (AES-GCM is
    unforgeable), keys derived with salts of the same length do not collide,
    every file drew its own salt of 32 bytes and every header sealed is of valid
    UTF-8, so that its JSON reads back (JSON replaces other bytes): then whatever bytes a registry hands back, when OpenDir accepts them each
    file is, byte for byte, a file that was sealed under the same name for this
    very domain and session and, all of them, for the one context OpenDir
    returns, which has not expired.  No chunk can be dropped, cut off,
    reordered or moved between files, no file renamed, and nothing sealed as a
    parent or for another domain or session opens. *)
Theorem opened_delta_was_sealed (C : Crypto) (chunk : nat) (log : list sealedFile) (k : SealKey) domain session now files c ps :
  (0 < chunk)%nat → honest chunk log k → OpenDir chunk files (Some k) domain session now = inl (c, ps) →
  Domain c = domain ∧ CSession c = session ∧ Time.Before now (Expires c) = true ∧ files ≠ [] ∧ ps.*1 = files.*1 ∧
  ∀ n p, (n, p) ∈ ps → ∃ f, f ∈ log ∧ sf_name f = n ∧ sf_plain f = p ∧ h_Context (sf_header f) = c ∧
    sf_dk f = deltaKey k domain ∧ (∀ sha, sf_dk f ≠ parentKey k sha) ∧ h_Key (sf_header f) = sk_ID k ∧ h_Wrap (sf_header f) = None.
Proof.
  intros Hc [Hh Hj Ht Hlen Hs Hsalt Hu] H. unfold OpenDir in H.
  apply (openDir_authentic chunk Hc log (λ dk, ∃ d, dk = deltaKey k d) Hh Hj Ht Hlen Hs Hsalt Hu) in H as (Hne & Hfst & (h & dk & Hk & <-) & Hps).
  2: { intros h dk (-> & _)%deltaKeyFor_inv. eauto. }
  apply deltaKeyFor_inv in Hk as (-> & _ & _ & Hd & Hss & _ & Hb). split_and!; try done.
  intros n p (f & Hf & Hkf & Hn & Hp & Hsame)%Hps. apply deltaKeyFor_inv in Hkf as (Hdk & HK & Hw & _).
  apply sameSealContext_eq in Hsame. exists f. split_and!; try done. intros sha. rewrite Hdk. by apply kinds_apart.
Qed.

(** ** A small instance *)

Definition toyHkdf (s a i : string) : string := hexEncode s +:+ String "." (hexEncode a +:+ String "." (hexEncode i)).
Definition toyKey : SealKey := mkSealKey "kid" "master".
Definition toyContext : SealContext := mkContext "d" "s" "g-1/1/1" 100%Z.
Definition toySalt : string := "0123456789abcdef0123456789abcdef".
Definition toyHeader : sealHeader := mkHeader "kid" toySalt toyContext None.
Definition toyImages : sealHeader := mkHeader "pub" toySalt (imagesContext (String.concat "" (replicate 64 "a"))) (Some (mkWrap "r" (String.concat "" (replicate 32 "k")))).
Definition toyMarshal (h : sealHeader) : option string := if h ==? toyHeader then Some "h" else if h ==? toyImages then Some "i" else None.
Definition toyUnmarshal (b : string) : option sealHeader := if b ==? "h" then Some toyHeader else if b ==? "i" then Some toyImages else None.
Definition toyTag : string := "0123456789abcdef".

(** A cipher that keeps no secret but has the laws. *)
Definition clearCrypto : Crypto := {|
  hkdf := toyHkdf;
  gcmSeal _ _ p _ := p +:+ toyTag;
  gcmOpen _ _ c _ := Some (str_take (String.length c - 16) c);
  marshal := toyMarshal; unmarshal := toyUnmarshal;
  sha256hex _ := String.concat "" (replicate 64 "a");
  x25519Public s := s; kidOf _ := "pub";
  hpkeSeal r _ _ p := (r, p); hpkeOpen _ _ _ w := Some w |}.
Lemma clearLaws : CryptoLaws clearCrypto.
Proof.
  split.
  - intros. cbn. rewrite str_length_app. cbn [String.length toyTag]. replace (String.length p + 16 - 16) with (String.length p) by lia. by rewrite str_take_app.
  - intros. cbn. by rewrite str_length_app.
  - cbn. unfold toyMarshal, toyUnmarshal. intros h b _. case_bool_decide; [intros [= <-]; by subst|]. case_bool_decide; [|done]. intros [= <-]. by subst.
  - done.
Qed.

Definition toySealed : list (string * string) := match SealDir (C:=clearCrypto) 4 [toySalt; toySalt] [("a", "12345678"); ("b", "")] (Some toyKey) toyContext with inl l => l | inr _ => [] end.
Lemma seal_round_trip_witness : OpenDir (C:=clearCrypto) 4 toySealed (Some toyKey) "d" "s" 50%Z = inl (toyContext, [("a", "12345678"); ("b", "")]).
Proof.
  apply (proj1 (seal_round_trip clearCrypto clearLaws 4 toyKey [toySalt; toySalt] [("a", "12345678"); ("b", "")] ltac:(lia) eq_refl ltac:(done)) toyContext toySealed 50%Z).
  - vm_compute. reflexivity.
  - split; [by vm_compute|]. intros salt b _. cbn. unfold toyMarshal. case_bool_decide; [by intros [= <-]|]. case_bool_decide; [|done]. by intros [= <-].
  - reflexivity.
Defined.

(** A cipher that opens what one file's seal made, and nothing else. *)
Definition toyFile : sealedFile := mkSealed (toyHkdf "master" "" (infoDelta +:+ "d")) "pages" toyHeader "abcdef".
Definition toyFileKey : string := toyHkdf (sf_dk toyFile) toySalt "file:pages".
Definition lockedOpen (key n c a : string) : option string :=
  if (key ==? toyFileKey) && (a ==? prefixOf "h") then
    if (n ==? chunkNonce 0 false) && (c ==? "abcd" +:+ toyTag) then Some "abcd"
    else if (n ==? chunkNonce 1 true) && (c ==? "ef" +:+ toyTag) then Some "ef" else None
  else None.
Definition lockedCrypto : Crypto := {|
  hkdf := toyHkdf; gcmSeal _ _ p _ := p +:+ toyTag; gcmOpen := lockedOpen; marshal := toyMarshal; unmarshal := toyUnmarshal;
  sha256hex _ := ""; x25519Public s := s; kidOf _ := ""; hpkeSeal r _ _ p := (r, p); hpkeOpen _ _ _ w := Some w |}.

Lemma hexEncode_inj a b : hexEncode a = hexEncode b → a = b.
Proof. intros E. apply (f_equal hexDecode) in E. rewrite !hexDecode_hexEncode in E. congruence. Qed.
Lemma toyHkdf_inj s a i s' a' i' : toyHkdf s a i = toyHkdf s' a' i' → s = s' ∧ a = a' ∧ i = i'.
Proof.
  unfold toyHkdf. intros E. apply cut_first_inj in E as [E1%hexEncode_inj E]; [|by apply hexEncode_no_char..].
  apply cut_first_inj in E as [E2%hexEncode_inj E3%hexEncode_inj]; [done|by apply hexEncode_no_char..].
Qed.
Lemma toyHonest : honest (H:=lockedCrypto) 4 [toyFile] toyKey.
Proof.
  split.
  - intros. by apply toyHkdf_inj.
  - apply (@law_json clearCrypto clearLaws).
  - intros f ->%list_elem_of_singleton. by vm_compute.
  - intros f ->%list_elem_of_singleton. done.
  - intros f ->%list_elem_of_singleton. done.
  - by intros f g ->%list_elem_of_singleton ->%list_elem_of_singleton.
  - intros dk name salt n c a p _ H. change (lockedOpen (fileAEAD (C:=lockedCrypto) dk name salt) n c a = Some p) in H. unfold lockedOpen in H.
    destruct (_ && (a ==? _)) eqn:E1; [|done]. breflect. exists toyFile, "h".
    destruct (_ && (c ==? "abcd" +:+ toyTag)) eqn:E2; [|destruct (_ && (c ==? "ef" +:+ toyTag)) eqn:E3; [|done]]; breflect; injection H as <-.
    + exists 0%N, false. split_and!; [by left|match goal with H : fileAEAD _ _ _ = _ |- _ => rewrite H; reflexivity end|reflexivity|done|done|]. vm_compute. left.
    + exists 1%N, true. split_and!; [by left|match goal with H : fileAEAD _ _ _ = _ |- _ => rewrite H; reflexivity end|reflexivity|done|done|]. vm_compute. right. left.
Qed.
Definition toyStored : list (string * string) := [("pages", prefixOf "h" +:+ "abcd" +:+ toyTag +:+ "ef" +:+ toyTag)].
Lemma opened_delta_was_sealed_witness :
  OpenDir (C:=lockedCrypto) 4 toyStored (Some toyKey) "d" "s" 50%Z = inl (toyContext, [("pages", "abcdef")]) ∧
  ∃ f, f ∈ [toyFile] ∧ sf_plain f = "abcdef".
Proof.
  assert (OpenDir (C:=lockedCrypto) 4 toyStored (Some toyKey) "d" "s" 50%Z = inl (toyContext, [("pages", "abcdef")])) as H by (vm_compute; reflexivity).
  split; [exact H|].
  destruct (opened_delta_was_sealed lockedCrypto 4 [toyFile] toyKey "d" "s" 50%Z toyStored toyContext [("pages", "abcdef")] ltac:(lia) toyHonest H)
    as (_ & _ & _ & _ & _ & Hps). destruct (Hps "pages" "abcdef" ltac:(left)) as (f & Hf & _ & Hp & _). exists f. split; [exact Hf|exact Hp].
Defined.
(** Swapped chunks, a stream cut after its first chunk and another session do
    not open. *)
Example tampered_refused :
  OpenDir (C:=lockedCrypto) 4 [("pages", prefixOf "h" +:+ "ef" +:+ toyTag +:+ "abcd" +:+ toyTag)] (Some toyKey) "d" "s" 50%Z = inr ErrSealed ∧
  OpenDir (C:=lockedCrypto) 4 [("pages", prefixOf "h" +:+ "abcd" +:+ toyTag)] (Some toyKey) "d" "s" 50%Z = inr ErrSealed ∧
  OpenDir (C:=lockedCrypto) 4 toyStored (Some toyKey) "d" "t" 50%Z = inr ErrSealed ∧
  OpenDir (C:=lockedCrypto) 4 toyStored (Some toyKey) "d" "s" 100%Z = inr ErrExpired.
Proof. vm_compute. done. Qed.
