(* ===== verification/Parity.v ===== *)
(** * Platform parity (pkg/artifact/parity.go)

    The facts a checkpoint's pages assume, how strictly a home compares them,
    and the annotations they travel in. *)

From Stdlib Require Import Ascii.
From S2P Require Import Prelude GoLib GoText.
From stdpp Require Import options.

(** [type Platform struct] *)
Record Platform := mkPlatform { Arch : string; Kernel : string; Libc : string; Backend : string; Templates : string }.
#[global] Instance Platform_eq_dec : EqDecision Platform. Proof. solve_decision. Defined.

Definition AnnotationArch : string := "io.fiberd.arch".
Definition AnnotationKernel : string := "io.fiberd.kernel".
Definition AnnotationLibc : string := "io.fiberd.libc".
Definition AnnotationBackend : string := "io.fiberd.backend".
Definition AnnotationTemplates : string := "io.fiberd.templates".

Notation annotations := (gmap string string) (only parsing).
(** [m[k]] of a Go map *)
Definition ann (m : annotations) (k : string) : string := default "" (m !! k).

(** [func (p Platform) Annotate(m map[string]string)] *)
Definition Annotate (p : Platform) (m : annotations) : annotations :=
  let m := <[AnnotationLibc := Libc p]> (<[AnnotationKernel := Kernel p]> (<[AnnotationArch := Arch p]> m)) in
  let m := if Backend p <>? "" then <[AnnotationBackend := Backend p]> m else m in
  if Templates p <>? "" then <[AnnotationTemplates := Templates p]> m else m.

(** [func PlatformFromAnnotations(m) (Platform, bool)] *)
Definition PlatformFromAnnotations (m : annotations) : Platform * bool :=
  let p := mkPlatform (ann m AnnotationArch) (ann m AnnotationKernel) (ann m AnnotationLibc) (ann m AnnotationBackend) (ann m AnnotationTemplates) in
  (p, p <>? mkPlatform "" "" "" "" "").

(** [strings.IndexAny(s, "-+_")] and the slice before it *)
Fixpoint cutSuffixMark (s : string) : string :=
  match s with
  | "" => ""
  | String c s' => if (c ==? "-"%char) || (c ==? "+"%char) || (c ==? "_"%char) then "" else String c (cutSuffixMark s')
  end.
(** [func KernelSeries(release string) string]: strings.SplitN at the first two dots *)
Definition KernelSeries (release : string) : string :=
  match Cut "." release with
  | None => release
  | Some (major, rest) => major +:+ "." +:+ cutSuffixMark (match Cut "." rest with Some (minor, _) => minor | None => rest end)
  end.

Definition ParityExact : string := "exact".
Definition ParitySeries : string := "series".
Definition ParityOff : string := "off".
(** [type Parity struct] *)
Record Parity := mkParity { PKernel : string; PLibc : string }.
#[global] Instance Parity_eq_dec : EqDecision Parity. Proof. solve_decision. Defined.
Definition Strict : Parity := mkParity ParityExact ParityExact.

Inductive parityError := NotKeyLevel | BadKernel | BadLibc | ArchRequired | UnknownFact | ErrArch | ErrBackend | ErrTemplates | ErrKernel | ErrLibc.
#[global] Instance parityError_eq_dec : EqDecision parityError. Proof. solve_decision. Defined.

(** The loop of [ParseParity] over the list's entries. *)
Fixpoint parseFacts (kvs : list string) (p : Parity) : Parity + parityError :=
  match kvs with
  | [] => inl p
  | kv :: kvs' =>
      match Cut "=" (TrimSpace kv) with
      | None => inr NotKeyLevel
      | Some (k, v) =>
          if k ==? "kernel" then
            if (v <>? ParityExact) && (v <>? ParitySeries) && (v <>? ParityOff) then inr BadKernel else parseFacts kvs' (mkParity v (PLibc p))
          else if k ==? "libc" then
            if (v <>? ParityExact) && (v <>? ParityOff) then inr BadLibc else parseFacts kvs' (mkParity (PKernel p) v)
          else if k ==? "arch" then inr ArchRequired
          else inr UnknownFact
      end
  end.
(** [func ParseParity(s string) (Parity, error)] *)
Definition ParseParity (s : string) : Parity + parityError :=
  let t := TrimSpace s in
  if (t ==? "") || (t ==? "strict") then inl Strict
  else if t ==? "off" then inl (mkParity ParityOff ParityOff)
  else parseFacts (Split "," s) Strict.

(** [func (p Parity) String() string] *)
Definition ParityString (p : Parity) : string :=
  let k := if PKernel p ==? "" then ParityExact else PKernel p in
  let l := if PLibc p ==? "" then ParityExact else PLibc p in
  "kernel=" +:+ k +:+ ",libc=" +:+ l.

(** The switch of Check on the kernel's level, and its libc test. *)
Definition kernelDiffers (level host want : string) : bool :=
  if level ==? ParityOff then false
  else if level ==? ParitySeries then (want <>? "") && (KernelSeries want <>? KernelSeries host)
  else (want <>? "") && (want <>? host).
Definition libcDiffers (level host want : string) : bool := (level <>? ParityOff) && (want <>? "") && (want <>? host).
(** [func (p Parity) Check(host, want Platform) error] *)
Definition Check (p : Parity) (host want : Platform) : option parityError :=
  if (Arch want <>? "") && (Arch want <>? Arch host) then Some ErrArch
  else if (Backend want <>? "") && (Backend host <>? "") && (Backend want <>? Backend host) then Some ErrBackend
  else if (Templates want <>? "") && (Templates host <>? "") && (Templates want <>? Templates host) then Some ErrTemplates
  else if kernelDiffers (PKernel p) (Kernel host) (Kernel want) then Some ErrKernel
  else if libcDiffers (PLibc p) (Libc host) (Libc want) then Some ErrLibc
  else None.

(** ** What travels and what is compared *)

Lemma ann_insert m k v k' : ann (<[k := v]> m) k' = if bool_decide (k = k') then v else ann m k'.
Proof. unfold ann. case_bool_decide; subst; [by rewrite lookup_insert_eq|by rewrite lookup_insert_ne]. Qed.

(** A checkpoint's facts come back from its manifest, whatever else the
    manifest says, if no other backend or cache path was there. *)
Lemma Annotate_round_trip p m : ann m AnnotationBackend = "" → ann m AnnotationTemplates = "" →
  (PlatformFromAnnotations (Annotate p m)).1 = p.
Proof.
  intros Hb Ht. destruct p as [a k l b t]. unfold PlatformFromAnnotations, Annotate. cbn [fst Arch Kernel Libc Backend Templates].
  destruct (bool_decide_reflect (b = "")) as [->|], (bool_decide_reflect (t = "")) as [->|]; cbn [negb]; rewrite !ann_insert; cbn; by rewrite ?Hb, ?Ht.
Qed.

(** How strict a level is: a stricter one refuses whatever a looser one does. *)
Definition kernelRank (k : string) : nat := if k ==? ParityOff then 0 else if k ==? ParitySeries then 1 else 2.
Definition libcRank (l : string) : nat := if l ==? ParityOff then 0 else 1.

Lemma kernelDiffers_mono a b host want : (kernelRank b ≤ kernelRank a)%nat → kernelDiffers b host want = true → kernelDiffers a host want = true.
Proof.
  unfold kernelRank, kernelDiffers. destruct (b ==? ParityOff); [done|]. destruct (a ==? ParityOff); [destruct (b ==? ParitySeries); lia|].
  destruct (b ==? ParitySeries), (a ==? ParitySeries); intros Hr H; try done; [|lia]. breflect. rewrite !bool_decide_eq_false_2; [done|congruence..].
Qed.
Lemma libcDiffers_mono a b host want : (libcRank b ≤ libcRank a)%nat → libcDiffers b host want = true → libcDiffers a host want = true.
Proof. unfold libcRank, libcDiffers. destruct (b ==? ParityOff); [done|]. destruct (a ==? ParityOff); [lia|done]. Qed.
Lemma Check_monotone p q host want : (kernelRank (PKernel q) ≤ kernelRank (PKernel p))%nat → (libcRank (PLibc q) ≤ libcRank (PLibc p))%nat →
  Check p host want = None → Check q host want = None.
Proof.
  intros Hk Hl. pose proof (kernelDiffers_mono (PKernel p) (PKernel q) (Kernel host) (Kernel want) Hk) as Mk.
  pose proof (libcDiffers_mono (PLibc p) (PLibc q) (Libc host) (Libc want) Hl) as Ml. unfold Check.
  destruct (_ && (Arch want <>? Arch host)); [done|]. destruct (_ && (Backend want <>? Backend host)); [done|].
  destruct (_ && (Templates want <>? Templates host)); [done|].
  destruct (kernelDiffers (PKernel q) _ _); [by rewrite Mk|]. destruct (kernelDiffers (PKernel p) _ _); [done|].
  destruct (libcDiffers (PLibc q) _ _); [by rewrite Ml|done].
Qed.
Lemma ne_self (s : string) : (s <>? s) = false.
Proof. by rewrite bool_decide_eq_true_2. Qed.
(** A home can always restore what it made. *)
Lemma Check_self p host : Check p host host = None.
Proof. unfold Check, kernelDiffers, libcDiffers. rewrite !ne_self, !andb_false_r. by destruct (PKernel p ==? ParityOff), (PKernel p ==? ParitySeries). Qed.

(** The levels a flag can set. *)
Definition levelOK (p : Parity) : Prop := PKernel p ∈ [ParityExact; ParitySeries; ParityOff] ∧ PLibc p ∈ [ParityExact; ParityOff].
Lemma parseFacts_levels kvs : ∀ p q, levelOK p → parseFacts kvs p = inl q → levelOK q.
Proof.
  induction kvs as [|kv kvs IH]; intros p q Hp; cbn [parseFacts]; [by intros [= <-]|].
  destruct (Cut _ _) as [[k v]|]; [|done]. destruct (k ==? "kernel").
  - destruct (_ && _) eqn:E; [done|]. apply IH. destruct Hp as [_ Hl]. split; [|done]. cbn [PKernel].
    rewrite !elem_of_cons. apply andb_false_iff in E as [[E|E]%andb_false_iff|E]; breflect; auto.
  - destruct (k ==? "libc"); [|by destruct (k ==? "arch")]. destruct (_ && _) eqn:E; [done|]. apply IH. destruct Hp as [Hk _]. split; [done|]. cbn [PLibc].
    rewrite !elem_of_cons. apply andb_false_iff in E as [E|E]; breflect; auto.
Qed.
(** Whatever -parity parses to has known levels, and its text parses to it. *)
Lemma ParseParity_String s p : ParseParity s = inl p → levelOK p ∧ ParseParity (ParityString p) = inl p.
Proof.
  intros H. assert (levelOK p) as Hp.
  { unfold ParseParity in H. destruct (_ || _); [injection H as <-; split; apply (bool_decide_unpack _); by vm_compute|].
    destruct (_ ==? "off"); [injection H as <-; split; apply (bool_decide_unpack _); by vm_compute|].
    eapply parseFacts_levels; [|exact H]. split; apply (bool_decide_unpack _); by vm_compute. }
  split; [done|]. destruct p as [k l], Hp as [Hk Hl]. cbn [PKernel PLibc] in Hk, Hl.
  repeat match goal with H : _ ∈ _ :: _ |- _ => apply elem_of_cons in H as [->|H] | H : _ ∈ [] |- _ => by apply elem_of_nil in H end; reflexivity.
Qed.

Example kernel_series : KernelSeries "6.10.14-linuxkit" = "6.10" ∧ KernelSeries "6.8-rc1" = "6.8" ∧ KernelSeries "6" = "6".
Proof. done. Qed.
