(* ===== verification/Sign.v ===== *)
(** * Signed artifacts (pkg/artifact/sign.go, checks of pkg/runtime/host/mobility.go)

    A home signs the type, the annotations and the files of what it pushes, and
    takes only what a key it trusts has signed.  Ed25519, base64 and the JSON of
    the payload are operations of [Signing]. *)

From Stdlib Require Import Ascii.
From S2P Require Import Prelude GoLib GoText Parity Seal.
From stdpp Require Import options.

Definition AnnotationSignature : string := "io.fiberd.signature".
Definition AnnotationSigner : string := "io.fiberd.signer".
Definition AnnotationDomain : string := "io.fiberd.domain".
Definition AnnotationSession : string := "io.fiberd.session".
Definition AnnotationExpires : string := "io.fiberd.expires".
Definition AnnotationSealKey : string := "io.fiberd.seal_key".
Definition AnnotationParent : string := "io.fiberd.parent_sha256".
Definition AnnotationHome : string := "io.fiberd.home".
Definition AnnotationWBytes : string := "io.fiberd.w_bytes".
Definition ArtifactTypeDelta : string := "application/vnd.fiberd.delta.v1".
Definition ArtifactTypeParent : string := "application/vnd.fiberd.parent.v1".
Definition signingContext : string := "fiberd-artifact-v1" +:+ String (byte 10) "".

(** [type File struct] *)
Record File := mkFile { f_Name : string; f_Digest : string; f_Size : Z }.
#[global] Instance File_eq_dec : EqDecision File. Proof. solve_decision. Defined.
(** [type Located struct] *)
Record Located := mkLocated { l_Digest : string; l_Type : string; l_Ann : annotations; l_Files : list File }.

(** What a signature is over, before its JSON. *)
Record payload := mkPayload { p_Type : string; p_Ann : annotations; p_Files : list File }.

(** A JWK as far as the code looks at it: its kid, and its Ed25519 key if it
    is one, private or public. *)
Record edKey := mkEdKey { ek_kid : string; ek_priv : option string; ek_pub : option string }.

Class SigningOps := {
  edSign : string → string → string;           (* private key, message *)
  edVerify : string → string → string → bool;  (* public key, message, signature *)
  edPublic : string → string;
  b64 : string → string;
  unb64 : string → option string;
  payloadJSON : payload → string;
  parseRFC3339 : string → option Time.t }.

(** [type Keys struct] *)
Record Keys := mkKeys { Signer : option edKey; Trust : list edKey; KSeal : option SealKey }.

Inductive signError := ErrUntrusted | SExpired | SSealed | BadSigner.
#[global] Instance signError_eq_dec : EqDecision signError. Proof. solve_decision. Defined.

Definition fileLe (f g : File) : Prop := String.le (f_Name f) (f_Name g).
#[global] Instance fileLe_dec : RelDecision fileLe.
Proof. intros f g. unfold fileLe. apply _. Defined.

#[global] Instance fileLe_total : Total fileLe.
Proof. intros f g. unfold fileLe. apply (total String.le). Qed.
#[global] Instance fileLe_trans : Transitive fileLe.
Proof. intros f g h. unfold fileLe. apply transitivity. Qed.

(** Files with different names sort to one list. *)
Lemma sort_files_perm (a b : list File) : NoDup (f_Name <$> a) → a ≡ₚ b → merge_sort fileLe a = merge_sort fileLe b.
Proof.
  intros Hn Hp. apply (Sorted_unique_strong fileLe); [|apply (Sorted_merge_sort fileLe)..|by rewrite !merge_sort_Permutation].
  intros f g Hf Hg H1 H2. rewrite merge_sort_Permutation in Hf, Hg. rewrite <- Hp in Hg.
  assert (f_Name f = f_Name g) as E by (apply (anti_symm String.le); done).
  apply list_elem_of_lookup in Hf as [i Hi], Hg as [j Hj]. assert (i = j) as ->; [|congruence].
  apply (NoDup_lookup _ i j (f_Name f) Hn); rewrite list_lookup_fmap; [by rewrite Hi|by rewrite Hj, E].
Qed.

Section Sign.
Context {S : SigningOps}.

(** [func signingPayload(artifactType, annotations, files) ([]byte, error)] *)
Definition payloadOf (t : string) (a : annotations) (files : list File) : payload :=
  mkPayload t (filter (λ kv, kv.1 ≠ AnnotationSignature) a) (merge_sort fileLe files).
Definition signingPayload (t : string) (a : annotations) (files : list File) : string :=
  signingContext +:+ payloadJSON (payloadOf t a files).

(** [func signed(signer, artifactType, annotations, files)] *)
Definition signed (signer : option edKey) (t : string) (a : annotations) (files : list File) : annotations + signError :=
  match signer with
  | None => inl a
  | Some s =>
      match ek_priv s with
      | None => inr BadSigner
      | Some priv =>
          if ek_kid s ==? "" then inr BadSigner
          else let out := <[AnnotationSigner := ek_kid s]> a in
               inl (<[AnnotationSignature := b64 (edSign priv (signingPayload t out files))]> out)
      end
  end.

(** The loop of [trusted]: the first key of the kid decides. *)
Fixpoint trustedIn (kid : string) (ts : list edKey) : option string :=
  match ts with [] => None | t :: ts' => if ek_kid t ==? kid then ek_pub t else trustedIn kid ts' end.
(** [func (k Keys) trusted(kid string) (ed25519.PublicKey, bool)] *)
Definition trusted (k : Keys) (kid : string) : option string :=
  match Signer k with
  | Some s => match ek_priv s with
              | Some priv => if ek_kid s ==? kid then Some (edPublic priv) else trustedIn kid (Trust k)
              | None => trustedIn kid (Trust k)
              end
  | None => trustedIn kid (Trust k)
  end.

(** [func (k Keys) verify(artifactType, annotations, files) error] *)
Definition verify (k : Keys) (t : string) (a : annotations) (files : list File) : option signError :=
  let sig := ann a AnnotationSignature in
  let kid := ann a AnnotationSigner in
  if (sig ==? "") || (kid ==? "") then Some ErrUntrusted
  else
    match trusted k kid with
    | None => Some ErrUntrusted
    | Some pub =>
        match unb64 sig with
        | None => Some ErrUntrusted
        | Some raw => if negb (edVerify pub (signingPayload t a files) raw) then Some ErrUntrusted else None
        end
    end.
(** [func (k Keys) Verify(loc Located) error] *)
Definition VerifyLocated (k : Keys) (loc : Located) : option signError := verify k (l_Type loc) (l_Ann loc) (l_Files loc).

(** [func checkSigned(ann, domain, session, now) error] *)
Definition checkSigned (a : annotations) (domain session : string) (now : Time.t) : option signError :=
  if (ann a AnnotationDomain <>? domain) || (ann a AnnotationSession <>? session) then Some ErrUntrusted
  else match parseRFC3339 (ann a AnnotationExpires) with
       | None => Some ErrUntrusted
       | Some exp => if negb (Time.Before now exp) then Some SExpired else None
       end.
(** [func checkParentSigned(ann, sha, k) error] *)
Definition checkParentSigned (a : annotations) (sha : string) (k : option SealKey) : option signError :=
  if ann a AnnotationParent <>? sha then Some ErrUntrusted
  else
    let kid := ann a AnnotationSealKey in
    if kid ==? "" then Some SSealed
    else match k with None => Some SSealed | Some k => if kid <>? sk_ID k then Some SSealed else None end.

(** ** What a signature binds *)

Context (unb64_b64 : ∀ s, unb64 (b64 s) = Some s) (b64_ne : ∀ p m, b64 (edSign p m) ≠ "")
        (ed_correct : ∀ priv m, edVerify (edPublic priv) m (edSign priv m) = true).


(** A signature of the artifact as pushed verifies, in whatever order its files
    are listed. *)
Lemma signed_verifies k s t a files files' out :
  Signer k = Some s → signed (Some s) t a files = inl out → NoDup (f_Name <$> files) → files ≡ₚ files' → verify k t out files' = None.
Proof using unb64_b64 b64_ne ed_correct.
  intros Hs H Hn Hp. unfold signed in H. destruct (ek_priv s) as [priv|] eqn:Ep; [|done]. destruct (ek_kid s ==? "") eqn:Ek; [done|]. injection H as <-.
  breflect. unfold verify. rewrite !ann_insert. rewrite (bool_decide_eq_true_2 (AnnotationSignature = AnnotationSignature)) by done.
  rewrite (bool_decide_eq_false_2 (AnnotationSignature = AnnotationSigner)) by done. rewrite (bool_decide_eq_true_2 (AnnotationSigner = AnnotationSigner)) by done.
  rewrite (bool_decide_eq_false_2 (b64 _ = "")) by apply b64_ne. rewrite (bool_decide_eq_false_2 (ek_kid s = "")) by done. cbn [orb].
  unfold trusted. rewrite Hs, Ep, bool_decide_eq_true_2, unb64_b64 by done.
  assert (∀ x, signingPayload t (<[AnnotationSignature := x]> (<[AnnotationSigner := ek_kid s]> a)) files' = signingPayload t (<[AnnotationSigner := ek_kid s]> a) files) as ->.
  { intros x. unfold signingPayload, payloadOf. f_equal. f_equal. f_equal; [|symmetry; by apply sort_files_perm].
    rewrite map_filter_insert_False by (cbn; congruence). by rewrite map_filter_delete_not by (intros ?? Hx; cbn in Hx; congruence). }
  by rewrite ed_correct.
Qed.

(** What a verified artifact was signed as: no key the home trusts is used but
    by its owner, and the JSON of two payloads of text differs. *)
Lemma verify_binds (log : list (string * payload)) (text : payload → Prop) k t a files :
  (∀ kid pub m raw, trusted k kid = Some pub → edVerify pub m raw = true → ∃ p, (pub, p) ∈ log ∧ m = signingContext +:+ payloadJSON p) →
  (∀ p q, text p → text q → payloadJSON p = payloadJSON q → p = q) → (∀ pub p, (pub, p) ∈ log → text p) → text (payloadOf t a files) →
  verify k t a files = None → ∃ pub, trusted k (ann a AnnotationSigner) = Some pub ∧ (pub, payloadOf t a files) ∈ log.
Proof using.
  intros Hu Hj Hl Ht H. unfold verify in H. destruct (_ || _); [done|]. destruct (trusted k _) as [pub|] eqn:Et; [|done].
  destruct (unb64 _) as [raw|]; [|done]. destruct (edVerify _ _ _) eqn:Ev; [|done]. exists pub. split; [done|].
  destruct (Hu _ _ _ _ Et Ev) as (p & Hp & E). unfold signingPayload in E. apply str_app_inj_r in E. apply Hj in E as ->; eauto.
Qed.
End Sign.
