(* ===== verification/Mobility.v ===== *)
(** * Sessions between homes (pkg/runtime/host/mobility_linux.go, Delete of pkg/artifact)

    [FindDelta] decides whether a home may take a session it finds.  The rest
    is the protocol over one session's tag: a home's calls as single registry
    steps, so that those of several homes can interleave.  Digests are numbers,
    a new one for every park, since the fence is part of what is hashed. *)

From Stdlib Require Import Ascii.
From S2P Require Import Prelude GoLib GoText Parity Seal Sign.
From stdpp Require Import options.

(** ** What a home may take *)

(** The part of [Config] that mobility reads. *)
Record mobilityConfig := mkMobility {
  DeltaRegistry : string; DeltaKeys : Keys; MParity : Parity; MHost : Platform;
  templateAt : string → bool;                     (* the grant's template is in that cache on this machine *)
  checkEngine : annotations → bool }.             (* the device engine fits *)

(** [func (c Config) checkDeltaRegistry() error] *)
Definition checkDeltaRegistry (c : mobilityConfig) : bool :=
  (DeltaRegistry c <>? "") && (match Signer (DeltaKeys c) with Some _ => true | None => false end) &&
  (match KSeal (DeltaKeys c) with Some _ => true | None => false end).

(** [type RemoteDelta struct] *)
Record RemoteDelta := mkRemote { rd_WBytes : N; rd_Home : string; rd_Handle : string }.
(** What FindDelta answers: nothing there, a store that failed, a delta that is
    not for this home with the home to prefer, one it may claim. *)
Inductive findResult := NoDelta | StoreFailed | Refused (preferred : string) | MayClaim (rd : RemoteDelta).

(** [func (r *Runtime) FindDelta(ctx, g, session)]; [loc] is what Resolve answers *)
Definition FindDelta `{SigningOps} (c : mobilityConfig) (domain session : string) (now : Time.t) (loc : option Located + unit) : findResult :=
  if negb (checkDeltaRegistry c) then NoDelta
  else
    match loc with
    | inr _ => StoreFailed
    | inl None => NoDelta
    | inl (Some loc) =>
        if l_Type loc <>? ArtifactTypeDelta then StoreFailed
        else if match VerifyLocated (DeltaKeys c) loc with Some _ => true | None => false end then Refused ""
        else if match checkSigned (l_Ann loc) domain session now with Some _ => true | None => false end then Refused ""
        else
          let w := match ParseUint (ann (l_Ann loc) AnnotationWBytes) with inl n => n | inr ErrRange => U64.max | inr ErrSyntax => 0%N end in
          let rd := mkRemote w (ann (l_Ann loc) AnnotationHome) (l_Digest loc) in
          let '(made, ok) := PlatformFromAnnotations (l_Ann loc) in
          let made := if (Templates made <>? Templates (MHost c)) && templateAt c (Templates made)
                      then mkPlatform (Arch made) (Kernel made) (Libc made) (Backend made) "" else made in
          if ok && (match Check (MParity c) (MHost c) made with Some _ => true | None => false end) then Refused (rd_Home rd)
          else if negb (checkEngine c (l_Ann loc)) then Refused (rd_Home rd)
          else MayClaim rd
    end.

(** ** The protocol over one tag *)

(** A local delta: what was parked, and the digest in its remote.json. *)
Record delta := mkDelta { d_id : N; d_rec : option N }.
(** Where a home is in a call. *)
Inductive pc := Idle | Resuming (d : delta) | Retiring (rec : option N) | RetireDelete | Found (d : N) | Pulled (d : N) | Checked (d : N).
Record home := mkHome { hm_local : option delta; hm_runs : bool; hm_pc : pc }.
Inductive event := Pushed (d : N) | Resumed (h : nat) (d : N) | Claimed (h : nat) (d : N) | Retired (h : nat) | Dropped (h : nat) (d : N).
Record world := mkWorld { mw_tag : option N; mw_blobs : gset N; mw_next : N; mw_homes : gmap nat home; mw_log : list event }.
#[global] Instance delta_eq_dec : EqDecision delta. Proof. solve_decision. Defined.
#[global] Instance event_eq_dec : EqDecision event. Proof. solve_decision. Defined.

Definition homeOf (w : world) (h : nat) : home := default (mkHome None false Idle) (mw_homes w !! h).
Definition setHome (h : nat) (x : home) (w : world) : world := mkWorld (mw_tag w) (mw_blobs w) (mw_next w) (<[h := x]> (mw_homes w)) (mw_log w).
Definition logEvent (e : event) (w : world) : world := mkWorld (mw_tag w) (mw_blobs w) (mw_next w) (mw_homes w) (mw_log w ++ [e]).

(** [artifact.Delete] of the tag: the registry hands it to exactly one deleter,
    and the manifest goes with it.  It takes the tag whatever it holds. *)
Definition Delete (w : world) : bool * world :=
  match mw_tag w with
  | None => (false, w)
  | Some d => (true, mkWorld None (mw_blobs w ∖ {[d]}) (mw_next w) (mw_homes w) (mw_log w))
  end.
(** [artifact.PushDir] to the tag *)
Definition push (w : world) : N * world :=
  let d := mw_next w in
  (d, mkWorld (Some d) (mw_blobs w ∪ {[d]}) (d + 1)%N (mw_homes w) (mw_log w ++ [Pushed d])).

(** A home creates the session fresh: nothing of it is here. *)
Definition startFresh (h : nat) (w : world) : world :=
  let x := homeOf w h in
  match hm_pc x, hm_local x with
  | Idle, None => setHome h (mkHome None true Idle) w
  | _, _ => w
  end.
(** A park of the running session and [PublishDelta] with its publish record. *)
Definition park (h : nat) (w : world) : world :=
  let x := homeOf w h in
  match hm_pc x, hm_runs x with
  | Idle, true => let '(d, w) := push w in setHome h (mkHome (Some (mkDelta d (Some d))) false Idle) w
  | _, _ => w
  end.
(** [Owned], asked when a parked session is cloned: resume it, or forget it. *)
Definition owned (h : nat) (w : world) : world :=
  let x := homeOf w h in
  match hm_pc x, hm_runs x, hm_local x with
  | Idle, false, Some d =>
      if match d_rec d with None => true | Some r => bool_decide (mw_tag w = Some r) end
      then setHome h (mkHome (Some d) false (Resuming d)) w
      else logEvent (Dropped h (d_id d)) (setHome h (mkHome None false Idle) w)
  | _, _, _ => w
  end.
(** The runtime's restore and the commit. *)
Definition resume (h : nat) (w : world) : world :=
  match hm_pc (homeOf w h) with
  | Resuming d => logEvent (Resumed h (d_id d)) (setHome h (mkHome None true (Retiring (d_rec d))) w)
  | _ => w
  end.
(** [RetireDelta]: the check, then the delete *)
Definition retireCheck (h : nat) (w : world) : world :=
  match hm_pc (homeOf w h) with
  | Retiring (Some r) => setHome h (mkHome None true (if bool_decide (mw_tag w = Some r) then RetireDelete else Idle)) w
  | Retiring None => setHome h (mkHome None true Idle) w
  | _ => w
  end.
Definition retireDelete (h : nat) (w : world) : world :=
  match hm_pc (homeOf w h) with
  | RetireDelete => let '(removed, w) := Delete w in (if removed : bool then logEvent (Retired h) else id) (setHome h (mkHome None true Idle) w)
  | _ => w
  end.
(** [FindDelta]'s Resolve, for a home that knows nothing of the session *)
Definition findTag (h : nat) (w : world) : world :=
  let x := homeOf w h in
  match hm_pc x, hm_runs x, hm_local x, mw_tag w with
  | Idle, false, None, Some d => setHome h (mkHome None false (Found d)) w
  | _, _, _, _ => w
  end.
(** The steps of [ClaimDelta]: the pull by digest, the check and the delete *)
Definition pull (h : nat) (w : world) : world :=
  match hm_pc (homeOf w h) with
  | Found d => setHome h (mkHome None false (if bool_decide (d ∈ mw_blobs w) then Pulled d else Idle)) w
  | _ => w
  end.
Definition checkTag (h : nat) (w : world) : world :=
  match hm_pc (homeOf w h) with
  | Pulled d => setHome h (mkHome None false (if bool_decide (mw_tag w = Some d) then Checked d else Idle)) w
  | _ => w
  end.
Definition claimTag (h : nat) (w : world) : world :=
  match hm_pc (homeOf w h) with
  | Checked d =>
      let '(removed, w) := Delete w in
      if removed : bool then logEvent (Claimed h d) (setHome h (mkHome (Some (mkDelta d None)) false Idle) w)
      else setHome h (mkHome None false Idle) w
  | _ => w
  end.

(** A call that fails on the way: a pull, a seal that does not open, a parent
    that is missing, a registry error.  A failed resume leaves the park here. *)
Definition giveUp (h : nat) (w : world) : world :=
  let x := homeOf w h in setHome h (mkHome (hm_local x) (hm_runs x) Idle) w.
(** [ReturnDelta]: a claimed copy whose resume failed is published again. *)
Definition returnDelta (h : nat) (w : world) : world :=
  let x := homeOf w h in
  match hm_pc x, hm_runs x, hm_local x with
  | Idle, false, Some (mkDelta _ None) => let '(d, w) := push w in setHome h (mkHome (Some (mkDelta d (Some d))) false Idle) w
  | _, _, _ => w
  end.

Inductive call := CGiveUp | CReturn | CStart | CPark | COwned | CResume | CRetireCheck | CRetireDelete | CFind | CPull | CCheck | CClaim.
Definition moveStep (a : nat * call) : world → world :=
  match a.2 with
  | CGiveUp => giveUp a.1 | CReturn => returnDelta a.1
  | CStart => startFresh a.1 | CPark => park a.1 | COwned => owned a.1 | CResume => resume a.1
  | CRetireCheck => retireCheck a.1 | CRetireDelete => retireDelete a.1
  | CFind => findTag a.1 | CPull => pull a.1 | CCheck => checkTag a.1 | CClaim => claimTag a.1
  end.
Definition moves (acts : list (nat * call)) (w : world) : world := foldl (λ w a, moveStep a w) w acts.
Definition nowhere : world := mkWorld None ∅ 1 ∅ [].

(** Whole calls: a park, and a Clone of the session that resumes it here,
    claims it from the registry or creates it. *)
Inductive wholeCall := WPark | WClone.
Definition wholeSteps (o : wholeCall) : list call :=
  match o with
  | WPark => [CPark]
  | WClone => [COwned; CResume; CRetireCheck; CRetireDelete; CFind; CPull; CCheck; CClaim; COwned; CResume; CRetireCheck; CRetireDelete; CStart]
  end.
Definition wholeStep (w : world) (a : nat * wholeCall) : world := moves ((λ c, (a.1, c)) <$> wholeSteps a.2) w.
Definition serial (ops : list (nat * wholeCall)) (w : world) : world := foldl wholeStep w ops.
