(* ===== verification/MobilityFacts.v ===== *)
(** * What moving a session guarantees

    Which deltas a home takes, that a publish is claimed once, that calls
    made one at a time use each park once, and where interleaved calls do not. *)

From S2P Require Import Prelude GoLib GoText Parity Seal Sign Mobility.
From stdpp Require Import options.

(** ** The claim is exclusive, in every interleaving *)



Lemma homeOf_set w h x k : homeOf (setHome h x w) k = if bool_decide (h = k) then x else homeOf w k.
Proof. unfold homeOf, setHome. cbn [mw_homes]. case_bool_decide; subst; [by rewrite lookup_insert_eq|by rewrite lookup_insert_ne]. Qed.


Lemma setHome_log h x e w : logEvent e (setHome h x w) = setHome h x (logEvent e w).
Proof. done. Qed.





(** ** One call at a time *)

Definition resumedOf (e : event) : option N := match e with Resumed _ d => Some d | _ => None end.
(** The parks that were resumed, in order. *)
Definition resumes (l : list event) : list N := omap resumedOf l.
Lemma resumes_snoc l e : resumes (l ++ [e]) = resumes l ++ option_list (resumedOf e).
Proof. unfold resumes. by rewrite omap_app. Qed.

Record serialOK (w : world) : Prop := mkSerial {
  so_idle : ∀ h, hm_pc (homeOf w h) = Idle;
  so_local : ∀ h d, hm_local (homeOf w h) = Some d → d_rec d = Some (d_id d) ∧ hm_runs (homeOf w h) = false;
  so_tag : ∀ n, mw_tag w = Some n → n ∈ mw_blobs w ∧ n ∉ resumes (mw_log w) ∧ (n < mw_next w)%N;
  so_once : NoDup (resumes (mw_log w)) ∧ ∀ n, n ∈ resumes (mw_log w) → (n < mw_next w)%N }.

(** What a whole clone does, by where the session is. *)
Definition cloneSteps (h : nat) : world → world := moves ((λ c, (h, c)) <$> wholeSteps WClone).
Definition findSteps (h : nat) : world → world :=
  moves ((λ c, (h, c)) <$> [CFind; CPull; CCheck; CClaim; COwned; CResume; CRetireCheck; CRetireDelete; CStart]).

Lemma homeOf_same w h x : homeOf (setHome h x w) h = x.
Proof. by rewrite homeOf_set, bool_decide_eq_true_2. Qed.
Ltac at_home := rewrite ?homeOf_same; cbn [hm_pc hm_runs hm_local d_rec d_id].

(** The first half of a clone: a session parked here. *)
Definition hereSteps (h : nat) (w : world) : world := retireDelete h (retireCheck h (resume h (owned h w))).
Lemma moves_app a b w : moves (a ++ b) w = moves b (moves a w).
Proof. apply foldl_app. Qed.
Lemma cloneSteps_halves h w : cloneSteps h w = findSteps h (hereSteps h w).
Proof.
  unfold cloneSteps. change (wholeSteps WClone) with ([COwned; CResume; CRetireCheck; CRetireDelete] ++ [CFind; CPull; CCheck; CClaim; COwned; CResume; CRetireCheck; CRetireDelete; CStart]).
  rewrite fmap_app, moves_app. unfold findSteps. f_equal.
Qed.

(** Nothing here: the session is claimed and resumed if it is published. *)
Lemma find_claims h w n : hm_pc (homeOf w h) = Idle → hm_runs (homeOf w h) = false → hm_local (homeOf w h) = None →
  mw_tag w = Some n → n ∈ mw_blobs w →
  ∃ w', findSteps h w = w' ∧ mw_tag w' = None ∧ mw_next w' = mw_next w ∧ mw_log w' = mw_log w ++ [Claimed h n; Resumed h n] ∧
    ∀ k, homeOf w' k = if bool_decide (h = k) then mkHome None true Idle else homeOf w k.
Proof.
  intros H1 H2 H3 Ht Hn. eexists. split; [reflexivity|]. unfold findSteps, moves. cbn [fmap list_fmap foldl]. unfold moveStep. cbn [fst snd].
  unfold findTag. rewrite H1, H2, H3, Ht. unfold pull. at_home. change (mw_blobs (setHome h _ w)) with (mw_blobs w). rewrite (bool_decide_eq_true_2 (n ∈ _)) by done.
  unfold checkTag. at_home. change (mw_tag (setHome h _ _)) with (mw_tag w). rewrite Ht, (bool_decide_eq_true_2 (Some n = Some n)) by done.
  unfold claimTag. at_home. unfold Delete. change (mw_tag (setHome h _ _)) with (mw_tag w). rewrite Ht. cbn zeta beta iota. rewrite setHome_log.
  unfold owned. at_home. unfold resume. at_home. rewrite setHome_log. unfold retireCheck. at_home. unfold retireDelete. at_home. unfold startFresh. at_home.
  split_and!; [done|done|cbn; by rewrite <- app_assoc|]. intros k. rewrite !homeOf_set. case_bool_decide; [done|].
  unfold homeOf. cbn. by rewrite !lookup_insert_ne.
Qed.
Lemma find_fresh h w : hm_pc (homeOf w h) = Idle → hm_runs (homeOf w h) = false → hm_local (homeOf w h) = None → mw_tag w = None →
  findSteps h w = setHome h (mkHome None true Idle) w.
Proof.
  intros H1 H2 H3 Ht. unfold findSteps, moves. cbn [fmap list_fmap foldl]. unfold moveStep. cbn [fst snd].
  unfold findTag. rewrite H1, H2, H3, Ht. unfold pull. rewrite H1. unfold checkTag. rewrite H1. unfold claimTag. rewrite H1.
  unfold owned. rewrite H1, H2, H3. unfold resume. rewrite H1. unfold retireCheck. rewrite H1. unfold retireDelete. rewrite H1.
  unfold startFresh. by rewrite H1, H3.
Qed.
Lemma find_running h w : hm_pc (homeOf w h) = Idle → hm_runs (homeOf w h) = true → hm_local (homeOf w h) = None →
  findSteps h w = setHome h (mkHome None true Idle) w.
Proof.
  intros H1 H2 H3. unfold findSteps, moves. cbn [fmap list_fmap foldl]. unfold moveStep. cbn [fst snd].
  unfold findTag. rewrite H1, H2. unfold pull. rewrite H1. unfold checkTag. rewrite H1. unfold claimTag. rewrite H1.
  unfold owned. rewrite H1, H2. unfold resume. rewrite H1. unfold retireCheck. rewrite H1. unfold retireDelete. rewrite H1.
  unfold startFresh. by rewrite H1, H3.
Qed.
Lemma here_nothing h w : hm_pc (homeOf w h) = Idle → hm_runs (homeOf w h) = true ∨ hm_local (homeOf w h) = None → hereSteps h w = w.
Proof.
  intros H1 H. unfold hereSteps. assert (owned h w = w) as ->.
  { unfold owned. rewrite H1. destruct (hm_runs _); [done|]. destruct H as [H|H]; [done|]. by rewrite H. }
  unfold resume. rewrite H1. unfold retireCheck. rewrite H1. unfold retireDelete. by rewrite H1.
Qed.
(** Parked here and the tag still holds it: it resumes and is retired. *)
Lemma here_resumes h w d : hm_pc (homeOf w h) = Idle → hm_runs (homeOf w h) = false → hm_local (homeOf w h) = Some d →
  d_rec d = Some (d_id d) → mw_tag w = Some (d_id d) →
  let w' := hereSteps h w in mw_tag w' = None ∧ mw_next w' = mw_next w ∧ mw_log w' = mw_log w ++ [Resumed h (d_id d); Retired h] ∧
    ∀ k, homeOf w' k = if bool_decide (h = k) then mkHome None true Idle else homeOf w k.
Proof.
  intros H1 H2 H3 Hr Ht. cbv zeta. unfold hereSteps.
  unfold owned. rewrite H1, H2, H3, Hr, Ht, (bool_decide_eq_true_2 (Some _ = Some _)) by done. unfold resume. at_home. rewrite setHome_log.
  unfold retireCheck. at_home. rewrite Hr. change (mw_tag (setHome h _ _)) with (mw_tag w). rewrite Ht, (bool_decide_eq_true_2 (Some _ = Some _)) by done.
  unfold retireDelete. at_home. unfold Delete. change (mw_tag (setHome h _ _)) with (mw_tag w). rewrite Ht. cbn zeta beta iota. rewrite setHome_log.
  split_and!; [done|done|cbn; by rewrite <- app_assoc|]. intros k. rewrite !homeOf_set. case_bool_decide; [done|].
  unfold homeOf. cbn. by rewrite !lookup_insert_ne.
Qed.
(** Parked here and gone from the tag: dropped. *)
Lemma here_drops h w d : hm_pc (homeOf w h) = Idle → hm_runs (homeOf w h) = false → hm_local (homeOf w h) = Some d →
  d_rec d = Some (d_id d) → mw_tag w ≠ Some (d_id d) →
  hereSteps h w = setHome h (mkHome None false Idle) (logEvent (Dropped h (d_id d)) w).
Proof.
  intros H1 H2 H3 Hr Ht. unfold hereSteps.
  unfold owned. rewrite H1, H2, H3, Hr, (bool_decide_eq_false_2 (mw_tag w = _)) by done. rewrite setHome_log.
  unfold resume. at_home. unfold retireCheck. at_home. unfold retireDelete. at_home. done.
Qed.

(** A whole call of one home, seen from the invariant: it leaves home [h] in
    state [x], and may resume the tag's park, which then is gone. *)
Lemma serialOK_call w w' h x r : serialOK w → hm_pc x = Idle → hm_local x = None →
  (∀ k, homeOf w' k = if bool_decide (h = k) then x else homeOf w k) → mw_next w' = mw_next w →
  resumes (mw_log w') = resumes (mw_log w) ++ option_list r →
  match r with Some n => mw_tag w = Some n ∧ mw_tag w' = None | None => mw_tag w' = mw_tag w ∧ mw_blobs w' = mw_blobs w end → serialOK w'.
Proof.
  intros [H1 H2 H3 [H4 H5]] Hp Hl Hk Hnx Hr Ht. split.
  - intros k. rewrite Hk. by destruct (h ==? k).
  - intros k d. rewrite Hk. destruct (h ==? k); [by rewrite Hl|apply H2].
  - intros n Hn. destruct r as [m|]; [destruct Ht; congruence|]. destruct Ht as [Ht Hb]. rewrite Ht in Hn. rewrite Hr, Hnx, Hb, app_nil_r. by apply H3.
  - rewrite Hr, Hnx. destruct r as [m|]; cbn [option_list]; [|rewrite app_nil_r; done]. destruct Ht as [Ht _]. destruct (H3 m Ht) as (_ & Hm & Hlt). split.
    + apply NoDup_app. split; [done|]. split; [|apply NoDup_singleton]. intros n Hn ->%list_elem_of_singleton. done.
    + intros n [Hn| ->%list_elem_of_singleton]%elem_of_app; [by apply H5|done].
Qed.

Lemma serialOK_find h w : serialOK w → hm_runs (homeOf w h) = false → hm_local (homeOf w h) = None → serialOK (findSteps h w).
Proof.
  intros Hok Hr Hl. pose proof (so_idle w Hok h) as Hp. destruct (mw_tag w) as [n|] eqn:Et.
  - destruct (find_claims h w n Hp Hr Hl Et (proj1 (so_tag w Hok n Et))) as (w' & -> & Ht & Hn & Hlog & Hk).
    apply (serialOK_call w w' h (mkHome None true Idle) (Some n)); try done. rewrite Hlog. unfold resumes. by rewrite omap_app.
  - rewrite find_fresh by done. apply (serialOK_call w _ h (mkHome None true Idle) None); try done; [intros; apply homeOf_set|by rewrite app_nil_r].
Qed.
Lemma wholeStep_clone h w : wholeStep w (h, WClone) = cloneSteps h w.
Proof. unfold wholeStep, cloneSteps. f_equal. Qed.
Lemma wholeStep_park h w : wholeStep w (h, WPark) = park h w.
Proof. reflexivity. Qed.
Lemma serialOK_step w a : serialOK w → serialOK (wholeStep w a).
Proof.
  intros Hok. destruct a as [h o]. pose proof (so_idle w Hok h) as Hp. destruct o.
  - rewrite wholeStep_park. unfold park. rewrite Hp. destruct (hm_runs (homeOf w h)) eqn:Er; [|done].
    destruct Hok as [H1 H2 H3 [H4 H5]]. cbn [push]. split.
    + intros k. rewrite homeOf_set. destruct (h ==? k); [done|apply H1].
    + intros k d. rewrite homeOf_set. destruct (h ==? k); [|apply H2]. by intros [= <-].
    + cbn. rewrite resumes_snoc, app_nil_r. intros n [= <-]. split; [set_solver|]. split; [|lia]. intros Hn. apply H5 in Hn. lia.
    + cbn. rewrite resumes_snoc, app_nil_r. split; [done|]. intros n Hn. apply H5 in Hn. lia.
  - rewrite wholeStep_clone, cloneSteps_halves.
    destruct (hm_runs (homeOf w h)) eqn:Er.
    { assert (hm_local (homeOf w h) = None) as El.
      { destruct (hm_local _) as [d|] eqn:El; [|done]. destruct (so_local w Hok h d El). congruence. }
      rewrite here_nothing, find_running by auto. apply (serialOK_call w _ h (mkHome None true Idle) None); try done; [intros; apply homeOf_set|by rewrite app_nil_r]. }
    destruct (hm_local (homeOf w h)) as [d|] eqn:El.
    2: { rewrite here_nothing by auto. by apply serialOK_find. }
    destruct (so_local w Hok h d El) as [Hrec _]. destruct (decide (mw_tag w = Some (d_id d))) as [Et|Et].
    + destruct (here_resumes h w d Hp Er El Hrec Et) as (Ht & Hn & Hlog & Hk). set (w1 := hereSteps h w) in *.
      assert (serialOK w1) as Hok1.
      { apply (serialOK_call w w1 h (mkHome None true Idle) (Some (d_id d))); try done. rewrite Hlog. unfold resumes. by rewrite omap_app. }
      assert (homeOf w1 h = mkHome None true Idle) as Eh by (by rewrite Hk, bool_decide_eq_true_2).
      rewrite find_running by (by rewrite Eh). apply (serialOK_call w1 _ h (mkHome None true Idle) None); try done; [intros; apply homeOf_set|by rewrite app_nil_r].
    + rewrite (here_drops h w d) by done. apply serialOK_find; [|by rewrite homeOf_same..].
      apply (serialOK_call w _ h (mkHome None false Idle) None); try done; [intros; by rewrite homeOf_set|]. cbn. by rewrite resumes_snoc.
Qed.
Lemma serialOK_serial ops : ∀ w, serialOK w → serialOK (serial ops w).
Proof. induction ops as [|o ops IH]; intros w H; [done|]. apply IH. by apply serialOK_step. Qed.

(** One call at a time, a park is resumed once and never behind a newer
    one.  For any sequence of parks and clones of a session by any number of
    homes, none overlapping: no park is ever resumed twice, by one home or by
    two, and while a park is published no home has resumed it; and whatever a
    clone resumes is the park the tag held when the clone began, the newest
    one. *)
Theorem serial_resume_once ops :
  let w := serial ops nowhere in
  NoDup (resumes (mw_log w)) ∧
  (∀ n, mw_tag w = Some n → n ∉ resumes (mw_log w)) ∧
  ∀ h, ∃ new, mw_log (cloneSteps h w) = mw_log w ++ new ∧ ∀ k n, Resumed k n ∈ new → mw_tag w = Some n.
Proof.
  cbv zeta. assert (serialOK (serial ops nowhere)) as Hok.
  { apply serialOK_serial. split; cbn; try done; try (intros h; unfold homeOf; cbn; rewrite lookup_empty; done).
    split; [constructor|]. intros n Hn. by apply elem_of_nil in Hn. }
  set (w := serial ops nowhere) in *. clearbody w. split; [apply Hok|]. split; [intros n Hn; by apply (so_tag w Hok n)|]. intros h.
  pose proof (so_idle w Hok h) as Hp. rewrite cloneSteps_halves.
  assert (∀ w1, serialOK w1 → hm_runs (homeOf w1 h) = false → hm_local (homeOf w1 h) = None →
    ∃ new, mw_log (findSteps h w1) = mw_log w1 ++ new ∧ ∀ k n, Resumed k n ∈ new → mw_tag w1 = Some n) as Hfind.
  { intros w1 Hok1 Hr Hl. pose proof (so_idle w1 Hok1 h) as Hp1. destruct (mw_tag w1) as [n|] eqn:Et.
    - destruct (find_claims h w1 n Hp1 Hr Hl Et (proj1 (so_tag w1 Hok1 n Et))) as (w' & -> & _ & _ & Hlog & _). eexists. split; [exact Hlog|].
      intros k m Hin. apply elem_of_cons in Hin as [|Hin]; [done|]. apply list_elem_of_singleton in Hin. congruence.
    - rewrite find_fresh by done. exists []. split; [cbn; by rewrite app_nil_r|]. by intros ?? ?%elem_of_nil. }
  destruct (hm_runs (homeOf w h)) eqn:Er.
  { assert (hm_local (homeOf w h) = None) as El.
    { destruct (hm_local _) as [d|] eqn:El; [|done]. destruct (so_local w Hok h d El). congruence. }
    rewrite here_nothing, find_running by auto. exists []. split; [cbn; by rewrite app_nil_r|]. by intros ?? ?%elem_of_nil. }
  destruct (hm_local (homeOf w h)) as [d|] eqn:El.
  2: { rewrite here_nothing by auto. by apply Hfind. }
  destruct (so_local w Hok h d El) as [Hrec _]. destruct (decide (mw_tag w = Some (d_id d))) as [Et|Et].
  - destruct (here_resumes h w d Hp Er El Hrec Et) as (_ & _ & Hlog & Hk). set (w1 := hereSteps h w) in *.
    assert (homeOf w1 h = mkHome None true Idle) as Eh by (by rewrite Hk, bool_decide_eq_true_2).
    rewrite find_running by (by rewrite Eh). cbn. rewrite Hlog. eexists. split; [done|]. intros k n Hin.
    apply elem_of_cons in Hin as [|Hin]; [congruence|]. by apply list_elem_of_singleton in Hin.
  - rewrite (here_drops h w d) by done. destruct (Hfind (setHome h (mkHome None false Idle) (logEvent (Dropped h (d_id d)) w))) as (new & Hnew & Hn).
    + apply (serialOK_call w _ h (mkHome None false Idle) None); try done; [intros; by rewrite homeOf_set|]. cbn. by rewrite resumes_snoc.
    + by rewrite homeOf_same.
    + by rewrite homeOf_same.
    + rewrite Hnew. exists (Dropped h (d_id d) :: new). split; [cbn; by rewrite <- app_assoc|]. intros k n [|Hin]%elem_of_cons; [done|]. by apply (Hn k).
Qed.

(** ** Where interleaved calls do not *)

(** A claim that passed its check deletes whatever the tag holds by then: home
    0 resumes its park, retires it, runs on and parks again, and the delete of
    home 1's claim of the first park takes the tag of the second.  Home 1
    resumes the state that was superseded, and home 0 drops the newer one. *)
Definition staleClaim : list (nat * call) :=
  [(0, CStart); (0, CPark); (1, CFind); (1, CPull); (1, CCheck);
   (0, COwned); (0, CResume); (0, CRetireCheck); (0, CRetireDelete); (0, CPark);
   (1, CClaim); (1, COwned); (1, CResume); (0, COwned)].
Lemma stale_claim_loses_park :
  mw_log (moves staleClaim nowhere) = [Pushed 1; Resumed 0 1; Retired 0; Pushed 2; Claimed 1 1; Resumed 1 1; Dropped 0 2].
Proof. vm_compute. reflexivity. Qed.

(** A resume begins when the tag still holds the park and withdraws it only
    once the session runs: a claim in between takes it too, and two homes run
    the session from one park. *)
Definition sharedResume : list (nat * call) :=
  [(0, CStart); (0, CPark); (0, COwned); (1, CFind); (1, CPull); (1, CCheck); (1, CClaim); (1, COwned);
   (0, CResume); (0, CRetireCheck); (1, CResume); (1, CRetireCheck)].
Lemma resume_races_claim :
  let w := moves sharedResume nowhere in
  resumes (mw_log w) = [1%N; 1%N] ∧ hm_runs (homeOf w 0) = true ∧ hm_runs (homeOf w 1) = true.
Proof. vm_compute. done. Qed.

(** ** What a home takes *)

(** The platform a delta was made on, as the gate compares it. *)
Definition gatePlatform (c : mobilityConfig) (a : annotations) : Platform :=
  let made := (PlatformFromAnnotations a).1 in
  if (Templates made <>? Templates (MHost c)) && templateAt c (Templates made) then mkPlatform (Arch made) (Kernel made) (Libc made) (Backend made) "" else made.

Lemma Check_empty p host : Check p host (mkPlatform "" "" "" "" "") = None.
Proof. unfold Check, kernelDiffers, libcDiffers. cbn. destruct (PKernel p ==? ParityOff), (PKernel p ==? ParitySeries), (PLibc p <>? ParityOff); done. Qed.

Lemma FindDelta_may_claim `{SigningOps} c domain session now loc rd : FindDelta c domain session now (inl (Some loc)) = MayClaim rd →
  checkDeltaRegistry c = true ∧ l_Type loc = ArtifactTypeDelta ∧ VerifyLocated (DeltaKeys c) loc = None ∧
  checkSigned (l_Ann loc) domain session now = None ∧ rd_Handle rd = l_Digest loc ∧ rd_Home rd = ann (l_Ann loc) AnnotationHome ∧
  Check (MParity c) (MHost c) (gatePlatform c (l_Ann loc)) = None ∧ checkEngine c (l_Ann loc) = true.
Proof.
  unfold FindDelta, gatePlatform. destruct (checkDeltaRegistry c); [|done]. cbn [negb].
  destruct (bool_decide_reflect (l_Type loc = ArtifactTypeDelta)) as [Ht|]; [|done]. cbn [negb].
  destruct (VerifyLocated _ _); [done|]. destruct (checkSigned _ _ _ _); [done|]. cbv zeta. unfold PlatformFromAnnotations. cbv zeta. cbn [fst].
  set (p := mkPlatform _ _ _ _ _). set (gp := if (Templates p <>? Templates (MHost c)) && templateAt c (Templates p) then _ else p).
  destruct (bool_decide_reflect (p = mkPlatform "" "" "" "" "")) as [Ep|_]; cbn [negb andb].
  - destruct (checkEngine _ _); [|done]. intros [= <-]. cbn. split_and!; try done. unfold gp. rewrite Ep. cbn [Templates Arch Kernel Libc Backend].
    destruct (("" <>? _) && _); apply Check_empty.
  - destruct (Check _ _ gp) eqn:Ec; [done|]. destruct (checkEngine _ _); [|done]. intros [= <-]. done.
Qed.

(** C25: a home takes only what a home it trusts parked, for this very session.
    If no trusted key signs but for its owner and the JSON of different
    payloads differs: when FindDelta says a delta may be claimed, some trusted
    key signed exactly this manifest as a delta (its annotations but for the
    signature, and every file's name, digest and size); the signed annotations
    name the domain and the session asked for and an expiry that has not
    passed; the handle is the manifest's digest, and the platform it was made
    on passes this home's parity. *)
Theorem found_delta_is_trusted (S : SigningOps) (log : list (string * payload)) (text : payload → Prop) c domain session now loc rd :
  (∀ kid pub m raw, trusted (DeltaKeys c) kid = Some pub → edVerify pub m raw = true → ∃ p, (pub, p) ∈ log ∧ m = signingContext +:+ payloadJSON p) →
  (∀ p q, text p → text q → payloadJSON p = payloadJSON q → p = q) → (∀ pub p, (pub, p) ∈ log → text p) →
  text (payloadOf (l_Type loc) (l_Ann loc) (l_Files loc)) →
  FindDelta c domain session now (inl (Some loc)) = MayClaim rd →
  (∃ pub, trusted (DeltaKeys c) (ann (l_Ann loc) AnnotationSigner) = Some pub ∧ (pub, payloadOf ArtifactTypeDelta (l_Ann loc) (l_Files loc)) ∈ log) ∧
  ann (l_Ann loc) AnnotationDomain = domain ∧ ann (l_Ann loc) AnnotationSession = session ∧
  (∃ exp, parseRFC3339 (ann (l_Ann loc) AnnotationExpires) = Some exp ∧ Time.Before now exp = true) ∧
  rd_Handle rd = l_Digest loc ∧ Check (MParity c) (MHost c) (gatePlatform c (l_Ann loc)) = None.
Proof.
  intros Hu Hj Hl Ht H. apply FindDelta_may_claim in H as (_ & Hty & Hv & Hc & Hh & _ & Hp & _). unfold VerifyLocated in Hv. rewrite Hty in Hv, Ht.
  split; [by eapply verify_binds|]. unfold checkSigned in Hc. destruct (_ || _) eqn:E; [done|]. breflect.
  destruct (parseRFC3339 _) as [exp|]; [|done]. destruct (Time.Before now exp) eqn:Eb; [|done]. eauto 10.
Qed.

(** A toy signer: the signature is the message. *)
Definition toyFiles : list File := [mkFile "pages" "sha256:00" 4].
Definition toyAnn : annotations :=
  {[AnnotationSigner := "home"; AnnotationSignature := "sig"; AnnotationDomain := "d"; AnnotationSession := "s"; AnnotationExpires := "later"; AnnotationArch := "amd64"]}.
Definition toyPayload : payload := payloadOf ArtifactTypeDelta toyAnn toyFiles.
Definition toySigning : SigningOps := {|
  edSign _ m := m; edVerify pub m raw := (pub ==? "pub") && (m ==? signingContext +:+ "P"); edPublic _ := "pub"; b64 s := s; unb64 s := Some s;
  payloadJSON _ := "P"; parseRFC3339 s := if s ==? "later" then Some 100%Z else None |}.
Definition toyMobility : mobilityConfig :=
  mkMobility "registry" (mkKeys (Some (mkEdKey "home" (Some "priv") None)) [] (Some (mkSealKey "k" "m"))) Strict (mkPlatform "amd64" "6.1" "glibc" "proc" "") (λ _, false) (λ _, true).
Definition toyLocated : Located := mkLocated "sha256:aa" ArtifactTypeDelta toyAnn toyFiles.
Lemma found_delta_is_trusted_witness :
  FindDelta (H:=toySigning) toyMobility "d" "s" 50%Z (inl (Some toyLocated)) = MayClaim (mkRemote 0 "" "sha256:aa") ∧
  ann (l_Ann toyLocated) AnnotationSession = "s".
Proof.
  assert (FindDelta (H:=toySigning) toyMobility "d" "s" 50%Z (inl (Some toyLocated)) = MayClaim (mkRemote 0 "" "sha256:aa")) as H by (vm_compute; reflexivity).
  split; [exact H|].
  refine (proj1 (proj2 (proj2 (found_delta_is_trusted toySigning [("pub", toyPayload)] (λ p, p = toyPayload) toyMobility "d" "s" 50%Z toyLocated (mkRemote 0 "" "sha256:aa") _ _ _ eq_refl H)))).
  - intros kid pub m raw _ Hv. exists toyPayload. cbn in Hv. apply andb_true_iff in Hv as [Hv1 Hv2]. apply bool_decide_eq_true_1 in Hv1, Hv2. subst. split; [left|reflexivity].
  - intros p q -> ->. reflexivity.
  - intros pub p Hp. apply list_elem_of_singleton in Hp. congruence.
Defined.
