(* ===== verification/Fetch.v ===== *)
(** * The grant fetch of the Kubernetes home (pkg/home/kubernetes/fetch.go)

    The loop state is [fetcher]; the grants directory is a file system of which
    only this directory is kept.  A turn of the loop is a function of what the
    world answered in it ([turn]): the token file, the controller, the outcomes
    of the system calls, the clock, and what other writers did to the
    directory.  Log lines, and the error reason that only they show, are left
    out. *)

From Stdlib Require Import Ascii.
From S2P Require Import Prelude GoLib GoText Fence Errors Grant Proto Token.
From stdpp Require Import options.

(** ** Constants *)

Definition maxAnswerBytes : nat := N.to_nat (2 ^ 20).
Definition minFetchWait : Time.duration := Time.Second.
Definition maxBackoff : Time.duration := (30 * Time.Second)%Z.
Definition refusedRetry : Time.duration := (30 * Time.Second)%Z.
Definition unprocessableRetry : Time.duration := (5 * Time.Minute)%Z.
Definition maxRetryAfter : Time.duration := (5 * Time.Minute)%Z.
(** [jitterFraction], 0.25 *)
Definition jitterFraction : F64.t := F64.div F64.one (F64.of_Z 4).

Definition StatusOK : Z := 200.
Definition StatusUnauthorized : Z := 401.
Definition StatusForbidden : Z := 403.
Definition StatusConflict : Z := 409.
Definition StatusUnprocessableEntity : Z := 422.
Definition StatusTooManyRequests : Z := 429.
Definition StatusServiceUnavailable : Z := 503.

(** ** The wait before the next request *)

(** [type delayInput struct] *)
Record delayInput := mkDelay {
  di_wrote : bool; di_status : Z; di_retryAfter : option Time.duration;
  di_failures : nat; di_remaining : Time.duration; di_jitter : F64.t;
}.

(** [for i := 1; i < in.failures && d < limit; i++ { d *= 2 }], [k] turns left *)
Fixpoint doubling (k : nat) (limit d : Time.duration) : Time.duration :=
  match k with
  | 0 => d
  | S k' => if (d <? limit)%Z then doubling k' limit (d * 2)%Z else d
  end.

(** [time.Duration(f)] of a float: the fraction is dropped; a value out of
    range is the least int64, as on amd64. *)
Definition toDuration (f : F64.t) : Time.duration :=
  match F64.trunc f with
  | Some z => if (Time.minDuration <=? z)%Z && (z <=? Time.maxDuration)%Z then z else Time.minDuration
  | None => Time.minDuration
  end.

(** [time.Duration(float64(d) * (1 + jitterFraction*(2*in.jitter-1)))] *)
Definition jittered (d : Time.duration) (jitter : F64.t) : Time.duration :=
  toDuration (F64.mul (F64.of_Z d)
    (F64.add F64.one (F64.mul jitterFraction (F64.sub (F64.mul (F64.of_Z 2) jitter) F64.one)))).

(** The backoff's limit and the backoff before it is moved. *)
Definition backoffLimit (remaining : Time.duration) : Time.duration :=
  if (0 <? remaining)%Z then Z.min maxBackoff (Z.quot remaining 4) else maxBackoff.
Definition backoff (failures : nat) (limit : Time.duration) : Time.duration :=
  Z.min (doubling (failures - 1) limit minFetchWait) limit.

(** The branches of [nextDelay], before its final [max]. *)
Definition delayFor (i : delayInput) : Time.duration :=
  if di_wrote i then Z.quot (di_remaining i) 2
  else if (di_status i =? StatusUnauthorized)%Z || (di_status i =? StatusForbidden)%Z then refusedRetry
  else if (di_status i =? StatusUnprocessableEntity)%Z then unprocessableRetry
  else
    match (if (di_status i =? StatusTooManyRequests)%Z || (di_status i =? StatusServiceUnavailable)%Z then di_retryAfter i else None) with
    | Some after => Z.min after (if (0 <? di_remaining i)%Z then Z.quot (di_remaining i) 4 else maxRetryAfter)
    | None => jittered (backoff (di_failures i) (backoffLimit (di_remaining i))) (di_jitter i)
    end.

(** [func nextDelay(in delayInput) time.Duration] *)
Definition nextDelay (i : delayInput) : Time.duration := Z.max (delayFor i) minFetchWait.

(** [strconv.ParseInt(v, 10, 64)]; [None] is its error *)
Definition ParseInt (v : string) : option Z :=
  let '(neg, digits) := match v with
                        | String "-"%char v' => (true, v')
                        | String "+"%char v' => (false, v')
                        | _ => (false, v)
                        end in
  match ParseUint digits with
  | inl n => if (n <? 2 ^ 63)%N then Some (if neg then - Z.of_N n else Z.of_N n)%Z
             else if neg && (n =? 2 ^ 63)%N then Some (- 2 ^ 63)%Z else None
  | inr _ => None
  end.

(** [func parseRetryAfter(v string, now time.Time) (d time.Duration, ok bool)];
    [parseTime] is [http.ParseTime] *)
Definition parseRetryAfter (parseTime : string → option Time.t) (v : string) (now : Time.t) : option Time.duration :=
  let v := TrimSpace v in
  if v ==? "" then None
  else match ParseInt v with
       | Some s => if (s <? 0)%Z then None else Some (Z.min s (24 * 60 * 60) * Time.Second)%Z
       | None => t ← parseTime v; Some (Time.Sub t now)
       end.

(** ** The grants directory *)

(** [func fsyncDir(dir string) error], true for nil *)
Definition fsyncDir (sys : sysOutcomes) : bool := opendir_ok sys && syncdir_ok sys.

(** [<dir>/<uid>.jwt] *)
Definition grantFile (uid : string) : string := uid +:+ ".jwt".

(** [func writeGrant(dir, uid, token, syncDir) (renamed bool, err error)].
    [mkdir] is MkdirAll's outcome, [tmp] the name CreateTemp chose, [part] what
    a failed write left.  The deferred clean-up runs where the file was not
    renamed; its own errors are dropped. *)
Definition writeGrant (mkdir : bool) (sys : sysOutcomes) (tmp part uid token : string) (fs : FS) : bool * bool * FS :=
  let undo fs := (false, false, if remove_ok sys then delete tmp fs else fs) in
  if negb mkdir then (false, false, fs)
  else if negb (create_ok sys) then (false, false, fs)
  else
    let fs := <[tmp := ""]> fs in
    if negb (write_ok sys) then undo (<[tmp := part]> fs)
    else
      let fs := <[tmp := token]> fs in
      if negb (sync_ok sys) then undo fs
      else if negb (close_ok sys) then undo fs
      else if negb (rename_ok sys) then undo fs
      else (true, fsyncDir sys, <[grantFile uid := token]> (delete tmp fs)).

(** ** The fetcher *)

(** [type fetcher struct], its loop state; [f_last] tells whether a request
    failed, and how. *)
Inductive fetchError :=
| BearerUnread | BearerEmpty | EncodeFailed | NotSent | ReadFailed (status : Z) | Answered (status : Z)
| BadAnswer | OtherUID | TooLarge | NoParse (e : tokenError) | OtherJti | NoLease | NotWritten.

Record fetcher := mkFetcher {
  f_previous : string;
  f_expiresAt : Time.t;
  f_failures : nat;
  f_nextAt : Time.t;
  f_stopped : bool;
  f_last : option fetchError;
}.

(** [type grantRequest struct], [type grantAnswer struct] *)
Record grantRequest := mkRequest { gr_Previous : string }.
Record grantAnswer := mkAnswer { ga_Token : string; ga_UID : string; ga_IssuedAt : Time.t; ga_ExpiresAt : Time.t }.

(** What the HTTP client answered: an error of NewRequest or Do; a body that
    could not be read; an answer with its Retry-After header. *)
Inductive httpReply := ReplyNone | ReplyTorn (status : Z) | Reply (status : Z) (retryAfter body : string).

(** [type attempt struct]; [at_err] is [None] for nil *)
Record attempt := mkAttempt { at_status : Z; at_retryAfter : option Time.duration; at_err : option fetchError }.

(** What the world answers during one turn of the loop. *)
Record turn := mkTurn {
  t_token : option string;               (** the token file, [None] unreadable *)
  t_http : string → string → httpReply;  (** of the bearer and the body *)
  t_mkdir : bool; t_sys : sysOutcomes; t_tmp : string; t_part : string;
  t_asked : N;                           (** from the call to the answer *)
  t_took : N;                            (** from the answer to the end of the request *)
  t_jitter : F64.t;
  t_ctx : bool;                          (** the context has ended *)
  t_others : FS → FS;                    (** what other writers did to the directory *)
  t_readable : bool;                     (** the grant file, if there, can be read *)
  t_late : N;                            (** how late the timer fires *)
  t_fired : bool;                        (** the timer, not the context, ends the wait *)
}.

(** The loop's state with the directory, the clock, and the times at which a
    request was sent, newest first (a ghost). *)
Record fetching := mkFetching { fg_f : fetcher; fg_fs : FS; fg_now : Time.t; fg_sent : list Time.t }.

Section fetch.
Context `{O : JoseOps} `{JRq : JSON grantRequest} `{JAn : JSON grantAnswer}.
Context (parseTime : string → option Time.t) (podUID : string).

(** [func (f *fetcher) held()]: the Pod's token in the directory and its
    expiry, zero when it has none *)
Definition held (readable : bool) (fs : FS) : option (string * Time.t) :=
  b ← (if readable then fs !! grantFile podUID else None);
  let token := TrimSpace b in
  match PeekUID token with
  | inl uid => if uid <>? podUID then None
               else Some (token, match PeekExpiry token with inl e => e | inr _ => Time.zero end)
  | inr _ => None
  end.

(** The loop state of [newFetcher]. *)
Definition newFetcher (readable : bool) (fs : FS) : fetcher :=
  match held readable fs with
  | Some (tok, e) => mkFetcher tok e 0 Time.zero false None
  | None => mkFetcher "" Time.zero 0 Time.zero false None
  end.

(** [func (f *fetcher) bearer() (string, error)] *)
Definition bearer (tokenFile : option string) : string + fetchError :=
  match tokenFile with
  | None => inr BearerUnread
  | Some b => let tok := TrimSpace b in if tok ==? "" then inr BearerEmpty else inl tok
  end.

(** The checks of [accept], in its order. *)
Definition checkAnswer (raw : string) : grantAnswer + fetchError :=
  try g := orFail (Unmarshal raw) BadAnswer;
  try _ := need (ga_UID g ==? podUID) OtherUID;
  try _ := need (negb (MaxTokenBytes <? String.length (ga_Token g))%nat) TooLarge;
  try jti := match PeekUID (ga_Token g) with inl j => inl j | inr e => inr (NoParse e) end;
  try _ := need (jti ==? ga_UID g) OtherJti;
  try _ := need (Time.After (ga_ExpiresAt g) (ga_IssuedAt g)) NoLease;
  inl g.

(** [func (f *fetcher) accept(raw []byte) error]; a sync that failed after the
    rename is only logged *)
Definition accept (t : turn) (raw : string) (f : fetcher) (fs : FS) : option fetchError * fetcher * FS :=
  match checkAnswer raw with
  | inr e => (Some e, f, fs)
  | inl g =>
      let '(renamed, ok, fs') := writeGrant (t_mkdir t) (t_sys t) (t_tmp t) (t_part t) (ga_UID g) (ga_Token g) fs in
      if renamed : bool then
        (None, mkFetcher (ga_Token g) (ga_ExpiresAt g) (f_failures f) (f_nextAt f) (f_stopped f) (f_last f), fs')
      else if ok : bool then (None, f, fs') else (Some NotWritten, f, fs')
  end.

(** [func (f *fetcher) request(ctx) attempt]; [now] is the clock's when the
    answer was read.  Whether a request left the process is returned too. *)
Definition request (t : turn) (now : Time.t) (f : fetcher) (fs : FS) : attempt * fetcher * FS * bool :=
  match bearer (t_token t) with
  | inr e => (mkAttempt 0 None (Some e), f, fs, false)
  | inl b =>
      match Marshal (mkRequest (f_previous f)) with
      | None => (mkAttempt 0 None (Some EncodeFailed), f, fs, false)
      | Some body =>
          match t_http t b body with
          | ReplyNone => (mkAttempt 0 None (Some NotSent), f, fs, true)
          | ReplyTorn status => (mkAttempt status None (Some (ReadFailed status)), f, fs, true)
          | Reply status after raw =>
              if (status =? StatusOK)%Z then
                let '(err, f', fs') := accept t (str_take maxAnswerBytes raw) f fs in
                (mkAttempt status None err, f', fs', true)
              else (mkAttempt status (parseRetryAfter parseTime after now) (Some (Answered status)), f, fs, true)
          end
      end
  end.

(** [func (f *fetcher) fetchOnce(ctx) bool], with what other writers did to the
    directory before it. *)
Definition fetchOnce (t : turn) (s : fetching) : bool * fetching :=
  let '(mkFetching f fs now0 sent) := s in
  let answered := Time.Add now0 (Z.of_N (t_asked t)) in
  let '(a, f, fs, out) := request t answered f (t_others t fs) in
  let now := Time.Add answered (Z.of_N (t_took t)) in
  let sent := if out : bool then now0 :: sent else sent in
  let remaining := Time.Sub (f_expiresAt f) now in
  match at_err a with
  | None =>
      (true, mkFetching (mkFetcher (f_previous f) (f_expiresAt f) 0
               (Time.Add now (nextDelay (mkDelay true 0 None 0 remaining F64.zero))) (f_stopped f) (f_last f)) fs now sent)
  | Some e =>
      let failures := S (f_failures f) in
      if (at_status a =? StatusConflict)%Z
      then (false, mkFetching (mkFetcher (f_previous f) (f_expiresAt f) failures (f_nextAt f) true (Some e)) fs now sent)
      else
        let d := nextDelay (mkDelay false (at_status a) (at_retryAfter a) failures remaining (t_jitter t)) in
        (false, mkFetching (mkFetcher (f_previous f) (f_expiresAt f) failures (Time.Add now d) (f_stopped f) (Some e)) fs now sent)
  end.

(** [func (f *fetcher) wait(ctx, d) bool]: the clock when it ends *)
Definition wait (t : turn) (d : Time.duration) (s : fetching) : bool * fetching :=
  (t_fired t, if t_fired t
              then mkFetching (fg_f s) (fg_fs s) (Time.Add (fg_now s) (Z.max d minFetchWait + Z.of_N (t_late t)))%Z (fg_sent s)
              else s).

(** What [start] ends in: a written grant, a start on the file in the
    directory, or an error. *)
Inductive startEnd := Wrote | OnFile | CtxEnded | RefusedFirst | NoGrantInTime.

Definition withHeld (tok : string) (e : Time.t) (s : fetching) : fetching :=
  let '(mkFetching f fs now sent) := s in
  mkFetching (mkFetcher tok e (f_failures f) (f_nextAt f) (f_stopped f) (f_last f)) fs now sent.
(** A start on the unexpired file, or the error. *)
Definition onFile (t : turn) (err : startEnd) (s : fetching) : startEnd * fetching :=
  match held (t_readable t) (fg_fs s) with
  | Some (tok, e) => if Time.After e (fg_now s) then (OnFile, withHeld tok e s) else (err, s)
  | None => (err, s)
  end.

(** One iteration of [start]'s loop: the end, or the state to go on from. *)
Definition startTurn (deadline : Time.t) (t : turn) (s : fetching) : (startEnd * fetching) + fetching :=
  let '(wrote, s) := fetchOnce t s in
  if wrote then inl (Wrote, s)
  else if t_ctx t then inl (CtxEnded, s)
  else
    let now := fg_now s in
    if f_stopped (fg_f s) then inl (onFile t RefusedFirst s)
    else if negb (Time.Before now deadline) then inl (onFile t NoGrantInTime s)
    else
      let '(fired, s) := wait t (Z.min (Time.Sub (f_nextAt (fg_f s)) now) (Time.Sub deadline now)) s in
      if fired then inr s else inl (CtxEnded, s).

(** [func (f *fetcher) start(ctx, timeout) error]: [fuel] bounds its turns,
    [turns] is what the world answers in each. *)
Fixpoint startLoop (fuel : nat) (deadline : Time.t) (turns : nat → turn) (s : fetching) : option (startEnd * fetching) :=
  match fuel with
  | 0 => None
  | S fuel' =>
      match startTurn deadline (turns 0) s with
      | inl r => Some r
      | inr s' => startLoop fuel' deadline (λ i, turns (S i)) s'
      end
  end.
Definition start (fuel : nat) (timeout : Time.duration) (turns : nat → turn) (s : fetching) : option (startEnd * fetching) :=
  startLoop fuel (Time.Add (fg_now s) timeout) turns s.

(** [func (f *fetcher) run(ctx)]: the turns it makes, until the controller
    stops the renewal, the context ends, or [turns] does. *)
Fixpoint run (turns : list turn) (s : fetching) : fetching :=
  match turns with
  | [] => s
  | t :: ts =>
      if f_stopped (fg_f s) then s
      else
        let '(fired, s) := wait t (Time.Sub (f_nextAt (fg_f s)) (fg_now s)) s in
        if fired then run ts (fetchOnce t s).2 else s
  end.
End fetch.
