(* ===== verification/FetchFacts.v ===== *)
(** * What the grant fetch promises (pkg/home/kubernetes/fetch.go)

    The waits, the start that ends, the pace of the requests, and a lease that
    does not lapse while the controller answers. *)

From S2P Require Import Prelude GoLib GoText Fence Errors Grant Proto Token Fetch.
From stdpp Require Import options.

(** ** The waits *)

Lemma nextDelay_min i : (minFetchWait ≤ nextDelay i)%Z.
Proof. unfold nextDelay. lia. Qed.

Lemma doubling_spec k limit : ∀ d, (0 < d)%Z → Z.min (doubling k limit d) limit = Z.min (2 ^ Z.of_nat k * d) limit.
Proof.
  induction k as [|k IH]; intros d Hd; cbn [doubling]; [f_equal; cbn; lia|].
  assert (2 ^ Z.of_nat (S k) = 2 * 2 ^ Z.of_nat k)%Z as E by (rewrite Nat2Z.inj_succ, Z.pow_succ_r; lia).
  pose proof (Z.pow_pos_nonneg 2 (Z.of_nat k) ltac:(lia) ltac:(lia)).
  destruct (d <? limit)%Z eqn:El; [rewrite IH by lia; f_equal; lia|]. apply Z.ltb_ge in El. rewrite E. nia.
Qed.

(** The loop computes the backoff of its comment: one second, doubled for each
    failure after the first, cut to the limit; the products stay far below
    the end of int64. *)
Lemma backoff_spec failures limit : backoff failures limit = Z.min (2 ^ Z.of_nat (failures - 1) * Time.Second) limit.
Proof. unfold backoff. rewrite doubling_spec by done. done. Qed.
Lemma doubling_range k limit : ∀ d, (0 < d)%Z → (doubling k limit d ≤ Z.max d (2 * limit))%Z.
Proof.
  induction k as [|k IH]; intros d Hd; cbn [doubling]; [lia|]. destruct (d <? limit)%Z eqn:E; [|lia].
  apply Z.ltb_lt in E. specialize (IH (d * 2)%Z). lia.
Qed.

(** A renewal comes at half the lease, and a wait for a Retry-After within a
    quarter of it. *)
Lemma renewal_delay r : (2 * Time.Second ≤ r)%Z → (0 < nextDelay (mkDelay true 0 None 0 r F64.zero) ≤ r / 2)%Z.
Proof.
  intros H. unfold nextDelay, minFetchWait. cbn [delayFor di_wrote di_remaining]. rewrite Z.quot_div_nonneg by (unfold Time.Second in *; lia).
  unfold Time.Second in *. split; [lia|]. assert (1000000000 ≤ r / 2)%Z by (apply Z.div_le_lower_bound; lia). lia.
Qed.
Lemma retryAfter_delay status after n r j :
  status = StatusTooManyRequests ∨ status = StatusServiceUnavailable → (4 * Time.Second ≤ r)%Z →
  (nextDelay (mkDelay false status (Some after) n r j) ≤ r / 4)%Z.
Proof.
  intros Hs Hr. unfold nextDelay, delayFor, minFetchWait. cbn [di_wrote di_status di_retryAfter di_remaining].
  assert ((0 <? r)%Z = true) as -> by (unfold Time.Second in *; lia). unfold Time.Second in *.
  rewrite Z.quot_div_nonneg by lia. assert (1000000000 ≤ r / 4)%Z by (apply Z.div_le_lower_bound; lia).
  destruct Hs as [-> | ->]; cbn; lia.
Qed.

(** ** Writing the grant *)

(** The file is renamed exactly where no error is due to its writing. *)
Lemma writeGrant_renamed mkdir sys tmp part uid token fs renamed ok fs' :
  writeGrant mkdir sys tmp part uid token fs = (renamed, ok, fs') →
  (renamed = false → ok = false) ∧ (renamed = true → fs' !! grantFile uid = Some token).
Proof.
  unfold writeGrant. destruct mkdir, (create_ok sys), (write_ok sys), (sync_ok sys), (close_ok sys), (rename_ok sys);
    cbn [negb]; intros [= <- <- <-]; split; try done; intros _; apply lookup_insert_eq.
Qed.

(** A reader sees the old token or the new one and never a part. *)
Lemma writeGrant_atomic mkdir sys tmp part uid token fs :
  tmp ≠ grantFile uid →
  let '(renamed, _, fs') := writeGrant mkdir sys tmp part uid token fs in
  fs' !! grantFile uid = (if renamed then Some token else fs !! grantFile uid) ∧
  ∀ name, name ≠ tmp → name ≠ grantFile uid → fs' !! name = fs !! name.
Proof.
  intros Ht. unfold writeGrant. destruct mkdir, (create_ok sys), (write_ok sys), (sync_ok sys), (close_ok sys), (rename_ok sys), (remove_ok sys);
    cbn [negb]; split; try (intros name H1 H2); simplify_map_eq; done.
Qed.

Section fetch.
Context `{O : JoseOps} `{JRq : JSON grantRequest} `{JAn : JSON grantAnswer}.
Context (parseTime : string → option Time.t) (podUID : string).
Notation held := (held podUID).
Notation checkAnswer := (checkAnswer podUID).
Notation accept := (accept podUID).
Notation request := (request parseTime podUID).
Notation fetchOnce := (fetchOnce parseTime podUID).
Notation startTurn := (startTurn parseTime podUID).
Notation startLoop := (startLoop parseTime podUID).
Notation start := (start parseTime podUID).
Notation run := (run parseTime podUID).

(** The directory holds the Pod's grant, the one the next request sends. *)
Definition holdsGrant (s : fetching) : Prop :=
  fg_fs s !! grantFile podUID = Some (f_previous (fg_f s)) ∧ PeekUID (f_previous (fg_f s)) = inl podUID ∧
  (String.length (f_previous (fg_f s)) ≤ MaxTokenBytes)%nat.

Lemma checkAnswer_inl raw g : checkAnswer raw = inl g →
  ga_UID g = podUID ∧ (String.length (ga_Token g) ≤ MaxTokenBytes)%nat ∧ PeekUID (ga_Token g) = inl podUID ∧ (ga_IssuedAt g < ga_ExpiresAt g)%Z.
Proof.
  unfold Fetch.checkAnswer. intros H. repeat setoid_rewrite rbind_inl in H. repeat setoid_rewrite need_inl in H.
  destruct H as (g' & _ & _ & Hu & _ & Hl & j & Hj & _ & Ejti & _ & He & [= <-]).
  destruct (PeekUID (ga_Token g')) as [j'|] eqn:Ej; [|done]. injection Hj as ->.
  apply bool_decide_eq_true in Hu, Ejti. apply negb_true_iff, Nat.ltb_ge in Hl. apply Z.ltb_lt in He. split_and!; [done|done|congruence|done].
Qed.

(** A request changes the loop's state only where it wrote a grant. *)
Lemma accept_cases t raw f fs err f' fs' :
  accept t raw f fs = (err, f', fs') →
  (∃ e, err = Some e ∧ f' = f) ∨
  (err = None ∧ ∃ g, checkAnswer raw = inl g ∧ fs' !! grantFile podUID = Some (ga_Token g) ∧
     f' = mkFetcher (ga_Token g) (ga_ExpiresAt g) (f_failures f) (f_nextAt f) (f_stopped f) (f_last f)).
Proof.
  unfold Fetch.accept. destruct (checkAnswer raw) as [g|e] eqn:Ec; [|intros [= <- <- <-]; left; eauto].
  destruct (writeGrant _ _ _ _ _ _ _) as [[renamed ok] fs''] eqn:Ew. apply writeGrant_renamed in Ew as [H1 H2].
  destruct renamed.
  - intros [= <- <- <-]. right. split; [done|]. exists g. split; [done|]. split; [|done].
    destruct (checkAnswer_inl raw g Ec) as [<- _]. by apply H2.
  - rewrite H1 by done. intros [= <- <- <-]. left. eauto.
Qed.

Lemma request_cases t now f fs a f' fs' out :
  request t now f fs = (a, f', fs', out) →
  (∃ e, at_err a = Some e ∧ f' = f) ∨
  (at_err a = None ∧ ∃ raw g, checkAnswer raw = inl g ∧ fs' !! grantFile podUID = Some (ga_Token g) ∧
     f' = mkFetcher (ga_Token g) (ga_ExpiresAt g) (f_failures f) (f_nextAt f) (f_stopped f) (f_last f)).
Proof.
  unfold Fetch.request. destruct (bearer _) as [b|e]; [|intros [= <- <- <- <-]; left; eauto].
  destruct (Marshal _) as [body|]; [|intros [= <- <- <- <-]; left; eauto].
  destruct (t_http t b body) as [|st|st after raw]; [intros [= <- <- <- <-]; left; cbn; eauto..|].
  destruct (st =? StatusOK)%Z; [|intros [= <- <- <- <-]; left; cbn; eauto].
  destruct (accept _ _ _ _) as [[err f1] fs1] eqn:Ea. intros [= <- <- <- <-].
  apply accept_cases in Ea as [(e & -> & ->)|(-> & g & Hg)]; [left; cbn; eauto|right; cbn; eauto].
Qed.

(** What one turn leaves: the clock and the requests sent; a grant where it
    wrote one; the rest of the loop's state otherwise. *)
Lemma fetchOnce_spec t s wrote s' :
  fetchOnce t s = (wrote, s') →
  (fg_now s' = fg_now s + Z.of_N (t_asked t) + Z.of_N (t_took t))%Z ∧
  (fg_sent s' = fg_sent s ∨ fg_sent s' = fg_now s :: fg_sent s) ∧
  (if wrote then holdsGrant s' ∧ f_stopped (fg_f s') = f_stopped (fg_f s) ∧
       (f_nextAt (fg_f s') = fg_now s' + nextDelay (mkDelay true 0 None 0 (Time.Sub (f_expiresAt (fg_f s')) (fg_now s')) F64.zero))%Z
   else f_previous (fg_f s') = f_previous (fg_f s) ∧ f_expiresAt (fg_f s') = f_expiresAt (fg_f s) ∧ is_Some (f_last (fg_f s')) ∧
       (f_stopped (fg_f s') = f_stopped (fg_f s) ∧ (fg_now s' + minFetchWait ≤ f_nextAt (fg_f s'))%Z ∨ f_stopped (fg_f s') = true)).
Proof.
  destruct s as [f fs now0 sent]. unfold Fetch.fetchOnce.
  destruct (request _ _ _ _) as [[[a f1] fs1] out] eqn:Er. cbn [fg_now fg_sent fg_f fg_fs].
  assert ((if out then now0 :: sent else sent) = sent ∨ (if out then now0 :: sent else sent) = now0 :: sent) as Hsent by (destruct out; auto).
  apply request_cases in Er as [(e & -> & ->)|(-> & raw & g & Hc & Hfs & ->)].
  - destruct (at_status a =? StatusConflict)%Z; intros [= <- <-]; cbn; (split; [done|]); (split; [done|]); split_and!; eauto.
    left. split; [done|]. unfold Time.Add. pose proof (nextDelay_min (mkDelay false (at_status a) (at_retryAfter a) (S (f_failures f))
      (Time.Sub (f_expiresAt f) (Time.Add (Time.Add now0 (Z.of_N (t_asked t))) (Z.of_N (t_took t)))) (t_jitter t))). unfold Time.Add in *. lia.
  - intros [= <- <-]. cbn. split; [done|]. split; [done|]. split; [|done].
    destruct (checkAnswer_inl _ _ Hc) as (_ & Hl & Hp & _). by split.
Qed.
(** ** The start *)

(** What an end of [start] says. *)
Definition endOK (deadline : Time.t) (r : startEnd) (s : fetching) : Prop :=
  match r with
  | Wrote => holdsGrant s
  | OnFile => held true (fg_fs s) = Some (f_previous (fg_f s), f_expiresAt (fg_f s)) ∧ (fg_now s < f_expiresAt (fg_f s))%Z
  | CtxEnded => is_Some (f_last (fg_f s))
  | RefusedFirst => f_stopped (fg_f s) = true
  | NoGrantInTime => (deadline ≤ fg_now s)%Z ∧ is_Some (f_last (fg_f s))
  end.

Lemma onFile_OK deadline t err s : endOK deadline err s → let r := onFile podUID t err s in endOK deadline r.1 r.2.
Proof.
  intros He. unfold onFile. destruct (held (t_readable t) (fg_fs s)) as [[tok e]|] eqn:Eh; [|done].
  destruct (Time.After e (fg_now s)) eqn:Ea; [|done]. apply Z.ltb_lt in Ea.
  destruct s as [f fs now sent]. cbn in *. split; [|done]. destruct (t_readable t); done.
Qed.

Lemma startTurn_spec deadline t s :
  match startTurn deadline t s with
  | inl (r, s') => endOK deadline r s'
  | inr s' => (fg_now s < deadline)%Z ∧ (fg_now s + Time.Second ≤ fg_now s')%Z
  end.
Proof.
  unfold Fetch.startTurn. destruct (fetchOnce t s) as [wrote s1] eqn:Ef. apply fetchOnce_spec in Ef as (Hn & _ & Hs).
  destruct wrote; [apply Hs|]. destruct Hs as (_ & _ & Hl & _). destruct (t_ctx t); [done|].
  destruct (f_stopped (fg_f s1)) eqn:Est.
  { by pose proof (onFile_OK deadline t RefusedFirst s1 Est) as H; destruct (onFile podUID t RefusedFirst s1). }
  destruct (Time.Before (fg_now s1) deadline) eqn:Eb; cbn [negb].
  - unfold wait. apply Z.ltb_lt in Eb. destruct (t_fired t); [|done]. cbn. unfold Time.Add, minFetchWait. lia.
  - apply Z.ltb_ge in Eb. by pose proof (onFile_OK deadline t NoGrantInTime s1 (conj Eb Hl)) as H; destruct (onFile podUID t NoGrantInTime s1).
Qed.

Lemma startLoop_ends fuel : ∀ deadline turns s, (1 ≤ fuel)%nat → (deadline - fg_now s ≤ (Z.of_nat fuel - 1) * Time.Second)%Z →
  ∃ r s', startLoop fuel deadline turns s = Some (r, s') ∧ endOK deadline r s'.
Proof.
  induction fuel as [|fuel IH]; intros deadline turns s Hf Hd; [lia|]. cbn [Fetch.startLoop].
  pose proof (startTurn_spec deadline (turns 0) s) as Ht. destruct (startTurn deadline (turns 0) s) as [[r s']|s']; [eauto|].
  destruct Ht as [H1 H2]. unfold Time.Second in *. apply IH; [|lia]. destruct fuel; lia.
Qed.

(** The first grant fetch ends.  Whatever the token file, the controller,
    the file system, other writers of the directory and the clock do in each
    turn, [start] with a timeout of [n] seconds or less returns after at most
    [n + 1] requests.  Where it returns nil, the grants directory holds a grant
    for this Pod that the next request will send: one just written, whose jti
    is the Pod's UID, or an unexpired one that was found there.  Where it fails,
    the controller answered 409, the context ended, or the deadline has passed. *)
Theorem start_ends fuel timeout turns s :
  (1 ≤ fuel)%nat → (timeout ≤ (Z.of_nat fuel - 1) * Time.Second)%Z →
  ∃ r s', start fuel timeout turns s = Some (r, s') ∧ endOK (fg_now s + timeout)%Z r s'.
Proof.
  intros Hf Ht. unfold Fetch.start. apply startLoop_ends; [done|]. unfold Time.Add. lia.
Qed.

(** ** The pace *)

Definition sentBy (gap : Z) (s : fetching) : Prop :=
  spaced Time.Second (fg_sent s) ∧ match fg_sent s with [] => True | a :: _ => (a + gap ≤ fg_now s)%Z end.

Lemma fetchOnce_paced t s : sentBy Time.Second s → sentBy 0 (fetchOnce t s).2.
Proof.
  intros [Hs Hl]. destruct (fetchOnce t s) as [wrote s'] eqn:E. apply fetchOnce_spec in E as (Hn & Hse & _). cbn. unfold sentBy.
  destruct Hse as [-> | ->].
  - split; [done|]. destruct (fg_sent s); [done|]. unfold Time.Second in *. lia.
  - split; [|lia]. cbn. split; [|done]. destruct (fg_sent s); done.
Qed.
Lemma wait_paced t d s s' : wait t d s = (true, s') → sentBy 0 s → sentBy Time.Second s'.
Proof.
  unfold wait. destruct (t_fired t); [|done]. intros [= <-] [Hs Hl]. split; [done|]. cbn. destruct (fg_sent s); [done|].
  unfold Time.Add, minFetchWait. lia.
Qed.

Lemma run_paced ts : ∀ s, sentBy 0 s → sentBy 0 (run ts s).
Proof.
  induction ts as [|t ts IH]; intros s Hs; [done|]. cbn [Fetch.run]. destruct (f_stopped (fg_f s)); [done|].
  destruct (wait t _ s) as [fired s1] eqn:Ew. destruct fired.
  - apply IH, fetchOnce_paced. by eapply wait_paced.
  - unfold wait in Ew. destruct (t_fired t); [done|]. by injection Ew as <-.
Qed.

Lemma onFile_sent t err s : fg_sent (onFile podUID t err s).2 = fg_sent s ∧ fg_now (onFile podUID t err s).2 = fg_now s.
Proof. unfold onFile. destruct (held _ _) as [[tok e]|]; [|done]. destruct (Time.After _ _); [|done]. by destruct s. Qed.

Lemma startTurn_paced deadline t s :
  sentBy Time.Second s →
  match startTurn deadline t s with inl (_, s') => sentBy 0 s' | inr s' => sentBy Time.Second s' end.
Proof.
  intros H%(fetchOnce_paced t). unfold Fetch.startTurn. destruct (fetchOnce t s) as [wrote s1]. cbn in H.
  destruct wrote; [done|]. destruct (t_ctx t); [done|].
  assert (∀ err, match onFile podUID t err s1 with (_, s') => sentBy 0 s' end) as Hf.
  { intros err. pose proof (onFile_sent t err s1) as [E1 E2]. destruct (onFile podUID t err s1) as [r s']. cbn in *. unfold sentBy. by rewrite E1, E2. }
  destruct (f_stopped _); [apply Hf|]. destruct (negb _); [apply Hf|].
  destruct (wait t _ s1) as [fired s2] eqn:Ew. destruct fired; [by eapply wait_paced|].
  unfold wait in Ew. destruct (t_fired t); [done|]. by injection Ew as <-.
Qed.
Lemma startLoop_paced fuel : ∀ deadline turns s r s', sentBy Time.Second s → startLoop fuel deadline turns s = Some (r, s') → sentBy 0 s'.
Proof.
  induction fuel as [|fuel IH]; intros deadline turns s r s' Hs; [done|]. cbn [Fetch.startLoop].
  pose proof (startTurn_paced deadline (turns 0) s Hs) as H. destruct (startTurn deadline (turns 0) s) as [[r1 s1]|s1]; [by intros [= <- <-]|].
  by apply IH.
Qed.

Lemma run_stopped ts1 ts2 : ∀ s, f_stopped (fg_f (run ts1 s)) = true → run (ts1 ++ ts2) s = run ts1 s.
Proof.
  induction ts1 as [|t ts1 IH]; intros s; cbn [Fetch.run app].
  - intros H. destruct ts2; cbn [Fetch.run]; [done|]. by rewrite H.
  - destruct (f_stopped (fg_f s)); [done|]. destruct (wait t _ s) as [[|] s1]; [apply IH|done].
Qed.

(** The controller is not flooded.  Over the whole life of the fetch, its
    start and then any number of renewals, whatever the controller and the
    clock do, any interval of [d] seconds sees at most [d + 1] requests; and
    once the controller answered 409 no request follows. *)
Theorem fetch_paced fuel timeout turns readable fs now r s ts :
  start fuel timeout turns (mkFetching (newFetcher podUID readable fs) fs now []) = Some (r, s) →
  (∀ from to, (from ≤ to)%Z → (countIn from to (fg_sent (run ts s)) ≤ (to - from) / Time.Second + 1)%Z) ∧
  (∀ more, f_stopped (fg_f (run ts s)) = true → run (ts ++ more) s = run ts s).
Proof.
  intros H. apply startLoop_paced in H; [|by split]. split; [|intros more; apply run_stopped].
  intros from to Hft. apply spaced_count; [done| |done]. by apply (run_paced ts) in H as [H _].
Qed.

(** ** The lease *)

(** The controller and the file system serve the request sent from [s]: the
    Pod's token is read, the answer is a grant of this Pod whose lease has [lease] left when the turn
    ends, and every call up to the rename succeeds. *)
Definition served (lease : Time.duration) (t : turn) (s : fetching) : Prop :=
  ∃ b body after raw g,
    bearer (t_token t) = inl b ∧ Marshal (mkRequest (f_previous (fg_f s))) = Some body ∧
    t_http t b body = Reply StatusOK after raw ∧ checkAnswer (str_take maxAnswerBytes raw) = inl g ∧
    (fg_now s + Z.of_N (t_asked t) + Z.of_N (t_took t) + lease ≤ ga_ExpiresAt g)%Z ∧
    t_mkdir t = true ∧ create_ok (t_sys t) = true ∧ write_ok (t_sys t) = true ∧ sync_ok (t_sys t) = true ∧
    close_ok (t_sys t) = true ∧ rename_ok (t_sys t) = true.
(** One turn of [run]. *)
Definition waited (t : turn) (s : fetching) : fetching := (wait t (Time.Sub (f_nextAt (fg_f s)) (fg_now s)) s).2.
(** Every turn is served, and its timer and requests are not later than half
    the lease. *)
Fixpoint servedRun (lease : Time.duration) (ts : list turn) (s : fetching) : Prop :=
  match ts with
  | [] => True
  | t :: ts' =>
      t_fired t = true ∧ (2 * (Z.of_N (t_late t) + Z.of_N (t_asked t) + Z.of_N (t_took t)) < lease)%Z ∧
      served lease t (waited t s) ∧ servedRun lease ts' (fetchOnce t (waited t s)).2
  end.
(** The lease held when a turn begins has not ended when the turn ends. *)
Fixpoint leaseHeld (ts : list turn) (s : fetching) : Prop :=
  match ts with
  | [] => (fg_now s < f_expiresAt (fg_f s))%Z
  | t :: ts' =>
      let s' := (fetchOnce t (waited t s)).2 in
      (fg_now s' < f_expiresAt (fg_f s))%Z ∧ leaseHeld ts' s'
  end.
(** The renewal is due by half of the lease, which is no shorter than [lease]. *)
Definition renewable (lease : Time.duration) (s : fetching) : Prop :=
  f_stopped (fg_f s) = false ∧ (fg_now s + lease ≤ f_expiresAt (fg_f s))%Z ∧
  (0 < f_nextAt (fg_f s) - fg_now s ≤ (f_expiresAt (fg_f s) - fg_now s) / 2)%Z.

Lemma served_writes lease t s : served lease t s → f_stopped (fg_f s) = false →
  ∃ s', fetchOnce t s = (true, s') ∧ f_stopped (fg_f s') = false ∧ (fg_now s' + lease ≤ f_expiresAt (fg_f s'))%Z.
Proof.
  intros (b & body & after & raw & g & Hb & Hm & Hh & Hc & He & H1 & H2 & H3 & H4 & H5 & H6) Hst.
  destruct s as [f fs now0 sent]. cbn in *. unfold Fetch.fetchOnce, Fetch.request. rewrite Hb, Hm, Hh. cbn [Z.eqb StatusOK Pos.eqb].
  unfold Fetch.accept. rewrite Hc. unfold writeGrant. rewrite H1, H2, H3, H4, H5, H6. cbn. eauto.
Qed.

Lemma renewable_after lease t s s' : (2 * Time.Second ≤ lease)%Z → fetchOnce t s = (true, s') →
  f_stopped (fg_f s') = false → (fg_now s' + lease ≤ f_expiresAt (fg_f s'))%Z → renewable lease s'.
Proof.
  intros Hl Hf Hst He. split; [done|]. split; [done|]. apply fetchOnce_spec in Hf as (_ & _ & _ & _ & ->).
  set (rest := (f_expiresAt (fg_f s') - fg_now s')%Z).
  assert (2 * Time.Second ≤ Time.Sub (f_expiresAt (fg_f s')) (fg_now s') ≤ rest)%Z as [Hr1 Hr2].
  { unfold Time.Sub, Time.minDuration, Time.maxDuration, Time.Second in *. subst rest. lia. }
  pose proof (renewal_delay _ Hr1) as [? ?]. split; [lia|].
  transitivity (Time.Sub (f_expiresAt (fg_f s')) (fg_now s') / 2)%Z; [lia|]. apply Z.div_le_mono; lia.
Qed.

(** C40: The Pod's lease does not lapse while the controller and the file system
    serve it.  From a written grant on, if at every renewal the Pod's token file
    is readable, the answer is a grant of this Pod with at least [lease] left
    (two seconds or more), making the directory and creating, writing, syncing,
    closing and renaming the grant's file succeed, and the timer's and the
    request's delays stay below half of [lease]: then each renewal is written
    while the lease before it still holds, and the renewal never stops. *)
Theorem lease_never_lapses lease ts s :
  (2 * Time.Second ≤ lease)%Z → renewable lease s → servedRun lease ts s →
  leaseHeld ts s ∧ renewable lease (run ts s).
Proof.
  intros Hl. revert s. induction ts as [|t ts IH]; intros s Hr Hs.
  { cbn. split; [|done]. destruct Hr as (_ & H & _). unfold Time.Second in *. lia. }
  destruct Hs as (Hfi & Hd & Hse & Hs). destruct Hr as (Hst & Hex & Hn1 & Hn2).
  cbn [leaseHeld Fetch.run]. rewrite Hst.
  assert (fg_f (waited t s) = fg_f s) as Hwf by (unfold waited, wait; by rewrite Hfi).
  assert (fg_now (waited t s) ≤ fg_now s + Z.max (f_nextAt (fg_f s) - fg_now s) Time.Second + Z.of_N (t_late t))%Z as Hwn.
  { unfold waited, wait. rewrite Hfi. cbn. unfold Time.Add, Time.Sub, minFetchWait, Time.maxDuration, Time.minDuration. lia. }
  destruct (served_writes lease t (waited t s) Hse ltac:(by rewrite Hwf)) as (s' & Ef & Hst' & He').
  rewrite Ef in Hs |- *. cbn [snd] in Hs |- *.
  destruct (IH s' (renewable_after lease t _ s' Hl Ef Hst' He') Hs) as [IH1 IH2].
  assert (wait t (Time.Sub (f_nextAt (fg_f s)) (fg_now s)) s = (true, waited t s)) as Ew by (unfold waited, wait; by rewrite Hfi).
  rewrite Ew, Ef. cbn [snd]. split; [|done]. split; [|done].
  apply fetchOnce_spec in Ef as (-> & _ & _).
  pose proof (Z.div_mod (f_expiresAt (fg_f s) - fg_now s) 2 ltac:(lia)).
  pose proof (Z.mod_pos_bound (f_expiresAt (fg_f s) - fg_now s) 2 ltac:(lia)). unfold Time.Second in *. lia.
Qed.
End fetch.

(** ** A concrete fetch *)

#[local] Instance grantRequest_eq_dec : EqDecision grantRequest. Proof. solve_decision. Defined.
#[local] Instance grantAnswer_eq_dec : EqDecision grantAnswer. Proof. solve_decision. Defined.
Definition demoAnswers : list grantAnswer :=
  [mkAnswer "0" (UID bookGrant) bookNow (bookNow + 60 * Time.Second)%Z; mkAnswer "0" (UID bookGrant) bookNow (bookNow + 90 * Time.Second)%Z].
#[local] Instance demoRequestJSON : JSON grantRequest := bookJSON [mkRequest ""; mkRequest "0"].
#[local] Instance demoAnswerJSON : JSON grantAnswer := bookJSON demoAnswers.

(** A turn in which the controller answers so, two seconds after it was asked. *)
Definition demoTurn (r : httpReply) : turn :=
  mkTurn (Some "pod-token") (λ _ _, r) true all_ok ".grant-1.tmp" "" (2 * 1000000000)%N 0%N F64.zero false (λ fs, fs) true 0%N true.
(** Busy first, then a grant. *)
Definition demoTurns (i : nat) : turn :=
  match i with 0 => demoTurn (Reply StatusServiceUnavailable "3" "") | _ => demoTurn (Reply StatusOK "" "0") end.
Definition demoFetch : fetching := mkFetching (newFetcher (UID bookGrant) true ∅) ∅ bookNow [].
Definition demoStarted : option (startEnd * fetching) :=
  start (λ _, None) (UID bookGrant) 61 (60 * Time.Second)%Z demoTurns demoFetch.
Definition demoHeld : fetching := match demoStarted with Some (_, s) => s | None => demoFetch end.

Lemma start_ends_witness : ∃ r s', demoStarted = Some (r, s') ∧ endOK (UID bookGrant) (bookNow + 60 * Time.Second)%Z r s'.
Proof. apply (start_ends (λ _, None) (UID bookGrant) 61 (60 * Time.Second)%Z demoTurns demoFetch); [lia|vm_compute; discriminate]. Defined.

Lemma demoHeld_eq : start (λ _, None) (UID bookGrant) 61 (60 * Time.Second)%Z demoTurns demoFetch = Some (Wrote, demoHeld).
Proof. vm_compute. reflexivity. Qed.
Lemma fetch_paced_witness :
  (countIn bookNow (bookNow + 60 * Time.Second) (fg_sent (run (λ _, None) (UID bookGrant) [] demoHeld))
     ≤ (bookNow + 60 * Time.Second - bookNow) / Time.Second + 1)%Z.
Proof.
  apply (fetch_paced (λ _, None) (UID bookGrant) 61 (60 * Time.Second)%Z demoTurns true ∅ bookNow Wrote demoHeld []); [exact demoHeld_eq|].
  vm_compute. discriminate.
Defined.
(** Its two requests are five seconds apart: two to answer, three to wait. *)
Example demo_sent : fg_sent demoHeld = [(bookNow + 5 * Time.Second)%Z; bookNow].
Proof. vm_compute. reflexivity. Qed.

Definition demoRenewal : turn := demoTurn (Reply StatusOK "" "1").
Lemma lease_never_lapses_witness :
  leaseHeld (λ _, None) (UID bookGrant) [demoRenewal] demoHeld ∧ renewable (20 * Time.Second)%Z (run (λ _, None) (UID bookGrant) [demoRenewal] demoHeld).
Proof.
  apply (lease_never_lapses (λ _, None) (UID bookGrant) (20 * Time.Second)%Z [demoRenewal] demoHeld).
  - vm_compute. discriminate.
  - split; [vm_compute; reflexivity|]. split; [vm_compute; discriminate|]. vm_compute. split; [reflexivity|discriminate].
  - split; [reflexivity|]. split; [vm_compute; reflexivity|]. split; [|exact I].
    exists "pod-token". do 4 eexists. split; [vm_compute; reflexivity|]. split; [vm_compute; reflexivity|]. split; [reflexivity|].
    split; [vm_compute; reflexivity|]. split; [vm_compute; discriminate|]. done.
Defined.

(** The extremes of the jitter on a full backoff: 22.5 s and 37.5 s. *)
Example jittered_range :
  jittered maxBackoff F64.zero = (22500 * Time.Millisecond)%Z ∧ jittered maxBackoff F64.one = (37500 * Time.Millisecond)%Z.
Proof. by vm_compute. Qed.
