(* ===== verification/HealthPoll.v ===== *)
(** * The health poll of a home (pkg/home/healthpoll.go)

    HealthPoll over the issuer health of Health.v: each step is one hold of the
    poll's lock after a round, a pause, or a question. *)

From S2P Require Import Prelude GoLib Errors Health.
From stdpp Require Import options.

(** [type HealthPoll struct], its mutable part. *)
Record healthPoll := mkPoll { hp_health : SourceHealth; hp_paused : bool; hp_lastErr : string }.

(** What Round returned: nil, its context's own error, or another. *)
Inductive roundErr := RoundOK | RoundCanceled (text : string) | RoundFailed (text : string).

(** The error of [func (p *HealthPoll) round(ctx) error], as its text;
    [timedOut] is whether the timer ended the context. *)
Definition pollRound (every : string) (timedOut : bool) (e : roundErr) : option string :=
  match e with
  | RoundOK => None
  | RoundCanceled text => Some (if timedOut then "poll round timed out after " +:+ every else text)
  | RoundFailed text => Some text
  end.

(** The transition Once reports. *)
Inductive report := ReportError (text : string) | ReportRecovered.

(** [func (p *HealthPoll) Once(ctx) error], once [err] is known *)
Definition Once (err : option string) (now : Time.t) (p : healthPoll) : option report * healthPoll :=
  let was := hp_lastErr p in
  match err with
  | Some text => (if text <>? was then Some (ReportError text) else None, mkPoll (hp_health p) (hp_paused p) text)
  | None =>
      (if was <>? "" then Some ReportRecovered else None,
       mkPoll (if hp_paused p then hp_health p else MarkSync now (hp_health p)) (hp_paused p) "")
  end.

(** [func (p *HealthPoll) SetPaused(paused bool)] *)
Definition SetPaused (paused : bool) (p : healthPoll) : healthPoll := mkPoll (hp_health p) paused (hp_lastErr p).

(** [func (h *Home) SetIssuerReachable(reachable bool)] of the Kubernetes home;
    [now] is the clock's after the pause *)
Definition SetIssuerReachable (stale : Time.duration) (reachable : bool) (now : Time.t) (p : healthPoll) : healthPoll :=
  let p := SetPaused (negb reachable) p in
  mkPoll (MarkSync (if reachable then now else Time.Add now (- stale)%Z) (hp_health p)) (hp_paused p) (hp_lastErr p).

(** ** Histories *)

(** A round's end or a question of the miss codes, at its time. *)
Inductive pollOp := PRound (err : option string) (now : Time.t) | PAsk (now : Time.t).
Definition opTime (o : pollOp) : Time.t := match o with PRound _ now | PAsk now => now end.

Definition pollStep (o : pollOp) (p : healthPoll) : healthPoll :=
  match o with
  | PRound err now => (Once err now p).2
  | PAsk now => mkPoll (Healthy now (hp_health p)).2 (hp_paused p) (hp_lastErr p)
  end.
Definition pollRun (l : list pollOp) (p : healthPoll) : healthPoll := foldl (λ p o, pollStep o p) p l.
(** What a question is answered after a history. *)
Definition askedAt (now : Time.t) (p : healthPoll) : bool := (Healthy now (hp_health p)).1.

(** Times UnixNano can hold, to either side of the stale TTL. *)
Definition clockOK (stale : Time.duration) (t : Time.t) : Prop :=
  (stale ≤ t - Time.unixToInternal * Time.Second < 2 ^ 63)%Z.

Lemma UnixNano_round t : (0 ≤ t - Time.unixToInternal * Time.Second < 2 ^ 63)%Z → fromUnixNano (UnixNano t) = t.
Proof. intros H. unfold fromUnixNano, UnixNano, int64. rewrite Z.mod_small by lia. lia. Qed.

(** While paused, the health keeps the mark it was paused with. *)
Lemma paused_run l : ∀ p, hp_paused p = true →
  hp_paused (pollRun l p) = true ∧ h_lastSync (hp_health (pollRun l p)) = h_lastSync (hp_health p) ∧
  h_stale (hp_health (pollRun l p)) = h_stale (hp_health p) ∧ h_recover (hp_health (pollRun l p)) = h_recover (hp_health p).
Proof.
  induction l as [|o l IH]; intros p Hp; [done|]. cbn [pollRun foldl]. fold (pollRun l (pollStep o p)).
  assert (hp_paused (pollStep o p) = true ∧ h_lastSync (hp_health (pollStep o p)) = h_lastSync (hp_health p) ∧
          h_stale (hp_health (pollStep o p)) = h_stale (hp_health p) ∧
          h_recover (hp_health (pollStep o p)) = h_recover (hp_health p)) as (H1 & H2 & H3 & H4).
  { destruct o as [[text|] now|now]; cbn; rewrite ?Hp; done. }
  destruct (IH _ H1) as (? & ? & ? & ?). split_and!; congruence.
Qed.

(** The time of the last round that marked the health. *)
Fixpoint lastMark (l : list pollOp) (t0 : Time.t) : Time.t :=
  match l with
  | [] => t0
  | PRound None now :: l' => lastMark l' now
  | _ :: l' => lastMark l' t0
  end.

Lemma marked_run l : ∀ p t0, hp_paused p = false → h_lastSync (hp_health p) = UnixNano t0 →
  h_lastSync (hp_health (pollRun l p)) = UnixNano (lastMark l t0) ∧ h_stale (hp_health (pollRun l p)) = h_stale (hp_health p) ∧
  h_recover (hp_health (pollRun l p)) = h_recover (hp_health p).
Proof.
  induction l as [|o l IH]; intros p t0 Hp Hs; [done|]. cbn [pollRun foldl]. fold (pollRun l (pollStep o p)).
  destruct o as [[text|] now|now]; cbn [lastMark];
    [destruct (IH (pollStep (PRound (Some text) now) p) t0 Hp Hs) as (H1 & H2 & H3)
    |destruct (IH (pollStep (PRound None now) p) now Hp ltac:(cbn; by rewrite Hp)) as (H1 & H2 & H3)
    |destruct (IH (pollStep (PAsk now) p) t0 Hp Hs) as (H1 & H2 & H3)];
    rewrite H1, H2, H3; cbn; by rewrite ?Hp.
Qed.

Lemma h_age_exact now t stale h : h_lastSync h = UnixNano t → (0 ≤ t - Time.unixToInternal * Time.Second < 2 ^ 63)%Z → (t ≤ now)%Z →
  (stale ≤ Time.maxDuration)%Z → (stale ≤ h_age now h ↔ stale ≤ now - t)%Z.
Proof.
  intros E Ht Hn Hs. unfold h_age. rewrite E, UnixNano_round by done. unfold Time.Sub, Time.minDuration, Time.maxDuration in *. lia.
Qed.

(** The issuer override holds: once it is marked unreachable, every question
    is answered "unhealthy", whatever rounds answer in between, until it is
    marked reachable again; and then a question within half the stale TTL of
    the mark is answered "healthy". *)
Theorem override_holds stale t0 l p now :
  h_stale (hp_health p) = stale → (0 < stale ≤ Time.maxDuration)%Z → clockOK stale t0 → (t0 ≤ now)%Z →
  askedAt now (pollRun l (SetIssuerReachable stale false t0 p)) = false ∧
  (h_recover (hp_health p) = Z.quot stale 2 → ∀ t1 now', clockOK stale t1 → (t1 ≤ now' < t1 + Z.quot stale 2)%Z →
     askedAt now' (SetIssuerReachable stale true t1 (pollRun l (SetIssuerReachable stale false t0 p))) = true).
Proof.
  intros Hst Hs Hc Hn. set (q := SetIssuerReachable stale false t0 p).
  destruct (paused_run l q eq_refl) as (Hp & Hl & Hsq & Hrq). unfold clockOK in Hc.
  assert (h_lastSync (hp_health (pollRun l q)) = UnixNano (t0 - stale)%Z) as Hl' by exact Hl.
  assert (h_stale (hp_health (pollRun l q)) = stale) as Hsq' by (rewrite Hsq; exact Hst).
  split.
  - unfold askedAt, Healthy. rewrite Hsq'.
    rewrite (proj2 (Z.leb_le stale _)); [done|]. apply (h_age_exact now (t0 - stale)%Z); [done|lia..].
  - intros Hr t1 now' Hc1 Hn1. unfold clockOK in Hc1. unfold askedAt, Healthy. cbn. rewrite Hsq'.
    rewrite Hrq. unfold q. cbn [SetIssuerReachable SetPaused hp_health h_recover MarkSync]. rewrite Hr.
    set (h := MarkSync _ _). assert (Z.quot stale 2 ≤ stale)%Z by (apply Z.quot_le_upper_bound; lia).
    assert (h_lastSync h = UnixNano t1) as Eh by done.
    assert (¬ (stale ≤ h_age now' h)%Z) by (rewrite (h_age_exact now' t1); [lia|done|lia..]).
    assert (¬ (Z.quot stale 2 ≤ h_age now' h)%Z) by (rewrite (h_age_exact now' t1); [lia|done|lia..]).
    rewrite (proj2 (Z.leb_gt _ _)), (proj2 (Z.ltb_lt _ _)) by lia. done.
Qed.

(** The health follows the rounds: a question is answered "unhealthy" once no
    round answered for the stale TTL, and "healthy" while one answered less
    than half of it ago, whatever rounds failed in between and whatever was
    answered before. *)
Theorem health_follows_rounds stale t0 l now :
  (0 < stale ≤ Time.maxDuration)%Z →
  clockOK 0%Z (lastMark l t0) → (lastMark l t0 ≤ now)%Z →
  let asked := askedAt now (pollRun l (mkPoll (NewSourceHealth stale t0) false "")) in
  ((stale ≤ now - lastMark l t0)%Z → asked = false) ∧ ((now - lastMark l t0 < Z.quot stale 2)%Z → asked = true).
Proof.
  intros Hs Hc Hn. unfold clockOK in Hc. set (p := mkPoll _ _ _).
  destruct (marked_run l p t0 eq_refl eq_refl) as (Hl & Hst & Hr). unfold askedAt, Healthy. rewrite Hst, Hr. cbn [p hp_health h_stale h_recover NewSourceHealth].
  assert (Z.quot stale 2 ≤ stale)%Z by (apply Z.quot_le_upper_bound; lia).
  pose proof (h_age_exact now _ stale _ Hl ltac:(lia) Hn ltac:(lia)) as H1.
  pose proof (h_age_exact now _ (Z.quot stale 2) _ Hl ltac:(lia) Hn ltac:(lia)) as H2.
  split; intros H3.
  - rewrite (proj2 (Z.leb_le _ _)) by (by apply H1). done.
  - rewrite (proj2 (Z.leb_gt _ _)), (proj2 (Z.ltb_lt _ _)) by lia. done.
Qed.

(** A transition is reported once: a round that fails as the one before it did
    is silent, and so is one that answers after one that answered. *)
Lemma Once_quiet err now now' p : (Once err now' (Once err now p).2).1 = None.
Proof. destruct err as [text|]; cbn; by rewrite bool_decide_eq_true_2. Qed.
