(* ===== verification/KubeHome.v ===== *)
(** * The Kubernetes home's rounds (pkg/home/kubernetes/poll.go, kubernetes.go, kube.go)

    One poll round as a function of what the API server answers; the scope
    losses go to the queue of ScopeLoss.v.  The API objects are records of the
    fields the home reads. *)

From Stdlib Require Import Ascii.
From S2P Require Import Prelude GoLib Errors ScopeLoss.
From stdpp Require Import options.

(** ** The API server's answers *)

(** A Pod's reference to a claim: its name in the Pod, and the claim's name, nil
    or set, in the spec and in the status. *)
Record podClaim := mkPodClaim { pc_Name : string; pc_ResourceClaimName : option string }.
Record Pod := mkPod {
  p_UID : string; p_deleted : bool; p_ServiceAccountName : string; p_NodeName : string;
  p_claims : list podClaim;      (** Spec.ResourceClaims *)
  p_statuses : list podClaim;    (** Status.ResourceClaimStatuses *)
}.
Record Namespace := mkNamespace { n_deleted : bool; n_terminating : bool }.

(** An API error: [apierrors.IsNotFound], [errors.Is(err, ErrNoResourceClaims)],
    and its status where [errors.As] finds one: whether the reason is NotFound,
    and the details' kind and name. *)
Record apiErr := mkApiErr { e_notFound : bool; e_noClaims : bool; e_status : option (bool * option (string * string)); e_text : string }.

(** What one round reads; a claim's answer is whether it is being deleted. *)
Record cluster := mkCluster {
  k_pod : Pod + apiErr;
  k_namespace : Namespace + apiErr;
  k_claim : string → bool + apiErr;
}.

(** The letters of a case-insensitive ASCII text that a rune folds to: the
    ASCII letter itself, or the long s (U+017F) and the Kelvin sign (U+212A). *)
Definition lowerASCII (c : ascii) : ascii :=
  if ((65 <=? N_of_ascii c) && (N_of_ascii c <=? 90))%N then ascii_of_N (N_of_ascii c + 32) else c.
Definition longS : string := String (ascii_of_N 197) (String (ascii_of_N 191) "").
Definition kelvin : string := String (ascii_of_N 226) (String (ascii_of_N 132) (String (ascii_of_N 170) "")).
(** [strings.EqualFold(s, pat)] for a [pat] of lower-case ASCII *)
Fixpoint EqualFold (s pat : string) : bool :=
  match pat with
  | "" => s ==? ""
  | String c pat' =>
      match s with
      | "" => false
      | String a s1 =>
          (lowerASCII a ==? c) && EqualFold s1 pat' ||
          (c ==? "s"%char) && match s1 with String b s2 => (String a (String b "") ==? longS) && EqualFold s2 pat' | "" => false end ||
          (c ==? "k"%char) && match s1 with
                              | String b (String d s3) => (String a (String b (String d "")) ==? kelvin) && EqualFold s3 pat'
                              | _ => false
                              end
      end
  end.

Definition claimsResource : string := "resourceclaims".
(** [func isClaimNotFound(err error, name string) bool] *)
Definition isClaimNotFound (e : apiErr) (name : string) : bool :=
  match e_status e with
  | Some (true, Some (kind, n)) => EqualFold kind claimsResource || (n ==? name)
  | _ => false
  end.

(** ** The claims a Pod names *)

(** The [byRef] map. *)
Definition byRef (p : Pod) : gmap string string :=
  foldl (λ m st, match pc_ResourceClaimName st with Some n => <[pc_Name st := n]> m | None => m end) ∅ (p_statuses p).
(** The name of one reference, "" when the kubelet has not resolved it. *)
Definition claimName (p : Pod) (rc : podClaim) : string :=
  let name := default "" (byRef p !! pc_Name rc) in
  if name ==? "" then default "" (pc_ResourceClaimName rc) else name.
(** [slices.Compact] *)
Fixpoint Compact (l : list string) : list string :=
  match l with
  | [] => []
  | a :: l' => match l' with
               | b :: _ => if a ==? b then Compact l' else a :: Compact l'
               | [] => [a]
               end
  end.
(** [func claimNames(p *corev1.Pod) []string] *)
Definition claimNames (p : Pod) : list string :=
  Compact (merge_sort String.le (filter (λ n, n ≠ "") (claimName p <$> p_claims p))).
(** [strings.Join(claims, ",")] *)
Fixpoint joinClaims (l : list string) : string :=
  match l with [] => "" | a :: l' => match l' with [] => a | _ => a +:+ "," +:+ joinClaims l' end end.

(** ** The home *)

(** The part of [Config] the rounds read. *)
Record kubeConfig := mkKubeConfig { kc_PodName : string; kc_PodNamespace : string; kc_PodUID : string; kc_StaleTTL : Time.duration; kc_Devices : list string }.

(** [func scopeOf(cfg Config, p *corev1.Pod, claims []string) []core.ScopeClaim] *)
Definition scopeOf (c : kubeConfig) (p : option Pod) (claims : list string) : list (string * string) :=
  [("namespace", kc_PodNamespace c); ("pod", kc_PodName c); ("pod_uid", kc_PodUID c)] ++
  match p with
  | Some p => (if p_ServiceAccountName p <>? "" then [("service_account", p_ServiceAccountName p)] else []) ++
              (if p_NodeName p <>? "" then [("node", p_NodeName p)] else [])
  | None => []
  end ++ ((λ claim, ("resource_claim", claim)) <$> claims).

(** [type Home struct]: the losses, and what [mu] guards; nil is [None], the
    zero time [Time.zero]. *)
Record kubeHome := mkKubeHome {
  kh_losses : lossQueue;
  kh_self : option Pod;
  kh_claims : list string;
  kh_scope : option (list (string * string));
  kh_unreadableSince : Time.t;
}.

(** The reasons. *)
Definition reasonPodGone : string := "pod gone".
Definition reasonPodReplaced : string := "pod replaced".
Definition reasonPodTerminating : string := "pod terminating".
Definition reasonNamespaceTerminating : string := "namespace terminating".
Definition reasonClaimDeleted (name : string) : string := "resource claim " +:+ name +:+ " deleted".
Definition reasonClaimUnreadable (name : string) : string := "resource claim " +:+ name +:+ " unreadable".

Section home.
Context (cfg : kubeConfig).

(** [func (h *Home) lose(reason string)] *)
Definition lose (reason : string) (h : kubeHome) : kubeHome :=
  mkKubeHome (Lose reason (kh_losses h)).2 (kh_self h) (kh_claims h) (kh_scope h) (kh_unreadableSince h).

(** [func (h *Home) store(p *corev1.Pod, claims []string)] *)
Definition store (p : Pod) (claims : list string) (h : kubeHome) : kubeHome :=
  mkKubeHome (kh_losses h) (Some p) claims (Some (scopeOf cfg (Some p) claims)) (kh_unreadableSince h).

(** [func (h *Home) unreadableFor(claims []string, unreadable bool) []string] *)
Definition unreadableFor (claims : list string) (unreadable : bool) (now : Time.t) (h : kubeHome) : list string * kubeHome :=
  let since_ t := mkKubeHome (kh_losses h) (kh_self h) (kh_claims h) (kh_scope h) t in
  if negb unreadable then ([], since_ Time.zero)
  else
    let h := if Time.IsZero (kh_unreadableSince h) then since_ now else h in
    if (Time.Sub now (kh_unreadableSince h) <? kc_StaleTTL cfg)%Z then ([], h) else (claims, h).

(** The loop over the claims: whether any was unreadable and the home, or the
    error that ends the round, with the home as it is then. *)
Fixpoint claimLoop (k : cluster) (claims : list string) (unreadable : bool) (h : kubeHome) : (bool + apiErr) * kubeHome :=
  match claims with
  | [] => (inl unreadable, h)
  | claim :: rest =>
      match k_claim k claim with
      | inr e =>
          if e_noClaims e then claimLoop k rest true h
          else if isClaimNotFound e claim then claimLoop k rest unreadable (lose (reasonClaimDeleted claim) h)
          else (inr e, h)
      | inl true => claimLoop k rest unreadable (lose (reasonClaimDeleted claim) h)
      | inl false => claimLoop k rest unreadable h
      end
  end.

(** The round from the claims on. *)
Definition roundClaims (k : cluster) (p : Pod) (now : Time.t) (h : kubeHome) : option apiErr * kubeHome :=
  let claims := claimNames p in
  match claimLoop k claims false h with
  | (inr e, h) => (Some e, h)
  | (inl unreadable, h) =>
      let '(lost, h) := unreadableFor claims unreadable now h in
      (None, store p claims (foldl (λ h c, lose (reasonClaimUnreadable c) h) h lost))
  end.
(** The round from the namespace on. *)
Definition roundNamespace (k : cluster) (p : Pod) (now : Time.t) (h : kubeHome) : option apiErr * kubeHome :=
  match k_namespace k with
  | inr e => if e_notFound e then roundClaims k p now (lose reasonNamespaceTerminating h) else (Some e, h)
  | inl n => roundClaims k p now (if n_deleted n || n_terminating n then lose reasonNamespaceTerminating h else h)
  end.
(** [func (h *Home) round(ctx) error], up to the readiness gate's Republish that
    ends a round which stored its Pod.  [now] is the clock's at unreadableFor. *)
Definition round (k : cluster) (now : Time.t) (h : kubeHome) : option apiErr * kubeHome :=
  match k_pod k with
  | inr e => if e_notFound e then (None, lose reasonPodGone h) else (Some e, h)
  | inl p =>
      if p_UID p <>? kc_PodUID cfg then (None, lose reasonPodReplaced h)
      else roundNamespace k p now (if p_deleted p then lose reasonPodTerminating h else h)
  end.

(** [func (h *Home) pod(ctx) ( *corev1.Pod, error)]; [read] is GetPod's answer *)
Definition pod (read : Pod + apiErr) (h : kubeHome) : option Pod * kubeHome :=
  match kh_self h with
  | Some p => (Some p, h)
  | None =>
      match read with
      | inr _ => (None, h)
      | inl p => if p_UID p <>? kc_PodUID cfg then (None, h) else (Some p, store p (claimNames p) h)
      end
  end.

(** [func (h *Home) Scope() []core.ScopeClaim] *)
Definition Scope (h : kubeHome) : list (string * string) := default (scopeOf cfg None []) (kh_scope h).

(** [func (h *Home) Devices(ctx, _) (core.DeviceChannel, func(), error)]: kind,
    detail and devices of the channel *)
Definition Devices (read : Pod + apiErr) (h : kubeHome) : (string * string * list string) * kubeHome :=
  let static := if kc_Devices cfg ==? [] then "" else "static" in
  match pod read h with
  | (None, h) => ((static, "", kc_Devices cfg), h)
  | (Some _, h) =>
      if kh_claims h ==? [] then ((static, "", kc_Devices cfg), h)
      else (("dra", joinClaims (kh_claims h), kc_Devices cfg), h)
  end.

Definition home0 : kubeHome := mkKubeHome lossQueue0 None [] None Time.zero.
(** Rounds, each with the cluster it met and its time, oldest first. *)
Definition rounds (l : list (cluster * Time.t)) (h : kubeHome) : kubeHome := foldl (λ h kt, (round kt.1 kt.2 h).2) h l.
End home.
