(* ===== verification/KubeHomeFacts.v ===== *)
(** * When the Kubernetes home loses its scope (pkg/home/kubernetes/poll.go)

    The losses of any sequence of rounds, exactly; what a round stores; the
    claims a Pod names. *)

From S2P Require Import Prelude GoLib Errors ScopeLoss KubeHome.
From stdpp Require Import options.

(** ** The claims a Pod names *)

Lemma Compact_elem l x : x ∈ Compact l ↔ x ∈ l.
Proof.
  induction l as [|a l IH]; [done|]. cbn [Compact]. destruct l as [|b l]; [done|].
  case_bool_decide as E; rewrite ?elem_of_cons, IH, ?elem_of_cons; [subst; tauto|tauto].
Qed.
Lemma Compact_sorted l : Sorted String.le l → StronglySorted (λ a b, String.le a b ∧ a ≠ b) (Compact l).
Proof.
  intros H. apply (Sorted_StronglySorted _) in H. induction H as [|a l H IH Ha]; [constructor|]. cbn [Compact]. destruct l as [|b l]; [by repeat constructor|].
  case_bool_decide as E; [done|]. constructor; [done|]. apply Forall_forall. intros x Hx. rewrite Compact_elem in Hx.
  rewrite Forall_forall in Ha. split; [by apply Ha|]. intros <-. apply E.
  apply (anti_symm String.le); [apply Ha; left|]. apply elem_of_cons in Hx as [->|Hx]; [done|].
  apply StronglySorted_inv in H as [_ H]. rewrite Forall_forall in H. by apply H.
Qed.

(** The names are those of the resolved references, sorted, each once. *)
Lemma claimNames_spec p :
  StronglySorted (λ a b, String.le a b ∧ a ≠ b) (claimNames p) ∧
  ∀ n, n ∈ claimNames p ↔ n ≠ "" ∧ ∃ rc, rc ∈ p_claims p ∧ n = claimName p rc.
Proof.
  unfold claimNames. split; [apply Compact_sorted, Sorted_merge_sort, _|]. intros n.
  rewrite Compact_elem, merge_sort_Permutation, list_elem_of_filter, list_elem_of_fmap. naive_solver.
Qed.

Section home.
Context (cfg : kubeConfig).
Notation round := (round cfg).
Notation rounds := (rounds cfg).
Notation store := (store cfg).

(** ** What a round can find *)

(** Each reason to lose the scope. *)
Inductive cause := PodGone | PodReplaced | PodTerminating | NamespaceTerminating | ClaimDeleted (c : string) | ClaimUnreadable (c : string).
#[global] Instance cause_eq_dec : EqDecision cause.
Proof. solve_decision. Defined.
Definition reasonOf (c : cause) : string :=
  match c with
  | PodGone => reasonPodGone | PodReplaced => reasonPodReplaced | PodTerminating => reasonPodTerminating
  | NamespaceTerminating => reasonNamespaceTerminating
  | ClaimDeleted c => reasonClaimDeleted c | ClaimUnreadable c => reasonClaimUnreadable c
  end.

(** The cluster answers for this Pod itself. *)
Definition ownPod (k : cluster) (p : Pod) : Prop := k_pod k = inl p ∧ p_UID p = kc_PodUID cfg.
(** The namespace was answered for, be it as gone. *)
Definition nsAnswered (k : cluster) : Prop := match k_namespace k with inl _ => True | inr e => e_notFound e = true end.
Definition nsEnding (k : cluster) : Prop :=
  match k_namespace k with inl n => n_deleted n || n_terminating n = true | inr e => e_notFound e = true end.
(** A claim's read: unserved by the cluster; the claim deleted; or a failure
    that ends the round. *)
Definition claimDark (k : cluster) (c : string) : Prop := match k_claim k c with inl _ => False | inr e => e_noClaims e = true end.
Definition claimGone (k : cluster) (c : string) : Prop :=
  match k_claim k c with inl b => b = true | inr e => e_noClaims e = false ∧ isClaimNotFound e c = true end.
Definition claimFails (k : cluster) (c : string) : Prop :=
  match k_claim k c with inl _ => False | inr e => e_noClaims e = false ∧ isClaimNotFound e c = false end.
(** The round answers in full. *)
Definition complete (k : cluster) (p : Pod) : Prop := ownPod k p ∧ nsAnswered k ∧ Forall (λ c, ¬ claimFails k c) (claimNames p).
Definition darkRound (k : cluster) : Prop := ∃ p c, complete k p ∧ c ∈ claimNames p ∧ claimDark k c.
Definition clearRound (k : cluster) : Prop := ∃ p, complete k p ∧ ∀ c, c ∈ claimNames p → ¬ claimDark k c.

(** ** The loop over the claims *)

Lemma elem_of_lose x r h : x ∈ lq_seen (kh_losses (lose r h)) ↔ x = r ∨ x ∈ lq_seen (kh_losses h).
Proof. unfold lose, Lose. cbn. case_bool_decide; cbn; [naive_solver|]. by rewrite elem_of_union, elem_of_singleton. Qed.
(** All but the losses is kept. *)
Definition sameBut (h h' : kubeHome) : Prop :=
  kh_self h' = kh_self h ∧ kh_claims h' = kh_claims h ∧ kh_scope h' = kh_scope h ∧ kh_unreadableSince h' = kh_unreadableSince h.

(** The deletions a loop over [claims] comes to. *)
Definition reachedGone (k : cluster) (claims : list string) (c : string) : Prop :=
  ∃ pre post, claims = pre ++ c :: post ∧ Forall (λ c, ¬ claimFails k c) pre ∧ claimGone k c.
Lemma reachedGone_cons k a l c : reachedGone k (a :: l) c ↔ (c = a ∧ claimGone k a) ∨ (¬ claimFails k a ∧ reachedGone k l c).
Proof.
  split.
  - intros (pre & post & E & Hp & Hg). destruct pre as [|x pre]; injection E as -> ->; [by left|].
    apply Forall_cons in Hp as [Hx Hp]. right. split; [done|]. by exists pre, post.
  - intros [[-> Hg]|(Ha & pre & post & -> & Hp & Hg)]; [by exists [], l|]. exists (a :: pre), post. by repeat constructor.
Qed.

Lemma claimLoop_spec k claims : ∀ u h, let r := claimLoop k claims u h in
  (∀ x, x ∈ lq_seen (kh_losses r.2) ↔ (∃ c, x = reasonClaimDeleted c ∧ reachedGone k claims c) ∨ x ∈ lq_seen (kh_losses h)) ∧
  sameBut h r.2 ∧
  match r.1 with
  | inl b => Forall (λ c, ¬ claimFails k c) claims ∧ (b = true ↔ u = true ∨ ∃ c, c ∈ claims ∧ claimDark k c)
  | inr _ => ¬ Forall (λ c, ¬ claimFails k c) claims
  end.
Proof.
  induction claims as [|a l IH]; intros u h; cbn [claimLoop].
  { cbn. split; [|split; [done|]].
    - intros x. split; [by right|]. intros [(c & _ & pre & post & E & _)|H]; [by destruct pre|done].
    - split; [constructor|]. split; [by left|]. intros [?|(c & ?%elem_of_nil & _)]; done. }
  assert (∀ u' h', (∀ x, x ∈ lq_seen (kh_losses h') ↔ (x = reasonClaimDeleted a ∧ claimGone k a) ∨ x ∈ lq_seen (kh_losses h)) →
    sameBut h h' → ¬ claimFails k a → (u' = true ↔ u = true ∨ claimDark k a) →
    let r := claimLoop k l u' h' in
    (∀ x, x ∈ lq_seen (kh_losses r.2) ↔ (∃ c, x = reasonClaimDeleted c ∧ reachedGone k (a :: l) c) ∨ x ∈ lq_seen (kh_losses h)) ∧
    sameBut h r.2 ∧
    match r.1 with
    | inl b => Forall (λ c, ¬ claimFails k c) (a :: l) ∧ (b = true ↔ u = true ∨ ∃ c, c ∈ a :: l ∧ claimDark k c)
    | inr _ => ¬ Forall (λ c, ¬ claimFails k c) (a :: l)
    end) as Hgo.
  { intros u' h' Hs Hb Hf Hu. destruct (IH u' h') as (H1 & H2 & H3). split; [|split].
    - intros x. rewrite H1, Hs. setoid_rewrite reachedGone_cons. naive_solver.
    - destruct Hb as (? & ? & ? & ?), H2 as (? & ? & ? & ?). split_and!; congruence.
    - cbn zeta. destruct (claimLoop k l u' h').1 as [b|e]; rewrite Forall_cons; [|naive_solver]. destruct H3 as [H3 H4]. split; [done|].
      rewrite H4, Hu. setoid_rewrite elem_of_cons. naive_solver. }
  destruct (k_claim k a) as [[]|e] eqn:Ek.
  - apply Hgo; [|by repeat split|unfold claimFails; rewrite Ek; tauto|unfold claimDark; rewrite Ek; tauto].
    intros x. rewrite elem_of_lose. unfold claimGone. rewrite Ek. tauto.
  - apply Hgo; [|by repeat split|unfold claimFails; rewrite Ek; tauto|unfold claimDark; rewrite Ek; tauto].
    intros x. unfold claimGone. rewrite Ek. naive_solver.
  - destruct (e_noClaims e) eqn:Ee; [|destruct (isClaimNotFound e a) eqn:En].
    + apply Hgo; [|by repeat split|unfold claimFails; rewrite Ek; intros [? _]; congruence|unfold claimDark; rewrite Ek; tauto].
      intros x. unfold claimGone. rewrite Ek, Ee. clear. intuition congruence.
    + apply Hgo; [|by repeat split|unfold claimFails; rewrite Ek; intros [_ ?]; congruence|unfold claimDark; rewrite Ek, Ee; clear; intuition congruence].
      intros x. rewrite elem_of_lose. unfold claimGone. rewrite Ek. tauto.
    + cbn. split; [|split; [done|]].
      * intros x. setoid_rewrite reachedGone_cons. unfold claimGone, claimFails. rewrite Ek, Ee, En. clear.
        split; [by right|]. intros [(c & _ & [(_ & _ & ?)|(Hn & _)])|?]; [done|by destruct Hn|done].
      * rewrite Forall_cons. unfold claimFails. rewrite Ek, Ee, En. tauto.
Qed.

(** ** One round *)

(** What a round finds; [long] is whether the claims have been unreadable for
    the stale TTL. *)
Definition evidence (k : cluster) (long : Prop) (c : cause) : Prop :=
  match c with
  | PodGone => ∃ e, k_pod k = inr e ∧ e_notFound e = true
  | PodReplaced => ∃ p, k_pod k = inl p ∧ p_UID p ≠ kc_PodUID cfg
  | PodTerminating => ∃ p, ownPod k p ∧ p_deleted p = true
  | NamespaceTerminating => ∃ p, ownPod k p ∧ nsEnding k
  | ClaimDeleted c => ∃ p, ownPod k p ∧ nsAnswered k ∧ reachedGone k (claimNames p) c
  | ClaimUnreadable c => ∃ p, complete k p ∧ c ∈ claimNames p ∧ darkRound k ∧ long
  end.
(** The start of the unreadable stretch, once a round at [now] extends it. *)
Definition sinceOr (now since : Time.t) : Time.t := if Time.IsZero since then now else since.
Definition longDark (now since : Time.t) : Prop := (kc_StaleTTL cfg ≤ Time.Sub now (sinceOr now since))%Z.

Lemma ownPod_unique k p p' : ownPod k p → ownPod k p' → p = p'.
Proof. intros [H _] [H' _]. congruence. Qed.

Lemma seen_foldl_lose (f : string → string) l : ∀ h x,
  x ∈ lq_seen (kh_losses (foldl (λ h c, lose (f c) h) h l)) ↔ (∃ c, c ∈ l ∧ x = f c) ∨ x ∈ lq_seen (kh_losses h).
Proof.
  induction l as [|a l IH]; intros h x; cbn [foldl].
  - split; [by right|]. intros [(c & ?%elem_of_nil & _)|?]; done.
  - rewrite IH, elem_of_lose. setoid_rewrite elem_of_cons. clear. naive_solver.
Qed.
Lemma sameBut_foldl_lose (f : string → string) l : ∀ h, sameBut h (foldl (λ h c, lose (f c) h) h l).
Proof. induction l as [|a l IH]; intros h; cbn [foldl]; [by repeat split|]. apply (IH (lose (f a) h)). Qed.

(** What a round that got as far as the claims leaves. *)
Definition roundLeaves (k : cluster) (p : Pod) (now : Time.t) (h h' : kubeHome) : Prop :=
  (complete k p → kh_self h' = Some p ∧ kh_claims h' = claimNames p ∧ kh_scope h' = Some (scopeOf cfg (Some p) (claimNames p))) ∧
  (¬ complete k p → sameBut h h') ∧
  (darkRound k → kh_unreadableSince h' = sinceOr now (kh_unreadableSince h)) ∧ (clearRound k → kh_unreadableSince h' = Time.zero).

Lemma roundClaims_spec k p now h err h' : ownPod k p → nsAnswered k → roundClaims cfg k p now h = (err, h') →
  (∀ x, x ∈ lq_seen (kh_losses h') ↔
     (∃ c, x = reasonClaimDeleted c ∧ reachedGone k (claimNames p) c) ∨
     (∃ c, x = reasonClaimUnreadable c ∧ c ∈ claimNames p ∧ complete k p ∧ darkRound k ∧ longDark now (kh_unreadableSince h)) ∨
     x ∈ lq_seen (kh_losses h)) ∧
  (err = None ↔ complete k p) ∧ roundLeaves k p now h h'.
Proof.
  intros Hp Hns. unfold roundClaims. pose proof (claimLoop_spec k (claimNames p) false h) as Hl.
  destruct (claimLoop k (claimNames p) false h) as [[b|e] h1]; cbn in Hl.
  - destruct Hl as (Hseen & Hsame & Hf & Hb). assert (complete k p) as Hc by done.
    assert (b = true ↔ darkRound k) as Hd.
    { rewrite Hb. split.
      - intros [?|(c & Hc1 & Hc2)]; [done|]. by exists p, c.
      - intros (p' & c & (Hp' & _) & Hc1 & Hc2). rewrite <- (ownPod_unique k p p' Hp Hp') in Hc1. eauto. }
    assert (clearRound k → b = false) as Hcl.
    { intros (p' & (Hp' & _) & Hcl). rewrite <- (ownPod_unique k p p' Hp Hp') in Hcl. destruct b; [|done].
      destruct Hb as [Hb _]. destruct (Hb eq_refl) as [?|(c & H1 & H2)]; [done|]. by destruct (Hcl c H1). }
    destruct Hsame as (E1 & E2 & E3 & E4). destruct b.
    + assert (darkRound k) as Hdark by (by apply Hd). unfold unreadableFor. cbn [negb]. rewrite E4. fold (sinceOr now (kh_unreadableSince h)).
      set (h2 := if Time.IsZero (kh_unreadableSince h) then _ else _).
      assert (kh_unreadableSince h2 = sinceOr now (kh_unreadableSince h) ∧ kh_losses h2 = kh_losses h1) as [Es Els].
      { unfold h2, sinceOr. destruct (Time.IsZero _); by rewrite ?E4. }
      rewrite Es. destruct (_ <? _)%Z eqn:Elt; intros [= <- <-]; cbn; rewrite ?Els.
      * apply Z.ltb_lt in Elt. split; [|split; [done|]].
        -- intros x. rewrite Hseen. unfold longDark. split; [naive_solver|]. intros [?|[(c & _ & _ & _ & _ & ?)|?]]; [by left|lia|by right].
        -- split; [done|]. split; [done|]. split; [done|]. intros Hcl'. by specialize (Hcl Hcl').
      * apply Z.ltb_ge in Elt. split; [|split; [done|]].
        -- intros x. rewrite seen_foldl_lose, Els, Hseen. unfold longDark. split; [|naive_solver].
           intros [(c & ? & ?)|[?|?]]; [right; left; eauto 10|by left|by right; right].
        -- pose proof (sameBut_foldl_lose reasonClaimUnreadable (claimNames p) h2) as (_ & _ & _ & E5).
           split; [done|]. split; [done|]. split; [|intros Hcl'; by specialize (Hcl Hcl')]. intros _. cbn. by rewrite E5.
    + unfold unreadableFor. cbn [negb]. intros [= <- <-]. cbn. assert (¬ darkRound k) as Hnd by (rewrite <- Hd; done). split; [|split; [done|]].
      * intros x. rewrite Hseen. clear -Hnd. naive_solver.
      * split; [done|]. split; [done|]. split; [done|]. done.
  - intros [= <- <-]. destruct Hl as (Hseen & Hsame & Hf).
    assert (¬ complete k p) as Hc by (intros (_ & _ & H); done).
    assert (∀ p', complete k p' → False) as Hc' by (intros p' H; apply Hc; pose proof H as [Hp' _]; by rewrite (ownPod_unique k p p' Hp Hp')).
    split; [|split; [done|]].
    + intros x. rewrite Hseen. clear -Hc. naive_solver.
    + split; [done|]. split; [done|]. split; [intros (p' & c & H & _)|intros (p' & H & _)]; by destruct (Hc' p').
Qed.

Lemma roundNamespace_spec k p now h err h' : ownPod k p → roundNamespace cfg k p now h = (err, h') →
  (∀ x, x ∈ lq_seen (kh_losses h') ↔
     (∃ c, x = reasonOf c ∧ c ≠ PodTerminating ∧ evidence k (longDark now (kh_unreadableSince h)) c) ∨ x ∈ lq_seen (kh_losses h)) ∧
  (err = None ↔ complete k p) ∧ roundLeaves k p now h h'.
Proof.
  intros Hp.
  assert (∀ c, evidence k (longDark now (kh_unreadableSince h)) c → c = PodGone ∨ c = PodReplaced → False) as Hpod.
  { destruct Hp as [Hp Hu]. intros c Hc [-> | ->]; cbn in Hc; destruct Hc as (q & H1 & H2); congruence. }
  assert (∀ p', ownPod k p' → p' = p) as Hq by (intros p' Hp'; by apply (ownPod_unique k)).
  assert (∀ b h1 err h', (nsEnding k ↔ b = true) → nsAnswered k → h1 = (if b then lose reasonNamespaceTerminating h else h) →
    roundClaims cfg k p now h1 = (err, h') →
    (∀ x, x ∈ lq_seen (kh_losses h') ↔
     (∃ c, x = reasonOf c ∧ c ≠ PodTerminating ∧ evidence k (longDark now (kh_unreadableSince h)) c) ∨ x ∈ lq_seen (kh_losses h)) ∧
    (err = None ↔ complete k p) ∧ roundLeaves k p now h h') as Hgo.
  { clear err h'. intros b h1 err h' Hb Hns -> Hr. apply roundClaims_spec in Hr as (Hs & He & Hl); [|done|done].
    assert (∀ x, x ∈ lq_seen (kh_losses (if b then lose reasonNamespaceTerminating h else h)) ↔
              (x = reasonNamespaceTerminating ∧ nsEnding k) ∨ x ∈ lq_seen (kh_losses h)) as Hs1.
    { intros x. destruct b; [rewrite elem_of_lose|]; clear -Hb; intuition congruence. }
    assert (kh_unreadableSince (if b then lose reasonNamespaceTerminating h else h) = kh_unreadableSince h) as Eu by (by destruct b).
    rewrite Eu in Hs. split; [|split; [done|]].
    - intros x. rewrite Hs, Hs1. split.
      + intros [(c & -> & Hg)|[(c & -> & Hc & Hk & Hd & Hlg)|[[-> Hn]|Hx]]]; [| | |by right]; left.
        * exists (ClaimDeleted c). split; [done|]. split; [done|]. by exists p.
        * exists (ClaimUnreadable c). split; [done|]. split; [done|]. by exists p.
        * exists NamespaceTerminating. split; [done|]. split; [done|]. by exists p.
      + intros [(c & -> & Hne & Hev)|Hx]; [|by right; right; right]. destruct c as [| | | |c|c]; cbn in Hev |- *.
        * by destruct (Hpod PodGone Hev); left.
        * by destruct (Hpod PodReplaced Hev); right.
        * done.
        * destruct Hev as (p' & _ & Hn). right. right. by left.
        * destruct Hev as (p' & Hp' & _ & Hg). rewrite (Hq p' Hp') in Hg. left. eauto.
        * destruct Hev as (p' & Hc & Hin & Hd & Hlg). pose proof Hc as [Hp' _]. rewrite (Hq p' Hp') in Hc, Hin. right. left. eauto 10.
    - destruct Hl as (H1 & H2 & H3 & H4). split; [done|]. split; [|by rewrite Eu in H3].
      intros Hn. destruct (H2 Hn) as (E1 & E2 & E3 & E4). split_and!; destruct b; done. }
  unfold roundNamespace. destruct (k_namespace k) as [n|e] eqn:En.
  - intros Hr. eapply (Hgo (n_deleted n || n_terminating n)); [| |reflexivity|exact Hr]; unfold nsEnding, nsAnswered; by rewrite En.
  - destruct (e_notFound e) eqn:Ee.
    + intros Hr. eapply (Hgo true); [| |reflexivity|exact Hr]; unfold nsEnding, nsAnswered; by rewrite En, Ee.
    + intros [= <- <-]. assert (nsAnswered k → False) as Hns by (unfold nsAnswered; by rewrite En, Ee).
      assert (nsEnding k → False) as Hne by (unfold nsEnding; by rewrite En, Ee).
      assert (∀ p', complete k p' → False) as Hc by (intros p' (_ & H & _); auto). split; [|split].
      * intros x. split; [by right|]. intros [(c & -> & Hn & Hev)|Hx]; [|done]. destruct c as [| | | |c|c]; cbn in Hev.
        -- by destruct (Hpod PodGone Hev); left.
        -- by destruct (Hpod PodReplaced Hev); right.
        -- done.
        -- destruct Hev as (p' & _ & ?). by destruct Hne.
        -- destruct Hev as (p' & _ & ? & _). by destruct Hns.
        -- destruct Hev as (p' & ? & _). by destruct (Hc p').
      * split; [done|]. intros H. by destruct (Hc p).
      * split; [intros H; by destruct (Hc p)|]. split; [by repeat split|].
        split; [intros (p' & c & H & _)|intros (p' & H & _)]; by destruct (Hc p').
Qed.

(** A round loses exactly what it finds; it stores the Pod where it answered in
    full, and otherwise leaves the home as it was; and it keeps the clock of the
    unreadable claims. *)
Lemma round_spec k now h err h' : round k now h = (err, h') →
  (∀ x, x ∈ lq_seen (kh_losses h') ↔ (∃ c, x = reasonOf c ∧ evidence k (longDark now (kh_unreadableSince h)) c) ∨ x ∈ lq_seen (kh_losses h)) ∧
  (∀ p, complete k p → err = None ∧ kh_self h' = Some p ∧ kh_claims h' = claimNames p ∧ kh_scope h' = Some (scopeOf cfg (Some p) (claimNames p))) ∧
  ((¬ ∃ p, complete k p) → sameBut h h') ∧
  (darkRound k → kh_unreadableSince h' = sinceOr now (kh_unreadableSince h)) ∧ (clearRound k → kh_unreadableSince h' = Time.zero).
Proof.
  unfold KubeHome.round. destruct (k_pod k) as [p|e] eqn:Ep.
  - case_bool_decide as Eu; cbn [negb].
    + assert (ownPod k p) as Hp by done. intros Hr. apply roundNamespace_spec in Hr as (Hs & He & H1 & H2 & H3 & H4); [|done].
      set (h1 := if p_deleted p then _ else _) in *.
      assert (kh_unreadableSince h1 = kh_unreadableSince h) as E1 by (unfold h1; by destruct (p_deleted p)).
      assert (∀ x, x ∈ lq_seen (kh_losses h1) ↔ (x = reasonPodTerminating ∧ p_deleted p = true) ∨ x ∈ lq_seen (kh_losses h)) as Hs1.
      { intros x. unfold h1. destruct (p_deleted p); [rewrite elem_of_lose|]; clear; intuition congruence. }
      rewrite E1 in Hs, H3. split; [|split; [|split; [|done]]].
      * intros x. rewrite Hs, Hs1. split.
        -- intros [(c & -> & _ & Hc)|[[-> Hd]|Hx]]; [left; eauto| |by right]. left. exists PodTerminating. split; [done|]. by exists p.
        -- intros [(c & -> & Hc)|Hx]; [|by right; right]. destruct (decide (c = PodTerminating)) as [->|Hn]; [|left; eauto].
           destruct Hc as (p' & Hp' & Hd). rewrite (ownPod_unique k p' p Hp' Hp) in Hd. right. by left.
      * intros p' Hc. pose proof Hc as [Hp' _]. rewrite (ownPod_unique k p' p Hp' Hp) in Hc |- *. split; [by apply He|by apply H1].
      * intros Hn. destruct (H2 ltac:(intros ?; apply Hn; eauto)) as (A1 & A2 & A3 & A4).
        split_and!; unfold h1 in *; destruct (p_deleted p); done.
    + intros [= <- <-]. assert (∀ p', ownPod k p' → False) as Hno by (intros p' [H1 H2]; congruence). split; [|split; [|split]].
      * intros x. rewrite elem_of_lose. split; (intros [H|H]; [left|by right]).
        -- exists PodReplaced. split; [done|]. by exists p.
        -- destruct H as (c & -> & Hc). destruct c; cbn in Hc; destruct Hc as (q & Hq); try done; exfalso;
             first [destruct Hq; congruence|by apply (Hno q), Hq|by destruct Hq as [[? _] _]; apply (Hno q)].
      * intros p' (H & _). by destruct (Hno p').
      * by repeat split.
      * split; [intros (p' & c & (H & _) & _)|intros (p' & (H & _) & _)]; by destruct (Hno p').
  - assert (∀ p', ownPod k p' → False) as Hno by (intros p' [H1 H2]; congruence).
    assert (∀ L c, evidence k L c → c = PodGone ∧ e_notFound e = true) as Hev.
    { intros L c Hc. destruct c; cbn in Hc; destruct Hc as (q & Hq); try (exfalso; first [destruct Hq; congruence|by apply (Hno q), Hq|by destruct Hq as [[? _] _]; apply (Hno q)]).
      destruct Hq as [E ?]. split; [done|congruence]. }
    intros Hr. assert ((∀ x, x ∈ lq_seen (kh_losses h') ↔ (x = reasonPodGone ∧ e_notFound e = true) ∨ x ∈ lq_seen (kh_losses h)) ∧ sameBut h h') as [Hs Hb].
    { destruct (e_notFound e); injection Hr as <- <-; (split; [|by repeat split]); intros x; [rewrite elem_of_lose|]; clear; intuition congruence. }
    split; [|split; [|split]].
    + intros x. rewrite Hs. split; (intros [H|H]; [left|by right]).
      * destruct H as [-> He]. exists PodGone. split; [done|]. by exists e.
      * destruct H as (c & -> & Hc). destruct (Hev _ _ Hc) as [-> He]. done.
    + intros p' (H & _). by destruct (Hno p').
    + done.
    + split; [intros (p' & c & (H & _) & _)|intros (p' & (H & _) & _)]; by destruct (Hno p').
Qed.

(** ** Histories *)

(** A round at [t0] could not read the claims, and no round of [l] after it
    could. *)
Definition darkStretch (l : list (cluster * Time.t)) (t0 : Time.t) : Prop :=
  ∃ l1 k0 l2, l = l1 ++ (k0, t0) :: l2 ∧ darkRound k0 ∧ Forall (λ kt, ¬ clearRound kt.1) l2.
(** Rounds follow one another in time, after the zero time. *)
Definition timesOK (l : list (cluster * Time.t)) : Prop :=
  StronglySorted (λ a b, (a.2 ≤ b.2)%Z) l ∧ Forall (λ kt, (0 < kt.2)%Z) l.

(** A round answers in full, with the claims or without them, or it does not. *)
Lemma round_kinds k : darkRound k ∨ clearRound k ∨ ¬ ∃ p, complete k p.
Proof.
  destruct (k_pod k) as [p|e] eqn:Ep; [|right; right; intros (p & [E _] & _); congruence].
  destruct (decide (p_UID p = kc_PodUID cfg)) as [Eu|Eu]; [|right; right; intros (p' & [E ?] & _); congruence].
  assert (ownPod k p) as Hp by done.
  assert (nsAnswered k ∨ ¬ nsAnswered k) as [Hn|Hn]; [unfold nsAnswered; destruct (k_namespace k) as [|e]; [|destruct (e_notFound e)]; auto| |
    right; right; by intros (p' & _ & ? & _)].
  destruct (claimLoop_spec k (claimNames p) false home0) as (_ & _ & Hr).
  destruct (claimLoop k (claimNames p) false home0).1 as [[]|e].
  - destruct Hr as [Hf [Hb _]]. destruct (Hb eq_refl) as [?|(c & H1 & H2)]; [done|]. left. by exists p, c.
  - destruct Hr as [Hf [_ Hb]]. right. left. exists p. split; [done|]. intros c H1 H2. enough (false = true) by done. eauto.
  - right. right. intros (p' & Hp' & _ & Hf). by rewrite (ownPod_unique k p' p Hp' Hp) in Hf.
Qed.
Lemma dark_not_clear k : darkRound k → clearRound k → False.
Proof.
  intros (p & c & (Hp & _) & Hc & Hd) (p' & (Hp' & _) & Hn). rewrite <- (ownPod_unique k p p' Hp Hp') in Hn. by apply (Hn c).
Qed.

Lemma darkStretch_snoc l k now t0 :
  darkStretch (l ++ [(k, now)]) t0 ↔ (t0 = now ∧ darkRound k) ∨ (¬ clearRound k ∧ darkStretch l t0).
Proof.
  split.
  - intros (l1 & k0 & l2 & E & Hd & Hf). destruct l2 as [|x l2 _] using rev_ind.
    + apply app_inj_tail in E as [-> E]. injection E as -> ->. by left.
    + change (l1 ++ (k0, t0) :: l2 ++ [x]) with (l1 ++ ((k0, t0) :: l2) ++ [x]) in E. rewrite app_assoc in E.
      apply app_inj_tail in E as [-> <-]. apply Forall_app in Hf as [Hf Hx]. rewrite Forall_singleton in Hx. right. split; [exact Hx|]. by exists l1, k0, l2.
  - intros [[-> Hd]|(Hn & l1 & k0 & l2 & -> & Hd & Hf)]; [by exists l, k, []|].
    exists l1, k0, (l2 ++ [(k, now)]). split; [by rewrite <- app_assoc|]. split; [done|]. apply Forall_app. split; [done|]. by apply Forall_singleton.
Qed.

(** [kh_unreadableSince] is the start of the longest dark stretch. *)
Definition sinceOK (l : list (cluster * Time.t)) (since : Time.t) : Prop :=
  if Time.IsZero since then ∀ t0, ¬ darkStretch l t0
  else darkStretch l since ∧ ∀ t0, darkStretch l t0 → (since ≤ t0)%Z.

Lemma StronglySorted_snoc {A} (R : A → A → Prop) l x : StronglySorted R (l ++ [x]) → StronglySorted R l ∧ Forall (λ y, R y x) l.
Proof.
  induction l as [|a l IH]; cbn; [by repeat constructor|]. intros [Hs Hf]%StronglySorted_inv. destruct (IH Hs) as [H1 H2].
  apply Forall_app in Hf as [Hf Hx]. rewrite Forall_singleton in Hx. split; by constructor.
Qed.
Lemma timesOK_snoc l k now : timesOK (l ++ [(k, now)]) →
  timesOK l ∧ (0 < now)%Z ∧ ∀ t0, darkStretch (l ++ [(k, now)]) t0 → (0 < t0 ≤ now)%Z.
Proof.
  intros [[Hs Hle]%StronglySorted_snoc Hp]. pose proof Hp as [Hp1 Hp2]%Forall_app. rewrite Forall_singleton in Hp2. cbn in *.
  split; [done|]. split; [done|]. intros t0 [[-> _]|(_ & l1 & k0 & l2 & -> & _ & _)]%darkStretch_snoc; [lia|].
  rewrite Forall_forall in Hle, Hp1. specialize (Hle (k0, t0)). specialize (Hp1 (k0, t0)). cbn in *.
  assert ((k0, t0) ∈ l1 ++ (k0, t0) :: l2) as Hin by (apply elem_of_app; right; left). auto.
Qed.

Lemma sinceOK_round l k now h err h' : timesOK (l ++ [(k, now)]) → sinceOK l (kh_unreadableSince h) → round k now h = (err, h') →
  sinceOK (l ++ [(k, now)]) (kh_unreadableSince h') ∧ (darkRound k → darkStretch (l ++ [(k, now)]) (sinceOr now (kh_unreadableSince h)) ∧
    ∀ t0, darkStretch (l ++ [(k, now)]) t0 → (sinceOr now (kh_unreadableSince h) ≤ t0)%Z).
Proof.
  intros Ht Hs Hr. apply timesOK_snoc in Ht as (_ & Hnow & Hin). apply round_spec in Hr as (_ & Hcomp & Hkeep & Hdark & Hclear).
  assert (darkRound k → darkStretch (l ++ [(k, now)]) (sinceOr now (kh_unreadableSince h)) ∧
    ∀ t0, darkStretch (l ++ [(k, now)]) t0 → (sinceOr now (kh_unreadableSince h) ≤ t0)%Z) as Hd.
  { intros Hd. assert (¬ clearRound k) as Hnc by (intros ?; by eapply dark_not_clear). unfold sinceOK, sinceOr in *.
    destruct (Time.IsZero (kh_unreadableSince h)) eqn:Ez.
    - split; [apply darkStretch_snoc; by left|]. intros t0 [[-> _]|[_ Hx]]%darkStretch_snoc; [done|]. by destruct (Hs t0).
    - destruct Hs as [Hs1 Hs2]. assert (darkStretch (l ++ [(k, now)]) (kh_unreadableSince h)) as Hx by (apply darkStretch_snoc; by right).
      split; [done|]. intros t0 [[-> _]|[_ Hy]]%darkStretch_snoc; [apply Hin in Hx; lia|by apply Hs2]. }
  split; [|done]. destruct (round_kinds k) as [Hk|[Hk|Hk]].
  - rewrite (Hdark Hk). destruct (Hd Hk) as [H1 H2]. unfold sinceOK. apply Hin in H1 as H3. unfold Time.IsZero.
    rewrite (proj2 (Z.eqb_neq _ _)) by lia. done.
  - rewrite (Hclear Hk). intros t0 [[_ Hx]|[Hx _]]%darkStretch_snoc; [by eapply dark_not_clear|done].
  - destruct (Hkeep Hk) as (_ & _ & _ & ->).
    assert (∀ t0, darkStretch (l ++ [(k, now)]) t0 ↔ darkStretch l t0) as Hsame.
    { intros t0. rewrite darkStretch_snoc. split; [intros [[_ (p & c & Hc & _)]|[_ ?]]; [by destruct Hk; exists p|done]|].
      intros ?. right. split; [|done]. intros (p & Hc & _). by apply Hk; exists p. }
    unfold sinceOK in *. destruct (Time.IsZero _); [intros t0 ?%Hsame; by apply (Hs t0)|].
    destruct Hs as [H1 H2]. split; [by apply Hsame|]. intros t0 ?%Hsame. by apply H2.
Qed.

Lemma rounds_snoc l k now h : rounds (l ++ [(k, now)]) h = (round k now (rounds l h)).2.
Proof. unfold KubeHome.rounds. by rewrite foldl_app. Qed.

Lemma rounds_since l : timesOK l → sinceOK l (kh_unreadableSince (rounds l home0)).
Proof.
  induction l as [|[k now] l IH] using rev_ind; intros Ht.
  { unfold sinceOK. cbn. intros t0 (l1 & k0 & l2 & E & _). by destruct l1. }
  rewrite rounds_snoc. destruct (round k now (rounds l home0)) as [err h'] eqn:E. cbn.
  pose proof (timesOK_snoc _ _ _ Ht) as [Ht' _]. by eapply (sinceOK_round l k now (rounds l home0)) in E as [? _]; [|done|apply IH].
Qed.

(** The home loses its scope for the reasons it has, and no others.  After
    any sequence of rounds, the scope-loss queue was given exactly the reasons
    some round found: the Pod gone, replaced or terminating; the namespace gone
    or terminating, found by a round that read the Pod; a claim of the Pod
    deleted, found by a round that read the Pod, the namespace and the claims
    before it; or a claim unreadable, which takes two rounds at least the stale
    TTL apart that both answered in full but for the claims, with no round
    between them that could read the claims. *)
Theorem scope_losses_exact l reason :
  timesOK l → (kc_StaleTTL cfg ≤ Time.maxDuration)%Z →
  reason ∈ lq_seen (kh_losses (rounds l home0)) ↔
  ∃ l1 k now l2 c, l = l1 ++ (k, now) :: l2 ∧ reason = reasonOf c ∧
    evidence k (∃ t0, darkStretch (l1 ++ [(k, now)]) t0 ∧ (kc_StaleTTL cfg ≤ now - t0)%Z) c.
Proof.
  intros Ht Httl. induction l as [|[k now] l IH] using rev_ind.
  { split; [by intros ?%elem_of_empty|]. intros (l1 & k & now & l2 & c & E & _). by destruct l1. }
  pose proof (timesOK_snoc _ _ _ Ht) as (Ht' & Hnow & Hin). specialize (IH Ht').
  rewrite rounds_snoc. destruct (round k now (rounds l home0)) as [err h'] eqn:Er. cbn.
  pose proof Er as (Hs & _)%round_spec. apply (sinceOK_round l) in Er as [_ Hd]; [|done|by apply rounds_since].
  assert (∀ c, evidence k (longDark now (kh_unreadableSince (rounds l home0))) c ↔
               evidence k (∃ t0, darkStretch (l ++ [(k, now)]) t0 ∧ (kc_StaleTTL cfg ≤ now - t0)%Z) c) as Hev.
  { intros c. destruct c as [| | | |c|c]; try done. cbn. split; intros (p & Hc & Hi & Hk & Hlong); exists p; (split_and!; [done..|]);
      destruct (Hd Hk) as [H1 H2]; pose proof (Hin _ H1); unfold longDark, Time.Sub, Time.minDuration, Time.maxDuration in *.
    - exists (sinceOr now (kh_unreadableSince (rounds l home0))). split; [done|]. lia.
    - destruct Hlong as (t0 & H3 & H4). specialize (H2 t0 H3). lia. }
  rewrite Hs, IH. setoid_rewrite Hev. split.
  - intros [(c & -> & Hc)|(l1 & k' & now' & l2 & c & -> & -> & Hc)].
    + exists l, k, now, [], c. done.
    + exists l1, k', now', (l2 ++ [(k, now)]), c. split; [by rewrite <- app_assoc|done].
  - intros (l1 & k' & now' & l2 & c & E & -> & Hc). destruct l2 as [|x l2 _] using rev_ind.
    + apply app_inj_tail in E as [-> E]. injection E as -> ->. left. eauto.
    + change (l1 ++ (k', now') :: l2 ++ [x]) with (l1 ++ ((k', now') :: l2) ++ [x]) in E. rewrite app_assoc in E.
      apply app_inj_tail in E as [-> <-]. right. exists l1, k', now', l2, c. done.
Qed.
End home.

(** ** A concrete Pod *)

Definition demoConfig : kubeConfig := mkKubeConfig "p" "ns" "uid-1" (30 * Time.Second)%Z [].
Definition demoPod : Pod := mkPod "uid-1" false "sa" "node-1" [mkPodClaim "gpu" None; mkPodClaim "nic" (Some "nic-1")] [mkPodClaim "gpu" (Some "gpu-xyz")].
(** A cluster that has stopped serving ResourceClaims. *)
Definition demoDark : cluster := mkCluster (inl demoPod) (inl (mkNamespace false false)) (λ _, inr (mkApiErr false true None "")).
Definition demoRounds : list (cluster * Time.t) := [(demoDark, (10 * Time.Second)%Z); (demoDark, (25 * Time.Second)%Z); (demoDark, (40 * Time.Second)%Z)].

Example demo_claims : claimNames demoPod = ["gpu-xyz"; "nic-1"].
Proof. vm_compute. reflexivity. Qed.

Lemma scope_losses_exact_witness :
  ∃ l1 k now l2 c, demoRounds = l1 ++ (k, now) :: l2 ∧ reasonClaimUnreadable "gpu-xyz" = reasonOf c ∧
    evidence demoConfig k (∃ t0, darkStretch demoConfig (l1 ++ [(k, now)]) t0 ∧ (kc_StaleTTL demoConfig ≤ now - t0)%Z) c.
Proof.
  apply (scope_losses_exact demoConfig demoRounds).
  - split; [repeat constructor; vm_compute; discriminate|repeat constructor].
  - vm_compute. discriminate.
  - apply (bool_decide_unpack _). vm_compute. exact I.
Defined.

(** A bare 404 for a claim, as of a group the server does not serve, is not a
    deletion; one whose details name the resource is, in any case. *)
Example claim_not_found :
  isClaimNotFound (mkApiErr true false (Some (true, None)) "") "gpu" = false ∧
  isClaimNotFound (mkApiErr true false (Some (true, Some ("ResourceClaims", "other"))) "") "gpu" = true.
Proof. split; vm_compute; reflexivity. Qed.
