(* ===== verification/Rpc.v ===== *)
(** * The gRPC front (pkg/rpc: errors.go, caller.go, admission.go, server.go)

    The server's handlers over the verbs of Core.  A status error is its code,
    the Go error whose text is its message, and its detail; a request's context
    is the caller on it, if any. *)

From S2P Require Import Prelude GoLib GoText Fence Errors Grant Ledger Health AuditLog Runtime Core Clone Verbs.
From stdpp Require Import options.

(** ** Status errors (errors.go) *)

Inductive Code := CInvalidArgument | CNotFound | CResourceExhausted | CFailedPrecondition | CUnimplemented | CInternal | CUnavailable | CUnauthenticated.
Inductive MissCode := MissShed | MissDeferredFallback.
(** The details a status carries: [grantv1.Miss] or [grantv1.NoWorkspace]. *)
Inductive Detail := DMiss (code : MissCode) (retryAfterS : Z) (issuer preferredHome : string) | DNoWorkspace.
Record rpcError := mkRpcError { re_code : Code; re_msg : option error; re_details : list Detail }.

#[global] Instance Code_eq_dec : EqDecision Code. Proof. solve_decision. Defined.

(** [type Server struct], beside its Core. *)
Record Server := mkServer { sv_Issuer : string; sv_RetryAfter : Time.duration }.
(** [func (s *Server) retryAfter() time.Duration] *)
Definition retryAfter (s : Server) : Time.duration := if (0 <? sv_RetryAfter s)%Z then sv_RetryAfter s else Time.Second.
(** [uint32(d.Seconds())], for what fits *)
Definition wholeSeconds (d : Time.duration) : Z := to_uint32 (default 0%Z (F64.trunc (Seconds d))).

(** [func (s *Server) ToError(code core.StatusCode, err error) error] *)
Definition ToError (s : Server) (code : StatusCode) (err : option error) : option rpcError :=
  match code with
  | OK => None
  | Shed => Some (mkRpcError CResourceExhausted err [DMiss MissShed (wholeSeconds (retryAfter s)) (sv_Issuer s) ""])
  | DeferredFallback =>
      Some (mkRpcError CUnavailable err [DMiss MissDeferredFallback 0 (sv_Issuer s) (default "" (err ≫= AsRemote))])
  | NeedsTier => Some (mkRpcError CFailedPrecondition err [])
  | Invalid => Some (mkRpcError CInvalidArgument err [])
  | Unauthenticated => Some (mkRpcError CUnauthenticated err [])
  | NotFound => Some (mkRpcError CNotFound err [])
  | NoWorkspace => Some (mkRpcError CFailedPrecondition err [DNoWorkspace])
  | OverBudget => Some (mkRpcError CResourceExhausted err [])
  | Internal => Some (mkRpcError CInternal err [])
  end.

Definition asMiss (d : Detail) : option (MissCode * Z * string * string) :=
  match d with DMiss c r i h => Some (c, r, i, h) | DNoWorkspace => None end.
(** [func MissFromError(err error) ( *grantv1.Miss, bool)] *)
Definition MissFromError (e : rpcError) : option (MissCode * Z * string * string) := head (omap asMiss (re_details e)).
(** [func IsMiss(err error) bool] *)
Definition IsMiss (e : rpcError) : bool := match MissFromError e with Some _ => true | None => false end.
(** [func IsNoWorkspace(err error) bool] *)
Definition IsNoWorkspace (e : rpcError) : bool :=
  (re_code e ==? CFailedPrecondition) && existsb (λ d, match d with DNoWorkspace => true | _ => false end) (re_details e).

(** ** Naming the peer (caller.go) *)

(** [type Caller struct] of tlsconf. *)
Record Caller := mkCaller { cl_Thumbprint : string; cl_Cert : string }.
(** A request's context, as far as the handlers look: CallerFrom. *)
Notation ctx := (option Caller).

Section naming.
(** Certificates are crypto/x509's; [name] is a namer, such as [CallerOf]. *)
Context {cert : Type} (name : list cert → option Caller).

(** [type peerName struct]: its three shapes *)
Inductive peerName := Named (c : Caller) | Refused | Anonymous.
(** [func namePeer(name namer, chain []*x509.Certificate) peerName] *)
Definition namePeer (chain : list cert) : peerName :=
  match name chain with
  | Some c => Named c
  | None => if (0 <? length chain)%nat then Refused else Anonymous
  end.

(** [errUnnamedCaller] *)
Definition errUnnamedCaller : rpcError := mkRpcError CUnauthenticated (Some (EOther "client certificate key cannot name a caller")) [].
Definition withPeer (who : peerName) (c : ctx) : ctx + rpcError :=
  match who with Refused => inr errUnnamedCaller | Named cl => inl (Some cl) | Anonymous => inl c end.

(** The auth info of a gRPC connection: none or not TLS; named at the
    handshake; bare TLS. *)
Inductive authInfo := AuthOther | AuthNamed (who : peerName) | AuthTLS (chain : list cert).
(** [func (c *serverCreds) authInfo(info)], after a finished handshake *)
Definition credsAuthInfo (i : authInfo) : authInfo := match i with AuthTLS chain => AuthNamed (namePeer chain) | i => i end.
(** [func grpcCaller(ctx) (context.Context, error)], of a connection's auth info *)
Definition grpcCaller (i : authInfo) (c : ctx) : ctx + rpcError :=
  match i with
  | AuthNamed who => withPeer who c
  | AuthTLS chain => withPeer (namePeer chain) c
  | AuthOther => inl c
  end.

(** [type connPeer struct]: whether its Once ran, and the name *)
Record connPeer := mkConnPeer { cp_done : bool; cp_peer : peerName }.
(** [withConnPeer]: refused until named *)
Definition newConnPeer : connPeer := mkConnPeer false Refused.
(** [func (c *connPeer) get(chain) peerName]; a naming that [panics] leaves the
    Once done and the name as it was, and the request unanswered *)
Definition getPeer (panics : bool) (chain : list cert) (c : connPeer) : option peerName * connPeer :=
  if cp_done c then (Some (cp_peer c), c)
  else if panics then (None, mkConnPeer true (cp_peer c))
  else (Some (namePeer chain), mkConnPeer true (namePeer chain)).

(** A gateway request: [None] plaintext, or the peer's certificates. *)
Definition gatewayRequest : Type := option (list cert).
(** [func (g *Gateway) httpCaller(next)] on a connection with a connPeer: the
    handler's context, the refusal, or [None] for a panic *)
Definition httpCaller (panics : bool) (r : gatewayRequest) (c : connPeer) : option (ctx + rpcError) * connPeer :=
  match r with
  | None => (Some (inl None), c)
  | Some chain => let '(who, c) := getPeer panics chain c in ((λ w, withPeer w None) <$> who, c)
  end.
Fixpoint httpRequests (l : list (bool * gatewayRequest)) (c : connPeer) : list (option (ctx + rpcError)) :=
  match l with
  | [] => []
  | (panics, r) :: l' => let '(a, c) := httpCaller panics r c in a :: httpRequests l' c
  end.
End naming.
Arguments AuthOther {cert}.
Arguments AuthNamed {cert}.

(** ** Admission (admission.go) *)

(** A protobuf message as reflection shows it: whether it keeps unknown fields,
    and its populated fields in Range's order. *)
Inductive message := mkMessage (unknown : bool) (fields : list field)
with field :=
| FScalar                           (** a scalar, or a list or map of scalars *)
| FMessage (m : message)
| FMessageList (ms : list message)
| FMessageMap (ms : list message)
| FGroup (m : message).             (** GroupKind, which proto3 has not *)

(** [func RejectUnknown(m protoreflect.Message) error], true for nil *)
Fixpoint RejectUnknown (m : message) : bool :=
  match m with mkMessage unknown fields => negb unknown && forallb fieldKnown fields end
with fieldKnown (f : field) : bool :=
  match f with
  | FScalar | FGroup _ => true
  | FMessage m => RejectUnknown m
  | FMessageList ms => forallb RejectUnknown ms
  | FMessageMap ms => forallb RejectUnknown ms
  end.
(** [func AdmissionInterceptor() grpc.UnaryServerInterceptor]: the refusal, or
    the handler's answer *)
Definition admitRequest {A} (m : message) (handler : A + rpcError) : A + rpcError :=
  if RejectUnknown m then handler else inr (mkRpcError CInvalidArgument (Some (EOther "admission")) []).

(** ** The handlers (server.go) *)

Section server.
Context `{Env E} (cfg : Config) (others : World E → World E) (sv : Server).
Local Notation M := (St (World E)).

(** A handler's answer: a response or a status. *)
Notation rpc A := (M (A + rpcError)).
Definition fail {A} (code : StatusCode) (err : option error) (ok : A) : A + rpcError :=
  match ToError sv code err with Some e => inr e | None => inl ok end.

(** [func (s *Server) owns(ctx, grantUID string) bool] *)
Definition owns (c : ctx) (uid : string) : M bool :=
  match c with None => mret true | Some cl => ledger (GrantBoundTo uid (cl_Thumbprint cl)) end.
(** [func (s *Server) ownsFiber(ctx, fiberID string) bool] *)
Definition ownsFiber (c : ctx) (id : string) : M bool :=
  f ← ledger (LFiber id);
  match f with None => mret true | Some f => owns c (GrantUID f) end.

(** [func (s *Server) Park(ctx, req)]; between the check and the verb other
    goroutines run *)
Definition ServerPark (c : ctx) (id : string) (sync : bool) : rpc unit :=
  mine ← ownsFiber c id;
  if negb mine then mret (fail NotFound (Some (ESentinel ErrFiberUnknown)) tt) else
  _ ← meanwhile others;
  r ← Park others id sync;
  let '(_, code, err) := r in mret (fail code err tt).

(** [func (s *Server) Release(ctx, req)] *)
Definition ServerRelease (c : ctx) (id : string) (discard : bool) : rpc unit :=
  mine ← ownsFiber c id;
  if negb mine then mret (fail NotFound (Some (ESentinel ErrFiberUnknown)) tt) else
  _ ← meanwhile others;
  r ← Release others id discard;
  let '(code, err) := r in mret (fail code err tt).

(** [func (s *Server) Discard(ctx, req)] *)
Definition ServerDiscard (c : ctx) (jwt session : string) : rpc unit :=
  r ← Discard cfg others (mkDiscardRequest jwt session (default "" (cl_Thumbprint <$> c)));
  let '(code, err) := r in mret (fail code err tt).

(** [func (s *Server) Clone(ctx, req)]; [deadline] is [grant.Deadline]'s answer,
    [None] when the request has none *)
Definition ServerClone (waits : list (option Sentinel)) (c : ctx) (jwt session payload : string) (deadline : option Time.duration) : rpc CloneResponse :=
  if match deadline with Some d => (d <=? 0)%Z | None => false end
  then mret (fail Invalid (Some (EOther "rpc: deadline already passed")) zeroResponse) else
  r ← Clone cfg others waits (mkCloneRequest jwt session (default 0%Z deadline) payload
                                (default "" (cl_Thumbprint <$> c)) (default "" (cl_Cert <$> c)));
  let '(resp, code, err) := r in mret (fail code err resp).

(** [func (s *Server) visible(ctx, sts)], of a batch of statuses; each [owns]
    reads the ledger, here the same one *)
Definition visible (c : ctx) (sts : list Status) (l : Ledger) : list Status :=
  filter (λ st, match c with None => true | Some cl => GrantBoundTo (StGrantUID st) (cl_Thumbprint cl) l end = true) sts.
End server.

(** [fenceToProto], [FenceFromProto]: the message's three fields *)
Record pFence := mkPFence { pf_GrantUid : string; pf_Epoch : N; pf_Seq : N }.
Definition fenceToProto (f : Fence) : pFence := mkPFence (GrantUID f) (Epoch f) (Seq f).
Definition FenceFromProto (f : option pFence) : Fence :=
  match f with Some f => mkFence (pf_GrantUid f) (pf_Epoch f) (pf_Seq f) | None => zeroFence end.
(** [StatusToProto] *)
Record pStatus := mkPStatus { ps_GrantUid : string; ps_Running : Z; ps_Parked : Z; ps_Pooled : Z; ps_WUsedBytes : N; ps_Latest : pFence }.
Definition StatusToProto (st : Status) : pStatus :=
  mkPStatus (StGrantUID st) (to_uint32 (StRunning st)) (to_uint32 (StParked st)) (to_uint32 (StPooled st)) (StWUsedBytes st) (fenceToProto (StLatest st)).

(** ** The JSON gateway (gateway.go) *)

(** [func httpCode(c codes.Code) int] of an error's code *)
Definition httpCode (c : Code) : Z :=
  match c with
  | CInvalidArgument => 400 | CUnauthenticated => 401 | CNotFound => 404 | CFailedPrecondition => 412
  | CResourceExhausted => 429 | CUnavailable => 503 | _ => 500
  end.
(** [func (g *Gateway) reply(w, resp, err)] of an error: the status and the
    Retry-After header *)
Definition gatewayError (e : rpcError) : Z * option Z :=
  (httpCode (re_code e), match MissFromError e with Some (MissShed, r, _, _) => Some r | _ => None end).

(** The health body: the keys WriteHealth looks at ("audit", "draining"). *)
Record healthBody := mkHealthBody { hb_audit : option bool; hb_draining : bool }.
(** [HealthFunc] of an audit spool, [None] for none, [Some true] for a healthy
    one; [WithDraining] *)
Definition HealthFunc (audit : option bool) : healthBody := mkHealthBody audit false.
Definition WithDraining (b : healthBody) (draining : bool) : healthBody :=
  if draining then mkHealthBody (hb_audit b) true else b.
(** The status of [WriteHealth]. *)
Definition WriteHealth (b : healthBody) : Z :=
  if match hb_audit b with Some ok => negb ok | None => false end || hb_draining b then 503%Z else 200%Z.

(** ** The file calls of the gRPC front (pkg/rpc/files.go)

    Upload's stream as the messages a client sends; the runtime's file store as
    a program that reads from the chunk reader and returns. *)
Definition MaxChunk : N := (2 ^ 20)%N.

(** ** Messages *)

(** [grantv1.UploadHeader] and the parts of an UploadRequest; [PNone] has neither *)
Record uploadHeader := mkHeader { uh_FiberId : string; uh_Path : string; uh_Size : option N; uh_Mode : N; uh_Sha256 : string }.
Inductive part := PHeader (h : uploadHeader) | PData (data : string) | PNone.
(** A client's stream: the messages, and how it ends, [None] for EOF. *)
Record stream := mkStream { st_msgs : list part; st_end : option rpcError }.

Definition badUpload (what : string) : rpcError := mkRpcError CInvalidArgument (Some (EOther what)) [].

(** ** The chunk reader *)

(** [type chunkReader struct] *)
Record chunkReader := mkReader {
  cr_stream : stream; cr_size : N; cr_got : N; cr_buf : string; cr_err : option rpcError; cr_eof : bool;
}.
Definition set_stream (s : stream) (c : chunkReader) : chunkReader := mkReader s (cr_size c) (cr_got c) (cr_buf c) (cr_err c) (cr_eof c).
Definition set_got (n : N) (c : chunkReader) : chunkReader := mkReader (cr_stream c) (cr_size c) n (cr_buf c) (cr_err c) (cr_eof c).
Definition set_buf (b : string) (c : chunkReader) : chunkReader := mkReader (cr_stream c) (cr_size c) (cr_got c) b (cr_err c) (cr_eof c).
Definition set_err (e : rpcError) (c : chunkReader) : chunkReader := mkReader (cr_stream c) (cr_size c) (cr_got c) (cr_buf c) (Some e) (cr_eof c).
Definition set_eof (c : chunkReader) : chunkReader := mkReader (cr_stream c) (cr_size c) (cr_got c) (cr_buf c) (cr_err c) true.

(** What [next] makes of one message. *)
Definition takePart (m : part) (c : chunkReader) : (string + rpcError) * chunkReader :=
  match m with
  | PHeader _ => (inr (badUpload "two headers"), c)
  | PNone => (inr (badUpload "no part"), c)
  | PData data =>
      let n := N.of_nat (String.length data) in
      if (MaxChunk <? n)%N then (inr (badUpload "chunk too large"), c)
      else
        let c := set_got (U64.add (cr_got c) n) c in
        if (cr_size c <? cr_got c)%N then (inr (badUpload "over size"), c) else (inl data, c)
  end.
(** [func (c *chunkReader) next() ([]byte, error)]: nil is [None] *)
Definition next (c : chunkReader) : (option string + rpcError) * chunkReader :=
  match st_msgs (cr_stream c) with
  | [] => (match st_end (cr_stream c) with None => inl None | Some e => inr e end, c)
  | m :: msgs =>
      let '(r, c) := takePart m (set_stream (mkStream msgs (st_end (cr_stream c))) c) in
      (match r with inl d => inl (Some d) | inr e => inr e end, c)
  end.

(** How a Read ends: bytes, io.EOF, or an error. *)
Inductive readEnd := ReadOK | ReadEOF | ReadErr (e : rpcError).

(** The loop of [func (c *chunkReader) Read(p []byte)] while the buffer is
    empty; [fuel] bounds it, one more than the messages left is enough. *)
Fixpoint fillBuf (fuel : nat) (c : chunkReader) : readEnd * chunkReader :=
  match fuel with
  | 0 => (ReadOK, c)
  | S fuel' =>
      if cr_buf c <>? "" then (ReadOK, c)
      else match cr_err c with
      | Some e => (ReadErr e, c)
      | None =>
          if cr_eof c then (ReadEOF, c)
          else match next c with
          | (inr e, c) => (ReadErr e, set_err e c)
          | (inl None, c) =>
              let c := set_eof c in
              if (cr_got c =? cr_size c)%N then (ReadEOF, c)
              else let e := badUpload "short" in (ReadErr e, set_err e c)
          | (inl (Some data), c) => fillBuf fuel' (set_buf data c)
          end
      end
  end.
Definition fillFuel (c : chunkReader) : nat := length (st_msgs (cr_stream c)) + 2.
(** [Read] into a buffer of [n] bytes *)
Definition Read (n : nat) (c : chunkReader) : string * readEnd * chunkReader :=
  match fillBuf (fillFuel c) c with
  | (ReadOK, c) => (str_take n (cr_buf c), ReadOK, set_buf (str_drop n (cr_buf c)) c)
  | (e, c) => ("", e, c)
  end.

(** [func (c *chunkReader) drain() error], as the reader it leaves; [fuel] as in [fillBuf] *)
Fixpoint drainRest (fuel : nat) (c : chunkReader) : chunkReader :=
  match fuel with
  | 0 => c
  | S fuel' =>
      match cr_eof c, cr_err c with
      | false, None =>
          match next c with
          | (inr e, c) => set_err e c
          | (inl None, c) => drainRest fuel' (set_eof c)
          | (inl (Some _), c) => drainRest fuel' c
          end
      | _, _ => c
      end
  end.
Definition drain (c : chunkReader) : chunkReader := drainRest (fillFuel c) c.

(** ** The file store *)

(** The sentinels fileError asks for. *)
Inductive fileSentinel := FNoWorkspace | FFiberUnknown | FNotExist | FBudget | FEntries | FPath | FNotRegular | FSize | FChecksum | FUnsupported.
(** A store's error: what [errors.Is] finds in it, and the error. *)
Record fileErr := mkFileErr { fe_is : fileSentinel → bool; fe_err : error }.
Record fileInfo := mkFileInfo { fi_Path : string; fi_Size : Z; fi_Mode : N; fi_Dir : bool; fi_SHA256 : string }.

(** The store's Upload as it runs: reads, each of a buffer's length, and its
    return. *)
Inductive storeProg := SRead (n : nat) (k : string → readEnd → storeProg) | SReturn (r : fileInfo + fileErr).
(** It runs on the reader; the bytes it was given are returned too. *)
Fixpoint runStore (p : storeProg) (c : chunkReader) : (fileInfo + fileErr) * string * chunkReader :=
  match p with
  | SReturn r => (r, "", c)
  | SRead n k =>
      let '(bytes, e, c) := Read n c in
      let '(r, more, c) := runStore (k bytes e) c in
      (r, bytes +:+ more, c)
  end.

(** [core.FileStore]: what each call does.  A downloaded file is its info and
    what its Reads return, in order. *)
Record fileStore := mkFileStore {
  fst_Upload : string → string → Z → N → string → storeProg;     (** fiber, path, size, mode, sum *)
  fst_Download : string → string → Z → (fileInfo * list (string * option (option fileErr))) + fileErr;
  fst_ListFiles : string → string → list fileInfo + fileErr;
}.

(** ** The host runtime's store *)

(** What [wsfs.Upload] and what it calls do with an upload apart from reading
    its body: the refusal of the path; the refusal before anything is read
    (the sum's length, the budget, the staged file); how the write at an offset
    of the staged file ends; and what the bytes then come to (the sum, the
    owner, the sync, the rename). *)
Record wsCalls := mkWsCalls {
  wc_path : option fileErr; wc_before : option fileErr; wc_write : nat → option fileErr; wc_after : string → fileInfo + fileErr;
}.
Definition errSize : fileErr := mkFileErr (λ s, match s with FSize => true | _ => false end) (EOther "wsfs: size").
Definition errBody : fileErr := mkFileErr (λ _, false) (EOther "wsfs: body").

(** [io.CopyN(io.MultiWriter(f, h), r, size)] of fillStaged, with [left] bytes to
    go and [got] read: the copy's buffer is [buf] bytes, and the limit cuts the
    last Read short.  [fuel]: a Read gives a byte or ends, so [left] Reads do. *)
Fixpoint copyN (fuel : nat) (wc : wsCalls) (buf left : nat) (got : string) (k : string → storeProg) : storeProg :=
  match left, fuel with
  | 0, _ => k got
  | S _, 0 => SReturn (inr errBody)
  | S _, S fuel' =>
      SRead (Nat.min buf left) (λ b e,
        match (if b ==? "" then None else wc_write wc (String.length got)) with
        | Some we => SReturn (inr we)
        | None =>
            match e with
            | ReadOK => copyN fuel' wc buf (left - String.length b) (got +:+ b) k
            | ReadEOF => if (String.length b =? left)%nat then k (got +:+ b) else SReturn (inr errSize)
            | ReadErr _ => if (String.length b =? left)%nat then k (got +:+ b) else SReturn (inr errBody)
            end
        end)
  end.
(** [io.ReadFull(r, extra[:])] and what fillStaged makes of it; a Read gives its
    byte or ends. *)
Definition readExtra (k : storeProg) : storeProg :=
  SRead 1 (λ b e,
    if b <>? "" then SReturn (inr errSize)
    else match e with ReadEOF => k | ReadOK | ReadErr _ => SReturn (inr errBody) end).
(** [io.Copy]'s buffer: 32 KiB, or the limit where that is less. *)
Definition copyBuffer (size : nat) : nat := if (size <? 32768)%nat then Nat.max 1 size else 32768.
(** [func (r *Runtime) Upload(ctx, fiberID, path, size, mode, sum, rd)] of the
    host runtime, through [wsfs.Upload], [write] and [fillStaged], as it reads *)
Definition hostUpload (wc : wsCalls) (size : Z) : storeProg :=
  match wc_path wc with
  | Some e => SReturn (inr e)
  | None =>
      if (size <? 0)%Z then SReturn (inr errSize) else
      match wc_before wc with
      | Some e => SReturn (inr e)
      | None =>
          let n := Z.to_nat size in
          copyN n wc (copyBuffer n) n "" (λ got, readExtra (SReturn (wc_after wc got)))
      end
  end.
Definition hostStore (wc : string → string → Z → N → string → wsCalls)
    (download : string → string → Z → (fileInfo * list (string * option (option fileErr))) + fileErr)
    (list : string → string → list fileInfo + fileErr) : fileStore :=
  mkFileStore (λ id path size mode sum, hostUpload (wc id path size mode sum) size) download list.

Section files.
Context `{Env E} (others : World E → World E) (sv : Server) (files : option fileStore).
Local Notation M := (St (World E)).

Definition statusOf (code : StatusCode) (err : option error) : rpcError := default (mkRpcError CInternal err []) (ToError sv code err).

(** [func (s *Server) fileGrant(ctx, fiberID string) (core.Grant, error)] *)
Definition fileGrant (c : ctx) (id : string) : M (Grant + rpcError) :=
  let unknown := inr (statusOf NotFound (Some (ESentinel ErrFiberUnknown))) in
  f ← ledger (LFiber id);
  match f with
  | None => mret unknown
  | Some f =>
      mine ← owns c (GrantUID f);
      if negb mine then mret unknown else
      g ← ledger (LGrant (GrantUID f));
      mret match g with
           | None => unknown
           | Some g => if (DiskBudgetBytes g =? 0)%N then inr (statusOf NoWorkspace (Some (wrap1 ErrNoWorkspace))) else inl g
           end
  end.

(** [func (s *Server) fileError(err error) error] of an error *)
Definition fileError (e : fileErr) : rpcError :=
  let is_ := fe_is e in
  if is_ FNoWorkspace then statusOf NoWorkspace (Some (fe_err e))
  else if is_ FFiberUnknown || is_ FNotExist then statusOf NotFound (Some (fe_err e))
  else if is_ FBudget || is_ FEntries then statusOf OverBudget (Some (fe_err e))
  else if is_ FPath || is_ FNotRegular || is_ FSize || is_ FChecksum then statusOf Invalid (Some (fe_err e))
  else if is_ FUnsupported then mkRpcError CUnimplemented (Some (fe_err e)) []
  else statusOf Internal (Some (fe_err e)).

Definition notServed : rpcError := mkRpcError CUnimplemented (Some (EOther "rpc: this home's runtime moves no files")) [].

(** [fs.FileMode(h.GetMode()) & fs.ModePerm], 0644 for zero *)
Definition uploadMode (m : N) : N := let mode := N.land m 511 in if (mode =? 0)%N then 420%N else mode.

(** Upload once the grant is known: the answer, and the bytes the store got. *)
Definition uploadBody (h : uploadHeader) (size : N) (rest : stream) (g : Grant) : (fileInfo + rpcError) * string :=
  if (DiskBudgetBytes g <? size)%N then (inr (statusOf OverBudget (Some (EOther "over budget"))), "") else
  match files with
  | None => (inr notServed, "")
  | Some store =>
      let body := mkReader rest size 0 "" None false in
      let '(r, bytes, body) := runStore (fst_Upload store (uh_FiberId h) (uh_Path h) (int64 (Z.of_N size)) (uploadMode (uh_Mode h)) (uh_Sha256 h)) body in
      (match cr_err body, r with
       | Some e, _ => inr e
       | None, inr e => inr (fileError e)
       | None, inl info => match cr_err (drain body) with Some e => inr e | None => inl info end
       end, bytes)
  end.

(** [func (s *Server) Upload(stream) error]: the FileInfo sent back, or the
    error; and the bytes the store was given *)
Definition Upload (c : ctx) (s : stream) : M ((fileInfo + rpcError) * string) :=
  match st_msgs s with
  | [] => mret (inr (match st_end s with None => badUpload "no header" | Some e => e end), "")
  | PHeader h :: msgs =>
      if uh_Path h ==? "" then mret (inr (badUpload "no path"), "") else
      match uh_Size h with
      | None => mret (inr (badUpload "no size"), "")
      | Some size =>
          g ← fileGrant c (uh_FiberId h);
          match g with
          | inr e => mret (inr e, "")
          | inl g => _ ← meanwhile others; mret (uploadBody h size (mkStream msgs (st_end s)) g)
          end
      end
  | _ => mret (inr (badUpload "no header"), "")
  end.

(** A FileChunk: its info, set on the first only, and data. *)
Record fileChunk := mkChunk { fc_Info : option fileInfo; fc_Data : string }.
(** The loop of Download; [send] is the stream's outcome for the chunk of that
    index.  The chunks sent and the end, [None] where the reader never ends. *)
Fixpoint downloadLoop (send : nat → bool) (i : nat) (first : option fileInfo) (reads : list (string * option (option fileErr)))
    : list fileChunk * option (option rpcError) :=
  match reads with
  | [] => ([], None)
  | (data, e) :: rest =>
      let sends := (0 <? String.length data)%nat || match first with Some _ => true | None => false end in
      let chunk := if sends then [mkChunk first data] else [] in
      if sends && negb (send i) then (chunk, Some (Some (mkRpcError CUnavailable None [])))
      else match e with
           | Some None => (chunk, Some None)
           | Some (Some e) => (chunk, Some (Some (fileError e)))
           | None =>
               let '(more, r) := downloadLoop send (if sends then S i else i) (if sends then None else first) rest in
               (chunk ++ more, r)
           end
  end.
(** [func (s *Server) Download(req, stream) error] *)
Definition Download (c : ctx) (id path : string) (offset : N) (send : nat → bool) : M (list fileChunk * option (option rpcError)) :=
  if path ==? "" then mret ([], Some (Some (badUpload "no path"))) else
  g ← fileGrant c id;
  match g with
  | inr e => mret ([], Some (Some e))
  | inl _ =>
      mret match files with
           | None => ([], Some (Some notServed))
           | Some store =>
               match fst_Download store id path (int64 (Z.of_N offset)) with
               | inr e => ([], Some (Some (fileError e)))
               | inl (info, reads) => downloadLoop send 0 (Some info) reads
               end
           end
  end.

(** [func (s *Server) ListFiles(ctx, req)] *)
Definition ListFiles (c : ctx) (id dir : string) : M (list fileInfo + rpcError) :=
  g ← fileGrant c id;
  match g with
  | inr e => mret (inr e)
  | inl _ =>
      mret match files with
           | None => inr notServed
           | Some store => match fst_ListFiles store id dir with inr e => inr (fileError e) | inl infos => inl infos end
           end
  end.
End files.
