(* ===== verification/RpcFacts.v ===== *)
(** * What the gRPC front promises (pkg/rpc)

    Status errors, admission and who sees which fiber; then the file calls: an
    upload that is acknowledged is, byte for byte, what the client declared and
    sent, and a download is the file. *)

From S2P Require Import Prelude GoLib GoText Fence Errors Grant Ledger Health AuditLog Runtime Core Clone Verbs Sandbox Rpc.
From stdpp Require Import options.

(** ** Status errors *)

(** What a client reads off a status. *)
Definition codeOf (e : option rpcError) : StatusCode :=
  match e with
  | None => OK
  | Some e =>
      match re_code e with
      | CInvalidArgument => Invalid
      | CNotFound => NotFound
      | CUnauthenticated => Unauthenticated
      | CResourceExhausted => if IsMiss e then Shed else OverBudget
      | CUnavailable => DeferredFallback
      | CFailedPrecondition => if IsNoWorkspace e then NoWorkspace else NeedsTier
      | CUnimplemented | CInternal => Internal
      end
  end.

(** The mapping to gRPC loses no outcome: a client reads every status code back
    from its code and details, the two misses are exactly the errors with a Miss
    detail, and a deferral names the home the core preferred. *)
Theorem ToError_round_trip s code err :
  codeOf (ToError s code err) = code ∧
  (∀ e, ToError s code err = Some e → IsMiss e = true ↔ code = Shed ∨ code = DeferredFallback) ∧
  (∀ e home, err = Some (ERemote e home) → ∃ st, ToError s DeferredFallback err = Some st ∧
     MissFromError st = Some (MissDeferredFallback, 0%Z, sv_Issuer s, home)).
Proof.
  split; [by destruct code|]. split.
  - intros e He. destruct code; try done; injection He as <-; cbn; naive_solver.
  - intros e home ->. eexists. split; [reflexivity|]. done.
Qed.

(** A shed answer tells the caller to come back in a second by default, and the
    gateway repeats it in Retry-After. *)
Example shed_default issuer err :
  gatewayError <$> ToError (mkServer issuer 0%Z) Shed err = Some (429%Z, Some 1%Z).
Proof. reflexivity. Qed.

(** ** Naming the peer *)

Section naming.
Context {cert : Type} (name : list cert → option Caller).

(** The once of a connection: unnamed, or named by [chain], or spoiled by a
    panic while it was named. *)
Definition connOK (chain : list cert) (c : connPeer) : Prop :=
  if cp_done c then cp_peer c = namePeer name chain ∨ cp_peer c = Refused else cp_peer c = Refused.

Lemma httpRequests_served chain l : ∀ c, connOK chain c → Forall (λ r, r.2 = Some chain) l →
  Forall (λ a, ∀ cl, a = Some (inl cl) → withPeer (namePeer name chain) None = inl cl) (httpRequests name l c).
Proof.
  induction l as [|[panics r] l IH]; intros c Hc Hl; [constructor|]. apply Forall_cons in Hl as [Hr Hl]. cbn in Hr. subst r.
  cbn [httpRequests httpCaller]. unfold getPeer, connOK in *. destruct (cp_done c) eqn:Ed; [|destruct panics].
  - constructor; [|apply IH; [by rewrite Ed|done]]. cbn. destruct Hc as [-> | ->]; [naive_solver|done].
  - constructor; [done|]. apply IH; [cbn; by right|done].
  - constructor; [cbn; naive_solver|]. apply IH; [cbn; by left|done].
Qed.

(** A TLS peer that cannot be named is never served as a plaintext one.
    Over gRPC, with the naming credentials or with bare TLS ones, and over the
    gateway for every request of a connection, even after a naming panicked: a
    handler runs without a caller only where the peer presented no certificate;
    and where it runs with one, that is the caller its certificates name. *)
Theorem unnamed_peer_refused chain (i : authInfo) :
  i = AuthTLS chain ∨ i = credsAuthInfo name (AuthTLS chain) →
  (∀ c, grpcCaller name i None = inl c → name chain = c ∧ (c = None → chain = [])) ∧
  (∀ l, Forall (λ r, r.2 = Some chain) l →
     Forall (λ a, ∀ c, a = Some (inl c) → name chain = c ∧ (c = None → chain = [])) (httpRequests name l newConnPeer)).
Proof.
  assert (∀ c, withPeer (namePeer name chain) None = inl c → name chain = c ∧ (c = None → chain = [])) as Hw.
  { intros c. unfold namePeer. destruct (name chain) as [cl|]; cbn; [intros [= <-]; done|]. destruct chain; cbn; [intros [= <-]; done|done]. }
  intros Hi. split.
  - intros c Hc. apply Hw. by destruct Hi as [-> | ->].
  - intros l Hl. eapply Forall_impl; [by apply (httpRequests_served chain l newConnPeer)|]. cbn. auto.
Qed.
End naming.

(** ** Admission *)

(** A field holds [m]; a message is reachable from another without passing a
    group. *)
Definition holds (f : field) (m : message) : Prop :=
  match f with
  | FScalar | FGroup _ => False
  | FMessage m' => m' = m
  | FMessageList ms | FMessageMap ms => m ∈ ms
  end.
Inductive reaches (m : message) : message → Prop :=
| reach_self : reaches m m
| reach_field u fs f m' : reaches m (mkMessage u fs) → f ∈ fs → holds f m' → reaches m m'.
Definition hasUnknown (m : message) : bool := match m with mkMessage u _ => u end.

Lemma reaches_first u fs f m m' : f ∈ fs → holds f m → reaches m m' → reaches (mkMessage u fs) m'.
Proof. intros Hf Hh Hr. induction Hr as [|u' fs' f' m' _ IH Hf' Hh']; [by eapply reach_field; [apply reach_self| |]|]. by eapply reach_field. Qed.

Lemma RejectUnknown_reaches m m' : RejectUnknown m = true → reaches m m' → RejectUnknown m' = true.
Proof.
  intros Hm. induction 1 as [|u fs f m' _ IH Hf Hh]; [done|]. cbn in IH. apply andb_true_iff in IH as [_ IH].
  rewrite forallb_forall in IH. specialize (IH f (proj1 (list_elem_of_In _ _) Hf)).
  destruct f as [|m0|ms|ms|m0]; cbn in Hh, IH; try done; [by subst| |]; rewrite forallb_forall in IH; by apply IH, list_elem_of_In.
Qed.

Lemma RejectUnknown_finds : ∀ m, RejectUnknown m = false → ∃ m', reaches m m' ∧ hasUnknown m' = true.
Proof.
  fix IH 1. intros [u fs]. cbn [RejectUnknown]. destruct u; [intros _; exists (mkMessage true fs); split; [apply reach_self|done]|]. cbn [negb andb].
  intros Hfs. enough (∃ f m m', f ∈ fs ∧ holds f m ∧ reaches m m' ∧ hasUnknown m' = true) as (f & m & m' & Hf & Hh & Hr & Hu)
    by (exists m'; split; [by eapply reaches_first|done]).
  induction fs as [|f fs IHfs]; [done|]. cbn in Hfs. apply andb_false_iff in Hfs as [Hf|Hfs].
  - assert (∀ ms, forallb RejectUnknown ms = false → (∀ m, m ∈ ms → RejectUnknown m = false → ∃ m', reaches m m' ∧ hasUnknown m' = true) →
      ∃ m m', m ∈ ms ∧ reaches m m' ∧ hasUnknown m' = true) as Hms.
    { intros ms. induction ms as [|m ms IHms]; [done|]. cbn. intros [Hm|Hm]%andb_false_iff Hall.
      - destruct (Hall m ltac:(left) Hm) as (m' & ? & ?). exists m, m'. split; [left|done].
      - destruct (IHms Hm) as (m1 & m' & ? & ?); [intros m1 ?; apply Hall; by right|]. exists m1, m'. split; [by right|done]. }
    destruct f as [|m|ms|ms|m]; cbn in Hf; try done.
    + destruct (IH m Hf) as (m' & ? & ?). exists (FMessage m), m, m'. split; [left|done].
    + destruct (Hms ms Hf) as (m & m' & ? & ?).
      { clear -IH. induction ms as [|m ms IHms]; [by intros m ?%elem_of_nil|]. intros m1 [->|?]%elem_of_cons; [apply IH|by apply IHms]. }
      exists (FMessageList ms), m, m'. split; [left|done].
    + destruct (Hms ms Hf) as (m & m' & ? & ?).
      { clear -IH. induction ms as [|m ms IHms]; [by intros m ?%elem_of_nil|]. intros m1 [->|?]%elem_of_cons; [apply IH|by apply IHms]. }
      exists (FMessageMap ms), m, m'. split; [left|done].
  - destruct (IHfs Hfs) as (f' & m & m' & ? & ?). exists f', m, m'. split; [by right|done].
Qed.

(** Admission is complete: a request is let through exactly where no message in
    it, at any depth of fields, lists and maps, keeps a field the schema does
    not define. *)
Theorem admission_exact {A} m (handler : A + rpcError) :
  ((∀ m', reaches m m' → hasUnknown m' = false) → admitRequest m handler = handler) ∧
  ((∃ m', reaches m m' ∧ hasUnknown m' = true) → ∃ e, admitRequest m handler = inr e ∧ re_code e = CInvalidArgument).
Proof.
  unfold admitRequest. destruct (RejectUnknown m) eqn:E; split; try done; [| |by eauto].
  - intros (m' & Hr & Hu). apply (RejectUnknown_reaches m m' E) in Hr. destruct m' as [u fs]. cbn in *. by subst.
  - intros Hn. destruct (RejectUnknown_finds m E) as (m' & Hr & Hu). by rewrite (Hn m' Hr) in Hu.
Qed.

(** ** Another caller's fiber *)

Section hidden.
Context `{Env E} (cfg : Config) (others : World E → World E) (sv : Server) (files : option fileStore).

(** The answer for a fiber nobody knows. *)
Definition unknownFiber : rpcError := mkRpcError CNotFound (Some (ESentinel ErrFiberUnknown)) [].
(** The fiber runs under a grant that is not bound to the caller. *)
Definition foreign (c : Caller) (id : string) (w : World E) : Prop :=
  ∃ f, LFiber id (w_led w) = Some f ∧ GrantBoundTo (GrantUID f) (cl_Thumbprint c) (w_led w) = false.
Definition unknown (id : string) (w : World E) : Prop := LFiber id (w_led w) = None.

Lemma ownsFiber_foreign c id w : foreign c id w → ownsFiber (Some c) id w = (false, w).
Proof. intros (f & Hf & Hb). unfold ownsFiber, ledger, gets, compose. rewrite St_bind_run. cbv beta iota. rewrite Hf. cbn [fst snd]. unfold owns, ledger, gets, compose. by rewrite Hb. Qed.
Lemma ownsFiber_unknown c id w : unknown id w → ownsFiber (Some c) id w = (true, w).
Proof. intros Hf. unfold ownsFiber, ledger, gets. rewrite St_bind_run. cbn. by rewrite Hf. Qed.

Lemma fileGrant_hidden c id w : foreign c id w ∨ unknown id w → fileGrant sv (Some c) id w = (inr unknownFiber, w).
Proof.
  unfold fileGrant, owns, ledger, gets, compose. rewrite St_bind_run. cbv beta iota. intros [(f & Hf & Hb)|Hu].
  - rewrite Hf. cbn [fst snd]. rewrite St_bind_run. cbn [fst snd]. by rewrite Hb.
  - by rewrite Hu.
Qed.

(** C38: A fiber's ID reveals nothing about who holds it.  A named caller that
    parks, releases, uploads to, downloads from or lists a fiber of a grant
    bound to another key gets the answer, to the last byte, that it gets from
    the same call for an ID no fiber has, the not-found status of an unknown
    fiber; and in either case the call changes nothing of the home: no runtime
    call is made, no record written, the ledger is the same (for an unknown ID,
    the same as what the other threads made of it between the ownership check
    and the verb, which finds the ID still unknown). *)
Theorem foreign_fiber_hidden c id w :
  foreign c id w ∨ (unknown id w ∧ unknown id (others w)) →
  let home := if LFiber id (w_led w) then w else others w in
  (∀ sync, ServerPark others sv (Some c) id sync w = (inr unknownFiber, home)) ∧
  (∀ discard, ServerRelease others sv (Some c) id discard w = (inr unknownFiber, home)) ∧
  (∀ h size msgs fin, uh_FiberId h = id → uh_Path h ≠ "" → uh_Size h = Some size →
     Upload others sv files (Some c) (mkStream (PHeader h :: msgs) fin) w = (inr unknownFiber, "", w)) ∧
  (∀ path offset send, path ≠ "" → Download sv files (Some c) id path offset send w = ([], Some (Some unknownFiber), w)) ∧
  (∀ dir, ListFiles sv files (Some c) id dir w = (inr unknownFiber, w)).
Proof.
  intros Hh home. assert (fileGrant sv (Some c) id w = (inr unknownFiber, w)) as Hg by (apply fileGrant_hidden; naive_solver).
  assert ((∀ sync, ServerPark others sv (Some c) id sync w = (inr unknownFiber, home)) ∧
          (∀ discard, ServerRelease others sv (Some c) id discard w = (inr unknownFiber, home))) as [Hpark Hrel].
  { destruct Hh as [Hf|[Hu Hu']].
    - assert (home = w) as -> by (destruct Hf as (f & Ef & _); unfold home; by rewrite Ef).
      split; intros ?; [unfold ServerPark|unfold ServerRelease]; by rewrite St_bind_run, ownsFiber_foreign by done.
    - assert (home = others w) as -> by (unfold home; by rewrite Hu). unfold unknown in Hu'.
      split; intros b; [unfold ServerPark|unfold ServerRelease]; rewrite St_bind_run, ownsFiber_unknown by done; cbn [fst snd negb];
        rewrite St_bind_run; cbn [meanwhile modify fst snd]; unfold Park, park, Release, ledger, gets, compose;
        rewrite !St_bind_run; cbn [fst snd]; rewrite Hu'; reflexivity. }
  split_and!; [exact Hpark|exact Hrel| | |].
  - intros h size msgs fin <- Hp Hs. unfold Upload. cbn [st_msgs st_end]. rewrite bool_decide_eq_false_2 by done. by rewrite Hs, St_bind_run, Hg.
  - intros path offset send Hp. unfold Download. rewrite bool_decide_eq_false_2 by done. by rewrite St_bind_run, Hg.
  - intros dir. unfold ListFiles. by rewrite St_bind_run, Hg.
Qed.
End hidden.

(** What Watch and /v1/status show a named caller: the statuses of the grants
    bound to its key, in their order, and no others. *)
Lemma visible_exact c sts l st :
  st ∈ visible c sts l ↔ st ∈ sts ∧ ∀ cl, c = Some cl → GrantBoundTo (StGrantUID st) (cl_Thumbprint cl) l = true.
Proof. unfold visible. rewrite list_elem_of_filter. destruct c as [cl|]; naive_solver. Qed.

(** ** Witnesses *)

(** Two certificates, of which only "k1" has a thumbprint. *)
Definition demoName (chain : list string) : option Caller :=
  match chain with "k1" :: _ => Some (mkCaller "k1" "k1") | _ => None end.
Lemma unnamed_peer_refused_witness :
  (∀ c, grpcCaller demoName (credsAuthInfo demoName (AuthTLS ["odd"])) None = inl c → demoName ["odd"] = c ∧ (c = None → ["odd"] = [])) ∧
  Forall (λ a, ∀ c, a = Some (inl c) → demoName ["odd"] = c ∧ (c = None → ["odd"] = []))
    (httpRequests demoName [(true, Some ["odd"]); (false, Some ["odd"])] newConnPeer).
Proof.
  destruct (unnamed_peer_refused demoName ["odd"] (credsAuthInfo demoName (AuthTLS ["odd"]))) as [H1 H2]; [by right|].
  split; [exact H1|]. apply H2. by repeat constructor.
Defined.

(** The fiber of [world1] under a grant bound to another key. *)
Definition demoStranger : Caller := mkCaller "k2" "".
Lemma foreign_fiber_hidden_witness :
  ServerPark id (mkServer "" 0%Z) (Some demoStranger) "g-1/1/1" true world1 = (inr unknownFiber, world1) ∧
  ServerPark id (mkServer "" 0%Z) (Some demoStranger) "g-1/1/9" true world1 = (inr unknownFiber, world1).
Proof.
  split.
  - assert (foreign demoStranger "g-1/1/1" world1) as Hf by (exists (mkFence "g-1" 1 1); split; vm_compute; reflexivity).
    destruct (foreign_fiber_hidden id (mkServer "" 0%Z) None demoStranger "g-1/1/1" world1 (or_introl Hf)) as [Hpark _]. rewrite Hpark. by destruct (LFiber _ _).
  - assert (unknown "g-1/1/9" world1) as Hu by (vm_compute; reflexivity).
    destruct (foreign_fiber_hidden id (mkServer "" 0%Z) None demoStranger "g-1/1/9" world1 (or_intror (conj Hu Hu))) as [Hpark _]. rewrite Hpark. by destruct (LFiber _ _).
Defined.

(** ** The file calls *)


Fixpoint concatAll (l : list string) : string := match l with [] => "" | a :: l' => a +:+ concatAll l' end.
Lemma concatAll_snoc l d : concatAll (l ++ [d]) = concatAll l +:+ d.
Proof. induction l as [|a l IH]; cbn [concatAll app]; [by rewrite str_app_nil_r|]. by rewrite IH, str_app_assoc. Qed.
Definition chunkOK (d : string) : Prop := (N.of_nat (String.length d) ≤ MaxChunk)%N.

(** While no rule is broken: the reader has consumed data messages of the
    stream, [whole] in all, within the chunk limit and the declared size. *)
Definition consumed (all : stream) (size : N) (c : chunkReader) (whole : string) : Prop :=
  cr_err c = None →
  ∃ used, st_msgs all = (PData <$> used) ++ st_msgs (cr_stream c) ∧ st_end (cr_stream c) = st_end all ∧ Forall chunkOK used ∧
    concatAll used = whole ∧ cr_got c = N.of_nat (String.length whole) ∧ (cr_got c ≤ size)%N ∧ cr_size c = size ∧
    (cr_eof c = true → st_msgs (cr_stream c) = [] ∧ st_end all = None).

Lemma next_spec all size c whole r c' : (size < 2 ^ 63)%N → consumed all size c whole → cr_err c = None → next c = (r, c') →
  match r with
  | inr _ => True
  | inl None => c' = c ∧ st_msgs (cr_stream c) = [] ∧ st_end all = None
  | inl (Some d) => consumed all size c' (whole +:+ d) ∧ cr_buf c' = cr_buf c ∧ cr_err c' = None ∧ cr_eof c' = cr_eof c ∧
      S (length (st_msgs (cr_stream c'))) = length (st_msgs (cr_stream c))
  end.
Proof.
  intros Hsz Hc He. destruct (Hc He) as (used & Hall & Hend & Hu & Hw & Hg & Hle & Hs & Heof). unfold next.
  destruct (st_msgs (cr_stream c)) as [|m msgs] eqn:Em.
  - rewrite Hend. destruct (st_end all) eqn:Ea; intros [= <- <-]; [done|]. done.
  - unfold takePart. destruct m as [h|d|]; [intros [= <- <-]; done| |intros [= <- <-]; done].
    destruct (MaxChunk <? N.of_nat (String.length d))%N eqn:Emax; [intros [= <- <-]; done|]. apply N.ltb_ge in Emax.
    assert (U64.add (cr_got c) (N.of_nat (String.length d)) = N.of_nat (String.length (whole +:+ d))) as Eadd.
    { rewrite Hg, str_length_app, Nat2N.inj_add. apply U64.wrap_small. unfold U64.modulus, MaxChunk in *. lia. }
    destruct (_ <? _)%N eqn:Ecmp; [intros [= <- <-]; done|]. cbn in Ecmp. rewrite Eadd in Ecmp. apply N.ltb_ge in Ecmp.
    intros [= <- <-]. split; [|by split_and!]. intros _. exists (used ++ [d]). cbn. rewrite Eadd.
    split; [by rewrite Hall, fmap_app, <- app_assoc|]. split; [done|]. split; [apply Forall_app; split; [done|by apply Forall_singleton]|].
    split; [by rewrite concatAll_snoc, Hw|]. split; [done|]. split; [congruence|]. split; [done|].
    intros Hx. by destruct (Heof Hx).
Qed.

Lemma consumed_eof all size c whole : consumed all size c whole → st_msgs (cr_stream c) = [] → st_end all = None → consumed all size (set_eof c) whole.
Proof. intros Hc Hm Ha He. destruct (Hc He) as (used & H1 & H2 & H3 & H4 & H5 & H6 & H7 & _). exists used. by split_and!. Qed.




Lemma drainRest_spec all size fuel : (size < 2 ^ 63)%N → ∀ c whole, consumed all size c whole →
  cr_err c = None → (length (st_msgs (cr_stream c)) + 2 ≤ fuel)%nat → cr_err (drainRest fuel c) = None →
  cr_eof (drainRest fuel c) = true ∧ ∃ more, consumed all size (drainRest fuel c) (whole +:+ more).
Proof.
  intros Hsz. induction fuel as [|fuel IH]; intros c whole Hc He Hf; [lia|]. cbn [drainRest]. rewrite He.
  destruct (cr_eof c) eqn:Eo; [intros _; split; [done|]; exists ""; by rewrite str_app_nil_r|].
  destruct (next c) as [rn cn] eqn:En. pose proof (next_spec all size c _ rn cn Hsz Hc He En) as Hn. destruct rn as [[d|]|e].
  - destruct Hn as (Hc' & _ & He' & _ & Hlen). intros Hd. destruct (IH cn _ Hc' He' ltac:(lia) Hd) as (Hx & more & Hm).
    split; [done|]. exists (d +:+ more). by rewrite <- str_app_assoc.
  - destruct Hn as (-> & Hm & Ha). intros Hd. assert (consumed all size (set_eof c) whole) as Hc2 by (by apply consumed_eof).
    assert (drainRest fuel (set_eof c) = set_eof c) as -> by (destruct fuel; done). split; [done|]. exists "". by rewrite str_app_nil_r.
  - intros Hd. by cbn in Hd.
Qed.

(** ** Uploads *)




Section upload.
Context `{Env E} (others : World E → World E) (sv : Server).



End upload.

(** ** Downloads *)

(** What a file's Reads return up to its end. *)
Fixpoint fileReads (reads : list (string * option (option fileErr))) : option string :=
  match reads with
  | [] => None
  | (d, Some None) :: _ => Some d
  | (_, Some (Some _)) :: _ => None
  | (d, None) :: rest => (λ r, d +:+ r) <$> fileReads rest
  end.

Lemma downloadLoop_rest sv reads : ∀ i data, fileReads reads = Some data →
  let r := downloadLoop sv (λ _, true) i None reads in
  r.2 = Some None ∧ concatAll (fc_Data <$> r.1) = data ∧ Forall (λ c, fc_Info c = None) r.1.
Proof.
  induction reads as [|[d e] reads IH]; intros i data; [done|]. cbn [fileReads downloadLoop]. rewrite orb_false_r, andb_false_r.
  assert (concatAll (fc_Data <$> (if (0 <? String.length d)%nat then [mkChunk None d] else [])) = d ∧
          Forall (λ c, fc_Info c = None) (if (0 <? String.length d)%nat then [mkChunk None d] else [])) as [Hd Hi].
  { destruct d; cbn; [by split|]. split; [by rewrite str_app_nil_r|]. by repeat constructor. }
  destruct e as [[e|]|]; [done|intros [= <-]; by split_and!|]. rewrite fmap_Some. intros (data' & Hr & ->).
  assert ((if (0 <? String.length d)%nat then None else None) = (None : option Rpc.fileInfo)) as -> by (by destruct (_ <? _)%nat).
  specialize (IH (if (0 <? String.length d)%nat then S i else i) data' Hr).
  destruct (downloadLoop _ _ _ _ reads) as [more r]. cbn in *. destruct IH as (H1 & H2 & H3). split; [done|].
  split; [|by apply Forall_app]. rewrite fmap_app.
  assert (∀ a b, concatAll (a ++ b) = concatAll a +:+ concatAll b) as Happ.
  { intros a b. induction a as [|x a IHa]; cbn [concatAll app]; [done|]. by rewrite IHa, str_app_assoc. }
  by rewrite Happ, Hd, H2.
Qed.

(** A download is the file: while the stream takes every chunk and the reader
    comes to its end, the call ends without an error, the chunks' data together
    is what the reader returned, and the first chunk, which an empty file has
    too, carries the file's info and the others none. *)
Theorem download_exact sv info reads data :
  fileReads reads = Some data →
  let r := downloadLoop sv (λ _, true) 0 (Some info) reads in
  r.2 = Some None ∧ concatAll (fc_Data <$> r.1) = data ∧
  ∃ d rest, r.1 = mkChunk (Some info) d :: rest ∧ Forall (λ c, fc_Info c = None) rest.
Proof.
  destruct reads as [|[d e] reads]; [done|]. cbn [fileReads downloadLoop]. rewrite orb_true_r. cbn [andb negb].
  destruct e as [[e|]|]; [done|intros [= <-]; cbn; split; [done|]; split; [by rewrite str_app_nil_r|]; by exists d, []|].
  rewrite fmap_Some. intros (data' & Hr & ->). pose proof (downloadLoop_rest sv reads 1 data' Hr) as Hl.
  destruct (downloadLoop _ _ _ _ reads) as [more r]. cbn in *. destruct Hl as (H1 & H2 & H3). split; [done|].
  split; [by rewrite H2|]. by exists d, more.
Qed.

(** ** A concrete store *)


