(* ===== verification/Threads.v ===== *)
(** * Goroutines that share a lock, and a logic of tokens for them

    Code that takes a lock many times is a [prog]: a tree whose nodes are one
    hold of the lock ([Hold], a state-monad computation that runs at once), a
    call outside it that succeeds or fails ([Ask]), a wait for something of the
    shared state ([Await]), and a wait that ends in a change of it at once
    ([Lock], for the locks and channels that are part of the state).  A home is a pool of such threads, each started
    for a job; [step] is executable, so that a schedule is a list of actions.

    Each thread of a proof owns a list of tokens, its part in the invariant.
    [wp p Q T s0] says that a thread running [p] with the tokens [T], started
    no earlier than in [s0], keeps the invariant whatever the other threads own
    and do, and ends as [Q] says.  [pool_invariant] is the soundness of it. *)

From S2P Require Import Prelude.
From stdpp Require Import options.

Section prog.
Context {S C : Type}.

Inductive prog (R : Type) : Type :=
| Ret (r : R)
| Hold (A : Type) (f : St S A) (k : A → prog R)
| Ask (c : C) (k : bool → prog R)
| Await (g : S → bool) (k : prog R)
| Lock (A : Type) (g : S → bool) (f : St S A) (k : A → prog R).

#[global] Arguments Ret {_} _.
#[global] Arguments Hold {_ _} _ _.
#[global] Arguments Ask {_} _ _.
#[global] Arguments Await {_} _ _.
#[global] Arguments Lock {_ _} _ _ _.

Fixpoint bindP {A B} (f : A → prog B) (p : prog A) : prog B :=
  match p with
  | Ret r => f r
  | Hold g k => Hold g (λ a, bindP f (k a))
  | Ask c k => Ask c (λ b, bindP f (k b))
  | Await g k => Await g (bindP f k)
  | Lock g h k => Lock g h (λ a, bindP f (k a))
  end.

Definition hold {A} (f : St S A) : prog A := Hold f Ret.
Definition ask (c : C) : prog bool := Ask c Ret.
Definition await (g : S → bool) : prog unit := Await g (Ret tt).
Definition lock {A} (g : S → bool) (f : St S A) : prog A := Lock g f Ret.

Fixpoint eachP {A} (f : A → prog unit) (xs : list A) : prog unit :=
  match xs with
  | [] => Ret tt
  | x :: xs' => bindP (λ _, eachP f xs') (f x)
  end.
End prog.

Arguments prog : clear implicits.
#[export] Instance prog_ret S C : MRet (prog S C) := λ A a, Ret a.
#[export] Instance prog_bind S C : MBind (prog S C) := λ A B f p, bindP f p.

(** Every result a program can end with, whatever its holds read and the calls
    answer. *)
Fixpoint yields {S C R} (p : prog S C R) (Q : R → Prop) : Prop :=
  match p with
  | Ret r => Q r
  | Hold f k | Lock _ f k => ∀ s, yields (k (f s).1) Q
  | Ask _ k => ∀ b, yields (k b) Q
  | Await _ k => yields k Q
  end.

Lemma yields_bind' {S C A R} (p : prog S C A) (k : A → prog S C R) P Q :
  yields p P → (∀ a, P a → yields (k a) Q) → yields (p ≫= k) Q.
Proof.
  intros Hp Hk. induction p as [r|B f k' IH|q k' IH|g k' IH|B g f k' IH]; simpl in Hp;
    [by apply Hk|intros s; by apply IH|intros b; by apply IH|by apply IH|intros s; by apply IH].
Qed.

Lemma yields_bind {S C A R} (p : prog S C A) (k : A → prog S C R) Q :
  (∀ a, yields (k a) Q) → yields (p ≫= k) Q.
Proof.
  intros Hk. induction p as [r|B f k' IH|q k' IH|g k' IH|B g f k' IH];
    [apply Hk|intros s; apply IH|intros b; apply IH|apply IH|intros s; apply IH].
Qed.

Lemma yields_mono {S C R} (p : prog S C R) (P Q : R → Prop) : (∀ r, P r → Q r) → yields p P → yields p Q.
Proof. intros HPQ. induction p as [r|B f k IH|q k IH|g k IH|B g f k IH]; simpl; eauto. Qed.

(** Every hold of a program keeps [I]. *)
Fixpoint keepsI {S C R} (I : S → Prop) (p : prog S C R) : Prop :=
  match p with
  | Ret r => True
  | Hold f k | Lock _ f k => ∀ s, I s → I (f s).2 ∧ keepsI I (k (f s).1)
  | Ask _ k => ∀ b, keepsI I (k b)
  | Await _ k => keepsI I k
  end.

Lemma keepsI_bind {S C A R} (I : S → Prop) (p : prog S C A) (k : A → prog S C R) :
  keepsI I p → (∀ a, keepsI I (k a)) → keepsI I (p ≫= k).
Proof.
  intros Hp Hk. induction p as [r|B f k' IH|q k' IH|g k' IH|B g f k' IH]; simpl in Hp;
    [by apply Hk|intros s Hs; destruct (Hp s Hs); split; [done|by apply IH]|intros b; by apply IH|by apply IH
    |intros s Hs; destruct (Hp s Hs); split; [done|by apply IH]].
Qed.

Lemma keepsI_each {S C A} (I : S → Prop) (f : A → prog S C unit) xs :
  (∀ x, keepsI I (f x)) → keepsI I (eachP f xs).
Proof. intros Hf. induction xs as [|x xs IH]; [done|]. apply (keepsI_bind I (f x)); [done|intros _; exact IH]. Qed.

(** One program alone, where no call fails. *)
Fixpoint alone {S C R} (p : prog S C R) (s : S) : R * S :=
  match p with
  | Ret r => (r, s)
  | Hold f k | Lock _ f k => alone (k (f s).1) (f s).2
  | Ask _ k => alone (k true) s
  | Await _ k => alone k s
  end.

Lemma alone_bind {S C A R} (p : prog S C A) (k : A → prog S C R) s : alone (p ≫= k) s = alone (k (alone p s).1) (alone p s).2.
Proof. revert s. induction p as [r|B f k' IH|q k' IH|g k' IH|B g f k' IH]; intros s; cbn; [done|apply IH..]. Qed.

(** However its calls answer, one program alone ends as [Q] says. *)
Fixpoint ends {S C R} (p : prog S C R) (Q : R → S → Prop) (s : S) : Prop :=
  match p with
  | Ret r => Q r s
  | Hold f k | Lock _ f k => ends (k (f s).1) Q (f s).2
  | Ask _ k => ∀ b, ends (k b) Q s
  | Await _ k => ends k Q s
  end.

Lemma ends_bind {S C A R} (p : prog S C A) (k : A → prog S C R) Q s :
  ends p (λ a, ends (k a) Q) s → ends (p ≫= k) Q s.
Proof.
  revert s. induction p as [r|B f k' IH|q k' IH|g k' IH|B g f k' IH]; intros s; cbn; [done|apply IH| |apply IH|apply IH].
  intros Hp b. by apply IH.
Qed.
Lemma ends_mono {S C R} (p : prog S C R) (P Q : R → S → Prop) s : (∀ r s', P r s' → Q r s') → ends p P s → ends p Q s.
Proof. intros HPQ. revert s. induction p as [r|B f k IH|q k IH|g k IH|B g f k IH]; intros s; cbn; eauto. Qed.

(** The run in which the calls answer [bs], then succeed. *)
Fixpoint answering {S C R} (bs : list bool) (p : prog S C R) (s : S) : R * S :=
  match p with
  | Ret r => (r, s)
  | Hold f k | Lock _ f k => answering bs (k (f s).1) (f s).2
  | Ask _ k => match bs with [] => answering [] (k true) s | b :: bs' => answering bs' (k b) s end
  | Await _ k => answering bs k s
  end.
Lemma ends_answering {S C R} bs (p : prog S C R) Q s : ends p Q s → Q (answering bs p s).1 (answering bs p s).2.
Proof.
  revert bs s. induction p as [r|B f k IH|q k IH|g k IH|B g f k IH]; intros bs s; cbn; [done|apply IH| |apply IH|apply IH].
  intros Hp. destruct bs as [|b bs]; by apply IH.
Qed.

(** ** The pool of threads *)

Section pool.
Context {S C J : Type} (body : J → prog S C unit) (may : S → list J → J → bool).

Record config := mkConfig { c_st : S; c_pool : list (J * prog S C unit) }.

(** The scheduler's choices: start a job, run a thread one node further (the
    call it waits on answers [b]), drop a thread that has ended. *)
Inductive act := Spawn (j : J) | Run (i : nat) (b : bool) | Reap (i : nat).

Definition advance (b : bool) (s : S) (p : prog S C unit) : option (S * prog S C unit) :=
  match p with
  | Ret _ => None
  | Hold f k => Some ((f s).2, k (f s).1)
  | Ask _ k => Some (s, k b)
  | Await g k => if g s then Some (s, k) else None
  | Lock g f k => if g s then Some ((f s).2, k (f s).1) else None
  end.

Definition step (a : act) (c : config) : option config :=
  match a with
  | Spawn j => if may (c_st c) (c_pool c).*1 j then Some (mkConfig (c_st c) ((j, body j) :: c_pool c)) else None
  | Run i b =>
      match c_pool c !! i with
      | Some (j, p) =>
          match advance b (c_st c) p with
          | Some (s', p') => Some (mkConfig s' (<[i := (j, p')]> (c_pool c)))
          | None => None
          end
      | None => None
      end
  | Reap i =>
      match c_pool c !! i with
      | Some (_, Ret _) => Some (mkConfig (c_st c) (delete i (c_pool c)))
      | _ => None
      end
  end.

Fixpoint run (l : list act) (c : config) : option config :=
  match l with
  | [] => Some c
  | a :: l' => match step a c with Some c' => run l' c' | None => None end
  end.

Definition reachable (s : S) (c : config) : Prop := ∃ l, run l (mkConfig s []) = Some c.

(** What every hold of every job keeps holds wherever the pool gets. *)
Lemma reachable_keeps (I : S → Prop) s c :
  (∀ j, keepsI I (body j)) → I s → reachable s c → I (c_st c).
Proof using Type*.
  intros Hb H0 [l Hl].
  set (ok c := I (c_st c) ∧ Forall (λ t : J * prog S C unit, keepsI I t.2) (c_pool c)).
  cut (∀ l c0, ok c0 → run l c0 = Some c → ok c); [intros H; apply (H l (mkConfig s [])); [by split|done]|].
  clear l Hl. intros l. induction l as [|a l IH]; intros c0 [HI Hp]; simpl; [by intros [= <-]|].
  destruct (step a c0) as [c1|] eqn:Es; [|done]. apply IH. destruct a as [j|i b|i]; simpl in Es.
  - case_match; [|done]. injection Es as <-. split; [done|]. apply Forall_cons. by split; [apply Hb|].
  - destruct (c_pool c0 !! i) as [[j p]|] eqn:Ei; [|done]. pose proof (Forall_lookup_1 _ _ _ _ Hp Ei) as Hk. simpl in Hk.
    assert (∀ s' p', I s' → keepsI I p' → ok (mkConfig s' (<[i := (j, p')]> (c_pool c0)))) as Hmove
      by (intros s' p' ??; split; [done|by apply Forall_insert]).
    destruct p as [r|A f k|q k|g k|A g f k]; simpl in Es, Hk; repeat case_match; simplify_eq;
      apply Hmove; try done; by apply (Hk (c_st c0)).
  - repeat case_match; simplify_eq. split; [done|]. by apply Forall_delete.
Qed.

(** No thread is running. *)
Definition quiet (c : config) : Prop := c_pool c = [].

(** ** The logic *)

Context {T K : Type} (key : T → K) (static : K → Prop).
Context (Inv : S → list T → Prop) (le : S → S → Prop) `{!PreOrder le}.
Context `{!∀ s, Proper ((≡ₚ) ==> impl) (Inv s)}.

Fixpoint wp {R} (p : prog S C R) (Q : R → list T → S → Prop) (O : list T) (s0 : S) : Prop :=
  match p with
  | Ret r => Q r O s0
  | Hold f k => ∀ s F, le s0 s → Inv s (O ++ F) →
      ∃ O', Inv (f s).2 (O' ++ F) ∧ le s (f s).2 ∧
        (∀ t, t ∈ O' → static (key t) → ∃ t', t' ∈ O ∧ key t' = key t) ∧
        wp (k (f s).1) Q O' (f s).2
  | Ask _ k => ∀ b, wp (k b) Q O s0
  | Await g k => ∀ s F, le s0 s → Inv s (O ++ F) → g s = true → wp k Q O s
  | Lock g f k => ∀ s F, le s0 s → Inv s (O ++ F) → g s = true →
      ∃ O', Inv (f s).2 (O' ++ F) ∧ le s (f s).2 ∧
        (∀ t, t ∈ O' → static (key t) → ∃ t', t' ∈ O ∧ key t' = key t) ∧
        wp (k (f s).1) Q O' (f s).2
  end.

(** What a thread's end leaves to do: nothing. *)
Definition fin {R} (_ : R) (O : list T) (s0 : S) : Prop :=
  ∀ s F, le s0 s → Inv s (O ++ F) → Inv s F.

Lemma wp_mono {R} (p : prog S C R) (Q Q' : R → list T → S → Prop) O s0 :
  (∀ r O' s', Q r O' s' → Q' r O' s') → wp p Q O s0 → wp p Q' O s0.
Proof.
  intros HQ. revert O s0. induction p as [r|A f k IH|c k IH|g k IH|A' g f' k IH]; intros O s0; simpl; eauto.
  - intros Hp s F Hle HI. destruct (Hp s F Hle HI) as (O' & ? & ? & ? & ?). exists O'. eauto.
  - intros Hp s F Hle HI Hg. destruct (Hp s F Hle HI Hg) as (O' & ? & ? & ? & ?). exists O'. eauto.
Qed.

Lemma wp_bind {A R} (f : A → prog S C R) (p : prog S C A) Q O s0 :
  wp p (λ r, wp (f r) Q) O s0 → wp (bindP f p) Q O s0.
Proof.
  revert O s0. induction p as [r|B g k IH|c k IH|g k IH|A' g f' k IH]; intros O s0; simpl; eauto.
  - intros Hp s F Hle HI. destruct (Hp s F Hle HI) as (O' & ? & ? & ? & ?). exists O'. eauto.
  - intros Hp s F Hle HI Hg. destruct (Hp s F Hle HI Hg) as (O' & ? & ? & ? & ?). exists O'. eauto.
Qed.

(** A later start is a better one, when the postcondition says so too. *)
Lemma wp_later {R} (p : prog S C R) (Q : R → list T → S → Prop) O s0 s1 :
  (∀ r O' s s', le s s' → Q r O' s → Q r O' s') →
  le s0 s1 → wp p Q O s0 → wp p Q O s1.
Proof using PreOrder0.
  intros HQ. revert O s0 s1. induction p as [r|A f k IH|c k IH|g k IH|A' g f' k IH]; intros O s0 s1 Hle; simpl; eauto.
  - intros Hp s F Hs HI. apply Hp; [by etrans|done].
  - intros Hp s F Hs HI Hg. apply (Hp s F); [by etrans|done|done].
  - intros Hp s F Hs HI Hg. apply (Hp s F); [by etrans|done|done].
Qed.

(** The tokens a thread owns may be exchanged for what they stand for. *)
Lemma wp_shift {R} (p : prog S C R) (Q : R → list T → S → Prop) O O' s0 :
  (∀ s F, le s0 s → Inv s (O ++ F) → Inv s (O' ++ F)) →
  (∀ t, t ∈ O' → static (key t) → ∃ t', t' ∈ O ∧ key t' = key t) →
  (∀ r s, le s0 s → Q r O' s → Q r O s) → wp p Q O' s0 → wp p Q O s0.
Proof using PreOrder0.
  revert s0. induction p as [r|A f k IH|c k IH|g k IH|A' g f' k IH]; intros s0 HI HK HQ; simpl.
  - by apply HQ.
  - intros Hp s F Hs HO. destruct (Hp s F Hs) as (O1 & ? & ? & Hst & ?); [eauto|]. exists O1. split_and!; [done|done| |done].
    intros t Ht Hk. destruct (Hst t Ht Hk) as (t' & Ht' & E). destruct (HK t' Ht') as (t'' & ? & E'); [by rewrite E|].
    exists t''. split; [done|congruence].
  - intros Hp b. by apply IH.
  - intros Hp s F Hs HO Hg. apply IH; [|done| |by eapply Hp; eauto].
    + intros s1 F1 H1. apply HI. by etrans.
    + intros r s1 H1. apply HQ. by etrans.
  - intros Hp s F Hs HO Hg. destruct (Hp s F Hs) as (O1 & ? & ? & Hst & ?); [eauto|done|]. exists O1. split_and!; [done|done| |done].
    intros t Ht Hk. destruct (Hst t Ht Hk) as (t' & Ht' & E). destruct (HK t' Ht') as (t'' & ? & E'); [by rewrite E|].
    exists t''. split; [done|congruence].
Qed.

(** Every thread keeps its part; the tokens of all of them are the invariant's. *)
Definition thread_ok (s : S) (jobKeys : J → list K) (t : J * prog S C unit) (O : list T) : Prop :=
  (∃ s0, le s0 s ∧ wp t.2 fin O s0) ∧ ∀ x, x ∈ O → static (key x) → key x ∈ jobKeys t.1.

Definition config_ok (jobKeys : J → list K) (c : config) : Prop :=
  ∃ Os, Inv (c_st c) (concat Os) ∧ Forall2 (thread_ok (c_st c) jobKeys) (c_pool c) Os.

Lemma thread_ok_later s s' jobKeys t O : le s s' → thread_ok s jobKeys t O → thread_ok s' jobKeys t O.
Proof using PreOrder0. intros Hle [(s0 & H0 & Hw) HK]. split; [exists s0; split; [by etrans|done]|done]. Qed.

Lemma concat_pick {A} (Os : list (list A)) i O :
  Os !! i = Some O → concat Os ≡ₚ O ++ concat (delete i Os).
Proof.
  revert i. induction Os as [|X Os IH]; intros [|i]; simpl; [done|done|intros [= ->]; done|].
  intros Hi. rewrite (IH i Hi). rewrite !(assoc_L (++)). by rewrite (comm (++) X O).
Qed.

Lemma concat_insert {A} (Os : list (list A)) i O O' :
  Os !! i = Some O → concat (<[i := O']> Os) ≡ₚ O' ++ concat (delete i Os).
Proof.
  revert i. induction Os as [|X Os IH]; intros [|i]; simpl; [done|done|done|].
  intros Hi. rewrite (IH i Hi). rewrite !(assoc_L (++)). by rewrite (comm (++) X O').
Qed.

Context (jobKeys : J → list K) (jobTok : J → list T).
Context (spawn_ok : ∀ s jobs U j,
  may s jobs j = true → Inv s U →
  (∀ x, x ∈ U → static (key x) → ∃ j', j' ∈ jobs ∧ key x ∈ jobKeys j') →
  Inv s (jobTok j ++ U) ∧ (∀ x, x ∈ jobTok j → static (key x) → key x ∈ jobKeys j) ∧ wp (body j) fin (jobTok j) s).

Lemma step_ok a c c' : config_ok jobKeys c → step a c = Some c' → config_ok jobKeys c'.
Proof using Type*.
  intros (Os & HI & Hts). destruct c as [s ts]; simpl in *. destruct a as [j|i b|i]; simpl.
  - destruct (may s ts.*1 j) eqn:Em; [|done]. intros [= <-].
    assert (∀ x, x ∈ concat Os → static (key x) → ∃ j', j' ∈ ts.*1 ∧ key x ∈ jobKeys j') as Hk.
    { intros x (O & Hx & HO)%list_elem_of_In%in_concat Hst. apply list_elem_of_In in Hx, HO.
      apply list_elem_of_lookup_1 in Hx as [i Hi].
      destruct (Forall2_lookup_r _ _ _ _ _ Hts Hi) as (t & Ht & [_ HK]).
      exists t.1. split; [apply list_elem_of_fmap; eauto using list_elem_of_lookup_2|eauto]. }
    destruct (spawn_ok s ts.*1 (concat Os) j Em HI Hk) as (HI' & HK & Hw).
    exists (jobTok j :: Os). split; [done|]. constructor; [|done]. split; [exists s; done|done].
  - destruct (ts !! i) as [[j p]|] eqn:Ei; [|done].
    destruct (advance b s p) as [[s' p']|] eqn:Ea; [|done]. intros [= <-].
    destruct (Forall2_lookup_l _ _ _ _ _ Hts Ei) as (O & HO & [(s0 & H0 & Hw) HK]).
    assert (HI2 := HI). rewrite (concat_pick Os i O HO) in HI2.
    assert (∀ s' p', (∃ O', Inv s' (O' ++ concat (delete i Os)) ∧ le s s' ∧
        (∀ t, t ∈ O' → static (key t) → ∃ t', t' ∈ O ∧ key t' = key t) ∧ wp p' fin O' s') →
        config_ok jobKeys (mkConfig s' (<[i := (j, p')]> ts))) as Hmove.
    { intros s1 p1 (O' & HI' & Hle & Hst & Hw').
      exists (<[i := O']> Os). split; [simpl; by rewrite (concat_insert Os i O O' HO)|]. simpl.
      apply Forall2_insert.
      - eapply Forall2_impl; [exact Hts|]. intros. by eapply thread_ok_later.
      - split; [exists s1; done|]. intros x Hx Hsx. destruct (Hst x Hx Hsx) as (t' & Ht' & Hkey).
        rewrite <- Hkey. apply HK; [done|by rewrite Hkey]. }
    destruct p as [r|A f k|c k|g k|A g f k]; simpl in *; [done| | | |].
    + injection Ea as <- <-. apply Hmove. by apply Hw.
    + injection Ea as <- <-. exists Os. split; [done|]. simpl. rewrite <- (list_insert_id Os i O HO).
      apply Forall2_insert; [done|]. split; [exists s0; eauto|done].
    + destruct (g s) eqn:Eg; [|done]. injection Ea as <- <-. exists Os. split; [done|]. simpl.
      rewrite <- (list_insert_id Os i O HO). apply Forall2_insert; [done|].
      split; [exists s; split; [done|by eapply Hw]|done].
    + destruct (g s) eqn:Eg; [|done]. injection Ea as <- <-. apply Hmove. by apply Hw.
  - destruct (ts !! i) as [[j [r| | | |]]|] eqn:Ei; [|done..]. intros [= <-].
    destruct (Forall2_lookup_l _ _ _ _ _ Hts Ei) as (O & HO & [(s0 & H0 & Hw) HK]).
    exists (delete i Os). simpl. split.
    + rewrite (concat_pick Os i O HO) in HI. by eapply Hw.
    + by apply Forall2_delete.
Qed.

Theorem pool_invariant s c : Inv s [] → reachable s c → ∃ U, Inv (c_st c) U ∧ (quiet c → U = []).
Proof using Type*.
  intros H0 [l Hl].
  assert (config_ok jobKeys c) as (Os & HI & Hts).
  { assert (config_ok jobKeys (mkConfig s [])) as Hok by (exists []; done).
    revert Hok Hl. generalize (mkConfig s []). induction l as [|a l IH]; intros c0 Hok; simpl; [by intros [= <-]|].
    destruct (step a c0) as [c1|] eqn:Es; [|done]. eauto using step_ok. }
  exists (concat Os). split; [done|]. intros Hq. unfold quiet in Hq. rewrite Hq in Hts.
  by apply Forall2_nil_inv_l in Hts as ->.
Qed.
End pool.

Arguments mkConfig {_ _ _} _ _.
Arguments Spawn {_} _.
Arguments Run {_} _ _.
Arguments Reap {_} _.
