(* ===== verification/Host.v ===== *)
(** * The host runtime's tables (pkg/runtime/host: host_linux.go, pool_linux.go)

    The Runtime's maps under r.mu: the fibers by id, the endpoint ports and the
    unix sockets with their holders, the warm instances with their pools; and
    every operation on them, each written as the goroutine runs it: one [hold]
    per hold of r.mu, one [ask] per call whose failure the code handles (the
    backend, a cgroup, a file, the device engine), an [await] where it waits
    for a fiber's done channel.  Fibers and warm instances are objects at
    addresses, as the code compares pointers.

    A fiber's endpoint is kept parsed ([Endpoint]); the code keeps the URL and
    parses it where it needs the path or the port. *)

From Stdlib Require Import Ascii.
From S2P Require Import Prelude GoLib Fence Errors Grant Ledger Runtime Threads.
From stdpp Require Import options.

Local Open Scope string_scope.

(** ** Endpoints *)

(** [type Endpoint struct] of pkg/endpoint, and a handoff fiber's, which has none. *)
Inductive Endpoint := NoEndpoint | UnixEndpoint (path : string) | TCPEndpoint (port : Z) | RouterEndpoint.

(** [func UnixPath(s string) string] *)
Definition UnixPath (e : Endpoint) : string := match e with UnixEndpoint p => p | _ => "" end.

(** What the runtime was opened with. *)
Record HostConfig := mkHostConfig {
  hc_unix : bool;         (** Endpoints.Family.Scheme() is unix *)
  hc_relay : bool;        (** [r.relay] *)
  hc_lo : Z; hc_hi : Z;   (** [Endpoints.Ports()] *)
  hc_host : string; hc_advertise : string;  (** Endpoints.Host, Handoff.Advertise *)
  hc_runDir : string; hc_deltaDir : string;
  hc_tier : Tier;
  hc_backend : string;
  hc_canHandoff : bool; hc_router : bool;
  hc_quota : Grant → N;   (** [deltaQuota] *)
  hc_wantsEngine : Grant → bool;
}.

(** [net.JoinHostPort] *)
Definition JoinHostPort (host : string) (port : Z) : string :=
  (if contains_char ":"%char host then "[" +:+ host +:+ "]" else host) +:+ ":" +:+ Itoa port.

(** [func (e Endpoint) String() string]; a handle names the router for a handoff fiber. *)
Definition Endpoint_String (c : HostConfig) (e : Endpoint) : string :=
  match e with
  | NoEndpoint => ""
  | UnixEndpoint p => "unix://" +:+ p
  | TCPEndpoint port => "tcp://" +:+ JoinHostPort (hc_host c) port
  | RouterEndpoint => hc_advertise c
  end.

(** ** The objects *)

(** [type fiber struct], what the operations here read and write. *)
Record fiber := mkFiber {
  f_id : string; f_grantUID : string; f_endpoint : Endpoint; f_port : Z; f_sock : string;
  f_birth : string; f_generation : Z; f_devMax : N; f_quota : N; f_overWhy : string;
  f_released : bool; f_parked : bool; f_overW : bool; f_ready : bool; f_pooled : bool;
  f_channel : bool; f_handoff : bool; f_relay : option string; f_ws : bool;
  f_exit : option FiberExit;
}.

(** [type pooled struct], by its backend handle. *)
Notation pooled := string (only parsing).

(** [type warm struct] *)
Record warm := mkWarm { w_grantUID : string; w_instance : N; w_pool : list pooled; w_noPool : bool }.

(** [type manifest struct], what a resume reads of it. *)
Record manifest := mkManifest {
  m_Fence : string; m_Birth : string; m_Endpoint : option Endpoint; m_Handoff : bool; m_Relay : string;
  m_Backend : string; m_Delta : bool; m_Generation : Z;
}.

(** What the operations do besides their tables; the last three are the calls
    that take up the end of the fiber at an address: a Release that found it, a
    park that claimed it, a park that gave it back. *)
Inductive effect :=
| EvRelayClosed (id : string) | EvSocketRemoved (path : string) | EvUnrouted (id : string)
| EvChannelClosed (id : string) | EvDeviceEnded (id : string) | EvReleafed (id : string)
| EvWorkspaceGone (id : string) | EvLeafGone (id : string) | EvKilled (id : string)
| EvDiscarded (p : pooled) | EvUnwarmed (uid : string) | EvPoolExit (uid : string)
| EvAsked (a : nat) | EvClaimed (a : nat) | EvUnclaimed (a : nat).

(** [type Runtime struct], what r.mu guards, with the exits sent (each tagged
    with the object it is of), the closed done channels, and whether one was
    closed twice, which panics. *)
Record Host := mkHost {
  hs_heap : gmap nat fiber; hs_next : nat;
  hs_fibers : gmap string nat;
  hs_ports : gmap Z string;
  hs_socks : gmap string string;
  hs_wheap : gmap nat warm; hs_wnext : nat;
  hs_warms : gmap string nat;
  hs_exits : list (nat * FiberExit);
  hs_done : gset nat; hs_panic : bool;
  hs_kept : gset string;  (** the ids whose end left their port to a delta *)
  hs_log : list effect;
}.

(** The calls whose answer the code branches on. *)
Inductive call :=
| CFiberLeaf | COpenLeaf | CMkdir | CIdentity | CListenRelay | CWorkspace | CDeviceLeaf
| CBind | CClone | CPidsPressure | CRoute | CPrepare | CTimeLeft | CCanceled | CReturnDelta
| COOMKilled | CEngine | CHoldSlice | CEngineDown | CWsSize | COverQuota | CHasSlice | CSaveSlice
| CBackendPark | CPlaceSlice | CWriteManifest | CSyncDir | CNotWaiting | CExitTimeout
| CReadManifest | CMerge | CGrantCgroup | CEnsureEngine | CPrepareIdentity | CDeltaSlice | COpenSlice | CRestoreSlice | CBackendResume
| CLeafEmpty | CRemoveAll | CPoolRoom | CBackendPool | CBackendNoPool | COverBudget.

(** The errors the operations answer with. *)
Inductive herr :=
| EFailed (c : call) | EPressure | EPortHeld (p : Z) (holder : string) | ENoPort | ESockHeld (path holder : string)
| ENotPrepared | ENoHandoff | EUnknownFiber (id : string) | ETier | EParity | EBadDelta | EDeltaQuota
| EBadFence | ENoPool | ECtx.

Notation P := (prog Host call).

(** One hold of r.mu; one call outside it. *)
Definition locked {A} (f : St Host A) : P A := hold f.
Definition asked (c : call) : P bool := ask c.
Definition awaited (g : Host → bool) : P unit := await g.

(** ** Field updates *)

Definition set_heap (f : gmap nat fiber → gmap nat fiber) (s : Host) : Host :=
  mkHost (f (hs_heap s)) (hs_next s) (hs_fibers s) (hs_ports s) (hs_socks s) (hs_wheap s) (hs_wnext s) (hs_warms s)
    (hs_exits s) (hs_done s) (hs_panic s) (hs_kept s) (hs_log s).
Definition set_fibers (f : gmap string nat → gmap string nat) (s : Host) : Host :=
  mkHost (hs_heap s) (hs_next s) (f (hs_fibers s)) (hs_ports s) (hs_socks s) (hs_wheap s) (hs_wnext s) (hs_warms s)
    (hs_exits s) (hs_done s) (hs_panic s) (hs_kept s) (hs_log s).
Definition set_ports (f : gmap Z string → gmap Z string) (s : Host) : Host :=
  mkHost (hs_heap s) (hs_next s) (hs_fibers s) (f (hs_ports s)) (hs_socks s) (hs_wheap s) (hs_wnext s) (hs_warms s)
    (hs_exits s) (hs_done s) (hs_panic s) (hs_kept s) (hs_log s).
Definition set_socks (f : gmap string string → gmap string string) (s : Host) : Host :=
  mkHost (hs_heap s) (hs_next s) (hs_fibers s) (hs_ports s) (f (hs_socks s)) (hs_wheap s) (hs_wnext s) (hs_warms s)
    (hs_exits s) (hs_done s) (hs_panic s) (hs_kept s) (hs_log s).
Definition set_wheap (f : gmap nat warm → gmap nat warm) (s : Host) : Host :=
  mkHost (hs_heap s) (hs_next s) (hs_fibers s) (hs_ports s) (hs_socks s) (f (hs_wheap s)) (hs_wnext s) (hs_warms s)
    (hs_exits s) (hs_done s) (hs_panic s) (hs_kept s) (hs_log s).
Definition set_warms (f : gmap string nat → gmap string nat) (s : Host) : Host :=
  mkHost (hs_heap s) (hs_next s) (hs_fibers s) (hs_ports s) (hs_socks s) (hs_wheap s) (hs_wnext s) (f (hs_warms s))
    (hs_exits s) (hs_done s) (hs_panic s) (hs_kept s) (hs_log s).
Definition add_log (e : effect) (s : Host) : Host :=
  mkHost (hs_heap s) (hs_next s) (hs_fibers s) (hs_ports s) (hs_socks s) (hs_wheap s) (hs_wnext s) (hs_warms s)
    (hs_exits s) (hs_done s) (hs_panic s) (hs_kept s) (hs_log s ++ [e]).

(** A new object, known under its id. *)
Definition reg (f : fiber) (s : Host) : Host :=
  mkHost (<[hs_next s := f]> (hs_heap s)) (S (hs_next s)) (<[f_id f := hs_next s]> (hs_fibers s)) (hs_ports s) (hs_socks s)
    (hs_wheap s) (hs_wnext s) (hs_warms s) (hs_exits s) (hs_done s) (hs_panic s) (hs_kept s) (hs_log s).

Definition set_flags (released parked : bool) (f : fiber) : fiber :=
  mkFiber (f_id f) (f_grantUID f) (f_endpoint f) (f_port f) (f_sock f) (f_birth f) (f_generation f) (f_devMax f) (f_quota f)
    (f_overWhy f) released parked (f_overW f) (f_ready f) (f_pooled f) (f_channel f) (f_handoff f) (f_relay f) (f_ws f) (f_exit f).
Definition set_exit (e : FiberExit) (f : fiber) : fiber :=
  mkFiber (f_id f) (f_grantUID f) (f_endpoint f) (f_port f) (f_sock f) (f_birth f) (f_generation f) (f_devMax f) (f_quota f)
    (f_overWhy f) (f_released f) (f_parked f) (f_overW f) (f_ready f) (f_pooled f) (f_channel f) (f_handoff f) (f_relay f) (f_ws f) (Some e).
Definition set_overW (why : string) (f : fiber) : fiber :=
  mkFiber (f_id f) (f_grantUID f) (f_endpoint f) (f_port f) (f_sock f) (f_birth f) (f_generation f) (f_devMax f) (f_quota f)
    why (f_released f) (f_parked f) true (f_ready f) (f_pooled f) (f_channel f) (f_handoff f) (f_relay f) (f_ws f) (f_exit f).
Definition set_channel (f : fiber) : fiber :=
  mkFiber (f_id f) (f_grantUID f) (f_endpoint f) (f_port f) (f_sock f) (f_birth f) (f_generation f) (f_devMax f) (f_quota f)
    (f_overWhy f) (f_released f) (f_parked f) (f_overW f) (f_ready f) (f_pooled f) true (f_handoff f) (f_relay f) (f_ws f) (f_exit f).
Definition set_ready (e : Endpoint) (f : fiber) : fiber :=
  mkFiber (f_id f) (f_grantUID f) e (f_port f) (f_sock f) (f_birth f) (f_generation f) (f_devMax f) (f_quota f)
    (f_overWhy f) (f_released f) (f_parked f) (f_overW f) true (f_pooled f) (f_channel f) (f_handoff f) (f_relay f) (f_ws f) (f_exit f).

Definition on_fiber (a : nat) (g : fiber → fiber) : Host → Host := set_heap (alter g a).
Definition set_pool (ps : list pooled) (z : warm) : warm := mkWarm (w_grantUID z) (w_instance z) ps (w_noPool z).

Definition note (e : effect) : P unit := locked (modify (add_log e)).
Definition noteIf (b : bool) (e : effect) : P unit := if b then note e else mret tt.

(** What a pointer to a fiber gives: the object as it is, read under r.mu. *)
Definition deref (a : nat) : P (option fiber) := locked (gets (λ s : Host, hs_heap s !! a)).

(** ** Ports and sockets *)

(** The first of [n] ports from [lo] that no one holds. *)
Fixpoint freeFrom (ports : gmap Z string) (lo : Z) (n : nat) : option Z :=
  match n with
  | O => None
  | S n' => match ports !! lo with None => Some lo | Some _ => freeFrom ports (lo + 1) n' end
  end.

(** [func (r *Runtime) allocPort(fiberID string, want int) (int, error)] *)
Definition allocPort (c : HostConfig) (fiberID : string) (want : Z) : St Host (Z + herr) := λ s,
  if want <>? 0%Z then
    match hs_ports s !! want with
    | Some holder => if holder ==? fiberID then (inl want, set_ports (insert want fiberID) s) else (inr (EPortHeld want holder), s)
    | None => (inl want, set_ports (insert want fiberID) s)
    end
  else
    match freeFrom (hs_ports s) (hc_lo c) (Z.to_nat (hc_hi c - hc_lo c + 1)) with
    | Some p => (inl p, set_ports (insert p fiberID) s)
    | None => (inr ENoPort, s)
    end.

(** [func (r *Runtime) freePorts(fiberID string)] *)
Definition freePorts (fiberID : string) : St Host unit := modify (set_ports (filter (λ kv, kv.2 ≠ fiberID))).

(** [func (r *Runtime) freePort(port int, fiberID string)] *)
Definition freePort (port : Z) (fiberID : string) : P unit :=
  if port ==? 0%Z then mret tt
  else locked (modify (λ s, if hs_ports s !! port ==? Some fiberID then set_ports (delete port) s else s)).

(** [func (r *Runtime) claimSocket(path, fiberID string) error] *)
Definition claimSocket (path fiberID : string) : St Host (option herr) := λ s,
  match hs_socks s !! path with
  | Some holder => if holder ==? fiberID then (None, set_socks (insert path fiberID) s) else (Some (ESockHeld path holder), s)
  | None => (None, set_socks (insert path fiberID) s)
  end.

(** [func (r *Runtime) freeSocket(path, fiberID string)] *)
Definition freeSocket (path fiberID : string) : P unit :=
  if path ==? "" then mret tt
  else locked (modify (λ s, if hs_socks s !! path ==? Some fiberID then set_socks (delete path) s else s)).

(** [func (r *Runtime) unixPath(fence core.Fence) string] *)
Definition unixPath (c : HostConfig) (f : Fence) : string :=
  hc_runDir c +:+ "/" +:+ GrantUID f +:+ "/" +:+ FormatUint (Epoch f) +:+ "-" +:+ FormatUint (Seq f) +:+ ".sock".

(** [func (r *Runtime) deltaDir(f core.Fence) string] *)
Definition deltaDir (c : HostConfig) (f : Fence) : string :=
  hc_deltaDir c +:+ "/" +:+ GrantUID f +:+ "/" +:+ FormatUint (Epoch f) +:+ "-" +:+ FormatUint (Seq f).

(** [func (r *Runtime) mintEndpoint(fence)]: the url, the unix path the backend
    is told to serve ("" for the tcp address itself), the port. *)
Definition mintEndpoint (c : HostConfig) (f : Fence) : P ((Endpoint * string * Z) + herr) :=
  if hc_unix c then mret (inl (UnixEndpoint (unixPath c f), unixPath c f, 0%Z)) else
  r ← locked (allocPort c (Fence_String f) 0);
  match r with
  | inr e => mret (inr e)
  | inl port => mret (inl (TCPEndpoint port, if hc_relay c then unixPath c f else "", port))
  end.

(** ** The pools (pool_linux.go) *)

(** [func (r *Runtime) takePooled(z *warm) *pooled] *)
Definition takePooled (z : nat) : St Host (option pooled) := λ s,
  match hs_wheap s !! z with
  | Some w => match w_pool w with
              | [] => (None, s)
              | p :: ps => (Some p, set_wheap (insert z (set_pool ps w)) s)
              end
  | None => (None, s)
  end.

(** [func (r *Runtime) discard(ps []*pooled)] *)
Definition discard (ps : list pooled) : P unit := eachP (λ p, note (EvDiscarded p)) ps.

(** [func (r *Runtime) returnPooled(z *warm, p *pooled)] *)
Definition returnPooled (z : nat) (p : pooled) : P unit :=
  kept ← locked (λ s : Host,
    match hs_wheap s !! z with
    | Some w => if hs_warms s !! w_grantUID w ==? Some z then (true, set_wheap (insert z (set_pool (p :: w_pool w) w)) s) else (false, s)
    | None => (false, s)
    end);
  if kept : bool then mret tt else discard [p].

(** [func (z *warm) drainAll() []*pooled] *)
Definition drainAll (z : nat) (s : Host) : list pooled * Host :=
  match hs_wheap s !! z with
  | Some w => (w_pool w, set_wheap (insert z (set_pool [] w)) s)
  | None => ([], s)
  end.

(** The grant's warm instance, and whether the backend said it cannot pool. *)
Definition poolState (uid : string) (s : Host) : option (nat * bool) :=
  match hs_warms s !! uid with
  | Some z => match hs_wheap s !! z with Some w => Some (z, w_noPool w) | None => None end
  | None => None
  end.

(** [func (r *Runtime) Fill(ctx, g, deadline) error] of a backend that pools;
    [p] is the handle its Pool answers with. *)
Definition Fill (uid : string) (p : pooled) : P (option herr) :=
  st ← locked (gets (poolState uid));
  match st with
  | None => mret (Some ENotPrepared)
  | Some (_, true) => mret (Some ENoPool)
  | Some (z, false) =>
      room ← asked CPoolRoom;
      if negb room then mret (Some EPressure) else
      leaf ← asked CFiberLeaf;
      if negb leaf then mret (Some (EFailed CFiberLeaf)) else
      opened ← asked COpenLeaf;
      if negb opened then _ ← note (EvLeafGone p); mret (Some (EFailed COpenLeaf)) else
      ok ← asked CBackendPool;
      if negb ok then
        noPool ← asked CBackendNoPool;
        _ ← (if noPool : bool then locked (modify (set_wheap (alter (λ w, mkWarm (w_grantUID w) (w_instance w) (w_pool w) true) z))) else mret tt);
        _ ← note (EvLeafGone p);
        mret (Some (if noPool : bool then ENoPool else EFailed CBackendPool))
      else
        kept ← locked (λ s : Host,
          if hs_warms s !! uid ==? Some z then (true, set_wheap (alter (λ w, set_pool (w_pool w ++ [p]) w) z) s) else (false, s));
        if kept : bool then mret None else _ ← discard [p]; mret (Some ENotPrepared)
  end.

(** [func (r *Runtime) Drain(grantUID string, n int) int] *)
Definition Drain (uid : string) (n : Z) : P Z :=
  ps ← locked (λ s : Host,
    match hs_warms s !! uid with
    | Some z => match hs_wheap s !! z with
                | Some w =>
                    let k := if (n <? 0)%Z || (Z.of_nat (length (w_pool w)) <? n)%Z then length (w_pool w) else Z.to_nat n in
                    (take k (w_pool w), set_wheap (insert z (set_pool (drop k (w_pool w)) w)) s)
                | None => ([], s)
                end
    | None => ([], s)
    end);
  _ ← discard ps;
  mret (Z.of_nat (length ps)).

(** The pool of [z] without its first sandbox [id], if it has one. *)
Fixpoint removeFirst (id : pooled) (ps : list pooled) : list pooled :=
  match ps with
  | [] => []
  | p :: ps' => if p ==? id then ps' else p :: removeFirst id ps'
  end.

(** [func (r *Runtime) pooledGone(id, status string)] *)
Definition pooledGone (id : pooled) : P unit :=
  found ← locked (λ s : Host,
    let holders := filter (λ kv, id ∈ default [] (w_pool <$> hs_wheap s !! kv.2)) (hs_warms s) in
    (map_to_list holders,
     set_wheap (λ h, map_fold (λ _ z h, alter (λ w, set_pool (removeFirst id (w_pool w)) w) z h) h holders) s));
  match found with
  | [] => mret tt
  | (uid, _) :: _ => _ ← note (EvLeafGone id); note (EvPoolExit uid)
  end.

(** ** The end of a fiber *)

(** [close(f.done)] *)
Definition closeDone (a : nat) (s : Host) : Host :=
  mkHost (hs_heap s) (hs_next s) (hs_fibers s) (hs_ports s) (hs_socks s) (hs_wheap s) (hs_wnext s) (hs_warms s)
    (hs_exits s) ({[a]} ∪ hs_done s) (hs_panic s || bool_decide (a ∈ hs_done s)) (hs_kept s) (hs_log s).

(** [r.exits <- e] *)
Definition sendExit (a : nat) (e : FiberExit) (s : Host) : Host :=
  mkHost (hs_heap s) (hs_next s) (hs_fibers s) (hs_ports s) (hs_socks s) (hs_wheap s) (hs_wnext s) (hs_warms s)
    (hs_exits s ++ [(a, e)]) (hs_done s) (hs_panic s) (hs_kept s) (hs_log s).

Definition keepPort (id : string) (s : Host) : Host :=
  mkHost (hs_heap s) (hs_next s) (hs_fibers s) (hs_ports s) (hs_socks s) (hs_wheap s) (hs_wnext s) (hs_warms s)
    (hs_exits s) (hs_done s) (hs_panic s) ({[id]} ∪ hs_kept s) (hs_log s).

(** The first hold of finish: who takes the fiber out of the table ends it. *)
Definition takeOut (a : nat) (reason detail : string) : St Host (option fiber) := λ s,
  match hs_heap s !! a with
  | Some f =>
      if hs_fibers s !! f_id f ==? Some a then
        (Some f,
         (if f_parked f then keepPort (f_id f) else id)
           (on_fiber a (set_exit (mkFiberExit (f_id f) reason detail)) (set_fibers (delete (f_id f)) s)))
      else (None, s)
  | None => (None, s)
  end.

(** [func (r *Runtime) finish(f *fiber, reason, detail string)] *)
Definition finish (c : HostConfig) (a : nat) (reason detail : string) : P unit :=
  taken ← locked (takeOut a reason detail);
  match taken with
  | None => mret tt
  | Some f =>
      let id := f_id f in
      _ ← match f_relay f with Some sock => _ ← note (EvRelayClosed id); note (EvSocketRemoved sock) | None => mret tt end;
      _ ← noteIf (UnixPath (f_endpoint f) <>? "") (EvSocketRemoved (UnixPath (f_endpoint f)));
      _ ← freeSocket (f_sock f) id;
      _ ← noteIf (f_handoff f && hc_router c) (EvUnrouted id);
      _ ← noteIf (f_channel f) (EvChannelClosed id);
      _ ← noteIf ((0 <? f_devMax f)%N && negb (f_parked f)) (EvDeviceEnded id);
      _ ← noteIf (f_ws f) (EvWorkspaceGone id);
      _ ← note (EvLeafGone id);
      _ ← (if f_parked f then mret tt else freePort (f_port f) id);
      _ ← locked (modify (closeDone a));
      if f_released f then mret tt else locked (modify (sendExit a (mkFiberExit id reason detail)))
  end.

(** One fiber exit in [func (r *Runtime) pump()]. *)
Definition pumpExit (c : HostConfig) (id status : string) : P unit :=
  found ← locked (gets (λ s : Host, hs_fibers s !! id));
  match found with
  | None => mret tt
  | Some a =>
      let reason := if HasPrefix status "signal:" then "signal" else "exit" in
      oom ← asked COOMKilled;
      f ← deref a;
      let overW := default false (f_overW <$> f) in
      let why := default "" (f_overWhy <$> f) in
      if overW then finish c a "oom" (status +:+ " " +:+ why)
      else if oom : bool then finish c a "oom" (status +:+ " oom_kill")
      else finish c a reason status
  end.

(** The addresses of a grant's fibers. *)
Definition fibersOf (uid : string) (s : Host) : list nat :=
  filter (λ a, f_grantUID <$> hs_heap s !! a = Some uid) (map_to_list (hs_fibers s)).*2.

(** [func (r *Runtime) warmGone(grantUID string, instance uint64)] *)
Definition warmGone (c : HostConfig) (uid : string) (instance : N) : P unit :=
  r ← locked (λ s : Host,
    let z := hs_warms s !! uid in
    let w := z ≫= (λ z, hs_wheap s !! z) in
    if default false ((λ w, negb (w_instance w ==? instance)) <$> w) then (None, s) else
    let '(ps, s1) := match z with Some z => drainAll z s | None => ([], s) end in
    (Some (ps, fibersOf uid s), set_warms (delete uid) s1));
  match r with
  | None => mret tt
  | Some (ps, orphans) =>
      _ ← discard ps;
      eachP (λ a, f ← deref a; _ ← note (EvKilled (default "" (f_id <$> f))); finish c a "signal" "template instance exited") orphans
  end.

(** [func (r *Runtime) DropTemplate(grantUID string)] *)
Definition DropTemplate (uid : string) : P unit :=
  r ← locked (λ s : Host,
    match hs_warms s !! uid with
    | Some z => let '(ps, s1) := drainAll z s in (Some ps, set_warms (delete uid) s1)
    | None => (None, s)
    end);
  match r with
  | None => mret tt
  | Some ps => _ ← discard ps; note (EvUnwarmed uid)
  end.

(** PrepareTemplate's last step, which publishes the warm instance. *)
Definition publish (uid : string) (instance : N) : St Host unit :=
  modify (λ s,
    mkHost (hs_heap s) (hs_next s) (hs_fibers s) (hs_ports s) (hs_socks s)
      (<[hs_wnext s := mkWarm uid instance [] false]> (hs_wheap s)) (S (hs_wnext s)) (<[uid := hs_wnext s]> (hs_warms s))
      (hs_exits s) (hs_done s) (hs_panic s) (hs_kept s) (hs_log s)).

(** A fiber the executioner samples. *)
Definition enforced (id : string) (s : Host) : option nat :=
  match hs_fibers s !! id with
  | Some a => match hs_heap s !! a with
              | Some f => if negb (f_released f) && f_ready f then Some a else None
              | None => None
              end
  | None => None
  end.

(** One fiber's turn in [func (r *Runtime) enforceW()]. *)
Definition enforceFiber (id why : string) : P unit :=
  found ← locked (gets (enforced id));
  match found with
  | None => mret tt
  | Some a =>
      over ← asked COverBudget;
      if negb over then mret tt else
      _ ← locked (modify (on_fiber a (set_overW why)));
      note (EvKilled id)
  end.

(** [func (r *Runtime) killOrphan(ctx, fence) error] *)
Definition killOrphan (c : HostConfig) (f : Fence) : P (option herr) :=
  leaf ← asked CFiberLeaf;
  if negb leaf then mret None else
  _ ← note (EvKilled (Fence_String f));
  empty ← asked CLeafEmpty;
  if negb empty then mret (Some ECtx) else
  _ ← note (EvSocketRemoved (unixPath c f));
  _ ← note (EvLeafGone (Fence_String f));
  mret None.

(** [func (r *Runtime) Release(ctx, fiberID string, discard bool) error] *)
Definition Release (c : HostConfig) (fiberID : string) (discardDelta : bool) : P (option herr) :=
  found ← locked (λ s : Host,
    match hs_fibers s !! fiberID with
    | Some a => (Some a, add_log (EvAsked a) (on_fiber a (λ f, set_flags true (if discardDelta then false else f_parked f) f) s))
    | None => (None, s)
    end);
  let fence := ParseFence fiberID in
  _ ← (match discardDelta, found, fence with
       | true, None, inl _ => locked (freePorts fiberID)
       | _, _, _ => mret tt
       end);
  match found with
  | None => match fence with inr _ => mret None | inl f => killOrphan c f end
  | Some a =>
      _ ← note (EvKilled fiberID);
      early ← asked CNotWaiting;
      if early : bool then mret (Some ECtx) else
      _ ← awaited (λ s, bool_decide (a ∈ hs_done s));
      mret None
  end.

(** [func (r *Runtime) removeDelta(ref string) error]; [m] is the manifest at
    [ref], if one could be read. *)
Definition removeDelta (m : option manifest) : P (option herr) :=
  _ ← (match m with
       | Some m => if m_Fence m <>? "" then locked (freePorts (m_Fence m)) else mret tt
       | None => mret tt
       end);
  ok ← asked CRemoveAll;
  mret (if ok : bool then None else Some (EFailed CRemoveAll)).

(** ** The birth of a fiber *)

Definition register (f : fiber) : St Host nat := λ s, (hs_next s, reg f s).

(** [if r.fibers[f.id] == f { delete(r.fibers, f.id) }] *)
Definition unregister (a : nat) (id : string) (s : Host) : Host :=
  if hs_fibers s !! id ==? Some a then set_fibers (delete id) s else s.

(** [func (r *Runtime) route(f *fiber) (string, error)] *)
Definition route (c : HostConfig) (f : fiber) : P (option Endpoint) :=
  if negb (f_handoff f && hc_router c) then mret (Some (f_endpoint f)) else
  ok ← asked CRoute;
  mret (if ok : bool then Some RouterEndpoint else None).

(** What start and resume do once the backend has answered with a fiber. *)
Definition hatch (c : HostConfig) (a : nat) (f : fiber) : P (FiberHandle + herr) :=
  _ ← locked (modify (on_fiber a set_channel));
  ep ← route c f;
  match ep with
  | None => _ ← Release c (f_id f) false; mret (inr (EFailed CRoute))
  | Some ep =>
      _ ← locked (modify (on_fiber a (set_ready ep)));
      mret (inl (mkHandle (f_id f) (Endpoint_String c ep) (f_pooled f)))
  end.

(** What they give back when the birth failed before the fiber was known. *)
Definition giveBackNames (rl : option string) (ws : bool) (sock : string) (port : Z) (id : string) : P unit :=
  _ ← noteIf ws (EvWorkspaceGone id);
  _ ← noteIf (bool_decide (is_Some rl)) (EvRelayClosed id);
  _ ← freeSocket sock id;
  freePort port id.

(** What they do when the backend failed to start a registered fiber. *)
Definition unborn (a : nat) (f : fiber) : P unit :=
  _ ← locked (modify (unregister a (f_id f)));
  _ ← noteIf (bool_decide (is_Some (f_relay f))) (EvRelayClosed (f_id f));
  _ ← noteIf (f_ws f) (EvWorkspaceGone (f_id f));
  _ ← freeSocket (f_sock f) (f_id f);
  _ ← freePort (f_port f) (f_id f);
  _ ← note (EvLeafGone (f_id f));
  noteIf (0 <? f_devMax f)%N (EvDeviceEnded (f_id f)).

Section start.
Context (c : HostConfig).

Definition giveUp (z : nat) (p : option pooled) (id : string) : P unit :=
  match p with Some p => returnPooled z p | None => note (EvLeafGone id) end.

(** The endpoint of a birth: none for a handoff fiber, whose record carries
    the grant's identity. *)
Definition birthEndpoint (spec : CloneSpec) : P ((Endpoint * string * Z) + herr) :=
  if PEndpointMode (GPolicy (cs_Grant spec)) ==? EndpointHandoff then
    if negb (hc_canHandoff c) then mret (inr ENoHandoff) else
    ok ← asked CIdentity;
    mret (if ok : bool then inl (NoEndpoint, "", 0%Z) else inr (EFailed CIdentity))
  else mintEndpoint c (cs_Fence spec).

(** The sock of a birth: a unix socket, served directly or behind the relay. *)
Definition birthSock (url : Endpoint) (bind : string) (port : Z) : string :=
  if (port ==? 0%Z) && (match url with NoEndpoint => false | _ => true end) || hc_relay c && (port <>? 0%Z) then bind else "".

Definition claimIf (sock id : string) : P (option herr) :=
  if sock ==? "" then mret None else locked (claimSocket sock id).

Definition askIf (b : bool) (q : call) : P bool := if b then asked q else mret true.

(** [func (r *Runtime) start(ctx, z, spec, p)]; the bool is [p.spent]. *)
Definition start (z : nat) (spec : CloneSpec) (p : option pooled) : P ((FiberHandle + herr) * bool) :=
  let id := Fence_String (cs_Fence spec) in
  let g := cs_Grant spec in
  let pooledB := bool_decide (is_Some p) in
  leaf ← askIf (negb pooledB) CFiberLeaf;
  if negb leaf then mret (inr (EFailed CFiberLeaf), false) else
  opened ← asked COpenLeaf;
  if negb opened then _ ← giveUp z p id; mret (inr (EFailed COpenLeaf), false) else
  made ← asked CMkdir;
  if negb made then _ ← giveUp z p id; mret (inr (EFailed CMkdir), false) else
  r ← birthEndpoint spec;
  match r with
  | inr e => _ ← giveUp z p id; mret (inr e, false)
  | inl (url, bind, port) =>
      let sock := birthSock url bind port in
      taken ← claimIf sock id;
      match taken with
      | Some e => _ ← freePort port id; _ ← giveUp z p id; mret (inr e, false)
      | None =>
          let relayed := hc_relay c && (port <>? 0%Z) in
          listens ← askIf relayed CListenRelay;
          if negb listens then _ ← freeSocket sock id; _ ← freePort port id; _ ← giveUp z p id; mret (inr (EFailed CListenRelay), false) else
          let rl := if relayed then Some bind else None in
          let ws := (0 <? DiskBudgetBytes g)%N in
          made ← askIf ws CWorkspace;
          if negb made then _ ← giveBackNames rl false sock port id; _ ← giveUp z p id; mret (inr (EFailed CWorkspace), false) else
          leafed ← asked CDeviceLeaf;
          if negb leafed then _ ← giveBackNames rl ws sock port id; _ ← giveUp z p id; mret (inr (EFailed CDeviceLeaf), false) else
          let f := mkFiber id (UID g) url port sock id 1 (DBytes (GDeviceBudget g)) (hc_quota c g) "" false false false false pooledB
                     false (PEndpointMode (GPolicy g) ==? EndpointHandoff) rl ws None in
          a ← locked (register f);
          born ← asked (if pooledB then CBind else CClone);
          if negb born then
            pressure ← askIf (negb pooledB) CPidsPressure;
            _ ← unborn a f;
            mret (inr (if negb pooledB && pressure then EPressure else EFailed (if pooledB then CBind else CClone)), pooledB)
          else
            h ← hatch c a f;
            mret (h, pooledB)
      end
  end.

(** The tail of [func (r *Runtime) Clone(ctx, spec)]: hand out of the pool, or
    restore on demand. *)
Definition cloneWarm (z : nat) (spec : CloneSpec) : P (FiberHandle + herr) :=
  p ← locked (takePooled z);
  match p with
  | None => r ← start z spec None; mret r.1
  | Some p =>
      r ← start z spec (Some p);
      match r with
      | (inl h, _) => mret (inl h)
      | (inr e, false) => mret (inr e)
      | (inr e, true) =>
          left ← askIf (0 <? cs_Deadline spec)%Z CTimeLeft;
          if negb left then mret (inr e) else
          canceled ← asked CCanceled;
          if canceled : bool then mret (inr e) else
          r ← start z spec None; mret r.1
      end
  end.
End start.

(** ** Park *)

Section park.
Context (c : HostConfig).

(** [func (r *Runtime) unpark(f *fiber)] *)
Definition unpark (a : nat) : P unit :=
  r ← locked (λ s : Host, (hs_heap s !! a, add_log (EvUnclaimed a) (on_fiber a (set_flags false false) s)));
  match r with
  | None => mret tt
  | Some f =>
      match f_exit f with
      | None => note (EvReleafed (f_id f))
      | Some e => _ ← noteIf (0 <? f_devMax f)%N (EvDeviceEnded (f_id f)); locked (modify (sendExit a e))
      end
  end.

(** The first hold of Park: the coming exit is the park's. *)
Definition markPark (fiberID : string) : St Host (option (nat * fiber)) := λ s,
  match hs_fibers s !! fiberID with
  | Some a => match hs_heap s !! a with
              | Some f => (Some (a, f), add_log (EvClaimed a) (on_fiber a (set_flags true true) s))
              | None => (None, s)
              end
  | None => (None, s)
  end.

(** A park that failed while its fiber may still run. *)
Definition unparked (a : nat) (e : herr) : P (string * option herr) := _ ← unpark a; mret ("", Some e).

(** The wait for the fiber's exit, which ends early without failing the park. *)
Definition awaitExit (a : nat) (dir : string) : P (string * option herr) :=
  early ← asked CNotWaiting;
  if early : bool then mret (dir, None) else
  _ ← awaited (λ s, bool_decide (a ∈ hs_done s));
  mret (dir, None).

(** From the dump to the fiber's end. *)
Definition parkDump (a : nat) (f : fiber) (dir : string) (savedSlice sync : bool) : P (string * option herr) :=
  let dropDevice := noteIf (0 <? f_devMax f)%N (EvDeviceEnded (f_id f)) in
  opened ← askIf (f_ws f) COpenLeaf;
  if negb opened then unparked a (EFailed COpenLeaf) else
  dumped ← asked CBackendPark;
  if negb dumped then unparked a (EFailed CBackendPark) else
  placed ← askIf savedSlice CPlaceSlice;
  if negb placed then unparked a (EFailed CPlaceSlice) else
  _ ← (if sync then mret tt else dropDevice);
  written ← asked CWriteManifest;
  if negb written then (if sync then unparked a (EFailed CWriteManifest) else mret (dir, Some (EFailed CWriteManifest))) else
  if sync then
    durable ← asked CSyncDir;
    if negb durable then unparked a (EFailed CSyncDir) else
    _ ← dropDevice;
    _ ← note (EvKilled (f_id f));
    awaitExit a dir
  else awaitExit a dir.

(** The device slice's hold: whether the engine holds it, or why not. *)
Definition holdSlice (f : fiber) : P (option bool) :=
  engine ← askIf (0 <? f_devMax f)%N CEngine;
  if negb ((0 <? f_devMax f)%N && engine) then mret (Some false) else
  held ← asked CHoldSlice;
  if held : bool then mret (Some true) else
  down ← asked CEngineDown;
  mret (if down : bool then Some false else None).

(** [func (r *Runtime) Park(ctx, fiberID string, sync bool) (string, error)] *)
Definition Park (fiberID : string) (sync : bool) : P (string * option herr) :=
  if (hc_tier c <? TierCheckpoint)%Z then mret ("", Some ETier) else
  marked ← locked (markPark fiberID);
  match marked with
  | None => mret ("", Some (EUnknownFiber fiberID))
  | Some (a, f) =>
      match ParseFence (f_id f) with
      | inr _ => mret ("", Some EBadFence)
      | inl fence =>
          held ← holdSlice f;
          match held with
          | None => unparked a (EFailed CHoldSlice)
          | Some held =>
              sized ← askIf ((0 <? f_quota f)%N && f_ws f) CWsSize;
              if negb sized then unparked a (EFailed CWsSize) else
              over ← (if (0 <? f_quota f)%N then asked COverQuota else mret false);
              if over : bool then unparked a EDeltaQuota else
              slice ← (if held : bool then asked CHasSlice else mret false);
              saved ← askIf slice CSaveSlice;
              if negb saved then unparked a (EFailed CSaveSlice) else
              parkDump a f (deltaDir c fence) slice sync
          end
      end
  end.
End park.

(** ** Resume *)

Section resume.
Context (c : HostConfig).

(** filepath.Base *)
Definition Base (p : string) : string :=
  match LastIndexByte p "/"%char with Some i => str_drop (S i) p | None => p end.

Definition bindDir (spec : CloneSpec) (p : string) : string :=
  hc_runDir c +:+ "/" +:+ UID (cs_Grant spec) +:+ "/" +:+ Base p.

(** The port of a parked tcp listener: the manifest's fence held it while
    parked; a relayed one takes any. *)
Definition resumePort (id : string) (m : manifest) (want : Z) : P (Z + herr) :=
  r ← locked (allocPort c id want);
  r ← (match r with
       | inl p => mret (inl p)
       | inr e =>
           live ← locked (gets (λ s : Host, bool_decide (is_Some (hs_fibers s !! m_Fence m))));
           if live : bool then mret (inr e) else
           _ ← freePort want (m_Fence m);
           locked (allocPort c id want)
       end);
  match r with
  | inl p => mret (inl p)
  | inr e => if m_Relay m <>? "" then locked (allocPort c id 0) else mret (inr e)
  end.

(** The endpoint a restored listener serves, what the backend binds ("" for the
    tcp address itself) and its port; the checks on the manifest first. *)
Definition resumeEndpoint (spec : CloneSpec) (m : manifest) : P ((Endpoint * string * Z) + herr) :=
  let id := Fence_String (cs_Fence spec) in
  if m_Handoff m then
    if negb (hc_canHandoff c) then mret (inr ENoHandoff) else
    ok ← asked CPrepareIdentity;
    mret (if ok : bool then inl (default NoEndpoint (m_Endpoint m), "handoff", 0%Z) else inr (EFailed CPrepareIdentity))
  else
    match m_Endpoint m with
    | Some (UnixEndpoint p) =>
        if negb (hc_unix c) then mret (inr EBadDelta) else
        mret (inl (UnixEndpoint (bindDir spec p), bindDir spec p, 0%Z))
    | Some (TCPEndpoint want) =>
        if hc_unix c then mret (inr EBadDelta) else
        if (m_Relay m <>? "") <>? hc_relay c then mret (inr EBadDelta) else
        r ← resumePort id m want;
        mret (match r with
              | inl p => inl (TCPEndpoint p, if m_Relay m <>? "" then bindDir spec (m_Relay m) else "", p)
              | inr e => inr e
              end)
    | _ => mret (inr EBadDelta)
    end.

(** The fence a parked fiber was born under: the parked one when it was never resumed. *)
Definition parkedBirth (m : manifest) : Fence + fenceError :=
  match ParseFence (m_Birth m) with inl b => inl b | inr _ => ParseFence (m_Fence m) end.

(** The unix socket a resume binds, and whether a relay is in front of it. *)
Definition resumeSock (m : manifest) (bind : string) : string :=
  if negb (m_Handoff m) && hc_unix c || (m_Relay m <>? "") then bind else "".
Definition resumeRelayed (m : manifest) : bool := negb (negb (m_Handoff m) && hc_unix c) && (m_Relay m <>? "").

(** [func (r *Runtime) resume(ctx, spec)]; [m] is the manifest at spec.Ref. *)
Definition resume (spec : CloneSpec) (m : manifest) : P (FiberHandle + herr) :=
  let id := Fence_String (cs_Fence spec) in
  let g := cs_Grant spec in
  if (hc_tier c <? TierCheckpoint)%Z then mret (inr ETier) else
  readable ← asked CReadManifest;
  if negb readable then mret (inr (EFailed CReadManifest)) else
  if (m_Backend m <>? "") && (m_Backend m <>? hc_backend c) then mret (inr EParity) else
  merged ← askIf (m_Delta m) CMerge;
  if negb merged then mret (inr (EFailed CMerge)) else
  grouped ← asked CGrantCgroup;
  if negb grouped then mret (inr (EFailed CGrantCgroup)) else
  engine ← askIf (hc_wantsEngine c g) CEnsureEngine;
  if negb engine then mret (inr (EFailed CEnsureEngine)) else
  leaf ← asked CFiberLeaf;
  if negb leaf then mret (inr (EFailed CFiberLeaf)) else
  opened ← asked COpenLeaf;
  if negb opened then _ ← note (EvLeafGone id); mret (inr (EFailed COpenLeaf)) else
  r ← resumeEndpoint spec m;
  match r with
  | inr e => _ ← note (EvLeafGone id); mret (inr e)
  | inl (url, bind, port) =>
      match parkedBirth m with
      | inr _ => _ ← freePort port id; _ ← note (EvLeafGone id); mret (inr EBadFence)
      | inl birth =>
          let sock := resumeSock m bind in
          taken ← claimIf sock id;
          match taken with
          | Some e => _ ← freePort port id; _ ← note (EvLeafGone id); mret (inr e)
          | None =>
              _ ← noteIf (sock <>? "") (EvSocketRemoved sock);
              let relayed := resumeRelayed m in
              listens ← askIf relayed CListenRelay;
              if negb listens then _ ← freeSocket sock id; _ ← freePort port id; _ ← note (EvLeafGone id); mret (inr (EFailed CListenRelay)) else
              let rl := if relayed then Some bind else None in
              let ws := (0 <? DiskBudgetBytes g)%N in
              unpacked ← asked CWorkspace;
              if negb unpacked then _ ← giveBackNames rl false sock port id; _ ← note (EvLeafGone id); mret (inr (EFailed CWorkspace)) else
              slice ← asked CDeltaSlice;
              engine ← (if slice : bool then (if hc_wantsEngine c g then asked CEngine else mret false) else mret true);
              if negb engine then _ ← giveBackNames rl ws sock port id; _ ← note (EvLeafGone id); mret (inr EBadDelta) else
              sliceOpen ← askIf slice COpenSlice;
              if negb sliceOpen then _ ← giveBackNames rl ws sock port id; _ ← note (EvLeafGone id); mret (inr (EFailed COpenSlice)) else
              restored ← askIf slice CRestoreSlice;
              if negb restored then
                _ ← note (EvDeviceEnded id); _ ← giveBackNames rl ws sock port id; _ ← note (EvLeafGone id); mret (inr (EFailed CRestoreSlice))
              else
              leafed ← asked CDeviceLeaf;
              if negb leafed then
                _ ← note (EvDeviceEnded id); _ ← giveBackNames rl ws sock port id; _ ← note (EvLeafGone id); mret (inr (EFailed CDeviceLeaf))
              else
              let f := mkFiber id (UID g) (if relayed then TCPEndpoint port else url) port sock (Fence_String birth) (m_Generation m + 1) (DBytes (GDeviceBudget g)) (hc_quota c g)
                         "" false false false false false false (m_Handoff m) rl ws None in
              a ← locked (register f);
              born ← asked CBackendResume;
              if negb born then
                pressure ← asked CPidsPressure;
                _ ← unborn a f;
                _ ← noteIf (sock <>? "") (EvSocketRemoved sock);
                mret (inr (if pressure : bool then EPressure else EFailed CBackendResume))
              else hatch c a f
          end
      end
  end.

Definition isPressure (e : herr) : bool := match e with EPressure => true | _ => false end.

(** [func (r *Runtime) Clone(ctx, spec)]; [m] is the manifest a delta's Ref holds. *)
Definition Clone (spec : CloneSpec) (m : manifest) : P (FiberHandle + herr) :=
  match cs_Source spec with
  | SourceDelta =>
      r ← resume spec m;
      match r with
      | inl h => mret (inl h)
      | inr e => if isPressure e then mret (inr e) else _ ← asked CReturnDelta; mret (inr e)
      end
  | SourceZygote =>
      let uid := UID (cs_Grant spec) in
      z ← locked (gets (λ s : Host, hs_warms s !! uid));
      match z with
      | Some z => cloneWarm c z spec
      | None =>
          ok ← asked CPrepare;
          if negb ok then mret (inr ENotPrepared) else
          z ← locked (gets (λ s : Host, hs_warms s !! uid));
          match z with Some z => cloneWarm c z spec | None => mret (inr ENotPrepared) end
      end
  end.
End resume.
