(* ===== verification/HostInv.v ===== *)
(** * The invariant of the host runtime's tables

    What every interleaving of the operations of Host.v keeps, said with the
    tokens of the threads that run: a birth's names, a fiber's end in progress
    with the names it still frees and the exit it still owes, a park. *)

From S2P Require Import Prelude GoLib Fence Errors Grant Ledger Runtime Threads Host.
From stdpp Require Import options.

(** ** Names: what a fiber holds exclusively *)

Inductive name := NPort (p : Z) | NSock (q : string).

#[export] Instance name_eq_dec : EqDecision name.
Proof. solve_decision. Defined.

Definition holder (s : Host) (n : name) : option string :=
  match n with NPort p => hs_ports s !! p | NSock q => hs_socks s !! q end.

Definition isPort (n : name) : bool := match n with NPort _ => true | NSock _ => false end.

(** A port or a socket there is: 0 and "" stand for none. *)
Definition real (n : name) : Prop := n ≠ NPort 0 ∧ n ≠ NSock "".

Definition portNames (p : Z) : list name := if p ==? 0%Z then [] else [NPort p].
Definition sockNames (q : string) : list name := if q ==? "" then [] else [NSock q].
Definition names (f : fiber) : list name := portNames (f_port f) ++ sockNames (f_sock f).

Lemma names_real f n : n ∈ names f → real n.
Proof.
  unfold names, portNames, sockNames, real. intros H.
  repeat case_match; breflect; set_unfold; naive_solver.
Qed.

(** ** Tokens *)

Inductive token :=
| TBirth (id : string) (ns : list name)
| TBorn (id : string) (a : nat)
| TPark (id : string) (a : option nat)
| TEnd (a : nat)
| TName (a : nat) (n : name)
| TOwe (a : nat).

Inductive tkey := KBirth (id : string) | KPark (id : string) | KEnd (a : nat) | KName (a : nat) (n : name) | KOwe (a : nat).

Definition key (t : token) : tkey :=
  match t with
  | TBirth id _ | TBorn id _ => KBirth id
  | TPark id _ => KPark id
  | TEnd a => KEnd a
  | TName a n => KName a n
  | TOwe a => KOwe a
  end.

Definition static (k : tkey) : Prop := match k with KBirth _ | KPark _ => True | _ => False end.

(** ** The history order *)

Record le (s s' : Host) : Prop := {
  le_heap a f : hs_heap s !! a = Some f →
    ∃ f', hs_heap s' !! a = Some f' ∧ f_id f' = f_id f ∧ names f' = names f;
  le_dead a f : hs_heap s !! a = Some f → hs_fibers s !! f_id f ≠ Some a → hs_fibers s' !! f_id f ≠ Some a;
  le_exit a f e : hs_heap s !! a = Some f → f_exit f = Some e → ∃ f', hs_heap s' !! a = Some f' ∧ f_exit f' = Some e;
}.

#[export] Instance le_preorder : PreOrder le.
Proof.
  split.
  - intros s. split; eauto.
  - intros s1 s2 s3 [H1 D1 X1] [H2 D2 X2]. split.
    + intros a f Ha. destruct (H1 a f Ha) as (f' & Ha' & E1 & E2).
      destruct (H2 a f' Ha') as (f'' & ? & ? & ?). exists f''. repeat split; congruence.
    + intros a f Ha Hd. destruct (H1 a f Ha) as (f' & Ha' & E1 & E2). rewrite <- E1.
      apply (D2 a f' Ha'). rewrite E1. eauto.
    + intros a f e Ha He. destruct (X1 a f e Ha He) as (f' & Ha' & He'). eauto.
Qed.

Definition born (s : Host) (id : string) : Prop := ∃ a f, hs_heap s !! a = Some f ∧ f_id f = id.

(** Each name was registered once. *)
Definition once (s : Host) : Prop :=
  ∀ a b f g, hs_heap s !! a = Some f → hs_heap s !! b = Some g → f_id f = f_id g → a = b.

(** The exits sent for an object. *)
Definition sent (s : Host) (a : nat) : list FiberExit := (filter (λ x, x.1 = a) (hs_exits s)).*2.

Section inv.
Context (foreign : string → bool).

(** A name no fiber here will run under again. *)
Definition dead (s : Host) (id : string) : Prop :=
  foreign id = true ∨ ∃ a f, hs_heap s !! a = Some f ∧ f_id f = id ∧ hs_fibers s !! id ≠ Some a.

Lemma dead_le s s' id : le s s' → dead s id → dead s' id.
Proof.
  intros [H D _] [?|(a & f & Ha & <- & Hd)]; [by left|right].
  destruct (H a f Ha) as (f' & ? & ? & ?). exists a, f'. split_and!; [done|done|by apply D].
Qed.

Lemma born_le s s' id : le s s' → born s id → born s' id.
Proof. intros [H _ _] (a & f & Ha & <-). destruct (H a f Ha) as (f' & ? & ? & ?). by exists a, f'. Qed.

Definition tok_ok (s : Host) (t : token) : Prop :=
  match t with
  | TBirth id ns =>
      foreign id = false ∧ (∀ a f, hs_fibers s !! id = Some a → hs_heap s !! a = Some f → names f = []) ∧
      (∀ n, n ∈ ns → real n) ∧ (¬ born s id → ∀ n, n ∈ ns → holder s n = Some id)
  | TBorn id a =>
      foreign id = false ∧ (∃ f, hs_heap s !! a = Some f ∧ f_id f = id) ∧ (∀ b, hs_fibers s !! id = Some b → b = a)
  | TPark id None => True
  | TPark id (Some a) => ∃ f, hs_heap s !! a = Some f ∧ f_id f = id ∧ f_released f = true
  | TEnd a => ∃ f, hs_heap s !! a = Some f ∧ f_exit f ≠ None ∧ a ∉ hs_done s
  | TName a n => ∃ f, hs_heap s !! a = Some f ∧ hs_fibers s !! f_id f ≠ Some a
  | TOwe a => ∃ f, hs_heap s !! a = Some f ∧ f_exit f ≠ None ∧ f_released f = false
  end.

(** Who a held name is held for. *)
Definition acc (s : Host) (U : list token) (n : name) (id : string) : Prop :=
  (∃ a f, hs_fibers s !! id = Some a ∧ hs_heap s !! a = Some f ∧ n ∈ names f) ∨
  (∃ ns, TBirth id ns ∈ U ∧ n ∈ ns) ∨
  (∃ a f, TName a n ∈ U ∧ hs_heap s !! a = Some f ∧ f_id f = id) ∨
  (id ∈ hs_kept s ∧ isPort n = true).

(** What was reported of a fiber, and what its finisher still owes. *)
Definition report_ok (s : Host) (U : list token) (a : nat) (f : fiber) : Prop :=
  match f_exit f with
  | None => sent s a = [] ∧ TOwe a ∉ U
  | Some e => if f_released f then sent s a = [] ∧ TOwe a ∉ U
              else sent s a = [e] ∧ TOwe a ∉ U ∨ sent s a = [] ∧ TOwe a ∈ U
  end.

Record Inv (s : Host) (U : list token) : Prop := {
  inv_next a f : hs_heap s !! a = Some f → a < hs_next s;
  inv_home a f : hs_heap s !! a = Some f → foreign (f_id f) = false;
  inv_live id a : hs_fibers s !! id = Some a → ∃ f, hs_heap s !! a = Some f ∧ f_id f = id ∧ f_exit f = None;
  inv_done a : a ∈ hs_done s → ∃ f, hs_heap s !! a = Some f ∧ f_exit f ≠ None;
  inv_panic : hs_panic s = false;
  inv_keys : NoDup (key <$> U);
  inv_tok t : t ∈ U → tok_ok s t;
  inv_report a f : hs_heap s !! a = Some f → report_ok s U a f;
  inv_unsent a : hs_heap s !! a = None → sent s a = [];
  inv_real n id : holder s n = Some id → real n;
  inv_acc n id : holder s n = Some id → acc s U n id;
  inv_excl : once s → ∀ id a f n, hs_fibers s !! id = Some a → hs_heap s !! a = Some f → n ∈ names f → holder s n = Some id;
}.

(** The tokens have no order. *)
#[export] Instance Inv_perm s : Proper ((≡ₚ) ==> impl) (Inv s).
Proof.
  intros U V HUV []. constructor; eauto.
  - by rewrite <- HUV.
  - intros t. rewrite <- HUV. auto.
  - intros a f Ha. specialize (inv_report0 a f Ha). unfold report_ok in *. repeat case_match; by rewrite <- HUV.
  - intros n id Hn. specialize (inv_acc0 n id Hn). unfold acc in *. setoid_rewrite <- HUV. done.
Qed.

Lemma dead_free s U id : Inv s U → once s → dead s id → hs_fibers s !! id = None.
Proof.
  intros HI Ho [Hf|(a & f & Ha & <- & Hd)].
  - destruct (hs_fibers s !! id) as [b|] eqn:E; [|done]. destruct (inv_live _ _ HI _ _ E) as (g & Hb & <- & _).
    rewrite (inv_home _ _ HI _ _ Hb) in Hf. done.
  - destruct (hs_fibers s !! f_id f) as [b|] eqn:E; [|done]. destruct (inv_live _ _ HI _ _ E) as (g & Hb & Hid & _).
    destruct Hd. f_equal. by apply (Ho _ _ _ _ Hb Ha).
Qed.
End inv.
