(* ===== verification/HostSteps.v ===== *)
(** * What each hold of r.mu does to the invariant of HostInv.v

    First the holds that take, keep and give back names, then those that change
    the table of fibers, an object's end or its flags, and what was sent. *)

From S2P Require Import Prelude GoLib Fence Errors Grant Ledger Runtime Threads Host HostInv.
From stdpp Require Import options.

Section steps.
Context (foreign : string → bool).
Notation Inv := (Inv foreign).
Notation dead := (dead foreign).
Notation tok_ok := (tok_ok foreign).

(** ** Steps that leave the fibers' tables alone *)

Lemma same_tables s s' U :
  hs_heap s' = hs_heap s → hs_next s' = hs_next s → hs_fibers s' = hs_fibers s → hs_ports s' = hs_ports s →
  hs_socks s' = hs_socks s → hs_exits s' = hs_exits s → hs_done s' = hs_done s → hs_panic s' = hs_panic s →
  hs_kept s' = hs_kept s → Inv s U → Inv s' U ∧ le s s'.
Proof.
  destruct s, s'; simpl. intros -> -> -> -> -> -> -> -> -> HI. split.
  - destruct HI. constructor; assumption.
  - split; simpl; eauto.
Qed.

(** A change of an object that keeps its name, its names and its end; a live
    one may be marked released. *)
Definition touch (g : fiber → fiber) (f : fiber) : Prop :=
  f_id (g f) = f_id f ∧ names (g f) = names f ∧ f_exit (g f) = f_exit f ∧
  (f_released (g f) = f_released f ∨ f_exit f = None ∧ f_released (g f) = true).

Lemma touched s a g b f' :
  (∀ f, hs_heap s !! a = Some f → touch g f) → hs_heap (on_fiber a g s) !! b = Some f' →
  ∃ f, hs_heap s !! b = Some f ∧ f_id f' = f_id f ∧ names f' = names f ∧ f_exit f' = f_exit f ∧
       (f_released f' = f_released f ∨ f_exit f = None ∧ f_released f' = true).
Proof.
  intros Hg. simpl. destruct (decide (b = a)) as [->|Hne].
  - rewrite lookup_alter_eq. destruct (hs_heap s !! a) as [f|] eqn:E; [|done]. intros [= <-].
    destruct (Hg f eq_refl) as (? & ? & ? & ?). by exists f.
  - rewrite lookup_alter_ne by done. intros Hb. exists f'. split_and!; auto.
Qed.

Lemma touched_fw s a g b f :
  (∀ f, hs_heap s !! a = Some f → touch g f) → hs_heap s !! b = Some f →
  ∃ f', hs_heap (on_fiber a g s) !! b = Some f' ∧ f_id f' = f_id f ∧ names f' = names f ∧ f_exit f' = f_exit f ∧
       (f_released f' = f_released f ∨ f_exit f = None ∧ f_released f' = true).
Proof.
  intros Hg Hb. simpl. destruct (decide (b = a)) as [->|Hne].
  - exists (g f). rewrite lookup_alter_eq, Hb. destruct (Hg f Hb) as (? & ? & ? & ?). done.
  - exists f. rewrite lookup_alter_ne by done. split_and!; auto.
Qed.

Lemma touch_le s a g : (∀ f, hs_heap s !! a = Some f → touch g f) → le s (on_fiber a g s).
Proof.
  intros Hg. split; [|done|].
  - intros b f Hb. destruct (touched_fw s a g b f Hg Hb) as (f' & ? & ? & ? & _). eauto.
  - intros b f e Hb He. destruct (touched_fw s a g b f Hg Hb) as (f' & ? & ? & ? & E & _). rewrite <- E in He. eauto.
Qed.

Lemma touch_tok s a g t : (∀ f, hs_heap s !! a = Some f → touch g f) → tok_ok s t → tok_ok (on_fiber a g s) t.
Proof.
  intros Hg. pose proof (touched s a g) as Hb. pose proof (touched_fw s a g) as Hf.
  destruct t as [id ns|id b|id [b|]|b|b n|b]; simpl tok_ok; [| |intros (f & H1 & H2 & H3)|done|..].
  - intros (H1 & H2 & H3 & H4). split_and!; [done| |done|].
    + intros b f' Hl Hh. destruct (Hb b f' Hg Hh) as (f & ? & ? & -> & _). eauto.
    + intros Hn. apply H4. intros (b & f & Hh & <-). destruct (Hf b f Hg Hh) as (f' & ? & ? & _). apply Hn. by exists b, f'.
  - intros (H1 & (f & H2 & H3) & H4). destruct (Hf b f Hg H2) as (f' & ? & ? & _). split_and!; [done| |done].
    exists f'. split; [done|congruence].
  - destruct (Hf b f Hg H1) as (f' & ? & ? & _ & _ & [E|[_ E]]); exists f'; (split_and!; [done|congruence|congruence]).
  - intros (f & H1 & H2 & H3). destruct (Hf b f Hg H1) as (f' & ? & ? & _ & E & _). exists f'. split_and!; [done|congruence|done].
  - intros (f & H1 & H2). destruct (Hf b f Hg H1) as (f' & ? & E & _). exists f'. split; [done|]. by rewrite E.
  - intros (f & H1 & H2 & H3). destruct (Hf b f Hg H1) as (f' & ? & _ & _ & E & [?|[??]]); [|congruence].
    exists f'. split_and!; [done|congruence|congruence].
Qed.

Lemma Inv_touch s a g U : (∀ f, hs_heap s !! a = Some f → touch g f) → Inv s U → Inv (on_fiber a g s) U.
Proof.
  intros Hg HI. pose proof (touched s a g) as Hb. pose proof (touched_fw s a g) as Hf.
  constructor.
  - intros b f' Hh. destruct (Hb b f' Hg Hh) as (f & ? & _). by apply (inv_next _ _ _ HI b f).
  - intros b f' Hh. destruct (Hb b f' Hg Hh) as (f & ? & -> & _). by apply (inv_home _ _ _ HI b f).
  - intros id b Hl. destruct (inv_live _ _ _ HI id b Hl) as (f & H1 & H2 & H3).
    destruct (Hf b f Hg H1) as (f' & ? & ? & _ & ? & _). exists f'. split_and!; congruence.
  - intros b Hd. destruct (inv_done _ _ _ HI b Hd) as (f & H1 & H2).
    destruct (Hf b f Hg H1) as (f' & ? & _ & _ & ? & _). exists f'. split; congruence.
  - apply (inv_panic _ _ _ HI).
  - apply (inv_keys _ _ _ HI).
  - intros t Ht. apply touch_tok; [done|]. by eapply inv_tok.
  - intros b f' Hh. destruct (Hb b f' Hg Hh) as (f & H1 & _ & _ & E & Hr). pose proof (inv_report _ _ _ HI b f H1) as HR.
    unfold report_ok in *. rewrite E. destruct (f_exit f) as [e|] eqn:Ee; [|done].
    destruct Hr as [->|[? _]]; done.
  - intros b Hh. apply (inv_unsent _ _ _ HI). destruct (hs_heap s !! b) as [f|] eqn:E; [|done].
    destruct (Hf b f Hg E) as (f' & E' & _). congruence.
  - apply (inv_real _ _ _ HI).
  - intros n id Hn. destruct (inv_acc _ _ _ HI n id Hn) as [(b & f & H1 & H2 & H3)|[?|[(b & f & H1 & H2 & H3)|?]]].
    + left. destruct (Hf b f Hg H2) as (f' & ? & ? & E & _). exists b, f'. rewrite E. done.
    + by right; left.
    + right; right; left. destruct (Hf b f Hg H2) as (f' & ? & ? & E & _). exists b, f'. split_and!; [done|done|congruence].
    + by right; right; right.
  - intros Ho id b f' n Hl Hh Hn. destruct (Hb b f' Hg Hh) as (f & H1 & _ & E & _). rewrite E in Hn.
    apply (inv_excl _ _ _ HI) with b f; [|done..]. intros b1 b2 f1 f2 E1 E2 E3.
    destruct (Hf b1 f1 Hg E1) as (f1' & ? & ? & _), (Hf b2 f2 Hg E2) as (f2' & ? & ? & _).
    apply (Ho b1 b2 f1' f2'); [done|done|congruence].
Qed.

Lemma touch_step s a g U : (∀ f, hs_heap s !! a = Some f → touch g f) → Inv s U → Inv (on_fiber a g s) U ∧ le s (on_fiber a g s).
Proof. intros Hg HI. split; [by apply Inv_touch|by apply touch_le]. Qed.

(** ** Steps that change who holds a name *)

Record same_objects (s s' : Host) : Prop := {
  so_heap : hs_heap s' = hs_heap s; so_next : hs_next s' = hs_next s; so_fibers : hs_fibers s' = hs_fibers s;
  so_exits : hs_exits s' = hs_exits s; so_done : hs_done s' = hs_done s; so_panic : hs_panic s' = hs_panic s;
  so_kept : hs_kept s' = hs_kept s;
}.

Lemma same_objects_le s s' : same_objects s s' → le s s'.
Proof. intros []. split; rewrite ?so_heap0, ?so_fibers0; eauto. Qed.

Lemma same_objects_born s s' id : same_objects s s' → born s' id ↔ born s id.
Proof. intros []. unfold born. by rewrite so_heap0. Qed.

Lemma same_objects_once s s' : same_objects s s' → once s' → once s.
Proof. intros []. unfold once. by rewrite so_heap0. Qed.

(** Such a step keeps the invariant when the names stay real and accounted
    for, and those of the live and of the births are kept. *)
Lemma Inv_names s s' U V :
  same_objects s s' → Inv s U → NoDup (key <$> V) →
  (∀ n id, holder s' n = Some id → real n ∧ acc s V n id) →
  (∀ t, t ∈ V → t ∈ U ∨ ∃ id ns, t = TBirth id ns) →
  (∀ id ns, TBirth id ns ∈ V → tok_ok s' (TBirth id ns)) →
  (∀ a, TOwe a ∈ U → TOwe a ∈ V) →
  (∀ id a f n, once s → hs_fibers s !! id = Some a → hs_heap s !! a = Some f → n ∈ names f → holder s n = Some id → holder s' n = Some id) →
  Inv s' V.
Proof.
  intros HS HI HK Hacc Hsub Hbirth Howe Hex. destruct HS as [E1 E2 E3 E4 E5 E6 E7].
  destruct HI as [I1 I2 I3 I4 I5 I6 I7 I8 I9 I10 I11 I12].
  assert (∀ a, TOwe a ∈ V → TOwe a ∈ U) as Howe' by (intros a Ha; destruct (Hsub _ Ha) as [?|(? & ? & ?)]; done).
  constructor; rewrite ?E1, ?E2, ?E3, ?E5, ?E6; auto.
  - intros t Ht. destruct (Hsub t Ht) as [Hu|(id & ns & ->)]; [|by apply Hbirth].
    destruct t as [id ns|id a|id [a|]|a|a n|a]; [by apply Hbirth|specialize (I7 _ Hu); unfold HostInv.tok_ok in *..];
      rewrite ?E1, ?E3, ?E5; done.
  - intros a f Ha. specialize (I8 a f Ha). unfold report_ok, sent in *. rewrite E4. repeat case_match; naive_solver.
  - unfold sent in *. by rewrite E4.
  - intros n id Hn. by apply (Hacc n id).
  - intros n id Hn. destruct (Hacc n id Hn) as [_ HA]. unfold acc in *. by rewrite E1, E3, E7.
  - intros Ho id a f n H1 H2 H3. assert (once s) by (unfold once in *; by rewrite E1 in Ho). eapply Hex; eauto.
Qed.

Lemma birth_key id ns F t : NoDup (key <$> TBirth id ns :: F) → t ∈ F → key t ≠ KBirth id.
Proof. simpl. intros [Hn _]%NoDup_cons Ht E. apply Hn. rewrite list_elem_of_fmap. by exists t. Qed.

Lemma acc_mono s U V n id :
  (∀ ns, TBirth id ns ∈ U → n ∈ ns → ∃ ns', TBirth id ns' ∈ V ∧ n ∈ ns') → (∀ a, TName a n ∈ U → TName a n ∈ V) →
  acc s U n id → acc s V n id.
Proof.
  intros HB HN [?|[(ns & H1 & H2)|[(a & f & H1 & H2 & H3)|?]]]; [by left|right; left|right; right; left|by right; right; right].
  - exact (HB ns H1 H2).
  - exists a, f. auto.
Qed.

(** A birth takes a name that is free, or its own. *)
Lemma Inv_take s s' id ns F n :
  Inv s (TBirth id ns :: F) → same_objects s s' → real n → holder s n = None ∨ holder s n = Some id →
  holder s' n = Some id → (∀ n', n' ≠ n → holder s' n' = holder s n') →
  Inv s' (TBirth id (n :: ns) :: F).
Proof.
  intros HI HS Hr Hn Hn' Hne. pose proof (inv_keys _ _ _ HI) as HK. destruct (inv_tok _ _ _ HI (TBirth id ns)) as (T1 & T2 & T3 & T4); [set_solver|].
  apply (Inv_names s s' _ _ HS HI); [done|..].
  - intros n1 id1 H1. destruct (decide (n1 = n)) as [->|E].
    + split; [done|]. right; left. exists (n :: ns). rewrite Hn' in H1. simplify_eq. set_solver.
    + rewrite Hne in H1 by done. split; [by apply (inv_real _ _ _ HI n1 id1)|].
      apply (acc_mono s (TBirth id ns :: F)); [|set_solver|by apply (inv_acc _ _ _ HI)].
      intros ns1 [[= -> ->]|?]%elem_of_cons ?; [exists (n :: ns)|exists ns1]; set_solver.
  - intros t [->|Ht]%elem_of_cons; [right; eauto|left; set_solver].
  - intros id1 ns1 [[= -> ->]|Hin]%elem_of_cons.
    + simpl. rewrite (so_heap _ _ HS), (so_fibers _ _ HS), (same_objects_born s s' id HS). split_and!; [done|done|set_solver|].
      intros Hb n1 [->|H1]%elem_of_cons; [done|]. destruct (decide (n1 = n)) as [->|]; [done|]. rewrite Hne by done. auto.
    + destruct (inv_tok _ _ _ HI (TBirth id1 ns1)) as (U1 & U2 & U3 & U4); [set_solver|].
      simpl. rewrite (so_heap _ _ HS), (so_fibers _ _ HS), (same_objects_born s s' id1 HS). split_and!; [done..|].
      intros Hb n1 H1. destruct (decide (n1 = n)) as [->|]; [|rewrite Hne by done; auto].
      specialize (U4 Hb n H1). destruct Hn as [E|E]; [congruence|]. simplify_eq.
      destruct (birth_key id ns F _ HK Hin). simpl. congruence.
  - intros a. set_solver.
  - intros id1 a f n1 _ _ _ _ H1. destruct (decide (n1 = n)) as [->|]; [|rewrite Hne by done; auto].
    destruct Hn as [E|E]; congruence.
Qed.

(** The names of [id] that a step freed are gone; every other is as it was. *)
Definition frees (s s' : Host) (id : string) (n : name) : Prop :=
  holder s' n = holder s n ∨ holder s n = Some id ∧ holder s' n = None.

Lemma frees_inv s s' id n id' : frees s s' id n → holder s' n = Some id' → holder s n = Some id'.
Proof. intros [->|[_ ->]]; done. Qed.

(** A birth gives back names: those of its token it no longer holds go. *)
Lemma Inv_give s s' id ns ns' F :
  Inv s (TBirth id ns :: F) → same_objects s s' → (∀ n, frees s s' id n) →
  (∀ n, n ∈ ns' → n ∈ ns ∧ holder s' n = holder s n) → (∀ n, n ∈ ns → n ∉ ns' → holder s' n ≠ Some id) →
  Inv s' (TBirth id ns' :: F).
Proof.
  intros HI HS Hf Hsub Hgone. pose proof (inv_keys _ _ _ HI) as HK. destruct (inv_tok _ _ _ HI (TBirth id ns)) as (T1 & T2 & T3 & T4); [set_solver|].
  apply (Inv_names s s' _ _ HS HI); [done|..].
  - intros n1 id1 H1. pose proof (frees_inv _ _ _ _ _ (Hf n1) H1) as H2. split; [by apply (inv_real _ _ _ HI n1 id1)|].
    apply (acc_mono s (TBirth id ns :: F)); [|set_solver|by apply (inv_acc _ _ _ HI)].
    intros ns1 [[= -> ->]|?]%elem_of_cons Hn; [|exists ns1; set_solver].
    exists ns'. split; [set_solver|]. destruct (decide (n1 ∈ ns')); [done|]. by destruct (Hgone n1).
  - intros t [->|Ht]%elem_of_cons; [right; eauto|left; set_solver].
  - intros id1 ns1 [[= -> ->]|Hin]%elem_of_cons.
    + simpl. rewrite (so_heap _ _ HS), (so_fibers _ _ HS), (same_objects_born s s' id HS). split_and!; [done|done| |].
      * intros n Hn. apply T3. by apply Hsub.
      * intros Hb n Hn. destruct (Hsub n Hn) as [? ->]. auto.
    + destruct (inv_tok _ _ _ HI (TBirth id1 ns1)) as (U1 & U2 & U3 & U4); [set_solver|].
      simpl. rewrite (so_heap _ _ HS), (so_fibers _ _ HS), (same_objects_born s s' id1 HS). split_and!; [done..|].
      intros Hb n1 H1. destruct (Hf n1) as [->|[E _]]; [auto|]. specialize (U4 Hb n1 H1). rewrite U4 in E. simplify_eq.
      by destruct (birth_key id ns F _ HK Hin).
  - intros a. set_solver.
  - intros id1 a f n1 _ H1 H2 H3 H4. destruct (Hf n1) as [->|[E _]]; [done|]. rewrite H4 in E. simplify_eq.
    rewrite (T2 a f H1 H2) in H3. set_solver.
Qed.

(** The names of a dead id are anyone's to free. *)
Lemma Inv_free_dead s s' id U :
  Inv s U → same_objects s s' → dead s id → (∀ n, frees s s' id n) → Inv s' U.
Proof.
  intros HI HS Hd Hf. apply (Inv_names s s' U U HS HI); [by apply (inv_keys _ _ _ HI)|..].
  - intros n id1 H1. pose proof (frees_inv _ _ _ _ _ (Hf n) H1) as H2. split; [by apply (inv_real _ _ _ HI n id1)|by apply (inv_acc _ _ _ HI)].
  - auto.
  - intros id1 ns1 Hin. destruct (inv_tok _ _ _ HI (TBirth id1 ns1)) as (U1 & U2 & U3 & U4); [done|].
    simpl. rewrite (so_heap _ _ HS), (so_fibers _ _ HS), (same_objects_born s s' id1 HS). split_and!; [done..|].
    intros Hb n1 H1. destruct (Hf n1) as [->|[E _]]; [auto|]. specialize (U4 Hb n1 H1). rewrite U4 in E. simplify_eq.
    destruct Hd as [E|(a & f & Ha & Hid & _)]; [congruence|]. destruct Hb. by exists a, f.
  - auto.
  - intros id1 a f n1 Ho H1 H2 H3 H4. destruct (Hf n1) as [->|[E _]]; [done|]. rewrite H4 in E. simplify_eq.
    rewrite (dead_free _ _ _ _ HI Ho Hd) in H1. done.
Qed.

(** A token is dropped once the name is no longer held. *)
Lemma Inv_drop_name s a f n F :
  Inv s (TName a n :: F) → hs_heap s !! a = Some f → holder s n ≠ Some (f_id f) → Inv s F.
Proof.
  intros HI Ha Hn. apply (Inv_names s s (TName a n :: F)); [done|done|..].
  - pose proof (inv_keys _ _ _ HI) as HK. simpl in HK. by apply NoDup_cons in HK as [_ ?].
  - intros n1 id1 H1. split; [by apply (inv_real _ _ _ HI n1 id1)|].
    destruct (inv_acc _ _ _ HI n1 id1 H1) as [?|[?|[(b & g & Hb & H2 & H3)|?]]]; [by left|right; left|right; right; left|by right; right; right].
    + set_solver.
    + exists b, g. apply elem_of_cons in Hb as [[= -> ->]|?]; [|done]. simplify_eq.
  - set_solver.
  - intros id ns Hin. apply (inv_tok _ _ _ HI). set_solver.
  - set_solver.
  - auto.
Qed.
End steps.


Section objects.
Context (foreign : string → bool).
Notation Inv := (Inv foreign).
Notation tok_ok := (tok_ok foreign).

Lemma next_fresh s U : Inv s U → hs_heap s !! hs_next s = None.
Proof. intros HI. destruct (hs_heap s !! hs_next s) eqn:E; [|done]. apply (inv_next _ _ _ HI) in E. lia. Qed.

Lemma owe_known s U a : Inv s U → hs_heap s !! a = None → TOwe a ∉ U.
Proof. intros HI Ha Ht. destruct (inv_tok _ _ _ HI _ Ht) as (f & ? & _). congruence. Qed.

(** ** Registration *)

Lemma reg_le s U f : Inv s U → le s (reg f s).
Proof.
  intros HI. pose proof (next_fresh s U HI) as Hn. split; simpl.
  - intros a g Ha. exists g. rewrite lookup_insert_ne by congruence. done.
  - intros a g Ha Hd. rewrite lookup_insert. case_decide; [|done]. intros [= <-]. congruence.
  - intros a g e Ha He. exists g. rewrite lookup_insert_ne by congruence. done.
Qed.

(** The tokens of other threads do not speak of the new object. *)
Lemma reg_tok s U f t : Inv s U → t ∈ U → key t ≠ KBirth (f_id f) → tok_ok s t → tok_ok (reg f s) t.
Proof.
  intros HI Hin Hk. pose proof (next_fresh s U HI) as Hn.
  assert (∀ a g, hs_heap s !! a = Some g → hs_heap (reg f s) !! a = Some g) as Hold
    by (intros a g Ha; simpl; rewrite lookup_insert_ne by congruence; done).
  destruct t as [id ns|id b|id [b|]|b|b n|b]; simpl tok_ok; simpl in Hk; [| |by naive_solver|done|by naive_solver| |by naive_solver].
  - intros (H1 & H2 & H3 & H4). split_and!; [done| |done|].
    + intros a g. rewrite !lookup_insert_ne by congruence. intros Hl Hg. destruct (decide (a = hs_next s)) as [->|].
      * destruct (inv_live _ _ _ HI _ _ Hl) as (? & ? & _). congruence.
      * rewrite lookup_insert_ne in Hg by done. eauto.
    + intros Hb. apply H4. intros (a & g & Ha & <-). apply Hb. exists a, g. eauto.
  - intros (H1 & (g & H2 & H3) & H4). split_and!; [done|exists g; eauto|]. intros a. rewrite lookup_insert_ne by congruence. auto.
  - intros (g & H1 & H2). exists g. split; [eauto|]. rewrite lookup_insert. case_decide; [|done]. congruence.
Qed.

Lemma Inv_register s id ns F f :
  Inv s (TBirth id ns :: F) → f_id f = id → (∀ n, n ∈ names f ↔ n ∈ ns) → f_exit f = None →
  Inv (reg f s) (TBorn id (hs_next s) :: F).
Proof.
  intros HI Hid Hns Hex. pose proof (next_fresh s _ HI) as Hn. pose proof (inv_keys _ _ _ HI) as HK.
  destruct (inv_tok _ _ _ HI (TBirth id ns)) as (T1 & T2 & T3 & T4); [set_solver|].
  assert (∀ a g, hs_heap s !! a = Some g → hs_heap (reg f s) !! a = Some g) as Hold
    by (intros a g Ha; simpl; rewrite lookup_insert_ne by congruence; done).
  assert (∀ a g, hs_heap (reg f s) !! a = Some g → a = hs_next s ∧ g = f ∨ hs_heap s !! a = Some g) as Hnew.
  { intros a g. simpl. rewrite lookup_insert. case_decide; [intros [= ->]; auto|auto]. }
  assert (∀ a, TOwe a ∈ TBorn id (hs_next s) :: F ↔ TOwe a ∈ TBirth id ns :: F) as Howe by (intros a; set_solver).
  constructor.
  - intros a g [[-> ->]|Ha]%Hnew; simpl; [lia|]. apply (inv_next _ _ _ HI) in Ha. lia.
  - intros a g [[-> ->]|Ha]%Hnew; [congruence|]. by apply (inv_home _ _ _ HI a).
  - intros i a. simpl. rewrite lookup_insert. case_decide as E.
    + intros [= <-]. exists f. rewrite lookup_insert_eq. auto.
    + intros Hl. destruct (inv_live _ _ _ HI _ _ Hl) as (g & H1 & H2 & H3). exists g. split_and!; [by apply Hold|done|done].
  - intros a Hd. destruct (inv_done _ _ _ HI a Hd) as (g & H1 & H2). exists g. split; [by apply Hold|done].
  - apply (inv_panic _ _ _ HI).
  - done.
  - intros t [->|Ht]%elem_of_cons.
    + simpl. split_and!; [done|exists f; rewrite lookup_insert_eq; done|].
      intros b. rewrite Hid, lookup_insert_eq. by intros [= ->].
    + apply (reg_tok s _ f t HI); [set_solver| |by apply (inv_tok _ _ _ HI); set_solver].
      rewrite Hid. by apply (birth_key id ns F).
  - intros a g Ha. unfold report_ok. destruct (Hnew a g Ha) as [[-> ->]|Ha'].
    + rewrite Hex, Howe. split; [by apply (inv_unsent _ _ _ HI)|]. by apply (owe_known s).
    + pose proof (inv_report _ _ _ HI a g Ha') as HR. unfold report_ok, sent in *. simpl. by repeat case_match; rewrite Howe.
  - intros a Ha. apply (inv_unsent _ _ _ HI). destruct (hs_heap s !! a) eqn:E; [|done]. apply Hold in E. congruence.
  - apply (inv_real _ _ _ HI).
  - intros n i Hh. destruct (inv_acc _ _ _ HI n i Hh) as [(a & g & H1 & H2 & H3)|[(ns1 & H1 & H2)|[(a & g & H1 & H2 & H3)|H1]]].
    + destruct (decide (i = id)) as [->|E]; [rewrite (T2 a g H1 H2) in H3; set_solver|].
      left. exists a, g. simpl. rewrite Hid, lookup_insert_ne by done. split_and!; [done|by apply Hold|done].
    + apply elem_of_cons in H1 as [[= -> ->]|H1].
      * left. exists (hs_next s), f. simpl. rewrite Hid, !lookup_insert_eq. split_and!; [done|done|by apply Hns].
      * right; left. exists ns1. set_solver.
    + right; right; left. exists a, g. split_and!; [set_solver|by apply Hold|done].
    + by right; right; right.
  - intros Ho i a g n. simpl. rewrite lookup_insert. case_decide as E.
    + intros [= <-]. rewrite lookup_insert_eq. intros [= <-] Hin. rewrite <- E, Hid. apply T4; [|by apply Hns].
      intros (b & h & Hb & Hh). enough (b = hs_next s) by congruence.
      apply (Ho b (hs_next s) h f); [by apply Hold|simpl; by rewrite lookup_insert_eq|congruence].
    + intros Hl Hg Hin. destruct (Hnew a g Hg) as [[-> ->]|Hg'].
      * destruct (inv_live _ _ _ HI _ _ Hl) as (? & ? & _). congruence.
      * apply (inv_excl _ _ _ HI) with a g; [|done..]. intros b1 b2 f1 f2 B1 B2 B3. apply (Ho b1 b2 f1 f2); auto.
Qed.

(** ** Out of the table *)

Lemma NoDup_names f : NoDup (names f).
Proof. unfold names, portNames, sockNames. repeat case_match; simpl; repeat constructor; set_solver. Qed.

Definition delist (id : string) : Host → Host := set_fibers (delete id).

Lemma delist_le s id : le s (delist id s).
Proof. split; [eauto| |eauto]. intros a f Ha Hd. simpl. rewrite lookup_delete. by case_decide. Qed.

Lemma delist_tok s id t : tok_ok s t → tok_ok (delist id s) t.
Proof.
  destruct t as [i ns|i b|i [b|]|b|b n|b]; simpl tok_ok; try done.
  - intros (H1 & H2 & H3 & H4). split_and!; [done| |done|done]. intros a f [_ ?]%lookup_delete_Some. eauto.
  - intros (H1 & H2 & H3). split_and!; [done|done|]. intros a [_ ?]%lookup_delete_Some. eauto.
  - intros (f & H1 & H2). exists f. split; [done|]. rewrite lookup_delete. by case_decide.
Qed.

(** A fiber leaves the table: its names are its remover's to free. *)
Lemma Inv_delist s U id a f :
  Inv s U → hs_fibers s !! id = Some a → hs_heap s !! a = Some f → Inv (delist id s) ((TName a <$> names f) ++ U).
Proof.
  intros HI Hl Ha. destruct (inv_live _ _ _ HI _ _ Hl) as (f' & Ha' & Hid & _). rewrite Ha in Ha'. injection Ha' as <-.
  assert (∀ n, TName a n ∉ U) as Hno.
  { intros n Hn. destruct (inv_tok _ _ _ HI _ Hn) as (g & Hg & Hne). by simplify_eq. }
  assert (∀ b, TOwe b ∈ (TName a <$> names f) ++ U ↔ TOwe b ∈ U) as Howe by (intros b; set_solver).
  constructor; try (by destruct HI).
  - intros i b Hb. simpl in Hb. apply lookup_delete_Some in Hb as [_ Hb]. by apply (inv_live _ _ _ HI).
  - rewrite fmap_app, <- list_fmap_compose. apply NoDup_app. split_and!.
    + apply NoDup_fmap_2; [intros ?? [=]; done|apply NoDup_names].
    + intros k (n & -> & Hn)%list_elem_of_fmap (t & Hk & Ht)%list_elem_of_fmap.
      destruct t; simplify_eq/=. by eapply Hno.
    + apply (inv_keys _ _ _ HI).
  - intros t [(n & -> & Hn)%list_elem_of_fmap|Ht]%elem_of_app.
    + exists f. simpl. rewrite Hid, lookup_delete_eq. done.
    + apply delist_tok. by apply (inv_tok _ _ _ HI).
  - intros b g Hb. pose proof (inv_report _ _ _ HI b g Hb) as HR. unfold report_ok, sent in *. simpl. repeat case_match; by rewrite Howe.
  - intros n i Hh. destruct (inv_acc _ _ _ HI n i Hh) as [(b & g & H1 & H2 & H3)|[(ns & H1 & H2)|[(b & g & H1 & H2 & H3)|?]]].
    + destruct (decide (i = id)) as [->|].
      * right; right; left. exists b, g. simplify_eq. split_and!; [|done|done]. apply elem_of_app. left.
        apply list_elem_of_fmap. eauto.
      * left. exists b, g. simpl. by rewrite lookup_delete_ne.
    + right; left. exists ns. set_solver.
    + right; right; left. exists b, g. set_solver.
    + by right; right; right.
  - intros Ho i b g n H1 H2 H3. simpl in H1. apply lookup_delete_Some in H1 as [_ H1]. by apply (inv_excl _ _ _ HI) with b g.
Qed.

(** The birth token of a fiber that is out, or that holds no name. *)
Lemma Inv_reborn s id a f F :
  Inv s (TBorn id a :: F) → hs_heap s !! a = Some f → hs_fibers s !! id ≠ Some a ∨ names f = [] → Inv s (TBirth id [] :: F).
Proof.
  intros HI Ha Hz. destruct (inv_tok _ _ _ HI (TBorn id a)) as (T1 & T2 & T3); [set_solver|].
  apply (Inv_names foreign s s (TBorn id a :: F)); [done|done|..].
  - pose proof (inv_keys _ _ _ HI) as HK. done.
  - intros n i Hh. split; [by apply (inv_real _ _ _ HI n i)|].
    apply (acc_mono s (TBorn id a :: F)); [|set_solver|by apply (inv_acc _ _ _ HI)].
    intros ns [[=]|Hin]%elem_of_cons Hn. exists ns. set_solver.
  - intros t [->|Ht]%elem_of_cons; [right; eauto|left; set_solver].
  - intros i ns [[= -> ->]|Hin]%elem_of_cons; [|by apply (inv_tok _ _ _ HI); set_solver].
    simpl. split_and!; [done| |set_solver|set_solver]. intros b g Hl Hb. pose proof (T3 b Hl) as ->. simplify_eq. destruct Hz; done.
  - set_solver.
  - auto.
Qed.

(** ** The end *)

Lemma end_tok s a f e t :
  hs_heap s !! a = Some f → f_exit f = None → tok_ok s t → tok_ok (on_fiber a (set_exit e) s) t.
Proof.
  intros Ha Hx.
  assert (∀ b g, hs_heap s !! b = Some g → ∃ g', hs_heap (on_fiber a (set_exit e) s) !! b = Some g' ∧ f_id g' = f_id g ∧
    names g' = names g ∧ f_released g' = f_released g ∧ (f_exit g ≠ None → f_exit g' ≠ None)) as Hf.
  { intros b g Hb. simpl. destruct (decide (b = a)) as [->|].
    - exists (set_exit e g). rewrite lookup_alter_eq, Hb. done.
    - exists g. by rewrite lookup_alter_ne. }
  assert (∀ b g', hs_heap (on_fiber a (set_exit e) s) !! b = Some g' → ∃ g, hs_heap s !! b = Some g ∧ f_id g' = f_id g ∧ names g' = names g) as Hb.
  { intros b g'. simpl. destruct (decide (b = a)) as [->|]; [|rewrite lookup_alter_ne by done; eauto].
    rewrite lookup_alter_eq, Ha. intros [= <-]. by exists f. }
  destruct t as [i ns|i b|i [b|]|b|b n|b]; simpl tok_ok; [..|done| | |].
  - intros (H1 & H2 & H3 & H4). split_and!; [done| |done|].
    + intros b g' Hl Hg. destruct (Hb b g' Hg) as (g & ? & _ & ->). eauto.
    + intros Hn. apply H4. intros (b & g & Hg & <-). destruct (Hf b g Hg) as (g' & ? & ? & _). apply Hn. by exists b, g'.
  - intros (H1 & (g & H2 & H3) & H4). destruct (Hf b g H2) as (g' & ? & ? & _). split_and!; [done|exists g'; split; [done|congruence]|done].
  - intros (g & H1 & H2 & H3). destruct (Hf b g H1) as (g' & ? & ? & _ & ? & _). exists g'. split_and!; [done|congruence|congruence].
  - intros (g & H1 & H2 & H3). destruct (Hf b g H1) as (g' & ? & _ & _ & _ & ?). exists g'. split_and!; auto.
  - intros (g & H1 & H2). destruct (Hf b g H1) as (g' & ? & E & _). exists g'. rewrite E. done.
  - intros (g & H1 & H2 & H3). destruct (Hf b g H1) as (g' & ? & _ & _ & ? & ?). exists g'. split_and!; [done|auto|congruence].
Qed.

Definition owed (f : fiber) (a : nat) : list token := if f_released f then [] else [TOwe a].

(** A fiber that is out of the table and has not ended, ends. *)
Lemma Inv_end s U a f e :
  Inv s U → hs_heap s !! a = Some f → hs_fibers s !! f_id f ≠ Some a → f_exit f = None →
  Inv (on_fiber a (set_exit e) s) (TEnd a :: owed f a ++ U).
Proof.
  intros HI Ha Hl Hx.
  assert (∀ t, t ∈ U → key t ≠ KEnd a ∧ key t ≠ KOwe a) as Hno.
  { intros t Ht. pose proof (inv_tok _ _ _ HI _ Ht) as HT. destruct t; simpl; split; intros [= ->]; destruct HT as (g & Hg & Hn & _); simplify_eq. }
  pose proof (inv_report _ _ _ HI a f Ha) as HR. unfold report_ok in HR. rewrite Hx in HR. destruct HR as [Hs Ho].
  constructor; try (by destruct HI).
  - intros b g. simpl. destruct (decide (b = a)) as [->|]; [intros _; by apply (inv_next _ _ _ HI a f)|].
    rewrite lookup_alter_ne by done. apply (inv_next _ _ _ HI).
  - intros b g. simpl. destruct (decide (b = a)) as [->|]; [|rewrite lookup_alter_ne by done; apply (inv_home _ _ _ HI)].
    rewrite lookup_alter_eq, Ha. intros [= <-]. by apply (inv_home _ _ _ HI a f).
  - intros i b Hb. destruct (inv_live _ _ _ HI i b Hb) as (g & H1 & H2 & H3). exists g. simpl.
    rewrite lookup_alter_ne; [done|]. intros ->. by simplify_eq.
  - intros b Hd. destruct (inv_done _ _ _ HI b Hd) as (g & H1 & H2). exists g. simpl. rewrite lookup_alter_ne; [done|]. intros ->. congruence.
  - simpl. apply NoDup_cons. split.
    + rewrite fmap_app. intros [Hin|(t & E & Ht)%list_elem_of_fmap]%elem_of_app; [|by destruct (Hno t Ht)].
      unfold owed in Hin. destruct (f_released f); set_solver.
    + unfold owed. destruct (f_released f); simpl; [apply (inv_keys _ _ _ HI)|]. apply NoDup_cons. split; [|apply (inv_keys _ _ _ HI)].
      intros (t & E & Ht)%list_elem_of_fmap. by destruct (Hno t Ht).
  - intros t [->|[Ht|Ht]%elem_of_app]%elem_of_cons.
    + exists (set_exit e f). simpl. rewrite lookup_alter_eq, Ha. split_and!; [done|done|]. intros Hd.
      destruct (inv_done _ _ _ HI a Hd) as (g & ? & ?). congruence.
    + unfold owed in Ht. destruct (f_released f) eqn:Er; [set_solver|]. apply list_elem_of_singleton in Ht as ->.
      exists (set_exit e f). simpl. rewrite lookup_alter_eq, Ha. done.
    + apply (end_tok s a f); [done|done|]. by apply (inv_tok _ _ _ HI).
  - intros b g. simpl. destruct (decide (b = a)) as [->|Hne].
    + rewrite lookup_alter_eq, Ha. intros [= <-]. unfold report_ok, sent in *. simpl. unfold owed. destruct (f_released f); [|right]; set_solver.
    + rewrite lookup_alter_ne by done. intros Hb. pose proof (inv_report _ _ _ HI b g Hb) as HR. unfold report_ok, sent in *. simpl.
      assert (TOwe b ∈ TEnd a :: owed f a ++ U ↔ TOwe b ∈ U) as Ho' by (unfold owed; destruct (f_released f); set_solver).
      repeat case_match; by rewrite Ho'.
  - intros b. simpl. rewrite lookup_alter_None. apply (inv_unsent _ _ _ HI).
  - intros n i Hh. destruct (inv_acc _ _ _ HI n i Hh) as [(b & g & H1 & H2 & H3)|[(ns & H1 & H2)|[(b & g & H1 & H2 & H3)|?]]].
    + left. exists b, g. simpl. rewrite lookup_alter_ne; [done|]. intros ->. destruct (inv_live _ _ _ HI _ _ H1) as (? & ? & ? & ?). congruence.
    + right; left. exists ns. set_solver.
    + right; right; left. simpl. destruct (decide (b = a)) as [->|]; [exists a, (set_exit e g)|exists b, g].
      * rewrite lookup_alter_eq, H2. set_solver.
      * rewrite lookup_alter_ne by done. set_solver.
    + by right; right; right.
  - intros Ho' i b g n Hl' Hb Hn. simpl in Hl', Hb. rewrite lookup_alter_ne in Hb.
    + apply (inv_excl _ _ _ HI) with b g; [|done..]. intros b1 b2 f1 f2 B1 B2 B3.
      apply (Ho' b1 b2 (if decide (b1 = a) then set_exit e f1 else f1) (if decide (b2 = a) then set_exit e f2 else f2));
        [simpl; case_decide as E; [subst; by rewrite lookup_alter_eq, ?B1, ?B2|by rewrite lookup_alter_ne]..|].
      by repeat case_decide.
    + intros ->. destruct (inv_live _ _ _ HI _ _ Hl') as (? & ? & ? & ?). congruence.
Qed.

Lemma end_le s a f e : hs_heap s !! a = Some f → f_exit f = None → le s (on_fiber a (set_exit e) s).
Proof.
  intros Ha Hx. split; [|done|].
  - intros b g Hb. simpl. destruct (decide (b = a)) as [->|].
    + exists (set_exit e g). by rewrite lookup_alter_eq, Hb.
    + exists g. by rewrite lookup_alter_ne.
  - intros b g e' Hb He. exists g. simpl. rewrite lookup_alter_ne; [done|]. intros ->. congruence.
Qed.

(** The port of a fiber whose end is a park stays with its delta. *)
Lemma Inv_keep s U id : Inv s U → Inv (keepPort id s) U ∧ id ∈ hs_kept (keepPort id s) ∧ le s (keepPort id s).
Proof.
  intros HI. split_and!; [|simpl; set_solver|split; simpl; eauto].
  constructor; try (by destruct HI).
  intros n i Hh. destruct (inv_acc _ _ _ HI n i Hh) as [?|[?|[?|[? ?]]]]; [by left|by right; left|by right; right; left|].
  right; right; right. simpl. set_solver.
Qed.

Lemma Inv_kept s a f n F :
  Inv s (TName a n :: F) → hs_heap s !! a = Some f → isPort n = true → f_id f ∈ hs_kept s → Inv s F.
Proof.
  intros HI Ha Hp Hk. apply (Inv_names foreign s s (TName a n :: F)); [done|done|..].
  - pose proof (inv_keys _ _ _ HI) as HK. simpl in HK. by apply NoDup_cons in HK as [_ ?].
  - intros n1 i Hh. split; [by apply (inv_real _ _ _ HI n1 i)|].
    destruct (inv_acc _ _ _ HI n1 i Hh) as [?|[?|[(b & g & Hb & H2 & H3)|?]]]; [by left|right; left|right; right|by right; right; right].
    + set_solver.
    + apply elem_of_cons in Hb as [[= -> ->]|?]; [right|left; by exists b, g]. simplify_eq. done.
  - set_solver.
  - intros i ns Hin. apply (inv_tok _ _ _ HI). set_solver.
  - set_solver.
  - auto.
Qed.

(** ** close(f.done) and the send *)

Lemma Inv_close s a F : Inv s (TEnd a :: F) → Inv (closeDone a s) F ∧ le s (closeDone a s).
Proof.
  intros HI. split; [|split; simpl; eauto]. destruct (inv_tok _ _ _ HI (TEnd a)) as (f & Ha & Hx & Hd); [set_solver|].
  pose proof (inv_keys _ _ _ HI) as HK. simpl in HK. apply NoDup_cons in HK as [Hk HK].
  assert (∀ b, TOwe b ∈ F ↔ TOwe b ∈ TEnd a :: F) as Howe by (intros b; set_solver).
  constructor; try (by destruct HI).
  - intros b. simpl. rewrite elem_of_union, elem_of_singleton. intros [->|Hb]; [eauto|by apply (inv_done _ _ _ HI)].
  - simpl. rewrite (inv_panic _ _ _ HI). simpl. by apply bool_decide_eq_false_2.
  - intros t Ht. pose proof (inv_tok _ _ _ HI t) as HT. destruct t as [| |? [|]|b| |]; try (apply HT; set_solver).
    destruct HT as (g & H1 & H2 & H3); [set_solver|]. exists g. split_and!; [done|done|]. simpl.
    intros [->%elem_of_singleton|?]%elem_of_union; [|done]. apply Hk. apply list_elem_of_fmap. by exists (TEnd a).
  - intros b g Hb. pose proof (inv_report _ _ _ HI b g Hb) as HR. unfold report_ok, sent in *. simpl. repeat case_match; by rewrite Howe.
  - intros n i Hh. apply (acc_mono s (TEnd a :: F)); [|set_solver|by apply (inv_acc _ _ _ HI)]. intros ns Hns Hn. exists ns. set_solver.
Qed.

Lemma sent_send s a e b : sent (sendExit a e s) b = sent s b ++ (if decide (a = b) then [e] else []).
Proof.
  unfold sent. simpl. rewrite filter_app, fmap_app. f_equal. rewrite filter_cons, filter_nil. simpl. by case_decide.
Qed.

Lemma Inv_send s a f e F :
  Inv s (TOwe a :: F) → hs_heap s !! a = Some f → f_exit f = Some e → Inv (sendExit a e s) F ∧ le s (sendExit a e s).
Proof.
  intros HI Ha He. split; [|split; simpl; eauto]. destruct (inv_tok _ _ _ HI (TOwe a)) as (f' & Ha' & Hx & Hr); [set_solver|].
  rewrite Ha in Ha'. injection Ha' as <-. pose proof (inv_keys _ _ _ HI) as HK. simpl in HK. apply NoDup_cons in HK as [Hk HK].
  assert (TOwe a ∉ F) as HaF by (intros Hin; apply Hk, list_elem_of_fmap; by exists (TOwe a)).
  constructor; try (by destruct HI).
  - intros t Ht. pose proof (inv_tok _ _ _ HI t) as HT. destruct t as [| |? [|]|b| |]; try (apply HT; set_solver).
  - intros b g Hb. pose proof (inv_report _ _ _ HI b g Hb) as HR. unfold report_ok in *. rewrite sent_send. simpl in Hb.
    destruct (decide (a = b)) as [<-|Hne].
    + simplify_eq. rewrite He, Hr in *. left. destruct HR as [[_ HR]|[-> _]]; [set_solver|done].
    + rewrite app_nil_r. assert (TOwe b ∈ F ↔ TOwe b ∈ TOwe a :: F) as Howe by set_solver. repeat case_match; by rewrite Howe.
  - intros b Hb. rewrite sent_send. simpl in Hb. rewrite decide_False by congruence. rewrite app_nil_r. by apply (inv_unsent _ _ _ HI).
  - intros n i Hh. apply (acc_mono s (TOwe a :: F)); [|set_solver|by apply (inv_acc _ _ _ HI)]. intros ns Hns Hn. exists ns. set_solver.
Qed.

(** ** Parks *)

Lemma Inv_swap_park s U V F id oa oa' :
  U = TPark id oa :: F → V = TPark id oa' :: F → tok_ok s (TPark id oa') → Inv s U → Inv s V.
Proof.
  intros -> -> Ht HI. constructor; try (by destruct HI).
  - intros t [->|Hin]%elem_of_cons; [done|]. apply (inv_tok _ _ _ HI). set_solver.
  - intros b g Hb. pose proof (inv_report _ _ _ HI b g Hb) as HR. unfold report_ok in *.
    assert (TOwe b ∈ TPark id oa' :: F ↔ TOwe b ∈ TPark id oa :: F) as Howe by set_solver. repeat case_match; by rewrite Howe.
  - intros n i Hh. apply (acc_mono s (TPark id oa :: F)); [|set_solver|by apply (inv_acc _ _ _ HI)]. intros ns Hns Hn. exists ns. set_solver.
Qed.

(** The flags of the park of [a] taken back. *)
Definition unmark (a : nat) : Host → Host := on_fiber a (set_flags false false).

Lemma unmark_fw s a b g :
  hs_heap s !! b = Some g →
  ∃ g', hs_heap (unmark a s) !! b = Some g' ∧ f_id g' = f_id g ∧ names g' = names g ∧ f_exit g' = f_exit g ∧
        (b = a → f_released g' = false) ∧ (b ≠ a → g' = g).
Proof.
  intros Hb. unfold unmark. simpl. destruct (decide (b = a)) as [->|]; [|exists g; by rewrite lookup_alter_ne].
  exists (set_flags false false g). by rewrite lookup_alter_eq, Hb.
Qed.

Lemma unmark_bw s a b g' :
  hs_heap (unmark a s) !! b = Some g' →
  ∃ g, hs_heap s !! b = Some g ∧ f_id g' = f_id g ∧ names g' = names g ∧ f_exit g' = f_exit g ∧
       (b = a → f_released g' = false) ∧ (b ≠ a → g' = g).
Proof.
  intros Hb. destruct (hs_heap s !! b) as [g|] eqn:E.
  - destruct (unmark_fw s a b g E) as (g1 & H1 & H2). exists g. rewrite Hb in H1. injection H1 as <-. done.
  - unfold unmark in Hb. simpl in Hb. destruct (decide (b = a)) as [->|].
    + by rewrite lookup_alter_eq, E in Hb.
    + rewrite lookup_alter_ne in Hb by done. congruence.
Qed.

Lemma unmark_le s a : le s (unmark a s).
Proof.
  split; [|done|].
  - intros b g Hb. destruct (unmark_fw s a b g Hb) as (g' & ? & ? & ? & _). eauto.
  - intros b g e Hb He. destruct (unmark_fw s a b g Hb) as (g' & ? & _ & _ & E & _). rewrite <- E in He. eauto.
Qed.

(** The tokens that do not need the mark. *)
Lemma unmark_tok s a t :
  (∀ i, t ≠ TPark i (Some a)) → tok_ok s t → tok_ok (unmark a s) t.
Proof.
  intros Hp. pose proof (unmark_fw s a) as Hf. pose proof (unmark_bw s a) as Hb.
  destruct t as [i ns|i b|i [b|]|b|b n|b]; simpl tok_ok; [..|done| | |].
  - intros (H1 & H2 & H3 & H4). split_and!; [done| |done|].
    + intros b g' Hl Hg. destruct (Hb b g' Hg) as (g & ? & _ & -> & _). eauto.
    + intros Hn. apply H4. intros (b & g & Hg & <-). destruct (Hf b g Hg) as (g' & ? & ? & _). apply Hn. by exists b, g'.
  - intros (H1 & (g & H2 & H3) & H4). destruct (Hf b g H2) as (g' & ? & ? & _). split_and!; [done|exists g'; split; [done|congruence]|done].
  - intros (g & H1 & H2 & H3). assert (b ≠ a) as Hne by (intros ->; by apply (Hp i)).
    destruct (Hf b g H1) as (g' & ? & _ & _ & _ & _ & E). rewrite (E Hne) in *. eauto.
  - intros (g & H1 & H2 & H3). destruct (Hf b g H1) as (g' & ? & _ & _ & ? & _). exists g'. split_and!; [done|congruence|done].
  - intros (g & H1 & H2). destruct (Hf b g H1) as (g' & ? & E & _). exists g'. rewrite E. done.
  - intros (g & H1 & H2 & H3). destruct (Hf b g H1) as (g' & ? & _ & _ & Hx & E & E'). exists g'.
    destruct (decide (b = a)) as [->|Hne]; [|rewrite (E' Hne) in *; done]. split_and!; [done|congruence|auto].
Qed.

(** The flags of a failed park are taken back; a death it withheld is owed. *)
Lemma Inv_unpark s id a f F :
  Inv s (TPark id (Some a) :: F) → hs_heap s !! a = Some f →
  Inv (unmark a s) (TPark id None :: (if f_exit f then [TOwe a] else []) ++ F).
Proof.
  intros HI Ha. destruct (inv_tok _ _ _ HI (TPark id (Some a))) as (f' & Ha' & Hid & Hr); [set_solver|].
  rewrite Ha in Ha'. injection Ha' as <-. pose proof (inv_keys _ _ _ HI) as HK. simpl in HK. apply NoDup_cons in HK as [Hk HK].
  pose proof (unmark_fw s a) as Hf. pose proof (unmark_bw s a) as Hb.
  assert (sent s a = [] ∧ TOwe a ∉ F) as [Hs Ho].
  { pose proof (inv_report _ _ _ HI a f Ha) as HR. unfold report_ok in HR. rewrite Hr in HR. destruct (f_exit f); set_solver. }
  assert (∀ b, b ≠ a → TOwe b ∈ TPark id None :: (if f_exit f then [TOwe a] else []) ++ F ↔ TOwe b ∈ TPark id (Some a) :: F) as Howe
    by (intros b Hne; destruct (f_exit f); set_solver).
  constructor; try (by destruct HI).
  - intros b g' Hg. destruct (Hb b g' Hg) as (g & ? & _). by apply (inv_next _ _ _ HI b g).
  - intros b g' Hg. destruct (Hb b g' Hg) as (g & ? & -> & _). by apply (inv_home _ _ _ HI b g).
  - intros i b Hl. destruct (inv_live _ _ _ HI i b Hl) as (g & H1 & H2 & H3). destruct (Hf b g H1) as (g' & ? & ? & _ & ? & _).
    exists g'. split_and!; congruence.
  - intros b Hd. destruct (inv_done _ _ _ HI b Hd) as (g & H1 & H2). destruct (Hf b g H1) as (g' & ? & _ & _ & ? & _).
    exists g'. split; congruence.
  - simpl. apply NoDup_cons. rewrite fmap_app. split.
    + intros [Hin|Hin]%elem_of_app; [|done]. destruct (f_exit f); set_solver.
    + apply NoDup_app. split_and!; [destruct (f_exit f); simpl; [apply NoDup_singleton|constructor]| |done].
      intros k Hk1 (t & -> & Ht)%list_elem_of_fmap. destruct (f_exit f); [|set_solver]. apply list_elem_of_singleton in Hk1.
      destruct t; simplify_eq/=. set_solver.
  - intros t [->|[Ht|Ht]%elem_of_app]%elem_of_cons; [done| |].
    + destruct (f_exit f) as [e|] eqn:Ee; [|set_solver]. apply list_elem_of_singleton in Ht as ->.
      destruct (Hf a f Ha) as (g' & H1 & _ & _ & H2 & H3 & _). exists g'. split_and!; [done|congruence|auto].
    + assert (tok_ok s t) as HT by (apply (inv_tok _ _ _ HI); set_solver). apply unmark_tok; [|done].
      intros i ->. destruct HT as (g & H1 & H2 & _). destruct Hk. apply list_elem_of_fmap. exists (TPark i (Some a)). split; [simpl; congruence|done].
  - intros b g' Hg. destruct (Hb b g' Hg) as (g & H1 & _ & _ & H2 & H3 & H4). unfold report_ok. change (sent (unmark a s) b) with (sent s b).
    destruct (decide (b = a)) as [->|Hne].
    + assert (g = f) as -> by congruence. rewrite H2, (H3 eq_refl), Hs. destruct (f_exit f); [right|]; set_solver.
    + rewrite (H4 Hne) in *. pose proof (inv_report _ _ _ HI b g H1) as HR. unfold report_ok in HR. repeat case_match; by rewrite (Howe b Hne).
  - intros b Hn. apply (inv_unsent _ _ _ HI). destruct (hs_heap s !! b) as [g|] eqn:E; [|done]. destruct (Hf b g E) as (g' & ? & _). congruence.
  - intros n i Hh. destruct (inv_acc _ _ _ HI n i Hh) as [(b & g & H1 & H2 & H3)|[(ns & H1 & H2)|[(b & g & H1 & H2 & H3)|?]]].
    + left. destruct (Hf b g H2) as (g' & ? & _ & E & _). exists b, g'. rewrite E. done.
    + right; left. exists ns. set_solver.
    + right; right; left. destruct (Hf b g H2) as (g' & ? & E & _). exists b, g'. split_and!; [set_solver|done|congruence].
    + by right; right; right.
  - intros Ho' i b g' n Hl Hg Hn. destruct (Hb b g' Hg) as (g & H1 & _ & E & _). rewrite E in Hn.
    apply (inv_excl _ _ _ HI) with b g; [|done..]. intros b1 b2 f1 f2 B1 B2 B3.
    destruct (Hf b1 f1 B1) as (f1' & ? & ? & _), (Hf b2 f2 B2) as (f2' & ? & ? & _). apply (Ho' b1 b2 f1' f2'); [done|done|congruence].
Qed.
End objects.
