(* ===== verification/HostRuns.v ===== *)
(** * The operations of the host runtime keep its invariant

    One lemma per operation of Host.v, in the logic of Threads.v: which tokens
    its thread holds when; then the exits, Release and Park, whose thread also
    holds the token of the park. *)

From S2P Require Import Prelude GoLib Fence Errors Grant Ledger Runtime Threads Host HostInv HostSteps.
From stdpp Require Import options.

Section runs.
Context (foreign : string → bool).
Notation Inv := (Inv foreign).
Notation dead := (dead foreign).
Notation wp := (Threads.wp key static Inv le).

Lemma locked_wp {A R} (f : St Host A) (k : A → prog Host call R) Q O s0 :
  (∀ s F, le s0 s → Inv s (O ++ F) →
     ∃ O', Inv (f s).2 (O' ++ F) ∧ le s (f s).2 ∧
       (∀ t, t ∈ O' → static (key t) → ∃ t', t' ∈ O ∧ key t' = key t) ∧ wp (k (f s).1) Q O' (f s).2) →
  wp (locked f ≫= k) Q O s0.
Proof. done. Qed.

Lemma locked_wp_last {A} (f : St Host A) Q O s0 :
  (∀ s F, le s0 s → Inv s (O ++ F) →
     ∃ O', Inv (f s).2 (O' ++ F) ∧ le s (f s).2 ∧
       (∀ t, t ∈ O' → static (key t) → ∃ t', t' ∈ O ∧ key t' = key t) ∧ Q (f s).1 O' (f s).2) →
  wp (locked f) Q O s0.
Proof. done. Qed.

Lemma bind_wp {A R} (p : prog Host call A) (k : A → prog Host call R) Q O s0 :
  wp p (λ r, wp (k r) Q) O s0 → wp (p ≫= k) Q O s0.
Proof. apply wp_bind. Qed.

(** ** Operations that own nothing *)

(** From [s0] on, [p] needs no token and changes none. *)
Definition neutral {R} (s0 : Host) (p : prog Host call R) : Prop :=
  ∀ O s1 Q, le s0 s1 → (∀ r s, le s1 s → Q r O s) → wp p Q O s1.

Lemma neutral_later {R} s0 s1 (p : prog Host call R) : le s0 s1 → neutral s0 p → neutral s1 p.
Proof. intros H Hp O s Q Hs. apply Hp. by etrans. Qed.

Lemma neutral_ret {R} s0 (r : R) : neutral s0 (mret r).
Proof. intros O s1 Q _ HQ. by apply HQ. Qed.

Lemma neutral_bind {A R} s0 (p : prog Host call A) (k : A → prog Host call R) :
  neutral s0 p → (∀ r s, le s0 s → neutral s (k r)) → neutral s0 (p ≫= k).
Proof.
  intros Hp Hk O s1 Q H1 HQ. apply bind_wp, Hp; [done|]. intros r s Hs. apply (Hk r s); [by etrans|done|].
  intros r' s' Hs'. apply HQ. by etrans.
Qed.

Lemma neutral_asked s0 q : neutral s0 (asked q).
Proof. intros O s1 Q _ HQ b. by apply HQ. Qed.

Lemma neutral_awaited s0 g : neutral s0 (awaited g).
Proof. intros O s1 Q _ HQ s F Hs _ _. by apply HQ. Qed.

Lemma neutral_locked {A} s0 (f : St Host A) :
  (∀ s U, le s0 s → Inv s U → Inv (f s).2 U ∧ le s (f s).2) → neutral s0 (locked f).
Proof.
  intros Hf O s1 Q H1 HQ. apply locked_wp_last. intros s F Hs HI. destruct (Hf s (O ++ F)) as [??]; [by etrans|done|].
  exists O. split_and!; [done|done|eauto|]. apply HQ. by etrans.
Qed.

Lemma neutral_gets {A} s0 (f : Host → A) : neutral s0 (locked (gets f)).
Proof. apply neutral_locked. done. Qed.

Lemma neutral_each {A} s0 (f : A → prog Host call unit) (xs : list A) :
  (∀ x s, le s0 s → neutral s (f x)) → neutral s0 (eachP f xs).
Proof.
  revert s0. induction xs as [|x xs IH]; intros s0 Hf; simpl; [apply neutral_ret|].
  apply neutral_bind; [by apply Hf|]. intros _ s Hs. apply IH. intros y s' Hs'. apply Hf. by etrans.
Qed.

Lemma neutral_note s0 e : neutral s0 (note e).
Proof. apply neutral_locked. intros s U _. by apply same_tables. Qed.

Lemma neutral_noteIf s0 b e : neutral s0 (noteIf b e).
Proof. destruct b; [apply neutral_note|apply neutral_ret]. Qed.

Lemma neutral_deref s0 a : neutral s0 (deref a).
Proof. apply neutral_gets. Qed.

Lemma neutral_askIf s0 b q : neutral s0 (askIf b q).
Proof. destruct b; [apply neutral_asked|apply neutral_ret]. Qed.

Lemma neutral_discard s0 ps : neutral s0 (discard ps).
Proof. apply neutral_each. intros. apply neutral_note. Qed.

Lemma neutral_pooled {A} s0 (f : St Host A) :
  (∀ s, hs_heap (f s).2 = hs_heap s ∧ hs_next (f s).2 = hs_next s ∧ hs_fibers (f s).2 = hs_fibers s ∧ hs_ports (f s).2 = hs_ports s ∧
        hs_socks (f s).2 = hs_socks s ∧ hs_exits (f s).2 = hs_exits s ∧ hs_done (f s).2 = hs_done s ∧ hs_panic (f s).2 = hs_panic s ∧
        hs_kept (f s).2 = hs_kept s) → neutral s0 (locked f).
Proof. intros Hf. apply neutral_locked. intros s U _. destruct (Hf s) as (? & ? & ? & ? & ? & ? & ? & ? & ?). by apply same_tables. Qed.

(** Prove an operation neutral by its structure. *)
Ltac neutral_step :=
  first
    [ apply neutral_ret | apply neutral_asked | apply neutral_note | apply neutral_noteIf | apply neutral_askIf
    | apply neutral_gets | apply neutral_deref | apply neutral_discard | apply neutral_awaited
    | apply neutral_bind; [|intros ? ? ?]
    | case_match ].
Ltac neutral_auto := repeat neutral_step.

Lemma neutral_returnPooled s0 z p : neutral s0 (returnPooled z p).
Proof.
  unfold returnPooled. neutral_auto. apply neutral_pooled. intros s. repeat case_match; simplify_eq/=; done.
Qed.

Lemma neutral_giveUp s0 z p id : neutral s0 (giveUp z p id).
Proof. destruct p; [apply neutral_returnPooled|apply neutral_note]. Qed.

Lemma neutral_takePooled s0 z : neutral s0 (locked (takePooled z)).
Proof. apply neutral_pooled. intros s. unfold takePooled. repeat case_match; done. Qed.

Lemma neutral_Fill s0 uid p : neutral s0 (Fill uid p).
Proof.
  unfold Fill. neutral_auto; apply neutral_pooled; intros s'; simpl; repeat case_match; done.
Qed.

Lemma neutral_Drain s0 uid n : neutral s0 (Drain uid n).
Proof. unfold Drain. neutral_auto. apply neutral_pooled. intros s. repeat case_match; done. Qed.

Lemma neutral_pooledGone s0 id : neutral s0 (pooledGone id).
Proof. unfold pooledGone. neutral_auto. apply neutral_pooled. done. Qed.

Lemma neutral_DropTemplate s0 uid : neutral s0 (DropTemplate uid).
Proof. unfold DropTemplate. neutral_auto. apply neutral_pooled. intros s. unfold drainAll. repeat case_match; simplify_eq/=; done. Qed.

Lemma neutral_publish s0 uid i : neutral s0 (locked (publish uid i)).
Proof. by apply neutral_pooled. Qed.

Lemma neutral_enforce s0 id why : neutral s0 (enforceFiber id why).
Proof.
  unfold enforceFiber. neutral_auto. apply neutral_locked. intros s' U _ HI. apply touch_step; [|done]. intros f _. repeat split; auto.
Qed.

Lemma neutral_killOrphan s0 c f : neutral s0 (killOrphan c f).
Proof. unfold killOrphan. neutral_auto. Qed.

(** ** Freeing names *)

Lemma set_ports_objects s g : same_objects s (set_ports g s).
Proof. done. Qed.
Lemma set_socks_objects s g : same_objects s (set_socks g s).
Proof. done. Qed.

Definition freedPort (p : Z) (id : string) (s : Host) : Host :=
  if hs_ports s !! p ==? Some id then set_ports (delete p) s else s.
Definition freedSock (q : string) (id : string) (s : Host) : Host :=
  if hs_socks s !! q ==? Some id then set_socks (delete q) s else s.

Lemma freedPort_spec p id s :
  same_objects s (freedPort p id s) ∧ (∀ n, frees s (freedPort p id s) id n) ∧ holder (freedPort p id s) (NPort p) ≠ Some id ∧
  (∀ n, n ≠ NPort p → holder (freedPort p id s) n = holder s n).
Proof.
  unfold freedPort, frees. destruct (bool_decide_reflect (hs_ports s !! p = Some id)) as [E|E].
  - split_and!; [done| | |].
    + intros [p'|q]; simpl; [|by left]. destruct (decide (p' = p)) as [->|]; [right; by rewrite lookup_delete_eq|left; by rewrite lookup_delete_ne].
    + simpl. by rewrite lookup_delete_eq.
    + intros [p'|q] Hne; simpl; [|done]. rewrite lookup_delete_ne; [done|congruence].
  - split_and!; [done|by left|done|done].
Qed.

Lemma freedSock_spec q id s :
  same_objects s (freedSock q id s) ∧ (∀ n, frees s (freedSock q id s) id n) ∧ holder (freedSock q id s) (NSock q) ≠ Some id ∧
  (∀ n, n ≠ NSock q → holder (freedSock q id s) n = holder s n).
Proof.
  unfold freedSock, frees. destruct (bool_decide_reflect (hs_socks s !! q = Some id)) as [E|E].
  - split_and!; [done| | |].
    + intros [p|q']; simpl; [by left|]. destruct (decide (q' = q)) as [->|]; [right; by rewrite lookup_delete_eq|left; by rewrite lookup_delete_ne].
    + simpl. by rewrite lookup_delete_eq.
    + intros [p|q'] Hne; simpl; [done|]. rewrite lookup_delete_ne; [done|congruence].
  - split_and!; [done|by left|done|done].
Qed.

(** One name freed, whichever table it is in. *)
Definition freeName (n : name) (id : string) : prog Host call unit :=
  match n with NPort p => freePort p id | NSock q => freeSocket q id end.
Definition freedName (n : name) (id : string) (s : Host) : Host :=
  match n with NPort p => freedPort p id s | NSock q => freedSock q id s end.

Lemma freedName_spec n id s :
  same_objects s (freedName n id s) ∧ (∀ n', frees s (freedName n id s) id n') ∧ holder (freedName n id s) n ≠ Some id ∧
  (∀ n', n' ≠ n → holder (freedName n id s) n' = holder s n').
Proof. destruct n; [apply freedPort_spec|apply freedSock_spec]. Qed.

Lemma freeName_real n id : real n → freeName n id = locked (modify (freedName n id)).
Proof. intros [H1 H2]. destruct n; simpl; unfold freePort, freeSocket; rewrite bool_decide_eq_false_2 by congruence; done. Qed.

Lemma freeName_none n id : ¬ real n → freeName n id = mret tt.
Proof.
  intros Hn. unfold real in Hn. destruct n as [p|q]; simpl; unfold freePort, freeSocket; rewrite bool_decide_eq_true_2; [done| |done|].
  - destruct (decide (p = 0%Z)); [done|]. destruct Hn. split; congruence.
  - destruct (decide (q = "")); [done|]. destruct Hn. split; congruence.
Qed.

#[local] Instance real_dec n : Decision (real n).
Proof. unfold real. apply _. Defined.

Definition nameList (n : name) : list name := if decide (real n) then [n] else [].

Lemma names_split f : names f = nameList (NPort (f_port f)) ++ nameList (NSock (f_sock f)).
Proof.
  unfold names, portNames, sockNames, nameList. f_equal.
  - destruct (decide (f_port f = 0%Z)) as [->|]; [done|]. by rewrite bool_decide_eq_false_2, decide_True by (unfold real; naive_solver congruence).
  - destruct (decide (f_sock f = "")) as [->|]; [done|]. by rewrite bool_decide_eq_false_2, decide_True by (unfold real; naive_solver congruence).
Qed.

Lemma neutral_freeName s0 n id : dead s0 id → neutral s0 (freeName n id).
Proof.
  intros Hd. destruct (decide (real n)) as [Hr|Hr]; [|rewrite freeName_none by done; apply neutral_ret].
  rewrite freeName_real by done. apply neutral_locked. intros s U Hs HI. simpl.
  destruct (freedName_spec n id s) as (H1 & H2 & _). split; [|by apply same_objects_le].
  apply (Inv_free_dead foreign s _ id); [done|done|by apply (dead_le foreign s0)|done].
Qed.

Lemma neutral_freePorts s0 id : dead s0 id → neutral s0 (locked (freePorts id)).
Proof.
  intros Hd. apply neutral_locked. intros s U Hs HI. simpl. split; [|by apply same_objects_le].
  apply (Inv_free_dead foreign s _ id); [done|done|by apply (dead_le foreign s0)|].
  intros [p|q]; [|by left]. unfold frees. simpl. destruct (hs_ports s !! p) as [i|] eqn:E.
  - destruct (decide (i = id)) as [->|].
    + right. split; [done|]. apply map_lookup_filter_None. right. intros i Hi. simplify_eq. simpl. auto.
    + left. by apply map_lookup_filter_Some.
  - left. by apply map_lookup_filter_None_2; left.
Qed.

(** The finisher of [a] frees a name it answers for. *)
Lemma freeName_token s0 a f n Q O :
  hs_heap s0 !! a = Some f → hs_fibers s0 !! f_id f ≠ Some a → (∀ s, le s0 s → Q tt O s) →
  wp (freeName n (f_id f)) Q ((TName a <$> nameList n) ++ O) s0.
Proof.
  intros Ha Hl HQ. unfold nameList. destruct (decide (real n)) as [Hr|Hr]; [|rewrite freeName_none by done; by apply HQ].
  rewrite freeName_real by done. apply locked_wp_last. intros s F Hs HI. simpl. destruct (freedName_spec n (f_id f) s) as (H1 & H2 & H3 & H4).
  exists O. split_and!; [|by apply same_objects_le|set_solver|apply HQ; etrans; [done|by apply same_objects_le]].
  destruct (le_heap _ _ Hs a f Ha) as (f' & Ha' & Hid & _).
  apply (Inv_drop_name foreign _ a f' n); [|by rewrite (so_heap _ _ H1)|by rewrite Hid].
  apply (Inv_free_dead foreign s _ (f_id f)); [done|done| |done].
  apply (dead_le foreign s0); [done|]. right. by exists a, f.
Qed.

Lemma free_token_wp {R} s1 s3 a f n (k : unit → prog Host call R) Q V :
  hs_heap s1 !! a = Some f → hs_fibers s1 !! f_id f ≠ Some a → le s1 s3 → (∀ s, le s1 s → wp (k tt) Q V s) →
  wp (freeName n (f_id f) ≫= k) Q ((TName a <$> nameList n) ++ V) s3.
Proof.
  intros Ha Hl H3 Hk. destruct (le_heap _ _ H3 a f Ha) as (f3 & Ha3 & Hid & _). apply bind_wp.
  rewrite <- Hid. apply freeName_token; [done| |].
  - rewrite Hid. by apply (le_dead _ _ H3 a f).
  - intros s Hs. apply Hk. by etrans.
Qed.

(** A neutral piece, then the rest, from any state past [s1]. *)
Lemma neutral_seq {A R} s1 s3 (p : prog Host call A) (k : A → prog Host call R) Q V :
  neutral s3 p → le s1 s3 → (∀ r s, le s1 s → wp (k r) Q V s) → wp (p ≫= k) Q V s3.
Proof. intros Hp H3 Hk. apply bind_wp, Hp; [done|]. intros r s Hs. apply Hk. by etrans. Qed.

(** ** The end of a fiber *)

(** What its finisher holds. *)
Definition endTok (a : nat) (f : fiber) : list token :=
  (TName a <$> nameList (NSock (f_sock f))) ++ (if f_parked f then [] else TName a <$> nameList (NPort (f_port f))) ++ TEnd a :: owed f a.

Lemma takeOut_step s U a reason detail f :
  Inv s U → (takeOut a reason detail s).1 = Some f →
  hs_heap s !! a = Some f ∧ Inv (takeOut a reason detail s).2 (endTok a f ++ U) ∧ le s (takeOut a reason detail s).2 ∧
  hs_heap (takeOut a reason detail s).2 !! a = Some (set_exit (mkFiberExit (f_id f) reason detail) f) ∧
  hs_fibers (takeOut a reason detail s).2 !! f_id f ≠ Some a.
Proof.
  intros HI. unfold takeOut. destruct (hs_heap s !! a) as [f0|] eqn:Ha; [|done].
  destruct (bool_decide_reflect (hs_fibers s !! f_id f0 = Some a)) as [Hl|]; [|done]. simpl. intros [= ->].
  set (e := mkFiberExit (f_id f) reason detail). set (s1 := delist (f_id f) s). set (s2 := on_fiber a (set_exit e) s1).
  assert (f_exit f = None) as Hx by (destruct (inv_live _ _ _ HI _ _ Hl) as (g & ? & _ & ?); congruence).
  pose proof (Inv_delist foreign s U (f_id f) a f HI Hl Ha) as I1. fold s1 in I1.
  assert (hs_fibers s1 !! f_id f ≠ Some a) as Hl1 by (simpl; by rewrite lookup_delete_eq).
  pose proof (Inv_end foreign s1 _ a f e I1 Ha Hl1 Hx) as I2. fold s2 in I2.
  assert (le s s2) as L2 by (etrans; [apply (delist_le s (f_id f))|by apply (end_le s1 a f)]).
  assert (hs_heap s2 !! a = Some (set_exit e f)) as H2 by (simpl; by rewrite lookup_alter_eq, Ha).
  rewrite names_split, fmap_app in I2.
  split; [done|]. unfold endTok. destruct (f_parked f) eqn:Ep.
  - destruct (Inv_keep foreign s2 _ (f_id f) I2) as (I3 & Hk & L3). fold s2 e.
    split_and!; [|by etrans|done|done]. simpl app.
    assert (∀ n, isPort n = true → ∀ V, Inv (keepPort (f_id f) s2) ((TName a <$> nameList n) ++ V) → Inv (keepPort (f_id f) s2) V) as Hdrop.
    { intros n Hn V. unfold nameList. case_decide; [|done]. simpl. intros HV. by apply (Inv_kept foreign _ a (set_exit e f) n). }
    apply (Hdrop (NPort (f_port f))); [done|]. eapply Inv_perm; [|exact I3]. solve_Permutation.
  - split_and!; [|done|done|done]. eapply Inv_perm; [|exact I2]. solve_Permutation.
Qed.

Lemma finish_tail s0 a f f0 e (Q : unit → list token → Host → Prop) O :
  hs_heap s0 !! a = Some f0 → f_exit f0 = Some e → (∀ s, le s0 s → Q tt O s) →
  wp (if f_released f then mret tt else locked (modify (sendExit a e))) Q (owed f a ++ O) s0.
Proof.
  intros Ha He HQ. unfold owed. destruct (f_released f); [by apply HQ|].
  apply locked_wp_last. intros s F Hs HI. simpl. destruct (le_exit _ _ Hs a _ e Ha He) as (f' & Ha' & He').
  destruct (Inv_send foreign s a f' e (O ++ F) HI Ha' He') as [HI' Hle].
  exists O. split_and!; [done|done|set_solver|]. apply HQ. by etrans.
Qed.

Lemma neutral_finish s0 c a reason detail : neutral s0 (finish c a reason detail).
Proof.
  intros O s1 Q _ HQ. unfold finish. apply locked_wp. intros s F H1 HI.
  destruct (takeOut a reason detail s).1 as [f|] eqn:Et.
  - destruct (takeOut_step s (O ++ F) a reason detail f HI Et) as (Ha & HI' & Hle & Ha' & Hl). set (s2 := (takeOut a reason detail s).2) in *.
    exists (endTok a f ++ O). split_and!; [by rewrite <- (assoc_L (++))|done| |].
    { intros t [Ht|Ht]%elem_of_app Hst; [|eauto]. unfold endTok, owed, nameList in Ht. exfalso. repeat case_match; set_solver. }
    set (f2 := set_exit (mkFiberExit (f_id f) reason detail) f) in *.
    assert (le s1 s2) as L2 by (by etrans). clearbody s2. clear Et HI HI' H1 Hle Ha s F.
    unfold endTok. rewrite <- !(assoc_L (++)). change ((TEnd a :: owed f a) ++ O) with (TEnd a :: (owed f a ++ O)).
    assert (∀ n k V s3, le s2 s3 → (∀ s, le s2 s → wp (k tt) Q V s) →
      wp (freeName n (f_id f) ≫= k : prog Host call unit) Q ((TName a <$> nameList n) ++ V) s3) as Hfree
      by (intros n k V s3; by apply (free_token_wp s2 s3 a f2)).
    apply (neutral_seq s2); [destruct (f_relay f); neutral_auto|done|intros _ s3 L3].
    apply (neutral_seq s2); [apply neutral_noteIf|done|clear s3 L3; intros _ s3 L3].
    apply (Hfree (NSock (f_sock f))); [done|clear s3 L3; intros s3 L3].
    do 5 (apply (neutral_seq s2); [first [apply neutral_noteIf|apply neutral_note]|done|clear s3 L3; intros _ s3 L3]).
    assert (∀ V k, (∀ s, le s2 s → wp (k tt) Q V s) →
      wp ((if f_parked f then mret tt else freePort (f_port f) (f_id f)) ≫= k : prog Host call unit) Q
         ((if f_parked f then [] else TName a <$> nameList (NPort (f_port f))) ++ V) s3) as Hport.
    { intros V k Hk. destruct (f_parked f); [by apply Hk|]. by apply (Hfree (NPort (f_port f))). }
    apply Hport. clear Hport s3 L3. intros s3 L3.
    apply locked_wp. intros s F Hs HI. simpl. destruct (Inv_close foreign s a _ HI) as [HI' Hle].
    exists (owed f a ++ O). split_and!; [done|done|set_solver|].
    assert (le s2 (closeDone a s)) as L4 by (etrans; [done|by etrans]).
    destruct (le_exit _ _ L4 a f2 _ Ha' eq_refl) as (f4 & Ha4 & He4).
    apply (finish_tail _ a f f4); [done|done|]. intros s4 H4. apply HQ. by do 2 (etrans; [done|]).
  - exists O. assert ((takeOut a reason detail s).2 = s) as ->; [|split_and!; [done|done|eauto|apply HQ; by etrans]].
    unfold takeOut in *. repeat case_match; done.
Qed.
End runs.

(** The same search, for the operations built on these. *)
Ltac neutral_search :=
  repeat first
    [ apply neutral_ret | apply neutral_asked | apply neutral_note | apply neutral_noteIf | apply neutral_askIf
    | apply neutral_gets | apply neutral_deref | apply neutral_discard | apply neutral_awaited | apply neutral_finish
    | apply neutral_giveUp | apply neutral_killOrphan
    | apply neutral_bind; [|intros ? ? ?]
    | apply neutral_each; intros ? ? ?
    | case_match ].


Section verbs.
Context (foreign : string → bool).
Notation Inv := (Inv foreign).
Notation dead := (dead foreign).
Notation neutral := (neutral foreign).
Notation wp := (Threads.wp key static Inv le).

(** [p] runs on, from [s1] on, with the tokens it had. *)
Lemma neutral_wp {A R} s0 (p : prog Host call A) (k : A → prog Host call R) Q O :
  neutral s0 p → (∀ r s, le s0 s → wp (k r) Q O s) → wp (p ≫= k) Q O s0.
Proof. intros Hp Hk. apply bind_wp. by apply Hp. Qed.

Lemma neutral_last {R} s0 (p : prog Host call R) Q O : neutral s0 p → (∀ r s, le s0 s → Q r O s) → wp p Q O s0.
Proof. intros Hp HQ. by apply Hp. Qed.

(** ** Exits and Release *)

Lemma neutral_pumpExit s0 c id status : neutral s0 (pumpExit c id status).
Proof. unfold pumpExit. neutral_search. Qed.

Lemma neutral_warmGone s0 c uid i : neutral s0 (warmGone c uid i).
Proof.
  unfold warmGone. apply neutral_bind; [|intros; neutral_search]. apply neutral_pooled. intros s.
  unfold drainAll. repeat case_match; simplify_eq/=; done.
Qed.

(** What is only logged. *)
Lemma logged_step s U e : Inv s U → Inv (add_log e s) U ∧ le s (add_log e s).
Proof. apply same_tables; done. Qed.

(** A fiber the table names, marked released. *)
Lemma release_step s U id d :
  Inv s U →
  let '(r, s') := match hs_fibers s !! id with
                  | Some a => (Some a, add_log (EvAsked a) (on_fiber a (λ f, set_flags true (if d : bool then false else f_parked f) f) s))
                  | None => (None, s)
                  end in
  Inv s' U ∧ le s s' ∧ (r = None → hs_fibers s' !! id = None).
Proof.
  intros HI. destruct (hs_fibers s !! id) as [a|] eqn:E; [|done].
  destruct (inv_live _ _ _ HI _ _ E) as (f & Ha & _ & Hx).
  destruct (touch_step foreign s a (λ f, set_flags true (if d then false else f_parked f) f) U) as [HI' Hle]; [|done|].
  2: { destruct (logged_step _ U (EvAsked a) HI') as [? ?]. split_and!; [done|by etrans|done]. }
  intros g Hg. assert (g = f) as -> by congruence. repeat split; auto.
Qed.

(** A hold that keeps the tokens, then something neutral from where it left. *)
Lemma neutral_locked_bind {A R} s0 (f : St Host A) (k : A → prog Host call R) :
  (∀ s U, le s0 s → Inv s U → Inv (f s).2 U ∧ le s (f s).2 ∧ neutral (f s).2 (k (f s).1)) → neutral s0 (locked f ≫= k).
Proof.
  intros Hf O s1 Q H1 HQ. apply locked_wp. intros s F Hs HI. destruct (Hf s (O ++ F)) as (HI' & Hle & Hk); [by etrans|done|].
  exists O. split_and!; [done|done|eauto|]. apply Hk; [done|]. intros r s' H'. apply HQ. by do 2 (etrans; [done|]).
Qed.

Lemma neutral_Release s0 c id d : (d = true → foreign id = true ∨ born s0 id) → neutral s0 (Release c id d).
Proof.
  intros Hn. unfold Release. apply neutral_locked_bind. intros s U Hs HI. pose proof (release_step s U id d HI) as HR.
  destruct (hs_fibers s !! id) as [a|] eqn:E; destruct HR as (HI' & Hle & Hnone); (split_and!; [done|done|]); cbn [fst snd].
  - apply neutral_bind; [destruct d; apply neutral_ret|intros; neutral_search].
  - apply neutral_bind; [|intros; neutral_search]. destruct d; [|apply neutral_ret]. destruct (ParseFence id) as [fence|]; [|apply neutral_ret].
    apply neutral_freePorts. destruct (Hn eq_refl) as [?|Hb]; [by left|right].
    destruct (born_le _ _ _ Hs Hb) as (a & f & Ha & Hid). exists a, f. rewrite E. done.
Qed.

Lemma neutral_removeDelta s0 m :
  (∀ m', m = Some m' → m_Fence m' ≠ "" → dead s0 (m_Fence m')) → neutral s0 (removeDelta m).
Proof.
  intros Hd. unfold removeDelta. apply neutral_bind; [|intros; neutral_search]. destruct m as [m|]; [|apply neutral_ret].
  destruct (bool_decide_reflect (m_Fence m = "")); simpl; [apply neutral_ret|]. apply neutral_freePorts. by apply Hd.
Qed.

(** ** Park *)

Lemma mark_step s id F :
  Inv s (TPark id None :: F) →
  match markPark id s with
  | (Some (a, f), s') => Inv s' (TPark id (Some a) :: F) ∧ le s s' ∧ f_id f = id
  | (None, s') => s' = s
  end.
Proof.
  intros HI. unfold markPark. destruct (hs_fibers s !! id) as [a|] eqn:E; [|done].
  destruct (inv_live _ _ _ HI _ _ E) as (f & Ha & Hid & Hx). rewrite Ha.
  destruct (touch_step foreign s a (set_flags true true) (TPark id None :: F)) as [HI' Hle]; [|done|].
  { intros g Hg. assert (g = f) as -> by congruence. repeat split; auto. }
  destruct (logged_step _ _ (EvClaimed a) HI') as [HI2 Hle2].
  split_and!; [|by etrans|done]. eapply Inv_swap_park; [done|done| |exact HI2].
  exists (set_flags true true f). simpl. by rewrite lookup_alter_eq, Ha.
Qed.

Notation parkPost id := (λ _ O' _, ∃ oa, O' = [TPark id oa]).

Lemma unpark_wp s0 id a : wp (unpark a) (λ _ O' _, O' = [TPark id None]) [TPark id (Some a)] s0.
Proof.
  unfold unpark. apply locked_wp. intros s F Hs HI. simpl.
  destruct (inv_tok _ _ _ HI (TPark id (Some a))) as (f & Ha & Hid & Hr); [set_solver|]. rewrite Ha.
  destruct (logged_step _ _ (EvUnclaimed a) (Inv_unpark foreign s id a f F HI Ha)) as [HI' HleL].
  pose proof (transitivity (unmark_le s a) HleL) as HleU.
  assert (∀ t, t ∈ TPark id None :: (if f_exit f then [TOwe a] else []) → static (key t) →
    ∃ t', t' ∈ [TPark id (Some a)] ∧ key t' = key t) as Hst.
  { intros t Ht Hk. destruct (f_exit f); set_unfold; naive_solver. }
  exists (TPark id None :: (if f_exit f then [TOwe a] else [])). split_and!; [done|exact HleU|done|].
  destruct (f_exit f) as [e|] eqn:He; [|by apply neutral_last; [apply neutral_note|]].
  apply neutral_wp; [apply neutral_noteIf|]. intros _ s1 H1. apply locked_wp_last. intros s2 F2 H2 HI2. simpl.
  assert (le (unmark a s) s2) as L by (etrans; [exact HleL|by etrans]). destruct (unmark_fw s a a f Ha) as (f1 & Ha1 & _ & _ & He1 & _). rewrite He in He1.
  destruct (le_exit _ _ L a f1 e Ha1 He1) as (f2 & Ha2 & He2).
  destruct (Inv_send foreign s2 a f2 e (TPark id None :: F2)) as [HI3 Hle]; [|done|done|].
  - eapply Inv_perm; [|exact HI2]. simpl. apply Permutation_swap.
  - exists [TPark id None]. split_and!; [done|done|set_solver|done].
Qed.

Lemma unparked_wp s0 id a e : wp (unparked a e) (parkPost id) [TPark id (Some a)] s0.
Proof. unfold unparked. apply bind_wp. eapply wp_mono; [|apply unpark_wp]. intros _ O' s ->. by exists None. Qed.

(** Every way on from the mark: a failure unparks, the rest needs no token. *)
Lemma park_wp s0 c id sync : wp (Park c id sync) (parkPost id) [TPark id None] s0.
Proof.
  assert (∀ R s1 (p : prog Host call R), neutral s1 p → ∀ a, wp p (parkPost id) [TPark id (Some a)] s1) as Hn.
  { intros R s1 p Hp a. apply neutral_last; [done|]. eauto. }
  unfold Park. case_match; [by exists None|]. apply locked_wp. intros s F Hs HI. pose proof (mark_step s id F HI) as HM.
  destruct (markPark id s) as [[[a f]|] s']; simpl.
  2: { subst. exists [TPark id None]. split_and!; [done|done|set_solver|]. by exists None. }
  destruct HM as (HI' & Hle & Hid). exists [TPark id (Some a)]. split_and!; [done|done|set_solver|].
  destruct (ParseFence (f_id f)); [|by exists (Some a)].
  apply neutral_wp; [unfold holdSlice; neutral_search|]. intros [held|] s1 _; [|apply unparked_wp].
  apply neutral_wp; [neutral_search|]. intros sized s2 _. case_match; [apply unparked_wp|].
  apply neutral_wp; [neutral_search|]. intros over s3 _. case_match; [apply unparked_wp|].
  apply neutral_wp; [neutral_search|]. intros slice s4 _.
  apply neutral_wp; [neutral_search|]. intros saved s5 _. case_match; [apply unparked_wp|].
  unfold parkDump.
  apply neutral_wp; [neutral_search|]. intros opened s6 _. case_match; [apply unparked_wp|].
  apply neutral_wp; [neutral_search|]. intros dumped s7 _. case_match; [apply unparked_wp|].
  apply neutral_wp; [neutral_search|]. intros placed s8 _. case_match; [apply unparked_wp|].
  apply neutral_wp; [neutral_search|]. intros _ s9 _.
  apply neutral_wp; [neutral_search|]. intros written s10 _. case_match; [destruct sync; [apply unparked_wp|apply Hn, neutral_ret]|].
  destruct sync; [|apply Hn; unfold awaitExit; neutral_search].
  apply neutral_wp; [neutral_search|]. intros durable s11 _. case_match; [apply unparked_wp|].
  apply Hn. unfold awaitExit. neutral_search.
Qed.
End verbs.
