(* ===== verification/HostBirths.v ===== *)
(** * Births: start, resume and Clone keep the invariant of the host's tables *)

From S2P Require Import Prelude GoLib Fence Errors Grant Ledger Runtime Threads Host HostInv HostSteps HostRuns.
From stdpp Require Import options.

Lemma no_names p q ns :
  ns ⊆ sockNames q ++ portNames p → (real (NSock q) → NSock q ∉ ns) → (real (NPort p) → NPort p ∉ ns) → ns = [].
Proof.
  intros Hsub Hq Hp. destruct ns as [|n ns]; [done|]. exfalso. assert (n ∈ sockNames q ++ portNames p) as Hn by set_solver.
  unfold sockNames, portNames in Hn. apply elem_of_app in Hn as [Hn|Hn]; case_match; breflect; try set_solver.
  - apply list_elem_of_singleton in Hn as ->. apply Hq; [split; congruence|set_solver].
  - apply list_elem_of_singleton in Hn as ->. apply Hp; [split; congruence|set_solver].
Qed.

Section births.
Context (foreign : string → bool) (c : HostConfig).
Notation Inv := (Inv foreign).
Notation dead := (dead foreign).
Notation neutral := (neutral foreign).
Notation wp := (Threads.wp key static Inv le).

(** A token exchanged for one of the same key. *)
Lemma static_one t t' x : key t' = key t → x ∈ [t] → static (key x) → ∃ y, y ∈ [t'] ∧ key y = key x.
Proof. intros E ->%list_elem_of_singleton _. exists t'. split; [by apply list_elem_of_singleton|done]. Qed.

Ltac solve_one := intros ? ? ?; eapply static_one; [|eassumption|eassumption]; reflexivity.

(** ** Taking names *)

Lemma freeFrom_spec ports lo n p : freeFrom ports lo n = Some p → ports !! p = None ∧ (lo ≤ p)%Z.
Proof.
  revert lo. induction n as [|n IH]; intros lo; simpl; [done|]. destruct (ports !! lo) eqn:E.
  - intros H%IH. split; [by apply H|lia].
  - intros [= <-]. split; [done|lia].
Qed.

Lemma alloc_step s id want p : (1 ≤ hc_lo c)%Z →
  (allocPort c id want s).1 = inl p →
  p ≠ 0%Z ∧ (hs_ports s !! p = None ∨ hs_ports s !! p = Some id) ∧ (allocPort c id want s).2 = set_ports (insert p id) s.
Proof.
  intros Hlo. unfold allocPort. destruct (bool_decide_reflect (want = 0%Z)); simpl.
  - destruct (freeFrom _ _ _) as [q|] eqn:E; [|done]. simpl. intros [= <-]. destruct (freeFrom_spec _ _ _ _ E). split_and!; [lia|by left|done].
  - destruct (hs_ports s !! want) as [h|] eqn:E; [destruct (bool_decide_reflect (h = id)) as [->|]|]; simpl; intros [= <-]; auto.
Qed.

Lemma alloc_fail s id want e : (allocPort c id want s).1 = inr e → (allocPort c id want s).2 = s.
Proof. unfold allocPort. repeat case_match; done. Qed.

Lemma alloc_wp s0 id want ns Q : (1 ≤ hc_lo c)%Z →
  (∀ p s, le s0 s → p ≠ 0%Z → Q (inl p) [TBirth id (NPort p :: ns)] s) → (∀ e s, le s0 s → Q (inr e) [TBirth id ns] s) →
  wp (locked (allocPort c id want)) Q [TBirth id ns] s0.
Proof.
  intros Hlo Hp He. apply locked_wp_last. intros s F Hs HI. destruct (allocPort c id want s).1 as [p|e] eqn:E.
  - destruct (alloc_step s id want p Hlo E) as (Hz & Hh & E'). rewrite E'.
    exists [TBirth id (NPort p :: ns)]. split_and!; [|by apply same_objects_le|solve_one|apply Hp; [etrans; [done|by apply same_objects_le]|done]].
    apply (Inv_take foreign s); [done|done|by split; congruence|done| |].
    + simpl. by rewrite lookup_insert_eq.
    + intros [p'|q] Hne; simpl; [|done]. rewrite lookup_insert_ne; [done|congruence].
  - rewrite (alloc_fail s id want e E). exists [TBirth id ns]. split_and!; [done|done|solve_one|by apply He].
Qed.

Lemma claim_wp s0 id sock ns Q :
  (∀ s, le s0 s → Q None [TBirth id (sockNames sock ++ ns)] s) → (∀ e s, le s0 s → Q (Some e) [TBirth id ns] s) →
  wp (claimIf sock id) Q [TBirth id ns] s0.
Proof.
  intros Ht He. unfold claimIf, sockNames in *. destruct (bool_decide_reflect (sock = "")) as [|Hne]; [by apply Ht|].
  assert (∀ s F, le s0 s → Inv s ([TBirth id ns] ++ F) → hs_socks s !! sock = None ∨ hs_socks s !! sock = Some id →
    Inv (set_socks (insert sock id) s) ([TBirth id ([NSock sock] ++ ns)] ++ F)) as Htake.
  { intros s F Hs HI Hh. apply (Inv_take foreign s); [done|done|by split; congruence|done| |].
    - simpl. by rewrite lookup_insert_eq.
    - intros [p|q] Hq; simpl; [done|]. rewrite lookup_insert_ne; [done|congruence]. }
  apply locked_wp_last. intros s F Hs HI. unfold claimSocket.
  assert (∀ g, le s0 (set_socks g s)) as Hle by (intros g; etrans; [done|by apply same_objects_le]).
  destruct (hs_socks s !! sock) as [h|] eqn:E; [destruct (bool_decide_reflect (h = id)) as [->|]|]; cbn [fst snd].
  - exists [TBirth id ([NSock sock] ++ ns)]. split_and!; [apply Htake; auto|by apply same_objects_le|solve_one|by apply Ht].
  - exists [TBirth id ns]. split_and!; [done|done|solve_one|by apply He].
  - exists [TBirth id ([NSock sock] ++ ns)]. split_and!; [apply Htake; auto|by apply same_objects_le|solve_one|by apply Ht].
Qed.

(** ** Giving them back *)

Lemma free_birth_wp s0 id n ns Q :
  (∀ ns' s, le s0 s → ns' ⊆ ns → (real n → n ∉ ns') → Q tt [TBirth id ns'] s) → wp (freeName n id) Q [TBirth id ns] s0.
Proof.
  intros HQ. destruct (decide (n ≠ NPort 0 ∧ n ≠ NSock "")) as [Hr|Hr]; [|rewrite freeName_none by done; by apply HQ].
  rewrite freeName_real by done. apply locked_wp_last. intros s F Hs HI. simpl.
  destruct (freedName_spec n id s) as (H1 & H2 & H3 & H4).
  exists [TBirth id (filter (.≠ n) ns)].
  split_and!; [|by apply same_objects_le|solve_one|apply HQ; [etrans; [done|by apply same_objects_le]| |]].
  2: { intros x [_ ?]%list_elem_of_filter. done. }
  2: { intros _ [? _]%list_elem_of_filter. done. }
  apply (Inv_give foreign s _ id ns); [done|done|done| |].
  - intros n' [? ?]%list_elem_of_filter. auto.
  - intros n' Hin Hout. destruct (decide (n' = n)) as [->|]; [done|]. destruct Hout. by apply list_elem_of_filter.
Qed.

(** The tokens a birth holds once it has its port and its socket. *)
Notation births id port sock := [TBirth id (sockNames sock ++ portNames port)].

Lemma free_port_wp s0 {R} id port (k : unit → prog Host call R) Q :
  (∀ s, le s0 s → wp (k tt) Q [TBirth id []] s) → wp (freePort port id ≫= k) Q [TBirth id (portNames port)] s0.
Proof.
  intros Hk. apply bind_wp. apply (free_birth_wp s0 id (NPort port)). intros ns' s Hs Hsub Hn.
  rewrite (no_names port "" ns'); [by apply Hk|done|by intros [_ ?]|done].
Qed.

Lemma free_both_wp s0 {R} id port sock (k : unit → prog Host call R) Q :
  (∀ s, le s0 s → wp (k tt) Q [TBirth id []] s) → wp (_ ← freeSocket sock id; freePort port id ≫= k) Q (births id port sock) s0.
Proof.
  intros Hk. apply bind_wp. apply (free_birth_wp s0 id (NSock sock)). intros ns1 s1 H1 Hsub1 Hn1.
  apply bind_wp. apply (free_birth_wp s1 id (NPort port)). intros ns2 s2 H2 Hsub2 Hn2.
  rewrite (no_names port sock ns2); [apply Hk; by etrans|set_solver|set_solver|done].
Qed.

Lemma giveBack_wp s0 {R} rl ws id port sock (k : unit → prog Host call R) Q :
  (∀ s, le s0 s → wp (k tt) Q [TBirth id []] s) → wp (giveBackNames rl ws sock port id ≫= k) Q (births id port sock) s0.
Proof.
  intros Hk. unfold giveBackNames. apply bind_wp.
  apply neutral_wp; [apply neutral_noteIf|]. intros _ s1 H1. apply neutral_wp; [apply neutral_noteIf|]. intros _ s2 H2.
  apply bind_wp. apply (free_birth_wp s2 id (NSock sock)). intros ns1 s3 H3 Hsub1 Hn1.
  apply (free_birth_wp s3 id (NPort port)). intros ns2 s4 H4 Hsub2 Hn2.
  rewrite (no_names port sock ns2); [apply Hk; by do 3 (etrans; [done|])|set_solver|set_solver|done].
Qed.

(** ** The birth itself *)

Lemma mret_wp {R} (r : R) (Q : R → list token → Host → Prop) O s : Q r O s → wp (mret r : prog Host call R) Q O s.
Proof. done. Qed.

Definition birthOwed (id : string) (O : list token) : Prop := O = [TBirth id []] ∨ ∃ a, O = [TBorn id a].

Lemma register_wp {R} s0 f ns (k : nat → prog Host call R) Q :
  (∀ n, n ∈ names f ↔ n ∈ ns) → f_exit f = None →
  (∀ a s, le s0 s → hs_heap s !! a = Some f → wp (k a) Q [TBorn (f_id f) a] s) →
  wp (locked (register f) ≫= k) Q [TBirth (f_id f) ns] s0.
Proof.
  intros Hns Hx Hk. apply locked_wp. intros s F Hs HI. unfold register. cbn [fst snd].
  exists [TBorn (f_id f) (hs_next s)]. pose proof (reg_le foreign s _ f HI) as Hle. split_and!; [|done|solve_one|].
  - by apply (Inv_register foreign s (f_id f) ns).
  - apply Hk; [by etrans|]. simpl. by rewrite lookup_insert_eq.
Qed.

(** A failed birth gives back what it holds, unless another ended it first. *)
Lemma unborn_wp {R} s0 a f f0 (k : unit → prog Host call R) Q :
  hs_heap s0 !! a = Some f0 → f_id f0 = f_id f → names f0 = names f → (∀ s, le s0 s → wp (k tt) Q [TBirth (f_id f) []] s) → wp (unborn a f ≫= k) Q [TBorn (f_id f) a] s0.
Proof.
  intros Ha Hid0 Hns0 Hk. apply bind_wp. unfold unborn. apply locked_wp. intros s F Hs HI. unfold modify. cbn [fst snd].
  destruct (le_heap _ _ Hs a f0 Ha) as (f1 & Ha1 & Hid & Hns). rewrite Hid0 in Hid. rewrite Hns0 in Hns. clear f0 Ha Hid0 Hns0.
  unfold unregister. destruct (bool_decide_reflect (hs_fibers s !! f_id f = Some a)) as [Hl|Hl].
  - set (s1 := delist (f_id f) s). change (set_fibers (delete (f_id f)) s) with s1.
    pose proof (Inv_delist foreign s _ (f_id f) a f1 HI Hl Ha1) as I1. fold s1 in I1.
    assert (le s s1) as Hle by apply delist_le. assert (hs_fibers s1 !! f_id f ≠ Some a) as Hl1 by (simpl; by rewrite lookup_delete_eq).
    rewrite Hns, names_split, fmap_app in I1.
    exists ((TName a <$> nameList (NSock (f_sock f))) ++ (TName a <$> nameList (NPort (f_port f))) ++ [TBirth (f_id f) []]).
    split_and!; [|done| |].
    + eapply Inv_perm; [|eapply (Inv_reborn foreign s1 (f_id f) a f1); [|done|by left]].
      2: { eapply Inv_perm; [|exact I1]. simpl. by rewrite Permutation_middle. }
      solve_Permutation.
    + intros t Ht Hst. exists (TBorn (f_id f) a). split; [set_solver|].
      apply elem_of_app in Ht as [(? & -> & _)%list_elem_of_fmap|Ht]; [done|].
      apply elem_of_app in Ht as [(? & -> & _)%list_elem_of_fmap| ->%list_elem_of_singleton]; done.
    + assert (le s0 s1) as L1 by (by etrans). assert (hs_heap s1 !! a = Some f1) as Ha2 by done. clearbody s1. rewrite <- Hid in Hl1 |- *.
      apply (neutral_seq foreign s1); [apply neutral_noteIf|done|intros _ s2 L2].
      apply (neutral_seq foreign s1); [apply neutral_noteIf|done|clear s2 L2; intros _ s2 L2].
      apply (free_token_wp foreign s1 s2 a f1 (NSock (f_sock f))); [done..|]. clear s2 L2. intros s2 L2.
      apply (free_token_wp foreign s1 s2 a f1 (NPort (f_port f))); [done..|]. clear s2 L2. intros s2 L2.
      apply neutral_last; [neutral_search|]. intros [] s3 L3. rewrite Hid. apply Hk. by do 2 (etrans; [done|]).
  - exists [TBirth (f_id f) []]. assert (dead s (f_id f)) as Hd by (right; by exists a, f1).
    split_and!; [|done|solve_one|].
    + apply (Inv_reborn foreign s (f_id f) a f1); [done|done|by left].
    + apply (neutral_seq foreign s); [apply neutral_noteIf|done|intros _ s2 L2].
      apply (neutral_seq foreign s); [apply neutral_noteIf|done|clear s2 L2; intros _ s2 L2].
      apply (neutral_seq foreign s); [apply (neutral_freeName foreign _ (NSock _)); by eapply dead_le|done|clear s2 L2; intros _ s2 L2].
      apply (neutral_seq foreign s); [apply (neutral_freeName foreign _ (NPort _)); by eapply dead_le|done|clear s2 L2; intros _ s2 L2].
      apply neutral_last; [neutral_search|]. intros [] s3 L3. apply Hk. by do 2 (etrans; [done|]).
Qed.

(** Once the backend has answered: only a handoff fiber's routing can fail. *)
Lemma hatch_wp s0 a f O :
  wp (hatch c a f) (λ r O' s, O' = O ∧ le s0 s ∧ (∀ e, r = inr e → f_handoff f = true)) O s0.
Proof.
  unfold hatch. apply neutral_wp.
  { apply neutral_locked. intros s U _ HI. apply touch_step; [|done]. intros g _. repeat split; auto. }
  intros _ s1 H1. unfold route. destruct (f_handoff f) eqn:Eh; [destruct (hc_router c)|]; cbn [andb negb].
  - apply bind_wp, bind_wp. intros b. apply mret_wp. destruct b; cbv beta iota.
    + apply (neutral_wp foreign s1 (locked _)); [|intros _ s2 H2; split_and!; [done|by etrans|done]].
      apply neutral_locked. intros s U _ HI. apply touch_step; [|done]. intros g _. repeat split; auto.
    + apply neutral_wp; [by apply neutral_Release|]. intros _ s2 H2. split_and!; [done|by etrans|done].
  - apply (neutral_wp foreign s1 (locked _)); [|intros _ s2 H2; split_and!; [done|by etrans|done]].
    apply neutral_locked. intros s U _ HI. apply touch_step; [|done]. intros g _. repeat split; auto.
  - apply (neutral_wp foreign s1 (locked _)); [|intros _ s2 H2; split_and!; [done|by etrans|done]].
    apply neutral_locked. intros s U _ HI. apply touch_step; [|done]. intros g _. repeat split; auto.
Qed.

(** ** start *)

Context (Hlo : (1 ≤ hc_lo c)%Z).

Lemma mint_wp s0 f Q :
  (∀ u b p s, le s0 s → Q (inl (u, b, p)) [TBirth (Fence_String f) (portNames p)] s) →
  (∀ e s, le s0 s → Q (inr e) [TBirth (Fence_String f) []] s) →
  wp (mintEndpoint c f) Q [TBirth (Fence_String f) []] s0.
Proof using Hlo.
  intros Hok Herr. unfold mintEndpoint. destruct (hc_unix c); [by apply mret_wp, Hok|].
  apply bind_wp. apply alloc_wp; [done| |].
  - intros p s Hs Hp. apply mret_wp. replace [NPort p] with (portNames p); [by apply Hok|]. unfold portNames. by rewrite bool_decide_eq_false_2.
  - intros e s Hs. apply mret_wp. by apply Herr.
Qed.

(** A handoff birth takes no name. *)
Lemma birthEndpoint_wp s0 spec Q :
  (∀ u b p s, le s0 s → (PEndpointMode (GPolicy (cs_Grant spec)) = EndpointHandoff → u = NoEndpoint ∧ p = 0%Z) →
     Q (inl (u, b, p)) [TBirth (Fence_String (cs_Fence spec)) (portNames p)] s) →
  (∀ e s, le s0 s → Q (inr e) [TBirth (Fence_String (cs_Fence spec)) []] s) →
  wp (birthEndpoint c spec) Q [TBirth (Fence_String (cs_Fence spec)) []] s0.
Proof using Hlo.
  intros Hok Herr. unfold birthEndpoint. destruct (bool_decide_reflect (PEndpointMode (GPolicy (cs_Grant spec)) = EndpointHandoff)) as [E|E].
  - destruct (hc_canHandoff c); cbn [negb]; [|by apply mret_wp, Herr]. apply bind_wp. intros b. apply mret_wp. apply mret_wp.
    destruct b; [by apply (Hok _ _ 0%Z)|by apply Herr].
  - apply mint_wp; [|done]. intros u b p s Hs. by apply Hok.
Qed.

(** What start leaves its thread with. *)
Definition startPost (id : string) (r : (FiberHandle + herr) * bool) (O : list token) (s : Host) : Prop :=
  O = [TBirth id []] ∨
  ∃ a, O = [TBorn id a] ∧ (∀ e, r.1 = inr e → ∃ f, hs_heap s !! a = Some f ∧ names f = []).

Lemma names_mk f p q : f_port f = p → f_sock f = q → ∀ n, n ∈ names f ↔ n ∈ sockNames q ++ portNames p.
Proof using. intros <- <- n. unfold names. rewrite !elem_of_app. tauto. Qed.

Lemma start_wp s0 z spec p :
  wp (start c z spec p) (startPost (Fence_String (cs_Fence spec))) [TBirth (Fence_String (cs_Fence spec)) []] s0.
Proof using Hlo.
  set (id := Fence_String (cs_Fence spec)).
  assert (∀ r s q, wp (_ ← giveUp z q id; mret r) (startPost id) [TBirth id []] s) as Hgive.
  { intros r s q. apply neutral_wp; [apply neutral_giveUp|]. intros _ s1 _. by left. }
  unfold start. fold id. apply neutral_wp; [apply neutral_askIf|]. intros leaf s1 _. case_match; [by left|].
  apply neutral_wp; [apply neutral_asked|]. intros opened s2 _. case_match; [apply Hgive|].
  apply neutral_wp; [apply neutral_asked|]. intros made s3 _. case_match; [apply Hgive|].
  apply bind_wp. apply birthEndpoint_wp; fold id; [|intros e s4 _; apply Hgive].
  intros url bind port s4 _ Hhand. cbv beta iota. set (sock := birthSock c url bind port).
  apply bind_wp. apply claim_wp; [|intros e s5 _; apply free_port_wp; intros s6 _; apply Hgive]. intros s5 _.
  apply neutral_wp; [apply neutral_askIf|]. intros listens s6 _. case_match; [apply free_both_wp; intros s7 _; apply Hgive|].
  apply neutral_wp; [apply neutral_askIf|]. intros made2 s7 _. case_match; [apply giveBack_wp; intros s8 _; apply Hgive|].
  apply neutral_wp; [apply neutral_asked|]. intros leafed s8 _. case_match; [apply giveBack_wp; intros s9 _; apply Hgive|].
  set (f := mkFiber id _ _ _ _ _ _ _ _ _ _ _ _ _ _ _ _ _ _ _).
  apply (register_wp s8 f (sockNames sock ++ portNames port)); [by apply names_mk|done|]. intros a s9 _ Ha.
  apply neutral_wp; [apply neutral_asked|]. intros born s10 H10. destruct (le_heap _ _ H10 a f Ha) as (f10 & Ha10 & Hid & Hns).
  case_match.
  - apply neutral_wp; [apply neutral_askIf|]. intros pressure s11 H11.
    destruct (le_heap _ _ H11 a f10 Ha10) as (f11 & Ha11 & Hid' & Hns').
    apply (unborn_wp s11 a f f11); [done|congruence|congruence|]. intros s12 _. by left.
  - apply bind_wp. eapply wp_mono; [|apply hatch_wp]. intros r O' s11 (-> & H11 & Hh). right. exists a. split; [done|].
    intros e He. destruct (le_heap _ _ H11 a f10 Ha10) as (f11 & ? & _ & ?). exists f11. split; [done|].
    replace (names f11) with (names f) by congruence. apply Hh in He. simpl in He. apply bool_decide_eq_true_1 in He.
    destruct (Hhand He) as [-> ->]. unfold names. simpl. unfold sock, birthSock. simpl. by destruct (hc_relay c).
Qed.

(** ** resume *)

Lemma resumePort_wp s0 id m want Q :
  foreign (m_Fence m) = true ∨ born s0 (m_Fence m) →
  (∀ p s, le s0 s → p ≠ 0%Z → Q (inl p) [TBirth id [NPort p]] s) → (∀ e s, le s0 s → Q (inr e) [TBirth id []] s) →
  wp (resumePort c id m want) Q [TBirth id []] s0.
Proof using Hlo.
  intros Hn Hok Herr. unfold resumePort.
  assert (∀ s1 r, le s0 s1 → match r with inl p => p ≠ 0%Z | inr _ => True end →
    wp (match r with inl p => mret (inl p) | inr e => if m_Relay m <>? "" then locked (allocPort c id 0) else mret (inr e) end) Q
       [TBirth id (match r with inl p => [NPort p] | inr _ => [] end)] s1) as Hrest.
  { intros s1 [p|e] H1 Hp; [by apply mret_wp, Hok|]. case_match; [|by apply mret_wp, Herr].
    apply alloc_wp; [done| |]; intros ? s2 H2; [apply Hok|apply Herr]; by etrans. }
  apply bind_wp. apply alloc_wp; [done| |].
  - intros p s1 H1 Hp. by apply (Hrest s1 (inl p)).
  - intros e s1 H1. apply bind_wp, bind_wp. apply locked_wp_last. intros s F Hs HI. exists [TBirth id []].
    unfold gets. cbn [fst snd]. split_and!; [done|done|solve_one|]. assert (le s0 s) as L by (by etrans).
    destruct (bool_decide_reflect (is_Some (hs_fibers s !! m_Fence m))) as [Hl|Hl]; [by apply (Hrest s (inr e))|].
    assert (dead s (m_Fence m)) as Hd.
    { destruct Hn as [?|Hb]; [by left|right]. destruct (born_le _ _ _ L Hb) as (a & f & Ha & Hid). exists a, f. split_and!; [done|done|].
      intros E. apply Hl. eauto. }
    apply (neutral_seq foreign s); [by apply (neutral_freeName foreign _ (NPort _))|done|]. intros _ s2 H2.
    apply alloc_wp; [done| |].
    + intros p s3 H3 Hp. apply (Hrest s3 (inl p)); [by do 2 (etrans; [done|])|done].
    + intros e' s3 H3. apply (Hrest s3 (inr e')); [by do 2 (etrans; [done|])|done].
Qed.

Lemma resumeEndpoint_wp s0 spec m Q :
  foreign (m_Fence m) = true ∨ born s0 (m_Fence m) →
  (∀ u b p s, le s0 s → Q (inl (u, b, p)) [TBirth (Fence_String (cs_Fence spec)) (portNames p)] s) →
  (∀ e s, le s0 s → Q (inr e) [TBirth (Fence_String (cs_Fence spec)) []] s) →
  wp (resumeEndpoint c spec m) Q [TBirth (Fence_String (cs_Fence spec)) []] s0.
Proof using Hlo.
  intros Hn Hok Herr. unfold resumeEndpoint. destruct (m_Handoff m).
  { destruct (hc_canHandoff c); cbn [negb]; [|by apply mret_wp, Herr]. apply bind_wp. intros b. apply mret_wp, mret_wp.
    destruct b; [by apply (Hok _ _ 0%Z)|by apply Herr]. }
  destruct (m_Endpoint m) as [[|p|want|]|]; try by apply mret_wp, Herr.
  { destruct (hc_unix c); cbn [negb]; [by apply mret_wp, (Hok _ _ 0%Z)|by apply mret_wp, Herr]. }
  case_match; [by apply mret_wp, Herr|]. case_match; [by apply mret_wp, Herr|].
  apply bind_wp. apply resumePort_wp; [done| |].
  - intros p s Hs Hp. apply mret_wp. replace [NPort p] with (portNames p); [by apply Hok|]. unfold portNames. by rewrite bool_decide_eq_false_2.
  - intros e s Hs. by apply mret_wp, Herr.
Qed.

Lemma resume_wp s0 spec m :
  foreign (m_Fence m) = true ∨ born s0 (m_Fence m) →
  wp (resume c spec m) (λ _ O _, birthOwed (Fence_String (cs_Fence spec)) O) [TBirth (Fence_String (cs_Fence spec)) []] s0.
Proof using Hlo.
  set (id := Fence_String (cs_Fence spec)). intros Hn.
  assert (∀ (r : FiberHandle + herr) s, wp (_ ← note (EvLeafGone id); mret r) (λ _ O _, birthOwed id O) [TBirth id []] s) as Hgive.
  { intros r s. apply neutral_wp; [apply neutral_note|]. intros _ s1 _. by left. }
  unfold resume. fold id. case_match; [by left|].
  apply neutral_wp; [apply neutral_asked|]. intros ? s1 L1. case_match; [by left|]. case_match; [by left|].
  apply neutral_wp; [apply neutral_askIf|]. intros ? s2 L2. case_match; [by left|].
  apply neutral_wp; [apply neutral_asked|]. intros ? s3 L3. case_match; [by left|].
  apply neutral_wp; [apply neutral_askIf|]. intros ? s4 L4. case_match; [by left|].
  apply neutral_wp; [apply neutral_asked|]. intros ? s5 L5. case_match; [by left|].
  apply neutral_wp; [apply neutral_asked|]. intros ? s6 L6. case_match; [apply Hgive|].
  assert (foreign (m_Fence m) = true ∨ born s6 (m_Fence m)) as Hn6.
  { destruct Hn as [?|Hb]; [by left|right]. eapply born_le; [|exact Hb]. by do 5 (etrans; [done|]). }
  apply bind_wp. apply resumeEndpoint_wp; [done| |intros e s7 _; apply Hgive]. fold id. intros url bind port s7 _. cbv beta iota.
  destruct (parkedBirth m) as [birth|]; [|apply free_port_wp; intros s8 _; apply Hgive].
  set (sock := resumeSock c m bind).
  apply bind_wp. apply claim_wp; [|intros e s8 _; apply free_port_wp; intros s9 _; apply Hgive]. intros s8 _.
  apply neutral_wp; [apply neutral_noteIf|]. intros _ s9 _.
  apply neutral_wp; [apply neutral_askIf|]. intros ? s10 _. case_match; [apply free_both_wp; intros s11 _; apply Hgive|].
  apply neutral_wp; [apply neutral_asked|]. intros ? s11 _. case_match; [apply giveBack_wp; intros s12 _; apply Hgive|].
  apply neutral_wp; [apply neutral_asked|]. intros slice s12 _.
  apply neutral_wp; [neutral_search|]. intros ? s13 _. case_match; [apply giveBack_wp; intros s14 _; apply Hgive|].
  apply neutral_wp; [apply neutral_askIf|]. intros ? s14 _. case_match; [apply giveBack_wp; intros s15 _; apply Hgive|].
  apply neutral_wp; [apply neutral_askIf|]. intros ? s15 _.
  case_match; [apply neutral_wp; [apply neutral_note|]; intros _ s16 _; apply giveBack_wp; intros s17 _; apply Hgive|].
  apply neutral_wp; [apply neutral_asked|]. intros ? s16 _.
  case_match; [apply neutral_wp; [apply neutral_note|]; intros _ s17 _; apply giveBack_wp; intros s18 _; apply Hgive|].
  set (f := mkFiber id _ _ _ _ _ _ _ _ _ _ _ _ _ _ _ _ _ _ _).
  apply (register_wp s16 f (sockNames sock ++ portNames port)); [by apply names_mk|done|]. intros a s17 _ Ha.
  apply neutral_wp; [apply neutral_asked|]. intros born s18 L18. destruct (le_heap _ _ L18 a f Ha) as (f18 & Ha18 & Hid & Hns).
  case_match.
  - apply neutral_wp; [apply neutral_asked|]. intros pressure s19 L19.
    destruct (le_heap _ _ L19 a f18 Ha18) as (f19 & Ha19 & Hid' & Hns').
    apply (unborn_wp s19 a f f19); [done|congruence|congruence|]. intros s20 _.
    apply neutral_wp; [apply neutral_noteIf|]. intros _ s21 _. by left.
  - eapply wp_mono; [|apply hatch_wp]. intros res O' s19 (-> & L19 & Hh). right. by exists a.
Qed.

(** ** Clone *)

Lemma cloneWarm_wp s0 z spec :
  wp (cloneWarm c z spec) (λ _ O _, birthOwed (Fence_String (cs_Fence spec)) O) [TBirth (Fence_String (cs_Fence spec)) []] s0.
Proof using Hlo.
  set (id := Fence_String (cs_Fence spec)).
  assert (∀ s, wp (r ← start c z spec None; mret r.1) (λ _ O _, birthOwed id O) [TBirth id []] s) as Hfresh.
  { intros s. apply bind_wp. eapply wp_mono; [|apply start_wp]. intros r O s' [->|(a & -> & _)]; [by left|right; by exists a]. }
  unfold cloneWarm. apply neutral_wp; [apply neutral_takePooled|]. intros [p|] s1 _; [|apply Hfresh].
  apply bind_wp. eapply wp_mono; [|apply start_wp]. fold id. intros [r spent] O s2 HP.
  assert (∀ (x : FiberHandle + herr), wp (mret x : prog Host call _) (λ _ O _, birthOwed id O) O s2) as Hret.
  { intros x. apply mret_wp. destruct HP as [->|(a & -> & _)]; [by left|right; by exists a]. }
  destruct r as [h|e]; [apply Hret|]. destruct spent; [|apply Hret].
  assert (∀ s3, le s2 s3 → wp (r ← start c z spec None; mret r.1) (λ _ O _, birthOwed id O) O s3) as Hagain.
  { intros s3 H3. destruct HP as [->|(a & -> & Hz)]; [apply Hfresh|]. destruct (Hz e eq_refl) as (f & Ha & Hns).
    apply wp_shift with (O' := [TBirth id []]); [apply _| |solve_one| |apply Hfresh].
    - intros s F Hs HI. assert (le s2 s) as L by (by etrans). destruct (le_heap _ _ L a f Ha) as (f' & Ha' & _ & Hns').
      apply (Inv_reborn foreign s id a f'); [done|done|right; congruence].
    - intros _ s _ _. right. by exists a. }
  apply (neutral_seq foreign s2); [apply neutral_askIf|done|]. intros left' s3 H3.
  case_match; [apply mret_wp; destruct HP as [->|(a & -> & _)]; [by left|right; by exists a]|].
  apply (neutral_seq foreign s2); [apply neutral_asked|done|]. intros canceled s4 H4.
  case_match; [apply mret_wp; destruct HP as [->|(a & -> & _)]; [by left|right; by exists a]|]. by apply Hagain.
Qed.

Lemma Clone_wp s0 spec m :
  (cs_Source spec = SourceDelta → foreign (m_Fence m) = true ∨ born s0 (m_Fence m)) →
  wp (Clone c spec m) (λ _ O _, birthOwed (Fence_String (cs_Fence spec)) O) [TBirth (Fence_String (cs_Fence spec)) []] s0.
Proof using Hlo.
  intros Hn. unfold Clone. destruct (cs_Source spec).
  - apply neutral_wp; [apply neutral_gets|]. intros [z|] s1 _; [apply cloneWarm_wp|].
    apply neutral_wp; [apply neutral_asked|]. intros ok s2 _. case_match; [by left|].
    apply neutral_wp; [apply neutral_gets|]. intros [z|] s3 _; [apply cloneWarm_wp|by left].
  - apply bind_wp. eapply wp_mono; [|apply resume_wp; auto]. intros [h|e] O s1 HO; [done|]. case_match; [done|].
    apply neutral_wp; [apply neutral_asked|]. intros _ s2 _. done.
Qed.
End births.
