(* ===== verification/HostFacts.v ===== *)
(** * What the host runtime promises

    The jobs that run against the runtime (the core's verbs, the backend's
    exits, the refill, the executioner) as threads of a pool; the claims over
    every interleaving of those [may] lets start, with concrete homes for their witnesses, and the
    runs that show where the code lets a port go or keeps one. *)

From S2P Require Import Prelude GoLib Fence Errors Grant Ledger Runtime Threads Host HostInv HostSteps HostRuns HostBirths.
From stdpp Require Import options.

(** ** The jobs *)

Inductive job :=
| JClone (spec : CloneSpec) (m : manifest)
| JPark (id : string) (sync : bool)
| JRelease (id : string) (discard : bool)
| JDiscardDelta (m : option manifest)
| JExit (id status : string)
| JWarmGone (uid : string) (instance : N)
| JPooledGone (p : string)
| JDropTemplate (uid : string)
| JPublish (uid : string) (instance : N)
| JFill (uid p : string)
| JDrain (uid : string) (n : Z)
| JEnforce (id why : string).

Definition body (c : HostConfig) (j : job) : prog Host call unit :=
  match j with
  | JClone spec m => _ ← Clone c spec m; mret tt
  | JPark id sync => _ ← Park c id sync; mret tt
  | JRelease id d => _ ← Release c id d; mret tt
  | JDiscardDelta m => _ ← removeDelta m; mret tt
  | JExit id status => pumpExit c id status
  | JWarmGone uid i => warmGone c uid i
  | JPooledGone p => pooledGone p
  | JDropTemplate uid => DropTemplate uid
  | JPublish uid i => locked (publish uid i)
  | JFill uid p => _ ← Fill uid p; mret tt
  | JDrain uid n => _ ← Drain uid n; mret tt
  | JEnforce id why => enforceFiber id why
  end.

Definition jobTok (j : job) : list token :=
  match j with
  | JClone spec _ => [TBirth (Fence_String (cs_Fence spec)) []]
  | JPark id _ => [TPark id None]
  | _ => []
  end.
Definition jobKeys (j : job) : list tkey := key <$> jobTok j.

#[export] Instance tkey_eq_dec : EqDecision tkey.
Proof. solve_decision. Defined.

(** Whether an id was ever registered here. *)
Definition knownb (s : Host) (id : string) : bool := existsb (λ f, f_id f ==? id) (map_to_list (hs_heap s)).*2.

(** What the core and the other homes ask.  A clone's fence is new (the ledger
    mints each once, and [foreign] are those other homes mint); one park of a
    fiber runs at a time; what a discard, a resumed delta or a removed one
    names was born here before, or never is; a removed delta's fiber does not
    run. *)
Definition may (foreign : string → bool) (s : Host) (jobs : list job) (j : job) : bool :=
  match j with
  | JClone spec m =>
      let id := Fence_String (cs_Fence spec) in
      negb (foreign id) && negb (knownb s id) && bool_decide (KBirth id ∉ jobs ≫= jobKeys) &&
      match cs_Source spec with SourceDelta => foreign (m_Fence m) || knownb s (m_Fence m) | SourceZygote => true end
  | JPark id _ => bool_decide (KPark id ∉ jobs ≫= jobKeys)
  | JRelease id true => foreign id || knownb s id
  | JDiscardDelta (Some m) =>
      (m_Fence m ==? "") || foreign (m_Fence m) || knownb s (m_Fence m) && bool_decide (hs_fibers s !! m_Fence m = None)
  | _ => true
  end.

Definition noHost : Host := mkHost ∅ 0 ∅ ∅ ∅ ∅ 0 ∅ [] ∅ false ∅ [].

(** The states a home over [c] reaches. *)
Definition reaches (foreign : string → bool) (c : HostConfig) (cf : config (S := Host) (C := call) (J := job)) : Prop :=
  reachable (body c) (may foreign) noHost cf.

(** ** Soundness of the invariant *)

Lemma knownb_spec s id : knownb s id = true ↔ born s id.
Proof.
  unfold knownb, born. rewrite existsb_exists. split.
  - intros (f & Hf%list_elem_of_In & E). apply bool_decide_eq_true_1 in E. apply list_elem_of_fmap in Hf as ((a & f') & -> & Ha).
    apply elem_of_map_to_list in Ha. by exists a, f'.
  - intros (a & f & Ha & <-). exists f. split; [|by apply bool_decide_eq_true_2]. apply list_elem_of_In, list_elem_of_fmap.
    exists (a, f). split; [done|by apply elem_of_map_to_list].
Qed.

Section home.
Context (foreign : string → bool).
Notation Inv := (Inv foreign).
Notation wp := (Threads.wp key static Inv le).
Notation fin := (Threads.fin Inv le).

(** Tokens that account for nothing. *)
Definition idle (t : token) : Prop := match t with TBirth _ [] | TBorn _ _ | TPark _ _ => True | _ => False end.

Lemma Inv_idle_in s t F : idle t → tok_ok foreign s t → key t ∉ key <$> F → Inv s F → Inv s (t :: F).
Proof.
  intros Hi Ht Hk HI. assert (∀ b, TOwe b ∈ t :: F ↔ TOwe b ∈ F) as Howe by (intros b; destruct t; set_solver).
  constructor; try (by destruct HI).
  - simpl. apply NoDup_cons. split; [done|apply (inv_keys _ _ _ HI)].
  - intros t' [->|Hin]%elem_of_cons; [done|by apply (inv_tok _ _ _ HI)].
  - intros a f Ha. pose proof (inv_report _ _ _ HI a f Ha) as HR. unfold report_ok in *. repeat case_match; by rewrite Howe.
  - intros n id Hh. apply (acc_mono s F); [intros ns ? ?; exists ns; set_solver|set_solver|by apply (inv_acc _ _ _ HI)].
Qed.

Lemma Inv_idle_out s t F : idle t → Inv s (t :: F) → Inv s F.
Proof.
  intros Hi HI. assert (∀ b, TOwe b ∈ F ↔ TOwe b ∈ t :: F) as Howe by (intros b; destruct t; set_solver).
  constructor; try (by destruct HI).
  - pose proof (inv_keys _ _ _ HI) as HK. simpl in HK. by apply NoDup_cons in HK as [_ ?].
  - intros t' Hin. apply (inv_tok _ _ _ HI). set_solver.
  - intros a f Ha. pose proof (inv_report _ _ _ HI a f Ha) as HR. unfold report_ok in *. repeat case_match; by rewrite Howe.
  - intros n id Hh. apply (acc_mono s (t :: F)); [|destruct t; set_solver|by apply (inv_acc _ _ _ HI)].
    intros ns [<-|?]%elem_of_cons Hn; [|by exists ns]. destruct ns; [set_solver|done].
Qed.

Lemma neutral_fin {R} s (p : prog Host call R) : neutral foreign s p → wp p fin [] s.
Proof. intros Hp. apply Hp; [done|]. intros r s' _ s1 F _ HI. done. Qed.

Lemma neutral_done {R} s (p : prog Host call R) : neutral foreign s p → neutral foreign s (_ ← p; mret tt).
Proof. intros Hp. apply neutral_bind; [done|]. intros. apply neutral_ret. Qed.

Lemma idle_fin (t : token) s : idle t → fin tt [t] s.
Proof. intros Hi s1 F _ HI. by apply (Inv_idle_out s1 t). Qed.

Lemma noHost_Inv : Inv noHost [].
Proof.
  constructor; try done; try (intros [p|q] id; done).
  - simpl. constructor.
  - intros t Ht. set_solver.
Qed.

Context (c : HostConfig) (Hlo : (1 ≤ hc_lo c)%Z).

Lemma spawn_keeps s jobs U j :
  may foreign s jobs j = true → Inv s U →
  (∀ x, x ∈ U → static (key x) → ∃ j', j' ∈ jobs ∧ key x ∈ jobKeys j') →
  Inv s (jobTok j ++ U) ∧ (∀ x, x ∈ jobTok j → static (key x) → key x ∈ jobKeys j) ∧ wp (body c j) fin (jobTok j) s.
Proof using Hlo.
  intros Hm HI Hk.
  assert (∀ k, static k → k ∉ jobs ≫= jobKeys → k ∉ key <$> U) as Hfresh.
  { intros k Hs Hn (x & -> & Hx)%list_elem_of_fmap. apply Hn. destruct (Hk x Hx Hs) as (j' & ? & ?). apply list_elem_of_bind. eauto. }
  assert (∀ x, x ∈ jobTok j → static (key x) → key x ∈ jobKeys j) as HK by (intros x Hx _; apply list_elem_of_fmap; eauto).
  destruct j as [spec m|id sync|id d|m|id status|uid i|p|uid|uid i|uid p|uid n|id why]; cbn [body jobTok may app] in *; (split_and!; [|exact HK|]);
    try exact HI; try (by apply neutral_fin; first [apply neutral_pumpExit|apply neutral_warmGone|apply neutral_pooledGone
      |apply neutral_DropTemplate|apply neutral_publish|apply neutral_enforce|apply neutral_done; first [apply neutral_Fill|apply neutral_Drain]]).
  - breflect. apply Inv_idle_in; [done| |by apply Hfresh|done].
    assert (¬ born s (Fence_String (cs_Fence spec))) as Hnb by (rewrite <- knownb_spec; congruence).
    simpl. split_and!; [done| |set_solver|set_solver]. intros a f Hl Ha. destruct Hnb.
    destruct (inv_live _ _ _ HI _ _ Hl) as (g & Hg & Hid & _). by exists a, g.
  - apply bind_wp. eapply wp_mono; [|apply Clone_wp; [done|]].
    + intros r O s' [->|(a & ->)]; by apply idle_fin.
    + intros E. rewrite E in Hm. breflect. rewrite <- knownb_spec. by apply orb_true_iff.
  - breflect. apply Inv_idle_in; [done|done|by apply Hfresh|done].
  - apply bind_wp. eapply wp_mono; [|apply park_wp]. intros r O s' (oa & ->). by apply idle_fin.
  - apply neutral_fin, neutral_done, neutral_Release. intros ->. rewrite <- knownb_spec. by apply orb_true_iff.
  - apply neutral_fin, neutral_done, neutral_removeDelta. intros m' -> Hne.
    rewrite (bool_decide_eq_false_2 (m_Fence m' = "")) in Hm by done. simpl in Hm. apply orb_true_iff in Hm as [?|Hm]; [by left|right].
    breflect. apply knownb_spec in H as (a & f & Ha & Hid). exists a, f. rewrite H0. done.
Qed.

Lemma reaches_Inv cf : reaches foreign c cf → ∃ U, Inv (c_st cf) U ∧ (quiet cf → U = []).
Proof using Hlo. apply (pool_invariant _ _ key static Inv le jobKeys jobTok); [exact spawn_keeps|exact noHost_Inv]. Qed.
End home.


(** ** The calls that take up a fiber's end

    A fiber's [released] flag is the history of the calls about it: set by a
    Release that found it and by a park that claimed it, reset by a park that
    gave it back. *)

(** Whether the last of these calls asked for the end of the fiber at [a]. *)
Definition tookUp (a : nat) (b : bool) (e : effect) : bool :=
  match e with
  | EvAsked x | EvClaimed x => b || (x ==? a)
  | EvUnclaimed x => b && (x <>? a)
  | _ => b
  end.
Definition askedEnd (a : nat) (log : list effect) : bool := foldl (tookUp a) false log.
Arguments askedEnd : simpl never.

Lemma askedEnd_snoc a log e : askedEnd a (log ++ [e]) = tookUp a (askedEnd a log) e.
Proof. unfold askedEnd. by rewrite foldl_app. Qed.

(** No call found it: it was not asked.  One did, and no park gave it back: it was. *)
Lemma askedEnd_never a log : EvAsked a ∉ log → EvClaimed a ∉ log → askedEnd a log = false.
Proof.
  induction log as [|e log IH] using rev_ind; [done|]. rewrite askedEnd_snoc, !elem_of_app, !list_elem_of_singleton.
  intros H1 H2. rewrite IH by tauto. destruct e; cbn; try done; apply bool_decide_eq_false_2; intros ->; tauto.
Qed.
Lemma askedEnd_once a log :
  EvAsked a ∈ log ∨ EvClaimed a ∈ log → EvUnclaimed a ∉ log → askedEnd a log = true.
Proof.
  induction log as [|e log IH] using rev_ind; [by intros [?%elem_of_nil|?%elem_of_nil]|].
  rewrite askedEnd_snoc, !elem_of_app, !list_elem_of_singleton. intros H Hn.
  assert (tookUp a false e = true ∨ askedEnd a log = true) as [He| ->].
  { destruct H as [[?|<-]|[?|<-]]; [right; apply IH; tauto|left|right; apply IH; tauto|left];
      cbn; by apply bool_decide_eq_true_2. }
  - destruct e; cbn in He |- *; try done; by rewrite He, orb_true_r.
  - destruct e; cbn; try done. rewrite bool_decide_eq_false_2; [done|]. intros ->. tauto.
Qed.

(** The flags are the history's, and the calls were about objects there are. *)
Record marks (s : Host) : Prop := {
  mk_flag a f : hs_heap s !! a = Some f → f_released f = askedEnd a (hs_log s);
  mk_heap a f : hs_heap s !! a = Some f → a < hs_next s;
  mk_live id a : hs_fibers s !! id = Some a → a < hs_next s;
  mk_new a : hs_next s ≤ a → askedEnd a (hs_log s) = false;
}.

(** An effect that is none of these calls. *)
Definition aside (e : effect) : bool := match e with EvAsked _ | EvClaimed _ | EvUnclaimed _ => false | _ => true end.

Lemma marks_same s s' :
  hs_heap s' = hs_heap s → hs_next s' = hs_next s → hs_fibers s' = hs_fibers s → hs_log s' = hs_log s → marks s → marks s'.
Proof. intros E1 E2 E3 E4 [M1 M2 M3 M4]. split; rewrite ?E1, ?E2, ?E3, ?E4; done. Qed.

Lemma marks_log e s : aside e = true → marks s → marks (add_log e s).
Proof.
  intros He [M1 M2 M3 M4]. assert (∀ a, askedEnd a (hs_log s ++ [e]) = askedEnd a (hs_log s)) as E
    by (intros a; rewrite askedEnd_snoc; by destruct e).
  split; cbn; try done; intros; rewrite ?E; eauto.
Qed.

Lemma marks_heap a g s : (∀ f, f_released (g f) = f_released f) → marks s → marks (on_fiber a g s).
Proof.
  intros Hg [M1 M2 M3 M4]. split; cbn; try done; intros b f; (destruct (decide (b = a)) as [->|];
    [rewrite lookup_alter_eq; destruct (hs_heap s !! a) eqn:E; [|done]; intros [= <-]; rewrite ?Hg; eauto
    |rewrite lookup_alter_ne by done; eauto]).
Qed.

(** One of these calls, with the flag it sets. *)
Lemma marks_call a x e s :
  a < hs_next s → (∀ b y, tookUp b y e = if b ==? a then x else y) →
  ∀ p, (∀ f, f_released (p f) = x) → marks s → marks (add_log e (on_fiber a p s)).
Proof.
  intros Ha He p Hp [M1 M2 M3 M4]. split; cbn; try done.
  - intros b f. rewrite askedEnd_snoc, He. destruct (decide (b = a)) as [->|Hne].
    + rewrite lookup_alter_eq. destruct (hs_heap s !! a); [|done]. intros [= <-]. by rewrite Hp, bool_decide_eq_true_2.
    + rewrite lookup_alter_ne, bool_decide_eq_false_2 by done. eauto.
  - intros b f. destruct (decide (b = a)) as [->|]; [done|]. rewrite lookup_alter_ne by done. eauto.
  - intros b Hb. rewrite askedEnd_snoc, He, bool_decide_eq_false_2 by (intros ->; lia). eauto.
Qed.

Lemma marks_unclaim a s : marks s → marks (add_log (EvUnclaimed a) (on_fiber a (set_flags false false) s)).
Proof.
  intros [M1 M2 M3 M4]. split; cbn; try done.
  - intros b f. rewrite askedEnd_snoc. cbn. destruct (decide (b = a)) as [->|Hne].
    + rewrite lookup_alter_eq. destruct (hs_heap s !! a); [|done]. intros [= <-]. rewrite bool_decide_eq_true_2 by done. by rewrite andb_false_r.
    + rewrite lookup_alter_ne, bool_decide_eq_false_2 by done. rewrite andb_true_r. eauto.
  - intros b f. destruct (decide (b = a)) as [->|].
    + rewrite lookup_alter_eq. destruct (hs_heap s !! a) eqn:E; [|done]. intros _. eauto.
    + rewrite lookup_alter_ne by done. eauto.
  - intros b Hb. rewrite askedEnd_snoc. cbn. by rewrite M4.
Qed.

Lemma marks_register f s : f_released f = false → marks s → marks (reg f s).
Proof.
  intros Hf [M1 M2 M3 M4]. split; cbn.
  - intros a g [[<- <-]|[_ ?]]%lookup_insert_Some; [by rewrite M4|eauto].
  - intros a g [[<- <-]|[_ ?%M2]]%lookup_insert_Some; lia.
  - intros id a [[_ <-]|[_ ?%M3]]%lookup_insert_Some; lia.
  - intros a Ha. apply M4. lia.
Qed.

Lemma marks_forget id s : marks s → marks (set_fibers (delete id) s).
Proof. intros [M1 M2 M3 M4]. split; cbn; try done. intros i a [_ ?]%lookup_delete_Some. eauto. Qed.

Lemma marks_takeOut a reason detail s : marks s → marks (takeOut a reason detail s).2.
Proof.
  intros Hm. unfold takeOut. destruct (hs_heap s !! a) as [f|]; [|done]. case_match; [|done]. cbn [snd].
  assert (marks (on_fiber a (set_exit (mkFiberExit (f_id f) reason detail)) (set_fibers (delete (f_id f)) s))) as H'
    by (by apply marks_heap, marks_forget).
  destruct (f_parked f); [|done]. eapply marks_same; [..|exact H']; done.
Qed.

Notation still := (keepsI marks).

Lemma still_locked {A} (f : St Host A) : (∀ s, marks s → marks (f s).2) → still (locked f).
Proof. intros Hf s Hs. split; [by apply Hf|done]. Qed.
(** A hold that leaves what [marks] speaks of. *)
Lemma still_apart {A} (f : St Host A) :
  (∀ s, hs_heap (f s).2 = hs_heap s ∧ hs_next (f s).2 = hs_next s ∧ hs_fibers (f s).2 = hs_fibers s ∧ hs_log (f s).2 = hs_log s) →
  still (locked f).
Proof. intros Hf. apply still_locked. intros s. destruct (Hf s) as (? & ? & ? & ?). by apply marks_same. Qed.
Lemma still_note e : aside e = true → still (note e).
Proof. intros He. apply still_locked. intros s. by apply marks_log. Qed.
Lemma still_noteIf b e : aside e = true → still (noteIf b e).
Proof. intros He. destruct b; [by apply still_note|done]. Qed.
Lemma still_touch a g : (∀ f, f_released (g f) = f_released f) → still (locked (modify (on_fiber a g))).
Proof. intros Hg. apply still_locked. intros s. by apply marks_heap. Qed.
Lemma still_takeOut a reason detail : still (locked (takeOut a reason detail)).
Proof. apply still_locked. intros s. apply marks_takeOut. Qed.
Lemma still_register f : f_released f = false → still (locked (register f)).
Proof. intros Hf. apply still_locked. intros s. by apply marks_register. Qed.
Lemma still_unregister a id : still (locked (modify (unregister a id))).
Proof. apply still_locked. intros s Hs. cbn. unfold unregister. case_match; [by apply marks_forget|done]. Qed.
Lemma still_release id d :
  still (locked (λ s : Host, match hs_fibers s !! id with
    | Some a => (Some a, add_log (EvAsked a) (on_fiber a (λ f, set_flags true (if d : bool then false else f_parked f) f) s))
    | None => (None, s) end)).
Proof.
  apply still_locked. intros s Hs. destruct (hs_fibers s !! id) as [a|] eqn:E; [|done].
  apply (marks_call a true); [by eapply mk_live| |done|done]. intros b y. cbn. repeat case_bool_decide; subst; try done;
    by rewrite ?orb_true_r, ?orb_false_r.
Qed.
Lemma still_mark id : still (locked (markPark id)).
Proof.
  apply still_locked. intros s Hs. unfold markPark. destruct (hs_fibers s !! id) as [a|] eqn:E; [|done].
  destruct (hs_heap s !! a) as [f|] eqn:Ea; [|done].
  apply (marks_call a true); [by eapply mk_live| |done|done]. intros b y. cbn. repeat case_bool_decide; subst; try done;
    by rewrite ?orb_true_r, ?orb_false_r.
Qed.
Lemma still_unpark a : still (locked (λ s : Host, (hs_heap s !! a, add_log (EvUnclaimed a) (on_fiber a (set_flags false false) s)))).
Proof. apply still_locked. intros s. apply marks_unclaim. Qed.

(** The search over an operation's holds. *)
Ltac still_with tac :=
  repeat first
    [ exact I | tac
    | apply still_note; reflexivity | apply still_noteIf; reflexivity
    | apply still_takeOut | apply still_release | apply still_mark | apply still_unpark | apply still_unregister
    | apply still_register; reflexivity
    | apply still_touch; reflexivity
    | apply still_apart; intros; cbn; repeat (case_match; simplify_eq/=); split_and!; reflexivity
    | apply keepsI_bind; [|intros ?]
    | apply keepsI_each; intros ?
    | progress cbn [keepsI asked awaited ask await mret prog_ret]; intros
    | case_match ].
Ltac still_search := still_with ltac:(idtac; fail).

Lemma still_finish c a reason detail : still (finish c a reason detail).
Proof. unfold finish, freeSocket, freePort. still_search. Qed.
Lemma still_Release c id d : still (Release c id d).
Proof. unfold Release, freePorts, killOrphan. still_search. Qed.
Lemma still_hatch c a f : still (hatch c a f).
Proof. unfold hatch, route. still_with ltac:(apply still_Release). Qed.
Lemma still_giveUp z p id : still (giveUp z p id).
Proof. unfold giveUp, returnPooled, discard. still_search. Qed.
Lemma still_giveBackNames rl ws sock port id : still (giveBackNames rl ws sock port id).
Proof. unfold giveBackNames, freeSocket, freePort. still_search. Qed.
Lemma still_unborn a f : still (unborn a f).
Proof. unfold unborn, freeSocket, freePort. still_search. Qed.
Lemma still_allocPort c id want : still (locked (allocPort c id want)).
Proof. apply still_apart. intros s. unfold allocPort. repeat case_match; done. Qed.
Lemma still_claimIf sock id : still (claimIf sock id).
Proof. unfold claimIf, claimSocket. still_search. Qed.
Lemma still_freePort port id : still (freePort port id).
Proof. unfold freePort. still_search. Qed.
Lemma still_freeSocket sock id : still (freeSocket sock id).
Proof. unfold freeSocket. still_search. Qed.
Lemma still_unpark' a : still (unpark a).
Proof. unfold unpark. still_search. Qed.

Ltac still_more :=
  still_with ltac:(first
    [ apply still_finish | apply still_Release | apply still_hatch | apply still_giveUp | apply still_giveBackNames
    | apply still_unborn | apply still_allocPort | apply still_claimIf | apply still_freePort | apply still_freeSocket
    | apply still_unpark' ]).

Lemma still_start c z spec p : still (start c z spec p).
Proof. unfold start, birthEndpoint, mintEndpoint, askIf. still_more. Qed.
Lemma still_resume c spec m : still (resume c spec m).
Proof. unfold resume, resumeEndpoint, resumePort, askIf. still_more. Qed.
Lemma still_Clone c spec m : still (Clone c spec m).
Proof.
  unfold Clone, cloneWarm, askIf, takePooled. still_with ltac:(first [apply still_start|apply still_resume]).
Qed.
Lemma still_Park c id sync : still (Park c id sync).
Proof. unfold Park, holdSlice, parkDump, unparked, awaitExit, askIf. still_more. Qed.

Lemma still_body c j : still (body c j).
Proof.
  destruct j; cbn [body]; try (apply keepsI_bind; [|done]);
    unfold removeDelta, pumpExit, warmGone, pooledGone, DropTemplate, publish, Fill, Drain, enforceFiber, freePorts, drainAll, Host.discard, deref;
    still_with ltac:(first [apply still_Clone|apply still_Park|apply still_Release|apply still_finish]).
Qed.

Lemma reaches_marks foreign c cf : reaches foreign c cf → marks (c_st cf).
Proof. apply reachable_keeps; [apply still_body|]. by split. Qed.

(** ** The claims *)

(** C11: Ports and sockets are exclusive.  In every state a home reaches by
    interleaved clones, resumes, parks, releases, exits and discards, two fibers
    that run under different ids never have the same endpoint port nor the same
    unix socket, as long as no fence was registered twice (a hand-out that failed
    after it registered and was tried again).  The calls are those [may] lets
    start: a clone's fence is new; one park of a fiber runs at a time; a delta
    that is discarded has no fence, another home's, or one born here that no
    longer runs; and a release with discard and a resumed delta name another
    home's fence or one born here before.  The runtime itself checks neither of
    the last two, and without them the claim fails
    ([discard_frees_live_port], [resume_steals_from_birth]). *)
Theorem host_names_exclusive foreign c cf :
  (1 ≤ hc_lo c)%Z → reaches foreign c cf → once (c_st cf) →
  ∀ id1 id2 a1 a2 f1 f2,
    hs_fibers (c_st cf) !! id1 = Some a1 → hs_heap (c_st cf) !! a1 = Some f1 →
    hs_fibers (c_st cf) !! id2 = Some a2 → hs_heap (c_st cf) !! a2 = Some f2 → id1 ≠ id2 →
    (f_port f1 ≠ 0%Z → f_port f1 ≠ f_port f2) ∧ (f_sock f1 ≠ "" → f_sock f1 ≠ f_sock f2).
Proof.
  intros Hlo Hr Ho id1 id2 a1 a2 f1 f2 L1 H1 L2 H2 Hne. destruct (reaches_Inv foreign c Hlo cf Hr) as (U & HI & _).
  pose proof (inv_excl _ _ _ HI Ho) as HX.
  split; intros Hz E; apply Hne.
  - specialize (HX id1 a1 f1 (NPort (f_port f1)) L1 H1) as E1. rewrite E in E1 at 2.
    specialize (HX id2 a2 f2 (NPort (f_port f2)) L2 H2) as E2.
    assert (∀ f, f_port f ≠ 0%Z → NPort (f_port f) ∈ names f) as Hin.
    { intros f Hf. unfold names, portNames. rewrite bool_decide_eq_false_2 by done. set_solver. }
    rewrite E2 in E1 by (apply Hin; congruence). by injection (E1 (Hin f1 Hz)).
  - specialize (HX id1 a1 f1 (NSock (f_sock f1)) L1 H1) as E1. rewrite E in E1 at 2.
    specialize (HX id2 a2 f2 (NSock (f_sock f2)) L2 H2) as E2.
    assert (∀ f, f_sock f ≠ "" → NSock (f_sock f) ∈ names f) as Hin.
    { intros f Hf. unfold names, sockNames. rewrite (bool_decide_eq_false_2 (f_sock f = "")) by done. set_solver. }
    rewrite E2 in E1 by (apply Hin; congruence). by injection (E1 (Hin f1 Hz)).
Qed.

(** C12: Every death is reported exactly once, unless its end was asked for.
    However exits, parks and releases interleave (the calls being those [may]
    lets start, with one park of a fiber at a time), no fiber's exit is sent twice
    and no done channel is closed twice.  Once nothing is in progress, of a fiber
    that ended its one exit was sent, or none, as the calls about it say: none if
    the last of them was a Release that found it running or a park that claimed
    it, its exit if there was none or the last was a failed park that gave it
    back.  So a fiber no call was about is reported, one that ended under its own
    Release or under a park that was not taken back is silent, and a Release
    that a failing park overtakes is reported. *)
Theorem deaths_reported_once foreign c cf :
  (1 ≤ hc_lo c)%Z → reaches foreign c cf →
  hs_panic (c_st cf) = false ∧ (∀ a, length (sent (c_st cf) a) ≤ 1) ∧
  (quiet cf → ∀ a f, hs_heap (c_st cf) !! a = Some f →
     (f_exit f = None → sent (c_st cf) a = []) ∧
     ∀ e, f_exit f = Some e →
       sent (c_st cf) a = (if askedEnd a (hs_log (c_st cf)) then [] else [e]) ∧
       (EvAsked a ∉ hs_log (c_st cf) → EvClaimed a ∉ hs_log (c_st cf) → sent (c_st cf) a = [e]) ∧
       (EvAsked a ∈ hs_log (c_st cf) ∨ EvClaimed a ∈ hs_log (c_st cf) → EvUnclaimed a ∉ hs_log (c_st cf) →
        sent (c_st cf) a = [])).
Proof.
  intros Hlo Hr. destruct (reaches_Inv foreign c Hlo cf Hr) as (U & HI & HU). split_and!; [by apply (inv_panic _ _ _ HI)| |].
  - intros a. destruct (hs_heap (c_st cf) !! a) as [f|] eqn:Ha; [|by rewrite (inv_unsent _ _ _ HI a Ha); simpl; lia].
    pose proof (inv_report _ _ _ HI a f Ha) as HR. unfold report_ok in HR. repeat case_match; destruct_or?; destruct_and?;
      match goal with E : sent _ _ = _ |- _ => rewrite E; simpl; lia end.
  - intros Hq a f Ha. rewrite (HU Hq) in HI. pose proof (inv_report _ _ _ HI a f Ha) as HR. unfold report_ok in HR.
    pose proof (mk_flag _ (reaches_marks foreign c cf Hr) a f Ha) as Hm.
    split; [intros E; rewrite E in HR; tauto|]. intros e E. rewrite E, Hm in HR.
    assert (sent (c_st cf) a = if askedEnd a (hs_log (c_st cf)) then [] else [e]) as Es
      by (destruct (askedEnd _ _); destruct_or?; destruct_and?; try done; set_solver).
    split; [done|]. rewrite Es. split; [intros; by rewrite askedEnd_never|intros; by rewrite askedEnd_once].
Qed.

(** C13: No name leaks but a parked fiber's port.  In every state a home reaches
    in which nothing is in progress, each socket of the table is that of a
    running fiber, and each port that of a running fiber or of one whose end a
    park had claimed: no failed birth, however it failed, keeps either. *)
Theorem host_names_accounted foreign c cf :
  (1 ≤ hc_lo c)%Z → reaches foreign c cf → quiet cf →
  (∀ q id, hs_socks (c_st cf) !! q = Some id →
     ∃ a f, hs_fibers (c_st cf) !! id = Some a ∧ hs_heap (c_st cf) !! a = Some f ∧ f_sock f = q) ∧
  (∀ p id, hs_ports (c_st cf) !! p = Some id →
     (∃ a f, hs_fibers (c_st cf) !! id = Some a ∧ hs_heap (c_st cf) !! a = Some f ∧ f_port f = p) ∨ id ∈ hs_kept (c_st cf)).
Proof.
  intros Hlo Hr Hq. destruct (reaches_Inv foreign c Hlo cf Hr) as (U & HI & HU). rewrite (HU Hq) in HI.
  assert (∀ n f, n ∈ names f → match n with NPort p => f_port f = p | NSock q => f_sock f = q end) as Hn.
  { intros n f. unfold names, portNames, sockNames. repeat case_match; set_solver. }
  split.
  - intros q id Hh. destruct (inv_acc _ _ _ HI (NSock q) id Hh) as [(a & f & H1 & H2 & H3)|[(? & ? & _)|[(? & ? & ? & _)|[_ ?]]]];
      [exists a, f; split_and!; [done|done|by apply (Hn (NSock q))]|set_solver..|done].
  - intros p id Hh. destruct (inv_acc _ _ _ HI (NPort p) id Hh) as [(a & f & H1 & H2 & H3)|[(? & ? & _)|[(? & ? & ? & _)|[? _]]]];
      [left; exists a, f; split_and!; [done|done|by apply (Hn (NPort p))]|set_solver..|by right].
Qed.

(** ** The handle names its fence *)

Definition named (id : string) (r : FiberHandle + herr) : Prop := ∀ h, r = inl h → HID h = id.

(** A path that ends in an error. *)
Ltac solve_failed := repeat (apply yields_bind; intros ?); by intros ? [=].

Lemma hatch_named c a f : yields (hatch c a f) (named (f_id f)).
Proof.
  unfold hatch. apply yields_bind. intros _. apply yields_bind. intros [ep|]; apply yields_bind; intros _; simpl.
  - intros h [= <-]. done.
  - by intros h [=].
Qed.

Lemma start_named c z spec p : yields (start c z spec p) (λ r, named (Fence_String (cs_Fence spec)) r.1).
Proof.
  unfold start. do 3 (apply yields_bind; intros ?; case_match; [solve_failed|]).
  apply yields_bind. intros [[[url bind] port]|e]; [|solve_failed].
  apply yields_bind. intros [e|]; [solve_failed|].
  do 3 (apply yields_bind; intros ?; case_match; [solve_failed|]).
  apply yields_bind. intros addr. apply yields_bind. intros born. case_match; [solve_failed|].
  eapply yields_bind'; [apply hatch_named|]. intros r Hr. done.
Qed.

Lemma resume_named c spec m : yields (resume c spec m) (named (Fence_String (cs_Fence spec))).
Proof.
  unfold resume. case_match; [by intros ? [=]|].
  apply yields_bind; intros ?; case_match; [by intros ? [=]|]. case_match; [by intros ? [=]|].
  do 5 (apply yields_bind; intros ?; case_match; [solve_failed|]).
  apply yields_bind. intros [[[url bind] port]|e]; [|solve_failed].
  destruct (parkedBirth m); [|solve_failed].
  apply yields_bind. intros [e|]; [solve_failed|]. apply yields_bind. intros _.
  do 2 (apply yields_bind; intros ?; case_match; [solve_failed|]). apply yields_bind. intros slice.
  do 4 (apply yields_bind; intros ?; case_match; [solve_failed|]).
  apply yields_bind. intros addr. apply yields_bind. intros born. case_match; [solve_failed|].
  apply hatch_named.
Qed.

(** The host runtime names a fiber by its fence: whatever its tables hold
    and its calls answer, a Clone that returns a handle, born from the pool, on
    demand or from a delta, returns one whose id is the fence's text.  It is
    what the core asks of its runtime ([names_by_fence]). *)
Theorem Clone_named c spec m : yields (Clone c spec m) (named (Fence_String (cs_Fence spec))).
Proof.
  assert (∀ z, yields (cloneWarm c z spec) (named (Fence_String (cs_Fence spec)))) as Hwarm.
  { intros z. unfold cloneWarm.
    assert (yields (r ← start c z spec None; mret r.1) (named (Fence_String (cs_Fence spec)))) as Hstart
      by (eapply yields_bind'; [apply start_named|]; done).
    apply yields_bind. intros [p|]; [|done]. eapply yields_bind'; [apply start_named|]. intros [[h|e] spent] Hr; [done|].
    destruct spent; [|done]. do 2 (apply yields_bind; intros ?; case_match; [by intros ? [=]|]). done. }
  unfold Clone. destruct (cs_Source spec).
  - apply yields_bind. intros [z|]; [done|]. apply yields_bind. intros ok. case_match; [by intros ? [=]|].
    apply yields_bind. intros [z|]; [done|by intros ? [=]].
  - eapply yields_bind'; [apply resume_named|]. intros [h|e] Hr; [done|]. case_match; [done|]. apply yields_bind. intros _. by intros ? [=].
Qed.

(** ** A concrete home *)

Definition hostGrant : Grant :=
  mkGrant "g" "i" "a" "d" "t" 0 0 0 0 0%Z (mkPolicy 0 "" "" F64.zero F64.zero 0 0) (mkDeviceBudget 0 "") 0 "" "".
(** A proc home: tcp endpoints its backend binds itself, two ports. *)
Definition hostDemo : HostConfig :=
  mkHostConfig false false 30000 30001 "10.0.0.7" "" "/run" "/deltas" 3 "proc" false false (λ _, 0%N) (λ _, false).
Definition hostSpec (src : CloneSource) (n : N) : CloneSpec := mkCloneSpec hostGrant src "" (mkFence "g" 1 n) 0%Z "" "" "".
Definition noDelta : manifest := mkManifest "" "" None false "" "" false 0.
Definition local (_ : string) : bool := false.

(** One thread at a time: warm the grant, then clone. *)
Definition warmUp : list (act (J := job)) := [Spawn (JPublish "g" 7); Run 0 true; Reap 0].
Definition cloneRun (n : N) : list (act (J := job)) := Spawn (JClone (hostSpec SourceZygote n) noDelta) :: repeat (Run 0 true) 11 ++ [Reap 0].
Definition hostRun (may : Host → list job → job → bool) (l : list (act (J := job))) : option (config (S := Host) (C := call) (J := job)) :=
  run (body hostDemo) may l (mkConfig noHost []).

(** Two clones run; then the first dies while it is being parked, and the park
    fails: its exit is reported, its done channel closed. *)
Definition diesInPark : list (act (J := job)) :=
  [Spawn (JPark "g/1/1" true); Run 0 true;
   Spawn (JExit "g/1/1" "signal:killed")] ++ repeat (Run 0 false) 7 ++ [Reap 0; Run 0 false; Run 0 true; Run 0 true; Reap 0].
(** The second is released, and its exit comes. *)
Definition releasedRun : list (act (J := job)) :=
  [Spawn (JRelease "g/1/2" false); Run 0 true; Run 0 true; Run 0 false;
   Spawn (JExit "g/1/2" "signal:killed")] ++ Run 0 true :: Run 0 false :: repeat (Run 0 true) 6 ++ [Reap 0; Run 0 true; Reap 0].
Definition twoRun : list (act (J := job)) := warmUp ++ cloneRun 1 ++ cloneRun 2.

Definition demoState (l : list (act (J := job))) : config (S := Host) (C := call) (J := job) :=
  default (mkConfig noHost []) (hostRun (may local) l).

Definition ran (l : list (act (J := job))) : bool := match hostRun (may local) l with Some _ => true | None => false end.

Lemma demo_reaches l : ran l = true → reaches local hostDemo (demoState l).
Proof. unfold ran, demoState. destruct (hostRun (may local) l) as [cf|] eqn:E; [|done]. intros _. by exists l. Qed.

(** The fiber a clone of [hostDemo] leaves running. *)
Definition demoFiber (id : string) (port : Z) : fiber :=
  mkFiber id "g" (TCPEndpoint port) port "" id 1 0 0 "" false false false true false true false None false None.

Lemma demo_two : hs_heap (c_st (demoState twoRun)) = {[0 := demoFiber "g/1/1" 30000; 1 := demoFiber "g/1/2" 30001]}.
Proof. vm_compute. reflexivity. Qed.

Lemma once_two s f g : f_id f ≠ f_id g → hs_heap s = {[0 := f; 1 := g]} → once s.
Proof.
  intros Hne E a b fa fb. rewrite E. intros Ha Hb Hid.
  apply lookup_insert_Some in Ha as [[<- <-]|[? [<- <-]%lookup_singleton_Some]];
    apply lookup_insert_Some in Hb as [[<- <-]|[? [<- <-]%lookup_singleton_Some]]; congruence.
Qed.

Lemma host_names_exclusive_witness :
  hs_heap (c_st (demoState twoRun)) = {[0 := demoFiber "g/1/1" 30000; 1 := demoFiber "g/1/2" 30001]} ∧
  (f_port (demoFiber "g/1/1" 30000) ≠ 0%Z → f_port (demoFiber "g/1/1" 30000) ≠ f_port (demoFiber "g/1/2" 30001)).
Proof.
  split; [exact demo_two|].
  apply (host_names_exclusive local hostDemo (demoState twoRun)) with "g/1/1" "g/1/2" 0 1.
  - by simpl.
  - apply demo_reaches. vm_compute. reflexivity.
  - apply (once_two _ (demoFiber "g/1/1" 30000) (demoFiber "g/1/2" 30001)); [done|exact demo_two].
  - vm_compute. reflexivity.
  - rewrite demo_two. reflexivity.
  - vm_compute. reflexivity.
  - rewrite demo_two. reflexivity.
  - done.
Defined.

Lemma deaths_reported_once_witness :
  c_pool (demoState (twoRun ++ diesInPark ++ releasedRun)) = [] ∧
  sent (c_st (demoState (twoRun ++ diesInPark ++ releasedRun))) 0 = [mkFiberExit "g/1/1" "signal" "signal:killed"] ∧
  sent (c_st (demoState (twoRun ++ diesInPark ++ releasedRun))) 1 = [].
Proof.
  assert (quiet (demoState (twoRun ++ diesInPark ++ releasedRun))) as Hq by (vm_compute; reflexivity).
  split; [exact Hq|].
  assert (reaches local hostDemo (demoState (twoRun ++ diesInPark ++ releasedRun))) as Hr by (apply demo_reaches; vm_compute; reflexivity).
  destruct (deaths_reported_once local hostDemo (demoState (twoRun ++ diesInPark ++ releasedRun)) ltac:(by simpl) Hr) as (_ & _ & H).
  split.
  - refine (eq_trans (proj1 (proj2 (H Hq 0 (set_exit (mkFiberExit "g/1/1" "signal" "signal:killed") (demoFiber "g/1/1" 30000)) _) _ eq_refl)) _);
      vm_compute; reflexivity.
  - refine (eq_trans (proj1 (proj2 (H Hq 1 (set_exit (mkFiberExit "g/1/2" "signal" "signal:killed") (set_flags true false (demoFiber "g/1/2" 30001))) _) _ eq_refl)) _);
      vm_compute; reflexivity.
Defined.

Lemma host_names_accounted_witness :
  hs_ports (c_st (demoState twoRun)) !! 30001%Z = Some "g/1/2" ∧
  ((∃ a f, hs_fibers (c_st (demoState twoRun)) !! "g/1/2" = Some a ∧ hs_heap (c_st (demoState twoRun)) !! a = Some f ∧ f_port f = 30001%Z) ∨
   "g/1/2" ∈ hs_kept (c_st (demoState twoRun))).
Proof.
  split; [vm_compute; reflexivity|].
  assert (reaches local hostDemo (demoState twoRun)) as Hr by (apply demo_reaches; vm_compute; reflexivity).
  destruct (host_names_accounted local hostDemo (demoState twoRun) ltac:(by simpl) Hr ltac:(vm_compute; reflexivity)) as [_ H].
  apply H. vm_compute. reflexivity.
Defined.

(** ** Runs that lose or keep a port *)

(** The state of a home after [l], its ports and the ids it runs. *)
Definition portsOf (cf : config (S := Host) (C := call) (J := job)) : list (Z * string) := map_to_list (hs_ports (c_st cf)).
Definition liveOf (cf : config (S := Host) (C := call) (J := job)) : list string := (map_to_list (hs_fibers (c_st cf))).*1.

(** A fiber that dies while a park holds it keeps its port through finish; the
    park then fails, unpark reports the death, and nothing frees the port: no
    delta was written, and no fiber runs. *)
Lemma failed_park_leaks_port :
  ∃ cf, hostRun (may local) (warmUp ++ cloneRun 1 ++ diesInPark) = Some cf ∧ quiet cf ∧
    portsOf cf = [(30000%Z, "g/1/1")] ∧ liveOf cf = [].
Proof. eexists. split; [vm_compute; reflexivity|]. split_and!; vm_compute; reflexivity. Qed.

(** Nothing asked of the callers. *)
Definition anything (_ : Host) (_ : list job) (_ : job) : bool := true.
Definition portOf (cf : config (S := Host) (C := call) (J := job)) (id : string) : option Z :=
  match hs_fibers (c_st cf) !! id with Some a => f_port <$> hs_heap (c_st cf) !! a | None => None end.

(** A discarded delta whose fence is a live fiber's here frees that fiber's
    port, and the next clone is given it. *)
Lemma discard_frees_live_port :
  ∃ cf, hostRun anything (warmUp ++ cloneRun 1 ++
      [Spawn (JDiscardDelta (Some (mkManifest "g/1/1" "" None false "" "" false 0))); Run 0 true; Run 0 true; Reap 0] ++ cloneRun 2) = Some cf ∧
    portOf cf "g/1/1" = Some 30000%Z ∧ portOf cf "g/1/2" = Some 30000%Z.
Proof. eexists. split; [vm_compute; reflexivity|]. split; vm_compute; reflexivity. Qed.

(** A resume whose delta names the fence of a fiber in birth, which holds its
    port and is not registered yet, takes that port. *)
Definition stolen : manifest := mkManifest "g/1/1" "g/1/1" (Some (TCPEndpoint 30000)) false "" "" false 1.
Lemma resume_steals_from_birth :
  ∃ cf, hostRun anything (warmUp ++ Spawn (JClone (hostSpec SourceZygote 1) noDelta) :: repeat (Run 0 true) 6 ++
      Spawn (JClone (hostSpec SourceDelta 2) stolen) :: repeat (Run 0 true) 9 ++ Run 0 false :: repeat (Run 0 true) 5 ++ Reap 0 :: repeat (Run 0 true) 5) = Some cf ∧
    portOf cf "g/1/1" = Some 30000%Z ∧ portOf cf "g/1/2" = Some 30000%Z.
Proof. eexists. split; [vm_compute; reflexivity|]. split; vm_compute; reflexivity. Qed.
