(* ===== verification/HostLimits.v ===== *)
(** * The host runtime's limits and its -template flag (pkg/runtime/host)

    config.go and the arithmetic of host_linux.go: the saturating budgets, the
    ceilings and shares a grant's cgroup gets, a fiber's working set; and the
    command lines -template carries. *)

From Stdlib Require Import Ascii.
From S2P Require Import Prelude GoLib GoText Grant.
From stdpp Require Import options.

Local Open Scope N_scope.

(** ** Saturating arithmetic *)

(** [func mulSat(a, b uint64) uint64] *)
Definition mulSat (a b : N) : N := if U64.max <? a * b then U64.max else a * b.

(** [func addSat(a, b uint64) uint64] *)
Definition addSat (a b : N) : N := if U64.max <? a + b then U64.max else a + b.

Definition fiberPidsMax : N := 256.
Definition defaultDeltaQuota : N := 2 ^ 30.

(** [func grantPids(g core.Grant) uint64] *)
Definition grantPids (g : Grant) : N :=
  if (FiberMax g <=? 0)%Z then 0 else U64.mul (U64.of_int (FiberMax g + 1)) fiberPidsMax.

(** [func deltaQuota(g core.Grant) uint64] *)
Definition deltaQuota (g : Grant) : N :=
  if (FiberMax g <=? 0)%Z || (WBudgetBytes g =? 0) then defaultDeltaQuota
  else mulSat (mulSat 4 (U64.of_int (FiberMax g))) (WBudgetBytes g).

(** [func DefaultCeiling(g core.Grant, templateBytes uint64) uint64] *)
Definition DefaultCeiling (g : Grant) (templateBytes : N) : N :=
  if (FiberMax g <=? 0)%Z || (WBudgetBytes g =? 0) then 0
  else let block := addSat (mulSat (U64.of_int (FiberMax g)) (WBudgetBytes g)) templateBytes in
       addSat block (block / 4).

(** [func reserve(limit, floor uint64) uint64] *)
Definition reserve (limit floor : N) : N := N.min (N.max (limit / 8) floor) (limit / 2).

Definition reserveMinBytes : N := 64 * 2 ^ 20.

(** memory.high and memory.max that [func capGrants(root)] sets under a home
    limit [c]. *)
Definition capMemory (c : N) : N * N := let top := c - reserve c reserveMinBytes in (top - top / 8, top).

(** [func (r *Runtime) leafMax(g core.Grant) uint64]; [total] is the warm
    instance's footprint under a backend with one, 0 otherwise. *)
Definition leafMax (total : N) (g : Grant) : N :=
  if WBudgetBytes g =? 0 then 0
  else if total =? 0 then WBudgetBytes g
  else U64.add (U64.add (U64.add (WBudgetBytes g) total) (total / 2)) (32 * 2 ^ 20).

Definition withBudget (w : N) (g : Grant) : Grant :=
  mkGrant (UID g) (Issuer g) (Audience g) (TemplateDigest g) (Tenant g) (FiberMax g) (FiberWarm g) w (MinTier g)
    (LeaseExpiry g) (GPolicy g) (GDeviceBudget g) (DiskBudgetBytes g) (CallerThumbprint g) (Token g).

(** What PrepareTemplate gives SetCeiling for a grant's block, memory.high and
    memory.max; none for a ceiling of 0. *)
Definition blockCeiling (total : N) (g : Grant) (templateBytes : N) : option (N * N) :=
  let gc := withBudget (leafMax total g) g in
  let c := DefaultCeiling gc templateBytes in
  if 0 <? c then Some (c, U64.add c (WBudgetBytes gc)) else None.

(** A fiber's working set, [func (r *Runtime) wBytes(f *fiber)], from what its
    leaf counts: less its own footprint, or the template's. *)
Definition wBytes (cur base overhead : N) : N :=
  let o := if base =? 0 then overhead else base in if o <? cur then cur - o else 0.

(** ** The -template flag *)

(** [strings.Fields]: [acc] is the field being read. *)
Fixpoint fieldsFrom (fuel : nat) (acc s : string) : list string :=
  match fuel with
  | O => []
  | S fuel' =>
      match s with
      | "" => if acc ==? "" then [] else [acc]
      | String c s' =>
          match space_len s with
          | O => fieldsFrom fuel' (acc +:+ String c "") s'
          | S k => (if acc ==? "" then [] else [acc]) ++ fieldsFrom fuel' "" (str_drop (S k) s)
          end
      end
  end.
Definition Fields (s : string) : list string := fieldsFrom (S (String.length s)) "" s.

(** [strings.Join(ss, " ")] *)
Fixpoint joinSpace (ss : list string) : string :=
  match ss with
  | [] => ""
  | [s] => s
  | s :: ss' => s +:+ " " +:+ joinSpace ss'
  end.

(** [core.TemplateDigestPattern], ^sha256:[a-f0-9]{64}$ *)
Definition templateDigestRE (s : string) : bool :=
  HasPrefix s "sha256:" && (String.length s =? 71)%nat
  && all_chars (λ c, in_range "0" "9" c || in_range "a" "f" c) (str_drop 7 s).

(** [func ParseTemplateFlag(m map[string]string, v string) error] *)
Definition ParseTemplateFlag (m : gmap string string) (v : string) : option (gmap string string) :=
  match Cut "=" v with
  | Some (k, cmd) => if (k ==? "") || (TrimSpace cmd ==? "") then None else Some (<[TrimSpace k := TrimSpace cmd]> m)
  | None => None
  end.

(** [func FormatTemplateFlag(digest string, command []string) (string, error)] *)
Definition FormatTemplateFlag (digest : string) (command : list string) : option string :=
  if negb (templateDigestRE digest) then None
  else if (length command =? 0)%nat then None
  else if existsb (λ arg, (arg ==? "") || contains_space arg) command then None
  else Some (digest +:+ "=" +:+ joinSpace command).

(** [func (c Config) Command(digest string) ([]string, bool)] *)
Definition Command (templates : gmap string string) (digest : string) : option (list string) :=
  match templates !! digest with
  | Some cmd => Some (Fields cmd)
  | None => Fields <$> templates !! "default"
  end.

(** ** The budgets do not wrap *)

Lemma mulSat_spec a b : mulSat a b = N.min (a * b) U64.max.
Proof. unfold mulSat. case_match; breflect; lia. Qed.

Lemma addSat_spec a b : addSat a b = N.min (a + b) U64.max.
Proof. unfold addSat. case_match; breflect; lia. Qed.

(** A grant's block ceiling is its budget's, saturated, and never below one
    fiber's budget. *)
Theorem DefaultCeiling_bounds g t :
  (0 < FiberMax g < 2 ^ 63)%Z → 0 < WBudgetBytes g ≤ U64.max → t ≤ U64.max →
  let block := N.min (Z.to_N (FiberMax g) * WBudgetBytes g + t) U64.max in
  DefaultCeiling g t = N.min (block + block / 4) U64.max ∧ WBudgetBytes g ≤ DefaultCeiling g t ≤ U64.max.
Proof.
  intros HF HW Ht block.
  assert (DefaultCeiling g t = N.min (block + block / 4) U64.max) as E.
  { unfold DefaultCeiling. assert ((FiberMax g <=? 0)%Z || (WBudgetBytes g =? 0) = false) as -> by (apply orb_false_iff; split; [apply Z.leb_gt|apply N.eqb_neq]; lia).
    rewrite U64.of_int_small by lia. cbv zeta. rewrite !addSat_spec, mulSat_spec. unfold block.
    assert (N.min (N.min (Z.to_N (FiberMax g) * WBudgetBytes g) U64.max + t) U64.max = N.min (Z.to_N (FiberMax g) * WBudgetBytes g + t) U64.max) as ->
      by lia. done. }
  rewrite E. split; [done|].
  assert (WBudgetBytes g ≤ Z.to_N (FiberMax g) * WBudgetBytes g) by (assert (1 ≤ Z.to_N (FiberMax g)) by lia; nia).
  unfold block in *. set (x := Z.to_N (FiberMax g) * WBudgetBytes g) in *. set (mx := U64.max) in *. clearbody x mx. clear E.
  generalize (N.min (x + t) mx / 4). intros q. lia.
Qed.

(** memory.max above the ceiling is not saturated: where the ceiling is, it
    wraps to just below one fiber's budget. *)
Lemma block_max_wraps :
  ∃ g, WBudgetBytes g = 2 ^ 34 ∧ FiberMax g = (2 ^ 31 - 1)%Z ∧
       blockCeiling 0 g 0 = Some (U64.max, 2 ^ 34 - 1).
Proof.
  exists (mkGrant "g" "" "" "" "" (2 ^ 31 - 1)%Z 0%Z (2 ^ 34) 0%Z 0%Z (mkPolicy 0%Z "" "" F64.zero F64.zero 0%Z 0%Z) (mkDeviceBudget 0 "") 0 "" "").
  split; [done|]. split; [done|]. vm_compute. reflexivity.
Qed.

(** fiberd keeps at least its floor of a limit twice as large, and never more
    than half. *)
Lemma reserve_bounds limit floor : reserve limit floor ≤ limit / 2 ∧ (2 * floor ≤ limit → floor ≤ reserve limit floor).
Proof.
  unfold reserve. split; [lia|]. intros H. assert (floor ≤ limit / 2); [|lia].
  apply N.div_le_lower_bound; lia.
Qed.

(** memory.high sits below memory.max, which sits below the home's limit. *)
Lemma capMemory_order c : (capMemory c).1 ≤ (capMemory c).2 ≤ c.
Proof. unfold capMemory. simpl. generalize (reserve c reserveMinBytes). intros r. generalize ((c - r) / 8). intros q. lia. Qed.

(** ** The flag reads back *)

Lemma space_len_app s t : contains_space s = false → s ≠ "" → space_len (s +:+ " " +:+ t) = 0%nat.
Proof.
  destruct s as [|a s]; [done|]. intros H _. apply orb_false_iff in H as [H _]. apply Nat.ltb_ge in H.
  assert (space_len (String a s) = 0%nat) as E by lia. clear H. rewrite str_app_cons. destruct s as [|b s].
  - simpl in *. case_match; [done|]. destruct (N_of_ascii a =? 194) eqn:Ea; destruct t; try done; simpl; rewrite ?andb_false_r; done.
  - rewrite str_app_cons. destruct s as [|d s]; [|rewrite str_app_cons; exact E].
    simpl in *. case_match; [done|]. case_match; [done|]. rewrite !andb_false_r. done.
Qed.

Lemma contains_space_tail c s : contains_space (String c s) = false → contains_space s = false.
Proof. intros H. simpl in H. by apply orb_false_iff in H as [_ ?]. Qed.

(** A field without white space is read whole, up to the space after it. *)
Lemma fieldsFrom_field s t acc fuel :
  contains_space s = false → (acc +:+ s) ≠ "" → (String.length s < fuel)%nat →
  fieldsFrom fuel acc (s +:+ " " +:+ t) = (acc +:+ s) :: fieldsFrom (fuel - String.length s - 1) "" t.
Proof.
  revert acc fuel. induction s as [|c s IH]; intros acc fuel Hs Hne Hf.
  - destruct fuel as [|fuel]; [simpl in Hf; lia|]. rewrite str_app_nil_r in *. simpl. rewrite (bool_decide_eq_false_2 (acc = "")) by done. simpl. by rewrite Nat.sub_0_r.
  - destruct fuel as [|fuel]; [simpl in Hf; lia|]. rewrite str_app_cons.
    assert (space_len (String c (s +:+ " " +:+ t)) = 0%nat) as E by (rewrite <- str_app_cons; by apply space_len_app).
    cbn [fieldsFrom]. rewrite E. rewrite IH; [|by eapply contains_space_tail| |simpl in Hf; lia].
    + rewrite str_app_assoc. simpl. done.
    + rewrite str_app_assoc. done.
Qed.

Lemma no_space_len c s : contains_space (String c s) = false → space_len (String c s) = 0%nat.
Proof. intros H. cbn [contains_space] in H. apply orb_false_iff in H as [H _]. apply Nat.ltb_ge in H. lia. Qed.

Lemma fieldsFrom_last s acc fuel :
  contains_space s = false → (acc +:+ s) ≠ "" → (String.length s < fuel)%nat → fieldsFrom fuel acc s = [acc +:+ s].
Proof.
  revert acc fuel. induction s as [|c s IH]; intros acc fuel Hs Hne Hf; (destruct fuel as [|fuel]; [simpl in Hf; lia|]).
  - rewrite str_app_nil_r in *. cbn [fieldsFrom]. by rewrite bool_decide_eq_false_2.
  - cbn [fieldsFrom]. rewrite (no_space_len c s Hs). rewrite IH; [|by eapply contains_space_tail| |simpl in Hf; lia]; by rewrite str_app_assoc.
Qed.

(** A command [FormatTemplateFlag] takes. *)
Definition words (command : list string) : Prop := command ≠ [] ∧ Forall (λ arg, arg ≠ "" ∧ contains_space arg = false) command.

Lemma Fields_join command : words command → ∀ fuel, (String.length (joinSpace command) < fuel)%nat → fieldsFrom fuel "" (joinSpace command) = command.
Proof.
  intros [Hne Hall]. induction Hall as [|a l [Ha Hs] Hl IH]; [done|]. intros fuel Hf. destruct l as [|b l].
  - simpl in *. rewrite fieldsFrom_last; done.
  - change (joinSpace (a :: b :: l)) with (a +:+ " " +:+ joinSpace (b :: l)) in *. rewrite !str_length_app in Hf. simpl in Hf.
    rewrite fieldsFrom_field; [|done|done|simpl; lia]. f_equal. apply IH; [done|]. simpl in *. lia.
Qed.

Lemma trim_left_solid n s : space_len s = 0%nat → trim_left n s = s.
Proof. intros H. destruct n; simpl; [done|]. by rewrite H. Qed.

Lemma trim_right_step c s :
  space_len (String c s) = 0%nat → trim_right s = s → trim_right (String c s) = String c s.
Proof.
  intros H E. cbn [trim_right]. rewrite trim_left_solid by done. rewrite (bool_decide_eq_false_2 (String c s = "")) by done. by rewrite E.
Qed.

Lemma trim_word s : contains_space s = false → trim_right s = s.
Proof.
  induction s as [|c s IH]; intros Hs; [done|]. apply trim_right_step; [by apply no_space_len|]. apply IH. by eapply contains_space_tail.
Qed.

Lemma trim_join command : words command → joinSpace command ≠ "" ∧ space_len (joinSpace command) = 0%nat ∧ trim_right (joinSpace command) = joinSpace command.
Proof.
  intros [Hne Hall]. induction Hall as [|a l [Ha Hs] Hl IH]; [done|]. destruct l as [|b l].
  - simpl. destruct a as [|c a]; [done|]. split_and!; [done|by apply no_space_len|by apply trim_word].
  - change (joinSpace (a :: b :: l)) with (a +:+ " " +:+ joinSpace (b :: l)). destruct IH as (I1 & I2 & I3); [done|].
    set (rest := joinSpace (b :: l)) in *. clearbody rest.
    split_and!; [destruct a; done|by apply space_len_app|].
    clear Ha Hne. induction a as [|c a IHa].
    + change ("" +:+ " " +:+ rest) with (String " " rest). cbn [trim_right String.length trim_left]. simpl (space_len _).
      cbn [Nat.eqb str_drop]. rewrite trim_left_solid by done. rewrite (bool_decide_eq_false_2 (rest = "")) by done. by rewrite I3.
    + rewrite str_app_cons. apply trim_right_step.
      * rewrite <- str_app_cons. by apply space_len_app.
      * apply IHa. by eapply contains_space_tail.
Qed.

Lemma digest_chars d : templateDigestRE d = true → all_chars is_graphic d = true ∧ contains_char "=" d = false ∧ d ≠ "".
Proof.
  intros H. apply andb_true_iff in H as [H Hc]. apply andb_true_iff in H as [Hp Hl].
  assert (d = "sha256:" +:+ str_drop 7 d) as E.
  { by apply (prefix_split "sha256:"). }
  rewrite E. split_and!; [| |done].
  - rewrite all_chars_app. apply andb_true_iff. split; [done|]. eapply all_chars_impl; [|exact Hc].
    intros c [H|H]%orb_true_iff; unfold is_graphic, in_range in *; apply andb_true_iff in H as [H1 H2]; apply N.leb_le in H1, H2; simpl in H1, H2;
      apply andb_true_iff; split; apply N.leb_le; simpl; lia.
  - rewrite contains_char_app. apply orb_false_iff. split; [done|]. by eapply all_chars_contains; [|exact Hc].
Qed.

(** A template flag reads back.  What FormatTemplateFlag writes for a digest
    and a command, ParseTemplateFlag takes into the map, and Command then gives
    that digest exactly that command, argument by argument; every other
    template of the map is as it was. *)
Theorem template_flag_round_trip digest command v templates :
  FormatTemplateFlag digest command = Some v →
  ∃ m, ParseTemplateFlag templates v = Some m ∧ Command m digest = Some command ∧
       ∀ d, d ≠ digest → m !! d = templates !! d.
Proof.
  unfold FormatTemplateFlag. destruct (templateDigestRE digest) eqn:Hd; [|done]. simpl.
  destruct (Nat.eqb_spec (length command) 0) as [|Hne]; [done|].
  destruct (existsb _ command) eqn:Hx; [done|]. intros [= <-].
  assert (words command) as Hw.
  { split; [by intros ->|]. apply Forall_forall. intros arg Ha. split.
    - intros ->. rewrite <- not_true_iff_false, existsb_exists in Hx. apply Hx. exists "". split; [by apply list_elem_of_In|done].
    - apply not_true_iff_false. intros E. rewrite <- not_true_iff_false, existsb_exists in Hx. apply Hx. exists arg.
      split; [by apply list_elem_of_In|]. rewrite E. by apply orb_true_r. }
  destruct (digest_chars digest Hd) as (Hg & Heq & Hnil), (trim_join command Hw) as (J1 & J2 & J3).
  unfold ParseTemplateFlag. change ("=" +:+ joinSpace command) with (String "=" (joinSpace command)).
  rewrite Cut_app by done. assert (TrimSpace (joinSpace command) = joinSpace command) as E by (unfold TrimSpace; by rewrite trim_left_solid).
  rewrite E, TrimSpace_graphic by done. rewrite !bool_decide_eq_false_2 by done. simpl.
  eexists. split; [done|]. split.
  - unfold Command. rewrite lookup_insert_eq. f_equal. unfold Fields. apply Fields_join; [done|lia].
  - intros d Hdd. by rewrite lookup_insert_ne.
Qed.

Definition zeroDigest : string :=
  "sha256:0000000000000000000000000000000000000000000000000000000000000000".

Lemma template_flag_round_trip_witness :
  ∃ v m, FormatTemplateFlag zeroDigest ["/bin/zygote"; "-n"; "4"] = Some v ∧ ParseTemplateFlag ∅ v = Some m ∧
    Command m zeroDigest = Some ["/bin/zygote"; "-n"; "4"].
Proof.
  assert (FormatTemplateFlag zeroDigest ["/bin/zygote"; "-n"; "4"] = Some (zeroDigest +:+ "=/bin/zygote -n 4")) as E by (vm_compute; reflexivity).
  exists (zeroDigest +:+ "=/bin/zygote -n 4").
  destruct (template_flag_round_trip zeroDigest ["/bin/zygote"; "-n"; "4"] (zeroDigest +:+ "=/bin/zygote -n 4") ∅ E) as (m & H1 & H2 & _).
  exists m. split; [exact E|]. split; [exact H1|exact H2].
Defined.

(** A digest of white space only is not refused: it is stored as "". *)
Lemma blank_digest_taken : ParseTemplateFlag ∅ " =/bin/true" = Some {[ "" := "/bin/true" ]}.
Proof. vm_compute. reflexivity. Qed.
