(* ===== verification/ParentStore.v ===== *)
(** * The parent store and its prune (pkg/runtime/host/parents_linux.go)

    A delta names the template checkpoint it was computed against by hash; the
    store keeps each as long as a warm instance or a delta names it.  A section
    of code (useParents) that loads, files or pulls an entry, or records a use
    of one, holds storeMu for reading; the pruner scans the names with no lock,
    then takes the lock for writing if it is free, and removes only if no
    section ended since the scan began.  Every step of a section and of the
    pruner is a function of the store here, and a run is any interleaving of
    them: PrepareTemplate, Park, merge, ensureParent and publishParent are each
    an [openSection], steps of the section, and a [closeSection].

    The author images a link entry points to (pruneImages) and the sweep at
    start are not modelled; storeUses is a counter that does not wrap. *)

From Stdlib Require Import Ascii.
From S2P Require Import Prelude GoLib.
From stdpp Require Import options.

(** ** State *)

(** [func isHex64(s string) bool]. *)
Definition isHex64 (s : string) : bool :=
  (String.length s =? 64)%nat && all_chars (λ c, in_range "0" "9" c || in_range "a" "f" c) s.

(** What names a parent: a warm instance, or the manifest of a delta under
    DeltaDir/<grant>/<delta>. *)
Inductive pname := WarmOf (uid : string) | DeltaAt (grant delta : string).

#[export] Instance pname_eq_dec : EqDecision pname.
Proof. solve_decision. Defined.
#[export] Instance pname_countable : Countable pname.
Proof.
  refine (inj_countable' (λ n, match n with WarmOf u => inl u | DeltaAt g d => inr (g, d) end)
    (λ x, match x with inl u => WarmOf u | inr (g, d) => DeltaAt g d end) _).
  by intros [].
Defined.

(** An open section: the hashes it relies on being in the store, those it has a
    loaded parent of, the uses it recorded, its scratch directories. *)
Record section := mkSection {
  sec_held : gset string; sec_open : gset string; sec_wrote : gset pname; sec_scratch : gset string;
}.
Definition newSection : section := mkSection ∅ ∅ ∅ ∅.

(** Where the pruner is: waiting ([again]: to be tried again after pruneRetry),
    about to scan with [rest] scans to go, past the warm instances,
    in the deltas (the grants, and the deltas of one, still to read), holding
    the store, removing. *)
Inductive pruner :=
| PIdle (again : bool)
| PScan (rest : nat)
| PStart (rest : nat) (seen : N)
| PWarms (rest : nat) (seen : N) (keep : gset string)
| PDeltas (rest : nat) (seen : N) (keep : gset string) (grants : list string) (deltas : list pname)
| PLocked (rest : nat) (seen : N) (keep : gset string)
| PRemove (keep : gset string) (gone : list string).

(** The runtime's part in it: the names under parents/, the loaded parents
    (r.parents), what names a parent, the open sections (storeMu's readers),
    whether the pruner holds storeMu, storeUses, the pruner.  [ps_sure] is the
    names recorded in a section, as the ones that matter are, which were not
    renamed or replaced outside one since and whose manifest no scan failed to
    read. *)
Record store := mkStore {
  ps_entries : gset string; ps_loaded : gset string; ps_names : gmap pname string; ps_sure : gset pname;
  ps_sections : gmap nat section; ps_locked : bool; ps_uses : N; ps_pruner : pruner;
}.

Definition set_section (i : nat) (c : section) (s : store) : store :=
  mkStore (ps_entries s) (ps_loaded s) (ps_names s) (ps_sure s) (<[i := c]> (ps_sections s)) (ps_locked s) (ps_uses s) (ps_pruner s).
Definition set_files (entries loaded : gset string) (s : store) : store :=
  mkStore entries loaded (ps_names s) (ps_sure s) (ps_sections s) (ps_locked s) (ps_uses s) (ps_pruner s).
Definition set_names (names : gmap pname string) (sure : gset pname) (s : store) : store :=
  mkStore (ps_entries s) (ps_loaded s) names sure (ps_sections s) (ps_locked s) (ps_uses s) (ps_pruner s).
Definition set_pruner (locked : bool) (p : pruner) (s : store) : store :=
  mkStore (ps_entries s) (ps_loaded s) (ps_names s) (ps_sure s) (ps_sections s) locked (ps_uses s) p.

(** ** Sections *)

(** [func (r *Runtime) useParents() (done func())]: RLock, not while the pruner
    holds the store. *)
Definition openSection (i : nat) (s : store) : option store :=
  match ps_locked s, ps_sections s !! i with
  | false, None => Some (set_section i newSection s)
  | _, _ => None
  end.

(** The [done] of useParents: storeUses.Add(1), RUnlock. *)
Definition closeSection (i : nat) (s : store) : option store :=
  match ps_sections s !! i with
  | Some _ => Some (mkStore (ps_entries s) (ps_loaded s) (ps_names s) (ps_sure s) (delete i (ps_sections s))
                      (ps_locked s) (ps_uses s + 1) (ps_pruner s))
  | None => None
  end.

(** [func (r *Runtime) registerParent(dir string, move bool)], in section [i]:
    the checkpoint of hash [sha] is in the store and loaded. *)
Definition registerParent (i : nat) (sha : string) (s : store) : option store :=
  match ps_sections s !! i with
  | Some c =>
      Some (set_section i (mkSection ({[sha]} ∪ sec_held c) ({[sha]} ∪ sec_open c) (sec_wrote c) (sec_scratch c))
        (set_files ({[sha]} ∪ ps_entries s) ({[sha]} ∪ ps_loaded s) s))
  | None => None
  end.

(** [func (r *Runtime) parent(sha string)], in a section: in memory, or on disk,
    which it then loads.  None is ErrParentMissing. *)
Definition parent (i : nat) (sha : string) (s : store) : option store :=
  match ps_sections s !! i with
  | Some c =>
      if isHex64 sha && (bool_decide (sha ∈ ps_loaded s) || bool_decide (sha ∈ ps_entries s)) then
        Some (set_section i (mkSection ({[sha]} ∪ sec_held c) ({[sha]} ∪ sec_open c) (sec_wrote c) (sec_scratch c))
          (set_files (ps_entries s) ({[sha]} ∪ ps_loaded s) s))
      else None
  | None => None
  end.

(** os.MkdirTemp(r.parentsDir(), "."+...): a pull's or a seal's directory, new. *)
Definition makeScratch (i : nat) (name : string) (s : store) : option store :=
  match ps_sections s !! i with
  | Some c =>
      if HasPrefix name "." && negb (bool_decide (name ∈ ps_entries s)) then
        Some (set_section i (mkSection (sec_held c) (sec_open c) (sec_wrote c) ({[name]} ∪ sec_scratch c))
          (set_files ({[name]} ∪ ps_entries s) (ps_loaded s) s))
      else None
  | None => None
  end.

(** os.RemoveAll(tmp), the section's own. *)
Definition dropScratch (i : nat) (name : string) (s : store) : option store :=
  match ps_sections s !! i with
  | Some c =>
      if bool_decide (name ∈ sec_scratch c) then
        Some (set_section i (mkSection (sec_held c) (sec_open c) (sec_wrote c) (sec_scratch c ∖ {[name]}))
          (set_files (ps_entries s ∖ {[name]}) (ps_loaded s) s))
      else None
  | None => None
  end.

(** The end of [func (r *Runtime) pullParent(ctx, repo, sha string) error]: the
    pull directory becomes the entry, or goes because another's has. *)
Definition pullParent (i : nat) (name sha : string) (s : store) : option store :=
  match dropScratch i name s with
  | Some s' =>
      match ps_sections s' !! i with
      | Some c =>
          if isHex64 sha then
            Some (set_section i (mkSection ({[sha]} ∪ sec_held c) (sec_open c) (sec_wrote c) (sec_scratch c))
              (set_files ({[sha]} ∪ ps_entries s') (ps_loaded s') s'))
          else None
      | None => None
      end
  | None => None
  end.

(** A use recorded in a section that holds the parent: the warm published
    (PrepareTemplate), the manifest written (Park), or the manifest a claim
    had written found good (ClaimDelta, through ensureParent). *)
Definition recordUse (i : nat) (k : pname) (sha : string) (s : store) : option store :=
  match ps_sections s !! i with
  | Some c =>
      if bool_decide (sha ∈ sec_held c) then
        Some (set_section i (mkSection (sec_held c) (sec_open c) ({[k]} ∪ sec_wrote c) (sec_scratch c))
          (set_names (<[k := sha]> (ps_names s)) ({[k]} ∪ ps_sure s) s))
      else None
  | None => None
  end.

(** A manifest put in place in no section: a claim's pull (ClaimDelta), a
    resume's or a failed park's rename. *)
Definition importName (k : pname) (sha : string) (s : store) : store :=
  set_names (<[k := sha]> (ps_names s)) (ps_sure s ∖ {[k]}) s.

(** A warm ends, a delta is discarded, at any time. *)
Definition dropName (k : pname) (s : store) : store :=
  set_names (delete k (ps_names s)) (ps_sure s ∖ {[k]}) s.

(** The rename of Park's giveBack: a delta kept as dir+".failed". *)
Definition giveBack (grant delta : string) (s : store) : store :=
  match ps_names s !! DeltaAt grant delta with
  | Some sha => importName (DeltaAt grant (delta +:+ ".failed")) sha (dropName (DeltaAt grant delta) s)
  | None => s
  end.

(** ** The prune *)

Definition pruneScans : nat := 3.

(** The scan's first part: the parents the warm instances name. *)
Definition warmParents (names : gmap pname string) : gset string :=
  list_to_set (flat_map (λ kv, match kv with (WarmOf _, sha) => [sha] | _ => [] end) (map_to_list names)).

(** os.ReadDir(DeltaDir), and of one grant's directory. *)
Definition grantDirs (names : gmap pname string) : list string :=
  flat_map (λ kv, match kv with (DeltaAt g _, _) => [g] | _ => [] end) (map_to_list names).
Definition deltaDirs (names : gmap pname string) (g : string) : list pname :=
  flat_map (λ kv, match kv with (DeltaAt g' d, _) => if g' ==? g then [DeltaAt g' d] else [] | _ => [] end) (map_to_list names).

(** What removeUnnamed takes: scratch, and hashes [keep] does not name. *)
Definition unnamed (keep : gset string) (name : string) : bool :=
  HasPrefix name "." || (isHex64 name && negb (bool_decide (name ∈ keep))).

(** One step of [func (r *Runtime) pruneParents() bool], with namedParents'
    scan and removeUnnamed: up to pruneScans scans.  [fails]: the directory
    cannot be listed, the manifest not read, the entry not removed. *)
Definition pruneStep (fails : bool) (s : store) : store :=
  match ps_pruner s with
  | PIdle _ => set_pruner false (PScan pruneScans) s
  | PScan O => set_pruner false (PIdle true) s
  | PScan (S rest) => set_pruner false (PStart rest (ps_uses s)) s
  | PStart rest seen => set_pruner false (PWarms rest seen (warmParents (ps_names s))) s
  | PWarms rest seen keep =>
      set_pruner false (if fails then PIdle true else PDeltas rest seen keep (grantDirs (ps_names s)) []) s
  | PDeltas rest seen keep gs ks =>
      match ks, gs with
      | k :: ks', _ =>
          let keep' := match fails, ps_names s !! k with false, Some sha => {[sha]} ∪ keep | _, _ => keep end in
          set_pruner false (PDeltas rest seen keep' gs ks') s
      | [], g :: gs' =>
          set_pruner false (if fails then PIdle true else PDeltas rest seen keep gs' (deltaDirs (ps_names s) g)) s
      | [], [] =>
          if bool_decide (ps_sections s = ∅) then set_pruner true (PLocked rest seen keep) s
          else set_pruner false (PIdle true) s
      end
  | PLocked rest seen keep =>
      if (ps_uses s =? seen)%N then
        set_pruner true (PRemove keep (filter (λ n, Is_true (unnamed keep n)) (elements (ps_entries s))))
          (set_files (ps_entries s) (ps_loaded s ∩ keep) s)
      else set_pruner false (PScan rest) s
  | PRemove keep (n :: gone) =>
      set_pruner true (PRemove keep gone) (set_files (if fails then ps_entries s else ps_entries s ∖ {[n]}) (ps_loaded s) s)
  | PRemove keep [] => set_pruner false (PIdle false) s
  end.

(** The manifest the pruner is about to read cannot be read: its delta is no
    longer among the sure. *)
Definition unread (s : store) : store :=
  match ps_pruner s with
  | PDeltas _ _ _ _ (k :: _) => set_names (ps_names s) (ps_sure s ∖ {[k]}) s
  | _ => s
  end.

(** ** Runs

    The hash of a checkpoint (backend.Parent's SHA256) is 64 hex characters.
    Any step of the pruner may fail. *)

Inductive storeStep : store → store → Prop :=
| StepOpen i s s' : openSection i s = Some s' → storeStep s s'
| StepClose i s s' : closeSection i s = Some s' → storeStep s s'
| StepRegister i sha s s' : isHex64 sha = true → registerParent i sha s = Some s' → storeStep s s'
| StepParent i sha s s' : parent i sha s = Some s' → storeStep s s'
| StepScratch i n s s' : makeScratch i n s = Some s' → storeStep s s'
| StepDropScratch i n s s' : dropScratch i n s = Some s' → storeStep s s'
| StepPull i n sha s s' : pullParent i n sha s = Some s' → storeStep s s'
| StepRecord i k sha s s' : recordUse i k sha s = Some s' → storeStep s s'
| StepImport k sha s : storeStep s (importName k sha s)
| StepDrop k s : storeStep s (dropName k s)
| StepGiveBack g d s : storeStep s (giveBack g d s)
| StepPrune fails s : storeStep s (pruneStep fails (if fails then unread s else s)).

(** What a start finds: entries, none loaded; the names in [sure] are of them. *)
Definition openStore (entries : gset string) (names : gmap pname string) (sure : gset pname) : store :=
  mkStore entries ∅ names sure ∅ false 0 (PIdle false).

Inductive storeReaches : store → Prop :=
| ReachOpen entries names sure :
    (∀ k sha, k ∈ sure → names !! k = Some sha → isHex64 sha = true ∧ sha ∈ entries) → storeReaches (openStore entries names sure)
| ReachStep s s' : storeReaches s → storeStep s s' → storeReaches s'.
