(* ===== verification/ParentFacts.v ===== *)
(** * The prune removes only what nothing names

    The invariant of every interleaving of sections and the pruner of
    ParentStore.v, the safety of the prune, and what one does alone. *)

From Stdlib Require Import Ascii.
From S2P Require Import Prelude GoLib ParentStore.
From stdpp Require Import options.

(** ** The invariant *)

(** No open section recorded [k]. *)
Definition settled (s : store) (k : pname) : Prop := ∀ i c, ps_sections s !! i = Some c → k ∉ sec_wrote c.

(** The recorded name [k] of [sha] is among those the scan has found or will:
    where the pruner is, with [seen] the count of ended sections it loaded. *)
Definition found (p : pruner) (k : pname) (sha : string) : Prop :=
  match p with
  | PIdle _ | PScan _ | PStart _ _ => True
  | PWarms _ _ keep => match k with WarmOf _ => sha ∈ keep | _ => True end
  | PDeltas _ _ keep gs ks => sha ∈ keep ∨ match k with WarmOf _ => False | DeltaAt g _ => g ∈ gs ∨ k ∈ ks end
  | PLocked _ _ keep | PRemove keep _ => sha ∈ keep
  end.

(** Nothing the scan began after has changed: it counts. *)
Definition current (s : store) : Prop :=
  match ps_pruner s with
  | PIdle _ | PScan _ => False
  | PStart _ seen | PWarms _ seen _ | PDeltas _ seen _ _ _ | PLocked _ seen _ => ps_uses s = seen
  | PRemove _ _ => True
  end.

Definition holding (p : pruner) : bool := match p with PLocked _ _ _ | PRemove _ _ => true | _ => false end.
Definition seenOf (p : pruner) : option N :=
  match p with PStart _ seen | PWarms _ seen _ | PDeltas _ seen _ _ _ | PLocked _ seen _ => Some seen | _ => None end.

Record PInv (s : store) : Prop := {
  pi_lock : ps_locked s = holding (ps_pruner s);
  pi_alone : ps_locked s = true → ps_sections s = ∅;
  pi_seen : ∀ seen, seenOf (ps_pruner s) = Some seen → (seen ≤ ps_uses s)%N;
  pi_sure : ∀ k sha, k ∈ ps_sure s → ps_names s !! k = Some sha → isHex64 sha = true ∧ sha ∈ ps_entries s;
  pi_loaded : ∀ sha, sha ∈ ps_loaded s → isHex64 sha = true ∧ sha ∈ ps_entries s;
  pi_held : ∀ i c sha, ps_sections s !! i = Some c → sha ∈ sec_held c → isHex64 sha = true ∧ sha ∈ ps_entries s;
  pi_open : ∀ i c sha, ps_sections s !! i = Some c → sha ∈ sec_open c → sha ∈ ps_loaded s;
  pi_scratch : ∀ i c n, ps_sections s !! i = Some c → n ∈ sec_scratch c → HasPrefix n "." = true ∧ n ∈ ps_entries s;
  pi_apart : ∀ i j c d n, i ≠ j → ps_sections s !! i = Some c → ps_sections s !! j = Some d → n ∈ sec_scratch c → n ∉ sec_scratch d;
  pi_found : ∀ k sha, current s → k ∈ ps_sure s → ps_names s !! k = Some sha → settled s k → found (ps_pruner s) k sha;
  pi_gone : ∀ keep gone n, ps_pruner s = PRemove keep gone → n ∈ gone → unnamed keep n = true;
  pi_closed : ∀ keep gone sha, ps_pruner s = PRemove keep gone → sha ∈ ps_loaded s → sha ∈ keep;
}.

(** ** Hashes and scratch names are apart *)

Lemma hex_no_dot sha : isHex64 sha = true → HasPrefix sha "." = false.
Proof.
  unfold isHex64, HasPrefix. intros [_ H]%andb_true_iff. destruct sha as [|c sha]; [done|]. cbn [all_chars] in H.
  apply andb_true_iff in H as [H _]. clear -H. destruct c as [[] [] [] [] [] [] [] []]; vm_compute in H; done.
Qed.

Lemma unnamed_hex keep sha : isHex64 sha = true → unnamed keep sha = negb (bool_decide (sha ∈ keep)).
Proof. intros H. unfold unnamed. by rewrite (hex_no_dot _ H), H. Qed.

(** ** What the scan reads *)

Lemma warmParents_spec names u sha : names !! WarmOf u = Some sha → sha ∈ warmParents names.
Proof.
  intros H. unfold warmParents. rewrite elem_of_list_to_set, list_elem_of_In. apply in_flat_map.
  exists (WarmOf u, sha). split; [|by left]. by apply list_elem_of_In, elem_of_map_to_list.
Qed.

Lemma grantDirs_spec names g d sha : names !! DeltaAt g d = Some sha → g ∈ grantDirs names.
Proof.
  intros H. unfold grantDirs. rewrite list_elem_of_In. apply in_flat_map.
  exists (DeltaAt g d, sha). split; [|by left]. by apply list_elem_of_In, elem_of_map_to_list.
Qed.

Lemma deltaDirs_spec names g d sha : names !! DeltaAt g d = Some sha → DeltaAt g d ∈ deltaDirs names g.
Proof.
  intros H. unfold deltaDirs. rewrite list_elem_of_In. apply in_flat_map.
  exists (DeltaAt g d, sha). split; [by apply list_elem_of_In, elem_of_map_to_list|]. cbn. rewrite bool_decide_eq_true_2 by done. by left.
Qed.

(** ** Sections keep it *)

Lemma not_holding s i c : PInv s → ps_sections s !! i = Some c → ps_locked s = false.
Proof.
  intros HI Hc. destruct (ps_locked s) eqn:E; [|done]. apply (pi_alone _ HI) in E. rewrite E in Hc. by apply lookup_empty_Some in Hc.
Qed.

(** A step of section [i]: it may file and load hashes, make and drop its own
    scratch, and record uses of what is in the store. *)
Lemma section_step s i c c' E L names sure :
  PInv s → ps_sections s !! i = Some c →
  (∀ sha, isHex64 sha = true → sha ∈ ps_entries s → sha ∈ E) →
  ps_loaded s ⊆ L → (∀ sha, sha ∈ L → isHex64 sha = true ∧ sha ∈ E) →
  (∀ sha, sha ∈ sec_held c' → isHex64 sha = true ∧ sha ∈ E) → sec_open c' ⊆ L →
  (∀ n, n ∈ sec_scratch c' → HasPrefix n "." = true ∧ n ∈ E) →
  (∀ j d n, i ≠ j → ps_sections s !! j = Some d → n ∈ sec_scratch d → n ∈ E ∧ n ∉ sec_scratch c') →
  sec_wrote c ⊆ sec_wrote c' →
  (∀ k sha, k ∈ sure → names !! k = Some sha →
     k ∈ ps_sure s ∧ ps_names s !! k = Some sha ∨ k ∈ sec_wrote c' ∧ isHex64 sha = true ∧ sha ∈ E) →
  PInv (set_section i c' (set_files E L (set_names names sure s))).
Proof.
  intros HI Hc HE HL HLE Hheld Hopen Hscr Hoth Hw Hn. pose proof (not_holding _ _ _ HI Hc) as Hl.
  assert (holding (ps_pruner s) = false) as Hh by (rewrite <-(pi_lock _ HI); done).
  constructor; simpl.
  - apply (pi_lock _ HI).
  - congruence.
  - apply (pi_seen _ HI).
  - intros k sha Hk Hs. destruct (Hn k sha Hk Hs) as [[? H2]|(_ & ? & ?)]; [|done]. destruct (pi_sure _ HI k sha) as [? ?]; auto.
  - apply HLE.
  - intros j d sha. rewrite lookup_insert. case_decide; [intros [= <-]; apply Hheld|].
    intros Hd Hsha. destruct (pi_held _ HI j d sha Hd Hsha); auto.
  - intros j d sha. rewrite lookup_insert. case_decide; [intros [= <-]; set_solver|].
    intros Hd Hsha. apply HL. by apply (pi_open _ HI j d).
  - intros j d n. rewrite lookup_insert. case_decide; [intros [= <-]; apply Hscr|].
    intros Hd Hsha. destruct (Hoth j d n) as [? _]; [done..|]. by destruct (pi_scratch _ HI j d n).
  - intros j1 j2 d1 d2 n Hne. rewrite !lookup_insert. repeat case_decide; subst; try congruence.
    + intros [= <-] Hd Hn1 Hn2. by destruct (Hoth j2 d2 n).
    + intros Hd [= <-] Hn1 Hn2. by destruct (Hoth j1 d1 n).
    + by apply (pi_apart _ HI).
  - intros k sha Hcur Hk Hs Hset. assert (k ∉ sec_wrote c') as Hk' by (apply (Hset i c'); apply lookup_insert_eq).
    destruct (Hn k sha Hk Hs) as [[H1 H2]|[? _]]; [|done]. apply (pi_found _ HI); [done..|].
    intros j d Hd. destruct (decide (i = j)) as [<-|Hne]; [|apply (Hset j); simpl; by rewrite lookup_insert_ne].
    rewrite Hd in Hc. injection Hc as ->. set_solver.
  - intros keep gone n Hp. rewrite Hp in Hh. done.
  - intros keep gone n Hp. rewrite Hp in Hh. done.
Qed.

Lemma section_files s i c c' E L :
  PInv s → ps_sections s !! i = Some c →
  (∀ sha, isHex64 sha = true → sha ∈ ps_entries s → sha ∈ E) →
  ps_loaded s ⊆ L → (∀ sha, sha ∈ L → isHex64 sha = true ∧ sha ∈ E) →
  (∀ sha, sha ∈ sec_held c' → isHex64 sha = true ∧ sha ∈ E) → sec_open c' ⊆ L →
  (∀ n, n ∈ sec_scratch c' → HasPrefix n "." = true ∧ n ∈ E) →
  (∀ j d n, i ≠ j → ps_sections s !! j = Some d → n ∈ sec_scratch d → n ∈ E ∧ n ∉ sec_scratch c') →
  sec_wrote c ⊆ sec_wrote c' →
  PInv (set_section i c' (set_files E L s)).
Proof.
  intros HI Hc. intros. change (PInv (set_section i c' (set_files E L (set_names (ps_names s) (ps_sure s) s)))).
  apply (section_step s i c); auto.
Qed.

(** An entry filed (and loaded, if [L] has it) for a section that holds it. *)
Lemma filed s i c sha L o :
  PInv s → ps_sections s !! i = Some c → isHex64 sha = true →
  L ⊆ {[sha]} ∪ ps_loaded s → ps_loaded s ⊆ L → o ⊆ L → 
  PInv (set_section i (mkSection ({[sha]} ∪ sec_held c) o (sec_wrote c) (sec_scratch c)) (set_files ({[sha]} ∪ ps_entries s) L s)).
Proof.
  intros HI Hc Hx HL HL' Ho. apply (section_files s i c); simpl; try done.
  - set_solver.
  - intros x [->%elem_of_singleton|Hx']%HL%elem_of_union; [set_solver|]. destruct (pi_loaded _ HI x Hx'). set_solver.
  - intros x [->%elem_of_singleton|Hx']%elem_of_union; [set_solver|]. destruct (pi_held _ HI i c x Hc Hx'). set_solver.
  - intros n Hn. destruct (pi_scratch _ HI i c n Hc Hn). set_solver.
  - intros j d n Hj Hd Hn. destruct (pi_scratch _ HI j d n Hd Hn). pose proof (pi_apart _ HI j i d c n). set_solver.
Qed.

Lemma registerParent_keeps i sha s s' : isHex64 sha = true → registerParent i sha s = Some s' → PInv s → PInv s'.
Proof.
  unfold registerParent. intros Hx. destruct (ps_sections s !! i) as [c|] eqn:Hc; [|done]. intros [= <-] HI.
  apply filed; [done|done|done|set_solver|set_solver|]. pose proof (pi_open _ HI i c). set_solver.
Qed.

Lemma parent_keeps i sha s s' : parent i sha s = Some s' → PInv s → PInv s'.
Proof.
  unfold parent. destruct (ps_sections s !! i) as [c|] eqn:Hc; [|done]. case_match eqn:Hd; [|done]. intros [= <-] HI.
  apply andb_true_iff in Hd as [Hx Hd]. assert (sha ∈ ps_entries s) as Hin.
  { apply orb_true_iff in Hd as [Hd|Hd]; apply bool_decide_eq_true_1 in Hd; [by destruct (pi_loaded _ HI sha Hd)|done]. }
  replace (ps_entries s) with ({[sha]} ∪ ps_entries s) at 1 by set_solver.
  apply filed; [done|done|done|set_solver|set_solver|]. pose proof (pi_open _ HI i c). set_solver.
Qed.

Lemma makeScratch_keeps i n s s' : makeScratch i n s = Some s' → PInv s → PInv s'.
Proof.
  unfold makeScratch. destruct (ps_sections s !! i) as [c|] eqn:Hc; [|done]. case_match eqn:Hd; [|done]. intros [= <-] HI.
  apply andb_true_iff in Hd as [Hx Hd]. apply negb_true_iff, bool_decide_eq_false_1 in Hd.
  apply (section_files s i c); simpl; try done.
  - set_solver.
  - intros x Hx'. destruct (pi_loaded _ HI x Hx'). set_solver.
  - intros x Hx'. destruct (pi_held _ HI i c x Hc Hx'). set_solver.
  - pose proof (pi_open _ HI i c). set_solver.
  - intros m [->%elem_of_singleton|Hm]%elem_of_union; [set_solver|]. destruct (pi_scratch _ HI i c m Hc Hm). set_solver.
  - intros j d m Hj Hd' Hm. destruct (pi_scratch _ HI j d m Hd' Hm). pose proof (pi_apart _ HI j i d c m). set_solver.
Qed.

Lemma dropScratch_keeps i n s s' : dropScratch i n s = Some s' → PInv s → PInv s'.
Proof.
  unfold dropScratch. destruct (ps_sections s !! i) as [c|] eqn:Hc; [|done]. case_match eqn:Hd; [|done]. intros [= <-] HI.
  apply bool_decide_eq_true_1 in Hd. destruct (pi_scratch _ HI i c n Hc Hd) as [Hdot _].
  assert (∀ sha, isHex64 sha = true → sha ∈ ps_entries s → sha ∈ ps_entries s ∖ {[n]}) as Hk.
  { intros sha Hx Hin. apply elem_of_difference. split; [done|]. intros ->%elem_of_singleton. rewrite (hex_no_dot _ Hx) in Hdot. done. }
  apply (section_files s i c); simpl; try done.
  - intros x Hx'. destruct (pi_loaded _ HI x Hx'). auto.
  - intros x Hx'. destruct (pi_held _ HI i c x Hc Hx'). auto.
  - pose proof (pi_open _ HI i c). set_solver.
  - intros m [Hm ?]%elem_of_difference. destruct (pi_scratch _ HI i c m Hc Hm). set_solver.
  - intros j d m Hj Hd' Hm. destruct (pi_scratch _ HI j d m Hd' Hm). pose proof (pi_apart _ HI j i d c m). set_solver.
Qed.

Lemma pullParent_keeps i n sha s s' : pullParent i n sha s = Some s' → PInv s → PInv s'.
Proof.
  unfold pullParent. destruct (dropScratch i n s) as [s1|] eqn:Hd; [|done]. destruct (ps_sections s1 !! i) as [c|] eqn:Hc; [|done].
  destruct (isHex64 sha) eqn:Hx; [|done]. intros [= <-] HI%(dropScratch_keeps _ _ _ _ Hd).
  apply filed; [done|done|done|set_solver|done|]. pose proof (pi_open _ HI i c). set_solver.
Qed.

Lemma recordUse_keeps i k sha s s' : recordUse i k sha s = Some s' → PInv s → PInv s'.
Proof.
  unfold recordUse. destruct (ps_sections s !! i) as [c|] eqn:Hc; [|done]. case_match eqn:Hd; [|done]. intros [= <-] HI.
  apply bool_decide_eq_true_1 in Hd.
  change (PInv (set_section i (mkSection (sec_held c) (sec_open c) ({[k]} ∪ sec_wrote c) (sec_scratch c))
    (set_files (ps_entries s) (ps_loaded s) (set_names (<[k := sha]> (ps_names s)) ({[k]} ∪ ps_sure s) s)))).
  apply (section_step s i c); simpl; try done.
  - apply (pi_loaded _ HI).
  - intros x. by apply (pi_held _ HI i c).
  - intros x. by apply (pi_open _ HI i c).
  - intros x. by apply (pi_scratch _ HI i c).
  - intros j d m Hj Hd' Hm. destruct (pi_scratch _ HI j d m Hd' Hm). pose proof (pi_apart _ HI j i d c m). set_solver.
  - set_solver.
  - intros k' sha' Hk'. rewrite lookup_insert. case_decide; [|set_solver]. subst. intros [= <-]. right. split; [set_solver|].
    by apply (pi_held _ HI i c).
Qed.

Lemma openSection_keeps i s s' : openSection i s = Some s' → PInv s → PInv s'.
Proof.
  unfold openSection. destruct (ps_locked s) eqn:Hl; [done|]. destruct (ps_sections s !! i) eqn:Hi; [done|]. intros [= <-] HI.
  assert (holding (ps_pruner s) = false) as Hh by (rewrite <-(pi_lock _ HI); done).
  assert (∀ j c, <[i := newSection]> (ps_sections s) !! j = Some c → c = newSection ∨ ps_sections s !! j = Some c) as Hj.
  { intros j c. rewrite lookup_insert. case_decide; [intros [= <-]|]; auto. }
  constructor; simpl; try by destruct HI.
  - congruence.
  - intros j c sha [->|Hc]%Hj; [simpl; set_solver|]. by apply (pi_held _ HI j).
  - intros j c sha [->|Hc]%Hj; [simpl; set_solver|]. by apply (pi_open _ HI j).
  - intros j c sha [->|Hc]%Hj; [simpl; set_solver|]. by apply (pi_scratch _ HI j).
  - intros j1 j2 c d n Hne [->|H1]%Hj [->|H2]%Hj; simpl; [set_solver..|]. by apply (pi_apart _ HI j1 j2).
  - intros k sha Hcur Hk Hs Hset. apply (pi_found _ HI); [done..|]. intros j c Hc. apply (Hset j c). simpl. rewrite lookup_insert_ne by congruence. done.
Qed.

Lemma closeSection_keeps i s s' : closeSection i s = Some s' → PInv s → PInv s'.
Proof.
  unfold closeSection. destruct (ps_sections s !! i) as [c|] eqn:Hi; [|done]. intros [= <-] HI.
  pose proof (not_holding _ _ _ HI Hi) as Hl. assert (holding (ps_pruner s) = false) as Hh by (rewrite <-(pi_lock _ HI); done).
  assert (∀ j d, delete i (ps_sections s) !! j = Some d → ps_sections s !! j = Some d) as Hj by (intros j d [_ ?]%lookup_delete_Some; done).
  constructor; simpl; try by destruct HI.
  - congruence.
  - intros seen Hs%(pi_seen _ HI). lia.
  - intros j d sha Hd. apply (pi_held _ HI j d). auto.
  - intros j d sha Hd. apply (pi_open _ HI j d). auto.
  - intros j d sha Hd. apply (pi_scratch _ HI j d). auto.
  - intros j1 j2 d1 d2 n Hne H1 H2. apply (pi_apart _ HI j1 j2 d1 d2 n Hne); auto.
  - intros k sha Hcur. exfalso. pose proof (pi_seen _ HI) as Hs. unfold current in Hcur. simpl in Hcur.
    destruct (ps_pruner s); try done; specialize (Hs _ eq_refl); lia.
Qed.

(** Names that come or go outside the sections. *)
Lemma names_step s names sure :
  PInv s → (∀ k sha, k ∈ sure → names !! k = Some sha → k ∈ ps_sure s ∧ ps_names s !! k = Some sha) → PInv (set_names names sure s).
Proof.
  intros HI Hn. constructor; simpl; try by destruct HI.
  - intros k sha Hk Hs. destruct (Hn k sha Hk Hs). by apply (pi_sure _ HI k).
  - intros k sha Hcur Hk Hs Hset. destruct (Hn k sha Hk Hs). by apply (pi_found _ HI).
Qed.

Lemma importName_keeps k sha s : PInv s → PInv (importName k sha s).
Proof.
  intros HI. apply names_step; [done|]. intros k' x [Hk Hne]%elem_of_difference. rewrite lookup_insert_ne by set_solver. done.
Qed.

Lemma dropName_keeps k s : PInv s → PInv (dropName k s).
Proof. intros HI. apply names_step; [done|]. intros k' x [Hk Hne]%elem_of_difference [_ ?]%lookup_delete_Some. done. Qed.

Lemma giveBack_keeps g d s : PInv s → PInv (giveBack g d s).
Proof. intros HI. unfold giveBack. case_match; [|done]. by apply importName_keeps, dropName_keeps. Qed.

(** ** The pruner keeps it *)

(** A step that moves the pruner and takes or gives the store. *)
Lemma pruner_step s b p :
  PInv s → b = holding p → (b = true → ps_sections s = ∅) → (∀ seen, seenOf p = Some seen → (seen ≤ ps_uses s)%N) →
  (∀ k sha, current (set_pruner b p s) → k ∈ ps_sure s → ps_names s !! k = Some sha → settled s k → found p k sha) →
  (∀ keep gone, p ≠ PRemove keep gone) → PInv (set_pruner b p s).
Proof.
  intros HI Hb Hs Hseen Hf Hp. constructor; simpl; try by destruct HI.
  - intros keep gone n ->. by destruct (Hp keep gone).
  - intros keep gone n ->. by destruct (Hp keep gone).
Qed.

(** The store held, its loaded parents and entries cut down to what [keep]
    leaves: what [keep] names stays. *)
Lemma removing_step s keep gone E :
  PInv s → ps_sections s = ∅ → ps_locked s = true →
  (∀ k sha, k ∈ ps_sure s → ps_names s !! k = Some sha → sha ∈ keep) →
  (∀ sha, isHex64 sha = true → sha ∈ keep → sha ∈ ps_entries s → sha ∈ E) →
  (∀ n, n ∈ gone → unnamed keep n = true) →
  PInv (set_pruner true (PRemove keep gone) (set_files E (ps_loaded s ∩ keep) s)).
Proof.
  intros HI H0 Hl Hk HE Hg. constructor; simpl; rewrite ?H0; try done.
  - intros k sha Hs Hn. destruct (pi_sure _ HI k sha Hs Hn). eauto.
  - intros sha [Hs Hin]%elem_of_intersection. destruct (pi_loaded _ HI sha Hs). auto.
  - intros k sha _ Hs Hn _. eauto.
  - intros ? ? n [= <- <-] ?. auto.
  - intros ? ? sha [= <- <-]. set_solver.
Qed.

Lemma settled_none s k : ps_sections s = ∅ → settled s k.
Proof. intros H0 i c Hc. rewrite H0 in Hc. by apply lookup_empty_Some in Hc. Qed.

(** A manifest that does not read is of no sure name. *)
Definition readable (fails : bool) (s : store) : Prop :=
  ∀ rest seen keep gs k ks, ps_pruner s = PDeltas rest seen keep gs (k :: ks) → fails = true → k ∉ ps_sure s.

Lemma readable_unread fails s : readable fails (if fails then unread s else s).
Proof. destruct fails; [|done]. intros rest seen keep gs k ks. unfold unread.
  destruct (ps_pruner s) as [| | | |? ? ? ? [|k' ks']| |] eqn:Hp; cbn; rewrite ?Hp; try done. intros [= -> -> -> -> -> ->] _. set_solver. Qed.
Lemma unread_keeps (fails : bool) s : PInv s → PInv (if fails then unread s else s).
Proof.
  intros HI. destruct fails; [|done]. unfold unread. repeat case_match; try done. apply names_step; [done|].
  by intros k' sha [? _]%elem_of_difference.
Qed.

(** The scan, up to the store. *)
Lemma scan_keeps s : PInv s → holding (ps_pruner s) = false → ∀ fails, readable fails s → PInv (pruneStep fails s).
Proof.
  intros HI Hh fails Hr. pose proof (pi_seen _ HI) as Hseen. pose proof (pi_found _ HI) as Hf. unfold current in Hf. unfold pruneStep.
  destruct (ps_pruner s) as [again|[|rest]|rest seen|rest seen keep|rest seen keep gs ks|rest seen keep|keep gone] eqn:Hp; try done.
  1-3: apply pruner_step; try done. 1: intros seen [= <-]; lia.
  - apply pruner_step; try done. intros [u|g d] sha _ _ Hn _; simpl; [by eapply warmParents_spec|done].
  - destruct fails; apply pruner_step; try done.
    intros [u|g d] sha Hc Hk Hn Hs; simpl; [left; exact (Hf _ _ Hc Hk Hn Hs)|right; left; by eapply grantDirs_spec].
  - destruct ks as [|k ks]; [destruct gs as [|g gs]|].
    + case_bool_decide as H0; apply pruner_step; try done.
      intros k sha Hc Hk Hn Hs. destruct (Hf k sha Hc Hk Hn Hs) as [?|Hin]; [done|]. destruct k; set_solver.
    + destruct fails; apply pruner_step; try done. intros k sha Hc Hk Hn Hs. simpl.
      destruct (Hf k sha Hc Hk Hn Hs) as [?|Hin]; [by left|]. right. destruct k as [|g' d]; [done|].
      destruct Hin as [[->|?]%elem_of_cons|?]; [right; by eapply deltaDirs_spec|by left|set_solver].
    + apply pruner_step; try done. intros k' sha Hc Hk Hn Hs. simpl.
      destruct (Hf k' sha Hc Hk Hn Hs) as [?|Hin]; [left; repeat case_match; set_solver|]. destruct k' as [|g' d]; [done|].
      destruct Hin as [?|[<-|?]%elem_of_cons]; [by right; left| |by right; right]. left. rewrite Hn.
      destruct fails; [|set_solver]. by destruct (Hr _ _ _ _ _ _ Hp eq_refl).
Qed.

Lemma pruneStep_keeps fails s : readable fails s → PInv s → PInv (pruneStep fails s).
Proof.
  intros Hr HI. destruct (holding (ps_pruner s)) eqn:Hh; [|by apply scan_keeps]. pose proof (pi_lock _ HI) as Hl. rewrite Hh in Hl.
  pose proof (pi_alone _ HI Hl) as H0. pose proof (pi_found _ HI) as Hf. unfold current in Hf. unfold pruneStep.
  destruct (ps_pruner s) as [| | | | |rest seen keep|keep [|n gone]] eqn:Hp; try done.
  - destruct (N.eqb_spec (ps_uses s) seen) as [He|He]; [|apply pruner_step; try done; congruence].
    apply removing_step; try done.
    + intros k sha Hk Hn. apply (Hf k sha He Hk Hn). by apply settled_none.
    + intros n [Hn _]%list_elem_of_filter. by apply Is_true_true_1.
  - apply pruner_step; done.
  - pose proof (pi_gone _ HI keep (n :: gone)) as Hg. rewrite Hp in Hg.
    assert (ps_loaded s = ps_loaded s ∩ keep) as ->.
    { apply set_eq. intros x. pose proof (pi_closed _ HI keep (n :: gone) x Hp). set_solver. }
    apply removing_step; try done.
    + intros k sha Hk Hn. apply (Hf k sha I Hk Hn). by apply settled_none.
    + intros sha Hx Hin Hsha. destruct fails; [done|]. apply elem_of_difference. split; [done|]. intros ->%elem_of_singleton.
      specialize (Hg n eq_refl (list_elem_of_here _ _)). rewrite (unnamed_hex _ _ Hx), bool_decide_eq_true_2 in Hg; done.
    + intros m Hm. apply Hg; [done|]. by apply elem_of_cons; right.
Qed.

Lemma storeStep_keeps s s' : storeStep s s' → PInv s → PInv s'.
Proof.
  destruct 1; eauto using openSection_keeps, closeSection_keeps, registerParent_keeps, parent_keeps, makeScratch_keeps,
    dropScratch_keeps, pullParent_keeps, recordUse_keeps, importName_keeps, dropName_keeps, giveBack_keeps.
  intros HI. apply pruneStep_keeps; [apply readable_unread|by apply unread_keeps].
Qed.

Lemma storeReaches_inv s : storeReaches s → PInv s.
Proof.
  induction 1 as [E names sure Hs|s s' _ IH Hst]; [|by eapply storeStep_keeps].
  constructor; simpl; try done; try set_solver.
Qed.

(** C15: however sections and prunes interleave, and whatever of a prune fails, a
    parent that a warm or a delta names is in the store, where the name was
    recorded in a section (or found good at the start), was not renamed or
    replaced outside one since, and no scan failed to read its manifest; so is
    every entry an open section holds and its scratch, and no parent a section
    has loaded was closed.  The two exceptions are real: a manifest that could
    not be read for a moment ([unread_manifest_loses_parent]) and a delta kept
    as .failed ([failed_delta_loses_parent]) can lose their parent. *)
Theorem prune_spares_named s :
  storeReaches s →
  (∀ k sha, k ∈ ps_sure s → ps_names s !! k = Some sha → sha ∈ ps_entries s) ∧
  (∀ i c, ps_sections s !! i = Some c →
     sec_held c ⊆ ps_entries s ∧ sec_scratch c ⊆ ps_entries s ∧ sec_open c ⊆ ps_loaded s).
Proof.
  intros HI%storeReaches_inv. split.
  - intros k sha Hk Hn. by destruct (pi_sure _ HI k sha Hk Hn).
  - intros i c Hc. split_and!; intros x Hx.
    + by destruct (pi_held _ HI i c x Hc Hx).
    + by destruct (pi_scratch _ HI i c x Hc Hx).
    + by apply (pi_open _ HI i c x Hc Hx).
Qed.

(** ** A prune nothing disturbs *)

(** The pruner's own steps. *)
Definition pruneRun : store → store → Prop := rtc (λ a b, b = pruneStep false a).

Lemma pruneRun_step s s' : pruneRun (pruneStep false s) s' → pruneRun s s'.
Proof. intros H. by eapply rtc_l. Qed.

Lemma pruneRun_iter s s' : pruneRun s s' → ∃ n, s' = Nat.iter n (pruneStep false) s.
Proof.
  induction 1 as [s|s s1 s' -> _ [n ->]]; [by exists 0%nat|]. exists (S n). by rewrite Nat.iter_succ_r.
Qed.

(** Every name's parent. *)
Definition parentNames (names : gmap pname string) : gset string := list_to_set (map snd (map_to_list names)).

Lemma parentNames_spec names sha : sha ∈ parentNames names ↔ ∃ k, names !! k = Some sha.
Proof.
  unfold parentNames. rewrite elem_of_list_to_set, list_elem_of_In, in_map_iff. split.
  - intros ([k x] & <- & Hin). exists k. by apply list_elem_of_In, elem_of_map_to_list in Hin.
  - intros [k Hk]. exists (k, sha). split; [done|]. by apply list_elem_of_In, elem_of_map_to_list.
Qed.

Lemma warmParents_sub names sha : sha ∈ warmParents names → sha ∈ parentNames names.
Proof.
  unfold warmParents. rewrite elem_of_list_to_set, list_elem_of_In, in_flat_map. intros ([[u|] x] & Hin & Hx); [|done].
  destruct Hx as [<-|[]]. apply parentNames_spec. exists (WarmOf u). by apply list_elem_of_In, elem_of_map_to_list in Hin.
Qed.

(** The manifests of one grant's directory. *)
Lemma run_manifests rest seen gs ks : ∀ s keep, ps_pruner s = PDeltas rest seen keep gs ks → ps_locked s = false →
  ∃ keep', pruneRun s (set_pruner false (PDeltas rest seen keep' gs []) s) ∧ keep ⊆ keep' ∧ keep' ⊆ keep ∪ parentNames (ps_names s) ∧
    ∀ k sha, k ∈ ks → ps_names s !! k = Some sha → sha ∈ keep'.
Proof.
  induction ks as [|k ks IH]; intros s keep Hp Hl.
  - exists keep. split; [|set_solver]. destruct s; simpl in *; subst. apply rtc_refl.
  - destruct (IH (pruneStep false s) (match ps_names s !! k with Some sha => {[sha]} ∪ keep | None => keep end)) as (keep' & Hrun & H1 & H2 & H3).
    + unfold pruneStep. by rewrite Hp.
    + unfold pruneStep. by rewrite Hp.
    + assert (ps_names (pruneStep false s) = ps_names s) as En by (unfold pruneStep; by rewrite Hp). rewrite En in H2, H3.
      exists keep'. split_and!.
      * apply pruneRun_step. revert Hrun. unfold pruneStep at 2. rewrite Hp. done.
      * destruct (ps_names s !! k); set_solver.
      * destruct (ps_names s !! k) as [x|] eqn:Ex; [|set_solver].
        assert (x ∈ parentNames (ps_names s)) by (apply parentNames_spec; eauto). set_solver.
      * intros k' sha [->|Hk]%elem_of_cons Hn; [|eauto]. rewrite Hn in H1. set_solver.
Qed.

(** Every grant's directory. *)
Lemma run_grants rest seen gs : ∀ s keep, ps_pruner s = PDeltas rest seen keep gs [] → ps_locked s = false →
  ∃ keep', pruneRun s (set_pruner false (PDeltas rest seen keep' [] []) s) ∧ keep ⊆ keep' ∧ keep' ⊆ keep ∪ parentNames (ps_names s) ∧
    ∀ g d sha, g ∈ gs → ps_names s !! DeltaAt g d = Some sha → sha ∈ keep'.
Proof.
  induction gs as [|g gs IH]; intros s keep Hp Hl.
  - exists keep. split; [|set_solver]. destruct s; simpl in *; subst. apply rtc_refl.
  - destruct (run_manifests rest seen gs (deltaDirs (ps_names s) g) (pruneStep false s) keep) as (k1 & R1 & A1 & A2 & A3);
      [unfold pruneStep; by rewrite Hp..|].
    assert (pruneStep false s = set_pruner false (PDeltas rest seen keep gs (deltaDirs (ps_names s) g)) s) as E1
      by (unfold pruneStep; by rewrite Hp). rewrite E1 in *.
    destruct (IH (set_pruner false (PDeltas rest seen k1 gs []) s) k1) as (k2 & R2 & B1 & B2 & B3); [done..|]. simpl in *.
    exists k2. split_and!.
    + apply pruneRun_step. rewrite E1. etrans; [apply R1|apply R2].
    + set_solver.
    + set_solver.
    + intros g' d sha [->|Hg]%elem_of_cons Hn; [|eauto]. apply B1, (A3 (DeltaAt g d)); [by eapply deltaDirs_spec|done].
Qed.

Lemma run_removal keep gone : ∀ s, ps_pruner s = PRemove keep gone →
  pruneRun s (set_pruner false (PIdle false) (set_files (ps_entries s ∖ list_to_set gone) (ps_loaded s) s)).
Proof.
  induction gone as [|n gone IH]; intros s Hp; apply pruneRun_step.
  - unfold pruneStep. rewrite Hp. replace (ps_entries s ∖ list_to_set []) with (ps_entries s) by set_solver. apply rtc_refl.
  - assert (pruneStep false s = set_pruner true (PRemove keep gone) (set_files (ps_entries s ∖ {[n]}) (ps_loaded s) s)) as E
      by (unfold pruneStep; by rewrite Hp).
    rewrite E. replace (ps_entries s ∖ list_to_set (n :: gone)) with (ps_entries s ∖ {[n]} ∖ list_to_set gone) by set_solver.
    exact (IH (set_pruner true (PRemove keep gone) (set_files (ps_entries s ∖ {[n]}) (ps_loaded s) s)) eq_refl).
Qed.

(** The scan finds exactly the names. *)
Lemma run_scan s again : ps_pruner s = PIdle again → ps_sections s = ∅ →
  pruneRun s (set_pruner true (PLocked 2 (ps_uses s) (parentNames (ps_names s))) s).
Proof.
  intros Hp H0.
  assert (pruneRun s (set_pruner false (PDeltas 2 (ps_uses s) (warmParents (ps_names s)) (grantDirs (ps_names s)) []) s)) as R1.
  { apply pruneRun_step. unfold pruneStep at 1. rewrite Hp. do 3 (apply pruneRun_step; cbn). apply rtc_refl. }
  destruct (run_grants 2 (ps_uses s) (grantDirs (ps_names s))
    (set_pruner false (PDeltas 2 (ps_uses s) (warmParents (ps_names s)) (grantDirs (ps_names s)) []) s)
    (warmParents (ps_names s))) as (keep & R2 & A1 & A2 & A3); [done..|]. simpl in *.
  assert (keep = parentNames (ps_names s)) as <-.
  { apply set_eq. intros x. split.
    - pose proof (warmParents_sub (ps_names s) x). set_solver.
    - intros [[u|g d] Hk]%parentNames_spec; [by eapply A1, warmParents_spec|by eapply A3; [eapply grantDirs_spec|]]. }
  etrans; [apply R1|]. etrans; [apply R2|]. apply pruneRun_step. unfold pruneStep at 1. simpl. rewrite bool_decide_eq_true_2 by done. apply rtc_refl.
Qed.

(** A prune that no section and no error disturbs ends, and then the store
    holds, of hashes and scratch, exactly the parents something names, of the
    loaded ones those; anything else under parents/ is left. *)
Theorem prune_alone_exact s again :
  ps_pruner s = PIdle again → ps_sections s = ∅ →
  ∃ n, let s' := Nat.iter n (pruneStep false) s in
    ps_pruner s' = PIdle false ∧ ps_locked s' = false ∧ ps_names s' = ps_names s ∧
    ps_loaded s' = ps_loaded s ∩ parentNames (ps_names s) ∧
    ∀ x, x ∈ ps_entries s' ↔ x ∈ ps_entries s ∧ unnamed (parentNames (ps_names s)) x = false.
Proof.
  intros Hp H0. set (keep := parentNames (ps_names s)).
  set (gone := filter (λ n, Is_true (unnamed keep n)) (elements (ps_entries s))).
  assert (pruneRun s (set_pruner false (PIdle false) (set_files (ps_entries s ∖ list_to_set gone) (ps_loaded s ∩ keep) s))) as R.
  { etrans; [by eapply run_scan|]. apply pruneRun_step. unfold pruneStep at 1. simpl. rewrite N.eqb_refl.
    exact (run_removal keep gone (set_pruner true (PRemove keep gone) (set_files (ps_entries s) (ps_loaded s ∩ keep) s)) eq_refl). }
  destruct (pruneRun_iter _ _ R) as [n En]. exists n. cbv zeta. rewrite <-En. simpl. split_and!; try done.
  intros x. rewrite elem_of_difference, elem_of_list_to_set. unfold gone. rewrite list_elem_of_filter, elem_of_elements.
  destruct (unnamed keep x); simpl; naive_solver.
Qed.

(** ** Runs *)

(** A checkpoint's hash, and a home that warmed from it and parked a delta. *)
Definition sha0 : string := "0123456789abcdef0123456789abcdef0123456789abcdef0123456789abcdef".

Inductive storeOp :=
| OOpen (i : nat) | OClose (i : nat) | ORegister (i : nat) (sha : string) | OScratch (i : nat) (n : string)
| ORecord (i : nat) (k : pname) (sha : string) | ODrop (k : pname) | OGiveBack (g d : string) | OPrune.

Definition runOp (o : storeOp) (s : store) : option store :=
  match o with
  | OOpen i => openSection i s
  | OClose i => closeSection i s
  | ORegister i sha => if isHex64 sha then registerParent i sha s else None
  | OScratch i n => makeScratch i n s
  | ORecord i k sha => recordUse i k sha s
  | ODrop k => Some (dropName k s)
  | OGiveBack g d => Some (giveBack g d s)
  | OPrune => Some (pruneStep false s)
  end.

Fixpoint runOps (os : list storeOp) (s : store) : option store :=
  match os with [] => Some s | o :: os => match runOp o s with Some s' => runOps os s' | None => None end end.

Lemma runOps_reaches os : ∀ s s', runOps os s = Some s' → storeReaches s → storeReaches s'.
Proof.
  induction os as [|o os IH]; intros s s'; simpl; [by intros [= <-]|]. destruct (runOp o s) as [s1|] eqn:E; [|done].
  intros Hr Hs. eapply IH; [done|]. eapply ReachStep; [done|]. destruct o; simpl in E.
  - by eapply StepOpen.
  - by eapply StepClose.
  - destruct (isHex64 sha) eqn:Hx; [|done]. by eapply StepRegister.
  - by eapply StepScratch.
  - by eapply StepRecord.
  - injection E as <-. apply StepDrop.
  - injection E as <-. apply StepGiveBack.
  - injection E as <-. apply (StepPrune false).
Qed.

Lemma empty_reaches : storeReaches (openStore ∅ ∅ ∅).
Proof. apply ReachOpen. set_solver. Qed.

(** The warm names the parent, a park's delta then does, the warm goes. *)
Definition parkedOps : list storeOp :=
  [OOpen 0; ORegister 0 sha0; ORecord 0 (WarmOf "g") sha0; OClose 0;
   OOpen 1; ORegister 1 sha0; ORecord 1 (DeltaAt "g" "d") sha0; OClose 1; ODrop (WarmOf "g")].

(** The same with a section open that pulls. *)
Definition parkedStore : store := default (openStore ∅ ∅ ∅) (runOps parkedOps (openStore ∅ ∅ ∅)).
Definition pullingStore : store := default (openStore ∅ ∅ ∅) (runOps (parkedOps ++ [OOpen 2; OScratch 2 ".pull"]) (openStore ∅ ∅ ∅)).

Lemma parked_reaches : storeReaches parkedStore.
Proof. apply (runOps_reaches parkedOps (openStore ∅ ∅ ∅)); [vm_compute; reflexivity|apply empty_reaches]. Qed.

Lemma prune_spares_named_witness :
  sha0 ∈ ps_entries pullingStore ∧ ∃ c, ps_sections pullingStore !! 2 = Some c ∧ ".pull" ∈ sec_scratch c ∧ sec_scratch c ⊆ ps_entries pullingStore.
Proof.
  assert (storeReaches pullingStore) as Hr.
  { apply (runOps_reaches (parkedOps ++ [OOpen 2; OScratch 2 ".pull"]) (openStore ∅ ∅ ∅)); [vm_compute; reflexivity|apply empty_reaches]. }
  destruct (prune_spares_named pullingStore Hr) as [H1 H2]. split.
  - apply (H1 (DeltaAt "g" "d")); [apply (bool_decide_eq_true_1 (DeltaAt "g" "d" ∈ ps_sure pullingStore)); vm_compute; reflexivity|vm_compute; reflexivity].
  - exists (mkSection ∅ ∅ ∅ {[".pull"]}). split; [vm_compute; reflexivity|]. split; [set_solver|].
    apply (H2 2). vm_compute. reflexivity.
Defined.

Lemma prune_alone_exact_witness :
  ps_sections parkedStore = ∅ ∧ ∃ n, sha0 ∈ ps_entries (Nat.iter n (pruneStep false) parkedStore).
Proof.
  split; [vm_compute; reflexivity|].
  destruct (prune_alone_exact parkedStore false) as (n & _ & _ & _ & _ & H); [vm_compute; reflexivity..|].
  exists n. apply H. split; [apply (bool_decide_eq_true_1 (sha0 ∈ ps_entries parkedStore))|]; vm_compute; reflexivity.
Defined.

(** A park that fails after its section renames its delta to dir.failed; a scan
    that listed the old name and reads it after finds nothing, and the parent
    the failed delta's manifest names is removed. *)
Lemma failed_delta_loses_parent :
  ∃ s, storeReaches s ∧ ps_names s !! DeltaAt "g" "d.failed" = Some sha0 ∧ sha0 ∉ ps_entries s ∧ ps_pruner s = PIdle false.
Proof.
  exists (default parkedStore (runOps (replicate 5 OPrune ++ [OGiveBack "g" "d"] ++ replicate 5 OPrune) parkedStore)).
  split_and!; [|vm_compute; reflexivity| |vm_compute; reflexivity].
  - apply (runOps_reaches (replicate 5 OPrune ++ [OGiveBack "g" "d"] ++ replicate 5 OPrune) parkedStore); [vm_compute; reflexivity|apply parked_reaches].
  - apply (bool_decide_eq_false_1 (sha0 ∈ _)). vm_compute. reflexivity.
Qed.

(** A manifest that is there and cannot be read (its read fails for a moment)
    names nothing, and its parent goes. *)
Lemma unread_manifest_loses_parent :
  let s := Nat.iter 4 (pruneStep false) (pruneStep true (Nat.iter 5 (pruneStep false) parkedStore)) in
  DeltaAt "g" "d" ∈ ps_sure s ∧ ps_names s !! DeltaAt "g" "d" = Some sha0 ∧ sha0 ∉ ps_entries s.
Proof.
  cbv zeta. split_and!; [apply (bool_decide_eq_true_1 (DeltaAt "g" "d" ∈ _))| |apply (bool_decide_eq_false_1 (sha0 ∈ _))]; vm_compute; reflexivity.
Qed.
