(* ===== verification/Engine.v ===== *)
(** * The device engine of a grant (pkg/runtime/host/engine_linux.go, enginerelay_linux.go)

    fiberd starts one engine per grant with a device budget and speaks to it in
    lines on fd 3.  It tells the engine which cgroup leaf is which fence (LEAF,
    UNLEAF), asks for slices to be held, saved and restored, and reads DEVICE
    lines into its accounting; an engine that ends is started again and told
    every mapping again.  The operations are programs over the engine's state
    (Threads.v): one [inMu] per hold of e.mu, e.wmu and e.emu part of the state,
    a [called] per system call.  Each start of the process has its own fd 3, which
    keeps the lines the engine took from it.

    The process itself (leaf, log, capabilities, directory) and the timers of
    run are not modelled: a restart may come at any time. *)

From Stdlib Require Import Ascii.
From S2P Require Import Prelude GoLib Threads HostLimits.
From stdpp Require Import options.

(** ** State *)

(** What fiberd writes. *)
Inductive line :=
| LEAF (fence path : string) | UNLEAF (fence : string) | RELAY (path : string)
| EVICT (fence : string) | UNHOLD (fence : string) | HOLD (fence : string) | SAVE (fence : string) | RESTORE (fence : string).

#[export] Instance line_eq_dec : EqDecision line.
Proof. solve_decision. Defined.

Definition text (l : line) : string :=
  match l with
  | LEAF f p => "LEAF " +:+ f +:+ " " +:+ p
  | UNLEAF f => "UNLEAF " +:+ f
  | RELAY p => "RELAY " +:+ p
  | EVICT f => "EVICT " +:+ f
  | UNHOLD f => "UNHOLD " +:+ f
  | HOLD f => "HOLD " +:+ f
  | SAVE f => "SAVE " +:+ f
  | RESTORE f => "RESTORE " +:+ f
  end.

(** One fd 3: whether it is open, the lines the engine took. *)
Record Conn := mkConn { cn_open : bool; cn_taken : list line }.

(** [engineReply]: what an exchange waits for, and its channel. *)
Record engineReply := mkReply { rp_fence : string; rp_verb : string; rp_ch : list string }.

(** [engine], with fd 3 of every start ([en_conns]), every engineReply made
    ([en_replies]) and whether a send found its channel full or a reply was
    indexed past its end ([en_broken]). *)
Record Eng := mkEng {
  en_conn : option nat; en_up : bool;
  en_class : string; en_layout : string; en_capacity : N;
  en_used : N; en_slices : gmap string N; en_leaves : gmap string string; en_relays : gset string; en_cgRoot : string;
  en_reply : option nat; en_wmu : bool; en_emu : bool; en_stop : bool;
  en_conns : list Conn; en_replies : list engineReply; en_broken : bool;
}.

Definition newEngine : Eng := mkEng None false "" "" 0 0 ∅ ∅ ∅ "" None false false false [] [] false.

Definition set_link (c : option nat) (up : bool) (s : Eng) : Eng :=
  mkEng c up (en_class s) (en_layout s) (en_capacity s) (en_used s) (en_slices s) (en_leaves s) (en_relays s) (en_cgRoot s)
    (en_reply s) (en_wmu s) (en_emu s) (en_stop s) (en_conns s) (en_replies s) (en_broken s).
Definition set_declared (class layout : string) (capacity : N) (root : string) (s : Eng) : Eng :=
  mkEng (en_conn s) (en_up s) class layout capacity (en_used s) (en_slices s) (en_leaves s) (en_relays s) root
    (en_reply s) (en_wmu s) (en_emu s) (en_stop s) (en_conns s) (en_replies s) (en_broken s).
Definition set_use (used : N) (slices : gmap string N) (s : Eng) : Eng :=
  mkEng (en_conn s) (en_up s) (en_class s) (en_layout s) (en_capacity s) used slices (en_leaves s) (en_relays s) (en_cgRoot s)
    (en_reply s) (en_wmu s) (en_emu s) (en_stop s) (en_conns s) (en_replies s) (en_broken s).
Definition set_maps (leaves : gmap string string) (relays : gset string) (s : Eng) : Eng :=
  mkEng (en_conn s) (en_up s) (en_class s) (en_layout s) (en_capacity s) (en_used s) (en_slices s) leaves relays (en_cgRoot s)
    (en_reply s) (en_wmu s) (en_emu s) (en_stop s) (en_conns s) (en_replies s) (en_broken s).
Definition set_locks (wmu emu : bool) (s : Eng) : Eng :=
  mkEng (en_conn s) (en_up s) (en_class s) (en_layout s) (en_capacity s) (en_used s) (en_slices s) (en_leaves s) (en_relays s) (en_cgRoot s)
    (en_reply s) wmu emu (en_stop s) (en_conns s) (en_replies s) (en_broken s).
Definition set_stop (s : Eng) : Eng :=
  mkEng (en_conn s) (en_up s) (en_class s) (en_layout s) (en_capacity s) (en_used s) (en_slices s) (en_leaves s) (en_relays s) (en_cgRoot s)
    (en_reply s) (en_wmu s) (en_emu s) true (en_conns s) (en_replies s) (en_broken s).
Definition set_conns (cs : list Conn) (s : Eng) : Eng :=
  mkEng (en_conn s) (en_up s) (en_class s) (en_layout s) (en_capacity s) (en_used s) (en_slices s) (en_leaves s) (en_relays s) (en_cgRoot s)
    (en_reply s) (en_wmu s) (en_emu s) (en_stop s) cs (en_replies s) (en_broken s).
Definition set_replies (r : option nat) (rs : list engineReply) (broken : bool) (s : Eng) : Eng :=
  mkEng (en_conn s) (en_up s) (en_class s) (en_layout s) (en_capacity s) (en_used s) (en_slices s) (en_leaves s) (en_relays s) (en_cgRoot s)
    r (en_wmu s) (en_emu s) (en_stop s) (en_conns s) rs broken.

(** The calls that may fail: starting the process, reading its cgroup, a read
    and a write of fd 3, a park past its save; which of a select's cases is
    taken; whether a fiber is still in the table. *)
Inductive ecall := EStart | ECgroup | ERead | EWrite | EReply | EDumped | ELive.

Inductive eerr := errEngineDown | errLine | errToken | errNotUnder | errRefused (why : string) | errSaid | errBytes | errTimeout.

#[export] Instance eerr_eq_dec : EqDecision eerr.
Proof. solve_decision. Defined.

Notation EP := (prog Eng ecall).

(** One hold of e.mu; a call outside it; a wait that ends in a change. *)
Definition inMu {A} (f : St Eng A) : EP A := hold f.
Definition called (c : ecall) : EP bool := ask c.
Definition taking {A} (g : Eng → bool) (f : St Eng A) : EP A := lock g f.

(** ** Lines out *)

Definition engineLineMax : nat := 256.
Definition lf : ascii := "010".
Definition nul : ascii := "000".

(** The check of write: one line that fits. *)
Definition fits (l : line) : bool :=
  (String.length (text l) + 1 <=? engineLineMax)%nat && negb (contains_char lf (text l) || contains_char nul (text l)).

(** conn.Write on the [c]-th fd 3, and the conn.Close where it fails: [ok] is
    the kernel's answer for one that is open. *)
Definition closeConn (c : nat) (s : Eng) : Eng :=
  set_conns (alter (λ n, mkConn false (cn_taken n)) c (en_conns s)) s.
Definition connOpen (c : nat) (s : Eng) : bool := match en_conns s !! c with Some n => cn_open n | None => false end.
Definition connWrite (c : nat) (l : line) (ok : bool) : St Eng bool := λ s,
  if ok && connOpen c s then (true, set_conns (alter (λ n, mkConn (cn_open n) (cn_taken n ++ [l])) c (en_conns s)) s)
  else (false, closeConn c s).

(** [func (e *engine) write(line string) error], under wmu. *)
Definition write (l : line) : EP (option eerr) :=
  if negb (fits l) then mret (Some errLine) else
  cu ← inMu (gets (λ s : Eng, (en_conn s, en_up s)));
  match cu with
  | (Some c, true) =>
      ok ← called EWrite;
      t ← inMu (connWrite c l ok);
      mret (if (t : bool) then None else Some errEngineDown)
  | _ => mret (Some errEngineDown)
  end.

(** e.wmu.Lock() ... e.wmu.Unlock(). *)
Definition withWmu {A} (p : EP A) : EP A :=
  _ ← taking (λ s : Eng, negb (en_wmu s)) (modify (λ s : Eng, set_locks true (en_emu s) s));
  r ← p;
  _ ← inMu (modify (λ s : Eng, set_locks false (en_emu s) s));
  mret r.

(** [func (e *engine) send(line string) error] *)
Definition send (l : line) : EP (option eerr) := withWmu (write l).

(** [func token(s string) error] *)
Definition isToken (s : string) : bool :=
  (s <>? "") && all_chars (λ c, negb (existsb (λ d, c ==? d) [" "; "009"; "013"; lf; nul]%char)) s.

(** [func (e *engine) cgPath(leaf cgroup.Dir) (string, error)], under mu. *)
Definition cgPath (leaf : string) (s : Eng) : string + eerr :=
  if en_cgRoot s ==? "" then inr errEngineDown
  else
    let rel := str_drop (String.length (en_cgRoot s)) leaf in
    if negb (HasPrefix leaf (en_cgRoot s)) || negb (HasPrefix rel "/") then inr errNotUnder
    else if isToken rel then inl rel else inr errToken.

(** [func (e *engine) leaf(fence string, leaf cgroup.Dir) error] *)
Definition leaf (fence path : string) : EP (option eerr) :=
  withWmu (
    pr ← inMu (gets (cgPath path));
    match pr with
    | inr e => mret (Some e)
    | inl rel =>
        if negb (isToken fence) then mret (Some errToken) else
        r ← write (LEAF fence rel);
        match r with
        | Some e => mret (Some e)
        | None => _ ← inMu (modify (λ s : Eng, set_maps (<[fence := rel]> (en_leaves s)) (en_relays s) s)); mret None
        end
    end).

(** [func (e *engine) unleaf(fence string)] *)
Definition unleaf (fence : string) : EP unit :=
  withWmu (
    had ← inMu (λ s : Eng, (bool_decide (is_Some (en_leaves s !! fence)),
      set_use (en_used s) (delete fence (en_slices s)) (set_maps (delete fence (en_leaves s)) (en_relays s) s)));
    if (had : bool) then _ ← write (UNLEAF fence); mret tt else mret tt).

(** [func (e *engine) releaf(fence string, leaf cgroup.Dir) error] *)
Definition releaf (fence path : string) : EP (option eerr) :=
  withWmu (
    if negb (isToken fence) then mret (Some errToken) else
    pr ← inMu (λ s : Eng, (cgPath path s,
      match cgPath path s with inl rel => set_maps (<[fence := rel]> (en_leaves s)) (en_relays s) s | inr _ => s end));
    match pr with
    | inr e => mret (Some e)
    | inl rel =>
        r ← write (LEAF fence rel);
        mret (match r with Some errEngineDown | None => None | Some e => Some e end)
    end).

(** [func (e *engine) relay(cg cgroup.Dir) error] *)
Definition relay (cg : string) : EP (option eerr) :=
  withWmu (
    pr ← inMu (gets (cgPath cg));
    match pr with
    | inr e => mret (Some e)
    | inl rel =>
        r ← write (RELAY rel);
        match r with
        | None | Some errEngineDown => _ ← inMu (modify (λ s : Eng, set_maps (en_leaves s) ({[rel]} ∪ en_relays s) s)); mret None
        | Some e => mret (Some e)
        end
    end).

(** [func (r *Runtime) endDevice(grantUID, fence string)], of a grant with an engine. *)
Definition endDevice (fence : string) : EP unit := _ ← unleaf fence; _ ← send (EVICT fence); mret tt.

(** [func (e *engine) unhold(fence string)] *)
Definition unhold (fence : string) : EP unit := _ ← send (UNHOLD fence); mret tt.

(** ** Exchanges *)

(** rp.ch <- x, on a channel of one. *)
Definition sendReply (i : nat) (x : string) (s : Eng) : Eng :=
  match en_replies s !! i with
  | Some rp =>
      if rp_ch rp ==? [] then set_replies (en_reply s) (<[i := mkReply (rp_fence rp) (rp_verb rp) [x]]> (en_replies s)) (en_broken s) s
      else set_replies (en_reply s) (en_replies s) true s
  | None => s
  end.
Definition replyReady (i : nat) (s : Eng) : bool :=
  match en_replies s !! i with Some rp => negb (rp_ch rp ==? []) | None => false end.
Definition takeReply (i : nat) : St Eng string := λ s,
  match en_replies s !! i with
  | Some rp => (default "" (head (rp_ch rp)),
      set_replies (en_reply s) (<[i := mkReply (rp_fence rp) (rp_verb rp) (tail (rp_ch rp))]> (en_replies s)) (en_broken s) s)
  | None => ("", s)
  end.

(** The start of exchange: e.reply = rp, of an engine that is up. *)
Definition register (want fence : string) : St Eng (option nat) := λ s,
  match en_conn s, en_up s with
  | Some _, true =>
      let i := length (en_replies s) in
      (Some i, set_replies (Some i) (en_replies s ++ [mkReply fence want []]) (en_broken s) s)
  | _, _ => (None, s)
  end.
Definition unregister (i : nat) : St Eng unit :=
  modify (λ s : Eng, if en_reply s ==? Some i then set_replies None (en_replies s) (en_broken s) s else s).

(** The wait of exchange: the reply, or the timer or the context. *)
Definition awaitReply (i : nat) : EP (string + eerr) :=
  w ← called EReply;
  if (w : bool) then
    x ← taking (replyReady i) (takeReply i);
    mret (if x ==? "" then inr errEngineDown else inl x)
  else mret (inr errTimeout).

(** [func (e *engine) exchange(ctx, verb, want, fence string, fd int, timeout)],
    with writeFd, which is write with a descriptor. *)
Definition exchange (l : line) (want fence : string) : EP (string + eerr) :=
  _ ← taking (λ s : Eng, negb (en_emu s)) (modify (λ s : Eng, set_locks (en_wmu s) true s));
  o ← inMu (register want fence);
  r ← match o with
      | None => mret (inr errEngineDown)
      | Some i =>
          e ← send l;
          r ← match e with
              | Some e => mret (inr e)
              | None => awaitReply i
              end;
          _ ← inMu (unregister i);
          mret r
      end;
  _ ← inMu (modify (λ s : Eng, set_locks (en_wmu s) false s));
  mret r.

(** f[0] of a reply with no words. *)
Definition indexed : EP unit := inMu (modify (λ s : Eng, set_replies (en_reply s) (en_replies s) true s)).

(** [func engineReason(f []string) string] *)
Definition engineReason (f : list string) : string :=
  if (3 <=? length f)%nat then joinSpace (drop 2 f) else "ERROR".

(** The last cases of the three replies' switches. *)
Definition refusal {A} (f : list string) : EP (A + eerr) :=
  match f with
  | [] => _ ← indexed; mret (inr errSaid)
  | w :: _ => mret (inr (if w ==? "ERROR" then errRefused (engineReason f) else errSaid))
  end.

(** [func (e *engine) hold(ctx, fence string, timeout) error] *)
Definition holdSlice (fence : string) : EP (unit + eerr) :=
  if negb (isToken fence) then mret (inr errToken) else
  r ← exchange (HOLD fence) "HELD" fence;
  match r with
  | inr e => mret (inr e)
  | inl line =>
      match Fields line with
      | [w; f] => if (w ==? "HELD") && (f ==? fence) then mret (inl tt) else refusal (Fields line)
      | f => refusal f
      end
  end.

(** [func (e *engine) save(ctx, fence string, fd int, timeout)] *)
Definition save (fence : string) : EP ((N * string) + eerr) :=
  r ← exchange (SAVE fence) "SAVED" fence;
  match r with
  | inr e => mret (inr e)
  | inl line =>
      match Fields line with
      | [w; f; n; h] =>
          if (w ==? "SAVED") && (f ==? fence) then
            match ParseUint n with inl b => mret (inl (b, h)) | inr _ => mret (inr errBytes) end
          else refusal (Fields line)
      | f => refusal f
      end
  end.

(** [func (e *engine) restore(ctx, fence string, fd int, timeout)] *)
Definition restore (fence : string) : EP (N + eerr) :=
  if negb (isToken fence) then mret (inr errToken) else
  r ← exchange (RESTORE fence) "RESTORED" fence;
  match r with
  | inr e => mret (inr e)
  | inl line =>
      match Fields line with
      | [w; f; n] =>
          if (w ==? "RESTORED") && (f ==? fence) then
            match ParseUint n with
            | inl b =>
                _ ← (if (0 <? b)%N then
                       inMu (modify (λ s : Eng, if en_up s then set_use (en_used s) (<[fence := b]> (en_slices s)) s else s))
                     else mret tt);
                mret (inl b)
            | inr _ => mret (inr errBytes)
            end
          else refusal (Fields line)
      | f => refusal f
      end
  end.

(** ** Lines in *)

(** [func readLine(conn, buf) (string, error)], of one message. *)
Definition readLine (msg : string) : option string :=
  let n := String.length msg in
  let body := str_take (n - 1) msg in
  if (n =? 0)%nat || (engineLineMax <? n)%nat then None
  else if (str_drop (n - 1) msg <>? String lf "") || contains_char lf body then None
  else Some body.

(** [func isReply(word string) bool] *)
Definition isReply (w : string) : bool := bool_decide (w ∈ ["HELD"; "SAVED"; "RESTORED"; "ERROR"]).

(** The hold of deliver: the reply the line answers, taken. *)
Definition claimReply (w f : string) : St Eng (option nat) := λ s,
  match en_reply s with
  | Some i =>
      match en_replies s !! i with
      | Some rp =>
          if (f ==? rp_fence rp) && ((w ==? rp_verb rp) || (w ==? "ERROR"))
          then (Some i, set_replies None (en_replies s) (en_broken s) s) else (None, s)
      | None => (None, s)
      end
  | None => (None, s)
  end.

(** [func (e *engine) deliver(line string)] *)
Definition deliver (w f line : string) : EP unit :=
  o ← inMu (claimReply w f);
  match o with
  | Some i => inMu (modify (sendReply i line))
  | None => mret tt
  end.

(** A DEVICE line. *)
Definition applyDevice (f : string) (n : N) (s : Eng) : Eng :=
  if f ==? "-" then set_use n (en_slices s) s
  else if (n =? 0)%N then set_use (en_used s) (delete f (en_slices s)) s
  else match en_leaves s !! f with
       | Some _ => set_use (en_used s) (<[f := n]> (en_slices s)) s
       | None => s
       end.

(** [func (e *engine) apply(line string)] *)
Definition apply (line : string) : EP unit :=
  match Fields line with
  | w :: f :: rest =>
      match (w ==? "DEVICE"), rest with
      | true, [n; _] => match ParseUint n with inl n => inMu (modify (applyDevice f n)) | inr _ => mret tt end
      | _, _ => if isReply w then deliver w f line else mret tt
      end
  | _ => mret tt
  end.

(** A read of the [c]-th fd 3 that brings a message. *)
Definition readable (c : nat) : EP bool :=
  b ← called ERead;
  o ← inMu (gets (connOpen c));
  mret ((b : bool) && o).

(** [func (e *engine) serve(conn) error], of the messages it sends. *)
Fixpoint serve (c : nat) (msgs : list string) : EP unit :=
  match msgs with
  | [] => mret tt
  | m :: msgs' =>
      b ← readable c;
      match (b : bool), readLine m with
      | true, Some line => _ ← apply line; serve c msgs'
      | _, _ => mret tt
      end
  end.

(** ** Starts *)

(** [declared], and [func handshake(conn) (declared, error)] of the first three
    messages. *)
Record declared := mkDeclared { d_class : string; d_layout : string; d_capacity : N; d_gpu : string; d_cc : string; d_driver : string }.

(** [func validClass(s string) bool] *)
Definition validClass (s : string) : bool :=
  (0 <? String.length s)%nat && (String.length s <=? 32)%nat
  && all_chars (λ c, in_range "a" "z" c || in_range "0" "9" c || (c ==? "-"%char)) s.

Definition handshake (m1 m2 m3 : string) : option declared :=
  match Fields <$> readLine m1, Fields <$> readLine m2, Fields <$> readLine m3 with
  | Some [e; class; cap; one; layout], Some [g; gpu; cc; driver], Some [r] =>
      if (e ==? "ENGINE") && validClass class && (one ==? "1") && (g ==? "GPU") && (r ==? "READY") then
        match ParseUint cap with inl n => Some (mkDeclared class layout n gpu cc driver) | inr _ => None end
      else None
  | _, _, _ => None
  end.

(** The hold of down: the engine is gone, every slice zero, the exchange that
    waits told so. *)
Definition downMu (c : nat) (s : Eng) : Eng :=
  if en_conn s ==? Some c then
    let s1 := set_use 0 ∅ (set_link None false s) in
    match en_reply s1 with
    | Some i => let s2 := sendReply i "" s1 in set_replies None (en_replies s2) (en_broken s2) s2
    | None => s1
    end
  else s.

(** [func (e *engine) down(conn, proc)] *)
Definition down (c : nat) : EP unit := _ ← inMu (modify (downMu c)); inMu (modify (closeConn c)).

(** The socket pair of a start; its hand-over, or its end if stop came first. *)
Definition newConn : St Eng nat := λ s, (length (en_conns s), set_conns (en_conns s ++ [mkConn true []]) s).
Definition handOver (c : nat) : St Eng bool := λ s,
  if en_stop s then (false, s) else (true, set_link (Some c) false s).

(** The hold of launch that makes the engine up. *)
Definition upMu (d : declared) (root : string) : St Eng (gmap string string) := λ s,
  (en_leaves s, set_use 0 ∅ (set_link (en_conn s) true (set_declared (d_class d) (d_layout d) (d_capacity d) root s))).

(** LEAF lines again, up to the first that fails; then RELAY lines (rerelay). *)
Fixpoint resend (ls : list line) : EP bool :=
  match ls with
  | [] => mret true
  | l :: ls' => r ← write l; match r with None => resend ls' | Some _ => mret false end
  end.

Definition leafLines (leaves : gmap string string) : list line := (λ kv, LEAF kv.1 kv.2) <$> map_to_list leaves.
Definition relayLines (relays : gset string) : list line := RELAY <$> elements relays.

(** [func (e *engine) rerelay()] *)
Definition rerelay : EP unit := ps ← inMu (gets en_relays); _ ← resend (relayLines ps); mret tt.

(** [func (e *engine) launch()]: [root] is what cgroupRoot reads. *)
Definition launch (root m1 m2 m3 : string) : EP (option nat) :=
  ok ← called EStart;
  if negb ok then mret None else
  c ← inMu newConn;
  go ← inMu (handOver c);
  if negb go then _ ← inMu (modify (closeConn c)); mret None else
  r ← called ECgroup;
  if negb r then _ ← down c; mret None else
  b ← readable c;
  match (b : bool), handshake m1 m2 m3 with
  | true, Some d =>
      was ← inMu (gets (λ s : Eng, (en_class s, en_layout s)));
      let '(class, layout) := (was : string * string) in
      if (class <>? "") && ((d_class d <>? class) || (d_layout d <>? layout)) then _ ← down c; mret None else
      withWmu (
        leaves ← inMu (upMu d root);
        replayed ← resend (leafLines leaves);
        _ ← (if (replayed : bool) then rerelay else mret tt);
        mret (Some c))
  | _, _ => _ ← down c; mret None
  end.

(** One round of [func (e *engine) run()]: a start, what the engine then sends,
    its end. *)
Definition cycle (root m1 m2 m3 : string) (msgs : list string) : EP unit :=
  o ← launch root m1 m2 m3;
  match o with
  | Some c => _ ← serve c msgs; down c
  | None => mret tt
  end.

(** [func (e *engine) stop()], without its wait. *)
Definition stop : EP unit :=
  _ ← inMu (modify set_stop);
  c ← inMu (gets en_conn);
  match c with Some c => inMu (modify (closeConn c)) | None => mret tt end.

(** ** The runtime's use of it *)

(** deviceLeaf of a birth; a birth that then fails ends it (endDevice). *)
Definition birthDevice (fence path : string) : EP unit :=
  e ← leaf fence path;
  match e with
  | Some _ => mret tt
  | None => b ← called ELive; if (b : bool) then mret tt else endDevice fence
  end.

(** The device part of a resume: the slice under the new fence, then the LEAF. *)
Definition resumeDevice (fence path : string) : EP unit :=
  r ← restore fence;
  match r with
  | inr _ => endDevice fence
  | inl _ =>
      e ← leaf fence path;
      match e with
      | Some _ => endDevice fence
      | None => b ← called ELive; if (b : bool) then mret tt else endDevice fence
      end
  end.

(** [func (r *Runtime) releafDevice(f *fiber)] *)
Definition releafDevice (fence path : string) : EP unit :=
  _ ← releaf fence path;
  b ← called ELive;
  if (b : bool) then mret tt else endDevice fence.

(** The device part of unpark: a fiber that runs on is mapped again, one that
    died meanwhile is ended. *)
Definition unparkDevice (fence path : string) : EP unit :=
  b ← called ELive;
  if (b : bool) then releafDevice fence path else endDevice fence.

(** The device part of a park: the hold, the save of what it holds, and then
    the end (dropDevice), or the undo and the unpark. *)
Definition parkDevice (fence path : string) : EP unit :=
  r ← holdSlice fence;
  match r with
  | inl _ =>
      n ← inMu (gets (λ s : Eng, default 0%N (en_slices s !! fence)));
      saved ← (if (n =? 0)%N then mret true else r ← save fence; mret (match r with inl _ => true | inr _ => false end));
      d ← (if (saved : bool) then called EDumped else mret false);
      if (d : bool) then endDevice fence
      else _ ← unhold fence; unparkDevice fence path
  | inr errEngineDown =>
      d ← called EDumped;
      if (d : bool) then endDevice fence else unparkDevice fence path
  | inr _ => _ ← unhold fence; unparkDevice fence path
  end.

(** ** Jobs *)

Inductive ejob :=
| JBirth (fence path : string)
| JResume (fence path : string)
| JPark (fence path : string)
| JEnd (fence : string)
| JRelay (cg : string)
| JCycle (root m1 m2 m3 : string) (msgs : list string)
| JStop.

#[export] Instance ejob_eq_dec : EqDecision ejob.
Proof. solve_decision. Defined.

Definition ebody (j : ejob) : EP unit :=
  match j with
  | JBirth f p => birthDevice f p
  | JResume f p => resumeDevice f p
  | JPark f p => parkDevice f p
  | JEnd f => endDevice f
  | JRelay p => _ ← relay p; mret tt
  | JCycle root m1 m2 m3 msgs => cycle root m1 m2 m3 msgs
  | JStop => stop
  end.

(** What the runtime starts: one round of run at a time; a park only of a fiber
    whose LEAF line would fit with the leaf's whole path (the line carries the
    part under the cgroup mount, which a later round of run may move). *)
Definition emay (s : Eng) (jobs : list ejob) (j : ejob) : bool :=
  match j with
  | JPark f p => (String.length (text (LEAF f p)) + 1 <=? engineLineMax)%nat
  | JCycle _ _ _ _ _ => forallb (λ j, match j with JCycle _ _ _ _ _ => false | _ => true end) jobs
  | _ => true
  end.

(** The states of an engine's runtime. *)
Definition ereaches : config (S := Eng) (C := ecall) (J := ejob) → Prop := reachable ebody emay newEngine.
