(* ===== verification/EngineFacts.v ===== *)
(** * What the engine's runtime promises

    In the logic of Threads.v: over every interleaving of births, resumes,
    parks, ends, restarts and stops, with an engine that may say anything and
    end at any time, the mappings the running engine was told are the ones
    fiberd keeps, its accounting is of mapped fibers, and replies reach one
    exchange each. *)

From Stdlib Require Import Ascii.
From S2P Require Import Prelude GoLib Threads HostLimits Engine.
From stdpp Require Import options.

(** ** The engine's view *)

Definition maps : Type := gmap string string * gset string.

(** What a line does to the mappings of the engine that takes it. *)
Definition told (m : maps) (l : line) : maps :=
  match l with
  | LEAF f p => (<[f := p]> m.1, m.2)
  | UNLEAF f => (delete f m.1, m.2)
  | RELAY p => (m.1, {[p]} ∪ m.2)
  | _ => m
  end.

Definition viewOf (c : nat) (s : Eng) : maps :=
  match en_conns s !! c with Some n => foldl told (∅, ∅) (cn_taken n) | None => (∅, ∅) end.
Definition kept (s : Eng) : maps := (en_leaves s, en_relays s).

(** The engine that runs, its fd 3 whole. *)
Definition current (s : Eng) (c : nat) : Prop := en_up s = true ∧ en_conn s = Some c ∧ connOpen c s = true.

(** ** Tokens *)

(** What the holder of wmu knows: the engine has yet to be told [ls]; it was
    told [l] and fiberd has yet to keep it; no engine runs. *)
Inductive writing := WOwe (ls : list line) | WAhead (l : line) | WDead.

(** Where run is: no engine, a socket pair for one, one that starts, one that is
    up (with a reply taken and not yet sent). *)
Inductive running := RDown | RNew (c : nat) | RConn (c : nat) | RUp (c : nat) (o : option nat).

(** The fd 3 no line may have reached. *)
Definition starting (r : running) : option nat := match r with RNew c | RConn c => Some c | _ => None end.

(** The holder of wmu with, between write's two steps, the fd 3 it took. *)
Inductive etok := TWmu (w : writing) (o : option nat) | TRun (r : running) | TRes (fence : string).
Inductive ekey := KWmu | KRun | KRes (fence : string).
Definition ekeyOf (t : etok) : ekey := match t with TWmu _ _ => KWmu | TRun _ => KRun | TRes f => KRes f end.
Definition estatic (k : ekey) : Prop := k = KRun.

Definition wtok (t : etok) : option (writing * option nat) := match t with TWmu w o => Some (w, o) | _ => None end.
Definition rtok (t : etok) : option running := match t with TRun r => Some r | _ => None end.

Definition agrees (w : writing) (v m : maps) : Prop :=
  match w with WOwe ls => foldl told v ls = m | WAhead l => v = told m l | WDead => False end.

(** A mapping that can be told, and taken back. *)
Definition lineOK (l : line) : bool := fits l && match l with LEAF f _ => fits (UNLEAF f) | _ => true end.

Definition wok (s : Eng) (w : writing) (o : option nat) : Prop :=
  (∀ c, current s c → agrees w (viewOf c s) (kept s) ∧ ∀ c0, o = Some c0 → c = c0) ∧
  match w with WAhead l => lineOK l = true | _ => True end.

Definition fresh (s : Eng) (c : nat) : Prop := ∃ n, en_conns s !! c = Some n ∧ cn_taken n = [].

Definition rok (s : Eng) (r : running) : Prop :=
  match r with
  | RDown => en_conn s = None ∧ en_up s = false
  | RNew c => en_conn s = None ∧ en_up s = false ∧ fresh s c
  | RConn c => en_conn s = Some c ∧ en_up s = false ∧ fresh s c
  | RUp c o => en_conn s = Some c ∧ en_up s = true ∧ is_Some (en_conns s !! c) ∧
      ∀ i, o = Some i → en_reply s ≠ Some i ∧ ∃ rp, en_replies s !! i = Some rp ∧ rp_ch rp = []
  end.

(** ** The invariant *)

(** wmu has one holder, and free it leaves the engine told everything; run is one
    goroutine, and without it no engine runs. *)
Definition wpart (s : Eng) (U : list etok) : Prop :=
  (en_wmu s = false ∧ omap wtok U = [] ∧ wok s (WOwe []) None) ∨
  (∃ w o, en_wmu s = true ∧ omap wtok U = [(w, o)] ∧ wok s w o).
Definition rpart (s : Eng) (U : list etok) : Prop :=
  (omap rtok U = [] ∧ rok s RDown) ∨ (∃ r, omap rtok U = [r] ∧ rok s r).

Record EInv (s : Eng) (U : list etok) : Prop := {
  ei_w : wpart s U;
  ei_r : rpart s U;
  ei_snap : ∀ w c0, omap wtok U = [(w, Some c0)] → is_Some (en_conns s !! c0) ∧ ∀ r, omap rtok U = [r] → starting r ≠ Some c0;
  ei_fit : (∀ f p, en_leaves s !! f = Some p → lineOK (LEAF f p) = true) ∧ (∀ p, p ∈ en_relays s → lineOK (RELAY p) = true);
  ei_use : en_up s = false → en_slices s = ∅ ∧ en_used s = 0%N;
  ei_slc : ∀ f n, en_slices s !! f = Some n → is_Some (en_leaves s !! f) ∨ TRes f ∈ U;
  ei_rep : ∀ i, en_reply s = Some i → ∃ rp, en_replies s !! i = Some rp ∧ rp_ch rp = [];
  ei_chan : ∀ i rp x, en_replies s !! i = Some rp → x ∈ rp_ch rp → x = "" ∨ Fields x ≠ [];
  ei_brk : en_broken s = false;
}.

Definition ele (_ _ : Eng) : Prop := True.
#[export] Instance ele_pre : PreOrder ele.
Proof. by split. Qed.

#[export] Instance EInv_proper s : Proper ((≡ₚ) ==> impl) (EInv s).
Proof.
  intros U U' HU HI. destruct HI as [Hw Hr Hsn Hf Hu Hs Hp Hc Hb]. constructor; try done.
  - destruct Hw as [(H1 & H2 & H3)|(w & o & H1 & H2 & H3)]; [left|right; exists w, o]; split_and!; try done.
    + apply Permutation_nil_r. by rewrite <-HU, H2.
    + apply Permutation_singleton_r. by rewrite <-HU, H2.
  - destruct Hr as [(H2 & H3)|(r & H2 & H3)]; [left|right; exists r]; split; try done.
    + apply Permutation_nil_r. by rewrite <-HU, H2.
    + apply Permutation_singleton_r. by rewrite <-HU, H2.
  - intros w c0 H. destruct (Hsn w c0) as [H1 H2]; [apply Permutation_singleton_r; by rewrite HU, H|]. split; [done|].
    intros r Hrr. apply H2. apply Permutation_singleton_r. by rewrite HU, Hrr.
  - intros f n H. rewrite <-HU. eauto.
Qed.

Notation wp := (Threads.wp ekeyOf estatic EInv ele).

(** ** Parts *)

Lemma omap_w w o U : omap wtok (TWmu w o :: U) = (w, o) :: omap wtok U.
Proof. done. Qed.
Lemma omap_r r U : omap rtok (TRun r :: U) = r :: omap rtok U.
Proof. done. Qed.

Lemma EInv_w s w o U : EInv s (TWmu w o :: U) → en_wmu s = true ∧ omap wtok U = [] ∧ wok s w o.
Proof.
  intros HI. destruct (ei_w _ _ HI) as [(_ & H & _)|(w' & o' & H1 & H2 & H3)]; simpl in *; [done|].
  injection H2 as -> -> ?. done.
Qed.

Lemma EInv_r s r U : EInv s (TRun r :: U) → omap rtok U = [] ∧ rok s r.
Proof.
  intros HI. destruct (ei_r _ _ HI) as [(H & _)|(r' & H2 & H3)]; simpl in *; [done|]. injection H2 as -> ?. done.
Qed.

(** Steps of others leave the holder of wmu what it knows. *)
Lemma frame_wok s s' w o :
  kept s' = kept s → (∀ c, current s' c → current s c ∧ viewOf c s' = viewOf c s) → wok s w o → wok s' w o.
Proof. intros Hk Hc [Hw Hf]. split; [|done]. intros c Hc'. destruct (Hc c Hc') as [H1 H2]. rewrite Hk, H2. auto. Qed.

Lemma frame_w s s' U :
  en_wmu s' = en_wmu s → kept s' = kept s → (∀ c, current s' c → current s c ∧ viewOf c s' = viewOf c s) →
  wpart s U → wpart s' U.
Proof.
  intros Hm Hk Hc [(H1 & H2 & H3)|(w & o & H1 & H2 & H3)]; [left|right; exists w, o]; rewrite Hm; split_and!;
    eauto using frame_wok.
Qed.

(** ** Programs that leave their thread its tokens *)

Definition unmoved {A} (p : EP A) : Prop := ∀ R Q s0, (∀ r s, Q r R s) → wp p Q R s0.

Lemma unmoved_bind {A B} (p : EP A) (k : A → EP B) : unmoved p → (∀ a, unmoved (k a)) → unmoved (p ≫= k).
Proof. intros Hp Hk R Q s0 HQ. apply wp_bind. apply Hp. intros a s. by apply Hk. Qed.
Lemma unmoved_ret {A} (a : A) : unmoved (mret a).
Proof. intros R Q s0 HQ. apply HQ. Qed.
Lemma unmoved_called c : unmoved (called c).
Proof. intros R Q s0 HQ b. apply HQ. Qed.
Lemma unmoved_inMu {A} (f : St Eng A) : (∀ s U, EInv s U → EInv (f s).2 U) → unmoved (inMu f).
Proof.
  intros Hf R Q s0 HQ s F _ HI. exists R. split_and!; [by apply Hf|done| |apply HQ]. intros t Ht _. by exists t.
Qed.
Lemma unmoved_gets {A} (f : Eng → A) : unmoved (inMu (gets f)).
Proof. by apply unmoved_inMu. Qed.
Lemma unmoved_taking {A} g (f : St Eng A) : (∀ s U, g s = true → EInv s U → EInv (f s).2 U) → unmoved (taking g f).
Proof.
  intros Hf R Q s0 HQ s F _ HI Hg. exists R. split_and!; [by apply Hf|done| |apply HQ]. intros t Ht _. by exists t.
Qed.

(** [p] turns the tokens [R] into those [Q] says, whatever else its thread has. *)
Definition gives {A} (R : list etok) (p : EP A) (Q : A → list etok → Prop) : Prop :=
  ∀ R0 Q' s0, (∀ r R' s, Q r R' → Q' r (R' ++ R0) s) → wp p Q' (R ++ R0) s0.

Lemma gives_bind {A B} R (p : EP A) (k : A → EP B) Q Q' : gives R p Q → (∀ a R', Q a R' → gives R' (k a) Q') → gives R (p ≫= k) Q'.
Proof. intros Hp Hk R0 Q0 s0 HQ. apply wp_bind. apply Hp. intros a R' s Ha. by apply (Hk a R' Ha). Qed.
Lemma gives_ret {A} R (a : A) (Q : A → list etok → Prop) : Q a R → gives R (mret a) Q.
Proof. intros H R0 Q' s0 HQ. by apply HQ. Qed.
Lemma gives_unmoved {A} R (p : EP A) : unmoved p → gives R p (λ _ R', R' = R).
Proof. intros Hp R0 Q s0 HQ. apply Hp. auto. Qed.
Lemma unmoved_gives {A} (p : EP A) (Q : A → list etok → Prop) : gives [] p Q → (∀ a R', Q a R' → R' = []) → unmoved p.
Proof. intros Hp HQ R Q0 s0 H0. apply (Hp R). intros r R' s ->%HQ. apply H0. Qed.
Lemma gives_mono {A} R (p : EP A) (Q Q' : A → list etok → Prop) : (∀ a R', Q a R' → Q' a R') → gives R p Q → gives R p Q'.
Proof. intros H Hp R0 Q0 s0 HQ. apply Hp. eauto. Qed.

(** ** Programs that hold wmu *)

Definition wmu {A} (w : writing) (p : EP A) (Q : A → writing → Prop) : Prop :=
  ∀ R Q' s0, (∀ r w' s, Q r w' → Q' r (TWmu w' None :: R) s) → wp p Q' (TWmu w None :: R) s0.

Lemma wmu_bind {A B} w (p : EP A) (k : A → EP B) Q Q' : wmu w p Q → (∀ a w', Q a w' → wmu w' (k a) Q') → wmu w (p ≫= k) Q'.
Proof. intros Hp Hk R Q0 s0 HQ. apply wp_bind. apply Hp. intros a w' s Ha. by apply (Hk a w' Ha). Qed.
Lemma wmu_ret {A} w (a : A) (Q : A → writing → Prop) : Q a w → wmu w (mret a) Q.
Proof. intros H R Q' s0 HQ. by apply HQ. Qed.
Lemma wmu_mono {A} w (p : EP A) (Q Q' : A → writing → Prop) : (∀ a w', Q a w' → Q' a w') → wmu w p Q → wmu w p Q'.
Proof. intros H Hp R Q0 s0 HQ. apply Hp. eauto. Qed.
Lemma wmu_unmoved {A} w (p : EP A) : unmoved p → wmu w p (λ _ w', w' = w).
Proof. intros Hp R Q s0 HQ. apply Hp. eauto. Qed.

(** The tokens of wmu and of the others move together. *)
Lemma same_keys (t t' : etok) (R : list etok) :
  ekeyOf t' = ekeyOf t → ∀ x, x ∈ t' :: R → estatic (ekeyOf x) → ∃ y, y ∈ t :: R ∧ ekeyOf y = ekeyOf x.
Proof. intros E x [->|Hx]%elem_of_cons _; [exists t; split; [by left|done]|exists x; split; [by right|done]]. Qed.

Lemma wmu_inMu {A} w w' (f : St Eng A) (Q : A → writing → Prop) :
  (∀ s U, EInv s (TWmu w None :: U) → EInv (f s).2 (TWmu (w' (f s).1) None :: U) ∧ Q (f s).1 (w' (f s).1)) → wmu w (inMu f) Q.
Proof.
  intros Hf R Q' s0 HQ s F _ HI. destruct (Hf s (R ++ F) HI) as [HI' HQ']. exists (TWmu (w' (f s).1) None :: R).
  split_and!; [done|done|by apply same_keys|by apply HQ].
Qed.

(** ** The locks *)

Lemma EInv_emu s U b : EInv s U → EInv (set_locks (en_wmu s) b s) U.
Proof. intros []. by constructor. Qed.

Lemma wok_dead s o : wok s WDead o → ∀ w, match w with WAhead l => lineOK l = true | _ => True end → wok s w None.
Proof. intros [H _] w Hw. split; [|done]. intros c Hc. by destruct (H c Hc) as [[] _]. Qed.

(** A thread takes wmu, and gives it back. *)
Lemma EInv_acquire s U : en_wmu s = false → EInv s U → EInv (set_locks true (en_emu s) s) (TWmu (WOwe []) None :: U).
Proof.
  intros Hm HI. destruct (ei_w _ _ HI) as [(_ & H2 & H3)|(w & o & H1 & _)]; [|congruence].
  destruct HI as [_ Hr _ Hf Hu Hs Hp Hc Hb]. constructor; try done.
  - right. exists (WOwe []), None. by rewrite omap_w, H2.
  - intros f n H. destruct (Hs f n H) as [?|?]; [by left|right; by right].
Qed.

Lemma EInv_release s w U : w = WOwe [] ∨ w = WDead → EInv s (TWmu w None :: U) → EInv (set_locks false (en_emu s) s) U.
Proof.
  intros Hw HI. destruct (EInv_w _ _ _ _ HI) as (_ & H2 & H3). destruct HI as [_ Hr _ Hf Hu Hs Hp Hc Hb]. constructor; try done.
  - left. simpl. split_and!; [done|done|]. destruct Hw as [->| ->]; [done|by apply (wok_dead s None H3 (WOwe []))].
  - intros w' c0. by rewrite H2.
  - intros f n H. destruct (Hs f n H) as [?|[?|?]%elem_of_cons]; [by left|done|by right].
Qed.

(** [p] under wmu, in the middle of which the thread's tokens [R] may change. *)
Definition inWmu {A} (R : list etok) (w : writing) (p : EP A) (Q : A → writing → list etok → Prop) : Prop :=
  ∀ R0 Q' s0, (∀ r w' R' s, Q r w' R' → Q' r (TWmu w' None :: R' ++ R0) s) → wp p Q' (TWmu w None :: R ++ R0) s0.

Lemma inWmu_bind {A B} R w (p : EP A) (k : A → EP B) Q Q' :
  inWmu R w p Q → (∀ a w' R', Q a w' R' → inWmu R' w' (k a) Q') → inWmu R w (p ≫= k) Q'.
Proof. intros Hp Hk R0 Q0 s0 HQ. apply wp_bind. apply Hp. intros a w' R' s Ha. by apply (Hk a w' R' Ha). Qed.
Lemma inWmu_ret {A} R w (a : A) (Q : A → writing → list etok → Prop) : Q a w R → inWmu R w (mret a) Q.
Proof. intros H R0 Q' s0 HQ. by apply HQ. Qed.
Lemma inWmu_wmu {A} R w (p : EP A) Q : wmu w p Q → inWmu R w p (λ a w' R', Q a w' ∧ R' = R).
Proof. intros Hp R0 Q' s0 HQ. apply Hp. intros r w' s H. by apply HQ. Qed.

Lemma inWmu_inMu {A} R w (w' : A → writing) R' (f : St Eng A) (Q : A → writing → list etok → Prop) :
  (∀ t, t ∈ R' → t ∈ R) →
  (∀ s U, EInv s (TWmu w None :: R ++ U) → EInv (f s).2 (TWmu (w' (f s).1) None :: R' ++ U) ∧ Q (f s).1 (w' (f s).1) R') → inWmu R w (inMu f) Q.
Proof.
  intros HR Hf R0 Q' s0 HQ s F _ HI. cbn in HI. rewrite <-(assoc_L (++)) in HI. destruct (Hf s (R0 ++ F) HI) as [HI' HQ'].
  exists (TWmu (w' (f s).1) None :: R' ++ R0). split_and!; [by rewrite <-app_comm_cons, <-(assoc_L (++))|done| |by apply HQ].
  intros x [->|[Hx|Hx]%elem_of_app]%elem_of_cons Hs; [done|exists x; split; [right; apply elem_of_app; auto|done]..].
Qed.

Lemma withWmu_gives {A} R (p : EP A) (Q : A → list etok → Prop) :
  inWmu R (WOwe []) p (λ r w R', (w = WOwe [] ∨ w = WDead) ∧ Q r R') → gives R (withWmu p) Q.
Proof.
  intros Hp R0 Q' s0 HQ. unfold withWmu. intros s F _ HI Hg. apply negb_true_iff in Hg.
  exists (TWmu (WOwe []) None :: R ++ R0). split_and!; [by apply EInv_acquire|done| |].
  { intros t [->|Ht]%elem_of_cons Hs; [done|by exists t]. }
  apply (wp_bind ekeyOf estatic EInv ele _ p). apply Hp. intros r w R' s1 [Hw Hr] s2 F2 _ HI2. exists (R' ++ R0).
  split_and!; [by apply (EInv_release _ w)|done| |by apply HQ].
  intros t Ht _. exists t. split; [by right|done].
Qed.

Lemma withWmu_unmoved {A} (p : EP A) : wmu (WOwe []) p (λ _ w, w = WOwe [] ∨ w = WDead) → unmoved (withWmu p).
Proof.
  intros Hp. apply (unmoved_gives _ (λ _ R', R' = [])); [|done]. apply withWmu_gives.
  intros R0 Q' s0 HQ. apply Hp. intros r w s H. by apply (HQ r w []).
Qed.

(** ** Writes *)

Lemma connOpen_alter c c' g s :
  connOpen c' (set_conns (alter g c (en_conns s)) s) =
  match en_conns s !! c' with Some n => cn_open (if decide (c = c') then g n else n) | None => false end.
Proof. unfold connOpen. simpl. rewrite list_lookup_alter. case_decide; subst; by destruct (en_conns s !! _). Qed.

(** The holder of wmu learns something, or the connections change under it. *)
Lemma EInv_token s cs w o w' o' U :
  EInv s (TWmu w o :: U) →
  (∀ c, is_Some (en_conns s !! c) → is_Some (cs !! c)) →
  (∀ c, fresh s c → (∀ c0, o = Some c0 → c0 ≠ c) → fresh (set_conns cs s) c) →
  (∀ c0, o' = Some c0 → o = Some c0 ∨ en_conn s = Some c0 ∧ en_up s = true) →
  (wok s w o → wok (set_conns cs s) w' o') → EInv (set_conns cs s) (TWmu w' o' :: U).
Proof.
  intros HI Hcs Hfr Hsnap Hw. destruct (EInv_w _ _ _ _ HI) as (H1 & H2 & H3). specialize (Hw H3).
  destruct HI as [_ Hr Hsn Hf Hu Hs Hp Hc Hb]. constructor; try done.
  - right. exists w', o'. by rewrite omap_w, H2.
  - destruct Hr as [(E & Hk)|(r & E & Hk)]; [left; done|right; exists r; split; [done|]].
    assert (∀ c, starting r = Some c → ∀ c0, o = Some c0 → c0 ≠ c) as Hne.
    { intros c Hst c0 ->. destruct (Hsn w c0) as [_ H]; [by rewrite omap_w, H2|]. specialize (H r E). congruence. }
    destruct r; simpl in *; naive_solver.
  - intros w1 c0. rewrite omap_w, H2. intros [= <- ->]. destruct (Hsnap c0 eq_refl) as [->|[Hc0 Hup]].
    + destruct (Hsn w c0) as [H4 H5]; [by rewrite omap_w, H2|]. split; [by apply Hcs|]. intros r Hrr. by apply H5.
    + destruct Hr as [(_ & Hk)|(r & E & Hk)]; [destruct Hk; congruence|].
      destruct r as [|c|c|c o1]; simpl in Hk; try (destruct_and!; congruence). destruct Hk as (Hk1 & _ & Hk2 & _).
      split; [apply Hcs; congruence|]. intros r Hr'. assert (r = RUp c o1) as -> by (change (omap rtok U = [r]) in Hr'; change (omap rtok U = [RUp c o1]) in E; congruence). done.
  - intros f n H. destruct (Hs f n H) as [?|[?|?]%elem_of_cons]; [by left|done|right; by right].
Qed.

(** A connection changed in place. *)
Lemma alter_some {A} (l : list A) c g c' : is_Some (l !! c') → is_Some (alter g c l !! c').
Proof. rewrite !lookup_lt_is_Some. by rewrite length_alter. Qed.

Lemma alter_fresh s c g c' : fresh s c' → (c = c' → ∀ n, cn_taken (g n) = cn_taken n) → fresh (set_conns (alter g c (en_conns s)) s) c'.
Proof.
  intros (n & Hn & Ht) Hg. unfold fresh. simpl. rewrite list_lookup_alter. case_decide as Hd; [subst|by eauto].
  rewrite Hn. exists (g n). split; [done|]. by rewrite Hg.
Qed.

Lemma connWrite_wok s c l w w1 :
  (∀ v m, agrees w v m → agrees w1 (told v l) m) → match w1 with WAhead l' => lineOK l' = true | _ => True end →
  connOpen c s = true → wok s w (Some c) →
  wok (set_conns (alter (λ n, mkConn (cn_open n) (cn_taken n ++ [l])) c (en_conns s)) s) w1 None.
Proof.
  intros Ht Hf Ho [Hw _]. split; [|done]. intros c' (Hu & Hc & Ho'). simpl in Hu, Hc. split; [|done].
  rewrite connOpen_alter in Ho'. destruct (en_conns s !! c') as [n|] eqn:En; [|done].
  destruct (Hw c') as [Ha Heq]; [split_and!; [done..|]; unfold connOpen; rewrite En; by case_decide|]. specialize (Heq c eq_refl) as ->.
  unfold viewOf in *. simpl. rewrite list_lookup_alter, decide_True by done. rewrite En in *. simpl.
  rewrite foldl_app. simpl. by apply Ht.
Qed.

Lemma closeConn_dead s c w : wok s w (Some c) → wok (closeConn c s) WDead None.
Proof.
  intros [Hw _]. split; [|done]. intros c' (Hu & Hc & Ho'). exfalso. unfold closeConn in Ho'. rewrite connOpen_alter in Ho'.
  destruct (en_conns s !! c') as [n|] eqn:En; [|done]. case_decide as Hd; [done|]. simpl in Hu, Hc.
  destruct (Hw c') as [_ Heq]; [split_and!; [done..|]; unfold connOpen; by rewrite En|]. apply Hd. symmetry. by apply Heq.
Qed.

Lemma write_wmu w w1 l :
  (∀ v m, agrees w v m → agrees w1 (told v l) m) → match w1 with WAhead l' => fits l = true → lineOK l' = true | _ => True end →
  wmu w (write l) (λ r w', match r with
    | None => w' = w1 ∧ fits l = true
    | Some errLine => w' = w ∧ fits l = false
    | Some errEngineDown => w' = WDead ∧ fits l = true
    | Some _ => False end).
Proof.
  intros Ht Hw1 R Q s0 HQ. unfold write. destruct (fits l) eqn:Hfit; simpl; [|by apply (HQ _ w)].
  intros s F _ HI. destruct (EInv_w _ _ _ _ HI) as (_ & _ & Hw).
  assert (∀ s w' o', (∀ c0, o' = Some c0 → en_conn s = Some c0 ∧ en_up s = true) → (wok s w None → wok s w' o') →
    ∀ U, EInv s (TWmu w None :: U) → EInv s (TWmu w' o' :: U)) as Hlearn.
  { intros s1 w' o' Ho Hk U HU. replace s1 with (set_conns (en_conns s1) s1) by (by destruct s1).
    apply (EInv_token s1 _ w None); [done|done|by destruct s1|auto|by destruct s1]. }
  destruct (en_conn s) as [c|] eqn:Ec; [destruct (en_up s) eqn:Eu|].
  - exists (TWmu w (Some c) :: R). split_and!; [|done|by apply same_keys|].
    { apply Hlearn; [|intros [H1 H2]|done]; [intros c0 [= <-]; done|]. split; [|done].
      intros c' Hc'. destruct (H1 c' Hc') as [? _]. split; [done|].
      intros c0 [= <-]. destruct Hc' as (_ & E & _). congruence. }
    intros ok s1 F1 _ HI1. unfold connWrite.
    destruct (ok && connOpen c s1) eqn:Eo; simpl.
    + apply andb_true_iff in Eo as [_ Eo]. exists (TWmu w1 None :: R). split_and!; [|done|by apply same_keys|by apply HQ].
      apply (EInv_token s1 _ w (Some c)); [done|intros; by apply alter_some| |done|].
      * intros c' Hf Hne. apply alter_fresh; [done|]. intros <-. by destruct (Hne c eq_refl).
      * apply (connWrite_wok s1 c l w); [done| |done]. destruct w1; auto.
    + exists (TWmu WDead None :: R). split_and!; [|done|by apply same_keys|by apply HQ].
      apply (EInv_token s1 _ w (Some c)); [done|intros; by apply alter_some| |done|].
      * intros c' Hf _. by apply alter_fresh.
      * apply (closeConn_dead s1 c w).
  - exists (TWmu WDead None :: R). split_and!; [|done|by apply same_keys|by apply HQ].
    apply Hlearn; [done| |done]. intros _. split; [|done]. intros c' (? & _ & _). congruence.
  - exists (TWmu WDead None :: R). split_and!; [|done|by apply same_keys|by apply HQ].
    apply Hlearn; [done| |done]. intros _. split; [|done]. intros c' (_ & ? & _). congruence.
Qed.

(** ** The operations on mappings *)

Lemma write_inert l : (∀ v, told v l = v) → wmu (WOwe []) (write l) (λ _ w, w = WOwe [] ∨ w = WDead).
Proof.
  intros Hl. eapply wmu_mono; [|apply (write_wmu (WOwe []) (WOwe []))]; [|intros v m; simpl; by rewrite Hl|done].
  intros [[]|] w' H; simpl in H; naive_solver.
Qed.

Lemma send_unmoved l : (∀ v, told v l = v) → unmoved (send l).
Proof. intros Hl. by apply withWmu_unmoved, write_inert. Qed.

Lemma unhold_unmoved f : unmoved (unhold f).
Proof. apply unmoved_bind; [by apply send_unmoved|intros ?; apply unmoved_ret]. Qed.

Lemma EInv_slc_le s U f n : EInv s U → en_slices s !! f = Some n → TRes f ∉ U → is_Some (en_leaves s !! f).
Proof. intros HI H Hn. by destruct (ei_slc _ _ HI f n H). Qed.

(** A change of what fiberd keeps, by the holder of wmu. *)
Lemma EInv_maps s w w' R R' U leaves relays slices :
  EInv s (TWmu w None :: R ++ U) → omap wtok R' = [] → omap rtok R' = omap rtok R →
  (∀ c, agrees w (viewOf c s) (kept s) → agrees w' (viewOf c s) (leaves, relays)) →
  match w' with WAhead _ => False | _ => True end →
  (∀ f p, leaves !! f = Some p → lineOK (LEAF f p) = true) → (∀ p, p ∈ relays → lineOK (RELAY p) = true) →
  (∀ f n, slices !! f = Some n → en_slices s !! f = Some n ∧ (is_Some (leaves !! f) ∨ TRes f ∈ R' ∨ (TRes f ∉ R ∧ leaves !! f = en_leaves s !! f))) →
  EInv (set_use (en_used s) slices (set_maps leaves relays s)) (TWmu w' None :: R' ++ U).
Proof.
  intros HI HR Hr Ha Hw' Hl Hrel Hs. destruct (EInv_w _ _ _ _ HI) as (H1 & H2 & [H3 H4]).
  rewrite omap_app in H2. apply app_eq_nil in H2 as [_ H2]. constructor; simpl; try by destruct HI.
  - right. exists w', None. rewrite omap_w, omap_app, HR, H2. split_and!; [done|done|]. split; [|by destruct w'].
    intros c Hc. destruct (H3 c Hc) as [HA _]. split; [by apply Ha|done].
  - destruct (ei_r _ _ HI) as [(E & Hk)|(r & E & Hk)]; [left|right; exists r]; (split; [|done]).
    + rewrite <-E. change (omap rtok (R' ++ U) = omap rtok (R ++ U)). by rewrite !omap_app, Hr.
    + rewrite <-E. change (omap rtok (R' ++ U) = omap rtok (R ++ U)). by rewrite !omap_app, Hr.
  - intros Hu. destruct (ei_use _ _ HI Hu) as [Hu1 Hu2]. split; [|done]. apply map_empty. intros f.
    destruct (slices !! f) eqn:E; [|done]. apply Hs in E as [E _]. rewrite Hu1 in E. done.
  - intros f n E. destruct (Hs f n E) as [E0 [?|[?|[Hn El]]]]; [by left|right; right; apply elem_of_app; by left|].
    destruct (ei_slc _ _ HI f n E0) as [?|Ht]; [left; by rewrite El|]. right. right. apply elem_of_app. right.
    apply elem_of_cons in Ht as [?|[?|?]%elem_of_app]; done.
Qed.

(** ** Lines that fit *)

Lemma isToken_chars s : isToken s = true → contains_char lf s = false ∧ contains_char nul s = false.
Proof.
  unfold isToken. intros [_ H]%andb_true_iff. split; by eapply all_chars_contains, H.
Qed.

Lemma cgPath_inl p s rel : cgPath p s = inl rel → isToken rel = true ∧ HasPrefix rel "/" = true ∧ (String.length rel ≤ String.length p)%nat.
Proof.
  unfold cgPath. case_match; [done|]. set (x := str_drop _ p). destruct (HasPrefix x "/") eqn:Hp; rewrite ?orb_true_r; [|done].
  case_match; [done|]. case_match eqn:Ht; [|done]. intros [= <-]. split_and!; [done|done|]. unfold x.
  rewrite <-(str_take_drop (String.length (en_cgRoot s)) p) at 2. rewrite str_length_app. lia.
Qed.

Lemma fits_lineOK f rel : fits (LEAF f rel) = true → HasPrefix rel "/" = true → lineOK (LEAF f rel) = true.
Proof.
  intros Hf Hp. unfold lineOK. rewrite Hf. simpl. unfold fits in *. apply andb_true_iff in Hf as [Hl Hc].
  assert (1 ≤ String.length rel)%nat by (destruct rel; [done|simpl; lia]).
  apply negb_true_iff, orb_false_iff in Hc as [H1 H2]. unfold text in *. rewrite !contains_char_app in H1, H2.
  rewrite !contains_char_app. apply Nat.leb_le in Hl. rewrite !str_length_app in Hl. simpl in Hl.
  apply orb_false_iff in H1 as [_ H1], H2 as [_ H2]. apply orb_false_iff in H1 as [H1 _], H2 as [H2 _]. rewrite H1, H2.
  apply andb_true_iff. split; [|done]. apply Nat.leb_le. rewrite str_length_app. simpl. unfold engineLineMax in *. lia.
Qed.

Lemma shorter_fits f p rel :
  (String.length (text (LEAF f p)) + 1 <=? engineLineMax)%nat = true → isToken f = true → isToken rel = true →
  (String.length rel ≤ String.length p)%nat → fits (LEAF f rel) = true.
Proof.
  intros Hl Hf Hr Hle. destruct (isToken_chars _ Hf) as [F1 F2], (isToken_chars _ Hr) as [R1 R2]. unfold fits, text in *.
  rewrite !contains_char_app, F1, F2, R1, R2. apply andb_true_iff. split; [|done].
  apply Nat.leb_le in Hl. apply Nat.leb_le. rewrite !str_length_app in *. simpl in *. lia.
Qed.

(** ** LEAF, UNLEAF, RELAY *)

(** The tokens of a restored slice of [f]: some or none. *)
Definition restored (f : string) (R : list etok) : Prop := ∀ t, t ∈ R → t = TRes f.

Lemma restored_w f R : restored f R → omap wtok R = [].
Proof.
  induction R as [|t R IH]; [done|]. intros H. assert (t = TRes f) as -> by (apply H; by left).
  apply IH. intros x Hx. apply H. by right.
Qed.
Lemma restored_r f R : restored f R → omap rtok R = [].
Proof.
  induction R as [|t R IH]; [done|]. intros H. assert (t = TRes f) as -> by (apply H; by left).
  apply IH. intros x Hx. apply H. by right.
Qed.

Lemma set_use_same s : set_use (en_used s) (en_slices s) s = s.
Proof. by destruct s. Qed.

Lemma leaf_gives f p R : restored f R → gives R (leaf f p) (λ r R', match r with None => R' = [] | Some _ => R' = R end).
Proof.
  intros HR. apply withWmu_gives. eapply inWmu_bind.
  { apply (inWmu_inMu R (WOwe []) (λ _, WOwe []) R _ (λ pr w R', w = WOwe [] ∧ R' = R ∧ ∃ s, pr = cgPath p s)); [done|].
    intros s U HI. split; [done|]. split_and!; eauto. }
  intros pr w R' (-> & -> & s & ->). destruct (cgPath p s) as [rel|e] eqn:Ep; [|apply inWmu_ret; auto].
  apply cgPath_inl in Ep as (Ht & Hs & _). destruct (isToken f); [|apply inWmu_ret; auto]. cbn [negb].
  eapply inWmu_bind; [apply inWmu_wmu, (write_wmu (WOwe []) (WAhead (LEAF f rel)))|].
  { intros v m. simpl. by intros ->. }
  { intros Hf. by apply fits_lineOK. }
  intros [e|] w' R' [Hw ->]; [destruct e; simpl in Hw; try done; destruct Hw as [-> _]; apply inWmu_ret; auto|].
  destruct Hw as [-> Hfit]. eapply inWmu_bind; [|intros a w1 R1 H; apply inWmu_ret; exact H].
  apply (inWmu_inMu R (WAhead (LEAF f rel)) (λ _, WOwe []) []); [set_solver|]. intros s1 U HI. split; [|auto].
  cbv beta delta [modify]. cbn [snd].
  rewrite <-(set_use_same (set_maps (<[f:=rel]> (en_leaves s1)) (en_relays s1) s1)).
  apply (EInv_maps s1 (WAhead (LEAF f rel)) (WOwe []) R []); simpl; try done.
  - by rewrite (restored_r f R).
  - intros f' p'. rewrite lookup_insert. case_decide; [subst; intros [= <-]; by apply fits_lineOK|apply (ei_fit _ _ HI)].
  - apply (ei_fit _ _ HI).
  - intros f' n E. split; [done|]. destruct (decide (f = f')) as [->|Hne]; [left; by rewrite lookup_insert_eq|].
    right. right. rewrite lookup_insert_ne by done. split; [|done]. intros H%HR. congruence.
Qed.

Lemma unleaf_gives f R : restored f R → gives R (unleaf f) (λ _ R', R' = []).
Proof.
  intros HR. apply withWmu_gives. eapply inWmu_bind.
  { apply (inWmu_inMu R (WOwe []) (λ had : bool, if had then WOwe [UNLEAF f] else WOwe []) [] _
      (λ had w R', R' = [] ∧ (had = false ∧ w = WOwe [] ∨ had = true ∧ w = WOwe [UNLEAF f] ∧ fits (UNLEAF f) = true))); [set_solver|].
    intros s U HI. cbn [fst snd]. split.
    - apply (EInv_maps s (WOwe [])  _ R []); simpl; try done.
      + by rewrite (restored_r f R).
      + intros c Ha. case_bool_decide as Hd; simpl; rewrite Ha; unfold kept; [done|].
        rewrite delete_id; [done|]. by apply eq_None_not_Some.
      + by case_bool_decide.
      + intros f' p' [_ E]%lookup_delete_Some. by apply (ei_fit _ _ HI).
      + apply (ei_fit _ _ HI).
      + intros f' n [Hne E]%lookup_delete_Some. split; [done|]. right. right. rewrite lookup_delete_ne by done.
        split; [|done]. intros H%HR. congruence.
    - split; [done|]. case_bool_decide as Hd; [right|by left]. split_and!; [done|done|]. destruct Hd as [p Hp].
      apply (ei_fit _ _ HI) in Hp. unfold lineOK in Hp. by apply andb_true_iff in Hp as [_ ?]. }
  intros had w R' [-> [[-> ->]|(-> & -> & Hf)]]; [apply inWmu_ret; auto|].
  eapply inWmu_bind; [apply inWmu_wmu, (write_wmu (WOwe [UNLEAF f]) (WOwe [])); done|].
  intros [e|] w' R' [Hw ->]; apply inWmu_ret; [destruct e; simpl in Hw; try done|naive_solver].
  - destruct Hw as [-> _]. auto.
  - destruct Hw as [_ ?]. congruence.
Qed.

Lemma endDevice_gives f R : restored f R → gives R (endDevice f) (λ _ R', R' = []).
Proof.
  intros HR. eapply gives_bind; [by apply unleaf_gives|]. intros _ R' ->. eapply gives_bind; [by apply gives_unmoved, send_unmoved|].
  intros _ R' ->. by apply gives_ret.
Qed.

Lemma endDevice_unmoved f : unmoved (endDevice f).
Proof. apply (unmoved_gives _ (λ _ R', R' = [])); [|done]. apply endDevice_gives. intros t Ht. by apply not_elem_of_nil in Ht. Qed.

(** Without a restored slice, the tokens of others are all there is. *)
Lemma maps_step s w w' U leaves relays :
  EInv s (TWmu w None :: U) →
  (∀ c, agrees w (viewOf c s) (kept s) → agrees w' (viewOf c s) (leaves, relays)) →
  match w' with WAhead _ => False | _ => True end →
  (∀ f p, leaves !! f = Some p → lineOK (LEAF f p) = true) → (∀ p, p ∈ relays → lineOK (RELAY p) = true) →
  (∀ f, is_Some (en_leaves s !! f) → is_Some (leaves !! f)) →
  EInv (set_maps leaves relays s) (TWmu w' None :: U).
Proof.
  intros HI Ha Hw Hl Hr Hm. rewrite <-(set_use_same (set_maps leaves relays s)).
  apply (EInv_maps s w w' [] []); try done. simpl. intros f n E. split; [done|].
  destruct (en_leaves s !! f) eqn:El; [left; apply Hm; by rewrite El|].
  destruct (leaves !! f) eqn:El'; [by left; eauto|]. right. right. split; [apply not_elem_of_nil|done].
Qed.

Lemma releaf_unmoved f p :
  (String.length (text (LEAF f p)) + 1 <=? engineLineMax)%nat = true → unmoved (releaf f p).
Proof.
  intros Hlen. apply withWmu_unmoved. destruct (isToken f) eqn:Hf; cbn [negb]; [|apply wmu_ret; auto].
  eapply wmu_bind.
  { apply (wmu_inMu (WOwe []) (λ pr, match pr with inl rel => WOwe [LEAF f rel] | inr _ => WOwe [] end) _
      (λ pr w, match pr with inl rel => w = WOwe [LEAF f rel] ∧ fits (LEAF f rel) = true | inr _ => w = WOwe [] end)).
    intros s U HI. cbn [fst snd]. destruct (cgPath p s) as [rel|e] eqn:Ep; [|done].
    apply cgPath_inl in Ep as (Ht & Hs & Hle). pose proof (shorter_fits f p rel Hlen Hf Ht Hle) as Hfit. split; [|done].
    apply (maps_step s (WOwe [])); simpl; try done.
    - intros c Ha. by rewrite Ha.
    - intros f' p'. rewrite lookup_insert. case_decide; [subst; intros [= <-]; by apply fits_lineOK|apply (ei_fit _ _ HI)].
    - apply (ei_fit _ _ HI).
    - intros f' H. rewrite lookup_insert. by case_decide. }
  intros [rel|e] w; [intros [-> Hfit]|intros ->; apply wmu_ret; auto].
  eapply wmu_bind; [apply (write_wmu (WOwe [LEAF f rel]) (WOwe [])); done|].
  intros [e|] w' Hw; [|apply wmu_ret; naive_solver]. destruct e; simpl in Hw; try done; apply wmu_ret; [naive_solver|].
  destruct Hw. congruence.
Qed.

Lemma relay_unmoved cg : unmoved (relay cg).
Proof.
  apply withWmu_unmoved. eapply wmu_bind; [apply wmu_unmoved, unmoved_gets|]. intros [rel|e] w ->; [|apply wmu_ret; auto].
  eapply wmu_bind; [apply (write_wmu (WOwe []) (WAhead (RELAY rel)))|].
  { intros v m. simpl. by intros ->. }
  { intros Hf. unfold lineOK. by rewrite Hf. }
  assert (∀ w', (w' = WAhead (RELAY rel) ∨ w' = WDead) → fits (RELAY rel) = true →
    wmu w' (inMu (modify (λ s : Eng, set_maps (en_leaves s) ({[rel]} ∪ en_relays s) s)) ≫= λ _, mret None)
      (λ (_ : option eerr) w, w = WOwe [] ∨ w = WDead)) as Hkeep.
  { intros w' Hw' Hf. apply (wmu_bind w' _ _ (λ _ w, w = WOwe [])); [|intros a w1 ->; apply wmu_ret; by left].
    apply (wmu_inMu w' (λ _, WOwe [])). intros s U HI. split; [|done]. apply (maps_step s w'); simpl; try done.
    - intros c. destruct Hw' as [->| ->]; simpl; [by intros ->|done].
    - apply (ei_fit _ _ HI).
    - intros q [->%elem_of_singleton|Hq]%elem_of_union; [unfold lineOK; by rewrite Hf|by apply (ei_fit _ _ HI)]. }
  intros [e|] w' Hw; [|apply Hkeep; naive_solver]. destruct e; simpl in Hw; try done; [apply Hkeep; naive_solver|].
  apply wmu_ret. naive_solver.
Qed.

(** ** Exchanges *)

(** Replies change: what waits, what is in the channels. *)
Lemma EInv_replies s U r rs :
  EInv s U →
  (∀ c o i, rok s (RUp c o) → o = Some i → r ≠ Some i ∧ ∃ rp, rs !! i = Some rp ∧ rp_ch rp = []) →
  (∀ i, r = Some i → ∃ rp, rs !! i = Some rp ∧ rp_ch rp = []) →
  (∀ i rp x, rs !! i = Some rp → x ∈ rp_ch rp → x = "" ∨ Fields x ≠ []) →
  EInv (set_replies r rs (en_broken s) s) U.
Proof.
  intros HI Hpend Hr Hc. constructor; try by destruct HI.
  destruct (ei_r _ _ HI) as [(E & Hk)|(k & E & Hk)]; [left|right; exists k]; (split; [done|]); [done|].
  destruct k as [|c|c|c o]; [done|done|done|]. destruct Hk as (H1 & H2 & H2' & H3). split_and!; [done|done|done|].
  intros i ->. apply (Hpend c (Some i) i); done.
Qed.

Lemma register_unmoved want f : unmoved (inMu (register want f)).
Proof.
  apply unmoved_inMu. intros s U HI. unfold register. destruct (en_conn s); [|done]. destruct (en_up s); [|done]. cbn [snd].
  apply EInv_replies; [done|..].
  - intros c o i (_ & _ & _ & H) ->. destruct (H i eq_refl) as (_ & rp & Hi & Hc). split.
    + intros [= <-]. apply lookup_lt_Some in Hi. lia.
    + exists rp. rewrite lookup_app_l; [done|by eapply lookup_lt_Some].
  - intros i [= <-]. exists (mkReply f want []). rewrite lookup_app_r by lia. by rewrite Nat.sub_diag.
  - intros i rp x [Hi|[_ Hi]]%lookup_app_Some Hx; [by eapply (ei_chan _ _ HI)|].
    apply list_lookup_singleton_Some in Hi as [_ <-]. by apply not_elem_of_nil in Hx.
Qed.

Lemma unregister_unmoved i : unmoved (inMu (unregister i)).
Proof.
  apply unmoved_inMu. intros s U HI. unfold unregister, modify. cbn [snd]. case_bool_decide; [|done].
  apply EInv_replies; [done| |done|apply (ei_chan _ _ HI)].
  intros c o j (_ & _ & _ & H') ->. destruct (H' j eq_refl) as (_ & rp). split; [done|]. done.
Qed.

Lemma awaitReply_gives i R : gives R (awaitReply i) (λ r R', R' = R ∧ ∀ x, r = inl x → Fields x ≠ []).
Proof.
  eapply gives_bind; [apply gives_unmoved, unmoved_called|]. intros [] R' ->; [|by apply gives_ret].
  intros R0 Q s0 HQ s F _ HI Hg. unfold replyReady in Hg. unfold takeReply. destruct (en_replies s !! i) as [rp|] eqn:Ei; [|done].
  destruct (rp_ch rp) as [|x ch] eqn:Ec; [done|]. cbn [fst snd head tail default].
  exists (R ++ R0). split_and!; [|done|by intros t Ht; exists t|].
  - assert (∀ j rp0, en_replies s !! j = Some rp0 → rp_ch rp0 = [] →
      ∃ rp1, <[i := mkReply (rp_fence rp) (rp_verb rp) ch]> (en_replies s) !! j = Some rp1 ∧ rp_ch rp1 = []) as Hemp.
    { intros j rp0 Hj H0. exists rp0. rewrite list_lookup_insert_ne; [done|]. intros ->. congruence. }
    apply EInv_replies; [done|..].
    + intros c o j (_ & _ & _ & H) ->. destruct (H j eq_refl) as (? & rp0 & Hj & H0). split; [done|]. eauto.
    + intros j Hj. destruct (ei_rep _ _ HI j Hj) as (rp0 & ? & ?). eauto.
    + intros j rp1 y Hj Hy. apply list_lookup_insert_Some in Hj as [(<- & <- & _)|[_ Hj]]; [|by eapply (ei_chan _ _ HI)].
      eapply (ei_chan _ _ HI); [done|]. rewrite Ec. by right.
  - apply HQ. split; [done|]. intros y. clear Hg. unfold id. case_bool_decide as E0; [done|]. intros [= <-].
    destruct (ei_chan _ _ HI i rp x Ei) as [?|?]; [rewrite Ec; by left|done|done].
Qed.

Lemma exchange_gives l want f R :
  (∀ v, told v l = v) → gives R (exchange l want f) (λ r R', R' = R ∧ ∀ x, r = inl x → Fields x ≠ []).
Proof.
  intros Hl. eapply gives_bind; [apply gives_unmoved, unmoved_taking; intros s U _; apply EInv_emu|]. intros _ R' ->.
  eapply gives_bind; [apply gives_unmoved, register_unmoved|]. intros o R' ->.
  apply (gives_bind _ _ _ (λ r R', R' = R ∧ ∀ x, r = inl x → Fields x ≠ [])).
  - destruct o as [i|]; [|by apply gives_ret]. eapply gives_bind; [by apply gives_unmoved, send_unmoved|]. intros e R' ->.
    apply (gives_bind _ _ _ (λ r R', R' = R ∧ ∀ x, r = inl x → Fields x ≠ [])).
    + destruct e; [by apply gives_ret|apply awaitReply_gives].
    + intros r R' [-> Hr]. eapply gives_bind; [apply gives_unmoved, unregister_unmoved|]. intros _ R' ->. by apply gives_ret.
  - intros r R' [-> Hr]. eapply gives_bind; [apply gives_unmoved, unmoved_inMu; intros s U; apply EInv_emu|].
    intros _ R' ->. by apply gives_ret.
Qed.

(** A reply that is not the one asked for, which has at least a word. *)
Lemma refusal_gives {A} fs R : fs ≠ [] → gives R (refusal (A := A) fs) (λ r R', R' = R ∧ ∃ e, r = inr e).
Proof. intros H. destruct fs as [|w fs]; [done|]. apply gives_ret. eauto. Qed.

Lemma holdSlice_gives f R : gives R (holdSlice f) (λ _ R', R' = R).
Proof.
  unfold holdSlice. case_match; [by apply gives_ret|]. eapply gives_bind; [by apply exchange_gives|].
  intros [x|e] R' [-> Hx]; [|by apply gives_ret]. specialize (Hx x eq_refl).
  assert (gives R (refusal (A := unit) (Fields x)) (λ _ R', R' = R)) as Hr.
  { eapply gives_mono; [|by apply refusal_gives]. naive_solver. }
  destruct (Fields x) as [|w [|f' [|]]]; try done. case_match; [by apply gives_ret|done].
Qed.

Lemma save_gives f R : gives R (save f) (λ _ R', R' = R).
Proof.
  unfold save. eapply gives_bind; [by apply exchange_gives|].
  intros [x|e] R' [-> Hx]; [|by apply gives_ret]. specialize (Hx x eq_refl).
  assert (gives R (refusal (A := N * string) (Fields x)) (λ _ R', R' = R)) as Hr.
  { eapply gives_mono; [|by apply refusal_gives]. naive_solver. }
  destruct (Fields x) as [|w [|f' [|n [|h [|]]]]]; try done. case_match; [case_match; by apply gives_ret|done].
Qed.

(** A restored slice is counted before its fence has a LEAF. *)
Lemma EInv_restore s U f n : EInv s U → EInv (if en_up s then set_use (en_used s) (<[f := n]> (en_slices s)) s else s) (TRes f :: U).
Proof.
  intros HI. assert (EInv s (TRes f :: U)) as HI'.
  { destruct HI as [Hw Hr Hsn Hf Hu Hs Hp Hc Hb]. constructor; try done. intros f' n' H. destruct (Hs f' n' H); [by left|right; by right]. }
  destruct (en_up s) eqn:Hu; [|done]. destruct HI' as [Hw Hr Hsn Hf Hu' Hs Hp Hc Hb]. constructor; try done.
  - simpl. congruence.
  - simpl. intros f' n'. rewrite lookup_insert. case_decide; [subst; intros _; right; by left|apply Hs].
Qed.

Lemma restore_gives f : gives [] (restore f) (λ r R', restored f R' ∧ ∀ e, r = inr e → R' = []).
Proof.
  assert (restored f []) as H0 by (intros t Ht; by apply not_elem_of_nil in Ht).
  unfold restore. case_match; [by apply gives_ret|]. eapply gives_bind; [by apply exchange_gives|].
  intros [x|e] R' [-> Hx]; [|by apply gives_ret]. specialize (Hx x eq_refl).
  assert (gives [] (refusal (A := N) (Fields x)) (λ r R', restored f R' ∧ ∀ e, r = inr e → R' = [])) as Hr.
  { eapply gives_mono; [|by apply refusal_gives]. naive_solver. }
  destruct (Fields x) as [|w [|f' [|n [|]]]]; try done. case_match; [|done]. case_match; [|by apply gives_ret].
  apply (gives_bind _ _ _ (λ _ R', restored f R')); [|intros _ R' HR; apply gives_ret; by split].
  case_match; [|by apply gives_ret]. intros R0 Q s0 HQ s F _ HI. exists (TRes f :: R0).
  split_and!; [by apply EInv_restore|done| |].
  - intros t [->|Ht]%elem_of_cons Hst; [done|by exists t].
  - apply (HQ tt [TRes f]). intros t Ht. by apply list_elem_of_singleton in Ht.
Qed.

(** ** What the runtime does with the device *)

Lemma restored_nil f : restored f [].
Proof. intros t Ht. by apply not_elem_of_nil in Ht. Qed.

Lemma live_or_end f R : restored f R → gives R (b ← called ELive; if (b : bool) then mret tt else endDevice f) (λ _ R', R' = R ∨ R' = []).
Proof.
  intros HR. eapply gives_bind; [apply gives_unmoved, unmoved_called|]. intros [] R' ->; [apply gives_ret; auto|].
  eapply gives_mono; [|by apply endDevice_gives]. auto.
Qed.

Lemma birthDevice_unmoved f p : unmoved (birthDevice f p).
Proof.
  apply (unmoved_gives _ (λ _ R', R' = [])); [|done]. eapply gives_bind; [apply leaf_gives, restored_nil|].
  intros [e|] R' ->; [by apply gives_ret|]. eapply gives_mono; [|apply live_or_end, restored_nil]. naive_solver.
Qed.

Lemma resumeDevice_unmoved f p : unmoved (resumeDevice f p).
Proof.
  apply (unmoved_gives _ (λ _ R', R' = [])); [|done]. eapply gives_bind; [apply restore_gives|].
  intros [n|e] R' [HR He]; [|rewrite (He e eq_refl); by apply endDevice_gives, restored_nil].
  eapply gives_bind; [by apply leaf_gives|]. intros [e|] R1 ->; [by apply endDevice_gives|].
  eapply gives_mono; [|apply live_or_end, restored_nil]. naive_solver.
Qed.

Lemma releafDevice_unmoved f p :
  (String.length (text (LEAF f p)) + 1 <=? engineLineMax)%nat = true → unmoved (releafDevice f p).
Proof.
  intros H. apply unmoved_bind; [by apply releaf_unmoved|]. intros _. apply unmoved_bind; [apply unmoved_called|].
  intros []; [apply unmoved_ret|apply endDevice_unmoved].
Qed.

Lemma unparkDevice_unmoved f p :
  (String.length (text (LEAF f p)) + 1 <=? engineLineMax)%nat = true → unmoved (unparkDevice f p).
Proof.
  intros H. apply unmoved_bind; [apply unmoved_called|]. intros []; [by apply releafDevice_unmoved|apply endDevice_unmoved].
Qed.


Lemma parkDevice_unmoved f p :
  (String.length (text (LEAF f p)) + 1 <=? engineLineMax)%nat = true → unmoved (parkDevice f p).
Proof.
  intros H. apply unmoved_bind; [apply (unmoved_gives _ (λ _ R', R' = [])); [apply holdSlice_gives|done]|].
  assert (unmoved (_ ← unhold f; unparkDevice f p)) as Hu by (apply unmoved_bind; [apply unhold_unmoved|intros _; by apply unparkDevice_unmoved]).
  intros [u|e].
  - apply unmoved_bind; [apply unmoved_gets|]. intros n. apply unmoved_bind.
    { case_match; [apply unmoved_ret|]. apply unmoved_bind; [|intros; apply unmoved_ret].
      apply (unmoved_gives _ (λ _ R', R' = [])); [apply save_gives|done]. }
    intros saved. apply unmoved_bind; [case_match; [apply unmoved_called|apply unmoved_ret]|]. intros []; [apply endDevice_unmoved|done].
  - destruct e; try done. apply unmoved_bind; [apply unmoved_called|].
    intros []; [apply endDevice_unmoved|by apply unparkDevice_unmoved].
Qed.

(** ** Lines from the engine *)

(** A step of run, with its token. *)
Lemma gives_run {A} r (r' : A → running) (f : St Eng A) (Q : A → running → Prop) :
  (∀ s U, EInv s (TRun r :: U) → EInv (f s).2 (TRun (r' (f s).1) :: U) ∧ Q (f s).1 (r' (f s).1)) →
  gives [TRun r] (inMu f) (λ a R', ∃ k, R' = [TRun k] ∧ Q a k).
Proof.
  intros Hf R0 Q' s0 HQ s F _ HI. destruct (Hf s (R0 ++ F) HI) as [HI' HQ']. exists (TRun (r' (f s).1) :: R0).
  split_and!; [done|done|by apply same_keys|]. apply (HQ _ [TRun (r' (f s).1)]). eauto.
Qed.

(** The token of run changed, nothing of the connections. *)
Lemma EInv_run s s' r r' U :
  EInv s (TRun r :: U) → en_conns s' = en_conns s → wpart s' U →
  rok s' r' → (∀ c0, starting r' = Some c0 → starting r = Some c0) →
  kept s' = kept s → (en_up s' = false → en_slices s' = ∅ ∧ en_used s' = 0%N) →
  (∀ f n, en_slices s' !! f = Some n → en_slices s !! f = Some n ∨ is_Some (en_leaves s !! f)) →
  (∀ i, en_reply s' = Some i → ∃ rp, en_replies s' !! i = Some rp ∧ rp_ch rp = []) →
  (∀ i rp x, en_replies s' !! i = Some rp → x ∈ rp_ch rp → x = "" ∨ Fields x ≠ []) → en_broken s' = false →
  EInv s' (TRun r' :: U).
Proof.
  intros HI Hcs Hw Hr Hst Hk Hu Hs Hp Hc Hb. destruct (EInv_r _ _ _ HI) as [Hr0 Hrok].
  injection Hk as Hk1 Hk2. constructor; try done.
  - right. exists r'. rewrite omap_r, Hr0. done.
  - intros w c0 E. rewrite Hcs. destruct (ei_snap _ _ HI w c0 E) as [H1 H2]. split; [done|]. intros k.
    rewrite omap_r, Hr0. intros [= <-] E'. apply (H2 r); [by rewrite omap_r, Hr0|]. by apply Hst.
  - rewrite Hk1, Hk2. apply (ei_fit _ _ HI).
  - intros f n E. rewrite Hk1. destruct (Hs f n E) as [E0|?]; [|by left].
    destruct (ei_slc _ _ HI f n E0) as [?|[?|?]%elem_of_cons]; [by left|done|right; by right].
Qed.

Lemma wpart_run s r U : EInv s (TRun r :: U) → wpart s U.
Proof. intros HI. apply (ei_w _ _ HI). Qed.

Lemma applyDevice_run f n s U c :
  EInv s (TRun (RUp c None) :: U) → EInv (applyDevice f n s) (TRun (RUp c None) :: U).
Proof.
  intros HI. destruct (EInv_r _ _ _ HI) as [_ Hr]. pose proof (wpart_run _ _ _ HI) as Hw.
  assert (∀ used slices, (∀ f n, slices !! f = Some n → en_slices s !! f = Some n ∨ is_Some (en_leaves s !! f)) →
    EInv (set_use used slices s) (TRun (RUp c None) :: U)) as Hset.
  { intros used slices Hs. apply (EInv_run s _ (RUp c None)); try done.
    - simpl. destruct Hr as (_ & Hu & _). congruence.
    - apply (ei_rep _ _ HI).
    - apply (ei_chan _ _ HI).
    - apply (ei_brk _ _ HI). }
  unfold applyDevice. case_bool_decide; [apply Hset; auto|]. case_match.
  - apply Hset. intros f' n' [_ ?]%lookup_delete_Some. auto.
  - destruct (en_leaves s !! f) eqn:El; [|done]. apply Hset. intros f' n'. rewrite lookup_insert. case_decide; [subst; eauto|auto].
Qed.

(** A reply pushed on an empty channel. *)
Lemma sendReply_empty s i rp x : en_replies s !! i = Some rp → rp_ch rp = [] →
  sendReply i x s = set_replies (en_reply s) (<[i := mkReply (rp_fence rp) (rp_verb rp) [x]]> (en_replies s)) (en_broken s) s.
Proof. intros Hi Hc. unfold sendReply. rewrite Hi, Hc. done. Qed.

Lemma insert_chan (rs : list engineReply) (i : nat) rp x :
  rs !! i = Some rp → (x = "" ∨ Fields x ≠ []) → (∀ j r y, rs !! j = Some r → y ∈ rp_ch r → y = "" ∨ Fields y ≠ []) →
  ∀ j r y, <[i := mkReply (rp_fence rp) (rp_verb rp) [x]]> rs !! j = Some r → y ∈ rp_ch r → y = "" ∨ Fields y ≠ [].
Proof.
  intros Hi Hx Hrs j r y [(<- & <- & _)|[_ Hj]]%list_lookup_insert_Some Hy; [|eauto].
  apply list_elem_of_singleton in Hy as ->. done.
Qed.

Lemma deliver_gives w f x c : Fields x ≠ [] →
  gives [TRun (RUp c None)] (deliver w f x) (λ _ R', R' = [TRun (RUp c None)]).
Proof.
  intros Hx. eapply gives_bind.
  { apply (gives_run (RUp c None) (λ o, RUp c o) _ (λ o k, k = RUp c o)). intros s U HI. split; [|done].
    unfold claimReply. destruct (en_reply s) as [i|] eqn:Er; [|done]. destruct (en_replies s !! i) as [rp|] eqn:Ei; [|done].
    case_match; [|done]. cbn [fst snd]. destruct (EInv_r _ _ _ HI) as [_ (H1 & H2 & H3 & _)].
    apply (EInv_run s _ (RUp c None)); try done; [apply (wpart_run _ _ _ HI)| |apply (ei_use _ _ HI)|auto|apply (ei_chan _ _ HI)|apply (ei_brk _ _ HI)].
    split_and!; [done|done|done|]. intros j [= <-]. split; [done|]. by apply (ei_rep _ _ HI). }
  intros [i|] R' (k & -> & ->); [|by apply gives_ret].
  eapply gives_mono; [|apply (gives_run (RUp c (Some i)) (λ _, RUp c None) _ (λ _ k, k = RUp c None))].
  { intros _ R' (k & -> & ->). done. }
  intros s U HI. split; [|done]. unfold modify. cbn [fst snd].
  destruct (EInv_r _ _ _ HI) as [_ (H1 & H2 & H3 & H4)]. destruct (H4 i eq_refl) as (Hne & rp & Hi & Hc).
  rewrite (sendReply_empty s i rp x Hi Hc).
  apply (EInv_run s _ (RUp c (Some i))); try done; [apply (wpart_run _ _ _ HI)|apply (ei_use _ _ HI)|auto| |simpl|apply (ei_brk _ _ HI)].
  - intros j Hj. destruct (ei_rep _ _ HI j Hj) as (r & Hr1 & Hr2). exists r. split; [|done]. simpl.
    rewrite list_lookup_insert_ne; [done|]. intros ->. done.
  - apply insert_chan; [done|by right|apply (ei_chan _ _ HI)].
Qed.

Lemma apply_gives x c : gives [TRun (RUp c None)] (apply x) (λ _ R', R' = [TRun (RUp c None)]).
Proof.
  unfold apply. destruct (Fields x) as [|w [|f rest]] eqn:Ef; [by apply gives_ret..|].
  assert (gives [TRun (RUp c None)] (if isReply w then deliver w f x else mret tt) (λ _ R', R' = [TRun (RUp c None)])) as Hd.
  { case_match; [|by apply gives_ret]. apply deliver_gives. by rewrite Ef. }
  destruct (w ==? "DEVICE"); [|done]. destruct rest as [|n [|? [|]]]; try done.
  destruct (ParseUint n) as [m|]; [|by apply gives_ret].
  eapply gives_mono; [|apply (gives_run (RUp c None) (λ _, RUp c None) _ (λ _ k, k = RUp c None))].
  { intros _ R' (k & -> & ->). done. }
  intros st U HI. split; [|done]. by apply applyDevice_run.
Qed.

Lemma readable_unmoved c : unmoved (readable c).
Proof. apply unmoved_bind; [apply unmoved_called|]. intros b. apply unmoved_bind; [apply unmoved_gets|intros; apply unmoved_ret]. Qed.

Lemma serve_gives c msgs : gives [TRun (RUp c None)] (serve c msgs) (λ _ R', R' = [TRun (RUp c None)]).
Proof.
  induction msgs as [|m msgs IH]; [by apply gives_ret|]. cbn [serve].
  eapply gives_bind; [apply gives_unmoved, readable_unmoved|]. intros [] R' ->; [|by apply gives_ret].
  case_match; [|by apply gives_ret]. eapply gives_bind; [apply apply_gives|]. intros _ R' ->. done.
Qed.

(** ** Ends and starts *)

Lemma closeConn_keeps c s U : EInv s U → EInv (closeConn c s) U.
Proof.
  intros HI. unfold closeConn. set (g := λ n, mkConn false (cn_taken n)).
  assert (∀ c', fresh s c' → fresh (set_conns (alter g c (en_conns s)) s) c') as Hfr by (intros; by apply alter_fresh).
  destruct HI as [Hw Hr Hsn Hf Hu Hs Hp Hc Hb]. constructor; try done.
  - apply (frame_w s); [done|done| |done]. intros c' (H1 & H2 & H3). rewrite connOpen_alter in H3. simpl in H1, H2.
    destruct (en_conns s !! c') as [n|] eqn:En; [|done]. case_decide; [done|]. split; [split_and!; [done..|unfold connOpen; by rewrite En]|].
    unfold viewOf. simpl. by rewrite list_lookup_alter_ne.
  - destruct Hr as [(E & Hk)|(r & E & Hk)]; [by left|right; exists r; split; [done|]].
    destruct r; simpl in *; [naive_solver..|]. destruct_and!. split_and!; [done|done|by apply alter_some|done].
  - intros w c0 E. destruct (Hsn w c0 E). split; [by apply alter_some|done].
Qed.

Lemma closeConn_unmoved c : unmoved (inMu (modify (closeConn c))).
Proof. apply unmoved_inMu. intros s U. apply closeConn_keeps. Qed.

(** run gives the engine up, from a start or from its service. *)
Lemma downMu_run s r c U : r = RConn c ∨ r = RUp c None → EInv s (TRun r :: U) → EInv (downMu c s) (TRun RDown :: U).
Proof.
  intros Hr HI. destruct (EInv_r _ _ _ HI) as [_ Hrok].
  assert (en_conn s = Some c) as Hc by (destruct Hr as [->| ->]; by destruct Hrok). clear Hrok.
  unfold downMu. rewrite bool_decide_eq_true_2 by done. cbv zeta.
  assert (∀ rs : list engineReply, (∀ i r x, rs !! i = Some r → x ∈ rp_ch r → x = "" ∨ Fields x ≠ []) →
    EInv (set_replies None rs (en_broken s) (set_use 0 ∅ (set_link None false s))) (TRun RDown :: U)) as Hset.
  { intros rs Hrs. apply (EInv_run s _ r); try done.
    - apply (frame_w s); [done|done| |apply (wpart_run _ _ _ HI)]. by intros c' (? & _).
    - apply (ei_brk _ _ HI). }
  cbn [en_reply set_use set_link]. destruct (en_reply s) as [i|] eqn:Er.
  - destruct (ei_rep _ _ HI i Er) as (rp & Hi & Hch).
    rewrite (sendReply_empty (set_use 0 ∅ (set_link None false s)) i rp "" Hi Hch). cbn [en_replies en_broken set_replies].
    apply Hset. apply insert_chan; [done|by left|apply (ei_chan _ _ HI)].
  - specialize (Hset (en_replies s) (ei_chan _ _ HI)). unfold set_replies in Hset. simpl in Hset. unfold set_use, set_link. simpl.
    by rewrite Er.
Qed.

Lemma down_gives r c : r = RConn c ∨ r = RUp c None → gives [TRun r] (down c) (λ _ R', R' = [TRun RDown]).
Proof.
  intros Hr. eapply gives_bind.
  - apply (gives_run r (λ _, RDown) _ (λ _ k, k = RDown)). intros s U HI. split; [|done]. by apply (downMu_run s r).
  - intros _ R' (k & -> & ->). apply gives_unmoved, closeConn_unmoved.
Qed.

(** A socket pair for a new engine, while none runs. *)
Lemma newConn_run s U : EInv s (TRun RDown :: U) →
  EInv (newConn s).2 (TRun (RNew (newConn s).1) :: U).
Proof.
  intros HI. destruct (EInv_r _ _ _ HI) as [Hr0 [Hc Hu]]. unfold newConn. cbn [fst snd].
  assert (∀ c, is_Some (en_conns s !! c) → is_Some ((en_conns s ++ [mkConn true []]) !! c) ∧ c ≠ length (en_conns s)) as Hlt.
  { intros c H. apply lookup_lt_is_Some in H. split; [apply lookup_lt_is_Some; rewrite length_app; lia|lia]. }
  destruct HI as [Hw Hr Hsn Hf Hus Hs Hp Hch Hb]. constructor; try done.
  - apply (frame_w s); [done|done| |done]. intros c (H & _). simpl in H. congruence.
  - right. exists (RNew (length (en_conns s))). rewrite omap_r, Hr0. split; [done|]. split_and!; [done|done|].
    exists (mkConn true []). split; [|done]. simpl. rewrite lookup_app_r by lia. by rewrite Nat.sub_diag.
  - intros w c0 E. destruct (Hsn w c0 E) as [H1 _]. destruct (Hlt c0 H1). split; [done|]. intros r.
    rewrite omap_r, Hr0. intros [= <-]. simpl. congruence.
  - intros f n E. destruct (Hs f n E) as [?|[?|?]%elem_of_cons]; [by left|done|right; by right].
Qed.

Lemma handOver_run s c U : EInv s (TRun (RNew c) :: U) →
  EInv (handOver c s).2 (TRun (if (handOver c s).1 then RConn c else RDown) :: U).
Proof.
  intros HI. destruct (EInv_r _ _ _ HI) as [Hr0 (Hc & Hu & Hfr)]. unfold handOver.
  destruct (en_stop s); cbn [fst snd]; apply (EInv_run s _ (RNew c)); try done;
    try apply (wpart_run _ _ _ HI); try apply (ei_use _ _ HI); try apply (ei_rep _ _ HI); try apply (ei_chan _ _ HI);
    try apply (ei_brk _ _ HI); auto.
  - apply (frame_w s); [done|done| |apply (wpart_run _ _ _ HI)]. by intros c' (? & _).
  - intros _. by apply (ei_use _ _ HI).
Qed.

(** Everything told again is everything kept. *)
Lemma told_leaves ls m : foldl told m ((λ kv : string * string, LEAF kv.1 kv.2) <$> ls) = (list_to_map (reverse ls) ∪ m.1, m.2).
Proof.
  revert m. induction ls as [|[f p] ls IH] using rev_ind; intros [l r]; simpl; [by rewrite map_empty_union|].
  rewrite fmap_app, foldl_app, IH. simpl. rewrite reverse_snoc. simpl. by rewrite insert_union_l.
Qed.

Lemma told_relays ps m : foldl told m (RELAY <$> ps) = (m.1, list_to_set ps ∪ m.2).
Proof.
  revert m. induction ps as [|p ps IH]; intros [l r]; simpl; [f_equal; set_solver|]. rewrite IH. simpl. f_equal. set_solver.
Qed.

Lemma told_all leaves relays : foldl told (∅, ∅) (leafLines leaves ++ relayLines relays) = (leaves, relays).
Proof.
  rewrite foldl_app. unfold leafLines, relayLines. rewrite told_leaves, told_relays. simpl. f_equal; [|set_solver].
  rewrite map_union_empty. rewrite <-(list_to_map_to_list leaves) at 2. symmetry.
  apply list_to_map_proper; [apply NoDup_fst_map_to_list|symmetry; apply reverse_Permutation].
Qed.

Lemma resend_wmu ls rest : (∀ l, l ∈ ls → fits l = true) →
  wmu (WOwe (ls ++ rest)) (resend ls) (λ r w', if r then w' = WOwe rest else w' = WDead).
Proof.
  induction ls as [|l ls IH]; intros Hf; simpl; [by apply wmu_ret|].
  eapply wmu_bind; [apply (write_wmu (WOwe (l :: ls ++ rest)) (WOwe (ls ++ rest))); done|].
  assert (fits l = true) as Hl by (apply Hf; by left).
  intros [e|] w' Hw; [destruct e; simpl in Hw; try done; destruct Hw as [-> ?]; [by apply wmu_ret|congruence]|].
  destruct Hw as [-> _]. apply IH. intros x Hx. apply Hf. by right.
Qed.

Lemma fits_leaves s U : EInv s U → ∀ l, l ∈ leafLines (en_leaves s) → fits l = true.
Proof.
  intros HI l ([f p] & -> & Hin)%list_elem_of_fmap. apply elem_of_map_to_list in Hin. apply (ei_fit _ _ HI) in Hin.
  by apply andb_true_iff in Hin as [? _].
Qed.
Lemma fits_relays s U : EInv s U → ∀ l, l ∈ relayLines (en_relays s) → fits l = true.
Proof.
  intros HI l (p & -> & Hin)%list_elem_of_fmap. apply elem_of_elements in Hin. apply (ei_fit _ _ HI) in Hin.
  by apply andb_true_iff in Hin as [? _].
Qed.

(** rerelay owes the relays fiberd keeps, read anew. *)
Lemma rerelay_wmu relays : wmu (WOwe (relayLines relays)) rerelay (λ _ w', w' = WOwe [] ∨ w' = WDead).
Proof.
  apply (wmu_bind _ _ _ (λ ps w, w = WOwe (relayLines ps) ∧ ∀ l, l ∈ relayLines ps → fits l = true)).
  - intros R Q s0 HQ s F _ HI. exists (TWmu (WOwe (relayLines (en_relays s))) None :: R).
    split_and!; [|done|by apply same_keys|].
    + cbn [snd gets]. replace s with (set_conns (en_conns s) s) at 1 by (by destruct s).
      apply (EInv_token s _ (WOwe (relayLines relays)) None); [done|done|by destruct s|done|]. intros [H1 _].
      split; [|done]. intros c Hc. destruct (H1 c) as [Ha _]; [by destruct s|]. split; [|done].
      replace (viewOf c (set_conns (en_conns s) s)) with (viewOf c s) by (by destruct s).
      simpl in *. unfold relayLines, kept in *. rewrite told_relays in *. injection Ha as Ha1 Ha2. simpl.
      f_equal; [done|]. rewrite <-Ha2. set_solver.
    + apply (HQ (en_relays s) (WOwe (relayLines (en_relays s)))).
      split; [done|apply (fits_relays _ _ HI)].
  - intros ps w' [-> Hf]. eapply wmu_bind.
    { replace (WOwe (relayLines ps)) with (WOwe (relayLines ps ++ [])) by (by rewrite app_nil_r). by apply resend_wmu. }
    intros [] w' ->; apply wmu_ret; auto.
Qed.

(** The engine is up, and has yet to be told everything. *)
Lemma upMu_run s d root c U : EInv s (TWmu (WOwe []) None :: TRun (RConn c) :: U) →
  EInv (upMu d root s).2 (TWmu (WOwe (leafLines (en_leaves s) ++ relayLines (en_relays s))) None :: TRun (RUp c None) :: U).
Proof.
  intros HI. destruct (EInv_w _ _ _ _ HI) as (H1 & H2 & _).
  assert (EInv s (TRun (RConn c) :: TWmu (WOwe []) None :: U)) as HI'.
  { eapply (EInv_proper s); [apply perm_swap|exact HI]. }
  destruct (EInv_r _ _ _ HI') as [Hr0 (Hc & Hu & n & Hn & Ht)]. change (omap rtok U = []) in Hr0. change (omap wtok U = []) in H2.
  destruct HI as [_ _ Hsn Hf Hus Hs Hp Hch Hb]. constructor; try done; simpl.
  - right. exists (WOwe (leafLines (en_leaves s) ++ relayLines (en_relays s))), None. split_and!; [done| |].
    { rewrite omap_w. f_equal. exact H2. }
    split; [|done]. intros c' (_ & Hc' & _). simpl in Hc'. rewrite Hc in Hc'. injection Hc' as <-. split; [|done].
    unfold viewOf. simpl. rewrite Hn, Ht. simpl. apply told_all.
  - right. exists (RUp c None). split; [|split_and!; [done|done|by eauto|done]].
    change (RUp c None :: omap rtok U = [RUp c None]). by rewrite Hr0.
Qed.

Lemma launch_gives root m1 m2 m3 :
  gives [TRun RDown] (launch root m1 m2 m3) (λ r R', R' = [TRun (match r with Some c => RUp c None | None => RDown end)]).
Proof.
  eapply gives_bind; [apply gives_unmoved, unmoved_called|]. intros [] R' ->; [|by apply gives_ret]. cbn [negb].
  eapply gives_bind; [apply (gives_run RDown RNew _ (λ c k, k = RNew c)); intros s U HI; split; [by apply newConn_run|done]|].
  intros c R' (k & -> & ->).
  eapply gives_bind; [apply (gives_run (RNew c) (λ go : bool, if go then RConn c else RDown) _ (λ go k, k = if go then RConn c else RDown));
    intros s U HI; split; [by apply handOver_run|done]|].
  intros go R' (k & -> & ->). destruct go; cbn [negb];
    [|eapply gives_bind; [apply gives_unmoved, closeConn_unmoved|intros _ R' ->; by apply gives_ret]].
  assert (gives [TRun (RConn c)] (_ ← down c; mret None) (λ (r : option nat) R', R' = [TRun (match r with Some c => RUp c None | None => RDown end)])) as Hdown.
  { eapply gives_bind; [apply down_gives; by left|]. intros _ R' ->. by apply gives_ret. }
  eapply gives_bind; [apply gives_unmoved, unmoved_called|]. intros [] R' ->; cbn [negb]; [|done].
  eapply gives_bind; [apply gives_unmoved, readable_unmoved|]. intros b R' ->. destruct b; [|done].
  destruct (handshake m1 m2 m3) as [d|]; [|done].
  eapply gives_bind; [apply gives_unmoved, unmoved_gets|]. intros [class layout] R' ->. case_match; [done|].
  apply withWmu_gives. apply (inWmu_bind _ _ _ _ (λ leaves w R', (∃ relays, w = WOwe (leafLines leaves ++ relayLines relays)) ∧
    R' = [TRun (RUp c None)] ∧ ∀ l, l ∈ leafLines leaves → fits l = true)).
  { intros R0 Q s0 HQ s F _ HI. exists (TWmu (WOwe (leafLines (en_leaves s) ++ relayLines (en_relays s))) None :: TRun (RUp c None) :: R0).
    split_and!; [by apply upMu_run|done| |apply (HQ _ _ [TRun (RUp c None)]); split_and!; [by eauto|done|apply (fits_leaves _ _ HI)]].
    intros t [->|[->|Ht]%elem_of_cons]%elem_of_cons Hst; [done|exists (TRun (RConn c)); split; [right; by left|done]|exists t; split; [right; by right|done]]. }
  intros leaves w R' ([relays ->] & -> & Hf).
  eapply inWmu_bind; [by apply inWmu_wmu, resend_wmu|]. intros replayed w' R' [Hw ->].
  apply (inWmu_bind _ _ _ _ (λ _ w R', (w = WOwe [] ∨ w = WDead) ∧ R' = [TRun (RUp c None)])); [|intros _ w1 R1 [Hw1 ->]; by apply inWmu_ret].
  destruct replayed; subst w'; [|apply inWmu_ret; auto].
  intros R0 Q s0 HQ. eapply (inWmu_wmu [TRun (RUp c None)] _ _ _ (rerelay_wmu relays)). intros r w' R1 s [Hw2 ->]. by apply HQ.
Qed.

Lemma cycle_gives root m1 m2 m3 msgs : gives [TRun RDown] (cycle root m1 m2 m3 msgs) (λ _ R', R' = [TRun RDown]).
Proof.
  eapply gives_bind; [apply launch_gives|]. intros [c|] R' ->; [|by apply gives_ret].
  eapply gives_bind; [apply serve_gives|]. intros _ R' ->. apply down_gives. by right.
Qed.

Lemma stop_unmoved : unmoved stop.
Proof.
  apply unmoved_bind; [apply unmoved_inMu; by intros s U []|]. intros _. apply unmoved_bind; [apply unmoved_gets|].
  intros [c|]; [apply closeConn_unmoved|apply unmoved_ret].
Qed.

(** ** Soundness *)

Definition ejobTok (j : ejob) : list etok := match j with JCycle _ _ _ _ _ => [TRun RDown] | _ => [] end.
Definition ejobKeys (j : ejob) : list ekey := ekeyOf <$> ejobTok j.

Lemma unmoved_fin (p : EP unit) s : unmoved p → wp p (fin EInv ele) [] s.
Proof. intros Hp. apply Hp. by intros _ s1 s2 F _ HI. Qed.

Lemma omap_rtok_nil U : (∀ r, TRun r ∉ U) → omap rtok U = [].
Proof.
  induction U as [|t U IH]; [done|]. intros H. destruct t as [w o|r|f]; [|by destruct (H r); left|]; apply IH; intros r Hr; apply (H r); by right.
Qed.

Lemma espawn_ok s jobs U j :
  emay s jobs j = true → EInv s U → (∀ x, x ∈ U → estatic (ekeyOf x) → ∃ j', j' ∈ jobs ∧ ekeyOf x ∈ ejobKeys j') →
  EInv s (ejobTok j ++ U) ∧ (∀ x, x ∈ ejobTok j → estatic (ekeyOf x) → ekeyOf x ∈ ejobKeys j) ∧ wp (ebody j) (fin EInv ele) (ejobTok j) s.
Proof.
  intros Hm HI Hk. assert (∀ x, x ∈ ejobTok j → estatic (ekeyOf x) → ekeyOf x ∈ ejobKeys j) as Hkeys.
  { intros x Hx _. apply list_elem_of_fmap. eauto. }
  destruct j as [f p|f p|f p|f|p|root m1 m2 m3 msgs|]; cbn [ejobTok ebody emay app] in *.
  1-5,7: split_and!; [done|done|apply unmoved_fin].
  - apply birthDevice_unmoved.
  - apply resumeDevice_unmoved.
  - by apply parkDevice_unmoved.
  - apply endDevice_unmoved.
  - apply unmoved_bind; [apply relay_unmoved|intros; apply unmoved_ret].
  - apply stop_unmoved.
  - assert (omap rtok U = []) as Hr.
    { apply omap_rtok_nil. intros r Hr. destruct (Hk _ Hr eq_refl) as (j' & Hj' & Hin). rewrite forallb_forall in Hm.
      apply list_elem_of_In, Hm in Hj'. destruct j'; try done; by apply not_elem_of_nil in Hin. }
    split_and!; [|done|].
    + destruct (ei_r _ _ HI) as [(_ & Hrok)|(r & E & _)]; [|congruence].
      destruct HI as [Hw _ Hsn Hf Hu Hs Hp Hc Hb]. constructor; try done.
      * right. exists RDown. by rewrite omap_r, Hr.
      * intros w c0 E. destruct (Hsn w c0 E). split; [done|]. intros r. rewrite omap_r, Hr. by intros [= <-].
      * intros f' n E. destruct (Hs f' n E); [by left|right; by right].
    + apply (cycle_gives root m1 m2 m3 msgs []). intros _ R' s1 -> s2 F _ HI2. destruct (EInv_r _ _ _ HI2) as [Hr0 Hrok].
      destruct HI2 as [Hw _ Hsn Hf Hu Hs Hp Hc Hb]. constructor; try done.
      * by left.
      * intros w c0 E. destruct (Hsn w c0 E). split; [done|]. intros r E'. change (omap rtok F = [r]) in E'. congruence.
      * intros f' n E. destruct (Hs f' n E) as [?|[?|?]%elem_of_cons]; [by left|done|by right].
Qed.

Lemma newEngine_EInv : EInv newEngine [].
Proof. constructor; try done; [left; split_and!; [done|done|split; [by intros c (? & _)|done]]|by left]. Qed.

Lemma ereaches_EInv cf : ereaches cf → ∃ U, EInv (c_st cf) U ∧ (quiet cf → U = []).
Proof. apply (pool_invariant _ _ ekeyOf estatic EInv ele ejobKeys ejobTok); [exact espawn_ok|exact newEngine_EInv]. Qed.

(** ** The claims *)

(** C14: The engine that runs knows exactly the mappings fiberd keeps.  However
    births, resumes, parks, ends and relays interleave with each other, with
    restarts and with an engine that breaks at any write, whenever no line is
    being written the LEAF, UNLEAF and RELAY lines the running engine took from
    its fd 3 make up the leaves and relays fiberd would send again. *)
Theorem engine_told_exactly cf c :
  ereaches cf → en_wmu (c_st cf) = false → current (c_st cf) c → viewOf c (c_st cf) = kept (c_st cf).
Proof.
  intros (U & HI & _)%ereaches_EInv Hm Hc. destruct (ei_w _ _ HI) as [(_ & _ & [Hw _])|(w & o & ? & _)]; [|congruence].
  by destruct (Hw c Hc) as [H _].
Qed.

(** The device accounting is of live mappings.  In every state reached, an
    engine that is down counts nothing, whatever lines, replies and races came
    before; and once nothing is in progress every slice counted is of a fence
    that has its LEAF. *)
Theorem engine_accounts_mapped cf :
  ereaches cf →
  (en_up (c_st cf) = false → en_slices (c_st cf) = ∅ ∧ en_used (c_st cf) = 0%N) ∧
  (quiet cf → ∀ f n, en_slices (c_st cf) !! f = Some n → is_Some (en_leaves (c_st cf) !! f)).
Proof.
  intros (U & HI & Hq)%ereaches_EInv. split; [apply (ei_use _ _ HI)|]. intros ->%Hq f n E.
  destruct (ei_slc _ _ HI f n E) as [?|Ht]; [done|by apply not_elem_of_nil in Ht].
Qed.

(** A reply wakes one exchange, once.  Whatever the engine says, and however
    its end, timeouts and new exchanges race, no reply finds its channel full
    (so neither the reader nor down, which sends under e.mu, ever blocks) and
    no reply without a word is read. *)
Theorem engine_replies_safe cf : ereaches cf → en_broken (c_st cf) = false.
Proof. intros (U & HI & _)%ereaches_EInv. apply (ei_brk _ _ HI). Qed.

(** ** Runs *)

Definition msg (s : string) : string := s +:+ String lf "".

(** One round of run with an engine of class "sim" that says [said] once up. *)
Definition simCycle (said : list string) : ejob :=
  JCycle "/cg" (msg "ENGINE sim 1024 1 v1") (msg "GPU a 9.0 1") (msg "READY") (msg <$> said).

Definition erun (l : list (act (J := ejob))) : option (config (S := Eng) (C := ecall) (J := ejob)) := run ebody emay l (mkConfig newEngine []).
Definition estate (l : list (act (J := ejob))) : config (S := Eng) (C := ecall) (J := ejob) := default (mkConfig newEngine []) (erun l).
Definition eran (l : list (act (J := ejob))) : bool := match erun l with Some _ => true | None => false end.

Lemma estate_reaches l : eran l = true → ereaches (estate l).
Proof. unfold eran, estate. destruct (erun l) as [cf|] eqn:E; [|done]. intros _. by exists l. Qed.

Definition go (i n : nat) : list (act (J := ejob)) := repeat (Run i true) n.

(** The engine comes up; a fiber is born. *)
Definition upRun (said : list string) : list (act (J := ejob)) := Spawn (simCycle said) :: go 0 11.
Definition bornRun (f : string) : list (act (J := ejob)) := Spawn (JBirth f ("/cg/" +:+ f)) :: go 0 8 ++ [Reap 0].

(** The engine ends and is started again. *)
Definition againRun : list (act (J := ejob)) :=
  upRun [] ++ bornRun "f" ++ bornRun "g" ++ go 0 2 ++ Reap 0 :: Spawn (simCycle []) :: go 0 17.

Lemma engine_told_exactly_witness :
  viewOf 1 (c_st (estate againRun)) = ({["f" := "/f"; "g" := "/g"]}, ∅) ∧ viewOf 1 (c_st (estate againRun)) = kept (c_st (estate againRun)).
Proof.
  split; [vm_compute; reflexivity|].
  apply engine_told_exactly; [apply estate_reaches; vm_compute; reflexivity|vm_compute; reflexivity|].
  split_and!; vm_compute; reflexivity.
Defined.

(** The engine reports a slice and then ends. *)
Definition sliceRun : list (act (J := ejob)) := upRun ["DEVICE f 10 -"] ++ bornRun "f" ++ go 0 3.

Lemma engine_accounts_mapped_witness :
  en_slices (c_st (estate sliceRun)) = {["f" := 10%N]} ∧ en_slices (c_st (estate (sliceRun ++ go 0 2))) = ∅.
Proof.
  split; [vm_compute; reflexivity|].
  apply (engine_accounts_mapped (estate (sliceRun ++ go 0 2))); [apply estate_reaches|]; vm_compute; reflexivity.
Defined.

Definition heldRun : list (act (J := ejob)) := upRun ["HELD f"] ++ bornRun "f" ++ Spawn (JPark "f" "/cg/f") :: go 0 7.

Lemma engine_replies_safe_witness :
  en_reply (c_st (estate heldRun)) = Some 0 ∧ en_broken (c_st (estate (heldRun ++ go 1 4))) = false.
Proof.
  split; [vm_compute; reflexivity|].
  apply engine_replies_safe. apply estate_reaches. vm_compute. reflexivity.
Defined.

(** A HOLD times out and the park is undone; the engine's late HELD then answers
    the HOLD of the next park, which the engine has not come to yet. *)
Definition lateRun : list (act (J := ejob)) :=
  heldRun ++ Run 0 false :: go 0 15 ++ Reap 0 :: Spawn (JPark "f" "/cg/f") :: go 0 7 ++ go 1 4.

Lemma late_reply_answers_next :
  ereaches (estate lateRun) ∧ rp_ch <$> en_replies (c_st (estate lateRun)) = [[]; ["HELD f"]] ∧
  cn_taken <$> en_conns (c_st (estate lateRun)) = [[LEAF "f" "/f"; HOLD "f"; UNHOLD "f"; LEAF "f" "/f"; HOLD "f"]].
Proof. split_and!; [apply estate_reaches|..]; vm_compute; reflexivity. Qed.

(** A restored slice is counted after the engine that restored it ended and its
    successor, which has no such slice, came up. *)
Definition phantomRun : list (act (J := ejob)) :=
  upRun ["RESTORED f 10"] ++ Spawn (JResume "f" "/cg/f") :: go 0 7 ++ go 1 4 ++ go 0 4 ++ go 1 2 ++
  Reap 1 :: Spawn (simCycle []) :: go 0 11 ++ go 1 1.

Lemma restored_slice_of_dead_engine :
  ereaches (estate phantomRun) ∧ en_up (c_st (estate phantomRun)) = true ∧ en_slices (c_st (estate phantomRun)) = {["f" := 10%N]} ∧
  cn_taken <$> en_conns (c_st (estate phantomRun)) = [[RESTORE "f"]; []].
Proof. split_and!; [apply estate_reaches|..]; vm_compute; reflexivity. Qed.
