(* ===== verification/Images.v ===== *)
(** * CRIU memory images and the deltas between them (pkg/sys/criu/images.go)

    A checkpoint's memory is a pagemap (runs of pages with flags, a protobuf
    written by hand) and a pages file; a delta drops from the pages file every
    page the parent checkpoint holds at the same address.  [ComputeDelta] and
    [MergeDelta] work on a directory of files, write temporary files first and
    then rename them; [io] says which files can be written and which renamed.
    The files delta.json lists are names in the directory, as ComputeDelta
    lists them.
    The page size, SHA-256 and the JSON of delta.json are parameters. *)

From Stdlib Require Import Ascii Strings.Byte.
From S2P Require Import Prelude GoLib Encoding.
From stdpp Require Import options.

#[export] Instance byte_eq_dec : EqDecision Byte.byte := Byte.byte_eq_dec.

(** ** encoding/binary *)

Definition toByte (n : N) : Byte.byte := default Byte.x00 (Byte.of_N (n mod 256)).

(** [binary.AppendUvarint]: seven bits a byte, the low ones first. *)
Fixpoint appendUvarint (fuel : nat) (x : N) : bytes :=
  match fuel with
  | O => []
  | S fuel' =>
      if (x <? 128)%N then [toByte x]
      else toByte (N.lor x 128) :: appendUvarint fuel' (N.shiftr x 7)
  end.
Definition AppendUvarint (x : N) : bytes := appendUvarint 10 x.

(** [binary.Uvarint]: the value and the bytes it took; none for a short buffer
    or more than 64 bits. *)
Fixpoint uvarint (i : nat) (x : N) (buf : bytes) : option (N * nat) :=
  match buf with
  | [] => None
  | b :: buf' =>
      if (i =? 10)%nat then None
      else if (u8 b <? 128)%N then
        if (i =? 9)%nat && (1 <? u8 b)%N then None
        else Some (N.lor x (N.shiftl (u8 b) (7 * N.of_nat i)), S i)
      else uvarint (S i) (N.lor x (N.shiftl (N.land (u8 b) 127) (7 * N.of_nat i))) buf'
  end.
Definition Uvarint (buf : bytes) : option (N * nat) := uvarint 0 0 buf.

(** [binary.LittleEndian.PutUint32] and [Uint32]. *)
Definition putUint32 (n : N) : bytes := [toByte n; toByte (N.shiftr n 8); toByte (N.shiftr n 16); toByte (N.shiftr n 24)].
Definition uint32LE (b : bytes) : N :=
  match b with
  | [a; b; c; d] => (u8 a + N.shiftl (u8 b) 8 + N.shiftl (u8 c) 16 + N.shiftl (u8 d) 24)%N
  | _ => 0%N
  end.
Definition toUint32 (n : N) : N := (n mod 2 ^ 32)%N.

(** ** Pagemaps *)

Definition PEParent : N := 1%N.
Definition PELazy : N := 2%N.
Definition PEPresent : N := 4%N.

Record PagemapEntry := mkEntry { VAddr : N; NrPages : N; Flags : N }.
Record Pagemap := mkPagemap { pm_Header : bytes; PagesID : N; Entries : list PagemapEntry }.

#[export] Instance PagemapEntry_eq_dec : EqDecision PagemapEntry.
Proof. solve_decision. Defined.

(** [func parseVarintFields(msg []byte) (map[int]uint64, error)]: every round
    takes at least a byte, so the length is fuel enough. *)
Fixpoint parseFields (fuel : nat) (out : gmap N N) (msg : bytes) : option (gmap N N) :=
  match fuel, msg with
  | _, [] => Some out
  | O, _ => None
  | S fuel', _ =>
      match Uvarint msg with
      | None => None
      | Some (key, n) =>
          let msg := drop n msg in
          let field := N.shiftr key 3 in
          match N.land key 7 with
          | 0%N =>
              match Uvarint msg with
              | Some (v, n) => parseFields fuel' (<[field := v]> out) (drop n msg)
              | None => None
              end
          | 2%N =>
              match Uvarint msg with
              | Some (l, n) =>
                  if (N.of_nat (length msg - n) <? l)%N then None
                  else parseFields fuel' out (drop (n + N.to_nat l) msg)
              | None => None
              end
          | 1%N => if (length msg <? 8)%nat then None else parseFields fuel' out (drop 8 msg)
          | 5%N => if (length msg <? 4)%nat then None else parseFields fuel' out (drop 4 msg)
          | _ => None
          end
      end
  end.
Definition parseVarintFields (msg : bytes) : option (gmap N N) := parseFields (length msg) ∅ msg.

(** The field of a map[int]uint64, 0 for none. *)
Definition field (fs : gmap N N) (n : N) : N := default 0%N (fs !! n).
Definition entryOf (fs : gmap N N) : PagemapEntry :=
  mkEntry (field fs 1) (default (field fs 2) (fs !! 5%N)) (toUint32 (field fs 4)).

(** The loop of [func ReadPagemap(path string)] over the messages. *)
Fixpoint readMsgs (fuel : nat) (rest : bytes) : option (list (gmap N N)) :=
  match fuel, rest with
  | _, [] => Some []
  | O, _ => None
  | S fuel', _ =>
      if (length rest <? 4)%nat then None
      else
        let n := uint32LE (take 4 rest) in
        let rest := drop 4 rest in
        if (toUint32 (N.of_nat (length rest)) <? n)%N then None
        else
          match parseVarintFields (take (N.to_nat n) rest), readMsgs fuel' (drop (N.to_nat n) rest) with
          | Some fs, Some l => Some (fs :: l)
          | _, _ => None
          end
  end.

(** [func ReadPagemap(path string) ( *Pagemap, error)], of the file's bytes. *)
Definition ReadPagemap (b : bytes) : option Pagemap :=
  if (length b <? 8)%nat then None
  else
    match readMsgs (length b) (drop 8 b) with
    | Some [] => Some (mkPagemap (take 8 b) 0 [])
    | Some (h :: es) => Some (mkPagemap (take 8 b) (toUint32 (field h 1)) (entryOf <$> es))
    | None => None
    end.

(** [func writePagemap(pm *Pagemap) error], its bytes. *)
Definition msgOf (fields : list (N * N)) : bytes :=
  let msg := fields ≫= λ f, AppendUvarint (N.shiftl f.1 3) ++ AppendUvarint f.2 in
  putUint32 (toUint32 (N.of_nat (length msg))) ++ msg.
Definition entryMsg (e : PagemapEntry) : bytes :=
  msgOf [(1%N, VAddr e); (2%N, N.min (NrPages e) (2 ^ 32 - 1)); (4%N, Flags e); (5%N, NrPages e)].
Definition writePagemap (pm : Pagemap) : bytes :=
  pm_Header pm ++ msgOf [(1%N, PagesID pm)] ++ (Entries pm ≫= entryMsg).

(** ** Parents *)

Notation Dir := (gmap string bytes).

Record pageRef := mkRef { ref_file : nat; ref_off : N }.
Record Parent := mkParent { pa_maps : list bytes; pa_index : gmap N pageRef; pa_sha : string }.

(** [func FindPagemaps(dir string) ([]string, error)]: sorted, as Glob's are. *)
Definition isPagemap (name : string) : bool := HasPrefix name "pagemap-" && HasSuffix name ".img".
Definition str_le (a b : string) : Prop := String.leb a b = true.
#[export] Instance str_le_dec : RelDecision str_le := λ a b, decide (String.leb a b = true).
Definition FindPagemaps (d : Dir) : list string := merge_sort str_le (filter (λ n, Is_true (isPagemap n)) (elements (dom d))).

(** [func (p *Pagemap) PagesFile() string] *)
Definition PagesFile (pm : Pagemap) : string := "pages-" +:+ FormatUint (PagesID pm) +:+ ".img".

Record DeltaInfo := mkInfo { di_PageSize : N; ParentSHA256 : string; TotalPages : N; KeptPages : N; Files : list string }.
Definition deltaFile : string := "delta.json".
Definition DeltaBytes (d : DeltaInfo) : N := U64.mul (KeptPages d) (di_PageSize d).
Definition HasDelta (d : Dir) : bool := bool_decide (is_Some (d !! deltaFile)).

Section images.
Context (PageSize : N) (sha256 : bytes → string).

Definition pageLen : nat := N.to_nat PageSize.
Definition pageAt (e : PagemapEntry) (i : N) : N := U64.add (VAddr e) (U64.mul i PageSize).
Definition present (e : PagemapEntry) : bool := negb (N.land (Flags e) PEPresent =? 0)%N.
Definition inParent (e : PagemapEntry) : bool := negb (N.land (Flags e) PEParent =? 0)%N.

(** [func (p *Parent) page(va uint64) ([]byte, bool)] *)
Definition page (p : Parent) (va : N) : option bytes :=
  match pa_index p !! va with
  | Some r => match pa_maps p !! ref_file r with Some m => Some (take pageLen (drop (N.to_nat (ref_off r)) m)) | None => None end
  | None => None
  end.

(** The index of one run, and of one pages file, in LoadParent. *)
Fixpoint indexRun (fi : nat) (e : PagemapEntry) (len : N) (n : nat) (i off : N) (idx : gmap N pageRef) : option (N * gmap N pageRef) :=
  match n with
  | O => Some (off, idx)
  | S n' =>
      if (len <? U64.add off PageSize)%N then None
      else indexRun fi e len n' (i + 1) (U64.add off PageSize) (<[pageAt e i := mkRef fi off]> idx)
  end.
Fixpoint indexEntries (fi : nat) (len : N) (es : list PagemapEntry) (off : N) (idx : gmap N pageRef) : option (gmap N pageRef) :=
  match es with
  | [] => Some idx
  | e :: es' =>
      if present e then
        match indexRun fi e len (N.to_nat (NrPages e)) 0 off idx with
        | Some (off', idx') => indexEntries fi len es' off' idx'
        | None => None
        end
      else indexEntries fi len es' off idx
  end.

(** [func LoadParent(dir string) ( *Parent, error)] *)
Fixpoint loadMaps (d : Dir) (names : list string) (maps : list bytes) (idx : gmap N pageRef) : option (list bytes * gmap N pageRef) :=
  match names with
  | [] => Some (maps, idx)
  | m :: names' =>
      match d !! m ≫= ReadPagemap with
      | Some pm =>
          match d !! PagesFile pm with
          | Some data =>
              match indexEntries (length maps) (N.of_nat (length data)) (Entries pm) 0 idx with
              | Some idx' => loadMaps d names' (maps ++ [data]) idx'
              | None => None
              end
          | None => None
          end
      | None => None
      end
  end.
Definition LoadParent (d : Dir) : option Parent :=
  match FindPagemaps d with
  | [] => None
  | names => match loadMaps d names [] ∅ with Some (maps, idx) => Some (mkParent maps idx (sha256 (concat maps))) | None => None end
  end.

(** ** Deltas: one pagemap and its pages *)

(** io.ReadFull of a page. *)
Definition readPage (b : bytes) : option (bytes * bytes) :=
  if (length b <? pageLen)%nat then None else Some (take pageLen b, drop pageLen b).

(** What ComputeDelta has of one pagemap: pages left to read, pages written,
    the new entries (the last one first), TotalPages and KeptPages. *)
Record CState := mkC { c_in : bytes; c_out : bytes; c_rev : list PagemapEntry; c_total : N; c_kept : N }.

(** The last entry takes the page, or a new one does. *)
Definition pushPage (va flags : N) (rev : list PagemapEntry) : list PagemapEntry :=
  match rev with
  | e :: es =>
      if (Flags e =? flags)%N && (pageAt e (NrPages e) =? va)%N then mkEntry (VAddr e) (U64.succ (NrPages e)) (Flags e) :: es
      else mkEntry va 1 flags :: rev
  | [] => [mkEntry va 1 flags]
  end.

Definition stripped (flags : N) : N := N.lor (N.ldiff flags PEPresent) PEParent.
Definition filled (flags : N) : N := N.lor (N.ldiff flags PEParent) PEPresent.

Definition computePage (p : Parent) (e : PagemapEntry) (i : N) (st : CState) : option CState :=
  match readPage (c_in st) with
  | None => None
  | Some (pg, rest) =>
      let va := pageAt e i in
      if page p va ==? Some pg then
        Some (mkC rest (c_out st) (pushPage va (stripped (Flags e)) (c_rev st)) (U64.succ (c_total st)) (c_kept st))
      else
        Some (mkC rest (c_out st ++ pg) (pushPage va (Flags e) (c_rev st)) (U64.succ (c_total st)) (U64.succ (c_kept st)))
  end.
Fixpoint computeRun (p : Parent) (e : PagemapEntry) (n : nat) (i : N) (st : CState) : option CState :=
  match n with
  | O => Some st
  | S n' => match computePage p e i st with Some st' => computeRun p e n' (i + 1) st' | None => None end
  end.
Definition computeEntry (p : Parent) (e : PagemapEntry) (st : CState) : option CState :=
  if present e then computeRun p e (N.to_nat (NrPages e)) 0 st
  else Some (mkC (c_in st) (c_out st) (e :: c_rev st) (c_total st) (c_kept st)).
Fixpoint computeEntries (p : Parent) (es : list PagemapEntry) (st : CState) : option CState :=
  match es with
  | [] => Some st
  | e :: es' => match computeEntry p e st with Some st' => computeEntries p es' st' | None => None end
  end.

(** The body of ComputeDelta's loop over pagemaps. *)
Definition computeImage (p : Parent) (pm : Pagemap) (pages : bytes) (total kept : N) : option (Pagemap * bytes * N * N) :=
  match computeEntries p (Entries pm) (mkC pages [] [] total kept) with
  | Some st => Some (mkPagemap (pm_Header pm) (PagesID pm) (rev (c_rev st)), c_out st, c_total st, c_kept st)
  | None => None
  end.

(** A run of pages the delta has, and one its parent has. *)
Fixpoint mergePresent (n : nat) (rd out : bytes) : option (bytes * bytes) :=
  match n with
  | O => Some (rd, out)
  | S n' => match readPage rd with Some (pg, rest) => mergePresent n' rest (out ++ pg) | None => None end
  end.
Fixpoint mergeParent (p : Parent) (e : PagemapEntry) (n : nat) (i : N) (out : bytes) : option bytes :=
  match n with
  | O => Some out
  | S n' => match page p (pageAt e i) with Some pp => mergeParent p e n' (i + 1) (out ++ pp) | None => None end
  end.
Definition mergeEntry (p : Parent) (e : PagemapEntry) (rd out : bytes) : option (PagemapEntry * bytes * bytes) :=
  if present e then
    match mergePresent (N.to_nat (NrPages e)) rd out with Some (rd', out') => Some (e, rd', out') | None => None end
  else if inParent e then
    match mergeParent p e (N.to_nat (NrPages e)) 0 out with
    | Some out' => Some (mkEntry (VAddr e) (NrPages e) (filled (Flags e)), rd, out')
    | None => None
    end
  else Some (e, rd, out).
Fixpoint mergeEntries (p : Parent) (es : list PagemapEntry) (rd out : bytes) : option (list PagemapEntry * bytes) :=
  match es with
  | [] => Some ([], out)
  | e :: es' =>
      match mergeEntry p e rd out with
      | Some (e', rd', out') => match mergeEntries p es' rd' out' with Some (es'', o) => Some (e' :: es'', o) | None => None end
      | None => None
      end
  end.

(** The body of MergeDelta's loop over the delta's files. *)
Definition mergeImage (p : Parent) (pm : Pagemap) (pages : bytes) : option (Pagemap * bytes) :=
  match mergeEntries p (Entries pm) pages [] with
  | Some (es, out) => Some (mkPagemap (pm_Header pm) (PagesID pm) es, out)
  | None => None
  end.
End images.

(** ** Deltas: a directory *)

(** The calls that may fail: writing a temporary file, renaming it over its
    image, removing delta.json.  A name is the image's. *)
Record IO := mkIO { io_write : string → bool; io_rename : string → bool; io_remove : bool }.

(** [func (s staged) commit() error]: the temporary files, each with the image
    it replaces.  Until then they are beside the images and no one's. *)
Fixpoint commitStaged (io : IO) (staged : list (string * bytes)) (d : Dir) : Dir * bool :=
  match staged with
  | [] => (d, true)
  | (f, b) :: s' => if io_rename io f then commitStaged io s' (<[f := b]> d) else (d, false)
  end.

Section deltas.
Context (PageSize : N) (marshal : DeltaInfo → bytes) (unmarshal : bytes → option DeltaInfo).

(** [func ComputeDelta(dir string, parent *Parent) (DeltaInfo, error)] *)
Fixpoint computeMaps (io : IO) (p : Parent) (d : Dir) (names : list string) (staged : list (string * bytes)) (info : DeltaInfo) :
    option (list (string * bytes) * DeltaInfo) :=
  match names with
  | [] => Some (staged, info)
  | m :: names' =>
      match d !! m ≫= ReadPagemap with
      | Some pm =>
          match d !! PagesFile pm with
          | Some pages =>
              if negb (io_write io (PagesFile pm)) then None
              else
                match computeImage PageSize p pm pages (TotalPages info) (KeptPages info) with
                | Some (pm', out, total, kept) =>
                    if negb (io_write io m) then None
                    else computeMaps io p d names' (staged ++ [(PagesFile pm, out); (m, writePagemap pm')])
                           (mkInfo (di_PageSize info) (ParentSHA256 info) total kept (Files info ++ [m]))
                | None => None
                end
          | None => None
          end
      | None => None
      end
  end.
Definition ComputeDelta (io : IO) (d : Dir) (p : Parent) : Dir * option DeltaInfo :=
  match FindPagemaps d with
  | [] => (d, None)
  | names =>
      match computeMaps io p d names [] (mkInfo PageSize (pa_sha p) 0 0 []) with
      | Some (staged, i) =>
          let info := mkInfo (di_PageSize i) (ParentSHA256 i) (TotalPages i) (KeptPages i) (merge_sort str_le (Files i)) in
          if negb (io_write io deltaFile) then (d, None)
          else
            let '(d', ok) := commitStaged io (staged ++ [(deltaFile, marshal info)]) d in
            (d', if ok then Some info else None)
      | None => (d, None)
      end
  end.

(** [func MergeDelta(dir string, parent *Parent) error], whether it succeeds. *)
Fixpoint mergeMaps (io : IO) (p : Parent) (d : Dir) (names : list string) (staged : list (string * bytes)) : option (list (string * bytes)) :=
  match names with
  | [] => Some staged
  | m :: names' =>
      match d !! m ≫= ReadPagemap with
      | Some pm =>
          match d !! PagesFile pm with
          | Some pages =>
              if negb (io_write io (PagesFile pm)) then None
              else
                match mergeImage PageSize p pm pages with
                | Some (pm', out) =>
                    if negb (io_write io m) then None
                    else mergeMaps io p d names' (staged ++ [(PagesFile pm, out); (m, writePagemap pm')])
                | None => None
                end
          | None => None
          end
      | None => None
      end
  end.
Definition MergeDelta (io : IO) (d : Dir) (p : Parent) : Dir * bool :=
  match d !! deltaFile ≫= unmarshal with
  | Some info =>
      if pa_sha p <>? ParentSHA256 info then (d, false)
      else
        match mergeMaps io p d (Files info) [] with
        | Some staged =>
            let '(d', ok) := commitStaged io staged d in
            if ok then if io_remove io then (delete deltaFile d', true) else (d', false) else (d', false)
        | None => (d, false)
        end
  | None => (d, false)
  end.
End deltas.
