(* ===== verification/ImageFacts.v ===== *)
(** * What a checkpoint's delta keeps (pkg/sys/criu/images.go)

    Pagemaps read back as they were written; a delta with its parent says what
    the checkpoint said, pagemap by pagemap and for the whole directory; and a
    rename that fails midway leaves neither a checkpoint nor a delta. *)

From Stdlib Require Import Ascii Strings.Byte.
From S2P Require Import Prelude GoLib GoText Encoding Images.
From stdpp Require Import options.

(** ** What the codec promises *)

Lemma u8_toByte n : u8 (toByte n) = (n mod 256)%N.
Proof.
  unfold u8, toByte. pose proof (N.mod_lt n 256 ltac:(done)).
  destruct (Byte.of_N (n mod 256)) as [b|] eqn:E; simpl; [by apply Byte.to_of_N|].
  apply Byte.of_N_None_iff in E. lia.
Qed.

Lemma lor_128 x : (128 ≤ N.lor x 128 mod 256 < 256)%N ∧ N.land (N.lor x 128 mod 256) 127 = (x mod 128)%N.
Proof.
  change 256%N with (2 ^ 8)%N. rewrite <-!N.land_ones. change 127%N with (N.ones 7). change 128%N with (2 ^ 7)%N.
  rewrite <-N.land_ones. split.
  - split.
    + apply N.nlt_ge. intros Hlt. assert (N.testbit (N.land (N.lor x (2 ^ 7)) (N.ones 8)) 7 = true) as Hb.
      { rewrite N.land_spec, N.lor_spec, N.pow2_bits_true, orb_true_r. by rewrite N.ones_spec_low. }
      destruct (decide (N.land (N.lor x (2 ^ 7)) (N.ones 8) = 0)%N) as [E|E]; [by rewrite E in Hb|].
      apply N.testbit_true in Hb. rewrite N.div_small in Hb by done. done.
    + rewrite N.land_ones. by apply N.mod_lt.
  - apply N.bits_inj. intros i. rewrite !N.land_spec, N.lor_spec.
    destruct (decide (i < 7)%N) as [Hi|Hi].
    + rewrite !N.ones_spec_low by lia. rewrite N.pow2_bits_false by lia. by rewrite orb_false_r, !andb_true_r.
    + rewrite (N.ones_spec_high 7) by lia. by rewrite !andb_false_r.
Qed.

Lemma split7 y : N.lor (y mod 128) (N.shiftl (N.shiftr y 7) 7) = y.
Proof.
  change 128%N with (2 ^ 7)%N. rewrite <-N.land_ones. apply N.bits_inj. intros i. rewrite N.lor_spec, N.land_spec.
  destruct (decide (i < 7)%N) as [Hi|Hi].
  - rewrite N.ones_spec_low, N.shiftl_spec_low by lia. by rewrite andb_true_r, orb_false_r.
  - rewrite N.ones_spec_high by lia. rewrite andb_false_r. simpl. rewrite N.shiftl_spec_high' by lia.
    rewrite N.shiftr_spec by lia. f_equal. lia.
Qed.

Lemma uvarint_append fuel i x y rest :
  (i + fuel = 10)%nat → (i ≤ 9)%nat → (y < 2 ^ (64 - 7 * N.of_nat i))%N →
  uvarint i x (appendUvarint fuel y ++ rest) = Some (N.lor x (N.shiftl y (7 * N.of_nat i)), (i + length (appendUvarint fuel y))%nat).
Proof.
  revert i x y. induction fuel as [|fuel IH]; intros i x y Hf Hi Hy; [lia|]. cbn [appendUvarint].
  destruct (N.ltb_spec y 128) as [Hlt|Hge].
  - simpl. rewrite u8_toByte, N.mod_small by lia. rewrite (proj2 (Nat.eqb_neq i 10)) by lia.
    rewrite (proj2 (N.ltb_lt y 128)) by done. case_match eqn:Hc; [|f_equal; f_equal; lia].
    apply andb_true_iff in Hc as [->%Nat.eqb_eq H1%N.ltb_lt]. change (y < 2)%N in Hy. lia.
  - simpl. destruct (lor_128 y) as [Hb Hm]. rewrite u8_toByte. rewrite (proj2 (Nat.eqb_neq i 10)) by lia.
    rewrite (proj2 (N.ltb_ge _ 128)) by lia. rewrite Hm.
    assert (i ≠ 9)%nat as Hi9.
    { intros ->. change (y < 2)%N in Hy. lia. }
    rewrite IH; [|lia|lia|].
    + f_equal. f_equal; [|lia]. rewrite <-N.lor_assoc. f_equal.
      replace (7 * N.of_nat (S i))%N with (7 + 7 * N.of_nat i)%N by lia.
      rewrite <-N.shiftl_shiftl, <-N.shiftl_lor. by rewrite split7.
    + rewrite N.shiftr_div_pow2. apply N.Div0.div_lt_upper_bound. rewrite <-N.pow_add_r.
      replace (7 + (64 - 7 * N.of_nat (S i)))%N with (64 - 7 * N.of_nat i)%N by lia. done.
Qed.

Lemma Uvarint_Append y rest : (y < U64.modulus)%N → Uvarint (AppendUvarint y ++ rest) = Some (y, length (AppendUvarint y)).
Proof. intros Hy. unfold Uvarint, AppendUvarint. rewrite uvarint_append; [|lia|lia|done]. by rewrite N.shiftl_0_r. Qed.

Lemma AppendUvarint_nonempty y : AppendUvarint y ≠ [].
Proof. unfold AppendUvarint. cbn [appendUvarint]. by case_match. Qed.

Lemma AppendUvarint_length y : (1 ≤ length (AppendUvarint y) ≤ 10)%nat.
Proof.
  unfold AppendUvarint. assert (∀ fuel x, (length (appendUvarint fuel x) ≤ fuel)%nat) as H.
  { induction fuel as [|fuel IH]; intros x; cbn [appendUvarint]; [done|]. case_match; simpl; [lia|]. specialize (IH (N.shiftr x 7)). lia. }
  split; [|apply H]. pose proof (AppendUvarint_nonempty y). unfold AppendUvarint in *. destruct (appendUvarint 10 y); [done|simpl; lia].
Qed.

(** The fields of a message written here. *)
Definition fieldsOf (fs : list (N * N)) : bytes := fs ≫= λ f, AppendUvarint (N.shiftl f.1 3) ++ AppendUvarint f.2.

Lemma parseFields_step fuel out k v rest :
  (k < 2 ^ 61)%N → (v < U64.modulus)%N →
  parseFields (S fuel) out (AppendUvarint (N.shiftl k 3) ++ AppendUvarint v ++ rest) = parseFields fuel (<[k := v]> out) rest.
Proof.
  intros Hk Hv. assert (N.shiftl k 3 < U64.modulus)%N as Hk3.
  { rewrite N.shiftl_mul_pow2. unfold U64.modulus. lia. }
  destruct (AppendUvarint (N.shiftl k 3) ++ AppendUvarint v ++ rest) eqn:E.
  { apply app_eq_nil in E as [E _]. by destruct (AppendUvarint_nonempty (N.shiftl k 3)). }
  cbn [parseFields]. rewrite <-E. rewrite Uvarint_Append by done. rewrite drop_app_length.
  replace (N.land (N.shiftl k 3) 7) with 0%N.
  - rewrite Uvarint_Append by done. rewrite drop_app_length. f_equal. f_equal. rewrite N.shiftr_shiftl_l by done. by rewrite N.shiftl_0_r.
  - symmetry. change 7%N with (N.ones 3). rewrite N.land_ones, N.shiftl_mul_pow2. by apply N.Div0.mod_mul.
Qed.

Lemma parseFields_written fs : ∀ fuel out,
  (length (fieldsOf fs) ≤ fuel)%nat → (∀ f, f ∈ fs → (f.1 < 2 ^ 61)%N ∧ (f.2 < U64.modulus)%N) →
  parseFields fuel out (fieldsOf fs) = Some (foldl (λ m f, <[f.1 := f.2]> m) out fs).
Proof.
  induction fs as [|[k v] fs IH]; intros fuel out Hl Hfs; [by destruct fuel|].
  destruct (Hfs (k, v)) as [Hk Hv]; [by left|]. cbn [fst snd] in *.
  change (fieldsOf ((k, v) :: fs)) with ((AppendUvarint (N.shiftl k 3) ++ AppendUvarint v) ++ fieldsOf fs) in *.
  rewrite !length_app in Hl. pose proof (AppendUvarint_length (N.shiftl k 3)) as L1.
  destruct fuel as [|fuel]; [lia|]. rewrite <-app_assoc, parseFields_step by done. apply IH; [lia|]. intros f Hf. apply Hfs. by right.
Qed.

Lemma uint32_put n : (n < 2 ^ 32)%N → uint32LE (putUint32 n) = n.
Proof.
  intros Hn. unfold putUint32, uint32LE. rewrite !u8_toByte, !N.shiftr_div_pow2, !N.shiftl_mul_pow2.
  change (2 ^ 8)%N with 256%N. change (2 ^ 16)%N with (256 * 256)%N. change (2 ^ 24)%N with (256 * 256 * 256)%N.
  change (2 ^ 32)%N with (256 * 256 * 256 * 256)%N in Hn. rewrite <-!N.Div0.div_div.
  pose proof (N.div_mod' n 256) as E0. set (a := (n / 256)%N) in *. pose proof (N.div_mod' a 256) as E1. set (b := (a / 256)%N) in *.
  pose proof (N.div_mod' b 256) as E2. set (c := (b / 256)%N) in *. assert (c < 256)%N.
  { unfold c, b, a. rewrite !N.Div0.div_div. apply N.Div0.div_lt_upper_bound. lia. }
  rewrite (N.mod_small c 256) by done. lia.
Qed.

(** A message written here, read back. *)
Definition fieldMap (fs : list (N * N)) : gmap N N := foldl (λ m f, <[f.1 := f.2]> m) ∅ fs.

Lemma readMsgs_step fuel fs rest :
  (∀ f, f ∈ fs → (f.1 < 2 ^ 61)%N ∧ (f.2 < U64.modulus)%N) → (N.of_nat (length (msgOf fs ++ rest)) < 2 ^ 32)%N →
  readMsgs (S fuel) (msgOf fs ++ rest) = match readMsgs fuel rest with Some l => Some (fieldMap fs :: l) | None => None end.
Proof.
  intros Hfs Hlen. unfold msgOf in *. change (fs ≫= _) with (fieldsOf fs) in *. rewrite <-app_assoc in *. rewrite !length_app in Hlen.
  assert (toUint32 (N.of_nat (length (fieldsOf fs))) = N.of_nat (length (fieldsOf fs))) as E32 by (unfold toUint32; apply N.mod_small; lia).
  rewrite E32 in *. set (n := N.of_nat (length (fieldsOf fs))) in *.
  assert (length (putUint32 n) = 4%nat) as L4 by done. rewrite L4 in Hlen.
  destruct (putUint32 n ++ fieldsOf fs ++ rest) eqn:E; [done|]. cbn [readMsgs]. rewrite <-E. clear E.
  rewrite (proj2 (Nat.ltb_ge _ 4)) by (rewrite length_app, L4; lia).
  rewrite (take_app_length' _ _ 4), (drop_app_length' _ _ 4) by done. rewrite uint32_put by lia. cbv zeta.
  rewrite length_app. unfold toUint32. rewrite N.mod_small by lia.
  rewrite (proj2 (N.ltb_ge _ n)) by lia.
  rewrite (take_app_length' _ _ (N.to_nat n)), (drop_app_length' _ _ (N.to_nat n)) by lia.
  unfold parseVarintFields. rewrite parseFields_written by done. done.
Qed.

(** What a uint64 and a uint32 hold. *)
Definition entryOK (e : PagemapEntry) : Prop :=
  (VAddr e < U64.modulus)%N ∧ (NrPages e < U64.modulus)%N ∧ (Flags e < 2 ^ 32)%N.
Definition pagemapOK (pm : Pagemap) : Prop :=
  length (pm_Header pm) = 8%nat ∧ (PagesID pm < 2 ^ 32)%N ∧ Forall entryOK (Entries pm).

Lemma entry_fields e : entryOK e → entryOf (fieldMap [(1%N, VAddr e); (2%N, N.min (NrPages e) (2 ^ 32 - 1)); (4%N, Flags e); (5%N, NrPages e)]) = e.
Proof.
  intros (_ & _ & Hf). unfold entryOf, field, fieldMap, foldl. cbn [fst snd]. rewrite lookup_insert_eq.
  rewrite !(lookup_insert_ne _ 5%N) by done. rewrite lookup_insert_eq. rewrite !(lookup_insert_ne _ 4%N) by done.
  rewrite !(lookup_insert_ne _ 2%N) by done. rewrite lookup_insert_eq. unfold toUint32. simpl. rewrite N.mod_small by done. by destruct e.
Qed.

Lemma readMsgs_entries es : ∀ fuel, (length es ≤ fuel)%nat → Forall entryOK es → (N.of_nat (length (es ≫= entryMsg)) < 2 ^ 32)%N →
  ∃ l, readMsgs fuel (es ≫= entryMsg) = Some l ∧ entryOf <$> l = es.
Proof.
  induction es as [|e es IH]; intros fuel Hf HF Hlen; [exists []; by destruct fuel|]. apply Forall_cons in HF as [He HF].
  destruct fuel as [|fuel]; [simpl in Hf; lia|]. rewrite bind_cons in *.
  assert (N.of_nat (length (es ≫= entryMsg)) < 2 ^ 32)%N as Hl' by (rewrite length_app in Hlen; lia).
  destruct (IH fuel) as (l & Hl & El); [simpl in Hf; lia|done|done|].
  exists (fieldMap [(1%N, VAddr e); (2%N, N.min (NrPages e) (2 ^ 32 - 1)); (4%N, Flags e); (5%N, NrPages e)] :: l). split.
  - unfold entryMsg at 1. rewrite readMsgs_step; [by rewrite Hl| |done]. destruct He as (H1 & H2 & H3).
    intros f Hin. unfold U64.modulus in *. repeat (apply elem_of_cons in Hin as [->|Hin]; [cbn [fst snd]; split; lia|]). by apply not_elem_of_nil in Hin.
  - rewrite fmap_cons, entry_fields, El by done. done.
Qed.

Lemma entryMsg_length e : (4 ≤ length (entryMsg e))%nat.
Proof. unfold entryMsg, msgOf. rewrite length_app. simpl. lia. Qed.

(** A pagemap that is written reads back the same: the page counts through
    both of their fields, addresses and flags at their full width. *)
Lemma pagemap_round_trip pm :
  pagemapOK pm → (N.of_nat (length (writePagemap pm)) < 2 ^ 32)%N → ReadPagemap (writePagemap pm) = Some pm.
Proof.
  intros (Hh & Hid & Hes) Hlen. unfold ReadPagemap. unfold writePagemap in *.
  rewrite (proj2 (Nat.ltb_ge _ 8)) by (rewrite length_app; lia). rewrite (drop_app_length' _ _ 8), (take_app_length' _ _ 8) by done.
  rewrite length_app in Hlen |- *. rewrite Hh. cbn [Nat.add].
  assert (∀ f, f ∈ [(1%N, PagesID pm)] → (f.1 < 2 ^ 61)%N ∧ (f.2 < U64.modulus)%N) as Hf.
  { intros f ->%list_elem_of_singleton. unfold U64.modulus. cbn [fst snd]. split; lia. }
  rewrite readMsgs_step; [|done|lia]. rewrite length_app in Hlen |- *.
  assert (length (Entries pm) ≤ length (Entries pm ≫= entryMsg))%nat as Hle.
  { clear. induction (Entries pm) as [|e es IH]; [done|]. rewrite bind_cons, length_app. simpl. pose proof (entryMsg_length e). lia. }
  match goal with |- context [readMsgs ?n (Entries pm ≫= entryMsg)] =>
    destruct (readMsgs_entries (Entries pm) n) as (l & Hl & El); [lia|done|lia|] end.
  rewrite Hl. rewrite El. unfold field, fieldMap. simpl. unfold toUint32. rewrite N.mod_small by done. by destruct pm.
Qed.

(** ** What a checkpoint says *)

(** The pages with their addresses and flags, and the runs without pages. *)
Inductive item := IPage (va flags : N) (pg : bytes) | IHole (e : PagemapEntry).

Definition pagesOf (l : list item) : bytes := l ≫= λ it, match it with IPage _ _ pg => pg | IHole _ => [] end.

Section views.
Context (PageSize : N) (p : Parent).
Notation pageLen := (pageLen PageSize).
Notation pageAt := (pageAt PageSize).
Notation page := (page PageSize).
Notation readPage := (readPage PageSize).

Fixpoint viewRun (e : PagemapEntry) (n : nat) (i : N) (rd : bytes) : option (list item * bytes) :=
  match n with
  | O => Some ([], rd)
  | S n' =>
      match readPage rd with
      | Some (pg, rest) => match viewRun e n' (i + 1) rest with Some (l, r) => Some (IPage (pageAt e i) (Flags e) pg :: l, r) | None => None end
      | None => None
      end
  end.
Fixpoint viewEntries (es : list PagemapEntry) (rd : bytes) : option (list item * bytes) :=
  match es with
  | [] => Some ([], rd)
  | e :: es' =>
      match (if present e then viewRun e (N.to_nat (NrPages e)) 0 rd else Some ([IHole e], rd)) with
      | Some (l, r) => match viewEntries es' r with Some (l', r') => Some (l ++ l', r') | None => None end
      | None => None
      end
  end.

(** What a delta says, with its parent. *)
Fixpoint parentRun (e : PagemapEntry) (n : nat) (i : N) : option (list item) :=
  match n with
  | O => Some []
  | S n' =>
      match page p (pageAt e i), parentRun e n' (i + 1) with
      | Some pp, Some l => if (length pp =? pageLen)%nat then Some (IPage (pageAt e i) (filled (Flags e)) pp :: l) else None
      | _, _ => None
      end
  end.
Definition deltaEntry (e : PagemapEntry) (rd : bytes) : option (list item * bytes) :=
  if present e then viewRun e (N.to_nat (NrPages e)) 0 rd
  else if inParent e then match parentRun e (N.to_nat (NrPages e)) 0 with Some l => Some (l, rd) | None => None end
  else Some ([IHole e], rd).
Fixpoint deltaEntries (es : list PagemapEntry) (rd : bytes) : option (list item * bytes) :=
  match es with
  | [] => Some ([], rd)
  | e :: es' =>
      match deltaEntry e rd with
      | Some (l, r) => match deltaEntries es' r with Some (l', r') => Some (l ++ l', r') | None => None end
      | None => None
      end
  end.

(** ** Reading *)

Lemma readPage_app b pg rest x : readPage b = Some (pg, rest) → readPage (b ++ x) = Some (pg, rest ++ x).
Proof.
  unfold readPage. case_match eqn:Hl; [done|]. intros [= <- <-]. apply Nat.ltb_ge in Hl.
  rewrite (proj2 (Nat.ltb_ge _ _)) by (rewrite length_app; lia). by rewrite take_app_le, drop_app_le by lia.
Qed.
Lemma readPage_length b pg rest : readPage b = Some (pg, rest) → length pg = pageLen ∧ b = pg ++ rest.
Proof.
  unfold readPage. case_match eqn:Hl; [done|]. intros [= <- <-]. apply Nat.ltb_ge in Hl. rewrite length_take, take_drop. split; [lia|done].
Qed.
Lemma readPage_exact pg rest : length pg = pageLen → readPage (pg ++ rest) = Some (pg, rest).
Proof.
  intros Hl. unfold readPage. rewrite (proj2 (Nat.ltb_ge _ _)) by (rewrite length_app; lia).
  by rewrite take_app_length', drop_app_length' by done.
Qed.

Lemma viewRun_app e n : ∀ i rd l r x, viewRun e n i rd = Some (l, r) → viewRun e n i (rd ++ x) = Some (l, r ++ x).
Proof.
  induction n as [|n IH]; intros i rd l r x; simpl; [by intros [= <- <-]|].
  destruct (readPage rd) as [[pg rest]|] eqn:E; [|done]. rewrite (readPage_app _ _ _ x E).
  destruct (viewRun e n (i + 1) rest) as [[l' r']|] eqn:E'; [|done]. intros [= <- <-]. by rewrite (IH _ _ _ _ x E').
Qed.

(** One page more of a run. *)
Lemma viewRun_snoc e e' n : VAddr e' = VAddr e → Flags e' = Flags e → ∀ i rd l pg,
  viewRun e n i rd = Some (l, []) → length pg = pageLen →
  viewRun e' (S n) i (rd ++ pg) = Some (l ++ [IPage (pageAt e (i + N.of_nat n)) (Flags e) pg], []).
Proof.
  intros Hv Hf. assert (∀ i, pageAt e' i = pageAt e i) as Hp by (intros i; unfold Images.pageAt; by rewrite Hv).
  induction n as [|n IH]; intros i rd l pg H Hl.
  - simpl in H. injection H as <- ->. simpl. rewrite <-(app_nil_r pg) at 1. rewrite readPage_exact by done. rewrite Hp, Hf. by rewrite N.add_0_r.
  - cbn [viewRun] in H. destruct (readPage rd) as [[pg0 rest]|] eqn:E; [|done].
    destruct (viewRun e n (i + 1) rest) as [[l' r']|] eqn:E'; [|done]. injection H as <- ->.
    specialize (IH _ _ _ pg E' Hl). cbn [viewRun] in IH |- *. rewrite (readPage_app _ _ _ pg E). cbn [viewRun]. rewrite IH, Hp, Hf.
    replace (i + 1 + N.of_nat n)%N with (i + N.of_nat (S n))%N by lia. done.
Qed.

Lemma parentRun_snoc e e' n : VAddr e' = VAddr e → Flags e' = Flags e → ∀ i l pg,
  parentRun e n i = Some l → page p (pageAt e (i + N.of_nat n)) = Some pg → length pg = pageLen →
  parentRun e' (S n) i = Some (l ++ [IPage (pageAt e (i + N.of_nat n)) (filled (Flags e)) pg]).
Proof.
  intros Hv Hf. assert (∀ i, pageAt e' i = pageAt e i) as Hp by (intros i; unfold Images.pageAt; by rewrite Hv).
  induction n as [|n IH]; intros i l pg H Hpg Hl.
  - simpl in H. injection H as <-. simpl. rewrite N.add_0_r in *. rewrite Hp, Hf, Hpg. by rewrite (proj2 (Nat.eqb_eq _ _)).
  - cbn [parentRun] in H. destruct (page p (pageAt e i)) as [pp|] eqn:E; [|done].
    destruct (parentRun e n (i + 1)) as [l'|] eqn:E'; [|done]. destruct (length pp =? pageLen)%nat eqn:E2; [|done]. injection H as <-.
    replace (i + N.of_nat (S n))%N with (i + 1 + N.of_nat n)%N in * by lia.
    specialize (IH _ _ pg E' Hpg Hl). cbn [parentRun] in IH |- *. rewrite Hp, E. cbn [parentRun]. rewrite IH, E2, Hf. done.
Qed.

Lemma deltaEntries_app es1 : ∀ es2 rd l r x, deltaEntries es1 rd = Some (l, r) →
  deltaEntries (es1 ++ es2) (rd ++ x) = match deltaEntries es2 (r ++ x) with Some (l', r') => Some (l ++ l', r') | None => None end.
Proof.
  induction es1 as [|e es1 IH]; intros es2 rd l r x; simpl.
  - intros [= <- <-]. by destruct (deltaEntries es2 (rd ++ x)) as [[??]|].
  - destruct (deltaEntry e rd) as [[l1 r1]|] eqn:E; [|done].
    assert (deltaEntry e (rd ++ x) = Some (l1, r1 ++ x)) as ->.
    { revert E. unfold deltaEntry. case_match; [apply viewRun_app|]. case_match; [|by intros [= <- <-]].
      destruct (parentRun _ _ _); [|done]. by intros [= <- <-]. }
    destruct (deltaEntries es1 r1) as [[l2 r2]|] eqn:E2; [|done]. intros [= <- <-]. rewrite (IH _ _ _ _ x E2).
    destruct (deltaEntries es2 (r2 ++ x)) as [[??]|]; [|done]. by rewrite app_assoc.
Qed.

Lemma deltaEntries_split es1 : ∀ es2 rd l r, deltaEntries (es1 ++ es2) rd = Some (l, r) →
  ∃ l1 r1 l2, deltaEntries es1 rd = Some (l1, r1) ∧ deltaEntries es2 r1 = Some (l2, r) ∧ l = l1 ++ l2.
Proof.
  induction es1 as [|e es1 IH]; intros es2 rd l r; simpl; [intros H; by exists [], rd, l|].
  destruct (deltaEntry e rd) as [[l1 r1]|]; [|done]. destruct (deltaEntries (es1 ++ es2) r1) as [[l2 r2]|] eqn:E; [|done].
  intros [= <- <-]. destruct (IH _ _ _ _ E) as (a & b & c & H1 & H2 & ->). rewrite H1. exists (l1 ++ a), b, c. by rewrite app_assoc.
Qed.

(** ** Flags *)

Lemma testbit_flag f k : (k < 32)%N → (N.land f (2 ^ k) =? 0)%N = negb (N.testbit f k).
Proof.
  intros _. destruct (N.testbit f k) eqn:E; simpl.
  - apply N.eqb_neq. intros H. assert (N.testbit (N.land f (2 ^ k)) k = true) as Hb by (by rewrite N.land_spec, E, N.pow2_bits_true).
    by rewrite H, N.bits_0 in Hb.
  - apply N.eqb_eq. apply N.bits_inj_0. intros i. rewrite N.land_spec. destruct (decide (k = i)) as [<-|Hne]; [by rewrite E|].
    rewrite N.pow2_bits_false by done. apply andb_false_r.
Qed.
Lemma present_bit e : present e = N.testbit (Flags e) 2.
Proof. unfold present. change PEPresent with (2 ^ 2)%N. rewrite testbit_flag by lia. apply negb_involutive. Qed.
Lemma inParent_bit e : inParent e = N.testbit (Flags e) 0.
Proof. unfold inParent. change PEParent with (2 ^ 0)%N. rewrite testbit_flag by lia. apply negb_involutive. Qed.

Lemma stripped_bits f : N.testbit (stripped f) 2 = false ∧ N.testbit (stripped f) 0 = true.
Proof.
  unfold stripped. rewrite !N.lor_spec, !N.ldiff_spec. split; [|by rewrite orb_true_r].
  change (N.testbit PEPresent 2) with true. change (N.testbit PEParent 2) with false. by rewrite andb_false_r.
Qed.
Lemma filled_bit f : N.testbit (filled f) 2 = true.
Proof. unfold filled. rewrite N.lor_spec. change (N.testbit PEPresent 2) with true. apply orb_true_r. Qed.

Lemma filled_stripped f : N.testbit f 2 = true → N.testbit f 0 = false → filled (stripped f) = f.
Proof.
  intros H2 H0. apply N.bits_inj. intros i. unfold filled, stripped. rewrite !N.lor_spec, !N.ldiff_spec, !N.lor_spec, !N.ldiff_spec.
  change PEPresent with (2 ^ 2)%N. change PEParent with (2 ^ 0)%N. rewrite !N.pow2_bits_eqb.
  destruct (N.eqb_spec 2 i) as [<-|]; [by rewrite H2|]. destruct (N.eqb_spec 0 i) as [<-|]; [by rewrite H0|].
  by rewrite ?orb_false_r, ?andb_true_r, ?orb_false_r.
Qed.

(** ** Compute *)

Lemma pageAt_lt e i : (pageAt e i < U64.modulus)%N.
Proof. apply U64.wrap_lt. Qed.
Lemma pageAt_first va n f : (va < U64.modulus)%N → pageAt (mkEntry va n f) 0 = va.
Proof. intros H. unfold Images.pageAt, U64.add, U64.mul. rewrite N.mul_0_l. change (U64.wrap 0) with 0%N. rewrite N.add_0_r. by apply U64.wrap_small. Qed.

Lemma deltaEntries_one e rd : deltaEntries [e] rd = deltaEntry e rd.
Proof. simpl. destruct (deltaEntry e rd) as [[l r]|]; [|done]. by rewrite app_nil_r. Qed.

(** The entry that may take one more page. *)
Definition room (n : N) (rv : list PagemapEntry) : Prop := ∀ e, e ∈ rv → present e = true ∨ inParent e = true → (NrPages e + n < U64.modulus)%N.

Lemma push_kept va flags rv out l pg n :
  deltaEntries (rev rv) out = Some (l, []) → length pg = pageLen → N.testbit flags 2 = true → (va < U64.modulus)%N →
  room n rv → (0 < n)%N →
  deltaEntries (rev (pushPage PageSize va flags rv)) (out ++ pg) = Some (l ++ [IPage va flags pg], []).
Proof.
  intros Hd Hl Hf Hva Hroom Hn.
  assert (deltaEntries (rev (mkEntry va 1 flags :: rv)) (out ++ pg) = Some (l ++ [IPage va flags pg], [])) as Hnew.
  { simpl. rewrite (deltaEntries_app _ _ _ _ _ pg Hd), deltaEntries_one. unfold deltaEntry. rewrite present_bit. simpl. rewrite Hf.
    rewrite <-(app_nil_r pg) at 1. rewrite readPage_exact by done. by rewrite pageAt_first. }
  unfold pushPage. destruct rv as [|e es]; [done|]. case_match eqn:Hc; [|done].
  apply andb_true_iff in Hc as [<-%N.eqb_eq <-%N.eqb_eq]. simpl in Hd |- *.
  destruct (deltaEntries_split _ _ _ _ _ Hd) as (l1 & r1 & l2 & H1 & H2 & ->). rewrite deltaEntries_one in H2.
  rewrite (deltaEntries_app _ _ _ _ _ pg H1), deltaEntries_one.
  unfold deltaEntry in *. rewrite present_bit in *. simpl. rewrite Hf in *.
  assert (NrPages e + n < U64.modulus)%N as Hr by (apply Hroom; [by left|left; by rewrite present_bit]).
  rewrite U64.succ_small by (unfold U64.max, U64.modulus in *; lia).
  replace (N.to_nat (NrPages e + 1)) with (S (N.to_nat (NrPages e))) by lia.
  rewrite (viewRun_snoc e (mkEntry (VAddr e) (NrPages e + 1) (Flags e)) (N.to_nat (NrPages e)) eq_refl eq_refl 0 r1 l2 pg H2 Hl). rewrite N.add_0_l, N2Nat.id. by rewrite app_assoc.
Qed.

Lemma push_parent va flags rv out l pg n :
  deltaEntries (rev rv) out = Some (l, []) → length pg = pageLen → page p va = Some pg →
  N.testbit flags 2 = true → N.testbit flags 0 = false → (va < U64.modulus)%N → room n rv → (0 < n)%N →
  deltaEntries (rev (pushPage PageSize va (stripped flags) rv)) out = Some (l ++ [IPage va flags pg], []).
Proof.
  intros Hd Hl Hpg Hf Hf0 Hva Hroom Hn. destruct (stripped_bits flags) as [S2 S0].
  rewrite <-(app_nil_r out).
  assert (deltaEntries (rev (mkEntry va 1 (stripped flags) :: rv)) (out ++ []) = Some (l ++ [IPage va flags pg], [])) as Hnew.
  { simpl. rewrite (deltaEntries_app _ _ _ _ _ [] Hd), deltaEntries_one. unfold deltaEntry. rewrite present_bit, inParent_bit. simpl. rewrite S2, S0.
    rewrite pageAt_first by done. rewrite Hpg, (proj2 (Nat.eqb_eq _ _)) by done. by rewrite filled_stripped. }
  unfold pushPage. destruct rv as [|e es]; [done|]. case_match eqn:Hc; [|done].
  apply andb_true_iff in Hc as [Ef%N.eqb_eq <-%N.eqb_eq]. simpl in Hd |- *.
  destruct (deltaEntries_split _ _ _ _ _ Hd) as (l1 & r1 & l2 & H1 & H2 & ->). rewrite deltaEntries_one in H2.
  rewrite (deltaEntries_app _ _ _ _ _ [] H1), deltaEntries_one.
  unfold deltaEntry in *. rewrite present_bit, inParent_bit in *. simpl. rewrite Ef, S2, S0 in *.
  assert (NrPages e + n < U64.modulus)%N as Hr by (apply Hroom; [by left|right; by rewrite inParent_bit, Ef]).
  rewrite U64.succ_small by (unfold U64.max, U64.modulus in *; lia).
  destruct (parentRun e (N.to_nat (NrPages e)) 0) as [l3|] eqn:E3; [|done]. injection H2 as <- ->.
  replace (N.to_nat (NrPages e + 1)) with (S (N.to_nat (NrPages e))) by lia.
  rewrite (parentRun_snoc e (mkEntry (VAddr e) (NrPages e + 1) (stripped flags)) (N.to_nat (NrPages e)) eq_refl (eq_sym Ef) 0 l3 pg E3);
    rewrite ?N.add_0_l, ?N2Nat.id; [|done|done]. rewrite Ef, filled_stripped by done. by rewrite app_assoc.
Qed.

(** What stays in the delta. *)
Definition changed (it : item) : bool := match it with IPage va _ pg => negb (page p va ==? Some pg) | IHole _ => false end.
Definition dirty (l : list item) : list item := filter (λ it, Is_true (changed it)) l.

Definition pageCount (l : list item) : N := N.of_nat (length (filter (λ it, Is_true (match it with IPage _ _ _ => true | _ => false end)) l)).

Lemma succ_wrap a b : U64.succ (U64.wrap (a + b)) = U64.wrap (a + (b + 1)).
Proof. unfold U64.succ, U64.add, U64.wrap. rewrite N.Div0.add_mod_idemp_l. f_equal. lia. Qed.

(** The state of compute after the items [l] of the checkpoint, from the counts
    [t0] and [k0]. *)
Record Computed (t0 k0 : N) (l : list item) (st : CState) : Prop := {
  co_view : deltaEntries (rev (c_rev st)) (c_out st) = Some (l, []);
  co_out : c_out st = pagesOf (dirty l);
  co_room : room (N.of_nat (length (c_in st))) (c_rev st);
  co_len : (N.of_nat (length (c_in st)) < U64.modulus)%N;
  co_count : (length (c_rev st) ≤ length l)%nat;
  co_ok : Forall entryOK (c_rev st);
  co_total : c_total st = U64.wrap (t0 + pageCount l);
  co_kept : c_kept st = U64.wrap (k0 + N.of_nat (length (dirty l)));
}.

Lemma room_push n m va flags rv : (m < n)%N → (n < U64.modulus)%N → room n rv → room m (pushPage PageSize va flags rv).
Proof.
  intros Hm Hn Hr. assert (room m (mkEntry va 1 flags :: rv)) as Hnew.
  { intros e [->|He]%elem_of_cons Hb; simpl; [lia|]. specialize (Hr e He Hb). lia. }
  unfold pushPage. destruct rv as [|e es]; [done|]. case_match; [|done]. intros x [->|Hx]%elem_of_cons Hb; [|specialize (Hr x); set_solver by lia].
  simpl. assert (NrPages e + n < U64.modulus)%N as H' by (apply Hr; [by left|destruct Hb; [left|right]; done]).
  rewrite U64.succ_small by (unfold U64.max, U64.modulus in *; lia). lia.
Qed.

Lemma push_count va flags rv : (length (pushPage PageSize va flags rv) ≤ S (length rv))%nat.
Proof. unfold pushPage. destruct rv; [done|]. case_match; simpl; lia. Qed.
Lemma push_ok va flags rv : (va < U64.modulus)%N → (flags < 2 ^ 32)%N → Forall entryOK rv → Forall entryOK (pushPage PageSize va flags rv).
Proof.
  intros Hva Hf HF. assert (entryOK (mkEntry va 1 flags)) as Hnew by (unfold entryOK; simpl; split_and!; done).
  unfold pushPage. destruct rv as [|e es]; [by repeat constructor|]. case_match; [|by constructor]. apply Forall_cons in HF as [(H1 & H2 & H3) HF].
  constructor; [|done]. split_and!; simpl; [done|apply U64.wrap_lt|done].
Qed.
Lemma flags_lt f g k : (f < 2 ^ 32)%N → (g < 2 ^ 32)%N → (N.lor (N.ldiff f k) g < 2 ^ 32)%N.
Proof.
  intros Hf Hg. destruct (decide (N.lor (N.ldiff f k) g = 0)%N) as [->|Hz]; [done|]. apply N.log2_lt_pow2; [lia|].
  rewrite N.log2_lor. assert (∀ x, (x < 2 ^ 32)%N → (N.log2 x < 32)%N) as Hlog.
  { intros x Hx. destruct (decide (x = 0)%N) as [->|]; [done|]. apply N.log2_lt_pow2; [lia|done]. }
  apply N.max_lub_lt; [|by apply Hlog]. eapply N.le_lt_trans; [|apply (Hlog f Hf)].
  apply N.log2_le_mono. apply N.ldiff_le. rewrite N.ldiff_ldiff_l. apply N.bits_inj_0. intros i.
  rewrite N.ldiff_spec, N.lor_spec. destruct (N.testbit f i), (N.testbit k i); done.
Qed.

Lemma dirty_snoc l it : dirty (l ++ [it]) = dirty l ++ (if changed it then [it] else []).
Proof. unfold dirty. rewrite filter_app. f_equal. rewrite filter_cons. by destruct (changed it). Qed.
Lemma pagesOf_snoc l it : pagesOf (l ++ [it]) = pagesOf l ++ pagesOf [it].
Proof. apply bind_app. Qed.
Lemma pageCount_snoc l va f pg : pageCount (l ++ [IPage va f pg]) = (pageCount l + 1)%N.
Proof. unfold pageCount. rewrite filter_app, length_app. simpl. lia. Qed.

Context (Hps : (0 < PageSize)%N).

Lemma computePage_spec t0 k0 l st e i pg rest :
  Computed t0 k0 l st → present e = true → inParent e = false → (Flags e < 2 ^ 32)%N → readPage (c_in st) = Some (pg, rest) →
  ∃ st', computePage PageSize p e i st = Some st' ∧ Computed t0 k0 (l ++ [IPage (pageAt e i) (Flags e) pg]) st' ∧ c_in st' = rest.
Proof using Hps.
  intros HC Hp Hnp Hfl Hr. destruct HC as [Hv Ho Hrm Hl Hn Hok Ht Hk]. unfold computePage. rewrite Hr.
  destruct (readPage_length _ _ _ Hr) as [Hpl Hin]. rewrite present_bit in Hp. rewrite inParent_bit in Hnp.
  assert (N.of_nat (length rest) < N.of_nat (length (c_in st)))%N as Hlt.
  { rewrite Hin, length_app, Hpl. unfold Images.pageLen. lia. }
  cbv zeta. case_bool_decide as Hpg; eexists; (split; [done|]); (split; [|done]); (constructor; simpl);
    rewrite ?dirty_snoc, ?pageCount_snoc, ?Ht, ?Hk, ?succ_wrap; cbn [changed];
    rewrite ?(bool_decide_eq_true_2 _ Hpg), ?(bool_decide_eq_false_2 _ Hpg); cbn [negb];
    rewrite ?app_nil_r, ?length_app; simpl; try done; try lia.
  - eapply push_parent; [done|done|done|done|done|apply pageAt_lt|done|lia].
  - by eapply room_push.
  - etrans; [apply push_count|simpl; lia].
  - apply push_ok; [apply pageAt_lt|by apply flags_lt|done].
  - eapply push_kept; [done|done|done|apply pageAt_lt|done|lia].
  - rewrite pagesOf_snoc, Ho. f_equal. simpl. by rewrite app_nil_r.
  - by eapply room_push.
  - etrans; [apply push_count|simpl; lia].
  - apply push_ok; [apply pageAt_lt|done|done].
  - f_equal. lia.
Qed.

Lemma computeRun_spec t0 k0 e : present e = true → inParent e = false → (Flags e < 2 ^ 32)%N → ∀ n i l st, Computed t0 k0 l st →
  match viewRun e n i (c_in st) with
  | Some (l', rest) => ∃ st', computeRun PageSize p e n i st = Some st' ∧ Computed t0 k0 (l ++ l') st' ∧ c_in st' = rest
  | None => computeRun PageSize p e n i st = None
  end.
Proof using Hps.
  intros Hp Hnp Hfl. induction n as [|n IH]; intros i l st HC; simpl; [exists st; by rewrite app_nil_r|].
  destruct (readPage (c_in st)) as [[pg rest]|] eqn:Er; [|unfold computePage; by rewrite Er].
  destruct (computePage_spec t0 k0 l st e i pg rest HC Hp Hnp Hfl Er) as (st1 & -> & HC1 & <-).
  specialize (IH (i + 1)%N _ st1 HC1). destruct (viewRun e n (i + 1) (c_in st1)) as [[l' r']|]; [|done].
  destruct IH as (st' & H1 & H2 & H3). exists st'. split; [done|]. split; [|done]. by rewrite <-app_assoc in H2.
Qed.

Lemma computeEntries_spec t0 k0 es : Forall (λ e, inParent e = false) es → Forall entryOK es → ∀ l st, Computed t0 k0 l st →
  match viewEntries es (c_in st) with
  | Some (l', rest) => ∃ st', computeEntries PageSize p es st = Some st' ∧ Computed t0 k0 (l ++ l') st' ∧ c_in st' = rest
  | None => computeEntries PageSize p es st = None
  end.
Proof using Hps.
  induction es as [|e es IH]; intros HF HE l st HC; simpl; [exists st; by rewrite app_nil_r|].
  apply Forall_cons in HF as [Hnp HF], HE as [He HE].
  unfold computeEntry. destruct (present e) eqn:Hp.
  - pose proof (computeRun_spec t0 k0 e Hp Hnp (proj2 (proj2 He)) (N.to_nat (NrPages e)) 0 l st HC) as Hrun.
    destruct (viewRun e _ 0 (c_in st)) as [[l1 r1]|]; [|by rewrite Hrun]. destruct Hrun as (st1 & -> & HC1 & <-).
    specialize (IH HF HE _ _ HC1). destruct (viewEntries es (c_in st1)) as [[l2 r2]|]; [|done]. by rewrite <-app_assoc in IH.
  - set (st1 := mkC (c_in st) (c_out st) (e :: c_rev st) (c_total st) (c_kept st)).
    assert (Computed t0 k0 (l ++ [IHole e]) st1) as HC1.
    { destruct HC as [Hv Ho Hrm Hl Hn Hok Ht Hk]. constructor; simpl.
      - rewrite <-(app_nil_r (c_out st)). rewrite (deltaEntries_app _ _ _ _ _ [] Hv), deltaEntries_one. unfold deltaEntry. by rewrite Hp, Hnp.
      - rewrite dirty_snoc. simpl. by rewrite app_nil_r.
      - intros x [->|Hx]%elem_of_cons Hb; [destruct Hb; congruence|by apply Hrm].
      - done.
      - rewrite length_app. simpl. lia.
      - by constructor.
      - rewrite Ht. unfold pageCount. rewrite filter_app, length_app. simpl. by rewrite Nat.add_0_r.
      - rewrite dirty_snoc. simpl. by rewrite app_nil_r. }
    specialize (IH HF HE _ _ HC1). change (c_in st1) with (c_in st) in IH. destruct (viewEntries es (c_in st)) as [[l2 r2]|]; [|done].
    by rewrite <-app_assoc in IH.
Qed.

(** ** Merge *)

Lemma mergePresent_spec e n : ∀ i rd l r out, viewRun e n i rd = Some (l, r) →
  mergePresent PageSize n rd out = Some (r, out ++ pagesOf l) ∧ ∀ x, viewRun e n i (pagesOf l ++ x) = Some (l, x).
Proof using.
  induction n as [|n IH]; intros i rd l r out; simpl; [intros [= <- <-]; by rewrite app_nil_r|].
  destruct (readPage rd) as [[pg rest]|] eqn:E; [|done]. destruct (viewRun e n (i + 1) rest) as [[l' r']|] eqn:E'; [|done].
  intros [= <- <-]. destruct (IH _ _ _ _ (out ++ pg) E') as [H1 H2]. destruct (readPage_length _ _ _ E) as [Hl _].
  unfold pagesOf. rewrite bind_cons. split; [rewrite H1; by rewrite <-app_assoc|].
  intros x. rewrite <-app_assoc, readPage_exact by done. unfold pagesOf in H2. by rewrite H2.
Qed.

Lemma mergeParent_spec e n : ∀ i l out, parentRun e n i = Some l →
  mergeParent PageSize p e n i out = Some (out ++ pagesOf l) ∧
  ∀ x, viewRun (mkEntry (VAddr e) (NrPages e) (filled (Flags e))) n i (pagesOf l ++ x) = Some (l, x).
Proof using.
  induction n as [|n IH]; intros i l out; simpl; [intros [= <-]; by rewrite app_nil_r|].
  destruct (page p (pageAt e i)) as [pp|] eqn:E; [|done]. destruct (parentRun e n (i + 1)) as [l'|] eqn:E'; [|done].
  case_match eqn:Hl; [|done]. apply Nat.eqb_eq in Hl. intros [= <-]. destruct (IH _ _ (out ++ pp) E') as [H1 H2].
  unfold pagesOf. rewrite bind_cons. split; [rewrite H1; by rewrite <-app_assoc|].
  intros x. rewrite <-app_assoc, readPage_exact by done. unfold pagesOf in H2. by rewrite H2.
Qed.

Lemma mergeEntries_spec es : ∀ rd l r out, deltaEntries es rd = Some (l, r) →
  ∃ es', mergeEntries PageSize p es rd out = Some (es', out ++ pagesOf l) ∧ ∀ x, viewEntries es' (pagesOf l ++ x) = Some (l, x).
Proof using.
  induction es as [|e es IH]; intros rd l r out; simpl; [intros [= <- <-]; exists []; by rewrite app_nil_r|].
  destruct (deltaEntry e rd) as [[l1 r1]|] eqn:E; [|done]. destruct (deltaEntries es r1) as [[l2 r2]|] eqn:E2; [|done]. intros [= <- <-].
  destruct (IH _ _ _ (out ++ pagesOf l1) E2) as (es' & H1 & H2).
  assert (pagesOf (l1 ++ l2) = pagesOf l1 ++ pagesOf l2) as Epg by apply bind_app. rewrite Epg.
  assert (∀ e', mergeEntry PageSize p e rd out = Some (e', r1, out ++ pagesOf l1) →
    (∀ x, (if present e' then viewRun e' (N.to_nat (NrPages e')) 0 (pagesOf l1 ++ x) else Some ([IHole e'], pagesOf l1 ++ x)) = Some (l1, x)) →
    ∃ es'', match mergeEntry PageSize p e rd out with
            | Some (e', rd', out') => match mergeEntries PageSize p es rd' out' with Some (es'', o) => Some (e' :: es'', o) | None => None end
            | None => None end = Some (es'', out ++ pagesOf l1 ++ pagesOf l2) ∧
      ∀ x, viewEntries es'' ((pagesOf l1 ++ pagesOf l2) ++ x) = Some (l1 ++ l2, x)) as Hfin.
  { intros e' Hm Hv. exists (e' :: es'). rewrite Hm, H1, <-app_assoc. split; [done|]. intros x. cbn [viewEntries].
    rewrite <-app_assoc, Hv, H2. done. }
  unfold deltaEntry in E. destruct (present e) eqn:Hp.
  - destruct (mergePresent_spec e _ _ _ _ _ out E) as [M1 M2]. apply (Hfin e); [unfold mergeEntry; by rewrite Hp, M1|]. intros x. by rewrite Hp, M2.
  - destruct (inParent e) eqn:Hi.
    + destruct (parentRun e _ 0) as [l3|] eqn:E3; [|done]. injection E as <- <-. destruct (mergeParent_spec e _ _ _ out E3) as [M1 M2].
      apply (Hfin (mkEntry (VAddr e) (NrPages e) (filled (Flags e)))); [unfold mergeEntry; by rewrite Hp, Hi, M1|].
      intros x. rewrite present_bit. simpl. rewrite filled_bit. apply M2.
    + injection E as <- <-. apply (Hfin e); [unfold mergeEntry; rewrite Hp, Hi; by rewrite app_nil_r|]. intros x. by rewrite Hp.
Qed.

Lemma mergeEntries_shape es : ∀ rd out es' o, mergeEntries PageSize p es rd out = Some (es', o) →
  length es' = length es ∧ (Forall entryOK es → Forall entryOK es').
Proof using.
  induction es as [|e es IH]; intros rd out es' o; simpl; [by intros [= <- <-]|].
  destruct (mergeEntry PageSize p e rd out) as [[[e' rd'] out']|] eqn:E; [|done].
  destruct (mergeEntries PageSize p es rd' out') as [[es'' o']|] eqn:E2; [|done]. intros [= <- <-].
  destruct (IH _ _ _ _ E2) as [Hl Hok]. simpl. split; [by rewrite Hl|]. intros [He HF]%Forall_cons. constructor; [|by apply Hok].
  revert E. unfold mergeEntry. repeat case_match; intros [= <- <- <-]; try assumption.
  destruct He as (? & ? & ?). split_and!; simpl; [done|done|by apply flags_lt].
Qed.

(** One pagemap there and back. *)
Lemma image_round_trip pm pages l rest total kept :
  pagemapOK pm → Forall (λ e, inParent e = false) (Entries pm) → (N.of_nat (length pages) < U64.modulus)%N →
  viewEntries (Entries pm) pages = Some (l, rest) →
  ∃ es' es'', let pm' := mkPagemap (pm_Header pm) (PagesID pm) es' in let pm'' := mkPagemap (pm_Header pm) (PagesID pm) es'' in
    computeImage PageSize p pm pages (U64.wrap total) (U64.wrap kept) =
      Some (pm', pagesOf (dirty l), U64.wrap (total + pageCount l), U64.wrap (kept + N.of_nat (length (dirty l)))) ∧
    mergeImage PageSize p pm' (pagesOf (dirty l)) = Some (pm'', pagesOf l) ∧
    viewEntries es'' (pagesOf l) = Some (l, []) ∧
    (pagemapOK pm' ∧ (length es' ≤ length l)%nat) ∧ pagemapOK pm'' ∧ (length es'' ≤ length l)%nat.
Proof using Hps.
  intros (Oh & Oi & Oe) HF Hlen Hv. assert (Computed total kept [] (mkC pages [] [] (U64.wrap total) (U64.wrap kept))) as HC.
  { constructor; simpl; try done; [intros e He; by apply not_elem_of_nil in He|by rewrite N.add_0_r..]. }
  pose proof (computeEntries_spec total kept (Entries pm) HF Oe [] _ HC) as Hc. simpl in Hc. rewrite Hv in Hc.
  destruct Hc as (st & Hst & [Sv So _ _ Sn Sok St Sk] & _). simpl in *.
  destruct (mergeEntries_spec _ _ _ _ [] Sv) as (es' & M1 & M2). rewrite So in M1.
  destruct (mergeEntries_shape _ _ _ _ _ M1) as [Ml Mok]. rewrite length_rev in Ml.
  assert (Forall entryOK (rev (c_rev st))) as Hok' by (by apply Forall_rev).
  exists (rev (c_rev st)), es'. unfold computeImage, mergeImage. rewrite Hst, So, St, Sk. simpl. rewrite M1, length_rev.
  unfold pagemapOK. simpl. split_and!; try done; [|auto|lia]. specialize (M2 []). by rewrite app_nil_r in M2.
Qed.
End views.

(** ** What is read fits its width *)

Lemma lor_lt a b n : (a < 2 ^ n)%N → (b < 2 ^ n)%N → (N.lor a b < 2 ^ n)%N.
Proof.
  intros Ha Hb. destruct (decide (N.lor a b = 0)%N) as [->|Hz]; [lia|]. apply N.log2_lt_pow2; [lia|]. rewrite N.log2_lor.
  assert (∀ x, (x < 2 ^ n)%N → x ≠ 0%N → (N.log2 x < n)%N) as Hlog by (intros x Hx H0; apply N.log2_lt_pow2; [lia|done]).
  destruct (decide (a = 0)%N) as [->|]; [rewrite N.lor_0_l in Hz; apply N.max_lub_lt; [|auto]; eapply N.le_lt_trans; [|by apply (Hlog b)]; apply N.le_0_l|].
  destruct (decide (b = 0)%N) as [->|]; [apply N.max_lub_lt; [auto|]; eapply N.le_lt_trans; [|by apply (Hlog a)]; apply N.le_0_l|].
  apply N.max_lub_lt; auto.
Qed.
Lemma shiftl_lt a n k : (a < 2 ^ n)%N → (N.shiftl a k < 2 ^ (n + k))%N.
Proof. intros Ha. rewrite N.shiftl_mul_pow2, N.pow_add_r. apply N.mul_lt_mono_pos_r; [|done]. pose proof (N.pow_nonzero 2 k ltac:(done)). lia. Qed.

Lemma uvarint_lt buf : ∀ i x v n, (i ≤ 10)%nat → (x < 2 ^ (7 * N.of_nat i))%N → uvarint i x buf = Some (v, n) → (v < U64.modulus)%N.
Proof.
  induction buf as [|b buf IH]; intros i x v n Hi Hx; simpl; [done|]. case_match eqn:E10; [done|]. apply Nat.eqb_neq in E10.
  case_match eqn:E128.
  - apply N.ltb_lt in E128. case_match eqn:E9; [done|]. intros [= <- _]. change U64.modulus with (2 ^ 64)%N.
    destruct (decide (i = 9)%nat) as [->|Hne].
    + simpl in E9. apply N.ltb_ge in E9. apply lor_lt; [eapply N.lt_trans; [exact Hx|done]|].
      apply (shiftl_lt _ 1 63). change (2 ^ 1)%N with 2%N. lia.
    + eapply N.lt_le_trans; [apply (lor_lt _ _ (7 + 7 * N.of_nat i))|apply N.pow_le_mono_r; lia].
      * eapply N.lt_le_trans; [exact Hx|]. apply N.pow_le_mono_r; lia.
      * by apply shiftl_lt.
  - intros H. eapply (IH (S i)); [lia| |exact H]. replace (7 * N.of_nat (S i))%N with (7 + 7 * N.of_nat i)%N by lia. apply lor_lt.
    + eapply N.lt_le_trans; [exact Hx|]. apply N.pow_le_mono_r; lia.
    + apply shiftl_lt. change 127%N with (N.ones 7). rewrite N.land_ones. by apply N.mod_lt.
Qed.

Lemma parseFields_lt fuel : ∀ out msg fs, map_Forall (λ _ v, (v < U64.modulus)%N) out → parseFields fuel out msg = Some fs →
  map_Forall (λ _ v, (v < U64.modulus)%N) fs.
Proof.
  induction fuel as [|fuel IH]; intros out msg fs Hout; [by destruct msg; intros [= <-]|].
  destruct msg as [|b msg]; [by intros [= <-]|]. cbn [parseFields]. generalize (b :: msg). clear b msg. intros msg. cbv zeta.
  destruct (Uvarint msg) as [[key n]|]; [|done]. set (rest := drop n msg).
  destruct (N.land key 7) as [|[[?|?|]|[?|?|]|]]; try done; repeat case_match; try done; intros Hp; (eapply IH; [|exact Hp]); try done.
  apply map_Forall_insert_2; [|done]. unfold Uvarint in *. eapply (uvarint_lt _ 0 0); [lia|done|eassumption].
Qed.

Lemma parseVarintFields_lt msg fs k : parseVarintFields msg = Some fs → (field fs k < U64.modulus)%N.
Proof.
  intros H. apply parseFields_lt in H; [|apply map_Forall_empty]. unfold field. destruct (fs !! k) as [v|] eqn:E; [by apply (H k v)|done].
Qed.

Lemma readMsgs_ok fuel : ∀ rest l, readMsgs fuel rest = Some l → Forall entryOK (entryOf <$> l).
Proof.
  induction fuel as [|fuel IH]; intros rest l; [by destruct rest; intros [= <-]|].
  destruct rest as [|b rest]; [by intros [= <-]|]. cbn [readMsgs]. generalize (b :: rest). clear b rest. intros rest. cbv zeta.
  repeat case_match; try done. intros [= <-]. rewrite fmap_cons. constructor; [|by eapply IH].
  match goal with H : parseVarintFields _ = Some ?g |- entryOK (entryOf ?g) => pose proof (λ k, parseVarintFields_lt _ _ k H) as Hf; clear H end.
  unfold entryOK, entryOf. simpl. split_and!; [apply Hf| |by apply N.mod_lt].
  match goal with |- context [default _ (?m !! 5%N)] => pose proof (Hf 5%N) as H5; unfold field in H5; destruct (m !! 5%N); [done|apply Hf] end.
Qed.

(** What is read is a pagemap of its widths. *)
Lemma ReadPagemap_ok b pm : ReadPagemap b = Some pm → pagemapOK pm.
Proof.
  unfold ReadPagemap. case_match eqn:Hb; [done|]. apply Nat.ltb_ge in Hb.
  destruct (readMsgs _ _) as [l|] eqn:E; [|done]. apply readMsgs_ok in E.
  assert (length (take 8 b) = 8%nat) as Hl by (rewrite length_take; lia).
  destruct l as [|h es]; intros [= <-]; unfold pagemapOK; simpl; (split_and!; [done| |]); [done|done|by apply N.mod_lt|].
  rewrite fmap_cons in E. by apply Forall_cons in E as [_ E].
Qed.

(** ** How long what is written is *)

Lemma msgOf_length fs : Forall (λ f, (f.1 < 16)%N) fs → (length (msgOf fs) ≤ 4 + 11 * length fs)%nat.
Proof.
  intros HF. unfold msgOf. rewrite length_app. change (length (putUint32 _)) with 4%nat. apply Nat.add_le_mono_l.
  induction HF as [|[k v] fs Hk HF IH]; [done|]. rewrite bind_cons, !length_app. simpl in *. pose proof (AppendUvarint_length v).
  assert (length (AppendUvarint (N.shiftl k 3)) = 1%nat) as ->; [|lia].
  unfold AppendUvarint. cbn [appendUvarint]. rewrite (proj2 (N.ltb_lt _ 128)); [done|]. rewrite N.shiftl_mul_pow2. lia.
Qed.
Lemma writePagemap_length pm : (length (writePagemap pm) ≤ length (pm_Header pm) + 15 + 48 * length (Entries pm))%nat.
Proof.
  unfold writePagemap. rewrite !length_app.
  assert (length (msgOf [(1%N, PagesID pm)]) ≤ 15)%nat as H1 by (apply msgOf_length; by repeat constructor).
  assert (length (Entries pm ≫= entryMsg) ≤ 48 * length (Entries pm))%nat; [|lia].
  induction (Entries pm) as [|e es IH]; [done|]. rewrite bind_cons, length_app. cbn [length].
  clear H1. assert (length (entryMsg e) ≤ 48)%nat; [|lia]. unfold entryMsg. etrans; [apply msgOf_length; by repeat constructor|done].
Qed.

(** ** A directory there and back *)

Definition asciiOnly (s : string) : bool := all_chars (λ c, N_of_ascii c <? 128)%N s.

Section directories.
Context (PageSize : N) (p : Parent).

(** What the checkpoint in [d] says of the task of pagemap [m]: the header, the
    number of its pages file, its pages and holes. *)
Definition says (d : Dir) (m : string) : option (bytes * N * list item) :=
  match d !! m ≫= ReadPagemap with
  | Some pm =>
      match d !! PagesFile pm with
      | Some pages => match viewEntries PageSize (Entries pm) pages with Some (l, _) => Some (pm_Header pm, PagesID pm, l) | None => None end
      | None => None
      end
  | None => None
  end.
Definition itemsOf (d : Dir) (m : string) : list item := match says d m with Some (_, _, l) => l | None => [] end.
Definition allItems (d : Dir) : list item := FindPagemaps d ≫= itemsOf d.
Definition pagesName (id : N) : string := "pages-" +:+ FormatUint id +:+ ".img".

(** A full pagemap, its pages and its size in bounds: a file's length fits in 63
    bits, a pagemap's in 32. *)
Definition fullMap (d : Dir) (m : string) : Prop :=
  ∃ pm pages l rest, d !! m ≫= ReadPagemap = Some pm ∧ d !! PagesFile pm = Some pages ∧
    viewEntries PageSize (Entries pm) pages = Some (l, rest) ∧ Forall (λ e, inParent e = false) (Entries pm) ∧
    (N.of_nat (length pages) < 2 ^ 63)%N ∧ (48 * N.of_nat (length l) + 23 < 2 ^ 32)%N.

(** A full checkpoint: some task, each with a full pagemap of its own pages. *)
Record Checkpoint (d : Dir) : Prop := {
  ck_some : FindPagemaps d ≠ [];
  ck_ascii : ∀ m, m ∈ FindPagemaps d → asciiOnly m = true;
  ck_full : ∀ m, m ∈ FindPagemaps d → fullMap d m;
  ck_ids : ∀ m m' h h' id l l', says d m = Some (h, id, l) → says d m' = Some (h', id, l') →
    m ∈ FindPagemaps d → m' ∈ FindPagemaps d → m = m';
}.

Lemma FindPagemaps_in d m : m ∈ FindPagemaps d → isPagemap m = true.
Proof. unfold FindPagemaps. rewrite merge_sort_Permutation, list_elem_of_filter. intros [H _]. by apply Is_true_true. Qed.
Lemma FindPagemaps_NoDup d : NoDup (FindPagemaps d).
Proof. unfold FindPagemaps. rewrite merge_sort_Permutation. apply NoDup_filter, NoDup_elements. Qed.

(** ** Commit *)

Definition committed (staged : list (string * bytes)) (d : Dir) : Dir := foldl (λ d fb, <[fb.1 := fb.2]> d) d staged.

Lemma commit_ok io staged : (∀ f, io_rename io f = true) → ∀ d, commitStaged io staged d = (committed staged d, true).
Proof. intros Hio. induction staged as [|[f b] staged IH]; intros d; simpl; [done|]. by rewrite Hio, IH. Qed.
Lemma committed_out staged f : ∀ d, f ∉ staged.*1 → committed staged d !! f = d !! f.
Proof.
  induction staged as [|[g b] staged IH]; intros d Hf; [done|]. rewrite fmap_cons, not_elem_of_cons in Hf. destruct Hf as [Hne Hf].
  unfold committed in *. simpl. rewrite IH by done. by rewrite lookup_insert_ne.
Qed.
Lemma committed_in staged f b : ∀ d, NoDup staged.*1 → (f, b) ∈ staged → committed staged d !! f = Some b.
Proof.
  induction staged as [|[g c] staged IH]; intros d Hnd Hin; [by apply not_elem_of_nil in Hin|].
  rewrite fmap_cons in Hnd. apply NoDup_cons in Hnd as [Hg Hnd]. apply elem_of_cons in Hin as [[= <- <-]|Hin]; [|by apply IH].
  unfold committed. simpl. change (committed staged (<[f:=b]> d) !! f = Some b). rewrite committed_out by done. by rewrite lookup_insert_eq.
Qed.

(** ** The images of a directory *)

(** One image with its delta's entries and the merged ones. *)
Record Img := mkImg { im_name : string; im_pm : Pagemap; im_items : list item; im_delta : list PagemapEntry; im_merged : list PagemapEntry }.
Definition deltaMap (im : Img) : Pagemap := mkPagemap (pm_Header (im_pm im)) (PagesID (im_pm im)) (im_delta im).
Definition mergedMap (im : Img) : Pagemap := mkPagemap (pm_Header (im_pm im)) (PagesID (im_pm im)) (im_merged im).
Definition stageC (im : Img) : list (string * bytes) :=
  [(PagesFile (im_pm im), pagesOf (dirty PageSize p (im_items im))); (im_name im, writePagemap (deltaMap im))].
Definition stageM (im : Img) : list (string * bytes) :=
  [(PagesFile (im_pm im), pagesOf (im_items im)); (im_name im, writePagemap (mergedMap im))].

Record Taken (d : Dir) (m : string) (im : Img) : Prop := {
  tk_name : im_name im = m;
  tk_says : says d m = Some (pm_Header (im_pm im), PagesID (im_pm im), im_items im);
  tk_merge : mergeImage PageSize p (deltaMap im) (pagesOf (dirty PageSize p (im_items im))) = Some (mergedMap im, pagesOf (im_items im));
  tk_view : viewEntries PageSize (im_merged im) (pagesOf (im_items im)) = Some (im_items im, []);
  tk_delta : ReadPagemap (writePagemap (deltaMap im)) = Some (deltaMap im);
  tk_merged : ReadPagemap (writePagemap (mergedMap im)) = Some (mergedMap im);
}.

Lemma short_round_trip pm (l : list item) :
  pagemapOK pm → (length (Entries pm) ≤ length l)%nat → (48 * N.of_nat (length l) + 23 < 2 ^ 32)%N → ReadPagemap (writePagemap pm) = Some pm.
Proof.
  intros Hok Hle Hsz. apply pagemap_round_trip; [done|]. destruct Hok as [Hh _]. pose proof (writePagemap_length pm) as Hw. lia.
Qed.

Definition totalOf (ims : list Img) : N := pageCount (ims ≫= im_items).
Definition keptOf (ims : list Img) : N := N.of_nat (length (dirty PageSize p (ims ≫= im_items))).

Lemma pageCount_app l l' : pageCount (l ++ l') = (pageCount l + pageCount l')%N.
Proof. unfold pageCount. rewrite filter_app, length_app. apply Nat2N.inj_add. Qed.
Lemma dirty_app l l' : dirty PageSize p (l ++ l') = dirty PageSize p l ++ dirty PageSize p l'.
Proof. apply filter_app. Qed.

(** The names of what is staged. *)
Definition keys (im : Img) : list string := [PagesFile (im_pm im); im_name im].

Lemma stageC_keys ims : (ims ≫= stageC).*1 = ims ≫= keys.
Proof. induction ims as [|im ims IH]; [done|]. by rewrite !bind_cons, fmap_app, IH. Qed.
Lemma stageM_keys ims : (ims ≫= stageM).*1 = ims ≫= keys.
Proof. induction ims as [|im ims IH]; [done|]. by rewrite !bind_cons, fmap_app, IH. Qed.

Lemma PagesFile_inj pm pm' : PagesFile pm = PagesFile pm' → PagesID pm = PagesID pm'.
Proof.
  unfold PagesFile. intros H%str_app_inj_r. apply FormatUint_inj. pose proof (f_equal String.length H) as Hl.
  rewrite !str_length_app in Hl. apply str_app_inj_l in H; [apply H|lia].
Qed.

Context (Hps : (0 < PageSize)%N).

Lemma take_image d m t k : fullMap d m → ∃ im pages, Taken d m im ∧
  d !! m ≫= ReadPagemap = Some (im_pm im) ∧ d !! PagesFile (im_pm im) = Some pages ∧
  computeImage PageSize p (im_pm im) pages (U64.wrap t) (U64.wrap k) =
    Some (deltaMap im, pagesOf (dirty PageSize p (im_items im)), U64.wrap (t + pageCount (im_items im)),
      U64.wrap (k + N.of_nat (length (dirty PageSize p (im_items im))))).
Proof using Hps.
  intros (pm & pages & l & rest & Hm & Hpages & Hv & HF & Hlen & Hsz).
  assert (pagemapOK pm) as Hok.
  { destruct (d !! m) as [b|]; [|done]. by apply (ReadPagemap_ok b). }
  destruct (image_round_trip PageSize p Hps pm pages l rest t k Hok HF ltac:(unfold U64.modulus; lia) Hv)
    as (es' & es'' & Hc & Hmg & Hv' & [Ok' L'] & Ok'' & L'').
  exists (mkImg m pm l es' es''), pages. split; [|done]. constructor; simpl; [done| |done|done| |].
  - unfold says. by rewrite Hm, Hpages, Hv.
  - by apply (short_round_trip _ l).
  - by apply (short_round_trip _ l).
Qed.

Lemma computeMaps_spec io d sha : (∀ f, io_write io f = true) → ∀ names t k fs staged, (∀ m, m ∈ names → fullMap d m) →
  ∃ ims, Forall2 (Taken d) names ims ∧
    computeMaps PageSize io p d names staged (mkInfo PageSize sha (U64.wrap t) (U64.wrap k) fs) =
      Some (staged ++ (ims ≫= stageC), mkInfo PageSize sha (U64.wrap (t + totalOf ims)) (U64.wrap (k + keptOf ims)) (fs ++ names)).
Proof using Hps.
  intros Hio. induction names as [|m names IH]; intros t k fs staged Hfull.
  { exists []. split; [constructor|]. simpl. unfold totalOf, keptOf. simpl. by rewrite !app_nil_r, !N.add_0_r. }
  destruct (take_image d m t k) as (im & pages & Htk & Hm & Hpages & Hc); [apply Hfull; by left|].
  destruct (IH (t + pageCount (im_items im))%N (k + N.of_nat (length (dirty PageSize p (im_items im))))%N (fs ++ [m]) (staged ++ stageC im))
    as (ims & HF & Hrest); [intros x Hx; apply Hfull; by right|].
  exists (im :: ims). split; [by constructor|]. cbn [computeMaps]. rewrite Hm, Hpages. rewrite !Hio. cbn [negb TotalPages KeptPages]. rewrite Hc.
  cbn [di_PageSize ParentSHA256 Files]. unfold stageC in Hrest at 1. rewrite (tk_name _ _ _ Htk) in Hrest. rewrite Hrest.
  rewrite bind_cons, <-!app_assoc. unfold totalOf, keptOf. rewrite bind_cons, pageCount_app, dirty_app, length_app, Nat2N.inj_add, !N.add_assoc. done.
Qed.

Lemma mergeMaps_spec io d d1 : (∀ f, io_write io f = true) → ∀ names staged,
  (∀ m, m ∈ names → ∃ im, Taken d m im ∧ d1 !! m = Some (writePagemap (deltaMap im)) ∧
    d1 !! PagesFile (im_pm im) = Some (pagesOf (dirty PageSize p (im_items im)))) →
  ∃ ims, Forall2 (Taken d) names ims ∧ mergeMaps PageSize io p d1 names staged = Some (staged ++ (ims ≫= stageM)).
Proof using.
  intros Hio. induction names as [|m names IH]; intros staged Hd; [exists []; by rewrite app_nil_r|].
  destruct (Hd m) as (im & Htk & Hm & Hpages); [by left|].
  destruct (IH (staged ++ stageM im)) as (ims & HF & Hrest); [intros x Hx; apply Hd; by right|].
  exists (im :: ims). split; [by constructor|]. cbn [mergeMaps]. rewrite Hm. cbn [mbind option_bind].
  rewrite (tk_delta _ _ _ Htk). change (PagesFile (deltaMap im)) with (PagesFile (im_pm im)). rewrite Hpages, !Hio, (tk_merge _ _ _ Htk). cbn [negb].
  unfold stageM in Hrest at 1. rewrite (tk_name _ _ _ Htk) in Hrest. rewrite Hrest. by rewrite bind_cons, <-app_assoc.
Qed.

Lemma taken_in d names ims m : Forall2 (Taken d) names ims → m ∈ names → ∃ im, im ∈ ims ∧ Taken d m im.
Proof using.
  induction 1 as [|m' im names ims Htk HF IH]; intros Hm; [by apply not_elem_of_nil in Hm|].
  apply elem_of_cons in Hm as [->|Hm]; [exists im; split; [by left|done]|]. destruct (IH Hm) as (x & Hx & ?). exists x. split; [by right|done].
Qed.
Lemma taken_from d names ims im : Forall2 (Taken d) names ims → im ∈ ims → im_name im ∈ names ∧ Taken d (im_name im) im.
Proof using.
  induction 1 as [|m x names ims Htk HF IH]; intros Hm; [by apply not_elem_of_nil in Hm|].
  apply elem_of_cons in Hm as [->|Hm]; [rewrite (tk_name _ _ _ Htk); split; [by left|done]|]. destruct (IH Hm). split; [by right|done].
Qed.

Lemma keys_name d names ims f : Forall2 (Taken d) names ims → (∀ m, m ∈ names → isPagemap m = true) → f ∈ ims ≫= keys →
  isPagemap f = true ∨ HasPrefix f "pages-" = true.
Proof using.
  intros HF Hn (im & Hf & Him)%list_elem_of_bind. destruct (taken_from _ _ _ _ HF Him) as [Hin _].
  apply elem_of_cons in Hf as [-> | ->%list_elem_of_singleton]; [right; apply HasPrefix_app|left; auto].
Qed.

Lemma keys_NoDup d names ims :
  Forall2 (Taken d) names ims → NoDup names → (∀ m, m ∈ names → isPagemap m = true) →
  (∀ m m' h h' id l l', says d m = Some (h, id, l) → says d m' = Some (h', id, l') → m ∈ names → m' ∈ names → m = m') →
  NoDup (ims ≫= keys).
Proof using.
  induction 1 as [|m im names ims Htk HF IH]; intros Hnd Hn Hid; [constructor|]. rewrite bind_cons. apply NoDup_cons in Hnd as [Hm Hnd].
  assert (NoDup (ims ≫= keys)) as IH' by (apply IH; [done|intros x Hx; apply Hn; by right|intros; eapply Hid; eauto; by right]).
  unfold keys at 1. simpl. rewrite (tk_name _ _ _ Htk). constructor; [|constructor; [|done]].
  - rewrite elem_of_cons. intros [E|(x & Hx & Hin)%list_elem_of_bind].
    { specialize (Hn m ltac:(by left)). by rewrite <-E in Hn. }
    destruct (taken_from _ _ _ _ HF Hin) as [Hxn Htx]. apply elem_of_cons in Hx as [E%PagesFile_inj|E%list_elem_of_singleton].
    + pose proof (tk_says _ _ _ Htk) as S1. pose proof (tk_says _ _ _ Htx) as S2. rewrite <-E in S2.
      rewrite (Hid _ _ _ _ _ _ _ S1 S2) in Hm; [done|by left|by right].
    + specialize (Hn (im_name x) ltac:(by right)). by rewrite <-E in Hn.
  - intros (x & Hx & Hin)%list_elem_of_bind. destruct (taken_from _ _ _ _ HF Hin) as [Hxn Htx].
    apply elem_of_cons in Hx as [E|E%list_elem_of_singleton]; [|by rewrite E in Hm]. specialize (Hn m ltac:(by left)). by rewrite E in Hn.
Qed.

Lemma taken_items d names ims : Forall2 (Taken d) names ims → names ≫= itemsOf d = ims ≫= im_items.
Proof using.
  induction 1 as [|m im names ims Htk HF IH]; [done|]. rewrite !bind_cons, IH. unfold itemsOf at 1. by rewrite (tk_says _ _ _ Htk).
Qed.

(** What is staged is where it was meant after the commit. *)
Lemma staged_lookup (stage : Img → list (string * bytes)) ims d im f b tail :
  NoDup ((ims ≫= stage) ++ tail).*1 → im ∈ ims → (f, b) ∈ stage im → committed ((ims ≫= stage) ++ tail) d !! f = Some b.
Proof using. intros Hnd Him Hf. apply committed_in; [done|]. apply elem_of_app. left. apply list_elem_of_bind. eauto. Qed.

(** The files of a directory after its delta, and after the merge. *)
Lemma delta_files io d marshal : (∀ f, io_write io f = true ∧ io_rename io f = true) → Checkpoint d →
  ∃ ims d1 info, Forall2 (Taken d) (FindPagemaps d) ims ∧ ComputeDelta PageSize marshal io d p = (d1, Some info) ∧
    info = mkInfo PageSize (pa_sha p) (U64.wrap (pageCount (allItems d))) (U64.wrap (N.of_nat (length (dirty PageSize p (allItems d)))))
      (merge_sort str_le (FindPagemaps d)) ∧
    d1 !! deltaFile = Some (marshal info) ∧
    (∀ im, im ∈ ims → d1 !! im_name im = Some (writePagemap (deltaMap im)) ∧
       d1 !! PagesFile (im_pm im) = Some (pagesOf (dirty PageSize p (im_items im)))) ∧
    (∀ f, isPagemap f = false → HasPrefix f "pages-" = false → f ≠ deltaFile → d1 !! f = d !! f).
Proof using Hps.
  intros Hio [Hsome _ Hfull Hids]. pose proof (FindPagemaps_in d) as Hn. pose proof (FindPagemaps_NoDup d) as Hnd.
  destruct (computeMaps_spec io d (pa_sha p) (λ f, proj1 (Hio f)) (FindPagemaps d) 0 0 [] [] Hfull) as (ims & HF & Hc).
  change (U64.wrap 0) with 0%N in Hc. rewrite app_nil_l, app_nil_l, !N.add_0_l in Hc.
  pose proof (taken_items _ _ _ HF) as Hit. change (allItems d = ims ≫= im_items) in Hit.
  set (info := mkInfo PageSize (pa_sha p) (U64.wrap (pageCount (allItems d))) (U64.wrap (N.of_nat (length (dirty PageSize p (allItems d)))))
      (merge_sort str_le (FindPagemaps d))).
  set (staged := (ims ≫= stageC) ++ [(deltaFile, marshal info)]).
  assert (NoDup staged.*1) as Hk.
  { unfold staged. rewrite fmap_app, stageC_keys. apply NoDup_app. split; [by eapply keys_NoDup|]. split; [|apply NoDup_singleton].
    intros x Hx ->%list_elem_of_singleton. destruct (keys_name _ _ _ _ HF Hn Hx); done. }
  exists ims, (committed staged d), info. split_and!; [done| |done| | |].
  - unfold ComputeDelta. destruct (FindPagemaps d) as [|m0 ns] eqn:E; [done|]. rewrite Hc. cbn [di_PageSize ParentSHA256 TotalPages KeptPages Files].
    unfold totalOf, keptOf. rewrite <-Hit. fold info. rewrite (proj1 (Hio deltaFile)). cbn [negb]. fold staged.
    rewrite commit_ok by (intros f; apply Hio). done.
  - apply committed_in; [done|]. unfold staged. apply elem_of_app. right. by left.
  - intros im Him. split; eapply staged_lookup; try done; [right; by left|by left].
  - intros f Hf1 Hf2 Hf3. apply committed_out. unfold staged. rewrite fmap_app, stageC_keys, elem_of_app.
    intros [Hin| ->%list_elem_of_singleton]; [|done]. destruct (keys_name _ _ _ _ HF Hn Hin); congruence.
Qed.

Lemma says_merged d d2 m im : Taken d m im → d2 !! m = Some (writePagemap (mergedMap im)) → d2 !! PagesFile (im_pm im) = Some (pagesOf (im_items im)) →
  says d2 m = says d m.
Proof using.
  intros Htk Hm Hp. rewrite (tk_says _ _ _ Htk). unfold says. rewrite Hm. cbn [mbind option_bind]. rewrite (tk_merged _ _ _ Htk).
  change (PagesFile (mergedMap im)) with (PagesFile (im_pm im)). rewrite Hp. simpl. by rewrite (tk_view _ _ _ Htk).
Qed.

Lemma merged_files io d d1 ims names : (∀ f, io_write io f = true ∧ io_rename io f = true) → Checkpoint d →
  Forall2 (Taken d) (FindPagemaps d) ims → names ≡ₚ FindPagemaps d →
  (∀ im, im ∈ ims → d1 !! im_name im = Some (writePagemap (deltaMap im)) ∧
     d1 !! PagesFile (im_pm im) = Some (pagesOf (dirty PageSize p (im_items im)))) →
  ∃ staged, mergeMaps PageSize io p d1 names [] = Some staged ∧
    (∀ m, m ∈ FindPagemaps d → says (delete deltaFile (committed staged d1)) m = says d m) ∧
    (∀ f, isPagemap f = false → HasPrefix f "pages-" = false → committed staged d1 !! f = d1 !! f).
Proof using.
  intros Hio [_ _ _ Hids] HF Hperm Hd1. pose proof (FindPagemaps_in d) as Hn. pose proof (FindPagemaps_NoDup d) as Hnd.
  destruct (mergeMaps_spec io d d1 (λ f, proj1 (Hio f)) names []) as (ims2 & HF2 & Hm).
  { intros m Hm. rewrite Hperm in Hm. destruct (taken_in _ _ _ _ HF Hm) as (im & Him & Htk). exists im. split; [done|].
    rewrite <-(tk_name _ _ _ Htk) at 1. by apply Hd1. }
  assert (∀ m, m ∈ names → isPagemap m = true) as Hn2 by (intros m; rewrite Hperm; apply Hn).
  assert (NoDup (ims2 ≫= keys)) as Hk.
  { eapply keys_NoDup; [done|by rewrite Hperm|done|]. intros. eapply Hids; eauto; by rewrite <-Hperm. }
  exists (ims2 ≫= stageM). split; [done|]. split.
  - intros m Hin. rewrite <-Hperm in Hin. destruct (taken_in _ _ _ _ HF2 Hin) as (im & Him & Htk). apply says_merged with im; [done|..].
    + rewrite lookup_delete_ne by (intros <-; by apply Hn2 in Hin). rewrite <-(app_nil_r (ims2 ≫= stageM)).
      eapply staged_lookup; [by rewrite app_nil_r, stageM_keys|done|]. rewrite <-(tk_name _ _ _ Htk). right. by left.
    + rewrite lookup_delete_ne by done. rewrite <-(app_nil_r (ims2 ≫= stageM)).
      eapply staged_lookup; [by rewrite app_nil_r, stageM_keys|done|by left].
  - intros f Hf1 Hf2. apply committed_out. rewrite stageM_keys. intros Hin. destruct (keys_name _ _ _ _ HF2 Hn2 Hin); congruence.
Qed.
End directories.

(** ** What a parent has *)

Section parents.
Context (PageSize : N).

(** The index has a page of [l] at each of its addresses, and no other. *)
Definition indexed (maps : list bytes) (idx : gmap N pageRef) (l : list item) : Prop :=
  (∀ va r, idx !! va = Some r → ∃ m f, maps !! ref_file r = Some m ∧
     IPage va f (take (pageLen PageSize) (drop (N.to_nat (ref_off r)) m)) ∈ l) ∧
  (∀ va f pg, IPage va f pg ∈ l → is_Some (idx !! va)).

Context (Hsz : (PageSize < 2 ^ 63)%N).

Lemma indexRun_spec maps data e n : (N.of_nat (length data) < 2 ^ 63)%N → ∀ i off idx off' idx' l,
  (off ≤ N.of_nat (length data))%N → indexed (maps ++ [data]) idx l →
  indexRun PageSize (length maps) e (N.of_nat (length data)) n i off idx = Some (off', idx') →
  ∃ l', viewRun PageSize e n i (drop (N.to_nat off) data) = Some (l', drop (N.to_nat off') data) ∧
    (off' ≤ N.of_nat (length data))%N ∧ indexed (maps ++ [data]) idx' (l ++ l').
Proof using Hsz.
  intros Hd. induction n as [|n IH]; intros i off idx off' idx' l Hoff Hidx; cbn [indexRun viewRun].
  { intros [= <- <-]. exists []. by rewrite app_nil_r. }
  assert (U64.add off PageSize = off + PageSize)%N as -> by (apply U64.wrap_small; unfold U64.modulus; lia). case_match eqn:Hlt; [done|]. apply N.ltb_ge in Hlt. intros H.
  assert (readPage PageSize (drop (N.to_nat off) data) =
    Some (take (pageLen PageSize) (drop (N.to_nat off) data), drop (N.to_nat (off + PageSize)) data)) as Hr.
  { unfold readPage. rewrite (proj2 (Nat.ltb_ge _ _)) by (rewrite length_drop; unfold pageLen; lia). rewrite drop_drop. unfold pageLen.
    by replace (N.to_nat off + N.to_nat PageSize)%nat with (N.to_nat (off + PageSize)) by lia. }
  set (pg := take (pageLen PageSize) (drop (N.to_nat off) data)) in *.
  destruct (λ Hi, IH _ _ _ _ _ (l ++ [IPage (pageAt PageSize e i) (Flags e) pg]) Hlt Hi H) as (l' & Hv & Ho & Hx).
  - destruct Hidx as [H1 H2]. split.
    + intros va r [[<- <-]|[Hne Hl]]%lookup_insert_Some.
      * exists data, (Flags e). simpl. split; [by apply list_lookup_middle|]. set_solver.
      * destruct (H1 va r Hl) as (m & f & Hm & Hin). exists m, f. set_solver.
    + intros va f pg' [Hin|[= -> -> ->]%list_elem_of_singleton]%elem_of_app; [|by rewrite lookup_insert_eq].
      apply lookup_insert_is_Some'. right. by eapply H2.
  - rewrite Hr, Hv. exists (IPage (pageAt PageSize e i) (Flags e) pg :: l'). split; [done|]. split; [done|]. by rewrite <-app_assoc in Hx.
Qed.

Lemma indexEntries_spec maps data es : (N.of_nat (length data) < 2 ^ 63)%N → ∀ off idx idx' l,
  (off ≤ N.of_nat (length data))%N → indexed (maps ++ [data]) idx l →
  indexEntries PageSize (length maps) (N.of_nat (length data)) es off idx = Some idx' →
  ∃ l' rest, viewEntries PageSize es (drop (N.to_nat off) data) = Some (l', rest) ∧ indexed (maps ++ [data]) idx' (l ++ l').
Proof using Hsz.
  intros Hd. induction es as [|e es IH]; intros off idx idx' l Hoff Hidx; cbn [indexEntries viewEntries].
  { intros [= <-]. eexists [], _. by rewrite app_nil_r. }
  destruct (present e) eqn:Hp.
  - destruct (indexRun _ _ _ _ _ _ _ _) as [[off1 idx1]|] eqn:Er; [|done]. intros H.
    destruct (indexRun_spec maps data e _ Hd _ _ _ _ _ l Hoff Hidx Er) as (l1 & Hv & Ho & Hi). rewrite Hv.
    destruct (IH _ _ _ _ Ho Hi H) as (l2 & rest & Hv2 & Hi2). rewrite Hv2. exists (l1 ++ l2), rest. by rewrite app_assoc.
  - intros H. assert (indexed (maps ++ [data]) idx (l ++ [IHole e])) as Hi.
    { destruct Hidx as [H1 H2]. split; [intros va r Hl; destruct (H1 va r Hl) as (m & f & ? & ?); exists m, f; set_solver|].
      intros va f pg [Hin|Hin%list_elem_of_singleton]%elem_of_app; [by eapply H2|done]. }
    destruct (IH _ _ _ _ Hoff Hi H) as (l2 & rest & Hv2 & Hi2). rewrite Hv2. exists (IHole e :: l2), rest. by rewrite <-app_assoc in Hi2.
Qed.

Lemma indexed_more maps data idx l : indexed maps idx l → indexed (maps ++ [data]) idx l.
Proof using.
  intros [H1 H2]. split; [|done]. intros va r Hl. destruct (H1 va r Hl) as (m & f & Hm & Hin). exists m, f. split; [|done]. by apply lookup_app_l_Some.
Qed.

Lemma loadMaps_spec d : (∀ f b, d !! f = Some b → N.of_nat (length b) < 2 ^ 63)%N → ∀ names maps idx maps' idx' l,
  indexed maps idx l → loadMaps PageSize d names maps idx = Some (maps', idx') → indexed maps' idx' (l ++ (names ≫= itemsOf PageSize d)).
Proof using Hsz.
  intros Hd. induction names as [|m names IH]; intros maps idx maps' idx' l Hidx; cbn [loadMaps].
  { intros [= <- <-]. by rewrite app_nil_r. }
  destruct (d !! m ≫= ReadPagemap) as [pm|] eqn:Em; [|done]. destruct (d !! PagesFile pm) as [data|] eqn:Ep; [|done].
  destruct (indexEntries _ _ _ _ _ _) as [idx1|] eqn:Ei; [|done]. intros H.
  destruct (indexEntries_spec maps data (Entries pm) (Hd _ _ Ep) 0 idx idx1 l) as (l1 & rest & Hv & Hi); [lia|by apply indexed_more|done|].
  specialize (IH _ _ _ _ _ Hi H). rewrite bind_cons, app_assoc. replace (itemsOf PageSize d m) with l1; [done|].
  unfold itemsOf, says. rewrite Em, Ep. change (N.to_nat 0) with 0%nat in Hv. rewrite drop_0 in Hv. by rewrite Hv.
Qed.

(** A loaded parent has the pages of its checkpoint: one at every address the
    checkpoint has a page at, and nothing else. *)
Lemma LoadParent_exact sha256 d p : (∀ f b, d !! f = Some b → N.of_nat (length b) < 2 ^ 63)%N → LoadParent PageSize sha256 d = Some p →
  (∀ va pg, page PageSize p va = Some pg → ∃ f, IPage va f pg ∈ allItems PageSize d) ∧
  (∀ va f pg, IPage va f pg ∈ allItems PageSize d → is_Some (page PageSize p va)).
Proof using Hsz.
  intros Hd. unfold LoadParent, allItems. destruct (FindPagemaps d) as [|m ns]; [done|].
  destruct (loadMaps PageSize d (m :: ns) [] ∅) as [[maps idx]|] eqn:E; [|done]. intros [= <-].
  assert (indexed [] ∅ []) as H0.
  { split; [by intros va r Hl; rewrite lookup_empty in Hl|]. intros va f pg Hin. by apply not_elem_of_nil in Hin. }
  destruct (loadMaps_spec d Hd _ _ _ _ _ _ H0 E) as [H1 H2]. rewrite app_nil_l in H1, H2. unfold page. simpl pa_index. simpl pa_maps. split.
  - intros va pg. destruct (idx !! va) as [r|] eqn:Er; [|done]. destruct (H1 va r Er) as (b & f & -> & Hin). intros [= <-]. by exists f.
  - intros va f pg Hin. destruct (H2 va f pg Hin) as [r Hr]. rewrite Hr. destruct (H1 va r Hr) as (b & f' & -> & _). done.
Qed.
End parents.

(** C16: A checkpoint survives its delta.  Where the files can be written,
    ComputeDelta replaces the full checkpoint of a directory by a delta that
    holds exactly the pages the parent does not have, and counts them; MergeDelta
    with the same parent then gives every task back the pages, addresses, flags
    and holes it had, removes delta.json and touches no other file.  The JSON of
    a DeltaInfo in ASCII reads back as it was written. *)
Theorem delta_round_trip PageSize p io d marshal unmarshal :
  (0 < PageSize)%N → asciiOnly (pa_sha p) = true → Checkpoint PageSize d →
  (∀ f, io_write io f = true ∧ io_rename io f = true) → io_remove io = true →
  (∀ i, asciiOnly (ParentSHA256 i) = true → Forall (λ f, asciiOnly f = true) (Files i) → unmarshal (marshal i) = Some i) →
  ∃ d1 info d2, ComputeDelta PageSize marshal io d p = (d1, Some info) ∧ MergeDelta PageSize unmarshal io d1 p = (d2, true) ∧
    TotalPages info = U64.wrap (pageCount (allItems PageSize d)) ∧
    KeptPages info = U64.wrap (N.of_nat (length (dirty PageSize p (allItems PageSize d)))) ∧
    (∀ m h id l, m ∈ FindPagemaps d → says PageSize d m = Some (h, id, l) → d1 !! pagesName id = Some (pagesOf (dirty PageSize p l))) ∧
    (∀ m, m ∈ FindPagemaps d → says PageSize d2 m = says PageSize d m) ∧ HasDelta d1 = true ∧ HasDelta d2 = false ∧
    (∀ f, isPagemap f = false → HasPrefix f "pages-" = false → f ≠ deltaFile → d1 !! f = d !! f ∧ d2 !! f = d !! f).
Proof.
  intros Hps Hsha Hck Hio Hrm Hjson.
  destruct (delta_files PageSize p Hps io d marshal Hio Hck) as (ims & d1 & info & HF & Hcd & Einfo & Hdf & Hims & Hother).
  destruct (merged_files PageSize p io d d1 ims (merge_sort str_le (FindPagemaps d)) Hio Hck HF (merge_sort_Permutation _ _) Hims)
    as (staged & Hmm & Hsays & Hother2).
  exists d1, info, (delete deltaFile (committed staged d1)). split; [done|]. split_and!.
  - unfold MergeDelta. rewrite Hdf. cbn [mbind option_bind]. rewrite Hjson.
    + rewrite Einfo. cbn [ParentSHA256 Files]. rewrite Hmm. rewrite commit_ok by (intros f; apply Hio). rewrite Hrm. by case_bool_decide.
    + by rewrite Einfo.
    + rewrite Einfo. cbn [Files]. apply Forall_forall. intros m. rewrite merge_sort_Permutation. apply (ck_ascii _ _ Hck).
  - by rewrite Einfo.
  - by rewrite Einfo.
  - intros m h id l Hm Hs. destruct (taken_in _ _ _ _ _ _ HF Hm) as (im & Him & Htk). rewrite (tk_says _ _ _ _ _ Htk) in Hs.
    injection Hs as _ <- <-. by apply (Hims im).
  - done.
  - unfold HasDelta. rewrite Hdf. by apply bool_decide_eq_true_2.
  - unfold HasDelta. rewrite lookup_delete_eq. apply bool_decide_eq_false_2. by intros [].
  - intros f H1 H2 H3. rewrite lookup_delete_ne by done. rewrite Hother2 by done. by rewrite Hother.
Qed.

(** ** A checkpoint of two tasks *)

(** A stand-in for the JSON of DeltaInfo that reads back. *)
#[export] Instance DeltaInfo_eq_dec : EqDecision DeltaInfo.
Proof. solve_decision. Defined.
#[export] Instance DeltaInfo_countable : Countable DeltaInfo.
Proof.
  refine (inj_countable' (λ i, (di_PageSize i, ParentSHA256 i, TotalPages i, KeptPages i, Files i))
    (λ '(a, b, c, d, e), mkInfo a b c d e) _). by intros [].
Defined.
Fixpoint bitBytes (n : positive) : bytes :=
  match n with xH => [] | xO n' => Byte.x00 :: bitBytes n' | xI n' => Byte.x01 :: bitBytes n' end.
Fixpoint bytesBits (b : bytes) : positive :=
  match b with [] => xH | Byte.x00 :: b' => xO (bytesBits b') | _ :: b' => xI (bytesBits b') end.
Definition demoMarshal (i : DeltaInfo) : bytes := bitBytes (encode i).
Definition demoUnmarshal (b : bytes) : option DeltaInfo := decode (bytesBits b).

Lemma demo_reads i : demoUnmarshal (demoMarshal i) = Some i.
Proof.
  unfold demoUnmarshal, demoMarshal. assert (∀ n, bytesBits (bitBytes n) = n) as -> by (induction n; simpl; congruence). apply decode_encode.
Qed.

Definition demoHeader : bytes := replicate 8 Byte.x2a.
Definition demoPages1 : bytes := [Byte.x01; Byte.x02; Byte.x03; Byte.x04; Byte.x05; Byte.x06].
Definition demoPages2 : bytes := [Byte.x01; Byte.x02].
Definition demoDir : Dir :=
  <["pagemap-7.img" := writePagemap (mkPagemap demoHeader 1 [mkEntry 4096 3 PEPresent; mkEntry 8192 2 0])]>
  (<["pages-1.img" := demoPages1]>
  (<["pagemap-9.img" := writePagemap (mkPagemap demoHeader 2 [mkEntry 4096 1 (PEPresent + PELazy)])]>
  (<["pages-2.img" := demoPages2]> (<["core-7.img" := demoPages2]> ∅)))).

(** The parent has the first task's first and last page. *)
Definition demoParentDir : Dir :=
  <["pagemap-1.img" := writePagemap (mkPagemap demoHeader 1 [mkEntry 4096 1 PEPresent; mkEntry 4100 1 PEPresent])]>
  (<["pages-1.img" := [Byte.x01; Byte.x02; Byte.x05; Byte.x06]]> ∅).
Definition demoParent : Parent := default (mkParent [] ∅ "") (LoadParent 2 (λ _, "ab12") demoParentDir).
Definition allIO : IO := mkIO (λ _, true) (λ _, true) true.

Lemma demo_names : FindPagemaps demoDir = ["pagemap-7.img"; "pagemap-9.img"].
Proof. vm_compute. reflexivity. Qed.

Lemma demo_checkpoint : Checkpoint 2 demoDir.
Proof.
  constructor; rewrite demo_names; [done|..].
  - intros m Hm. by repeat (apply elem_of_cons in Hm as [->|Hm]; [done|]); apply not_elem_of_nil in Hm.
  - intros m Hm. repeat (apply elem_of_cons in Hm as [->|Hm]; [eexists _, _, _, _; split_and!;
      [vm_compute; reflexivity|vm_compute; reflexivity|vm_compute; reflexivity|by repeat constructor|done|done]|]). by apply not_elem_of_nil in Hm.
  - intros m m' h h' id l l' H H' Hm Hm'.
    assert (id = if m ==? "pagemap-7.img" then 1%N else 2%N) as ->.
    { clear H' Hm'. repeat (apply elem_of_cons in Hm as [->|Hm]; [vm_compute in H; injection H as _ <- _; done|]). by apply not_elem_of_nil in Hm. }
    repeat (apply elem_of_cons in Hm' as [->|Hm']; [vm_compute in H'; injection H' as _ E _|]); [..|by apply not_elem_of_nil in Hm'];
      repeat (apply elem_of_cons in Hm as [->|Hm]; [done|]); by apply not_elem_of_nil in Hm.
Qed.

(** There and back: the delta has one page of the first task and none of the second. *)
Lemma delta_round_trip_witness :
  ∃ d1 info d2, ComputeDelta 2 demoMarshal allIO demoDir demoParent = (d1, Some info) ∧ MergeDelta 2 demoUnmarshal allIO d1 demoParent = (d2, true) ∧
    TotalPages info = 4%N ∧ KeptPages info = 1%N ∧ d1 !! "pages-1.img" = Some [Byte.x03; Byte.x04] ∧
    says 2 d2 "pagemap-7.img" = says 2 demoDir "pagemap-7.img" ∧ d2 !! "core-7.img" = demoDir !! "core-7.img".
Proof.
  destruct (delta_round_trip 2 demoParent allIO demoDir demoMarshal demoUnmarshal ltac:(lia) ltac:(vm_compute; reflexivity) demo_checkpoint
    (λ _, conj eq_refl eq_refl) eq_refl (λ i _ _, demo_reads i)) as (d1 & info & d2 & H1 & H2 & Ht & Hk & Hp & Hs & _ & _ & Ho).
  exists d1, info, d2. split; [exact H1|]. split; [exact H2|]. split; [rewrite Ht; vm_compute; reflexivity|]. split; [rewrite Hk; vm_compute; reflexivity|].
  split; [|split].
  - change "pages-1.img" with (pagesName 1). transitivity (Some (pagesOf (dirty 2 demoParent (itemsOf 2 demoDir "pagemap-7.img")))); [|vm_compute; reflexivity].
    exact (Hp "pagemap-7.img" demoHeader 1%N (itemsOf 2 demoDir "pagemap-7.img") ltac:(rewrite demo_names; by left) ltac:(vm_compute; reflexivity)).
  - apply Hs. rewrite demo_names. by left.
  - apply (Ho "core-7.img"); [vm_compute; reflexivity|vm_compute; reflexivity|done].
Defined.

(** A rename that fails midway: the pages file is already the delta's, the
    pagemap still the full one, and there is no delta.json; nothing reads the
    first task's memory any more. *)
Lemma failed_rename_loses_checkpoint :
  ∃ io d1, (∀ f, io_write io f = true) ∧ ComputeDelta 2 demoMarshal io demoDir demoParent = (d1, None) ∧
    is_Some (says 2 demoDir "pagemap-7.img") ∧ says 2 d1 "pagemap-7.img" = None ∧ HasDelta d1 = false.
Proof.
  exists (mkIO (λ _, true) (λ f, negb (f ==? "pagemap-7.img")) true),
    (ComputeDelta 2 demoMarshal (mkIO (λ _, true) (λ f, negb (f ==? "pagemap-7.img")) true) demoDir demoParent).1.
  split_and!; [done|vm_compute; reflexivity|eexists; vm_compute; reflexivity|vm_compute; reflexivity|vm_compute; reflexivity].
Qed.
