(* ===== verification/Registry.v ===== *)
(** * The file registry (pkg/artifact/fileregistry.go, sign.go's dirFiles, artifact.go's names)

    A repository is a directory of blobs, each a manifest and its files, and of
    tags.  Any number of processes push, resolve, pull and delete in it at once,
    so an operation is a program whose nodes are file-system calls; a call may
    fail ([Ask]), and a file is written, copied or renamed at once.  A blob's
    directory has its name under blobs/sha256: the hash, the staging directory
    of a push ([.push]) or what a delete moved aside ([.rm-]).  SHA-256 and JSON
    are parameters.  [r_log] is a ghost record of who put and took a name. *)

From Stdlib Require Import Ascii.
From S2P Require Import Prelude GoLib GoText Parity Seal Sign Threads.
From stdpp Require Import options.

(** ** Paths *)

Fixpoint Contains (s sub : string) : bool := HasPrefix s sub || match s with "" => false | String _ s' => Contains s' sub end.
Fixpoint joinSlash (l : list string) : string :=
  match l with [] => "" | [x] => x | x :: l' => x +:+ "/" +:+ joinSlash l' end.
(** [filepath.Clean] of an absolute path, and [filepath.Join]. *)
Definition cleanComp (acc : list string) (c : string) : list string :=
  if (c ==? "") || (c ==? ".") then acc else if c ==? ".." then tail acc else c :: acc.
Definition Clean (s : string) : string := "/" +:+ joinSlash (rev (foldl cleanComp [] (Split "/" s))).
Definition Join (l : list string) : string := Clean (joinSlash (filter (λ c, c ≠ "") l)).

Definition FileScheme : string := "file://".
(** [func IsFileRef(ref string) bool] *)
Definition IsFileRef (ref : string) : bool := HasPrefix ref FileScheme.

(** [func fileRef(ref string) (repoDir, target string, err error)] *)
Definition fileRef (ref : string) : option (string * string) :=
  let name := TrimPrefix ref FileScheme in
  let '(name, target) :=
    match Cut "@" name with
    | Some (a, b) => (a, b)
    | None =>
        match LastIndexByte name ":" with
        | Some i =>
            if negb (contains_char "/" (str_drop (S i) name)) && contains_char "/" (str_take i name)
            then (str_take i name, str_drop (S i) name) else (name, "")
        | None => (name, "")
        end
    end in
  if (name ==? "") || negb (HasPrefix name "/") then None
  else if contains_char "/" target || Contains target ".." then None
  else Some (Clean name, target).

(** [func blobDir(repoDir, digest string) string], [func tagFile(repoDir, tag string) string] *)
Definition blobKey (digest : string) : string := TrimPrefix digest "sha256:".
Definition blobDir (repoDir digest : string) : string := Join [repoDir; "blobs"; "sha256"; blobKey digest].
Definition tagFile (repoDir tag : string) : string := Join [repoDir; "tags"; tag].

(** [func checkEntryName(name string) error]: a name of plain characters has no
    directory part. *)
Definition plainChar (c : ascii) : bool :=
  in_range "a" "z" c || in_range "A" "Z" c || in_range "0" "9" c || (c ==? ".")%char || (c ==? "_")%char || (c ==? "-")%char.
Definition checkEntryName (name : string) : bool :=
  negb ((name ==? "") || (name ==? ".") || (name ==? "..")) && (String.length name <=? 255)%nat && all_chars plainChar name.

(** ** Manifests *)

Record fileEntry := mkFileEntry { fe_Name : string; fe_SHA256 : string; fe_Size : Z }.
Record storedManifest := mkStored { sm_Type : string; sm_Ann : annotations; sm_Files : list fileEntry }.
#[export] Instance fileEntry_eq_dec : EqDecision fileEntry. Proof. solve_decision. Defined.
#[export] Instance storedManifest_eq_dec : EqDecision storedManifest. Proof. solve_decision. Defined.

(** [func (m storedManifest) files() []File] *)
Definition filesOf (m : storedManifest) : list File :=
  (λ f, mkFile (fe_Name f) ("sha256:" +:+ fe_SHA256 f) (fe_Size f)) <$> sm_Files m.

(** ** The repository *)

(** A planted link or device is no regular file. *)
Inductive node := Regular (content : string) | NotRegular.
Record Blob := mkBlob { b_manifest : option string; b_files : gmap string node }.
Inductive event := Placed (target : string) | Took (target : string) | Told (target : string).
#[export] Instance event_eq_dec : EqDecision event. Proof. solve_decision. Defined.
Record Repo := mkRepo { r_blobs : gmap string Blob; r_tags : gmap string string; r_next : N; r_log : list event }.

Inductive fcall := FStat | FRead | FReadDir | FMkdir | FMkdirTemp | FCopy | FWrite | FRename | FRemove | FRemoveAll | FPart | FSum.
Inductive ferr := ENOENT | EIO.
Inductive regError := FsError | NotFound | BadEntryName | BadSignerKey | WrongHash | BadJSON | WrongFile.

Local Notation M := (prog Repo fcall).
Definition isDigest (target : string) : bool := HasPrefix target "sha256:".
Definition digestOf (key : string) : string := "sha256:" +:+ key.

Definition setBlobs (b : gmap string Blob) (s : Repo) : Repo := mkRepo b (r_tags s) (r_next s) (r_log s).
Definition setTags (t : gmap string string) (s : Repo) : Repo := mkRepo (r_blobs s) t (r_next s) (r_log s).
Definition logR (e : event) (s : Repo) : Repo := mkRepo (r_blobs s) (r_tags s) (r_next s) (r_log s ++ [e]).

(** A call that may fail for a reason of its own. *)
Definition call {A} (c : fcall) (f : St Repo (A + ferr)) : M (A + ferr) :=
  Ask c (λ ok, if ok then hold f else Ret (inr EIO)).

Definition statManifest (key : string) : M (unit + ferr) :=
  call FStat (gets (λ s, match r_blobs s !! key with Some (mkBlob (Some _) _) => inl tt | _ => inr ENOENT end)).
Definition readManifest (key : string) : M (string + ferr) :=
  call FRead (gets (λ s, match r_blobs s !! key with Some (mkBlob (Some m) _) => inl m | _ => inr ENOENT end)).
Definition readBlob (key name : string) : M (string + ferr) :=
  call FCopy (gets (λ s, match r_blobs s !! key ≫= λ b, b_files b !! name with
    | Some (Regular c) => inl c | Some NotRegular => inr EIO | None => inr ENOENT end)).
(** The tags directory itself is no tag. *)
Definition noTag (tag : string) : bool := (tag ==? "") || (tag ==? ".").
Definition readTag (tag : string) : M (string + ferr) :=
  call FRead (gets (λ s, if noTag tag then inr EIO else match r_tags s !! tag with Some b => inl b | None => inr ENOENT end)).
Definition listTags : M (list string + ferr) := call FReadDir (gets (λ s, inl (merge_sort String.le (elements (dom (r_tags s)))))).

(** os.MkdirAll of a staging directory, with its files in it. *)
Definition mkdirBlob (key : string) : M (unit + ferr) :=
  call FMkdir (λ s, (inl tt, match r_blobs s !! key with
    | Some _ => s | None => logR (Placed (digestOf key)) (setBlobs (<[key := mkBlob None ∅]> (r_blobs s)) s) end)).
Definition copyIn (key name content : string) : M (unit + ferr) :=
  call FCopy (λ s, match r_blobs s !! key with
    | Some b => (inl tt, setBlobs (<[key := mkBlob (b_manifest b) (<[name := Regular content]> (b_files b))]> (r_blobs s)) s)
    | None => (inr ENOENT, s) end).
Definition writeManifest (key mb : string) : M (unit + ferr) :=
  call FWrite (λ s, match r_blobs s !! key with
    | Some b => (inl tt, setBlobs (<[key := mkBlob (Some mb) (b_files b)]> (r_blobs s)) s)
    | None => (inr ENOENT, s) end).
(** os.Rename of a blob's directory.  It looks at the new name first and answers
    EEXIST for a directory there, an empty one too, which rename(2) would take. *)
Definition renameBlob (tookIt : bool) (src dst : string) : M (unit + ferr) :=
  call FRename (λ s, match r_blobs s !! src, r_blobs s !! dst with
    | Some b, None =>
        let s := if tookIt then logR (Took (digestOf src)) s else s in
        (inl tt, logR (Placed (digestOf dst)) (setBlobs (<[dst := b]> (delete src (r_blobs s))) s))
    | Some _, Some _ => (inr EIO, s)
    | None, _ => (inr ENOENT, s) end).
(** os.RemoveAll: a failure may have taken the manifest and the files. *)
Definition removeAll (key : string) : M (unit + ferr) :=
  Ask FRemoveAll (λ ok,
    if ok then hold (λ s, (inl tt, setBlobs (delete key (r_blobs s)) s))
    else Ask FPart (λ part, if part then hold (λ s, (inr EIO, setBlobs (alter (λ _, mkBlob None ∅) key (r_blobs s)) s)) else Ret (inr EIO))).
Definition mkdirTemp : M (string + ferr) :=
  call FMkdirTemp (λ s, (inl (".rm-" +:+ FormatUint (r_next s)), mkRepo (r_blobs s) (r_tags s) (r_next s + 1) (r_log s))).
Definition mkdirOther : M (unit + ferr) := call FMkdir (λ s, (inl tt, s)).

Definition writeTag (tag content : string) : M (unit + ferr) :=
  call FWrite (λ s, (inl tt, logR (Placed tag) (setTags (<[tag := content]> (r_tags s)) s))).
Definition renameTag (src tag : string) : M (unit + ferr) :=
  call FRename (λ s, if noTag tag then (inr EIO, s)
    else match r_tags s !! src with
    | Some b => (inl tt, logR (Placed tag) (setTags (<[tag := b]> (delete src (r_tags s))) s))
    | None => (inr ENOENT, s) end).
(** os.Remove of a tag; a file there with the name of a digest is no target. *)
Definition removeTag (tag : string) : M (unit + ferr) :=
  call FRemove (λ s, if noTag tag then (inr EIO, s)
    else match r_tags s !! tag with
    | Some _ => (inl tt, (if isDigest tag then id else logR (Took tag)) (setTags (delete tag (r_tags s)) s))
    | None => (inr ENOENT, s) end).

(** ** Operations *)

Section registry.
Context `{SigningOps} (sha256 : string → string) (marshal : storedManifest → string) (unmarshal : string → option storedManifest).

(** [func resolveTarget(repoDir, target string) (string, bool, error)] *)
Definition resolveTarget (target : string) : M (option string + regError) :=
  if isDigest target then
    r ← statManifest (blobKey target);
    mret match r with inl _ => inl (Some target) | inr ENOENT => inl None | inr EIO => inr FsError end
  else
    r ← readTag target;
    match r with
    | inr ENOENT => mret (inl None)
    | inr EIO => mret (inr FsError)
    | inl b =>
        let d := TrimSpace b in
        r ← statManifest (blobKey d);
        mret (inl match r with inl _ => Some d | inr _ => None end)
    end.

(** [func pushable(e os.DirEntry) bool], [func pushableNames], [func dirFiles]:
    the files of a directory, all of them regular. *)
Definition pushable (name : string) : bool := negb (HasSuffix name ".log") && negb (HasSuffix name ".tmp").
Definition pushableNames (dir : gmap string string) : list string :=
  merge_sort String.le (filter (λ n, Is_true (pushable n)) (elements (dom dir))).
Definition contentOf (dir : gmap string string) (n : string) : string := default "" (dir !! n).
Definition dirFiles (dir : gmap string string) : list File :=
  (λ n, mkFile n ("sha256:" +:+ sha256 (contentOf dir n)) (Z.of_nat (String.length (contentOf dir n)))) <$> pushableNames dir.

(** The loops of filePushDir over the files: their entries, their copies. *)
Definition entriesOf (files : list File) : list fileEntry :=
  (λ f, mkFileEntry (f_Name f) (TrimPrefix (f_Digest f) "sha256:") (f_Size f)) <$> files.
Fixpoint copyAll (key : string) (dir : gmap string string) (files : list fileEntry) : M (unit + ferr) :=
  match files with
  | [] => mret (inl tt)
  | f :: files' =>
      r ← copyIn key (fe_Name f) (contentOf dir (fe_Name f));
      match r with inl _ => copyAll key dir files' | inr e => mret (inr e) end
  end.

(** New content: staged, then renamed into place. *)
Definition pushBlob (key : string) (mb : string) (dir : gmap string string) (files : list fileEntry) : M (option regError) :=
  let tmp := key +:+ ".push" in
  removeAll tmp ≫= λ _,
  r ← mkdirBlob tmp;
  match r with
  | inr _ => mret (Some FsError)
  | inl _ =>
      r ← copyAll tmp dir files;
      match r with
      | inr _ => removeAll tmp ≫= λ _, mret (Some FsError)
      | inl _ =>
          r ← writeManifest tmp mb;
          match r with
          | inr _ => removeAll tmp ≫= λ _, mret (Some FsError)
          | inl _ =>
              r ← mkdirOther;
              match r with
              | inr _ => mret (Some FsError)
              | inl _ =>
                  r ← renameBlob false tmp key;
                  match r with
                  | inl _ => mret None
                  | inr _ =>
                      removeAll tmp ≫= λ _,
                      again ← statManifest key;
                      mret match again with inl _ => None | inr _ => Some FsError end
                  end
              end
          end
      end
  end.

(** The tag, written beside itself and renamed. *)
Definition pushTag (tag digest : string) : M (option regError) :=
  if (tag ==? "") || isDigest tag then mret None
  else
    r ← mkdirOther;
    match r with
    | inr _ => mret (Some FsError)
    | inl _ =>
        r ← writeTag (tag +:+ ".tmp") (digest +:+ String (byte 10) "");
        match r with
        | inr _ => mret (Some FsError)
        | inl _ => r ← renameTag (tag +:+ ".tmp") tag; mret match r with inl _ => None | inr _ => Some FsError end
        end
    end.

(** [func filePushDir(dir, ref, artifactType, annotations, signer) (string, error)]:
    the manifest first, then the calls. *)
Definition manifestFor (dir : gmap string string) (t : string) (ann : annotations) (signer : option edKey) : storedManifest + regError :=
  match signed signer t ann (dirFiles dir) with
  | inr _ => inr BadSignerKey
  | inl ann => if forallb (λ f, checkEntryName (f_Name f)) (dirFiles dir) then inl (mkStored t ann (entriesOf (dirFiles dir))) else inr BadEntryName
  end.
Definition filePushDir (dir : gmap string string) (tag t : string) (ann : annotations) (signer : option edKey) : M (string + regError) :=
  match manifestFor dir t ann signer with
  | inr e => mret (inr e)
  | inl m =>
      let mb := marshal m in
      let digest := digestOf (sha256 mb) in
      r ← statManifest (blobKey digest);
      r ← match r with inl _ => mret None | inr _ => pushBlob (blobKey digest) mb dir (sm_Files m) end;
      match r with
      | Some e => mret (inr e)
      | None => r ← pushTag tag digest; mret match r with None => inl digest | Some e => inr e end
      end
  end.

(** [func readFileManifest(repoDir, digest string) (storedManifest, error)] *)
Definition readFileManifest (digest : string) : M (storedManifest + regError) :=
  r ← readManifest (blobKey digest);
  mret match r with
  | inr _ => inr FsError
  | inl b =>
      if digestOf (sha256 b) <>? digest then inr WrongHash
      else match unmarshal b with
           | None => inr BadJSON
           | Some m => if forallb (λ f, checkEntryName (fe_Name f)) (sm_Files m) then inl m else inr BadEntryName
           end
  end.

(** [func fileResolve(ref string) (Located, bool, error)] *)
Definition fileResolve (target : string) : M (option Located + regError) :=
  r ← resolveTarget target;
  match r with
  | inr e => mret (inr e)
  | inl None => mret (inl None)
  | inl (Some digest) =>
      r ← readFileManifest digest;
      mret match r with
      | inr e => inr e
      | inl m => inl (Some (mkLocated digest (sm_Type m) (sm_Ann m) (filesOf m)))
      end
  end.

(** The loop of filePullDir: a file that does not match is removed again. *)
Fixpoint pullFiles (key : string) (files : list fileEntry) (dst : gmap string string) : M (gmap string string * option regError) :=
  match files with
  | [] => mret (dst, None)
  | f :: files' =>
      r ← readBlob key (fe_Name f);
      match r with
      | inr _ => mret (dst, Some FsError)
      | inl c =>
          let dst := <[fe_Name f := c]> dst in
          summed ← ask FSum;
          if (summed : bool) && (sha256 c ==? fe_SHA256 f) then pullFiles key files' dst
          else mret (delete (fe_Name f) dst, Some WrongFile)
      end
  end.

(** [func filePullDir(ref, dst string) (string, error)], and what it leaves in dst. *)
Definition filePullDir (target : string) (dst : gmap string string) : M (gmap string string * (string + regError)) :=
  r ← resolveTarget target;
  match r with
  | inr e => mret (dst, inr e)
  | inl None => mret (dst, inr NotFound)
  | inl (Some digest) =>
      r ← readFileManifest digest;
      match r with
      | inr e => mret (dst, inr e)
      | inl m =>
          r ← mkdirOther;
          match r with
          | inr _ => mret (dst, inr FsError)
          | inl _ => r ← pullFiles (blobKey digest) (sm_Files m) dst; mret (r.1, match r.2 with None => inl digest | Some e => inr e end)
          end
      end
  end.

(** The scan of fileDelete over the tags: whether another tag keeps the content.
    A delete by digest removes the tags on it. *)
Fixpoint scanTags (byDigest : bool) (digest : string) (tags : list string) : M bool :=
  match tags with
  | [] => mret false
  | t :: tags' =>
      r ← readTag t;
      match r with
      | inl b =>
          if TrimSpace b ==? digest then
            if byDigest then removeTag t ≫= λ _, scanTags byDigest digest tags' else mret true
          else scanTags byDigest digest tags'
      | inr _ => scanTags byDigest digest tags'
      end
  end.

(** [func fileDelete(ref string) (bool, error)]: removed, and whether it failed. *)
Definition dropContent (byDigest : bool) (digest key : string) : M (bool * bool) :=
  r ← listTags;
  kept ← scanTags byDigest digest match r with inl l => l | inr _ => [] end;
  if (kept : bool) then mret (true, false)
  else r ← removeAll key; mret (true, match r with inl _ => false | inr _ => true end).
Definition fileDelete (target : string) : M (bool * bool) :=
  r ← resolveTarget target;
  match r with
  | inr _ => mret (false, true)
  | inl None => mret (false, false)
  | inl (Some digest) =>
      if isDigest target then
        r ← mkdirTemp;
        match r with
        | inr _ => mret (false, true)
        | inl tmp =>
            r ← renameBlob true (blobKey digest) tmp;
            match r with
            | inr ENOENT => mret (false, false)
            | inr EIO => mret (false, true)
            | inl _ => dropContent true digest tmp
            end
        end
      else
        r ← removeTag target;
        match r with
        | inr ENOENT => mret (false, false)
        | inr EIO => mret (false, true)
        | inl _ => dropContent false digest (blobKey digest)
        end
  end.

(** What the processes that share a repository do in it. *)
Inductive job :=
| JPush (dir : gmap string string) (tag t : string) (ann : annotations) (signer : option edKey)
| JDelete (target : string) | JResolve (target : string) | JPull (target : string).
Definition body (j : job) : M unit :=
  match j with
  | JPush dir tag t ann signer => filePushDir dir tag t ann signer ≫= λ _, mret tt
  | JDelete target => r ← fileDelete target; if (r.1 : bool) then hold (modify (logR (Told target))) else mret tt
  | JResolve target => fileResolve target ≫= λ _, mret tt
  | JPull target => filePullDir target ∅ ≫= λ _, mret tt
  end.
End registry.

(** ** What a pull gives *)

(** What files leave in a directory. *)
Definition putAll (fs : list (string * string)) (dst : gmap string string) : gmap string string := foldl (λ d fc, <[fc.1 := fc.2]> d) dst fs.

Lemma putAll_out fs dst n : n ∉ fs.*1 → putAll fs dst !! n = dst !! n.
Proof.
  revert dst. induction fs as [|[m d] fs IH]; intros dst; simpl; [done|]. intros [Hne Hn]%not_elem_of_cons.
  unfold putAll in *. simpl. rewrite IH by done. by rewrite lookup_insert_ne.
Qed.
Lemma putAll_in fs dst n c : NoDup fs.*1 → (n, c) ∈ fs → putAll fs dst !! n = Some c.
Proof.
  revert dst. induction fs as [|[m d] fs IH]; intros dst; simpl; [by intros _ ?%not_elem_of_nil|].
  intros [Hm Hnd]%NoDup_cons [[= -> ->]|Hin]%elem_of_cons; [|by apply IH].
  change (putAll fs (<[m:=d]> dst) !! m = Some d). rewrite putAll_out by done. by rewrite lookup_insert_eq.
Qed.

Section pulls.
Context `{SigningOps} (sha256 : string → string) (marshal : storedManifest → string) (unmarshal : string → option storedManifest).

Lemma readFileManifest_yields digest :
  yields (readFileManifest sha256 unmarshal digest) (λ r, ∀ m, r = inl m → ∃ mb, unmarshal mb = Some m ∧ digestOf (sha256 mb) = digest).
Proof.
  apply yields_bind. intros [b|e]; simpl; [|done]. intros m. case_bool_decide as Hd; simpl; [|done].
  destruct (unmarshal b) as [m'|] eqn:Eu; [|done]. case_match; [|done]. intros [= <-]. exists b. done.
Qed.

Lemma pullFiles_yields key files : ∀ dst, yields (pullFiles sha256 key files dst) (λ r, r.2 = None →
  ∃ cs, Forall2 (λ f c, sha256 c = fe_SHA256 f) files cs ∧ r.1 = putAll (zip (fe_Name <$> files) cs) dst).
Proof.
  induction files as [|f files IH]; intros dst; cbn [pullFiles]; [intros _; exists []; done|].
  apply yields_bind. intros [c|e]; [|done]. cbv zeta. apply yields_bind. intros b. destruct b; [|done]. case_bool_decide as Hs; [|done].
  eapply yields_mono; [|apply IH]. intros r Hr Hn. destruct (Hr Hn) as (cs & HF & Er). exists (c :: cs). split; [by constructor|done].
Qed.

(** A pull that says where it pulled from wrote what that digest names. *)
Lemma filePullDir_yields target dst : yields (filePullDir sha256 unmarshal target dst) (λ r, ∀ digest, r.2 = inl digest →
  ∃ mb m cs, digestOf (sha256 mb) = digest ∧ unmarshal mb = Some m ∧ Forall2 (λ f c, sha256 c = fe_SHA256 f) (sm_Files m) cs ∧
    r.1 = putAll (zip (fe_Name <$> sm_Files m) cs) dst).
Proof.
  apply yields_bind. intros [[d|]|e]; [|done..]. eapply yields_bind'; [apply readFileManifest_yields|]. intros [m|e] Hm; [|done].
  destruct (Hm m eq_refl) as (mb & Hu & Hd). apply yields_bind. intros [u|e]; [|done].
  eapply yields_bind'; [apply pullFiles_yields|]. intros [dst' [e|]] Hp; [done|]. intros digest [= <-].
  destruct (Hp eq_refl) as (cs & HF & Er). exists mb, m, cs. done.
Qed.

(** What a push says it pushed. *)
Lemma filePushDir_yields dir tag t ann signer : yields (filePushDir sha256 marshal dir tag t ann signer) (λ r, ∀ digest, r = inl digest →
  ∃ m, manifestFor sha256 dir t ann signer = inl m ∧ digest = digestOf (sha256 (marshal m))).
Proof.
  unfold filePushDir. destruct (manifestFor sha256 dir t ann signer) as [m|e]; [|done]. apply yields_bind. intros r.
  apply yields_bind. intros [e|]; [done|]. apply yields_bind. intros [e|]; [done|]. intros digest [= <-]. by exists m.
Qed.

Lemma digestOf_inj a b : digestOf a = digestOf b → a = b.
Proof. apply str_app_inj_r. Qed.
Lemma TrimPrefix_digest k : TrimPrefix ("sha256:" +:+ k) "sha256:" = k.
Proof. unfold TrimPrefix. assert (HasPrefix ("sha256:" +:+ k) "sha256:" = true) as -> by (by destruct k). apply (str_drop_app_eq 7 "sha256:" k). done. Qed.

Lemma pushableNames_NoDup dir : NoDup (pushableNames dir).
Proof. unfold pushableNames. rewrite merge_sort_Permutation. apply NoDup_filter, NoDup_elements. Qed.
Lemma pushableNames_elem dir n : n ∈ pushableNames dir ↔ pushable n = true ∧ is_Some (dir !! n).
Proof.
  unfold pushableNames. rewrite merge_sort_Permutation, list_elem_of_filter, elem_of_elements, elem_of_dom. by rewrite Is_true_true.
Qed.

(** The entries of a pushed manifest are the directory's. *)
Lemma manifestFor_files dir t ann signer m : manifestFor sha256 dir t ann signer = inl m →
  sm_Files m = (λ n, mkFileEntry n (sha256 (contentOf dir n)) (Z.of_nat (String.length (contentOf dir n)))) <$> pushableNames dir.
Proof.
  unfold manifestFor. destruct (signed signer t ann (dirFiles sha256 dir)); [|done]. case_match; [|done]. intros [= <-]. simpl.
  unfold entriesOf, dirFiles. rewrite <-list_fmap_compose. apply list_fmap_ext. intros i n _. simpl. by rewrite TrimPrefix_digest.
Qed.
Definition pushed (dir : gmap string string) : gmap string string := filter (λ nc, pushable nc.1 = true) dir.

Lemma putAll_pushed dir dst : putAll (zip (pushableNames dir) (contentOf dir <$> pushableNames dir)) dst = pushed dir ∪ dst.
Proof.
  assert (∀ l : list string, zip l (contentOf dir <$> l) = (λ n, (n, contentOf dir n)) <$> l) as -> by (induction l as [|x l IH]; [done|]; cbn; f_equal; exact IH).
  assert (∀ l : list string, ((λ n, (n, contentOf dir n)) <$> l).*1 = l) as Hfst by (induction l as [|x l IH]; [done|]; cbn; f_equal; exact IH).
  apply map_eq. intros n. destruct (decide (n ∈ pushableNames dir)) as [Hn|Hn].
  - rewrite (putAll_in _ _ n (contentOf dir n)); [|rewrite Hfst; apply pushableNames_NoDup|apply list_elem_of_fmap; eauto].
    apply pushableNames_elem in Hn as [Hp [c Hc]]. unfold contentOf. rewrite Hc. symmetry. apply lookup_union_Some_l.
    apply map_lookup_filter_Some. done.
  - rewrite putAll_out by (by rewrite Hfst). symmetry. apply lookup_union_r. apply map_lookup_filter_None.
    destruct (dir !! n) as [c|] eqn:Hc; [|by left]. right. intros x Hx Hp. simpl in Hp. apply Hn. apply pushableNames_elem. eauto.
Qed.
End pulls.

(** ** Who takes a name *)

Definition times (e : event) (l : list event) : nat := length (filter (λ x, x = e) l).
Definition there (s : Repo) (target : string) : nat :=
  if isDigest target then (if r_blobs s !! blobKey target then 1 else 0)%nat else (if r_tags s !! target then 1 else 0)%nat.

(** A token is a name a delete has taken and not answered for yet. *)
Record RInv (s0 s : Repo) (U : list string) : Prop := {
  ri_told : ∀ t, (times (Told t) (r_log s) + length (filter (λ x, x = t) U) ≤ times (Took t) (r_log s))%nat;
  ri_took : ∀ t, (times (Took t) (r_log s) + there s t ≤ times (Placed t) (r_log s) + there s0 t)%nat;
}.
Definition rle (_ _ : Repo) : Prop := True.
#[export] Instance rle_pre : PreOrder rle.
Proof. by split. Qed.
#[export] Instance RInv_proper s0 s : Proper ((≡ₚ) ==> impl) (RInv s0 s).
Proof. intros U U' HU [H1 H2]. constructor; [|done]. intros t. specialize (H1 t). by rewrite <-HU. Qed.

Lemma times_snoc e l x : times e (l ++ [x]) = (times e l + (if decide (x = e) then 1 else 0))%nat.
Proof. unfold times. rewrite filter_app, length_app. f_equal. rewrite filter_cons. by case_decide. Qed.

Lemma digest_is k : isDigest (digestOf k) = true.
Proof. apply HasPrefix_app. Qed.
Lemma blobKey_digest k : blobKey (digestOf k) = k.
Proof. apply TrimPrefix_digest. Qed.
Lemma digest_key t : isDigest t = true → digestOf (blobKey t) = t.
Proof. intros Ht. rewrite (prefix_split _ _ Ht) at 2. unfold blobKey, TrimPrefix. unfold isDigest in Ht. by rewrite Ht. Qed.

(** The moves of a repository: nothing new, a name put, a name taken. *)
Definition fewer (P : string → Prop) (s s' : Repo) : Prop := ∀ t, P t → (there s' t ≤ there s t)%nat.
Definition moved (s s' : Repo) : Prop := r_log s' = r_log s ∧ fewer (λ _, True) s s'.
Definition placed (x : string) (s s' : Repo) : Prop := r_log s' = r_log s ++ [Placed x] ∧ fewer (λ t, t ≠ x) s s'.
Definition took (x : string) (s s' : Repo) : Prop :=
  r_log s' = r_log s ++ [Took x] ∧ there s x = 1%nat ∧ there s' x = 0%nat ∧ fewer (λ t, t ≠ x) s s'.

Lemma there_le s t : (there s t ≤ 1)%nat.
Proof. unfold there. repeat case_match; lia. Qed.

Lemma moved_ok s0 s s' U : moved s s' → RInv s0 s U → RInv s0 s' U.
Proof. intros [El Hf] [H1 H2]. constructor; rewrite El; [done|]. intros t. specialize (H2 t). specialize (Hf t I). lia. Qed.
Lemma placed_ok x s0 s s' U : placed x s s' → RInv s0 s U → RInv s0 s' U.
Proof.
  intros [El Hf] [H1 H2]. constructor; rewrite El; intros t; rewrite !times_snoc, ?(decide_False (P := Placed x = Told t)), ?(decide_False (P := Placed x = Took t)) by done.
  - specialize (H1 t). lia.
  - specialize (H2 t). pose proof (there_le s' t). case_decide as E; [lia|]. assert (t ≠ x) as Hne by congruence. specialize (Hf t Hne). lia.
Qed.
Lemma took_ok (mine : bool) x s0 s s' U : took x s s' → RInv s0 s U → RInv s0 s' (if mine then x :: U else U).
Proof.
  intros (El & E1 & E0 & Hf) [H1 H2]. constructor; rewrite El; intros t; rewrite !times_snoc, ?(decide_False (P := Took x = Told t)), ?(decide_False (P := Took x = Placed t)) by done.
  - specialize (H1 t). destruct mine; [rewrite filter_cons|]; repeat case_decide; simpl; try congruence; lia.
  - specialize (H2 t). case_decide as E; [injection E as ->; lia|]. assert (t ≠ x) as Hne by congruence. specialize (Hf t Hne). lia.
Qed.

Lemma fewer_blobs (P : string → Prop) s s' : r_tags s' = r_tags s →
  (∀ k, P (digestOf k) → is_Some (r_blobs s' !! k) → is_Some (r_blobs s !! k)) → fewer P s s'.
Proof.
  intros Et Hb t HP. unfold there. rewrite Et. destruct (isDigest t) eqn:Ed; [|done]. rewrite <-(digest_key t Ed) in HP.
  destruct (r_blobs s' !! blobKey t) eqn:E'; [|lia]. destruct (Hb _ HP) as [? Hb']; [eauto|]. by rewrite Hb'.
Qed.
Lemma fewer_tags (P : string → Prop) s s' : r_blobs s' = r_blobs s →
  (∀ t, P t → is_Some (r_tags s' !! t) → is_Some (r_tags s !! t)) → fewer P s s'.
Proof.
  intros Eb Ht t HP. unfold there. rewrite Eb. destruct (isDigest t) eqn:Ed; [done|].
  destruct (r_tags s' !! t) eqn:E'; [|lia]. destruct (Ht t HP) as [? Hb]; [eauto|]. by rewrite Hb.
Qed.

Lemma blobs_moved s b : (∀ k, is_Some (b !! k) → is_Some (r_blobs s !! k)) → moved s (setBlobs b s).
Proof. intros Hb. split; [done|]. apply fewer_blobs; [done|]. intros k _. apply Hb. Qed.
Lemma blob_placed s k b : placed (digestOf k) s (logR (Placed (digestOf k)) (setBlobs (<[k := b]> (r_blobs s)) s)).
Proof.
  split; [done|]. apply fewer_blobs; [done|]. intros k' Hne. simpl. intros [E|[_ H]]%lookup_insert_is_Some; [by subst|done].
Qed.
Lemma blob_took s k b : r_blobs s !! k = Some b → took (digestOf k) s (logR (Took (digestOf k)) (setBlobs (delete k (r_blobs s)) s)).
Proof.
  intros Hk. unfold took, there. rewrite digest_is, blobKey_digest. simpl. rewrite Hk, lookup_delete_eq. split_and!; try done.
  apply fewer_blobs; [done|]. intros k' _. simpl. intros [x [_ Hx]%lookup_delete_Some]. eauto.
Qed.
Lemma tag_placed s t b : placed t s (logR (Placed t) (setTags (<[t := b]> (r_tags s)) s)).
Proof. split; [done|]. apply fewer_tags; [done|]. intros t' Hne. simpl. intros [E|[_ H]]%lookup_insert_is_Some; [by subst|done]. Qed.
Lemma tag_took s t b : isDigest t = false → r_tags s !! t = Some b → took t s (logR (Took t) (setTags (delete t (r_tags s)) s)).
Proof.
  intros Hd Ht. unfold took, there. rewrite Hd. simpl. rewrite Ht, lookup_delete_eq. split_and!; try done.
  apply fewer_tags; [done|]. intros t' _. simpl. intros [x [_ Hx]%lookup_delete_Some]. eauto.
Qed.

(** ** Programs that take no name *)

Local Notation rwp := (wp (λ _ : string, tt) (λ _ : unit, False)).

Definition still_step (f : Repo → Repo) : Prop := ∀ s0 s U, RInv s0 s U → RInv s0 (f s) U.
Definition still {R} (p : M R) : Prop := ∀ s0 O s1, rwp (RInv s0) rle p (λ _ O' _, O' = O) O s1.

Lemma still_bind {A R} (p : M A) (k : A → M R) : still p → (∀ a, still (k a)) → still (p ≫= k).
Proof. intros Hp Hk s0 O s1. apply wp_bind. eapply wp_mono; [|apply Hp]. simpl. intros r O' s' ->. apply Hk. Qed.
Lemma still_then {A R} (p : M A) (k : A → M R) Q s0 O s1 :
  still p → (∀ a s, rwp (RInv s0) rle (k a) Q O s) → rwp (RInv s0) rle (p ≫= k) Q O s1.
Proof. intros Hp Hk. apply wp_bind. eapply wp_mono; [|apply Hp]. simpl. intros r O' s' ->. apply Hk. Qed.
Lemma still_ret {R} (r : R) : still (mret r).
Proof. by intros s0 O s1. Qed.
Lemma still_hold {A} (f : St Repo A) : still_step (λ s, (f s).2) → still (hold f).
Proof. intros Hf s0 O s1. simpl. intros s F _ HI. exists O. split_and!; [by apply Hf|done|by intros t _ []|done]. Qed.
Lemma still_call {A} c (f : St Repo (A + ferr)) : still_step (λ s, (f s).2) → still (call c f).
Proof. intros Hf s0 O s1 [|]; [by apply still_hold|done]. Qed.
Lemma still_gets {A} c (f : Repo → A + ferr) : still (call c (gets f)).
Proof. apply still_call. by intros s0 s U. Qed.
Lemma still_removeAll key : still (removeAll key).
Proof.
  intros s0 O s1 [|]; simpl.
  - apply (still_hold (A := unit + ferr) (λ s, (inl tt, setBlobs (delete key (r_blobs s)) s))). intros s2 s U. apply moved_ok, blobs_moved.
    intros k [x [_ Hx]%lookup_delete_Some]. eauto.
  - intros [|]; [|done]. apply (still_hold (A := unit + ferr) (λ s, (inr EIO, setBlobs (alter (λ _, mkBlob None ∅) key (r_blobs s)) s))).
    intros s2 s U. apply moved_ok, blobs_moved. intros k. by rewrite lookup_alter_is_Some.
Qed.
Lemma still_mkdirBlob key : still (mkdirBlob key).
Proof. apply still_call. intros s0 s U HI. simpl. case_match; [done|]. eapply placed_ok, HI. apply blob_placed. Qed.
Lemma still_update key (g : Blob → Blob) c : still (call c (λ s, match r_blobs s !! key with
    | Some b => (inl tt, setBlobs (<[key := g b]> (r_blobs s)) s) | None => (inr ENOENT, s) end)).
Proof.
  apply still_call. intros s0 s U HI. case_match eqn:Hk; [|done]. simpl. eapply moved_ok, HI. apply blobs_moved.
  intros k [<-|[_ H']]%lookup_insert_is_Some; [by rewrite Hk|done].
Qed.
Lemma still_copyIn key name c : still (copyIn key name c).
Proof. apply (still_update key (λ b, mkBlob (b_manifest b) (<[name := Regular c]> (b_files b)))). Qed.
Lemma still_writeManifest key mb : still (writeManifest key mb).
Proof. apply (still_update key (λ b, mkBlob (Some mb) (b_files b))). Qed.
Lemma still_renameBlob src dst : still (renameBlob false src dst).
Proof.
  apply still_call. intros s0 s U HI. simpl. destruct (r_blobs s !! src) as [b|] eqn:Es; [|done]. destruct (r_blobs s !! dst) eqn:Ed; [done|]. simpl.
  apply (moved_ok _ _ (setBlobs (delete src (r_blobs s)) s)) in HI; [|apply blobs_moved; intros k [x [_ Hx]%lookup_delete_Some]; eauto].
  exact (placed_ok _ _ _ _ _ (blob_placed (setBlobs (delete src (r_blobs s)) s) dst b) HI).
Qed.
Lemma still_writeTag t c : still (writeTag t c).
Proof. apply still_call. intros s0 s U. exact (placed_ok _ _ _ _ _ (tag_placed s t c)). Qed.
Lemma still_renameTag src t : still (renameTag src t).
Proof.
  apply still_call. intros s0 s U HI. simpl. case_match; [done|]. case_match eqn:Es; [|done]. simpl.
  assert (moved s (setTags (delete src (r_tags s)) s)) as Hm.
  { split; [done|]. apply fewer_tags; [done|]. intros x _. simpl. intros [y [_ Hy]%lookup_delete_Some]. eauto. }
  exact (placed_ok _ _ _ _ _ (tag_placed (setTags (delete src (r_tags s)) s) t _) (moved_ok _ _ _ _ Hm HI)).
Qed.
Lemma still_mkdirTemp : still mkdirTemp.
Proof. apply still_call. intros s0 s U. apply moved_ok. split; [done|]. by apply fewer_blobs. Qed.
Lemma still_mkdirOther : still mkdirOther.
Proof. apply still_call. by intros s0 s U. Qed.
Lemma still_removeTag t : still (removeTag t).
Proof.
  apply still_call. intros s0 s U HI. simpl. case_match; [done|]. case_match eqn:Et; [|done]. simpl.
  destruct (isDigest t) eqn:Ed; [|by eapply (took_ok false), HI; eapply tag_took]. eapply moved_ok, HI. split; [done|].
  apply fewer_tags; [done|]. intros x _. simpl. intros [y [_ Hy]%lookup_delete_Some]. eauto.
Qed.

Create HintDb still.
#[export] Hint Resolve still_ret still_call still_gets still_removeAll still_mkdirBlob still_copyIn still_writeManifest still_renameBlob still_writeTag still_renameTag
  still_mkdirTemp still_mkdirOther still_removeTag : still.

Section claims.
Context `{SigningOps} (sha256 : string → string) (marshal : storedManifest → string) (unmarshal : string → option storedManifest).

(** The calls of an operation, one after the other. *)
Ltac still_calls := repeat first [ apply still_bind; [|intros ?] | apply still_gets | solve [auto with still] | case_match ].

Lemma still_copyAll key dir files : still (copyAll key dir files).
Proof. induction files as [|f files IH]; cbn [copyAll]; still_calls; done. Qed.
#[local] Hint Resolve still_copyAll : still.
Lemma still_pushBlob key mb dir files : still (pushBlob key mb dir files).
Proof. unfold pushBlob. still_calls. Qed.
#[local] Hint Resolve still_pushBlob : still.
Lemma still_pushTag tag digest : still (pushTag tag digest).
Proof. unfold pushTag. still_calls. Qed.
#[local] Hint Resolve still_pushTag : still.
Lemma still_filePushDir dir tag t ann signer : still (filePushDir sha256 marshal dir tag t ann signer).
Proof. unfold filePushDir. still_calls. Qed.
Lemma still_resolveTarget target : still (resolveTarget target).
Proof. unfold resolveTarget. still_calls. Qed.
#[local] Hint Resolve still_resolveTarget : still.
Lemma still_readFileManifest digest : still (readFileManifest sha256 unmarshal digest).
Proof. unfold readFileManifest. still_calls. Qed.
#[local] Hint Resolve still_readFileManifest : still.
Lemma still_fileResolve target : still (fileResolve sha256 unmarshal target).
Proof. unfold fileResolve. still_calls. Qed.
Lemma still_ask c : still (ask (S := Repo) c).
Proof. by intros s0 O s1 b. Qed.
#[local] Hint Resolve still_ask : still.
Lemma still_pullFiles key files : ∀ dst, still (pullFiles sha256 key files dst).
Proof. induction files as [|f files IH]; intros dst; cbn [pullFiles]; still_calls; done. Qed.
#[local] Hint Resolve still_pullFiles : still.
Lemma still_filePullDir target dst : still (filePullDir sha256 unmarshal target dst).
Proof. unfold filePullDir. still_calls. Qed.
Lemma still_scanTags byDigest digest tags : still (scanTags byDigest digest tags).
Proof. induction tags as [|t tags IH]; cbn [scanTags]; still_calls; done. Qed.
#[local] Hint Resolve still_scanTags : still.

(** Once it took the name, a delete answers that it did. *)
Lemma dropContent_told byDigest digest key s0 O s1 :
  rwp (RInv s0) rle (dropContent byDigest digest key) (λ r O' _, O' = O ∧ r.1 = true) O s1.
Proof.
  unfold dropContent. apply still_then; [apply still_gets|]. intros r s. apply still_then; [apply still_scanTags|]. intros [|] s'; [done|].
  apply still_then; [apply still_removeAll|]. done.
Qed.

Lemma removeTag_took t s0 O s1 : isDigest t = false →
  rwp (RInv s0) rle (removeTag t) (λ r O' _, O' = if r then t :: O else O) O s1.
Proof.
  intros Hd [|]; simpl; [|done]. intros s F _ HI. destruct (noTag t) eqn:En; simpl; [exists O; split_and!; try done; by intros ? _ []|].
  destruct (r_tags s !! t) as [b|] eqn:Et; simpl; [|exists O; split_and!; try done; by intros ? _ []]. rewrite Hd.
  exists (t :: O). split_and!; [exact (took_ok true _ _ _ _ _ (tag_took s t b Hd Et) HI)|done|by intros ? _ []|done].
Qed.
Lemma renameBlob_took src dst s0 O s1 :
  rwp (RInv s0) rle (renameBlob true src dst) (λ r O' _, O' = if r then digestOf src :: O else O) O s1.
Proof.
  intros [|]; simpl; [|done]. intros s F _ HI. destruct (r_blobs s !! src) as [b|] eqn:Es; simpl; [|exists O; split_and!; try done; by intros ? _ []].
  destruct (r_blobs s !! dst) as [b'|] eqn:Ed; simpl; [exists O; split_and!; try done; by intros ? _ []|].
  exists (digestOf src :: O). split_and!; [|done|by intros ? _ []|done].
  exact (placed_ok _ _ _ _ _ (blob_placed (logR (Took (digestOf src)) (setBlobs (delete src (r_blobs s)) s)) dst b)
    (took_ok true _ _ _ _ _ (blob_took s src b Es) HI)).
Qed.

Lemma resolveTarget_digest target s0 O s1 :
  rwp (RInv s0) rle (resolveTarget target) (λ r O' _, O' = O ∧ ∀ d, r = inl (Some d) → isDigest target = true → d = target) O s1.
Proof.
  destruct (isDigest target) eqn:Ed.
  - unfold resolveTarget. rewrite Ed. apply still_then; [apply still_gets|]. intros r s. split; [done|]. destruct r as [|[]]; congruence.
  - eapply wp_mono; [|apply (still_resolveTarget target s0 O s1)]. by intros r O' s' ->.
Qed.

Lemma fileDelete_took target s0 O s1 :
  rwp (RInv s0) rle (fileDelete target) (λ r O' _, O' = if (r.1 : bool) then target :: O else O) O s1.
Proof.
  unfold fileDelete. apply wp_bind. eapply wp_mono; [|apply resolveTarget_digest]. intros r O' s' [-> Hd].
  destruct r as [[d|]|e]; [|done..]. destruct (isDigest target) eqn:Ed.
  - rewrite (Hd d eq_refl eq_refl). apply still_then; [apply still_mkdirTemp|]. intros [tmp|e] s2; [|done].
    apply wp_bind. eapply wp_mono; [|apply renameBlob_took]. intros r O' s3 ->. rewrite (digest_key target Ed).
    destruct r as [u|[|]]; [|done..]. eapply wp_mono; [|apply dropContent_told]. by intros r O' s4 [-> ->].
  - apply wp_bind. eapply wp_mono; [|by apply removeTag_took]. intros r O' s3 ->.
    destruct r as [u|[|]]; [|done..]. eapply wp_mono; [|apply dropContent_told]. by intros r O' s4 [-> ->].
Qed.

Lemma body_fin j s0 s1 : rwp (RInv s0) rle (body sha256 marshal unmarshal j) (fin (RInv s0) rle) [] s1.
Proof.
  assert (∀ p : M unit, still p → rwp (RInv s0) rle p (fin (RInv s0) rle) [] s1) as Hstill.
  { intros p Hp. eapply wp_mono; [|apply Hp]. intros r O' s' -> s F _ HI. exact HI. }
  destruct j as [dir tag t ann signer|target|target|target]; cbn [body].
  - apply Hstill, still_bind; [apply still_filePushDir|intros; apply still_ret].
  - apply wp_bind. eapply wp_mono; [|apply fileDelete_took]. intros [[] err] O' s' ->; cbn [fst]; [|intros s F _ HI; exact HI].
    intros s F _ [H1 H2]. exists []. split_and!; [|done|by intros ? _ []|intros s2 F2 _ HI; exact HI].
    constructor; simpl; intros t; rewrite !times_snoc.
    + specialize (H1 t). simpl in H1. rewrite filter_cons in H1. rewrite (decide_False (P := Told target = Took t)) by done.
      repeat case_decide; simpl in *; try congruence; lia.
    + rewrite (decide_False (P := Told target = Took t)), (decide_False (P := Told target = Placed t)) by done. specialize (H2 t).
      unfold there in *. simpl. lia.
  - apply Hstill, still_bind; [apply still_fileResolve|intros; apply still_ret].
  - apply Hstill, still_bind; [apply still_filePullDir|intros; apply still_ret].
Qed.
End claims.

(** C27: A name in a file registry is taken as often as it was put there, and no
    more.  However pushes, pulls, resolves and deletes by tag and by digest
    interleave, and whichever calls fail, the deletes of a reference that were
    told they removed it are no more than the times it was placed, the one it
    started with included; so of the homes that claim one park, one wins. *)
Theorem file_claims_exclusive `{SigningOps} sha256 marshal unmarshal may s0 c target :
  r_log s0 = [] → reachable (body sha256 marshal unmarshal) may s0 c →
  (times (Told target) (r_log (c_st c)) ≤ times (Placed target) (r_log (c_st c)) + there s0 target)%nat.
Proof.
  intros Hlog Hr.
  destruct (pool_invariant (body sha256 marshal unmarshal) may (λ _ : string, tt) (λ _, False) (RInv s0) rle (λ _, []) (λ _, [])) with (s := s0) (c := c)
    as (U & [H1 H2] & _); [..|done|].
  - intros s jobs U j _ HI _. split_and!; [exact HI|by intros x Hx|apply body_fin].
  - constructor; rewrite Hlog; intros t; simpl; lia.
  - specialize (H1 target). specialize (H2 target). lia.
Qed.

(** ** A push and a pull with no one else there *)

Lemma alone_call {A} c (f : St Repo (A + ferr)) s : alone (call c f) s = f s.
Proof. cbn. by destruct (f s). Qed.

Section undisturbed.
Context `{SigningOps} (sha256 : string → string) (marshal : storedManifest → string) (unmarshal : string → option storedManifest).

Definition staged (dir : gmap string string) (files : list fileEntry) (fs : gmap string node) : gmap string node :=
  foldl (λ m f, <[fe_Name f := Regular (contentOf dir (fe_Name f))]> m) fs files.

Lemma staged_in dir files n fs : n ∈ fe_Name <$> files ∨ fs !! n = Some (Regular (contentOf dir n)) →
  staged dir files fs !! n = Some (Regular (contentOf dir n)).
Proof.
  revert fs. induction files as [|f files IH]; intros fs; [intros [Hn|?]; [by apply not_elem_of_nil in Hn|done]|]. simpl. intros Hn. apply IH.
  destruct (decide (fe_Name f = n)) as [<-|Hne]; [right; by rewrite lookup_insert_eq|]. rewrite lookup_insert_ne by done.
  destruct Hn as [[?|Hn]%elem_of_cons|Hn]; [congruence|by left|by right].
Qed.

Lemma copyAll_alone key dir files : ∀ s m fs, r_blobs s !! key = Some (mkBlob m fs) →
  alone (copyAll key dir files) s = (inl tt, setBlobs (<[key := mkBlob m (staged dir files fs)]> (r_blobs s)) s).
Proof.
  induction files as [|f files IH]; intros s m fs Hk; cbn [copyAll].
  - cbn. rewrite insert_id by done. by destruct s.
  - rewrite alone_bind. unfold copyIn at 1 2. rewrite alone_call, Hk. cbn [fst snd b_manifest b_files].
    rewrite (IH _ m (<[fe_Name f := Regular (contentOf dir (fe_Name f))]> fs)) by (simpl; by rewrite lookup_insert_eq).
    unfold setBlobs. simpl. by rewrite insert_insert_eq.
Qed.

Lemma pullFiles_alone key b dir files : ∀ dst s, r_blobs s !! key = Some b →
  (∀ f, f ∈ files → b_files b !! fe_Name f = Some (Regular (contentOf dir (fe_Name f))) ∧ fe_SHA256 f = sha256 (contentOf dir (fe_Name f))) →
  alone (pullFiles sha256 key files dst) s = ((putAll (zip (fe_Name <$> files) (contentOf dir <$> (fe_Name <$> files))) dst, None), s).
Proof.
  induction files as [|f files IH]; intros dst s Hk Hf; cbn [pullFiles]; [done|]. destruct (Hf f) as [Hc Hs]; [by left|].
  rewrite alone_bind. unfold readBlob. rewrite alone_call. unfold gets. rewrite Hk. cbn [fst snd mbind option_bind]. rewrite Hc. cbv zeta.
  rewrite alone_bind. cbn [ask alone fst snd]. rewrite Hs. rewrite bool_decide_eq_true_2 by done. cbn [andb].
  rewrite IH; [done|done|]. intros g Hg. apply Hf. by right.
Qed.

Lemma push_ne key : key +:+ ".push" ≠ key.
Proof. intros E%(f_equal String.length). rewrite str_length_app in E. simpl in E. lia. Qed.

Lemma pushBlob_alone key mb dir files s : r_blobs s !! key = None →
  ∃ s1, alone (pushBlob key mb dir files) s = (None, s1) ∧ r_blobs s1 !! key = Some (mkBlob (Some mb) (staged dir files ∅)) ∧ r_tags s1 = r_tags s.
Proof.
  intros Hk. unfold pushBlob. set (tmp := key +:+ ".push"). cbv zeta. rewrite alone_bind. cbn [removeAll alone hold fst snd].
  set (s2 := setBlobs (delete tmp (r_blobs s)) s). rewrite alone_bind. unfold mkdirBlob. rewrite alone_call.
  assert (r_blobs s2 !! tmp = None) as -> by apply lookup_delete_eq. cbn [fst snd].
  set (s3 := logR (Placed (digestOf tmp)) (setBlobs (<[tmp := mkBlob None ∅]> (r_blobs s2)) s2)).
  rewrite alone_bind, (copyAll_alone tmp dir files s3 None ∅) by (simpl; by rewrite lookup_insert_eq). cbn [fst snd].
  set (s4 := setBlobs _ s3). rewrite alone_bind. unfold writeManifest. rewrite alone_call.
  assert (r_blobs s4 !! tmp = Some (mkBlob None (staged dir files ∅))) as -> by (simpl; by rewrite lookup_insert_eq). cbn [fst snd b_files].
  set (s5 := setBlobs _ s4). rewrite alone_bind. unfold mkdirOther. rewrite alone_call. cbn [fst snd].
  rewrite alone_bind. unfold renameBlob. rewrite alone_call.
  assert (r_blobs s5 !! tmp = Some (mkBlob (Some mb) (staged dir files ∅))) as -> by (simpl; by rewrite lookup_insert_eq).
  assert (r_blobs s5 !! key = None) as ->.
  { pose proof (push_ne key) as Hne. fold tmp in Hne. simpl. rewrite !lookup_insert_ne by done. by rewrite lookup_delete_ne. }
  cbn [fst snd]. eexists. split; [done|]. cbn. by rewrite lookup_insert_eq.
Qed.

Lemma pushTag_alone tag digest s : noTag tag = false → isDigest tag = false →
  ∃ s1, alone (pushTag tag digest) s = (None, s1) ∧ r_blobs s1 = r_blobs s ∧ r_tags s1 !! tag = Some (digest +:+ String (byte 10) "").
Proof.
  intros Ht Hd. unfold pushTag. assert ((tag ==? "") = false) as Ht' by (by apply orb_false_iff in Ht as [Ht _]). rewrite Ht', Hd. cbn [orb].
  rewrite alone_bind. unfold mkdirOther. rewrite alone_call. cbn [fst snd]. rewrite alone_bind. unfold writeTag. rewrite alone_call. cbn [fst snd].
  rewrite alone_bind. unfold renameTag. rewrite alone_call, Ht. cbn [r_tags logR setTags]. rewrite lookup_insert_eq. cbn [fst snd].
  eexists. split; [done|]. cbn. by rewrite lookup_insert_eq.
Qed.

Lemma resolveTarget_alone tag b d mb fs s : noTag tag = false → isDigest tag = false → r_tags s !! tag = Some b → TrimSpace b = d →
  r_blobs s !! blobKey d = Some (mkBlob (Some mb) fs) → alone (resolveTarget tag) s = (inl (Some d), s).
Proof.
  intros Ht Hd Et Hl Hb. unfold resolveTarget. rewrite Hd, alone_bind. unfold readTag. rewrite alone_call. unfold gets at 1 2. rewrite Ht, Et. cbn [fst snd].
  cbv zeta. rewrite Hl, alone_bind. unfold statManifest. rewrite alone_call. unfold gets. by rewrite Hb.
Qed.
Lemma readFileManifest_alone key mb m fs s : r_blobs s !! key = Some (mkBlob (Some mb) fs) → sha256 mb = key → unmarshal mb = Some m →
  forallb (λ f, checkEntryName (fe_Name f)) (sm_Files m) = true → alone (readFileManifest sha256 unmarshal (digestOf key)) s = (inl m, s).
Proof.
  intros Hb Hs Hu Hn. unfold readFileManifest. rewrite alone_bind. unfold readManifest. rewrite blobKey_digest, alone_call. unfold gets. rewrite Hb.
  cbn [fst snd alone mret prog_ret]. rewrite Hs, bool_decide_eq_true_2 by done. cbn [negb]. by rewrite Hu, Hn.
Qed.

(** Undisturbed, a push succeeds and the tag then pulls the same files. *)
Lemma push_then_pull dir tag t ann signer m dst s :
  manifestFor sha256 dir t ann signer = inl m → unmarshal (marshal m) = Some m →
  (∀ x, all_chars is_graphic (sha256 x) = true) → noTag tag = false → isDigest tag = false → r_blobs s !! sha256 (marshal m) = None →
  ∃ s1, alone (filePushDir sha256 marshal dir tag t ann signer) s = (inl (digestOf (sha256 (marshal m))), s1) ∧
    alone (filePullDir sha256 unmarshal tag dst) s1 = ((pushed dir ∪ dst, inl (digestOf (sha256 (marshal m)))), s1).
Proof.
  intros Hm Hj Hg Ht Hd Hk. set (key := sha256 (marshal m)) in *. unfold filePushDir. rewrite Hm. cbv zeta. fold key. rewrite blobKey_digest.
  destruct (pushBlob_alone key (marshal m) dir (sm_Files m) s Hk) as (s1 & E1 & Hb1 & _).
  destruct (pushTag_alone tag (digestOf key) s1 Ht Hd) as (s2 & E2 & Eb & Et). exists s2. split.
  - rewrite alone_bind. unfold statManifest. rewrite alone_call. unfold gets. rewrite Hk. cbn [fst snd]. rewrite alone_bind, E1. cbn [fst snd].
    rewrite alone_bind, E2. done.
  - rewrite <-Eb in Hb1. assert (TrimSpace (digestOf key +:+ String (byte 10) "") = digestOf key) as Hline.
    { apply TrimSpace_line; [|done]. unfold digestOf. rewrite all_chars_app. apply andb_true_iff. split; [done|apply Hg]. }
    assert (forallb (λ f, checkEntryName (fe_Name f)) (sm_Files m) = true) as Hn.
    { revert Hm. unfold manifestFor. case_match; [|done]. case_match eqn:Hc; [|done]. intros [= <-]. simpl. unfold entriesOf.
      revert Hc. generalize (dirFiles sha256 dir). intros l. induction l as [|f l IH]; [done|]. cbn. rewrite !andb_true_iff. intros [??]. auto. }
    unfold filePullDir. rewrite alone_bind, (resolveTarget_alone tag _ (digestOf key) (marshal m) (staged dir (sm_Files m) ∅) s2 Ht Hd Et Hline)
      by (by rewrite blobKey_digest). cbn [fst snd].
    rewrite alone_bind, (readFileManifest_alone key (marshal m) m (staged dir (sm_Files m) ∅) s2 Hb1 eq_refl Hj Hn). cbn [fst snd].
    rewrite alone_bind. unfold mkdirOther. rewrite alone_call. cbn [fst snd]. rewrite alone_bind, blobKey_digest.
    pose proof (manifestFor_files sha256 _ _ _ _ _ Hm) as Hf.
    rewrite (pullFiles_alone key _ dir (sm_Files m) dst s2 Hb1).
    + cbn [fst snd alone mret prog_ret]. rewrite Hf, <-list_fmap_compose.
      change (fe_Name ∘ _) with (λ n : string, n). rewrite list_fmap_id, putAll_pushed. done.
    + intros f Hin. cbn [b_files]. split; [apply staged_in; left; by apply list_elem_of_fmap_2|].
      rewrite Hf in Hin. apply list_elem_of_fmap in Hin as (n & -> & _). done.
Qed.
End undisturbed.

(** C26: What is pulled is what was pushed.  If SHA-256 does not collide and the
    pushed manifest's JSON reads back, then whatever else goes on in the
    repository, and whatever was planted in it, a pull that answers with the
    digest a push answered with has written exactly the files that push had, and
    touched nothing else of the destination; and where no one else is there and
    no call fails, both succeed. *)
Theorem pulled_is_pushed `{SigningOps} sha256 marshal unmarshal dir tag t ann signer target dst :
  (∀ a b : string, sha256 a = sha256 b → a = b) →
  (∀ m, manifestFor sha256 dir t ann signer = inl m → unmarshal (marshal m) = Some m) →
  yields (filePushDir sha256 marshal dir tag t ann signer) (λ r, ∀ digest, r = inl digest →
    yields (filePullDir sha256 unmarshal target dst) (λ r', r'.2 = inl digest → r'.1 = pushed dir ∪ dst)) ∧
  (∀ m s, manifestFor sha256 dir t ann signer = inl m → (∀ x, all_chars is_graphic (sha256 x) = true) →
    noTag tag = false → isDigest tag = false → r_blobs s !! sha256 (marshal m) = None →
    ∃ s1, alone (filePushDir sha256 marshal dir tag t ann signer) s = (inl (digestOf (sha256 (marshal m))), s1) ∧
      alone (filePullDir sha256 unmarshal tag dst) s1 = ((pushed dir ∪ dst, inl (digestOf (sha256 (marshal m)))), s1)).
Proof.
  intros Hinj Hjson. split; [|intros m s Hm; by apply push_then_pull; auto]. eapply yields_mono; [|apply filePushDir_yields]. intros r Hr digest Hd.
  destruct (Hr digest Hd) as (m & Hm & ->). eapply yields_mono; [|apply filePullDir_yields]. intros r' Hr' E.
  destruct (Hr' _ E) as (mb & m' & cs & Hdg & Hu & HF & ->). apply digestOf_inj, Hinj in Hdg. subst mb.
  rewrite (Hjson m Hm) in Hu. injection Hu as <-. rewrite (manifestFor_files _ _ _ _ _ _ Hm) in HF |- *.
  rewrite <-putAll_pushed. f_equal. f_equal; [rewrite <-list_fmap_compose; by rewrite list_fmap_id|].
  rewrite Forall2_fmap_l in HF. clear -Hinj HF. induction HF as [|n c l cs Hc _ IH]; [done|]. simpl in *. rewrite IH. f_equal. by apply Hinj.
Qed.

(** ** A repository to run in *)

(** Stand-ins: a hash that does not collide, a JSON that reads back. *)
#[export] Instance fileEntry_countable : Countable fileEntry.
Proof. refine (inj_countable' (λ f, (fe_Name f, fe_SHA256 f, fe_Size f)) (λ '(a, b, c), mkFileEntry a b c) _). by intros []. Defined.
#[export] Instance storedManifest_countable : Countable storedManifest.
Proof. refine (inj_countable' (λ m, (sm_Type m, sm_Ann m, sm_Files m)) (λ '(a, b, c), mkStored a b c) _). by intros []. Defined.
Fixpoint bitString (n : positive) : string := match n with xH => "" | xO n' => String "0" (bitString n') | xI n' => String "1" (bitString n') end.
Fixpoint stringBits (s : string) : positive :=
  match s with "" => xH | String c s' => if (c ==? "0")%char then xO (stringBits s') else xI (stringBits s') end.
Definition demoJSON (m : storedManifest) : string := bitString (encode m).
Definition demoParse (s : string) : option storedManifest := decode (stringBits s).
Definition demoHash (s : string) : string := hexEncode s.
Definition noSigning : SigningOps := {| edSign _ m := m; edVerify _ _ _ := false; edPublic k := k; b64 s := s; unb64 := Some; payloadJSON _ := ""; parseRFC3339 _ := None |}.

Lemma demo_parses m : demoParse (demoJSON m) = Some m.
Proof.
  unfold demoParse, demoJSON. assert (∀ n, stringBits (bitString n) = n) as -> by (induction n as [n IH|n IH|]; [cbn; by rewrite IH..|done]). apply decode_encode.
Qed.
Lemma demoHash_inj a b : demoHash a = demoHash b → a = b.
Proof. intros E%(f_equal hexDecode). unfold demoHash in E. rewrite !hexDecode_hexEncode in E. congruence. Qed.
Lemma demoHash_graphic s : all_chars is_graphic (demoHash s) = true.
Proof.
  pose proof (hexEncode_chars s) as Hh. unfold demoHash. revert Hh. generalize (hexEncode s). intros t. induction t as [|c t IH]; [done|]. cbn.
  rewrite !andb_true_iff. intros [Hc Ht]. split; [|by apply IH]. clear -Hc. by destruct c as [[] [] [] [] [] [] [] []].
Qed.

Definition demoFiles : gmap string string := <["a.img" := "A"]> (<["b.img" := "B"]> (<["dump.log" := "x"]> ∅)).
Definition noRepo : Repo := mkRepo ∅ ∅ 0 [].
Definition demoBody := body (H := noSigning) demoHash demoJSON demoParse.
Definition demoPush (tag : string) : job := JPush demoFiles tag "t" ∅ None.
Definition runDemo (l : list act) (s : Repo) : option (config (S := Repo) (C := fcall) (J := job)) := run demoBody (λ _ _ _, true) l (mkConfig s []).
Definition steps (i n : nat) : list (act (J := job)) := replicate n (Run i true).

(** What a schedule leaves. *)
Definition leaves (l : list (act (J := job))) : Repo := match runDemo l noRepo with Some c => c_st c | None => noRepo end.
Definition ended (c : config (S := Repo) (C := fcall) (J := job)) : bool := forallb (λ t, match t.2 with Ret _ => true | _ => false end) (c_pool c).
Definition allEnd (l : list (act (J := job))) : bool := match runDemo l noRepo with Some c => ended c | None => false end.
Definition resolves (target : string) (s : Repo) : option Located + regError := (alone (fileResolve demoHash demoParse target) s).1.
Definition pulls (target : string) (s : Repo) : string + regError := (alone (filePullDir demoHash demoParse target ∅) s).1.2.

(** A push, and two homes that claim it. *)
Definition twoClaims : list (act (J := job)) :=
  Spawn (demoPush "s") :: steps 0 22 ++ [Spawn (JDelete "s"); Spawn (JDelete "s")] ++ steps 0 5 ++ steps 1 6 ++ steps 0 1 ++ steps 1 5.

Lemma allEnd_reaches l : allEnd l = true → ∃ c, runDemo l noRepo = Some c ∧ c_st c = leaves l.
Proof. unfold allEnd, leaves. destruct (runDemo l noRepo) as [c|]; [|done]. intros _. by exists c. Qed.

Lemma file_claims_exclusive_witness :
  ∃ c, reachable demoBody (λ _ _ _, true) noRepo c ∧ times (Told "s") (r_log (c_st c)) = 1%nat ∧
    (times (Told "s") (r_log (c_st c)) ≤ times (Placed "s") (r_log (c_st c)) + there noRepo "s")%nat.
Proof.
  destruct (allEnd_reaches twoClaims) as (c & Hc & Hs); [vm_compute; reflexivity|]. exists c.
  assert (reachable demoBody (λ _ _ _, true) noRepo c) as Hr by (by exists twoClaims).
  split; [exact Hr|]. split; [rewrite Hs; vm_compute; reflexivity|].
  exact (file_claims_exclusive (H := noSigning) demoHash demoJSON demoParse (λ _ _ _, true) noRepo c "s" eq_refl Hr).
Defined.

Definition demoManifest : storedManifest := mkStored "t" ∅ (entriesOf (dirFiles demoHash demoFiles)).

Lemma pulled_is_pushed_witness :
  (∀ m, manifestFor (H := noSigning) demoHash demoFiles "t" ∅ None = inl m → m = demoManifest) ∧
  ∃ s1, alone (filePushDir (H := noSigning) demoHash demoJSON demoFiles "s" "t" ∅ None) noRepo = (inl (digestOf (demoHash (demoJSON demoManifest))), s1) ∧
    alone (filePullDir demoHash demoParse "s" ∅) s1 =
      ((pushed demoFiles ∪ ∅, inl (digestOf (demoHash (demoJSON demoManifest)))), s1) ∧ dom (pushed demoFiles) = {[ "a.img"; "b.img" ]}.
Proof.
  assert (manifestFor (H := noSigning) demoHash demoFiles "t" ∅ None = inl demoManifest) as Hm by (vm_compute; reflexivity).
  split; [intros m; rewrite Hm; congruence|].
  destruct (pulled_is_pushed (H := noSigning) demoHash demoJSON demoParse demoFiles "s" "t" ∅ None "s" ∅ demoHash_inj (λ m _, demo_parses m)) as [_ Ha].
  destruct (Ha demoManifest noRepo Hm demoHash_graphic eq_refl eq_refl eq_refl) as (s1 & H1 & H2).
  exists s1. split; [exact H1|]. split; [exact H2|]. vm_compute. reflexivity.
Defined.

(** ** Where the code departs from its comments *)

(** Two pushes of one content share its staging directory.  The second clears it
    while the first is between two files; the first goes on, renames what is
    there and answers.  The content is not whole, and no later push repairs it. *)
Definition twoPushes : list (act (J := job)) :=
  Spawn (demoPush "s") :: steps 0 8 ++ [Spawn (demoPush "u")] ++ steps 0 6 ++ steps 1 14.
Lemma shared_staging_loses_file :
  r_tags (leaves twoPushes) !! "s" ≠ None ∧ pulls "s" (leaves twoPushes) = inr FsError ∧
  pulls "s" (alone (demoBody (demoPush "s")) (leaves twoPushes)).2 = inr FsError.
Proof. split_and!; vm_compute; [discriminate|reflexivity..]. Qed.

(** A push that finds its content there writes only the tag, and a delete of the
    last other tag may take the content in between. *)
Definition pushDuringDelete : list (act (J := job)) :=
  Spawn (demoPush "s") :: steps 0 22 ++ [Spawn (demoPush "u")] ++ steps 0 2 ++ [Spawn (JDelete "s")] ++ steps 0 11 ++ steps 1 6.
Lemma push_during_delete_dangles :
  allEnd pushDuringDelete = true ∧ r_tags (leaves pushDuringDelete) !! "u" ≠ None ∧ resolves "u" (leaves pushDuringDelete) = inl None.
Proof. split_and!; vm_compute; [reflexivity|discriminate|reflexivity]. Qed.

(** A delete that cannot list the tags takes the content another tag still names. *)
Definition unlistedTags : list (act (J := job)) :=
  Spawn (demoPush "s") :: steps 0 22 ++ [Spawn (demoPush "u")] ++ steps 0 8 ++ [Spawn (JDelete "s")] ++ steps 0 6 ++ [Run 0 false] ++ steps 0 3.
Lemma unlisted_tags_lose_content :
  allEnd unlistedTags = true ∧ r_tags (leaves unlistedTags) !! "u" ≠ None ∧ resolves "u" (leaves unlistedTags) = inl None.
Proof. split_and!; vm_compute; [reflexivity|discriminate|reflexivity]. Qed.

(** What a tag's file says is taken as a name below blobs/sha256, whatever it is. *)
Lemma tag_names_any_directory : blobDir "/srv/fibers" "../../../../etc" = "/etc".
Proof. vm_compute. reflexivity. Qed.
