(* ===== verification/Wsfs.v ===== *)
(** * A fiber's workspace (pkg/runtime/host/wsfs)

    The files are inodes of one file system: the fiber's root, and the staging
    directory it cannot see.  Every method is a program of system calls, so that
    uploads, and the fiber itself, run between any two of them; a call may fail
    ([Ask]), and an open may see a rename and answer EAGAIN.  A descriptor is the
    inode it is open on.  Not in the model: mounts, owners and times, and Close
    (it waits for the operations in flight).  A tar stream is its headers and
    bodies; SHA-256, the process's id and its umask are parameters. *)

From Stdlib Require Import Ascii.
From S2P Require Import Prelude GoLib GoText Threads.
From stdpp Require Import options.

(** ** Paths *)

Definition MaxPathBytes : nat := 4096.
Definition MaxDepth : nat := 64.
Definition DefaultEntries : Z := 65536.

Inductive wsErr :=
| ErrPath | ErrNotRegular | ErrSize | ErrChecksum | ErrBudget | ErrEntries | ErrTooLarge | ErrArchive | ErrNotEmpty | ErrForeignLink | ErrNotExist | ErrOther.
#[export] Instance wsErr_eq_dec : EqDecision wsErr. Proof. solve_decision. Defined.

(** The loop of Clean over the components. *)
Fixpoint checkComps (depth : nat) (cs : list string) : bool :=
  match cs with
  | [] => true
  | c :: cs' => negb ((c ==? "") || (c ==? ".") || (c ==? "..")) && (S depth <=? MaxDepth)%nat && checkComps (S depth) cs'
  end.

(** [func Clean(p string, allowRoot bool) (string, error)] *)
Definition Clean (p : string) (allowRoot : bool) : string + wsErr :=
  if p ==? "" then (if allowRoot then inl "" else inr ErrPath)
  else if (MaxPathBytes <? String.length p)%nat then inr ErrPath
  else if contains_char (byte 0) p then inr ErrPath
  else if HasPrefix p "/" then inr ErrPath
  else
    let p := TrimSuffix p "/" in
    if p ==? "" then inr ErrPath else if checkComps 0 (Split "/" p) then inl p else inr ErrPath.

(** [func split(p string) (dir, base string)] *)
Definition split (p : string) : string * string :=
  match LastIndexByte p "/" with Some i => (str_take i p, str_drop (S i) p) | None => ("", p) end.

(** What path.Join makes of a clean directory and a name. *)
Definition joinName (rel n : string) : string := if rel ==? "" then n else rel +:+ "/" +:+ n.

(** ** Budgets *)

(** An int64's wrap-around. *)
Definition wrap64 (z : Z) : Z := ((z + 2 ^ 63) mod 2 ^ 64 - 2 ^ 63)%Z.

Record Limits := mkLimits { l_Bytes : Z; l_Entries : Z }.
(** [func (l Limits) entries() int64] *)
Definition entries (l : Limits) : Z := if (l_Entries l <=? 0)%Z then DefaultEntries else l_Entries l.

(** ** The file system *)

Inductive node := NDir (mode : N) (names : gmap string N) | NReg (mode : N) (data : string) | NLnk (target : string) | NOther.
Notation nodes := (gmap N node).

Definition rootIno : N := 0.
Definition stageIno : N := 1.

(** A workspace: its files, how many names a file has outside it, the sequence
    of staging names, [owned], the counter, and whether Unpack failed on it. *)
Record Ws := mkWs { w_nodes : nodes; w_foreign : gmap N nat; w_seq : N; w_owned : gmap N Z; w_bytes : Z; w_entries : Z; w_dead : bool }.

Definition set_nodes (n : nodes) (s : Ws) : Ws := mkWs n (w_foreign s) (w_seq s) (w_owned s) (w_bytes s) (w_entries s) (w_dead s).
Definition set_owned (m : gmap N Z) (s : Ws) : Ws := mkWs (w_nodes s) (w_foreign s) (w_seq s) m (w_bytes s) (w_entries s) (w_dead s).
Definition set_held (b e : Z) (s : Ws) : Ws := mkWs (w_nodes s) (w_foreign s) (w_seq s) (w_owned s) b e (w_dead s).
Definition set_seq (q : N) (s : Ws) : Ws := mkWs (w_nodes s) (w_foreign s) q (w_owned s) (w_bytes s) (w_entries s) (w_dead s).
Definition set_dead (s : Ws) : Ws := mkWs (w_nodes s) (w_foreign s) (w_seq s) (w_owned s) (w_bytes s) (w_entries s) true.

Inductive syscall := SOpen | SAgain | SMkdir | SCreate | SChmod | SWrite | SSync | SChown | SStat | SRename | SSymlink | SLink | SUnlink | SReadDir | SReadLink | SRead | STar.
Inductive errno := ENOENT | EEXIST | ELOOP | ENOTDIR | EISDIR | EIO.

Local Notation M := (prog Ws syscall).

(** A call that may fail for a reason of its own. *)
Definition syscallM {A} (c : syscall) (f : St Ws (A + errno)) : M (A + errno) := Ask c (λ ok, if ok then hold f else Ret (inr EIO)).

Definition namesOf (fs : nodes) (d : N) : gmap string N := match fs !! d with Some (NDir _ es) => es | _ => ∅ end.

(** The walk of openat2 with no links followed. *)
Fixpoint walk (fs : nodes) (d : N) (cs : list string) : N + errno :=
  match cs with
  | [] => inl d
  | c :: cs' =>
      match fs !! d with
      | Some (NDir _ es) => match es !! c with Some i => walk fs i cs' | None => inr ENOENT end
      | Some (NLnk _) => inr ELOOP
      | Some _ => inr ENOTDIR
      | None => inr ENOENT
      end
  end.
Inductive how := ByPath | AsDir.
Definition openat2 (fs : nodes) (d : N) (rel : string) (h : how) : N + errno :=
  match walk fs d (if rel ==? "" then [] else Split "/" rel) with
  | inr e => inr e
  | inl i =>
      match h, fs !! i with
      | ByPath, Some _ | AsDir, Some (NDir _ _) => inl i
      | AsDir, Some (NLnk _) => inr ELOOP
      | AsDir, Some _ => inr ENOTDIR
      | _, None => inr ENOENT
      end
  end.

(** How many names an inode has, here and elsewhere. *)
Definition named (i : N) (es : gmap string N) : nat := length (filter (λ x, x = i) (map_to_list es).*2).
Definition nlink (s : Ws) (i : N) : nat :=
  (sum_list ((λ dn, match dn.2 with NDir _ es => named i es | _ => 0%nat end) <$> map_to_list (w_nodes s)) + default 0%nat (w_foreign s !! i))%nat.

(** A number no file has: one that was let go may come back. *)
Definition newIno (fs : nodes) : N := fresh (dom fs ∪ {[ rootIno; stageIno ]}).
Definition addName (d : N) (n : string) (i : N) (fs : nodes) : nodes :=
  alter (λ x, match x with NDir m es => NDir m (<[n := i]> es) | _ => x end) d fs.
Definition dropName (d : N) (n : string) (fs : nodes) : nodes :=
  alter (λ x, match x with NDir m es => NDir m (delete n es) | _ => x end) d fs.
Definition addNode (d : N) (n : string) (x : node) (fs : nodes) : nodes := addName d n (newIno fs) (<[newIno fs := x]> fs).

(** ** System calls *)

Section workspace.
Context (sha256 : string → string) (pid : string) (umask : N).

Record Options := mkOptions { o_Budget : Limits; o_Limits : Limits; o_Owner : bool }.
Context (o : Options).

Definition eagainRetries : nat := 32.
Definition dirMode : N := 493. (* 0755 *)
Definition modePerm : N := 511. (* 0777 *)

(** [func openBeneath(dirfd int, rel string, flags int) (int, error)] *)
Fixpoint openTries (fuel : nat) (d : N) (rel : string) (h : how) : M (N + wsErr) :=
  match fuel with
  | O => mret (inr ErrPath)
  | S fuel' =>
      Ask SOpen (λ ok,
        if ok then
          r ← hold (gets (λ s, openat2 (w_nodes s) d rel h));
          mret match r with
          | inl i => inl i
          | inr ELOOP | inr ENOTDIR => inr ErrPath
          | inr EISDIR => inr ErrNotRegular
          | inr ENOENT => inr ErrNotExist
          | inr _ => inr ErrOther
          end
        else Ask SAgain (λ again, if again then openTries fuel' d rel h else mret (inr ErrOther)))
  end.
Definition openBeneath (d : N) (rel : string) (h : how) : M (N + wsErr) := openTries eagainRetries d rel h.

Definition mkdirat (d : N) (n : string) (mode : N) : M (unit + errno) :=
  syscallM SMkdir (λ s, match namesOf (w_nodes s) d !! n with
    | Some _ => (inr EEXIST, s)
    | None => match w_nodes s !! d with
              | Some (NDir _ _) => (inl tt, set_nodes (addNode d n (NDir (N.ldiff mode umask) ∅) (w_nodes s)) s)
              | _ => (inr ENOENT, s) end end).
Definition symlinkat (target : string) (d : N) (n : string) : M (unit + errno) :=
  syscallM SSymlink (λ s, match namesOf (w_nodes s) d !! n with
    | Some _ => (inr EEXIST, s)
    | None => match w_nodes s !! d with
              | Some (NDir _ _) => (inl tt, set_nodes (addNode d n (NLnk target) (w_nodes s)) s)
              | _ => (inr ENOENT, s) end end).
Definition linkat (td : N) (tn : string) (d : N) (n : string) : M (unit + errno) :=
  syscallM SLink (λ s, match namesOf (w_nodes s) td !! tn, namesOf (w_nodes s) d !! n with
    | None, _ => (inr ENOENT, s)
    | Some _, Some _ => (inr EEXIST, s)
    | Some i, None => match w_nodes s !! d with
              | Some (NDir _ _) => (inl tt, set_nodes (addName d n i (w_nodes s)) s)
              | _ => (inr ENOENT, s) end end).
(** renameat of a file: over anything but a directory. *)
Definition renameat (sd : N) (sn : string) (d : N) (n : string) : M (unit + errno) :=
  syscallM SRename (λ s, match namesOf (w_nodes s) sd !! sn, w_nodes s !! d with
    | Some i, Some (NDir _ es) =>
        match es !! n ≫= λ j, w_nodes s !! j with
        | Some (NDir _ _) => (inr EISDIR, s)
        | _ => (inl tt, set_nodes (addName d n i (dropName sd sn (w_nodes s))) s)
        end
    | _, _ => (inr ENOENT, s) end).
Definition unlinkat (d : N) (n : string) : M unit :=
  Ask SUnlink (λ ok, if ok then hold (λ s, (tt, set_nodes (dropName d n (w_nodes s)) s)) else Ret tt).

Inductive kind := KDir | KReg | KLnk | KOther.
Record stat := mkStat { st_kind : kind; st_mode : N; st_size : Z; st_nlink : nat; st_ino : N }.
Definition statOf (s : Ws) (i : N) : option stat :=
  match w_nodes s !! i with
  | Some (NDir m _) => Some (mkStat KDir m 0 (nlink s i) i)
  | Some (NReg m b) => Some (mkStat KReg m (Z.of_nat (String.length b)) (nlink s i) i)
  | Some (NLnk _) => Some (mkStat KLnk modePerm 0 (nlink s i) i)
  | Some NOther => Some (mkStat KOther 0 0 (nlink s i) i)
  | None => None
  end.
Definition fstat (i : N) : M (stat + errno) := syscallM SStat (gets (λ s, match statOf s i with Some st => inl st | None => inr EIO end)).
Definition fstatat (d : N) (n : string) : M (stat + errno) :=
  syscallM SStat (gets (λ s, match namesOf (w_nodes s) d !! n ≫= statOf s with Some st => inl st | None => inr ENOENT end)).
(** [func readNames(dirfd int) ([]string, error)] *)
Definition readNames (d : N) : M (list string + wsErr) :=
  r ← openBeneath d "" AsDir;
  match r with
  | inr e => mret (inr e)
  | inl d =>
      r ← syscallM SReadDir (gets (λ s, inl (merge_sort String.le (elements (dom (namesOf (w_nodes s) d))))));
      mret match r with inl l => inl l | inr _ => inr ErrOther end
  end.

(** ** The budget: Counter *)

(** [func (c *Counter) Reserve(bytes, entries int64) error] *)
Definition Reserve (b e : Z) : M (unit + wsErr) :=
  hold (λ s,
    if ((b <? 0) || (e <? 0))%Z then (inr ErrBudget, s)
    else if ((wrap64 (l_Bytes (o_Budget o) - w_bytes s) <? b) || (wrap64 (entries (o_Budget o) - w_entries s) <? e))%Z then (inr ErrBudget, s)
    else (inl tt, set_held (wrap64 (w_bytes s + b)) (wrap64 (w_entries s + e)) s)).
(** [func (c *Counter) Release(bytes, entries int64)] *)
Definition Release (b e : Z) : M unit := hold (modify (λ s, set_held (wrap64 (w_bytes s - b)) (wrap64 (w_entries s - e)) s)).

(** [func (w *Workspace) own(f *os.File, size int64)], [func (w *Workspace) disown(k inode) int64] *)
Definition own (i : N) (size : Z) : M unit :=
  r ← fstat i;
  match r with inr _ => mret tt | inl st => hold (modify (λ s, set_owned (<[st_ino st := size]> (w_owned s)) s)) end.
Definition disown (i : N) : M Z := hold (λ s, (default 0%Z (w_owned s !! i), set_owned (delete i (w_owned s)) s)).

(** ** Writing *)

(** [func (w *Workspace) openDir(rel string, create bool) (int, error)]: cutPath
    takes the components one after the other. *)
Fixpoint makeDirs (cur : N) (cs : list string) : M (N + wsErr) :=
  match cs with
  | [] => mret (inl cur)
  | c :: cs' =>
      r ← mkdirat cur c dirMode;
      match r with
      | inr EEXIST | inl _ =>
          r ← openBeneath cur c AsDir;
          match r with inr e => mret (inr e) | inl next => makeDirs next cs' end
      | inr _ => mret (inr ErrOther)
      end
  end.
Definition openDir (rel : string) (create : bool) : M (N + wsErr) :=
  if negb create || (rel ==? "") then openBeneath rootIno rel AsDir else makeDirs rootIno (Split "/" rel).

(** [func (w *Workspace) stageFile(mode fs.FileMode)]: the inode and its staging name. *)
Definition stageFile (mode : N) : M (N * string + wsErr) :=
  seq ← hold (λ s, (w_seq s + 1, set_seq (w_seq s + 1) s)%N);
  let name := pid +:+ "." +:+ FormatUint seq in
  r ← syscallM SCreate (λ s, match namesOf (w_nodes s) stageIno !! name with
      | Some _ => (inr EEXIST, s)
      | None => (inl (newIno (w_nodes s)), set_nodes (addNode stageIno name (NReg (N.ldiff (N.land mode modePerm) umask) "") (w_nodes s)) s) end);
  match r with
  | inr _ => mret (inr ErrOther)
  | inl i =>
      r ← syscallM SChmod (λ s, (inl tt, set_nodes (alter (λ x, match x with NReg _ b => NReg (N.land mode modePerm) b | _ => x end) i (w_nodes s)) s));
      match r with inl _ => mret (inl (i, name)) | inr _ => unlinkat stageIno name ≫= λ _, mret (inr ErrOther) end
  end.

(** What a reader gives: its bytes, and whether it then fails or ends. *)
Record body := mkBody { bd_data : string; bd_fails : bool }.
(** [func (w *Workspace) fillStaged(f *os.File, r io.Reader, size int64, sum []byte) ([]byte, error)] *)
Definition fillStaged (i : N) (r : body) (size : Z) (sum : option string) : M (string + wsErr) :=
  let n := Z.of_nat (String.length (bd_data r)) in
  w ← syscallM SWrite (λ s, (inl tt, set_nodes (alter (λ x, match x with NReg m _ => NReg m (str_take (Z.to_nat size) (bd_data r)) | _ => x end) i (w_nodes s)) s));
  match w with
  | inr _ => mret (inr ErrOther)
  | inl _ =>
      if (n <? size)%Z then mret (inr (if bd_fails r then ErrOther else ErrSize))
      else if (size <? n)%Z then mret (inr ErrSize)
      else if bd_fails r then mret (inr ErrOther)
      else
        let got := sha256 (bd_data r) in
        if match sum with Some x => x <>? got | None => false end then mret (inr ErrChecksum)
        else
          c ← (if o_Owner o then syscallM SChown (gets (λ _, inl tt)) else mret (inl tt));
          match c with
          | inr _ => mret (inr ErrOther)
          | inl _ => y ← syscallM SSync (gets (λ _, inl tt)); mret match y with inl _ => inl got | inr _ => inr ErrOther end
          end
  end.

(** [func (w *Workspace) place(parent int, name, base string) (replaced bool, freed int64, err error)] *)
Definition place (parent : N) (name base : string) : M (bool * Z + wsErr) :=
  r ← openBeneath parent base ByPath;
  r ← match r with
      | inl old =>
          st ← fstat old;
          mret match st with
          | inr _ => inr ErrOther
          | inl st => match st_kind st with KDir => inr ErrNotRegular | _ => inl (Some old) end
          end
      | inr ErrNotExist => mret (inl None)
      | inr e => mret (inr e)
      end;
  match r with
  | inr e => mret (inr e)
  | inl old =>
      r ← renameat stageIno name parent base;
      match r with
      | inr EISDIR | inr EEXIST => mret (inr ErrNotRegular)
      | inr _ => mret (inr ErrOther)
      | inl _ =>
          (syscallM SSync (gets (λ _, inl tt)) : M (unit + errno)) ≫= λ _,
          match old with
          | None => mret (inl (false, 0%Z))
          | Some old =>
              st ← fstat old;
              match st with
              | inl st => if (st_nlink st =? 0)%nat then freed ← disown (st_ino st); mret (inl (true, freed)) else mret (inl (true, 0%Z))
              | inr _ => mret (inl (true, 0%Z))
              end
          end
      end
  end.

(** [func (w *Workspace) exists(rel string) bool] *)
Definition exists_ (rel : string) : M bool :=
  let '(dir, base) := split rel in
  r ← openDir dir false;
  match r with
  | inr _ => mret false
  | inl parent => st ← fstatat parent base; mret match st with inl _ => true | inr _ => false end
  end.

Record Info := mkInfo { i_Path : string; i_Size : Z; i_Mode : N; i_Dir : bool; i_SHA256 : string }.

(** The staged file placed, owned, and what it replaced given back. *)
Definition settle (i : N) (name rel : string) (size : Z) (es : Z) : M (bool * Z + wsErr) :=
  let '(dir, base) := split rel in
  r ← openDir dir true;
  match r with
  | inr e => unlinkat stageIno name ≫= λ _, mret (inr e)
  | inl parent =>
      r ← place parent name base;
      match r with
      | inr e => unlinkat stageIno name ≫= λ _, mret (inr e)
      | inl (replaced, freed) =>
          own i size ≫= λ _,
          (if (replaced : bool) then Release freed es else mret tt) ≫= λ _,
          mret (inl (replaced, freed))
      end
  end.

(** [func (w *Workspace) write(rel, size, mode, sum, r, entries) (Info, error)] *)
Definition write (rel : string) (size : Z) (mode : N) (sum : option string) (r : body) (es : Z) : M (Info + wsErr) :=
  f ← stageFile mode;
  match f with
  | inr e => mret (inr e)
  | inl (i, name) =>
      got ← fillStaged i r size sum;
      match got with
      | inr e => unlinkat stageIno name ≫= λ _, mret (inr e)
      | inl got =>
          st ← fstat i;
          match st with
          | inr _ => unlinkat stageIno name ≫= λ _, mret (inr ErrOther)
          | inl _ =>
              r ← settle i name rel size es;
              mret match r with inr e => inr e | inl _ => inl (mkInfo rel size mode false got) end
          end
      end
  end.

(** [func (w *Workspace) Upload(p, size, mode, sum, r) (Info, error)] *)
Definition Upload (p : string) (size : Z) (mode : N) (sum : option string) (r : body) : M (Info + wsErr) :=
  match Clean p false with
  | inr e => mret (inr e)
  | inl rel =>
      if (size <? 0)%Z then mret (inr ErrSize)
      else if match sum with Some x => negb (String.length x =? 32)%nat | None => false end then mret (inr ErrChecksum)
      else
        let mode := if (N.land mode modePerm =? 0)%N then 420%N (* 0644 *) else N.land mode modePerm in
        x ← exists_ rel;
        let es := if (x : bool) then 0%Z else 1%Z in
        v ← Reserve size es;
        match v with
        | inr e => mret (inr e)
        | inl _ =>
            info ← write rel size mode sum r es;
            match info with
            | inr e => Release size es ≫= λ _, mret (inr e)
            | inl info => mret (inl info)
            end
        end
  end.

(** ** Reading *)

(** [func openRegular(dirfd int, rel string) ( *os.File, unix.Stat_t, error)]: the
    name pinned and checked, reopened through its descriptor and checked again. *)
Definition openRegular (d : N) (rel : string) : M (stat + wsErr) :=
  r ← openBeneath d rel ByPath;
  match r with
  | inr e => mret (inr e)
  | inl i =>
      st ← fstat i;
      match st with
      | inr _ => mret (inr ErrOther)
      | inl st =>
          match st_kind st with
          | KLnk => mret (inr ErrPath)
          | KReg =>
              f ← syscallM SOpen (gets (λ _, inl tt));
              match f with
              | inr _ => mret (inr ErrOther)
              | inl _ =>
                  again ← fstat i;
                  mret match again with
                  | inr _ => inr ErrOther
                  | inl again => match st_kind again with KReg => if (st_ino again =? st_ino st)%N then inl again else inr ErrNotRegular | _ => inr ErrNotRegular end
                  end
              end
          | _ => mret (inr ErrNotRegular)
          end
      end
  end.
Definition dataOf (s : Ws) (i : N) : string := match w_nodes s !! i with Some (NReg _ b) => b | _ => "" end.

(** [type File]: the open file, the offset and what is left of its bound. *)
Record File := mkFile { f_ino : N; f_info : Info; f_pos : Z; f_remaining : Z }.
Inductive readEnd := ReadMore | ReadEOF | ReadShort | ReadFailed.
(** [func (f *File) Read(p []byte) (int, error)] into a buffer of [n] bytes. *)
Definition Read (n : nat) (f : File) : M (string * readEnd * File) :=
  if (f_remaining f <=? 0)%Z then mret ("", ReadEOF, f)
  else
    let n := if (f_remaining f <? Z.of_nat n)%Z then Z.to_nat (f_remaining f) else n in
    Ask SRead (λ ok,
      if ok then
        data ← hold (gets (λ s, dataOf s (f_ino f)));
        let got := str_take n (str_drop (Z.to_nat (f_pos f)) data) in
        let k := Z.of_nat (String.length got) in
        let f' := mkFile (f_ino f) (f_info f) (f_pos f + k) (f_remaining f - k) in
        mret (got, if (String.length got <? n)%nat then if (0 <? f_remaining f')%Z then ReadShort else ReadMore else ReadMore, f')
      else mret ("", ReadFailed, f)).

(** [func infoOf(rel string, st *unix.Stat_t) Info] *)
Definition infoOf (rel : string) (st : stat) : Info :=
  mkInfo rel match st_kind st with KReg => st_size st | _ => 0%Z end (N.land (st_mode st) modePerm) match st_kind st with KDir => true | _ => false end "".

(** [func (w *Workspace) Download(p string, offset int64) ( *File, error)] *)
Definition Download (p : string) (offset : Z) : M (File + wsErr) :=
  match Clean p false with
  | inr e => mret (inr e)
  | inl rel =>
      if (offset <? 0)%Z then mret (inr ErrSize)
      else
        r ← openRegular rootIno rel;
        mret match r with
        | inr e => inr e
        | inl st => inl (mkFile (st_ino st) (infoOf rel st) offset (Z.max (st_size st - offset) 0))
        end
  end.

(** [func (w *Workspace) List(p string) ([]Info, error)] *)
Fixpoint listInfos (d : N) (rel : string) (names : list string) : M (list Info) :=
  match names with
  | [] => mret []
  | n :: names' =>
      st ← fstatat d n;
      l ← listInfos d rel names';
      mret match st with
      | inl st => match st_kind st with KReg | KDir => infoOf (joinName rel n) st :: l | _ => l end
      | inr _ => l
      end
  end.
Definition List_ (p : string) : M (list Info + wsErr) :=
  match Clean p true with
  | inr e => mret (inr e)
  | inl rel =>
      r ← openBeneath rootIno rel AsDir;
      match r with
      | inr e => mret (inr e)
      | inl d =>
          r ← readNames d;
          match r with
          | inr e => mret (inr e)
          | inl names =>
              if (entries (o_Limits o) <? Z.of_nat (length names))%Z then mret (inr ErrEntries)
              else l ← listInfos d rel names; mret (inl l)
          end
      end
  end.

(** ** The park archive *)

Inductive tarType := TDir | TReg | TSymlink | TLink | TOther.
Record header := mkHeader { h_Name : string; h_Type : tarType; h_Mode : N; h_Size : Z; h_Linkname : string; h_Body : string }.

(** [type capture struct], and what it has written. *)
Record capture := mkCapture { c_entries : Z; c_bytes : Z; c_first : gmap N string; c_names : gmap N Z; c_nlink : gmap N Z; c_out : list header }.
Definition set_out (l : list header) (c : capture) : capture := mkCapture (c_entries c) (c_bytes c) (c_first c) (c_names c) (c_nlink c) l.

(** [func (c *capture) count(size int64) error] *)
Definition count (size : Z) (c : capture) : capture + wsErr :=
  if (entries (o_Limits o) <=? c_entries c)%Z then inr ErrEntries
  else if (wrap64 (l_Bytes (o_Limits o) - c_bytes c) <? size)%Z then inr ErrTooLarge
  else inl (mkCapture (c_entries c + 1) (c_bytes c + size) (c_first c) (c_names c) (c_nlink c) (c_out c)).
Definition emit (h : header) (c : capture) : M (capture + wsErr) :=
  Ask STar (λ ok, mret (if ok then inl (set_out (c_out c ++ [h]) c) else inr ErrOther)).
Definition countEmit (size : Z) (h : header) (c : capture) : M (capture + wsErr) :=
  match count size c with inr e => mret (inr e) | inl c => emit h c end.

(** [func (c *capture) file(dfd int, n, p string, hdr *tar.Header) error] *)
Definition sawName (st : stat) (c : capture) : capture :=
  mkCapture (c_entries c) (c_bytes c) (c_first c) (<[st_ino st := (default 0 (c_names c !! st_ino st) + 1)%Z]> (c_names c))
    (<[st_ino st := Z.max (default 0%Z (c_nlink c !! st_ino st)) (Z.of_nat (st_nlink st))]> (c_nlink c)) (c_out c).
Definition set_first (i : N) (p : string) (c : capture) : capture :=
  mkCapture (c_entries c) (c_bytes c) (<[i := p]> (c_first c)) (c_names c) (c_nlink c) (c_out c).
Definition captureBody (st : stat) (p : string) (mode : N) (c : capture) : M (capture + wsErr) :=
  match count (st_size st) c with
  | inr e => mret (inr e)
  | inl c =>
      Ask SRead (λ ok,
        if ok then
          data ← hold (gets (λ s, dataOf s (st_ino st)));
          if (Z.of_nat (String.length data) <? st_size st)%Z then mret (inr ErrSize)
          else emit (mkHeader p TReg mode (st_size st) "" (str_take (Z.to_nat (st_size st)) data)) c
        else mret (inr ErrOther))
  end.
Definition captureFile (d : N) (n p : string) (mode : N) (c : capture) : M (capture + wsErr) :=
  r ← openRegular d n;
  match r with
  | inr ErrNotExist => mret (inl c)
  | inr e => mret (inr e)
  | inl st =>
      if (1 <? st_nlink st)%nat then
        let c := sawName st c in
        match c_first c !! st_ino st with
        | Some first => countEmit 0 (mkHeader p TLink mode 0 first "") c
        | None => captureBody st p mode (set_first (st_ino st) p c)
        end
      else captureBody st p mode c
  end.

(** [func readLink(dfd int, n string) (string, error)] *)
Definition readLink (d : N) (n : string) : M (string + wsErr) :=
  r ← syscallM SReadLink (gets (λ s, match namesOf (w_nodes s) d !! n ≫= λ i, w_nodes s !! i with Some (NLnk t) => inl t | _ => inr EIO end));
  mret match r with inr _ => inr ErrOther | inl t => if (MaxPathBytes <? String.length t)%nat then inr ErrPath else inl t end.

(** [func (c *capture) dir(dfd int, rel string) error]: its loop, where [sub] is
    the walk of a directory below.  Clean refuses a path deeper than MaxDepth, so
    the recursion is no deeper either. *)
Fixpoint captureEach (sub : N → string → capture → M (capture + wsErr)) (d : N) (rel : string) (names : list string) (c : capture) : M (capture + wsErr) :=
  match names with
  | [] => mret (inl c)
  | n :: names' =>
      st ← fstatat d n;
      match st with
      | inr ENOENT => captureEach sub d rel names' c
      | inr _ => mret (inr ErrOther)
      | inl st =>
          let p := joinName rel n in
          match Clean p false with
          | inr e => mret (inr e)
          | inl _ =>
              let mode := N.land (st_mode st) modePerm in
              r ← match st_kind st with
                  | KDir =>
                      r ← countEmit 0 (mkHeader (p +:+ "/") TDir mode 0 "" "") c;
                      match r with
                      | inr e => mret (inr e)
                      | inl c => f ← openBeneath d n AsDir; match f with inr e => mret (inr e) | inl f => sub f p c end
                      end
                  | KLnk =>
                      t ← readLink d n;
                      match t with inr e => mret (inr e) | inl t => countEmit 0 (mkHeader p TSymlink mode 0 t "") c end
                  | KReg => captureFile d n p mode c
                  | KOther => mret (inl c)
                  end;
              match r with inr e => mret (inr e) | inl c => captureEach sub d rel names' c end
          end
      end
  end.
Fixpoint captureDir (depth : nat) (d : N) (rel : string) (c : capture) : M (capture + wsErr) :=
  match depth with
  | O => mret (inr ErrPath)
  | S depth' =>
      r ← readNames d;
      match r with inr e => mret (inr e) | inl names => captureEach (captureDir depth') d rel names c end
  end.

(** [func (w *Workspace) Capture(out io.Writer) error], the archive. *)
Definition Capture : M (list header + wsErr) :=
  r ← captureDir (S MaxDepth) rootIno "" (mkCapture 0 0 ∅ ∅ ∅ []);
  match r with
  | inr e => mret (inr e)
  | inl c =>
      if existsb (λ '(i, seen), (seen <? default 0 (c_nlink c !! i))%Z) (map_to_list (c_names c)) then mret (inr ErrForeignLink)
      else Ask STar (λ ok, mret (if ok then inl (c_out c) else inr ErrOther))
  end.

(** [func (w *Workspace) Size() (bytes, entries int64, err error)], the walk:
    it has the bytes, the entries and the files seen.  Each level it goes down is
    an entry, so one more than the ceiling is fuel enough; [None] is a walk that
    ran out of it. *)
Fixpoint sizeDir (fuel : nat) (d : N) (acc : Z * Z * gset N) : M (option (Z * Z * gset N + wsErr)) :=
  match fuel with
  | O => mret None
  | S fuel' =>
      r ← readNames d;
      match r with
      | inr e => mret (Some (inr e))
      | inl names =>
          (fix each (names : list string) (acc : Z * Z * gset N) : M (option (Z * Z * gset N + wsErr)) :=
             match names with
             | [] => mret (Some (inl acc))
             | n :: names' =>
                 st ← fstatat d n;
                 match st with
                 | inr ENOENT => each names' acc
                 | inr _ => mret (Some (inr ErrOther))
                 | inl st =>
                     let '(bytes, es, seen) := acc in
                     if (entries (o_Limits o) <=? es)%Z then mret (Some (inr ErrEntries))
                     else
                       match st_kind st with
                       | KDir =>
                           sub ← openBeneath d n AsDir;
                           match sub with
                           | inr ErrNotExist => each names' (bytes, es + 1, seen)%Z
                           | inr e => mret (Some (inr e))
                           | inl sub =>
                               r ← sizeDir fuel' sub (bytes, es + 1, seen)%Z;
                               match r with Some (inl acc) => each names' acc | _ => mret r end
                           end
                       | KReg =>
                           if (1 <? st_nlink st)%nat && bool_decide (st_ino st ∈ seen) then each names' (bytes, es + 1, seen)%Z
                           else each names' (bytes + st_size st, es + 1, if (1 <? st_nlink st)%nat then {[ st_ino st ]} ∪ seen else seen ∖ {[ st_ino st ]})%Z
                       | _ => each names' (bytes, es + 1, seen)%Z
                       end
                 end
             end) names acc
      end
  end.
Definition Size : M (option (Z * Z * gset N + wsErr)) := sizeDir (S (Z.to_nat (entries (o_Limits o)))) rootIno (0, 0, ∅)%Z.

(** [func (w *Workspace) sweepStage() error] *)
Fixpoint sweepNames (names : list string) : M (option wsErr) :=
  match names with
  | [] => mret None
  | n :: names' =>
      r ← syscallM SUnlink (λ s, match namesOf (w_nodes s) stageIno !! n with
          | Some _ => (inl tt, set_nodes (dropName stageIno n (w_nodes s)) s)
          | None => (inr ENOENT, s) end);
      match r with inl _ | inr ENOENT => sweepNames names' | inr _ => mret (Some ErrOther) end
  end.
Definition sweepStage : M (option wsErr) :=
  r ← readNames stageIno; match r with inr e => mret (Some e) | inl names => sweepNames names end.

(** ** Unpacking *)

Record entry := mkEntry { e_Path : string; e_Type : tarType; e_Mode : N; e_Size : Z; e_Linkname : string; e_Body : string }.

(** One header of readArchive: the entry it accepts, with the bytes so far and
    the names of files; the hash of a name stands for it. *)
Definition readHeader (l : Limits) (bytes : Z) (files : gset string) (h : header) : (entry * Z * gset string) + wsErr :=
  match Clean (h_Name h) false with
  | inr _ => inr ErrArchive
  | inl name =>
      let e := mkEntry name (h_Type h) (N.land (h_Mode h) modePerm) 0 "" "" in
      match h_Type h with
      | TDir => if (h_Size h =? 0)%Z then inl (e, bytes, files) else inr ErrArchive
      | TReg =>
          if (h_Size h <? 0)%Z then inr ErrArchive
          else if (wrap64 (l_Bytes l - bytes) <? h_Size h)%Z then inr ErrTooLarge
          else inl (mkEntry name TReg (N.land (h_Mode h) modePerm) (h_Size h) "" (str_take (Z.to_nat (h_Size h)) (h_Body h)), (bytes + h_Size h)%Z, {[ name ]} ∪ files)
      | TSymlink =>
          if (h_Linkname h ==? "") || contains_char (byte 0) (h_Linkname h) || (MaxPathBytes <? String.length (h_Linkname h))%nat then inr ErrArchive
          else inl (mkEntry name TSymlink (N.land (h_Mode h) modePerm) 0 (h_Linkname h) "", bytes, files)
      | TLink =>
          match Clean (h_Linkname h) false with
          | inr _ => inr ErrArchive
          | inl target => if bool_decide (target ∈ files) then inl (mkEntry name TLink (N.land (h_Mode h) modePerm) 0 target "", bytes, files) else inr ErrArchive
          end
      | TOther => inr ErrArchive
      end
  end.

(** [func readArchive(r io.Reader, l Limits, sink func(entry) error) error]: the
    sink's own variables are its accumulator.  A header that cannot be read ends
    the stream with an error ([None]).  A body that is short is seen by the sink
    or by the drain behind it. *)
Fixpoint readArchive {A} (l : Limits) (sink : A → entry → M (A * option wsErr)) (n bytes : Z) (files : gset string) (a : A) (hs : list (option header)) :
    M (A * option wsErr) :=
  match hs with
  | [] => mret (a, None)
  | None :: _ => mret (a, Some ErrArchive)
  | Some h :: hs' =>
      if (entries l <? n + 1)%Z then mret (a, Some ErrEntries)
      else
        match readHeader l bytes files h with
        | inr e => mret (a, Some e)
        | inl (e, bytes, files) =>
            r ← sink a e;
            match r with
            | (a, Some err) => mret (a, Some err)
            | (a, None) =>
                if (Z.of_nat (String.length (e_Body e)) <? e_Size e)%Z then mret (a, Some ErrArchive)
                else readArchive l sink (n + 1)%Z bytes files a hs'
            end
        end
  end.

(** [func (w *Workspace) unpackEntry(e entry) (freedBytes, freedEntries int64, err error)] *)
Definition unpackFile (e : entry) : M (Z * Z * option wsErr) :=
  f ← stageFile (e_Mode e);
  match f with
  | inr err => mret (0, 0, Some err)%Z
  | inl (i, name) =>
      got ← fillStaged i (mkBody (e_Body e) false) (e_Size e) None;
      match got with
      | inr err => unlinkat stageIno name ≫= λ _, mret (0, 0, Some match err with ErrSize => ErrArchive | _ => err end)%Z
      | inl _ =>
          r ← settle i name (e_Path e) (e_Size e) 1;
          mret match r with
          | inr err => (0, 0, Some err)%Z
          | inl (true, freed) => (freed, 1, None)%Z
          | inl (false, _) => (0, 0, None)%Z
          end
      end
  end.
Definition unpackAt (e : entry) (make : N → string → M (unit + errno)) : M (Z * Z * option wsErr) :=
  let '(dir, base) := split (e_Path e) in
  r ← openDir dir true;
  match r with
  | inr err => mret (0, 0, Some err)%Z
  | inl parent => r ← make parent base; mret match r with inl _ => (0, 0, None)%Z | inr _ => (0, 0, Some ErrArchive)%Z end
  end.
Definition unpackLink (e : entry) : M (Z * Z * option wsErr) :=
  let '(tdir, tbase) := split (e_Linkname e) in
  r ← openDir tdir false;
  match r with
  | inr err => mret (0, 0, Some err)%Z
  | inl tparent =>
      st ← fstatat tparent tbase;
      match st with
      | inr _ => mret (0, 0, Some ErrArchive)%Z
      | inl st => match st_kind st with KReg => unpackAt e (linkat tparent tbase) | _ => mret (0, 0, Some ErrArchive)%Z end
      end
  end.
Definition unpackEntry (e : entry) : M (Z * Z * option wsErr) :=
  match e_Type e with
  | TReg => unpackFile e
  | TDir => unpackAt e (λ parent base, mkdirat parent base (N.lor (e_Mode e) 448)) (* 0700 *)
  | TSymlink => unpackAt e (symlinkat (e_Linkname e))
  | TLink => unpackLink e
  | TOther => mret (0, 0, Some ErrArchive)%Z
  end.

(** The sink of Unpack: the net reservation, and an entry. *)
Definition unpackSink (net : Z * Z) (e : entry) : M (Z * Z * option wsErr) :=
  let size := match e_Type e with TReg => e_Size e | _ => 0%Z end in
  v ← Reserve size 1;
  match v with
  | inr err => mret (net, Some err)
  | inl _ =>
      r ← unpackEntry e;
      mret (net.1 + size - r.1.1, net.2 + 1 - r.1.2, r.2)%Z
  end.

(** [func (w *Workspace) Unpack(in io.Reader) error] *)
Definition Unpack (hs : list (option header)) : M (option wsErr) :=
  r ← readNames rootIno;
  match r with
  | inr e => mret (Some e)
  | inl (_ :: _) => mret (Some ErrNotEmpty)
  | inl [] =>
      r ← readArchive (o_Limits o) unpackSink 0 0 ∅ (0, 0)%Z hs;
      match r with
      | (_, None) => mret None
      | ((b, e), Some err) => Release b e ≫= λ _, mret (Some err)
      end
  end.

(** ** A workspace in use *)

(** What [newWorkspace] and [Open] make: an empty root and stage. *)
Definition newWs : Ws := mkWs (<[rootIno := NDir dirMode ∅]> (<[stageIno := NDir 448 ∅]> ∅)) ∅ 0 ∅ 0 0 false.

(** The calls of a home, and what the fiber and the kernel do to the files
    meanwhile.  Unpack is the first of all, on a workspace no one has yet, and
    where it fails the workspace is removed (unpackWorkspace). *)
Inductive job :=
| JUpload (p : string) (size : Z) (mode : N) (sum : option string) (r : body) | JDownload (p : string) (offset : Z) | JList (p : string) | JCapture | JSize
| JUnpack (hs : list (option header)) | JFiber (f : nodes → nodes) (g : gmap N nat → gmap N nat).
Definition bodyOf (j : job) : M unit :=
  match j with
  | JUpload p size mode sum r => Upload p size mode sum r ≫= λ _, mret tt
  | JDownload p offset => Download p offset ≫= λ _, mret tt
  | JList p => List_ p ≫= λ _, mret tt
  | JCapture => Capture ≫= λ _, mret tt
  | JSize => Size ≫= λ _, mret tt
  | JUnpack hs => r ← Unpack hs; match r with None => mret tt | Some _ => hold (modify set_dead) end
  | JFiber f g => hold (modify (λ s, mkWs (f (w_nodes s)) (g (w_foreign s)) (w_seq s) (w_owned s) (w_bytes s) (w_entries s) (w_dead s)))
  end.
Definition isUnpack (j : job) : bool := match j with JUnpack _ => true | _ => false end.
Definition mayStart (s : Ws) (jobs : list job) (j : job) : bool :=
  match j with
  | JFiber _ _ => true
  | JUnpack _ => negb (w_dead s) && (w_bytes s =? 0)%Z && (w_entries s =? 0)%Z && (w_owned s ==? ∅) && (match jobs with [] => true | _ => false end)
  | _ => negb (w_dead s) && negb (existsb isUnpack jobs)
  end.
End workspace.
