(* ===== verification/WsfsBudget.v ===== *)
(** * A workspace's budget is never overdrawn (pkg/runtime/host/wsfs)

    However uploads, an unpack and a hostile fiber interleave and whichever calls
    fail: what the counter holds stays between zero and its limits, and covers
    every byte fiberd has written and not given back. *)

From Stdlib Require Import Ascii.
From S2P Require Import Prelude GoLib GoText Threads Wsfs.
From stdpp Require Import options.

Local Notation M := (prog Ws syscall).

(** ** The invariant *)

(** What is owned, in all. *)
Definition ownedSum (m : gmap N Z) : Z := map_fold (λ _ x a, (x + a)%Z) 0%Z m.

Lemma ownedSum_delete m i x : m !! i = Some x → ownedSum m = (x + ownedSum (delete i m))%Z.
Proof. intros H. unfold ownedSum. apply (map_fold_delete_L _ _ i x m); [lia|done]. Qed.
Lemma ownedSum_insert m i x : ownedSum (<[i := x]> m) = (x + ownedSum (delete i m))%Z.
Proof. rewrite (ownedSum_delete (<[i := x]> m) i x) by apply lookup_insert_eq. by rewrite delete_insert_eq. Qed.
Lemma ownedSum_drop m i : ownedSum m = (default 0 (m !! i) + ownedSum (delete i m))%Z.
Proof. destruct (m !! i) as [x|] eqn:E; simpl; [by apply ownedSum_delete|]. by rewrite delete_id. Qed.

(** What a call has reserved and not yet owned or given back; an unpack knows
    what the counter holds, and may be about to leave the workspace for dead. *)
Record tok := mkTok { t_b : Z; t_e : Z; t_un : option (Z * Z); t_dying : bool }.
Definition tkey (t : tok) : bool := bool_decide (is_Some (t_un t)) || t_dying t.
Definition sumB (U : list tok) : Z := foldr (λ t a, (t_b t + a)%Z) 0%Z U.
Definition sumE (U : list tok) : Z := foldr (λ t a, (t_e t + a)%Z) 0%Z U.

Section budget.
Context (sha256 : string → string) (pid : string) (umask : N) (o : Options).

Definition limB : Z := l_Bytes (o_Budget o).
Definition limE : Z := entries (o_Budget o).

Record BInv (s : Ws) (U : list tok) : Prop := {
  bi_bytes : (0 ≤ w_bytes s ≤ limB)%Z;
  bi_entries : (0 ≤ w_entries s ≤ limE)%Z;
  bi_tok : Forall (λ t, (0 ≤ t_b t)%Z ∧ (0 ≤ t_e t)%Z) U;
  bi_e : (sumE U ≤ w_entries s)%Z;
  bi_b : w_dead s = false → Forall (λ t, t_dying t = false) U → (ownedSum (w_owned s) + sumB U ≤ w_bytes s)%Z;
  bi_own : map_Forall (λ _ x, (0 ≤ x)%Z) (w_owned s);
  bi_excl : ∀ t, t ∈ U → tkey t = true → U = [t];
  bi_un : ∀ t b e, t ∈ U → t_un t = Some (b, e) → w_bytes s = b ∧ w_entries s = e ∧ t_dying t = false;
  bi_dead : w_dead s = true → U = [];
}.
Definition ble (_ _ : Ws) : Prop := True.
#[export] Instance ble_pre : PreOrder ble.
Proof. by split. Qed.
#[export] Instance BInv_proper s : Proper ((≡ₚ) ==> impl) (BInv s).
Proof.
  intros U U' HU [H1 H2 H3 H4 H5 H6 H7 H8 H9]. constructor; try done.
  - by rewrite <-HU.
  - assert (sumE U' = sumE U) as ->; [|done]. clear -HU. unfold sumE. induction HU; simpl; lia.
  - intros Hd HF. assert (sumB U' = sumB U) as -> by (clear -HU; unfold sumB; induction HU; simpl; lia). apply H5; [done|by rewrite HU].
  - intros t Ht Hk. rewrite <-HU in Ht. rewrite (H7 t Ht Hk) in HU. by apply Permutation_singleton_l in HU.
  - intros t b e Ht. rewrite <-HU in Ht. by apply H8.
  - intros Hd. rewrite (H9 Hd) in HU. by apply Permutation_nil_l in HU.
Qed.

Local Notation bwp := (wp tkey (λ _ : bool, True) BInv ble).

(** ** Programs that leave the accounts alone *)

Definition apart (s s' : Ws) : Prop :=
  w_owned s' = w_owned s ∧ w_bytes s' = w_bytes s ∧ w_entries s' = w_entries s ∧ w_dead s' = w_dead s.
Lemma BInv_apart s s' U : apart s s' → BInv s U → BInv s' U.
Proof. intros (Eo & Eb & Ee & Ed) [H1 H2 H3 H4 H5 H6 H7 H8 H9]. constructor; rewrite ?Eo, ?Eb, ?Ee, ?Ed; done. Qed.

Definition idle {R} (p : M R) : Prop := ∀ O s0, bwp p (λ _ O' _, O' = O) O s0.
Lemma idle_then {A R} (p : M A) (k : A → M R) Q O s0 : idle p → (∀ a s, bwp (k a) Q O s) → bwp (p ≫= k) Q O s0.
Proof. intros Hp Hk. apply wp_bind. eapply wp_mono; [|apply Hp]. simpl. intros r O' s' ->. apply Hk. Qed.
Lemma idle_bind {A R} (p : M A) (k : A → M R) : idle p → (∀ a, idle (k a)) → idle (p ≫= k).
Proof. intros Hp Hk O s0. apply idle_then; [done|]. intros a s. apply Hk. Qed.
Lemma idle_ret {R} (r : R) : idle (mret r).
Proof. by intros O s0. Qed.
Lemma idle_hold {A} (f : St Ws A) : (∀ s, apart s (f s).2) → idle (hold f).
Proof. intros Hf O s0. simpl. intros s F _ HI. exists O. split_and!; [by eapply BInv_apart|done|eauto|done]. Qed.
Lemma idle_ask {R} c (k : bool → M R) : (∀ b, idle (k b)) → idle (Ask c k).
Proof. intros Hk O s0 b. apply Hk. Qed.
Lemma idle_syscall {A} c (f : St Ws (A + errno)) : (∀ s, apart s (f s).2) → idle (syscallM c f).
Proof. intros Hf. apply idle_ask. intros [|]; [by apply idle_hold|apply idle_ret]. Qed.
Lemma idle_reads {A} c (f : Ws → A + errno) : idle (syscallM c (gets f)).
Proof. by apply idle_syscall. Qed.
Lemma idle_gets {A} (f : Ws → A) : idle (hold (gets f)).
Proof. by apply idle_hold. Qed.

Ltac apart_now := intros ?; simpl; repeat case_match; simpl; done.
Ltac idle_calls := repeat
  match goal with
  | |- idle (mret _) => apply idle_ret
  | |- idle (Ret _) => apply idle_ret
  | |- idle (_ ≫= _) => apply idle_bind; [|intros ?]
  | |- idle (Ask _ _) => apply idle_ask; intros ?
  | |- idle (hold (gets _)) => apply idle_gets
  | |- idle (hold _) => apply idle_hold; apart_now
  | |- idle (syscallM _ (gets _)) => apply idle_reads
  | |- idle (syscallM _ _) => apply idle_syscall; apart_now
  | |- idle (let _ := _ in _) => cbv zeta
  | |- idle (match ?x with _ => _ end) => destruct x
  | |- idle _ => solve [auto 2 with idle]
  end.

Create HintDb idle.
#[local] Hint Resolve idle_ret : idle.
Lemma idle_openBeneath d rel h : idle (openBeneath d rel h).
Proof. unfold openBeneath. generalize eagainRetries as n. induction n as [|n IH]; cbn [openTries]; idle_calls. Qed.
#[local] Hint Resolve idle_openBeneath : idle.
Lemma idle_mkdirat d n m : idle (mkdirat umask d n m).
Proof. unfold mkdirat. idle_calls. Qed.
#[local] Hint Resolve idle_mkdirat : idle.
Lemma idle_fstat i : idle (fstat i).
Proof. apply idle_reads. Qed.
Lemma idle_fstatat d n : idle (fstatat d n).
Proof. apply idle_reads. Qed.
Lemma idle_unlinkat d n : idle (unlinkat d n).
Proof. unfold unlinkat. idle_calls. Qed.
Lemma idle_renameat sd sn d n : idle (renameat sd sn d n).
Proof. unfold renameat. idle_calls. Qed.
Lemma idle_symlinkat t d n : idle (symlinkat t d n).
Proof. unfold symlinkat. idle_calls. Qed.
Lemma idle_linkat td tn d n : idle (linkat td tn d n).
Proof. unfold linkat. idle_calls. Qed.
#[local] Hint Resolve idle_fstat idle_fstatat idle_unlinkat idle_renameat idle_symlinkat idle_linkat : idle.
Lemma idle_makeDirs cs : ∀ cur, idle (makeDirs umask cur cs).
Proof. induction cs as [|c cs IH]; intros cur; cbn [makeDirs]; idle_calls. Qed.
#[local] Hint Resolve idle_makeDirs : idle.
Lemma idle_openDir rel create : idle (openDir umask rel create).
Proof. unfold openDir. idle_calls. Qed.
#[local] Hint Resolve idle_openDir : idle.
Lemma idle_stageFile mode : idle (stageFile pid umask mode).
Proof. unfold stageFile. idle_calls. Qed.
Lemma idle_fillStaged i r size sum : idle (fillStaged sha256 o i r size sum).
Proof. unfold fillStaged. idle_calls. Qed.
Lemma idle_exists rel : idle (exists_ umask rel).
Proof. unfold exists_. idle_calls. Qed.
Lemma idle_readNames d : idle (readNames d).
Proof. unfold readNames. idle_calls. Qed.
#[local] Hint Resolve idle_stageFile idle_fillStaged idle_exists idle_readNames : idle.
Lemma idle_openRegular d rel : idle (openRegular d rel).
Proof. unfold openRegular. idle_calls. Qed.
#[local] Hint Resolve idle_openRegular : idle.
Lemma idle_Download p offset : idle (Download p offset).
Proof. unfold Download. idle_calls. Qed.
Lemma idle_listInfos d rel names : idle (listInfos d rel names).
Proof. induction names as [|n names IH]; cbn [listInfos]; idle_calls. Qed.
#[local] Hint Resolve idle_listInfos : idle.
Lemma idle_List p : idle (List_ o p).
Proof. unfold List_. idle_calls. Qed.
Lemma idle_emit h c : idle (emit h c).
Proof. unfold emit. idle_calls. Qed.
#[local] Hint Resolve idle_emit : idle.
Lemma idle_countEmit n h c : idle (countEmit o n h c).
Proof. unfold countEmit. idle_calls. Qed.
Lemma idle_captureBody st p mode c : idle (captureBody o st p mode c).
Proof. unfold captureBody. idle_calls. Qed.
#[local] Hint Resolve idle_countEmit idle_captureBody : idle.
Lemma idle_captureFile d n p mode c : idle (captureFile o d n p mode c).
Proof. unfold captureFile. idle_calls. Qed.
Lemma idle_readLink d n : idle (readLink d n).
Proof. unfold readLink. idle_calls. Qed.
#[local] Hint Resolve idle_captureFile idle_readLink : idle.
Lemma idle_captureEach sub d rel names : (∀ f p c, idle (sub f p c)) → ∀ c, idle (captureEach o sub d rel names c).
Proof. intros Hs. induction names as [|n names IH]; intros c; cbn [captureEach]; idle_calls. Qed.
Lemma idle_captureDir depth : ∀ d rel c, idle (captureDir o depth d rel c).
Proof. induction depth as [|depth IH]; intros d rel c; cbn [captureDir]; idle_calls. by apply idle_captureEach. Qed.
#[local] Hint Resolve idle_captureDir idle_Download idle_List : idle.
Lemma idle_Capture : idle (Capture o).
Proof. unfold Capture. idle_calls. Qed.
#[local] Hint Resolve idle_Capture : idle.
Lemma idle_sizeDir fuel : ∀ d acc, idle (sizeDir o fuel d acc).
Proof.
  induction fuel as [|fuel IH]; intros d acc; cbn [sizeDir]; [apply idle_ret|]. apply idle_bind; [auto with idle|]. intros [names|e]; [|apply idle_ret].
  revert acc. induction names as [|n names IHn]; intros acc; [apply idle_ret|]. idle_calls.
Qed.
Lemma idle_Size : idle (Size o).
Proof. apply idle_sizeDir. Qed.

(** ** Moves of one token *)

(** A reservation, or with negative amounts a release; and bytes that become
    owned, or are owned no more. *)
Definition credit (b e : Z) (t : tok) : tok := mkTok (t_b t + b) (t_e t + e) ((λ p : Z * Z, (p.1 + b, p.2 + e)%Z) <$> t_un t) (t_dying t).
Definition shiftB (d : Z) (t : tok) : tok := mkTok (t_b t + d) (t_e t) (t_un t) (t_dying t).

Lemma tkey_credit b e t : tkey (credit b e t) = tkey t.
Proof. unfold tkey, credit. by destruct (t_un t). Qed.
Lemma sumB_cons t F : sumB (t :: F) = (t_b t + sumB F)%Z.
Proof. done. Qed.
Lemma sumE_cons t F : sumE (t :: F) = (t_e t + sumE F)%Z.
Proof. done. Qed.

Lemma BInv_others s t F : BInv s (t :: F) → ∀ t', t' ∈ F → tkey t' = false.
Proof.
  intros HI t' Ht'. destruct (tkey t') eqn:E; [|done]. exfalso.
  assert (t :: F = [t']) as [= -> ->] by (apply (bi_excl _ _ HI); [by right|done]). by apply not_elem_of_nil in Ht'.
Qed.

(** What every move of one token has to show. *)
Lemma BInv_move s s' t t' F :
  BInv s (t :: F) → w_dead s' = w_dead s → tkey t' = tkey t → t_dying t' = t_dying t →
  (0 ≤ w_bytes s' ≤ limB)%Z → (0 ≤ w_entries s' ≤ limE)%Z → (0 ≤ t_b t')%Z → (0 ≤ t_e t')%Z →
  (w_entries s' - t_e t' = w_entries s - t_e t)%Z →
  (w_bytes s - ownedSum (w_owned s) - t_b t ≤ w_bytes s' - ownedSum (w_owned s') - t_b t')%Z →
  map_Forall (λ _ x, (0 ≤ x)%Z) (w_owned s') →
  (∀ b e, t_un t' = Some (b, e) → w_bytes s' = b ∧ w_entries s' = e ∧ t_dying t' = false) →
  BInv s' (t' :: F).
Proof.
  intros HI Ed Ek Edy Hb He Htb Hte HE HB Ho Hu. assert (Hoth := BInv_others _ _ _ HI). destruct HI as [H1 H2 H3 H4 H5 H6 H7 H8 H9].
  apply Forall_cons in H3 as [? H3]. rewrite sumE_cons in H4.
  constructor; try done.
  - by constructor.
  - rewrite sumE_cons. lia.
  - rewrite Ed. intros Hd [Hdy HF]%Forall_cons. assert (Hs := H5 Hd). rewrite Edy in Hdy. specialize (Hs ltac:(by constructor)).
    rewrite !sumB_cons in *. lia.
  - intros x [->|Hx]%elem_of_cons Hk; [|by rewrite (Hoth x Hx) in Hk].
    rewrite Ek in Hk. specialize (H7 t ltac:(by left) Hk). by simplify_eq.
  - intros x b e [->|Hx]%elem_of_cons Hx'; [by apply Hu|]. specialize (Hoth x Hx). unfold tkey in Hoth. by rewrite Hx' in Hoth.
  - rewrite Ed. intros Hd. by specialize (H9 Hd).
Qed.

Lemma BInv_drop s t F : t_dying t = false → BInv s (t :: F) → BInv s F.
Proof.
  intros Hdy HI. assert (Hoth := BInv_others _ _ _ HI). destruct HI as [H1 H2 H3 H4 H5 H6 H7 H8 H9].
  apply Forall_cons in H3 as [? H3]. rewrite sumE_cons in H4. constructor; try done.
  - lia.
  - intros Hd HF. assert (Hs := H5 Hd ltac:(by constructor)). rewrite sumB_cons in Hs. lia.
  - intros x Hx. by rewrite (Hoth x Hx).
  - intros x b e Hx. apply H8. by right.
  - intros Hd. by specialize (H9 Hd).
Qed.

(** What a token stands for while its workspace lives. *)
Lemma ownedSum_nonneg m : map_Forall (λ _ x, (0 ≤ x)%Z) m → (0 ≤ ownedSum m)%Z.
Proof.
  induction m as [|i x m Hi IH] using map_ind; [done|]. intros [Hx Hm]%map_Forall_insert; [|done].
  rewrite ownedSum_insert, delete_id by done. specialize (IH Hm). lia.
Qed.
Lemma sumB_nonneg U : Forall (λ t, (0 ≤ t_b t)%Z ∧ (0 ≤ t_e t)%Z) U → (0 ≤ sumB U ∧ 0 ≤ sumE U)%Z.
Proof. induction 1 as [|t U [? ?] _ IH]; [done|]. rewrite sumB_cons, sumE_cons. lia. Qed.
Lemma BInv_live s t F : BInv s (t :: F) → t_dying t = false →
  (ownedSum (w_owned s) + t_b t ≤ w_bytes s ∧ t_e t ≤ w_entries s ∧ 0 ≤ ownedSum (w_owned s) ∧ 0 ≤ t_b t ∧ 0 ≤ t_e t)%Z.
Proof.
  intros HI Hdy. assert (Hoth := BInv_others _ _ _ HI). destruct HI as [H1 H2 H3 H4 H5 H6 H7 H8 H9].
  destruct (w_dead s) eqn:Ed; [by specialize (H9 eq_refl)|].
  assert (Forall (λ t, t_dying t = false) (t :: F)) as HF.
  { constructor; [done|]. apply Forall_forall. intros x Hx. specialize (Hoth x Hx). unfold tkey in Hoth. by apply orb_false_iff in Hoth as [_ ?]. }
  specialize (H5 eq_refl HF). apply Forall_cons in H3 as [[? ?] H3]. apply sumB_nonneg in H3 as [? ?]. apply ownedSum_nonneg in H6.
  rewrite sumB_cons in H5. rewrite sumE_cons in H4. lia.
Qed.

(** One hold by a thread with one token. *)
Lemma wp_hold_tok {A} (f : St Ws A) (Q : A → list tok → Ws → Prop) t s0 :
  (∀ s F, BInv s (t :: F) → ∃ t', BInv (f s).2 (t' :: F) ∧ tkey t' = tkey t ∧ Q (f s).1 [t'] (f s).2) → bwp (hold f : M A) Q [t] s0.
Proof.
  intros Hf. simpl. intros s F _ HI. destruct (Hf s F HI) as (t' & HI' & Hk & HQ). exists [t']. split_and!; [done|done| |done].
  intros x Hx _. apply list_elem_of_singleton in Hx as ->. exists t. split; [by left|done].
Qed.

(** ** The operations *)

Lemma wrap64_id z : (- 2 ^ 63 ≤ z < 2 ^ 63)%Z → wrap64 z = z.
Proof. intros Hz. unfold wrap64. rewrite Z.mod_small; lia. Qed.

Context (HB : (0 ≤ limB < 2 ^ 63)%Z) (HE : (l_Entries (o_Budget o) < 2 ^ 63)%Z).

Lemma limE_range : (0 ≤ limE < 2 ^ 63)%Z.
Proof using HE. unfold limE, entries, DefaultEntries. destruct (_ <=? 0)%Z eqn:E; lia. Qed.

Lemma Reserve_ok b e t s0 :
  bwp (Reserve o b e) (λ r O _, match r with inl _ => O = [credit b e t] ∧ (0 ≤ b ∧ 0 ≤ e ∧ 0 ≤ t_b t ∧ 0 ≤ t_e t)%Z | inr _ => O = [t] end) [t] s0.
Proof using HB HE.
  assert (HL := limE_range). apply wp_hold_tok. intros s F HI. assert (HI' := HI). destruct HI' as [H1 H2 H3 H4 H5 H6 H7 H8 H9]. fold limB limE.
  destruct ((b <? 0) || (e <? 0))%Z eqn:Eb; [by exists t|]. rewrite !wrap64_id by lia.
  destruct ((limB - w_bytes s <? b) || (limE - w_entries s <? e))%Z eqn:Ec; [by exists t|].
  apply Forall_cons in H3 as [[Htb Hte] _]. exists (credit b e t). simpl. rewrite !wrap64_id by lia.
  split_and!; [|apply tkey_credit|done|lia..].
  apply (BInv_move s _ t); simpl; [done|done|apply tkey_credit|done|lia..|done|].
  intros b' e' Hu. destruct (t_un t) as [[b0 e0]|] eqn:Eu; simplify_eq/=. destruct (H8 t b0 e0 ltac:(by left) Eu) as (-> & -> & ?). done.
Qed.

Lemma Release_ok b e t s0 :
  t_dying t = false → (0 ≤ b ≤ t_b t)%Z → (0 ≤ e ≤ t_e t)%Z → bwp (Release b e) (λ _ O _, O = [credit (- b) (- e) t]) [t] s0.
Proof using HB HE.
  assert (HL := limE_range). intros Hdy Hb He. apply wp_hold_tok. intros s F HI. assert (HV := BInv_live _ _ _ HI Hdy).
  assert (HI' := HI). destruct HI' as [H1 H2 H3 H4 H5 H6 H7 H8 H9].
  exists (credit (- b) (- e) t). simpl. rewrite !wrap64_id by lia. split_and!; [|apply tkey_credit|done].
  apply (BInv_move s _ t); simpl; [done|done|apply tkey_credit|done|lia..|done|].
  intros b' e' Hu. destruct (t_un t) as [[b0 e0]|] eqn:Eu; simplify_eq/=. destruct (H8 t b0 e0 ltac:(by left) Eu) as (-> & -> & ?). done.
Qed.

Lemma own_ok i size t s0 :
  (0 ≤ size ≤ t_b t)%Z → bwp (own i size) (λ _ O _, ∃ d, (0 ≤ d ≤ size)%Z ∧ O = [shiftB (- d) t]) [t] s0.
Proof using.
  intros Hs. apply idle_then; [apply idle_fstat|]. intros [st|e] s1; [|exists 0%Z; split; [lia|]; by destruct t; unfold shiftB; rewrite Z.add_0_r].
  apply wp_hold_tok. intros s F HI. assert (HI' := HI). destruct HI' as [H1 H2 H3 H4 H5 H6 H7 H8 H9].
  apply Forall_cons in H3 as [[Htb Hte] _]. assert (HD := ownedSum_drop (w_owned s) (st_ino st)).
  assert (0 ≤ default 0 (w_owned s !! st_ino st))%Z as H0.
  { destruct (w_owned s !! st_ino st) as [x|] eqn:Ex; simpl; [|done]. exact (H6 _ _ Ex). }
  exists (shiftB (- size) t). split_and!; [|done|exists size; split; [lia|done]].
  apply (BInv_move s _ t); simpl; [done..|lia|lia|lia|lia|lia| | |intros b e Hu; apply (H8 t); [by left|done]].
  - rewrite ownedSum_insert. lia.
  - apply map_Forall_insert_2; [lia|done].
Qed.

Lemma disown_ok i t s0 : bwp (disown i) (λ d O _, (0 ≤ d)%Z ∧ O = [shiftB d t]) [t] s0.
Proof using.
  apply wp_hold_tok. intros s F HI. assert (HI' := HI). destruct HI' as [H1 H2 H3 H4 H5 H6 H7 H8 H9].
  apply Forall_cons in H3 as [[Htb Hte] _]. assert (HD := ownedSum_drop (w_owned s) i).
  assert (0 ≤ default 0 (w_owned s !! i))%Z as H0.
  { destruct (w_owned s !! i) as [x|] eqn:Ex; simpl; [|done]. exact (H6 _ _ Ex). }
  exists (shiftB (default 0%Z (w_owned s !! i)) t). split_and!; [|done|done|done].
  apply (BInv_move s _ t); simpl; [done..|lia|lia|lia|lia|lia|lia| |intros b e Hu; apply (H8 t); [by left|done]].
  by apply map_Forall_delete.
Qed.


(** ** Uploads *)

Lemma wp_then {A R} (p : M A) (k : A → M R) P Q O s0 :
  bwp p P O s0 → (∀ a O' s, P a O' s → bwp (k a) Q O' s) → bwp (p ≫= k) Q O s0.
Proof. intros Hp Hk. apply wp_bind. eapply wp_mono; [|exact Hp]. simpl. eauto. Qed.
Lemma shiftB_0 t : shiftB 0 t = t.
Proof. destruct t. unfold shiftB. simpl. by rewrite Z.add_0_r. Qed.

Lemma place_ok parent name base t s0 :
  bwp (place parent name base)
    (λ r O _, match r with inl (replaced, freed) => (0 ≤ freed)%Z ∧ O = [shiftB freed t] | inr _ => O = [t] end) [t] s0.
Proof using.
  unfold place. apply idle_then; [apply idle_openBeneath|]. intros r s1. apply idle_then; [idle_calls|]. intros [old|e] s2; [|done].
  apply idle_then; [apply idle_renameat|]. intros [[]|e] s3; [|by destruct e].
  apply idle_then; [idle_calls|]. intros _ s3'.
  destruct old as [old|]; [|simpl; by rewrite shiftB_0]. apply idle_then; [apply idle_fstat|]. intros [st|e] s4; [|simpl; by rewrite shiftB_0].
  destruct (_ =? 0)%nat; [|simpl; by rewrite shiftB_0]. eapply wp_then; [apply disown_ok|]. by intros d O' s [? ->].
Qed.

(** What an unpack has in hand less what a replaced name gave back. *)
Definition given (replaced : bool) (freed es : Z) (u : option (Z * Z)) : option (Z * Z) :=
  if replaced then (λ p : Z * Z, (p.1 - freed, p.2 - es)%Z) <$> u else u.

Lemma settle_ok i name rel size es t s0 :
  t_dying t = false → (0 ≤ size ≤ t_b t)%Z → (0 ≤ es ≤ t_e t)%Z →
  bwp (settle umask i name rel size es)
    (λ r O _, match r with
      | inl (replaced, freed) => ∃ t', O = [t'] ∧ t_dying t' = false ∧ t_un t' = given replaced freed es (t_un t)
      | inr _ => O = [t] end) [t] s0.
Proof using HB HE.
  intros Hdy Hs He. unfold settle. destruct (split rel) as [dir base]. apply idle_then; [apply idle_openDir|].
  intros [parent|e] s1; [|by apply idle_then; [apply idle_unlinkat|]].
  eapply wp_then; [apply place_ok|]. intros [[replaced freed]|e] O s2; [|intros ->; by apply idle_then; [apply idle_unlinkat|]]. intros [Hf ->].
  eapply wp_then; [apply own_ok; simpl; lia|]. intros [] O s3 (d & Hd & ->).
  destruct replaced; [|by eexists].
  eapply wp_then; [apply Release_ok; simpl; [done|lia|lia]|]. intros [] O s4 ->. eexists. split_and!; [done|done|].
  simpl. by destruct (t_un t).
Qed.

Lemma write_ok rel size mode sum r es t s0 :
  t_dying t = false → (0 ≤ size ≤ t_b t)%Z → (0 ≤ es ≤ t_e t)%Z →
  bwp (write sha256 pid umask o rel size mode sum r es)
    (λ r O _, match r with inl _ => ∃ t', O = [t'] ∧ t_dying t' = false | inr _ => O = [t] end) [t] s0.
Proof using HB HE.
  intros Hdy Hs He. unfold write. apply idle_then; [apply idle_stageFile|]. intros [[i name]|e] s1; [|done].
  apply idle_then; [apply idle_fillStaged|]. intros [got|e] s2; [|by apply idle_then; [apply idle_unlinkat|]].
  apply idle_then; [apply idle_fstat|]. intros [st|e] s3; [|by apply idle_then; [apply idle_unlinkat|]].
  eapply wp_then; [by apply settle_ok|]. intros [[replaced freed]|e] O s4; [|done]. intros (t' & -> & ? & _). by exists t'.
Qed.

Lemma Upload_ok p size mode sum r s0 :
  bwp (Upload sha256 pid umask o p size mode sum r) (λ _ O _, ∃ t, O = [t] ∧ t_dying t = false) [mkTok 0 0 None false] s0.
Proof using HB HE.
  unfold Upload. destruct (Clean p false) as [rel|e]; [|by eexists]. destruct (size <? 0)%Z; [by eexists|].
  destruct (match sum with Some _ => _ | None => _ end); [by eexists|]. cbv zeta. apply idle_then; [apply idle_exists|]. intros x s1.
  eapply wp_then; [apply Reserve_ok|]. intros [[]|e] O s2; [|intros ->; by eexists]. intros (-> & Hb & He & _).
  eapply wp_then; [apply write_ok; simpl; [done|lia|lia]|]. intros [info|e] O s3; [intros (t & -> & ?); by exists t|]. intros ->.
  eapply wp_then; [apply Release_ok; simpl; [done|lia|lia]|]. intros [] O s4 ->. by eexists.
Qed.


(** ** Unpack *)

(** A token that knows the counter holds [net]. *)
Definition holds (net : Z * Z) (O : list tok) : Prop := ∃ t, O = [t] ∧ t_dying t = false ∧ t_un t = Some net.
Definition less (net freed : Z * Z) : Z * Z := (net.1 - freed.1, net.2 - freed.2)%Z.

Lemma unpackAt_ok e make O s0 :
  (∀ d n, idle (make d n)) → bwp (unpackAt umask e make) (λ r O' _, O' = O ∧ r.1 = (0, 0)%Z) O s0.
Proof.
  intros Hm. unfold unpackAt. destruct (split _) as [dir base]. apply idle_then; [apply idle_openDir|]. intros [d|err] s1; [|done].
  apply idle_then; [apply Hm|]. by intros [[]|err] s2.
Qed.
Lemma unpackLink_ok e O s0 : bwp (unpackLink umask e) (λ r O' _, O' = O ∧ r.1 = (0, 0)%Z) O s0.
Proof.
  unfold unpackLink. destruct (split _) as [dir base]. apply idle_then; [apply idle_openDir|]. intros [d|err] s1; [|done].
  apply idle_then; [apply idle_fstatat|]. intros [st|err] s2; [|done]. destruct (st_kind st); [done| |done..].
  apply unpackAt_ok. intros ? ?. apply idle_linkat.
Qed.
Lemma unpackFile_ok e net t s0 :
  t_dying t = false → t_un t = Some net → (0 ≤ e_Size e ≤ t_b t)%Z → (1 ≤ t_e t)%Z →
  bwp (unpackFile sha256 pid umask o e) (λ r O _, holds (less net r.1) O) [t] s0.
Proof using HB HE.
  intros Hdy Hu Hs He. assert (holds (less net (0, 0)%Z) [t]) as H0 by (exists t; unfold less; rewrite !Z.sub_0_r; by destruct net).
  unfold unpackFile. apply idle_then; [apply idle_stageFile|]. intros [[i name]|err] s1; [|done].
  apply idle_then; [apply idle_fillStaged|]. intros [got|err] s2; [|by apply idle_then; [apply idle_unlinkat|]].
  eapply wp_then; [apply settle_ok; [done|done|lia]|]. intros [[replaced freed]|err] O s3; [|by intros ->].
  intros (t' & -> & Hd' & Hu'). rewrite Hu in Hu'. destruct replaced; simpl in Hu'; [by exists t'|].
  exists t'. unfold less. rewrite !Z.sub_0_r. by destruct net.
Qed.

Definition sizeOf (e : entry) : Z := match e_Type e with TReg => e_Size e | _ => 0%Z end.
Lemma unpackEntry_ok e net t s0 :
  t_dying t = false → t_un t = Some net → (0 ≤ sizeOf e ≤ t_b t)%Z → (1 ≤ t_e t)%Z →
  bwp (unpackEntry sha256 pid umask o e) (λ r O _, holds (less net r.1) O) [t] s0.
Proof using HB HE.
  intros Hdy Hu Hs He. assert (holds (less net (0, 0)%Z) [t]) as H0 by (exists t; unfold less; rewrite !Z.sub_0_r; by destruct net).
  assert (∀ p : M (Z * Z * option wsErr), bwp p (λ r O' _, O' = [t] ∧ r.1 = (0, 0)%Z) [t] s0 → bwp p (λ r O _, holds (less net r.1) O) [t] s0) as Hidle.
  { intros p. apply wp_mono. intros r O' s' [-> ->]. done. }
  unfold unpackEntry, sizeOf in *. destruct (e_Type e).
  - apply Hidle, unpackAt_ok. intros ? ?. apply idle_mkdirat.
  - by apply unpackFile_ok.
  - apply Hidle, unpackAt_ok. intros ? ?. apply idle_symlinkat.
  - apply Hidle, unpackLink_ok.
  - done.
Qed.

Lemma unpackSink_ok net e O s0 : holds net O → bwp (unpackSink sha256 pid umask o net e) (λ r O' _, holds r.1 O') O s0.
Proof using HB HE.
  intros (t & -> & Hdy & Hu). unfold unpackSink. eapply wp_then; [apply Reserve_ok|].
  intros [[]|err] O s1; [|intros ->; by exists t]. intros (-> & Hb & _ & Htb & Hte).
  eapply wp_then; [apply (unpackEntry_ok e (net.1 + sizeOf e, net.2 + 1)%Z); [done| |unfold sizeOf; simpl; lia|simpl; lia]|].
  - simpl. rewrite Hu. by destruct net.
  - intros [[fb fe] err] O s2 (t' & -> & ? & Hu'). by exists t'.
Qed.

Lemma readArchive_ok hs : ∀ n bytes files net O s0, holds net O →
  bwp (readArchive (o_Limits o) (unpackSink sha256 pid umask o) n bytes files net hs) (λ r O' _, holds r.1 O') O s0.
Proof using HB HE.
  induction hs as [|[h|] hs IH]; intros n bytes files net O s0 HO; cbn [readArchive]; [done| |done].
  destruct (entries (o_Limits o) <? n + 1)%Z; [done|]. destruct (readHeader _ _ _ _) as [[[e bytes'] files']|err]; [|done].
  eapply wp_then; [by apply unpackSink_ok|]. intros [net' [err|]] O' s1 HO'; [done|]. destruct (_ <? _)%Z; [done|]. by apply IH.
Qed.

(** Unpack gives back all it holds, and its caller then leaves the workspace. *)
Lemma Release_all net O s0 : holds net O → bwp (Release net.1 net.2) (λ _ O _, O = [mkTok 0 0 None true]) O s0.
Proof using HB HE.
  assert (HL := limE_range). intros (t & -> & Hdy & Hu). apply wp_hold_tok. intros s F HI. exists (mkTok 0 0 None true).
  assert (tkey t = true) as Hk by (unfold tkey; by rewrite Hu). split_and!; [|by rewrite Hk|done].
  assert (HF := bi_excl _ _ HI t ltac:(by left) Hk). injection HF as ->.
  destruct (bi_un _ _ HI t net.1 net.2 ltac:(by left)) as (Eb & Ee & _); [by rewrite Hu; destruct net|].
  assert (HV := BInv_live _ _ _ HI Hdy). destruct HI as [H1 H2 H3 H4 H5 H6 H7 H8 H9].
  constructor; simpl; rewrite ?Eb, ?Ee, ?Z.sub_diag.
  - change (wrap64 0) with 0%Z. lia.
  - change (wrap64 0) with 0%Z. lia.
  - by repeat constructor.
  - done.
  - intros _ HFa. by apply Forall_cons in HFa as [? _].
  - done.
  - by intros x ->%list_elem_of_singleton _.
  - by intros x b e ->%list_elem_of_singleton ?.
  - intros Hd. by specialize (H9 Hd).
Qed.

Lemma set_dead_ok t s0 : tkey t = true → bwp (hold (modify set_dead) : M unit) (λ _ O _, O = []) [t] s0.
Proof.
  intros Hk. simpl. intros s F _ HI. exists []. assert (HF := bi_excl _ _ HI t ltac:(by left) Hk). injection HF as ->.
  destruct HI as [H1 H2 H3 H4 H5 H6 H7 H8 H9]. split_and!; [|done|by intros x ?%not_elem_of_nil|done].
  constructor; simpl; try done; [lia|by intros x ?%not_elem_of_nil|by intros x b e ?%not_elem_of_nil].
Qed.

Lemma Unpack_ok hs s0 :
  bwp (bodyOf sha256 pid umask o (JUnpack hs)) (λ _ O _, O = [] ∨ ∃ t, O = [t] ∧ t_dying t = false) [mkTok 0 0 (Some (0, 0)%Z) false] s0.
Proof using HB HE.
  eapply (wp_then _ _ (λ r O _, ∃ t, O = [t] ∧ match r with None => t_dying t = false | Some _ => tkey t = true end)).
  - unfold Unpack. apply idle_then; [apply idle_readNames|]. intros [[|x names]|err] s1; [|by eexists..].
    eapply wp_then; [apply readArchive_ok; by eexists|]. intros [[b e] [err|]] O s2 HO; [|by destruct HO as (t & -> & ? & _); exists t].
    eapply wp_then; [by apply (Release_all (b, e))|]. intros [] O' s3 ->. by eexists.
  - intros [err|] O s1 (t & -> & Ht); [|right; by exists t]. eapply wp_mono; [|by apply set_dead_ok]. simpl. by left.
Qed.

(** ** Every reachable workspace *)

Definition jobTok (j : job) : list tok :=
  match j with JUpload _ _ _ _ _ => [mkTok 0 0 None false] | JUnpack _ => [mkTok 0 0 (Some (0, 0)%Z) false] | _ => [] end.
Definition jobKeys (j : job) : list bool := tkey <$> jobTok j.

Lemma finB {R} (r : R) O s0 : O = [] ∨ (∃ t, O = [t] ∧ t_dying t = false) → fin BInv ble r O s0.
Proof. intros [->|(t & -> & Hdy)] s F _ HI; [done|]. by eapply BInv_drop. Qed.

Lemma body_ok j s : bwp (bodyOf sha256 pid umask o j) (fin BInv ble) (jobTok j) s.
Proof using HB HE.
  destruct j as [p size mode sum r|p offset|p| | |hs|f g].
  - eapply wp_then; [apply Upload_ok|]. intros r' O s1 HO. apply finB. by right.
  - apply idle_then; [apply idle_Download|]. intros r s1. apply finB. by left.
  - apply idle_then; [apply idle_List|]. intros r s1. apply finB. by left.
  - apply idle_then; [apply idle_Capture|]. intros r s1. apply finB. by left.
  - apply idle_then; [apply idle_Size|]. intros r s1. apply finB. by left.
  - eapply wp_mono; [|apply Unpack_ok]. intros r O s1 HO. by apply finB.
  - eapply wp_mono; [|by apply idle_hold]. intros r O s1 ->. apply finB. by left.
Qed.

Lemma spawn_tok s jobs U j :
  mayStart s jobs j = true → BInv s U → (∀ x, x ∈ U → True → ∃ j', j' ∈ jobs ∧ tkey x ∈ jobKeys j') → BInv s (jobTok j ++ U).
Proof.
  clear HB HE sha256. intros Hm HI Hk. destruct j as [p size mode sum r|p offset|p| | |hs|f g]; try exact HI; simpl in Hm.
  - apply andb_prop in Hm as [Hd Hj]. apply negb_true_iff in Hd, Hj.
    assert (∀ x, x ∈ U → tkey x = false) as Hf.
    { intros x Hx. destruct (Hk x Hx I) as (j' & Hj' & Hin). destruct (tkey x); [|done]. exfalso.
      rewrite <-not_true_iff_false in Hj. apply Hj. apply existsb_exists. exists j'. split; [by apply list_elem_of_In|].
      destruct j'; try done; unfold jobKeys in Hin; simpl in Hin; set_solver. }
    destruct HI as [H1 H2 H3 H4 H5 H6 H7 H8 H9]. simpl. constructor; try done.
    + by constructor.
    + intros Hd' [_ HF]%Forall_cons. by apply H5.
    + intros x [->|Hx]%elem_of_cons Hx'; [done|]. by rewrite (Hf x Hx) in Hx'.
    + intros x b e [->|Hx]%elem_of_cons; [done|]. by apply H8.
    + intros Hd'. congruence.
  - destruct jobs as [|j jobs]; [|by rewrite andb_false_r in Hm]. rewrite andb_true_r in Hm. apply andb_prop in Hm as [Hm Ho].
    assert (U = []) as ->.
    { destruct U as [|x U]; [done|]. destruct (Hk x ltac:(by left) I) as (j' & Hj' & _). by apply not_elem_of_nil in Hj'. }
    apply andb_prop in Hm as [Hm He]. apply andb_prop in Hm as [Hd Hb]. apply negb_true_iff in Hd.
    destruct HI as [H1 H2 H3 H4 H5 H6 H7 H8 H9]. simpl. constructor; try done; simpl.
    + by repeat constructor.
    + intros _ _. by apply H5.
    + by intros x ->%list_elem_of_singleton _.
    + intros x b e ->%list_elem_of_singleton [= <- <-]. split_and!; [lia|lia|done].
    + intros Hd'. congruence.
Qed.

Lemma BInv_new : BInv newWs [].
Proof using HB HE.
  assert (HL := limE_range). constructor; simpl; try done; [lia|lia|by intros t ?%not_elem_of_nil|by intros t b e ?%not_elem_of_nil].
Qed.

Lemma BInv_reachable c : reachable (bodyOf sha256 pid umask o) mayStart newWs c → ∃ U, BInv (c_st c) U ∧ (quiet c → U = []).
Proof using HB HE.
  eapply (pool_invariant _ _ tkey (λ _, True) BInv ble jobKeys jobTok); [|apply BInv_new].
  intros s jobs U j Hm HI Hk. split_and!; [by eapply spawn_tok| |apply body_ok].
  intros x Hx _. by apply list_elem_of_fmap_2.
Qed.
End budget.

(** Size's walk ends before its fuel does. *)
Definition grew (o : Options) (es : Z) (r : option (Z * Z * gset N + wsErr)) : Prop :=
  match r with None => False | Some (inr _) => True | Some (inl acc) => (es ≤ acc.1.2 ≤ entries (o_Limits o))%Z end.
Lemma sizeDir_ends o fuel : ∀ d acc es,
  (es ≤ acc.1.2 ≤ entries (o_Limits o))%Z → (entries (o_Limits o) < es + Z.of_nat fuel)%Z → yields (sizeDir o fuel d acc) (grew o es).
Proof.
  induction fuel as [|fuel IH]; intros d acc e0 Ha Hf; cbn [sizeDir]; [lia|]. apply yields_bind. intros [names|e]; [|exact I].
  revert acc Ha. induction names as [|n names IHn]; intros [[b es] seen] Ha; [exact Ha|]. simpl in Ha.
  apply yields_bind. intros [st|[]]; [|by apply IHn|exact I..]. destruct (entries (o_Limits o) <=? es)%Z eqn:El; [exact I|].
  assert (e0 ≤ es + 1 ≤ entries (o_Limits o))%Z as Hn by lia.
  destruct (st_kind st); [|by destruct (_ && _); apply IHn|by apply IHn..].
  apply yields_bind. intros [sub|err]; [|destruct err; first [exact I | by apply IHn]].
  eapply yields_bind'; [apply (IH sub _ (es + 1)%Z); simpl; lia|]. intros [[acc'|err]|] Hr; simpl in Hr; [|exact I|done].
  apply IHn. lia.
Qed.
Lemma Size_ends o : yields (Size o) (λ r, r ≠ None).
Proof.
  assert (0 ≤ entries (o_Limits o))%Z by (unfold entries, DefaultEntries; destruct (_ <=? 0)%Z eqn:E; lia).
  eapply yields_mono; [|apply (sizeDir_ends o _ rootIno (0, 0, ∅)%Z 0%Z); simpl; lia]. by intros [r|].
Qed.

(** C18: the budget of a workspace is never overdrawn.  However uploads, reads,
    an unpack and the fiber's own changes to the files interleave, and whichever
    of their calls fail: the counter stays between zero and its limits (its
    int64s never wrap), and while nothing runs on a workspace that was not left
    for dead, the bytes it holds cover every file fiberd wrote and has not given
    back. *)
Theorem workspace_budget_sound sha256 pid umask o c :
  (0 ≤ l_Bytes (o_Budget o) < 2 ^ 63)%Z → (l_Entries (o_Budget o) < 2 ^ 63)%Z →
  reachable (bodyOf sha256 pid umask o) mayStart newWs c →
  (0 ≤ w_bytes (c_st c) ≤ l_Bytes (o_Budget o))%Z ∧ (0 ≤ w_entries (c_st c) ≤ entries (o_Budget o))%Z ∧
  (quiet c → w_dead (c_st c) = false → (ownedSum (w_owned (c_st c)) ≤ w_bytes (c_st c))%Z).
Proof.
  intros HB HE Hc. destruct (BInv_reachable sha256 pid umask o HB HE c Hc) as (U & HI & Hq).
  split; [exact (bi_bytes _ _ _ HI)|]. split; [exact (bi_entries _ _ _ HI)|]. intros Hqc Hd.
  rewrite (Hq Hqc) in HI. assert (Hs := bi_b _ _ _ HI Hd). specialize (Hs ltac:(done)). change (sumB []) with 0%Z in Hs. lia.
Qed.

(** ** Runs *)

Definition demoOptions : Options := mkOptions (mkLimits 10 5) (mkLimits 10 5) false.
Definition demoBody : job → M unit := bodyOf (λ x, x) "1" 18 demoOptions.
Definition up (p data : string) : job := JUpload p (Z.of_nat (String.length data)) 420 None (mkBody data false).
Definition steps (n : nat) : list (act (J := job)) := replicate n (Run 0 true).
Definition whole (j : job) (n : nat) : list (act (J := job)) := Spawn j :: steps n ++ [Reap 0].
Definition runDemo (l : list (act (J := job))) : option (config (S := Ws) (C := syscall) (J := job)) := run demoBody mayStart l (mkConfig newWs []).
Definition left (l : list (act (J := job))) : option (Z * Z * list (N * Z)) :=
  c ← runDemo l; match c_pool c with [] => Some (w_bytes (c_st c), w_entries (c_st c), map_to_list (w_owned (c_st c))) | _ => None end.

(** A file uploaded twice: the second replaces the first and gives back its bytes. *)
Definition replaceRun : list (act (J := job)) := whole (up "a" "abc") 27 ++ whole (up "a" "wxyz") 33.
Lemma workspace_budget_sound_witness :
  ∃ c, reachable demoBody mayStart newWs c ∧ quiet c ∧ w_owned (c_st c) = {[ 3%N := 4%Z ]} ∧ w_bytes (c_st c) = 4%Z ∧
    ((0 ≤ w_bytes (c_st c) ≤ 10)%Z ∧ (0 ≤ w_entries (c_st c) ≤ 5)%Z ∧
     (quiet c → w_dead (c_st c) = false → (ownedSum (w_owned (c_st c)) ≤ w_bytes (c_st c))%Z)).
Proof.
  assert (∃ c, runDemo replaceRun = Some c ∧ quiet c ∧ w_owned (c_st c) = {[ 3%N := 4%Z ]} ∧ w_bytes (c_st c) = 4%Z) as (c & Hc & Hq & Ho & Hb).
  { destruct (runDemo replaceRun) as [c|] eqn:E; [|vm_compute in E; discriminate]. exists c.
    assert (left replaceRun = Some (4, 1, [(3%N, 4%Z)])%Z) as Hl by (vm_compute; reflexivity).
    unfold left in Hl. rewrite E in Hl. simpl in Hl. destruct (c_pool c) eqn:Ep; [|discriminate]. injection Hl as Hb _ Ho.
    split_and!; [done|done| |done]. rewrite <-(list_to_map_to_list (w_owned (c_st c))), Ho. done. }
  exists c. split; [by exists replaceRun|]. split; [exact Hq|]. split; [exact Ho|]. split; [exact Hb|].
  apply (workspace_budget_sound (λ x, x) "1" 18 demoOptions c); [split; [discriminate|reflexivity]|reflexivity|by exists replaceRun].
Defined.

(** What the fiber removes stays on the counter, and once its inode number
    comes back nothing gives the bytes back: seven held for a tree of four. *)
Definition removeA : job := JFiber (λ fs, delete 2%N (dropName rootIno "a" fs)) (λ x, x).
Lemma inode_reuse_keeps_bytes :
  left (whole (up "a" "abc") 27 ++ whole removeA 1 ++ whole (up "b" "wxyz") 27) = Some (7, 2, [(2%N, 4%Z)])%Z.
Proof. vm_compute. reflexivity. Qed.

(** An unpack that fails gives back all it took. *)
Lemma failed_unpack_gives_back :
  left (whole (JUnpack [Some (mkHeader "d/f" TReg 420 2 "" "xy"); Some (mkHeader "e" TReg 420 9 "" "123456789")]) 29) = Some (0, 0, [(2%N, 2%Z)])%Z.
Proof. vm_compute. reflexivity. Qed.

(** Capture checks a directory's path without the slash its header carries, and
    Unpack checks it with the slash: a path of exactly 4096 bytes parks and is
    refused when it resumes. *)
Definition longPath : list string := (λ n, String.string_of_list_ascii (replicate n "a"%char)) <$> (replicate 15 255 ++ [127; 128])%nat.
Fixpoint nest (i : N) (cs : list string) : nodes :=
  match cs with [] => {[ i := NDir 493 ∅ ]} | c :: cs' => <[i := NDir 493 {[ c := (i + 2)%N ]}]> (nest (i + 2) cs') end.
Definition deepWs : Ws := set_nodes (<[stageIno := NDir 448 ∅]> (nest rootIno longPath)) newWs.
Definition deepOptions : Options := mkOptions (mkLimits 10 50) (mkLimits 10 50) false.
Definition deepArchive : list header + wsErr := (alone (Capture deepOptions) deepWs).1.
Definition resumed (hs : list header) : option wsErr := (alone (Unpack (λ x, x) "1" 18 deepOptions (Some <$> hs)) newWs).1.
Lemma longest_directory_not_resumed :
  match deepArchive with
  | inl hs => h_Name <$> last hs = Some (String.concat "/" longPath +:+ "/") ∧ resumed hs = Some ErrArchive ∧ resumed (take 16 hs) = None
  | inr _ => False
  end.
Proof. vm_compute. split_and!; reflexivity. Qed.
