(* ===== verification/WsfsTree.v ===== *)
(** * A tree that parks can resume (pkg/runtime/host/wsfs)

    Capture and Unpack as two walks side by side: each header Capture writes is
    one Unpack can read, and makes the next name of the same tree. *)

From Stdlib Require Import Ascii.
From S2P Require Import Prelude GoLib GoText Threads Wsfs.
From stdpp Require Import options.

Local Notation M := (prog Ws syscall).

(** ** Paths and their components *)

Definition good (c : string) : Prop := c ≠ "" ∧ contains_char "/" c = false.
Fixpoint pathOf (cs : list string) : string :=
  match cs with [] => "" | [c] => c | c :: cs' => c +:+ String "/" (pathOf cs') end.

Lemma pathOf_cons c cs : cs ≠ [] → pathOf (c :: cs) = c +:+ String "/" (pathOf cs).
Proof. by destruct cs. Qed.
Lemma pathOf_snoc R n : R ≠ [] → pathOf (R ++ [n]) = pathOf R +:+ String "/" n.
Proof.
  induction R as [|c R IH]; [done|]. intros _. destruct R as [|c' R]; [done|].
  change ((c :: c' :: R) ++ [n]) with (c :: ((c' :: R) ++ [n])). rewrite pathOf_cons by done. rewrite IH by done.
  rewrite (pathOf_cons c (c' :: R)) by done. by rewrite str_app_assoc.
Qed.
Lemma pathOf_ne cs : cs ≠ [] → Forall good cs → pathOf cs ≠ "".
Proof.
  destruct cs as [|c [|c' cs]]; [done|..]; intros _ [[Hc _] _]%Forall_cons; [done|].
  rewrite pathOf_cons by done. by destruct c.
Qed.
Lemma Split_pathOf cs : cs ≠ [] → Forall good cs → Split "/" (pathOf cs) = cs.
Proof.
  induction cs as [|c cs IH]; [done|]. intros _ [[_ Hc] Hcs]%Forall_cons. destruct cs as [|c' cs]; [by apply Split_none|].
  rewrite pathOf_cons by done. rewrite Split_app by done. by rewrite IH.
Qed.
(** The components openat2 and openDir see. *)
Lemma comps_pathOf cs : Forall good cs → (if pathOf cs ==? "" then [] else Split "/" (pathOf cs)) = cs.
Proof.
  intros Hcs. destruct (decide (cs = [])) as [->|Hne]; [done|].
  rewrite bool_decide_false by (by apply pathOf_ne). by apply Split_pathOf.
Qed.
Lemma joinName_pathOf R n : Forall good R → joinName (pathOf R) n = pathOf (R ++ [n]).
Proof.
  intros HR. unfold joinName. destruct (decide (R = [])) as [->|Hne]; [done|].
  rewrite bool_decide_false by (by apply pathOf_ne). by rewrite pathOf_snoc.
Qed.
Lemma split_pathOf R n : good n → split (pathOf (R ++ [n])) = (pathOf R, n).
Proof.
  intros [_ Hn]. unfold split. destruct (decide (R = [])) as [->|Hne].
  - simpl. by rewrite (proj2 (LastIndexByte_None n "/") Hn).
  - rewrite pathOf_snoc by done. rewrite LastIndexByte_app by done.
    rewrite str_take_app. by rewrite str_drop_app_cons.
Qed.

Lemma str_drop_past s n k : (String.length s ≤ k)%nat → str_drop k (s +:+ n) = str_drop (k - String.length s) n.
Proof.
  revert k. induction s as [|c s IH]; intros k Hk; [by rewrite str_app_nil_l, Nat.sub_0_r|].
  destruct k as [|k]; simpl in Hk; [lia|]. rewrite str_app_cons. simpl. apply IH. lia.
Qed.
Lemma TrimSuffix_none s n : good n → TrimSuffix (s +:+ n) "/" = s +:+ n.
Proof.
  intros [Hn Hc]. unfold TrimSuffix, CutSuffix, HasSuffix. rewrite str_length_app. change (String.length "/") with 1%nat.
  assert (String.length n ≠ 0) as Hl by (intros E%str_length_0; done).
  rewrite str_drop_past by lia. destruct (_ && _) eqn:E; [|done]. exfalso. apply andb_prop in E as [_ E]. apply bool_decide_eq_true_1 in E.
  rewrite <-(str_take_drop (String.length s + String.length n - 1 - String.length s) n), E, contains_char_app in Hc.
  simpl in Hc. by rewrite orb_true_r in Hc.
Qed.
Lemma TrimSuffix_slash s : TrimSuffix (s +:+ "/") "/" = s.
Proof.
  unfold TrimSuffix, CutSuffix, HasSuffix. rewrite str_length_app. change (String.length "/") with 1%nat.
  replace (String.length s + 1 - 1)%nat with (String.length s) by lia. rewrite str_drop_app, str_take_app.
  rewrite (proj2 (Nat.leb_le 1 _)) by lia. done.
Qed.

Lemma Clean_inl p q : Clean p false = inl q ↔
  p ≠ "" ∧ (String.length p ≤ MaxPathBytes)%nat ∧ contains_char (byte 0) p = false ∧ HasPrefix p "/" = false ∧
  q = TrimSuffix p "/" ∧ q ≠ "" ∧ checkComps 0 (Split "/" q) = true.
Proof.
  unfold Clean. case_bool_decide as Ep; [split; [done|by intros (? & _)]|]. destruct (MaxPathBytes <? String.length p)%nat eqn:El.
  { apply Nat.ltb_lt in El. split; [done|]. intros (_ & ? & _). lia. }
  apply Nat.ltb_ge in El. destruct (contains_char _ p); [split; [done|by intros (_ & _ & ? & _)]|].
  destruct (HasPrefix p "/"); [split; [done|by intros (_ & _ & _ & ? & _)]|]. cbv zeta.
  case_bool_decide as Et; [split; [done|by intros (_ & _ & _ & _ & -> & ? & _)]|].
  destruct (checkComps _ _) eqn:Ec; (split; [|intros (_ & _ & _ & _ & -> & _ & ?); congruence]); [intros [= <-]|]; done.
Qed.
Lemma Clean_pathOf R n p : good n → Clean (pathOf (R ++ [n])) false = inl p → p = pathOf (R ++ [n]).
Proof.
  intros Hn (_ & _ & _ & _ & -> & _)%Clean_inl. destruct (decide (R = [])) as [->|Hne]; [exact (TrimSuffix_none "" n Hn)|].
  rewrite pathOf_snoc by done. change (String "/" n) with ("/" +:+ n). rewrite <-str_app_assoc. by apply TrimSuffix_none.
Qed.
(** A directory's header has a slash, which must still fit. *)
Lemma Clean_dir R n p : good n → (String.length (pathOf (R ++ [n])) < MaxPathBytes)%nat →
  Clean (pathOf (R ++ [n])) false = inl p → Clean (pathOf (R ++ [n]) +:+ "/") false = inl (pathOf (R ++ [n])).
Proof.
  intros Hn Hl Hp. assert (Hp' := Clean_pathOf _ _ _ Hn Hp). subst p. apply Clean_inl in Hp as (Hne & _ & H0 & Hs & _ & _ & Hc).
  apply Clean_inl. rewrite TrimSuffix_slash, str_length_app, contains_char_app, H0. split_and!; try done.
  - by destruct (pathOf (R ++ [n])).
  - change (String.length "/") with 1%nat. lia.
  - destruct (pathOf (R ++ [n])) as [|c q]; [done|]. rewrite str_app_cons. unfold HasPrefix in *. cbn [String.prefix] in *.
    destruct (ascii_dec "/" c); [|done]. destruct q; simpl in Hs; discriminate.
Qed.

(** ** Where a path leads *)

Definition at_ (fs : nodes) (cs : list string) : option (N * node) :=
  match walk fs rootIno cs with inl i => (λ x, (i, x)) <$> fs !! i | inr _ => None end.

Lemma walk_app fs d cs cs' : walk fs d (cs ++ cs') = match walk fs d cs with inl i => walk fs i cs' | inr e => inr e end.
Proof. revert d. induction cs as [|c cs IH]; intros d; simpl; [done|]. destruct (fs !! d) as [[m es|m b|t|]|]; try done. destruct (es !! c); [apply IH|done]. Qed.

Lemma at_walk fs cs i x : at_ fs cs = Some (i, x) ↔ walk fs rootIno cs = inl i ∧ fs !! i = Some x.
Proof. unfold at_. destruct (walk fs rootIno cs) as [j|e]; [|naive_solver]. destruct (fs !! j) eqn:E; naive_solver. Qed.

Lemma at_snoc fs cs n : at_ fs (cs ++ [n]) =
  match at_ fs cs with Some (_, NDir _ es) => j ← es !! n; (λ x, (j, x)) <$> fs !! j | _ => None end.
Proof.
  unfold at_. rewrite walk_app. destruct (walk fs rootIno cs) as [d|e]; [|done]. simpl.
  destruct (fs !! d) as [[m es|m b|t|]|]; simpl; try done. by destruct (es !! n).
Qed.

Lemma at_prefix fs cs t : at_ fs cs = None → at_ fs (cs ++ t) = None.
Proof.
  intros H. induction t as [|n t IH] using rev_ind; [by rewrite app_nil_r|]. by rewrite app_assoc, at_snoc, IH.
Qed.

(** Every name is of a file that is there and is not the staging directory; a
    directory has one path. *)
Record tree_ok (fs : nodes) : Prop := {
  tr_closed : ∀ d m es n j, fs !! d = Some (NDir m es) → es !! n = Some j → j ≠ stageIno ∧ is_Some (fs !! j);
  tr_root : ∃ m es, fs !! rootIno = Some (NDir m es);
  tr_one : ∀ R R' d m es x, at_ fs R = Some (d, NDir m es) → at_ fs R' = Some (d, x) → R = R';
}.

Definition stageEmpty (fs : nodes) : Prop := ∃ m, fs !! stageIno = Some (NDir m ∅).

Lemma tree_reach fs cs i x : tree_ok fs → at_ fs cs = Some (i, x) → i ≠ stageIno.
Proof.
  intros Hok. destruct cs as [|n cs _] using rev_ind; [intros [[= <-] _]%at_walk; done|].
  rewrite at_snoc. destruct (at_ fs cs) as [[d [m es|?|?|]]|] eqn:E; try done.
  destruct (es !! n) as [j|] eqn:En; [|done]. simpl. destruct (fs !! j); [|done]. intros [= <- _].
  apply at_walk in E as [_ E]. by destruct (tr_closed _ Hok _ _ _ _ _ E En).
Qed.

(** ** One more name *)

(** [fs'] is [fs] with the name [n] for [i], a file [x], in the directory [d],
    where it was no directory's. *)
Definition isEmpty (x : node) : Prop := match x with NDir _ es => es = ∅ | _ => True end.
Definition isDir (x : node) : bool := match x with NDir _ _ => true | _ => false end.

Section more.
Context (fs fs' : nodes) (R : list string) (n : string) (d i : N) (m : N) (es : gmap string N) (x : node).
Context (Hok : tree_ok fs) (HR : at_ fs R = Some (d, NDir m es)) (Hn : ∀ j y, at_ fs (R ++ [n]) = Some (j, y) → isDir y = false).
Context (Hd : fs' !! d = Some (NDir m (<[n := i]> es))) (Hi : fs' !! i = Some x) (Hx : isEmpty x) (Hid : i ≠ d) (His : i ≠ stageIno).
Context (Hk : ∀ j, j ≠ d → j ≠ i → fs' !! j = fs !! j) (Hnew : fs !! i = None ∨ fs !! i = Some x ∧ isDir x = false).

Definition moved (p : N * node) : N * node := if decide (p.1 = d) then (d, NDir m (<[n := i]> es)) else p.

Lemma more_node j y : fs !! j = Some y → (λ z, (j, z)) <$> fs' !! j = Some (moved (j, y)).
Proof using Hd Hi Hid Hk Hnew Hx.
  intros Hj. unfold moved. simpl. destruct (decide (j = d)) as [->|Hjd]; [by rewrite Hd|].
  destruct (decide (j = i)) as [->|Hji]; [|by rewrite (Hk j Hjd Hji), Hj]. destruct Hnew as [?|[? _]]; rewrite Hi; by simplify_eq/=.
Qed.

Lemma at_more cs : at_ fs' cs = if decide (cs = R ++ [n]) then Some (i, x) else moved <$> at_ fs cs.
Proof using Type*.
  induction cs as [|k cs IH] using rev_ind.
  { rewrite decide_False by (by destruct R). destruct (tr_root _ Hok) as (mr & er & Hr). unfold at_. simpl. rewrite Hr. simpl. by apply more_node. }
  rewrite !at_snoc, IH. destruct (decide (cs = R ++ [n])) as [->|Hne].
  { rewrite decide_False by (intros E%app_inj_tail; destruct E as [E _]; apply (f_equal length) in E; rewrite length_app in E; simpl in E; lia).
    assert (match at_ fs (R ++ [n]) with Some (_, NDir _ es0) => j ← es0 !! k; (λ z, (j, z)) <$> fs !! j | _ => None end = None) as ->.
    { destruct (at_ fs (R ++ [n])) as [[j [? ?|?|?|]]|] eqn:E; try done. by specialize (Hn _ _ eq_refl). }
    simpl. destruct x as [mx ex|?|?|]; try done. simpl in Hx. by rewrite Hx. }
  destruct (at_ fs cs) as [[j y]|] eqn:Ec; simpl.
  2: { rewrite decide_False; [done|]. intros [-> ->]%app_inj_tail. congruence. }
  assert (∀ es' k' j', y = NDir m es' ∨ (∃ m', y = NDir m' es') → es' !! k' = Some j' → is_Some (fs !! j')) as Hcl.
  { intros es' k' j' Hy Hj'. apply at_walk in Ec as [_ Ec]. destruct Hy as [->|[m' ->]]; by destruct (tr_closed _ Hok _ _ _ _ _ Ec Hj'). }
  destruct (decide (cs = R)) as [->|HcR].
  - rewrite HR in Ec. injection Ec as <- <-. unfold moved at 1. simpl. rewrite decide_True by done.
    destruct (decide (k = n)) as [->|Hkn]; [rewrite lookup_insert_eq, decide_True by done; simpl; by rewrite Hi|].
    rewrite lookup_insert_ne by done. rewrite decide_False by (intros [_ ?]%app_inj_tail; done).
    destruct (es !! k) as [j'|] eqn:Ek; [|done]. simpl. destruct (Hcl es k j') as [z Hz]; [by left|done|].
    rewrite Hz. simpl. by apply more_node.
  - assert (j ≠ d) as Hjd by (intros ->; apply HcR; symmetry; by eapply (tr_one _ Hok)).
    unfold moved at 1. simpl. rewrite decide_False by done. rewrite decide_False by (intros [? _]%app_inj_tail; done).
    destruct y as [m' es'|?|?|]; try done. destruct (es' !! k) as [j'|] eqn:Ek; [|done]. simpl.
    destruct (Hcl es' k j') as [z Hz]; [right; by exists m'|done|]. rewrite Hz. simpl. by apply more_node.
Qed.

Lemma tree_more : tree_ok fs'.
Proof using Type*.
  assert (d ≠ stageIno) as Hds by exact (tree_reach _ _ _ _ Hok HR).
  assert (∀ j, is_Some (fs !! j) → is_Some (fs' !! j)) as Hsome.
  { intros j [y Hy]. assert (Hm := more_node j y Hy). destruct (fs' !! j); [done|]. discriminate. }
  constructor.
  - intros d0 m0 es0 n0 j H0 Hj. destruct (decide (d0 = d)) as [->|Hdd].
    { rewrite Hd in H0. injection H0 as <- <-. destruct (decide (n0 = n)) as [->|Hnn].
      - rewrite lookup_insert_eq in Hj. injection Hj as <-. by rewrite Hi.
      - rewrite lookup_insert_ne in Hj by done. apply at_walk in HR as [_ HR']. destruct (tr_closed _ Hok _ _ _ _ _ HR' Hj). auto. }
    destruct (decide (d0 = i)) as [->|Hdi]; [rewrite Hi in H0; injection H0 as ->; simpl in Hx; by rewrite Hx in Hj|].
    rewrite (Hk d0 Hdd Hdi) in H0. destruct (tr_closed _ Hok _ _ _ _ _ H0 Hj). auto.
  - destruct (tr_root _ Hok) as (mr & er & Hr). assert (Hm := more_node _ _ Hr). unfold moved in Hm. simpl in Hm.
    destruct (decide (rootIno = d)) as [E|E]; destruct (fs' !! rootIno); simplify_eq/=; eauto.
  - assert (∀ cs y, at_ fs cs ≠ Some (i, y) ∨ isDir x = false) as Hfresh.
    { intros cs y. destruct Hnew as [E|[_ ?]]; [left|by right]. intros [_ ?]%at_walk. congruence. }
    intros R1 R2 d0 m0 es0 x0. rewrite !at_more. unfold moved.
    destruct (decide (R1 = R ++ [n])) as [->|H1], (decide (R2 = R ++ [n])) as [->|H2]; [done|..].
    + intros [= Ed Ex]. destruct (at_ fs R2) as [[j y]|] eqn:E2; [|done]. simpl. case_decide; [intros [= ?]; congruence|]. intros [= -> ->].
      destruct (Hfresh R2 x0) as [?|Hf]; [congruence|]. by rewrite Ex in Hf.
    + destruct (at_ fs R1) as [[j y]|] eqn:E1; [|done]. simpl. intros H1' [= Ed Ex]. case_decide; simpl in H1'; [congruence|].
      injection H1' as -> ->. destruct Hnew as [E|[E Hf]]; apply at_walk in E1 as [_ E1]; [congruence|]. rewrite <-Ed, E in E1. injection E1 as E1. by rewrite E1 in Hf.
    + destruct (at_ fs R1) as [[j1 y1]|] eqn:E1; [|done]. destruct (at_ fs R2) as [[j2 y2]|] eqn:E2; [|done]. simpl.
      intros H1' H2'. assert (j1 = j2) as -> by (repeat case_decide; simplify_eq/=; done).
      repeat case_decide; simplify_eq/=; [|by eapply (tr_one _ Hok)].
      assert (R = R1) as <- by (by eapply (tr_one _ Hok)). by eapply (tr_one _ Hok).
Qed.
End more.

(** ** Calls that do not fail, one at a time *)

Lemma alone_syscall {A} c (f : St Ws (A + errno)) s : alone (syscallM c f : M (A + errno)) s = f s.
Proof. unfold syscallM. simpl. by destruct (f s). Qed.

Definition openErr (e : errno) : wsErr := match e with ELOOP | ENOTDIR => ErrPath | EISDIR => ErrNotRegular | ENOENT => ErrNotExist | _ => ErrOther end.
Lemma alone_open d rel h s :
  alone (openBeneath d rel h) s = (match openat2 (w_nodes s) d rel h with inl i => inl i | inr e => inr (openErr e) end, s).
Proof. unfold openBeneath, eagainRetries. simpl. by destruct (openat2 (w_nodes s) d rel h) as [i|[]]. Qed.

Lemma open_name fs d n h i x : good n → namesOf fs d !! n = Some i → fs !! i = Some x → (h = ByPath ∨ isDir x = true) → openat2 fs d n h = inl i.
Proof.
  intros [Hne Hs] Hn Hi Hh. unfold openat2. rewrite bool_decide_false by done. rewrite (Split_none _ _ Hs). simpl.
  unfold namesOf in Hn. destruct (fs !! d) as [[m es|?|?|]|]; try done. rewrite Hn, Hi.
  destruct h, x; destruct Hh; done.
Qed.
Lemma open_dir fs R d m es : Forall good R → at_ fs R = Some (d, NDir m es) → openat2 fs rootIno (pathOf R) AsDir = inl d.
Proof. intros HR [Hw Hd]%at_walk. unfold openat2. rewrite comps_pathOf by done. by rewrite Hw, Hd. Qed.

(** ** What a new name makes of the files *)

Lemma newIno_new fs : fs !! newIno fs = None ∧ newIno fs ≠ rootIno ∧ newIno fs ≠ stageIno.
Proof.
  assert (H := is_fresh (dom fs ∪ {[ rootIno; stageIno ]})). fold (newIno fs) in H. split_and!; [|set_solver..].
  apply not_elem_of_dom. set_solver.
Qed.

(** [fs'] has the file [x] at [i] and its name [n] in [d], and is [fs] elsewhere. *)
Record gains (fs fs' : nodes) (d : N) (n : string) (i : N) (x : node) : Prop := {
  ga_dir : ∀ m es, fs !! d = Some (NDir m es) → fs' !! d = Some (NDir m (<[n := i]> es));
  ga_new : i ≠ d → fs' !! i = Some x;
  ga_rest : ∀ j, j ≠ d → j ≠ i → fs' !! j = fs !! j;
}.
Lemma gains_addNode fs d n x : newIno fs ≠ d → gains fs (addNode d n x fs) d n (newIno fs) x.
Proof.
  intros Hd. unfold addNode, addName. split.
  - intros m es H. rewrite lookup_alter_eq, lookup_insert_ne by done. by rewrite H.
  - intros _. rewrite lookup_alter_ne by done. by rewrite lookup_insert_eq.
  - intros j Hj Hi. rewrite lookup_alter_ne by done. by rewrite lookup_insert_ne.
Qed.
Lemma gains_addName fs d n i x : fs !! i = Some x → gains fs (addName d n i fs) d n i x.
Proof.
  intros Hi. unfold addName. split.
  - intros m es H. rewrite lookup_alter_eq. by rewrite H.
  - intros Hd. by rewrite lookup_alter_ne.
  - intros j Hj _. by rewrite lookup_alter_ne.
Qed.

(** What changes the staging directory and adds files leaves every path. *)
Lemma at_keep fs fs' cs p : tree_ok fs → (∀ j, j ≠ stageIno → is_Some (fs !! j) → fs' !! j = fs !! j) → at_ fs cs = Some p → at_ fs' cs = Some p.
Proof.
  intros Hok Hk. revert p. induction cs as [|n cs IH] using rev_ind; intros [i x] Hp.
  - destruct (tr_root _ Hok) as (m & es & Hr). apply at_walk in Hp as [[= <-] Hx]. apply at_walk. split; [done|]. rewrite Hk; [done|done|by rewrite Hr].
  - assert (i ≠ stageIno) as Hi by (by eapply tree_reach). assert (Hx := Hp). apply at_walk in Hx as [_ Hx].
    rewrite at_snoc in *. destruct (at_ fs cs) as [[d y]|]; [|done]. rewrite (IH _ eq_refl). destruct y as [m es|?|?|]; try done.
    destruct (es !! n) as [j|]; [|done]. simpl in *. destruct (fs !! j) as [z|] eqn:Ez; [|done]. simpl in Hp. injection Hp as -> ->. by rewrite Hk, Ez.
Qed.

(** Programs that only read. *)
Definition reader {A} (p : M A) : Prop := ∀ q, (alone p q).2 = q.
Lemma reader_ret {A} (a : A) : reader (mret a).
Proof. done. Qed.
Lemma reader_bind {A B} (p : M A) (k : A → M B) : reader p → (∀ a, reader (k a)) → reader (p ≫= k).
Proof. intros Hp Hk q. rewrite alone_bind, Hk. apply Hp. Qed.
Lemma reader_ask {A} c (k : bool → M A) : reader (k true) → reader (Ask c k).
Proof. intros Hk q. apply Hk. Qed.
Lemma reader_gets {A} (f : Ws → A) : reader (hold (gets f)).
Proof. done. Qed.
Lemma reader_sys {A} c (f : Ws → A + errno) : reader (syscallM c (gets f)).
Proof. intros q. by rewrite alone_syscall. Qed.
Lemma reader_open d rel h : reader (openBeneath d rel h).
Proof. intros q. by rewrite alone_open. Qed.
Ltac reader_calls := repeat
  match goal with
  | |- reader (mret _) => apply reader_ret
  | |- reader (Ret _) => apply reader_ret
  | |- reader (_ ≫= _) => apply reader_bind; [|intros ?]
  | |- reader (Ask _ _) => apply reader_ask; cbv beta iota
  | |- reader (hold (gets _)) => apply reader_gets
  | |- reader (syscallM _ (gets _)) => apply reader_sys
  | |- reader (openBeneath _ _ _) => apply reader_open
  | |- reader (let _ := _ in _) => cbv zeta
  | |- reader (match ?x with _ => _ end) => destruct x
  | |- reader (?f) => let f' := eval cbv beta delta [readNames fstatat fstat emit countEmit captureBody captureFile openRegular readLink] in f in progress change (reader f')
  | |- reader _ => solve [eauto]
  end.
Lemma reader_captureEach o sub d rel names : (∀ f p c, reader (sub f p c)) → ∀ c, reader (captureEach o sub d rel names c).
Proof. intros Hs. induction names as [|n names IH]; intros c; cbn [captureEach]; reader_calls. Qed.
Lemma reader_captureDir o depth : ∀ d rel c, reader (captureDir o depth d rel c).
Proof. induction depth as [|depth IH]; intros d rel c; cbn [captureDir]; reader_calls. by apply reader_captureEach. Qed.

Section calls.
Context (sha256 : string → string) (pid : string) (umask : N) (o : Options).

Lemma alone_mkdir_there d n mode i s : namesOf (w_nodes s) d !! n = Some i → alone (mkdirat umask d n mode) s = (inr EEXIST, s).
Proof. intros H. unfold mkdirat. rewrite alone_syscall. by rewrite H. Qed.
Lemma alone_makeDirs cs : ∀ cur d s, Forall good cs → walk (w_nodes s) cur cs = inl d → (∃ m es, w_nodes s !! d = Some (NDir m es)) →
  alone (makeDirs umask cur cs) s = (inl d, s).
Proof.
  induction cs as [|c cs IH]; intros cur d s; [by intros _ [= ->]|]. intros [Hc Hcs]%Forall_cons Hw Hd. cbn [makeDirs].
  simpl in Hw. destruct (w_nodes s !! cur) as [[m es|?|?|]|] eqn:Ecur; try done. destruct (es !! c) as [i|] eqn:Ec; [|done].
  assert (∃ mi ei, w_nodes s !! i = Some (NDir mi ei)) as (mi & ei & Hi).
  { destruct cs as [|c' cs]; [by injection Hw as ->|]. simpl in Hw. destruct (w_nodes s !! i) as [[mi ei|?|?|]|]; try done. eauto. }
  assert (namesOf (w_nodes s) cur !! c = Some i) as Hn by (unfold namesOf; by rewrite Ecur).
  rewrite alone_bind, (alone_mkdir_there _ _ _ i) by done. cbn [fst snd].
  rewrite alone_bind, alone_open. rewrite (open_name _ _ _ AsDir i (NDir mi ei)); [|done|done|done|by right].
  cbn [fst snd]. by apply IH.
Qed.
Lemma alone_openDir R d m es create s : Forall good R → at_ (w_nodes s) R = Some (d, NDir m es) → alone (openDir umask (pathOf R) create) s = (inl d, s).
Proof.
  intros HR Hd. unfold openDir. destruct (negb create || (pathOf R ==? "")) eqn:E.
  - rewrite alone_open. by erewrite open_dir.
  - apply orb_false_iff in E as [_ E]. assert (HC := comps_pathOf R HR). rewrite E in HC. rewrite HC.
    apply at_walk in Hd as [Hw Hd]. apply alone_makeDirs; eauto.
Qed.
Lemma alone_unpackAt e make R n d m es u u' :
  Forall good R → good n → e_Path e = pathOf (R ++ [n]) → at_ (w_nodes u) R = Some (d, NDir m es) → alone (make d n) u = (inl tt, u') →
  alone (unpackAt umask e make) u = ((0, 0, None)%Z, u').
Proof.
  intros HR Hn He Hd Hm. unfold unpackAt. rewrite He, split_pathOf by done. rewrite alone_bind. erewrite alone_openDir by done.
  cbn [fst snd]. rewrite alone_bind, Hm. done.
Qed.


Lemma alone_mkdir d n mode m es u : w_nodes u !! d = Some (NDir m es) → es !! n = None →
  alone (mkdirat umask d n mode) u = (inl tt, set_nodes (addNode d n (NDir (N.ldiff mode umask) ∅) (w_nodes u)) u).
Proof. intros Hd Hn. unfold mkdirat. rewrite alone_syscall. unfold namesOf. by rewrite Hd, Hn. Qed.
Lemma alone_symlink t d n m es u : w_nodes u !! d = Some (NDir m es) → es !! n = None →
  alone (symlinkat t d n) u = (inl tt, set_nodes (addNode d n (NLnk t) (w_nodes u)) u).
Proof. intros Hd Hn. unfold symlinkat. rewrite alone_syscall. unfold namesOf. by rewrite Hd, Hn. Qed.
Lemma alone_link td tn i d n m es u : namesOf (w_nodes u) td !! tn = Some i → w_nodes u !! d = Some (NDir m es) → es !! n = None →
  alone (linkat td tn d n) u = (inl tt, set_nodes (addName d n i (w_nodes u)) u).
Proof. intros Ht Hd Hn. unfold linkat. rewrite alone_syscall, Ht. unfold namesOf. by rewrite Hd, Hn. Qed.

(** A state with other files and the same accounts. *)
Definition sameHeld (u u' : Ws) : Prop := w_bytes u' = w_bytes u ∧ w_entries u' = w_entries u.

(** The file in the staging directory, as stageFile and fillStaged leave it. *)
Definition staged (fs fs' : nodes) (nm : string) (x : node) : Prop :=
  (∃ ms, fs' !! stageIno = Some (NDir ms {[ nm := newIno fs ]}) ∧ fs !! stageIno = Some (NDir ms ∅)) ∧ fs' !! newIno fs = Some x ∧
  ∀ j, j ≠ stageIno → j ≠ newIno fs → fs' !! j = fs !! j.

Lemma alone_stageFile mode u : stageEmpty (w_nodes u) →
  ∃ nm u', alone (stageFile pid umask mode) u = (inl (newIno (w_nodes u), nm), u') ∧ sameHeld u u' ∧
    staged (w_nodes u) (w_nodes u') nm (NReg (N.land mode modePerm) "").
Proof.
  intros [ms Hs]. destruct (newIno_new (w_nodes u)) as (Hnew & _ & His).
  unfold stageFile. rewrite alone_bind. cbn [hold alone fst snd]. set (nm := pid +:+ "." +:+ FormatUint _). set (u1 := set_seq _ u).
  rewrite alone_bind, alone_syscall. unfold namesOf. change (w_nodes u1) with (w_nodes u). rewrite Hs, lookup_empty. cbn [fst snd].
  rewrite alone_bind, alone_syscall. cbn [fst snd]. eexists nm, _. split; [reflexivity|]. split; [done|]. cbn [w_nodes set_nodes].
  destruct (gains_addNode (w_nodes u) stageIno nm (NReg (N.ldiff (N.land mode modePerm) umask) "") His) as [Gd Gn Gr].
  specialize (Gd _ _ Hs). specialize (Gn His). split; [|split].
  - exists ms. split; [|done]. by rewrite lookup_alter_ne.
  - by rewrite lookup_alter_eq, Gn.
  - intros j Hj Hji. rewrite lookup_alter_ne by done. by apply Gr.
Qed.

Lemma alone_fillStaged fs nm mode data size u :
  size = Z.of_nat (String.length data) → staged fs (w_nodes u) nm (NReg mode "") → newIno fs ≠ stageIno →
  ∃ u', alone (fillStaged sha256 o (newIno fs) (mkBody data false) size None) u = (inl (sha256 data), u') ∧ sameHeld u u' ∧
    staged fs (w_nodes u') nm (NReg mode data).
Proof.
  intros -> (Hs & Hi & Hr) His. unfold fillStaged. cbn [bd_data bd_fails]. rewrite alone_bind, alone_syscall. cbn [fst snd].
  rewrite Z.ltb_irrefl, Nat2Z.id, str_take_all by lia. set (u1 := set_nodes _ u).
  assert (∀ q, alone (c ← (if o_Owner o then syscallM SChown (gets (λ _, inl tt)) else mret (inl tt));
          match c with
          | inr _ => mret (inr ErrOther)
          | inl _ => y ← syscallM SSync (gets (λ _, inl tt)); mret match y with inl _ => inl (sha256 data) | inr _ => inr ErrOther end
          end : M (string + wsErr)) q = (inl (sha256 data), q)) as ->.
  { intros q. rewrite alone_bind. destruct (o_Owner o); [rewrite alone_syscall|]; by cbn. }
  exists u1. split; [done|]. split; [done|]. destruct Hs as (ms & Hs & Hs0). split; [|split].
  - exists ms. split; [|done]. cbn. by rewrite lookup_alter_ne.
  - cbn. by rewrite lookup_alter_eq, Hi.
  - intros j Hj Hji. cbn. rewrite lookup_alter_ne by done. by apply Hr.
Qed.

Lemma alone_place d n nm i ms ss m es u :
  good n → w_nodes u !! stageIno = Some (NDir ms ss) → ss !! nm = Some i → w_nodes u !! d = Some (NDir m es) → es !! n = None →
  alone (place d nm n) u = (inl (false, 0%Z), set_nodes (addName d n i (dropName stageIno nm (w_nodes u))) u).
Proof.
  intros [Hne Hsl] Hs Hss Hd Hn. unfold place. rewrite alone_bind, alone_open.
  assert (openat2 (w_nodes u) d n ByPath = inr ENOENT) as ->.
  { unfold openat2. rewrite bool_decide_false by done. rewrite (Split_none _ _ Hsl). simpl. by rewrite Hd, Hn. }
  cbn [fst snd openErr]. rewrite alone_bind. cbn [alone mret prog_ret fst snd]. rewrite alone_bind. unfold renameat.
  rewrite alone_syscall. unfold namesOf. rewrite Hs, Hss, Hd, Hn. done.
Qed.

Lemma alone_own i size u : w_nodes (alone (own i size) u).2 = w_nodes u ∧ sameHeld u (alone (own i size) u).2.
Proof.
  unfold own. rewrite alone_bind. unfold fstat. rewrite alone_syscall. unfold gets. cbn [fst snd]. by destruct (statOf u i).
Qed.

Lemma alone_settle fs nm x R n d m es size u :
  tree_ok fs → staged fs (w_nodes u) nm x → Forall good R → good n → at_ fs R = Some (d, NDir m es) → es !! n = None →
  ∃ u', alone (settle umask (newIno fs) nm (pathOf (R ++ [n])) size 1) u = (inl (false, 0%Z), u') ∧ sameHeld u u' ∧
    gains fs (w_nodes u') d n (newIno fs) x.
Proof.
  intros Hok ((ms & Hs & Hs0) & Hi & Hr) HR Hn Hd Hen. destruct (newIno_new fs) as (Hnew & _ & His).
  assert (at_ (w_nodes u) R = Some (d, NDir m es)) as Hdu.
  { apply (at_keep fs); [done| |done]. intros j Hj [y Hy]. apply Hr; congruence. }
  assert (Hds := tree_reach _ _ _ _ Hok Hd). assert (Hd1 := Hd). apply at_walk in Hd1 as [_ Hd1]. assert (Hd2 := Hdu). apply at_walk in Hd2 as [_ Hd2].
  assert (newIno fs ≠ d) as Hid by congruence.
  unfold settle. rewrite split_pathOf by done. rewrite alone_bind. erewrite alone_openDir by done. cbn [fst snd].
  rewrite alone_bind. rewrite (alone_place d n nm (newIno fs) ms {[ nm := newIno fs ]} m es) by (done || apply lookup_singleton_eq).
  cbn [fst snd]. set (u1 := set_nodes _ u). rewrite alone_bind.
  assert (gains fs (w_nodes u1) d n (newIno fs) x) as HG.
  { unfold u1. cbn [w_nodes set_nodes]. unfold addName, dropName. split.
    - intros m' es' H'. rewrite H' in Hd1. injection Hd1 as -> ->. rewrite lookup_alter_eq, lookup_alter_ne by done. by rewrite Hd2.
    - intros _. rewrite !lookup_alter_ne by done. done.
    - intros j Hj Hji. rewrite lookup_alter_ne by done. destruct (decide (j = stageIno)) as [->|Hjs].
      + rewrite lookup_alter_eq, Hs, Hs0. simpl. by rewrite delete_singleton_eq.
      + rewrite lookup_alter_ne by done. by apply Hr. }
  destruct (alone_own (newIno fs) size u1) as [En [Eb Ee]]. eexists. split; [reflexivity|]. cbn [alone mret prog_ret fst snd].
  split; [done|]. by rewrite En.
Qed.

Lemma alone_unpackFile e R n d m es u :
  tree_ok (w_nodes u) → stageEmpty (w_nodes u) → Forall good R → good n → e_Path e = pathOf (R ++ [n]) → e_Size e = Z.of_nat (String.length (e_Body e)) →
  at_ (w_nodes u) R = Some (d, NDir m es) → es !! n = None →
  ∃ u', alone (unpackFile sha256 pid umask o e) u = ((0, 0, None)%Z, u') ∧ sameHeld u u' ∧
    gains (w_nodes u) (w_nodes u') d n (newIno (w_nodes u)) (NReg (N.land (e_Mode e) modePerm) (e_Body e)).
Proof.
  intros Hok Hse HR Hn Hp Hsz Hd Hen. destruct (newIno_new (w_nodes u)) as (Hnew & _ & His).
  destruct (alone_stageFile (e_Mode e) u Hse) as (nm & u1 & E1 & [Hb1 He1] & S1).
  destruct (alone_fillStaged _ _ _ (e_Body e) (e_Size e) u1 Hsz S1 His) as (u2 & E2 & [Hb2 He2] & S2).
  destruct (alone_settle _ _ _ R n d m es (e_Size e) u2 Hok S2 HR Hn Hd Hen) as (u3 & E3 & [Hb3 He3] & G3).
  exists u3. split; [|split; [split; congruence|done]]. unfold unpackFile. rewrite alone_bind, E1. cbn [fst snd].
  rewrite alone_bind, E2. cbn [fst snd]. rewrite alone_bind, Hp, E3. done.
Qed.

(** ** Capture's calls *)

Lemma alone_readNames d m es s : w_nodes s !! d = Some (NDir m es) → alone (readNames d) s = (inl (merge_sort String.le (elements (dom es))), s).
Proof.
  intros Hd. unfold readNames. rewrite alone_bind, alone_open.
  assert (openat2 (w_nodes s) d "" AsDir = inl d) as -> by (unfold openat2; simpl; by rewrite Hd).
  cbn [fst snd]. rewrite alone_bind, alone_syscall. unfold gets, namesOf. by rewrite Hd.
Qed.
Lemma alone_fstatat d n s :
  alone (fstatat d n) s = (match namesOf (w_nodes s) d !! n ≫= statOf s with Some st => inl st | None => inr ENOENT end, s).
Proof. unfold fstatat. by rewrite alone_syscall. Qed.
Lemma alone_emit h c s : alone (emit h c) s = (inl (set_out (c_out c ++ [h]) c), s).
Proof. done. Qed.
Lemma alone_countEmit z h c s :
  alone (countEmit o z h c) s = (match count o z c with inr e => inr e | inl c => inl (set_out (c_out c ++ [h]) c) end, s).
Proof. unfold countEmit. by destruct (count o z c). Qed.

Definition regStat (s : Ws) (i m : N) (b : string) : stat := mkStat KReg m (Z.of_nat (String.length b)) (nlink s i) i.
Lemma alone_openRegular d n i m b s : good n → namesOf (w_nodes s) d !! n = Some i → w_nodes s !! i = Some (NReg m b) →
  alone (openRegular d n) s = (inl (regStat s i m b), s).
Proof.
  intros Hg Hn Hi. unfold openRegular. rewrite alone_bind, alone_open. rewrite (open_name _ _ _ ByPath i (NReg m b)) by (done || by left).
  cbn [fst snd]. rewrite alone_bind. unfold fstat. rewrite alone_syscall. unfold gets, statOf. rewrite Hi. cbn [fst snd st_kind].
  rewrite alone_bind, alone_syscall. cbn [fst snd]. rewrite alone_bind, alone_syscall. rewrite Hi. cbn [fst snd st_kind alone mret prog_ret st_ino].
  by rewrite N.eqb_refl.
Qed.
Lemma alone_captureBody i m b p mode c s : w_nodes s !! i = Some (NReg m b) →
  alone (captureBody o (regStat s i m b) p mode c) s =
    (match count o (Z.of_nat (String.length b)) c with
     | inr e => inr e
     | inl c => inl (set_out (c_out c ++ [mkHeader p TReg mode (Z.of_nat (String.length b)) "" b]) c) end, s).
Proof.
  intros Hi. unfold captureBody. cbn [st_size st_ino regStat]. destruct (count _ _ _) as [c'|e]; [|done]. simpl. unfold dataOf. rewrite Hi.
  by rewrite Z.ltb_irrefl, Nat2Z.id, str_take_all by lia.
Qed.
Lemma alone_readLink d n i t s : namesOf (w_nodes s) d !! n = Some i → w_nodes s !! i = Some (NLnk t) →
  alone (readLink d n) s = (if (MaxPathBytes <? String.length t)%nat then inr ErrPath else inl t, s).
Proof. intros Hn Hi. unfold readLink. rewrite alone_bind, alone_syscall. unfold gets. rewrite Hn. simpl. by rewrite Hi. Qed.
End calls.

(** ** Counting names *)

Lemma sum_list_perm (l l' : list nat) : l ≡ₚ l' → sum_list l = sum_list l'.
Proof. induction 1; simpl; lia. Qed.
Lemma named_drop i n es : es !! n = Some i → named i es = S (named i (delete n es)).
Proof.
  intros Hn. unfold named. rewrite <-(insert_delete_id es n i Hn) at 1.
  rewrite (map_to_list_insert (delete n es) n i) by apply lookup_delete_eq. rewrite fmap_cons, filter_cons_True by done. done.
Qed.
Definition namedIn (i : N) (x : node) : nat := match x with NDir _ es => named i es | _ => 0%nat end.
Definition namesIn (i : N) (fs : nodes) : nat := sum_list ((λ dn : N * node, namedIn i dn.2) <$> map_to_list fs).
Lemma namesIn_drop fs d x i : fs !! d = Some x → namesIn i fs = (namedIn i x + namesIn i (delete d fs))%nat.
Proof.
  intros Hd. unfold namesIn. rewrite <-(insert_delete_id fs d x Hd) at 1.
  rewrite (sum_list_perm _ ((λ dn : N * node, namedIn i dn.2) <$> (d, x) :: map_to_list (delete d fs))); [done|].
  by rewrite (map_to_list_insert (delete d fs) d x) by apply lookup_delete_eq.
Qed.

(** Two names of a file are at least two of its links. *)
Lemma nlink_two s d n m es d' n' m' es' i :
  w_nodes s !! d = Some (NDir m es) → es !! n = Some i → w_nodes s !! d' = Some (NDir m' es') → es' !! n' = Some i → (d, n) ≠ (d', n') →
  (1 < nlink s i)%nat.
Proof.
  intros Hd Hn Hd' Hn' Hne. change (nlink s i) with (namesIn i (w_nodes s) + default 0 (w_foreign s !! i))%nat.
  rewrite (namesIn_drop _ _ _ _ Hd). cbn [namedIn]. rewrite (named_drop _ _ _ Hn). destruct (decide (d = d')) as [->|Hdd].
  - rewrite Hd in Hd'. injection Hd' as <- <-. rewrite (named_drop i n' (delete n es)); [lia|]. rewrite lookup_delete_ne by congruence. done.
  - rewrite (namesIn_drop (delete d (w_nodes s)) d' (NDir m' es')) by (by rewrite lookup_delete_ne).
    cbn [namedIn]. rewrite (named_drop _ _ _ Hn'). lia.
Qed.

(** ** The two trees *)

(** A node without its names, and as Unpack makes it again. *)
Definition strip (x : node) : node := match x with NDir m _ => NDir m ∅ | _ => x end.
Definition restored (umask : N) (x : node) : node :=
  match x with
  | NDir m _ => NDir (N.ldiff (N.lor (N.land m modePerm) 448) umask) ∅
  | NReg m b => NReg (N.land m modePerm) b
  | _ => x
  end.

(** What the kernel promises of a tree: names have no slash, links a target; a
    directory has one path.  And the paths of directories leave room for the
    slash of their headers. *)
Record parkable (s : Ws) : Prop := {
  pk_names : ∀ d m es n i, w_nodes s !! d = Some (NDir m es) → es !! n = Some i → good n;
  pk_links : ∀ i t, w_nodes s !! i = Some (NLnk t) → t ≠ "" ∧ contains_char (byte 0) t = false;
  pk_one : ∀ R R' d m es x, at_ (w_nodes s) R = Some (d, NDir m es) → at_ (w_nodes s) R' = Some (d, x) → R = R';
  pk_root : ∃ m es, w_nodes s !! rootIno = Some (NDir m es);
  pk_room : ∀ R d m es, at_ (w_nodes s) R = Some (d, NDir m es) → (String.length (pathOf R) < MaxPathBytes)%nat;
}.

Section park.
Context (umask : N) (s : Ws).
Local Notation sfs := (w_nodes s).

(** The paths of [V] are there in both trees, and no other in the new one. *)
Record TreeSim (V : list string → Prop) (u : nodes) : Prop := {
  ts_tree : tree_ok u;
  ts_stage : stageEmpty u;
  ts_in : ∀ cs, V cs → cs ≠ [] ∧ ∃ i x j y, at_ sfs cs = Some (i, x) ∧ at_ u cs = Some (j, y) ∧ strip y = restored umask x;
  ts_out : ∀ cs, cs ≠ [] → ¬ V cs → at_ u cs = None;
  ts_same : ∀ cs cs' i m b i' m' b' j y j' y', V cs → V cs' →
    at_ sfs cs = Some (i, NReg m b) → at_ sfs cs' = Some (i', NReg m' b') → at_ u cs = Some (j, y) → at_ u cs' = Some (j', y') → (i = i' ↔ j = j');
}.

Lemma TreeSim_ext V V' u : (∀ cs, V cs ↔ V' cs) → TreeSim V u → TreeSim V' u.
Proof. intros E [H1 H0 H2 H3 H4]. split; [done|done| | |]; intros *; rewrite <-?E; eauto. Qed.

Lemma TreeSim_none V u R n d m es : TreeSim V u → at_ u R = Some (d, NDir m es) → ¬ V (R ++ [n]) → es !! n = None.
Proof.
  intros HT HR HV. assert (Hn := ts_out _ _ HT (R ++ [n]) ltac:(by destruct R) HV). rewrite at_snoc, HR in Hn.
  destruct (es !! n) as [j|] eqn:En; [|done]. simpl in Hn. apply at_walk in HR as [_ HR].
  destruct (tr_closed _ (ts_tree _ _ HT) _ _ _ _ _ HR En) as [_ [y Hy]]. by rewrite Hy in Hn.
Qed.

Lemma TreeSim_more V u u' R n d m es j y i x :
  TreeSim V u → at_ u R = Some (d, NDir m es) → ¬ V (R ++ [n]) → at_ sfs (R ++ [n]) = Some (i, x) →
  gains u u' d n j y → j ≠ d → j ≠ stageIno → (u !! j = None ∨ u !! j = Some y ∧ isDir y = false) → isEmpty y → strip y = restored umask x →
  (∀ cs i' m' b' j' y', isDir x = false → V cs → at_ sfs cs = Some (i', NReg m' b') → at_ u cs = Some (j', y') → (i' = i ↔ j' = j)) →
  TreeSim (λ cs, V cs ∨ cs = R ++ [n]) u'.
Proof.
  intros HT HR HV Hs [Gd Gn Gr] Hjd Hjs Hnew Hy Hst Hsame. assert (Hen := TreeSim_none _ _ _ _ _ _ _ HT HR HV).
  assert (Hok := ts_tree _ _ HT). assert (Hd := HR). apply at_walk in Hd as [_ Hd]. specialize (Gd _ _ Hd). specialize (Gn Hjd).
  assert (∀ j0 y0, at_ u (R ++ [n]) = Some (j0, y0) → isDir y0 = false) as Hen0 by (intros j0 y0; by rewrite at_snoc, HR, Hen).
  assert (Hat := at_more u u' R n d j m es y Hok HR Hen0 Gd Gn Hy Hjd Hjs Gr Hnew).
  assert (∀ cs, V cs → cs ≠ R ++ [n]) as Hne by (intros cs Hcs ->; done).
  assert (∀ cs j' y', at_ u cs = Some (j', y') → cs ≠ R ++ [n] → ∃ y'', at_ u' cs = Some (j', y'') ∧ strip y'' = strip y') as Hmv.
  { intros cs j' y' Hcs Hcne. rewrite Hat, decide_False, Hcs by done. simpl. unfold moved. simpl. case_decide as Hjd'; [|by eexists].
    subst j'. eexists. split; [done|]. apply at_walk in Hcs as [_ Hcs]. rewrite Hd in Hcs. by injection Hcs as <-. }
  assert (∀ cs j' y'', at_ u' cs = Some (j', y'') → cs ≠ R ++ [n] → ∃ y', at_ u cs = Some (j', y')) as Hback.
  { intros cs j' y''. intros H Hcne. rewrite Hat, decide_False in H by done. destruct (at_ u cs) as [[j0 y0]|]; [|done].
    simpl in H. unfold moved in H. simpl in H. case_decide; simplify_eq/=; eauto. }
  assert (at_ u' (R ++ [n]) = Some (j, y)) as Hhere by (by rewrite Hat, decide_True).
  split.
  - by eapply tree_more.
  - destruct (ts_stage _ _ HT) as [ms Hms]. exists ms. rewrite Gr; [done| |done]. intros <-. by apply (tree_reach _ _ _ _ Hok HR).
  - intros cs [Hcs| ->].
    + destruct (ts_in _ _ HT cs Hcs) as (? & i0 & x0 & j0 & y0 & H1 & H2 & H3). split; [done|].
      destruct (Hmv cs j0 y0 H2 (Hne cs Hcs)) as (y1 & H4 & H5). exists i0, x0, j0, y1. split_and!; [done|done|congruence].
    + split; [by destruct R|]. by exists i, x, j, y.
  - intros cs Hcne Hcs. rewrite Hat, decide_False by tauto. by rewrite (ts_out _ _ HT cs) by tauto.
  - intros cs cs' i1 m1 b1 i2 m2 b2 j1 y1 j2 y2 [H1| ->] [H2| ->] E1 E2 F1 F2.
    + destruct (Hback cs j1 y1 F1 (Hne _ H1)) as [z1 F1']. destruct (Hback cs' j2 y2 F2 (Hne _ H2)) as [z2 F2'].
      exact (ts_same _ _ HT cs cs' _ _ _ _ _ _ _ _ _ _ H1 H2 E1 E2 F1' F2').
    + destruct (Hback cs j1 y1 F1 (Hne _ H1)) as [z1 F1']. rewrite Hs in E2. injection E2 as -> ->. rewrite Hhere in F2. injection F2 as <- <-.
      exact (Hsame cs _ _ _ _ _ eq_refl H1 E1 F1').
    + destruct (Hback cs' j2 y2 F2 (Hne _ H2)) as [z2 F2']. rewrite Hs in E1. injection E1 as -> ->. rewrite Hhere in F1. injection F1 as <- <-.
      assert (HS := Hsame cs' _ _ _ _ _ eq_refl H2 E2 F2'). split; intros; symmetry; by apply HS.
    + rewrite E1 in E2. rewrite F1 in F2. by simplify_eq.
Qed.

(** ** The two walks *)

Context (sha256 : string → string) (pid : string) (o : Options).
Local Notation lB := (l_Bytes (o_Limits o)).
Local Notation lE := (entries (o_Limits o)).
Definition reads (n bytes : Z) (files : gset string) (net : Z * Z) (hs : list (option header)) (u : Ws) : (Z * Z * option wsErr) * Ws :=
  alone (readArchive (o_Limits o) (unpackSink sha256 pid umask o) n bytes files net hs) u.

(** Where Capture has written [c_out c], having seen the paths of [V], Unpack
    of that much has made [u]. *)
Record Sim (c : capture) (V : list string → Prop) (u : Ws) (files : gset string) (net : Z * Z) : Prop := {
  sm_tree : TreeSim V (w_nodes u);
  sm_first : ∀ i p, c_first c !! i = Some p → ∃ R n m b, p = pathOf (R ++ [n]) ∧ V (R ++ [n]) ∧ Forall good (R ++ [n]) ∧
    at_ sfs (R ++ [n]) = Some (i, NReg m b) ∧ p ∈ files ∧ Clean p false = inl p;
  sm_nlink : ∀ cs i m b, V cs → at_ sfs cs = Some (i, NReg m b) → (1 < nlink s i)%nat → is_Some (c_first c !! i);
  sm_held : w_bytes u = c_bytes c ∧ w_entries u = c_entries c;
  sm_bounds : (0 ≤ c_bytes c ≤ lB)%Z ∧ (0 ≤ c_entries c ≤ lE)%Z;
  sm_reads : ∀ rest, reads 0 0 ∅ (0, 0)%Z ((Some <$> c_out c) ++ rest) newWs = reads (c_entries c) (c_bytes c) files net rest u;
}.

Lemma Sim_ext c V V' u files net : (∀ cs, V cs ↔ V' cs) → Sim c V u files net → Sim c V' u files net.
Proof.
  intros E [H1 H2 H3 H4 H5 H6]. split; [by eapply TreeSim_ext| | |done..].
  - intros i p Hp. destruct (H2 i p Hp) as (R & n & m & b & HH). rewrite E in HH. eauto 10.
  - intros cs i m b. rewrite <-E. apply H3.
Qed.

Context (HB : (0 ≤ lB ≤ l_Bytes (o_Budget o))%Z) (HB' : (l_Bytes (o_Budget o) < 2 ^ 63)%Z).
Context (HE : (lE ≤ entries (o_Budget o))%Z) (HE' : (entries (o_Budget o) < 2 ^ 63)%Z).

Lemma count_ok z c c' : (0 ≤ c_bytes c ≤ lB)%Z → count o z c = inl c' →
  c' = mkCapture (c_entries c + 1) (c_bytes c + z) (c_first c) (c_names c) (c_nlink c) (c_out c) ∧ (c_entries c + 1 ≤ lE)%Z ∧ (z ≤ lB - c_bytes c)%Z.
Proof using HB HB'.
  intros Hb. unfold count. destruct (lE <=? c_entries c)%Z eqn:E1; [done|]. unfold wrap64. rewrite Z.mod_small by lia.
  destruct (_ <? z)%Z eqn:E2; [done|]. intros [= <-]. split; [done|lia].
Qed.

(** What one header does to Unpack. *)
Lemma alone_sink c V u files net z e u' :
  Sim c V u files net → (0 ≤ z)%Z → (c_entries c + 1 ≤ lE)%Z → (z ≤ lB - c_bytes c)%Z → z = match e_Type e with TReg => e_Size e | _ => 0%Z end →
  alone (unpackEntry sha256 pid umask o e) (set_held (c_bytes c + z) (c_entries c + 1) u) = ((0, 0, None)%Z, u') →
  alone (unpackSink sha256 pid umask o net e) u = ((net.1 + z, net.2 + 1, None)%Z, u').
Proof using HB HB' HE HE'.
  intros HS Hz He Hb Hze Hu. destruct (sm_held _ _ _ _ _ HS) as [Eb Ee]. destruct (sm_bounds _ _ _ _ _ HS) as [Bb Be].
  unfold unpackSink. rewrite <-Hze, alone_bind.
  assert (alone (Reserve o z 1) u = (inl tt, set_held (c_bytes c + z) (c_entries c + 1) u)) as ->.
  { unfold Reserve. cbn [hold alone fst snd]. rewrite Eb, Ee. unfold wrap64. rewrite !Z.mod_small by lia.
    rewrite (proj2 (Z.ltb_ge z 0)) by lia. cbn [orb]. change (1 <? 0)%Z with false.
    rewrite (proj2 (Z.ltb_ge _ z)) by lia. rewrite (proj2 (Z.ltb_ge _ 1)) by lia. cbn [orb fst snd].
    by rewrite !Z.add_simpl_r. }
  cbn [fst snd]. rewrite alone_bind, Hu. cbn [fst snd alone mret prog_ret]. by rewrite !Z.sub_0_r.
Qed.
Lemma reads_step c V u files net z h e files' u' rest :
  Sim c V u files net → (0 ≤ z)%Z → (c_entries c + 1 ≤ lE)%Z → (z ≤ lB - c_bytes c)%Z →
  readHeader (o_Limits o) (c_bytes c) files h = inl (e, (c_bytes c + z)%Z, files') →
  z = match e_Type e with TReg => e_Size e | _ => 0%Z end → (e_Size e ≤ Z.of_nat (String.length (e_Body e)))%Z →
  alone (unpackEntry sha256 pid umask o e) (set_held (c_bytes c + z) (c_entries c + 1) u) = ((0, 0, None)%Z, u') →
  reads (c_entries c) (c_bytes c) files net (Some h :: rest) u =
    reads (c_entries c + 1) (c_bytes c + z) files' (net.1 + z, net.2 + 1)%Z rest u'.
Proof using HB HB' HE HE'.
  intros HS Hz He Hb Hh Hze Hbody Hu. unfold reads. cbn [readArchive].
  rewrite (proj2 (Z.ltb_ge lE (c_entries c + 1))) by lia. rewrite Hh. cbv iota beta.
  rewrite alone_bind, (alone_sink c V u files net z e u') by done. cbn [fst snd].
  by rewrite (proj2 (Z.ltb_ge _ (e_Size e))) by lia.
Qed.

(** One entry more on both sides. *)
Lemma Sim_entry c c' V u u' files files' net z h e R n d m es j y i x :
  Sim c V u files net → (0 ≤ z)%Z → (c_entries c + 1 ≤ lE)%Z → (z ≤ lB - c_bytes c)%Z →
  c_entries c' = (c_entries c + 1)%Z → c_bytes c' = (c_bytes c + z)%Z → c_out c' = c_out c ++ [h] →
  readHeader (o_Limits o) (c_bytes c) files h = inl (e, (c_bytes c + z)%Z, files') →
  z = match e_Type e with TReg => e_Size e | _ => 0%Z end → (e_Size e ≤ Z.of_nat (String.length (e_Body e)))%Z →
  alone (unpackEntry sha256 pid umask o e) (set_held (c_bytes c + z) (c_entries c + 1) u) = ((0, 0, None)%Z, u') →
  sameHeld (set_held (c_bytes c + z) (c_entries c + 1) u) u' →
  at_ (w_nodes u) R = Some (d, NDir m es) → ¬ V (R ++ [n]) → at_ sfs (R ++ [n]) = Some (i, x) → Forall good (R ++ [n]) →
  gains (w_nodes u) (w_nodes u') d n j y → j ≠ d → j ≠ stageIno → (w_nodes u !! j = None ∨ w_nodes u !! j = Some y ∧ isDir y = false) →
  isEmpty y → strip y = restored umask x →
  (∀ cs i' m' b' j' y', isDir x = false → V cs → at_ sfs cs = Some (i', NReg m' b') → at_ (w_nodes u) cs = Some (j', y') → (i' = i ↔ j' = j)) →
  files ⊆ files' →
  (c_first c' = c_first c ∧ (∀ m b, x = NReg m b → (1 < nlink s i)%nat → is_Some (c_first c !! i)) ∨
   c_first c' = <[i := pathOf (R ++ [n])]> (c_first c) ∧ (∃ m b, x = NReg m b) ∧ pathOf (R ++ [n]) ∈ files' ∧
     Clean (pathOf (R ++ [n])) false = inl (pathOf (R ++ [n]))) →
  Sim c' (λ cs, V cs ∨ cs = R ++ [n]) u' files' (net.1 + z, net.2 + 1)%Z.
Proof using HB HB' HE HE'.
  intros HS Hz He Hb Ee Eb Eo Hh Hze Hbody Hu [Hsb Hse] HR HV Hs Hg HG Hjd Hjs Hnew Hy Hst Hsame Hfi Hf.
  split.
  - by eapply TreeSim_more; [apply (sm_tree _ _ _ _ _ HS)|..].
  - intros i0 p Hp.
    assert (c_first c !! i0 = Some p ∨ i0 = i ∧ p = pathOf (R ++ [n]) ∧ (∃ m b, x = NReg m b) ∧ p ∈ files' ∧ Clean p false = inl p) as [Hp'|Hp'].
    { destruct Hf as [[E _]|(E & ? & ? & ?)]; rewrite E in Hp; [by left|]. destruct (decide (i0 = i)) as [->|Hi].
      - rewrite lookup_insert_eq in Hp. injection Hp as <-. by right.
      - rewrite lookup_insert_ne in Hp by done. by left. }
    + destruct (sm_first _ _ _ _ _ HS i0 p Hp') as (R0 & n0 & m0 & b0 & ? & ? & ? & ? & ? & ?). exists R0, n0, m0, b0. split_and!; auto.
    + destruct Hp' as (-> & -> & (m0 & b0 & ->) & ? & ?). exists R, n, m0, b0. split_and!; auto.
  - assert (∀ k, is_Some (c_first c !! k) → is_Some (c_first c' !! k)) as Hmono.
    { intros k Hk. destruct Hf as [[-> _]|(-> & _)]; [done|]. destruct (decide (k = i)) as [->|?]; [by rewrite lookup_insert_eq|by rewrite lookup_insert_ne]. }
    intros cs i0 m0 b0 [Hcs| ->] Hcs' Hl; [apply Hmono; by eapply (sm_nlink _ _ _ _ _ HS)|].
    rewrite Hs in Hcs'. injection Hcs' as -> ->. destruct Hf as [[E Hf]|(E & _)]; rewrite E; [by eapply Hf|by rewrite lookup_insert_eq].
  - rewrite Hsb, Hse, Ee, Eb. done.
  - rewrite Ee, Eb. destruct (sm_bounds _ _ _ _ _ HS). lia.
  - intros rest. rewrite Eo, fmap_app, <-app_assoc, (sm_reads _ _ _ _ _ HS), Ee, Eb. simpl. by eapply reads_step.
Qed.

(** ** The entries *)

Context (Hp : parkable s).

Lemma land_twice a b : N.land (N.land a b) b = N.land a b.
Proof. by rewrite <-N.land_assoc, N.land_diag. Qed.

(** The parent of a new name is in the new tree too. *)
Lemma Sim_parent c V u files net R d m es :
  Sim c V u files net → R = [] ∨ V R → at_ sfs R = Some (d, NDir m es) → ∃ d' m' es', at_ (w_nodes u) R = Some (d', NDir m' es').
Proof.
  intros HS [->|HV] HR.
  - destruct (tr_root _ (ts_tree _ _ (sm_tree _ _ _ _ _ HS))) as (m' & es' & H). exists rootIno, m', es'. by apply at_walk.
  - destruct (ts_in _ _ (sm_tree _ _ _ _ _ HS) R HV) as (_ & i & x & j & y & H1 & H2 & H3). rewrite HR in H1. injection H1 as <- <-.
    destruct y; simpl in H3; try discriminate. eauto.
Qed.

(** A new inode is no other file's. *)
Lemma new_inode_same V u i x :
  (∀ cs m' b', V cs → at_ sfs cs ≠ Some (i, NReg m' b')) →
  ∀ cs i' m' b' j' y', isDir x = false → V cs → at_ sfs cs = Some (i', NReg m' b') → at_ (w_nodes u) cs = Some (j', y') →
    (i' = i ↔ j' = newIno (w_nodes u)).
Proof.
  intros Hno cs i' m' b' j' y' _ HV Hs [_ Hu]%at_walk. destruct (newIno_new (w_nodes u)) as (Hn & _ & _).
  split; [intros ->; by apply Hno in Hs|intros ->; congruence].
Qed.

(** There is room for the new name. *)
Lemma Sim_room c V u files net R n d m es :
  Sim c V u files net → R = [] ∨ V R → at_ sfs R = Some (d, NDir m es) → ¬ V (R ++ [n]) →
  ∃ d' m' es', at_ (w_nodes u) R = Some (d', NDir m' es') ∧ w_nodes u !! d' = Some (NDir m' es') ∧ es' !! n = None ∧ newIno (w_nodes u) ≠ d'.
Proof.
  intros HS HV HR HVn. destruct (Sim_parent _ _ _ _ _ _ _ _ _ HS HV HR) as (d' & m' & es' & HR').
  assert (Hen := TreeSim_none _ _ _ _ _ _ _ (sm_tree _ _ _ _ _ HS) HR' HVn). assert (Hd' := HR'). apply at_walk in Hd' as [_ Hd'].
  destruct (newIno_new (w_nodes u)) as (Hnew & _ & _). exists d', m', es'. split_and!; [done|done|done|congruence].
Qed.

Lemma dir_entry c c1 V u files net R n d m es i mi ei p :
  Sim c V u files net → R = [] ∨ V R → at_ sfs R = Some (d, NDir m es) → Forall good R → good n → ¬ V (R ++ [n]) →
  at_ sfs (R ++ [n]) = Some (i, NDir mi ei) → Clean (pathOf (R ++ [n])) false = inl p → count o 0 c = inl c1 →
  ∃ u' net', Sim (set_out (c_out c1 ++ [mkHeader (pathOf (R ++ [n]) +:+ "/") TDir (N.land mi modePerm) 0 "" ""]) c1)
    (λ cs, V cs ∨ cs = R ++ [n]) u' files net'.
Proof using HB HB' HE HE' Hp.
  intros HS HV HR HgR Hgn HVn Hs Hc Hcount. destruct (count_ok _ _ _ (proj1 (sm_bounds _ _ _ _ _ HS)) Hcount) as (-> & He & Hb).
  destruct (Sim_room _ _ _ _ _ _ _ _ _ _ HS HV HR HVn) as (d' & m' & es' & HR' & Hd' & Hen & Hid).
  destruct (newIno_new (w_nodes u)) as (Hnew & _ & His).
  set (e := mkEntry (pathOf (R ++ [n])) TDir (N.land (N.land mi modePerm) modePerm) 0 "" "").
  set (y := NDir (N.ldiff (N.lor (e_Mode e) 448) umask) ∅).
  exists (set_nodes (addNode d' n y (w_nodes u)) (set_held (c_bytes c + 0) (c_entries c + 1) u)). eexists.
  eapply (Sim_entry c _ V u _ files files net 0 _ e R n d' m' es' (newIno (w_nodes u)) y i (NDir mi ei));
    [done|done|done|done|done|done|done| |reflexivity|done| |done|done|done|done|by apply Forall_app_2, Forall_singleton
    |by apply gains_addNode|done|done|by left|done| |done|done|by left].
  - unfold readHeader. cbn [h_Name h_Type h_Size h_Mode]. rewrite (Clean_dir R n p); [|done|by eapply pk_room|done]. by rewrite Z.add_0_r.
  - unfold unpackEntry. cbn [e_Type e]. eapply (alone_unpackAt _ _ _ R n d' m' es'); [done|done|done|done|].
    exact (alone_mkdir umask d' n (N.lor (e_Mode e) 448) m' es' (set_held (c_bytes c + 0) (c_entries c + 1) u) Hd' Hen).
  - simpl. by rewrite land_twice.
Qed.

Lemma symlink_entry c c1 V u files net R n d m es i t md p :
  Sim c V u files net → R = [] ∨ V R → at_ sfs R = Some (d, NDir m es) → Forall good R → good n → ¬ V (R ++ [n]) →
  at_ sfs (R ++ [n]) = Some (i, NLnk t) → Clean (pathOf (R ++ [n])) false = inl p → (String.length t ≤ MaxPathBytes)%nat → count o 0 c = inl c1 →
  ∃ u' net', Sim (set_out (c_out c1 ++ [mkHeader (pathOf (R ++ [n])) TSymlink md 0 t ""]) c1) (λ cs, V cs ∨ cs = R ++ [n]) u' files net'.
Proof using HB HB' HE HE' Hp.
  intros HS HV HR HgR Hgn HVn Hs Hc Ht Hcount. destruct (count_ok _ _ _ (proj1 (sm_bounds _ _ _ _ _ HS)) Hcount) as (-> & He & Hb).
  destruct (Sim_room _ _ _ _ _ _ _ _ _ _ HS HV HR HVn) as (d' & m' & es' & HR' & Hd' & Hen & Hid).
  destruct (newIno_new (w_nodes u)) as (Hnew & _ & His). assert (Hi := Hs). apply at_walk in Hi as [_ Hi].
  set (e := mkEntry (pathOf (R ++ [n])) TSymlink (N.land md modePerm) 0 t "").
  exists (set_nodes (addNode d' n (NLnk t) (w_nodes u)) (set_held (c_bytes c + 0) (c_entries c + 1) u)). eexists.
  eapply (Sim_entry c _ V u _ files files net 0 _ e R n d' m' es' (newIno (w_nodes u)) (NLnk t) i (NLnk t));
    [done|done|done|done|done|done|done| |reflexivity|done| |done|done|done|done|by apply Forall_app_2, Forall_singleton
    |by apply gains_addNode|done|done|by left|done|done| |done|by left].
  - unfold readHeader. cbn [h_Name h_Type h_Size h_Mode h_Linkname]. rewrite Hc, (Clean_pathOf R n p Hgn Hc).
    destruct (pk_links _ Hp i t Hi) as [Hne H0]. rewrite bool_decide_false, H0 by done. cbn [orb].
    rewrite (proj2 (Nat.ltb_ge _ _)) by lia. by rewrite Z.add_0_r.
  - unfold unpackEntry. cbn [e_Type e]. eapply (alone_unpackAt _ _ _ R n d' m' es'); [done|done|done|done|].
    exact (alone_symlink t d' n m' es' (set_held (c_bytes c + 0) (c_entries c + 1) u) Hd' Hen).
  - apply new_inode_same. intros cs m1 b1 _ [_ E]%at_walk. congruence.
Qed.

Lemma reg_entry c cc c1 V u files net R n d m es i mi b p :
  Sim c V u files net → R = [] ∨ V R → at_ sfs R = Some (d, NDir m es) → Forall good R → good n → ¬ V (R ++ [n]) →
  at_ sfs (R ++ [n]) = Some (i, NReg mi b) → Clean (pathOf (R ++ [n])) false = inl p →
  (∀ cs m' b', V cs → at_ sfs cs ≠ Some (i, NReg m' b')) →
  c_entries cc = c_entries c → c_bytes cc = c_bytes c → c_out cc = c_out c →
  (c_first cc = c_first c ∧ ¬ (1 < nlink s i)%nat ∨ c_first cc = <[i := pathOf (R ++ [n])]> (c_first c)) →
  count o (Z.of_nat (String.length b)) cc = inl c1 →
  ∃ u' files' net', Sim (set_out (c_out c1 ++ [mkHeader (pathOf (R ++ [n])) TReg (N.land mi modePerm) (Z.of_nat (String.length b)) "" b]) c1)
    (λ cs, V cs ∨ cs = R ++ [n]) u' files' net'.
Proof using HB HB' HE HE' Hp.
  intros HS HV HR HgR Hgn HVn Hs Hc Hno Ee Eb Eo Ef Hcount.
  destruct (count_ok _ _ _ ltac:(rewrite Eb; exact (proj1 (sm_bounds _ _ _ _ _ HS))) Hcount) as (-> & He & Hb). rewrite Ee in He. rewrite Eb in Hb.
  destruct (Sim_room _ _ _ _ _ _ _ _ _ _ HS HV HR HVn) as (d' & m' & es' & HR' & Hd' & Hen & Hid).
  destruct (newIno_new (w_nodes u)) as (Hnew & _ & His). assert (Hpp := Clean_pathOf R n p Hgn Hc). subst p.
  set (z := Z.of_nat (String.length b)) in *.
  set (e := mkEntry (pathOf (R ++ [n])) TReg (N.land (N.land mi modePerm) modePerm) z "" b).
  destruct (alone_unpackFile sha256 pid umask o e R n d' m' es' (set_held (c_bytes c + z) (c_entries c + 1) u)) as (u' & Hu & Hh & HG);
    [exact (ts_tree _ _ (sm_tree _ _ _ _ _ HS))|exact (ts_stage _ _ (sm_tree _ _ _ _ _ HS))|done..|].
  exists u', ({[ pathOf (R ++ [n]) ]} ∪ files). eexists.
  eapply (Sim_entry c _ V u u' files _ net z _ e R n d' m' es' (newIno (w_nodes u)) (NReg (N.land (e_Mode e) modePerm) b) i (NReg mi b));
    [done|lia|done|done|by cbn; rewrite Ee|by cbn; rewrite Eb|by cbn; rewrite Eo| |reflexivity|by cbn|exact Hu|done|done|done|done
    |by apply Forall_app_2, Forall_singleton|exact HG|done|done|by left|done| |by apply new_inode_same|set_solver|].
  - unfold readHeader. cbn [h_Name h_Type h_Size h_Mode h_Body]. rewrite Hc. rewrite (proj2 (Z.ltb_ge z 0)) by lia.
    destruct (sm_bounds _ _ _ _ _ HS) as [Bb _]. unfold wrap64. rewrite Z.mod_small by lia. rewrite (proj2 (Z.ltb_ge _ z)) by lia.
    replace (str_take (Z.to_nat z) b) with b; [done|]. unfold z. by rewrite Nat2Z.id, str_take_all by lia.
  - simpl. by rewrite !land_twice.
  - destruct Ef as [[Ef Hl]|Ef]; [left|right].
    + split; [done|]. intros m0 b0 _ ?. done.
    + split_and!; [done|by eauto|set_solver|done].
Qed.

Lemma link_entry c cc c1 V u files net R n d m es i mi b first md p :
  Sim c V u files net → R = [] ∨ V R → at_ sfs R = Some (d, NDir m es) → Forall good R → good n → ¬ V (R ++ [n]) →
  at_ sfs (R ++ [n]) = Some (i, NReg mi b) → Clean (pathOf (R ++ [n])) false = inl p → c_first c !! i = Some first →
  c_entries cc = c_entries c → c_bytes cc = c_bytes c → c_out cc = c_out c → c_first cc = c_first c → count o 0 cc = inl c1 →
  ∃ u' net', Sim (set_out (c_out c1 ++ [mkHeader (pathOf (R ++ [n])) TLink md 0 first ""]) c1) (λ cs, V cs ∨ cs = R ++ [n]) u' files net'.
Proof using HB HB' HE HE' Hp.
  intros HS HV HR HgR Hgn HVn Hs Hc Hf Ee Eb Eo Ef Hcount.
  destruct (count_ok _ _ _ ltac:(rewrite Eb; exact (proj1 (sm_bounds _ _ _ _ _ HS))) Hcount) as (-> & He & Hb). rewrite Ee in He. rewrite Eb in Hb.
  destruct (Sim_room _ _ _ _ _ _ _ _ _ _ HS HV HR HVn) as (d' & m' & es' & HR' & Hd' & Hen & Hid). assert (Hpp := Clean_pathOf R n p Hgn Hc). subst p.
  destruct (sm_first _ _ _ _ _ HS i first Hf) as (R1 & n1 & m1 & b1 & -> & HV1 & Hg1 & Hs1 & Hfi & Hc1).
  assert (HT := sm_tree _ _ _ _ _ HS). destruct (ts_in _ _ HT _ HV1) as (_ & i1 & x1 & j & y & E1 & Hj & Hst). rewrite Hs1 in E1. injection E1 as <- <-.
  assert (NReg m1 b1 = NReg mi b) as [= -> ->].
  { apply at_walk in Hs1 as [_ Hs1]. apply at_walk in Hs as [_ Hs]. congruence. }
  assert (y = NReg (N.land mi modePerm) b) as -> by (destruct y; simpl in Hst; congruence).
  apply Forall_app in Hg1 as [Hg1 [Hgn1 _]%Forall_cons]. assert (Huj := Hj). apply at_walk in Huj as [_ Huj].
  assert (∃ td tm tes, at_ (w_nodes u) R1 = Some (td, NDir tm tes) ∧ w_nodes u !! td = Some (NDir tm tes) ∧ tes !! n1 = Some j) as (td & tm & tes & Ht & Htd & Htn).
  { rewrite at_snoc in Hj. destruct (at_ (w_nodes u) R1) as [[td [tm tes|?|?|]]|] eqn:Et; try done. apply at_walk in Et as [_ Et].
    destruct (tes !! n1) as [j0|] eqn:En; [|done]. simpl in Hj. destruct (w_nodes u !! j0); [|done]. injection Hj as -> _. eauto 10. }
  set (e := mkEntry (pathOf (R ++ [n])) TLink (N.land md modePerm) 0 (pathOf (R1 ++ [n1])) "").
  set (u1 := set_held (c_bytes c + 0) (c_entries c + 1) u).
  exists (set_nodes (addName d' n j (w_nodes u)) u1). eexists.
  eapply (Sim_entry c _ V u _ files files net 0 _ e R n d' m' es' j (NReg (N.land mi modePerm) b) i (NReg mi b));
    [done|done|done|done|by cbn; rewrite Ee|by cbn; rewrite Eb|by cbn; rewrite Eo| |reflexivity|done| |done|done|done|done|by apply Forall_app_2, Forall_singleton
    |by apply gains_addName|congruence|exact (tree_reach _ _ _ _ (ts_tree _ _ HT) Hj)|by right|done|done| |done|].
  - unfold readHeader. cbn [h_Name h_Type h_Size h_Mode h_Linkname]. rewrite Hc, Hc1. rewrite bool_decide_true by done. by rewrite Z.add_0_r.
  - unfold unpackEntry. cbn [e_Type e]. unfold unpackLink. cbn [e_Linkname e]. rewrite split_pathOf by done.
    rewrite alone_bind, (alone_openDir umask R1 td tm tes) by done. cbn [fst snd]. rewrite alone_bind, alone_fstatat.
    unfold namesOf. change (w_nodes (set_held _ _ u)) with (w_nodes u). rewrite Htd, Htn. simpl. unfold statOf.
    change (w_nodes (set_held _ _ u)) with (w_nodes u). rewrite Huj. cbn [fst snd st_kind].
    eapply (alone_unpackAt _ _ _ R n d' m' es'); [done|done|done|done|].
    apply (alone_link td n1 j d' n m' es' u1); [unfold namesOf; by cbn; rewrite Htd|done|done].
  - intros cs i' m0 b0 j' y' _ HVc Hsc Huc. exact (ts_same _ _ HT cs (R1 ++ [n1]) _ _ _ _ _ _ _ _ _ _ HVc HV1 Hsc Hs1 Huc Hj).
  - left. split; [done|]. intros m0 b0 _ _. by rewrite Hf.
Qed.

(** ** The walk *)

Lemma alone_captureFile d n i mi b p mode c : good n → namesOf sfs d !! n = Some i → sfs !! i = Some (NReg mi b) →
  alone (captureFile o d n p mode c) s =
    (if (1 <? nlink s i)%nat then
       let c := sawName (regStat s i mi b) c in
       match c_first c !! i with
       | Some first => match count o 0 c with inr e => inr e | inl c => inl (set_out (c_out c ++ [mkHeader p TLink mode 0 first ""]) c) end
       | None =>
           match count o (Z.of_nat (String.length b)) (set_first i p c) with
           | inr e => inr e
           | inl c => inl (set_out (c_out c ++ [mkHeader p TReg mode (Z.of_nat (String.length b)) "" b]) c) end
       end
     else match count o (Z.of_nat (String.length b)) c with
          | inr e => inr e
          | inl c => inl (set_out (c_out c ++ [mkHeader p TReg mode (Z.of_nat (String.length b)) "" b]) c) end, s).
Proof.
  intros Hg Hn Hi. unfold captureFile. rewrite alone_bind, (alone_openRegular d n i mi b) by done. cbn [fst snd st_nlink regStat st_ino].
  destruct (1 <? nlink s i)%nat; [|by apply alone_captureBody]. cbv zeta. destruct (c_first _ !! i); [apply alone_countEmit|by apply alone_captureBody].
Qed.

Lemma file_sim c c' s' V u files net R n d m es i mi b p :
  Sim c V u files net → R = [] ∨ V R → at_ sfs R = Some (d, NDir m es) → Forall good R → good n → ¬ V (R ++ [n]) →
  es !! n = Some i → sfs !! i = Some (NReg mi b) → Clean (pathOf (R ++ [n])) false = inl p →
  alone (captureFile o d n (pathOf (R ++ [n])) (N.land mi modePerm) c) s = (inl c', s') →
  ∃ u' files' net', Sim c' (λ cs, V cs ∨ cs = R ++ [n]) u' files' net'.
Proof using HB HB' HE HE' Hp.
  intros HS HV HR HgR Hgn HVn Hn Hi Hc. assert (Hd := HR). apply at_walk in Hd as [_ Hd].
  rewrite (alone_captureFile d n i mi b) by (done || unfold namesOf; by rewrite Hd).
  assert (at_ sfs (R ++ [n]) = Some (i, NReg mi b)) as Hs by (rewrite at_snoc, HR, Hn; simpl; by rewrite Hi).
  destruct (1 <? nlink s i)%nat eqn:El.
  - apply Nat.ltb_lt in El. cbv zeta. change (c_first (sawName (regStat s i mi b) c)) with (c_first c).
    destruct (c_first c !! i) as [first|] eqn:Ef.
    + destruct (count o 0 _) as [c1|e] eqn:Ec; [|done]. intros [= <- _].
      destruct (link_entry c (sawName (regStat s i mi b) c) c1 V u files net R n d m es i mi b first (N.land mi modePerm) p HS HV HR HgR Hgn HVn Hs Hc Ef eq_refl eq_refl eq_refl eq_refl Ec) as (u' & net' & H).
      by exists u', files, net'.
    + destruct (count o _ _) as [c1|e] eqn:Ec; [|done]. intros [= <- _].
      eapply (reg_entry c (set_first i (pathOf (R ++ [n])) (sawName (regStat s i mi b) c)) c1); [done..| |done|done|done|by right|done].
      intros cs m' b' HVc Hcs. destruct (sm_nlink _ _ _ _ _ HS _ _ _ _ HVc Hcs El) as [? E]. congruence.
  - apply Nat.ltb_ge in El. destruct (count o _ _) as [c1|e] eqn:Ec; [|done]. intros [= <- _].
    eapply (reg_entry c c c1); [done..| |done|done|done|left; split; [done|lia]|done].
    intros cs m' b' HVc Hcs. destruct cs as [|n2 R2 _] using rev_ind.
    { destruct (pk_root _ Hp) as (mr & er & Hr). apply at_walk in Hcs as [[= <-] Hcs]. congruence. }
    rewrite at_snoc in Hcs. destruct (at_ sfs R2) as [[d2 [m2 es2|?|?|]]|] eqn:E2; try done. assert (Hd2 := E2). apply at_walk in Hd2 as [_ Hd2].
    destruct (es2 !! n2) as [i2|] eqn:En2; [|done]. simpl in Hcs. destruct (sfs !! i2); [|done]. injection Hcs as -> _.
    assert (1 < nlink s i)%nat; [|lia]. apply (nlink_two s d n m es d2 n2 m2 es2 i Hd Hn Hd2 En2). intros [= <- <-].
    assert (R = R2) as <- by (by eapply (pk_one _ Hp)). done.
Qed.

(** What Capture carries. *)
Definition live (cs : list string) : Prop := ∃ i x, at_ sfs cs = Some (i, x) ∧ x ≠ NOther.

Lemma at_leaf fs cs i x t : at_ fs cs = Some (i, x) → isDir x = false → t ≠ [] → at_ fs (cs ++ t) = None.
Proof.
  intros Hc Hx Ht. destruct t as [|n t]; [done|]. rewrite cons_middle, app_assoc. apply at_prefix. rewrite at_snoc, Hc. by destruct x.
Qed.

(** The paths below [R ++ [n]], whatever the file there is. *)
Definition below (R : list string) (n : string) (cs : list string) : Prop := ∃ t, cs = R ++ n :: t ∧ live cs.
Lemma below_leaf R n i x cs : at_ sfs (R ++ [n]) = Some (i, x) → isDir x = false → x ≠ NOther → below R n cs ↔ cs = R ++ [n].
Proof.
  intros Hn Hx Hne. split; [|intros ->; exists []; split; [done|by exists i, x]]. intros (t & -> & j & y & Hl & _).
  destruct t as [|k t]; [done|]. assert (HN := at_leaf _ _ _ _ (k :: t) Hn Hx ltac:(done)). rewrite <-app_assoc in HN. simpl in HN. congruence.
Qed.
Lemma below_none R n cs : match at_ sfs (R ++ [n]) with None => True | Some (_, x) => x = NOther end → ¬ below R n cs.
Proof.
  intros Hn (t & -> & j & y & Hl & Hy). destruct (at_ sfs (R ++ [n])) as [[i x]|] eqn:E.
  - subst x. destruct t as [|k t]; [congruence|]. assert (HN := at_leaf _ _ _ _ (k :: t) E eq_refl ltac:(done)). rewrite <-app_assoc in HN. simpl in HN. congruence.
  - assert (HN := at_prefix _ _ t E). rewrite <-app_assoc in HN. simpl in HN. congruence.
Qed.

(** A walk of the directory at [R] keeps the two sides together. *)
Definition walks (f : N → string → capture → M (capture + wsErr)) : Prop := ∀ R d m es c c' s' V u files net,
  at_ sfs R = Some (d, NDir m es) → Forall good R → R = [] ∨ V R → (∀ n t, ¬ V (R ++ n :: t)) → Sim c V u files net →
  alone (f d (pathOf R) c) s = (inl c', s') → ∃ u' files' net', Sim c' (λ cs, V cs ∨ ∃ n, below R n cs) u' files' net'.

Lemma name_sim sub R d m es n names c c' s' V u files net :
  walks sub → (∀ f p c, reader (sub f p c)) → at_ sfs R = Some (d, NDir m es) → Forall good R → R = [] ∨ V R →
  is_Some (es !! n) → (∀ t, ¬ V (R ++ n :: t)) → Sim c V u files net →
  alone (captureEach o sub d (pathOf R) (n :: names) c) s = (inl c', s') →
  ∃ c1 u1 files1 net1, Sim c1 (λ cs, V cs ∨ below R n cs) u1 files1 net1 ∧ alone (captureEach o sub d (pathOf R) names c1) s = (inl c', s').
Proof using HB HB' HE HE' Hp.
  intros Hsub Hrd HR HgR HV [i Hi] HVn HS. assert (Hd := HR). apply at_walk in Hd as [_ Hd].
  assert (namesOf sfs d !! n = Some i) as Hni by (unfold namesOf; by rewrite Hd).
  assert (good n) as Hgn by (by eapply (pk_names _ Hp)). assert (Hat := at_snoc sfs R n). rewrite HR, Hi in Hat. simpl in Hat.
  assert (¬ V (R ++ [n])) as HVn0 by apply HVn.
  cbn [captureEach]. rewrite alone_bind, alone_fstatat, Hni. change (Some i ≫= statOf s) with (statOf s i).
  unfold statOf. destruct (sfs !! i) as [x|] eqn:Ex.
  2: { intros H. exists c, u, files, net. split; [|done]. eapply Sim_ext; [|done]. intros cs.
       assert (¬ below R n cs) by (apply below_none; by rewrite Hat). tauto. }
  simpl in Hat. rewrite (joinName_pathOf R n HgR).
  destruct (Clean (pathOf (R ++ [n])) false) as [p|e] eqn:Ec; [|by destruct x].
  destruct x as [mi ei|mi b|t|]; cbn [fst snd st_kind st_mode]; rewrite alone_bind.
  - rewrite alone_bind, alone_countEmit. destruct (count o 0 c) as [c1|e] eqn:Ecount; [|done]. cbn [fst snd].
    rewrite alone_bind, alone_open, (open_name _ _ _ AsDir i (NDir mi ei)) by (done || by right). cbn [fst snd].
    destruct (dir_entry c c1 V u files net R n d m es i mi ei p HS HV HR HgR Hgn HVn0 Hat Ec Ecount) as (u1 & net1 & HS1).
    set (c2 := set_out _ c1) in *. rewrite (Hrd i (pathOf (R ++ [n])) c2 s). destruct (alone (sub i (pathOf (R ++ [n])) c2) s) as [[c3|e] s3] eqn:Esub; [|done].
    cbn [fst snd]. intros H.
    destruct (Hsub (R ++ [n]) i mi ei c2 c3 s3 (λ cs, V cs ∨ cs = R ++ [n]) u1 files net1) as (u3 & files3 & net3 & HS3);
      [done|by apply Forall_app_2, Forall_singleton|right; by right| |exact HS1|exact Esub|].
    + intros k t. rewrite <-app_assoc. intros [HVk|E]; [by apply HVn in HVk|]. by apply app_inv_head in E.
    + exists c3, u3, files3, net3. split; [|done]. eapply Sim_ext; [|exact HS3]. intros cs. split.
      * intros [[?| ->]|(k & t & -> & Hl)]; [by left|right; exists []; split; [done|by exists i, (NDir mi ei)]|right].
        exists (k :: t). rewrite <-app_assoc in *. done.
      * intros [?|(t & -> & Hl)]; [by left; left|]. destruct t as [|k t]; [by left; right|]. right. exists k, t. by rewrite <-app_assoc.
  - destruct (alone (captureFile o d n (pathOf (R ++ [n])) (N.land mi modePerm) c) s) as [[c1|e] s1] eqn:Ef; cbn [fst snd]; [|done]. intros H.
    destruct (file_sim c c1 s1 V u files net R n d m es i mi b p HS HV HR HgR Hgn HVn0 Hi Ex Ec Ef) as (u1 & files1 & net1 & HS1).
    rewrite (alone_captureFile d n i mi b) in Ef by done. injection Ef as _ <-.
    exists c1, u1, files1, net1. split; [|done]. eapply Sim_ext; [|exact HS1]. intros cs. by rewrite (below_leaf R n i (NReg mi b)).
  - rewrite alone_bind, (alone_readLink d n i t) by done. destruct (MaxPathBytes <? String.length t)%nat eqn:El; [done|]. apply Nat.ltb_ge in El. cbn [fst snd].
    rewrite alone_countEmit. destruct (count o 0 c) as [c1|e] eqn:Ecount; [|done]. cbn [fst snd]. intros H.
    destruct (symlink_entry c c1 V u files net R n d m es i t (N.land modePerm modePerm) p HS HV HR HgR Hgn HVn0 Hat Ec El Ecount) as (u1 & net1 & HS1).
    eexists _, u1, files, net1. split; [|exact H]. eapply Sim_ext; [|exact HS1]. intros cs. by rewrite (below_leaf R n i (NLnk t)).
  - intros H. exists c, u, files, net. split; [|exact H]. eapply Sim_ext; [|done]. intros cs.
    assert (¬ below R n cs) by (apply below_none; by rewrite Hat). tauto.
Qed.

Lemma each_sim sub R d m es c' s' : walks sub → (∀ f p c, reader (sub f p c)) → at_ sfs R = Some (d, NDir m es) → Forall good R →
  ∀ names c V u files net, NoDup names → (∀ n, n ∈ names → is_Some (es !! n)) → R = [] ∨ V R → (∀ n t, n ∈ names → ¬ V (R ++ n :: t)) →
  Sim c V u files net → alone (captureEach o sub d (pathOf R) names c) s = (inl c', s') →
  ∃ u' files' net', Sim c' (λ cs, V cs ∨ ∃ n, n ∈ names ∧ below R n cs) u' files' net'.
Proof using HB HB' HE HE' Hp.
  intros Hsub Hrd HR HgR names. induction names as [|n names IH]; intros c V u files net Hnd Hin HV Hno HS Hc.
  { injection Hc as <- _. exists u, files, net. eapply Sim_ext; [|done]. intros cs. split; [by left|intros [?|(n & Hn & _)]; [done|by apply not_elem_of_nil in Hn]]. }
  apply NoDup_cons in Hnd as [Hnn Hnd].
  destruct (name_sim sub R d m es n names c c' s' V u files net) as (c1 & u1 & files1 & net1 & HS1 & Hc1); try done; [apply Hin; by left|intros t; apply Hno; by left|].
  destruct (IH c1 (λ cs, V cs ∨ below R n cs) u1 files1 net1 Hnd) as (u2 & files2 & net2 & HS2); [..|exact HS1|exact Hc1|].
  - intros k Hk. apply Hin. by right.
  - destruct HV; [by left|right; by left].
  - intros k t Hk [HVk|(t' & E & _)]; [eapply Hno; [by right|done]|]. apply app_inv_head in E. injection E as -> _. done.
  - exists u2, files2, net2. eapply Sim_ext; [|exact HS2]. intros cs. split.
    + intros [[?|?]|(k & Hk & ?)]; [by left|right; exists n; split; [by left|done]|right; exists k; split; [by right|done]].
    + intros [?|(k & [->|Hk]%elem_of_cons & ?)]; [by left; left|by left; right|right; by exists k].
Qed.

Lemma dir_walks depth : walks (captureDir o depth).
Proof using HB HB' HE HE' Hp.
  induction depth as [|depth IH]; intros R d m es c c' s' V u files net HR HgR HV Hno HS; [done|].
  assert (Hd := HR). apply at_walk in Hd as [_ Hd]. cbn [captureDir]. rewrite alone_bind, (alone_readNames d m es) by done. cbn [fst snd]. intros Hc.
  assert (∀ n, n ∈ merge_sort String.le (elements (dom es)) ↔ is_Some (es !! n)) as Hin.
  { intros n. rewrite merge_sort_Permutation, elem_of_elements. apply elem_of_dom. }
  destruct (each_sim (captureDir o depth) R d m es c' s' IH (reader_captureDir o depth) HR HgR (merge_sort String.le (elements (dom es))) c V u files net) as (u' & files' & net' & HS');
    [|by intros n ?%Hin|done| |done|exact Hc|].
  - rewrite merge_sort_Permutation. apply NoDup_elements.
  - intros n t _. apply Hno.
  - exists u', files', net'. eapply Sim_ext; [|exact HS']. intros cs. split; [intros [?|(n & _ & ?)]; [by left|right; by exists n]|].
    intros [?|(n & Hb)]; [by left|right]. exists n. split; [|done]. apply Hin. destruct Hb as (t & -> & i & x & Hl & _).
    destruct (es !! n) as [j|] eqn:En; [done|]. exfalso.
    assert (at_ sfs (R ++ [n]) = None) as HN by (rewrite at_snoc, HR, En; done).
    apply (at_prefix _ _ t) in HN. rewrite <-app_assoc in HN. simpl in HN. congruence.
Qed.

Lemma Sim_start : Sim (mkCapture 0 0 ∅ ∅ ∅ []) (λ _, False) newWs ∅ (0, 0)%Z.
Proof using HB.
  assert (0 ≤ lE)%Z as HL by (unfold entries, DefaultEntries; destruct (_ <=? 0)%Z eqn:E; lia).
  assert (∀ cs, cs ≠ [] → at_ (w_nodes newWs) cs = None) as Hout.
  { intros cs. destruct cs as [|n cs]; [done|]. intros _. apply (at_prefix _ [n] cs). by rewrite <-(app_nil_l [n]), at_snoc. }
  split; [split| | |done|simpl; lia|done].
  - split.
    + intros d m es n j Hd Hj. cbn in Hd. destruct (decide (d = rootIno)) as [->|H0]; [rewrite lookup_insert_eq in Hd; by simplify_eq|].
      rewrite lookup_insert_ne in Hd by done. destruct (decide (d = stageIno)) as [->|H1]; [rewrite lookup_insert_eq in Hd; by simplify_eq|].
      rewrite lookup_insert_ne in Hd by done. done.
    + by eexists _, _.
    + intros R R' d m es x. destruct (decide (R = [])) as [->|H]; [|by rewrite Hout]. destruct (decide (R' = [])) as [->|H']; [done|by rewrite (Hout R')].
  - by eexists.
  - done.
  - intros cs Hcs _. by apply Hout.
  - done.
  - done.
  - done.
Qed.

(** The tree that Unpack makes of what Capture carries. *)
Definition carried (x : option node) : option node :=
  match x with Some NOther | None => None | Some x => Some (restored umask x) end.

Lemma resumes hs s' : alone (Capture o) s = (inl hs, s') →
  ∃ u, alone (Unpack sha256 pid umask o (Some <$> hs)) newWs = (None, u) ∧ TreeSim (λ cs, cs ≠ [] ∧ live cs) (w_nodes u).
Proof using HB HB' HE HE' Hp.
  destruct (pk_root _ Hp) as (m & es & Hr). unfold Capture. rewrite alone_bind.
  destruct (alone (captureDir _ _ _ _ _) s) as [[c|e] s1] eqn:Ec; [|done]. cbn [fst snd]. destruct (existsb _ _); [done|]. intros [= <- _].
  destruct (dir_walks (S MaxDepth) [] rootIno m es (mkCapture 0 0 ∅ ∅ ∅ []) c s1 (λ _, False) newWs ∅ (0, 0)%Z) as (u & files & net & HS);
    [by apply at_walk|done|by left|by intros n t ?|apply Sim_start|exact Ec|].
  exists u. split.
  - unfold Unpack. rewrite alone_bind, (alone_readNames rootIno dirMode ∅) by done. cbn [fst snd].
    change (merge_sort String.le (elements (dom (∅ : gmap string N)))) with (@nil string). cbv iota. rewrite alone_bind.
    assert (HR := sm_reads _ _ _ _ _ HS []). rewrite app_nil_r in HR. unfold reads in HR. rewrite HR. by destruct net.
  - eapply TreeSim_ext; [|apply (sm_tree _ _ _ _ _ HS)]. intros cs. split.
    + intros [[]|(n & t & -> & Hl)]. by split.
    + intros [Hne Hl]. right. destruct cs as [|n t]; [done|]. exists n, t. by split.
Qed.
End park.

(** C19: a tree that parks resumes.  Where Capture succeeds on a tree whose
    directories' paths leave room for a slash, and the budget is no less than the
    limits, Unpack of its archive into a new workspace succeeds: every path then
    leads to what it led to (files with their bytes and modes, links with their
    targets, directories open to their owner; FIFOs and devices gone), no other
    path is there, and two paths are names of one file exactly where they were. *)
Theorem parked_tree_resumes sha256 pid umask o s hs s' :
  parkable s → (0 ≤ l_Bytes (o_Limits o) ≤ l_Bytes (o_Budget o))%Z → (l_Bytes (o_Budget o) < 2 ^ 63)%Z →
  (entries (o_Limits o) ≤ entries (o_Budget o))%Z → (entries (o_Budget o) < 2 ^ 63)%Z →
  alone (Capture o) s = (inl hs, s') →
  ∃ u, alone (Unpack sha256 pid umask o (Some <$> hs)) newWs = (None, u) ∧
    (∀ cs, cs ≠ [] → strip <$> (snd <$> at_ (w_nodes u) cs) = carried umask (snd <$> at_ (w_nodes s) cs)) ∧
    (∀ cs cs' i m b i' m' b', at_ (w_nodes s) cs = Some (i, NReg m b) → at_ (w_nodes s) cs' = Some (i', NReg m' b') →
      (i = i' ↔ fst <$> at_ (w_nodes u) cs = fst <$> at_ (w_nodes u) cs')).
Proof.
  intros Hp HB HB' HE HE' Hc. destruct (resumes umask s sha256 pid o HB HB' HE HE' Hp hs s' Hc) as (u & Hu & HT). exists u. split; [done|].
  assert (∀ cs i m b, at_ (w_nodes s) cs = Some (i, NReg m b) → (cs ≠ [] ∧ live s cs) ∧ ∃ j y, at_ (w_nodes u) cs = Some (j, y)) as Hreg.
  { intros cs i m b H. assert (cs ≠ [] ∧ live s cs) as HV.
    { split; [|by exists i, (NReg m b)]. intros ->. destruct (pk_root _ Hp) as (m0 & es0 & Hr). apply at_walk in H as [[= <-] H]. congruence. }
    split; [done|]. destruct (ts_in _ _ _ _ HT cs HV) as (_ & _ & _ & j & y & _ & ? & _). eauto. }
  split.
  - intros cs Hne. destruct (at_ (w_nodes s) cs) as [[i x]|] eqn:E.
    + assert (x = NOther ∨ x ≠ NOther) as [->|Hx] by (destruct x; (by left) || (by right)); [rewrite (ts_out _ _ _ _ HT cs Hne); [done|]; intros (_ & i0 & x0 & ? & ?); congruence|].
      destruct (ts_in _ _ _ _ HT cs) as (_ & i0 & x0 & j & y & E0 & -> & Hy); [split; [done|by exists i, x]|].
      rewrite E in E0. injection E0 as <- <-. simpl. rewrite Hy. by destruct x.
    + rewrite (ts_out _ _ _ _ HT cs Hne); [done|]. intros (_ & i0 & x0 & ? & _). congruence.
  - intros cs cs' i m b i' m' b' H H'. destruct (Hreg _ _ _ _ H) as (HV & j & y & Hj). destruct (Hreg _ _ _ _ H') as (HV' & j' & y' & Hj').
    rewrite Hj, Hj'. simpl. rewrite (ts_same _ _ _ _ HT cs cs' _ _ _ _ _ _ _ _ _ _ HV HV' H H' Hj Hj'). split; congruence.
Qed.

(** A file with two names, a link, a FIFO, and a directory only its owner reads. *)
Definition demoNodes : nodes :=
  <[rootIno := NDir 493 (<["d" := 2%N]> (<["g" := 3%N]> (<["l" := 4%N]> (<["p" := 5%N]> ∅))))]> (<[stageIno := NDir 448 ∅]>
  (<[2%N := NDir 448 (<["f" := 3%N]> ∅)]> (<[3%N := NReg 420 "hi"]> (<[4%N := NLnk "d/f"]> (<[5%N := NOther]> ∅))))).
Definition demoTree : Ws := set_nodes demoNodes newWs.
Definition demoLimits : Options := mkOptions (mkLimits 10 5) (mkLimits 10 5) false.

Lemma demoTree_names d m es n i : demoNodes !! d = Some (NDir m es) → es !! n = Some i →
  d = rootIno ∧ (n, i) ∈ [("d", 2%N); ("g", 3%N); ("l", 4%N); ("p", 5%N)] ∨ d = 2%N ∧ (n, i) ∈ [("f", 3%N)].
Proof.
  unfold demoNodes. intros Hd Hn. repeat (apply lookup_insert_Some in Hd as [[<- Hd]|[_ Hd]]); simplify_eq/=.
  - left. split; [done|]. repeat (apply lookup_insert_Some in Hn as [[<- Hn]|[_ Hn]]); simplify_eq/=; set_solver.
  - right. split; [done|]. apply lookup_insert_Some in Hn as [[<- Hn]|[_ Hn]]; simplify_eq/=; set_solver.
Qed.
Lemma demoTree_paths cs i x : at_ demoNodes cs = Some (i, x) → cs = [] ∧ i = rootIno ∨ cs = ["d"] ∧ i = 2%N ∨ isDir x = false.
Proof.
  revert i x. induction cs as [|n cs IH] using rev_ind; intros i x Hc; [apply at_walk in Hc as [[= <-] _]; by left|].
  rewrite at_snoc in Hc. destruct (at_ demoNodes cs) as [[d y]|] eqn:E; [|done]. specialize (IH _ _ eq_refl).
  destruct y as [m es|?|?|]; try done. apply at_walk in E as [_ E]. destruct (es !! n) as [j|] eqn:En; [|done]. simpl in Hc.
  destruct (demoNodes !! j) as [x0|] eqn:Ej; [|done]. injection Hc as -> ->. destruct (demoTree_names _ _ _ _ _ E En) as [[-> Hin]|[-> Hin]].
  - destruct IH as [[-> _]|[[_ ?]|?]]; [|done..]. repeat (apply elem_of_cons in Hin as [[= -> ->]|Hin]); [by right; left|..]; try (by apply not_elem_of_nil in Hin);
      right; right; vm_compute in Ej; by injection Ej as <-.
  - repeat (apply elem_of_cons in Hin as [[= -> ->]|Hin]); [|by apply not_elem_of_nil in Hin]. right; right. vm_compute in Ej. by injection Ej as <-.
Qed.
Lemma demoTree_parkable : parkable demoTree.
Proof.
  split.
  - intros d m es n i Hd Hn. destruct (demoTree_names _ _ _ _ _ Hd Hn) as [[_ Hin]|[_ Hin]];
      repeat (apply elem_of_cons in Hin as [[= -> ->]|Hin]; [by split|]); by apply not_elem_of_nil in Hin.
  - intros i t Hi. cbn in Hi. unfold demoNodes in Hi. repeat (apply lookup_insert_Some in Hi as [[<- Hi]|[_ Hi]]); simplify_eq/=. by split.
  - intros R R' d m es x H H'. cbn in H, H'. assert (Hx := H'). apply at_walk in Hx as [_ Hx]. assert (Hy := H). apply at_walk in Hy as [_ Hy].
    rewrite Hy in Hx. injection Hx as <-. destruct (demoTree_paths _ _ _ H) as [[-> E]|[[-> E]|?]], (demoTree_paths _ _ _ H') as [[-> E']|[[-> E']|?]]; try done; rewrite E in E'; discriminate.
  - by eexists _, _.
  - intros R d m es H. destruct (demoTree_paths _ _ _ H) as [[-> _]|[[-> _]|?]]; [apply Nat.ltb_lt; reflexivity..|done].
Qed.

Lemma parked_tree_resumes_witness :
  parkable demoTree ∧ ∃ hs u, alone (Capture demoLimits) demoTree = (inl hs, demoTree) ∧ h_Name <$> hs = ["d/"; "d/f"; "g"; "l"] ∧
    alone (Unpack (λ x, x) "1" 18 demoLimits (Some <$> hs)) newWs = (None, u) ∧
    strip <$> (snd <$> at_ (w_nodes u) ["d"; "f"]) = Some (NReg 420 "hi") ∧ strip <$> (snd <$> at_ (w_nodes u) ["p"]) = None ∧
    fst <$> at_ (w_nodes u) ["d"; "f"] = fst <$> at_ (w_nodes u) ["g"].
Proof.
  split; [exact demoTree_parkable|]. destruct (alone (Capture demoLimits) demoTree) as [[hs|e] s'] eqn:E; [|vm_compute in E; discriminate].
  destruct (parked_tree_resumes (λ x, x) "1" 18 demoLimits demoTree hs s' demoTree_parkable) as (u & Hu & Ht & Hl);
    [split; discriminate|reflexivity|discriminate|reflexivity|exact E|].
  exists hs, u. split; [|split]; [vm_compute in E; injection E as <- <-; vm_compute; reflexivity..|]. split; [exact Hu|]. split; [|split].
  - rewrite (Ht ["d"; "f"]) by discriminate. vm_compute. reflexivity.
  - rewrite (Ht ["p"]) by discriminate. vm_compute. reflexivity.
  - apply (Hl ["d"; "f"] ["g"] 3%N 420%N "hi" 3%N 420%N "hi"); vm_compute; reflexivity.
Defined.
