(* ===== verification/WsfsUpload.v ===== *)
(** * What an upload leaves in a workspace (pkg/runtime/host/wsfs)

    Upload with no one else about, whichever of its calls fail: an acknowledged
    one is the file declared and is read back as such; a refused one leaves every
    file as it was and gives its reservation back. *)

From Stdlib Require Import Ascii.
From S2P Require Import Prelude GoLib GoText Threads Wsfs WsfsTree.
From stdpp Require Import options.

Local Notation M := (prog Ws syscall).

(** ** Clean paths *)

Lemma pathOf_Split s : pathOf (Split "/" s) = s.
Proof.
  induction s as [|c s IH]; [done|]. cbn [Split]. assert (Hne := Split_nonempty "/" s). case_bool_decide as Hc.
  - subst c. rewrite pathOf_cons by done. by rewrite IH.
  - destruct (Split "/" s) as [|l ls]; [done|]. destruct ls as [|l' ls]; [simpl in *; by rewrite IH|].
    rewrite pathOf_cons in * by done. rewrite str_app_cons. by f_equal.
Qed.
Lemma checkComps_ne k cs : checkComps k cs = true → Forall (.≠ "") cs.
Proof.
  revert k. induction cs as [|c cs IH]; intros k; cbn [checkComps]; [done|]. intros H.
  apply andb_prop in H as [H Hcs]. apply andb_prop in H as [H _]. constructor; [|by eapply IH]. intros ->. done.
Qed.
Lemma Clean_comps p q : Clean p false = inl q → ∃ R n, q = pathOf (R ++ [n]) ∧ Forall good R ∧ good n.
Proof.
  intros (_ & _ & _ & _ & _ & _ & Hc)%Clean_inl. apply checkComps_ne in Hc.
  assert (Forall good (Split "/" q)) as Hg.
  { apply Forall_forall. intros c Hin. split; [by eapply Forall_forall in Hc|by eapply Split_parts]. }
  assert (HS := pathOf_Split q). destruct (Split "/" q) as [|n R _] eqn:E using rev_ind; [by apply Split_nonempty in E|].
  exists R, n. apply Forall_app in Hg as [HR [Hn _]%Forall_cons]. by rewrite HS.
Qed.

(** ** Trees that only gain directories *)

(** Outside [E], what was there is there, and only directories are new. *)
Record grows (E : list string → Prop) (fs fs' : nodes) : Prop := {
  gr_old : ∀ cs i x, ¬ E cs → at_ fs cs = Some (i, x) → ∃ x', at_ fs' cs = Some (i, x') ∧ strip x' = strip x;
  gr_new : ∀ cs i x, ¬ E cs → at_ fs' cs = Some (i, x) → isDir x = false → at_ fs cs = Some (i, x);
}.
Definition nowhere (_ : list string) : Prop := False.
#[export] Instance grows_pre E : PreOrder (grows E).
Proof.
  split.
  - intros fs. split; eauto.
  - intros f1 f2 f3 [A1 A2] [B1 B2]. split.
    + intros cs i x Hc H. destruct (A1 _ _ _ Hc H) as (y & Hy & E1). destruct (B1 _ _ _ Hc Hy) as (z & Hz & E2). exists z. split; [done|congruence].
    + intros cs i x Hc H Hx. apply A2; [done| |done]. by apply B2.
Qed.
Lemma grows_sub E fs fs' : grows nowhere fs fs' → grows E fs fs'.
Proof. intros [H1 H2]. split; intros cs i x _; [apply H1|apply H2]; by intros []. Qed.
Lemma grows_eq E fs fs' : (∀ cs, at_ fs' cs = at_ fs cs) → grows E fs fs'.
Proof. intros H. split; intros cs i x _; rewrite H; eauto. Qed.

(** Changes off every path. *)
Lemma at_off fs fs' cs : tree_ok fs → (∀ j, j ≠ stageIno → is_Some (fs !! j) → fs' !! j = fs !! j) → at_ fs' cs = at_ fs cs.
Proof.
  intros Hok Hk. induction cs as [|n cs IH] using rev_ind.
  - destruct (tr_root _ Hok) as (m & es & Hr). unfold at_. simpl. rewrite (Hk rootIno); [done|done|by rewrite Hr].
  - rewrite !at_snoc, IH. destruct (at_ fs cs) as [[d [m es|?|?|]]|] eqn:E; try done. destruct (es !! n) as [j|] eqn:En; [|done]. simpl.
    apply at_walk in E as [_ E]. destruct (tr_closed _ Hok _ _ _ _ _ E En) as [Hj Hs]. by rewrite Hk.
Qed.
Lemma tree_off fs fs' m es : tree_ok fs → (∀ j, j ≠ stageIno → fs !! j = None → ∀ m es, fs' !! j = Some (NDir m es) → False) →
  (∀ j, j ≠ stageIno → is_Some (fs !! j) → fs' !! j = fs !! j) → fs' !! stageIno = Some (NDir m es) →
  (∀ n j, es !! n = Some j → j ≠ stageIno ∧ is_Some (fs' !! j)) → is_Some (fs !! stageIno) → tree_ok fs'.
Proof.
  intros Hok Hnew Hk Hs Hse Hs0. split.
  - intros d m0 es0 n j Hd Hj. destruct (decide (d = stageIno)) as [->|Hds]; [rewrite Hs in Hd; simplify_eq; eauto|].
    destruct (fs !! d) as [x|] eqn:Ex; [|by exfalso; eapply Hnew]. rewrite Hk, Ex in Hd by (done || by rewrite Ex). injection Hd as ->.
    destruct (tr_closed _ Hok _ _ _ _ _ Ex Hj) as [Hjs Hsome]. split; [done|]. by rewrite Hk.
  - destruct (tr_root _ Hok) as (mr & er & Hr). exists mr, er. rewrite Hk; [done|done|by rewrite Hr].
  - intros R R' d m0 es0 x. rewrite !(at_off fs fs' _ Hok Hk). apply (tr_one _ Hok).
Qed.

(** ** The directories on the way *)

Lemma moved_strip (fs : nodes) d m n i es j y : fs !! d = Some (NDir m es) → fs !! j = Some y → (moved n d i m es (j, y)).1 = j ∧ strip (moved n d i m es (j, y)).2 = strip y.
Proof. intros Hd Hj. unfold moved. simpl. case_decide as E; [|done]. subst j. rewrite Hd in Hj. by injection Hj as <-. Qed.

Section upload.
Context (umask : N).

(** Files and the staging directory as they were. *)
Definition filesKept (fs fs' : nodes) : Prop := ∀ j x, fs !! j = Some x → isDir x = false ∨ j = stageIno → fs' !! j = Some x.

Lemma mkdir_grows fs R d m es n md :
  tree_ok fs → at_ fs R = Some (d, NDir m es) → es !! n = None →
  let fs' := addNode d n (NDir md ∅) fs in
  tree_ok fs' ∧ grows nowhere fs fs' ∧ filesKept fs fs' ∧ at_ fs' (R ++ [n]) = Some (newIno fs, NDir md ∅).
Proof.
  intros Hok HR Hen fs'. destruct (newIno_new fs) as (Hnew & _ & His). assert (Hds := tree_reach _ _ _ _ Hok HR). assert (Hd := HR). apply at_walk in Hd as [_ Hd].
  assert (newIno fs ≠ d) as Hid by congruence. destruct (gains_addNode fs d n (NDir md ∅) Hid) as [Gd Gn Gr]. fold fs' in Gd, Gn, Gr.
  specialize (Gd _ _ Hd). specialize (Gn Hid).
  assert (at_ fs (R ++ [n]) = None) as Hnone by (by rewrite at_snoc, HR, Hen).
  assert (∀ j y, at_ fs (R ++ [n]) = Some (j, y) → isDir y = false) as Hn by (intros j y; by rewrite Hnone).
  assert (Hat := at_more fs fs' R n d (newIno fs) m es (NDir md ∅) Hok HR Hn Gd Gn eq_refl Hid His Gr ltac:(by left)).
  split_and!.
  - by apply (tree_more fs fs' R n d (newIno fs) m es (NDir md ∅)); try done; left.
  - split.
    + intros cs i x _ Hc. assert (cs ≠ R ++ [n]) as Hne by (intros ->; congruence). rewrite Hat, decide_False, Hc by done. cbn [fmap option_fmap option_map].
      apply at_walk in Hc as [_ Hc]. destruct (moved_strip fs d m n (newIno fs) es i x Hd Hc) as [E1 E2].
      destruct (moved n d (newIno fs) m es (i, x)) as [i' x']. simpl in *. subst i'. eauto.
    + intros cs i x _. rewrite Hat. case_decide; [by intros [= <- <-]|]. destruct (at_ fs cs) as [[j y]|]; [|done]. simpl. unfold moved. simpl.
      case_decide; intros [= <- <-]; done.
  - intros j x Hj Hx. rewrite Gr; [done| |congruence]. intros ->. destruct Hx as [Hx|Hx]; [|done]. rewrite Hd in Hj. injection Hj as <-. done.
  - by rewrite Hat, decide_True.
Qed.

(** A workspace: a tree, and a staging directory off it. *)
Definition wsOK (fs : nodes) : Prop := tree_ok fs ∧ ∃ m es, fs !! stageIno = Some (NDir m es).
Lemma wsOK_kept fs fs' : tree_ok fs' → filesKept fs fs' → wsOK fs → wsOK fs'.
Proof. intros Hok Hk [_ (m & es & Hs)]. split; [done|]. exists m, es. apply Hk; [done|by right]. Qed.

(** *** One call, however it answers *)

Lemma ends_sys {A} c (f : St Ws (A + errno)) (Q : A + errno → Ws → Prop) s :
  Q (inr EIO) s → Q (f s).1 (f s).2 → ends (syscallM c f : M (A + errno)) Q s.
Proof. intros H1 H2 [|]; cbn; [exact H2|exact H1]. Qed.
Lemma ends_open d rel h (Q : N + wsErr → Ws → Prop) s :
  (∀ i, openat2 (w_nodes s) d rel h = inl i → Q (inl i) s) →
  (openat2 (w_nodes s) d rel h = inr ENOENT → Q (inr ErrNotExist) s) →
  (∀ e, e ≠ ErrNotExist → Q (inr e) s) → ends (openBeneath d rel h) Q s.
Proof.
  intros H1 H2 H3. unfold openBeneath. induction eagainRetries as [|n IH]; [by apply H3|]. intros [|]; cbn.
  - destruct (openat2 (w_nodes s) d rel h) as [i|[]] eqn:E; cbn; auto.
  - intros [|]; [apply IH|by apply H3].
Qed.
Lemma ends_fstat i (Q : stat + errno → Ws → Prop) s :
  Q (inr EIO) s → (∀ st, statOf s i = Some st → Q (inl st) s) → ends (fstat i) Q s.
Proof. intros H1 H2. apply ends_sys; [done|]. cbn. destruct (statOf s i) eqn:E; auto. Qed.
Lemma open_as_dir fs d c m es i : good c → fs !! d = Some (NDir m es) → openat2 fs d c AsDir = inl i →
  es !! c = Some i ∧ ∃ mx ex, fs !! i = Some (NDir mx ex).
Proof.
  intros [Hne Hsl] Hd. unfold openat2. rewrite bool_decide_false by done. rewrite (Split_none _ _ Hsl). simpl. rewrite Hd.
  destruct (es !! c) as [j|]; [|done]. destruct (fs !! j) as [[mx ex|?|?|]|] eqn:Ej; try done. intros [= <-]. eauto.
Qed.

(** What the directories on the way leave. *)
Definition onTheWay (R : list string) (s : Ws) (r : N + wsErr) (s' : Ws) : Prop :=
  wsOK (w_nodes s') ∧ grows nowhere (w_nodes s) (w_nodes s') ∧ filesKept (w_nodes s) (w_nodes s') ∧ sameHeld s s' ∧
  match r with inl d => ∃ m es, at_ (w_nodes s') R = Some (d, NDir m es) | inr _ => True end.
Lemma onTheWay_refl R s r : wsOK (w_nodes s) →
  match r with inl d => ∃ m es, at_ (w_nodes s) R = Some (d, NDir m es) | inr _ => True end → onTheWay R s r s.
Proof. intros Hok Hr. split_and!; [done|done|by intros j x|done|done]. Qed.
Lemma onTheWay_trans R s s1 r s2 :
  grows nowhere (w_nodes s) (w_nodes s1) → filesKept (w_nodes s) (w_nodes s1) → sameHeld s s1 →
  onTheWay R s1 r s2 → onTheWay R s r s2.
Proof.
  intros G K [Hb He] (H1 & H2 & H3 & [Hb' He'] & H5). split_and!; [done|by transitivity (w_nodes s1)|intros j x Hj Hx; apply H3; auto|split; congruence|done].
Qed.

Lemma ends_makeDirs cs : ∀ cur R s m es, wsOK (w_nodes s) → at_ (w_nodes s) R = Some (cur, NDir m es) → Forall good cs →
  ends (makeDirs umask cur cs) (onTheWay (R ++ cs) s) s.
Proof.
  induction cs as [|c cs IH]; intros cur R s m es Hok HR Hg.
  { rewrite app_nil_r. apply onTheWay_refl; [done|by eauto]. }
  apply Forall_cons in Hg as [Hc Hg]. cbn [makeDirs]. assert (Hd := HR). apply at_walk in Hd as [_ Hd].
  assert (∀ s1 m1 es1, wsOK (w_nodes s1) → grows nowhere (w_nodes s) (w_nodes s1) → filesKept (w_nodes s) (w_nodes s1) → sameHeld s s1 →
    at_ (w_nodes s1) R = Some (cur, NDir m1 es1) →
    ends (r ← openBeneath cur c AsDir; match r with inr e => mret (inr e) | inl next => makeDirs umask next cs end : M (N + wsErr))
      (onTheWay (R ++ c :: cs) s) s1) as Hnext.
  { intros s1 m1 es1 Hok1 G K Hh HR1. apply ends_bind. assert (Hd1 := HR1). apply at_walk in Hd1 as [_ Hd1]. apply ends_open.
    - intros i Ho. destruct (open_as_dir _ _ _ _ _ _ Hc Hd1 Ho) as (Ei & mx & ex & Hi).
      assert (at_ (w_nodes s1) (R ++ [c]) = Some (i, NDir mx ex)) as Hat by (rewrite at_snoc, HR1, Ei; simpl; by rewrite Hi).
      specialize (IH i (R ++ [c]) s1 mx ex Hok1 Hat Hg). rewrite <-app_assoc in IH.
      eapply ends_mono; [|exact IH]. intros r s2. by apply onTheWay_trans.
    - intros _. apply (onTheWay_trans _ s s1); [done..|]. by apply onTheWay_refl.
    - intros e _. apply (onTheWay_trans _ s s1); [done..|]. by apply onTheWay_refl. }
  apply ends_bind. apply ends_sys; [by apply onTheWay_refl|].
  destruct (namesOf (w_nodes s) cur !! c) as [i|] eqn:Ec; cbn [fst snd].
  - apply (Hnext s m es); [done|done|by intros j x|done|done].
  - rewrite Hd. cbn [fst snd]. assert (es !! c = None) as Hes by (unfold namesOf in Ec; by rewrite Hd in Ec).
    destruct (mkdir_grows (w_nodes s) R cur m es c (N.ldiff dirMode umask) (proj1 Hok) HR Hes) as (Hok1 & G & K & _).
    destruct (gr_old _ _ _ G _ _ _ (λ H, H) HR) as ([mz ez|?|?|] & Hz & Ez); try done.
    apply (Hnext _ mz ez); [by eapply wsOK_kept|done..].
Qed.

Lemma ends_openDir R s : wsOK (w_nodes s) → Forall good R → ends (openDir umask (pathOf R) true) (onTheWay R s) s.
Proof.
  intros Hok HR. destruct (tr_root _ (proj1 Hok)) as (m & es & Hr). unfold openDir. cbn [negb orb]. destruct (decide (R = [])) as [->|Hne].
  - cbn [pathOf]. change ("" ==? "") with true. cbv iota. apply ends_open; [|intros; by apply onTheWay_refl..].
    intros i Hi. apply onTheWay_refl; [done|]. unfold openat2 in Hi. simpl in Hi. rewrite Hr in Hi. injection Hi as <-. exists m, es. by apply at_walk.
  - assert (HC := comps_pathOf R HR). rewrite bool_decide_false in HC |- * by (by apply pathOf_ne). rewrite HC.
    apply (ends_makeDirs R rootIno [] s m es); [done|by apply at_walk|done].
Qed.

(** ** The rename *)

Lemma dropName_tree fs nm : tree_ok fs → (∃ m es, fs !! stageIno = Some (NDir m es)) →
  tree_ok (dropName stageIno nm fs) ∧ ∀ cs, at_ (dropName stageIno nm fs) cs = at_ fs cs.
Proof.
  intros Hok (m & es & Hs). assert (∀ j, j ≠ stageIno → dropName stageIno nm fs !! j = fs !! j) as Hk by (intros j Hj; by apply lookup_alter_ne).
  assert (dropName stageIno nm fs !! stageIno = Some (NDir m (delete nm es))) as Hs' by (unfold dropName; by rewrite lookup_alter_eq, Hs).
  split; [|intros cs; apply at_off; auto]. apply (tree_off fs _ m (delete nm es)); [done| |auto|done| |by rewrite Hs].
  - intros j Hj Hn m0 es0. rewrite Hk by done. congruence.
  - intros n j Hj. apply lookup_delete_Some in Hj as [_ Hj]. destruct (tr_closed _ Hok _ _ _ _ _ Hs Hj) as [H1 H2]. split; [done|]. by rewrite Hk.
Qed.

(** The staged file [i] takes the name [n] of what is no directory. *)
Lemma rename_tree fs R d m es n i x nm ms ss :
  tree_ok fs → at_ fs R = Some (d, NDir m es) → (∀ j y, at_ fs (R ++ [n]) = Some (j, y) → isDir y = false) →
  fs !! stageIno = Some (NDir ms ss) → fs !! i = Some x → isDir x = false →
  let fs' := addName d n i (dropName stageIno nm fs) in at_ fs' (R ++ [n]) = Some (i, x) ∧ grows (.= R ++ [n]) fs fs' ∧ wsOK fs'.
Proof.
  intros Hok HR Hn Hs Hi Hx fs'. destruct (dropName_tree fs nm Hok) as [Hok1 Hat1]; [by eauto|]. set (fs1 := dropName stageIno nm fs) in *.
  assert (i ≠ stageIno) as His by (intros ->; rewrite Hs in Hi; injection Hi as <-; done).
  assert (Hds := tree_reach _ _ _ _ Hok HR). assert (Hd := HR). apply at_walk in Hd as [_ Hd].
  assert (i ≠ d) as Hid by (intros ->; rewrite Hd in Hi; injection Hi as <-; done).
  assert (fs1 !! i = Some x) as Hi1 by (unfold fs1, dropName; by rewrite lookup_alter_ne).
  assert (fs1 !! d = Some (NDir m es)) as Hd1 by (unfold fs1, dropName; by rewrite lookup_alter_ne).
  destruct (gains_addName fs1 d n i x Hi1) as [Gd Gn Gr]. fold fs' in Gd, Gn, Gr. specialize (Gd _ _ Hd1). specialize (Gn Hid).
  rewrite <-Hat1 in HR. assert (∀ j y, at_ fs1 (R ++ [n]) = Some (j, y) → isDir y = false) as Hn1 by (intros j y; rewrite Hat1; apply Hn).
  assert (Hat := at_more fs1 fs' R n d i m es x Hok1 HR Hn1 Gd Gn ltac:(by destruct x) Hid His Gr ltac:(by right)).
  split; [by rewrite Hat, decide_True|]. split; [split|].
  - intros cs j y Hc. rewrite <-Hat1. intros Hcs. rewrite Hat, decide_False, Hcs by done. cbn [fmap option_fmap option_map].
    apply at_walk in Hcs as [_ Hcs]. destruct (moved_strip fs1 d m n i es j y Hd1 Hcs) as [E1 E2].
    destruct (moved n d i m es (j, y)) as [j' y']. simpl in *. subst j'. eauto.
  - intros cs j y Hc. rewrite <-(Hat1 cs), Hat, decide_False by done. destruct (at_ fs1 cs) as [[j0 y0]|]; [|done]. simpl. unfold moved. simpl.
    case_decide; intros [= <- <-]; done.
  - split; [by apply (tree_more fs1 fs' R n d i m es x); try done; [by destruct x|by right]|].
    exists ms, (delete nm ss). rewrite Gr by done. unfold fs1, dropName. by rewrite lookup_alter_eq, Hs.
Qed.

Lemma alone_fstat i u : alone (fstat i) u = (match statOf u i with Some st => inl st | None => inr EIO end, u).
Proof. unfold fstat. by rewrite alone_syscall. Qed.
Lemma statOf_kind u i x : w_nodes u !! i = Some x → ∃ st, statOf u i = Some st ∧ (st_kind st = KDir ↔ isDir x = true).
Proof. intros Hi. unfold statOf. rewrite Hi. destruct x; eexists; (split; [reflexivity|done]). Qed.

Lemma open_absent fs R d m es n : tree_ok fs → at_ fs R = Some (d, NDir m es) → good n → openat2 fs d n ByPath = inr ENOENT → es !! n = None.
Proof.
  intros Hok HR [Hne Hsl] Ho. assert (Hd := HR). apply at_walk in Hd as [_ Hd]. destruct (es !! n) as [j|] eqn:En; [|done]. exfalso.
  destruct (tr_closed _ Hok _ _ _ _ _ Hd En) as [_ [y Hy]]. revert Ho. unfold openat2. rewrite bool_decide_false by done.
  rewrite (Split_none _ _ Hsl). simpl. by rewrite Hd, En, Hy.
Qed.
Lemma open_there fs d n m es j : good n → fs !! d = Some (NDir m es) → openat2 fs d n ByPath = inl j → es !! n = Some j ∧ is_Some (fs !! j).
Proof.
  intros [Hne Hsl] Hd. unfold openat2. rewrite bool_decide_false by done. rewrite (Split_none _ _ Hsl). simpl. rewrite Hd.
  destruct (es !! n) as [k|]; [|done]. destruct (fs !! k) as [y|] eqn:Ek; [|done]. intros [= <-]. by rewrite Ek.
Qed.

(** The staged file takes its name, or nothing changes; once it has, no call
    that fails takes it back. *)
Lemma ends_place R n d m es nm i x ms ss u :
  tree_ok (w_nodes u) → at_ (w_nodes u) R = Some (d, NDir m es) → good n →
  w_nodes u !! stageIno = Some (NDir ms ss) → ss !! nm = Some i → w_nodes u !! i = Some x → isDir x = false →
  ends (place d nm n) (λ r v, sameHeld u v ∧
    match r with
    | inl _ => at_ (w_nodes v) (R ++ [n]) = Some (i, x) ∧ grows (.= R ++ [n]) (w_nodes u) (w_nodes v) ∧ wsOK (w_nodes v)
    | inr _ => w_nodes v = w_nodes u
    end) u.
Proof.
  intros Hok HR Hg Hs Hss Hi Hx. assert (Hd := HR). apply at_walk in Hd as [_ Hd].
  assert (HT := rename_tree (w_nodes u) R d m es n i x nm ms ss Hok HR).
  set (Q := λ (r : bool * Z + wsErr) (v : Ws), _).
  assert (∀ old : option N, (∀ j y, at_ (w_nodes u) (R ++ [n]) = Some (j, y) → isDir y = false) →
    ends (r ← renameat stageIno nm d n;
      match r with
      | inr EISDIR | inr EEXIST => mret (inr ErrNotRegular)
      | inr _ => mret (inr ErrOther)
      | inl _ =>
          (syscallM SSync (gets (λ _, inl tt)) : M (unit + errno)) ≫= λ _,
          match old with
          | None => mret (inl (false, 0%Z))
          | Some old =>
              st ← fstat old;
              match st with
              | inl st => if (st_nlink st =? 0)%nat then freed ← disown (st_ino st); mret (inl (true, freed)) else mret (inl (true, 0%Z))
              | inr _ => mret (inl (true, 0%Z))
              end
          end
      end : M (bool * Z + wsErr)) Q u) as Hren.
  { intros old Hn. specialize (HT Hn Hs Hi Hx). apply ends_bind, ends_sys; [by cbn|].
    unfold namesOf. rewrite Hs, Hss, Hd. destruct (es !! n ≫= λ j, w_nodes u !! j) as [[?m ?e|?m ?b|?t|]|]; cbn [fst snd]; try by cbn.
    all: apply ends_bind, ends_sys; (destruct old as [old|]; [|by cbn]); (apply ends_bind, ends_fstat; [by cbn|]);
      intros st _; destruct (st_nlink st =? 0)%nat; by cbn. }
  unfold place. apply ends_bind, ends_open.
  - intros j Ho. destruct (open_there _ _ _ _ _ _ Hg Hd Ho) as (En & y & Hy). apply ends_bind, ends_bind, ends_fstat; [by cbn|].
    intros st Hst. destruct (statOf_kind u j y Hy) as (st' & Est & Hkind). assert (st' = st) as -> by congruence.
    destruct (st_kind st) eqn:Ek; cbn [ends mret prog_ret]; [by cbn|..];
      (apply (Hren (Some j)); intros j0 y0; rewrite at_snoc, HR, En; simpl; rewrite Hy; simpl; intros [= <- <-];
       destruct (isDir y); [|done]; destruct Hkind as [_ Hkind]; specialize (Hkind eq_refl); congruence).
  - intros Ho. assert (En := open_absent _ _ _ _ _ _ Hok HR Hg Ho). apply ends_bind. cbn [ends mret prog_ret].
    apply (Hren None). intros j0 y0. by rewrite at_snoc, HR, En.
  - intros e He. apply ends_bind. destruct e; try done; by cbn.
Qed.

(** ** Staged, checked, and renamed *)

(** The file in the staging directory, beside what is there. *)
Definition stagedIn (fs fs' : nodes) (nm : string) (x : node) : Prop :=
  (∃ ms ss, fs !! stageIno = Some (NDir ms ss) ∧ fs' !! stageIno = Some (NDir ms (<[nm := newIno fs]> ss))) ∧ fs' !! newIno fs = Some x ∧
  ∀ j, j ≠ stageIno → j ≠ newIno fs → fs' !! j = fs !! j.

Lemma staged_tree fs fs' nm x : tree_ok fs → stagedIn fs fs' nm x → isDir x = false → wsOK fs' ∧ ∀ cs, at_ fs' cs = at_ fs cs.
Proof.
  intros Hok ((ms & ss & Hs0 & Hs) & Hi & Hr) Hx. destruct (newIno_new fs) as (Hnew & _ & His).
  assert (∀ j, j ≠ stageIno → is_Some (fs !! j) → fs' !! j = fs !! j) as Hk by (intros j Hj [y Hy]; apply Hr; congruence).
  split; [|intros cs; by apply at_off]. split; [|by eauto].
  apply (tree_off fs fs' ms (<[ nm := newIno fs ]> ss)); [done| |done|done| |by rewrite Hs0].
  - intros j Hj Hn m es Hj'. destruct (decide (j = newIno fs)) as [->|Hne]; [rewrite Hi in Hj'; injection Hj' as ->; done|]. rewrite Hr in Hj' by done. congruence.
  - intros n j [[<- <-]|[_ Hj]]%lookup_insert_Some; [by rewrite Hi|]. destruct (tr_closed _ Hok _ _ _ _ _ Hs0 Hj) as [Hjs Hsome].
    split; [done|]. by rewrite Hk.
Qed.

(** What a refusal leaves: the files, and the counter as it was. *)
Definition refused (fs : nodes) (u v : Ws) : Prop := grows nowhere fs (w_nodes v) ∧ sameHeld u v ∧ wsOK (w_nodes v).

(** The staging name is dropped, if that call works, and the error returned. *)
Lemma ends_refuse {A} fs u v nm e (Q : A + wsErr → Ws → Prop) :
  refused fs u v → (∀ v', refused fs u v' → Q (inr e) v') →
  ends (unlinkat stageIno nm ≫= λ _, mret (inr e) : M (A + wsErr)) Q v.
Proof.
  intros (Hg & Hh & Hok) HQ [|]; cbn; apply HQ; [|by split_and!]. destruct (dropName_tree (w_nodes v) nm (proj1 Hok) (proj2 Hok)) as [Hok1 Hat1].
  split_and!; [transitivity (w_nodes v); [done|by apply grows_eq]|done|]. split; [done|]. destruct Hok as [_ (m & es & Hs)].
  exists m, (delete nm es). change (dropName stageIno nm (w_nodes v) !! stageIno = Some (NDir m (delete nm es))).
  unfold dropName. by rewrite lookup_alter_eq, Hs.
Qed.

Lemma ends_settle fs nm x R n size es u : tree_ok fs → stagedIn fs (w_nodes u) nm x → isDir x = false → Forall good R → good n →
  ends (settle umask (newIno fs) nm (pathOf (R ++ [n])) size es) (λ r v,
    match r with
    | inl _ => at_ (w_nodes v) (R ++ [n]) = Some (newIno fs, x) ∧ grows (.= R ++ [n]) fs (w_nodes v) ∧ wsOK (w_nodes v)
    | inr _ => refused fs u v
    end) u.
Proof.
  intros Hok HS Hx HR Hn. destruct (staged_tree _ _ _ _ Hok HS Hx) as [Hoku Hatu]. destruct HS as ((ms & ss & _ & Hs) & Hi & _).
  unfold settle. rewrite split_pathOf by done. apply ends_bind. eapply ends_mono; [|by apply ends_openDir].
  intros r1 u1 (Hok1 & Hg1 & Hk1 & Hh1 & Hr1).
  assert (w_nodes u1 !! stageIno = Some (NDir ms (<[ nm := newIno fs ]> ss))) as Hs1 by (apply Hk1; [done|by right]).
  assert (w_nodes u1 !! newIno fs = Some x) as Hi1 by (apply Hk1; [done|by left]).
  assert (grows nowhere fs (w_nodes u1)) as Hgf by (transitivity (w_nodes u); [by apply grows_eq|done]).
  destruct r1 as [d|e]; [|by apply (ends_refuse fs u); [split_and!|]]. destruct Hr1 as (m & ees & Hd). apply ends_bind.
  eapply ends_mono; [|apply (ends_place R n d m ees nm (newIno fs) x ms (<[ nm := newIno fs ]> ss) u1);
    [apply Hok1|done|done|done|by rewrite lookup_insert_eq|done|done]].
  intros r2 u2 [Hh2 Hr2]. destruct r2 as [[replaced freed]|e].
  - destruct Hr2 as (Hat2 & Hg2 & Hok2). assert (grows (.= R ++ [n]) fs (w_nodes u2)) as Hg by (transitivity (w_nodes u1); [by apply grows_sub|done]).
    assert (∀ q, w_nodes q = w_nodes u2 → ends ((if replaced then Release freed es else mret tt) ≫= λ _, mret (inl (replaced, freed)) : M (bool * Z + wsErr))
      (λ r v, match r with inl _ => at_ (w_nodes v) (R ++ [n]) = Some (newIno fs, x) ∧ grows (.= R ++ [n]) fs (w_nodes v) ∧ wsOK (w_nodes v) | inr _ => refused fs u v end) q) as Htail.
    { intros q Eq. destruct replaced; cbn; by rewrite Eq. }
    apply ends_bind. unfold own. apply ends_bind, ends_fstat; [by apply Htail|]. intros st _. by apply Htail.
  - apply (ends_refuse fs u); [|done]. unfold refused. rewrite Hr2. split_and!; [done| |done]. destruct Hh1, Hh2. split; congruence.
Qed.

Context (sha256 : string → string) (pid : string) (o : Options).

Lemma ends_stageFile mode u : wsOK (w_nodes u) →
  ends (stageFile pid umask mode) (λ r v, sameHeld u v ∧
    match r with
    | inl (i, nm) => i = newIno (w_nodes u) ∧ stagedIn (w_nodes u) (w_nodes v) nm (NReg (N.land mode modePerm) "")
    | inr _ => refused (w_nodes u) u v
    end) u.
Proof.
  intros Hok. assert (Hs := proj2 Hok). destruct Hs as (ms & ss & Hs). destruct (newIno_new (w_nodes u)) as (Hnew & _ & His).
  assert (∀ q, w_nodes q = w_nodes u → sameHeld u q → sameHeld u q ∧ refused (w_nodes u) u q) as Hback
    by (intros q Eq Hq; split; [done|]; unfold refused; by rewrite Eq).
  unfold stageFile. apply ends_bind. cbn [hold ends fst snd]. set (nm := pid +:+ "." +:+ FormatUint _). set (u1 := set_seq _ u).
  apply ends_bind, ends_sys; [by apply Hback|]. change (w_nodes u1) with (w_nodes u).
  destruct (namesOf (w_nodes u) stageIno !! nm) as [k|] eqn:En; cbn [fst snd]; [by apply Hback|].
  destruct (gains_addNode (w_nodes u) stageIno nm (NReg (N.ldiff (N.land mode modePerm) umask) "") His) as [Gd Gn Gr].
  specialize (Gd _ _ Hs). specialize (Gn His). set (fs1 := addNode stageIno nm _ (w_nodes u)) in *.
  assert (stagedIn (w_nodes u) fs1 nm (NReg (N.ldiff (N.land mode modePerm) umask) "")) as S1.
  { split; [by eauto|]. split; [done|]. intros j Hj Hji. by apply Gr. }
  apply ends_bind, ends_sys.
  - destruct (staged_tree _ _ _ _ (proj1 Hok) S1 eq_refl) as [Hok1 Hat1].
    apply (ends_refuse (w_nodes u) u); [split_and!; [by apply grows_eq|done|done]|]. intros v' Hv. split; [apply Hv|exact Hv].
  - cbn [fst snd ends mret prog_ret]. split; [done|]. split; [done|]. cbn [w_nodes set_nodes]. fold fs1. split; [|split].
    + exists ms, ss. split; [done|]. by rewrite lookup_alter_ne.
    + by rewrite lookup_alter_eq, Gn.
    + intros j Hj Hji. rewrite lookup_alter_ne by done. by apply Gr.
Qed.

Lemma ends_fill fs nm mode r size sum u : stagedIn fs (w_nodes u) nm (NReg mode "") → newIno fs ≠ stageIno →
  ends (fillStaged sha256 o (newIno fs) r size sum) (λ res v, sameHeld u v ∧
    match res with
    | inl got => stagedIn fs (w_nodes v) nm (NReg mode (bd_data r)) ∧
        got = sha256 (bd_data r) ∧ size = Z.of_nat (String.length (bd_data r)) ∧ bd_fails r = false ∧ ∀ x, sum = Some x → x = got
    | inr _ => ∃ b, stagedIn fs (w_nodes v) nm (NReg mode b)
    end) u.
Proof.
  intros S0 His. unfold fillStaged. apply ends_bind, ends_sys; [split; [done|by eexists]|]. cbn [fst snd]. set (u1 := set_nodes _ u).
  assert (stagedIn fs (w_nodes u1) nm (NReg mode (str_take (Z.to_nat size) (bd_data r)))) as HS.
  { destruct S0 as (Hs & Hi & Hr). destruct Hs as (ms & ss & Hs0 & Hs). split; [|split].
    - exists ms, ss. split; [done|]. cbn. by rewrite lookup_alter_ne.
    - cbn. by rewrite lookup_alter_eq, Hi.
    - intros j Hj Hji. cbn. rewrite lookup_alter_ne by done. by apply Hr. }
  assert (sameHeld u u1 ∧ ∃ b, stagedIn fs (w_nodes u1) nm (NReg mode b)) as Hbad by (split; [done|by eexists]).
  destruct (Z.of_nat _ <? size)%Z eqn:E1; [exact Hbad|]. destruct (size <? Z.of_nat _)%Z eqn:E2; [exact Hbad|].
  destruct (bd_fails r) eqn:Ef; [exact Hbad|]. cbv zeta. destruct (match sum with Some x => _ | None => _ end) eqn:E3; [exact Hbad|].
  assert (∀ x, sum = Some x → x = sha256 (bd_data r)) as Hsum by (intros x ->; by case_bool_decide).
  assert (size = Z.of_nat (String.length (bd_data r))) as Hsz by lia. rewrite str_take_all in HS by lia.
  apply ends_bind. destruct (o_Owner o); [apply ends_sys; [exact Hbad|]|];
    (apply ends_bind, ends_sys; [exact Hbad|by cbn]).
Qed.

Lemma ends_write R n size mode sum r es u : wsOK (w_nodes u) → Forall good R → good n →
  ends (write sha256 pid umask o (pathOf (R ++ [n])) size mode sum r es) (λ res v,
    match res with
    | inl info => i_SHA256 info = sha256 (bd_data r) ∧ size = Z.of_nat (String.length (bd_data r)) ∧ bd_fails r = false ∧ (∀ x, sum = Some x → x = sha256 (bd_data r)) ∧
        (∃ i, at_ (w_nodes v) (R ++ [n]) = Some (i, NReg (N.land mode modePerm) (bd_data r))) ∧ grows (.= R ++ [n]) (w_nodes u) (w_nodes v) ∧ wsOK (w_nodes v)
    | inr _ => refused (w_nodes u) u v
    end) u.
Proof.
  intros Hok HR Hn. destruct (newIno_new (w_nodes u)) as (_ & _ & His). unfold write. apply ends_bind.
  eapply ends_mono; [|by apply ends_stageFile]. intros [[i nm]|e] u1 [Hh1 H1]; [|done]. destruct H1 as [-> S1]. apply ends_bind.
  eapply ends_mono; [|by apply ends_fill]. intros [got|e] u2 [Hh2 H2]; cbn beta iota in H2.
  - destruct H2 as (S2 & -> & Hsz & Hfail & Hsum). destruct (staged_tree _ _ _ _ (proj1 Hok) S2 eq_refl) as [Hok2 Hat2].
    assert (sameHeld u u2) as Hh by (destruct Hh1, Hh2; split; congruence).
    apply ends_bind, ends_fstat.
    + apply (ends_refuse (w_nodes u) u); [split_and!; [by apply grows_eq|done|done]|done].
    + intros st _. apply ends_bind. eapply ends_mono; [|by apply (ends_settle (w_nodes u) nm _ R n size es u2 (proj1 Hok) S2)].
      intros [rf|e] u3 H3; cbn.
      * destruct H3 as (Hat & Hg & Hok3). split_and!; [done|done|done|done|by eexists|done|done].
      * destruct H3 as (Hg & Hh3 & Hok3). split_and!; [done|destruct Hh, Hh3; split; congruence|done].
  - destruct H2 as [b S2]. destruct (staged_tree _ _ _ _ (proj1 Hok) S2 eq_refl) as [Hok2 Hat2].
    apply (ends_refuse (w_nodes u) u); [|done]. split_and!; [by apply grows_eq|destruct Hh1, Hh2; split; congruence|done].
Qed.

Lemma alone_openRegular_path cs i m b s : Forall good cs → at_ (w_nodes s) cs = Some (i, NReg m b) →
  alone (openRegular rootIno (pathOf cs)) s = (inl (regStat s i m b), s).
Proof.
  intros Hg [Hw Hi]%at_walk. unfold openRegular. rewrite alone_bind, alone_open.
  assert (openat2 (w_nodes s) rootIno (pathOf cs) ByPath = inl i) as -> by (unfold openat2; by rewrite comps_pathOf, Hw, Hi).
  assert (statOf s i = Some (regStat s i m b)) as Hst by (unfold statOf; by rewrite Hi).
  cbn [fst snd]. rewrite alone_bind, alone_fstat, Hst. cbn [fst snd st_kind regStat]. rewrite alone_bind, alone_syscall. cbn [fst snd gets].
  rewrite alone_bind, alone_fstat, Hst. cbn [fst snd st_kind regStat alone mret prog_ret st_ino]. by rewrite N.eqb_refl.
Qed.

Lemma wrap64_back b z : (- 2 ^ 63 ≤ b < 2 ^ 63)%Z → wrap64 (wrap64 (b + z) - z) = b.
Proof.
  intros Hb. unfold wrap64. replace ((b + z + 2 ^ 63) mod 2 ^ 64 - 2 ^ 63 - z + 2 ^ 63)%Z with ((b + z + 2 ^ 63) mod 2 ^ 64 - z)%Z by lia.
  rewrite Zminus_mod_idemp_l. replace (b + z + 2 ^ 63 - z)%Z with (b + 2 ^ 63)%Z by lia. rewrite Z.mod_small; lia.
Qed.
Lemma ends_exists rel (Q : bool → Ws → Prop) s : (∀ b, Q b s) → ends (exists_ umask rel) Q s.
Proof.
  intros HQ. unfold exists_. destruct (split rel). apply ends_bind. unfold openDir. cbn [negb orb].
  apply ends_open; [|intros; apply HQ..]. intros i _. apply ends_bind, ends_sys; cbn; apply HQ.
Qed.
End upload.

(** C17: an upload is all or nothing.  With no one else about, and whichever of
    its system calls fail, an acknowledged Upload got exactly the bytes declared,
    with the sum declared, and a Download of its path (whose own calls work)
    reads those bytes back; everything else is as it was, but for directories on
    the way.  A refused Upload, for a check or for a call that failed, changes no
    file, adds none, and gives its reservation back.  Either way the workspace
    is left ready for the next, whatever lies in its staging directory. *)
Theorem upload_all_or_nothing sha256 pid umask o s p size mode sum r :
  wsOK (w_nodes s) → (- 2 ^ 63 ≤ w_bytes s < 2 ^ 63)%Z → (- 2 ^ 63 ≤ w_entries s < 2 ^ 63)%Z →
  ends (Upload sha256 pid umask o p size mode sum r) (λ res u,
    match res with
    | inl info =>
        size = Z.of_nat (String.length (bd_data r)) ∧ bd_fails r = false ∧ (∀ x, sum = Some x → x = sha256 (bd_data r)) ∧ i_SHA256 info = sha256 (bd_data r) ∧
        (∃ f, alone (Download p 0) u = (inl f, u) ∧ i_Size (f_info f) = size ∧
           (alone (Read (String.length (bd_data r)) f) u).1.1.1 = bd_data r) ∧
        ∃ cs, Clean p false = inl (pathOf cs) ∧ grows (.= cs) (w_nodes s) (w_nodes u)
    | inr _ => grows nowhere (w_nodes s) (w_nodes u) ∧ sameHeld s u
    end ∧ wsOK (w_nodes u)) s.
Proof.
  intros Hok Hb He. unfold Upload. destruct (Clean p false) as [q|e] eqn:Ec; [|done].
  destruct (Clean_comps p q Ec) as (R & n & -> & HR & Hn). destruct (size <? 0)%Z; [done|].
  destruct (match sum with Some _ => _ | None => _ end); [done|]. cbv zeta. set (md := if (_ =? 0)%N then _ else _).
  apply ends_bind, ends_exists. intros b. set (es := if b then 0%Z else 1%Z). apply ends_bind.
  set (s1 := set_held (wrap64 (w_bytes s + size)) (wrap64 (w_entries s + es)) s).
  unfold Reserve. cbn [hold ends fst snd]. destruct (_ || _); [done|]. destruct (_ || _); [done|]. cbn [fst snd]. fold s1.
  apply ends_bind. eapply ends_mono; [|by apply (ends_write umask sha256 pid o R n size md sum r es s1 Hok HR Hn)].
  intros [info|e] s2 HW.
  - destruct HW as (H1 & H2 & H3 & H4 & (i & H5) & H6 & H7). cbn [ends mret prog_ret]. split; [|done].
    split_and!; [done|done|done|done| |by eexists].
    unfold Download. rewrite Ec. cbn [Z.ltb Z.compare]. rewrite alone_bind, (alone_openRegular_path (R ++ [n]) i (N.land md modePerm) (bd_data r));
      [|by apply Forall_app_2, Forall_singleton|done]. cbn [fst snd alone mret prog_ret]. eexists. split; [reflexivity|].
    cbn [f_info infoOf i_Size st_kind st_size regStat]. split; [done|]. unfold Read. cbn [f_remaining f_ino f_pos st_size st_ino regStat].
    rewrite Z.sub_0_r, Z.max_l by lia. destruct (Z.of_nat (String.length (bd_data r)) <=? 0)%Z eqn:E0.
    + cbn. symmetry. apply str_length_0. lia.
    + rewrite Z.ltb_irrefl. cbn [alone hold gets fst snd mbind prog_bind bindP mret prog_ret]. unfold dataOf. apply at_walk in H5 as [_ ->].
      rewrite str_take_all by (rewrite str_length_drop; lia). by destruct (bd_data r).
  - destruct HW as (Hg & [Eb Ee] & Hok2). apply ends_bind. cbn. split; [|done]. split; [done|].
    split; cbn; [rewrite Eb|rewrite Ee]; by apply wrap64_back.
Qed.

(** A file over another, then one whose sum is wrong. *)
Definition upOptions : Options := mkOptions (mkLimits 10 5) (mkLimits 10 5) false.
Definition upWs : Ws :=
  set_nodes (<[rootIno := NDir 493 (<["a" := 2%N]> ∅)]> (<[stageIno := NDir 448 ∅]> (<[2%N := NReg 420 "old"]> ∅))) newWs.
Lemma upWs_ok : wsOK (w_nodes upWs).
Proof.
  assert (∀ d m es n j, w_nodes upWs !! d = Some (NDir m es) → es !! n = Some j → d = rootIno ∧ j = 2%N) as Hn.
  { intros d m es n j Hd Hj. cbn in Hd. repeat (apply lookup_insert_Some in Hd as [[<- Hd]|[_ Hd]]); simplify_eq/=.
    by apply lookup_insert_Some in Hj as [[<- <-]|[_ Hj]]. }
  assert (∀ cs i m es, at_ (w_nodes upWs) cs = Some (i, NDir m es) → cs = []) as Hroot.
  { intros cs i m es. destruct cs as [|n cs _] using rev_ind; [done|]. rewrite at_snoc. destruct (at_ (w_nodes upWs) cs) as [[d [m0 es0|?|?|]]|] eqn:E; try done.
    apply at_walk in E as [_ E]. destruct (es0 !! n) as [j|] eqn:En; [|done]. destruct (Hn _ _ _ _ _ E En) as [-> ->]. by vm_compute. }
  split; [|by eexists _, _]. split.
  - intros d m es n j Hd Hj. destruct (Hn _ _ _ _ _ Hd Hj) as [-> ->]. split; [done|by eexists].
  - by eexists _, _.
  - intros R R' d m es x H H'. assert (Hx := H). apply at_walk in Hx as [_ Hx]. assert (Hx' := H'). apply at_walk in Hx' as [_ Hx'].
    rewrite Hx in Hx'. injection Hx' as <-. by rewrite (Hroot _ _ _ _ H), (Hroot _ _ _ _ H').
Qed.

(** The run whose calls answer [bs]. *)
Definition upRun (bs : list bool) (sum : option string) : (Info + wsErr) * Ws :=
  answering bs (Upload (λ x, x) "1" 18 upOptions "a" 3 420 sum (mkBody "new" false)) upWs.
(** Every call up to the rename works; that fails, and the unlink after it. *)
Definition renameFails : list bool := repeat true 10 ++ [false; false].
(** The rename works; the fsync of the directory after it fails. *)
Definition syncFails : list bool := repeat true 11 ++ [false].
Lemma upload_all_or_nothing_witness :
  (∃ info, (upRun syncFails None).1 = inl info) ∧
  (∃ f, alone (Download "a" 0) (upRun syncFails None).2 = (inl f, (upRun syncFails None).2) ∧ (alone (Read 3 f) (upRun syncFails None).2).1.1.1 = "new") ∧
  (upRun renameFails None).1 = inr ErrOther ∧ grows nowhere (w_nodes upWs) (w_nodes (upRun renameFails None).2) ∧
  (upRun [] (Some "01234567890123456789012345678901")).1 = inr ErrChecksum.
Proof.
  assert (HT := λ bs sum, ends_answering bs _ _ _ (upload_all_or_nothing (λ x, x) "1" 18 upOptions upWs "a" 3 420 sum (mkBody "new" false) upWs_ok
    (conj (Zle_bool_imp_le (- 2 ^ 63) 0 eq_refl) eq_refl) (conj (Zle_bool_imp_le (- 2 ^ 63) 0 eq_refl) eq_refl))).
  split; [eexists; vm_compute; reflexivity|]. split; [|split; [vm_compute; reflexivity|split; [|vm_compute; reflexivity]]].
  - specialize (HT syncFails None). fold (upRun syncFails None) in HT. destruct (upRun syncFails None) as [[info|e] u] eqn:E; [|vm_compute in E; discriminate].
    destruct HT as [(_ & _ & _ & _ & (f & H1 & _ & H2) & _) _]. exists f. split; [exact H1|exact H2].
  - specialize (HT renameFails None). fold (upRun renameFails None) in HT.
    destruct (upRun renameFails None) as [[info|e] u] eqn:E; [vm_compute in E; discriminate|]. exact (proj1 (proj1 HT)).
Defined.
